(* ===== verification/_CoqProject ===== *)
-Q . S2P
Prelude.v
Endian.v
Storage.v
StoreIter.v
Types.v
Fee.v
Errors.v
State.v
Current.v
Concrete.v
Transactions.v
Module.v
Tables.v
Signatures.v
CallFormat.v
Core.v
Consensus.v
Amounts.v
Gas.v
ConcreteCore.v
Accounts.v
Ledger.v
Accounting.v
Nonces.v
Disbursement.v
Tokens.v
Moves.v
Supplies.v
ConcreteAccounts.v
ConsensusAccounts.v
Delegations.v
Flows.v
Reclaims.v
Bridge.v
ConcreteConsensus.v
Rewards.v
Payouts.v
ConcreteRewards.v
Dispatcher.v
Dispatch.v
Subcall.v
Estimate.v
ConcreteDispatch.v
EvmTypes.v
Rofl.v
Market.v
MarketTables.v
Endorsements.v
MarketWp.v
MarketInv.v
MarketHandlers.v
MarketPay.v
ConcreteMarket.v
RoflTables.v
Expiry.v
RoflSafety.v
Instances.v
ConcreteRofl.v
Metering.v
Metered.v
MeterRegions.v
MeterPaths.v
MeterCharges.v
ContractTypes.v
ValidModules.v
ConfidentialStore.v
HostMemory.v
HostFunctions.v
Contracts.v
Isolation.v
ContractsGas.v
Registry.v
Deployments.v
ConcreteContracts.v
EvmBackend.v
EvmPrecompiles.v
Evm.v
EvmFrames.v
EvmClaims.v
ConcreteEvm.v
