(* ===== verification/Prelude.v ===== *)
(** * A verification of the core of the Oasis runtime SDK

    The runtime SDK (src/runtime-sdk/src) is the library from which Oasis runtimes are built: a
    dispatcher receives batches of transactions from the node, verifies and authenticates them, runs
    their calls on a nested, transactional state, and lets a tuple of modules handle the methods and
    hooks. This development models that core, operation by operation, and proves what makes it correct.

    ** The program and its model

    Effectful code is modelled in the monad [ST S E] of this file: a function from a state to an
    outcome (a value, an error [E], or a panic) and a state. [M E] is that monad over the execution
    state. Panics are outcomes, so that a theorem which says that an operation returns [Ok] also says
    that it does not panic. Machine integers are numbers [N] with the checked, saturating and wrapping
    operations of the source at their widths ([u32_max], [u64_max], [u128_max]). A [BTreeMap] is a
    finite map iterated in the order of its keys ([btree_iter]).

    - [Storage], [StoreIter]: storage/{mod,overlay,prefix,mkvs}.rs. A store is a stack of overlays over
      the root key-value store; iterators are cursors; prefix stores are paths into the current store.
    - [Types]: types/{address,token,transaction}.rs and crypto/multisig. Transactions, their
      verification and signing. Signatures, hashes and encodings are parameters ([Crypto], [TxCodec]).
    - [Fee]: modules/accounts/fee.rs, the manager of the fees of a block.
    - [Errors]: error.rs and the error enumerations of the dispatcher and of the core module.
    - [State], [Current], [Transactions]: state.rs, event.rs, sender.rs, storage/typed.rs and the
      transcript of crypto/random.rs. [State] is the nested state with its operations, [Current] the
      scopes of [CurrentState] (values, typed stores, parameters, transactions, entering a root state)
      with the framing lemmas that all later files use, [Transactions] the properties of transactions.
    - [Module]: module.rs and context.rs. The traits of a module as the record [Handlers], and the
      composition of tuples of modules.
    - [CallFormat]: callformat.rs, with the cipher as a parameter ([CallCrypto]), and the leaf generators of
      crypto/random.rs ([VrfCrypto]).
    - [Core], [Gas]: modules/core/mod.rs; [Gas] has the properties.
    - [Accounts], [Ledger], [Accounting], [Nonces], [Disbursement], [Tokens], [Supplies], [Moves]:
      modules/accounts/mod.rs. [Accounts] has the operations; [Ledger] is an abstract ledger and the
      refinement of the stored tables to it; the others prove the properties on top of it, [Moves]
      those that other modules use, and what they leave alone.
    - [Tables]: typed tables in the store as finite maps, the confinement of an operation to the
      keys of its module, and weakest preconditions over views of tables; [Endian]: integers as big-endian bytes, as keys of tables use them.
    - [Consensus], [Amounts]: modules/consensus/mod.rs and history.rs. The consensus layer and its
      history are parameters ([ConsensusLayer]); the interface [ConsensusAPI] is what other modules
      call, and [ConsensusContract] what they rely on, which the module is shown to keep.
    - [ConsensusAccounts], [Delegations], [Flows], [Reclaims], [Bridge]:
      modules/consensus_accounts. [ConsensusAccounts] has the operations; [Delegations] refines its
      tables to finite maps, [Flows] runs its operations on the ledger and the shares side by side,
      [Reclaims] is the end of a block, [Bridge] the state machine of the messages in flight and the
      invariant check.
    - [Rewards], [Payouts]: modules/rewards and modules/access; [Payouts] has the properties.
    - [Dispatcher], [Dispatch]: dispatcher.rs, runtime.rs, config.rs, schedule_control.rs; [Dispatch]
      has the properties, which hold for any modules that respect the interface [FramedHandlers].
    - [Subcall]: subcall.rs, calls made by a module on behalf of a caller, with its properties.
    - [Estimate]: the simulation of a call and the binary search for its gas of modules/core/mod.rs.
    - [Rofl]: modules/rofl, the registry of attested off-chain instances: app ids, policies, errors,
      state, calls, queries, the proxy for fees and the end of a block. [RoflTables] refines its tables
      to finite maps and has the invariant of registrations and their expiry queue,
      [Expiry] the removal of expired ones, [RoflSafety] the preservation of the invariant by all
      operations, [Instances] the claims about registered instances.
    - [Market]: src/runtime-sdk/modules/rofl-market, providers, offers, instances and commands. It calls
      the registry through the interface [RoflAPI]. [Endorsements] is the evaluator of endorsement
      policies and its meaning; [MarketTables] refines the tables, [MarketWp] has the
      weakest preconditions of the accesses, [MarketInv] the invariant, [MarketHandlers] its
      preservation by every call and along sequences of them, [MarketPay] the payments.
    - [ConfidentialStore]: storage/{confidential,hashed}.rs, stores that encrypt or hash their keys and values; the
      cipher is a parameter with laws.
    - The contracts module (src/runtime-sdk/modules/contracts/src). [ContractTypes] has its data. [Metering] has the
      intermediate representation of WebAssembly and the instrumentation of abi/gas.rs, [Metered], [MeterRegions],
      [MeterPaths] and [MeterCharges] what it charges for; [ValidModules] is abi/oasis/validation.rs with its properties and, for
      them, a table of what the operators of WebAssembly work on. [HostMemory] has the memory that contract and host share and the engine
      wasm3 as a parameter: a run of a contract is a tree that ends or calls the host. [HostFunctions] are the functions of the
      host (abi/oasis/{storage,env,crypto}.rs, store.rs, and the cryptography of src/contract-sdk/crypto), [Contracts]
      the calls of a contract (abi/oasis/mod.rs, wasm.rs), the handlers, code, results and queries
      (lib.rs, code.rs, results.rs). [Isolation] and [ContractsGas] prove what an execution can do and cost and what holds
      between host and contract, [Registry] is the abstract registry of code and instances as a step relation and its
      refinement to the tables, with the caches of code that loads and uploads lead to; [Deployments] the refinement of the
      handlers to it. The messages of contracts are calls of a runtime that has the module itself among others:
      [contracts_runtime] is such a runtime up to a number of nested subcalls, and [RegistryModules] is what the other modules
      promise, which the core and the accounts module are shown to keep.
    - [Signatures]: crypto/signature, public keys and memory signers of all schemes over the curves and hashes of third
      parties ([SignatureLibs], [SignatureLaws]), with its properties.
    - The EVM module (src/runtime-sdk/modules/evm/src). [EvmTypes] has its data, errors and parameters, the derivation of
      callers and the decoding of Ethereum transactions (types.rs, raw_tx.rs, derive_caller.rs); the market uses it too.
      [EvmBackend] is the state that the executor works on (state.rs, backend.rs): storage, codes, nested substates that
      open and close transactions of the current state. [EvmPrecompiles] has all precompiles, ERC-20 contracts over
      accounts and what runtime-sdk-macros/src/evm_derive.rs generates for them. [Evm] has the module (lib.rs) and signed
      queries (signed_call.rs). The executor of the evm crate is a parameter: a run of it is a tree ([EvmRun]) of the operations of the
      backend, frames and precompiles, whose frames are well nested. [EvmFrames] shows what each operation leaves alone and
      follows nested frames, [EvmClaims] has the properties.
    - [Concrete], [ConcreteCore], [ConcreteAccounts], [ConcreteConsensus], [ConcreteRewards],
      [ConcreteDispatch], [ConcreteMarket], [ConcreteRofl], [ConcreteContracts], [ConcreteEvm]: instances of all
      parameters and concrete states, on which the hypotheses of the theorems are shown to hold.

    ** What the theorems show

    - Stores: overlays refine one finite map; merged and prefixed iteration is exactly the ordered
      iteration of that map.
    - Transactions of the state: rollback restores, commit publishes exactly, no panic is added.
    - Authentication: the exact acceptance condition; nonces are checked exactly and replays rejected.
    - Gas: metering refines an abstract meter, limits are never exceeded, prices move within bounds.
    - Tokens: transfers, mints, burns, fees, refunds and the end of a block on every branch, and the
      accounting invariant over any sequence of them; the invariant check decides that invariant.
    - The consensus layer: conversions of amounts are inverse to each other; the search for the height
      of an epoch terminates and finds it; delegations, undelegations and the queue refine finite maps;
      the pending accounts cover the messages in flight along any sequence of steps, so that no result
      panics; withdrawals settle exactly; due undelegations are paid exactly once and never more than
      what was received; the invariant check decides solvency.
    - Rewards: who is rewarded, and that the end of a block pays the due rewards in order, out of the
      pool only, without panicking when the pool is short.
    - Dispatch: atomicity, read-only calls, pre-schedule checks without a trace, the shape of blocks,
      delivery of consensus messages, queries that leave the root untouched.
    - Subcalls: who may be called, at what depth, with which gas, and that a failure leaves no trace.
    - Estimation: for a transaction that succeeds from some limit on, the search finds that limit.
    - Registry of instances: its tables stay consistent along any sequence of calls, only admitted
      instances are registered, expiry takes the oldest first, and keys are for instances only.
    - Market: its tables stay coherent along any sequence of calls, payments are pro rata and never
      more than what was paid, and a policy of endorsements means what its tree says.
    - Confidential stores refine maps of plaintexts; their nonces repeat across subcalls.
    - Contracts: validation accepts exactly the valid modules; metering terminates, charges every path of functions
      without split nested blocks, and misses others; executions are isolated from the state of everyone else and never
      cost more than can be charged; replies come to an end; data in memory survives the way between host and
      contract; the handlers refine the registry with its policies, whatever the messages of contracts call, and
      it stays sound, so that instances always run their code, from the store or from the cache.
    - Signatures: signing and verifying by type fit together; transactions signed by memory signers verify, except
      for those of Sr25519.
    - EVM: frames are atomic; simulations change nothing, run what was asked for, as their caller only if it signed, and
      answer what came encrypted with what is encrypted; Ethereum transactions are decoded exactly; modular exponentiation is exact; which hashes of blocks are known.

    ** Bounds

    All functions are total. Iteration is by structural recursion on lists. Fuel is used in seven
    places: [collect] in [StoreIter], one more than the number of entries ([store_bound]), and the
    skipping of shadowed entries of an overlay cursor, both shown to suffice
    ([prefix_iteration_exact], [iterator_merges_exactly]); the twenty digits of [ilog10], enough for a
    64-bit integer ([ilog10_pow]); the search for the height of an epoch, for which one unit per
    epoch since then suffices ([height_for_epoch_finds]); the traversal of the blocks of a function, shown to suffice
    for functions that pass validation ([validated_modules_are_metered]); and the depth of replies, for which the
    gas limit divided by the price of a message suffices ([replies_terminate]); and the nested subcalls of
    [contracts_runtime], of which the theorems allow any number. Where the source counts itself, the
    model recurses on that count: the iterations of the gas search (shown to suffice in
    [estimate_gas_exact]), the depth of endorsement policies ([policy_means_its_tree]), the nesting of blocks, and the
    number of registrations that one block may expire ([expiry_takes_the_oldest]).

    ** Not modelled

    Third-party cryptography, CBOR, the root key-value store, the WebAssembly engine and its intermediate
    representation's parser and printer, the executor of the evm crate, the encodings of Ethereum, compression, the node and
    the key manager are parameters. Left out of the
    files above: textual forms of addresses, the query for information on the runtime, the client side of
    call formats, debugging output, the start-up of the enclave and the fallback state of tests. The consensus state, the
    history of the consensus layer and the LRU caches are parameters with laws. The macros other than
    the derivation of EVM contracts, the library that contracts are written with, the ROFL services and the client
    libraries are not modelled. *)
From Stdlib Require Export Strings.Byte.
From Stdlib Require Import Strings.String.
From stdpp Require Export sorting gmap strings numbers.
From stdpp Require Export list.

(** * Bytes *)

#[global] Instance byte_eq_decision : EqDecision Byte.byte := Byte.byte_eq_dec.

#[global] Program Instance byte_countable : Countable Byte.byte :=
  inj_countable Byte.to_N Byte.of_N _.
Next Obligation. intros b. apply Byte.of_to_N. Qed.

#[global] Instance byte_inhabited : Inhabited Byte.byte := populate x00.

Notation bytes := (list Byte.byte).

(** The UTF-8 bytes of an ASCII string literal ([str::as_bytes]). *)
Definition str (s : string) : bytes := list_byte_of_string s.

(** [starts_with]: the prefix test of slices. *)
Fixpoint starts_with (k p : bytes) : bool :=
  match p, k with
  | [], _ => true
  | _ :: _, [] => false
  | x :: p', y :: k' => bool_decide (x = y) && starts_with k' p'
  end.

(** Lexicographic order of byte strings, the [Ord] of [Vec<u8>]. *)
Fixpoint bytes_ltb (a b : bytes) : bool :=
  match a, b with
  | _, [] => false
  | [], _ :: _ => true
  | x :: a', y :: b' =>
      if N.ltb (Byte.to_N x) (Byte.to_N y) then true
      else if N.ltb (Byte.to_N y) (Byte.to_N x) then false
      else bytes_ltb a' b'
  end.

Definition bytes_lt (a b : bytes) : Prop := bytes_ltb a b = true.
Definition bytes_le (a b : bytes) : Prop := bytes_ltb b a = false.

#[global] Instance bytes_lt_dec : RelDecision bytes_lt.
Proof. intros a b. unfold bytes_lt. apply _. Defined.
#[global] Instance bytes_le_dec : RelDecision bytes_le.
Proof. intros a b. unfold bytes_le. apply _. Defined.

Lemma byte_to_N_inj x y : Byte.to_N x = Byte.to_N y → x = y.
Proof. intros H. apply (f_equal Byte.of_N) in H. rewrite !Byte.of_to_N in H. by inversion H. Qed.

Lemma bytes_ltb_irrefl a : bytes_ltb a a = false.
Proof. induction a as [|x a IH]; [done|]; simpl. by rewrite N.ltb_irrefl. Qed.

Lemma bytes_ltb_trans a b c : bytes_ltb a b = true → bytes_ltb b c = true → bytes_ltb a c = true.
Proof.
  revert b c. induction a as [|x a IH]; intros [|y b] [|z c]; simpl; try done.
  destruct (N.ltb_spec (Byte.to_N x) (Byte.to_N y)), (N.ltb_spec (Byte.to_N y) (Byte.to_N x)),
    (N.ltb_spec (Byte.to_N y) (Byte.to_N z)), (N.ltb_spec (Byte.to_N z) (Byte.to_N y)),
    (N.ltb_spec (Byte.to_N x) (Byte.to_N z)), (N.ltb_spec (Byte.to_N z) (Byte.to_N x));
    try done; try lia; eauto.
Qed.

Lemma bytes_ltb_total a b : a = b ∨ bytes_ltb a b = true ∨ bytes_ltb b a = true.
Proof.
  revert b. induction a as [|x a IH]; intros [|y b]; simpl; auto.
  destruct (N.ltb_spec (Byte.to_N x) (Byte.to_N y)); [by auto|].
  destruct (N.ltb_spec (Byte.to_N y) (Byte.to_N x)); [by auto|].
  assert (x = y) as -> by (apply byte_to_N_inj; lia).
  destruct (IH b) as [->|[?|?]]; auto.
Qed.

#[global] Instance bytes_lt_strict : StrictOrder bytes_lt.
Proof.
  split.
  - intros a H. unfold bytes_lt in H. by rewrite bytes_ltb_irrefl in H.
  - intros a b c. apply bytes_ltb_trans.
Qed.

Lemma bytes_le_lt_eq a b : bytes_le a b ↔ bytes_lt a b ∨ a = b.
Proof.
  unfold bytes_le, bytes_lt. split.
  - intros H. destruct (bytes_ltb_total a b) as [?|[?|?]]; [by right|by left|congruence].
  - intros [H| ->]; [|apply bytes_ltb_irrefl].
    destruct (bytes_ltb b a) eqn:E; [|done].
    pose proof (bytes_ltb_trans _ _ _ H E) as Hc. by rewrite bytes_ltb_irrefl in Hc.
Qed.

Lemma bytes_nlt_ge a b : ¬ bytes_lt a b ↔ bytes_le b a.
Proof. unfold bytes_lt, bytes_le. by rewrite not_true_iff_false. Qed.

Lemma bytes_lt_le a b : bytes_lt a b → bytes_le a b.
Proof. rewrite bytes_le_lt_eq. auto. Qed.

#[global] Instance bytes_le_total : Total bytes_le.
Proof.
  intros a b. rewrite !bytes_le_lt_eq. unfold bytes_lt.
  destruct (bytes_ltb_total a b) as [->|[?|?]]; auto.
Qed.
#[global] Instance bytes_le_po : PartialOrder bytes_le.
Proof.
  split; [split|].
  - intros a. apply bytes_ltb_irrefl.
  - intros a b c. rewrite !bytes_le_lt_eq. intros [Hab| ->] [Hbc| ->]; auto.
    left. by transitivity b.
  - intros a b. rewrite !bytes_le_lt_eq. intros [Hab| ->] [Hba| Hba]; auto.
    exfalso. apply (irreflexivity bytes_lt a). by transitivity b.
Qed.

Lemma starts_with_iff k p : starts_with k p = true ↔ ∃ r, k = p ++ r.
Proof.
  revert k. induction p as [|x p IH]; intros [|y k]; simpl.
  - split; [by exists []|done].
  - split; [by eexists|done].
  - split; [done|]. by intros [r ?].
  - rewrite andb_true_iff, bool_decide_eq_true, IH. split.
    + intros [-> [r ->]]. by exists r.
    + intros [r ?]. simplify_eq. split; [done|]. by exists r.
Qed.

Lemma starts_with_app p r : starts_with (p ++ r) p = true.
Proof. apply starts_with_iff. by exists r. Qed.

(** Keys with a common prefix form an interval of the order, starting at the prefix. *)
Lemma bytes_le_prefix p r : bytes_le p (p ++ r).
Proof.
  unfold bytes_le. induction p as [|x p IH]; simpl.
  - by destruct r.
  - by rewrite N.ltb_irrefl.
Qed.

Lemma bytes_lt_app p a b : bytes_lt (p ++ a) (p ++ b) ↔ bytes_lt a b.
Proof.
  unfold bytes_lt. induction p as [|x p IH]; simpl; [done|]. by rewrite N.ltb_irrefl.
Qed.

(** Once a key that is not below the prefix leaves it, no greater key has it again. *)
Lemma starts_with_interval p k k' :
  bytes_le p k → starts_with k p = false → bytes_lt k k' → starts_with k' p = false.
Proof.
  unfold bytes_le, bytes_lt. revert k k'.
  induction p as [|x p IH]; intros [|y k] [|z k']; simpl; try done.
  destruct (N.ltb_spec (Byte.to_N y) (Byte.to_N x)), (N.ltb_spec (Byte.to_N x) (Byte.to_N y)),
    (N.ltb_spec (Byte.to_N y) (Byte.to_N z)), (N.ltb_spec (Byte.to_N z) (Byte.to_N y));
    intros; try done; try lia.
  - rewrite bool_decide_eq_false_2; [done|]. intros ->. lia.
  - rewrite bool_decide_eq_false_2; [done|]. intros ->. lia.
  - rewrite bool_decide_eq_false_2; [done|]. intros ->. lia.
  - assert (x = y) as -> by (apply byte_to_N_inj; lia).
    assert (y = z) as -> by (apply byte_to_N_inj; lia).
    rewrite bool_decide_eq_true_2 in * by done. simpl in *. eauto.
Qed.

(** * Machine integers

    Unsigned integers are natural numbers; the width is written out in the operations that
    depend on it.  [wrapping_add] is the plain [+] of a release build. *)

Definition u16_max : N := (2 ^ 16 - 1)%N.
Definition u32_max : N := (2 ^ 32 - 1)%N.
Definition u64_max : N := (2 ^ 64 - 1)%N.
Definition u128_max : N := (2 ^ 128 - 1)%N.

Definition checked_add (mx a b : N) : option N :=
  if (a + b <=? mx)%N then Some (a + b)%N else None.
Definition checked_sub (a b : N) : option N :=
  if (b <=? a)%N then Some (a - b)%N else None.
Definition checked_mul (mx a b : N) : option N :=
  if (a * b <=? mx)%N then Some (a * b)%N else None.
Definition checked_div (a b : N) : option N :=
  if (b =? 0)%N then None else Some (a / b)%N.
Definition saturating_add (mx a b : N) : N := N.min (a + b) mx.
Definition saturating_sub (a b : N) : N := (a - b)%N.
Definition saturating_mul (mx a b : N) : N := N.min (a * b) mx.
Definition wrapping_add (mx a b : N) : N := ((a + b) mod (mx + 1))%N.
Definition wrapping_sub (mx a b : N) : N := ((a + (mx + 1) - b) mod (mx + 1))%N.

Lemma checked_add_Some mx a b c : checked_add mx a b = Some c ↔ c = (a + b)%N ∧ (a + b ≤ mx)%N.
Proof. unfold checked_add. destruct (N.leb_spec (a + b) mx); split; intros; destruct_and?; simplify_eq; auto with lia. Qed.
Lemma checked_add_None mx a b : checked_add mx a b = None ↔ (mx < a + b)%N.
Proof. unfold checked_add. destruct (N.leb_spec (a + b) mx); split; intros; destruct_and?; simplify_eq; auto with lia. Qed.
Lemma checked_sub_Some a b c : checked_sub a b = Some c ↔ c = (a - b)%N ∧ (b ≤ a)%N.
Proof. unfold checked_sub. destruct (N.leb_spec b a); split; intros; destruct_and?; simplify_eq; auto with lia. Qed.
Lemma checked_sub_None a b : checked_sub a b = None ↔ (a < b)%N.
Proof. unfold checked_sub. destruct (N.leb_spec b a); split; intros; destruct_and?; simplify_eq; auto with lia. Qed.
Lemma checked_mul_Some mx a b c : checked_mul mx a b = Some c ↔ c = (a * b)%N ∧ (a * b ≤ mx)%N.
Proof. unfold checked_mul. destruct (N.leb_spec (a * b) mx); split; intros; destruct_and?; simplify_eq; auto with lia. Qed.
Lemma checked_div_Some a b c : checked_div a b = Some c ↔ c = (a / b)%N ∧ b ≠ 0%N.
Proof. unfold checked_div. destruct (N.eqb_spec b 0); split; intros; destruct_and?; simplify_eq; auto with lia. Qed.

Lemma wrapping_add_small mx a b : (a + b ≤ mx)%N → wrapping_add mx a b = (a + b)%N.
Proof. intros. unfold wrapping_add. apply N.mod_small. lia. Qed.

(** * Outcomes

    A fallible operation returns [Ok] or [Err]; [Panic] is an unwinding panic
    ([unwrap]/[expect]/[assert!]/[panic!]). *)

Inductive Outcome (E A : Type) : Type :=
  | Ok (a : A)
  | Err (e : E)
  | Panic (msg : string).
Arguments Ok {E A} a.
Arguments Err {E A} e.
Arguments Panic {E A} msg.

(** The state-and-outcome monad: the state is kept on an error, as it is in the code, where an
    early return with [?] does not undo what was done before it. *)
Definition ST (S E A : Type) : Type := S → Outcome E A * S.

#[global] Instance ST_ret {S E} : MRet (ST S E) := λ A a s, (Ok a, s).
#[global] Instance ST_bind {S E} : MBind (ST S E) := λ A B f m s,
  match m s with
  | (Ok a, s') => f a s'
  | (Err e, s') => (Err e, s')
  | (Panic p, s') => (Panic p, s')
  end.

Section ops.
Context {S E : Type}.

Definition throw {A} (e : E) : ST S E A := λ s, (Err e, s).
Definition panic {A} (msg : string) : ST S E A := λ s, (Panic msg, s).
Definition get_st : ST S E S := λ s, (Ok s, s).
Definition gets {A} (f : S → A) : ST S E A := λ s, (Ok (f s), s).
Definition modify (f : S → S) : ST S E unit := λ s, (Ok tt, f s).

(** [opt.ok_or(e)?] and [opt.expect(msg)]. *)
Definition ok_or {A} (o : option A) (e : E) : ST S E A :=
  match o with Some a => mret a | None => throw e end.
Definition expect {A} (o : option A) (msg : string) : ST S E A :=
  match o with Some a => mret a | None => panic msg end.

(** [for x in l { body }], left to right, stopping at the first error or panic. *)
Fixpoint for_each {A} (l : list A) (body : A → ST S E unit) : ST S E unit :=
  match l with
  | [] => mret tt
  | x :: l' => body x ;; for_each l' body
  end.

(** A loop that threads an accumulator. *)
Fixpoint fold_m {A B} (l : list A) (b : B) (body : B → A → ST S E B) : ST S E B :=
  match l with
  | [] => mret b
  | x :: l' => b' ← body b x; fold_m l' b' body
  end.
End ops.

(** [r.map_err(f)]. *)
Definition map_err {S E E' A} (f : E → E') (m : ST S E A) : ST S E' A := λ s,
  match m s with
  | (Ok a, s') => (Ok a, s')
  | (Err e, s') => (Err (f e), s')
  | (Panic p, s') => (Panic p, s')
  end.

(** The value of a [Result] as data: a caught error does not stop the caller. *)
Definition try_ {S E E' A} (m : ST S E A) : ST S E' (E + A) := λ s,
  match m s with
  | (Ok a, s') => (Ok (inr a), s')
  | (Err e, s') => (Ok (inl e), s')
  | (Panic p, s') => (Panic p, s')
  end.

(** [r.expect(msg)] on a [Result]. *)
Definition unwrap_or_panic {S E E' A} (msg : string) (m : ST S E A) : ST S E' A := λ s,
  match m s with
  | (Ok a, s') => (Ok a, s')
  | (Err _, s') => (Panic msg, s')
  | (Panic p, s') => (Panic p, s')
  end.

Section run.
Context {S E : Type}.
Implicit Types s : S.

Lemma bind_ok {A B} (m : ST S E A) (f : A → ST S E B) s a s' :
  m s = (Ok a, s') → (m ≫= f) s = f a s'.
Proof. unfold mbind, ST_bind. by intros ->. Qed.
Lemma bind_err {A B} (m : ST S E A) (f : A → ST S E B) s e s' :
  m s = (Err e, s') → (m ≫= f) s = (Err e, s').
Proof. unfold mbind, ST_bind. by intros ->. Qed.
Lemma bind_ok_inv {A B} (m : ST S E A) (f : A → ST S E B) s b s'' :
  (m ≫= f) s = (Ok b, s'') → ∃ a s', m s = (Ok a, s') ∧ f a s' = (Ok b, s'').
Proof.
  unfold mbind, ST_bind. destruct (m s) as [[a|e|p] s']; [|done..]. eauto.
Qed.
Lemma ret_bind {A B} (a : A) (f : A → ST S E B) s : (mret a ≫= f) s = f a s.
Proof. done. Qed.
Lemma gets_bind {A B} (g : S → A) (f : A → ST S E B) s : (gets g ≫= f) s = f (g s) s.
Proof. done. Qed.
Lemma get_st_bind {B} (f : S → ST S E B) s : (get_st ≫= f) s = f s s.
Proof. done. Qed.
Lemma for_each_app {A} (l l' : list A) (body : A → ST S E unit) s :
  for_each (l ++ l') body s = (for_each l body ;; for_each l' body) s.
Proof.
  revert s. induction l as [|x l IH]; intros s; simpl; [done|].
  unfold mbind, ST_bind at 1 2 3. destruct (body x s) as [[]?]; [|done..].
  rewrite IH. done.
Qed.

(** A loop preserves what its body preserves, if the body never fails. *)
Lemma for_each_ok {A} (body : A → ST S E unit) (P : list A → S → Prop) l s :
  P l s →
  (∀ x l s, P (x :: l) s → ∃ s', body x s = (Ok tt, s') ∧ P l s') →
  ∃ s', for_each l body s = (Ok tt, s') ∧ P [] s'.
Proof.
  intros HP Hbody. revert s HP. induction l as [|x l IH]; intros s HP; simpl.
  - by exists s.
  - destruct (Hbody _ _ _ HP) as (s1 & Hrun & HP1).
    rewrite (bind_ok _ _ _ _ _ Hrun). by apply IH.
Qed.

End run.

Lemma map_err_ok {S E E' A} (f : E → E') (m : ST S E A) s a s' :
  m s = (Ok a, s') → map_err f m s = (Ok a, s').
Proof. unfold map_err. by intros ->. Qed.
Lemma try_ok {S E E' A} (m : ST S E A) s a s' :
  m s = (Ok a, s') → try_ (E' := E') m s = (Ok (inr a), s').
Proof. unfold try_. by intros ->. Qed.
Lemma try_err {S E E' A} (m : ST S E A) s e s' :
  m s = (Err e, s') → try_ (E' := E') m s = (Ok (inl e), s').
Proof. unfold try_. by intros ->. Qed.
Lemma map_err_err {S E E' A} (f : E → E') (m : ST S E A) s e s' :
  m s = (Err e, s') → map_err f m s = (Err (f e), s').
Proof. unfold map_err. by intros ->. Qed.
Lemma unwrap_ok {S E E' A} msg (m : ST S E A) s a s' :
  m s = (Ok a, s') → unwrap_or_panic (E' := E') msg m s = (Ok a, s').
Proof. unfold unwrap_or_panic. by intros ->. Qed.

Lemma run_ok {S E A} (m : ST S E A) s a : (m s).1 = Ok a → m s = (Ok a, (m s).2).
Proof. destruct (m s). simpl. by intros ->. Qed.
Lemma unwrap_inv {S E E' A} msg (m : ST S E A) s a s' :
  unwrap_or_panic (E' := E') msg m s = (Ok a, s') → m s = (Ok a, s').
Proof. unfold unwrap_or_panic. destruct (m s) as [[] ?]; [|done..]. by intros [= -> ->]. Qed.
Lemma expect_inv {S E A} (o : option A) msg (s : S) a s' :
  expect (E := E) o msg s = (Ok a, s') → o = Some a ∧ s' = s.
Proof. destruct o; [|done]. by intros [= -> ->]. Qed.

(** One step of symbolic execution: consume the first command of a sequence, whose run is known
    from a hypothesis or computes. *)
Ltac run_with H := first
  [ rewrite (bind_ok _ _ _ _ _ H) | rewrite (bind_err _ _ _ _ _ H)
  | rewrite H ].

(** Compute through the monad's operations. *)
Ltac run_simpl := cbv [mbind ST_bind mret ST_ret expect get_st gets modify throw panic ok_or];
  cbn beta iota.

Ltac run_simpl_in H := cbv [mbind ST_bind mret ST_ret expect get_st gets modify throw panic ok_or] in H;
  cbn beta iota in H.

(** Case analysis on the outermost match of the goal or of a hypothesis, keeping the equation. *)
Ltac case_run := repeat (case_match; simplify_eq/=; try done).

(** * Ordered maps

    A [BTreeMap<Vec<u8>, V>] is a finite map together with the order of its keys, in which it is
    iterated. *)

Definition entry_le {A} (x y : bytes * A) : Prop := bytes_le x.1 y.1.
Definition entry_lt {A} (x y : bytes * A) : Prop := bytes_lt x.1 y.1.
#[global] Instance entry_le_dec {A} (x y : bytes * A) : Decision (entry_le x y).
Proof. unfold entry_le. apply _. Defined.

Definition btree_iter {A} (m : gmap bytes A) : list (bytes * A) :=
  merge_sort entry_le (map_to_list m).

Lemma btree_iter_perm {A} (m : gmap bytes A) : btree_iter m ≡ₚ map_to_list m.
Proof. apply merge_sort_Permutation. Qed.

Lemma elem_of_btree_iter {A} (m : gmap bytes A) k v : (k, v) ∈ btree_iter m ↔ m !! k = Some v.
Proof. rewrite btree_iter_perm. apply elem_of_map_to_list. Qed.

Lemma btree_iter_sorted {A} (m : gmap bytes A) : StronglySorted entry_lt (btree_iter m).
Proof.
  assert (Hs : StronglySorted entry_le (btree_iter m)).
  { apply StronglySorted_merge_sort.
    - intros x y z. unfold entry_le. apply transitivity.
    - intros x y. apply bytes_le_total. }
  assert (Hnd : NoDup (btree_iter m).*1).
  { rewrite btree_iter_perm. apply NoDup_fst_map_to_list. }
  revert Hs Hnd. generalize (btree_iter m) as l.
  induction l as [|[k v] l IH]; [constructor|].
  intros [Hall Hs]%StronglySorted_cons [Hk Hnd]%NoDup_cons.
  constructor; [by apply IH|].
  rewrite Forall_forall in Hall |- *. intros [k' v'] Hin.
  pose proof (Hall _ Hin) as Hle. change (bytes_le k k') in Hle. change (bytes_lt k k').
  apply bytes_le_lt_eq in Hle as [Hlt|Heq]; [exact Hlt|].
  destruct Hk. apply list_elem_of_fmap. exists (k', v'). split; [exact Heq|exact Hin].
Qed.

(** A strictly sorted list of entries is determined by its elements. *)
Lemma sorted_entries_ext {A} (l l' : list (bytes * A)) :
  StronglySorted entry_lt l → StronglySorted entry_lt l' →
  (∀ k v, (k, v) ∈ l ↔ (k, v) ∈ l') → l = l'.
Proof.
  assert (Hnodup : ∀ l : list (bytes * A), StronglySorted entry_lt l → NoDup l).
  { intros k Hs. induction Hs as [|x k Hs IH Hall]; constructor; [|done].
    intros Hin. rewrite Forall_forall in Hall.
    apply (irreflexivity bytes_lt x.1). by apply (Hall x). }
  intros Hs Hs' Heq. apply (StronglySorted_unique_strong entry_lt); [|done..|].
  - intros [k v] [k' v'] _ _ H1 H2. exfalso. unfold entry_lt in *. simpl in *.
    apply (irreflexivity bytes_lt k). by transitivity k'.
  - apply NoDup_Permutation; [by apply Hnodup..|]. intros [k v]. apply Heq.
Qed.

(** * Sums over finite maps *)

Section sums.
Context {K : Type} `{Countable K} {A : Type}.
Implicit Types (m : gmap K A) (f : K → A → N).

Definition map_sum (f : K → A → N) (m : gmap K A) : N :=
  map_fold (λ k v acc, (f k v + acc)%N) 0%N m.

Lemma map_sum_empty f : map_sum f ∅ = 0%N.
Proof. apply map_fold_empty. Qed.

Lemma map_sum_insert_None f m k v :
  m !! k = None → map_sum f (<[k:=v]> m) = (f k v + map_sum f m)%N.
Proof. intros Hk. unfold map_sum. rewrite map_fold_insert_L; [done| |done]. intros. lia. Qed.

Lemma map_sum_delete f m k v :
  m !! k = Some v → map_sum f m = (f k v + map_sum f (delete k m))%N.
Proof.
  intros Hk. rewrite <-(insert_delete_id m k v Hk) at 1.
  apply map_sum_insert_None, lookup_delete_eq.
Qed.

(** Updating an entry changes the sum by the difference of the entry's weights. *)
Lemma map_sum_insert f m k v :
  (map_sum f (<[k:=v]> m) + from_option (f k) 0 (m !! k) = f k v + map_sum f m)%N.
Proof.
  destruct (m !! k) as [w|] eqn:Hk; simpl.
  - rewrite (map_sum_delete f m k w Hk), <-insert_delete_eq.
    rewrite map_sum_insert_None by apply lookup_delete_eq. lia.
  - rewrite map_sum_insert_None by done. lia.
Qed.

Lemma map_sum_lookup_le f m k v : m !! k = Some v → (f k v ≤ map_sum f m)%N.
Proof. intros Hk. rewrite (map_sum_delete f m k v Hk). lia. Qed.

Lemma map_sum_zero f m : (∀ k v, m !! k = Some v → f k v = 0%N) → map_sum f m = 0%N.
Proof.
  induction m as [|k v m Hk IH] using map_ind; intros Hf; [done|].
  rewrite map_sum_insert_None by done. rewrite (Hf k v) by apply lookup_insert_eq.
  rewrite IH; [done|]. intros k' v' Hk'. apply (Hf k'). rewrite lookup_insert_ne; [done|congruence].
Qed.

Lemma map_sum_ext f g m : (∀ k v, m !! k = Some v → f k v = g k v) → map_sum f m = map_sum g m.
Proof.
  induction m as [|k v m Hk IH] using map_ind; intros Hfg; [by rewrite !map_sum_empty|].
  rewrite !map_sum_insert_None by done. rewrite (Hfg k v) by apply lookup_insert_eq.
  f_equal. apply IH. intros k' v' Hk'. apply Hfg.
  rewrite lookup_insert_ne; [done|]. congruence.
Qed.
End sums.

(** The sum of a list, and of a map read off in any order. *)
Definition list_sum {A} (f : A → N) (l : list A) : N := foldr (λ x acc, (f x + acc)%N) 0%N l.

Lemma list_sum_cons {A} (f : A → N) x l : list_sum f (x :: l) = (f x + list_sum f l)%N.
Proof. done. Qed.
Lemma list_sum_app {A} (f : A → N) l l' : list_sum f (l ++ l') = (list_sum f l + list_sum f l')%N.
Proof. induction l as [|x l IH]; simpl; [done|]. rewrite IH. lia. Qed.

#[global] Instance list_sum_perm {A} (f : A → N) : Proper ((≡ₚ) ==> (=)) (list_sum f).
Proof. intros l l' Hp. induction Hp; simpl; lia. Qed.

Lemma map_sum_list {K A} `{Countable K} (f : K → A → N) (m : gmap K A) :
  map_sum f m = list_sum (λ x, f x.1 x.2) (map_to_list m).
Proof.
  induction m as [|k v m Hk IH] using map_ind.
  - by rewrite map_sum_empty, map_to_list_empty.
  - rewrite map_sum_insert_None by done. rewrite map_to_list_insert by done. simpl. by rewrite IH.
Qed.

Lemma map_sum_btree {A} (f : bytes → A → N) (m : gmap bytes A) :
  map_sum f m = list_sum (λ x, f x.1 x.2) (btree_iter m).
Proof. by rewrite map_sum_list, btree_iter_perm. Qed.

Lemma filter_all {A} (P : A → Prop) `{!∀ x, Decision (P x)} (l : list A) :
  Forall P l → filter P l = l.
Proof. induction 1; [done|]. rewrite filter_cons, decide_True by done. by f_equal. Qed.

Lemma filter_none {A} (P : A → Prop) `{!∀ x, Decision (P x)} (l : list A) :
  Forall (λ x, ¬ P x) l → filter P l = [].
Proof. induction 1; [done|]. by rewrite filter_cons, decide_False. Qed.

Lemma StronglySorted_filter {A} (R : relation A) (P : A → Prop) `{!∀ x, Decision (P x)} l :
  StronglySorted R l → StronglySorted R (filter P l).
Proof.
  induction 1 as [|x l Hs IH Hall]; [constructor|]. rewrite filter_cons.
  case_decide; [|done]. constructor; [done|].
  rewrite Forall_forall in Hall |- *. intros y [_ Hy]%list_elem_of_filter. auto.
Qed.
