(* ===== verification/Endian.v ===== *)
(** Big-endian encodings of integers ([to_be_bytes] and [from_be_bytes]), which the state uses in keys:
    they can be read back, and the order of the bytes is that of the numbers. *)
From S2P Require Import Prelude.

Definition be_byte (n : N) (i : N) : Byte.byte :=
  default x00 (Byte.of_N ((n / 2 ^ (8 * i)) mod 256)).
Fixpoint be_bytes (k : nat) (n : N) : bytes :=
  match k with
  | O => []
  | S k' => be_byte n (N.of_nat k') :: be_bytes k' n
  end.

(** [u32::to_be_bytes] and [u64::to_be_bytes]. *)
Definition be_bytes32 (n : N) : bytes := be_bytes 4 n.
Definition be_bytes64 (n : N) : bytes := be_bytes 8 n.

(** [from_be_bytes]. *)
Fixpoint from_be (b : bytes) : N :=
  match b with
  | [] => 0
  | x :: b' => Byte.to_N x * 256 ^ N.of_nat (length b') + from_be b'
  end%N.

Lemma be_byte_digit n i : Byte.to_N (be_byte n i) = ((n / 2 ^ (8 * i)) mod 256)%N.
Proof.
  unfold be_byte. destruct (Byte.of_N _) as [b|] eqn:Hb; simpl.
  - by apply Byte.to_of_N.
  - apply Byte.of_N_None_iff in Hb. pose proof (N.mod_lt (n / 2 ^ (8 * i)) 256). lia.
Qed.

Lemma be_bytes_length k n : length (be_bytes k n) = k.
Proof. induction k; simpl; congruence. Qed.

Lemma from_be_bytes k n : from_be (be_bytes k n) = (n mod 256 ^ N.of_nat k)%N.
Proof.
  induction k as [|k IH]; cbn [be_bytes from_be].
  - change (256 ^ N.of_nat 0)%N with 1%N. by rewrite N.mod_1_r.
  - rewrite IH, be_bytes_length, be_byte_digit, Nat2N.inj_succ, N.pow_succ_r', N.pow_mul_r.
    change (2 ^ 8)%N with 256%N. rewrite (N.mul_comm 256), N.Div0.mod_mul_r. lia.
Qed.

Lemma from_be_bound b : (from_be b < 256 ^ N.of_nat (length b))%N.
Proof.
  induction b as [|x b IH]; cbn [from_be length]; [done|].
  rewrite Nat2N.inj_succ, N.pow_succ_r'. pose proof (Byte.to_N_bounded x). nia.
Qed.

Lemma from_be_app a b : from_be (a ++ b) = (256 ^ N.of_nat (length b) * from_be a + from_be b)%N.
Proof.
  induction a as [|x a IH]; cbn [from_be app]; [lia|]. rewrite IH, length_app, Nat2N.inj_add, N.pow_add_r. lia.
Qed.
Lemma from_be_64 n : (n ≤ u64_max)%N → from_be (be_bytes64 n) = n.
Proof.
  intros Hn. unfold be_bytes64. rewrite from_be_bytes. apply N.mod_small.
  change (256 ^ N.of_nat 8)%N with (u64_max + 1)%N. lia.
Qed.
Lemma be_bytes64_inj n m : (n ≤ u64_max)%N → (m ≤ u64_max)%N → be_bytes64 n = be_bytes64 m → n = m.
Proof. intros Hn Hm Heq. by rewrite <-(from_be_64 n), <-(from_be_64 m), Heq. Qed.
Lemma be_bytes32_inj n m : (n ≤ u32_max)%N → (m ≤ u32_max)%N → be_bytes32 n = be_bytes32 m → n = m.
Proof.
  intros Hn Hm Heq. apply (f_equal from_be) in Heq. unfold be_bytes32 in Heq. rewrite !from_be_bytes in Heq.
  change (256 ^ N.of_nat 4)%N with (u32_max + 1)%N in Heq. rewrite !N.mod_small in Heq by lia. done.
Qed.

(** Encodings of the same width are ordered like the numbers. *)
Lemma from_be_order a b : length a = length b → bytes_ltb a b = (from_be a <? from_be b)%N.
Proof.
  revert b. induction a as [|x a IH]; intros [|y b]; try done. intros [= Hlen]. cbn [bytes_ltb from_be].
  rewrite IH by done. rewrite Hlen. pose proof (from_be_bound a) as Ha. pose proof (from_be_bound b) as Hb.
  rewrite Hlen in Ha. set (w := (256 ^ N.of_nat (length b))%N) in *.
  destruct (N.ltb_spec (Byte.to_N x) (Byte.to_N y)) as [Hlt|Hge].
  - symmetry. apply N.ltb_lt. nia.
  - destruct (N.ltb_spec (Byte.to_N y) (Byte.to_N x)) as [Hgt|Hle].
    + symmetry. apply N.ltb_ge. nia.
    + assert (Byte.to_N x = Byte.to_N y) as Hxy by lia. rewrite Hxy.
      destruct (N.ltb_spec (from_be a) (from_be b)), (N.ltb_spec (Byte.to_N y * w + from_be a) (Byte.to_N y * w + from_be b)); lia.
Qed.

(** A number followed by anything else is ordered by the number first. *)
Lemma be_bytes64_app_lt n m a b :
  (n ≤ u64_max)%N → (m ≤ u64_max)%N → bytes_lt (be_bytes64 n ++ a) (be_bytes64 m ++ b) → (n ≤ m)%N.
Proof.
  intros Hn Hm Hlt. destruct (N.le_gt_cases n m) as [|Hgt]; [done|]. exfalso.
  assert (Hl : bytes_lt (be_bytes64 m) (be_bytes64 n)).
  { unfold bytes_lt. rewrite from_be_order by (unfold be_bytes64; by rewrite !be_bytes_length).
    rewrite !from_be_64 by done. by apply N.ltb_lt. }
  assert (Hgen : ∀ p q a b, length p = length q → bytes_lt q p → bytes_lt (p ++ a) (q ++ b) → False).
  { clear. intros p. induction p as [|x p IH]; intros [|y q] a b Hlen; try done. injection Hlen as Hlen.
    unfold bytes_lt. cbn [bytes_ltb app]. intros H1 H2.
    destruct (N.ltb_spec (Byte.to_N y) (Byte.to_N x)), (N.ltb_spec (Byte.to_N x) (Byte.to_N y)); try done; try lia.
    by apply (IH q a b). }
  apply (Hgen _ _ a b) in Hl; [done| |done]. unfold be_bytes64. by rewrite !be_bytes_length.
Qed.
