(* ===== verification/Storage.v ===== *)
(** Storage: the key-value store interface, the overlay store that gives nested transactions, the
    prefix store, and their iterators (src/runtime-sdk/src/storage/). *)
From S2P Require Import Prelude.

(** * The root store

    The Merklized key-value store of Oasis Core is outside of the repository: it is a parameter,
    with the behaviour of an ordered map that the overlay relies on as laws. *)

Class MKVS := {
  mkvs : Type;
  mkvs_get : mkvs → bytes → option bytes;
  mkvs_insert : mkvs → bytes → bytes → mkvs;
  mkvs_remove : mkvs → bytes → mkvs;
  (** the entries in the order in which its iterator visits them *)
  mkvs_entries : mkvs → list (bytes * bytes);
  (** where a freshly created iterator stands, before the first seek *)
  mkvs_iter_start : mkvs → list (bytes * bytes);
}.

Class MKVSLaws `{MKVS} : Prop := {
  mkvs_get_insert s k v k' :
    mkvs_get (mkvs_insert s k v) k' = if decide (k = k') then Some v else mkvs_get s k';
  mkvs_get_remove s k k' :
    mkvs_get (mkvs_remove s k) k' = if decide (k = k') then None else mkvs_get s k';
  mkvs_entries_sorted s : StronglySorted entry_lt (mkvs_entries s);
  mkvs_entries_get s k v : (k, v) ∈ mkvs_entries s ↔ mkvs_get s k = Some v;
}.

(** * Stores *)

Section store.
Context `{MKVS}.

(** A boxed store: the root, or an overlay over a boxed store. *)
Inductive Store :=
  | MKVSStore (root : mkvs)
  | OverlayStore (parent : Store) (overlay : gmap bytes bytes) (dirty : gset bytes).

Definition new_overlay (parent : Store) : Store := OverlayStore parent ∅ ∅.

Fixpoint get (s : Store) (key : bytes) : option bytes :=
  match s with
  | MKVSStore m => mkvs_get m key
  | OverlayStore parent overlay dirty =>
      if decide (key ∈ dirty) then overlay !! key else get parent key
  end.

Definition insert_ (s : Store) (key value : bytes) : Store :=
  match s with
  | MKVSStore m => MKVSStore (mkvs_insert m key value)
  | OverlayStore parent overlay dirty =>
      OverlayStore parent (<[key:=value]> overlay) ({[key]} ∪ dirty)
  end.

Definition remove_ (s : Store) (key : bytes) : Store :=
  match s with
  | MKVSStore m => MKVSStore (mkvs_remove m key)
  | OverlayStore parent overlay dirty =>
      if decide (key ∈ dirty)
      then OverlayStore parent (delete key overlay) dirty
      else OverlayStore parent overlay ({[key]} ∪ dirty)
  end.

(** [commit]: insert all items of the overlay, then remove the dirty keys that are left. *)
Definition commit_item (acc : Store * gset bytes) (item : bytes * bytes)
    : Store * gset bytes :=
  (insert_ acc.1 item.1 item.2, acc.2 ∖ {[item.1]}).

Definition commit_overlay (parent : Store) (overlay : gmap bytes bytes) (dirty : gset bytes)
    : Store :=
  let '(parent, dirty) := foldl commit_item (parent, dirty) (btree_iter overlay) in
  foldl remove_ parent (elements dirty).

Definition commit (s : Store) : Store :=
  match s with
  | MKVSStore m => MKVSStore m
  | OverlayStore parent overlay dirty => commit_overlay parent overlay dirty
  end.

(** [rollback] panics on the root store. *)
Definition rollback (s : Store) : option Store :=
  match s with
  | MKVSStore _ => None
  | OverlayStore parent _ _ => Some parent
  end.

Definition has_pending_updates (s : Store) : bool :=
  match s with
  | MKVSStore _ => true
  | OverlayStore _ _ dirty => negb (bool_decide (dirty = ∅))
  end.

Definition pending_update_byte_size (s : Store) : N :=
  match s with
  | MKVSStore _ => 0
  | OverlayStore _ overlay dirty =>
      let updated_size :=
        list_sum (λ '(key, value), N.of_nat (length key) + N.of_nat (length value))%N
          (btree_iter overlay) in
      let removed_size :=
        list_sum (λ key, N.of_nat (length key))
          (filter (λ key, overlay !! key = None) (elements dirty)) in
      saturating_add u64_max updated_size removed_size
  end.

(** ** Invariant: everything in an overlay is recorded as dirty. *)

Fixpoint store_wf (s : Store) : Prop :=
  match s with
  | MKVSStore _ => True
  | OverlayStore parent overlay dirty => dom overlay ⊆ dirty ∧ store_wf parent
  end.

Lemma new_overlay_wf s : store_wf s → store_wf (new_overlay s).
Proof. simpl. intros. split; [set_solver|done]. Qed.
Lemma insert_wf s k v : store_wf s → store_wf (insert_ s k v).
Proof. destruct s; simpl; [done|]. intros [??]. split; [|done]. set_solver. Qed.
Lemma remove_wf s k : store_wf s → store_wf (remove_ s k).
Proof.
  destruct s; simpl; [done|]. intros [??]. case_decide; simpl; split; try done; set_solver.
Qed.

Context `{!MKVSLaws}.

(** ** Reads after writes *)

Lemma get_insert s k v k' :
  get (insert_ s k v) k' = if decide (k = k') then Some v else get s k'.
Proof.
  destruct s as [m|p o d]; simpl; [apply mkvs_get_insert|].
  destruct (decide (k = k')) as [->|Hne].
  - rewrite decide_True by set_solver. apply lookup_insert_eq.
  - rewrite lookup_insert_ne by done.
    destruct (decide (k' ∈ d)); [rewrite decide_True by set_solver|rewrite decide_False by set_solver];
      done.
Qed.

Lemma get_remove s k k' :
  store_wf s → get (remove_ s k) k' = if decide (k = k') then None else get s k'.
Proof.
  destruct s as [m|p o d]; simpl; [intros; apply mkvs_get_remove|]. intros [Hdom _].
  destruct (decide (k ∈ d)); simpl; destruct (decide (k = k')) as [->|Hne].
  - rewrite decide_True by done. apply lookup_delete_eq.
  - by rewrite lookup_delete_ne.
  - rewrite decide_True by set_solver. apply not_elem_of_dom. set_solver.
  - destruct (decide (k' ∈ d)); [rewrite decide_True by set_solver|rewrite decide_False by set_solver];
      done.
Qed.

(** ** Commit *)

Lemma commit_inserts (s : Store) (l : list (bytes * bytes)) (d : gset bytes) :
  store_wf s →
  let '(s', d') := foldl commit_item (s, d) l in
  store_wf s' ∧ d' = d ∖ list_to_set l.*1 ∧
  (NoDup l.*1 → ∀ k, get s' k = match (list_to_map l : gmap bytes bytes) !! k with
                                | Some v => Some v | None => get s k end).
Proof.
  revert s d. induction l as [|[key value] l IH]; intros s d Hwf; simpl.
  - split; [done|]. split; [set_solver|]. intros _ k. by rewrite lookup_empty.
  - specialize (IH (insert_ s key value) (d ∖ {[key]}) (insert_wf _ _ _ Hwf)).
    destruct (foldl _ _ l) as [s' d']. destruct IH as (Hwf' & -> & Hget).
    split; [done|]. split; [set_solver|]. intros [Hk Hnd]%NoDup_cons k.
    rewrite (Hget Hnd k), get_insert. destruct (decide (key = k)) as [->|Hne].
    + rewrite lookup_insert_eq. rewrite not_elem_of_list_to_map_1; done.
    + by rewrite lookup_insert_ne.
Qed.

Lemma commit_removes s ks :
  store_wf s → store_wf (foldl remove_ s ks) ∧
  ∀ k, get (foldl remove_ s ks) k = if decide (k ∈ ks) then None else get s k.
Proof.
  revert s. induction ks as [|key ks IH]; intros s Hwf; cbn [foldl].
  - split; [done|]. intros k. by rewrite decide_False by set_solver.
  - destruct (IH (remove_ s key) (remove_wf _ _ Hwf)) as [Hwf' Hget]. split; [done|].
    intros k. rewrite Hget, get_remove by done.
    repeat case_decide; try done; set_solver.
Qed.

(** Committing an overlay leaves the view unchanged: the parent now reads as the overlay did. *)
Lemma get_commit s k : store_wf s → get (commit s) k = get s k.
Proof.
  destruct s as [m|p o d]; simpl; [done|]. intros [Hdom Hwf]. unfold commit_overlay.
  pose proof (commit_inserts p (btree_iter o) d Hwf) as Hins.
  destruct (foldl _ _ _) as [s' d']. destruct Hins as (Hwf' & -> & Hget).
  assert (Hnd : NoDup (btree_iter o).*1) by (rewrite btree_iter_perm; apply NoDup_fst_map_to_list).
  assert (Hmap : list_to_map (btree_iter o) = o).
  { rewrite <-(list_to_map_to_list o) at 2. apply list_to_map_proper; [done|].
    apply btree_iter_perm. }
  rewrite (proj2 (commit_removes _ _ Hwf')), (Hget Hnd), Hmap.
  assert (Hset : ∀ k, k ∈ (list_to_set (btree_iter o).*1 : gset bytes) ↔ k ∈ dom o).
  { intros k'. rewrite elem_of_list_to_set, btree_iter_perm, elem_of_dom, list_elem_of_fmap.
    split.
    - intros ([a b] & -> & Hin). exists b. by apply elem_of_map_to_list.
    - intros [v Hv]. exists (k', v). split; [done|]. by apply elem_of_map_to_list. }
  destruct (o !! k) as [v|] eqn:Ho.
  - assert (k ∈ dom o) by (apply elem_of_dom; eauto).
    rewrite decide_False by (rewrite elem_of_elements, elem_of_difference, Hset; naive_solver).
    by rewrite decide_True by set_solver.
  - assert (k ∉ dom o) by by apply not_elem_of_dom.
    destruct (decide (k ∈ d)).
    + rewrite decide_True; [done|]. rewrite elem_of_elements, elem_of_difference, Hset. done.
    + rewrite decide_False; [done|]. rewrite elem_of_elements, elem_of_difference. tauto.
Qed.

Lemma commit_wf s : store_wf s → store_wf (commit s).
Proof.
  destruct s as [m|p o d]; simpl; [done|]. intros [Hdom Hwf]. unfold commit_overlay.
  pose proof (commit_inserts p (btree_iter o) d Hwf) as Hins.
  destruct (foldl _ _ _) as [s' d']. destruct Hins as (Hwf' & _ & _).
  apply commit_removes. done.
Qed.
End store.

(** * A concrete root store: finite maps have the behaviour the laws ask for. *)

Definition gmap_mkvs : MKVS := {|
  mkvs := gmap bytes bytes;
  mkvs_get m k := m !! k;
  mkvs_insert m k v := <[k:=v]> m;
  mkvs_remove m k := delete k m;
  mkvs_entries m := btree_iter m;
  mkvs_iter_start m := [];
|}.

Lemma gmap_mkvs_laws : @MKVSLaws gmap_mkvs.
Proof.
  split; simpl.
  - intros s k v k'. apply lookup_insert.
  - intros s k k'. apply lookup_delete.
  - intros s. apply btree_iter_sorted.
  - intros s k v. apply elem_of_btree_iter.
Qed.
