(* ===== verification/StoreIter.v ===== *)
(** Iterators over stores: the cursor of the overlay store, which merges the entries of the overlay
    with those of its parent, and the cursor of the prefix store, with the proof that they visit
    the entries of the map the store denotes, in key order (src/runtime-sdk/src/storage/overlay.rs,
    prefix.rs). *)
From S2P Require Import Prelude Storage.

(** * Iterators

    [MIterator] is the iterator trait of the store: the cursor operations, and [it_item], the
    [Iterator::next] of the standard library, which yields the current item and advances. *)

Class MIterator (P : Type) := {
  it_is_valid : P → bool;
  it_get_key : P → option bytes;
  it_get_value : P → option bytes;
  it_next : ST P Empty_set unit;
  it_seek : bytes → ST P Empty_set unit;
  it_item : ST P Empty_set (option (bytes * bytes));
}.

(** The iterator of the root store: a cursor into its entries. *)
Record RootCursor := { rc_entries : list (bytes * bytes); rc_rest : list (bytes * bytes) }.

Fixpoint drop_below (key : bytes) (l : list (bytes * bytes)) : list (bytes * bytes) :=
  match l with
  | [] => []
  | x :: l' => if bytes_ltb x.1 key then drop_below key l' else l
  end.

#[global] Instance root_iterator : MIterator RootCursor := {|
  it_is_valid c := negb (bool_decide (rc_rest c = []));
  it_get_key c := fst <$> head (rc_rest c);
  it_get_value c := snd <$> head (rc_rest c);
  it_next c := (Ok tt, {| rc_entries := rc_entries c; rc_rest := tail (rc_rest c) |});
  it_seek k c := (Ok tt, {| rc_entries := rc_entries c; rc_rest := drop_below k (rc_entries c) |});
  it_item c := (Ok (head (rc_rest c)),
                {| rc_entries := rc_entries c; rc_rest := tail (rc_rest c) |});
|}.

(** ** The overlay iterator *)

Record OverlayCursor (P : Type) := {
  oc_overlay : gmap bytes bytes;
  oc_dirty : gset bytes;
  (** bound on the number of entries of the parent iterator, for the skipping loop *)
  oc_fuel : nat;
  oc_parent : P;
  oc_range : list (bytes * bytes);
  oc_overlay_valid : bool;
  oc_key : option bytes;
  oc_value : option bytes;
}.
Arguments oc_overlay {P}. Arguments oc_dirty {P}. Arguments oc_fuel {P}. Arguments oc_parent {P}.
Arguments oc_range {P}. Arguments oc_overlay_valid {P}. Arguments oc_key {P}. Arguments oc_value {P}.

Section overlay_iterator.
Context {P : Type} `{MIterator P}.

Definition oc_set_parent (p : P) (c : OverlayCursor P) : OverlayCursor P :=
  {| oc_overlay := oc_overlay c; oc_dirty := oc_dirty c; oc_fuel := oc_fuel c;
     oc_parent := p; oc_range := oc_range c; oc_overlay_valid := oc_overlay_valid c;
     oc_key := oc_key c; oc_value := oc_value c |}.
Definition oc_set_range (r : list (bytes * bytes)) (c : OverlayCursor P) : OverlayCursor P :=
  {| oc_overlay := oc_overlay c; oc_dirty := oc_dirty c; oc_fuel := oc_fuel c;
     oc_parent := oc_parent c; oc_range := r; oc_overlay_valid := oc_overlay_valid c;
     oc_key := oc_key c; oc_value := oc_value c |}.
Definition oc_set_position (valid : bool) (k v : option bytes) (c : OverlayCursor P)
    : OverlayCursor P :=
  {| oc_overlay := oc_overlay c; oc_dirty := oc_dirty c; oc_fuel := oc_fuel c;
     oc_parent := oc_parent c; oc_range := oc_range c; oc_overlay_valid := valid;
     oc_key := k; oc_value := v |}.

(** An operation of the parent iterator, run on the cursor that owns it. *)
Definition on_parent {A} (m : ST P Empty_set A) : ST (OverlayCursor P) Empty_set A := λ c,
  let '(r, p) := m (oc_parent c) in (r, oc_set_parent p c).

(** The loop that skips over dirty entries of the parent. *)
Fixpoint skip_dirty (dirty : gset bytes) (fuel : nat) : ST P Empty_set unit := λ p,
  match fuel with
  | O => (Ok tt, p)
  | S fuel' =>
      if negb (it_is_valid p) then (Ok tt, p)
      else match it_get_key p with
           | None => (Panic "parent.is_valid", p)
           | Some k =>
               if decide (k ∈ dirty) then (it_next ;; skip_dirty dirty fuel') p else (Ok tt, p)
           end
  end.

Definition update_iterator_position : ST (OverlayCursor P) Empty_set unit :=
  c ← get_st;
  on_parent (skip_dirty (oc_dirty c) (oc_fuel c)) ;;
  c ← get_st;
  let i_key := it_get_key (oc_parent c) in
  let o_item := head (oc_range c) in
  let overlay_valid := bool_decide (is_Some o_item) in
  parent_first ←
    (if negb (it_is_valid (oc_parent c)) then mret false
     else match o_item with
          | None => mret true
          | Some (o_key, _) => k ← expect i_key "parent.is_valid"; mret (bytes_ltb k o_key)
          end);
  if (parent_first : bool) then
    modify (oc_set_position overlay_valid i_key (it_get_value (oc_parent c)))
  else modify (oc_set_position overlay_valid (fst <$> o_item) (snd <$> o_item)).

Definition overlay_next : ST (OverlayCursor P) Empty_set unit :=
  c ← get_st;
  parent_first ←
    (if negb (oc_overlay_valid c) then mret true
     else if it_is_valid (oc_parent c) then
       k ← expect (it_get_key (oc_parent c)) "parent.is_valid";
       o_item ← expect (head (oc_range c)) "overlay_valid";
       mret (negb (bytes_ltb o_item.1 k))
     else mret false);
  (if (parent_first : bool) then on_parent it_next
   else modify (λ c, oc_set_range (tail (oc_range c)) c)) ;;
  update_iterator_position.

Definition overlay_seek (key : bytes) : ST (OverlayCursor P) Empty_set unit :=
  on_parent (it_seek key) ;;
  modify (λ c, oc_set_range (drop_below key (btree_iter (oc_overlay c))) c) ;;
  update_iterator_position.

Definition overlay_is_valid (c : OverlayCursor P) : bool :=
  it_is_valid (oc_parent c) || oc_overlay_valid c.

Definition overlay_item : ST (OverlayCursor P) Empty_set (option (bytes * bytes)) :=
  c ← get_st;
  if negb (overlay_is_valid c) then mret None
  else
    key ← expect (oc_key c) "iterator is valid";
    value ← expect (oc_value c) "iterator is valid";
    overlay_next ;;
    mret (Some (key, value)).

#[global] Instance overlay_iterator : MIterator (OverlayCursor P) := {|
  it_is_valid := overlay_is_valid;
  it_get_key := oc_key;
  it_get_value := oc_value;
  it_next := overlay_next;
  it_seek := overlay_seek;
  it_item := overlay_item;
|}.
End overlay_iterator.

(** ** The prefix iterator *)

Record PrefixCursor (P : Type) := { pc_inner : P; pc_prefix : bytes }.
Arguments pc_inner {P}. Arguments pc_prefix {P}.

Section prefix_iterator.
Context {P : Type} `{MIterator P}.

Definition on_inner {A} (m : ST P Empty_set A) : ST (PrefixCursor P) Empty_set A := λ c,
  let '(r, p) := m (pc_inner c) in (r, {| pc_inner := p; pc_prefix := pc_prefix c |}).

Definition prefix_is_valid (c : PrefixCursor P) : bool :=
  if negb (starts_with (default [] (it_get_key (pc_inner c))) (pc_prefix c)) then false
  else it_is_valid (pc_inner c).

Definition prefix_next : ST (PrefixCursor P) Empty_set unit :=
  c ← get_st;
  if negb (prefix_is_valid c) then mret tt else on_inner it_next.

Definition prefix_item : ST (PrefixCursor P) Empty_set (option (bytes * bytes)) :=
  c ← get_st;
  item ← on_inner it_item;
  mret (match item with
        | Some (k, v) =>
            if starts_with k (pc_prefix c) then Some (drop (length (pc_prefix c)) k, v) else None
        | None => None
        end).

#[global] Instance prefix_iterator : MIterator (PrefixCursor P) := {|
  it_is_valid := prefix_is_valid;
  it_get_key c := it_get_key (pc_inner c);
  it_get_value c := it_get_value (pc_inner c);
  it_next := prefix_next;
  it_seek key := c ← get_st; on_inner (it_seek (pc_prefix c ++ key));
  it_item := prefix_item;
|}.
End prefix_iterator.

(** ** Boxed iterators *)

Record DynIter := { di_cursor : Type; di_ops : MIterator di_cursor; di_pos : di_cursor }.

Section store_iterators.
Context `{MKVS}.

(** An upper bound on the number of entries a store's iterator can yield. *)
Fixpoint store_bound (s : Store) : nat :=
  match s with
  | MKVSStore m => length (mkvs_entries m)
  | OverlayStore parent overlay _ => store_bound parent + size overlay
  end.

(** [Store::iter] of a boxed store. *)
Fixpoint store_iter (s : Store) : DynIter :=
  match s with
  | MKVSStore m =>
      {| di_cursor := RootCursor; di_ops := root_iterator;
         di_pos := {| rc_entries := mkvs_entries m; rc_rest := mkvs_iter_start m |} |}
  | OverlayStore parent overlay dirty =>
      let pi := store_iter parent in
      {| di_cursor := OverlayCursor (di_cursor pi);
         di_ops := overlay_iterator (H := di_ops pi);
         di_pos := {| oc_overlay := overlay; oc_dirty := dirty; oc_fuel := store_bound parent;
                      oc_parent := di_pos pi; oc_range := btree_iter overlay;
                      oc_overlay_valid := true; oc_key := None; oc_value := None |} |}
  end.

(** [PrefixStore::iter]: wrap the iterator of the parent and seek to the prefix. *)
Definition prefix_iter (it : Outcome Empty_set DynIter) (prefix : bytes)
    : Outcome Empty_set DynIter :=
  match it with
  | Ok it =>
      match @it_seek _ (di_ops it) prefix (di_pos it) with
      | (Ok _, p) => Ok {| di_cursor := PrefixCursor (di_cursor it);
                           di_ops := prefix_iterator (H := di_ops it);
                           di_pos := {| pc_inner := p; pc_prefix := prefix |} |}
      | (Err e, _) => Err e
      | (Panic m, _) => Panic m
      end
  | Err e => Err e
  | Panic m => Panic m
  end.
End store_iterators.

(** [Iterator::collect], which stops at the first [None]. *)
Fixpoint collect {P} `{MIterator P} (fuel : nat) (p : P) : Outcome Empty_set (list (bytes * bytes)) :=
  match fuel with
  | O => Ok []
  | S fuel' =>
      match it_item p with
      | (Ok (Some x), p') =>
          match collect fuel' p' with Ok l => Ok (x :: l) | r => r end
      | (Ok None, _) => Ok []
      | (Err e, _) => Err e
      | (Panic m, _) => Panic m
      end
  end.

(** ** Correctness of the iterators

    [represents c l]: the cursor yields exactly the entries [l], in that order, through the
    cursor operations and through [Iterator::next] alike. *)

Fixpoint represents {P} `{MIterator P} (c : P) (l : list (bytes * bytes)) : Prop :=
  match l with
  | [] => it_is_valid c = false ∧ ∃ c', it_item c = (Ok None, c')
  | (k, v) :: l' =>
      it_is_valid c = true ∧ it_get_key c = Some k ∧ it_get_value c = Some v ∧
      ∃ c', it_next c = (Ok tt, c') ∧ it_item c = (Ok (Some (k, v)), c') ∧ represents c' l'
  end.

Lemma represents_valid {P} `{MIterator P} (c : P) l :
  represents c l → it_is_valid c = match l with [] => false | _ => true end.
Proof. destruct l as [|[k v] l]; simpl; naive_solver. Qed.

Lemma represents_key {P} `{MIterator P} (c : P) x l :
  represents c (x :: l) → it_get_key c = Some x.1 ∧ it_get_value c = Some x.2.
Proof. destruct x; simpl; naive_solver. Qed.

Lemma root_represents es l : represents {| rc_entries := es; rc_rest := l |} l.
Proof.
  induction l as [|[k v] l IH]; simpl; [eauto|].
  repeat (split; [done|]). eexists. split; [done|]. split; [done|]. apply IH.
Qed.

Lemma drop_below_filter l k :
  StronglySorted entry_lt l → drop_below k l = filter (λ x, bytes_le k x.1) l.
Proof.
  induction 1 as [|x l Hs IH Hall]; [done|]. cbn [drop_below]. rewrite filter_cons.
  destruct (bytes_ltb x.1 k) eqn:E.
  - rewrite decide_False; [done|]. intros Hle. unfold bytes_le in Hle. congruence.
  - rewrite decide_True by done. f_equal. symmetry. apply filter_all.
    eapply Forall_impl; [exact Hall|]. intros y Hy. apply bytes_lt_le in Hy.
    by transitivity x.1.
Qed.

(** A list of entries with the dirty ones taken out, as the overlay sees its parent. *)
Definition clean (dirty : gset bytes) (l : list (bytes * bytes)) : list (bytes * bytes) :=
  filter (λ x, x.1 ∉ dirty) l.

Section overlay_correct.
Context {P : Type} `{MIterator P}.
Implicit Types (c : OverlayCursor P) (lp lo : list (bytes * bytes)).

Definition head_clean (dirty : gset bytes) lp : Prop :=
  match lp with [] => True | x :: _ => x.1 ∉ dirty end.

(** A cursor whose position has been updated, with [lp] and [lo] still to visit. *)
Record positioned c lp lo : Prop := {
  pos_parent : represents (oc_parent c) lp;
  pos_clean : head_clean (oc_dirty c) lp;
  pos_range : oc_range c = lo;
  pos_valid : oc_overlay_valid c = bool_decide (is_Some (head lo));
  pos_key : oc_key c = fst <$> head (list_merge entry_le (clean (oc_dirty c) lp) lo);
  pos_value : oc_value c = snd <$> head (list_merge entry_le (clean (oc_dirty c) lp) lo);
  pos_dirty : Forall (λ x, x.1 ∈ oc_dirty c) lo;
  pos_fuel : length lp ≤ oc_fuel c;
}.

Lemma on_parent_run {A} (m : ST P Empty_set A) c r p :
  m (oc_parent c) = (r, p) → on_parent m c = (r, oc_set_parent p c).
Proof. unfold on_parent. by intros ->. Qed.

Lemma skip_dirty_spec dirty fuel p lp :
  represents p lp → length lp ≤ fuel →
  ∃ p' lp', skip_dirty dirty fuel p = (Ok tt, p') ∧ represents p' lp' ∧
    head_clean dirty lp' ∧ clean dirty lp' = clean dirty lp ∧ length lp' ≤ length lp.
Proof.
  revert p lp. induction fuel as [|fuel IH]; intros p lp Hrep Hlen; simpl.
  { destruct lp as [|x lp]; [|simpl in *; lia]. exists p, []. done. }
  rewrite (represents_valid _ _ Hrep). destruct lp as [|[k v] lp].
  { exists p, []. done. }
  cbn [negb]. rewrite (proj1 (represents_key _ _ _ Hrep)). cbn [fst].
  destruct (decide (k ∈ dirty)) as [Hk|Hk].
  - destruct Hrep as (_ & _ & _ & p' & Hnext & _ & Hrep').
    rewrite (bind_ok _ _ _ _ _ Hnext).
    destruct (IH p' lp Hrep') as (p2 & lp2 & -> & Hr2 & Hc2 & Heq & Hle); [simpl in *; lia|].
    exists p2, lp2. split; [done|]. split; [done|]. split; [done|]. split; [|simpl; lia].
    rewrite Heq. unfold clean at 2. rewrite filter_cons, decide_False; [done|]. simpl. tauto.
  - exists p, ((k, v) :: lp). done.
Qed.

Lemma entry_le_false_lt (k k' : bytes) (v v' : bytes) :
  bytes_ltb k k' = false → k ≠ k' → ¬ entry_le (k, v) (k', v').
Proof.
  intros Hk Hne Hle%bytes_le_lt_eq. destruct Hle as [Hlt|]; [|done].
  unfold bytes_lt in Hlt. simpl in Hlt. congruence.
Qed.

Lemma clean_head dirty x lp : x.1 ∉ dirty → clean dirty (x :: lp) = x :: clean dirty lp.
Proof. intros. unfold clean. by rewrite filter_cons, decide_True. Qed.

(** Updating the position puts the cursor at the smaller of the two heads. *)
Lemma update_position_spec c lp lo :
  represents (oc_parent c) lp → oc_range c = lo → Forall (λ x, x.1 ∈ oc_dirty c) lo →
  length lp ≤ oc_fuel c →
  ∃ c' lp', update_iterator_position c = (Ok tt, c') ∧ positioned c' lp' lo ∧
    oc_dirty c' = oc_dirty c ∧ oc_overlay c' = oc_overlay c ∧
    clean (oc_dirty c) lp' = clean (oc_dirty c) lp.
Proof.
  intros Hrep Hrange Hd Hfuel. unfold update_iterator_position. rewrite get_st_bind.
  destruct (skip_dirty_spec (oc_dirty c) (oc_fuel c) _ _ Hrep Hfuel)
    as (p' & lp' & Hskip & Hrep' & Hclean & Hceq & Hlen).
  assert (Hon : on_parent (skip_dirty (oc_dirty c) (oc_fuel c)) c = (Ok tt, oc_set_parent p' c)).
  { by apply on_parent_run. }
  rewrite (bind_ok _ _ _ _ _ Hon), get_st_bind. simpl.
  rewrite Hrange, (represents_valid _ _ Hrep').
  destruct lp' as [|[k v] lp']; [|destruct lo as [|[k' v'] lo]].
  - eexists _, []. split; [done|]. split; [|done].
    destruct lo as [|x lo]; split; simpl; try done; lia.
  - destruct (represents_key _ _ _ Hrep') as [Hk Hv].
    eexists _, ((k, v) :: lp'). split; [done|]. split; [|done].
    split; simpl; try done; rewrite ?Hk, ?Hv, ?clean_head by done; simpl; try done; simpl in *; lia.
  - cbn [negb head]. destruct (represents_key _ _ _ Hrep') as [Hk Hv]. cbn [fst snd] in *.
    rewrite Hk. simpl in Hclean. assert (Hne : k ≠ k').
    { intros ->. apply Hclean. by inversion Hd. }
    run_simpl. destruct (bytes_ltb k k') eqn:E;
      (eexists _, ((k, v) :: lp'); split; [done|]; split; [|done]);
      split; simpl; try done; rewrite ?Hk, ?Hv, ?clean_head by done; simpl; try (simpl in *; lia).
    all: rewrite ?decide_True, ?decide_False by
      first [by apply bytes_lt_le | by apply entry_le_false_lt]; done.
Qed.

(** One step of a positioned cursor visits the smaller head and repositions. *)
Lemma overlay_next_spec c lp lo x l :
  positioned c lp lo → list_merge entry_le (clean (oc_dirty c) lp) lo = x :: l →
  ∃ c' lp' lo', overlay_next c = (Ok tt, c') ∧ positioned c' lp' lo' ∧
    oc_dirty c' = oc_dirty c ∧ list_merge entry_le (clean (oc_dirty c) lp') lo' = l.
Proof.
  intros [Hrep Hclean Hrange Hvalid _ _ Hd Hfuel] Hm. unfold overlay_next. rewrite get_st_bind.
  rewrite Hvalid, Hrange, (represents_valid _ _ Hrep).
  destruct lp as [|[k v] lp].
  - (* only the overlay is left *)
    destruct lo as [|y lo]; [done|]. rewrite bool_decide_eq_true_2 by (by eexists). cbn.
    cbn in Hm. injection Hm as <- <-. run_simpl. rewrite Hrange. cbn [tail].
    set (c1 := oc_set_range lo c).
    destruct (update_position_spec c1 [] lo Hrep eq_refl) as (c' & lp' & Hrun & Hpos & Hdd & _ & Hcl);
      [by inversion Hd|simpl; lia|].
    exists c', lp', lo. split; [exact Hrun|]. split; [done|]. split; [done|].
    unfold c1 in Hcl. cbn in Hcl. rewrite Hcl. by destruct lo.
  - pose proof Hrep as (Hv & Hk & Hval & p' & Hnext & _ & Hrep'). simpl in Hclean.
    rewrite clean_head in Hm by done.
    assert (Hpar : ∃ c' lp', (on_parent it_next ;; update_iterator_position) c = (Ok tt, c') ∧
              positioned c' lp' lo ∧ oc_dirty c' = oc_dirty c ∧
              clean (oc_dirty c) lp' = clean (oc_dirty c) lp).
    { assert (Hon : on_parent it_next c = (Ok tt, oc_set_parent p' c)).
      { by apply on_parent_run. }
      rewrite (bind_ok _ _ _ _ _ Hon).
      destruct (update_position_spec (oc_set_parent p' c) lp lo Hrep' Hrange Hd)
        as (c' & lp' & Hrun & Hpos & Hdd & _ & Hcl); [simpl in *; lia|]. eauto 10. }
    destruct lo as [|[k' v'] lo]; [|rewrite bool_decide_eq_true_2 by (by eexists)]; cbn in Hm.
    + destruct Hpar as (c' & lp' & Hrun & Hpos & Hdd & Hcl). injection Hm as <- <-.
      exists c', lp', []. split; [exact Hrun|]. split; [done|]. split; [done|].
      rewrite Hcl. by destruct (clean _ lp).
    + rewrite Hk. run_simpl. cbn [negb head fst]. destruct (bytes_ltb k' k) eqn:E; cbn [negb].
      * rewrite decide_False in Hm by (intros Hle; unfold entry_le, bytes_le in Hle; simpl in Hle; congruence).
        injection Hm as <- <-. rewrite Hrange. cbn [tail].
        set (c1 := oc_set_range lo c).
        destruct (update_position_spec c1 ((k, v) :: lp) lo) as (c' & lp' & Hrun & Hpos & Hdd & _ & Hcl);
          [exact Hrep|done|by inversion Hd|done|].
        exists c', lp', lo. split; [exact Hrun|]. split; [done|]. split; [done|].
        unfold c1 in Hcl. cbn [oc_dirty oc_set_range] in Hcl. by rewrite Hcl, clean_head.
      * rewrite decide_True in Hm by done. injection Hm as <- <-.
        destruct Hpar as (c' & lp' & Hrun & Hpos & Hdd & Hcl).
        exists c', lp', ((k', v') :: lo). split; [exact Hrun|]. split; [done|]. split; [done|].
        by rewrite Hcl.
Qed.

Lemma positioned_represents c lp lo :
  positioned c lp lo → represents c (list_merge entry_le (clean (oc_dirty c) lp) lo).
Proof.
  remember (list_merge entry_le (clean (oc_dirty c) lp) lo) as l eqn:Hl.
  revert c lp lo Hl. induction l as [|[k v] l IH]; intros c lp lo Hl Hpos.
  - assert (lp = [] ∧ lo = []) as [-> ->].
    { destruct lp as [|x lp]; [by destruct lo|].
      rewrite clean_head in Hl by apply (pos_clean _ _ _ Hpos).
      destruct lo; simpl in Hl; [done|]. by case_decide. }
    assert (Hv : overlay_is_valid c = false).
    { unfold overlay_is_valid.
      by rewrite (represents_valid _ _ (pos_parent _ _ _ Hpos)), (pos_valid _ _ _ Hpos). }
    split; [exact Hv|]. exists c. simpl. unfold overlay_item. rewrite get_st_bind.
    by rewrite Hv.
  - assert (Hv : overlay_is_valid c = true).
    { unfold overlay_is_valid.
      rewrite (represents_valid _ _ (pos_parent _ _ _ Hpos)), (pos_valid _ _ _ Hpos).
      destruct lp as [|x lp]; [|done]. destruct lo; [done|]. by apply orb_true_iff; right. }
    pose proof (pos_key _ _ _ Hpos) as Hk. pose proof (pos_value _ _ _ Hpos) as Hval.
    rewrite <-Hl in Hk, Hval. simpl in Hk, Hval.
    destruct (overlay_next_spec c lp lo (k, v) l Hpos (eq_sym Hl))
      as (c' & lp' & lo' & Hrun & Hpos' & Hdd & Hl').
    split; [exact Hv|]. split; [exact Hk|]. split; [exact Hval|].
    exists c'. split; [exact Hrun|]. split.
    + simpl. unfold overlay_item. rewrite get_st_bind. rewrite Hv. cbn [negb].
      rewrite Hk, Hval. run_simpl. by rewrite Hrun.
    + apply (IH c' lp' lo'); [|done]. by rewrite Hdd.
Qed.

(** Seeking the overlay iterator merges the clean entries of the parent with the overlay. *)
Lemma overlay_seek_spec c key cp lp :
  it_seek key (oc_parent c) = (Ok tt, cp) → represents cp lp → length lp ≤ oc_fuel c →
  dom (oc_overlay c) ⊆ oc_dirty c →
  ∃ c', overlay_seek key c = (Ok tt, c') ∧
    represents c' (list_merge entry_le (clean (oc_dirty c) lp)
                     (filter (λ x, bytes_le key x.1) (btree_iter (oc_overlay c)))).
Proof.
  intros Hseek Hrep Hlen Hdom. unfold overlay_seek.
  rewrite (bind_ok _ _ _ _ _ (on_parent_run _ _ _ _ Hseek)). run_simpl.
  rewrite drop_below_filter by apply btree_iter_sorted. cbn [oc_overlay oc_set_parent].
  set (c1 := oc_set_range _ _).
  destruct (update_position_spec c1 _ _ Hrep eq_refl)
    as (c' & lp' & Hrun & Hpos & Hdd & _ & Hcl); [|done|].
  - apply Forall_forall. intros [k v] [_ Hin%elem_of_btree_iter]%list_elem_of_filter.
    apply Hdom, elem_of_dom. eauto.
  - exists c'. split; [exact Hrun|]. pose proof (positioned_represents _ _ _ Hpos) as Hres.
    rewrite Hdd in Hres. cbn in Hcl, Hres. by rewrite Hcl in Hres.
Qed.
End overlay_correct.

(** ** The iterator of a store against the map it denotes *)

Lemma merge_sorted {A} (l l' : list (bytes * A)) :
  StronglySorted entry_lt l → StronglySorted entry_lt l' →
  (∀ x y, x ∈ l → y ∈ l' → x.1 ≠ y.1) → StronglySorted entry_lt (list_merge entry_le l l').
Proof.
  intros Hl. revert l'.
  induction Hl as [|x l Hl IHl Hall]; intros l' Hl' Hdisj; [by destruct l'|].
  induction Hl' as [|y l' Hl' IHl' Hall']; [by constructor|]. cbn.
  destruct (decide (entry_le x y)) as [Hle|Hle].
  - assert (Hxy : entry_lt x y).
    { apply bytes_le_lt_eq in Hle as [?|Heq]; [done|]. exfalso. apply (Hdisj x y); [left|left|done]. }
    constructor; [apply IHl; [by constructor|]; intros a b Ha Hb; apply Hdisj; [by right|done]|].
    rewrite merge_Permutation, Forall_app. split; [done|]. constructor; [done|].
    eapply Forall_impl; [exact Hall'|]. intros z Hz. unfold entry_lt in *. by etransitivity.
  - assert (Hyx : entry_lt y x) by (by apply not_false_iff_true in Hle).
    change (StronglySorted entry_lt (y :: list_merge entry_le (x :: l) l')).
    constructor; [apply IHl'|].
    + intros a b Ha Hb. apply Hdisj; [done|by right].
    + rewrite merge_Permutation, Forall_app. split; [|done]. constructor; [done|].
      eapply Forall_impl; [exact Hall|]. intros z Hz. unfold entry_lt in *. by etransitivity.
Qed.

Section iter_correct.
Context `{MKVSLaws}.

(** The finite map a store denotes. *)
Fixpoint view (s : Store) : gmap bytes bytes :=
  match s with
  | MKVSStore m => list_to_map (mkvs_entries m)
  | OverlayStore parent overlay dirty =>
      overlay ∪ filter (λ x, x.1 ∉ dirty) (view parent)
  end.

Lemma root_view_lookup m k : (list_to_map (mkvs_entries m) : gmap bytes bytes) !! k = mkvs_get m k.
Proof.
  assert (Hnd : NoDup (mkvs_entries m).*1).
  { pose proof (mkvs_entries_sorted m) as Hs. induction Hs as [|x l Hs IH Hall]; [constructor|].
    rewrite fmap_cons. constructor; [|done]. intros (y & Heq & Hy)%list_elem_of_fmap.
    rewrite Forall_forall in Hall. specialize (Hall y Hy). unfold entry_lt in Hall.
    rewrite Heq in Hall. exact (irreflexivity bytes_lt _ Hall). }
  apply option_eq. intros v. rewrite <-elem_of_list_to_map by done. apply mkvs_entries_get.
Qed.

Lemma view_lookup s k : store_wf s → view s !! k = get s k.
Proof.
  induction s as [m|p IH o d]; simpl; [intros _; apply root_view_lookup|]. intros [Hdom Hwf].
  destruct (decide (k ∈ d)) as [Hd|Hd].
  - rewrite lookup_union. rewrite (map_lookup_filter_None_2 _ (view p) k); [by destruct (o !! k)|].
    right. intros v _ Hv. by apply Hv.
  - rewrite lookup_union_r by (apply not_elem_of_dom; set_solver).
    rewrite <-(IH Hwf). apply option_eq. intros v. rewrite map_lookup_filter_Some. simpl. tauto.
Qed.

Lemma root_view_iter m : btree_iter (list_to_map (mkvs_entries m)) = mkvs_entries m.
Proof.
  apply sorted_entries_ext; [apply btree_iter_sorted|apply mkvs_entries_sorted|].
  intros k v. by rewrite elem_of_btree_iter, root_view_lookup, mkvs_entries_get.
Qed.

Lemma length_btree_iter {A} (m : gmap bytes A) : length (btree_iter m) = size m.
Proof. by rewrite btree_iter_perm, length_map_to_list. Qed.

Lemma view_bound s : size (view s) ≤ store_bound s.
Proof.
  induction s as [m|p IH o d]; simpl.
  - by rewrite <-length_btree_iter, root_view_iter.
  - rewrite <-(size_dom (_ ∪ _)), dom_union_L, size_union_alt, (size_dom o).
    assert (size (dom (filter (λ x, x.1 ∉ d) (view p)) ∖ dom o) ≤ size (view p)); [|lia].
    rewrite <-(size_dom (view p)). apply subseteq_size.
    pose proof (dom_filter_subseteq (λ x : bytes * bytes, x.1 ∉ d) (view p)). set_solver.
Qed.

Lemma view_overlay_iter p o d key :
  dom o ⊆ d →
  list_merge entry_le (clean d (filter (λ x, bytes_le key x.1) (btree_iter (view p))))
    (filter (λ x, bytes_le key x.1) (btree_iter o)) =
  filter (λ x, bytes_le key x.1) (btree_iter (view (OverlayStore p o d))).
Proof.
  intros Hdom. apply sorted_entries_ext.
  - apply merge_sorted; repeat apply StronglySorted_filter; try apply btree_iter_sorted.
    intros [k v] [k' v'] [Hc _]%list_elem_of_filter [_ Ho%elem_of_btree_iter]%list_elem_of_filter.
    simpl in *. intros ->. apply Hc, Hdom, elem_of_dom. eauto.
  - apply StronglySorted_filter, btree_iter_sorted.
  - intros k v. rewrite merge_Permutation, elem_of_app. unfold clean.
    rewrite !list_elem_of_filter, !elem_of_btree_iter. simpl.
    rewrite lookup_union_Some_raw, map_lookup_filter_Some. simpl.
    split.
    + intros [(? & ? & ?)|(? & ?)]; [|tauto]. split; [done|]. right. split; [|tauto].
      apply not_elem_of_dom. set_solver.
    + tauto.
Qed.

(** The cursors of a store's iterator: whatever their position, they refer to the store. *)
Fixpoint cursor_ok (s : Store) : di_cursor (store_iter s) → Prop :=
  match s with
  | MKVSStore m => λ c, rc_entries c = mkvs_entries m
  | OverlayStore p o d => λ c,
      oc_overlay c = o ∧ oc_dirty c = d ∧ oc_fuel c = store_bound p ∧ cursor_ok p (oc_parent c)
  end.

Lemma cursor_ok_fresh s : cursor_ok s (di_pos (store_iter s)).
Proof. induction s as [m|p IH o d]; simpl; auto. Qed.

Section preserved.
Context {P : Type} `{MIterator P} (ok : P → Prop).
Hypothesis next_ok : ∀ c, ok c → ok (it_next c).2.
Hypothesis seek_ok : ∀ k c, ok c → ok (it_seek k c).2.

(** The operations of the overlay iterator keep what they refer to. *)
Definition same_overlay (c c' : OverlayCursor P) : Prop :=
  ok (oc_parent c') ∧ oc_overlay c' = oc_overlay c ∧ oc_dirty c' = oc_dirty c ∧
  oc_fuel c' = oc_fuel c.

Lemma skip_dirty_ok d fuel p : ok p → ok (skip_dirty d fuel p).2.
Proof.
  revert p. induction fuel as [|fuel IH]; intros p Hp; simpl; [done|].
  case_match; [done|]. case_match; [|done]. case_decide; [|done].
  run_simpl. pose proof (next_ok p Hp). destruct (it_next p) as [[]?]; simpl in *; auto.
Qed.

Lemma update_position_ok c :
  ok (oc_parent c) → same_overlay c (update_iterator_position c).2.
Proof.
  intros Hc. unfold update_iterator_position, on_parent, same_overlay. run_simpl.
  pose proof (skip_dirty_ok (oc_dirty c) (oc_fuel c) _ Hc) as Hok.
  destruct (skip_dirty _ _ _) as [[] p]; simpl in *; [|done..].
  case_run.
Qed.

Lemma overlay_next_ok c : ok (oc_parent c) → same_overlay c (overlay_next c).2.
Proof.
  intros Hc. unfold overlay_next, on_parent. run_simpl. pose proof (next_ok _ Hc) as Hn.
  case_run; try match goal with Hx : it_next _ = _ |- _ => rewrite Hx in Hn end; try done;
    match goal with |- context [update_iterator_position ?c1] =>
      first [exact (update_position_ok c1 Hn)|exact (update_position_ok c1 Hc)] end.
Qed.

Lemma overlay_seek_ok k c : ok (oc_parent c) → same_overlay c (overlay_seek k c).2.
Proof.
  intros Hc. unfold overlay_seek, on_parent. run_simpl. pose proof (seek_ok k _ Hc) as Hn.
  destruct (it_seek k (oc_parent c)) as [[] p']; [|done..].
  match goal with |- context [update_iterator_position ?c1] =>
    exact (update_position_ok c1 Hn) end.
Qed.
End preserved.

Lemma cursor_ok_ops s c :
  cursor_ok s c → cursor_ok s (@it_next _ (di_ops (store_iter s)) c).2 ∧
                  ∀ k, cursor_ok s (@it_seek _ (di_ops (store_iter s)) k c).2.
Proof.
  induction s as [m|p IH o d]; [done|]. intros (Ho & Hd & Hf & Hp). split; [|intros k].
  - pose proof (@overlay_next_ok _ (di_ops (store_iter p)) (cursor_ok p)
      (λ c Hc, proj1 (IH c Hc)) c Hp) as (Hp' & Ho' & Hd' & Hf').
    exact (conj (eq_trans Ho' Ho) (conj (eq_trans Hd' Hd) (conj (eq_trans Hf' Hf) Hp'))).
  - pose proof (@overlay_seek_ok _ (di_ops (store_iter p)) (cursor_ok p)
      (λ c Hc, proj1 (IH c Hc)) (λ k c Hc, proj2 (IH c Hc) k) k c Hp) as (Hp' & Ho' & Hd' & Hf').
    exact (conj (eq_trans Ho' Ho) (conj (eq_trans Hd' Hd) (conj (eq_trans Hf' Hf) Hp'))).
Qed.

(** Seeking the iterator of a store, from wherever it stands, and walking to the end visits
    exactly the entries of the store from the sought key on, in key order. *)
Lemma store_iter_seek s c key :
  store_wf s → cursor_ok s c →
  ∃ c', @it_seek _ (di_ops (store_iter s)) key c = (Ok tt, c') ∧ cursor_ok s c' ∧
    @represents _ (di_ops (store_iter s)) c' (filter (λ x, bytes_le key x.1) (btree_iter (view s))).
Proof.
  intros Hwf Hok.
  enough (∃ c', @it_seek _ (di_ops (store_iter s)) key c = (Ok tt, c') ∧
    @represents _ (di_ops (store_iter s)) c' (filter (λ x, bytes_le key x.1) (btree_iter (view s))))
    as (c' & Hrun & Hrep).
  { exists c'. split; [done|]. split; [|done].
    pose proof (proj2 (cursor_ok_ops s c Hok) key) as Hok'. by rewrite Hrun in Hok'. }
  revert c Hok. induction s as [m|p IH o d]; intros c Hok.
  - eexists. split; [done|]. cbn in Hok. rewrite Hok, drop_below_filter by apply mkvs_entries_sorted.
    cbn [view]. rewrite root_view_iter. apply root_represents.
  - destruct Hwf as [Hdom Hwf]. destruct Hok as (Ho & Hd & Hf & Hp).
    destruct (IH Hwf _ Hp) as (cp & Hseek & Hrep).
    change (@oc_overlay (di_cursor (store_iter p)) c = o) in Ho.
    change (@oc_dirty (di_cursor (store_iter p)) c = d) in Hd.
    destruct (@overlay_seek_spec _ (di_ops (store_iter p)) c key cp _ Hseek Hrep)
      as (c' & Hrun & Hres).
    + etransitivity; [apply length_filter|]. rewrite length_btree_iter.
      rewrite view_bound. apply Nat.eq_le_incl. by symmetry.
    + intros k Hk. rewrite Ho in Hk. apply Hdom in Hk. by rewrite <-Hd in Hk.
    + exists c'. split; [exact Hrun|].
      rewrite <-(view_overlay_iter p o d key Hdom). rewrite Ho, Hd in Hres. exact Hres.
Qed.
End iter_correct.

(** ** Prefix stores

    A chain of [PrefixStore]s over a store: each one prepends its prefix to the keys. *)

Inductive StoreRef :=
  | CurrentStore
  | PrefixStore (parent : StoreRef) (prefix : bytes).

Section prefix_store.
Context `{MKVS}.

Fixpoint ref_get (s : Store) (r : StoreRef) (key : bytes) : option bytes :=
  match r with
  | CurrentStore => get s key
  | PrefixStore parent prefix => ref_get s parent (prefix ++ key)
  end.

Fixpoint ref_insert (s : Store) (r : StoreRef) (key value : bytes) : Store :=
  match r with
  | CurrentStore => insert_ s key value
  | PrefixStore parent prefix => ref_insert s parent (prefix ++ key) value
  end.

Fixpoint ref_remove (s : Store) (r : StoreRef) (key : bytes) : Store :=
  match r with
  | CurrentStore => remove_ s key
  | PrefixStore parent prefix => ref_remove s parent (prefix ++ key)
  end.

Fixpoint ref_iter (s : Store) (r : StoreRef) : Outcome Empty_set DynIter :=
  match r with
  | CurrentStore => Ok (store_iter s)
  | PrefixStore parent prefix => prefix_iter (ref_iter s parent) prefix
  end.

(** Collecting the entries of a prefix store: at most every entry of the store is visited. *)
Definition ref_collect (s : Store) (r : StoreRef) : Outcome Empty_set (list (bytes * bytes)) :=
  match ref_iter s r with
  | Ok it => @collect _ (di_ops it) (S (store_bound s)) (di_pos it)
  | Err e => Err e
  | Panic m => Panic m
  end.

(** The full key behind a key of a prefix store. *)
Fixpoint ref_prefix (r : StoreRef) : bytes :=
  match r with
  | CurrentStore => []
  | PrefixStore parent prefix => ref_prefix parent ++ prefix
  end.

Lemma ref_get_key s r k : ref_get s r k = get s (ref_prefix r ++ k).
Proof. revert k. induction r as [|r IH p]; intros k; simpl; [done|]. by rewrite IH, <-app_assoc. Qed.
Lemma ref_insert_key s r k v : ref_insert s r k v = insert_ s (ref_prefix r ++ k) v.
Proof. revert k. induction r as [|r IH p]; intros k; simpl; [done|]. by rewrite IH, <-app_assoc. Qed.
Lemma ref_remove_key s r k : ref_remove s r k = remove_ s (ref_prefix r ++ k).
Proof. revert k. induction r as [|r IH p]; intros k; simpl; [done|]. by rewrite IH, <-app_assoc. Qed.
End prefix_store.

(** The entries below a prefix, with the prefix stripped, from a key on. *)
Definition strip_entries (p : bytes) (l : list (bytes * bytes)) : list (bytes * bytes) :=
  (λ x, (drop (length p) x.1, x.2)) <$> l.
Definition entries_from (p q : bytes) (l : list (bytes * bytes)) : list (bytes * bytes) :=
  strip_entries p (filter (λ x, starts_with x.1 p = true ∧ bytes_le (p ++ q) x.1) l).

(** [yields c l]: [Iterator::next] returns the elements of [l] and then [None]. *)
Fixpoint yields {P} `{MIterator P} (c : P) (l : list (bytes * bytes)) : Prop :=
  match l with
  | [] => ∃ c', it_item c = (Ok None, c')
  | x :: l' => ∃ c', it_item c = (Ok (Some x), c') ∧ yields c' l'
  end.

Lemma represents_yields {P} `{MIterator P} (c : P) l : represents c l → yields c l.
Proof.
  revert c. induction l as [|[k v] l IH]; intros c; simpl.
  - intros [_ [c' Hc]]. eauto.
  - intros (_ & _ & _ & c' & _ & Hitem & Hrep). eauto.
Qed.

Lemma collect_yields {P} `{MIterator P} (c : P) l fuel :
  yields c l → length l < fuel → collect fuel c = Ok l.
Proof.
  revert c fuel. induction l as [|x l IH]; intros c [|fuel]; simpl; try lia.
  - by intros [c' ->].
  - intros (c' & -> & Hy) Hlen. by rewrite IH by (done || lia).
Qed.

(** A prefix cursor yields the leading run of its inner items that have the prefix. *)
Lemma prefix_yields {P} `{MIterator P} (c : P) p l :
  yields c l → StronglySorted entry_lt l → Forall (λ x, bytes_le p x.1) l →
  yields {| pc_inner := c; pc_prefix := p |}
    (strip_entries p (filter (λ x, starts_with x.1 p = true) l)).
Proof.
  revert c. induction l as [|[k v] l IH]; intros c Hy Hs Hge.
  - destruct Hy as [c' Hc]. simpl. unfold prefix_item, on_inner. run_simpl. cbn [pc_inner].
    rewrite Hc. eauto.
  - destruct Hy as (c' & Hc & Hy). apply StronglySorted_cons in Hs as [Hall Hs].
    inversion Hge as [|? ? Hk Hge']; subst. rewrite filter_cons.
    destruct (starts_with k p) eqn:Hsw; cbn [fst].
    + rewrite decide_True by done. simpl. unfold prefix_item, on_inner. run_simpl. cbn [pc_inner].
      rewrite Hc. eexists. split; [cbn; by rewrite Hsw|]. by apply IH.
    + rewrite decide_False by congruence. rewrite filter_none.
      * simpl. unfold prefix_item, on_inner. run_simpl. cbn [pc_inner]. rewrite Hc.
        eexists. cbn. by rewrite Hsw.
      * eapply Forall_impl; [exact Hall|]. intros [k' v'] Hlt. simpl in *.
        by rewrite (starts_with_interval p k k').
Qed.

Lemma strip_app (p k : bytes) : drop (length p) (p ++ k) = k.
Proof. apply drop_app_length. Qed.

Lemma entries_from_sorted p q l :
  StronglySorted entry_lt l → StronglySorted entry_lt (entries_from p q l).
Proof.
  intros Hs. unfold entries_from, strip_entries.
  induction Hs as [|x l Hs IH Hall]; [constructor|]. rewrite filter_cons. case_decide as Hx; [|done].
  rewrite fmap_cons. constructor; [done|].
  rewrite Forall_fmap, Forall_forall. intros y [Hy Hin]%list_elem_of_filter.
  rewrite Forall_forall in Hall. specialize (Hall y Hin). unfold entry_lt in *. simpl.
  destruct Hx as [Hx _], Hy as [Hy _]. apply starts_with_iff in Hx as [rx Hx], Hy as [ry Hy].
  rewrite Hx, Hy in Hall |- *. rewrite !strip_app. by apply bytes_lt_app in Hall.
Qed.

Lemma bytes_le_app p a b : bytes_le (p ++ a) (p ++ b) ↔ bytes_le a b.
Proof. by rewrite <-!bytes_nlt_ge, bytes_lt_app. Qed.

(** Nesting prefixes composes them. *)
Lemma entries_from_nest b p q l :
  strip_entries p (filter (λ x, starts_with x.1 p = true) (entries_from b (p ++ q) l)) =
  entries_from (b ++ p) q l.
Proof.
  unfold entries_from, strip_entries. induction l as [|x l IH]; [done|].
  rewrite !filter_cons. destruct (starts_with x.1 (b ++ p)) eqn:Hbp.
  - apply starts_with_iff in Hbp as [r Hr]. rewrite <-app_assoc in Hr.
    assert (Hb : starts_with x.1 b = true) by (apply starts_with_iff; eauto).
    destruct (decide (bytes_le ((b ++ p) ++ q) x.1)) as [Hle|Hle].
    + rewrite decide_True by (by rewrite app_assoc). rewrite decide_True by done.
      rewrite fmap_cons, filter_cons. cbn [fst]. rewrite decide_True.
      2:{ rewrite Hr, strip_app. apply starts_with_app. }
      rewrite fmap_cons, IH. cbn [fst snd]. f_equal. f_equal.
      by rewrite drop_drop, length_app.
    + rewrite decide_False by (rewrite app_assoc; tauto). rewrite decide_False by tauto. apply IH.
  - rewrite (decide_False (P := false = true ∧ bytes_le ((b ++ p) ++ q) x.1))
      by (by intros [? _]).
    case_decide as Hx; [|apply IH]. rewrite fmap_cons, filter_cons. cbn [fst].
    rewrite decide_False; [apply IH|]. destruct Hx as [[r Hr]%starts_with_iff _].
    rewrite Hr, strip_app. intros [r' Hr']%starts_with_iff. subst r.
    rewrite Hr, app_assoc, starts_with_app in Hbp. done.
Qed.

Section prefix_correct.
Context `{MKVSLaws}.

(** What an iterator below a prefix promises: from any position, seeking makes it yield the
    entries of the map below the prefix, from the sought key on. *)
Definition iterates (m : gmap bytes bytes) (base : bytes) (it : DynIter) : Prop :=
  ∃ ok : di_cursor it → Prop, ok (di_pos it) ∧
    ∀ c q, ok c → ∃ c', @it_seek _ (di_ops it) q c = (Ok tt, c') ∧ ok c' ∧
      @yields _ (di_ops it) c' (entries_from base q (btree_iter m)).

Lemma store_iterates s : store_wf s → iterates (view s) [] (store_iter s).
Proof.
  intros Hwf. exists (cursor_ok s). split; [apply cursor_ok_fresh|]. intros c q Hc.
  destruct (store_iter_seek s c q Hwf Hc) as (c' & Hseek & Hok & Hrep).
  exists c'. split; [done|]. split; [done|].
  replace (entries_from [] q (btree_iter (view s)))
    with (filter (λ x, bytes_le q x.1) (btree_iter (view s))); [by apply represents_yields|].
  unfold entries_from, strip_entries. symmetry. etransitivity; [|apply list_fmap_id].
  rewrite (list_filter_iff _ (λ x, bytes_le q x.1)) by (intros x; simpl; split; [tauto|by destruct x.1]).
  apply list_fmap_ext. by intros _ [k v] _.
Qed.

(** The iterator of a prefix store keeps the promise, below the longer prefix. *)
Lemma prefix_iterates m base it prefix :
  iterates m base it →
  ∃ it', prefix_iter (Ok it) prefix = Ok it' ∧ iterates m (base ++ prefix) it' ∧
    @yields _ (di_ops it') (di_pos it') (entries_from (base ++ prefix) [] (btree_iter m)).
Proof.
  intros (ok & Hok & Hseek).
  assert (Hyield : ∀ c q, @yields _ (di_ops it) c (entries_from base (prefix ++ q) (btree_iter m)) →
    @yields _ (@prefix_iterator _ (di_ops it)) {| pc_inner := c; pc_prefix := prefix |}
      (entries_from (base ++ prefix) q (btree_iter m))).
  { intros c q Hy. rewrite <-entries_from_nest. apply prefix_yields; [done| |].
    - apply entries_from_sorted, btree_iter_sorted.
    - unfold entries_from, strip_entries. rewrite Forall_fmap, Forall_forall.
      intros x [[[r Hr]%starts_with_iff Hle] _]%list_elem_of_filter. simpl.
      rewrite Hr in Hle |- *. rewrite strip_app. apply bytes_le_app in Hle.
      etransitivity; [apply bytes_le_prefix|exact Hle]. }
  destruct (Hseek _ prefix Hok) as (c' & Hrun & Hok' & Hy). unfold prefix_iter. rewrite Hrun.
  eexists. split; [reflexivity|]. split.
  - exists (λ c, ok (pc_inner c) ∧ pc_prefix c = prefix). split; [done|].
    intros [c p] q [Hc Hp]. simpl in Hc, Hp. subst p.
    destruct (Hseek c (prefix ++ q) Hc) as (c2 & Hrun2 & Hok2 & Hy2).
    exists {| pc_inner := c2; pc_prefix := prefix |}. split.
    + simpl. unfold on_inner. run_simpl. cbn [pc_inner pc_prefix]. by rewrite Hrun2.
    + split; [done|]. by apply Hyield.
  - apply Hyield. by rewrite app_nil_r.
Qed.

Lemma ref_iterates s r :
  store_wf s → ∃ it, ref_iter s r = Ok it ∧ iterates (view s) (ref_prefix r) it.
Proof.
  intros Hwf. induction r as [|r (it & Hit & Hi) p]; simpl.
  - eexists. split; [done|]. by apply store_iterates.
  - rewrite Hit. destruct (prefix_iterates _ _ _ p Hi) as (it' & -> & Hi' & _). eauto.
Qed.

(** The map below a prefix. *)
Definition below (p : bytes) (m : gmap bytes bytes) : list (bytes * bytes) :=
  strip_entries p (filter (λ x, starts_with x.1 p = true) (btree_iter m)).

(** Iterating over a chain of prefix stores yields exactly the entries of the store whose key
    starts with the composed prefix, stripped of it and in key order. *)
Lemma ref_collect_below s r p :
  store_wf s → ref_collect s (PrefixStore r p) = Ok (below (ref_prefix r ++ p) (view s)).
Proof.
  intros Hwf. unfold ref_collect. cbn [ref_iter].
  destruct (ref_iterates s r Hwf) as (it & -> & Hi).
  destruct (prefix_iterates _ _ _ p Hi) as (it' & -> & _ & Hy).
  assert (Heq : entries_from (ref_prefix r ++ p) [] (btree_iter (view s)) =
                below (ref_prefix r ++ p) (view s)).
  { unfold entries_from, below. f_equal. apply list_filter_iff. intros x.
    rewrite app_nil_r. split; [tauto|]. intros Hx. split; [done|].
    apply starts_with_iff in Hx as [r' ->]. apply bytes_le_prefix. }
  rewrite <-Heq. apply collect_yields; [done|]. rewrite Heq. unfold below, strip_entries.
  rewrite length_fmap. apply Nat.lt_succ_r. etransitivity; [apply length_filter|].
  rewrite length_btree_iter. apply view_bound.
Qed.

Lemma elem_of_below (p : bytes) (m : gmap bytes bytes) (k v : bytes) : (k, v) ∈ below p m ↔ m !! (p ++ k) = Some v.
Proof.
  unfold below, strip_entries. rewrite list_elem_of_fmap. split.
  - intros ([k' v'] & [= -> ->] & [Hsw Hin]%list_elem_of_filter). simpl in *.
    apply starts_with_iff in Hsw as [r ->]. rewrite strip_app. by apply elem_of_btree_iter.
  - intros Hm. exists (p ++ k, v). simpl. rewrite strip_app. split; [done|].
    apply list_elem_of_filter. split; [apply starts_with_app|by apply elem_of_btree_iter].
Qed.

Lemma below_sorted (p : bytes) (m : gmap bytes bytes) : StronglySorted entry_lt (below p m).
Proof.
  replace (below p m) with (entries_from p [] (btree_iter m)).
  { apply entries_from_sorted, btree_iter_sorted. }
  unfold entries_from, below. f_equal. apply list_filter_iff. intros x. rewrite app_nil_r.
  split; [tauto|]. intros Hx. split; [done|]. apply starts_with_iff in Hx as [r ->].
  apply bytes_le_prefix.
Qed.
End prefix_correct.

(** * A store implements a finite map

    The operations that runtime code performs on the current store, over any number of nested
    overlays, and the same operations on a finite map. *)

Inductive StoreOp :=
  | OpInsert (key value : bytes)
  | OpRemove (key : bytes)
  | OpOpen
  | OpCommit.

Definition exec_op `{MKVS} (s : Store) (op : StoreOp) : Store :=
  match op with
  | OpInsert k v => insert_ s k v
  | OpRemove k => remove_ s k
  | OpOpen => new_overlay s
  | OpCommit => commit s
  end.
Definition spec_op (m : gmap bytes bytes) (op : StoreOp) : gmap bytes bytes :=
  match op with
  | OpInsert k v => <[k:=v]> m
  | OpRemove k => delete k m
  | OpOpen | OpCommit => m
  end.

Section store_refines.
Context `{MKVSLaws}.

Lemma exec_op_wf s op : store_wf s → store_wf (exec_op s op).
Proof.
  intros Hwf. destruct op; simpl; [by apply insert_wf|by apply remove_wf|by apply new_overlay_wf|by apply commit_wf].
Qed.
Lemma get_open s k : get (new_overlay s) k = get s k.
Proof. simpl. by rewrite decide_False by set_solver. Qed.
Lemma exec_op_view s op : store_wf s → view (exec_op s op) = spec_op (view s) op.
Proof.
  intros Hwf. apply map_eq. intros k. pose proof (exec_op_wf s op Hwf) as Hwf'.
  rewrite view_lookup by done. destruct op as [k' v|k'| |]; cbn [exec_op spec_op].
  - rewrite get_insert, lookup_insert. by case_decide; rewrite ?view_lookup.
  - rewrite get_remove, lookup_delete by done. by case_decide; rewrite ?view_lookup.
  - by rewrite get_open, view_lookup.
  - by rewrite get_commit, view_lookup.
Qed.
End store_refines.

Module StoreClaims.
Section claims.
Context `{MKVSLaws}.

(** C35. Over any sequence of insertions, removals, opened overlays and commits, a store behaves as
    one finite map: every key reads what the map holds, and the overlays stay well-formed. *)
Theorem store_refines_map s ops :
  store_wf s →
  store_wf (foldl exec_op s ops) ∧ view (foldl exec_op s ops) = foldl spec_op (view s) ops ∧
  ∀ k, get (foldl exec_op s ops) k = foldl spec_op (view s) ops !! k.
Proof.
  revert s. induction ops as [|op ops IH]; intros s Hwf; simpl.
  - split; [done|]. split; [done|]. intros k. by rewrite view_lookup.
  - rewrite <-exec_op_view by done. by apply IH, exec_op_wf.
Qed.

(** C36. The merging iterator of any stack of overlays, from whatever position it stands at, seeks to
    a key and then visits exactly the entries from that key on, in key order, through the cursor
    interface and through [Iterator::next] alike; it never panics and always terminates. *)
Theorem iterator_merges_exactly s c key :
  store_wf s → cursor_ok s c →
  ∃ c', @it_seek _ (di_ops (store_iter s)) key c = (Ok tt, c') ∧ cursor_ok s c' ∧
    @represents _ (di_ops (store_iter s)) c' (filter (λ x, bytes_le key x.1) (btree_iter (view s))).
Proof. apply store_iter_seek. Qed.

(** Collecting the iterator of a prefix store, nested to any depth over any stack of overlays,
    yields exactly the entries whose key starts with the composed prefix, stripped of it, in order. *)
Theorem prefix_iteration_exact s r p :
  store_wf s →
  ref_collect s (PrefixStore r p) = Ok (below (ref_prefix r ++ p) (view s)) ∧
  StronglySorted entry_lt (below (ref_prefix r ++ p) (view s)) ∧
  ∀ k v, (k, v) ∈ below (ref_prefix r ++ p) (view s) ↔ ref_get s (PrefixStore r p) k = Some v.
Proof.
  intros Hwf. split; [by apply ref_collect_below|]. split; [apply below_sorted|]. intros k v.
  rewrite elem_of_below, ref_get_key, view_lookup by done. done.
Qed.
End claims.

(** Witnesses over a root of two entries with one of them removed and one added in an overlay. *)
Section witnesses.
#[local] Existing Instances gmap_mkvs gmap_mkvs_laws.

Definition root_example : Store := MKVSStore ({[ [x01; x02] := [x07]; [x01; x04] := [x08] ]} : gmap bytes bytes).
Definition ops_example : list StoreOp :=
  [OpOpen; OpRemove [x01; x02]; OpInsert [x01; x03] [x09]].
Definition store_example : Store := foldl exec_op root_example ops_example.
Lemma store_example_wf : store_wf store_example.
Proof. unfold store_example, ops_example. simpl. rewrite decide_False by set_solver. set_solver. Qed.

Lemma store_refines_map_witness :
  get store_example [x01; x02] = None ∧ get store_example [x01; x03] = Some [x09].
Proof.
  destruct (store_refines_map root_example ops_example I) as (_ & _ & Hget).
  unfold store_example. rewrite !Hget. split; vm_compute; reflexivity.
Defined.

Lemma iterator_merges_exactly_witness :
  ∃ c', @it_seek _ (di_ops (store_iter store_example)) [x01] (di_pos (store_iter store_example)) = (Ok tt, c') ∧
    @represents _ (di_ops (store_iter store_example)) c' [([x01; x03], [x09]); ([x01; x04], [x08])].
Proof.
  destruct (iterator_merges_exactly store_example (di_pos (store_iter store_example)) [x01]
    store_example_wf (cursor_ok_fresh store_example)) as (c' & Hrun & _ & Hrep).
  exists c'. split; [exact Hrun|].
  replace [([x01; x03], [x09]); ([x01; x04], [x08])]
    with (filter (λ x : bytes * bytes, bytes_le [x01] x.1) (btree_iter (view store_example)))
    by (vm_compute; reflexivity).
  exact Hrep.
Defined.

Lemma prefix_iteration_exact_witness :
  ref_collect store_example (PrefixStore CurrentStore [x01]) = Ok [([x03], [x09]); ([x04], [x08])].
Proof.
  destruct (prefix_iteration_exact store_example CurrentStore [x01] store_example_wf) as (Hrun & _ & _).
  rewrite Hrun. vm_compute. reflexivity.
Defined.
End witnesses.
End StoreClaims.
