(* ===== verification/Types.v ===== *)
(** Data types of the runtime: addresses, tokens, transactions and their authentication
    (src/runtime-sdk/src/types/, src/runtime-sdk/src/crypto/multisig/mod.rs). *)
From S2P Require Import Prelude.

(** * Fixed-size byte arrays *)

Definition bytes_n (n : nat) : Type := {b : bytes | length b = n}.

(** The bytes of an array. *)
Definition raw {n} (b : bytes_n n) : bytes := proj1_sig b.

#[global] Instance bytes_n_eq_dec n : EqDecision (bytes_n n).
Proof. unfold bytes_n. apply _. Defined.
#[global] Instance bytes_n_countable n : Countable (bytes_n n).
Proof. unfold bytes_n. apply _. Defined.

Lemma bytes_n_eq n (a b : bytes_n n) : raw a = raw b → a = b.
Proof. apply (sig_eq_pi _). Qed.

(** [<[u8; n]>::try_from(slice)]. *)
Definition bytes_n_of (n : nat) (b : bytes) : option (bytes_n n) :=
  match decide (length b = n) with
  | left H => Some (exist _ b H)
  | right _ => None
  end.

Lemma bytes_n_of_proj n (a : bytes_n n) : bytes_n_of n (raw a) = Some a.
Proof.
  unfold bytes_n_of. destruct (decide _) as [H|H].
  - f_equal. by apply bytes_n_eq.
  - destruct H. apply (proj2_sig a).
Qed.

(** * Third-party code: hashing, signature schemes *)

Definition Hash := bytes_n 32.
#[global] Instance Hash_eq_dec : EqDecision Hash := bytes_n_eq_dec 32.

Inductive PublicKey :=
  | Ed25519 (pk : bytes)
  | Secp256k1 (pk : bytes)
  | Secp256r1 (pk : bytes)
  | Secp384r1 (pk : bytes)
  | Sr25519 (pk : bytes).
#[global] Instance PublicKey_eq_dec : EqDecision PublicKey.
Proof. solve_decision. Defined.

Definition Signature := bytes.

(** The value type of the CBOR library, the hash function, the signature schemes and the chain
    context are outside of the repository. *)
Class Crypto := {
  Value : Type;
  value_null : Value;
  (** [Hash::digest_bytes_list] *)
  digest : list bytes → Hash;
  (** [secp256k1::PublicKey::to_eth_address] *)
  to_eth_address : bytes → bytes_n 20;
  (** [PublicKey::verify] of the scheme of the key: key, context, message, signature *)
  verify_signature : PublicKey → bytes → bytes → Signature → bool;
  (** [signature::context::get_chain_context_for] *)
  chain_context_for : bytes → bytes;
}.

(** * Addresses *)

Definition ADDRESS_VERSION_SIZE : nat := 1.
Definition ADDRESS_DATA_SIZE : nat := 20.
Definition ADDRESS_SIZE : nat := 21.
Definition Address := bytes_n ADDRESS_SIZE.
#[global] Instance Address_eq_dec : EqDecision Address := bytes_n_eq_dec ADDRESS_SIZE.
#[global] Instance Address_countable : Countable Address := bytes_n_countable ADDRESS_SIZE.

Definition address_default : Address := exist _ (replicate 21 x00) eq_refl.

Definition ADDRESS_V0_VERSION : Byte.byte := x00.
Definition ADDRESS_V0_ED25519_CONTEXT : bytes := str "oasis-core/address: staking".
Definition ADDRESS_V0_SECP256K1ETH_CONTEXT : bytes := str "oasis-runtime-sdk/address: secp256k1eth".
Definition ADDRESS_V0_SR25519_CONTEXT : bytes := str "oasis-runtime-sdk/address: sr25519".
Definition ADDRESS_V0_MODULE_CONTEXT : bytes := str "oasis-runtime-sdk/address: module".
Definition ADDRESS_V0_MULTISIG_CONTEXT : bytes := str "oasis-runtime-sdk/address: multisig".

Lemma address_new_size (version : Byte.byte) (h : Hash) :
  length (version :: take ADDRESS_DATA_SIZE (raw h)) = ADDRESS_SIZE.
Proof. simpl. rewrite length_take. unfold raw. rewrite (proj2_sig h). done. Qed.

Inductive SignatureAddressSpec :=
  | SpecEd25519 (pk : bytes)
  | SpecSecp256k1Eth (pk : bytes)
  | SpecSr25519 (pk : bytes).
#[global] Instance SignatureAddressSpec_eq_dec : EqDecision SignatureAddressSpec.
Proof. solve_decision. Defined.

Definition spec_public_key (spec : SignatureAddressSpec) : PublicKey :=
  match spec with
  | SpecEd25519 pk => Ed25519 pk
  | SpecSecp256k1Eth pk => Secp256k1 pk
  | SpecSr25519 pk => Sr25519 pk
  end.

Definition try_from_pk (pk : PublicKey) : option SignatureAddressSpec :=
  match pk with
  | Ed25519 pk => Some (SpecEd25519 pk)
  | Secp256k1 pk => Some (SpecSecp256k1Eth pk)
  | Sr25519 pk => Some (SpecSr25519 pk)
  | _ => None
  end.

Definition address_from_bytes (data : bytes) : option Address := bytes_n_of ADDRESS_SIZE data.

(** * Tokens *)

Definition DENOM_MAX_LENGTH : nat := 32.

(** A denomination is a byte string of bounded length (the field is private and every constructor
    checks the bound); the native one is empty. *)
Definition Denomination : Type := {b : bytes | bool_decide (length b ≤ DENOM_MAX_LENGTH)}.
#[global] Instance Denomination_eq_dec : EqDecision Denomination.
Proof. unfold Denomination. apply _. Defined.
#[global] Instance Denomination_countable : Countable Denomination.
Proof. unfold Denomination. apply _. Defined.

(** [as_ref]: the raw bytes. *)
Definition denom_bytes (d : Denomination) : bytes := proj1_sig d.
Definition NATIVE : Denomination := [] ↾ I.
Definition is_native (d : Denomination) : bool := bool_decide (denom_bytes d = []).

Definition denomination_try_from (b : bytes) : option Denomination :=
  match decide (bool_decide (length b ≤ DENOM_MAX_LENGTH)) with
  | left H => Some (b ↾ H)
  | right _ => None
  end.

Lemma denom_bytes_inj (d d' : Denomination) : denom_bytes d = denom_bytes d' → d = d'.
Proof. apply (sig_eq_pi _). Qed.
Lemma denomination_try_from_bytes d : denomination_try_from (denom_bytes d) = Some d.
Proof.
  unfold denomination_try_from. case_decide as Hd.
  - f_equal. by apply denom_bytes_inj.
  - destruct Hd. apply (proj2_sig d).
Qed.
Lemma denomination_try_from_Some b d : denomination_try_from b = Some d → b = denom_bytes d.
Proof. unfold denomination_try_from. case_decide; intros; by simplify_eq. Qed.

Record BaseUnits := BaseUnits_new { amount : N; denomination : Denomination }.
#[global] Instance BaseUnits_eq_dec : EqDecision BaseUnits.
Proof. solve_decision. Defined.
Definition base_units_native (a : N) : BaseUnits := BaseUnits_new a NATIVE.

(** * Multisig *)

Record MultisigSigner := { ms_public_key : PublicKey; ms_weight : N }.
#[global] Instance MultisigSigner_eq_dec : EqDecision MultisigSigner.
Proof. solve_decision. Defined.
Record MultisigConfig := { ms_signers : list MultisigSigner; ms_threshold : N }.
#[global] Instance MultisigConfig_eq_dec : EqDecision MultisigConfig.
Proof. solve_decision. Defined.

Inductive MultisigError := InvalidConfig | InvalidSignatureSet | InsufficientWeight.

(** The loop of [Config::validate_basic]: [prev] are the signers already visited. *)
Fixpoint validate_signers (prev rest : list MultisigSigner) (total : N) : MultisigError + N :=
  match rest with
  | [] => inr total
  | signer :: rest' =>
      if existsb (λ other, bool_decide (ms_public_key signer = ms_public_key other)) prev
      then inl InvalidConfig
      else if (ms_weight signer =? 0)%N then inl InvalidConfig
      else match checked_add u64_max total (ms_weight signer) with
           | None => inl InvalidConfig
           | Some total => validate_signers (prev ++ [signer]) rest' total
           end
  end.

Definition multisig_validate_basic (c : MultisigConfig) : MultisigError + unit :=
  if (ms_threshold c =? 0)%N then inl InvalidConfig
  else match validate_signers [] (ms_signers c) 0 with
       | inl e => inl e
       | inr total => if (total <? ms_threshold c)%N then inl InvalidConfig else inr tt
       end.

(** The loop of [Config::batch]: accumulate the weight, the keys and the signatures of the signers
    that signed. *)
Definition batch_step (acc : N * list PublicKey * list Signature)
    (x : MultisigSigner * option Signature) : N * list PublicKey * list Signature :=
  let '(total, pks, sigs) := acc in
  match x.2 with
  | Some signature =>
      (wrapping_add u64_max total (ms_weight x.1), pks ++ [ms_public_key x.1], sigs ++ [signature])
  | None => (total, pks, sigs)
  end.

Definition multisig_batch (c : MultisigConfig) (signature_set : list (option Signature))
    : MultisigError + list PublicKey * list Signature :=
  match multisig_validate_basic c with
  | inl e => inl e
  | inr _ =>
      if bool_decide (length signature_set ≠ length (ms_signers c)) then inl InvalidSignatureSet
      else
        let '(total, pks, sigs) :=
          foldl batch_step (0%N, [], []) (zip (ms_signers c) signature_set) in
        if (total <? ms_threshold c)%N then inl InsufficientWeight else inr (pks, sigs)
  end.

(** * Transactions *)

Definition LATEST_TRANSACTION_VERSION : N := 1.
Definition SIGNATURE_CONTEXT_BASE : bytes := str "oasis-runtime-sdk/tx: v0".

Inductive TxError :=
  | UnsupportedVersion
  | TxMalformedTransaction (msg : string)
  | SignerNotFound
  | FailedToSign.

Inductive AuthProof :=
  | ProofSignature (sig : Signature)
  | ProofMultisig (sigs : list (option Signature))
  | ProofModule (scheme : bytes)
  | ProofInvalid.

Inductive CallFormat := Plain | EncryptedX25519DeoxysII.
#[global] Instance CallFormat_eq_dec : EqDecision CallFormat.
Proof. solve_decision. Defined.

Record FeeProxy := { proxy_module : string; proxy_id : bytes }.

Record Fee := {
  fee_amount : BaseUnits;
  fee_gas : N;
  fee_consensus_messages : N;
  fee_proxy : option FeeProxy;
}.

(** [Fee::gas_price]: the fee amount divided by the gas limit, zero for a zero limit. *)
Definition gas_price (f : Fee) : N := default 0%N (checked_div (amount (fee_amount f)) (fee_gas f)).

Inductive CallerAddress :=
  | CallerAddr (address : Address)
  | CallerEth (address : bytes_n 20).

Definition zeroized (c : CallerAddress) : CallerAddress :=
  match c with
  | CallerAddr _ => CallerAddr address_default
  | CallerEth _ => CallerEth (exist _ (replicate 20 x00) eq_refl)
  end.

Inductive AddressSpec :=
  | AddrSignature (spec : SignatureAddressSpec)
  | AddrMultisig (config : MultisigConfig)
  | AddrInternal (caller : CallerAddress).

Record SignerInfo := { si_address_spec : AddressSpec; si_nonce : N }.

Record AuthInfo := {
  signer_info : list SignerInfo;
  ai_fee : Fee;
  not_before : option N;
  not_after : option N;
}.

Record UnverifiedTransaction := { ut_body : bytes; ut_proofs : list AuthProof }.

Section transactions.
Context `{Crypto}.

Record Call := {
  call_format : CallFormat;
  call_method : string;
  call_body : Value;
  call_read_only : bool;
}.

Record Transaction := { tx_version : N; tx_call : Call; tx_auth_info : AuthInfo }.

(** CBOR encodings of the types that are serialized as a whole. *)
Class TxCodec := {
  tx_to_vec : Transaction → bytes;
  tx_from_slice : bytes → option Transaction;
  config_to_vec : MultisigConfig → bytes;
}.

Definition validate_basic (tx : Transaction) : TxError + unit :=
  if negb (tx_version tx =? LATEST_TRANSACTION_VERSION)%N then inl UnsupportedVersion
  else match signer_info (tx_auth_info tx) with
       | [] => inl (TxMalformedTransaction "transaction has no signers")
       | _ :: _ => inr tt
       end.

(** [PublicKey::verify_batch_multisig]. *)
Definition verify_batch_multisig (context message : bytes) (public_keys : list PublicKey)
    (signatures : list Signature) : bool :=
  if bool_decide (length public_keys ≠ length signatures) then false
  else forallb (λ '(pk, sig), verify_signature pk context message sig) (zip public_keys signatures).

(** [AddressSpec::batch]. *)
Definition address_spec_batch (spec : AddressSpec) (auth_proof : AuthProof)
    : TxError + list PublicKey * list Signature :=
  match spec, auth_proof with
  | AddrSignature spec, ProofSignature signature => inr ([spec_public_key spec], [signature])
  | AddrMultisig config, ProofMultisig signature_set =>
      match multisig_batch config signature_set with
      | inr r => inr r
      | inl _ => inl (TxMalformedTransaction "multisig")
      end
  | AddrSignature _, ProofMultisig _ =>
      inl (TxMalformedTransaction "transaction signer used a single signature, but auth proof was multisig")
  | AddrMultisig _, ProofSignature _ =>
      inl (TxMalformedTransaction "transaction signer used multisig, but auth proof was a single signature")
  | AddrInternal _, _ =>
      inl (TxMalformedTransaction "transaction signer used internal address spec")
  | _, ProofModule _ =>
      inl (TxMalformedTransaction "module-controlled decoding flag in auth proof list")
  | _, ProofInvalid => inl (TxMalformedTransaction "invalid auth proof in list")
  end.

(** The loop of [verify] that gathers the keys and signatures of all signers. *)
Fixpoint batch_all (l : list (SignerInfo * AuthProof)) : TxError + list PublicKey * list Signature :=
  match l with
  | [] => inr ([], [])
  | (si, auth_proof) :: l' =>
      match address_spec_batch (si_address_spec si) auth_proof with
      | inl e => inl e
      | inr (batch_pks, batch_sigs) =>
          match batch_all l' with
          | inl e => inl e
          | inr (pks, sigs) => inr (batch_pks ++ pks, batch_sigs ++ sigs)
          end
      end
  end.

Context `{!TxCodec}.

(** [UnverifiedTransaction::verify]. *)
Definition verify (ut : UnverifiedTransaction) : TxError + Transaction :=
  match tx_from_slice (ut_body ut) with
  | None => inl (TxMalformedTransaction "cbor")
  | Some body =>
      match validate_basic body with
      | inl e => inl e
      | inr _ =>
          if bool_decide (length (ut_proofs ut) ≠ length (signer_info (tx_auth_info body)))
          then inl (TxMalformedTransaction "unexpected number of auth proofs")
          else
            match batch_all (zip (signer_info (tx_auth_info body)) (ut_proofs ut)) with
            | inl e => inl e
            | inr (public_keys, signatures) =>
                if verify_batch_multisig (chain_context_for SIGNATURE_CONTEXT_BASE) (ut_body ut)
                     public_keys signatures
                then inr body else inl (TxMalformedTransaction "signature verification failed")
            end
      end
  end.

(** ** Addresses of signers *)

Definition address_new (ctx : bytes) (version : Byte.byte) (data : bytes) : Address :=
  exist _ (version :: take ADDRESS_DATA_SIZE (raw (digest [ctx; [version]; data])))
    (address_new_size version _).

Definition from_module (module kind : string) : Address :=
  address_new ADDRESS_V0_MODULE_CONTEXT ADDRESS_V0_VERSION (str module ++ str "." ++ str kind).

Definition from_sigspec (spec : SignatureAddressSpec) : Address :=
  match spec with
  | SpecEd25519 pk => address_new ADDRESS_V0_ED25519_CONTEXT ADDRESS_V0_VERSION pk
  | SpecSecp256k1Eth pk =>
      address_new ADDRESS_V0_SECP256K1ETH_CONTEXT ADDRESS_V0_VERSION (raw (to_eth_address pk))
  | SpecSr25519 pk => address_new ADDRESS_V0_SR25519_CONTEXT ADDRESS_V0_VERSION pk
  end.

Definition from_multisig (config : MultisigConfig) : Address :=
  address_new ADDRESS_V0_MULTISIG_CONTEXT ADDRESS_V0_VERSION (config_to_vec config).

Definition from_eth (eth_address : bytes) : Address :=
  address_new ADDRESS_V0_SECP256K1ETH_CONTEXT ADDRESS_V0_VERSION eth_address.

Definition caller_address_address (c : CallerAddress) : Address :=
  match c with
  | CallerAddr address => address
  | CallerEth address => from_eth (raw address)
  end.

Definition address_spec_address (spec : AddressSpec) : Address :=
  match spec with
  | AddrSignature spec => from_sigspec spec
  | AddrMultisig config => from_multisig config
  | AddrInternal caller => caller_address_address caller
  end.

Definition spec_caller_address (spec : AddressSpec) : CallerAddress :=
  match spec with
  | AddrSignature (SpecSecp256k1Eth pk) => CallerEth (to_eth_address pk)
  | AddrInternal caller => caller
  | _ => CallerAddr (address_spec_address spec)
  end.

(** ** Signing *)

Record Signer := {
  signer_public_key : PublicKey;
  (** [Signer::sign]: context, message *)
  signer_sign : bytes → bytes → option Signature;
}.

Record TransactionSigner := { ts_auth_info : AuthInfo; ts_ut : UnverifiedTransaction }.

Definition allocate_proof (si : SignerInfo) : AuthProof :=
  match si_address_spec si with
  | AddrMultisig cfg => ProofMultisig (replicate (length (ms_signers cfg)) None)
  | _ => ProofInvalid
  end.

(** [TransactionSigner::new], with [allocate_proofs]. *)
Definition transaction_signer_new (tx : Transaction) : TransactionSigner :=
  {| ts_auth_info := tx_auth_info tx;
     ts_ut := {| ut_body := tx_to_vec tx;
                 ut_proofs := allocate_proof <$> signer_info (tx_auth_info tx) |} |}.

(** The loop over the signers of a multisig configuration, by position. *)
Fixpoint sign_multisig (pk : PublicKey) (signature : Signature) (signers : list MultisigSigner)
    (sigs : list (option Signature)) : bool * list (option Signature) :=
  match signers, sigs with
  | mss :: signers', s :: sigs' =>
      let '(matched, r) := sign_multisig pk signature signers' sigs' in
      if bool_decide (ms_public_key mss = pk) then (true, Some signature :: r)
      else (matched, s :: r)
  | _, _ => (false, sigs)
  end.

(** The loop of [append_sign] over the signer infos and proofs. *)
Fixpoint sign_proofs (pk : PublicKey) (signature : Signature) (sis : list SignerInfo)
    (proofs : list AuthProof) : TxError + bool * list AuthProof :=
  match sis, proofs with
  | si :: sis', ap :: proofs' =>
      let here : TxError + bool * AuthProof :=
        match si_address_spec si, ap with
        | AddrSignature spec, ap =>
            if bool_decide (spec_public_key spec = pk) then inr (true, ProofSignature signature)
            else inr (false, ap)
        | AddrMultisig cfg, ProofMultisig sigs =>
            let '(matched, sigs') := sign_multisig pk signature (ms_signers cfg) sigs in
            inr (matched, ProofMultisig sigs')
        | _, _ => inl (TxMalformedTransaction "malformed address_spec")
        end in
      match here with
      | inl e => inl e
      | inr (m, ap') =>
          match sign_proofs pk signature sis' proofs' with
          | inl e => inl e
          | inr (m', r) => inr (m || m', ap' :: r)
          end
      end
  | _, _ => inr (false, proofs)
  end.

Definition append_sign (ts : TransactionSigner) (signer : Signer) : TxError + TransactionSigner :=
  match signer_sign signer (chain_context_for SIGNATURE_CONTEXT_BASE) (ut_body (ts_ut ts)) with
  | None => inl FailedToSign
  | Some signature =>
      match sign_proofs (signer_public_key signer) signature
              (signer_info (ts_auth_info ts)) (ut_proofs (ts_ut ts)) with
      | inl e => inl e
      | inr (matched, proofs) =>
          if (matched : bool) then
            inr {| ts_auth_info := ts_auth_info ts;
                   ts_ut := {| ut_body := ut_body (ts_ut ts); ut_proofs := proofs |} |}
          else inl SignerNotFound
      end
  end.
End transactions.

(** * Properties of authentication *)

(** Total weight of a set of signers, and of those that provided a signature. *)
Definition total_weight (l : list MultisigSigner) : N := list_sum ms_weight l.
Definition signed_weight (l : list (MultisigSigner * option Signature)) : N :=
  list_sum (λ x, match x.2 with Some _ => ms_weight x.1 | None => 0%N end) l.
(** The signers that signed, with their signatures. *)
Definition signed_by (l : list (MultisigSigner * option Signature)) : list (PublicKey * Signature) :=
  omap (λ x, pair (ms_public_key x.1) <$> x.2) l.

Lemma validate_signers_inv prev rest total total' :
  (total ≤ u64_max)%N → validate_signers prev rest total = inr total' →
  total' = (total + total_weight rest)%N ∧ (total' ≤ u64_max)%N ∧
  NoDup (ms_public_key <$> rest) ∧ (∀ s, s ∈ rest → ms_public_key s ∉ ms_public_key <$> prev) ∧
  Forall (λ s, ms_weight s ≠ 0%N) rest.
Proof.
  revert prev total. induction rest as [|s rest IH]; intros prev total Hle; simpl.
  - intros [= <-]. unfold total_weight. simpl. split; [lia|]. split; [lia|].
    split; [constructor|]. split; [set_solver|constructor].
  - destruct (existsb _ prev) eqn:Hex; [done|]. destruct (N.eqb_spec (ms_weight s) 0); [done|].
    destruct (checked_add u64_max total (ms_weight s)) as [t|] eqn:Ht; [|done].
    apply checked_add_Some in Ht as [-> Ht]. intros Hr.
    destruct (IH _ _ Ht Hr) as (-> & Hle' & Hnd & Hprev & Hw).
    assert (Hs : ms_public_key s ∉ ms_public_key <$> prev).
    { intros (o & Ho & Hin)%list_elem_of_fmap.
      apply not_true_iff_false in Hex. apply Hex, existsb_exists. exists o.
      split; [by apply list_elem_of_In|]. by apply bool_decide_eq_true. }
    unfold total_weight in *. simpl. split; [lia|]. split; [lia|]. split; [|split].
    + constructor; [|done]. intros (o & Ho & Hin)%list_elem_of_fmap.
      apply (Hprev o Hin). rewrite fmap_app, elem_of_app. right. simpl. rewrite Ho. by left.
    + intros o [->|Hin]%elem_of_cons; [done|]. intros Ho. apply (Hprev o Hin).
      rewrite fmap_app, elem_of_app. by left.
    + by constructor.
Qed.

Lemma batch_fold l t pks sigs :
  (t + signed_weight l ≤ u64_max)%N →
  foldl batch_step (t, pks, sigs) l =
    ((t + signed_weight l)%N, pks ++ (signed_by l).*1, sigs ++ (signed_by l).*2).
Proof.
  revert t pks sigs. induction l as [|[s [sig|]] l IH]; intros t pks sigs; simpl; intros Hle.
  - unfold signed_weight. simpl. by rewrite N.add_0_r, !app_nil_r.
  - unfold signed_weight in *. simpl in *.
    rewrite IH by (rewrite wrapping_add_small by lia; lia). simpl.
    rewrite wrapping_add_small by lia. rewrite <-!app_assoc. simpl. f_equal. f_equal. lia.
  - unfold signed_weight in *. simpl in *. by rewrite IH.
Qed.

Lemma signed_weight_le signers sigs :
  (signed_weight (zip signers sigs) ≤ total_weight signers)%N.
Proof.
  unfold signed_weight, total_weight. revert sigs.
  induction signers as [|s l IH]; intros [|x xs]; simpl; try lia. specialize (IH xs).
  destruct x; lia.
Qed.

Lemma signed_by_keys signers sigs : (signed_by (zip signers sigs)).*1 ⊆+ ms_public_key <$> signers.
Proof.
  revert sigs. induction signers as [|s l IH]; intros [|[x|] xs]; simpl; try done.
  - by apply submseteq_nil_l.
  - by apply submseteq_skip.
  - by apply submseteq_cons.
Qed.

Lemma validate_signers_complete prev rest total :
  (total + total_weight rest ≤ u64_max)%N → NoDup (ms_public_key <$> rest) →
  (∀ s, s ∈ rest → ms_public_key s ∉ ms_public_key <$> prev) →
  Forall (λ s, ms_weight s ≠ 0%N) rest →
  validate_signers prev rest total = inr (total + total_weight rest)%N.
Proof.
  revert prev total. induction rest as [|s rest IH]; intros prev total Hle Hnd Hprev Hw; simpl.
  - unfold total_weight. simpl. by rewrite N.add_0_r.
  - apply NoDup_cons in Hnd as [Hs Hnd]. inversion Hw as [|? ? Hs0 Hw']; subst.
    unfold total_weight in *. simpl in *.
    destruct (existsb _ prev) eqn:Hex.
    { apply existsb_exists in Hex as (o & Ho%list_elem_of_In & Heq%bool_decide_eq_true).
      destruct (Hprev s); [left|]. rewrite Heq. by apply list_elem_of_fmap_2. }
    destruct (N.eqb_spec (ms_weight s) 0); [done|]. unfold checked_add.
    destruct (N.leb_spec (total + ms_weight s) u64_max); [|lia].
    rewrite IH; [f_equal; lia|lia|done| |done].
    intros o Ho. rewrite fmap_app, elem_of_app. intros [Hin|Hin].
    + apply (Hprev o); [by right|done].
    + simpl in Hin. apply list_elem_of_singleton in Hin. apply Hs. rewrite <-Hin.
      by apply list_elem_of_fmap_2.
Qed.

(** A multisig configuration that can authenticate at all. *)
Definition config_valid (c : MultisigConfig) : Prop :=
  (0 < ms_threshold c ≤ total_weight (ms_signers c))%N ∧ (total_weight (ms_signers c) ≤ u64_max)%N ∧
  NoDup (ms_public_key <$> ms_signers c) ∧ Forall (λ s, ms_weight s ≠ 0%N) (ms_signers c).

Lemma multisig_validate_iff c : multisig_validate_basic c = inr tt ↔ config_valid c.
Proof.
  unfold multisig_validate_basic, config_valid. split.
  - destruct (N.eqb_spec (ms_threshold c) 0); [done|].
    destruct (validate_signers [] (ms_signers c) 0) as [|total] eqn:Hv; [done|].
    apply validate_signers_inv in Hv as (-> & Hle & Hnd & _ & Hw); [|unfold u64_max; lia].
    destruct (N.ltb_spec (0 + total_weight (ms_signers c)) (ms_threshold c)); [done|].
    intros _. repeat split; try done; lia.
  - intros ([Ht1 Ht2] & Hle & Hnd & Hw). destruct (N.eqb_spec (ms_threshold c) 0); [lia|].
    rewrite validate_signers_complete by (try done; try lia; set_solver).
    destruct (N.ltb_spec (0 + total_weight (ms_signers c)) (ms_threshold c)); [lia|done].
Qed.

(** A signature set that reaches the threshold of a valid configuration. *)
Definition threshold_met (c : MultisigConfig) (sigs : list (option Signature)) : Prop :=
  config_valid c ∧ length sigs = length (ms_signers c) ∧
  (ms_threshold c ≤ signed_weight (zip (ms_signers c) sigs))%N.

Lemma multisig_batch_iff c sigs r :
  multisig_batch c sigs = inr r ↔
  threshold_met c sigs ∧ r = ((signed_by (zip (ms_signers c) sigs)).*1, (signed_by (zip (ms_signers c) sigs)).*2).
Proof.
  unfold multisig_batch, threshold_met. pose proof (multisig_validate_iff c) as Hiff.
  destruct (multisig_validate_basic c) as [e|[]].
  { split; [done|]. intros [[Hv _] _]. by apply Hiff in Hv. }
  assert (Hv : config_valid c) by by apply Hiff. pose proof Hv as (_ & Hle & _ & _).
  pose proof (signed_weight_le (ms_signers c) sigs).
  case_bool_decide as Hlen; [naive_solver|]. rewrite batch_fold by lia. simpl. rewrite N.add_0_l.
  destruct (N.ltb_spec (signed_weight (zip (ms_signers c) sigs)) (ms_threshold c)).
  - split; [done|]. intros [(_ & _ & ?) _]. lia.
  - split; [intros [= <-]; split; [|done]; split; [done|]; split; [done|lia]|].
    by intros [_ ->].
Qed.

Section verify_correct.
Context `{Crypto} `{!TxCodec}.

(** What it means that a proof authenticates a signer for a message: a valid signature of the
    signer's key, or valid signatures of distinct signers whose weights reach the threshold. *)
Definition authenticates (msg : bytes) (si : SignerInfo) (proof : AuthProof) : Prop :=
  let ctx := chain_context_for SIGNATURE_CONTEXT_BASE in
  match si_address_spec si, proof with
  | AddrSignature spec, ProofSignature sig => verify_signature (spec_public_key spec) ctx msg sig = true
  | AddrMultisig c, ProofMultisig sigs =>
      threshold_met c sigs ∧
      Forall (λ x, verify_signature x.1 ctx msg x.2 = true) (signed_by (zip (ms_signers c) sigs))
  | _, _ => False
  end.

Lemma address_spec_batch_len spec ap pks sigs :
  address_spec_batch spec ap = inr (pks, sigs) → length pks = length sigs.
Proof.
  destruct spec as [spec|c|cl], ap as [sig|ss|m|]; simpl; try done.
  - by intros [= <- <-].
  - destruct (multisig_batch c ss) as [|r] eqn:Hb; [done|]. intros [= ->].
    apply multisig_batch_iff in Hb as [_ [= -> ->]]. by rewrite !length_fmap.
Qed.

Lemma batch_all_spec msg l :
  (∃ pks sigs, batch_all l = inr (pks, sigs) ∧ length pks = length sigs ∧
     Forall (λ x, verify_signature x.1 (chain_context_for SIGNATURE_CONTEXT_BASE) msg x.2 = true)
       (zip pks sigs)) ↔
  Forall (λ x, authenticates msg x.1 x.2) l.
Proof.
  induction l as [|[si ap] l IH]; cbn [batch_all].
  { split; [constructor|]. intros _. by exists [], []. }
  rewrite Forall_cons. cbn [fst snd]. rewrite <-IH. split.
  - intros (pks & sigs & Hb & Hlen & Hall).
    destruct (address_spec_batch (si_address_spec si) ap) as [|[bp bs]] eqn:Hspec; [done|].
    destruct (batch_all l) as [|[pks' sigs']]; [done|]. injection Hb as <- <-.
    pose proof (address_spec_batch_len _ _ _ _ Hspec) as Hlen'. rewrite !length_app in Hlen.
    rewrite zip_with_app in Hall by done. apply Forall_app in Hall as [H1 H2].
    split; [|exists pks', sigs'; split; [done|]; split; [lia|done]].
    unfold authenticates. destruct (si_address_spec si) as [spec|c|cl], ap as [sig|ss|m|]; try done.
    + injection Hspec as <- <-. by inversion H1.
    + simpl in Hspec. destruct (multisig_batch c ss) as [|r] eqn:Hb; [done|].
      injection Hspec as ->. apply multisig_batch_iff in Hb as [Ht [= -> ->]].
      split; [done|]. by rewrite zip_fst_snd in H1.
  - intros [Ha (pks & sigs & -> & Hlen & Hall)]. unfold authenticates in Ha.
    destruct (si_address_spec si) as [spec|c|cl], ap as [sig|ss|m|]; try done; simpl.
    + eexists _, _. split; [done|]. simpl. split; [lia|]. by constructor.
    + destruct Ha as [Ht Hs].
      destruct (multisig_batch c ss) as [|r] eqn:Hb.
      { pose proof (proj2 (multisig_batch_iff c ss _) (conj Ht eq_refl)). congruence. }
      apply multisig_batch_iff in Hb as [_ ->]. eexists _, _. split; [done|].
      rewrite !length_app, !length_fmap. split; [lia|].
      rewrite zip_with_app by by rewrite !length_fmap. apply Forall_app. split; [|done].
      by rewrite zip_fst_snd.
Qed.

Lemma Forall2_zip_iff {A B} (P : A → B → Prop) l k :
  length l = length k → Forall (λ x, P x.1 x.2) (zip l k) ↔ Forall2 P l k.
Proof.
  revert k. induction l as [|x l IH]; intros [|y k]; simpl; try lia.
  - intros _. split; constructor.
  - intros Hl. rewrite Forall_cons, Forall2_cons, IH by lia. done.
Qed.

Lemma verify_batch_iff ctx msg pks sigs :
  verify_batch_multisig ctx msg pks sigs = true ↔
  length pks = length sigs ∧ Forall (λ x, verify_signature x.1 ctx msg x.2 = true) (zip pks sigs).
Proof.
  unfold verify_batch_multisig. case_bool_decide as Hlen; [naive_solver|].
  rewrite forallb_forall, Forall_forall. split.
  - intros Hall. split; [done|]. intros [pk sig] Hin%list_elem_of_In. apply (Hall _ Hin).
  - intros [_ Hall] [pk sig] Hin%list_elem_of_In. apply (Hall _ Hin).
Qed.
End verify_correct.

Module Auth.
Section claims.
Context `{Crypto} `{!TxCodec}.

(** C37. [UnverifiedTransaction::verify] accepts a transaction exactly when the body decodes to a
    transaction of the current version with at least one signer, there is one proof per signer,
    and each proof authenticates its signer for the body: a valid signature of the signer's key,
    or a multisig whose configuration is valid (positive threshold, distinct keys, non-zero
    weights whose sum fits in 64 bits) and in which all the given signatures are valid and their
    signers' weights reach the threshold.  Internal address specifications never authenticate. *)
Theorem verify_iff ut tx :
  verify ut = inr tx ↔
  tx_from_slice (ut_body ut) = Some tx ∧ tx_version tx = LATEST_TRANSACTION_VERSION ∧
  signer_info (tx_auth_info tx) ≠ [] ∧
  Forall2 (authenticates (ut_body ut)) (signer_info (tx_auth_info tx)) (ut_proofs ut).
Proof.
  unfold verify. destruct (tx_from_slice (ut_body ut)) as [body|]; [|naive_solver].
  unfold validate_basic. destruct (N.eqb_spec (tx_version body) LATEST_TRANSACTION_VERSION);
    simpl; [|naive_solver].
  destruct (signer_info (tx_auth_info body)) as [|si sis] eqn:Hsi; [naive_solver|].
  rewrite <-Hsi. assert (signer_info (tx_auth_info body) ≠ []) as Hne by (by rewrite Hsi).
  case_bool_decide as Hlen.
  { split; [done|]. intros ([= ->] & _ & _ & Hf%Forall2_length). congruence. }
  pose proof (batch_all_spec (ut_body ut) (zip (signer_info (tx_auth_info body)) (ut_proofs ut))) as Hb.
  rewrite Forall2_zip_iff in Hb by lia. split.
  - destruct (batch_all _) as [|[pks sigs]]; [done|]. case_match eqn:Hv; [|done].
    intros [= <-]. apply verify_batch_iff in Hv as [Hl Hall].
    repeat (split; [done|]). apply Hb. eauto.
  - intros ([= <-] & _ & _ & Hf). apply Hb in Hf as (pks & sigs & -> & Hl & Hall).
    by rewrite (proj2 (verify_batch_iff _ _ _ _) (conj Hl Hall)).
Qed.
End claims.
End Auth.
