(* ===== verification/Fee.v ===== *)
(** The fee manager: what the current transaction was charged, what it gets back, and what the
    block has collected (src/runtime-sdk/src/modules/accounts/fee.rs). *)
From S2P Require Import Prelude Types.

Record TransactionFee := {
  tf_payer : Address;
  tf_denomination : Denomination;
  tf_charged : N;
  tf_refunded : N;
}.
Definition transaction_fee_default : TransactionFee :=
  {| tf_payer := address_default; tf_denomination := NATIVE; tf_charged := 0; tf_refunded := 0 |}.

Record FeeManager := {
  fm_tx_fee : option TransactionFee;
  fm_block_fees : gmap Denomination N;
}.
Definition fee_manager_new : FeeManager := {| fm_tx_fee := None; fm_block_fees := ∅ |}.

Record FeeUpdates := { fu_payer : Address; fu_refund : BaseUnits }.

(** [TransactionFee::amount]. *)
Definition tf_amount (t : TransactionFee) : N := saturating_sub (tf_charged t) (tf_refunded t).

Definition record_fee (payer : Address) (a : BaseUnits) : ST FeeManager Empty_set unit :=
  mgr ← get_st;
  let tx_fee := default {| tf_payer := payer; tf_denomination := denomination a;
                           tf_charged := 0; tf_refunded := 0 |} (fm_tx_fee mgr) in
  (** [get_or_insert_with] inserts before the assertions run *)
  modify (λ m, {| fm_tx_fee := Some tx_fee; fm_block_fees := fm_block_fees m |}) ;;
  if negb (bool_decide (payer = tf_payer tx_fee)) then panic "transaction fee payer cannot change"
  else if negb (bool_decide (denomination a = tf_denomination tx_fee)) then
    panic "transaction fee denomination cannot change"
  else
    charged ← expect (checked_add u128_max (tf_charged tx_fee) (amount a)) "should never overflow";
    modify (λ m, {| fm_tx_fee := Some {| tf_payer := tf_payer tx_fee;
                                         tf_denomination := tf_denomination tx_fee;
                                         tf_charged := charged;
                                         tf_refunded := tf_refunded tx_fee |};
                    fm_block_fees := fm_block_fees m |}).

Definition record_refund (a : N) (mgr : FeeManager) : FeeManager :=
  if (a =? 0)%N then mgr
  else match fm_tx_fee mgr with
       | None => mgr
       | Some tx_fee =>
           {| fm_tx_fee := Some {| tf_payer := tf_payer tx_fee;
                                   tf_denomination := tf_denomination tx_fee;
                                   tf_charged := tf_charged tx_fee;
                                   tf_refunded := N.min (saturating_add u128_max (tf_refunded tx_fee) a)
                                                    (tf_charged tx_fee) |};
              fm_block_fees := fm_block_fees mgr |}
       end.

Definition commit_tx : ST FeeManager Empty_set FeeUpdates :=
  mgr ← get_st;
  let tx_fee := default transaction_fee_default (fm_tx_fee mgr) in
  modify (λ m, {| fm_tx_fee := None; fm_block_fees := fm_block_fees m |}) ;;
  (if (0 <? tf_amount tx_fee)%N then
     let block_fees := default 0%N (fm_block_fees mgr !! tf_denomination tx_fee) in
     total ← expect (checked_add u128_max block_fees (tf_amount tx_fee)) "should never overflow";
     modify (λ m, {| fm_tx_fee := fm_tx_fee m;
                     fm_block_fees := <[tf_denomination tx_fee := total]> (fm_block_fees m) |})
   else mret tt) ;;
  mret {| fu_payer := tf_payer tx_fee;
          fu_refund := BaseUnits_new (tf_refunded tx_fee) (tf_denomination tx_fee) |}.

Definition commit_block (mgr : FeeManager) : gmap Denomination N := fm_block_fees mgr.

(** * Properties *)

(** The refund never exceeds what was charged. *)
Definition fee_wf (mgr : FeeManager) : Prop :=
  match fm_tx_fee mgr with
  | None => True
  | Some t => (tf_refunded t ≤ tf_charged t)%N
  end.

(** What the manager holds of a denomination: the fee charged for the current transaction and the
    fees of the block. *)
Definition held (mgr : FeeManager) (d : Denomination) : N :=
  (default 0 (fm_block_fees mgr !! d) +
   match fm_tx_fee mgr with
   | Some t => if bool_decide (tf_denomination t = d) then tf_charged t else 0
   | None => 0
   end)%N.

Lemma fee_manager_new_wf : fee_wf fee_manager_new.
Proof. done. Qed.

Lemma record_fee_wf payer a mgr : fee_wf mgr → fee_wf (record_fee payer a mgr).2.
Proof.
  unfold record_fee, fee_wf, checked_add. run_simpl. intros Hwf.
  destruct (fm_tx_fee mgr) as [t|] eqn:Ht; simpl in *; case_run; simpl in *; lia.
Qed.

Lemma record_refund_wf a mgr : fee_wf mgr → fee_wf (record_refund a mgr).
Proof.
  unfold record_refund, fee_wf. intros Hwf. destruct (a =? 0)%N; [done|].
  destruct (fm_tx_fee mgr) as [t|] eqn:Ht; simpl; [lia|]. by rewrite Ht.
Qed.

(** Recording a charge: it is added to what the manager holds, and to nothing else. *)
Lemma record_fee_ok payer a mgr :
  (∀ t, fm_tx_fee mgr = Some t → tf_payer t = payer ∧ tf_denomination t = denomination a) →
  (held mgr (denomination a) + amount a ≤ u128_max)%N →
  ∃ mgr', record_fee payer a mgr = (Ok tt, mgr') ∧
    (∀ d, held mgr' d = (held mgr d + if decide (denomination a = d) then amount a else 0)%N) ∧
    ∃ t, fm_tx_fee mgr' = Some t ∧ tf_payer t = payer ∧ tf_denomination t = denomination a ∧
      tf_charged t = (from_option tf_charged 0 (fm_tx_fee mgr) + amount a)%N ∧
      tf_refunded t = from_option tf_refunded 0%N (fm_tx_fee mgr) ∧
      fm_block_fees mgr' = fm_block_fees mgr.
Proof.
  intros Hsame Hle. unfold record_fee. run_simpl. unfold held in *.
  destruct (fm_tx_fee mgr) as [t|] eqn:Ht; cbn -[u128_max] in *.
  - destruct (Hsame t eq_refl) as [<- Hd]. rewrite bool_decide_eq_true_2 in Hle by done.
    rewrite !bool_decide_eq_true_2 by done. simpl.
    unfold checked_add. destruct (N.leb_spec (tf_charged t + amount a) u128_max); [|lia].
    eexists. split; [done|]. split; [|eexists; repeat split; done].
    intros d. simpl. rewrite <-Hd. repeat case_decide; repeat case_bool_decide; try done; lia.
  - rewrite !bool_decide_eq_true_2 by done. simpl. unfold checked_add.
    destruct (N.leb_spec (0 + amount a) u128_max); [|lia].
    eexists. split; [done|]. split; [|eexists; repeat split; done].
    intros d. simpl. repeat case_decide; repeat case_bool_decide; try done; lia.
Qed.

(** A charge that is recorded is to the payer and in the denomination of the earlier ones. *)
Lemma record_fee_same payer a mgr t :
  (record_fee payer a mgr).1 = Ok tt → fm_tx_fee mgr = Some t →
  tf_payer t = payer ∧ tf_denomination t = denomination a.
Proof.
  unfold record_fee. run_simpl. intros Hok Ht. rewrite Ht in Hok. simpl in Hok.
  repeat case_bool_decide; simplify_eq/=; done.
Qed.

(** Committing the transaction: the charge is split into the refund, which is handed to the
    caller, and the rest, which joins the block's fees; nothing is lost. *)
Definition refund_due (mgr : FeeManager) : BaseUnits :=
  from_option (λ t, BaseUnits_new (tf_refunded t) (tf_denomination t)) (base_units_native 0) (fm_tx_fee mgr).

Lemma commit_tx_ok mgr :
  fee_wf mgr → (∀ d, held mgr d ≤ u128_max)%N →
  ∃ u mgr', commit_tx mgr = (Ok u, mgr') ∧ fm_tx_fee mgr' = None ∧
    fu_payer u = from_option tf_payer address_default (fm_tx_fee mgr) ∧
    (amount (fu_refund u) ≤ u128_max)%N ∧ fu_refund u = refund_due mgr ∧
    (∀ d, held mgr d = held mgr' d + if decide (denomination (fu_refund u) = d)
                                     then amount (fu_refund u) else 0)%N.
Proof.
  unfold fee_wf, held, refund_due. intros Hwf Hle. unfold commit_tx. run_simpl.
  destruct (fm_tx_fee mgr) as [t|] eqn:Ht; simpl.
  - pose proof (Hle (tf_denomination t)) as Hd. rewrite bool_decide_eq_true_2 in Hd by done.
    unfold tf_amount, saturating_sub.
    destruct (N.ltb_spec 0 (tf_charged t - tf_refunded t)); unfold checked_add.
    + destruct (N.leb_spec (default 0%N (fm_block_fees mgr !! tf_denomination t)
                  + (tf_charged t - tf_refunded t)) u128_max); [|lia].
      eexists _, _. split; [done|]. simpl. repeat (split; [done||lia|]).
      intros d. destruct (decide (tf_denomination t = d)) as [<-|Hne].
      * rewrite bool_decide_eq_true_2 by done. rewrite lookup_insert_eq. simpl. lia.
      * rewrite bool_decide_eq_false_2 by done. rewrite lookup_insert_ne by done. lia.
    + eexists _, _. split; [done|]. simpl. repeat (split; [done||lia|]).
      intros d. case_decide; case_bool_decide; try done; lia.
  - eexists _, _. split; [done|]. simpl. split; [done|]. split; [done|]. split; [unfold u128_max; lia|].
    split; [done|]. intros d. case_decide; lia.
Qed.

Lemma held_record_refund a mgr d : held (record_refund a mgr) d = held mgr d.
Proof.
  unfold record_refund, held. destruct (a =? 0)%N; [done|].
  by destruct (fm_tx_fee mgr) eqn:E; simpl; rewrite ?E.
Qed.
