(* ===== verification/Errors.v ===== *)
(** Errors of the dispatcher and of the core module, and the results of calls they turn into
    (src/runtime-sdk/src/error.rs, dispatcher.rs, modules/core/mod.rs, module.rs; the derived
    instances follow src/runtime-sdk-macros/src/error_derive.rs). *)
From stdpp Require Import pretty.
From S2P Require Import Prelude Types.

Local Open Scope string_scope.

(** * Error types *)

(** [dispatcher::Error]; the source of an error is kept as its message. *)
Inductive DispatcherError :=
  | Aborted
  | MalformedTransactionInBatch (source : string)
  | QueryAborted (msg : string)
  | KeyManagerFailure (source : string)
  | BatchOutOfGas.

Record TxSimulationFailure := {
  tsf_message : string;
  tsf_module_name : string;
  tsf_code : N;
}.

(** [modules::core::Error]. *)
Inductive CoreError :=
  | MalformedTransaction (source : string)
  | InvalidTransaction (source : TxError)
  | InvalidMethod (method : string)
  | InvalidNonce
  | InsufficientFeeBalance
  | OutOfMessageSlots
  | MessageHandlerNotInvoked
  | MessageHandlerMissing (index : N)
  | InvalidArgument (source : string)
  | GasOverflow
  | OutOfGas (limit wanted : N)
  | TooManyAuth
  | MultisigTooManySigners
  | InvariantViolation (msg : string)
  | InvalidCallFormat (source : string)
  | Abort_ (source : DispatcherError)
  | NotAuthenticated
  | GasPriceTooLow
  | ForbiddenInSecureBuild
  | Forbidden
  | OversizedTransaction
  | ExpiredTransaction
  | ReadOnlyTransaction
  | FutureNonce
  | CallDepthExceeded (depth max : N)
  | TxSimulationFailed (source : TxSimulationFailure).

(** * The error trait *)

(** [into_abort] is [Some] of a dispatcher error when the batch should abort. *)
Class SdkError (E : Type) := {
  module_name : E → string;
  code : E → N;
  to_string : E → string;
  into_abort : E → option DispatcherError;
}.

Definition tx_error_to_string (e : TxError) : string :=
  match e with
  | UnsupportedVersion => "unsupported version"
  | TxMalformedTransaction msg => "malformed transaction: " +:+ msg
  | SignerNotFound => "signer not found in transaction"
  | FailedToSign => "failed to sign"
  end.

#[export] Instance dispatcher_sdk_error : SdkError DispatcherError := {
  module_name _ := "dispatcher";
  code e := match e with
            | Aborted => 1
            | MalformedTransactionInBatch _ => 2
            | QueryAborted _ => 3
            | KeyManagerFailure _ => 4
            | BatchOutOfGas => 5
            end%N;
  to_string e := match e with
                 | Aborted => "dispatch aborted"
                 | MalformedTransactionInBatch s => "malformed transaction in batch: " +:+ s
                 | QueryAborted s => "query aborted: " +:+ s
                 | KeyManagerFailure s => "key manager failure: " +:+ s
                 | BatchOutOfGas => "batch out of gas"
                 end;
  into_abort := Some;
}.

#[export] Instance simulation_sdk_error : SdkError TxSimulationFailure := {
  module_name := tsf_module_name;
  code := tsf_code;
  to_string := tsf_message;
  into_abort _ := None;
}.

Definition core_code (e : CoreError) : N :=
  match e with
  | MalformedTransaction _ => 1
  | InvalidTransaction _ => 2
  | InvalidMethod _ => 3
  | InvalidNonce => 4
  | InsufficientFeeBalance => 5
  | OutOfMessageSlots => 6
  | MessageHandlerNotInvoked => 8
  | MessageHandlerMissing _ => 9
  | InvalidArgument _ => 10
  | GasOverflow => 11
  | OutOfGas _ _ => 12
  | TooManyAuth => 15
  | MultisigTooManySigners => 16
  | InvariantViolation _ => 17
  | InvalidCallFormat _ => 18
  | Abort_ source => code source
  | NotAuthenticated => 19
  | GasPriceTooLow => 20
  | ForbiddenInSecureBuild => 21
  | Forbidden => 22
  | OversizedTransaction => 23
  | ExpiredTransaction => 24
  | ReadOnlyTransaction => 25
  | FutureNonce => 26
  | CallDepthExceeded _ _ => 27
  | TxSimulationFailed source => code source
  end.

Definition core_to_string (e : CoreError) : string :=
  match e with
  | MalformedTransaction s => "malformed transaction: " +:+ s
  | InvalidTransaction s => "invalid transaction: " +:+ tx_error_to_string s
  | InvalidMethod m => "invalid method: " +:+ m
  | InvalidNonce => "invalid nonce"
  | InsufficientFeeBalance => "insufficient balance to pay fees"
  | OutOfMessageSlots => "out of message slots"
  | MessageHandlerNotInvoked => "message handler not invoked"
  | MessageHandlerMissing _ => "missing message handler"
  | InvalidArgument s => "invalid argument: " +:+ s
  | GasOverflow => "gas overflow"
  | OutOfGas limit wanted =>
      "out of gas (limit: " +:+ pretty limit +:+ " wanted: " +:+ pretty wanted +:+ ")"
  | TooManyAuth => "too many authentication slots"
  | MultisigTooManySigners => "multisig too many signers"
  | InvariantViolation s => "invariant violation: " +:+ s
  | InvalidCallFormat s => "invalid call format: " +:+ s
  | Abort_ source => to_string source
  | NotAuthenticated => "no module could authenticate the transaction"
  | GasPriceTooLow => "gas price too low"
  | ForbiddenInSecureBuild => "forbidden in secure build"
  | Forbidden => "forbidden by node policy"
  | OversizedTransaction => "transaction is too large"
  | ExpiredTransaction => "transaction is expired or not yet valid"
  | ReadOnlyTransaction => "read-only transaction attempted modifications"
  | FutureNonce => "future nonce"
  | CallDepthExceeded depth max =>
      "call depth exceeded (depth: " +:+ pretty depth +:+ " max: " +:+ pretty max +:+ ")"
  | TxSimulationFailed source => to_string source
  end.

#[export] Instance core_sdk_error : SdkError CoreError := {
  module_name e := match e with
                   | Abort_ source => module_name source
                   | TxSimulationFailed source => module_name source
                   | _ => "core"
                   end;
  code := core_code;
  to_string := core_to_string;
  into_abort e := match e with
                  | Abort_ source => into_abort source
                  | TxSimulationFailed source => into_abort source
                  | _ => None
                  end;
}.

(** [Error::out_of_gas]: the amounts are masked when gas use is not to be revealed. *)
Definition out_of_gas (emit_gas_used_events : bool) (limit wanted : N) : CoreError :=
  if emit_gas_used_events then OutOfGas limit wanted else OutOfGas 0 0.

Definition is_error_core_out_of_gas (e : TxSimulationFailure) : bool :=
  bool_decide (tsf_module_name e = "core") && (tsf_code e =? 12)%N.

(** * Results of calls *)

(** [oasis_core_runtime::types::Error]. *)
Record RuntimeError := { re_module : string; re_code : N; re_message : string }.
Definition no_error : RuntimeError := {| re_module := ""; re_code := 0; re_message := "" |}.
Definition into_runtime_error {E} `{SdkError E} (e : E) : RuntimeError :=
  {| re_module := module_name e; re_code := code e; re_message := to_string e |}.

Section results.
Context `{Crypto}.

(** [module::CallResult]. *)
Inductive CallResult :=
  | CallOk (value : Value)
  | CallFailed (module : string) (code : N) (message : string)
  | CallAborted (err : DispatcherError).

Definition is_success (r : CallResult) : bool :=
  match r with CallOk _ => true | _ => false end.

Definition into_call_result {E} `{SdkError E} (e : E) : CallResult :=
  match into_abort e with
  | Some err => CallAborted err
  | None => CallFailed (module_name e) (code e) (to_string e)
  end.

(** [types::transaction::CallResult], the serializable variant, and the conversion to it. *)
Inductive TxCallResult :=
  | TxOk (value : Value)
  | TxFailed (module : string) (code : N) (message : string)
  | TxUnknown (value : Value).

Definition to_tx_call_result (r : CallResult) : TxCallResult :=
  match r with
  | CallOk data => TxOk data
  | CallFailed m c msg => TxFailed m c msg
  | CallAborted err => TxFailed (module_name err) (code err) (to_string err)
  end.

Definition simulation_failure_try_from (r : CallResult) : option TxSimulationFailure :=
  match r with
  | CallFailed m c msg => Some {| tsf_code := c; tsf_module_name := m; tsf_message := msg |}
  | _ => None
  end.

(** An error never becomes a success. *)
Lemma into_call_result_fails {E} `{SdkError E} (e : E) : is_success (into_call_result e) = false.
Proof. unfold into_call_result. by destruct (into_abort e). Qed.
End results.
