(* ===== verification/State.v ===== *)
(** The current state of a runtime: nested states with an overlay store, events, messages, block and
    local values, the random number generator and the execution environment
    (src/runtime-sdk/src/state.rs, event.rs, sender.rs, crypto/random.rs, types/message.rs). *)
From S2P Require Import Prelude Endian Storage StoreIter Types Fee Errors.

(** * The platform: everything outside of the repository that the state refers to. *)

Class Platform := {
  pf_mkvs :: MKVS;
  pf_crypto :: Crypto;
  pf_codec :: TxCodec;
  (** [roothash::Message], a message to the consensus layer *)
  Message : Type;
  (** [roothash::MessageEvent], the result of a message, which names the message by its index *)
  MessageEvent : Type;
  message_event_index : MessageEvent → N;
  (** the Merlin transcript behind the random number generator *)
  Transcript : Type;
  transcript_new : bytes → Transcript;
  transcript_append : Transcript → bytes → bytes → Transcript;
  (** a generator seeded with a transcript *)
  TranscriptRng : Type;
}.

(** * Environment *)

Inductive Mode := Execute | Check_ | Simulate | PreSchedule.
#[global] Instance Mode_eq_dec : EqDecision Mode.
Proof. solve_decision. Defined.

Record SenderMeta := { sm_address : Address; sm_tx_nonce : N; sm_state_nonce : N }.
Definition sender_meta_default : SenderMeta :=
  {| sm_address := address_default; sm_tx_nonce := 0; sm_state_nonce := 0 |}.
(** [SenderMeta::id]: empty for the default address. *)
Definition sender_id (m : SenderMeta) : bytes :=
  if bool_decide (sm_address m = address_default) then [] else raw (sm_address m).

Section state.
Context `{Platform}.

Record TransactionWithMeta := {
  twm_data : Transaction;
  twm_size : N;
  twm_index : N;
  twm_hash : Hash;
}.

Record Environment := { env_mode : Mode; env_tx : option TransactionWithMeta; env_internal : bool }.
Definition env_default : Environment := {| env_mode := Execute; env_tx := None; env_internal := false |}.

Definition is_check_only (e : Environment) : bool :=
  match env_mode e with Check_ | PreSchedule => true | _ => false end.
Definition is_pre_schedule (e : Environment) : bool :=
  match env_mode e with PreSchedule => true | _ => false end.
Definition is_simulation (e : Environment) : bool :=
  match env_mode e with Simulate => true | _ => false end.
Definition is_execute (e : Environment) : bool :=
  match env_mode e with Execute => true | _ => false end.
Definition is_transaction (e : Environment) : bool := bool_decide (is_Some (env_tx e)).

(** The transaction accessors panic outside of a transaction: they are [None] there. *)
Definition env_tx_index (e : Environment) : option N := twm_index <$> env_tx e.
Definition env_tx_size (e : Environment) : option N := twm_size <$> env_tx e.
Definition env_tx_auth_info (e : Environment) : option AuthInfo :=
  (λ tx, tx_auth_info (twm_data tx)) <$> env_tx e.
Definition env_tx_call_format (e : Environment) : option CallFormat :=
  (λ tx, call_format (tx_call (twm_data tx))) <$> env_tx e.
Definition env_is_read_only (e : Environment) : option bool :=
  (λ tx, call_read_only (tx_call (twm_data tx))) <$> env_tx e.
Definition env_tx_caller_address (e : Environment) : option Address :=
  (λ ai, from_option (λ si, address_spec_address (si_address_spec si)) address_default
           (head (signer_info ai))) <$> env_tx_auth_info e.

(** * Events, messages, values *)

Record EventTag := { et_key : bytes; et_value : Value }.
Definition EventTags := gmap bytes (list Value).
Definition etag_for_event (module_name : string) (code : N) (value : Value) : EventTag :=
  {| et_key := str module_name ++ be_bytes32 code; et_value := value |}.

Record MessageEventHookInvocation := { hook_name : string; hook_payload : Value }.

(** The dynamically typed values that the modelled modules keep in a state. *)
Inductive AnyValue :=
  | AnyU64 (n : N)
  | AnyBool (b : bool)
  | AnySenderMeta (m : SenderMeta)
  | AnyFeeManager (m : FeeManager).

(** * Random number generator: what enters its transcript *)

Record RootRng := { rng_transcript : Transcript; rng_inner : option TranscriptRng; rng_mode : Mode; rng_valid : bool }.
Definition RNG_CONTEXT : bytes := str "oasis-runtime-sdk/crypto: rng v1".
Definition root_rng_new (mode : Mode) : RootRng :=
  {| rng_transcript := transcript_new RNG_CONTEXT; rng_inner := None; rng_mode := mode; rng_valid := true |}.
Definition root_rng_invalid : RootRng :=
  {| rng_transcript := transcript_new []; rng_inner := None; rng_mode := Simulate; rng_valid := false |}.
Definition rng_append (label msg : bytes) (r : RootRng) : RootRng :=
  if negb (rng_valid r) then r
  else {| rng_transcript := transcript_append (rng_transcript r) label msg; rng_inner := rng_inner r;
          rng_mode := rng_mode r; rng_valid := rng_valid r |}.
(** The bytes drawn from the operating system are an argument. *)
Definition append_local_entropy (entropy : bytes) : RootRng → RootRng :=
  rng_append (str "local-rng") entropy.
Definition append_tx (tx_hash : Hash) : RootRng → RootRng := rng_append (str "tx") (raw tx_hash).
Definition append_subcontext : RootRng → RootRng := rng_append (str "subctx") [].

(** * State *)

Inductive State := MkState {
  st_parent : option State;
  st_store : option Store;
  st_events : EventTags;
  st_unconditional_events : EventTags;
  st_messages : list (Message * MessageEventHookInvocation);
  st_block_values : gmap string AnyValue;
  st_hidden_block_values : option (gmap string AnyValue);
  st_local_values : gmap string AnyValue;
  st_rng : option RootRng;
  st_hidden_rng : option RootRng;
  st_env : Environment;
  st_always_rollback : bool;
}.

(** Field updates. *)
Definition set_store (x : option Store) (s : State) : State :=
  MkState (st_parent s) x (st_events s) (st_unconditional_events s) (st_messages s)
    (st_block_values s) (st_hidden_block_values s) (st_local_values s) (st_rng s)
    (st_hidden_rng s) (st_env s) (st_always_rollback s).
Definition set_events (x : EventTags) (s : State) : State :=
  MkState (st_parent s) (st_store s) x (st_unconditional_events s) (st_messages s)
    (st_block_values s) (st_hidden_block_values s) (st_local_values s) (st_rng s)
    (st_hidden_rng s) (st_env s) (st_always_rollback s).
Definition set_unconditional_events (x : EventTags) (s : State) : State :=
  MkState (st_parent s) (st_store s) (st_events s) x (st_messages s)
    (st_block_values s) (st_hidden_block_values s) (st_local_values s) (st_rng s)
    (st_hidden_rng s) (st_env s) (st_always_rollback s).
Definition set_messages (x : list (Message * MessageEventHookInvocation)) (s : State) : State :=
  MkState (st_parent s) (st_store s) (st_events s) (st_unconditional_events s) x
    (st_block_values s) (st_hidden_block_values s) (st_local_values s) (st_rng s)
    (st_hidden_rng s) (st_env s) (st_always_rollback s).
Definition set_block_values (x : gmap string AnyValue) (s : State) : State :=
  MkState (st_parent s) (st_store s) (st_events s) (st_unconditional_events s) (st_messages s)
    x (st_hidden_block_values s) (st_local_values s) (st_rng s)
    (st_hidden_rng s) (st_env s) (st_always_rollback s).
Definition set_hidden_block_values (x : option (gmap string AnyValue)) (s : State) : State :=
  MkState (st_parent s) (st_store s) (st_events s) (st_unconditional_events s) (st_messages s)
    (st_block_values s) x (st_local_values s) (st_rng s)
    (st_hidden_rng s) (st_env s) (st_always_rollback s).
Definition set_local_values (x : gmap string AnyValue) (s : State) : State :=
  MkState (st_parent s) (st_store s) (st_events s) (st_unconditional_events s) (st_messages s)
    (st_block_values s) (st_hidden_block_values s) x (st_rng s)
    (st_hidden_rng s) (st_env s) (st_always_rollback s).
Definition set_rng (x : option RootRng) (s : State) : State :=
  MkState (st_parent s) (st_store s) (st_events s) (st_unconditional_events s) (st_messages s)
    (st_block_values s) (st_hidden_block_values s) (st_local_values s) x
    (st_hidden_rng s) (st_env s) (st_always_rollback s).
Definition set_hidden_rng (x : option RootRng) (s : State) : State :=
  MkState (st_parent s) (st_store s) (st_events s) (st_unconditional_events s) (st_messages s)
    (st_block_values s) (st_hidden_block_values s) (st_local_values s) (st_rng s)
    x (st_env s) (st_always_rollback s).
Definition set_env (x : Environment) (s : State) : State :=
  MkState (st_parent s) (st_store s) (st_events s) (st_unconditional_events s) (st_messages s)
    (st_block_values s) (st_hidden_block_values s) (st_local_values s) (st_rng s)
    (st_hidden_rng s) x (st_always_rollback s).
Definition set_always_rollback (x : bool) (s : State) : State :=
  MkState (st_parent s) (st_store s) (st_events s) (st_unconditional_events s) (st_messages s)
    (st_block_values s) (st_hidden_block_values s) (st_local_values s) (st_rng s)
    (st_hidden_rng s) (st_env s) x.

Definition set_mode (m : Mode) (s : State) : State :=
  set_env {| env_mode := m; env_tx := env_tx (st_env s); env_internal := env_internal (st_env s) |} s.
Definition set_tx (tx : TransactionWithMeta) (s : State) : State :=
  set_env {| env_mode := env_mode (st_env s); env_tx := Some tx;
             env_internal := env_internal (st_env s) |} s.
Definition set_internal (b : bool) (s : State) : State :=
  set_env {| env_mode := env_mode (st_env s); env_tx := env_tx (st_env s); env_internal := b |} s.

(** Computations over the current state ([CurrentState::with]). *)
Local Notation M := (ST State).

(** ** Opening, committing and rolling back *)

Record Options := {
  o_mode : option Mode;
  o_tx : option TransactionWithMeta;
  o_internal : option bool;
  (** the entropy drawn when local entropy is requested *)
  o_rng_local_entropy : option bytes;
}.
Definition options_new : Options :=
  {| o_mode := None; o_tx := None; o_internal := None; o_rng_local_entropy := None |}.
Definition with_mode (m : Mode) (o : Options) : Options :=
  {| o_mode := Some m; o_tx := o_tx o; o_internal := o_internal o;
     o_rng_local_entropy := o_rng_local_entropy o |}.
Definition with_tx (tx : TransactionWithMeta) (o : Options) : Options :=
  {| o_mode := o_mode o; o_tx := Some tx; o_internal := o_internal o;
     o_rng_local_entropy := o_rng_local_entropy o |}.
Definition with_internal (b : bool) (o : Options) : Options :=
  {| o_mode := o_mode o; o_tx := o_tx o; o_internal := Some b;
     o_rng_local_entropy := o_rng_local_entropy o |}.

Definition hide_block_values {E} : M E unit :=
  s ← get_st;
  match st_parent s with
  | None => panic "cannot hide block values on root state"
  | Some _ =>
      match st_hidden_block_values s with
      | Some _ => mret tt
      | None =>
          modify (λ s, set_block_values ∅ (set_hidden_block_values (Some (st_block_values s)) s))
      end
  end.

Definition disable_rng {E} : M E unit :=
  s ← get_st;
  match st_parent s with
  | None => panic "cannot hide the RNG on root state"
  | Some _ =>
      match st_hidden_rng s with
      | Some _ => mret tt
      | None => modify (λ s, set_rng (Some root_rng_invalid) (set_hidden_rng (st_rng s) s))
      end
  end.

(** [self.rng.as_mut().unwrap()], updated in place. *)
Definition with_rng {E} (f : RootRng → RootRng) : M E unit :=
  s ← get_st;
  match st_rng s with
  | None => panic "called unwrap on a None value"
  | Some r => modify (set_rng (Some (f r)))
  end.

Definition init {E} (opts : Options) : M E unit :=
  (match o_mode opts with
   | Some mode =>
       modify (set_mode mode) ;;
       match mode with
       | PreSchedule | Simulate => modify (set_always_rollback true) ;; hide_block_values
       | _ => mret tt
       end
   | None => mret tt
   end) ;;
  (match o_tx opts with
   | Some tx => with_rng (append_tx (twm_hash tx)) ;; modify (set_tx tx)
   | None => mret tt
   end) ;;
  (match o_internal opts with
   | Some internal =>
       modify (set_internal internal) ;;
       if (internal : bool) then hide_block_values else mret tt
   | None => mret tt
   end) ;;
  (match o_rng_local_entropy opts with
   | Some entropy => with_rng (append_local_entropy entropy)
   | None => mret tt
   end) ;;
  s ← get_st;
  match env_mode (st_env s) with
  | PreSchedule => disable_rng
  | _ => with_rng append_subcontext
  end.

(** [open]: the child takes over the store (wrapped into a new overlay), the block values and the
    random number generator. *)
Definition open (s : State) : State :=
  MkState
    (Some (set_rng None (set_block_values ∅ (set_store None s))))
    (new_overlay <$> st_store s)
    ∅ ∅ [] (st_block_values s) None ∅ (st_rng s) None (st_env s) false.

(** [convert_store]: an unchecked cast of the boxed parent store to an overlay; anything else would
    be undefined behaviour. *)
Definition convert_store (s : Store) : option Store :=
  match s with
  | OverlayStore _ _ _ => Some s
  | MKVSStore _ => None
  end.

Definition merge_events (es es' : EventTags) : EventTags :=
  union_with (λ a b, Some (a ++ b)) es es'.

(** What both commit and rollback hand back to the parent. *)
Definition put_back (child parent : State) : State :=
  let parent := match st_hidden_block_values child with
                | Some bv => set_block_values bv parent
                | None => set_block_values (st_block_values child) parent
                end in
  match st_hidden_rng child with
  | Some r => set_rng (Some r) parent
  | None => set_rng (st_rng child) parent
  end.

(** The store that goes back to the parent. *)
Definition return_store {E} (f : Store → option Store) (child : State) : M E (option Store) :=
  match st_store child with
  | None => mret None
  | Some cstore =>
      pstore ← expect (f cstore) "attempted to rollback a non-transactional store";
      pstore ← expect (convert_store pstore) "undefined behaviour: not an overlay store";
      mret (Some pstore)
  end.

Definition commit_ {E} : M E unit :=
  child ← get_st;
  parent ← expect (st_parent child) "cannot commit on root state";
  store ← return_store (λ s, Some (commit s)) child;
  modify (λ _, put_back child
    (set_unconditional_events
       (merge_events (st_unconditional_events parent) (st_unconditional_events child))
     (set_events (merge_events (st_events parent) (st_events child))
      (set_messages (st_messages parent ++ st_messages child)
       (set_store store parent))))).

Definition rollback_state {E} : M E unit :=
  child ← get_st;
  parent ← expect (st_parent child) "cannot rollback on root state";
  store ← return_store rollback child;
  modify (λ _, put_back child (set_store store parent)).

Definition commit_state {E} : M E unit :=
  s ← get_st;
  if st_always_rollback s then rollback_state else commit_.

(** The nesting level, and the queries along the chain of parents. *)
Fixpoint level (s : State) : nat :=
  match s with
  | MkState parent _ _ _ _ _ _ _ _ _ _ _ =>
      match parent with Some p => S (level p) | None => 0 end
  end.

Fixpoint emitted_messages_count (s : State) : nat :=
  match s with
  | MkState parent _ _ _ messages _ _ _ _ _ _ _ =>
      length messages + match parent with Some p => emitted_messages_count p | None => 0 end
  end.

Fixpoint env_origin (s : State) : Environment :=
  match s with
  | MkState parent _ _ _ _ _ _ _ _ _ env _ =>
      match parent with
      | Some p => if env_internal env then env_origin p else env
      | None => env
      end
  end.

(** ** Messages and events *)

Definition emitted_messages_local_count (s : State) : nat := length (st_messages s).

(** The limit of the transaction, zero meaning the limit of the round. *)
Definition emitted_messages_max (max_messages : N) (s : State) : N :=
  match env_tx_auth_info (st_env s) with
  | Some ai => let limit := fee_consensus_messages (ai_fee ai) in
               if (0 <? limit)%N then limit else max_messages
  | None => max_messages
  end.

Definition emit_message (max_messages : N) (msg : Message) (hook : MessageEventHookInvocation)
    : M CoreError unit :=
  s ← get_st;
  if (emitted_messages_max max_messages s <=? N.of_nat (emitted_messages_count s))%N
  then throw OutOfMessageSlots
  else modify (λ s, set_messages (st_messages s ++ [(msg, hook)]) s).

Definition take_messages {E} : M E (list (Message * MessageEventHookInvocation)) :=
  s ← get_st; modify (set_messages []) ;; mret (st_messages s).

Definition push_event (etag : EventTag) (es : EventTags) : EventTags :=
  <[et_key etag := default [] (es !! et_key etag) ++ [et_value etag]]> es.
Definition emit_event_raw {E} (etag : EventTag) : M E unit :=
  modify (λ s, set_events (push_event etag (st_events s)) s).
Definition emit_unconditional_event {E} (etag : EventTag) : M E unit :=
  modify (λ s, set_unconditional_events (push_event etag (st_unconditional_events s)) s).

Definition take_events {E} : M E EventTags :=
  s ← get_st; modify (set_events ∅) ;; mret (st_events s).
Definition take_unconditional_events {E} : M E EventTags :=
  s ← get_st; modify (set_unconditional_events ∅) ;; mret (st_unconditional_events s).
Definition take_all_events {E} : M E EventTags :=
  events ← take_events;
  unconditional_events ← take_unconditional_events;
  mret (merge_events events unconditional_events).

Definition has_pending_store_updates (s : State) : bool :=
  from_option has_pending_updates false (st_store s).
Definition pending_store_update_byte_size (s : State) : N :=
  from_option pending_update_byte_size 0%N (st_store s).
End state.

(** Computations over the current state. *)
Notation M := (ST State).
