(* ===== verification/Current.v ===== *)
(** The state attached to the current thread: per-state values, typed access to the store,
    transactions with their guard, and the root state of a batch
    (src/runtime-sdk/src/state.rs, storage/typed.rs, module.rs). *)
From S2P Require Import Prelude Storage StoreIter Types Fee Errors State.

(** * Serialization

    The CBOR library and the encoders derived with it are outside of the repository.  [encodable]
    delimits the values of the Rust type among those of the Rocq type (a [u128] is a natural number
    below 2^128). *)

Class Cbor (T : Type) := {
  to_vec : T → bytes;
  from_slice : bytes → option T;
  encodable : T → Prop;
}.

Class CborRoundtrip (T : Type) `{Cbor T} : Prop :=
  cbor_roundtrip x : encodable x → from_slice (to_vec x) = Some x.
Class CborLaws (T : Type) `{Cbor T} : Prop := {
  cbor_laws_roundtrip :: CborRoundtrip T;
  cbor_decoded b x : from_slice b = Some x → encodable x;
  (** an empty input is not a valid encoding *)
  cbor_empty : from_slice [] = None;
}.

(** * Per-state values *)

(** [Any] with the type it is downcast to. *)
Class AnyVal `{Platform} (V : Type) := {
  any_in : V → AnyValue;
  any_out : AnyValue → option V;
  any_default : V;
  any_out_in v : any_out (any_in v) = Some v;
}.

#[export] Instance any_u64 `{Platform} : AnyVal N := {
  any_in := AnyU64; any_out v := match v with AnyU64 n => Some n | _ => None end; any_default := 0%N;
  any_out_in _ := eq_refl }.
#[export] Instance any_bool `{Platform} : AnyVal bool := {
  any_in := AnyBool; any_out v := match v with AnyBool n => Some n | _ => None end;
  any_default := false; any_out_in _ := eq_refl }.
#[export] Instance any_sender_meta `{Platform} : AnyVal SenderMeta := {
  any_in := AnySenderMeta; any_out v := match v with AnySenderMeta n => Some n | _ => None end;
  any_default := sender_meta_default; any_out_in _ := eq_refl }.
#[export] Instance any_fee_manager `{Platform} : AnyVal FeeManager := {
  any_in := AnyFeeManager; any_out v := match v with AnyFeeManager n => Some n | _ => None end;
  any_default := fee_manager_new; any_out_in _ := eq_refl }.

Inductive Scope := Block | Local_.

Section values.
Context `{Platform} {E : Type}.

Definition values (sc : Scope) (s : State) : gmap string AnyValue :=
  match sc with Block => st_block_values s | Local_ => st_local_values s end.
Definition set_values (sc : Scope) (vs : gmap string AnyValue) (s : State) : State :=
  match sc with Block => set_block_values vs s | Local_ => set_local_values vs s end.

(** [downcast().expect(..)]. *)
Definition downcast {V} `{!AnyVal V} (v : AnyValue) : M E V :=
  expect (any_out v) "type should stay the same".

Definition value_get {V} `{!AnyVal V} (sc : Scope) (key : string) : M E (option V) :=
  s ← get_st;
  match values sc s !! key with
  | Some v => x ← downcast v; mret (Some x)
  | None => mret None
  end.

Definition value_set {V} `{!AnyVal V} (sc : Scope) (key : string) (v : V) : M E unit :=
  modify (λ s, set_values sc (<[key := any_in v]> (values sc s)) s).

Definition value_take {V} `{!AnyVal V} (sc : Scope) (key : string) : M E (option V) :=
  s ← get_st;
  match values sc s !! key with
  | Some v =>
      modify (λ s, set_values sc (delete key (values sc s)) s) ;;
      x ← downcast v; mret (Some x)
  | None => mret None
  end.

(** The reference that [or_default] returns is written through with [value_set]. *)
Definition value_or_default {V} `{!AnyVal V} (sc : Scope) (key : string) : M E V :=
  s ← get_st;
  match values sc s !! key with
  | Some v => downcast v
  | None => value_set sc key any_default ;; mret any_default
  end.

(** * The store *)

Definition store : M E Store :=
  s ← get_st; expect (st_store s) "called Option::unwrap on a None value".
Definition put_store (st : Store) : M E unit := modify (set_store (Some st)).

Definition typed_get {T} `{!Cbor T} (r : StoreRef) (key : bytes) : M E (option T) :=
  st ← store;
  match ref_get st r key with
  | None => mret None
  | Some data => x ← expect (from_slice data) "called Result::unwrap on an Err value"; mret (Some x)
  end.

Definition typed_insert {T} `{!Cbor T} (r : StoreRef) (key : bytes) (value : T) : M E unit :=
  st ← store; put_store (ref_insert st r key (to_vec value)).

Definition typed_remove (r : StoreRef) (key : bytes) : M E unit :=
  st ← store; put_store (ref_remove st r key).

(** The conversion of one raw entry by [TypedStoreIterator]. *)
Definition typed_item {K V} `{!Cbor V} (try_from : bytes → string + K) (dflt : V)
    (kv : bytes * bytes) : M E (K * V) :=
  key ← (match try_from kv.1 with
         | inr k => mret k
         | inl e => panic ("corrupted storage key: " +:+ e)
         end);
  value ← (if bool_decide (kv.2 = []) then mret dflt
           else expect (from_slice kv.2) "called Result::unwrap on an Err value");
  mret (key, value).

Fixpoint map_m {A B} (f : A → M E B) (l : list A) : M E (list B) :=
  match l with
  | [] => mret []
  | x :: l' => y ← f x; ys ← map_m f l'; mret (y :: ys)
  end.

(** [TypedStore::iter().collect()], as the list of the items. *)
Definition typed_iter {K V} `{!Cbor V} (try_from : bytes → string + K) (dflt : V) (r : StoreRef)
    : M E (list (K * V)) :=
  st ← store;
  match ref_collect st r with
  | Ok l => map_m (typed_item try_from dflt) l
  | Err e => match e with end
  | Panic msg => panic msg
  end.

(** [Module::params] and [Module::set_params]. *)
Definition PARAMS_STORE_KEY : bytes := [x00].
Definition params {T} `{!Cbor T} (name : string) (dflt : T) : M E T :=
  p ← typed_get (PrefixStore CurrentStore (str name)) PARAMS_STORE_KEY;
  mret (default dflt p).
Definition set_params {T} `{!Cbor T} (name : string) (p : T) : M E unit :=
  typed_insert (PrefixStore CurrentStore (str name)) PARAMS_STORE_KEY p.

(** [CurrentState::with_env]; the transaction accessors panic outside of a transaction. *)
Definition with_env {A} (f : Environment → A) : M E A := gets (λ s, f (st_env s)).
Definition with_tx_env {A} (f : Environment → option A) : M E A :=
  s ← get_st; expect (f (st_env s)) "only in transaction environment".
End values.

(** * Transactions *)

Inductive TransactionResult (R : Type) := Commit (r : R) | Rollback (r : R).
Arguments Commit {R} r.
Arguments Rollback {R} r.

Section transactions.
Context `{Platform} {E : Type}.

(** Dropping the [TransactionGuard]: roll back unless the transaction was closed. *)
Definition drop_guard {R} (lvl : nat) (r : Outcome E R) : State → Outcome E R * State := λ s,
  if bool_decide (level s = lvl) then
    match rollback_state (E := E) s with
    | (Ok _, s') => (r, s')
    | (Err e, s') => (Err e, s')
    | (Panic p, s') => (Panic p, s')
    end
  else (r, s).

(** [with_transaction_opts].  A closure that returns a [Result] is a computation whose [Err] is
    turned into a rollback (the [From] instance of [TransactionResult]); a panic unwinds through
    the guard. *)
Definition with_transaction_opts {R} (opts : Options) (f : M E (TransactionResult R)) : M E R :=
  λ s,
  match init opts (open s) with
  | (Ok _, s1) =>
      let lvl := level s1 in
      match f s1 with
      | (Ok (Commit r), s2) =>
          match commit_state (E := E) s2 with
          | (Ok _, s3) => drop_guard lvl (Ok r) s3
          | (Err e, s3) => drop_guard lvl (Err e) s3
          | (Panic p, s3) => drop_guard lvl (Panic p) s3
          end
      | (Ok (Rollback r), s2) =>
          match rollback_state (E := E) s2 with
          | (Ok _, s3) => drop_guard lvl (Ok r) s3
          | (Err e, s3) => drop_guard lvl (Err e) s3
          | (Panic p, s3) => drop_guard lvl (Panic p) s3
          end
      | (Err e, s2) =>
          match rollback_state (E := E) s2 with
          | (Ok _, s3) => drop_guard lvl (Err e) s3
          | (Err e, s3) => drop_guard lvl (Err e) s3
          | (Panic p, s3) => drop_guard lvl (Panic p) s3
          end
      | (Panic p, s2) => drop_guard lvl (Panic p) s2
      end
  | (Err e, s1) => (Err e, s1)
  | (Panic p, s1) => (Panic p, s1)
  end.

Definition with_transaction {R} (f : M E (TransactionResult R)) : M E R :=
  with_transaction_opts options_new f.

(** A closure that returns a [Result]. *)
Definition commit_ok {R} (f : M E R) : M E (TransactionResult R) := r ← f; mret (Commit r).

(** [enter_opts]: run on a fresh root state over the given store, which receives the updates when
    the computation is left, normally or by a panic. *)
Definition root_state (mode : Mode) (root : Store) : State :=
  MkState None (Some (new_overlay root)) ∅ ∅ [] ∅ None ∅ (Some (root_rng_new mode)) None
    env_default false.

Definition enter_opts {R} (opts : Options) (root : Store) (f : M E R) : Outcome E R * Store :=
  match o_mode opts with
  | None => (Panic "mode must be explicitly set on root state", root)
  | Some mode =>
      match init opts (root_state mode root) with
      | (Ok _, s1) =>
          match f s1 with
          | (r, s2) =>
              match st_store s2 with
              | Some st => (r, commit st)
              | None => (Panic "must not have open child states after exiting root state", root)
              end
          end
      | (Err e, _) => (Err e, root)
      | (Panic p, _) => (Panic p, root)
      end
  end.
End transactions.

(** [catch_unwind]: a panic becomes a value. *)
Definition catch_unwind {S E A} (m : ST S E A) : ST S E (string + A) := λ s,
  match m s with
  | (Ok a, s') => (Ok (inr a), s')
  | (Err e, s') => (Err e, s')
  | (Panic p, s') => (Ok (inl p), s')
  end.

(** * Frames

    What a computation over the current state leaves alone: the parents, the environment and what
    was hidden when the state was opened; and it keeps the store an overlay over the same base. *)

Definition overlay_base `{MKVS} (s : Store) : option Store :=
  match s with OverlayStore p _ _ => Some p | MKVSStore _ => None end.

Section frames.
Context `{Platform} `{!MKVSLaws}.

(** A state on which computations run: it has the store, as an overlay, and the generator. *)
Definition ready (s : State) : Prop :=
  is_Some (st_rng s) ∧ ∃ st, st_store s = Some st ∧ store_wf st ∧ is_Some (overlay_base st).

Record frame (s s' : State) : Prop := {
  fr_parent : st_parent s' = st_parent s;
  fr_env : st_env s' = st_env s;
  fr_always_rollback : st_always_rollback s' = st_always_rollback s;
  fr_hidden_block_values : st_hidden_block_values s' = st_hidden_block_values s;
  fr_hidden_rng : st_hidden_rng s' = st_hidden_rng s;
  fr_base : (st_store s' ≫= overlay_base) = (st_store s ≫= overlay_base);
  fr_ready : ready s';
}.

Definition framed {E A} (m : M E A) : Prop := ∀ s, ready s → frame s (m s).2.

Lemma frame_refl s : ready s → frame s s.
Proof. by intros; constructor. Qed.
Lemma frame_trans s1 s2 s3 : frame s1 s2 → frame s2 s3 → frame s1 s3.
Proof. intros [] []; constructor; congruence. Qed.

(** A state that differs only in what the frame does not mention. *)
Lemma frame_fields s s' :
  ready s → st_parent s' = st_parent s → st_env s' = st_env s →
  st_always_rollback s' = st_always_rollback s →
  st_hidden_block_values s' = st_hidden_block_values s → st_hidden_rng s' = st_hidden_rng s →
  st_store s' = st_store s → st_rng s' = st_rng s → frame s s'.
Proof. intros [Hr Hst] ? ? ? ? ? Hs Hr'. constructor; try done; [by rewrite Hs|]. unfold ready. by rewrite Hs, Hr'. Qed.

Lemma framed_ret {E A} (a : A) : framed (mret (M := M E) a).
Proof. intros s Hs. by apply frame_refl. Qed.
Lemma framed_throw {E A} (e : E) : framed (throw (A := A) e).
Proof. intros s Hs. by apply frame_refl. Qed.
Lemma framed_panic {E A} msg : framed (panic (E := E) (A := A) msg).
Proof. intros s Hs. by apply frame_refl. Qed.
Lemma framed_get_st {E} : framed (get_st (E := E)).
Proof. intros s Hs. by apply frame_refl. Qed.
Lemma framed_gets {E A} (f : State → A) : framed (gets (E := E) f).
Proof. intros s Hs. by apply frame_refl. Qed.
Lemma framed_expect {E A} (o : option A) msg : framed (expect (E := E) o msg).
Proof. destruct o; [apply framed_ret|apply framed_panic]. Qed.
Lemma framed_ok_or {E A} (o : option A) (e : E) : framed (ok_or o e).
Proof. destruct o; [apply framed_ret|apply framed_throw]. Qed.

Lemma framed_bind {E A B} (m : M E A) (f : A → M E B) :
  framed m → (∀ a, framed (f a)) → framed (m ≫= f).
Proof.
  intros Hm Hf s Hs. unfold mbind, ST_bind. specialize (Hm s Hs).
  destruct (m s) as [[a|e|p] s']; simpl in *; [|done..].
  eapply frame_trans; [exact Hm|]. apply Hf, Hm.
Qed.
Lemma framed_map_err {E E' A} (g : E → E') (m : M E A) : framed m → framed (map_err g m).
Proof. intros Hm s Hs. specialize (Hm s Hs). unfold map_err. by destruct (m s) as [[]]. Qed.
Lemma framed_try {E E' A} (m : M E A) : framed m → framed (try_ (E' := E') m).
Proof. intros Hm s Hs. specialize (Hm s Hs). unfold try_. by destruct (m s) as [[]]. Qed.
Lemma framed_unwrap {E E' A} msg (m : M E A) : framed m → framed (unwrap_or_panic (E' := E') msg m).
Proof. intros Hm s Hs. specialize (Hm s Hs). unfold unwrap_or_panic. by destruct (m s) as [[]]. Qed.
Lemma framed_catch {E A} (m : M E A) : framed m → framed (catch_unwind m).
Proof. intros Hm s Hs. specialize (Hm s Hs). unfold catch_unwind. by destruct (m s) as [[]]. Qed.
Lemma framed_for_each {E A} (l : list A) (body : A → M E unit) :
  (∀ x, framed (body x)) → framed (for_each l body).
Proof.
  intros Hb. induction l as [|x l IH]; [apply framed_ret|]. apply framed_bind; [done|]. by intros _.
Qed.
Lemma framed_fold_m {E A B} (l : list A) (body : B → A → M E B) b :
  (∀ b x, framed (body b x)) → framed (fold_m l b body).
Proof.
  intros Hb. revert b. induction l as [|x l IH]; intros b; [apply framed_ret|].
  apply framed_bind; [done|]. intros b'. apply IH.
Qed.
Lemma framed_map_m {E A B} (f : A → M E B) l : (∀ x, framed (f x)) → framed (map_m f l).
Proof.
  intros Hf. induction l as [|x l IH]; [apply framed_ret|].
  apply framed_bind; [done|]. intros y. apply framed_bind; [done|]. intros ys. apply framed_ret.
Qed.

(** The updates of the state that the operations perform. *)
Lemma framed_modify {E} (f : State → State) :
  (∀ s, ready s → frame s (f s)) → framed (modify (E := E) f).
Proof. intros Hf s Hs. by apply Hf. Qed.
Lemma framed_set_values {E} sc (f : State → gmap string AnyValue) :
  framed (modify (E := E) (λ s, set_values sc (f s) s)).
Proof. intros s Hs. destruct sc; by apply frame_fields. Qed.
Lemma framed_put_store {E} st :
  ∀ s, ready s → store_wf st → overlay_base st = (st_store s ≫= overlay_base) →
  frame s (put_store (E := E) st s).2.
Proof.
  intros s (Hr & st0 & Hst0 & Hwf0 & Hb0) Hwf Hb. constructor; try done; simpl.
  split; [done|]. exists st. split; [done|]. split; [done|]. rewrite Hb, Hst0. done.
Qed.

Lemma ref_insert_base st r k v : overlay_base (ref_insert st r k v) = overlay_base st ∨
  overlay_base st = None.
Proof. rewrite ref_insert_key. destruct st; simpl; auto. Qed.
Lemma ref_remove_base st r k : overlay_base (ref_remove st r k) = overlay_base st ∨
  overlay_base st = None.
Proof. rewrite ref_remove_key. destruct st; simpl; [by right|]. left. by case_decide. Qed.

Lemma framed_store {E} : framed (store (E := E)).
Proof. intros s Hs. unfold store. run_simpl. case_match; by apply frame_refl. Qed.

Lemma framed_typed_insert {E T} `{!Cbor T} r k (v : T) : framed (typed_insert (E := E) r k v).
Proof.
  intros s Hs. unfold typed_insert, store. run_simpl.
  pose proof Hs as (Hr & st & Hst & Hwf & Hb). rewrite Hst. simpl.
  apply (framed_put_store (E := E)); [done|by rewrite ref_insert_key; apply insert_wf|].
  rewrite Hst. destruct (ref_insert_base st r k (to_vec v)) as [->|Hn]; [done|].
  rewrite Hn in Hb. by destruct Hb.
Qed.
Lemma framed_typed_remove {E} r k : framed (typed_remove (E := E) r k).
Proof.
  intros s Hs. unfold typed_remove, store. run_simpl.
  pose proof Hs as (Hr & st & Hst & Hwf & Hb). rewrite Hst. simpl.
  apply (framed_put_store (E := E)); [done|by rewrite ref_remove_key; apply remove_wf|].
  rewrite Hst. destruct (ref_remove_base st r k) as [->|Hn]; [done|].
  rewrite Hn in Hb. by destruct Hb.
Qed.
End frames.

(** The automation of frames: one lemma per command of the monad, then the operations. *)
Create HintDb framed discriminated.
#[export] Hint Resolve framed_ret framed_throw framed_panic framed_get_st framed_gets framed_expect
  framed_ok_or framed_store framed_typed_insert framed_typed_remove framed_set_values : framed.

Ltac framed_step :=
  match goal with
  | |- framed (mbind _ _) => apply framed_bind
  | |- framed (map_err _ _) => apply framed_map_err
  | |- framed (try_ _) => apply framed_try
  | |- framed (unwrap_or_panic _ _) => apply framed_unwrap
  | |- framed (catch_unwind _) => apply framed_catch
  | |- framed (for_each _ _) => apply framed_for_each
  | |- framed (fold_m _ _ _) => apply framed_fold_m
  | |- framed (map_m _ _) => apply framed_map_m
  | |- ∀ _, _ => intros ?
  | |- framed (match ?x with _ => _ end) => destruct x
  end.
Ltac solve_framed := repeat (first [solve [eauto 4 with framed nocore] | framed_step]).

Section frames_ops.
Context `{Platform} `{!MKVSLaws} {E : Type}.

Lemma framed_value_get {V} `{!AnyVal V} sc k : framed (value_get (E := E) (V := V) sc k).
Proof. unfold value_get, downcast. solve_framed. Qed.
Lemma framed_value_set {V} `{!AnyVal V} sc k (v : V) : framed (value_set (E := E) sc k v).
Proof. unfold value_set. solve_framed. Qed.
Lemma framed_value_take {V} `{!AnyVal V} sc k : framed (value_take (E := E) (V := V) sc k).
Proof. unfold value_take, downcast. solve_framed. Qed.
Lemma framed_value_or_default {V} `{!AnyVal V} sc k :
  framed (value_or_default (E := E) (V := V) sc k).
Proof. unfold value_or_default, downcast, value_set. solve_framed. Qed.
Lemma framed_typed_get {T} `{!Cbor T} r k : framed (typed_get (E := E) (T := T) r k).
Proof. unfold typed_get. solve_framed. Qed.
Lemma framed_typed_iter {K V} `{!Cbor V} (tf : bytes → string + K) (d : V) r :
  framed (typed_iter (E := E) tf d r).
Proof. unfold typed_iter, typed_item. solve_framed. Qed.
Lemma framed_params {T} `{!Cbor T} name (d : T) : framed (params (E := E) name d).
Proof. unfold params, typed_get. solve_framed. Qed.
Lemma framed_set_params {T} `{!Cbor T} name (p : T) : framed (set_params (E := E) name p).
Proof. unfold set_params. solve_framed. Qed.
Lemma framed_with_env {A} (f : Environment → A) : framed (with_env (E := E) f).
Proof. unfold with_env. solve_framed. Qed.
Lemma framed_with_tx_env {A} (f : Environment → option A) : framed (with_tx_env (E := E) f).
Proof. unfold with_tx_env. solve_framed. Qed.
Lemma framed_emit_event etag : framed (emit_event_raw (E := E) etag).
Proof. intros s Hs. by apply frame_fields. Qed.
Lemma framed_emit_unconditional_event etag : framed (emit_unconditional_event (E := E) etag).
Proof. intros s Hs. by apply frame_fields. Qed.
Lemma framed_emit_message n msg hook : framed (emit_message n msg hook).
Proof. intros s Hs. unfold emit_message. run_simpl. case_match; [by apply frame_refl|by apply frame_fields]. Qed.
Lemma framed_take_messages : framed (take_messages (E := E)).
Proof. intros s Hs. by apply frame_fields. Qed.
Lemma framed_take_events : framed (take_events (E := E)).
Proof. intros s Hs. by apply frame_fields. Qed.
Lemma framed_take_unconditional_events : framed (take_unconditional_events (E := E)).
Proof. intros s Hs. by apply frame_fields. Qed.
Lemma framed_take_all_events : framed (take_all_events (E := E)).
Proof. intros s Hs. by apply frame_fields. Qed.
End frames_ops.
#[export] Hint Resolve framed_value_get framed_value_set framed_value_take framed_value_or_default
  framed_typed_get framed_typed_iter framed_params framed_set_params framed_with_env
  framed_with_tx_env framed_emit_event framed_emit_unconditional_event framed_emit_message
  framed_take_messages framed_take_events framed_take_unconditional_events
  framed_take_all_events : framed.

(** * Reading the state

    What a typed read of the store and a read of a per-state value return. *)

Section reads.
Context `{Platform} `{!MKVSLaws}.

(** The typed contents of the current store at a key. *)
Definition stored {T} `{!Cbor T} (s : State) (r : StoreRef) (key : bytes) (o : option T) : Prop :=
  ∃ st, st_store s = Some st ∧ store_wf st ∧
    (from_slice <$> get st (ref_prefix r ++ key)) = Some <$> o.

Lemma typed_get_run {E T} `{!Cbor T} s r key (o : option T) :
  stored s r key o → typed_get (E := E) r key s = (Ok o, s).
Proof.
  intros (st & Hst & _ & Hget). unfold typed_get, store. run_simpl. rewrite Hst. simpl.
  rewrite ref_get_key. destruct (get st _) as [d|], o as [x|]; simplify_eq/=; [|done].
  by rewrite Hget.
Qed.

(** A write is read back, and leaves every other key alone. *)
Lemma stored_typed_insert {E T T'} `{!Cbor T, !CborLaws T, !Cbor T'} s r key (v : T) :
  ready s → encodable v →
  ∃ st', typed_insert (E := E) r key v s = (Ok tt, set_store (Some st') s) ∧
    stored (set_store (Some st') s) r key (Some v) ∧
    ∀ r' key' (o : option T'), ref_prefix r' ++ key' ≠ ref_prefix r ++ key →
      stored s r' key' o → stored (set_store (Some st') s) r' key' o.
Proof.
  intros (_ & st & Hst & Hwf & _) Henc. unfold typed_insert, store. run_simpl. rewrite Hst. simpl.
  eexists. split; [done|]. rewrite ref_insert_key. split.
  - eexists. split; [done|]. split; [by apply insert_wf|].
    rewrite get_insert, decide_True by done. simpl. by rewrite cbor_roundtrip.
  - intros r' key' o Hne (st0 & Hst0 & _ & Hget). eexists. split; [done|].
    split; [by apply insert_wf|]. rewrite get_insert, decide_False by done. by simplify_eq.
Qed.

Lemma with_env_bind {E A B} (f : Environment → A) (k : A → M E B) s :
  (with_env f ≫= k) s = k (f (st_env s)) s.
Proof. done. Qed.

(** The value of a per-state value, with the default where it is absent. *)
Definition holds_value {V} `{!AnyVal V} (sc : Scope) (key : string) (s : State) (o : option V) : Prop :=
  any_out <$> values sc s !! key = Some <$> o.

Lemma value_get_run {E V} `{!AnyVal V} sc key s (o : option V) :
  holds_value sc key s o → value_get (E := E) sc key s = (Ok o, s).
Proof.
  unfold holds_value, value_get, downcast. intros Hv. run_simpl.
  destruct (values sc s !! key) as [v|], o as [x|]; simplify_eq/=; [|done]. by rewrite Hv.
Qed.
Lemma value_or_default_run {E V} `{!AnyVal V} sc key s (o : option V) :
  holds_value sc key s o →
  value_or_default (E := E) sc key s =
    (Ok (default any_default o),
     match o with Some _ => s | None => set_values sc (<[key := any_in any_default]> (values sc s)) s end).
Proof.
  unfold holds_value, value_or_default, downcast, value_set. intros Hv. run_simpl.
  destruct (values sc s !! key) as [v|], o as [x|]; simplify_eq/=; [|done]. by rewrite Hv.
Qed.
Lemma value_take_run {E V} `{!AnyVal V} sc key s (o : option V) :
  holds_value sc key s o →
  value_take (E := E) sc key s =
    (Ok o, match o with Some _ => set_values sc (delete key (values sc s)) s | None => s end).
Proof.
  unfold holds_value, value_take, downcast. intros Hv. run_simpl.
  destruct (values sc s !! key) as [v|], o as [x|]; simplify_eq/=; [|done]. by rewrite Hv.
Qed.
Lemma holds_value_set {V} `{!AnyVal V} sc key s (v : V) :
  holds_value sc key (set_values sc (<[key := any_in v]> (values sc s)) s) (Some v).
Proof.
  unfold holds_value. destruct sc; simpl; rewrite lookup_insert_eq; simpl; by rewrite any_out_in.
Qed.
End reads.

(** [holds_n]: an integer value, zero where it is absent. *)
Definition holds_n `{Platform} (sc : Scope) (key : string) (s : State) (n : N) : Prop :=
  ∃ o : option N, holds_value sc key s o ∧ n = default 0%N o.

(** * Iterating over a typed table

    When a prefix holds exactly the entries of a map, under an injective key that the key conversion
    inverts, iterating over the prefix yields exactly the entries of the map. *)
Section typed_tables.
Context `{Platform} `{!MKVSLaws} {E K V : Type} `{Countable K} `{!Cbor V, !CborLaws V}.

Lemma map_m_run {A B} (f : A → M E B) (g : A → B) l s :
  (∀ x, x ∈ l → f x s = (Ok (g x), s)) → map_m f l s = (Ok (g <$> l), s).
Proof.
  induction l as [|x l IH]; intros Hf; simpl; [done|].
  rewrite (bind_ok _ _ _ _ _ (Hf x ltac:(left))).
  rewrite (bind_ok _ _ _ _ _ (IH ltac:(intros y Hy; apply Hf; by right))). done.
Qed.

Variables (tf : bytes → string + K) (dflt : V) (key : K → bytes) (valid : K → Prop).
Hypothesis (tf_key : ∀ k, valid k → tf (key k) = inr k).

(** Entries in the order of their keys. *)
Definition key_lt (x y : K * V) : Prop := bytes_lt (key x.1) (key y.1).

Lemma key_sorted_nodup (l : list (K * V)) : StronglySorted key_lt l → NoDup l.*1.
Proof.
  induction 1 as [|x l Hs IH Hall]; [constructor|]. rewrite fmap_cons. constructor; [|done].
  intros (y & Heq & Hy)%list_elem_of_fmap. rewrite Forall_forall in Hall. specialize (Hall y Hy).
  unfold key_lt in Hall. rewrite Heq in Hall. by apply (irreflexivity bytes_lt (key y.1)).
Qed.

(** The typed entries of sorted raw entries. *)
Lemma items_sorted (g : bytes * bytes → option (K * V)) (b : list (bytes * bytes)) :
  (∀ x, x ∈ b → ∃ k v, x.1 = key k ∧ g x = Some (k, v)) → StronglySorted entry_lt b →
  StronglySorted key_lt (omap g b).
Proof.
  intros Hg Hs. induction Hs as [|x b Hs IH Hall]; [constructor|]. simpl.
  destruct (Hg x ltac:(left)) as (k & v & Hxk & ->). constructor; [apply IH; intros y Hy; apply Hg; by right|].
  apply Forall_forall. intros z (y & Hy & Hgy)%list_elem_of_omap. rewrite Forall_forall in Hall.
  destruct (Hg y ltac:(by right)) as (k' & v' & Hyk & Hgy'). rewrite Hgy' in Hgy. injection Hgy as <-.
  specialize (Hall y Hy). unfold entry_lt in Hall. unfold key_lt. simpl. by rewrite <-Hxk, <-Hyk.
Qed.

Lemma typed_iter_valid s st r p (m : gmap K V) :
  st_store s = Some st → store_wf st → (∀ k, is_Some (m !! k) → valid k) →
  (∀ k, valid k → from_slice <$> get st ((ref_prefix r ++ p) ++ key k) = Some <$> m !! k) →
  (∀ b, is_Some (get st ((ref_prefix r ++ p) ++ b)) → ∃ k, valid k ∧ b = key k) →
  ∃ l, typed_iter (E := E) tf dflt (PrefixStore r p) s = (Ok l, s) ∧ StronglySorted key_lt l ∧
    (∀ k v, (k, v) ∈ l ↔ m !! k = Some v) ∧ list_to_map (reverse l) = m.
Proof.
  intros Hst Hwf Hdom Hm Hkeys.
  set (P := ref_prefix r ++ p) in *. set (b := below P (view st)).
  assert (Hb : ∀ k v, (k, v) ∈ b ↔ get st (P ++ k) = Some v).
  { intros k v. unfold b. rewrite elem_of_below. by rewrite view_lookup. }
  set (g := λ x : bytes * bytes, match tf x.1, from_slice x.2 with
                                 | inr k, Some v => Some (k, v) | _, _ => None end).
  assert (Hbk : ∀ x, x ∈ b → ∃ k v, x.1 = key k ∧ valid k ∧ m !! k = Some v ∧
                                    from_slice x.2 = Some v ∧ g x = Some (k, v)).
  { intros [k v] Hx%Hb. destruct (Hkeys k) as (k' & Hv' & ->); [by eexists|]. specialize (Hm k' Hv').
    rewrite Hx in Hm. simpl in Hm. destruct (m !! k') as [y|] eqn:Hy; simplify_eq/=. exists k', y.
    do 4 (split; [done|]). unfold g. simpl. by rewrite tf_key, Hm. }
  assert (Hrun : map_m (typed_item (E := E) tf dflt) b s = (Ok (omap g b), s)).
  { clearbody b. clear Hb. induction b as [|x b IH]; [done|].
    destruct (Hbk x ltac:(left)) as (k & v & Hxk & Hvk & _ & Hxv & Hgx).
    assert (Hitem : typed_item (E := E) tf dflt x s = (Ok (k, v), s)).
    { unfold typed_item. rewrite Hxk, tf_key by done. rewrite ret_bind.
      rewrite bool_decide_eq_false_2; [by rewrite Hxv|]. intros Hnil.
      rewrite Hnil, cbor_empty in Hxv. done. }
    cbn [map_m]. rewrite (bind_ok _ _ _ _ _ Hitem).
    rewrite (bind_ok _ _ _ _ _ (IH ltac:(intros y Hy; apply Hbk; by right))).
    simpl. by rewrite Hgx. }
  exists (omap g b).
  assert (Hl : ∀ k v, (k, v) ∈ omap g b ↔ m !! k = Some v).
  { intros k v. rewrite list_elem_of_omap. split.
    - intros (x & Hx & Hg). destruct (Hbk x Hx) as (k' & v' & _ & _ & Hmk & _ & Hgx).
      rewrite Hgx in Hg. by simplify_eq.
    - intros Hmk. assert (Hvk : valid k) by (apply Hdom; by eexists). specialize (Hm k Hvk). rewrite Hmk in Hm.
      destruct (get st (P ++ key k)) as [d|] eqn:Hd; simplify_eq/=. exists (key k, d).
      split; [by apply Hb|]. unfold g. simpl. by rewrite tf_key, Hm. }
  assert (Hs : StronglySorted key_lt (omap g b)).
  { apply items_sorted; [|apply below_sorted]. intros x Hx.
    destruct (Hbk x Hx) as (k & v & ? & _ & _ & _ & ?). by exists k, v. }
  split; [|split; [done|split; [done|]]].
  - unfold typed_iter, store. run_simpl. rewrite Hst. rewrite ref_collect_below by done. exact Hrun.
  - apply map_eq. intros k. apply option_eq. intros v. rewrite <-Hl.
    rewrite <-elem_of_list_to_map.
    + by rewrite elem_of_reverse.
    + rewrite fmap_reverse, reverse_Permutation. by apply key_sorted_nodup.
Qed.
End typed_tables.

(** The same for tables in which every key of the type is valid. *)
Lemma typed_iter_run `{Platform} `{!MKVSLaws} {E K V} `{Countable K} `{!Cbor V, !CborLaws V}
    (tf : bytes → string + K) (dflt : V) (key : K → bytes) (tf_key : ∀ k, tf (key k) = inr k)
    s st r p (m : gmap K V) :
  st_store s = Some st → store_wf st →
  (∀ k, from_slice <$> get st ((ref_prefix r ++ p) ++ key k) = Some <$> m !! k) →
  (∀ b, is_Some (get st ((ref_prefix r ++ p) ++ b)) → ∃ k, b = key k) →
  ∃ l, typed_iter (E := E) tf dflt (PrefixStore r p) s = (Ok l, s) ∧ NoDup l.*1 ∧
    (∀ k v, (k, v) ∈ l ↔ m !! k = Some v) ∧ list_to_map (reverse l) = m.
Proof.
  intros Hst Hwf Hm Hkeys.
  destruct (typed_iter_valid (E := E) tf dflt key (λ _, True) ltac:(done) s st r p m Hst Hwf)
    as (l & Hrun & Hs & Hl & Hmap); [done|done|naive_solver|].
  exists l. split; [done|]. split; [by eapply key_sorted_nodup|done].
Qed.
