(* ===== verification/Concrete.v ===== *)
(** A concrete platform, on which the theorems are instantiated: finite maps for the root store, a
    toy hash, signatures that are their key, and a bit encoding for serialization. *)
From S2P Require Import Prelude Storage StoreIter Types Fee Errors State Current.

Definition toy_digest (l : list bytes) : Hash :=
  default (exist _ (replicate 32 x00) eq_refl)
    (bytes_n_of 32 (take 32 (reverse (concat l) ++ replicate 32 x00))).

#[local] Instance toy_mkvs : MKVS := gmap_mkvs.

#[local] Instance toy_crypto : Crypto := {
  Value := bytes;
  value_null := [];
  digest := toy_digest;
  to_eth_address b := default (exist _ (replicate 20 x00) eq_refl)
                        (bytes_n_of 20 (take 20 (b ++ replicate 20 x00)));
  verify_signature pk _ _ sig :=
    match pk with Ed25519 k | Secp256k1 k | Secp256r1 k | Secp384r1 k | Sr25519 k => bool_decide (k = sig) end;
  chain_context_for c := c;
}.

#[local] Instance toy_codec : TxCodec := {
  tx_to_vec _ := [];
  tx_from_slice _ := None;
  config_to_vec c := (λ s, match ms_public_key s with
    Ed25519 k | Secp256k1 k | Secp256r1 k | Secp384r1 k | Sr25519 k => hd x00 k end) <$> ms_signers c;
}.

#[local] Instance toy_platform : Platform := {
  Message := bytes;
  MessageEvent := N;
  message_event_index i := i;
  Transcript := list bytes;
  transcript_new c := [c];
  transcript_append t l m := t ++ [l; m];
  TranscriptRng := N;
}.

#[local] Instance toy_mkvs_laws : @MKVSLaws (@pf_mkvs toy_platform) := gmap_mkvs_laws.

(** * A bit encoding of countable types *)

Fixpoint bits (p : positive) : bytes :=
  match p with xH => [] | xO p => x00 :: bits p | xI p => x01 :: bits p end.
Fixpoint unbits (l : bytes) : option positive :=
  match l with
  | [] => Some xH
  | x00 :: l => xO <$> unbits l
  | x01 :: l => xI <$> unbits l
  | _ => None
  end.
Lemma unbits_bits p : unbits (bits p) = Some p.
Proof. induction p as [p IH|p IH|]; simpl; by rewrite ?IH. Qed.

Definition toy_cbor {T} `{Countable T} (P : T → Prop) `{!∀ x, Decision (P x)} : Cbor T := {|
  to_vec x := x01 :: bits (encode x);
  from_slice b :=
    match b with
    | x01 :: l => p ← unbits l; x ← decode p; if bool_decide (P x) then Some x else None
    | _ => None
    end;
  encodable := P;
|}.

Lemma toy_cbor_laws {T} `{Countable T} (P : T → Prop) `{!∀ x, Decision (P x)} :
  @CborLaws T (toy_cbor P).
Proof.
  split; simpl.
  - intros x Hx. simpl. rewrite unbits_bits. simpl. rewrite decode_encode. simpl. by rewrite bool_decide_eq_true_2.
  - intros [|[] l] x; try done. intros (p & _ & (y & _ & Hy)%bind_Some)%bind_Some.
    case_bool_decide; by simplify_eq.
  - done.
Qed.

Definition toy_u128 : Cbor N := toy_cbor (λ n, (n ≤ u128_max)%N).

Lemma toy_ready mode : ready (root_state mode (MKVSStore (∅ : gmap bytes bytes))).
Proof.
  split; [by eexists|]. eexists. split; [done|]. split; [|by eexists].
  by apply new_overlay_wf.
Qed.
