(* ===== verification/Transactions.v ===== *)
(** What a state transaction does to the state it runs on: the exact result of
    [CurrentState::with_transaction_opts] for every way in which the closure can end, isolation and
    atomicity (src/runtime-sdk/src/state.rs). *)
From S2P Require Import Prelude Storage StoreIter Types Fee Errors State Current Concrete.

Section transactions.
Context `{Platform} `{!MKVSLaws}.

(** * The state a transaction starts in *)

(** Modes whose updates are always discarded. *)
Definition discards (opts : Options) : bool :=
  match o_mode opts with Some PreSchedule | Some Simulate => true | _ => false end.
(** Options under which the block values are hidden. *)
Definition hides (opts : Options) : bool := discards opts || default false (o_internal opts).

Definition opts_env (opts : Options) (env : Environment) : Environment :=
  {| env_mode := default (env_mode env) (o_mode opts);
     env_tx := match o_tx opts with Some tx => Some tx | None => env_tx env end;
     env_internal := default (env_internal env) (o_internal opts) |}.

(** The generator after the transaction and the local entropy entered it. *)
Definition opts_rng (opts : Options) (r : RootRng) : RootRng :=
  let r := match o_tx opts with Some tx => append_tx (twm_hash tx) r | None => r end in
  match o_rng_local_entropy opts with Some e => append_local_entropy e r | None => r end.

Definition no_rng (opts : Options) (s : State) : bool :=
  is_pre_schedule (opts_env opts (st_env s)).

Definition opened (opts : Options) (s : State) (r : RootRng) : State :=
  MkState
    (Some (set_rng None (set_block_values ∅ (set_store None s))))
    (new_overlay <$> st_store s) ∅ ∅ []
    (if hides opts then ∅ else st_block_values s)
    (if hides opts then Some (st_block_values s) else None)
    ∅
    (Some (if no_rng opts s then root_rng_invalid else append_subcontext (opts_rng opts r)))
    (if no_rng opts s then Some (opts_rng opts r) else None)
    (opts_env opts (st_env s)) (discards opts).

Lemma init_open {E} opts s r :
  st_rng s = Some r → init (E := E) opts (open s) = (Ok tt, opened opts s r).
Proof.
  intros Hr. destruct s as [p st ev uev ms bv hbv lv rng hrng [m tx i] ar]; simpl in Hr; subst rng.
  destruct opts as [om otx oi oe]. unfold opened, hides, discards, no_rng, opts_rng. simpl.
  destruct om as [[]|], otx as [t|], oi as [[]|], oe as [e|]; try reflexivity;
    destruct m; reflexivity.
Qed.

Lemma opened_ready opts s r : ready s → ready (opened opts s r).
Proof.
  intros (_ & st & Hst & Hwf & _). split; [by eexists|]. simpl. rewrite Hst.
  eexists. split; [done|]. split; [by apply new_overlay_wf|by eexists].
Qed.

(** * The state it leaves behind *)

Definition closed_block_values (opts : Options) (s child : State) : gmap string AnyValue :=
  if hides opts then st_block_values s else st_block_values child.
Definition closed_rng (opts : Options) (s child : State) (r : RootRng) : option RootRng :=
  if no_rng opts s then Some (opts_rng opts r) else st_rng child.

Definition rolled_back (opts : Options) (s child : State) (r : RootRng) : State :=
  set_rng (closed_rng opts s child r) (set_block_values (closed_block_values opts s child) s).

Definition committed (opts : Options) (s child : State) (r : RootRng) : State :=
  set_unconditional_events
    (merge_events (st_unconditional_events s) (st_unconditional_events child))
  (set_events (merge_events (st_events s) (st_events child))
  (set_messages (st_messages s ++ st_messages child)
  (set_store (commit <$> st_store child) (rolled_back opts s child r)))).

Lemma commit_items_base l st d :
  is_Some (overlay_base st) → overlay_base (foldl commit_item (st, d) l).1 = overlay_base st.
Proof.
  revert st d. induction l as [|x l IH]; intros st d Hb; simpl; [done|].
  unfold commit_item at 2. simpl. rewrite IH; by destruct st; [destruct Hb|].
Qed.
Lemma removes_base ks st : is_Some (overlay_base st) → overlay_base (foldl remove_ st ks) = overlay_base st.
Proof.
  revert st. induction ks as [|k ks IH]; intros st Hb; simpl; [done|].
  destruct st as [|p o d]; simpl in *; [by destruct Hb|]. case_decide; by rewrite IH.
Qed.

(** Committing an overlay over an overlay gives back an overlay over the same base: the unchecked
    cast of [convert_store] is safe. *)
Lemma commit_base st base :
  overlay_base st = Some base → is_Some (overlay_base base) →
  overlay_base (commit st) = overlay_base base.
Proof.
  destruct st as [|p o d]; [done|]. intros [= ->] Hb. simpl. unfold commit_overlay.
  pose proof (commit_items_base (btree_iter o) base d Hb) as Hi.
  destruct (foldl commit_item _ _) as [st' d']; simpl in *. rewrite removes_base; congruence.
Qed.

Lemma convert_overlay st : is_Some (overlay_base st) → convert_store st = Some st.
Proof. destruct st; [by intros []|done]. Qed.

Lemma framed_child_store opts s r child :
  ready s → frame (opened opts s r) child →
  ∃ st cst, st_store s = Some st ∧ st_store child = Some cst ∧ store_wf cst ∧ store_wf st ∧
    overlay_base cst = Some st ∧ is_Some (overlay_base st).
Proof.
  intros (_ & st & Hst & Hwf & Hb) [_ _ _ _ _ Hbase (_ & cst & Hcst & Hcwf & _)].
  exists st, cst. split; [done|]. split; [done|]. split; [done|]. split; [done|]. split; [|done].
  rewrite Hcst in Hbase. simpl in Hbase. by rewrite Hbase, Hst.
Qed.

Lemma rollback_child {E} opts s r child :
  ready s → frame (opened opts s r) child →
  rollback_state (E := E) child = (Ok tt, rolled_back opts s child r).
Proof.
  intros Hs Hf. destruct (framed_child_store _ _ _ _ Hs Hf) as (st & cst & Hst & Hcst & _ & _ & Hb & Hbb).
  destruct Hf as [Hp _ _ Hh Hhr _ _]. unfold rollback_state, return_store. run_simpl.
  rewrite Hp, Hcst. simpl. destruct cst as [|p o d]; simplify_eq/=.
  rewrite convert_overlay by done. run_simpl. f_equal.
  unfold put_back, rolled_back, closed_rng, closed_block_values. rewrite Hh, Hhr. simpl.
  destruct s; simpl in *; subst. destruct (hides opts), (no_rng opts _); done.
Qed.

Lemma commit_child {E} opts s r child :
  ready s → frame (opened opts s r) child →
  commit_state (E := E) child =
    (Ok tt, if discards opts then rolled_back opts s child r else committed opts s child r).
Proof.
  intros Hs Hf. unfold commit_state. run_simpl. rewrite (fr_always_rollback _ _ Hf). simpl.
  destruct (discards opts) eqn:Hd; [by apply rollback_child|].
  destruct (framed_child_store _ _ _ _ Hs Hf) as (st & cst & Hst & Hcst & _ & _ & Hb & Hbb).
  destruct Hf as [Hp _ _ Hh Hhr _ _]. unfold commit_, return_store. run_simpl.
  rewrite Hp, Hcst. simpl. rewrite convert_overlay by (by rewrite (commit_base _ _ Hb Hbb)).
  run_simpl. f_equal. unfold committed. rewrite Hcst. simpl.
  unfold put_back, rolled_back, closed_rng, closed_block_values. rewrite Hh, Hhr.
  destruct s; simpl in *; subst. destruct (hides opts), (no_rng opts _); done.
Qed.

Lemma level_parent s : level s = match st_parent s with Some p => S (level p) | None => 0 end.
Proof. by destruct s. Qed.

Lemma drop_guard_closed {E R} opts s r (o : Outcome E R) s' :
  st_parent s' = st_parent s → drop_guard (level (opened opts s r)) o s' = (o, s').
Proof.
  intros Hp. unfold drop_guard. rewrite bool_decide_eq_false_2; [done|].
  rewrite (level_parent s'), Hp. destruct s as [[p|] ? ? ? ? ? ? ? ? ? ? ?]; simpl; lia.
Qed.

(** * The result of a transaction, for every end of the closure. *)
Lemma with_transaction_at {E R} opts (f : M E (TransactionResult R)) s r o child :
  ready s → st_rng s = Some r → f (opened opts s r) = (o, child) → frame (opened opts s r) child →
  with_transaction_opts opts f s =
    match o with
    | Ok (Commit x) =>
        (Ok x, if discards opts then rolled_back opts s child r else committed opts s child r)
    | Ok (Rollback x) => (Ok x, rolled_back opts s child r)
    | Err e => (Err e, rolled_back opts s child r)
    | Panic p => (Panic p, rolled_back opts s child r)
    end.
Proof.
  intros Hs Hr Hrun Hfr. unfold with_transaction_opts. rewrite (init_open _ _ _ Hr), Hrun.
  pose proof (rollback_child (E := E) _ _ _ _ Hs Hfr) as Hrb.
  destruct o as [[x|x]|e|p].
  - rewrite (commit_child _ _ _ _ Hs Hfr). by rewrite drop_guard_closed by (by destruct (discards opts)).
  - by rewrite Hrb, drop_guard_closed.
  - by rewrite Hrb, drop_guard_closed.
  - unfold drop_guard. rewrite bool_decide_eq_true_2; [by rewrite Hrb|].
    by rewrite level_parent, (level_parent (opened opts s r)), (fr_parent _ _ Hfr).
Qed.
Lemma with_transaction_run {E R} opts (f : M E (TransactionResult R)) s r o child :
  ready s → st_rng s = Some r → framed f → f (opened opts s r) = (o, child) →
  with_transaction_opts opts f s =
    match o with
    | Ok (Commit x) =>
        (Ok x, if discards opts then rolled_back opts s child r else committed opts s child r)
    | Ok (Rollback x) => (Ok x, rolled_back opts s child r)
    | Err e => (Err e, rolled_back opts s child r)
    | Panic p => (Panic p, rolled_back opts s child r)
    end.
Proof.
  intros Hs Hr Hf Hrun. apply with_transaction_at; [done..|].
  pose proof (Hf _ (opened_ready opts s r Hs)) as Hfr. by rewrite Hrun in Hfr.
Qed.

Lemma ready_rng s : ready s → ∃ r, st_rng s = Some r.
Proof. by intros [[r ?] _]; exists r. Qed.

Lemma closed_rng_some opts s r child :
  frame (opened opts s r) child → is_Some (closed_rng opts s child r).
Proof. intros [_ _ _ _ _ _ [? _]]. unfold closed_rng. case_match; [by eexists|done]. Qed.

Lemma rolled_back_frame opts s r child :
  ready s → frame (opened opts s r) child → frame s (rolled_back opts s child r).
Proof.
  intros Hs Hf. constructor; try done. split; [by apply closed_rng_some|]. by destruct Hs.
Qed.
Lemma committed_frame opts s r child :
  ready s → frame (opened opts s r) child → frame s (committed opts s child r).
Proof.
  intros Hs Hf. destruct (framed_child_store _ _ _ _ Hs Hf) as (st & cst & Hst & Hcst & Hwf & _ & Hb & Hbb).
  constructor; try done; simpl.
  - rewrite Hst, Hcst. simpl. by rewrite (commit_base _ _ Hb Hbb).
  - split; [by apply closed_rng_some|]. simpl. rewrite Hcst. eexists. split; [done|].
    split; [by apply commit_wf|]. by rewrite (commit_base _ _ Hb Hbb).
Qed.

Lemma framed_with_transaction_opts {E R} opts (f : M E (TransactionResult R)) :
  framed f → framed (with_transaction_opts opts f).
Proof.
  intros Hf s Hs. destruct (ready_rng s Hs) as [r Hr].
  destruct (f (opened opts s r)) as [o child] eqn:Hrun.
  rewrite (with_transaction_run _ _ _ _ _ _ Hs Hr Hf Hrun).
  pose proof (Hf _ (opened_ready opts s r Hs)) as Hfr. rewrite Hrun in Hfr. simpl in Hfr.
  pose proof (rolled_back_frame _ _ _ _ Hs Hfr). pose proof (committed_frame _ _ _ _ Hs Hfr).
  destruct o as [[x|x]|e|p]; simpl; [|done..]. by destruct (discards opts).
Qed.
End transactions.
#[export] Hint Resolve framed_with_transaction_opts : framed.

(** The contents of the current store. *)
Definition kv `{MKVS} (st : option Store) : gmap bytes bytes := from_option view ∅ st.

Section views.
Context `{Platform} `{!MKVSLaws}.

Lemma view_new_overlay st : store_wf st → view (new_overlay st) = view st.
Proof.
  intros Hwf. apply map_eq. intros k. rewrite !view_lookup by (done || by apply new_overlay_wf).
  simpl. by rewrite decide_False by set_solver.
Qed.
Lemma view_commit st : store_wf st → view (commit st) = view st.
Proof.
  intros Hwf. apply map_eq. intros k. rewrite !view_lookup by (done || by apply commit_wf).
  by apply get_commit.
Qed.
Lemma kv_opened opts s r : ready s → kv (st_store (opened opts s r)) = kv (st_store s).
Proof. intros (_ & st & Hst & Hwf & _). simpl. rewrite Hst. by apply view_new_overlay. Qed.
Lemma merge_events_lookup es es' k :
  merge_events es es' !! k = union_with (λ a b, Some (a ++ b)) (es !! k) (es' !! k).
Proof. unfold merge_events, EventTags in *. apply lookup_union_with. Qed.
(** A store without pending updates reads as the one below it. *)
Lemma pending_free_view cst st :
  store_wf cst → has_pending_updates cst = false → overlay_base cst = Some st → view cst = view st.
Proof.
  destruct cst as [|p o d]; [done|]. simpl. intros [Hdom _] Hd [= ->].
  apply negb_false_iff, bool_decide_eq_true in Hd. subst d.
  assert (o = ∅) as -> by (apply dom_empty_inv_L; set_solver).
  rewrite (left_id_L ∅ (∪)). apply map_filter_id. intros k x _. simpl. set_solver.
Qed.
End views.

Module Atomicity.
Section claims.
Context `{Platform} `{!MKVSLaws} {E R : Type}.

(** C32. A transaction that is not committed leaves no trace: when the closure asks for a
    rollback, fails or panics, or the mode is one whose updates are always discarded (simulation
    and pre-schedule), the state afterwards is exactly the state before (store, events, messages,
    local values, environment, parents), except for the block values and the random number
    generator; and the block values are unchanged too when the options hide them. *)
Theorem rollback_restores opts (f : M E (TransactionResult R)) s r o child :
  ready s → st_rng s = Some r → framed f → f (opened opts s r) = (o, child) →
  discards opts = true ∨ (∀ x, o ≠ Ok (Commit x)) →
  ∃ bv rng, (with_transaction_opts opts f s).2 = set_rng rng (set_block_values bv s) ∧
    bv = if hides opts then st_block_values s else st_block_values child.
Proof.
  intros Hs Hr Hf Hrun Hno. rewrite (with_transaction_run _ _ _ _ _ _ Hs Hr Hf Hrun).
  exists (closed_block_values opts s child), (closed_rng opts s child r). split; [|done].
  destruct o as [[x|x]|e|p]; simpl; try done.
  destruct Hno as [->|Hno]; [done|]. by destruct (Hno x).
Qed.

(** A committed transaction publishes exactly what the closure did: the contents of the store
    are those of the child, messages are appended in order, events are appended per key, the
    outcome is the closure's, and nothing else of the state changes but the block values and the
    generator.  The closure itself started from the contents of the parent's store and from
    empty events, messages and local values. *)
Theorem commit_publishes opts (f : M E (TransactionResult R)) s r x child :
  ready s → st_rng s = Some r → framed f → discards opts = false →
  f (opened opts s r) = (Ok (Commit x), child) →
  ∃ s', with_transaction_opts opts f s = (Ok x, s') ∧
    kv (st_store (opened opts s r)) = kv (st_store s) ∧
    kv (st_store s') = kv (st_store child) ∧
    st_messages s' = st_messages s ++ st_messages child ∧
    (∀ k, st_events s' !! k =
       union_with (λ a b, Some (a ++ b)) (st_events s !! k) (st_events child !! k)) ∧
    (∀ k, st_unconditional_events s' !! k =
       union_with (λ a b, Some (a ++ b)) (st_unconditional_events s !! k)
         (st_unconditional_events child !! k)) ∧
    st_local_values s' = st_local_values s ∧ st_env s' = st_env s ∧ st_parent s' = st_parent s ∧
    st_block_values s' = (if hides opts then st_block_values s else st_block_values child) ∧
    ready s'.
Proof.
  intros Hs Hr Hf Hd Hrun. eexists. split; [by rewrite (with_transaction_run _ _ _ _ _ _ Hs Hr Hf Hrun)|].
  pose proof (Hf _ (opened_ready opts s r Hs)) as Hfr. rewrite Hrun in Hfr. simpl in Hfr.
  rewrite Hd. split; [by apply kv_opened|].
  destruct (framed_child_store _ _ _ _ Hs Hfr) as (st & cst & Hst & Hcst & Hwf & _).
  split; [simpl; rewrite Hcst; by apply view_commit|].
  split; [done|]. split; [intros k; apply merge_events_lookup|].
  split; [intros k; apply merge_events_lookup|]. do 4 (split; [done|]).
  apply (committed_frame _ _ _ _ Hs Hfr).
Qed.

(** A transaction never adds a panic of its own: it panics only if the closure does.  In
    particular the guard never rolls back twice, and the unchecked cast of the parent store on
    commit and rollback is only ever applied to an overlay store. *)
Theorem transaction_outcome opts (f : M E (TransactionResult R)) s r :
  ready s → st_rng s = Some r → framed f →
  (with_transaction_opts opts f s).1 =
    match (f (opened opts s r)).1 with
    | Ok (Commit x) | Ok (Rollback x) => Ok x
    | Err e => Err e
    | Panic p => Panic p
    end.
Proof.
  intros Hs Hr Hf. destruct (f (opened opts s r)) as [o child] eqn:Hrun.
  rewrite (with_transaction_run _ _ _ _ _ _ Hs Hr Hf Hrun). by destruct o as [[]|?|?].
Qed.
End claims.

(** A transaction that writes a key, emits an event and sets a block value, on the concrete
    platform. *)
#[local] Existing Instances toy_platform toy_mkvs_laws toy_u128.

Definition sample (result : TransactionResult unit) : M Empty_set (TransactionResult unit) :=
  typed_insert CurrentStore (str "k") 5%N ;;
  emit_event_raw (etag_for_event "m" 1 (str "e")) ;;
  value_set Block "b" 7%N ;; mret result.
Definition sample_state : State := root_state Execute (MKVSStore (∅ : gmap bytes bytes)).

Lemma sample_framed result : framed (sample result).
Proof. unfold sample. solve_framed. Qed.

Definition sample_opts := with_mode Simulate options_new.

Lemma rollback_restores_witness :
  ∃ bv rng, (with_transaction_opts sample_opts (sample (Commit tt)) sample_state).2 =
    set_rng rng (set_block_values bv sample_state) ∧ bv = ∅.
Proof.
  exact (rollback_restores sample_opts (sample (Commit tt)) sample_state _ _ _
    (toy_ready Execute) eq_refl (sample_framed _) eq_refl (or_introl eq_refl)).
Defined.

Lemma commit_publishes_witness :
  ∃ s', with_transaction_opts options_new (sample (Commit tt)) sample_state = (Ok tt, s') ∧
    kv (st_store s') !! str "k" = Some (to_vec 5%N).
Proof.
  destruct (commit_publishes options_new (sample (Commit tt)) sample_state _ tt _
    (toy_ready Execute) eq_refl (sample_framed _) eq_refl eq_refl) as (s' & Hrun & _ & Hkv & _).
  exists s'. split; [exact Hrun|]. rewrite Hkv. vm_compute. reflexivity.
Defined.

Lemma transaction_outcome_witness :
  (with_transaction_opts options_new (sample (Rollback tt)) sample_state).1 = Ok tt.
Proof.
  exact (transaction_outcome options_new (sample (Rollback tt)) sample_state _
    (toy_ready Execute) eq_refl (sample_framed _)).
Defined.
End Atomicity.
