(* ===== verification/Module.v ===== *)
(** Runtime modules: the context they run in, the handlers of a module, and how a tuple of modules
    composes them (src/runtime-sdk/src/module.rs, context.rs). *)
From S2P Require Import Prelude Storage StoreIter Types Fee Errors State Current Transactions.

(** * Values

    Conversions between [cbor::Value] and the types of arguments and results. *)
Class CborValue `{Crypto} (T : Type) := {
  to_value : T → Value;
  from_value : Value → option T;
}.

(** * Context *)

(** The error of the key manager client: an invalid epoch, or any other failure. *)
Inductive KeyManagerError := InvalidEpoch | OtherKeyManagerError (msg : string).

Section context.
Context `{Platform}.

(** What the node and the consensus layer provide to a batch. *)
Record Ctx := {
  ctx_local_config : gmap string Value;
  (** [get_or_create_ephemeral_keys]: the input private key of a key pair and epoch *)
  ctx_key_manager : option (bytes → N → KeyManagerError + bytes);
  ctx_round : N;
  ctx_epoch : N;
  (** [runtime_round_results]: the entities whose nodes computed well or badly in the last round *)
  ctx_good_compute_entities : list bytes;
  ctx_bad_compute_entities : list bytes;
  ctx_messages : list MessageEvent;
  ctx_max_messages : N;
  (** [now]: the timestamp of the block *)
  ctx_now : N;
}.

Definition is_confidential (ctx : Ctx) : bool := bool_decide (is_Some (ctx_key_manager ctx)).

(** [Context::local_config]: never visible in execution; an uninterpretable value panics. *)
Definition local_config {E T} `{!CborValue T} (ctx : Ctx) (key : string) : M E (option T) :=
  execute ← with_env is_execute;
  if (execute : bool) then mret None
  else match ctx_local_config ctx !! key with
       | None => mret None
       | Some v => x ← expect (from_value v) "Cannot interpret the value of local config";
                   mret (Some x)
       end.

Context `{!CborValue bool} `{!CborValue (list (gmap string bool))}.

Definition should_execute_contracts {E} (ctx : Ctx) : M E bool :=
  mode ← with_env env_mode;
  match mode with
  | Execute => mret true
  | Simulate =>
      allow ← local_config ctx "allow_expensive_queries";
      match allow with
      | Some allow_expensive_queries => mret allow_expensive_queries
      | None => by_sim ← local_config ctx "estimate_gas_by_simulating_contracts";
                mret (default false by_sim)
      end
  | Check_ | PreSchedule => mret false
  end.

(** The first item of the configuration that decides about a method. *)
Fixpoint find_query_config (is_expensive : bool) (method : string)
    (config : list (gmap string bool)) : option bool :=
  match config with
  | [] => None
  | item :: rest =>
      match item !! method with
      | Some b => Some b
      | None =>
          match (if is_expensive then item !! "all_expensive" else None) with
          | Some b => Some b
          | None => match item !! "all" with
                    | Some b => Some b
                    | None => find_query_config is_expensive method rest
                    end
          end
      end
  end.

Definition is_allowed_query {E} (ctx : Ctx) (is_expensive : bool) (method : string) : M E bool :=
  config ← local_config ctx "allowed_queries";
  let config := default [] config in
  allow ← local_config ctx "allow_expensive_queries";
  match allow with
  | Some allow_expensive_queries => mret (negb is_expensive || allow_expensive_queries)
  | None => mret (default (negb is_expensive) (find_query_config is_expensive method config))
  end.
End context.

(** * Handlers *)

Inductive DispatchResult (B R : Type) := Handled (r : R) | Unhandled (b : B).
Arguments Handled {B R} r.
Arguments Unhandled {B R} b.

Inductive AuthDecision := Continue | Stop.

(** A computation that cannot fail, in any error type. *)
Definition lift {S E A} (m : ST S Empty_set A) : ST S E A :=
  map_err (λ e : Empty_set, match e with end) m.

Section handlers.
Context `{Platform}.

Record MessageResult := { mr_event : MessageEvent; mr_context : Value }.

(** The method, transaction, block and invariant handlers of a module. *)
Record Handlers := {
  prefetch : gset bytes → string → Value → AuthInfo →
             DispatchResult Value (RuntimeError + unit) * gset bytes;
  dispatch_call : Ctx → string → Value → M Empty_set (DispatchResult Value CallResult);
  dispatch_query : Ctx → string → Value → M Empty_set (DispatchResult Value (RuntimeError + Value));
  dispatch_message_result :
    Ctx → string → MessageResult → M Empty_set (DispatchResult MessageResult unit);
  is_expensive_query : string → bool;
  is_allowed_private_km_query : string → bool;
  is_allowed_interactive_call : string → bool;
  approve_raw_tx : Ctx → bytes → M CoreError unit;
  approve_unverified_tx : Ctx → UnverifiedTransaction → M CoreError unit;
  decode_tx : Ctx → bytes → bytes → M CoreError (option Transaction);
  authenticate_tx : Ctx → Transaction → M CoreError AuthDecision;
  before_handle_call : Ctx → Call → M CoreError unit;
  before_authorized_call_dispatch : Ctx → Call → M CoreError unit;
  after_handle_call : Ctx → CallResult → M CoreError unit;
  after_dispatch_tx : Ctx → AuthInfo → CallResult → M Empty_set unit;
  begin_block : Ctx → M Empty_set unit;
  end_block : Ctx → M Empty_set unit;
  check_invariants : Ctx → M CoreError unit;
}.

(** The default implementations of the traits. *)
Definition default_handlers : Handlers := {|
  prefetch ps _ body _ := (Unhandled body, ps);
  dispatch_call _ _ body := mret (Unhandled body);
  dispatch_query _ _ args := mret (Unhandled args);
  dispatch_message_result _ _ result := mret (Unhandled result);
  is_expensive_query _ := false;
  is_allowed_private_km_query _ := false;
  is_allowed_interactive_call _ := false;
  approve_raw_tx _ _ := mret tt;
  approve_unverified_tx _ _ := mret tt;
  decode_tx _ _ _ := mret None;
  authenticate_tx _ _ := mret Continue;
  before_handle_call _ _ := mret tt;
  before_authorized_call_dispatch _ _ := mret tt;
  after_handle_call _ _ := mret tt;
  after_dispatch_tx _ _ _ := mret tt;
  begin_block _ := mret tt;
  end_block _ := mret tt;
  check_invariants _ := mret tt;
|}.

(** ** Tuples of modules *)

(** The first module that handles a method. *)
Fixpoint first_handled {B R} (fs : list (B → M Empty_set (DispatchResult B R))) (b : B)
    : M Empty_set (DispatchResult B R) :=
  match fs with
  | [] => mret (Unhandled b)
  | f :: fs' => r ← f b;
                match r with
                | Handled r => mret (Handled r)
                | Unhandled b => first_handled fs' b
                end
  end.

Fixpoint prefetch_all (ms : list Handlers) (ps : gset bytes) (method : string) (body : Value)
    (ai : AuthInfo) : DispatchResult Value (RuntimeError + unit) * gset bytes :=
  match ms with
  | [] => (Unhandled body, ps)
  | m :: ms' => match prefetch m ps method body ai with
                | (Handled r, ps') => (Handled r, ps')
                | (Unhandled body', ps') => prefetch_all ms' ps' method body' ai
                end
  end.

Fixpoint decode_all (ms : list Handlers) (ctx : Ctx) (scheme body : bytes)
    : M CoreError (option Transaction) :=
  match ms with
  | [] => mret None
  | m :: ms' => decoded ← decode_tx m ctx scheme body;
                match decoded with
                | Some tx => mret (Some tx)
                | None => decode_all ms' ctx scheme body
                end
  end.

Fixpoint authenticate_all (ms : list Handlers) (ctx : Ctx) (tx : Transaction)
    : M CoreError AuthDecision :=
  match ms with
  | [] => mret Continue
  | m :: ms' => d ← authenticate_tx m ctx tx;
                match d with
                | Stop => mret Stop
                | Continue => authenticate_all ms' ctx tx
                end
  end.

(** All hooks run, the first error is reported. *)
Fixpoint after_handle_all (ms : list Handlers) (ctx : Ctx) (result : CallResult)
    (first_err : option CoreError) : M CoreError unit :=
  match ms with
  | [] => match first_err with None => mret tt | Some e => throw e end
  | m :: ms' =>
      r ← try_ (after_handle_call m ctx result);
      after_handle_all ms' ctx result
        match r, first_err with
        | inl e, None => Some e
        | _, _ => first_err
        end
  end.

Definition compose (ms : list Handlers) : Handlers := {|
  prefetch := prefetch_all ms;
  dispatch_call ctx method := first_handled ((λ m, dispatch_call m ctx method) <$> ms);
  dispatch_query ctx method := first_handled ((λ m, dispatch_query m ctx method) <$> ms);
  dispatch_message_result ctx name :=
    first_handled ((λ m, dispatch_message_result m ctx name) <$> ms);
  is_expensive_query method := existsb (λ m, is_expensive_query m method) ms;
  is_allowed_private_km_query method := existsb (λ m, is_allowed_private_km_query m method) ms;
  is_allowed_interactive_call method := existsb (λ m, is_allowed_interactive_call m method) ms;
  approve_raw_tx ctx tx := for_each ms (λ m, approve_raw_tx m ctx tx);
  approve_unverified_tx ctx utx := for_each ms (λ m, approve_unverified_tx m ctx utx);
  decode_tx := decode_all ms;
  authenticate_tx := authenticate_all ms;
  before_handle_call ctx call := for_each ms (λ m, before_handle_call m ctx call);
  before_authorized_call_dispatch ctx call :=
    for_each ms (λ m, before_authorized_call_dispatch m ctx call);
  after_handle_call ctx result := after_handle_all ms ctx result None;
  after_dispatch_tx ctx ai result := for_each ms (λ m, after_dispatch_tx m ctx ai result);
  begin_block ctx := for_each ms (λ m, begin_block m ctx);
  end_block ctx := for_each ms (λ m, end_block m ctx);
  check_invariants ctx := for_each ms (λ m, check_invariants m ctx);
|}.

(** ** Dispatching a typed method *)

(** [module::dispatch_call]. *)
Definition dispatch_call_with {E B R} `{!SdkError E, !CborValue B, !CborValue R} (body : Value)
    (f : B → M E R) : M Empty_set (DispatchResult Value CallResult) :=
  match from_value body with
  | None => mret (Handled (into_call_result (InvalidArgument "decode")))
  | Some args =>
      r ← try_ (f args);
      match r with
      | inr value => mret (Handled (CallOk (to_value value)))
      | inl err => mret (Handled (into_call_result err))
      end
  end.

(** [module::dispatch_query]. *)
Definition dispatch_query_with {E B R} `{!SdkError E, !CborValue B, !CborValue R} (body : Value)
    (f : B → M E R) : M Empty_set (DispatchResult Value (RuntimeError + Value)) :=
  match from_value body with
  | None => mret (Handled (inl (into_runtime_error (InvalidArgument "decode"))))
  | Some args =>
      r ← try_ (f args);
      match r with
      | inr value => mret (Handled (inr (to_value value)))
      | inl err => mret (Handled (inl (into_runtime_error err)))
      end
  end.
End handlers.

(** * What modules promise to the dispatcher

    No handler leaves a transaction open, touches the parents or the environment: each of them is
    framed.  The promise is stated once, and a tuple keeps it when its modules do. *)
Class FramedHandlers `{Platform, !MKVSLaws} (h : Handlers) : Prop := {
  framed_dispatch_call ctx m b : framed (dispatch_call h ctx m b);
  framed_dispatch_query ctx m b : framed (dispatch_query h ctx m b);
  framed_dispatch_message_result ctx m r : framed (dispatch_message_result h ctx m r);
  framed_approve_raw_tx ctx tx : framed (approve_raw_tx h ctx tx);
  framed_approve_unverified_tx ctx utx : framed (approve_unverified_tx h ctx utx);
  framed_decode_tx ctx s b : framed (decode_tx h ctx s b);
  framed_authenticate_tx ctx tx : framed (authenticate_tx h ctx tx);
  framed_before_handle_call ctx c : framed (before_handle_call h ctx c);
  framed_before_authorized_call_dispatch ctx c : framed (before_authorized_call_dispatch h ctx c);
  framed_after_handle_call ctx r : framed (after_handle_call h ctx r);
  framed_after_dispatch_tx ctx ai r : framed (after_dispatch_tx h ctx ai r);
  framed_begin_block ctx : framed (begin_block h ctx);
  framed_end_block ctx : framed (end_block h ctx);
  framed_check_invariants ctx : framed (check_invariants h ctx);
}.
#[export] Hint Resolve framed_dispatch_call framed_dispatch_query framed_dispatch_message_result
  framed_approve_raw_tx framed_approve_unverified_tx framed_decode_tx framed_authenticate_tx
  framed_before_handle_call framed_before_authorized_call_dispatch framed_after_handle_call
  framed_after_dispatch_tx framed_begin_block framed_end_block framed_check_invariants : framed.

Section framed_handlers.
Context `{Platform} `{!MKVSLaws}.

Lemma framed_lift {E A} (m : M Empty_set A) : framed m → framed (lift (E := E) m).
Proof. apply framed_map_err. Qed.

Lemma framed_local_config {E T} `{!CborValue T} ctx k :
  framed (local_config (E := E) (T := T) ctx k).
Proof. unfold local_config. solve_framed. Qed.

#[export] Instance default_handlers_framed : FramedHandlers default_handlers.
Proof. split; intros; apply framed_ret. Qed.

Lemma framed_for_each_in {E A} (l : list A) (body : A → M E unit) :
  (∀ x, x ∈ l → framed (body x)) → framed (for_each l body).
Proof.
  induction l as [|x l IH]; intros Hb; [apply framed_ret|]. simpl.
  apply framed_bind; [apply Hb; left|]. intros _. apply IH. intros y Hy. apply Hb. by right.
Qed.

Lemma framed_first_handled {B R} (fs : list (B → M Empty_set (DispatchResult B R))) b :
  Forall (λ f, ∀ b, framed (f b)) fs → framed (first_handled fs b).
Proof.
  intros Hfs. revert b. induction Hfs as [|f fs Hf _ IH]; intros b; simpl; [apply framed_ret|].
  apply framed_bind; [done|]. intros []; [apply framed_ret|apply IH].
Qed.

Lemma framed_after_handle_all ms ctx r e :
  Forall FramedHandlers ms → framed (after_handle_all ms ctx r e).
Proof.
  intros Hms. revert e. induction Hms as [|m ms Hm _ IH]; intros e; simpl; [solve_framed|].
  apply framed_bind; [solve_framed|]. intros x. apply IH.
Qed.

Lemma compose_framed ms : Forall FramedHandlers ms → FramedHandlers (compose ms).
Proof.
  intros Hms.
  assert (Hin : ∀ m, m ∈ ms → FramedHandlers m) by (by apply Forall_forall).
  split; intros; simpl;
    try (apply framed_for_each_in; intros h Hh; pose proof (Hin h Hh); solve_framed);
    try (apply framed_first_handled; rewrite Forall_fmap; eapply Forall_impl; [exact Hms|];
         intros h Hh b'; simpl; solve_framed).
  - clear Hin. induction Hms as [|m ms Hm _ IH]; simpl; [solve_framed|].
    apply framed_bind; [solve_framed|]. intros []; [solve_framed|apply IH].
  - clear Hin. induction Hms as [|m ms Hm _ IH]; simpl; [solve_framed|].
    apply framed_bind; [solve_framed|]. intros []; [apply IH|solve_framed].
  - by apply framed_after_handle_all.
Qed.

Lemma framed_dispatch_call_with {E B R} `{!SdkError E, !CborValue B, !CborValue R} body
    (f : B → M E R) : (∀ a, framed (f a)) → framed (dispatch_call_with body f).
Proof. intros Hf. unfold dispatch_call_with. solve_framed. Qed.
Lemma framed_dispatch_query_with {E B R} `{!SdkError E, !CborValue B, !CborValue R} body
    (f : B → M E R) : (∀ a, framed (f a)) → framed (dispatch_query_with body f).
Proof. intros Hf. unfold dispatch_query_with. solve_framed. Qed.
End framed_handlers.
#[export] Hint Resolve framed_lift framed_local_config framed_dispatch_call_with
  framed_dispatch_query_with : framed.

(** * Properties of the composition *)

Module Tuples.
Section claims.
Context `{Platform}.

(** Reference: run every hook, collect the results, report the first error. *)
Definition first_error (rs : list (CoreError + unit)) : option CoreError :=
  head (omap (λ r, match r with inl e => Some e | inr _ => None end) rs).
Definition run_all_hooks (ms : list Handlers) (ctx : Ctx) (r : CallResult) : M CoreError unit :=
  rs ← map_m (λ m, try_ (after_handle_call m ctx r)) ms;
  match first_error rs with Some e => throw e | None => mret tt end.

(** The after-call hooks of all modules of a tuple run, in order, whether or not earlier ones
    failed, each on the state the previous one left; the error reported is the first one. *)
Theorem after_handle_call_runs_all ms ctx r s :
  after_handle_call (compose ms) ctx r s = run_all_hooks ms ctx r s.
Proof.
  simpl. unfold run_all_hooks.
  assert (Hgen : ∀ e s, after_handle_all ms ctx r e s =
    (rs ← map_m (λ m, try_ (after_handle_call m ctx r)) ms;
     match (match e with Some e => Some e | None => first_error rs end) with
     | Some e => throw e | None => mret tt end) s).
  2:{ apply Hgen. }
  clear s. induction ms as [|m ms IH]; intros e s; simpl.
  - by destruct e.
  - cbv [mbind ST_bind]. unfold try_.
    destruct (after_handle_call m ctx r s) as [[[]|err|p] s']; [| |done]; rewrite IH;
      cbv [mbind ST_bind]; unfold try_; destruct (map_m _ ms s') as [[rs|?|?] ?];
      by destruct e.
Qed.

(** Authentication of a tuple stops at the first module that decides to: when the modules
    before it all let the transaction continue, the modules after it are never consulted. *)
Theorem authenticate_stops ms ms' m ctx tx s s1 s2 :
  authenticate_tx (compose ms) ctx tx s = (Ok Continue, s1) →
  authenticate_tx m ctx tx s1 = (Ok Stop, s2) →
  authenticate_tx (compose (ms ++ m :: ms')) ctx tx s = (Ok Stop, s2).
Proof.
  simpl. revert s. induction ms as [|m0 ms IH]; intros s Hc Hm; simpl in *.
  - injection Hc as <-. by rewrite (bind_ok _ _ _ _ _ Hm).
  - apply bind_ok_inv in Hc as ([] & s0 & H0 & Hc); [|done].
    rewrite (bind_ok _ _ _ _ _ H0). by apply IH.
Qed.
End claims.
End Tuples.
