(* ===== verification/Tables.v ===== *)
(** Typed tables in the store, and the confinement of an operation to the keys of a module.

    A module keeps its state in tables: the entries whose key starts with the name of the module and
    a byte for the table.  [table P key valid m s] says that the entries of the state [s] below the
    prefix [P] are exactly those of the map [m], each under [P ++ key k].  An operation that is
    [confined] to a prefix leaves every key outside of it alone, so that the tables of the other
    modules stay as they are. *)
From S2P Require Import Prelude Endian Storage StoreIter Types Fee Errors State Current Transactions Module.

(** Integers of 64 bits. *)
Definition fits64 (n : N) : Prop := (n ≤ u64_max)%N.

Section tables.
Context `{Platform} `{!MKVSLaws}.

(** What the store of a state holds at a key. *)
Definition at_key (s : State) (k : bytes) : option bytes := st_store s ≫= λ st, get st k.

(** A state with a store that can be written to. *)
Definition writable (s : State) : Prop :=
  ∃ st, st_store s = Some st ∧ store_wf st ∧ is_Some (overlay_base st).

(** Keys that do not start with the prefix are left alone. *)
Definition outside (P : bytes) (s s' : State) : Prop :=
  ∀ k, starts_with k P = false → at_key s' k = at_key s k.
Definition confined {E A} (P : bytes) (m : M E A) : Prop :=
  ∀ s, writable s → writable (m s).2 ∧ outside P s (m s).2.

Lemma outside_refl P s : outside P s s.
Proof. done. Qed.
Lemma outside_trans P s1 s2 s3 : outside P s1 s2 → outside P s2 s3 → outside P s1 s3.
Proof. intros H1 H2 k Hk. by rewrite H2, H1. Qed.
Lemma outside_same P s s' : st_store s' = st_store s → outside P s s'.
Proof. intros Heq k _. unfold at_key. by rewrite Heq. Qed.
Lemma writable_same s s' : st_store s' = st_store s → writable s → writable s'.
Proof. intros Heq. unfold writable. by rewrite Heq. Qed.

(** ** Commands of the monad *)

Lemma confined_id {E A} P (m : M E A) : (∀ s, st_store (m s).2 = st_store s) → confined P m.
Proof. intros Hm s Hs. split; [by apply (writable_same s)|by apply outside_same]. Qed.
Lemma confined_bind {E A B} P (m : M E A) (f : A → M E B) :
  confined P m → (∀ a, confined P (f a)) → confined P (m ≫= f).
Proof.
  intros Hm Hf s Hs. unfold mbind, ST_bind. destruct (Hm s Hs) as [Hw Ho].
  destruct (m s) as [[a|e|p] s']; simpl in *; [|done..].
  destruct (Hf a s' Hw) as [Hw' Ho']. split; [done|]. by eapply outside_trans.
Qed.
Lemma confined_map_err {E E' A} P (g : E → E') (m : M E A) : confined P m → confined P (map_err g m).
Proof. intros Hm s Hs. specialize (Hm s Hs). unfold map_err. by destruct (m s) as [[]]. Qed.
Lemma confined_try {E E' A} P (m : M E A) : confined P m → confined P (try_ (E' := E') m).
Proof. intros Hm s Hs. specialize (Hm s Hs). unfold try_. by destruct (m s) as [[]]. Qed.
Lemma confined_unwrap {E E' A} P msg (m : M E A) :
  confined P m → confined P (unwrap_or_panic (E' := E') msg m).
Proof. intros Hm s Hs. specialize (Hm s Hs). unfold unwrap_or_panic. by destruct (m s) as [[]]. Qed.
Lemma confined_for_each {E A} P (l : list A) (body : A → M E unit) :
  (∀ x, confined P (body x)) → confined P (for_each l body).
Proof.
  intros Hb. induction l as [|x l IH]; [by apply confined_id|]. apply confined_bind; [done|]. by intros _.
Qed.
Lemma confined_fold_m {E A B} P (l : list A) (body : B → A → M E B) b :
  (∀ b x, confined P (body b x)) → confined P (fold_m l b body).
Proof.
  intros Hb. revert b. induction l as [|x l IH]; intros b; [by apply confined_id|].
  apply confined_bind; [done|]. intros b'. apply IH.
Qed.
Lemma confined_modify {E} P (f : State → State) :
  (∀ s, st_store (f s) = st_store s) → confined P (modify (E := E) f).
Proof. intros Hf. by apply confined_id. Qed.

(** ** Access to the store *)

Lemma at_key_insert s st k v k' :
  st_store s = Some st →
  at_key (set_store (Some (insert_ st k v)) s) k' = if decide (k = k') then Some v else at_key s k'.
Proof. intros Hst. unfold at_key. simpl. rewrite get_insert, Hst. done. Qed.
Lemma at_key_remove s st k k' :
  st_store s = Some st → store_wf st →
  at_key (set_store (Some (remove_ st k)) s) k' = if decide (k = k') then None else at_key s k'.
Proof. intros Hst Hwf. unfold at_key. simpl. rewrite get_remove, Hst by done. done. Qed.

Lemma insert_writable s st k v :
  writable s → st_store s = Some st → writable (set_store (Some (insert_ st k v)) s).
Proof.
  intros (st' & Hst' & Hwf & Hb) Hst. rewrite Hst in Hst'. injection Hst' as <-. eexists. split; [done|].
  split; [by apply insert_wf|]. destruct st; [by destruct Hb|done].
Qed.
Lemma remove_writable s st k :
  writable s → st_store s = Some st → writable (set_store (Some (remove_ st k)) s).
Proof.
  intros (st' & Hst' & Hwf & Hb) Hst. rewrite Hst in Hst'. injection Hst' as <-. eexists. split; [done|].
  split; [by apply remove_wf|]. destruct st; [by destruct Hb|]. simpl. by case_decide.
Qed.

(** A write, in terms of the keys. *)
Lemma typed_insert_at {E T} `{!Cbor T} s r k (v : T) :
  writable s →
  ∃ st, st_store s = Some st ∧
    typed_insert (E := E) r k v s =
      (Ok tt, set_store (Some (insert_ st (ref_prefix r ++ k) (to_vec v))) s).
Proof.
  intros (st & Hst & Hwf & Hb). exists st. split; [done|]. unfold typed_insert, store. run_simpl.
  rewrite Hst. simpl. by rewrite ref_insert_key.
Qed.
Lemma typed_remove_at {E} s r k :
  writable s →
  ∃ st, st_store s = Some st ∧ store_wf st ∧
    typed_remove (E := E) r k s = (Ok tt, set_store (Some (remove_ st (ref_prefix r ++ k))) s).
Proof.
  intros (st & Hst & Hwf & Hb). exists st. do 2 (split; [done|]). unfold typed_remove, store. run_simpl.
  rewrite Hst. simpl. by rewrite ref_remove_key.
Qed.

Lemma confined_typed_insert {E T} `{!Cbor T} P r k (v : T) :
  starts_with (ref_prefix r) P = true → confined P (typed_insert (E := E) r k v).
Proof.
  intros HP s Hs. destruct (typed_insert_at (E := E) s r k v Hs) as (st & Hst & ->). simpl.
  split; [by apply insert_writable|]. intros k' Hk'. rewrite at_key_insert by done.
  rewrite decide_False; [done|]. intros <-. apply not_true_iff_false in Hk'. apply Hk'.
  apply starts_with_iff in HP as [r' ->]. rewrite <-app_assoc. apply starts_with_app.
Qed.
Lemma confined_typed_remove {E} P r k :
  starts_with (ref_prefix r) P = true → confined P (typed_remove (E := E) r k).
Proof.
  intros HP s Hs. destruct (typed_remove_at (E := E) s r k Hs) as (st & Hst & Hwf & ->). simpl.
  split; [by apply remove_writable|]. intros k' Hk'. rewrite at_key_remove by done.
  rewrite decide_False; [done|]. intros <-. apply not_true_iff_false in Hk'. apply Hk'.
  apply starts_with_iff in HP as [r' ->]. rewrite <-app_assoc. apply starts_with_app.
Qed.

Lemma map_m_same {E A B} (f : A → M E B) l s :
  (∀ x s, st_store (f x s).2 = st_store s) → st_store (map_m f l s).2 = st_store s.
Proof.
  intros Hf. revert s. induction l as [|x l IH]; intros s; [done|]. cbn [map_m]. unfold mbind, ST_bind.
  pose proof (Hf x s) as Hx. destruct (f x s) as [[y|e|p] s1]; simpl in *; [|done..].
  specialize (IH s1). destruct (map_m f l s1) as [[ys|e|p] s2]; simpl in *; congruence.
Qed.
End tables.

(** The automation of confinement, in the style of that of frames. *)
Create HintDb confined discriminated.

Section confined_ops.
Context `{Platform} `{!MKVSLaws} {E : Type} (P : bytes).

Lemma confined_ret {A} (a : A) : confined P (mret (M := M E) a).
Proof. by apply confined_id. Qed.
Lemma confined_throw {A} (e : E) : confined P (throw (A := A) e).
Proof. by apply confined_id. Qed.
Lemma confined_panic {A} msg : confined P (panic (E := E) (A := A) msg).
Proof. by apply confined_id. Qed.
Lemma confined_get_st : confined P (get_st (E := E)).
Proof. by apply confined_id. Qed.
Lemma confined_gets {A} (f : State → A) : confined P (gets (E := E) f).
Proof. by apply confined_id. Qed.
Lemma confined_expect {A} (o : option A) msg : confined P (expect (E := E) o msg).
Proof. apply confined_id. by destruct o. Qed.
Lemma confined_ok_or {A} (o : option A) (e : E) : confined P (ok_or o e).
Proof. apply confined_id. by destruct o. Qed.
Lemma confined_store : confined P (store (E := E)).
Proof. apply confined_id. intros s. unfold store. run_simpl. by case_match. Qed.
Lemma confined_value_get {V} `{!AnyVal V} sc k : confined P (value_get (E := E) (V := V) sc k).
Proof. apply confined_id. intros s. unfold value_get, downcast. run_simpl. case_run. Qed.
Lemma confined_value_set {V} `{!AnyVal V} sc k (v : V) : confined P (value_set (E := E) sc k v).
Proof. apply confined_id. intros s. by destruct sc. Qed.
Lemma confined_value_take {V} `{!AnyVal V} sc k : confined P (value_take (E := E) (V := V) sc k).
Proof.
  apply confined_id. intros s. unfold value_take, downcast. run_simpl. destruct sc; case_run.
Qed.
Lemma confined_value_or_default {V} `{!AnyVal V} sc k :
  confined P (value_or_default (E := E) (V := V) sc k).
Proof.
  apply confined_id. intros s. unfold value_or_default, downcast, value_set. run_simpl. destruct sc; case_run.
Qed.
Lemma confined_typed_get {T} `{!Cbor T} r k : confined P (typed_get (E := E) (T := T) r k).
Proof. apply confined_id. intros s. unfold typed_get, store. run_simpl. case_run. Qed.
Lemma confined_typed_iter {K V} `{!Cbor V} (tf : bytes → string + K) (d : V) r :
  confined P (typed_iter (E := E) tf d r).
Proof.
  apply confined_id. intros s. unfold typed_iter, store. run_simpl.
  destruct (st_store s) eqn:Hst; [|done]. destruct (ref_collect _ _) as [l|[]|]; [|done]. rewrite <-Hst.
  apply map_m_same. intros x s'. unfold typed_item. run_simpl. case_run.
Qed.
Lemma confined_params {T} `{!Cbor T} name (d : T) : confined P (params (E := E) name d).
Proof. apply confined_bind; [apply confined_typed_get|]. intros. apply confined_ret. Qed.
Lemma confined_with_env {A} (f : Environment → A) : confined P (with_env (E := E) f).
Proof. by apply confined_id. Qed.
Lemma confined_with_tx_env {A} (f : Environment → option A) : confined P (with_tx_env (E := E) f).
Proof. apply confined_id. intros s. unfold with_tx_env. run_simpl. case_run. Qed.
Lemma confined_emit_event etag : confined P (emit_event_raw (E := E) etag).
Proof. by apply confined_id. Qed.
Lemma confined_emit_unconditional_event etag : confined P (emit_unconditional_event (E := E) etag).
Proof. by apply confined_id. Qed.
Lemma confined_emit_message n msg hook : confined P (emit_message n msg hook).
Proof. apply confined_id. intros s. unfold emit_message. run_simpl. by case_match. Qed.
End confined_ops.
#[export] Hint Resolve confined_ret confined_throw confined_panic confined_get_st confined_gets
  confined_expect confined_ok_or confined_store confined_value_get confined_value_set
  confined_value_take confined_value_or_default confined_typed_get confined_typed_iter confined_params
  confined_with_env confined_with_tx_env confined_emit_event confined_emit_unconditional_event
  confined_emit_message confined_typed_insert confined_typed_remove : confined.
#[export] Hint Extern 1 (starts_with _ _ = true) => reflexivity : confined.

Ltac confined_step :=
  match goal with
  | |- confined _ (mbind _ _) => apply confined_bind
  | |- confined _ (map_err _ _) => apply confined_map_err
  | |- confined _ (lift _) => apply confined_map_err
  | |- confined _ (try_ _) => apply confined_try
  | |- confined _ (unwrap_or_panic _ _) => apply confined_unwrap
  | |- confined _ (for_each _ _) => apply confined_for_each
  | |- confined _ (fold_m _ _ _) => apply confined_fold_m
  | |- ∀ _, _ => intros ?
  | |- confined _ (match ?x with _ => _ end) => destruct x
  end.
Ltac solve_confined := repeat (first [solve [eauto 4 with confined nocore] | confined_step]).

(** * Tables *)

Section table.
Context `{Platform} `{!MKVSLaws} {K V : Type} `{Countable K} `{!Cbor V, !CborRoundtrip V}.
Variables (P : bytes) (key : K → bytes) (valid : K → Prop).

Record table (m : gmap K V) (s : State) : Prop := {
  tb_valid k : is_Some (m !! k) → valid k;
  tb_get k : valid k → from_slice <$> at_key s (P ++ key k) = Some <$> m !! k;
  tb_keys b : is_Some (at_key s (P ++ b)) → ∃ k, valid k ∧ b = key k;
}.

Hypothesis (key_inj : ∀ k k', valid k → valid k' → key k = key k' → k = k').

(** A table depends on the entries below its prefix only. *)
Lemma table_ext m s s' : (∀ b, at_key s' (P ++ b) = at_key s (P ++ b)) → table m s → table m s'.
Proof. intros Heq [Hv Hg Hk]. split; [done|intros k; by rewrite Heq; apply Hg|intros b; rewrite Heq; apply Hk]. Qed.
Lemma table_outside m s s' Q : outside Q s s' → starts_with P Q = false → starts_with Q P = false →
  table m s → table m s'.
Proof.
  intros Ho HPQ HQP. apply table_ext. intros b. apply Ho. apply not_true_iff_false. intros Hs.
  apply starts_with_iff in Hs as [c Hc]. apply not_true_iff_false in HPQ, HQP.
  destruct (app_eq_inv _ _ _ _ Hc) as [(l & -> & _)|(l & -> & _)].
  - apply HPQ. apply starts_with_app.
  - apply HQP. apply starts_with_app.
Qed.

Lemma table_empty s : (∀ b, at_key s (P ++ b) = None) → table ∅ s.
Proof.
  intros Hat. split; [by intros k Hk%lookup_empty_is_Some|intros k _; by rewrite Hat, lookup_empty|].
  intros b Hb. rewrite Hat in Hb. by destruct Hb.
Qed.
Lemma table_get_run {E} m s r k x :
  table m s → writable s → valid x → ref_prefix r ++ k = P ++ key x →
  typed_get (E := E) r k s = (Ok (m !! x), s).
Proof.
  intros Ht (st & Hst & Hwf & _) Hx Heq. apply typed_get_run. exists st. split; [done|]. split; [done|].
  rewrite Heq. pose proof (tb_get _ _ Ht x Hx) as Hg. unfold at_key in Hg. by rewrite Hst in Hg.
Qed.

Lemma table_insert_run {E} m s r k x v :
  table m s → writable s → valid x → encodable v → ref_prefix r ++ k = P ++ key x →
  ∃ s', typed_insert (E := E) r k v s = (Ok tt, s') ∧ table (<[x := v]> m) s' ∧ writable s' ∧
    (∃ st, s' = set_store (Some st) s) ∧ ∀ b, b ≠ P ++ key x → at_key s' b = at_key s b.
Proof.
  intros Ht Hs Hx Henc Heq. destruct (typed_insert_at (E := E) s r k v Hs) as (st & Hst & ->). rewrite Heq.
  eexists. split; [done|]. split; [|split; [by apply insert_writable|split; [by eexists|]]].
  - split.
    + intros k' Hk'. destruct (decide (x = k')) as [<-|Hne]; [done|].
      rewrite lookup_insert_ne in Hk' by done. by apply (tb_valid _ _ Ht).
    + intros k' Hk'. rewrite at_key_insert by done. destruct (decide (x = k')) as [<-|Hne].
      * rewrite decide_True, lookup_insert_eq by done. simpl. by rewrite cbor_roundtrip.
      * rewrite lookup_insert_ne by done. rewrite decide_False; [by apply (tb_get _ _ Ht)|].
        intros Hk%(inj (app P)). by apply Hne, key_inj.
    + intros b. rewrite at_key_insert by done. destruct (decide _) as [Hb|_]; [|apply (tb_keys _ _ Ht)].
      intros _. exists x. split; [done|]. symmetry. by apply (inj (app P)).
  - intros b Hb. rewrite at_key_insert by done. by rewrite decide_False.
Qed.

Lemma table_remove_run {E} m s r k x :
  table m s → writable s → valid x → ref_prefix r ++ k = P ++ key x →
  ∃ s', typed_remove (E := E) r k s = (Ok tt, s') ∧ table (delete x m) s' ∧ writable s' ∧
    (∃ st, s' = set_store (Some st) s) ∧ ∀ b, b ≠ P ++ key x → at_key s' b = at_key s b.
Proof.
  intros Ht Hs Hx Heq. destruct (typed_remove_at (E := E) s r k Hs) as (st & Hst & Hwf & ->). rewrite Heq.
  eexists. split; [done|]. split; [|split; [by apply remove_writable|split; [by eexists|]]].
  - split.
    + intros k' Hk'. apply (tb_valid _ _ Ht). destruct Hk' as [v Hv].
      apply lookup_delete_Some in Hv as [_ Hv]. by eexists.
    + intros k' Hk'. rewrite at_key_remove by done. destruct (decide (x = k')) as [<-|Hne].
      * by rewrite decide_True, lookup_delete_eq.
      * rewrite lookup_delete_ne by done. rewrite decide_False; [by apply (tb_get _ _ Ht)|].
        intros Hk%(inj (app P)). by apply Hne, key_inj.
    + intros b. rewrite at_key_remove by done. destruct (decide _) as [Hb|_]; [by intros []|].
      apply (tb_keys _ _ Ht).
  - intros b Hb. rewrite at_key_remove by done. by rewrite decide_False.
Qed.

(** Iterating over a table. *)
Lemma table_iter_run `{!CborLaws V} {E} (tf : bytes → string + K) (dflt : V) m s r p :
  (∀ k, valid k → tf (key k) = inr k) → table m s → writable s → ref_prefix r ++ p = P →
  ∃ l, typed_iter (E := E) tf dflt (PrefixStore r p) s = (Ok l, s) ∧ StronglySorted (key_lt key) l ∧
    (∀ k v, (k, v) ∈ l ↔ m !! k = Some v) ∧ list_to_map (reverse l) = m.
Proof.
  intros Htf Ht (st & Hst & Hwf & _) HP.
  apply (typed_iter_valid (E := E) tf dflt key valid Htf s st r p m Hst Hwf); [apply Ht| |].
  - intros k Hk. rewrite HP. pose proof (tb_get _ _ Ht k Hk) as Hg. unfold at_key in Hg. by rewrite Hst in Hg.
  - intros b Hb. apply (tb_keys _ _ Ht b). unfold at_key. rewrite Hst. simpl. by rewrite <-HP.
Qed.
End table.

(** A program logic for modules that keep their state in tables: weakest preconditions over an abstract state.

    A [View] relates states of the runtime to abstract states [x : T] of a module, which depend on the entries
    below the prefix of the module only.  [wp m Q x] says of a computation [m] that starts with the abstract
    state [x]: if it succeeds with a result [a], the abstract state is then one of which [Q a] holds.  A
    handler that fails has no effect on the tables, as its transaction is rolled back. *)

Section reads.
Context `{Platform}.
(** Computations that only read, whatever their outcome. *)
Definition reads {E A} (m : M E A) : Prop := ∀ s, (m s).2 = s.
Lemma reads_bind {E A B} (m : M E A) (f : A → M E B) : reads m → (∀ a, reads (f a)) → reads (m ≫= f).
Proof.
  intros Hm Hf s. unfold mbind, ST_bind. specialize (Hm s). destruct (m s) as [[a|e|p] s']; simpl in *; subst; [apply Hf|done..].
Qed.
Lemma reads_typed_get {E T} `{!Cbor T} r k : reads (typed_get (E := E) (T := T) r k).
Proof. intros s. unfold typed_get, store. run_simpl. case_run. Qed.
Lemma reads_try {E E' A} (m : M E A) : reads m → reads (try_ (E' := E') m).
Proof. intros Hm s. specialize (Hm s). unfold try_. by destruct (m s) as [[]]. Qed.
Lemma reads_ret {E A} (a : A) : reads (E := E) (mret a).
Proof. done. Qed.
Lemma reads_throw {E A} (e : E) : reads (A := A) (throw e).
Proof. done. Qed.
Lemma reads_ok_or {E A} (o : option A) (e : E) : reads (ok_or o e).
Proof. by destruct o. Qed.
End reads.

Section below.
Context `{Platform} `{!MKVSLaws}.

(** What a state holds at a key depends on the contents of its store only. *)
Lemma at_key_kv s k : writable s → at_key s k = kv (st_store s) !! k.
Proof. intros (st & Hst & Hwf & _). unfold at_key. rewrite Hst. simpl. by rewrite view_lookup. Qed.

(** The entries below a prefix stay. *)
Definition same_below (P : bytes) (s s' : State) : Prop := writable s' ∧ ∀ k, at_key s' (P ++ k) = at_key s (P ++ k).
Lemma same_below_refl P s : writable s → same_below P s s.
Proof. done. Qed.
Lemma same_below_trans P s1 s2 s3 : same_below P s1 s2 → same_below P s2 s3 → same_below P s1 s3.
Proof. intros [Hw Hk] [Hw' Hk']. split; [done|]. intros k. by rewrite Hk'. Qed.
Lemma same_below_kv P s s' : writable s → writable s' → kv (st_store s') = kv (st_store s) → same_below P s s'.
Proof. intros Hw Hw' Hkv. split; [done|]. intros k. by rewrite !at_key_kv, Hkv. Qed.

(** A write to one table leaves the others alone. *)
Lemma other_table_below {K V} `{Countable K, !Cbor V} (P T T' : bytes) (key : K → bytes) valid (tm : gmap K V) s s' k :
  (∀ b, b ≠ (P ++ T) ++ k → at_key s' b = at_key s b) →
  starts_with T T' = false → starts_with T' T = false →
  table (P ++ T') key valid tm s → table (P ++ T') key valid tm s'.
Proof.
  intros Ho Hd Hd'. apply table_ext. intros b. apply Ho. intros Heq. rewrite <-!app_assoc in Heq.
  apply (inj (app P)) in Heq. destruct (app_eq_inv _ _ _ _ Heq) as [(l & -> & _)|(l & -> & _)];
    first [by rewrite starts_with_app in Hd|by rewrite starts_with_app in Hd'].
Qed.
Definition store_env_only (s s' : State) : Prop := ∃ st, s' = set_store (Some st) s.
Lemma store_env s s' : store_env_only s s' → st_env s' = st_env s.
Proof. by intros [st ->]. Qed.

(** ** Computations that leave the entries below a prefix alone *)

Definition leaves (P : bytes) {E A} (m : M E A) : Prop :=
  ∀ s, ready s → ∀ a s', m s = (Ok a, s') → ready s' ∧ same_below P s s'.
Lemma leaves_confined P Q {E A} (m : M E A) :
  (∀ k, starts_with (P ++ k) Q = false) → framed m → confined Q m → leaves P m.
Proof.
  intros HPQ Hf Hc s Hr a s' Hrun. pose proof (Hf s Hr) as Hfr. rewrite Hrun in Hfr. split; [apply (fr_ready _ _ Hfr)|].
  destruct (Hc s (proj2 Hr)) as [Hw Ho]. rewrite Hrun in Hw, Ho. split; [done|]. intros k. by apply Ho.
Qed.
Lemma leaves_map_err P {E E' A} (f : E → E') (m : M E A) : leaves P m → leaves P (map_err f m).
Proof.
  intros Hm s Hr a s' Hrun. apply (Hm s Hr a). unfold map_err in Hrun. by destruct (m s) as [[] ?]; simplify_eq.
Qed.
Lemma leaves_read P {E A} (m : M E A) : (∀ s, (m s).2 = s) → leaves P m.
Proof. intros Hm s Hr a s' Hrun. specialize (Hm s). rewrite Hrun in Hm. simpl in Hm. subst. by split; [|apply same_below_refl, Hr]. Qed.
Lemma leaves_bind P {E A B} (m : M E A) (f : A → M E B) : leaves P m → (∀ a, leaves P (f a)) → leaves P (m ≫= f).
Proof.
  intros Hm Hf s Hr b s'' (a & s' & Ha & Hb)%bind_ok_inv. destruct (Hm s Hr a s' Ha) as [Hr' Hs].
  destruct (Hf a s' Hr' b s'' Hb) as [Hr'' Hs']. split; [done|by eapply same_below_trans].
Qed.
End below.

(** ** Views and weakest preconditions *)

Class View `{Platform, !MKVSLaws} (T : Type) := {
  shows : State → T → Prop;
  view_prefix : bytes;
  view_same s s' x : same_below view_prefix s s' → shows s x → shows s' x;
}.

Section wp.
Context `{Platform} `{!MKVSLaws} {T : Type} `{!View T}.

Definition wp {E A} (m : M E A) (Q : A → T → Prop) (x : T) : Prop :=
  ∀ s, ready s → shows s x → ∀ a s', m s = (Ok a, s') → ready s' ∧ ∃ x', shows s' x' ∧ Q a x'.

Lemma wp_mono {E A} (m : M E A) (Q Q' : A → T → Prop) x :
  wp m Q x → (∀ a x', Q a x' → Q' a x') → wp m Q' x.
Proof.
  intros Hm HQ s Hr Hs a s' Hrun. destruct (Hm s Hr Hs a s' Hrun) as (Hr' & x' & Hs' & Ha).
  split; [done|]. exists x'. auto.
Qed.
Lemma wp_bind {E A B} (m : M E A) (f : A → M E B) Q x : wp m (λ a, wp (f a) Q) x → wp (m ≫= f) Q x.
Proof.
  intros Hm s Hr Hs b s'' (a & s' & Ha & Hb)%bind_ok_inv. destruct (Hm s Hr Hs a s' Ha) as (Hr' & x' & Hs' & Hf).
  by apply (Hf s' Hr' Hs').
Qed.
Lemma wp_ret {E A} (a : A) (Q : A → T → Prop) x : Q a x → wp (E := E) (mret a) Q x.
Proof. intros HQ s Hr Hs a' s' [= <- <-]. eauto. Qed.
Lemma wp_throw {E A} (e : E) (Q : A → T → Prop) x : wp (throw e) Q x.
Proof. by intros s Hr Hs a s' [=]. Qed.
Lemma wp_panic {E A} msg (Q : A → T → Prop) x : wp (panic (E := E) msg) Q x.
Proof. by intros s Hr Hs a s' [=]. Qed.
Lemma wp_map_err {E E' A} (f : E → E') (m : M E A) Q x : wp m Q x → wp (map_err f m) Q x.
Proof.
  intros Hm s Hr Hs a s' Hrun. apply (Hm s Hr Hs). unfold map_err in Hrun. by destruct (m s) as [[] ?]; simplify_eq.
Qed.
Lemma wp_ok_or {E A} (o : option A) (e : E) (Q : A → T → Prop) x : (∀ y, o = Some y → Q y x) → wp (ok_or o e) Q x.
Proof. intros HQ. destruct o as [y|]; [by apply wp_ret, HQ|apply wp_throw]. Qed.
(** The loop rule: the invariant speaks of what is left of the list. *)
Lemma wp_for_each {E A} (l : list A) (body : A → M E unit) (I : list A → T → Prop) (Q : unit → T → Prop) x :
  I l x → (∀ x', I [] x' → Q tt x') → (∀ y l' x', I (y :: l') x' → wp (body y) (λ _, I l') x') →
  wp (for_each l body) Q x.
Proof.
  intros HI HQ Hb. revert x HI. induction l as [|y l IH]; intros x HI; [by apply wp_ret, HQ|]. simpl.
  apply wp_bind. eapply wp_mono; [by apply Hb|]. intros [] x' HI'. by apply IH.
Qed.
Lemma wp_leaves {E A} (m : M E A) (Q : A → T → Prop) x : leaves view_prefix m → (∀ a, Q a x) → wp m Q x.
Proof.
  intros Hn HQ s Hr Hs a s' Hrun. destruct (Hn s Hr a s' Hrun) as [Hr' Hsame]. split; [done|].
  exists x. split; [by eapply view_same|done].
Qed.
(** An operation whose run is known. *)
Lemma wp_run {E A} (m : M E A) (Q : A → T → Prop) x a x' :
  framed m → (∀ s, shows s x → ∃ s', m s = (Ok a, s') ∧ shows s' x') → Q a x' → wp m Q x.
Proof.
  intros Hf Hm HQ s Hr Hs a' s' Hrun. destruct (Hm s Hs) as (s1 & Hrun1 & Hs1). rewrite Hrun in Hrun1. simplify_eq.
  pose proof (Hf s Hr) as Hfr. rewrite Hrun in Hfr. split; [apply (fr_ready _ _ Hfr)|eauto].
Qed.
(** An operation that only reads. *)
Lemma wp_reads {E A} (m : M E A) (Q : A → T → Prop) x a :
  (∀ s, shows s x → m s = (Ok a, s)) → Q a x → wp m Q x.
Proof. intros Hm HQ s Hr Hs a' s' Hrun. rewrite Hm in Hrun by done. simplify_eq. eauto. Qed.
End wp.
