(* ===== verification/Signatures.v ===== *)
(** Signature schemes: the types of signatures, public keys and memory signers, and how they dispatch to the schemes
    (src/runtime-sdk/src/crypto/signature/{mod,digests,ed25519,secp256k1,secp256r1,secp384r1,sr25519}.rs).  The curves,
    hash functions and transcripts are parameters. *)
From S2P Require Import Prelude Types.

(** * Errors and types *)

Inductive SignatureError :=
  | SgMalformedPublicKey
  | SgMalformedPrivateKey
  | SgMalformedSignature
  | SgVerificationFailed
  | SgInvalidArgument
  | SgInvalidDigestLength
  | SgSigningError.
#[global] Instance SignatureError_eq_dec : EqDecision SignatureError.
Proof. solve_decision. Defined.
Definition signature_error_string (e : SignatureError) : string :=
  match e with
  | SgMalformedPublicKey => "malformed public key"
  | SgMalformedPrivateKey => "malformed private key"
  | SgMalformedSignature => "malformed signature"
  | SgVerificationFailed => "signature verification failed"
  | SgInvalidArgument => "invalid argument"
  | SgInvalidDigestLength => "invalid digest length"
  | SgSigningError => "other signing error"
  end.

Inductive SignatureType :=
  | Ed25519_Oasis
  | Ed25519_Pure
  | Ed25519_PrehashedSha512
  | Secp256k1_Oasis
  | Secp256k1_PrehashedKeccak256
  | Secp256k1_PrehashedSha256
  | Sr25519_Pure
  | Secp256r1_PrehashedSha256
  | Secp384r1_PrehashedSha384.
#[global] Instance SignatureType_eq_dec : EqDecision SignatureType.
Proof. solve_decision. Defined.

Definition as_int (t : SignatureType) : N :=
  match t with
  | Ed25519_Oasis => 0
  | Ed25519_Pure => 1
  | Ed25519_PrehashedSha512 => 2
  | Secp256k1_Oasis => 3
  | Secp256k1_PrehashedKeccak256 => 4
  | Secp256k1_PrehashedSha256 => 5
  | Sr25519_Pure => 6
  | Secp256r1_PrehashedSha256 => 7
  | Secp384r1_PrehashedSha384 => 8
  end.
(** [TryFrom<u8>]. *)
Definition signature_type_try_from (value : N) : SignatureError + SignatureType :=
  match value with
  | 0 => inr Ed25519_Oasis
  | 1 => inr Ed25519_Pure
  | 2 => inr Ed25519_PrehashedSha512
  | 3 => inr Secp256k1_Oasis
  | 4 => inr Secp256k1_PrehashedKeccak256
  | 5 => inr Secp256k1_PrehashedSha256
  | 6 => inr Sr25519_Pure
  | 7 => inr Secp256r1_PrehashedSha256
  | 8 => inr Secp384r1_PrehashedSha384
  | _ => inl SgInvalidArgument
  end%N.
Definition is_prehashed (t : SignatureType) : bool :=
  match t with
  | Ed25519_PrehashedSha512 | Secp256k1_PrehashedKeccak256 | Secp256k1_PrehashedSha256
  | Secp256r1_PrehashedSha256 | Secp384r1_PrehashedSha384 => true
  | _ => false
  end.
Definition is_ed25519_variant (t : SignatureType) : bool :=
  match t with Ed25519_Oasis | Ed25519_Pure | Ed25519_PrehashedSha512 => true | _ => false end.
Definition is_secp256k1_variant (t : SignatureType) : bool :=
  match t with Secp256k1_Oasis | Secp256k1_PrehashedKeccak256 | Secp256k1_PrehashedSha256 => true | _ => false end.
Definition is_secp256r1_variant (t : SignatureType) : bool :=
  match t with Secp256r1_PrehashedSha256 => true | _ => false end.
Definition is_secp384r1_variant (t : SignatureType) : bool :=
  match t with Secp384r1_PrehashedSha384 => true | _ => false end.
Definition is_sr25519_variant (t : SignatureType) : bool := match t with Sr25519_Pure => true | _ => false end.

(** * Libraries *)

(** One of the libraries k256, p256 and p384. *)
Record Ecdsa := {
  SigningKey : Type;
  VerifyingKey : Type;
  EcSignature : Type;
  (** [EncodedPoint::from_bytes] *)
  encoded_point : bytes → bool;
  signing_key_from_slice : bytes → option SigningKey;
  signing_key_to_bytes : SigningKey → bytes;
  (** the compressed point of [verifying_key] *)
  compressed_point : SigningKey → bytes;
  verifying_key_from_point : bytes → option VerifyingKey;
  (** signatures of a digest, and of a message with the digest of the curve *)
  ec_sign_digest : SigningKey → bytes → EcSignature;
  ec_sign : SigningKey → bytes → EcSignature;
  ec_verify_digest : VerifyingKey → bytes → EcSignature → bool;
  ec_verify : VerifyingKey → bytes → EcSignature → bool;
  to_der : EcSignature → bytes;
  from_der : bytes → option EcSignature;
}.

Class SignatureLibs := {
  k256 : Ecdsa;
  p256 : Ecdsa;
  p384 : Ecdsa;
  sha256 : bytes → bytes;
  sha384 : bytes → bytes;
  sha512_256 : bytes → bytes;
  (** curve25519-dalek: decompression of a point *)
  decompress : bytes → bool;
  (** oasis-core: verification with and without a context *)
  core_verify : bytes → bytes → bytes → bytes → bool;
  core_verify_raw : bytes → bytes → bytes → bool;
  (** ed25519-dalek, for regular and for expanded secret keys: the public key, signatures of messages and of digests,
      and whether a public key is one for the verification of digests *)
  sk_public : bytes → bytes;
  esk_public : bytes → bytes;
  sk_sign : bytes → bytes → bytes;
  esk_sign : bytes → bytes → bytes;
  sk_sign_prehashed : bytes → bytes → option bytes;
  esk_sign_prehashed : bytes → bytes → option bytes;
  dalek_key : bytes → bool;
  dalek_verify_prehashed : bytes → bytes → bytes → bool;
  (** schnorrkel *)
  SrKeypair : Type;
  SrTranscript : Type;
  sr_transcript_bytes : bytes → bytes → SrTranscript;
  sr_transcript_hash256 : bytes → bytes → SrTranscript;
  sr_public_key : bytes → bool;
  sr_from_seed : bytes → option SrKeypair;
  sr_from_half_ed25519_bytes : bytes → option SrKeypair;
  sr_to_half_ed25519_bytes : SrKeypair → bytes;
  sr_public : SrKeypair → bytes;
  sr_sign_simple : SrKeypair → bytes → bytes → bytes;
  sr_signature : bytes → bool;
  sr_verify : bytes → SrTranscript → bytes → bool;
}.

(** * Digests of known value *)

(** [DummyDigest]: what a real digest was fed with, or a digest computed before. *)
Record DummyDigest := { dd_underlying : option bytes; dd_preexisting : bytes }.
Definition new_precomputed (b : bytes) : DummyDigest := {| dd_underlying := None; dd_preexisting := b |}.
Definition dummy_default : DummyDigest := {| dd_underlying := Some []; dd_preexisting := [] |}.
Definition dummy_update (data : bytes) : ST DummyDigest Empty_set unit :=
  d ← get_st;
  match dd_underlying d with
  | Some fed => modify (λ d, {| dd_underlying := Some (fed ++ data); dd_preexisting := dd_preexisting d |})
  | None => panic "mutating dummy digest with precomputed hash"
  end.
Definition dummy_reset : ST DummyDigest Empty_set unit :=
  d ← get_st;
  match dd_underlying d with
  | Some _ => modify (λ d, {| dd_underlying := Some []; dd_preexisting := dd_preexisting d |})
  | None => panic "mutating dummy digest with precomputed hash"
  end.
(** [finalize_into] a buffer of the size of the digest [hash]; copying panics when the lengths differ. *)
Definition dummy_finalize (hash : bytes → bytes) (size : nat) (d : DummyDigest) : Outcome Empty_set bytes :=
  match dd_underlying d with
  | Some fed => Ok (hash fed)
  | None => if (length (dd_preexisting d) =? size)%nat then Ok (dd_preexisting d)
            else Panic "source slice length does not match destination slice length"
  end.

(** * ECDSA *)

Section ecdsa.
Variable lib : Ecdsa.

Definition ecdsa_from_bytes (b : bytes) : SignatureError + bytes :=
  if encoded_point lib b then inr b else inl SgMalformedPublicKey.
(** Verification with a function of the library, after the signature and the key were decoded. *)
Definition ecdsa_verify_with (f : VerifyingKey lib → EcSignature lib → bool) (pk : bytes) (signature : Signature)
    : SignatureError + unit :=
  match from_der lib signature with
  | None => inl SgMalformedSignature
  | Some sig =>
      match verifying_key_from_point lib pk with
      | None => inl SgMalformedPublicKey
      | Some verify_key => if f verify_key sig then inr tt else inl SgVerificationFailed
      end
  end.
Definition ecdsa_verify_raw (pk message : bytes) (signature : Signature) : SignatureError + unit :=
  ecdsa_verify_with (λ vk sig, ec_verify lib vk message sig) pk signature.
Definition ecdsa_verify_digest (pk digest : bytes) (signature : Signature) : SignatureError + unit :=
  ecdsa_verify_with (λ vk sig, ec_verify_digest lib vk digest sig) pk signature.

(** The memory signer, which has a signing key only. *)
Definition ecdsa_new_from_seed (seed : bytes) : SignatureError + SigningKey lib :=
  match signing_key_from_slice lib seed with Some sk => inr sk | None => inl SgInvalidArgument end.
Definition ecdsa_signer_from_bytes (b : bytes) : SignatureError + SigningKey lib :=
  match signing_key_from_slice lib b with Some sk => inr sk | None => inl SgMalformedPrivateKey end.
Definition ecdsa_sign_digest (sk : SigningKey lib) (digest : bytes) : SignatureError + Signature :=
  inr (to_der lib (ec_sign_digest lib sk digest)).
Definition ecdsa_sign_raw (sk : SigningKey lib) (message : bytes) : SignatureError + Signature :=
  inr (to_der lib (ec_sign lib sk message)).
End ecdsa.

Section schemes.
Context `{SignatureLibs}.

(** The schemes differ in the digest of a context and a message, and Secp256k1 in the error. *)
Definition secp256k1_verify (pk context message : bytes) (signature : Signature) : SignatureError + unit :=
  match ecdsa_verify_digest k256 pk (sha512_256 (context ++ message)) signature with
  | inl _ => inl SgVerificationFailed
  | inr _ => inr tt
  end.
Definition secp256r1_verify (pk context message : bytes) (signature : Signature) : SignatureError + unit :=
  ecdsa_verify_digest p256 pk (sha512_256 (context ++ message)) signature.
Definition secp384r1_verify (pk context message : bytes) (signature : Signature) : SignatureError + unit :=
  ecdsa_verify_digest p384 pk (sha384 (context ++ message)) signature.
Definition secp256k1_sign (sk : SigningKey k256) (context message : bytes) : SignatureError + Signature :=
  inr (to_der k256 (ec_sign_digest k256 sk (sha512_256 (context ++ message)))).
Definition secp256r1_sign (sk : SigningKey p256) (context message : bytes) : SignatureError + Signature :=
  inr (to_der p256 (ec_sign_digest p256 sk (sha256 (context ++ message)))).
Definition secp384r1_sign (sk : SigningKey p384) (context message : bytes) : SignatureError + Signature :=
  inr (to_der p384 (ec_sign_digest p384 sk (sha384 (context ++ message)))).

(** * Ed25519 *)

Definition CORE_PUBLIC_KEY_LEN : nat := 32.
Definition CORE_SIGNATURE_LEN : nat := 64.
Definition ed25519_from_bytes (b : bytes) : SignatureError + bytes :=
  if negb (length b =? CORE_PUBLIC_KEY_LEN)%nat then inl SgMalformedPublicKey
  else if decompress b then inr b
  else inl SgMalformedPublicKey.
Definition ed25519_verify (pk context message : bytes) (signature : Signature) : SignatureError + unit :=
  if negb (length signature =? CORE_SIGNATURE_LEN)%nat then inl SgMalformedSignature
  else if core_verify pk context message signature then inr tt
  else inl SgVerificationFailed.
Definition ed25519_verify_raw (pk message : bytes) (signature : Signature) : SignatureError + unit :=
  if negb (length signature =? CORE_SIGNATURE_LEN)%nat then inl SgMalformedSignature
  else if core_verify_raw pk message signature then inr tt
  else inl SgVerificationFailed.
Definition ed25519_verify_digest (pk digest : bytes) (signature : Signature) : SignatureError + unit :=
  if negb (length signature =? CORE_SIGNATURE_LEN)%nat then inl SgMalformedSignature
  else if negb (dalek_key pk) then inl SgMalformedPublicKey
  else if dalek_verify_prehashed pk digest signature then inr tt
  else inl SgVerificationFailed.

(** The key of a signer: the output of the hash function behind an expanded secret key, or a secret key. *)
Inductive EdKey := Expanded (hash : bytes) | Regular (sk : bytes).
Definition ed_key_from_bytes (b : bytes) : SignatureError + EdKey :=
  match length b with
  | 32 => inr (Regular b)
  | 64 => inr (Expanded b)
  | _ => inl SgMalformedPrivateKey
  end%nat.
Definition ed_key_to_bytes (k : EdKey) : bytes := match k with Expanded hash => hash | Regular sk => sk end.
Definition ed_key_sign (k : EdKey) (message : bytes) : Signature :=
  match k with Expanded hash => esk_sign hash message | Regular sk => sk_sign sk message end.
Definition ed_key_sign_digest (k : EdKey) (digest : bytes) : SignatureError + Signature :=
  match (match k with
         | Expanded hash => esk_sign_prehashed hash digest
         | Regular sk => sk_sign_prehashed sk digest
         end) with
  | Some sig => inr sig
  | None => inl SgSigningError
  end.
(** The bytes of the public key of the library, which [from_bytes] accepts. *)
Definition ed_key_public_key (k : EdKey) : PublicKey :=
  Ed25519 (match k with Expanded hash => esk_public hash | Regular sk => sk_public sk end).
Definition ed25519_new_from_seed (seed : bytes) : SignatureError + EdKey :=
  if negb (length seed =? 32)%nat then inl SgMalformedPublicKey else ed_key_from_bytes seed.
Definition ed25519_sign (k : EdKey) (context message : bytes) : SignatureError + Signature :=
  inr (ed_key_sign k (sha512_256 (context ++ message))).
Definition ed25519_sign_raw (k : EdKey) (message : bytes) : SignatureError + Signature := inr (ed_key_sign k message).

(** * Sr25519 *)

Definition sr25519_from_bytes (b : bytes) : SignatureError + bytes :=
  if sr_public_key b then inr b else inl SgMalformedPublicKey.
Definition verify_transcript (pk : bytes) (transcript : SrTranscript) (signature : Signature) : SignatureError + unit :=
  if negb (sr_public_key pk) then inl SgMalformedPublicKey
  else if negb (sr_signature signature) then inl SgMalformedSignature
  else if sr_verify pk transcript signature then inr tt
  else inl SgVerificationFailed.
Definition sr25519_verify (pk context message : bytes) (signature : Signature) : SignatureError + unit :=
  verify_transcript pk (sr_transcript_hash256 context (sha512_256 message)) signature.
Definition sr25519_verify_raw (pk context message : bytes) (signature : Signature) : SignatureError + unit :=
  verify_transcript pk (sr_transcript_bytes context message) signature.
Definition sr25519_new_from_seed (seed : bytes) : SignatureError + SrKeypair :=
  match sr_from_seed seed with Some kp => inr kp | None => inl SgMalformedPrivateKey end.
Definition sr25519_signer_from_bytes (b : bytes) : SignatureError + SrKeypair :=
  match sr_from_half_ed25519_bytes b with Some kp => inr kp | None => inl SgMalformedPrivateKey end.
Definition sr25519_sign (kp : SrKeypair) (context message : bytes) : SignatureError + Signature :=
  inr (sr_sign_simple kp context message).
Definition sr25519_sign_raw (kp : SrKeypair) (message : bytes) : SignatureError + Signature := inl SgInvalidArgument.

(** * Public keys *)

Definition pk_as_bytes (pk : PublicKey) : bytes :=
  match pk with Ed25519 pk | Secp256k1 pk | Secp256r1 pk | Secp384r1 pk | Sr25519 pk => pk end.

Definition map_inr {E A B} (f : A → B) (x : E + A) : E + B := match x with inl e => inl e | inr a => inr (f a) end.
Definition pk_from_bytes (t : SignatureType) (b : bytes) : SignatureError + PublicKey :=
  match t with
  | Ed25519_Oasis | Ed25519_Pure | Ed25519_PrehashedSha512 => map_inr Ed25519 (ed25519_from_bytes b)
  | Secp256k1_Oasis | Secp256k1_PrehashedKeccak256 | Secp256k1_PrehashedSha256 => map_inr Secp256k1 (ecdsa_from_bytes k256 b)
  | Secp256r1_PrehashedSha256 => map_inr Secp256r1 (ecdsa_from_bytes p256 b)
  | Secp384r1_PrehashedSha384 => map_inr Secp384r1 (ecdsa_from_bytes p384 b)
  | Sr25519_Pure => map_inr Sr25519 (sr25519_from_bytes b)
  end.
Definition pk_verify (pk : PublicKey) (context message : bytes) (signature : Signature) : SignatureError + unit :=
  match pk with
  | Ed25519 pk => ed25519_verify pk context message signature
  | Secp256k1 pk => secp256k1_verify pk context message signature
  | Secp256r1 pk => secp256r1_verify pk context message signature
  | Secp384r1 pk => secp384r1_verify pk context message signature
  | Sr25519 pk => sr25519_verify pk context message signature
  end.
Definition pk_verify_raw (pk : PublicKey) (message : bytes) (signature : Signature) : SignatureError + unit :=
  match pk with
  | Ed25519 pk => ed25519_verify_raw pk message signature
  | Secp256k1 pk => ecdsa_verify_raw k256 pk message signature
  | Secp256r1 pk => ecdsa_verify_raw p256 pk message signature
  | Secp384r1 pk => ecdsa_verify_raw p384 pk message signature
  | Sr25519 _ => inl SgInvalidArgument
  end.

(** A digest that was computed before, in the place of one of this size: a dummy digest finalizes to its bytes. *)
Definition precomputed {A} (size : nat) (context_or_hash : bytes) (f : bytes → SignatureError + A) : SignatureError + A :=
  if negb (length context_or_hash =? size)%nat then inl SgInvalidArgument else f context_or_hash.
Definition pk_verify_by_type (pk : PublicKey) (t : SignatureType) (context_or_hash message : bytes) (signature : Signature)
    : SignatureError + unit :=
  match pk with
  | Ed25519 pk =>
      match t with
      | Ed25519_Oasis => ed25519_verify pk context_or_hash message signature
      | Ed25519_Pure => ed25519_verify_raw pk message signature
      | Ed25519_PrehashedSha512 =>
          precomputed 64 context_or_hash (λ digest, ed25519_verify_digest pk digest signature)
      | _ => inl SgInvalidArgument
      end
  | Secp256k1 pk =>
      match t with
      | Secp256k1_Oasis => secp256k1_verify pk context_or_hash message signature
      | Secp256k1_PrehashedKeccak256 | Secp256k1_PrehashedSha256 =>
          precomputed 32 context_or_hash (λ digest, ecdsa_verify_digest k256 pk digest signature)
      | _ => inl SgInvalidArgument
      end
  | Secp256r1 pk =>
      match t with
      | Secp256r1_PrehashedSha256 =>
          precomputed 32 context_or_hash (λ digest, ecdsa_verify_digest p256 pk digest signature)
      | _ => inl SgInvalidArgument
      end
  | Secp384r1 pk =>
      match t with
      | Secp384r1_PrehashedSha384 =>
          precomputed 48 context_or_hash (λ digest, ecdsa_verify_digest p384 pk digest signature)
      | _ => inl SgInvalidArgument
      end
  | Sr25519 pk =>
      match t with
      | Sr25519_Pure => sr25519_verify_raw pk context_or_hash message signature
      | _ => inl SgInvalidArgument
      end
  end.

(** * Memory signers *)

Inductive MemorySigner :=
  | MsEd25519 (k : EdKey)
  | MsSecp256k1 (sk : SigningKey k256)
  | MsSecp256r1 (sk : SigningKey p256)
  | MsSecp384r1 (sk : SigningKey p384)
  | MsSr25519 (kp : SrKeypair).

Definition signer_new_from_seed (t : SignatureType) (seed : bytes) : SignatureError + MemorySigner :=
  if is_ed25519_variant t then map_inr MsEd25519 (ed25519_new_from_seed seed)
  else if is_secp256k1_variant t then map_inr MsSecp256k1 (ecdsa_new_from_seed k256 seed)
  else if is_secp256r1_variant t then map_inr MsSecp256r1 (ecdsa_new_from_seed p256 seed)
  else if is_secp384r1_variant t then map_inr MsSecp384r1 (ecdsa_new_from_seed p384 seed)
  else if is_sr25519_variant t then map_inr MsSr25519 (sr25519_new_from_seed seed)
  else inl SgInvalidArgument.
Definition signer_from_bytes (t : SignatureType) (b : bytes) : SignatureError + MemorySigner :=
  if is_ed25519_variant t then map_inr MsEd25519 (ed_key_from_bytes b)
  else if is_secp256k1_variant t then map_inr MsSecp256k1 (ecdsa_signer_from_bytes k256 b)
  else if is_secp256r1_variant t then map_inr MsSecp256r1 (ecdsa_signer_from_bytes p256 b)
  else if is_secp384r1_variant t then map_inr MsSecp384r1 (ecdsa_signer_from_bytes p384 b)
  else if is_sr25519_variant t then map_inr MsSr25519 (sr25519_signer_from_bytes b)
  else inl SgInvalidArgument.
Definition signer_to_bytes (s : MemorySigner) : bytes :=
  match s with
  | MsEd25519 k => ed_key_to_bytes k
  | MsSecp256k1 sk => signing_key_to_bytes k256 sk
  | MsSecp256r1 sk => signing_key_to_bytes p256 sk
  | MsSecp384r1 sk => signing_key_to_bytes p384 sk
  | MsSr25519 kp => sr_to_half_ed25519_bytes kp
  end.
Definition memory_public_key (s : MemorySigner) : PublicKey :=
  match s with
  | MsEd25519 k => ed_key_public_key k
  | MsSecp256k1 sk => Secp256k1 (compressed_point k256 sk)
  | MsSecp256r1 sk => Secp256r1 (compressed_point p256 sk)
  | MsSecp384r1 sk => Secp384r1 (compressed_point p384 sk)
  | MsSr25519 kp => Sr25519 (sr_public kp)
  end.
Definition memory_sign (s : MemorySigner) (context message : bytes) : SignatureError + Signature :=
  match s with
  | MsEd25519 k => ed25519_sign k context message
  | MsSecp256k1 sk => secp256k1_sign sk context message
  | MsSecp256r1 sk => secp256r1_sign sk context message
  | MsSecp384r1 sk => secp384r1_sign sk context message
  | MsSr25519 kp => sr25519_sign kp context message
  end.
Definition memory_sign_raw (s : MemorySigner) (message : bytes) : SignatureError + Signature :=
  match s with
  | MsEd25519 k => ed25519_sign_raw k message
  | MsSecp256k1 sk => ecdsa_sign_raw k256 sk message
  | MsSecp256r1 sk => ecdsa_sign_raw p256 sk message
  | MsSecp384r1 sk => ecdsa_sign_raw p384 sk message
  | MsSr25519 kp => sr25519_sign_raw kp message
  end.
Definition sign_by_type (s : MemorySigner) (t : SignatureType) (context_or_hash message : bytes)
    : SignatureError + Signature :=
  match s with
  | MsEd25519 k =>
      match t with
      | Ed25519_Oasis => ed25519_sign k context_or_hash message
      | Ed25519_Pure => ed25519_sign_raw k message
      | Ed25519_PrehashedSha512 => precomputed 64 context_or_hash (ed_key_sign_digest k)
      | _ => inl SgInvalidArgument
      end
  | MsSecp256k1 sk =>
      match t with
      | Secp256k1_Oasis => secp256k1_sign sk context_or_hash message
      | Secp256k1_PrehashedKeccak256 | Secp256k1_PrehashedSha256 =>
          precomputed 32 context_or_hash (ecdsa_sign_digest k256 sk)
      | _ => inl SgInvalidArgument
      end
  | MsSecp256r1 sk =>
      match t with
      | Secp256r1_PrehashedSha256 => precomputed 32 context_or_hash (ecdsa_sign_digest p256 sk)
      | _ => inl SgInvalidArgument
      end
  | MsSecp384r1 sk =>
      match t with
      | Secp384r1_PrehashedSha384 => precomputed 48 context_or_hash (ecdsa_sign_digest p384 sk)
      | _ => inl SgInvalidArgument
      end
  | MsSr25519 kp =>
      match t with
      | Sr25519_Pure => sr25519_sign kp context_or_hash message
      | _ => inl SgInvalidArgument
      end
  end.
(** A memory signer as the signer of a transaction. *)
Definition transaction_signer (s : MemorySigner) : Signer :=
  {| signer_public_key := memory_public_key s;
     signer_sign context message := match memory_sign s context message with inr sig => Some sig | inl _ => None end |}.
End schemes.

(** * What the libraries promise *)

(** Signatures verify under the public key of the signing key, and serialization is lossless. *)
Class EcdsaLaws (lib : Ecdsa) : Prop := {
  der_roundtrip sig : from_der lib (to_der lib sig) = Some sig;
  signing_key_roundtrip sk : signing_key_from_slice lib (signing_key_to_bytes lib sk) = Some sk;
  compressed_point_key sk :
    encoded_point lib (compressed_point lib sk) = true ∧
    ∃ vk, verifying_key_from_point lib (compressed_point lib sk) = Some vk ∧
      (∀ digest, ec_verify_digest lib vk digest (ec_sign_digest lib sk digest) = true) ∧
      (∀ message, ec_verify lib vk message (ec_sign lib sk message) = true);
}.
Definition ed_public `{SignatureLibs} (k : EdKey) : bytes :=
  match k with Expanded hash => esk_public hash | Regular sk => sk_public sk end.
Class SignatureLaws `{SignatureLibs} : Prop := {
  #[global] k256_laws :: EcdsaLaws k256;
  #[global] p256_laws :: EcdsaLaws p256;
  #[global] p384_laws :: EcdsaLaws p384;
  ed_public_key_ok k : length (ed_public k) = CORE_PUBLIC_KEY_LEN ∧ decompress (ed_public k) = true ∧ dalek_key (ed_public k) = true;
  (** a context is hashed in front of a message *)
  ed_sign_ok k context message : core_verify (ed_public k) context message (ed_key_sign k (sha512_256 (context ++ message))) = true;
  ed_sign_raw_ok k message : core_verify_raw (ed_public k) message (ed_key_sign k message) = true;
  ed_sign_len k message : length (ed_key_sign k message) = CORE_SIGNATURE_LEN;
  (** signing a digest without a context does not fail *)
  ed_sign_digest_ok k digest : ∃ sig, ed_key_sign_digest k digest = inr sig ∧ length sig = CORE_SIGNATURE_LEN ∧
    dalek_verify_prehashed (ed_public k) digest sig = true;
  sr_public_ok kp : sr_public_key (sr_public kp) = true;
  sr_half_roundtrip kp : sr_from_half_ed25519_bytes (sr_to_half_ed25519_bytes kp) = Some kp;
  sr_sign_ok kp context message :
    sr_signature (sr_sign_simple kp context message) = true ∧
    sr_verify (sr_public kp) (sr_transcript_bytes context message) (sr_sign_simple kp context message) = true;
}.

(** The scheme of a signature type, the scheme of a signer, and the size of the digest that a type is for. *)
Inductive Scheme := SchemeEd25519 | SchemeSecp256k1 | SchemeSecp256r1 | SchemeSecp384r1 | SchemeSr25519.
#[global] Instance Scheme_eq_dec : EqDecision Scheme.
Proof. solve_decision. Defined.
Definition scheme_of_type (t : SignatureType) : Scheme :=
  match t with
  | Ed25519_Oasis | Ed25519_Pure | Ed25519_PrehashedSha512 => SchemeEd25519
  | Secp256k1_Oasis | Secp256k1_PrehashedKeccak256 | Secp256k1_PrehashedSha256 => SchemeSecp256k1
  | Secp256r1_PrehashedSha256 => SchemeSecp256r1
  | Secp384r1_PrehashedSha384 => SchemeSecp384r1
  | Sr25519_Pure => SchemeSr25519
  end.
Definition scheme_of_signer `{SignatureLibs} (s : MemorySigner) : Scheme :=
  match s with
  | MsEd25519 _ => SchemeEd25519
  | MsSecp256k1 _ => SchemeSecp256k1
  | MsSecp256r1 _ => SchemeSecp256r1
  | MsSecp384r1 _ => SchemeSecp384r1
  | MsSr25519 _ => SchemeSr25519
  end.
Definition digest_size (t : SignatureType) : option nat :=
  match t with
  | Ed25519_PrehashedSha512 => Some 64
  | Secp384r1_PrehashedSha384 => Some 48
  | Secp256k1_PrehashedKeccak256 | Secp256k1_PrehashedSha256 | Secp256r1_PrehashedSha256 => Some 32
  | _ => None
  end.
(** What a signature of a type is for: a signer of its scheme, and a digest of its size if it is of one. *)
Definition fits `{SignatureLibs} (s : MemorySigner) (t : SignatureType) (context_or_hash : bytes) : Prop :=
  scheme_of_type t = scheme_of_signer s ∧ from_option (λ n, length context_or_hash = n) True (digest_size t).

Section lemmas.
Context `{SignatureLibs} `{!SignatureLaws}.

Lemma signature_type_roundtrip t : signature_type_try_from (as_int t) = inr t.
Proof. by destruct t. Qed.
Lemma prehashed_digest_size t : is_prehashed t = bool_decide (is_Some (digest_size t)).
Proof. by destruct t. Qed.
Lemma dummy_precomputed hash b : dummy_finalize hash (length b) (new_precomputed b) = Ok b.
Proof. unfold dummy_finalize. simpl. by rewrite Nat.eqb_refl. Qed.

Lemma ecdsa_verify_signed lib `{!EcdsaLaws lib} sk digest :
  ecdsa_verify_digest lib (compressed_point lib sk) digest (to_der lib (ec_sign_digest lib sk digest)) = inr tt.
Proof.
  destruct (compressed_point_key (lib := lib) sk) as (_ & vk & Hvk & Hd & _).
  unfold ecdsa_verify_digest, ecdsa_verify_with. by rewrite der_roundtrip, Hvk, Hd.
Qed.
Lemma ecdsa_verify_signed_raw lib `{!EcdsaLaws lib} sk message :
  ecdsa_verify_raw lib (compressed_point lib sk) message (to_der lib (ec_sign lib sk message)) = inr tt.
Proof.
  destruct (compressed_point_key (lib := lib) sk) as (_ & vk & Hvk & _ & Hm).
  unfold ecdsa_verify_raw, ecdsa_verify_with. by rewrite der_roundtrip, Hvk, Hm.
Qed.
Lemma ed25519_verify_signed k context message :
  ed25519_verify (ed_public k) context message (ed_key_sign k (sha512_256 (context ++ message))) = inr tt.
Proof. unfold ed25519_verify. by rewrite ed_sign_len, Nat.eqb_refl, ed_sign_ok. Qed.
Lemma ed25519_verify_signed_raw k message : ed25519_verify_raw (ed_public k) message (ed_key_sign k message) = inr tt.
Proof. unfold ed25519_verify_raw. by rewrite ed_sign_len, Nat.eqb_refl, ed_sign_raw_ok. Qed.
Lemma ed25519_verify_signed_digest k digest :
  ∃ sig, ed_key_sign_digest k digest = inr sig ∧ ed25519_verify_digest (ed_public k) digest sig = inr tt.
Proof.
  destruct (ed_sign_digest_ok k digest) as (sig & Hs & Hlen & Hv). destruct (ed_public_key_ok k) as (_ & _ & Hk).
  exists sig. split; [done|]. unfold ed25519_verify_digest. by rewrite Hlen, Nat.eqb_refl, Hk, Hv.
Qed.
Lemma sr25519_verify_signed kp context message :
  sr25519_verify_raw (sr_public kp) context message (sr_sign_simple kp context message) = inr tt.
Proof.
  destruct (sr_sign_ok kp context message) as [Hs Hv]. unfold sr25519_verify_raw, verify_transcript.
  by rewrite sr_public_ok, Hs, Hv.
Qed.
Lemma ed_public_eq k : ed_key_public_key k = Ed25519 (ed_public k).
Proof. done. Qed.

(** What the verification of a signature over a context and a message comes to: the scheme Secp256r1 verifies SHA-512/256
    of what was signed as SHA-256, and Sr25519 another transcript than the one that was signed. *)
Definition context_verdict (s : MemorySigner) (context message : bytes) : SignatureError + unit :=
  match s with
  | MsSecp256r1 sk =>
      ecdsa_verify_digest p256 (compressed_point p256 sk) (sha512_256 (context ++ message))
        (to_der p256 (ec_sign_digest p256 sk (sha256 (context ++ message))))
  | MsSr25519 kp =>
      if sr_verify (sr_public kp) (sr_transcript_hash256 context (sha512_256 message)) (sr_sign_simple kp context message)
      then inr tt else inl SgVerificationFailed
  | _ => inr tt
  end.
Lemma context_signatures s context message :
  ∃ sig, memory_sign s context message = inr sig ∧
         pk_verify (memory_public_key s) context message sig = context_verdict s context message.
Proof.
  destruct s; (eexists; split; [reflexivity|]); simpl.
  - apply ed25519_verify_signed.
  - unfold secp256k1_verify. by rewrite ecdsa_verify_signed by apply _.
  - done.
  - apply ecdsa_verify_signed, _.
  - unfold sr25519_verify, verify_transcript. rewrite sr_public_ok, (proj1 (sr_sign_ok _ _ _)). done.
Qed.

Lemma precomputed_ok {A} n c (f : bytes → SignatureError + A) : length c = n → precomputed n c f = f c.
Proof. intros <-. unfold precomputed. by rewrite Nat.eqb_refl. Qed.
Lemma precomputed_err {A} n c (f : bytes → SignatureError + A) : length c ≠ n → precomputed n c f = inl SgInvalidArgument.
Proof. intros Hn%Nat.eqb_neq. unfold precomputed. by rewrite Hn. Qed.
End lemmas.

Module SignatureClaims.
Section claims.
Context `{SignatureLibs} `{!SignatureLaws}.

(** C24. Signing and verifying by type fit together: for a type of the scheme of the signer, with a digest of the size of the
    type if it is for digests, signing succeeds and the signature verifies under the public key of the signer for that
    type; in every other case signing and verifying both fail with an invalid argument. *)
Theorem typed_signatures_verify s t context_or_hash message :
  (fits s t context_or_hash →
     ∃ sig, sign_by_type s t context_or_hash message = inr sig ∧
            pk_verify_by_type (memory_public_key s) t context_or_hash message sig = inr tt) ∧
  (¬ fits s t context_or_hash →
     sign_by_type s t context_or_hash message = inl SgInvalidArgument ∧
     ∀ sig, pk_verify_by_type (memory_public_key s) t context_or_hash message sig = inl SgInvalidArgument).
Proof.
  unfold fits. split.
  - intros [Hsch Hlen]. destruct s, t; simpl in *; try done; try rewrite precomputed_ok by done;
      try (eexists; split; [reflexivity|]; try rewrite precomputed_ok by done);
      eauto using ecdsa_verify_signed, ed25519_verify_signed, ed25519_verify_signed_raw, sr25519_verify_signed.
    + destruct (ed25519_verify_signed_digest k context_or_hash) as (sig & Hs & Hv). exists sig.
      split; [done|]. by rewrite precomputed_ok.
    + unfold secp256k1_verify. by rewrite ecdsa_verify_signed by apply _.
    + apply ecdsa_verify_signed, _.
    + apply ecdsa_verify_signed, _.
    + apply ecdsa_verify_signed, _.
    + apply ecdsa_verify_signed, _.
  - intros Hn. destruct s, t; simpl in *; try (split; done); try tauto;
      rewrite precomputed_err by tauto; (split; [done|]); intros; by rewrite precomputed_err by tauto.
Qed.

(** Transactions that are signed with a memory signer verify for the schemes Ed25519 and Secp256k1.  A defect for
    Sr25519: the signer signs the message in the transcript of the context, the verifier looks for the transcript of a
    digest of it, so that verification is left to a comparison of a signature with another transcript. *)
Theorem memory_signed_transactions `{Hc : Crypto} `{codec : !TxCodec} s tx si spec
    (Hcrypto : ∀ pk context message sig, verify_signature pk context message sig = bool_decide (pk_verify pk context message sig = inr tt))
    (Hcodec : tx_from_slice (tx_to_vec tx) = Some tx) :
  validate_basic tx = inr tt →
  signer_info (tx_auth_info tx) = [si] → si_address_spec si = AddrSignature spec → spec_public_key spec = memory_public_key s →
  ∃ ts, append_sign (transaction_signer_new tx) (transaction_signer s) = inr ts ∧
    verify (ts_ut ts) =
      match s with
      | MsSr25519 kp =>
          let context := chain_context_for SIGNATURE_CONTEXT_BASE in
          if sr_verify (sr_public kp) (sr_transcript_hash256 context (sha512_256 (tx_to_vec tx)))
               (sr_sign_simple kp context (tx_to_vec tx))
          then inr tx else inl (TxMalformedTransaction "signature verification failed")
      | _ => inr tx
      end.
Proof.
  intros Hb Hsi Has Hpk.
  destruct (context_signatures s (chain_context_for SIGNATURE_CONTEXT_BASE) (tx_to_vec tx)) as (sig & Hs & Hv).
  unfold append_sign, transaction_signer_new, transaction_signer. simpl. rewrite Hs, Hsi. simpl.
  unfold allocate_proof at 1. rewrite Has, <- Hpk, bool_decide_eq_true_2 by done. eexists. split; [done|].
  unfold verify. simpl. rewrite Hcodec, Hb, Hsi. simpl. unfold address_spec_batch. rewrite Has. simpl.
  unfold verify_batch_multisig. simpl. rewrite andb_true_r, Hcrypto, Hpk, Hv. clear Has Hs Hv.
  destruct s; simpl in *; try done; try (by destruct spec). by destruct (sr_verify _ _ _).
Qed.
End claims.

(** Libraries in which a public key of ECDSA is its secret key and signatures show what was signed. *)
Definition toy_ecdsa : Ecdsa := {|
  SigningKey := bytes; VerifyingKey := bytes; EcSignature := bytes;
  encoded_point _ := true;
  signing_key_from_slice b := Some b; signing_key_to_bytes b := b; compressed_point b := b;
  verifying_key_from_point b := Some b;
  ec_sign_digest sk d := (sk ++ d); ec_sign sk m := (sk ++ m);
  ec_verify_digest vk d sig := bool_decide (sig = vk ++ d); ec_verify vk m sig := bool_decide (sig = vk ++ m);
  to_der sig := sig; from_der b := Some b;
|}.
Definition pad (n : nat) (b : bytes) : bytes := take n (b ++ replicate n x00).
Lemma pad_length n b : length (pad n b) = n.
Proof. unfold pad. rewrite length_take, length_app, length_replicate. lia. Qed.
#[local] Instance toy_libs : SignatureLibs := {
  k256 := toy_ecdsa; p256 := toy_ecdsa; p384 := toy_ecdsa;
  sha256 m := x02 :: m; sha384 m := x03 :: m; sha512_256 m := x04 :: m;
  decompress _ := true;
  core_verify pk c m sig := bool_decide (sig = pad 64 (x04 :: c ++ m));
  core_verify_raw pk m sig := bool_decide (sig = pad 64 m);
  sk_public b := pad 32 b; esk_public b := pad 32 b; sk_sign _ m := pad 64 m; esk_sign _ m := pad 64 m;
  sk_sign_prehashed _ d := Some (pad 64 d); esk_sign_prehashed _ d := Some (pad 64 d);
  dalek_key _ := true; dalek_verify_prehashed _ d sig := bool_decide (sig = pad 64 d);
  SrKeypair := bytes; SrTranscript := bytes;
  sr_transcript_bytes c m := x00 :: c ++ m; sr_transcript_hash256 c d := x01 :: c ++ d;
  sr_public_key _ := true; sr_from_seed b := Some b; sr_from_half_ed25519_bytes b := Some b;
  sr_to_half_ed25519_bytes b := b; sr_public b := b;
  sr_sign_simple _ c m := x00 :: c ++ m; sr_signature _ := true; sr_verify _ t sig := bool_decide (sig = t);
}.
Lemma toy_ecdsa_laws : EcdsaLaws toy_ecdsa.
Proof.
  split; [done..|]. intros sk. split; [done|]. exists sk. split; [done|]. split; intros; by apply bool_decide_eq_true_2.
Qed.
#[local] Instance toy_signature_laws : SignatureLaws.
Proof.
  split; try apply toy_ecdsa_laws; try done.
  - intros []; (split; [apply pad_length|done]).
  - intros []; intros; by apply bool_decide_eq_true_2.
  - intros []; intros; by apply bool_decide_eq_true_2.
  - intros []; intros; apply pad_length.
  - intros [] d; exists (pad 64 d); (split; [done|]; split; [apply pad_length|]; by apply bool_decide_eq_true_2).
  - intros. split; [done|]. by apply bool_decide_eq_true_2.
Qed.
#[local] Instance toy_signature_crypto : Crypto := {
  Value := bytes; value_null := [];
  digest _ := exist _ (replicate 32 x00) eq_refl;
  to_eth_address _ := exist _ (replicate 20 x00) eq_refl;
  verify_signature pk c m sig := bool_decide (pk_verify pk c m sig = inr tt);
  chain_context_for c := c;
}.
(** A transaction with one signer. *)
Definition toy_signed_tx (spec : SignatureAddressSpec) : Transaction := {|
  tx_version := 1;
  tx_call := {| call_format := Plain; call_method := "m"; call_body := []; call_read_only := false |};
  tx_auth_info := {| signer_info := [{| si_address_spec := AddrSignature spec; si_nonce := 0 |}];
                     ai_fee := {| fee_amount := base_units_native 0; fee_gas := 0; fee_consensus_messages := 0; fee_proxy := None |};
                     not_before := None; not_after := None |};
|}.
Definition toy_tx_codec (tx : Transaction) : TxCodec :=
  {| tx_to_vec _ := [x05]; tx_from_slice _ := Some tx; config_to_vec _ := [] |}.

Lemma typed_signatures_verify_witness :
  ∃ sig, sign_by_type (MsSecp256r1 ([x07] : SigningKey (@p256 toy_libs))) Secp256r1_PrehashedSha256 (replicate 32 x01) [] = inr sig ∧
    pk_verify_by_type (Secp256r1 [x07]) Secp256r1_PrehashedSha256 (replicate 32 x01) [] sig = inr tt.
Proof.
  apply (typed_signatures_verify (MsSecp256r1 ([x07] : SigningKey (@p256 toy_libs))) Secp256r1_PrehashedSha256 (replicate 32 x01) []).
  by split.
Defined.

(** The transaction of a signer with a key of Sr25519 is rejected. *)
Lemma memory_signed_transactions_witness :
  let tx := toy_signed_tx (SpecSr25519 [x07]) in
  let codec := toy_tx_codec tx in
  ∃ ts, append_sign (transaction_signer_new tx) (transaction_signer (MsSr25519 ([x07] : @SrKeypair toy_libs))) = inr ts ∧
    verify (ts_ut ts) = inl (TxMalformedTransaction "signature verification failed").
Proof.
  pose (tx := toy_signed_tx (SpecSr25519 [x07])).
  exact (memory_signed_transactions (codec := toy_tx_codec tx) (MsSr25519 ([x07] : @SrKeypair toy_libs)) tx
           {| si_address_spec := AddrSignature (SpecSr25519 [x07]); si_nonce := 0 |} (SpecSr25519 [x07])
           (λ _ _ _ _, eq_refl) eq_refl eq_refl eq_refl eq_refl eq_refl).
Defined.
End SignatureClaims.
