(* ===== verification/CallFormat.v ===== *)
(** Call formats: decoding encrypted calls and encoding their results
    (src/runtime-sdk/src/callformat.rs, types/callformat.rs). *)
From S2P Require Import Prelude Endian Storage StoreIter Types Fee Errors State Current Concrete Transactions Module.

Local Open Scope string_scope.

Definition CALL_DATA_KEY_PAIR_ID_CONTEXT_BASE : bytes := str "oasis-runtime-sdk/private: tx".
Definition MAX_EPHEMERAL_KEY_AGE : N := 5.
Definition NONCE_SIZE : nat := 15.

Record CallEnvelope := { env_pk : bytes; env_nonce : bytes; env_epoch : N; env_data : bytes }.
Record ResultEnvelope := { renv_nonce : bytes; renv_data : bytes }.

(** The authenticated encryption, the hash behind key pair identifiers and the encodings are outside of the
    repository. *)
Class CallCrypto `{Platform} := {
  envelope_value :: CborValue CallEnvelope;
  result_envelope_value :: CborValue ResultEnvelope;
  call_from_slice : bytes → option Call;
  result_to_vec : TxCallResult → bytes;
  (** [TupleHash::v256] with its domain *)
  tuple_hash_v256 : bytes → list bytes → bytes;
  (** nonce, data, public key, private key *)
  box_open : bytes → bytes → bytes → bytes → option bytes;
  box_seal : bytes → bytes → bytes → bytes → option bytes;
}.

Inductive Metadata :=
  | MetadataEmpty
  | MetadataEncrypted (pk sk : bytes) (index : N).

Section callformat.
Context `{Platform} `{!CallCrypto}.

(** [keymanager::get_key_pair_id] and [callformat::get_key_pair_id]. *)
Definition KEY_PAIR_ID_CONTEXT : bytes := str "oasis-runtime-sdk/keymanager: key pair id".
Definition get_key_pair_id (epoch : N) : bytes :=
  tuple_hash_v256 KEY_PAIR_ID_CONTEXT [chain_context_for CALL_DATA_KEY_PAIR_ID_CONTEXT_BASE; be_bytes64 epoch].

Definition verify_epoch (ctx : Ctx) (epoch : N) : M CoreError unit :=
  if (ctx_epoch ctx <? epoch)%N then throw (InvalidCallFormat "epoch in the future")
  else if (epoch <? saturating_sub (ctx_epoch ctx) MAX_EPHEMERAL_KEY_AGE)%N
       then throw (InvalidCallFormat "epoch too far in the past")
  else mret tt.

(** The closure [decrypt].  Its error type is [anyhow::Error] (that of [box_open]), into which the
    [?] operator converts the error of the key manager. *)
Definition decrypt (km : bytes → N → KeyManagerError + bytes) (envelope : CallEnvelope) (epoch : N)
    : string + bytes * bytes :=
  match km (get_key_pair_id epoch) epoch with
  | inl InvalidEpoch => inl (to_string (InvalidCallFormat "invalid epoch"))
  | inl (OtherKeyManagerError msg) => inl (to_string (Abort_ (KeyManagerFailure msg)))
  | inr sk =>
      match box_open (env_nonce envelope) (env_data envelope) (env_pk envelope) sk with
      | Some data => inr (data, sk)
      | None => inl "box open failed"
      end
  end.

Definition decode_call_ex (ctx : Ctx) (call : Call) (index : N) (assume_km_reachable : bool)
    : M CoreError (option (Call * Metadata)) :=
  match call_format call with
  | Plain => mret (Some (call, MetadataEmpty))
  | EncryptedX25519DeoxysII =>
      if negb (bool_decide (call_method call = "")) then throw (InvalidCallFormat "non-empty method")
      else
        envelope ← ok_or (from_value (call_body call)) (InvalidCallFormat "bad call envelope");
        km ← ok_or (ctx_key_manager ctx) (InvalidCallFormat "confidential txs unavailable");
        execute ← with_env is_execute;
        if negb assume_km_reachable && negb execute then mret None
        else
          r ← (if (0 <? env_epoch envelope)%N then
                 verify_epoch ctx (env_epoch envelope) ;;
                 mret (decrypt km envelope (env_epoch envelope))
               else
                 mret (match decrypt km envelope (ctx_epoch ctx) with
                       | inr r => inr r
                       | inl _ => decrypt km envelope (wrapping_sub u64_max (ctx_epoch ctx) 1)
                       end));
          match r with
          | inl e => throw (InvalidCallFormat e)
          | inr (data, sk) =>
              call' ← ok_or (call_from_slice data) (InvalidCallFormat "malformed call");
              if bool_decide (call_read_only call' ≠ call_read_only call)
              then throw (InvalidCallFormat "read-only flag mismatch")
              else mret (Some (call', MetadataEncrypted (env_pk envelope) sk index))
          end
  end.

Definition decode_call (ctx : Ctx) (call : Call) (index : N) : M CoreError (option (Call * Metadata)) :=
  decode_call_ex ctx call index false.

(** Round (8 bytes), index (4 bytes), three zero bytes. *)
Definition result_nonce (round index : N) : bytes :=
  be_bytes64 round ++ be_bytes32 index ++ [x00; x00; x00].

(** The bytes drawn outside of execution are an argument. *)
Definition encrypt_result_x25519_deoxysii {E} (ctx : Ctx) (entropy : bytes) (result : TxCallResult)
    (pk sk : bytes) (index : N) : M E Value :=
  execute ← with_env is_execute;
  nonce ← (if (execute : bool) then
             if (u32_max <? index)%N then panic "called Result::unwrap on an Err value"
             else mret (result_nonce (ctx_round ctx) index)
           else mret (take NONCE_SIZE entropy));
  data ← expect (box_seal nonce (result_to_vec result) pk sk) "called Result::unwrap on an Err value";
  mret (to_value {| renv_nonce := nonce; renv_data := data |}).

Definition tx_is_success (r : TxCallResult) : bool :=
  match r with TxFailed _ _ _ => false | _ => true end.

Definition encode_result_ex {E} (ctx : Ctx) (entropy : bytes) (result : CallResult)
    (metadata : Metadata) (expose_failure : bool) : M E TxCallResult :=
  match metadata with
  | MetadataEmpty => mret (to_tx_call_result result)
  | MetadataEncrypted pk sk index =>
      let result := to_tx_call_result result in
      if expose_failure then
        if tx_is_success result then
          v ← encrypt_result_x25519_deoxysii ctx entropy result pk sk index; mret (TxOk v)
        else mret result
      else v ← encrypt_result_x25519_deoxysii ctx entropy result pk sk index; mret (TxUnknown v)
  end.

Definition encode_result {E} (ctx : Ctx) (entropy : bytes) (result : CallResult)
    (metadata : Metadata) : M E TxCallResult :=
  encode_result_ex ctx entropy result metadata false.
End callformat.

(** * Properties *)

Section framed.
Context `{Platform} `{!MKVSLaws} `{!CallCrypto}.
Lemma framed_decode_call ctx call index : framed (decode_call ctx call index).
Proof. unfold decode_call, decode_call_ex, verify_epoch. solve_framed. Qed.
Lemma framed_encode_result {E} ctx en r md : framed (encode_result (E := E) ctx en r md).
Proof. unfold encode_result, encode_result_ex, encrypt_result_x25519_deoxysii. solve_framed. Qed.
End framed.
#[export] Hint Resolve framed_decode_call framed_encode_result : framed.

Module Confidential.
Section claims.
Context `{Platform} `{!CallCrypto}.

(** Decrypting a call does not change its read-only flag, so that authorization that looked at
    the outer flag cannot be bypassed; and decoding does not change the state. *)
Theorem decode_preserves_read_only ctx call index s call' md s' :
  decode_call ctx call index s = (Ok (Some (call', md)), s') →
  call_read_only call' = call_read_only call ∧ s' = s.
Proof.
  unfold decode_call, decode_call_ex, verify_epoch, with_env. intros Hrun.
  run_simpl_in Hrun. case_run; split; try done; by case_bool_decide.
Qed.

(** Decoding never aborts the batch: every error it returns is an ordinary failure of the
    transaction, the errors of the key manager included. *)
Theorem decode_never_aborts ctx call index km_reachable s e s' :
  decode_call_ex ctx call index km_reachable s = (Err e, s') → into_abort e = None.
Proof.
  unfold decode_call_ex, verify_epoch, with_env. intros Hrun. run_simpl_in Hrun. by case_run.
Qed.

(** The nonces under which results are encrypted in execution are distinct: the round and the
    index of the transaction in the batch can be read off the nonce. *)
Theorem result_nonce_inj round round' index index' :
  (round ≤ u64_max)%N → (round' ≤ u64_max)%N → (index ≤ u32_max)%N → (index' ≤ u32_max)%N →
  result_nonce round index = result_nonce round' index' → round = round' ∧ index = index'.
Proof.
  intros ? ? ? ? Heq. unfold result_nonce in Heq.
  apply app_inj_1 in Heq as [Hr Hi]; [|done]. apply app_inj_1 in Hi as [Hi _]; [|done].
  split; [by apply be_bytes64_inj|by apply be_bytes32_inj].
Qed.
End claims.

(** A key manager and a box on the concrete platform: the box is opened by its own key. *)
#[local] Existing Instances toy_platform toy_mkvs_laws.

Definition toy_call : Call :=
  {| call_format := EncryptedX25519DeoxysII; call_method := ""; call_body := [x01];
     call_read_only := true |}.
#[local] Instance toy_call_crypto : CallCrypto := {|
  envelope_value := {| to_value e := env_data e;
                       from_value v := Some {| env_pk := [x02]; env_nonce := []; env_epoch := 3;
                                               env_data := v |} |};
  result_envelope_value := {| to_value e := renv_data e; from_value _ := None |};
  call_from_slice b := Some {| call_format := Plain; call_method := "m"; call_body := b;
                               call_read_only := true |};
  result_to_vec _ := [];
  tuple_hash_v256 d l := concat (d :: l);
  box_open _ data _ sk := if bool_decide (sk = [x07]) then Some data else None;
  box_seal _ data _ _ := Some data;
|}.
Definition toy_ctx (km : KeyManagerError + bytes) : Ctx :=
  {| ctx_local_config := ∅; ctx_key_manager := Some (λ _ _, km); ctx_round := 1; ctx_epoch := 4;
     ctx_good_compute_entities := []; ctx_bad_compute_entities := []; ctx_messages := []; ctx_max_messages := 0;
     ctx_now := 7000 |}.
Definition toy_state : State := root_state Execute (MKVSStore (∅ : gmap bytes bytes)).

Lemma decode_preserves_read_only_witness :
  ∃ call', decode_call (toy_ctx (inr [x07])) toy_call 0 toy_state
             = (Ok (Some (call', MetadataEncrypted [x02] [x07] 0)), toy_state) ∧
           call_read_only call' = true.
Proof.
  eexists. split; [reflexivity|].
  apply (decode_preserves_read_only (toy_ctx (inr [x07])) toy_call 0 toy_state _
           (MetadataEncrypted [x02] [x07] 0) toy_state). reflexivity.
Defined.

Lemma decode_never_aborts_witness :
  ∃ e, decode_call_ex (toy_ctx (inl (OtherKeyManagerError "down"))) toy_call 0 false toy_state
         = (Err e, toy_state) ∧ into_abort e = None.
Proof.
  eexists. split; [reflexivity|].
  apply (decode_never_aborts (toy_ctx (inl (OtherKeyManagerError "down"))) toy_call 0 false
           toy_state _ toy_state). reflexivity.
Defined.

Lemma result_nonce_inj_witness : (5 = 5 ∧ 7 = 7)%N.
Proof. apply (result_nonce_inj 5 5 7 7); (reflexivity || (intros; discriminate)). Defined.
End Confidential.

(** Leaf generators of random numbers, forked from the root generator of a block
    (src/runtime-sdk/src/crypto/random.rs). *)

Local Open Scope string_scope.

Definition VRF_KEY_CONTEXT : bytes := str "oasis-runtime-sdk/crypto: root vrf key v1".

(** The schnorrkel and merlin libraries: key pairs, verifiable random functions of a transcript, and the
    generators built from them. *)
Class VrfCrypto `{Platform} := {
  Keypair : Type;
  (** [MiniSecretKey::from_bytes] and [expand_to_keypair] *)
  expand_to_keypair : bytes → string + Keypair;
  (** [vrf_create_hash] and [make_merlin_rng] *)
  vrf_create_rng : Keypair → Transcript → TranscriptRng * Transcript;
  (** [build_rng] of a transcript, finalized with the parent generator *)
  LeafRng : Type;
  leaf_rng : Transcript → TranscriptRng → LeafRng * TranscriptRng;
  (** [try_fill_bytes] of so many bytes *)
  leaf_fill : LeafRng → N → bytes;
  (** [runtime_header().encoded_hash()] *)
  encoded_header_hash : bytes;
  km_error_string : KeyManagerError → string;
  km_not_initialized_string : string;
}.
Class VrfLaws `{VrfCrypto} : Prop := leaf_fill_length r n : length (leaf_fill r n) = N.to_nat n.

Section random.
Context `{Platform} `{!CallCrypto} `{!VrfCrypto}.

Definition mode_u8 (m : Mode) : Byte.byte :=
  match m with Execute => x00 | Check_ => x01 | Simulate => x02 | PreSchedule => x03 end.
(** [keymanager::get_key_pair_id]. *)
Definition key_pair_id (contexts : list bytes) : bytes := tuple_hash_v256 KEY_PAIR_ID_CONTEXT contexts.

Definition derive_root_vrf_key (ctx : Ctx) (mode : Mode) : CoreError + Keypair :=
  match ctx_key_manager ctx with
  | None => inl (Abort_ (KeyManagerFailure km_not_initialized_string))
  | Some km =>
      let key_id := key_pair_id [VRF_KEY_CONTEXT; [mode_u8 mode]; encoded_header_hash] in
      match km key_id (ctx_epoch ctx) with
      | inl err => inl (Abort_ (KeyManagerFailure (km_error_string err)))
      | inr sk =>
          match expand_to_keypair sk with
          | inl err => inl (Abort_ (KeyManagerFailure err))
          | inr kp => inr kp
          end
      end
  end.

(** The generator once it is initialized. *)
Definition rng_initialized (ctx : Ctx) (r : RootRng) : CoreError + TranscriptRng * Transcript :=
  match rng_inner r with
  | Some rng => inr (rng, rng_transcript r)
  | None =>
      match derive_root_vrf_key ctx (rng_mode r) with
      | inl e => inl e
      | inr kp => inr (vrf_create_rng kp (rng_transcript r))
      end
  end.
(** [RootRng::fork]: the leaf and the generator after it, which is updated in place. *)
Definition fork (ctx : Ctx) (pers : bytes) (r : RootRng) : (CoreError + LeafRng) * RootRng :=
  if negb (rng_valid r) then (inl (InvalidArgument "rng is not available"), r)
  else
    match rng_initialized ctx r with
    | inl e => (inl e, r)
    | inr (rng, transcript) =>
        let transcript := transcript_append transcript (str "fork") pers in
        let '(leaf, rng) := leaf_rng transcript rng in
        (inr leaf, {| rng_transcript := transcript; rng_inner := Some rng; rng_mode := rng_mode r; rng_valid := true |})
    end.
(** [CurrentState::with(|state| state.rng().fork(..))]. *)
Definition with_rng_fork {E} (ctx : Ctx) (pers : bytes) : M E (CoreError + LeafRng) :=
  s ← get_st;
  match st_rng s with
  | None => panic "called unwrap on a None value"
  | Some r => modify (set_rng (Some (fork ctx pers r).2)) ;; mret (fork ctx pers r).1
  end.
End random.
