(* ===== verification/Core.v ===== *)
(** The core module: parameters, gas accounting, gas prices, and the hooks that enforce them
    (src/runtime-sdk/src/modules/core/mod.rs). *)
From S2P Require Import Prelude Storage StoreIter Types Fee Errors State Current Transactions Module.
From S2P Require Import Concrete.

Local Open Scope string_scope.

Definition CORE_MODULE_NAME : string := "core".

(** * Parameters and configuration *)

Record CoreGasCosts := {
  tx_byte : N;
  storage_byte : N;
  auth_signature : N;
  auth_multisig_signer : N;
  callformat_x25519_deoxysii : N;
}.

Record DynamicMinGasPrice := {
  dyn_enabled : bool;
  target_block_gas_usage_percentage : N;
  min_price_max_change_denominator : N;
}.

Record CoreParameters := {
  max_batch_gas_param : N;
  max_tx_size : N;
  max_tx_signers : N;
  max_multisig_signers : N;
  core_gas_costs : CoreGasCosts;
  min_gas_price_param : gmap Denomination N;
  dynamic_min_gas_price : DynamicMinGasPrice;
}.

Definition core_parameters_default : CoreParameters := {|
  max_batch_gas_param := 0; max_tx_size := 0; max_tx_signers := 0; max_multisig_signers := 0;
  core_gas_costs := {| tx_byte := 0; storage_byte := 0; auth_signature := 0;
                       auth_multisig_signer := 0; callformat_x25519_deoxysii := 0 |};
  min_gas_price_param := ∅;
  dynamic_min_gas_price := {| dyn_enabled := false; target_block_gas_usage_percentage := 0;
                              min_price_max_change_denominator := 0 |};
|}.

Inductive CoreParameterValidationError :=
  | InvalidTargetBlockGasUsagePercentage
  | InvalidMinPriceMaxChangeDenominator.

Definition core_validate_basic (p : CoreParameters) : CoreParameterValidationError + unit :=
  let dmgp := dynamic_min_gas_price p in
  if dyn_enabled dmgp then
    if (target_block_gas_usage_percentage dmgp <? 10)%N ||
       (100 <? target_block_gas_usage_percentage dmgp)%N
    then inl InvalidTargetBlockGasUsagePercentage
    else if (min_price_max_change_denominator dmgp <? 1)%N ||
            (50 <? min_price_max_change_denominator dmgp)%N
    then inl InvalidMinPriceMaxChangeDenominator
    else inr tt
  else inr tt.

(** [LocalConfig], provided by the node operator. *)
Record LocalConfig := {
  lc_min_gas_price : gmap Denomination N;
  lc_max_estimated_gas : N;
  lc_estimate_gas_search_max_iters : N;
}.

(** [Config], provided by the runtime. *)
Class CoreConfig := {
  DEFAULT_LOCAL_MIN_GAS_PRICE : gmap Denomination N;
  DEFAULT_LOCAL_ESTIMATE_GAS_SEARCH_MAX_ITERS : N;
  ESTIMATE_GAS_EXTRA_FAIL : gmap string N;
  MIN_GAS_PRICE_EXEMPT_METHODS : gset string;
  EMIT_GAS_USED_EVENTS : bool;
  ALLOW_INTERACTIVE_READ_ONLY_TRANSACTIONS : bool;
  GAS_COST_CALL_CALLDATA_PUBLIC_KEY : N;
  GAS_COST_CALL_CURRENT_EPOCH : N;
}.

(** The derived encodings of the types that the module stores or emits. *)
Class CoreCodec `{Platform} := {
  core_parameters_cbor :: Cbor CoreParameters;
  core_prices_cbor :: Cbor (gmap Denomination N);
  core_epoch_cbor :: Cbor N;
  core_local_config_value :: CborValue LocalConfig;
  gas_used_value : N → Value;
}.

Definition CORE_METADATA : bytes := [x01].
Definition CORE_MESSAGE_HANDLERS : bytes := [x02].
Definition CORE_LAST_EPOCH : bytes := [x03].
Definition CORE_DYNAMIC_MIN_GAS_PRICE : bytes := [x04].

Definition CONTEXT_KEY_GAS_USED : string := "core.GasUsed".
Definition CONTEXT_KEY_PRIORITY : string := "core.Priority".
Definition CONTEXT_KEY_SENDER_META : string := "core.SenderMeta".
Definition CONTEXT_KEY_EPOCH_CHANGED : string := "core.EpochChanged".

(** * Prices *)

(** [min_gas_price_update]: after EIP-1559, on 128-bit integers. *)
Definition min_gas_price_update (gas_used target_gas_used min_price_max_change_denominator
    current_price : N) : N :=
  if (target_gas_used =? 0)%N || (min_price_max_change_denominator =? 0)%N then current_price
  else
    let delta := (saturating_mul u128_max
                    (N.max gas_used target_gas_used - N.min gas_used target_gas_used) 100
                  / target_gas_used)%N in
    let price_change :=
      (saturating_mul u128_max current_price delta / 100 / min_price_max_change_denominator)%N in
    if (target_gas_used <? gas_used)%N then saturating_add u128_max current_price price_change
    else saturating_sub current_price price_change.

(** The number of signatures to verify, and their cost. *)
Fixpoint count_signers (signer_info : list SignerInfo) (num_signature num_multisig_signer : N)
    : option (N * N) :=
  match signer_info with
  | [] => Some (num_signature, num_multisig_signer)
  | si :: rest =>
      match si_address_spec si with
      | AddrSignature _ =>
          n ← checked_add u64_max num_signature 1; count_signers rest n num_multisig_signer
      | AddrMultisig config =>
          n ← checked_add u64_max num_multisig_signer (N.of_nat (length (ms_signers config)));
          count_signers rest num_signature n
      | AddrInternal _ => count_signers rest num_signature num_multisig_signer
      end
  end.

Definition compute_signature_verification_cost (params : CoreParameters)
    (signer_info : list SignerInfo) : option N :=
  '(num_signature, num_multisig_signer) ← count_signers signer_info 0 0;
  signature_cost ← checked_mul u64_max num_signature (auth_signature (core_gas_costs params));
  multisig_signer_cost ←
    checked_mul u64_max num_multisig_signer (auth_multisig_signer (core_gas_costs params));
  checked_add u64_max signature_cost multisig_signer_cost.

Section core.
Context `{Platform} `{!CoreCodec} `{!CoreConfig}.

Definition core_store : StoreRef := PrefixStore CurrentStore (str CORE_MODULE_NAME).
Definition core_params {E} : M E CoreParameters := params CORE_MODULE_NAME core_parameters_default.

(** * The API for other modules *)

Definition used_batch_gas {E} : M E N :=
  v ← value_get Block CONTEXT_KEY_GAS_USED; mret (default 0%N v).

Definition use_batch_gas (gas : N) : M CoreError unit :=
  check_only ← with_env is_check_only;
  if (check_only : bool) then mret tt
  else
    p ← core_params;
    let batch_gas_limit := max_batch_gas_param p in
    batch_gas_used ← used_batch_gas;
    batch_new_gas_used ← ok_or (checked_add u64_max batch_gas_used gas) (Abort_ BatchOutOfGas);
    if (batch_gas_limit <? batch_new_gas_used)%N then throw (Abort_ BatchOutOfGas)
    else value_set Block CONTEXT_KEY_GAS_USED batch_new_gas_used.

Definition use_tx_gas (gas : N) : M CoreError unit :=
  gas_limit ← with_tx_env (λ e, (λ ai, fee_gas (ai_fee ai)) <$> env_tx_auth_info e);
  gas_used ← value_or_default (V := N) Local_ CONTEXT_KEY_GAS_USED;
  sum ← ok_or (checked_add u64_max gas_used gas) GasOverflow;
  if (gas_limit <? sum)%N then throw (out_of_gas EMIT_GAS_USED_EVENTS gas_limit sum)
  else
    use_batch_gas gas ;;
    value_or_default (V := N) Local_ CONTEXT_KEY_GAS_USED ;;
    value_set Local_ CONTEXT_KEY_GAS_USED sum.

Definition remaining_batch_gas {E} : M E N :=
  p ← core_params; used ← used_batch_gas; mret (saturating_sub (max_batch_gas_param p) used).

Definition remaining_tx_gas {E} : M E N :=
  gas_limit ← with_tx_env (λ e, (λ ai, fee_gas (ai_fee ai)) <$> env_tx_auth_info e);
  gas_used ← value_or_default (V := N) Local_ CONTEXT_KEY_GAS_USED;
  remaining_batch ← remaining_batch_gas;
  mret (N.min (saturating_sub gas_limit gas_used) remaining_batch).

Definition used_tx_gas {E} : M E N := value_or_default (V := N) Local_ CONTEXT_KEY_GAS_USED.

Definition max_batch_gas {E} : M E N := p ← core_params; mret (max_batch_gas_param p).

Definition set_priority {E} (priority : N) : M E unit := value_set Block CONTEXT_KEY_PRIORITY priority.
Definition take_priority {E} : M E N :=
  v ← value_take Block CONTEXT_KEY_PRIORITY; mret (default 0%N v).

Definition set_sender_meta {E} (meta : SenderMeta) : M E unit :=
  value_set Block CONTEXT_KEY_SENDER_META meta.
Definition take_sender_meta {E} : M E SenderMeta :=
  v ← value_take Block CONTEXT_KEY_SENDER_META; mret (default sender_meta_default v).

Definition has_epoch_changed {E} : M E bool :=
  v ← value_get Block CONTEXT_KEY_EPOCH_CHANGED; mret (default false v).

Definition min_gas_prices {E} : M E (gmap Denomination N) :=
  p ← core_params;
  if dyn_enabled (dynamic_min_gas_price p) then
    v ← typed_get core_store CORE_DYNAMIC_MIN_GAS_PRICE;
    mret (default (min_gas_price_param p) v)
  else mret (min_gas_price_param p).

Definition min_gas_price {E} (denom : Denomination) : M E (option N) :=
  ps ← min_gas_prices; mret (ps !! denom).

Definition get_local_min_gas_price {E} (ctx : Ctx) (denom : Denomination) : M E N :=
  cfg ← local_config (T := LocalConfig) ctx CORE_MODULE_NAME;
  mret (default 0%N (match cfg with
                     | Some cfg => lc_min_gas_price cfg !! denom
                     | None => DEFAULT_LOCAL_MIN_GAS_PRICE !! denom
                     end)).

(** [query_min_gas_price]: the combined view with local overrides. *)
Definition query_min_gas_price {E} (ctx : Ctx) : M E (gmap Denomination N) :=
  mgp ← min_gas_prices;
  fold_m (map_to_list mgp) mgp (λ mgp '(denom, price),
    local_mgp ← get_local_min_gas_price ctx denom;
    mret (if (price <? local_mgp)%N then <[denom := local_mgp]> mgp else mgp)).

Definition enforce_min_gas_price (ctx : Ctx) (call : Call) : M CoreError unit :=
  if bool_decide (call_method call ∈ MIN_GAS_PRICE_EXEMPT_METHODS) then mret tt
  else
    fee ← with_tx_env (λ e, ai_fee <$> env_tx_auth_info e);
    let denom := denomination (fee_amount fee) in
    mgp ← min_gas_price denom;
    match mgp with
    | None => throw GasPriceTooLow
    | Some min_gas_price =>
        check_only ← with_env is_check_only;
        (if (check_only : bool) then
           local_mgp ← get_local_min_gas_price ctx denom;
           if (gas_price fee <? local_mgp)%N then throw GasPriceTooLow else mret tt
         else mret tt) ;;
        if (gas_price fee <? min_gas_price)%N then throw GasPriceTooLow else mret tt
    end.

(** * Transaction hooks *)

Definition core_approve_raw_tx (_ : Ctx) (tx : bytes) : M CoreError unit :=
  p ← core_params;
  if (max_tx_size p <? N.of_nat (length tx))%N then throw OversizedTransaction else mret tt.

Definition core_approve_unverified_tx (_ : Ctx) (utx : UnverifiedTransaction) : M CoreError unit :=
  p ← core_params;
  if (max_tx_signers p <? N.of_nat (length (ut_proofs utx)))%N then throw TooManyAuth
  else for_each (ut_proofs utx) (λ auth_proof,
    match auth_proof with
    | ProofMultisig config =>
        if (max_multisig_signers p <? N.of_nat (length config))%N
        then throw MultisigTooManySigners else mret tt
    | _ => mret tt
    end).

Definition core_authenticate_tx (ctx : Ctx) (tx : Transaction) : M CoreError AuthDecision :=
  let round := ctx_round ctx in
  (match not_before (tx_auth_info tx) with
   | Some nb => if (round <? nb)%N then throw ExpiredTransaction else mret tt
   | None => mret tt
   end) ;;
  (match not_after (tx_auth_info tx) with
   | Some na => if (na <? round)%N then throw ExpiredTransaction else mret tt
   | None => mret tt
   end) ;;
  mret Continue.

Definition core_before_handle_call (ctx : Ctx) (call : Call) : M CoreError unit :=
  p ← core_params;
  fee ← with_tx_env (λ e, ai_fee <$> env_tx_auth_info e);
  if (max_batch_gas_param p <? fee_gas fee)%N then throw GasOverflow
  else if (ctx_max_messages ctx <? fee_consensus_messages fee)%N then throw OutOfMessageSlots
  else
    internal ← with_env env_internal;
    if (internal : bool) then mret tt
    else
      enforce_min_gas_price ctx call ;;
      tx_size ← with_tx_env env_tx_size;
      byte_gas ← ok_or (checked_mul u64_max (tx_byte (core_gas_costs p)) tx_size) GasOverflow;
      use_tx_gas byte_gas ;;
      cost ← with_tx_env (λ e, (λ ai, compute_signature_verification_cost p (signer_info ai))
                                 <$> env_tx_auth_info e);
      total ← ok_or cost GasOverflow;
      use_tx_gas total ;;
      match call_format call with
      | Plain => mret tt
      | EncryptedX25519DeoxysII => use_tx_gas (callformat_x25519_deoxysii (core_gas_costs p))
      end.

Definition core_after_handle_call (ctx : Ctx) (_ : CallResult) : M CoreError unit :=
  internal ← with_env env_internal;
  if (internal : bool) then mret tt
  else
    p ← core_params;
    storage_update_bytes ← gets pending_store_update_byte_size;
    let storage_gas :=
      if (0 <? storage_byte (core_gas_costs p))%N
      then saturating_mul u64_max (storage_byte (core_gas_costs p)) storage_update_bytes
      else 0%N in
    emitted_message_count ← gets emitted_messages_local_count;
    let message_gas_cost :=
      default u64_max (checked_div (max_batch_gas_param p) (ctx_max_messages ctx)) in
    let message_gas := saturating_mul u64_max message_gas_cost (N.of_nat emitted_message_count) in
    used_gas ← used_tx_gas;
    let max_gas := N.max used_gas (N.max storage_gas message_gas) in
    maybe_out_of_gas ← try_ (use_tx_gas (max_gas - used_gas));
    (if EMIT_GAS_USED_EVENTS then
       used_gas ← used_tx_gas;
       emit_unconditional_event (etag_for_event CORE_MODULE_NAME 1 (gas_used_value used_gas))
     else mret tt) ;;
    match maybe_out_of_gas with
    | inl e => throw e
    | inr _ => mret tt
    end.

(** * Block hooks *)

Definition core_begin_block (ctx : Ctx) : M Empty_set unit :=
  let epoch := ctx_epoch ctx in
  previous ← typed_get (T := N) core_store CORE_LAST_EPOCH;
  let previous_epoch := default 0%N previous in
  (if bool_decide (epoch ≠ previous_epoch) then typed_insert core_store CORE_LAST_EPOCH epoch
   else mret tt) ;;
  value_set Block CONTEXT_KEY_EPOCH_CHANGED (bool_decide (epoch ≠ previous_epoch)).

(** The price of a denomination for the next block. *)
Definition next_min_price (p : CoreParameters) (gas_used target_gas_used : N) (d : Denomination)
    (price : N) : N :=
  let new_min_price :=
    min_gas_price_update gas_used target_gas_used
      (min_price_max_change_denominator (dynamic_min_gas_price p)) price in
  match min_gas_price_param p !! d with
  | Some min_price => if (new_min_price <? min_price)%N then min_price else new_min_price
  | None => new_min_price
  end.

Definition core_end_block (_ : Ctx) : M Empty_set unit :=
  p ← core_params;
  if negb (dyn_enabled (dynamic_min_gas_price p)) then mret tt
  else
    gas_used ← used_batch_gas;
    max_batch_gas ← max_batch_gas;
    let target_gas_used :=
      (saturating_mul u128_max max_batch_gas
         (target_block_gas_usage_percentage (dynamic_min_gas_price p)) / 100)%N in
    mgp ← min_gas_prices;
    typed_insert core_store CORE_DYNAMIC_MIN_GAS_PRICE
      (map_imap (λ d price, Some (next_min_price p gas_used target_gas_used d price)) mgp).

(** [Module::init], from genesis. *)
Definition core_init {E} (parameters : CoreParameters) : M E unit :=
  set_params CORE_MODULE_NAME parameters.

(** The handlers; the method tables are generated by the macros and are taken from [methods]. *)
Definition core_handlers (methods : Handlers) : Handlers := {|
  prefetch := prefetch methods;
  dispatch_call := dispatch_call methods;
  dispatch_query := dispatch_query methods;
  dispatch_message_result := dispatch_message_result methods;
  is_expensive_query := is_expensive_query methods;
  is_allowed_private_km_query := is_allowed_private_km_query methods;
  is_allowed_interactive_call := is_allowed_interactive_call methods;
  approve_raw_tx := core_approve_raw_tx;
  approve_unverified_tx := core_approve_unverified_tx;
  decode_tx := decode_tx default_handlers;
  authenticate_tx := core_authenticate_tx;
  before_handle_call := core_before_handle_call;
  before_authorized_call_dispatch := before_authorized_call_dispatch default_handlers;
  after_handle_call := core_after_handle_call;
  after_dispatch_tx := after_dispatch_tx default_handlers;
  begin_block := core_begin_block;
  end_block := core_end_block;
  check_invariants := check_invariants default_handlers;
|}.
End core.

(** * Frames *)

Section core_framed.
Context `{Platform} `{!MKVSLaws} `{!CoreCodec} `{!CoreConfig}.

Lemma framed_core_params {E} : framed (core_params (E := E)).
Proof. unfold core_params. solve_framed. Qed.
Lemma framed_used_batch_gas {E} : framed (used_batch_gas (E := E)).
Proof. unfold used_batch_gas. solve_framed. Qed.
Hint Resolve framed_core_params framed_used_batch_gas : framed.
Lemma framed_use_batch_gas gas : framed (use_batch_gas gas).
Proof. unfold use_batch_gas. solve_framed. Qed.
Hint Resolve framed_use_batch_gas : framed.
Lemma framed_use_tx_gas gas : framed (use_tx_gas gas).
Proof. unfold use_tx_gas. solve_framed. Qed.
Lemma framed_remaining_batch_gas {E} : framed (remaining_batch_gas (E := E)).
Proof. unfold remaining_batch_gas. solve_framed. Qed.
Hint Resolve framed_use_tx_gas framed_remaining_batch_gas : framed.
Lemma framed_remaining_tx_gas {E} : framed (remaining_tx_gas (E := E)).
Proof. unfold remaining_tx_gas. solve_framed. Qed.
Lemma framed_min_gas_prices {E} : framed (min_gas_prices (E := E)).
Proof. unfold min_gas_prices. solve_framed. Qed.
Hint Resolve framed_min_gas_prices : framed.
Lemma framed_enforce_min_gas_price ctx call : framed (enforce_min_gas_price ctx call).
Proof. unfold enforce_min_gas_price, min_gas_price, get_local_min_gas_price. solve_framed. Qed.
Hint Resolve framed_enforce_min_gas_price : framed.
Lemma framed_take_priority {E} : framed (take_priority (E := E)).
Proof. unfold take_priority. solve_framed. Qed.
Lemma framed_take_sender_meta {E} : framed (take_sender_meta (E := E)).
Proof. unfold take_sender_meta. solve_framed. Qed.
Lemma framed_set_priority {E} p : framed (set_priority (E := E) p).
Proof. unfold set_priority. solve_framed. Qed.
Lemma framed_set_sender_meta {E} m : framed (set_sender_meta (E := E) m).
Proof. unfold set_sender_meta. solve_framed. Qed.

Lemma core_handlers_framed methods : FramedHandlers methods → FramedHandlers (core_handlers methods).
Proof.
  intros Hm. split; intros; simpl;
    unfold core_approve_raw_tx, core_approve_unverified_tx, core_authenticate_tx,
      core_before_handle_call, core_after_handle_call, core_begin_block, core_end_block,
      used_tx_gas, max_batch_gas; solve_framed.
Qed.
End core_framed.
#[export] Hint Resolve framed_core_params framed_used_batch_gas framed_use_batch_gas
  framed_use_tx_gas framed_remaining_batch_gas framed_remaining_tx_gas framed_min_gas_prices
  framed_enforce_min_gas_price framed_take_priority framed_take_sender_meta framed_set_priority
  framed_set_sender_meta : framed.
