(* ===== verification/Consensus.v ===== *)
(** The consensus module: messages to the consensus layer, conversion of amounts, and lookups in the
    state and the history of the consensus layer (src/runtime-sdk/src/modules/consensus/mod.rs,
    types.rs, src/runtime-sdk/src/history.rs). *)
From S2P Require Import Prelude Storage StoreIter Types Fee Errors State Current Transactions Module.
From S2P Require Import Tables Core.

Local Open Scope string_scope.

Definition CONSENSUS_MODULE_NAME : string := "consensus".

(** * The consensus layer

    Messages, their results, and the state and the history of the consensus layer are those of Oasis
    Core, which is outside of the repository. *)

(** [roothash::StakingMessage]. *)
Inductive StakingMessage :=
  | StakingTransfer (to : Address) (amount : N)
  | StakingWithdraw (from : Address) (amount : N)
  | StakingAddEscrow (account : Address) (amount : N)
  | StakingReclaimEscrow (account : Address) (shares : N).

(** [staking::Account]: a quantity is an integer of any size. *)
Record SharePool := { pool_balance : N; pool_total_shares : N }.
Record ConsensusAccount := {
  ca_general_balance : N;
  ca_escrow_active : SharePool;
  ca_escrow_debonding : SharePool;
}.
Definition consensus_account_default : ConsensusAccount :=
  {| ca_general_balance := 0; ca_escrow_active := {| pool_balance := 0; pool_total_shares := 0 |};
     ca_escrow_debonding := {| pool_balance := 0; pool_total_shares := 0 |} |}.

(** The only staking event that the modules look at: escrowed tokens that have been reclaimed. *)
Inductive StakingEvent :=
  | EscrowReclaim (owner escrow : Address) (amount shares : N)
  | OtherStakingEvent.

Record RoundRoots := { rr_state_root : Hash; rr_io_root : Hash }.
Inductive RootKind := RootState | RootIO.
Record RoundRootBody := { rrb_runtime_id : bytes; rrb_round : N; rrb_kind : RootKind }.

(** The epoch and the height of the block of its transition; heights are [i64] there. *)
Record EpochState := { es_epoch : N; es_height : Z }.

(** [history::Error]. *)
Inductive HistoryError := FailedToFetchBlock | FailedToFetchEvents.

(** What is read off the consensus state at a height. *)
Record ConsensusState := {
  cst_height : N;
  cst_epoch_state : string + EpochState;
  cst_future_epoch_state : string + EpochState;
}.

Class ConsensusLayer `{Platform} := {
  staking_message : StakingMessage → Message;
  message_is_success : MessageEvent → bool;
  message_module : MessageEvent → string;
  message_code : MessageEvent → N;
  message_result : MessageEvent → option Value;
  runtime_id : Ctx → bytes;
  layer_account : Ctx → Address → string + ConsensusAccount;
  layer_delegation : Ctx → Address → Address → string + N;
  layer_round_roots : Ctx → bytes → N → string + option RoundRoots;
  consensus_state_at : Ctx → N → HistoryError + ConsensusState;
  consensus_events_at : Ctx → N → HistoryError + list StakingEvent;
}.

(** * Types *)

Inductive ConsensusError :=
  | CsInvalidArgument
  | InvalidDenomination
  | InternalStateError (msg : string)
  | CsCore (source : CoreError)
  | ConsensusIncompatibleSigner
  | AmountNotRepresentable
  | UnderMinDelegationAmount
  | CsHistory (source : HistoryError).

#[export] Instance history_sdk_error : SdkError HistoryError := {
  module_name _ := "history";
  code e := match e with FailedToFetchBlock => 1 | FailedToFetchEvents => 2 end%N;
  to_string e := match e with
                 | FailedToFetchBlock => "failed to fetch block from host"
                 | FailedToFetchEvents => "failed to fetch events from host"
                 end;
  into_abort _ := None;
}.

#[export] Instance consensus_sdk_error : SdkError ConsensusError := {
  module_name e := match e with
                   | CsCore source => module_name source
                   | CsHistory source => module_name source
                   | _ => "consensus"
                   end;
  code e := match e with
            | CsInvalidArgument => 1
            | InvalidDenomination => 2
            | InternalStateError _ => 3
            | CsCore source => code source
            | ConsensusIncompatibleSigner => 4
            | AmountNotRepresentable => 5
            | UnderMinDelegationAmount => 6
            | CsHistory source => code source
            end%N;
  to_string e := match e with
                 | CsInvalidArgument => "invalid argument"
                 | InvalidDenomination => "invalid denomination"
                 | InternalStateError msg => "internal state: " +:+ msg
                 | CsCore source => "core: " +:+ to_string source
                 | ConsensusIncompatibleSigner => "consensus incompatible signer"
                 | AmountNotRepresentable => "amount not representable"
                 | UnderMinDelegationAmount => "amount is lower than the minimum delegation amount"
                 | CsHistory source => "history: " +:+ to_string source
                 end;
  into_abort e := match e with
                  | CsCore source => into_abort source
                  | CsHistory source => into_abort source
                  | _ => None
                  end;
}.

Record ConsensusParameters := {
  round_root_cost : N;
  consensus_denomination_param : Denomination;
  consensus_scaling_factor : N;
  min_delegate_amount : N;
}.
(** [Denomination::from_str("TEST")]. *)
Definition test_denomination : Denomination := default NATIVE (denomination_try_from (str "TEST")).
Definition consensus_parameters_default : ConsensusParameters :=
  {| round_root_cost := 0; consensus_denomination_param := test_denomination;
     consensus_scaling_factor := 1; min_delegate_amount := 0 |}.

Inductive ConsensusParameterError := ZeroScalingFactor | ScalingFactorNotPowerOf10.

(** [u64::ilog10]; twenty digits are enough for a 64-bit integer. *)
Fixpoint ilog10_loop (fuel : nat) (n : N) : N :=
  match fuel with
  | O => 0
  | S fuel' => if (n <? 10)%N then 0%N else (1 + ilog10_loop fuel' (n / 10))%N
  end.
Definition ilog10 (n : N) : N := ilog10_loop 20 n.

Definition consensus_validate_basic (p : ConsensusParameters) : ConsensusParameterError + unit :=
  if (consensus_scaling_factor p =? 0)%N then inl ZeroScalingFactor
  else if negb (10 ^ ilog10 (consensus_scaling_factor p) =? consensus_scaling_factor p)%N
  then inl ScalingFactorNotPowerOf10 else inr tt.

Class ConsensusCodec `{Platform} := {
  cs_parameters_cbor :: Cbor ConsensusParameters;
  cs_round_root_body_value :: CborValue RoundRootBody;
  cs_round_root_value :: CborValue (option Hash);
  cs_unit_value :: CborValue unit;
  cs_parameters_value :: CborValue ConsensusParameters;
}.

(** * What the module offers to others ([consensus::API]) *)

Class ConsensusAPI `{Platform} := {
  cs_transfer : Ctx → Address → BaseUnits → MessageEventHookInvocation → M ConsensusError unit;
  cs_withdraw : Ctx → Address → BaseUnits → MessageEventHookInvocation → M ConsensusError unit;
  cs_escrow : Ctx → Address → BaseUnits → MessageEventHookInvocation → M ConsensusError unit;
  cs_reclaim_escrow : Ctx → Address → N → MessageEventHookInvocation → M ConsensusError unit;
  cs_denomination : M ConsensusError Denomination;
  cs_ensure_compatible_tx_signer : M ConsensusError unit;
  cs_account : Ctx → Address → M ConsensusError ConsensusAccount;
  cs_delegation : Ctx → Address → Address → M ConsensusError N;
  cs_amount_from_consensus : Ctx → N → M ConsensusError N;
  cs_amount_to_consensus : Ctx → N → M ConsensusError N;
  cs_height_for_epoch : Ctx → N → M ConsensusError N;
  cs_round_roots : Ctx → bytes → N → M ConsensusError (option RoundRoots);
}.

(** * The cache of heights

    [lru::LruCache], outside of the repository. *)
Class LruCache (K V : Type) := {
  lru : Type;
  lru_new : N → lru;
  (** a lookup also marks the entry as recently used *)
  lru_get : K → lru → option V * lru;
  lru_put : K → V → lru → lru;
}.
Arguments lru K V {_}.

Section consensus.
Context `{Platform} `{!ConsensusLayer} `{!ConsensusCodec} `{!LruCache N N}.

Definition consensus_params {E} : M E ConsensusParameters :=
  params CONSENSUS_MODULE_NAME consensus_parameters_default.

(** [Module::init], from genesis. *)
Definition consensus_init {E} (parameters : ConsensusParameters) : M E unit :=
  match consensus_validate_basic parameters with
  | inl _ => panic "invalid genesis parameters"
  | inr _ => set_params CONSENSUS_MODULE_NAME parameters
  end.

Definition consensus_denomination : M ConsensusError Denomination :=
  p ← consensus_params; mret (consensus_denomination_param p).

Definition ensure_consensus_denomination (d : Denomination) : M ConsensusError unit :=
  denomination ← consensus_denomination;
  if bool_decide (d ≠ denomination) then throw InvalidDenomination else mret tt.

Definition amount_from_consensus (_ : Ctx) (amount : N) : M ConsensusError N :=
  p ← consensus_params;
  ok_or (checked_mul u128_max amount (consensus_scaling_factor p)) AmountNotRepresentable.

Definition amount_to_consensus (_ : Ctx) (amount : N) : M ConsensusError N :=
  p ← consensus_params;
  scaled ← ok_or (checked_div amount (consensus_scaling_factor p)) AmountNotRepresentable;
  remainder ← ok_or (if (consensus_scaling_factor p =? 0)%N then None
                     else Some (amount mod consensus_scaling_factor p)%N) AmountNotRepresentable;
  if negb (remainder =? 0)%N then throw AmountNotRepresentable else mret scaled.

Definition consensus_transfer (ctx : Ctx) (to : Address) (a : BaseUnits)
    (hook : MessageEventHookInvocation) : M ConsensusError unit :=
  ensure_consensus_denomination (denomination a) ;;
  amount ← amount_to_consensus ctx (amount a);
  map_err CsCore (emit_message (ctx_max_messages ctx) (staking_message (StakingTransfer to amount)) hook).

Definition consensus_withdraw (ctx : Ctx) (from : Address) (a : BaseUnits)
    (hook : MessageEventHookInvocation) : M ConsensusError unit :=
  ensure_consensus_denomination (denomination a) ;;
  amount ← amount_to_consensus ctx (amount a);
  map_err CsCore (emit_message (ctx_max_messages ctx) (staking_message (StakingWithdraw from amount)) hook).

Definition consensus_escrow (ctx : Ctx) (to : Address) (a : BaseUnits)
    (hook : MessageEventHookInvocation) : M ConsensusError unit :=
  ensure_consensus_denomination (denomination a) ;;
  amount ← amount_to_consensus ctx (amount a);
  p ← consensus_params;
  if (amount <? min_delegate_amount p)%N then throw UnderMinDelegationAmount
  else
    map_err CsCore (emit_message (ctx_max_messages ctx) (staking_message (StakingAddEscrow to amount)) hook).

Definition consensus_reclaim_escrow (ctx : Ctx) (from : Address) (shares : N)
    (hook : MessageEventHookInvocation) : M ConsensusError unit :=
  map_err CsCore
    (emit_message (ctx_max_messages ctx) (staking_message (StakingReclaimEscrow from shares)) hook).

(** Only a single Ed25519 key can sign on the consensus layer; simulations may override the caller.
    Indexing the empty list of signers panics. *)
Definition ensure_compatible_tx_signer : M ConsensusError unit :=
  ai ← with_tx_env env_tx_auth_info;
  si ← expect (head (signer_info ai)) "index out of bounds";
  simulation ← with_env is_simulation;
  match si_address_spec si with
  | AddrSignature (SpecEd25519 _) => mret tt
  | AddrInternal (CallerAddr _) =>
      if (simulation : bool) then mret tt else throw ConsensusIncompatibleSigner
  | _ => throw ConsensusIncompatibleSigner
  end.

Definition state_result {A} (r : string + A) : M ConsensusError A :=
  match r with inr a => mret a | inl msg => throw (InternalStateError msg) end.

Definition consensus_account (ctx : Ctx) (addr : Address) : M ConsensusError ConsensusAccount :=
  state_result (layer_account ctx addr).
Definition consensus_delegation (ctx : Ctx) (delegator escrow : Address) : M ConsensusError N :=
  state_result (layer_delegation ctx delegator escrow).
Definition round_roots (ctx : Ctx) (id : bytes) (round : N) : M ConsensusError (option RoundRoots) :=
  state_result (layer_round_roots ctx id round).

Definition HEIGHT_LATEST : N := 0.
Definition HEIGHT_CACHE_SIZE : N := 128.
Definition i64_max : Z := 9223372036854775807.

(** The epoch state that is in force after the block at a height: the future one once its transition
    is not in the future. *)
Definition epoch_state_at (ctx : Ctx) (height : N) : ST (lru N N) ConsensusError EpochState :=
  match consensus_state_at ctx height with
  | inl e => throw (CsHistory e)
  | inr state =>
      match cst_future_epoch_state state with
      | inl msg => throw (InternalStateError msg)
      | inr future =>
          if (i64_max <? Z.of_N (cst_height state))%Z then panic "called Result::unwrap on an Err value"
          else if (Z.of_N (cst_height state) <? es_height future)%Z then
            match cst_epoch_state state with
            | inl _ => panic "called Result::unwrap on an Err value"
            | inr current => mret current
            end
          else mret future
      end
  end.

(** The traversal of the epoch transitions backwards in time. *)
Fixpoint height_search (fuel : nat) (ctx : Ctx) (epoch height : N) : ST (lru N N) ConsensusError N :=
  match fuel with
  | O => panic "out of fuel"
  | S fuel' =>
      es ← epoch_state_at ctx height;
      if (es_height es <? 0)%Z then panic "called Result::unwrap on an Err value"
      else
        let height := Z.to_N (es_height es) in
        modify (lru_put (es_epoch es) height) ;;
        if (es_epoch es =? epoch)%N then mret height
        else if (es_epoch es <=? epoch)%N then panic "assertion failed: epoch_state.epoch > epoch"
        else if (height <=? 1)%N then panic "assertion failed: height > 1"
        else height_search fuel' ctx epoch (height - 1)
  end.

(** The cache is process wide and is threaded through. *)
Definition height_for_epoch (fuel : nat) (ctx : Ctx) (epoch : N) : ST (lru N N) ConsensusError N :=
  cache ← get_st;
  let '(hit, cache) := lru_get epoch cache in
  modify (λ _, cache) ;;
  match hit with
  | Some height => mret height
  | None => height_search fuel ctx epoch HEIGHT_LATEST
  end.

(** A call of the module is run on the contents of the cache at that time. *)
Definition with_cache {S E A} (cache : lru N N) (m : ST (lru N N) E A) : ST S E A :=
  λ s, ((m cache).1, s).

Context `{!CoreCodec} `{!CoreConfig}.

Definition internal_round_root (ctx : Ctx) (body : RoundRootBody) : M ConsensusError (option Hash) :=
  p ← consensus_params;
  map_err CsCore (use_tx_gas (round_root_cost p)) ;;
  rr ← round_roots ctx (rrb_runtime_id body) (rrb_round body);
  mret ((λ rr, match rrb_kind body with RootIO => rr_io_root rr | RootState => rr_state_root rr end) <$> rr).

(** The wrapper that the macro puts around internal methods. *)
Definition internal_only {E B R} (forbidden : E) (f : Ctx → B → M E R) (ctx : Ctx) (body : B) : M E R :=
  internal ← with_env env_internal;
  if negb internal then throw forbidden else f ctx body.

Definition consensus_handlers : Handlers := {|
  prefetch := prefetch default_handlers;
  dispatch_call ctx method body :=
    if bool_decide (method = "consensus.RoundRoot")
    then dispatch_call_with body (internal_only (CsCore Forbidden) internal_round_root ctx)
    else mret (Unhandled body);
  dispatch_query ctx method args :=
    if bool_decide (method = CONSENSUS_MODULE_NAME +:+ ".Parameters")
    then dispatch_query_with (E := ConsensusError) args (λ _ : unit, consensus_params)
    else mret (Unhandled args);
  dispatch_message_result := dispatch_message_result default_handlers;
  is_expensive_query := is_expensive_query default_handlers;
  is_allowed_private_km_query := is_allowed_private_km_query default_handlers;
  is_allowed_interactive_call := is_allowed_interactive_call default_handlers;
  approve_raw_tx := approve_raw_tx default_handlers;
  approve_unverified_tx := approve_unverified_tx default_handlers;
  decode_tx := decode_tx default_handlers;
  authenticate_tx := authenticate_tx default_handlers;
  before_handle_call := before_handle_call default_handlers;
  before_authorized_call_dispatch := before_authorized_call_dispatch default_handlers;
  after_handle_call := after_handle_call default_handlers;
  after_dispatch_tx := after_dispatch_tx default_handlers;
  begin_block := begin_block default_handlers;
  end_block := end_block default_handlers;
  check_invariants := check_invariants default_handlers;
|}.
End consensus.

(** The module as an implementation of its interface, with the contents of the cache and a bound on
    the number of epoch transitions to go back. *)
Definition consensus_api `{Platform} `{!ConsensusLayer} `{!ConsensusCodec} `{!LruCache N N}
    (cache : lru N N) (fuel : nat) : ConsensusAPI := {|
  cs_transfer := consensus_transfer;
  cs_withdraw := consensus_withdraw;
  cs_escrow := consensus_escrow;
  cs_reclaim_escrow := consensus_reclaim_escrow;
  cs_denomination := consensus_denomination;
  cs_ensure_compatible_tx_signer := ensure_compatible_tx_signer;
  cs_account := consensus_account;
  cs_delegation := consensus_delegation;
  cs_amount_from_consensus := amount_from_consensus;
  cs_amount_to_consensus := amount_to_consensus;
  cs_height_for_epoch ctx epoch := with_cache cache (height_for_epoch fuel ctx epoch);
  cs_round_roots := round_roots;
|}.
