(* ===== verification/Amounts.v ===== *)
(** Properties of the consensus module, and the contract that it offers to the modules that build on
    it (src/runtime-sdk/src/modules/consensus/mod.rs). *)
From S2P Require Import Prelude Storage StoreIter Types Fee Errors State Current Transactions Module.
From S2P Require Import Tables Core Consensus.

(** * The scaling factor *)

(** The factors that are accepted are the powers of ten. *)
Lemma ilog10_loop_spec fuel n :
  (0 < n)%N → (n < 10 ^ N.of_nat fuel)%N →
  (10 ^ ilog10_loop fuel n ≤ n)%N ∧ (n < 10 ^ (ilog10_loop fuel n + 1))%N.
Proof.
  revert n. induction fuel as [|fuel IH]; intros n Hn Hlt; cbn [ilog10_loop].
  { change (10 ^ N.of_nat 0)%N with 1%N in Hlt. lia. }
  destruct (N.ltb_spec n 10) as [Hs|Hs]; [simpl; lia|].
  pose proof (N.div_mod n 10 ltac:(lia)) as Hdiv. pose proof (N.mod_lt n 10 ltac:(lia)) as Hmod.
  destruct (IH (n / 10)%N) as [Hlo Hhi].
  - lia.
  - rewrite Nat2N.inj_succ, N.pow_succ_r' in Hlt. apply N.Div0.div_lt_upper_bound. exact Hlt.
  - rewrite <-N.add_assoc, !(N.pow_add_r 10 1). change (10 ^ 1)%N with 10%N.
    set (q := (n / 10)%N) in *. set (r := (n mod 10)%N) in *. clearbody q r. nia.
Qed.

Lemma ilog10_pow k : (10 ^ k ≤ u64_max)%N → ilog10 (10 ^ k) = k.
Proof.
  intros Hk. assert (Hp : (0 < 10 ^ k)%N) by (apply N.neq_0_lt_0, N.pow_nonzero; lia).
  destruct (ilog10_loop_spec 20 (10 ^ k) Hp) as [Hlo Hhi].
  { eapply N.le_lt_trans; [exact Hk|]. by vm_compute. }
  fold (ilog10 (10 ^ k)) in *. apply N.pow_le_mono_r_iff in Hlo; [|lia].
  apply N.pow_lt_mono_r_iff in Hhi; lia.
Qed.

Module ParameterClaims.
(** The parameters of the consensus module are accepted exactly when the scaling factor, a 64-bit
    integer, is a power of ten; in particular it is then not zero, so that no conversion divides by
    zero. *)
Theorem scaling_factor_power_of_ten p :
  (consensus_scaling_factor p ≤ u64_max)%N →
  consensus_validate_basic p = inr tt ↔ ∃ k, consensus_scaling_factor p = (10 ^ k)%N.
Proof.
  intros Hmax. unfold consensus_validate_basic.
  destruct (N.eqb_spec (consensus_scaling_factor p) 0) as [Hz|Hnz]; [split; [done|]|].
  { intros [k Hk]. rewrite Hz in Hk. symmetry in Hk. by apply N.pow_nonzero in Hk. }
  destruct (N.eqb_spec (10 ^ ilog10 (consensus_scaling_factor p)) (consensus_scaling_factor p)) as [Heq|Hne];
    simpl; (split; [|done || intros [k Hk]]).
  - intros _. by eexists.
  - done.
  - destruct Hne. rewrite Hk in *. by rewrite ilog10_pow.
Qed.
End ParameterClaims.

(** * Amounts *)

Section amounts.
Context `{Platform} `{!MKVSLaws} `{!ConsensusLayer} `{!ConsensusCodec}.

Definition has_consensus_params (s : State) (p : ConsensusParameters) : Prop :=
  ∃ o, stored s (PrefixStore CurrentStore (str CONSENSUS_MODULE_NAME)) PARAMS_STORE_KEY o ∧
    p = default consensus_parameters_default o.

Lemma consensus_params_run {E} s p : has_consensus_params s p → consensus_params (E := E) s = (Ok p, s).
Proof.
  intros (o & Ho & ->). unfold consensus_params, params.
  by rewrite (bind_ok _ _ _ _ _ (typed_get_run (E := E) _ _ _ _ Ho)).
Qed.

(** What an amount is worth on the consensus layer. *)
Definition to_consensus (factor a : N) : option N :=
  if (factor =? 0)%N then None
  else if (a mod factor =? 0)%N then Some (a / factor)%N else None.

Lemma to_consensus_Some factor a c :
  to_consensus factor a = Some c ↔ factor ≠ 0%N ∧ a = (c * factor)%N.
Proof.
  unfold to_consensus. destruct (N.eqb_spec factor 0) as [->|Hf]; [naive_solver|].
  pose proof (N.div_mod a factor Hf) as Hdiv. destruct (N.eqb_spec (a mod factor) 0) as [Hm|Hm].
  - split; [|intros [_ ->]; by rewrite N.div_mul].
    intros [= <-]. split; [done|]. rewrite Hm in Hdiv. lia.
  - split; [done|]. intros [_ ->]. by rewrite N.Div0.mod_mul in Hm.
Qed.

Lemma amount_to_consensus_run ctx a s p :
  has_consensus_params s p →
  amount_to_consensus ctx a s =
    (match to_consensus (consensus_scaling_factor p) a with
     | Some c => Ok c | None => Err AmountNotRepresentable end, s).
Proof.
  intros Hp. unfold amount_to_consensus.
  rewrite (bind_ok _ _ _ _ _ (consensus_params_run (E := ConsensusError) _ _ Hp)).
  unfold to_consensus, checked_div. destruct (N.eqb_spec (consensus_scaling_factor p) 0); [done|].
  cbn [ok_or]. rewrite !ret_bind. by destruct (_ =? 0)%N.
Qed.

Lemma amount_from_consensus_run ctx c s p :
  has_consensus_params s p →
  amount_from_consensus ctx c s =
    (match checked_mul u128_max c (consensus_scaling_factor p) with
     | Some a => Ok a | None => Err AmountNotRepresentable end, s).
Proof.
  intros Hp. unfold amount_from_consensus.
  rewrite (bind_ok _ _ _ _ _ (consensus_params_run (E := ConsensusError) _ _ Hp)).
  by destruct (checked_mul _ _ _).
Qed.

Lemma ensure_denomination_run d s p :
  has_consensus_params s p →
  ensure_consensus_denomination d s =
    (if decide (d = consensus_denomination_param p) then Ok tt else Err InvalidDenomination, s).
Proof.
  intros Hp. unfold ensure_consensus_denomination, consensus_denomination.
  rewrite (bind_ok _ _ s (consensus_denomination_param p) s)
    by (by rewrite (bind_ok _ _ _ _ _ (consensus_params_run (E := ConsensusError) _ _ Hp))).
  case_bool_decide as Hd; case_decide; done.
Qed.
End amounts.

Module AmountClaims.
Section claims.
Context `{Platform} `{!MKVSLaws} `{!ConsensusLayer} `{!ConsensusCodec}.

(** The two conversions of amounts are inverse to each other: with a scaling factor that is not
    zero, an amount of base units is worth [c] on the consensus layer exactly when [c] is worth that
    amount in the runtime.  Whatever is not representable is an error, neither conversion panics or
    changes the state. *)
Theorem amounts_roundtrip ctx s p a c :
  has_consensus_params s p → consensus_scaling_factor p ≠ 0%N → (a ≤ u128_max)%N →
  (amount_to_consensus ctx a s = (Ok c, s) ↔ amount_from_consensus ctx c s = (Ok a, s)) ∧
  (amount_to_consensus ctx a s = (Err AmountNotRepresentable, s) ↔
     ¬ ∃ c', a = (c' * consensus_scaling_factor p)%N).
Proof.
  intros Hp Hf Ha. rewrite (amount_to_consensus_run ctx a s p), (amount_from_consensus_run ctx c s p) by done.
  destruct (to_consensus _ a) as [c'|] eqn:Hc.
  - apply to_consensus_Some in Hc as [_ ->]. split; [|split; [done|intros Hno; destruct Hno; by eexists]].
    split.
    + intros [= <-]. unfold checked_mul. by rewrite (proj2 (N.leb_le _ _) Ha).
    + destruct (checked_mul _ _ _) as [a'|] eqn:Hm; [|done]. apply checked_mul_Some in Hm as [-> _].
      intros [= Heq]. apply N.mul_cancel_r in Heq; [by rewrite Heq|done].
  - assert (Hno : ∀ c', a ≠ (c' * consensus_scaling_factor p)%N).
    { intros c' Heq. by rewrite (proj2 (to_consensus_Some _ _ c')) in Hc. }
    split; [|split; [intros _ [c' Heq]; by apply (Hno c')|done]].
    split; [done|]. destruct (checked_mul _ _ _) as [a'|] eqn:Hm; [|done].
    apply checked_mul_Some in Hm as [-> _]. intros [= Heq]. by destruct (Hno c).
Qed.
End claims.
End AmountClaims.

(** * Heights of epoch transitions *)

(** The documented behaviour of the cache: a lookup does not change what is in it, and an entry is the
    last one put under its key; entries may get lost. *)
Class LruLaws (K V : Type) `{EqDecision K, !LruCache K V} : Prop := {
  lru_get_new n k : (lru_get k (lru_new n)).1 = (None : option V);
  lru_get_get k k' (c : lru K V) : (lru_get k' (lru_get k c).2).1 = (lru_get k' c).1;
  lru_get_put k v k' (c : lru K V) w :
    (lru_get k' (lru_put k v c)).1 = Some w → if decide (k' = k) then w = v else (lru_get k' c).1 = Some w;
}.

(** Every entry of the cache is a fact. *)
Definition cache_sound {K V} `{!LruCache K V} (P : K → V → Prop) (c : lru K V) : Prop :=
  ∀ k v, (lru_get k c).1 = Some v → P k v.

Section cache.
Context {K V} `{EqDecision K, !LruCache K V, !LruLaws K V} (P : K → V → Prop).

Lemma cache_sound_new n : cache_sound P (lru_new n).
Proof. intros k v. by rewrite lru_get_new. Qed.
Lemma cache_sound_get k c : cache_sound P c → cache_sound P (lru_get k c).2.
Proof. intros Hc k' v. rewrite lru_get_get. apply Hc. Qed.
Lemma cache_sound_put k v c : cache_sound P c → P k v → cache_sound P (lru_put k v c).
Proof.
  intros Hc Hv k' w Hw%lru_get_put. destruct (decide (k' = k)) as [->|_]; [by rewrite Hw|by apply Hc].
Qed.
End cache.

Section heights.
Context `{Platform} `{!ConsensusLayer} `{!LruCache N N, !LruLaws N N}.

(** The epoch [e] is in force at a height, by the heights of the transitions. *)
Definition in_force (transition : N → N) (h e : N) : Prop := (transition e ≤ h < transition (e + 1))%N.

(** The history of the beacon up to the latest height: transitions are at increasing heights, and a
    state names the current epoch and the next one, which has become the current one once its height
    is reached. *)
Record beacon_history (ctx : Ctx) (latest : N) (transition : N → N) : Prop := {
  bh_increasing e e' : (e < e')%N → (transition e < transition e')%N;
  bh_latest : consensus_state_at ctx HEIGHT_LATEST = consensus_state_at ctx latest;
  bh_range : (1 ≤ latest)%N ∧ (Z.of_N latest ≤ i64_max)%Z;
  bh_state h : (1 ≤ h ≤ latest)%N →
    ∃ st cur fut, consensus_state_at ctx h = inr st ∧ cst_height st = h ∧
      cst_epoch_state st = inr cur ∧ es_height cur = Z.of_N (transition (es_epoch cur)) ∧
      cst_future_epoch_state st = inr fut ∧ es_height fut = Z.of_N (transition (es_epoch fut)) ∧
      in_force transition h (if (transition (es_epoch fut) <=? h)%N then es_epoch fut else es_epoch cur);
}.

Lemma epoch_state_at_run ctx latest transition h c :
  beacon_history ctx latest transition → (1 ≤ h ≤ latest)%N →
  ∃ e, in_force transition h e ∧
    epoch_state_at ctx h c = (Ok {| es_epoch := e; es_height := Z.of_N (transition e) |}, c).
Proof.
  intros Hb Hh. destruct (bh_state _ _ _ Hb h Hh) as (st & cur & fut & Hst & Hsh & Hcur & Hch & Hfut & Hfh & Hin).
  exists (if (transition (es_epoch fut) <=? h)%N then es_epoch fut else es_epoch cur). split; [done|].
  unfold epoch_state_at. rewrite Hst, Hfut, Hsh.
  destruct (Z.ltb_spec i64_max (Z.of_N h)) as [Hlt|_]; [destruct (bh_range _ _ _ Hb); lia|].
  destruct (Z.ltb_spec (Z.of_N h) (es_height fut)), (N.leb_spec (transition (es_epoch fut)) h); try lia.
  - rewrite Hcur. destruct cur; simpl in *. by rewrite Hch.
  - destruct fut; simpl in *. by rewrite Hfh.
Qed.

Lemma in_force_order ctx latest transition h h' e e' :
  beacon_history ctx latest transition → in_force transition h e → in_force transition h' e' →
  (h ≤ h')%N → (e ≤ e')%N.
Proof.
  intros Hb [He _] [_ He'] Hh. destruct (N.le_gt_cases e e') as [|Hgt]; [done|].
  assert (e' + 1 = e ∨ e' + 1 < e)%N as [Heq|Hlt] by lia; [rewrite Heq in He'; lia|].
  pose proof (bh_increasing _ _ _ Hb _ _ Hlt). lia.
Qed.

(** The search, from a height at which the epoch [e] is in force, visits one transition per epoch. *)
Lemma height_search_run ctx latest transition epoch fuel h e c :
  beacon_history ctx latest transition → (1 ≤ transition epoch)%N → (1 ≤ h ≤ latest)%N →
  in_force transition h e → (epoch ≤ e)%N → (N.to_nat (e - epoch) < fuel)%nat →
  cache_sound (λ e h, h = transition e) c →
  ∃ c', height_search fuel ctx epoch h c = (Ok (transition epoch), c') ∧
    cache_sound (λ e h, h = transition e) c'.
Proof.
  intros Hb Hpos. revert h e c. induction fuel as [|fuel IH]; intros h e c Hh Hin Hle Hfuel Hc; [lia|].
  cbn [height_search]. destruct (epoch_state_at_run ctx latest transition h c Hb Hh) as (e' & Hin' & Hrun).
  rewrite (bind_ok _ _ _ _ _ Hrun). cbn [es_height es_epoch].
  assert (e' = e) as ->.
  { apply N.le_antisymm; by eapply (in_force_order _ _ _ h h); try done. }
  destruct (Z.ltb_spec (Z.of_N (transition e)) 0) as [|_]; [lia|]. rewrite N2Z.id.
  unfold modify. unfold mbind at 1, ST_bind at 1.
  assert (Hc' : cache_sound (λ e h, h = transition e) (lru_put e (transition e) c)) by (by apply cache_sound_put).
  destruct (N.eqb_spec e epoch) as [->|Hne]; [by eexists|].
  pose proof (bh_increasing _ _ _ Hb epoch e ltac:(lia)) as Hlt.
  destruct (N.leb_spec e epoch) as [|_]; [lia|]. destruct (N.leb_spec (transition e) 1) as [|_]; [lia|].
  destruct Hin as [Hlo Hhi]. apply (IH _ (e - 1)%N); [lia| |lia|lia|done].
  split; [|replace (e - 1 + 1)%N with e by lia; lia].
  pose proof (bh_increasing _ _ _ Hb (e - 1) e ltac:(lia)). lia.
Qed.
Lemma height_for_epoch_run ctx latest transition current epoch fuel cache :
  beacon_history ctx latest transition → in_force transition latest current →
  (epoch ≤ current)%N → (1 ≤ transition epoch)%N → (N.to_nat (current - epoch) < fuel)%nat →
  cache_sound (λ e h, h = transition e) cache →
  ∃ cache', height_for_epoch fuel ctx epoch cache = (Ok (transition epoch), cache') ∧
    cache_sound (λ e h, h = transition e) cache'.
Proof.
  intros Hb Hin Hle Hpos Hfuel Hc. unfold height_for_epoch. rewrite get_st_bind.
  pose proof (Hc epoch) as Hhit. pose proof (cache_sound_get (λ e h, h = transition e) epoch cache Hc) as Hc'.
  destruct (lru_get epoch cache) as [[height|] cache1]; simpl in *.
  - rewrite (Hhit height eq_refl). by exists cache1.
  - destruct fuel as [|fuel]; [lia|].
    destruct (height_search_run ctx latest transition epoch (S fuel) latest current cache1) as (c' & Hrun & Hc2);
      try done; [destruct (bh_range _ _ _ Hb); lia|].
    exists c'. split; [|done]. rewrite <-Hrun. cbn [height_search]. unfold epoch_state_at.
    by rewrite (bh_latest _ _ _ Hb).
Qed.
End heights.

Module HeightClaims.
Section claims.
Context `{Platform} `{!ConsensusLayer} `{!LruCache N N, !LruLaws N N}.

(** The height of an epoch transition is found: whatever part of the past is in the cache, looking
    up an epoch that has begun terminates within one iteration for each epoch since then, returns
    the height of its transition without failing an assertion, and leaves only true heights in the
    cache. *)
Theorem height_for_epoch_finds ctx latest transition current epoch fuel cache :
  beacon_history ctx latest transition → in_force transition latest current →
  (epoch ≤ current)%N → (1 ≤ transition epoch)%N → (N.to_nat (current - epoch) < fuel)%nat →
  cache_sound (λ e h, h = transition e) cache →
  ∃ cache', height_for_epoch fuel ctx epoch cache = (Ok (transition epoch), cache') ∧
    cache_sound (λ e h, h = transition e) cache'.
Proof. apply height_for_epoch_run. Qed.
End claims.
End HeightClaims.

(** * The contract

    What the modules on top of the consensus module rely on. *)

Definition CONSENSUS_PARAMS_KEY : bytes := str CONSENSUS_MODULE_NAME ++ PARAMS_STORE_KEY.

Section emission.
Context `{Platform} `{!ConsensusLayer}.

Definition push_message (msg : StakingMessage) (hook : MessageEventHookInvocation) (s : State) : State :=
  set_messages (st_messages s ++ [(staking_message msg, hook)]) s.

(** The operation emits one message, which moves the whole amount, or it fails and does nothing. *)
Definition emits (d : Denomination) (factor : N) (msg : N → StakingMessage) (a : BaseUnits)
    (hook : MessageEventHookInvocation) (m : M ConsensusError unit) (s : State) : Prop :=
  (∃ c, denomination a = d ∧ amount a = (c * factor)%N ∧ m s = (Ok tt, push_message (msg c) hook s)) ∨
  ∃ e, m s = (Err e, s).
End emission.

Class ConsensusContract `{Platform} `{!ConsensusLayer} `{!ConsensusAPI} := {
  (** the denomination and the scaling factor in force, which are read off one key of the store *)
  cs_settled : State → Denomination → N → Prop;
  cs_settled_ext s s' d f :
    cs_settled s d f → writable s' → at_key s' CONSENSUS_PARAMS_KEY = at_key s CONSENSUS_PARAMS_KEY →
    cs_settled s' d f;
  cs_transfer_emits ctx to a hook s d f :
    cs_settled s d f → emits d f (StakingTransfer to) a hook (cs_transfer ctx to a hook) s;
  cs_withdraw_emits ctx from a hook s d f :
    cs_settled s d f → emits d f (StakingWithdraw from) a hook (cs_withdraw ctx from a hook) s;
  cs_escrow_emits ctx to a hook s d f :
    cs_settled s d f → emits d f (StakingAddEscrow to) a hook (cs_escrow ctx to a hook) s;
  cs_reclaim_escrow_emits ctx from shares hook s :
    cs_reclaim_escrow ctx from shares hook s = (Ok tt, push_message (StakingReclaimEscrow from shares) hook s) ∨
    ∃ e, cs_reclaim_escrow ctx from shares hook s = (Err e, s);
  cs_denomination_run s d f : cs_settled s d f → cs_denomination s = (Ok d, s);
  cs_amount_from_run ctx c s d f :
    cs_settled s d f →
    cs_amount_from_consensus ctx c s =
      (if (c * f <=? u128_max)%N then Ok (c * f)%N else Err AmountNotRepresentable, s);
  cs_account_run ctx a :
    ∃ r : ConsensusError + ConsensusAccount, ∀ s,
      cs_account ctx a s = (match r with inr acct => Ok acct | inl e => Err e end, s);
  cs_delegation_run ctx a b :
    ∃ r : ConsensusError + N, ∀ s, cs_delegation ctx a b s = (match r with inr n => Ok n | inl e => Err e end, s);
  (** the height of the transition to an epoch *)
  cs_transition : Ctx → N → N → Prop;
  cs_height_run ctx e h s : cs_transition ctx e h → cs_height_for_epoch ctx e s = (Ok h, s);
  cs_height_keeps ctx e s : (cs_height_for_epoch ctx e s).2 = s;
}.

(** The consensus module keeps the contract. *)
Section contract.
Context `{Platform} `{!MKVSLaws} `{!ConsensusLayer} `{!ConsensusCodec} `{!LruCache N N, !LruLaws N N}.

Lemma emit_message_emits n msg hook s :
  map_err CsCore (emit_message n (staking_message msg) hook) s = (Ok tt, push_message msg hook s) ∨
  ∃ e, map_err CsCore (emit_message n (staking_message msg) hook) s = (Err e, s).
Proof.
  unfold map_err, emit_message. run_simpl.
  destruct (_ <=? _)%N; [right; by eexists|by left].
Qed.

(** The common part of the operations that move an amount. *)
Lemma checked_emits ctx a msg hook s p (k : N → M ConsensusError unit) :
  has_consensus_params s p →
  (∀ c, k c s = (Ok tt, push_message (msg c) hook s) ∨ ∃ e, k c s = (Err e, s)) →
  emits (consensus_denomination_param p) (consensus_scaling_factor p) msg a hook
    (ensure_consensus_denomination (denomination a) ;; c ← amount_to_consensus ctx (amount a); k c) s.
Proof.
  intros Hp Hk. unfold emits. set (d := consensus_denomination_param p) in *.
  destruct (decide (denomination a = d)) as [Hd|Hd].
  2:{ right. eexists. rewrite (bind_err _ _ s InvalidDenomination s); [done|].
      rewrite (ensure_denomination_run _ _ p) by done. by rewrite decide_False. }
  rewrite (bind_ok _ _ s tt s) by (rewrite (ensure_denomination_run _ _ p) by done; by rewrite decide_True).
  destruct (to_consensus (consensus_scaling_factor p) (amount a)) as [c|] eqn:Hc.
  2:{ right. eexists. apply (bind_err _ _ s AmountNotRepresentable s).
      by rewrite (amount_to_consensus_run ctx _ _ p), Hc. }
  rewrite (bind_ok _ _ s c s) by (by rewrite (amount_to_consensus_run ctx _ _ p), Hc).
  apply to_consensus_Some in Hc as [_ Hc].
  destruct (Hk c) as [Hm|[e Hm]]; [left|right; by eexists]. by exists c.
Qed.

Lemma escrow_emits ctx to a hook s p :
  has_consensus_params s p →
  emits (consensus_denomination_param p) (consensus_scaling_factor p) (StakingAddEscrow to) a hook
    (consensus_escrow ctx to a hook) s.
Proof.
  intros Hp. apply checked_emits; [done|]. intros c.
  rewrite (bind_ok _ _ _ _ _ (consensus_params_run (E := ConsensusError) _ _ Hp)).
  destruct (c <? min_delegate_amount p)%N; [right; by eexists|apply emit_message_emits].
Qed.

Lemma state_result_run {A} (r : string + A) :
  ∃ r' : ConsensusError + A, ∀ s, state_result r s = (match r' with inr a => Ok a | inl e => Err e end, s).
Proof. destruct r as [msg|a]; [by exists (inl (InternalStateError msg))|by exists (inr a)]. Qed.

Definition settled_params (s : State) (d : Denomination) (f : N) : Prop :=
  ∃ p, has_consensus_params s p ∧ consensus_denomination_param p = d ∧ consensus_scaling_factor p = f.

Lemma settled_params_ext s s' d f :
  settled_params s d f → writable s' → at_key s' CONSENSUS_PARAMS_KEY = at_key s CONSENSUS_PARAMS_KEY →
  settled_params s' d f.
Proof.
  intros (p & (o & (st & Hst & _ & Hget) & ->) & Hd & Hf) (st' & Hst' & Hwf & _) Hat.
  exists (default consensus_parameters_default o). split; [|done]. exists o. split; [|done].
  exists st'. do 2 (split; [done|]). unfold at_key in Hat. rewrite Hst, Hst' in Hat. simpl in Hat.
  change (ref_prefix (PrefixStore CurrentStore (str CONSENSUS_MODULE_NAME)) ++ PARAMS_STORE_KEY)
    with CONSENSUS_PARAMS_KEY in *. by rewrite Hat.
Qed.

(** An epoch that the module can look up. *)
Definition known_transition (cache : lru N N) (fuel : nat) (ctx : Ctx) (e h : N) : Prop :=
  ∃ latest transition current, beacon_history ctx latest transition ∧ in_force transition latest current ∧
    (e ≤ current)%N ∧ (1 ≤ transition e)%N ∧ (N.to_nat (current - e) < fuel)%nat ∧
    cache_sound (λ e h, h = transition e) cache ∧ h = transition e.

#[export] Instance consensus_contract (cache : lru N N) (fuel : nat) :
  @ConsensusContract _ _ (consensus_api cache fuel).
Proof.
  refine {| cs_settled := settled_params; cs_transition := known_transition cache fuel |}.
  - apply settled_params_ext.
  - intros ctx to a hook s d f (p & Hp & <- & <-).
    apply checked_emits; [done|]. intros c. apply emit_message_emits.
  - intros ctx from a hook s d f (p & Hp & <- & <-).
    apply checked_emits; [done|]. intros c. apply emit_message_emits.
  - intros ctx to a hook s d f (p & Hp & <- & <-). by apply escrow_emits.
  - intros ctx from shares hook s. apply emit_message_emits.
  - intros s d f (p & Hp & <- & _). cbn. unfold consensus_denomination.
    by rewrite (bind_ok _ _ _ _ _ (consensus_params_run (E := ConsensusError) _ _ Hp)).
  - intros ctx c s d f (p & Hp & _ & <-). cbn. rewrite (amount_from_consensus_run ctx c s p Hp).
    unfold checked_mul. by destruct (_ <=? _)%N.
  - intros ctx a. apply state_result_run.
  - intros ctx a b. apply state_result_run.
  - intros ctx e h s (latest & transition & current & Hb & Hin & Hle & Hpos & Hfuel & Hc & ->). cbn.
    destruct (height_for_epoch_run ctx latest transition current e fuel cache) as (c' & Hrun & _); try done.
    unfold with_cache. by rewrite Hrun.
  - done.
Defined.
End contract.
