(* ===== verification/Gas.v ===== *)
(** Gas accounting of the core module refines an abstract meter; gas prices; the hooks that charge
    gas (src/runtime-sdk/src/modules/core/mod.rs). *)
From S2P Require Import Prelude Storage StoreIter Types Fee Errors State Current Transactions Module.
From S2P Require Import Concrete Core.

Local Open Scope string_scope.

(** * The abstract meter *)

Record Meter := { tx_used : N; batch_used : N }.

(** What charging gas to a transaction promises: both totals grow by the amount, or neither does and
    the error says which limit is in the way. *)
Definition charge (limit max_batch : N) (check_only : bool) (mask : bool) (gas : N) (m : Meter)
    : CoreError + Meter :=
  if (u64_max <? tx_used m + gas)%N then inl GasOverflow
  else if (limit <? tx_used m + gas)%N then inl (out_of_gas mask limit (tx_used m + gas))
  else if check_only then inr {| tx_used := tx_used m + gas; batch_used := batch_used m |}
  else if (u64_max <? batch_used m + gas)%N || (max_batch <? batch_used m + gas)%N
       then inl (Abort_ BatchOutOfGas)
  else inr {| tx_used := tx_used m + gas; batch_used := batch_used m + gas |}.

Definition within (limit max_batch : N) (m : Meter) : Prop :=
  (tx_used m ≤ limit)%N ∧ (batch_used m ≤ max_batch)%N.

Lemma charge_within limit max_batch co mask gas m m' :
  charge limit max_batch co mask gas m = inr m' → within limit max_batch m → within limit max_batch m'.
Proof.
  unfold charge, within. intros Hc [? ?].
  destruct (u64_max <? tx_used m + gas)%N; [done|].
  destruct (N.ltb_spec limit (tx_used m + gas)); [done|]. destruct co; [by simplify_eq/=|].
  destruct (u64_max <? batch_used m + gas)%N; [done|].
  destruct (N.ltb_spec max_batch (batch_used m + gas)); by simplify_eq/=.
Qed.

Lemma charge_used limit max_batch co mask gas m m' :
  charge limit max_batch co mask gas m = inr m' → tx_used m' = (tx_used m + gas)%N.
Proof. unfold charge. intros Hc. by case_run. Qed.

(** When a price is acceptable: the method is exempt, or the denomination has a minimum price which
    the price reaches, and during checks the local minimum as well. *)
Definition price_acceptable (exempt check_only : bool) (min : option N) (local price : N) : bool :=
  exempt || match min with
            | None => false
            | Some m => (m <=? price)%N && (negb check_only || (local <=? price)%N)
            end.

Section meter.
Context `{Platform} `{!MKVSLaws} `{!CoreCodec} `{!CoreConfig}.

Definition has_core_params (s : State) (p : CoreParameters) : Prop :=
  ∃ o, stored s core_store PARAMS_STORE_KEY o ∧ p = default core_parameters_default o.

Lemma core_params_run {E} s p : has_core_params s p → core_params (E := E) s = (Ok p, s).
Proof.
  intros (o & Ho & ->). unfold core_params, params. fold core_store.
  by rewrite (bind_ok _ _ _ _ _ (typed_get_run (E := E) _ _ _ _ Ho)).
Qed.

(** The meter kept in a state: the transaction's total is a local value, the batch's a block value. *)
Definition meter_of (s : State) (m : Meter) : Prop :=
  holds_n Local_ CONTEXT_KEY_GAS_USED s (tx_used m) ∧ holds_n Block CONTEXT_KEY_GAS_USED s (batch_used m).

(** Only per-state values change. *)
Definition only_values (s s' : State) : Prop :=
  ∃ bv lv, s' = set_block_values bv (set_local_values lv s).
Lemma only_values_refl s : only_values s s.
Proof. exists (st_block_values s), (st_local_values s). by destruct s. Qed.
Lemma only_values_trans s1 s2 s3 : only_values s1 s2 → only_values s2 s3 → only_values s1 s3.
Proof. intros (bv & lv & ->) (bv' & lv' & ->). by exists bv', lv'. Qed.
Lemma only_values_set sc vs s : only_values s (set_values sc vs s).
Proof.
  destruct sc; [exists vs, (st_local_values s)|exists (st_block_values s), vs]; by destruct s.
Qed.
Lemma only_values_params s s' p : only_values s s' → has_core_params s p → has_core_params s' p.
Proof. by intros (bv & lv & ->). Qed.
Lemma only_values_env s s' : only_values s s' → st_env s' = st_env s.
Proof. by intros (bv & lv & ->). Qed.

Lemma used_batch_gas_run {E} s b :
  holds_n Block CONTEXT_KEY_GAS_USED s b → used_batch_gas (E := E) s = (Ok b, s).
Proof.
  intros (o & Ho & ->). unfold used_batch_gas. by rewrite (bind_ok _ _ _ _ _ (value_get_run (E := E) _ _ _ _ Ho)).
Qed.

(** Reading the transaction's total through [or_default] stores the default. *)
Lemma used_tx_gas_run {E} s m :
  meter_of s m → ∃ s', used_tx_gas (E := E) s = (Ok (tx_used m), s') ∧ only_values s s' ∧
    meter_of s' m ∧ holds_value Local_ CONTEXT_KEY_GAS_USED s' (Some (tx_used m)).
Proof.
  intros [(o & Ho & Hu) Hb]. unfold used_tx_gas. rewrite (value_or_default_run _ _ _ _ Ho).
  cbn [any_default any_u64]. rewrite <-Hu.
  eexists. split; [done|]. destruct o as [n|]; simpl in *.
  - rewrite Hu. split; [apply only_values_refl|]. split; [|done]. split; [|done]. by exists (Some n).
  - split; [apply (only_values_set Local_)|]. rewrite Hu.
    pose proof (holds_value_set (V := N) Local_ CONTEXT_KEY_GAS_USED s 0%N).
    split; [|done]. split; [|done]. exists (Some 0%N). by rewrite Hu.
Qed.

Lemma use_batch_gas_run s p b gas :
  has_core_params s p → holds_n Block CONTEXT_KEY_GAS_USED s b →
  use_batch_gas gas s =
    if is_check_only (st_env s) then (Ok tt, s)
    else if (u64_max <? b + gas)%N || (max_batch_gas_param p <? b + gas)%N
         then (Err (Abort_ BatchOutOfGas), s)
    else (Ok tt, set_values Block (<[CONTEXT_KEY_GAS_USED := AnyU64 (b + gas)]> (st_block_values s)) s).
Proof.
  intros Hp Hb. unfold use_batch_gas, with_env. rewrite gets_bind.
  destruct (is_check_only (st_env s)); [done|].
  rewrite (bind_ok _ _ _ _ _ (core_params_run (E := CoreError) _ _ Hp)).
  rewrite (bind_ok _ _ _ _ _ (used_batch_gas_run (E := CoreError) _ _ Hb)).
  unfold checked_add. destruct (N.leb_spec (b + gas) u64_max) as [Hle|Hgt]; cbn [ok_or].
  - destruct (N.ltb_spec u64_max (b + gas)); [lia|]. simpl. run_simpl. by case_match.
  - run_simpl. by destruct (N.ltb_spec u64_max (b + gas)); [|lia].
Qed.

Lemma use_tx_gas_run s ai p m gas :
  env_tx_auth_info (st_env s) = Some ai → has_core_params s p → meter_of s m →
  ∃ r s', use_tx_gas gas s = (r, s') ∧ only_values s s' ∧
    match charge (fee_gas (ai_fee ai)) (max_batch_gas_param p) (is_check_only (st_env s))
            EMIT_GAS_USED_EVENTS gas m with
    | inr m' => r = Ok tt ∧ meter_of s' m'
    | inl e => r = Err e ∧ meter_of s' m
    end.
Proof.
  intros Hai Hp Hm. unfold use_tx_gas, with_tx_env.
  destruct (used_tx_gas_run (E := CoreError) s m Hm) as (s1 & Hrun & Hov & Hm1 & Hv1).
  rewrite (bind_ok _ _ s (fee_gas (ai_fee ai)) s) by (unfold mbind, ST_bind, get_st; by rewrite Hai).
  rewrite (bind_ok _ _ _ _ _ Hrun). clear Hrun. unfold charge, checked_add.
  destruct (N.leb_spec (tx_used m + gas) u64_max), (N.ltb_spec u64_max (tx_used m + gas)); try lia;
    cbn [ok_or].
  2:{ eexists _, _. split; [done|]. done. }
  rewrite (bind_ok _ _ s1 (tx_used m + gas)%N s1) by done.
  destruct (fee_gas (ai_fee ai) <? tx_used m + gas)%N; [by eexists _, _|].
  pose proof Hm1 as [Hu1 Hb1].
  unfold mbind at 1, ST_bind at 1.
  rewrite (use_batch_gas_run s1 p (batch_used m) gas (only_values_params _ _ _ Hov Hp) Hb1).
  rewrite (only_values_env _ _ Hov).
  destruct (is_check_only (st_env s)) eqn:Hco;
    [|destruct ((u64_max <? batch_used m + gas)%N || (max_batch_gas_param p <? batch_used m + gas)%N);
      [by eexists _, _|]].
  - rewrite (bind_ok _ _ _ _ _ (value_or_default_run (E := CoreError) (V := N) _ _ _ _ Hv1)). eexists _, _. split; [done|].
    split; [eapply only_values_trans; [exact Hov|apply (only_values_set Local_)]|].
    split; [done|]. split; [|exact Hb1]. eexists (Some _).
    split; [apply (holds_value_set (V := N) Local_)|done].
  - match goal with |- context [set_values Block ?bv s1] => set (s2 := set_values Block bv s1) end.
    assert (Hv2 : holds_value (V := N) Local_ CONTEXT_KEY_GAS_USED s2 (Some (tx_used m))) by exact Hv1.
    rewrite (bind_ok _ _ _ _ _ (value_or_default_run (E := CoreError) (V := N) _ _ _ _ Hv2)). eexists _, _. split; [done|].
    split; [eapply only_values_trans; [exact Hov|eapply only_values_trans;
      [apply (only_values_set Block)|apply (only_values_set Local_)]]|].
    split; [done|]. split.
    + eexists (Some _). split; [apply (holds_value_set (V := N) Local_)|done].
    + exists (Some (batch_used m + gas)%N). split; [|done].
      exact (holds_value_set (V := N) Block CONTEXT_KEY_GAS_USED s1 (batch_used m + gas)%N).
Qed.

(** Charging a list of amounts, one after the other. *)
Lemma use_tx_gas_list s ai p m gs :
  env_tx_auth_info (st_env s) = Some ai → has_core_params s p → meter_of s m →
  within (fee_gas (ai_fee ai)) (max_batch_gas_param p) m →
  ∃ m', only_values s (for_each gs use_tx_gas s).2 ∧
    meter_of (for_each gs use_tx_gas s).2 m' ∧
    within (fee_gas (ai_fee ai)) (max_batch_gas_param p) m' ∧
    ((for_each gs use_tx_gas s).1 = Ok tt → tx_used m' = (tx_used m + list_sum id gs)%N) ∧
    (∀ msg, (for_each gs use_tx_gas s).1 ≠ Panic msg).
Proof.
  intros Hai Hp. revert s m Hai Hp. induction gs as [|g gs IH]; intros s m Hai Hp Hm Hw; simpl.
  - exists m. split; [apply only_values_refl|]. split; [done|]. split; [done|].
    split; [intros _; lia|done].
  - destruct (use_tx_gas_run s ai p m g Hai Hp Hm) as (r & s1 & Hrun & Hov & Hc).
    unfold mbind, ST_bind. rewrite Hrun.
    destruct (charge _ _ _ _ g m) as [e|m1] eqn:Hch; destruct Hc as [-> Hm1]; simpl.
    + by exists m.
    + destruct (IH s1 m1) as (m' & Hov' & Hm' & Hw' & Hsum & Hnp).
      * by rewrite (only_values_env _ _ Hov).
      * by eapply only_values_params.
      * done.
      * by eapply charge_within.
      * exists m'. split; [by eapply only_values_trans|]. do 2 (split; [done|]). split; [|done].
        intros Hok. rewrite (Hsum Hok), (charge_used _ _ _ _ _ _ _ Hch). unfold id. lia.
Qed.

Lemma with_tx_env_run {E A} (f : Environment → option A) s x :
  f (st_env s) = Some x → with_tx_env (E := E) f s = (Ok x, s).
Proof. unfold with_tx_env. intros Hf. run_simpl. by rewrite Hf. Qed.

(** Checking the price reads the state only. *)
Lemma enforce_min_gas_price_run ctx call s fee ps l :
  (ai_fee <$> env_tx_auth_info (st_env s)) = Some fee →
  min_gas_prices (E := CoreError) s = (Ok ps, s) →
  get_local_min_gas_price (E := CoreError) ctx (denomination (fee_amount fee)) s = (Ok l, s) →
  enforce_min_gas_price ctx call s =
    (if price_acceptable (bool_decide (call_method call ∈ MIN_GAS_PRICE_EXEMPT_METHODS))
          (is_check_only (st_env s)) (ps !! denomination (fee_amount fee)) l (gas_price fee)
     then Ok tt else Err GasPriceTooLow, s).
Proof.
  intros Hfee Hps Hl. unfold enforce_min_gas_price, with_env, price_acceptable.
  destruct (bool_decide (call_method call ∈ MIN_GAS_PRICE_EXEMPT_METHODS)) eqn:Hex; [done|].
  rewrite (bind_ok _ _ _ _ _ (with_tx_env_run (E := CoreError) _ s fee Hfee)).
  unfold min_gas_price. rewrite (bind_ok _ _ s (ps !! denomination (fee_amount fee)) s)
    by (by rewrite (bind_ok _ _ _ _ _ Hps)).
  destruct (ps !! denomination (fee_amount fee)) as [min|] eqn:Hmin; [|done].
  rewrite gets_bind. destruct (is_check_only (st_env s)) eqn:Hco.
  - unfold mbind at 1, ST_bind at 1. rewrite (bind_ok _ _ _ _ _ Hl), !N.leb_antisym.
    by destruct (gas_price fee <? l)%N, (gas_price fee <? min)%N.
  - rewrite N.leb_antisym. run_simpl. by destruct (gas_price fee <? min)%N.
Qed.

Lemma use_tx_gas_ok_inv s ai p m gas s' :
  env_tx_auth_info (st_env s) = Some ai → has_core_params s p → meter_of s m →
  use_tx_gas gas s = (Ok tt, s') →
  ∃ m', only_values s s' ∧ meter_of s' m' ∧ tx_used m' = (tx_used m + gas)%N ∧
    (tx_used m' ≤ fee_gas (ai_fee ai))%N.
Proof.
  intros Hai Hp Hm Hrun. destruct (use_tx_gas_run s ai p m gas Hai Hp Hm) as (r & s1 & Hrun' & Hov & Hc).
  rewrite Hrun in Hrun'. injection Hrun' as <- <-.
  destruct (charge _ _ _ _ gas m) as [e|m'] eqn:Hch; destruct Hc as [? Hm']; [done|].
  exists m'. split; [done|]. split; [done|]. pose proof (charge_used _ _ _ _ _ _ _ Hch) as Hu.
  split; [done|]. rewrite Hu. unfold charge in Hch.
  destruct (u64_max <? tx_used m + gas)%N; [done|].
  by destruct (N.ltb_spec (fee_gas (ai_fee ai)) (tx_used m + gas)).
Qed.

(** The gas for the format of a call. *)
Definition format_cost (p : CoreParameters) (call : Call) : N :=
  match call_format call with
  | Plain => 0
  | EncryptedX25519DeoxysII => callformat_x25519_deoxysii (core_gas_costs p)
  end.

Lemma before_handle_call_ok ctx call s twm p m ps l s' :
  env_tx (st_env s) = Some twm → env_internal (st_env s) = false →
  has_core_params s p → meter_of s m →
  min_gas_prices (E := CoreError) s = (Ok ps, s) →
  (∀ d, get_local_min_gas_price (E := CoreError) ctx d s = (Ok (l d), s)) →
  core_before_handle_call ctx call s = (Ok tt, s') →
  let ai := tx_auth_info (twm_data twm) in
  let fee := ai_fee ai in
  ∃ sig m', compute_signature_verification_cost p (signer_info ai) = Some sig ∧
    only_values s s' ∧ meter_of s' m' ∧
    tx_used m' = (tx_used m + tx_byte (core_gas_costs p) * twm_size twm + sig + format_cost p call)%N ∧
    (tx_used m' ≤ fee_gas fee)%N ∧ (fee_gas fee ≤ max_batch_gas_param p)%N ∧
    (fee_consensus_messages fee ≤ ctx_max_messages ctx)%N ∧
    price_acceptable (bool_decide (call_method call ∈ MIN_GAS_PRICE_EXEMPT_METHODS))
      (is_check_only (st_env s)) (ps !! denomination (fee_amount fee))
      (l (denomination (fee_amount fee))) (gas_price fee) = true.
Proof.
  intros Htx Hint Hp Hm Hps Hl Hrun ai fee.
  assert (Hai : env_tx_auth_info (st_env s) = Some ai) by (unfold env_tx_auth_info; by rewrite Htx).
  unfold core_before_handle_call in Hrun.
  rewrite (bind_ok _ _ _ _ _ (core_params_run (E := CoreError) _ _ Hp)) in Hrun.
  rewrite (bind_ok _ _ _ _ _ (with_tx_env_run (E := CoreError) (λ e, ai_fee <$> env_tx_auth_info e) s fee
    ltac:(simpl; by rewrite Hai))) in Hrun.
  destruct (N.ltb_spec (max_batch_gas_param p) (fee_gas fee)) as [?|Hmax]; [done|].
  destruct (N.ltb_spec (ctx_max_messages ctx) (fee_consensus_messages fee)) as [?|Hmsg]; [done|].
  rewrite (bind_ok _ _ s false s) in Hrun by (unfold with_env, gets; by rewrite Hint).
  apply bind_ok_inv in Hrun as ([] & s0 & Henf & Hrun).
  rewrite (enforce_min_gas_price_run ctx call s fee ps _ ltac:(by rewrite Hai) Hps (Hl _)) in Henf.
  destruct (price_acceptable _ _ _ _ _) eqn:Hprice; [|done]. injection Henf as <-.
  rewrite (bind_ok _ _ _ _ _ (with_tx_env_run (E := CoreError) env_tx_size s (twm_size twm)
    ltac:(unfold env_tx_size; by rewrite Htx))) in Hrun.
  apply bind_ok_inv in Hrun as (byte & s0 & Hb & Hrun).
  destruct (checked_mul _ _ _) as [byte'|] eqn:Hmul; [|done]. injection Hb as -> <-.
  apply checked_mul_Some in Hmul as [-> _].
  apply bind_ok_inv in Hrun as ([] & s1 & Hg1 & Hrun).
  destruct (use_tx_gas_ok_inv _ _ _ _ _ _ Hai Hp Hm Hg1) as (m1 & Hov1 & Hm1 & Hu1 & Hl1).
  assert (Hai1 : env_tx_auth_info (st_env s1) = Some ai) by by rewrite (only_values_env _ _ Hov1).
  pose proof (only_values_params _ _ _ Hov1 Hp) as Hp1.
  rewrite (bind_ok _ _ _ _ _ (with_tx_env_run (E := CoreError)
    (λ e, (λ ai, compute_signature_verification_cost p (signer_info ai)) <$> env_tx_auth_info e) s1
    (compute_signature_verification_cost p (signer_info ai)) ltac:(simpl; by rewrite Hai1))) in Hrun.
  destruct (compute_signature_verification_cost p (signer_info ai)) as [sig|] eqn:Hsig; [|done].
  apply bind_ok_inv in Hrun as (total & s0 & Hb & Hrun). injection Hb as -> <-.
  apply bind_ok_inv in Hrun as ([] & s2 & Hg2 & Hrun).
  destruct (use_tx_gas_ok_inv _ _ _ _ _ _ Hai1 Hp1 Hm1 Hg2) as (m2 & Hov2 & Hm2 & Hu2 & Hl2).
  assert (Hai2 : env_tx_auth_info (st_env s2) = Some ai) by by rewrite (only_values_env _ _ Hov2).
  pose proof (only_values_params _ _ _ Hov2 Hp1) as Hp2.
  exists total. unfold format_cost. destruct (call_format call).
  - injection Hrun as <-. exists m2. split; [done|]. split; [by eapply only_values_trans|].
    split; [done|]. repeat (split; [done || lia|]). done.
  - destruct (use_tx_gas_ok_inv _ _ _ _ _ _ Hai2 Hp2 Hm2 Hrun) as (m3 & Hov3 & Hm3 & Hu3 & Hl3).
    exists m3. split; [done|].
    split; [eapply only_values_trans; [exact Hov1|]; by eapply only_values_trans|].
    split; [done|]. repeat (split; [done || lia|]). done.
Qed.

(** What a transaction owes for the storage it wants to update and the messages it emitted. *)
Definition storage_gas (p : CoreParameters) (s : State) : N :=
  if (0 <? storage_byte (core_gas_costs p))%N
  then saturating_mul u64_max (storage_byte (core_gas_costs p)) (pending_store_update_byte_size s)
  else 0%N.
Definition message_gas (ctx : Ctx) (p : CoreParameters) (s : State) : N :=
  saturating_mul u64_max (default u64_max (checked_div (max_batch_gas_param p) (ctx_max_messages ctx)))
    (N.of_nat (emitted_messages_local_count s)).
Definition due_gas (ctx : Ctx) (p : CoreParameters) (s : State) (m : Meter) : N :=
  N.max (tx_used m) (N.max (storage_gas p s) (message_gas ctx p s)).

(** The unconditional events after the hook. *)
Definition gas_events (s : State) (m : Meter) : EventTags :=
  if EMIT_GAS_USED_EVENTS
  then push_event (etag_for_event CORE_MODULE_NAME 1 (gas_used_value (tx_used m)))
         (st_unconditional_events s)
  else st_unconditional_events s.

Lemma emit_gas_used_run s s2 m :
  only_values s s2 → meter_of s2 m →
  ∃ s', (if EMIT_GAS_USED_EVENTS then
           used_gas ← used_tx_gas;
           emit_unconditional_event (etag_for_event CORE_MODULE_NAME 1 (gas_used_value used_gas))
         else mret tt) s2 = (Ok (E := CoreError) tt, s') ∧ meter_of s' m ∧
    ∃ bv lv, s' = set_unconditional_events (gas_events s m)
                    (set_block_values bv (set_local_values lv s)).
Proof.
  intros Hov Hm. unfold gas_events. destruct EMIT_GAS_USED_EVENTS.
  - destruct (used_tx_gas_run (E := CoreError) s2 m Hm) as (s3 & Hrun & Hov3 & Hm3 & _).
    rewrite (bind_ok _ _ _ _ _ Hrun). eexists. split; [reflexivity|]. split; [exact Hm3|].
    destruct (only_values_trans _ _ _ Hov Hov3) as (bv & lv & ->). by exists bv, lv.
  - eexists. split; [reflexivity|]. split; [done|]. destruct Hov as (bv & lv & ->).
    exists bv, lv. by destruct s.
Qed.

Lemma after_handle_call_run ctx res s ai p m :
  env_tx_auth_info (st_env s) = Some ai → env_internal (st_env s) = false →
  has_core_params s p → meter_of s m →
  ∃ r s' m', core_after_handle_call ctx res s = (r, s') ∧
    (∃ bv lv, s' = set_unconditional_events (gas_events s m')
                     (set_block_values bv (set_local_values lv s))) ∧
    meter_of s' m' ∧
    match charge (fee_gas (ai_fee ai)) (max_batch_gas_param p) (is_check_only (st_env s))
            EMIT_GAS_USED_EVENTS (due_gas ctx p s m - tx_used m) m with
    | inr m1 => r = Ok tt ∧ m' = m1
    | inl e => r = Err e ∧ m' = m
    end.
Proof.
  intros Hai Hint Hp Hm. unfold core_after_handle_call.
  rewrite (bind_ok _ _ s false s) by (unfold with_env, gets; by rewrite Hint).
  rewrite (bind_ok _ _ _ _ _ (core_params_run (E := CoreError) _ _ Hp)). rewrite !gets_bind.
  destruct (used_tx_gas_run (E := CoreError) s m Hm) as (s1 & Hrun1 & Hov1 & Hm1 & _).
  rewrite (bind_ok _ _ _ _ _ Hrun1). fold (storage_gas p s) (message_gas ctx p s) (due_gas ctx p s m).
  destruct (use_tx_gas_run s1 ai p m (due_gas ctx p s m - tx_used m)%N
    ltac:(by rewrite (only_values_env _ _ Hov1)) (only_values_params _ _ _ Hov1 Hp) Hm1)
    as (r & s2 & Hrun2 & Hov2 & Hc).
  rewrite (only_values_env _ _ Hov1) in Hc.
  assert (Hov : only_values s s2) by by eapply only_values_trans.
  destruct (charge _ _ _ _ _ m) as [e|m'] eqn:Hch; destruct Hc as [-> Hm2].
  - rewrite (bind_ok _ _ s1 (inl e) s2) by (unfold try_; by rewrite Hrun2).
    destruct (emit_gas_used_run s s2 m Hov Hm2) as (s' & Hemit & Hm' & Hs').
    rewrite (bind_ok _ _ _ _ _ Hemit). by eexists _, _, m.
  - rewrite (bind_ok _ _ s1 (inr tt) s2) by (unfold try_; by rewrite Hrun2).
    destruct (emit_gas_used_run s s2 m' Hov Hm2) as (s' & Hemit & Hm' & Hs').
    rewrite (bind_ok _ _ _ _ _ Hemit). by eexists _, _, m'.
Qed.
End meter.

(** * Prices *)

Lemma saturating_mul_le mx a b : (saturating_mul mx a b ≤ a * b)%N.
Proof. unfold saturating_mul. lia. Qed.

Lemma price_change_le price delta d :
  (delta ≤ 100)%N → (saturating_mul u128_max price delta / 100 / d ≤ price / d)%N.
Proof.
  intros Hd. apply N.Div0.div_le_mono. apply N.Div0.div_le_upper_bound.
  pose proof (saturating_mul_le u128_max price delta). nia.
Qed.

Lemma usage_delta_le gas target :
  (gas ≤ 2 * target)%N →
  (saturating_mul u128_max (N.max gas target - N.min gas target) 100 / target ≤ 100)%N.
Proof.
  intros Hle. apply N.Div0.div_le_upper_bound.
  pose proof (saturating_mul_le u128_max (N.max gas target - N.min gas target) 100). lia.
Qed.

Lemma price_update_down gas target d price :
  (gas ≤ target)%N →
  (price - price / d ≤ min_gas_price_update gas target d price ≤ price)%N.
Proof.
  intros Hle. unfold min_gas_price_update. destruct ((target =? 0)%N || (d =? 0)%N).
  { split; [apply N.le_sub_l|done]. }
  destruct (N.ltb_spec target gas); [lia|]. unfold saturating_sub.
  pose proof (price_change_le price _ d (usage_delta_le gas target ltac:(lia))) as Hc.
  revert Hc. generalize (price / d)%N. intros x. generalize (saturating_mul u128_max price
    (saturating_mul u128_max (N.max gas target - N.min gas target) 100 / target) / 100 / d)%N. lia.
Qed.

Lemma price_update_up gas target d price :
  (target < gas)%N → (price ≤ u128_max)%N →
  (price ≤ min_gas_price_update gas target d price ≤ u128_max)%N ∧
  ((gas ≤ 2 * target)%N → (min_gas_price_update gas target d price ≤ price + price / d)%N).
Proof.
  intros Hlt Hp. unfold min_gas_price_update. destruct ((target =? 0)%N || (d =? 0)%N).
  { split; [done|]. intros _. apply N.le_add_r. }
  destruct (N.ltb_spec target gas); [|lia]. unfold saturating_add. split; [split|].
  - apply N.min_glb; [apply N.le_add_r|done].
  - apply N.le_min_r.
  - intros Hle. etransitivity; [apply N.le_min_l|]. apply N.add_le_mono_l, price_change_le.
    by apply usage_delta_le.
Qed.

Lemma price_update_max gas target d price :
  (price ≤ u128_max)%N → (min_gas_price_update gas target d price ≤ u128_max)%N.
Proof.
  intros Hp. destruct (N.le_gt_cases gas target) as [Hle|Hlt].
  - pose proof (price_update_down gas target d price Hle). lia.
  - by apply (price_update_up gas target d price).
Qed.

(** The laws of the encodings: maps of 128-bit prices can be encoded. *)
Class CoreCodecLaws `{Platform, !CoreCodec} : Prop := {
  core_prices_laws :: CborLaws (gmap Denomination N);
  prices_encodable (m : gmap Denomination N) :
    (∀ d x, m !! d = Some x → (x ≤ u128_max)%N) → encodable m;
}.

Section blocks.
Context `{Platform} `{!MKVSLaws} `{!CoreCodec} `{!CoreCodecLaws} `{!CoreConfig}.

Definition target_gas (p : CoreParameters) : N :=
  (saturating_mul u128_max (max_batch_gas_param p)
     (target_block_gas_usage_percentage (dynamic_min_gas_price p)) / 100)%N.
Definition next_prices (p : CoreParameters) (gas_used : N) (ps : gmap Denomination N)
    : gmap Denomination N :=
  map_imap (λ d price, Some (next_min_price p gas_used (target_gas p) d price)) ps.

Lemma next_prices_lookup p g ps d :
  next_prices p g ps !! d = next_min_price p g (target_gas p) d <$> ps !! d.
Proof. unfold next_prices. rewrite map_lookup_imap. by destruct (ps !! d). Qed.

Definition bounded_prices (ps : gmap Denomination N) : Prop :=
  ∀ d x, ps !! d = Some x → (x ≤ u128_max)%N.

Lemma next_prices_bounded p g ps :
  bounded_prices (min_gas_price_param p) → bounded_prices ps → bounded_prices (next_prices p g ps).
Proof.
  intros Hm Hps d x. rewrite next_prices_lookup. intros (y & Hy & ->)%fmap_Some.
  unfold next_min_price. pose proof (price_update_max g (target_gas p)
    (min_price_max_change_denominator (dynamic_min_gas_price p)) y (Hps _ _ Hy)).
  destruct (min_gas_price_param p !! d) as [mn|] eqn:Hmn; [|done].
  case_match; [by eapply Hm|done].
Qed.

(** The prices in force: the stored ones, the static ones until they are stored. *)
Definition has_dynamic_prices (s : State) (p : CoreParameters) (ps : gmap Denomination N) : Prop :=
  ∃ o, stored s core_store CORE_DYNAMIC_MIN_GAS_PRICE o ∧ ps = default (min_gas_price_param p) o.

Lemma min_gas_prices_run {E} s p ps :
  has_core_params s p → dyn_enabled (dynamic_min_gas_price p) = true →
  has_dynamic_prices s p ps → min_gas_prices (E := E) s = (Ok ps, s).
Proof.
  intros Hp Hen (o & Ho & ->). unfold min_gas_prices.
  rewrite (bind_ok _ _ _ _ _ (core_params_run (E := E) _ _ Hp)), Hen.
  by rewrite (bind_ok _ _ _ _ _ (typed_get_run (E := E) _ _ _ _ Ho)).
Qed.

Lemma end_block_run ctx s p ps g :
  ready s → has_core_params s p → dyn_enabled (dynamic_min_gas_price p) = true →
  has_dynamic_prices s p ps → holds_n Block CONTEXT_KEY_GAS_USED s g →
  bounded_prices (min_gas_price_param p) → bounded_prices ps →
  ∃ st', core_end_block ctx s = (Ok tt, set_store (Some st') s) ∧
    has_core_params (set_store (Some st') s) p ∧
    has_dynamic_prices (set_store (Some st') s) p (next_prices p g ps).
Proof.
  intros Hs Hp Hen Hps Hg Hbm Hbp. unfold core_end_block.
  rewrite (bind_ok _ _ _ _ _ (core_params_run (E := Empty_set) _ _ Hp)), Hen. cbn [negb].
  rewrite (bind_ok _ _ _ _ _ (used_batch_gas_run (E := Empty_set) _ _ Hg)).
  unfold max_batch_gas. rewrite (bind_ok _ _ s (max_batch_gas_param p) s)
    by (by rewrite (bind_ok _ _ _ _ _ (core_params_run (E := Empty_set) _ _ Hp))).
  rewrite (bind_ok _ _ _ _ _ (min_gas_prices_run (E := Empty_set) _ _ _ Hp Hen Hps)).
  fold (target_gas p). fold (next_prices p g ps).
  destruct (stored_typed_insert (E := Empty_set) (T' := CoreParameters) s core_store
    CORE_DYNAMIC_MIN_GAS_PRICE (next_prices p g ps) Hs
    (prices_encodable _ (next_prices_bounded _ _ _ Hbm Hbp))) as (st' & Hrun & Hnew & Hold).
  exists st'. split; [exact Hrun|]. split.
  - destruct Hp as (o & Ho & ->). exists o. split; [|done]. by apply Hold.
  - by exists (Some (next_prices p g ps)).
Qed.
End blocks.

Module GasClaims.
Section claims.
Context `{Platform} `{!MKVSLaws} `{!CoreCodec} `{!CoreConfig}.

(** Charging gas to a transaction refines the abstract meter: on success both the
    transaction's and (outside of checks) the batch's total grow by exactly the amount; otherwise
    neither total changes and the error is the one of the limit in the way (64-bit overflow, the
    gas limit of the transaction, or an abort for the batch limit).  Nothing else of the state
    changes, and charging never panics. *)
Theorem use_tx_gas_refines s ai p m gas :
  env_tx_auth_info (st_env s) = Some ai → has_core_params s p → meter_of s m →
  ∃ r s', use_tx_gas gas s = (r, s') ∧ only_values s s' ∧
    match charge (fee_gas (ai_fee ai)) (max_batch_gas_param p) (is_check_only (st_env s))
            EMIT_GAS_USED_EVENTS gas m with
    | inr m' => r = Ok tt ∧ meter_of s' m'
    | inl e => r = Err e ∧ meter_of s' m
    end.
Proof. apply use_tx_gas_run. Qed.

(** However many charges a transaction makes, and however they end, the gas used by it never
    exceeds its gas limit and the gas used by the batch never exceeds the batch limit; when all
    charges succeed the transaction has used exactly their sum. *)
Theorem gas_never_exceeds s ai p m gs :
  env_tx_auth_info (st_env s) = Some ai → has_core_params s p → meter_of s m →
  within (fee_gas (ai_fee ai)) (max_batch_gas_param p) m →
  ∃ m', meter_of (for_each gs use_tx_gas s).2 m' ∧
    within (fee_gas (ai_fee ai)) (max_batch_gas_param p) m' ∧
    ((for_each gs use_tx_gas s).1 = Ok tt → tx_used m' = (tx_used m + list_sum id gs)%N) ∧
    (∀ msg, (for_each gs use_tx_gas s).1 ≠ Panic msg).
Proof.
  intros Hai Hp Hm Hw. destruct (use_tx_gas_list s ai p m gs Hai Hp Hm Hw) as (m' & _ & Hrest).
  by exists m'.
Qed.

(** A call passes the core module's checks only if its gas limit fits in a batch, its
    messages fit in a block, its gas price is acceptable, and it pays from its gas limit for its
    size, for every signature that had to be verified and for its call format. *)
Theorem before_handle_call_charges ctx call s twm p m ps l s' :
  env_tx (st_env s) = Some twm → env_internal (st_env s) = false →
  has_core_params s p → meter_of s m →
  min_gas_prices (E := CoreError) s = (Ok ps, s) →
  (∀ d, get_local_min_gas_price (E := CoreError) ctx d s = (Ok (l d), s)) →
  core_before_handle_call ctx call s = (Ok tt, s') →
  let ai := tx_auth_info (twm_data twm) in
  let fee := ai_fee ai in
  ∃ sig m', compute_signature_verification_cost p (signer_info ai) = Some sig ∧
    only_values s s' ∧ meter_of s' m' ∧
    tx_used m' = (tx_used m + tx_byte (core_gas_costs p) * twm_size twm + sig + format_cost p call)%N ∧
    (tx_used m' ≤ fee_gas fee)%N ∧ (fee_gas fee ≤ max_batch_gas_param p)%N ∧
    (fee_consensus_messages fee ≤ ctx_max_messages ctx)%N ∧
    price_acceptable (bool_decide (call_method call ∈ MIN_GAS_PRICE_EXEMPT_METHODS))
      (is_check_only (st_env s)) (ps !! denomination (fee_amount fee))
      (l (denomination (fee_amount fee))) (gas_price fee) = true.
Proof. apply before_handle_call_ok. Qed.

(** After a call the transaction pays for its storage updates and its messages: the gas used
    is raised to the largest of the gas it used, the cost of the pending storage updates and the
    cost of the emitted messages; if it cannot pay, the hook fails and the total is unchanged.
    Either way exactly one gas-used event with the final total is emitted as an unconditional
    event (when the runtime reveals gas use), and the store and the messages are not touched. *)
Theorem after_handle_call_settles ctx res s ai p m :
  env_tx_auth_info (st_env s) = Some ai → env_internal (st_env s) = false →
  has_core_params s p → meter_of s m →
  ∃ r s' m', core_after_handle_call ctx res s = (r, s') ∧
    (∃ bv lv, s' = set_unconditional_events (gas_events s m')
                     (set_block_values bv (set_local_values lv s))) ∧
    meter_of s' m' ∧
    match r with
    | Ok _ => tx_used m' = due_gas ctx p s m ∧ (due_gas ctx p s m ≤ fee_gas (ai_fee ai))%N
    | Err _ => m' = m
    | Panic _ => False
    end.
Proof.
  intros Hai Hint Hp Hm. destruct (after_handle_call_run ctx res s ai p m Hai Hint Hp Hm)
    as (r & s' & m' & Hrun & Hs' & Hm' & Hc). exists r, s', m'. do 3 (split; [done|]).
  destruct (charge _ _ _ _ _ m) as [e|m1] eqn:Hch; destruct Hc as [-> ->]; [done|].
  pose proof (charge_used _ _ _ _ _ _ _ Hch) as Hu.
  assert (Hdue : tx_used m1 = due_gas ctx p s m) by (unfold due_gas in *; lia).
  split; [done|]. rewrite <-Hdue, Hu. unfold charge in Hch.
  destruct (u64_max <? _)%N; [done|]. by destruct (N.ltb_spec (fee_gas (ai_fee ai))
    (tx_used m + (due_gas ctx p s m - tx_used m))).
Qed.

(** Price adjustment is monotone and bounded: when the block was not fuller than the target
    the price does not rise, and falls by at most the configured fraction; when it was fuller the
    price does not fall and stays a 128-bit integer; and up to twice the target it rises by at
    most the configured fraction. *)
Theorem price_update_bounded gas target d price :
  (price ≤ u128_max)%N →
  let new := min_gas_price_update gas target d price in
  ((gas ≤ target)%N → (price - price / d ≤ new ≤ price)%N) ∧
  ((target < gas)%N → (price ≤ new ≤ u128_max)%N) ∧
  ((target < gas ≤ 2 * target)%N → (new ≤ price + price / d)%N).
Proof.
  intros Hp new. split; [apply price_update_down|]. split; intros Hgt.
  - by apply price_update_up.
  - apply price_update_up; [lia|done|lia].
Qed.

(** The configured fraction does not bound the change of the price: with parameters that pass
    validation (target 10%, denominator 8) a full block raises the price by 112.5%. *)
Theorem price_change_exceeds_denominator :
  ∃ p, core_validate_basic p = inr tt ∧
    min_price_max_change_denominator (dynamic_min_gas_price p) = 8%N ∧
    next_min_price p (max_batch_gas_param p) (target_gas p) NATIVE 800 = 1700%N.
Proof.
  exists {| max_batch_gas_param := 1000; max_tx_size := 0; max_tx_signers := 0;
            max_multisig_signers := 0; core_gas_costs := core_gas_costs core_parameters_default;
            min_gas_price_param := ∅;
            dynamic_min_gas_price := {| dyn_enabled := true; target_block_gas_usage_percentage := 10;
                                        min_price_max_change_denominator := 8 |} |}.
  repeat split; vm_compute; reflexivity.
Qed.

(** At the end of a block with dynamic prices, every price in force is adjusted once from the
    gas used in the block, the set of denominations stays the same, and no price falls below the
    configured minimum. *)
Theorem end_block_prices `{!CoreCodecLaws} ctx s p ps g :
  ready s → has_core_params s p → dyn_enabled (dynamic_min_gas_price p) = true →
  has_dynamic_prices s p ps → holds_n Block CONTEXT_KEY_GAS_USED s g →
  bounded_prices (min_gas_price_param p) → bounded_prices ps →
  ∃ s' ps', core_end_block ctx s = (Ok tt, s') ∧ min_gas_prices (E := CoreError) s' = (Ok ps', s') ∧
    (∀ d, ps' !! d = next_min_price p g (target_gas p) d <$> ps !! d) ∧
    (∀ d mn price, min_gas_price_param p !! d = Some mn → ps' !! d = Some price → (mn ≤ price)%N).
Proof.
  intros Hs Hp Hen Hps Hg Hbm Hbp.
  destruct (end_block_run ctx s p ps g Hs Hp Hen Hps Hg Hbm Hbp) as (st' & Hrun & Hp' & Hps').
  exists (set_store (Some st') s), (next_prices p g ps). split; [done|].
  split; [by eapply min_gas_prices_run|]. split; [intros d; apply next_prices_lookup|].
  intros d mn price Hmn. rewrite next_prices_lookup. intros (y & _ & ->)%fmap_Some.
  unfold next_min_price. rewrite Hmn. by destruct (N.ltb_spec (min_gas_price_update g (target_gas p)
    (min_price_max_change_denominator (dynamic_min_gas_price p)) y) mn).
Qed.
End claims.
End GasClaims.
