(* ===== verification/ConcreteCore.v ===== *)
(** The core module on the concrete platform: parameters, a transaction and a state on which the
    theorems about gas are instantiated. *)
From S2P Require Import Prelude Storage StoreIter Types Fee Errors State Current Transactions Module.
From S2P Require Import Concrete Core Gas.

#[local] Existing Instances toy_platform toy_mkvs_laws.

(** An encoding of the values equal to [x]. *)
Definition const_cbor {T} (x : T) : Cbor T := {|
  to_vec _ := [x01];
  from_slice b := if bool_decide (b = [x01]) then Some x else None;
  encodable := eq x;
|}.
Lemma const_cbor_laws {T} (x : T) : @CborLaws T (const_cbor x).
Proof.
  split; simpl; [by intros ? <-| |done]. intros b y. case_bool_decide; [|done]. by intros [= <-].
Qed.

Definition toy_core_params : CoreParameters := {|
  max_batch_gas_param := 1000; max_tx_size := 100; max_tx_signers := 1; max_multisig_signers := 2;
  core_gas_costs := {| tx_byte := 1; storage_byte := 2; auth_signature := 10;
                       auth_multisig_signer := 20; callformat_x25519_deoxysii := 30 |};
  min_gas_price_param := {[ NATIVE := 5%N ]};
  dynamic_min_gas_price := {| dyn_enabled := true; target_block_gas_usage_percentage := 50;
                              min_price_max_change_denominator := 8 |};
|}.

Definition prices_ok (m : gmap Denomination N) : Prop := map_Forall (λ _ x, (x ≤ u128_max)%N) m.

#[local] Instance toy_core_codec : CoreCodec := {|
  core_parameters_cbor := const_cbor toy_core_params;
  core_prices_cbor := toy_cbor prices_ok;
  core_epoch_cbor := toy_cbor (λ n, (n ≤ u64_max)%N);
  core_local_config_value := {| to_value _ := [x01]; from_value _ := None |};
  gas_used_value n := bits (encode n);
|}.
#[local] Instance toy_core_codec_laws : @CoreCodecLaws toy_platform toy_core_codec.
Proof. split; [apply toy_cbor_laws|done]. Qed.

#[local] Instance toy_core_config : CoreConfig := {|
  DEFAULT_LOCAL_MIN_GAS_PRICE := ∅; DEFAULT_LOCAL_ESTIMATE_GAS_SEARCH_MAX_ITERS := 0;
  ESTIMATE_GAS_EXTRA_FAIL := ∅; MIN_GAS_PRICE_EXEMPT_METHODS := ∅; EMIT_GAS_USED_EVENTS := true;
  ALLOW_INTERACTIVE_READ_ONLY_TRANSACTIONS := false; GAS_COST_CALL_CALLDATA_PUBLIC_KEY := 20; GAS_COST_CALL_CURRENT_EPOCH := 10;
|}.

Definition toy_signer : SignerInfo := {| si_address_spec := AddrSignature (SpecEd25519 [x01; x02]); si_nonce := 0 |}.
Definition toy_auth : AuthInfo := {|
  signer_info := [toy_signer];
  ai_fee := {| fee_amount := base_units_native 1000; fee_gas := 100; fee_consensus_messages := 0;
               fee_proxy := None |};
  not_before := None; not_after := None |}.
Definition toy_plain_call : Call :=
  {| call_format := Plain; call_method := "m"; call_body := []; call_read_only := false |}.
Definition toy_tx : Transaction := {| tx_version := 1; tx_call := toy_plain_call; tx_auth_info := toy_auth |}.
Definition toy_twm : TransactionWithMeta :=
  {| twm_data := toy_tx; twm_size := 40; twm_index := 0; twm_hash := toy_digest [] |}.
Definition toy_core_ctx : Ctx :=
  {| ctx_local_config := ∅; ctx_key_manager := None; ctx_round := 1; ctx_epoch := 4;
     ctx_good_compute_entities := []; ctx_bad_compute_entities := []; ctx_messages := []; ctx_max_messages := 2;
     ctx_now := 7000 |}.

(** A state inside the transaction, whose store holds the parameters. *)
Definition toy_root : Store := MKVSStore ({[ str "core" ++ [x00] := [x01] ]} : gmap bytes bytes).
Definition toy_tx_state : State :=
  set_tx toy_twm (root_state Execute toy_root).
Definition toy_meter : Meter := {| tx_used := 0; batch_used := 0 |}.

Lemma toy_root_wf : store_wf (new_overlay toy_root).
Proof. by apply new_overlay_wf. Qed.
Lemma toy_tx_ready : ready toy_tx_state.
Proof. split; [by eexists|]. eexists. split; [done|]. split; [apply toy_root_wf|by eexists]. Qed.
Lemma toy_has_params : has_core_params toy_tx_state toy_core_params.
Proof.
  exists (Some toy_core_params). split; [|done].
  eexists. split; [reflexivity|]. split; [apply toy_root_wf|vm_compute; reflexivity].
Qed.
Lemma toy_has_prices : has_dynamic_prices toy_tx_state toy_core_params {[ NATIVE := 5%N ]}.
Proof.
  exists None. split; [|reflexivity]. eexists. split; [reflexivity|].
  split; [apply toy_root_wf|vm_compute; reflexivity].
Qed.
(** A run that is known to succeed, as an equation. *)
Lemma toy_meter_of : meter_of toy_tx_state toy_meter.
Proof. split; exists None; split; reflexivity. Qed.

Lemma use_tx_gas_refines_witness :
  ∃ r s', use_tx_gas 30 toy_tx_state = (r, s') ∧ r = Ok tt ∧
    meter_of s' {| tx_used := 30; batch_used := 30 |}.
Proof.
  destruct (GasClaims.use_tx_gas_refines toy_tx_state toy_auth toy_core_params toy_meter 30 eq_refl
    toy_has_params toy_meter_of) as (r & s' & Hrun & _ & Hr & Hm).
  exists r, s'. split; [exact Hrun|]. split; [exact Hr|exact Hm].
Defined.

Lemma gas_never_exceeds_witness :
  ∃ m', meter_of (for_each [30; 80]%N use_tx_gas toy_tx_state).2 m' ∧ within 100 1000 m'.
Proof.
  destruct (GasClaims.gas_never_exceeds toy_tx_state toy_auth toy_core_params toy_meter [30; 80]%N
    eq_refl toy_has_params toy_meter_of) as (m' & Hm & Hw & _); [split; simpl; lia|].
  exists m'. split; [exact Hm|exact Hw].
Defined.

Lemma before_handle_call_charges_witness :
  ∃ m', meter_of (core_before_handle_call toy_core_ctx toy_plain_call toy_tx_state).2 m' ∧
    tx_used m' = 50%N.
Proof.
  destruct (GasClaims.before_handle_call_charges toy_core_ctx toy_plain_call toy_tx_state toy_twm
    toy_core_params toy_meter {[ NATIVE := 5%N ]} (λ _, 0%N)
    (core_before_handle_call toy_core_ctx toy_plain_call toy_tx_state).2
    eq_refl eq_refl toy_has_params toy_meter_of) as (sg & m' & Hsig & _ & Hm & Hu & _).
  - exact (min_gas_prices_run _ _ _ toy_has_params eq_refl toy_has_prices).
  - intros d. reflexivity.
  - apply run_ok. vm_compute. reflexivity.
  - exists m'. split; [exact Hm|]. rewrite Hu.
    assert (Hs : Some sg = Some 10%N) by (rewrite <-Hsig; vm_compute; reflexivity).
    injection Hs as ->. reflexivity.
Defined.

Lemma after_handle_call_settles_witness :
  ∃ r s' m', core_after_handle_call toy_core_ctx (CallOk value_null) toy_tx_state = (r, s') ∧
    meter_of s' m' ∧ match r with Ok _ => tx_used m' = 0%N | _ => True end.
Proof.
  destruct (GasClaims.after_handle_call_settles toy_core_ctx (CallOk value_null) toy_tx_state toy_auth
    toy_core_params toy_meter eq_refl eq_refl toy_has_params toy_meter_of)
    as (r & s' & m' & Hrun & _ & Hm & Hr).
  exists r, s', m'. split; [exact Hrun|]. split; [exact Hm|].
  destruct r; [|exact I..]. destruct Hr as [-> _]. vm_compute. reflexivity.
Defined.

Lemma price_update_bounded_witness : (min_gas_price_update 150 100 8 800 ≤ 900)%N.
Proof.
  apply (GasClaims.price_update_bounded 150 100 8 800); [vm_compute; discriminate|lia].
Defined.

Lemma end_block_prices_witness :
  ∃ s' ps', core_end_block toy_core_ctx toy_tx_state = (Ok tt, s') ∧
    min_gas_prices (E := CoreError) s' = (Ok ps', s') ∧ ps' !! NATIVE = Some 5%N.
Proof.
  destruct (GasClaims.end_block_prices toy_core_ctx toy_tx_state toy_core_params {[ NATIVE := 5%N ]} 0
    toy_tx_ready toy_has_params eq_refl) as (s' & ps' & Hrun & Hps & Hl & _).
  - exact toy_has_prices.
  - exists None. split; reflexivity.
  - intros d x Hx. simpl in Hx. apply lookup_singleton_Some in Hx as [_ <-]. vm_compute. discriminate.
  - intros d x Hx. apply lookup_singleton_Some in Hx as [_ <-]. vm_compute. discriminate.
  - exists s', ps'. split; [exact Hrun|]. split; [exact Hps|]. rewrite Hl. vm_compute. reflexivity.
Defined.
