(* ===== verification/Accounts.v ===== *)
(** The accounts module: balances, total supplies, nonces and allowances, fees and their
    disbursement (src/runtime-sdk/src/modules/accounts/mod.rs, types.rs). *)
From S2P Require Import Prelude Storage StoreIter Types Fee Errors State Current Transactions Module.
From S2P Require Import Core.

Local Open Scope string_scope.

Definition ACCOUNTS_MODULE_NAME : string := "accounts".

(** * Types *)

Inductive AccountsError :=
  | AccInvalidArgument
  | InsufficientBalance
  | AccForbidden
  | NotFound
  | AccCore (source : CoreError).

#[export] Instance accounts_sdk_error : SdkError AccountsError := {
  module_name e := match e with AccCore source => module_name source | _ => "accounts" end;
  code e := match e with
            | AccInvalidArgument => 1
            | InsufficientBalance => 2
            | AccForbidden => 3
            | NotFound => 4
            | AccCore source => code source
            end%N;
  to_string e := match e with
                 | AccInvalidArgument => "invalid argument"
                 | InsufficientBalance => "insufficient balance"
                 | AccForbidden => "forbidden by policy"
                 | NotFound => "not found"
                 | AccCore source => "core: " +:+ to_string source
                 end;
  into_abort e := match e with AccCore source => into_abort source | _ => None end;
}.

Record Account := { nonce : N }.
Definition account_default : Account := {| nonce := 0 |}.

Record DenominationInfo := { decimals : N }.

Record AccountsParameters := {
  transfers_disabled : bool;
  tx_transfer_cost : N;
  debug_disable_nonce_check : bool;
  denomination_infos : gmap Denomination DenominationInfo;
}.
Definition accounts_parameters_default : AccountsParameters :=
  {| transfers_disabled := false; tx_transfer_cost := 0; debug_disable_nonce_check := false;
     denomination_infos := ∅ |}.

Inductive AccountsParameterValidationError := DebugOptionUsed (option : string).

Definition accounts_validate_basic (p : AccountsParameters) : AccountsParameterValidationError + unit :=
  if debug_disable_nonce_check p then inl (DebugOptionUsed "debug_disable_nonce_check") else inr tt.

Record Transfer := { tr_to : Address; tr_amount : BaseUnits }.

Inductive AccountsEvent :=
  | EvTransfer (from to : Address) (amount : BaseUnits)
  | EvBurn (owner : Address) (amount : BaseUnits)
  | EvMint (owner : Address) (amount : BaseUnits).
Definition accounts_event_code (e : AccountsEvent) : N :=
  match e with EvTransfer _ _ _ => 1 | EvBurn _ _ => 2 | EvMint _ _ => 3 end.

(** The derived encodings of the types that the module stores, emits or receives. *)
Class AccountsCodec `{Platform} := {
  acc_parameters_cbor :: Cbor AccountsParameters;
  acc_account_cbor :: Cbor Account;
  acc_amount_cbor :: Cbor N;
  (** [Quantity], the type under which [get_addresses] reads the balances *)
  acc_quantity_cbor : Cbor N;
  acc_event_value : AccountsEvent → Value;
  acc_transfer_value :: CborValue Transfer;
}.

(** * State schema *)

Definition ACCOUNTS : bytes := [x01].
Definition BALANCES : bytes := [x02].
Definition TOTAL_SUPPLY : bytes := [x03].
Definition ALLOWANCES : bytes := [x04].

Definition accounts_store : StoreRef := PrefixStore CurrentStore (str ACCOUNTS_MODULE_NAME).
Definition nonces_ref : StoreRef := PrefixStore accounts_store ACCOUNTS.
Definition balances_ref : StoreRef := PrefixStore accounts_store BALANCES.
Definition account_ref (addr : Address) : StoreRef := PrefixStore balances_ref (raw addr).
Definition supplies_ref : StoreRef := PrefixStore accounts_store TOTAL_SUPPLY.
Definition allowances_ref (owner beneficiary : Address) : StoreRef :=
  PrefixStore (PrefixStore (PrefixStore accounts_store ALLOWANCES) (raw owner)) (raw beneficiary).

Definition CONTEXT_KEY_TX_FEE_REFUND_UNUSED : string := "accounts.TxRefundUnusedFee".
Definition CONTEXT_KEY_FEE_MANAGER : string := "accounts.FeeManager".

(** [Denomination::try_from] and [AddressWithDenomination::try_from], on the key of an entry; slicing
    a key that is too short panics, like a malformed key does. *)
Definition denomination_key (k : bytes) : string + Denomination :=
  match denomination_try_from k with
  | Some d => inr d
  | None => inl "denomination name too long"
  end.
Definition address_with_denomination (k : bytes) : string + Address * Denomination :=
  match address_from_bytes (take ADDRESS_SIZE k) with
  | None => inl "malformed address"
  | Some address =>
      match denomination_try_from (drop ADDRESS_SIZE k) with
      | None => inl "malformed denomination"
      | Some denomination => inr (address, denomination)
      end
  end.

(** A [BTreeMap] is iterated in the order of the bytes of its keys. *)
Definition key_le {K A} (key : K → bytes) (x y : K * A) : Prop := bytes_le (key x.1) (key y.1).
#[global] Instance key_le_dec {K A} (key : K → bytes) (x y : K * A) : Decision (key_le key x y).
Proof. unfold key_le. apply _. Defined.
Definition map_iter {K A} `{Countable K} (key : K → bytes) (m : gmap K A) : list (K * A) :=
  merge_sort (key_le key) (map_to_list m).
Definition denom_iter {A} (m : gmap Denomination A) : list (Denomination * A) := map_iter denom_bytes m.
Definition address_iter {A} (m : gmap Address A) : list (Address * A) := map_iter raw m.

(** What the runtime configures. *)
Class AccountsRuntime `{Platform} := {
  MAX_CHECK_NONCE_FUTURE_DELTA : N;
  (** [FeeProxyHandler::resolve_payer] *)
  resolve_payer : Ctx → Transaction → M CoreError (option Address);
}.

Section accounts.
Context `{Platform} `{!AccountsCodec}.

Definition ADDRESS_COMMON_POOL : Address := from_module ACCOUNTS_MODULE_NAME "common-pool".
Definition ADDRESS_FEE_ACCUMULATOR : Address := from_module ACCOUNTS_MODULE_NAME "fee-accumulator".

Definition accounts_params {E} : M E AccountsParameters :=
  params ACCOUNTS_MODULE_NAME accounts_parameters_default.

Definition accounts_event (e : AccountsEvent) : EventTag :=
  etag_for_event ACCOUNTS_MODULE_NAME (accounts_event_code e) (acc_event_value e).
Definition emit_event {E} (e : AccountsEvent) : M E unit := emit_event_raw (accounts_event e).

(** * Balances and supplies *)

Definition add_amount (addr : Address) (a : BaseUnits) : M AccountsError unit :=
  if (amount a =? 0)%N then mret tt
  else
    value ← typed_get (account_ref addr) (denom_bytes (denomination a));
    value ← ok_or (checked_add u128_max (default 0%N value) (amount a)) AccInvalidArgument;
    typed_insert (account_ref addr) (denom_bytes (denomination a)) value.

Definition sub_amount (addr : Address) (a : BaseUnits) : M AccountsError unit :=
  if (amount a =? 0)%N then mret tt
  else
    value ← typed_get (account_ref addr) (denom_bytes (denomination a));
    value ← ok_or (checked_sub (default 0%N value) (amount a)) InsufficientBalance;
    typed_insert (account_ref addr) (denom_bytes (denomination a)) value.

Definition inc_total_supply (a : BaseUnits) : M AccountsError unit :=
  if (amount a =? 0)%N then mret tt
  else
    total_supply ← typed_get supplies_ref (denom_bytes (denomination a));
    total_supply ← ok_or (checked_add u128_max (default 0%N total_supply) (amount a)) AccInvalidArgument;
    typed_insert supplies_ref (denom_bytes (denomination a)) total_supply.

Definition dec_total_supply (a : BaseUnits) : M AccountsError unit :=
  if (amount a =? 0)%N then mret tt
  else
    total_supply ← typed_get supplies_ref (denom_bytes (denomination a));
    total_supply ← ok_or (checked_sub (default 0%N total_supply) (amount a)) InsufficientBalance;
    typed_insert supplies_ref (denom_bytes (denomination a)) total_supply.

Definition transfer_silent (from to : Address) (a : BaseUnits) : M AccountsError unit :=
  sub_amount from a ;; add_amount to a.

Definition transfer (from to : Address) (a : BaseUnits) : M AccountsError unit :=
  check_only ← with_env is_check_only;
  if check_only || (amount a =? 0)%N then mret tt
  else transfer_silent from to a ;; emit_event (EvTransfer from to a).

Definition mint (to : Address) (a : BaseUnits) : M AccountsError unit :=
  check_only ← with_env is_check_only;
  if check_only || (amount a =? 0)%N then mret tt
  else add_amount to a ;; inc_total_supply a ;; emit_event (EvMint to a).

Definition burn (from : Address) (a : BaseUnits) : M AccountsError unit :=
  check_only ← with_env is_check_only;
  if check_only || (amount a =? 0)%N then mret tt
  else
    sub_amount from a ;;
    unwrap_or_panic
      "target account had enough balance so total supply should not underflow"
      (dec_total_supply a) ;;
    emit_event (EvBurn from a).

Definition set_balance {E} (address : Address) (a : BaseUnits) : M E unit :=
  typed_insert (account_ref address) (denom_bytes (denomination a)) (amount a).
Definition get_balance {E} (address : Address) (d : Denomination) : M E N :=
  v ← typed_get (account_ref address) (denom_bytes d); mret (default 0%N v).
Definition ensure_balance (address : Address) (a : BaseUnits) : M AccountsError unit :=
  balance ← get_balance address (denomination a);
  if (balance <? amount a)%N then throw InsufficientBalance else mret tt.

(** The collection into a [BTreeMap] of an iterator over entries. *)
Definition get_balances {E} (address : Address) : M E (gmap Denomination N) :=
  l ← typed_iter denomination_key 0%N (account_ref address);
  mret (list_to_map (reverse l)).

Definition get_allowance {E} (owner beneficiary : Address) (d : Denomination) : M E N :=
  v ← typed_get (allowances_ref owner beneficiary) (denom_bytes d); mret (default 0%N v).
Definition set_allowance {E} (owner beneficiary : Address) (a : BaseUnits) : M E unit :=
  typed_insert (allowances_ref owner beneficiary) (denom_bytes (denomination a)) (amount a).

Definition get_total_supplies {E} : M E (gmap Denomination N) :=
  l ← typed_iter denomination_key 0%N supplies_ref; mret (list_to_map (reverse l)).
Definition get_total_supply {E} (d : Denomination) : M E N :=
  v ← typed_get supplies_ref (denom_bytes d); mret (default 0%N v).
Definition set_total_supply {E} (a : BaseUnits) : M E unit :=
  typed_insert supplies_ref (denom_bytes (denomination a)) (amount a).

Definition get_denomination_info (d : Denomination) : M AccountsError DenominationInfo :=
  p ← accounts_params; ok_or (denomination_infos p !! d) NotFound.

(** The entries come in the order of their keys, which is the order of the map they are collected
    into. *)
Definition get_addresses {E} (d : Denomination) : M E (list Address) :=
  l ← typed_iter (Cbor0 := acc_quantity_cbor) address_with_denomination 0%N balances_ref;
  mret (fst <$> filter (λ x : Address * Denomination, x.2 = d) (fst <$> l)).

Definition add_to {K} `{Countable K} (k : K) (v : N) (m : gmap K N) : gmap K N :=
  <[k := match m !! k with Some a => wrapping_add u128_max a v | None => v end]> m.

Definition get_all_balances {E} : M E (gmap Address (gmap Denomination N)) :=
  l ← typed_iter address_with_denomination 0%N balances_ref;
  mret (foldl (λ b '((addr, den), amt),
                 <[addr := add_to den amt (default ∅ (b !! addr))]> b) ∅
          (map_iter (λ x : Address * Denomination, app (raw x.1) (denom_bytes x.2))
             (list_to_map (reverse l) : gmap (Address * Denomination) N))).

(** * Nonces *)

Definition get_account {E} (address : Address) : M E Account :=
  a ← typed_get nonces_ref (raw address); mret (default account_default a).
Definition set_nonce {E} (address : Address) (n : N) : M E unit :=
  get_account address ;; typed_insert nonces_ref (raw address) {| nonce := n |}.
Definition get_nonce {E} (address : Address) : M E N :=
  account ← get_account address; mret (nonce account).
Definition inc_nonce {E} (address : Address) : M E unit :=
  account ← get_account address;
  typed_insert nonces_ref (raw address) {| nonce := saturating_add u64_max (nonce account) 1 |}.

Context `{!AccountsRuntime}.

(** The check of one signer. *)
Definition check_signer_nonce (mode : Mode) (p : AccountsParameters) (sender : option SenderMeta)
    (si : SignerInfo) : M CoreError (option SenderMeta) :=
  let address := address_spec_address (si_address_spec si) in
  account ← get_account address;
  let sender := match sender with
                | Some m => Some m
                | None => Some {| sm_address := address; sm_tx_nonce := si_nonce si;
                                  sm_state_nonce := nonce account |}
                end in
  if debug_disable_nonce_check p then mret sender
  else match (si_nonce si ?= nonce account)%N with
       | Lt => throw InvalidNonce
       | Eq => mret sender
       | Gt =>
           match mode with
           | Check_ =>
               if (MAX_CHECK_NONCE_FUTURE_DELTA <? si_nonce si - nonce account)%N
               then throw InvalidNonce else mret sender
           | PreSchedule => throw FutureNonce
           | _ => throw InvalidNonce
           end
       end.

Definition check_signer_nonces (auth_info : AuthInfo) : M CoreError Address :=
  mode ← with_env env_mode;
  p ← accounts_params;
  sender ← fold_m (signer_info auth_info) None (check_signer_nonce mode p);
  sender ← expect sender "at least one signer is always present";
  (if bool_decide (mode = Check_) then set_sender_meta sender else mret tt) ;;
  mret (sm_address sender).

Definition update_signer_nonce (si : SignerInfo) : M CoreError unit :=
  let address := address_spec_address (si_address_spec si) in
  account ← get_account address;
  n ← ok_or (checked_add u64_max (nonce account) 1) InvalidNonce;
  typed_insert nonces_ref (raw address) {| nonce := n |}.

Definition update_signer_nonces (auth_info : AuthInfo) : M CoreError unit :=
  for_each (signer_info auth_info) update_signer_nonce.

(** * Fees *)

(** The fee manager of the block, updated in place. *)
Definition with_fee_manager {E A} (f : ST FeeManager Empty_set A) : M E A :=
  mgr ← value_or_default (V := FeeManager) Block CONTEXT_KEY_FEE_MANAGER;
  match f mgr with
  | (Ok a, mgr') => value_set Block CONTEXT_KEY_FEE_MANAGER mgr' ;; mret a
  | (Err e, _) => match e with end
  | (Panic p, mgr') => value_set Block CONTEXT_KEY_FEE_MANAGER mgr' ;; panic p
  end.

Definition charge_tx_fee (from : Address) (a : BaseUnits) : M CoreError unit :=
  simulation ← with_env is_simulation;
  if (simulation : bool) then mret tt
  else
    map_err (λ _, InsufficientFeeBalance) (sub_amount from a) ;;
    with_fee_manager (record_fee from a).

Definition set_refund_unused_tx_fee {E} (refund : bool) : M E unit :=
  simulation ← with_env is_simulation;
  if (simulation : bool) then mret tt
  else value_set Block CONTEXT_KEY_TX_FEE_REFUND_UNUSED refund.

Definition take_refund_unused_tx_fee {E} : M E bool :=
  simulation ← with_env is_simulation;
  if (simulation : bool) then mret false
  else v ← value_take Block CONTEXT_KEY_TX_FEE_REFUND_UNUSED; mret (default false v).

(** * Genesis *)

Record AccountsGenesis := {
  gen_parameters : AccountsParameters;
  gen_accounts : gmap Address Account;
  gen_balances : gmap Address (gmap Denomination N);
  gen_total_supplies : gmap Denomination N;
}.

Definition init_balances {E} (balances : gmap Address (gmap Denomination N))
    : M E (gmap Denomination N) :=
  fold_m (address_iter balances) ∅ (λ computed '(address, denominations),
    fold_m (denom_iter denominations) computed (λ computed '(denomination, value),
      typed_insert (account_ref address) (denom_bytes denomination) value ;;
      mret (add_to denomination value computed))).

Definition init_supply {E} (computed : gmap Denomination N) (x : Denomination * N)
    : M E (gmap Denomination N) :=
  let '(denomination, total_supply) := x in
  c ← expect (computed !! denomination) "unexpected total supply";
  if negb (c =? total_supply)%N then panic "unexpected total supply"
  else
    typed_insert supplies_ref (denom_bytes denomination) total_supply ;;
    mret (delete denomination computed).

Definition accounts_init {E} (genesis : AccountsGenesis) : M E unit :=
  for_each (address_iter (gen_accounts genesis)) (λ '(address, account),
    typed_insert nonces_ref (raw address) account) ;;
  computed ← init_balances (gen_balances genesis);
  computed ← fold_m (denom_iter (gen_total_supplies genesis)) computed init_supply;
  (match denom_iter computed with
   | _ :: _ => panic "missing expected total supply"
   | [] => mret tt
   end) ;;
  (match accounts_validate_basic (gen_parameters genesis) with
   | inl _ => panic "invalid genesis parameters"
   | inr _ => mret tt
   end) ;;
  set_params ACCOUNTS_MODULE_NAME (gen_parameters genesis).
End accounts.

Section accounts_handlers.
Context `{Platform} `{!AccountsCodec} `{!AccountsRuntime} `{!CoreCodec} `{!CoreConfig}.

(** * Method handlers *)

Definition prefetch_transfer (prefixes : gset bytes) (body : Value) (auth_info : AuthInfo)
    : Outcome RuntimeError unit * gset bytes :=
  match from_value (T := Transfer) body with
  | None => (Err (into_runtime_error AccInvalidArgument), prefixes)
  | Some args =>
      match signer_info auth_info with
      | [] => (Panic "index out of bounds", prefixes)
      | si :: _ =>
          let from := address_spec_address (si_address_spec si) in
          let prefix (table : bytes) (a : Address) : bytes :=
            app (str ACCOUNTS_MODULE_NAME) (app table (raw a)) in
          (Ok tt, {[prefix ACCOUNTS (tr_to args); prefix BALANCES (tr_to args);
                    prefix ACCOUNTS from; prefix BALANCES from]} ∪ prefixes)
      end
  end.

Definition tx_transfer (body : Transfer) : M AccountsError unit :=
  p ← accounts_params;
  if transfers_disabled p then throw AccForbidden
  else
    map_err AccCore (use_tx_gas (tx_transfer_cost p)) ;;
    tx_caller_address ← with_tx_env env_tx_caller_address;
    transfer tx_caller_address (tr_to body) (tr_amount body).

(** * Transaction handlers *)

Definition accounts_authenticate_tx (ctx : Ctx) (tx : Transaction) : M CoreError AuthDecision :=
  default_payer ← check_signer_nonces (tx_auth_info tx);
  proxy ← resolve_payer ctx tx;
  let payer := default default_payer proxy in
  let fee := ai_fee (tx_auth_info tx) in
  (if negb (amount (fee_amount fee) =? 0)%N then
     check_only ← with_env is_check_only;
     (if (check_only : bool) then
        map_err (λ _, InsufficientFeeBalance) (ensure_balance payer (fee_amount fee)) ;;
        with_fee_manager (record_fee payer (fee_amount fee))
      else charge_tx_fee payer (fee_amount fee)) ;;
     set_priority (N.min (gas_price fee) u64_max)
   else mret tt) ;;
  check_only ← with_env is_check_only;
  (if negb check_only then update_signer_nonces (tx_auth_info tx) else mret tt) ;;
  mret Continue.

Definition accounts_after_handle_call (_ : Ctx) (_ : CallResult) : M CoreError unit :=
  refund ← take_refund_unused_tx_fee;
  refund_fee ← (if (refund : bool) then
                  remaining_gas ← remaining_tx_gas;
                  fee ← with_tx_env (λ e, ai_fee <$> env_tx_auth_info e);
                  mret (saturating_mul u128_max (gas_price fee) remaining_gas)
                else mret 0%N);
  mgr ← value_or_default (V := FeeManager) Block CONTEXT_KEY_FEE_MANAGER;
  let mgr := record_refund refund_fee mgr in
  value_set Block CONTEXT_KEY_FEE_MANAGER mgr ;;
  let tx_fee := default transaction_fee_default (fm_tx_fee mgr) in
  if (0 <? tf_amount tx_fee)%N then
    emit_unconditional_event (accounts_event
      (EvTransfer (tf_payer tx_fee) ADDRESS_FEE_ACCUMULATOR
         (BaseUnits_new (tf_amount tx_fee) (tf_denomination tx_fee))))
  else mret tt.

Definition accounts_after_dispatch_tx (_ : Ctx) (tx_auth_info : AuthInfo) (result : CallResult)
    : M Empty_set unit :=
  fee_updates ← with_fee_manager commit_tx;
  unwrap_or_panic "called Result::unwrap on an Err value"
    (add_amount (fu_payer fee_updates) (fu_refund fee_updates)) ;;
  check_only ← with_env is_check_only;
  if negb check_only then mret tt
  else if negb (is_success result) then mret tt
  else unwrap_or_panic "called Result::unwrap on an Err value"
         (sub_amount (fu_payer fee_updates) (fee_amount (ai_fee tx_auth_info))).

(** * Block handler *)

(** The drain of the fee accumulator. *)
Definition drain_fees (previous_fees : gmap Denomination N) : M Empty_set unit :=
  for_each (denom_iter previous_fees) (λ '(denom, remainder),
    unwrap_or_panic "sub_amount must succeed"
      (sub_amount ADDRESS_FEE_ACCUMULATOR (BaseUnits_new remainder denom))).

(** The share of each address, zero shares left out. *)
Definition fee_shares (n : N) (previous_fees : gmap Denomination N) : list BaseUnits :=
  omap (λ '(denom, fee), let share := (fee / n)%N in
                         if (share =? 0)%N then None else Some (BaseUnits_new share denom))
    (denom_iter previous_fees).

Definition disburse_one (address : Address) (previous_fees : gmap Denomination N) (a : BaseUnits)
    : M Empty_set (gmap Denomination N) :=
  remaining ← expect (previous_fees !! denomination a) "designated denomination should be there";
  remaining ← expect (checked_sub remaining (amount a)) "there should be enough to disburse";
  unwrap_or_panic "add_amount must succeed for fee disbursement" (add_amount address a) ;;
  emit_event (EvTransfer ADDRESS_FEE_ACCUMULATOR address a) ;;
  mret (<[denomination a := remaining]> previous_fees).

Definition disburse_fees (addrs : list Address) (previous_fees : gmap Denomination N)
    : M Empty_set (gmap Denomination N) :=
  match addrs with
  | [] => mret previous_fees
  | _ :: _ =>
      let amounts := fee_shares (N.of_nat (length addrs)) previous_fees in
      fold_m addrs previous_fees (λ previous_fees address,
        fold_m amounts previous_fees (disburse_one address))
  end.

Definition remainder_to_pool (previous_fees : gmap Denomination N) : M Empty_set unit :=
  for_each (denom_iter previous_fees) (λ '(denom, remainder),
    if (remainder =? 0)%N then mret tt
    else
      let a := BaseUnits_new remainder denom in
      unwrap_or_panic "add_amount must succeed for transfer to common pool"
        (add_amount ADDRESS_COMMON_POOL a) ;;
      emit_event (EvTransfer ADDRESS_FEE_ACCUMULATOR ADDRESS_COMMON_POOL a)).

Definition collect_block_fees : M Empty_set unit :=
  mgr ← value_take (V := FeeManager) Block CONTEXT_KEY_FEE_MANAGER;
  for_each (denom_iter (commit_block (default fee_manager_new mgr))) (λ '(denom, a),
    unwrap_or_panic "add_amount must succeed for transfer to fee accumulator"
      (add_amount ADDRESS_FEE_ACCUMULATOR (BaseUnits_new a denom))).

Definition accounts_end_block (ctx : Ctx) : M Empty_set unit :=
  previous_fees ← get_balances ADDRESS_FEE_ACCUMULATOR;
  drain_fees previous_fees ;;
  let addrs := (λ pk, from_sigspec (SpecEd25519 pk)) <$> ctx_good_compute_entities ctx in
  previous_fees ← disburse_fees addrs previous_fees;
  remainder_to_pool previous_fees ;;
  collect_block_fees.

(** * Invariants *)

Definition computed_supplies (balances : gmap Address (gmap Denomination N)) : gmap Denomination N :=
  foldl (λ computed_ts '(_, bals),
           foldl (λ computed_ts '(den, amt), add_to den amt computed_ts) computed_ts (denom_iter bals))
    ∅ (address_iter balances).

Definition check_supply (computed_ts : gmap Denomination N) (x : Denomination * N)
    : M CoreError (gmap Denomination N) :=
  let '(den, ts) := x in
  computed ← ok_or (computed_ts !! den) (InvariantViolation "unexpected denomination");
  if negb (computed =? ts)%N
  then throw (InvariantViolation "computed and actual total supplies don't match")
  else mret (delete den computed_ts).

Definition accounts_check_invariants (_ : Ctx) : M CoreError unit :=
  balances ← get_all_balances;
  total_supplies ← get_total_supplies;
  rest ← fold_m (denom_iter total_supplies) (computed_supplies balances) check_supply;
  if bool_decide (rest = ∅) then mret tt
  else throw (InvariantViolation "encountered denomination that isn't present in total supplies table").

(** The handlers; the method tables are generated by the macros and are taken from [methods]. *)
Definition accounts_handlers (methods : Handlers) : Handlers := {|
  prefetch := prefetch methods;
  dispatch_call := dispatch_call methods;
  dispatch_query := dispatch_query methods;
  dispatch_message_result := dispatch_message_result methods;
  is_expensive_query := is_expensive_query methods;
  is_allowed_private_km_query := is_allowed_private_km_query methods;
  is_allowed_interactive_call := is_allowed_interactive_call methods;
  approve_raw_tx := approve_raw_tx default_handlers;
  approve_unverified_tx := approve_unverified_tx default_handlers;
  decode_tx := decode_tx default_handlers;
  authenticate_tx := accounts_authenticate_tx;
  before_handle_call := before_handle_call default_handlers;
  before_authorized_call_dispatch := before_authorized_call_dispatch default_handlers;
  after_handle_call := accounts_after_handle_call;
  after_dispatch_tx := accounts_after_dispatch_tx;
  begin_block := begin_block default_handlers;
  end_block := accounts_end_block;
  check_invariants := accounts_check_invariants;
|}.
End accounts_handlers.

Section accounts_framed.
Context `{Platform} `{!MKVSLaws} `{!AccountsCodec} `{!AccountsRuntime} `{!CoreCodec} `{!CoreConfig}.

Lemma framed_add_amount a u : framed (add_amount a u).
Proof. unfold add_amount. solve_framed. Qed.
Lemma framed_sub_amount a u : framed (sub_amount a u).
Proof. unfold sub_amount. solve_framed. Qed.
Lemma framed_with_fee_manager {E A} (f : ST FeeManager Empty_set A) :
  framed (with_fee_manager (E := E) f).
Proof. unfold with_fee_manager. solve_framed. Qed.
Hint Resolve framed_add_amount framed_sub_amount framed_with_fee_manager : framed.
Lemma framed_transfer from to a : framed (transfer from to a).
Proof. unfold transfer, transfer_silent, emit_event. solve_framed. Qed.
Lemma framed_mint to a : framed (mint to a).
Proof. unfold mint, inc_total_supply, emit_event. solve_framed. Qed.
Lemma framed_burn from a : framed (burn from a).
Proof. unfold burn, dec_total_supply, emit_event. solve_framed. Qed.
Hint Resolve framed_transfer : framed.
Lemma framed_tx_transfer body : framed (tx_transfer body).
Proof. unfold tx_transfer, accounts_params. solve_framed. Qed.
Lemma framed_check_signer_nonces ai : framed (check_signer_nonces ai).
Proof. unfold check_signer_nonces, accounts_params, check_signer_nonce, get_account. solve_framed. Qed.
Hint Resolve framed_check_signer_nonces : framed.

Lemma accounts_handlers_framed methods :
  (∀ ctx tx, framed (resolve_payer ctx tx)) →
  FramedHandlers methods → FramedHandlers (accounts_handlers methods).
Proof.
  intros Hpayer Hm. split; intros; simpl;
    unfold accounts_authenticate_tx, ensure_balance, get_balance, charge_tx_fee,
      update_signer_nonces, update_signer_nonce, get_account, accounts_after_handle_call,
      take_refund_unused_tx_fee, accounts_after_dispatch_tx, accounts_end_block, get_balances,
      drain_fees, disburse_fees, disburse_one, remainder_to_pool, collect_block_fees, emit_event,
      accounts_check_invariants, get_all_balances, get_total_supplies, check_supply;
    solve_framed.
Qed.
End accounts_framed.
#[export] Hint Resolve framed_add_amount framed_sub_amount framed_with_fee_manager framed_transfer
  framed_mint framed_burn framed_tx_transfer framed_check_signer_nonces : framed.
