(* ===== verification/Ledger.v ===== *)
(** The abstract ledger that the accounts module implements on the byte-level store, and the
    refinement of its operations (src/runtime-sdk/src/modules/accounts/mod.rs). *)
From S2P Require Import Prelude Storage StoreIter Types Fee Errors State Current Transactions Module.
From S2P Require Import Core Accounts.

(** * The ledger *)

Record Ledger := {
  bal : gmap (Address * Denomination) N;
  supply : gmap Denomination N;
  nonces : gmap Address N;
}.

Definition set_bal (k : Address * Denomination) (x : N) (L : Ledger) : Ledger :=
  {| bal := <[k := x]> (bal L); supply := supply L; nonces := nonces L |}.
Definition set_supply (d : Denomination) (x : N) (L : Ledger) : Ledger :=
  {| bal := bal L; supply := <[d := x]> (supply L); nonces := nonces L |}.
Definition set_ledger_nonce (a : Address) (n : N) (L : Ledger) : Ledger :=
  {| bal := bal L; supply := supply L; nonces := <[a := n]> (nonces L) |}.

Definition balance (L : Ledger) (a : Address) (d : Denomination) : N := default 0%N (bal L !! (a, d)).
Definition supply_of (L : Ledger) (d : Denomination) : N := default 0%N (supply L !! d).
Definition nonce_of (L : Ledger) (a : Address) : N := default 0%N (nonces L !! a).

(** The sum of all balances of a denomination. *)
Definition weight (d : Denomination) (k : Address * Denomination) (x : N) : N :=
  if decide (k.2 = d) then x else 0%N.
Definition total (L : Ledger) (d : Denomination) : N := map_sum (weight d) (bal L).

(** The abstract operations; a zero amount does nothing. *)
Definition spec_add (a : Address) (u : BaseUnits) (L : Ledger) : AccountsError + Ledger :=
  if (amount u =? 0)%N then inr L
  else if (balance L a (denomination u) + amount u <=? u128_max)%N
  then inr (set_bal (a, denomination u) (balance L a (denomination u) + amount u) L)
  else inl AccInvalidArgument.
Definition spec_sub (a : Address) (u : BaseUnits) (L : Ledger) : AccountsError + Ledger :=
  if (amount u =? 0)%N then inr L
  else if (amount u <=? balance L a (denomination u))%N
  then inr (set_bal (a, denomination u) (balance L a (denomination u) - amount u) L)
  else inl InsufficientBalance.
Definition spec_inc_supply (u : BaseUnits) (L : Ledger) : AccountsError + Ledger :=
  if (amount u =? 0)%N then inr L
  else if (supply_of L (denomination u) + amount u <=? u128_max)%N
  then inr (set_supply (denomination u) (supply_of L (denomination u) + amount u) L)
  else inl AccInvalidArgument.
Definition spec_dec_supply (u : BaseUnits) (L : Ledger) : AccountsError + Ledger :=
  if (amount u =? 0)%N then inr L
  else if (amount u <=? supply_of L (denomination u))%N
  then inr (set_supply (denomination u) (supply_of L (denomination u) - amount u) L)
  else inl InsufficientBalance.

Definition delta (u : BaseUnits) (d : Denomination) : N :=
  if decide (denomination u = d) then amount u else 0%N.

(** How often an address occurs. *)
Definition occurrences (a : Address) (addrs : list Address) : N :=
  list_sum (λ a', if decide (a' = a) then 1%N else 0%N) addrs.

(** * Sums *)

Lemma total_set_bal L a d x d' :
  (total (set_bal (a, d) x L) d' + (if decide (d = d') then balance L a d else 0) =
   total L d' + (if decide (d = d') then x else 0))%N.
Proof.
  unfold total, balance. simpl. pose proof (map_sum_insert (weight d') (bal L) (a, d) x) as Hs.
  unfold weight in *. destruct (bal L !! (a, d)) as [y|]; simpl in *; case_decide; lia.
Qed.

Lemma balance_le_total L a d : (balance L a d ≤ total L d)%N.
Proof.
  unfold balance, total. destruct (bal L !! (a, d)) as [x|] eqn:Hx; simpl; [|lia].
  pose proof (map_sum_lookup_le (weight d) (bal L) (a, d) x Hx) as Hle. unfold weight at 1 in Hle.
  by rewrite decide_True in Hle.
Qed.

Lemma balance_set_bal L k x a d :
  balance (set_bal k x L) a d = if decide (k = (a, d)) then x else balance L a d.
Proof. unfold balance, set_bal. simpl. by rewrite lookup_insert; case_decide. Qed.

(** Crediting and debiting move the total by the amount. *)
Lemma spec_add_total a u L L' d :
  spec_add a u L = inr L' → total L' d = (total L d + delta u d)%N ∧ supply L' = supply L.
Proof.
  unfold spec_add, delta. destruct (N.eqb_spec (amount u) 0) as [Hz|].
  { intros [= <-]. split; [case_decide; lia|done]. }
  destruct (N.leb_spec (balance L a (denomination u) + amount u) u128_max); [|done].
  intros [= <-]. split; [|done].
  pose proof (total_set_bal L a (denomination u) (balance L a (denomination u) + amount u) d).
  case_decide; lia.
Qed.
Lemma spec_sub_total a u L L' d :
  spec_sub a u L = inr L' → (total L' d + delta u d = total L d)%N ∧ supply L' = supply L.
Proof.
  unfold spec_sub, delta. destruct (N.eqb_spec (amount u) 0) as [Hz|].
  { intros [= <-]. split; [case_decide; lia|done]. }
  destruct (N.leb_spec (amount u) (balance L a (denomination u))); [|done].
  intros [= <-]. split; [|done].
  pose proof (total_set_bal L a (denomination u) (balance L a (denomination u) - amount u) d).
  case_decide; lia.
Qed.

Lemma spec_add_balance a u L L' a' d :
  spec_add a u L = inr L' →
  balance L' a' d = (balance L a' d + if decide (a = a') then delta u d else 0)%N.
Proof.
  unfold spec_add, delta. destruct (N.eqb_spec (amount u) 0) as [Hz|].
  { intros [= <-]. repeat case_decide; lia. }
  destruct (N.leb_spec (balance L a (denomination u) + amount u) u128_max); [|done].
  intros [= <-]. rewrite balance_set_bal. repeat case_decide; simplify_eq; lia.
Qed.
Lemma spec_sub_balance a u L L' a' d :
  spec_sub a u L = inr L' →
  (balance L' a' d + (if decide (a = a') then delta u d else 0) = balance L a' d)%N.
Proof.
  unfold spec_sub, delta. destruct (N.eqb_spec (amount u) 0) as [Hz|].
  { intros [= <-]. repeat case_decide; lia. }
  destruct (N.leb_spec (amount u) (balance L a (denomination u))); [|done].
  intros [= <-]. rewrite balance_set_bal. repeat case_decide; simplify_eq; lia.
Qed.

(** * Keys *)

(** A key of the accounts module: its name, a table and a key of the table. *)
Definition table_key (t : Byte.byte) (k : bytes) : bytes := str ACCOUNTS_MODULE_NAME ++ t :: k.
Definition bal_key (a : Address) (d : Denomination) : bytes := table_key x02 (raw a ++ denom_bytes d).
Definition supply_key (d : Denomination) : bytes := table_key x03 (denom_bytes d).
Definition nonce_key (a : Address) : bytes := table_key x01 (raw a).

Lemma table_key_inj t k t' k' : table_key t k = table_key t' k' → t = t' ∧ k = k'.
Proof. intros [=]. done. Qed.

Lemma addr_denom_inj (a a' : Address) (d d' : Denomination) :
  raw a ++ denom_bytes d = raw a' ++ denom_bytes d' → a = a' ∧ d = d'.
Proof.
  intros Heq. apply app_inj_1 in Heq as [Ha Hd].
  - split; [by apply bytes_n_eq|by apply denom_bytes_inj].
  - unfold raw. by rewrite (proj2_sig a), (proj2_sig a').
Qed.

Lemma bal_key_inj a d a' d' : bal_key a d = bal_key a' d' → a = a' ∧ d = d'.
Proof. intros [_ H]%table_key_inj. by apply addr_denom_inj. Qed.

(** * Refinement *)

(** The laws of the encodings: amounts are 128-bit integers, nonces 64-bit ones. *)
Class AccountsCodecLaws `{Platform, !AccountsCodec} : Prop := {
  acc_amount_laws :: CborLaws N;
  amount_encodable (n : N) : encodable n ↔ (n ≤ u128_max)%N;
  acc_account_laws :: CborLaws Account;
  account_encodable (a : Account) : encodable a ↔ (nonce a ≤ u64_max)%N;
}.

Section refinement.
Context `{Platform} `{!MKVSLaws} `{!AccountsCodec} `{!AccountsCodecLaws}.

(** A store holds a ledger: every entry of the ledger is stored under its key, and the tables hold
    nothing else. *)
Record ledger_store (st : Store) (L : Ledger) : Prop := {
  ls_bal a d : from_slice <$> get st (bal_key a d) = Some <$> bal L !! (a, d);
  ls_bal_keys k : is_Some (get st (table_key x02 k)) → ∃ (a : Address) d, k = raw a ++ denom_bytes d;
  ls_supply d : from_slice <$> get st (supply_key d) = Some <$> supply L !! d;
  ls_supply_keys k : is_Some (get st (table_key x03 k)) → ∃ d, k = denom_bytes d;
  ls_nonce a : from_slice <$> get st (nonce_key a) = (λ n, Some {| nonce := n |}) <$> nonces L !! a;
}.
Record ledger_of (s : State) (L : Ledger) : Prop := {
  lo_store : ∃ st, st_store s = Some st ∧ store_wf st ∧ is_Some (overlay_base st) ∧ ledger_store st L;
}.

(** Only the store changes. *)
Definition store_only (s s' : State) : Prop := ∃ st, s' = set_store (Some st) s.
Lemma store_only_trans s1 s2 s3 : store_only s1 s2 → store_only s2 s3 → store_only s1 s3.
Proof. intros [st ->] [st' ->]. by exists st'. Qed.
Lemma ledger_store_only s L : ledger_of s L → store_only s s.
Proof. intros [(st & Hst & _)]. exists st. rewrite <-Hst. by destruct s. Qed.

(** The ledger of a state depends on its store only. *)
Lemma ledger_of_ext s s' L : st_store s' = st_store s → ledger_of s L → ledger_of s' L.
Proof. intros Heq [Hl]. split. by rewrite Heq. Qed.

Lemma bal_bounded s L k x : ledger_of s L → bal L !! k = Some x → (x ≤ u128_max)%N.
Proof.
  destruct k as [a d]. intros [(st & _ & _ & _ & Hl)] Hx. pose proof (ls_bal _ _ Hl a d) as Hb.
  rewrite Hx in Hb. destruct (get st (bal_key a d)) as [b|]; simplify_eq/=.
  apply amount_encodable. by eapply cbor_decoded.
Qed.
Lemma balance_bounded s L a d : ledger_of s L → (balance L a d ≤ u128_max)%N.
Proof.
  intros Hl. unfold balance. destruct (bal L !! (a, d)) as [x|] eqn:Hx; simpl.
  - by eapply bal_bounded.
  - unfold u128_max. lia.
Qed.

Lemma get_bal_run {E} s L a d :
  ledger_of s L → typed_get (E := E) (account_ref a) (denom_bytes d) s = (Ok (bal L !! (a, d)), s).
Proof.
  intros [(st & Hst & Hwf & _ & Hl)]. apply typed_get_run. exists st. split; [done|].
  split; [done|]. exact (ls_bal _ _ Hl a d).
Qed.
Lemma get_supply_run {E} s L d :
  ledger_of s L → typed_get (E := E) supplies_ref (denom_bytes d) s = (Ok (supply L !! d), s).
Proof.
  intros [(st & Hst & Hwf & _ & Hl)]. apply typed_get_run. exists st. split; [done|].
  split; [done|]. exact (ls_supply _ _ Hl d).
Qed.
Lemma get_account_run {E} s L a :
  ledger_of s L → get_account (E := E) a s = (Ok {| nonce := nonce_of L a |}, s).
Proof.
  intros [(st & Hst & Hwf & _ & Hl)]. unfold get_account.
  rewrite (bind_ok _ _ s ((λ n, {| nonce := n |}) <$> nonces L !! a) s).
  - unfold nonce_of. by destruct (nonces L !! a).
  - apply typed_get_run. exists st. split; [done|]. split; [done|].
    etransitivity; [exact (ls_nonce _ _ Hl a)|]. by destruct (nonces L !! a).
Qed.

(** Writing an entry. *)
Lemma insert_base st k v : is_Some (overlay_base st) → is_Some (overlay_base (insert_ st k v)).
Proof. destruct st; [by intros []|done]. Qed.

Lemma put_run {E T} `{!Cbor T} s L L' r k (v : T) :
  ledger_of s L →
  (∀ st, st_store s = Some st → store_wf st → ledger_store st L →
     ledger_store (insert_ st (ref_prefix r ++ k) (to_vec v)) L') →
  ∃ s', typed_insert (E := E) r k v s = (Ok tt, s') ∧ store_only s s' ∧ ledger_of s' L'.
Proof.
  intros [(st & Hst & Hwf & Hb & Hl)] Hstep. unfold typed_insert, store. run_simpl. rewrite Hst. simpl.
  rewrite ref_insert_key. eexists. split; [done|]. split; [by eexists|]. split.
  eexists. split; [done|]. split; [by apply insert_wf|]. split; [by apply insert_base|].
  by apply Hstep.
Qed.

Lemma put_bal_run {E} s L a d x :
  ledger_of s L → (x ≤ u128_max)%N →
  ∃ s', typed_insert (E := E) (account_ref a) (denom_bytes d) x s = (Ok tt, s') ∧ store_only s s' ∧
    ledger_of s' (set_bal (a, d) x L).
Proof.
  intros Hl Hx. apply (put_run s L); [done|]. intros st _ Hwf HL.
  change (ref_prefix (account_ref a) ++ denom_bytes d) with (bal_key a d).
  split; [intros a0 d0|intros k Hk|intros d0|intros k Hk|intros a0].
  - rewrite get_insert. simpl. destruct (decide (bal_key a d = bal_key a0 d0)) as [Heq|Hne].
    + apply bal_key_inj in Heq as [<- <-]. rewrite lookup_insert_eq. simpl.
      rewrite cbor_roundtrip; [done|]. by apply amount_encodable.
    + rewrite lookup_insert_ne by (intros [= -> ->]; done). apply HL.
  - revert Hk. rewrite get_insert. destruct (decide _) as [Heq|Hne]; [|apply HL].
    intros _. apply table_key_inj in Heq as [_ <-]. by eexists _, _.
  - rewrite get_insert, decide_False by (by intros [? _]%table_key_inj). apply HL.
  - revert Hk. rewrite get_insert, decide_False by (by intros [? _]%table_key_inj). apply HL.
  - rewrite get_insert, decide_False by (by intros [? _]%table_key_inj). apply HL.
Qed.

Lemma put_supply_run {E} s L d x :
  ledger_of s L → (x ≤ u128_max)%N →
  ∃ s', typed_insert (E := E) supplies_ref (denom_bytes d) x s = (Ok tt, s') ∧ store_only s s' ∧
    ledger_of s' (set_supply d x L).
Proof.
  intros Hl Hx. apply (put_run s L); [done|]. intros st _ Hwf HL.
  change (ref_prefix supplies_ref ++ denom_bytes d) with (supply_key d).
  split; [intros a0 d0|intros k Hk|intros d0|intros k Hk|intros a0].
  - rewrite get_insert, decide_False by (by intros [? _]%table_key_inj). apply HL.
  - revert Hk. rewrite get_insert, decide_False by (by intros [? _]%table_key_inj). apply HL.
  - rewrite get_insert. simpl. destruct (decide (supply_key d = supply_key d0)) as [Heq|Hne].
    + apply table_key_inj in Heq as [_ Heq%denom_bytes_inj]. subst d0. rewrite lookup_insert_eq. simpl.
      rewrite cbor_roundtrip; [done|]. by apply amount_encodable.
    + rewrite lookup_insert_ne by (intros ->; done). apply HL.
  - revert Hk. rewrite get_insert. destruct (decide _) as [Heq|Hne]; [|apply HL].
    intros _. apply table_key_inj in Heq as [_ <-]. by eexists.
  - rewrite get_insert, decide_False by (by intros [? _]%table_key_inj). apply HL.
Qed.

Lemma put_nonce_run {E} s L a n :
  ledger_of s L → (n ≤ u64_max)%N →
  ∃ s', typed_insert (E := E) nonces_ref (raw a) {| nonce := n |} s = (Ok tt, s') ∧ store_only s s' ∧
    ledger_of s' (set_ledger_nonce a n L).
Proof.
  intros Hl Hx. apply (put_run s L); [done|]. intros st _ Hwf HL.
  change (ref_prefix nonces_ref ++ raw a) with (nonce_key a).
  split; [intros a0 d0|intros k Hk|intros d0|intros k Hk|intros a0].
  - rewrite get_insert, decide_False by (by intros [? _]%table_key_inj). apply HL.
  - revert Hk. rewrite get_insert, decide_False by (by intros [? _]%table_key_inj). apply HL.
  - rewrite get_insert, decide_False by (by intros [? _]%table_key_inj). apply HL.
  - revert Hk. rewrite get_insert, decide_False by (by intros [? _]%table_key_inj). apply HL.
  - rewrite get_insert. simpl. destruct (decide (nonce_key a = nonce_key a0)) as [Heq|Hne].
    + apply table_key_inj in Heq as [_ Heq%bytes_n_eq]. subst a0. rewrite lookup_insert_eq. simpl.
      rewrite cbor_roundtrip; [done|]. by apply account_encodable.
    + rewrite lookup_insert_ne by (intros ->; done). apply HL.
Qed.

(** An operation on the state refines an operation on the ledger: it succeeds exactly when the
    ledger operation does, changes only the store and leaves it holding the new ledger; or it
    fails with the same error and changes nothing. *)
Definition refines (m : M AccountsError unit) (spec : Ledger → AccountsError + Ledger) : Prop :=
  ∀ s L, ledger_of s L → ∃ r s', m s = (r, s') ∧
    match spec L with
    | inr L' => r = Ok tt ∧ store_only s s' ∧ ledger_of s' L'
    | inl e => r = Err e ∧ s' = s
    end.

Lemma refines_noop : refines (mret tt) inr.
Proof. intros s L Hl. exists (Ok tt), s. split; [done|]. split; [done|]. split; [|done]. by eapply ledger_store_only. Qed.

Lemma add_amount_refines a u : refines (add_amount a u) (spec_add a u).
Proof.
  unfold add_amount, spec_add. destruct (amount u =? 0)%N; [apply refines_noop|]. intros s L Hl.
  rewrite (bind_ok _ _ _ _ _ (get_bal_run (E := AccountsError) s L a (denomination u) Hl)).
  fold (balance L a (denomination u)). unfold checked_add.
  destruct (N.leb_spec (balance L a (denomination u) + amount u) u128_max) as [Hle|Hgt]; cbn [ok_or].
  - rewrite ret_bind.
    destruct (put_bal_run (E := AccountsError) s L a (denomination u) _ Hl Hle) as (s' & Hrun & Hr).
    by exists (Ok tt), s'.
  - by exists (Err AccInvalidArgument), s.
Qed.

Lemma sub_amount_refines a u : refines (sub_amount a u) (spec_sub a u).
Proof.
  unfold sub_amount, spec_sub. destruct (amount u =? 0)%N; [apply refines_noop|]. intros s L Hl.
  rewrite (bind_ok _ _ _ _ _ (get_bal_run (E := AccountsError) s L a (denomination u) Hl)).
  fold (balance L a (denomination u)). unfold checked_sub.
  destruct (N.leb_spec (amount u) (balance L a (denomination u))) as [Hle|Hgt]; cbn [ok_or].
  - rewrite ret_bind. pose proof (balance_bounded s L a (denomination u) Hl).
    destruct (put_bal_run (E := AccountsError) s L a (denomination u)
      (balance L a (denomination u) - amount u) Hl ltac:(lia)) as (s' & Hrun & Hr).
    by exists (Ok tt), s'.
  - by exists (Err InsufficientBalance), s.
Qed.

Lemma supply_bounded s L d : ledger_of s L → (supply_of L d ≤ u128_max)%N.
Proof.
  intros [(st & _ & _ & _ & Hl)]. unfold supply_of. pose proof (ls_supply _ _ Hl d) as Hb.
  destruct (supply L !! d) as [x|]; simpl; [|unfold u128_max; lia].
  destruct (get st (supply_key d)) as [b|]; simplify_eq/=.
  apply amount_encodable. by eapply cbor_decoded.
Qed.

Lemma inc_total_supply_refines u : refines (inc_total_supply u) (spec_inc_supply u).
Proof.
  unfold inc_total_supply, spec_inc_supply. destruct (amount u =? 0)%N; [apply refines_noop|].
  intros s L Hl.
  rewrite (bind_ok _ _ _ _ _ (get_supply_run (E := AccountsError) s L (denomination u) Hl)).
  fold (supply_of L (denomination u)). unfold checked_add.
  destruct (N.leb_spec (supply_of L (denomination u) + amount u) u128_max) as [Hle|Hgt]; cbn [ok_or].
  - rewrite ret_bind.
    destruct (put_supply_run (E := AccountsError) s L (denomination u) _ Hl Hle) as (s' & Hrun & Hr).
    by exists (Ok tt), s'.
  - by exists (Err AccInvalidArgument), s.
Qed.

Lemma dec_total_supply_refines u : refines (dec_total_supply u) (spec_dec_supply u).
Proof.
  unfold dec_total_supply, spec_dec_supply. destruct (amount u =? 0)%N; [apply refines_noop|].
  intros s L Hl.
  rewrite (bind_ok _ _ _ _ _ (get_supply_run (E := AccountsError) s L (denomination u) Hl)).
  fold (supply_of L (denomination u)). unfold checked_sub.
  destruct (N.leb_spec (amount u) (supply_of L (denomination u))) as [Hle|Hgt]; cbn [ok_or].
  - rewrite ret_bind. pose proof (supply_bounded s L (denomination u) Hl).
    destruct (put_supply_run (E := AccountsError) s L (denomination u)
      (supply_of L (denomination u) - amount u) Hl ltac:(lia)) as (s' & Hrun & Hr).
    by exists (Ok tt), s'.
  - by exists (Err InsufficientBalance), s.
Qed.

(** Using a refinement when the ledger operation is known to succeed or fail. *)
Lemma refines_ok m spec s L L' :
  refines m spec → ledger_of s L → spec L = inr L' →
  ∃ s', m s = (Ok tt, s') ∧ store_only s s' ∧ ledger_of s' L'.
Proof.
  intros Hm Hl Hspec. destruct (Hm s L Hl) as (r & s' & Hrun & Hr). rewrite Hspec in Hr.
  destruct Hr as (-> & Hst & Hl'). by exists s'.
Qed.
Lemma refines_err m spec s L e :
  refines m spec → ledger_of s L → spec L = inl e → m s = (Err e, s).
Proof.
  intros Hm Hl Hspec. destruct (Hm s L Hl) as (r & s' & Hrun & Hr). rewrite Hspec in Hr.
  by destruct Hr as (-> & ->).
Qed.
End refinement.
