(* ===== verification/Accounting.v ===== *)
(** Conservation of tokens: transfers, minting, burning, fees and their disbursement
    (src/runtime-sdk/src/modules/accounts/mod.rs). *)
From S2P Require Import Prelude Storage StoreIter Types Fee Errors State Current Transactions Module.
From S2P Require Import Core Accounts Ledger.

(** All tokens are accounted for: the balances of a denomination and the amount held outside of the
    accounts sum up to the total supply. *)
Definition sound (held : Denomination → N) (L : Ledger) : Prop :=
  ∀ d, (total L d + held d = supply_of L d)%N.

Section operations.
Context `{Platform} `{!MKVSLaws} `{!AccountsCodec} `{!AccountsCodecLaws}.

Lemma sound_room held L s a u :
  ledger_of s L → sound held L → (amount u ≤ balance L a (denomination u))%N →
  ∃ L1, spec_sub a u L = inr L1 ∧ ∀ b, ∃ L2, spec_add b u L1 = inr L2.
Proof.
  intros Hl Hs Hle. destruct (spec_sub a u L) as [e|L1] eqn:Hsub.
  { unfold spec_sub in Hsub. destruct (amount u =? 0)%N; [done|].
    by destruct (N.leb_spec (amount u) (balance L a (denomination u))); [|lia]. }
  exists L1. split; [done|]. intros b. unfold spec_add. destruct (amount u =? 0)%N; [by eexists|].
  destruct (N.leb_spec (balance L1 b (denomination u) + amount u) u128_max) as [|Hgt]; [by eexists|].
  exfalso. pose proof (balance_le_total L1 b (denomination u)).
  destruct (spec_sub_total a u L L1 (denomination u) Hsub) as [Ht _].
  unfold delta in Ht. rewrite decide_True in Ht by done.
  pose proof (Hs (denomination u)). pose proof (supply_bounded s L (denomination u) Hl). lia.
Qed.

(** Moving tokens between accounts. *)
Lemma transfer_silent_run held L s from to u :
  ledger_of s L → sound held L → (amount u ≤ balance L from (denomination u))%N →
  ∃ s' L', transfer_silent from to u s = (Ok tt, s') ∧ store_only s s' ∧ ledger_of s' L' ∧
    supply L' = supply L ∧ (∀ d, total L' d = total L d) ∧
    (∀ a d, balance L' a d + (if decide (from = a) then delta u d else 0) =
            balance L a d + (if decide (to = a) then delta u d else 0))%N.
Proof.
  intros Hl Hs Hle. destruct (sound_room held L s from u Hl Hs Hle) as (L1 & Hsub & Hadd).
  destruct (Hadd to) as [L2 Hadd2].
  destruct (refines_ok _ _ _ _ _ (sub_amount_refines from u) Hl Hsub) as (s1 & Hr1 & Hst1 & Hl1).
  destruct (refines_ok _ _ _ _ _ (add_amount_refines to u) Hl1 Hadd2) as (s2 & Hr2 & Hst2 & Hl2).
  exists s2, L2. unfold transfer_silent. rewrite (bind_ok _ _ _ _ _ Hr1). split; [done|].
  split; [by eapply store_only_trans|]. split; [done|].
  pose proof (λ d, spec_sub_total from u L L1 d Hsub) as Ht1.
  pose proof (λ d, spec_add_total to u L1 L2 d Hadd2) as Ht2.
  split; [by destruct (Ht1 NATIVE) as [_ <-], (Ht2 NATIVE) as [_ <-]|]. split.
  - intros d. destruct (Ht1 d) as [? _], (Ht2 d) as [? _]. lia.
  - intros a d. pose proof (spec_sub_balance from u L L1 a d Hsub).
    pose proof (spec_add_balance to u L1 L2 a d Hadd2). lia.
Qed.

Lemma spec_sub_short from u L :
  (balance L from (denomination u) < amount u)%N → spec_sub from u L = inl InsufficientBalance.
Proof.
  intros Hlt. unfold spec_sub. destruct (N.eqb_spec (amount u) 0); [lia|].
  by destruct (N.leb_spec (amount u) (balance L from (denomination u))); [lia|].
Qed.
Lemma transfer_short from to u s L :
  ledger_of s L → (balance L from (denomination u) < amount u)%N →
  transfer_silent from to u s = (Err InsufficientBalance, s).
Proof.
  intros Hl Hlt%spec_sub_short. unfold transfer_silent.
  by rewrite (bind_err _ _ _ _ _ (refines_err _ _ _ _ _ (sub_amount_refines from u) Hl Hlt)).
Qed.

(** The state after an operation that emitted an event. *)
Definition after_event (e : AccountsEvent) (s' : State) : State :=
  set_events (push_event (accounts_event e) (st_events s')) s'.

Lemma spec_inc_supply_of u L L' d :
  spec_inc_supply u L = inr L' → supply_of L' d = (supply_of L d + delta u d)%N ∧ bal L' = bal L.
Proof.
  unfold spec_inc_supply, delta. destruct (N.eqb_spec (amount u) 0).
  { intros [= <-]. split; [case_decide; lia|done]. }
  destruct (N.leb_spec (supply_of L (denomination u) + amount u) u128_max); [|done].
  intros [= <-]. split; [|done]. unfold supply_of, set_supply. simpl.
  rewrite lookup_insert. case_decide; simplify_eq; simpl; lia.
Qed.
Lemma spec_dec_supply_of u L L' d :
  spec_dec_supply u L = inr L' → (supply_of L' d + delta u d = supply_of L d)%N ∧ bal L' = bal L.
Proof.
  unfold spec_dec_supply, delta. destruct (N.eqb_spec (amount u) 0).
  { intros [= <-]. split; [case_decide; lia|done]. }
  destruct (N.leb_spec (amount u) (supply_of L (denomination u))); [|done].
  intros [= <-]. split; [|done]. unfold supply_of, set_supply in *. simpl.
  rewrite lookup_insert. case_decide; simplify_eq; simpl; lia.
Qed.

Lemma total_bal L L' d : bal L' = bal L → total L' d = total L d.
Proof. unfold total. by intros ->. Qed.
Lemma balance_bal L L' a d : bal L' = bal L → balance L' a d = balance L a d.
Proof. unfold balance. by intros ->. Qed.
Lemma supply_of_supply L L' d : supply L' = supply L → supply_of L' d = supply_of L d.
Proof. unfold supply_of. by intros ->. Qed.

Lemma mint_ok held L s to u :
  ledger_of s L → sound held L → is_check_only (st_env s) = false →
  (supply_of L (denomination u) + amount u ≤ u128_max)%N → amount u ≠ 0%N →
  ∃ s1 L', mint to u s = (Ok tt, after_event (EvMint to u) s1) ∧ store_only s s1 ∧
    ledger_of (after_event (EvMint to u) s1) L' ∧ sound held L' ∧
    (∀ d, supply_of L' d = supply_of L d + delta u d)%N ∧
    (∀ a d, balance L' a d = balance L a d + if decide (to = a) then delta u d else 0)%N.
Proof.
  intros Hl Hs Hco Hle Hnz. unfold mint.
  rewrite with_env_bind, Hco.
  destruct (N.eqb_spec (amount u) 0) as [|_]; [done|]. cbn [orb].
  assert (Hadd : ∃ L1, spec_add to u L = inr L1).
  { unfold spec_add. destruct (amount u =? 0)%N; [by eexists|].
    destruct (N.leb_spec (balance L to (denomination u) + amount u) u128_max) as [|Hgt]; [by eexists|].
    pose proof (balance_le_total L to (denomination u)). pose proof (Hs (denomination u)). lia. }
  destruct Hadd as [L1 Hadd]. pose proof (λ d, spec_add_total to u L L1 d Hadd) as Ht.
  assert (Hinc : ∃ L2, spec_inc_supply u L1 = inr L2).
  { unfold spec_inc_supply. destruct (amount u =? 0)%N; [by eexists|].
    rewrite (supply_of_supply L L1) by apply (Ht NATIVE).
    destruct (N.leb_spec (supply_of L (denomination u) + amount u) u128_max); [by eexists|lia]. }
  destruct Hinc as [L2 Hinc]. pose proof (λ d, spec_inc_supply_of u L1 L2 d Hinc) as Hi.
  destruct (refines_ok _ _ _ _ _ (add_amount_refines to u) Hl Hadd) as (s1 & Hr1 & Hst1 & Hl1).
  destruct (refines_ok _ _ _ _ _ (inc_total_supply_refines u) Hl1 Hinc) as (s2 & Hr2 & Hst2 & Hl2).
  exists s2, L2. rewrite (bind_ok _ _ _ _ _ Hr1), (bind_ok _ _ _ _ _ Hr2). split; [done|].
  split; [by eapply store_only_trans|]. split; [by apply (ledger_of_ext s2)|].
  assert (Hsup : ∀ d, supply_of L2 d = (supply_of L d + delta u d)%N).
  { intros d. destruct (Hi d) as [-> _]. by rewrite (supply_of_supply L L1) by apply (Ht d). }
  split; [|split; [done|]].
  - intros d. rewrite Hsup, (total_bal L1 L2) by apply (Hi d). destruct (Ht d) as [-> _].
    pose proof (Hs d). lia.
  - intros a d. rewrite (balance_bal L1 L2) by apply (Hi d). by apply spec_add_balance.
Qed.

(** An overflow of the supply is reported, whether the balance of the receiver overflows or not. *)
Lemma mint_overflow L s to u :
  ledger_of s L → is_check_only (st_env s) = false → amount u ≠ 0%N →
  (u128_max < supply_of L (denomination u) + amount u)%N →
  ∃ r s', mint to u s = (r, s') ∧ r = Err AccInvalidArgument.
Proof.
  intros Hl Hco Hnz Hlt. unfold mint. rewrite with_env_bind, Hco.
  destruct (N.eqb_spec (amount u) 0) as [|_]; [done|]. cbn [orb].
  destruct (spec_add to u L) as [e|L1] eqn:Hadd.
  - rewrite (bind_err _ _ _ _ _ (refines_err _ _ _ _ _ (add_amount_refines to u) Hl Hadd)).
    eexists _, _. split; [done|]. unfold spec_add in Hadd. repeat case_match; naive_solver.
  - destruct (refines_ok _ _ _ _ _ (add_amount_refines to u) Hl Hadd) as (s1 & Hr1 & Hst1 & Hl1).
    rewrite (bind_ok _ _ _ _ _ Hr1).
    assert (Hinc : spec_inc_supply u L1 = inl AccInvalidArgument).
    { unfold spec_inc_supply. destruct (N.eqb_spec (amount u) 0); [done|].
      rewrite (supply_of_supply L L1) by apply (spec_add_total to u L L1 NATIVE Hadd).
      by destruct (N.leb_spec (supply_of L (denomination u) + amount u) u128_max); [lia|]. }
    rewrite (bind_err _ _ _ _ _ (refines_err _ _ _ _ _ (inc_total_supply_refines u) Hl1 Hinc)).
    by eexists _, _.
Qed.

Lemma burn_ok held L s from u :
  ledger_of s L → sound held L → is_check_only (st_env s) = false →
  (amount u ≤ balance L from (denomination u))%N → amount u ≠ 0%N →
  ∃ s1 L', burn from u s = (Ok tt, after_event (EvBurn from u) s1) ∧ store_only s s1 ∧
    ledger_of (after_event (EvBurn from u) s1) L' ∧ sound held L' ∧
    (∀ d, supply_of L' d + delta u d = supply_of L d)%N ∧
    (∀ a d, balance L' a d + (if decide (from = a) then delta u d else 0) = balance L a d)%N.
Proof.
  intros Hl Hs Hco Hle Hnz. unfold burn.
  rewrite with_env_bind, Hco.
  destruct (N.eqb_spec (amount u) 0) as [|_]; [done|]. cbn [orb].
  destruct (sound_room held L s from u Hl Hs Hle) as (L1 & Hsub & _).
  pose proof (λ d, spec_sub_total from u L L1 d Hsub) as Ht.
  assert (Hdec : ∃ L2, spec_dec_supply u L1 = inr L2).
  { unfold spec_dec_supply. destruct (amount u =? 0)%N; [by eexists|].
    rewrite (supply_of_supply L L1) by apply (Ht NATIVE).
    destruct (N.leb_spec (amount u) (supply_of L (denomination u))); [by eexists|].
    pose proof (balance_le_total L from (denomination u)). pose proof (Hs (denomination u)). lia. }
  destruct Hdec as [L2 Hdec]. pose proof (λ d, spec_dec_supply_of u L1 L2 d Hdec) as Hi.
  destruct (refines_ok _ _ _ _ _ (sub_amount_refines from u) Hl Hsub) as (s1 & Hr1 & Hst1 & Hl1).
  destruct (refines_ok _ _ _ _ _ (dec_total_supply_refines u) Hl1 Hdec) as (s2 & Hr2 & Hst2 & Hl2).
  exists s2, L2. rewrite (bind_ok _ _ _ _ _ Hr1).
  rewrite (bind_ok _ _ _ _ _ (unwrap_ok _ _ _ _ _ Hr2)). split; [done|].
  split; [by eapply store_only_trans|]. split; [by apply (ledger_of_ext s2)|].
  assert (Hsup : ∀ d, (supply_of L2 d + delta u d = supply_of L d)%N).
  { intros d. destruct (Hi d) as [-> _]. by rewrite (supply_of_supply L L1) by apply (Ht d). }
  split; [|split; [done|]].
  - intros d. rewrite (total_bal L1 L2) by apply (Hi d). destruct (Ht d) as [? _].
    pose proof (Hs d). pose proof (Hsup d). lia.
  - intros a d. rewrite (balance_bal L1 L2) by apply (Hi d). by apply spec_sub_balance.
Qed.
End operations.
