(* ===== verification/Nonces.v ===== *)
(** Replay protection: the check and the update of the nonces of the signers, and the authentication of
    a transaction (src/runtime-sdk/src/modules/accounts/mod.rs). *)
From S2P Require Import Prelude Storage StoreIter Types Fee Errors State Current Transactions Module.
From S2P Require Import Core Gas Accounts Ledger Accounting.

(** The addresses of the signers, in order. *)
Definition signers `{Platform} (ai : AuthInfo) : list Address :=
  (λ si, address_spec_address (si_address_spec si)) <$> signer_info ai.

Section nonces.
Context `{Platform} `{!MKVSLaws} `{!AccountsCodec} `{!AccountsCodecLaws}.

(** A signer is current when its nonce is the one of its account. *)
Definition nonce_current (L : Ledger) (si : SignerInfo) : bool :=
  (si_nonce si =? nonce_of L (address_spec_address (si_address_spec si)))%N.

(** The nonces of the accounts, raised once per signature. *)
Definition raised (L L' : Ledger) (addrs : list Address) : Prop :=
  bal L' = bal L ∧ supply L' = supply L ∧ ∀ a, nonce_of L' a = (nonce_of L a + occurrences a addrs)%N.

Lemma nonce_of_set a n L a' :
  nonce_of (set_ledger_nonce a n L) a' = if decide (a = a') then n else nonce_of L a'.
Proof. unfold nonce_of, set_ledger_nonce. simpl. by rewrite lookup_insert; case_decide. Qed.

Lemma update_signer_nonce_run si s L :
  let a := address_spec_address (si_address_spec si) in
  ledger_of s L →
  ∃ r s', update_signer_nonce si s = (r, s') ∧
    if (nonce_of L a <? u64_max)%N
    then r = Ok tt ∧ store_only s s' ∧ ∃ L', ledger_of s' L' ∧ raised L L' [a]
    else r = Err InvalidNonce ∧ s' = s.
Proof.
  intros a Hl. unfold update_signer_nonce. fold a.
  rewrite (bind_ok _ _ _ _ _ (get_account_run (E := CoreError) s L a Hl)). cbn [nonce].
  unfold checked_add. destruct (N.ltb_spec (nonce_of L a) u64_max) as [Hlt|Hge].
  - destruct (N.leb_spec (nonce_of L a + 1) u64_max); [|lia]. cbn [ok_or]. rewrite ret_bind.
    destruct (put_nonce_run (E := CoreError) s L a (nonce_of L a + 1) Hl) as (s' & Hrun & Hst & Hl'); [done|].
    eexists _, s'. split; [exact Hrun|]. split; [done|]. split; [done|]. eexists. split; [exact Hl'|].
    split; [done|]. split; [done|]. intros a'. rewrite nonce_of_set. unfold occurrences. simpl.
    case_decide; subst; lia.
  - destruct (N.leb_spec (nonce_of L a + 1) u64_max); [lia|]. by eexists _, s.
Qed.

Lemma raised_refl L : raised L L [].
Proof. split; [done|]. split; [done|]. intros a. unfold occurrences. simpl. lia. Qed.
Lemma raised_trans L1 L2 L3 l1 l2 : raised L1 L2 l1 → raised L2 L3 l2 → raised L1 L3 (l1 ++ l2).
Proof.
  intros (? & ? & Hn) (? & ? & Hn'). split; [congruence|]. split; [congruence|]. intros a.
  rewrite Hn', Hn. unfold occurrences. rewrite list_sum_app. lia.
Qed.

Lemma update_signer_nonces_ok ai s L s' :
  ledger_of s L → update_signer_nonces ai s = (Ok tt, s') →
  store_only s s' ∧ ∃ L', ledger_of s' L' ∧ raised L L' (signers ai).
Proof.
  unfold update_signer_nonces, signers. revert s L. induction (signer_info ai) as [|si l IH]; intros s L Hl.
  - intros [= <-]. split; [by eapply ledger_store_only|]. exists L. split; [done|]. apply raised_refl.
  - cbn [for_each]. intros ([] & s1 & Hr1 & Hrun)%bind_ok_inv.
    destruct (update_signer_nonce_run si s L Hl) as (r & s1' & Hr & Hcase). rewrite Hr1 in Hr. simplify_eq.
    destruct (_ <? _)%N; [|by destruct Hcase].
    destruct Hcase as (_ & Hst & L1 & Hl1 & Hra).
    destruct (IH s1' L1 Hl1 Hrun) as (Hst' & L' & Hl' & Hra').
    split; [by eapply store_only_trans|]. exists L'. split; [done|].
    exact (raised_trans L L1 L' [_] _ Hra Hra').
Qed.

Context `{!AccountsRuntime}.

Definition has_params (s : State) (p : AccountsParameters) : Prop :=
  accounts_params (E := CoreError) s = (Ok p, s).

(** Checking the signers one after the other: a first signer that is behind fails the check in every
    mode. *)
Lemma check_signer_behind mode p s L si o :
  ledger_of s L → debug_disable_nonce_check p = false →
  (si_nonce si < nonce_of L (address_spec_address (si_address_spec si)))%N →
  check_signer_nonce mode p o si s = (Err InvalidNonce, s).
Proof.
  intros Hl Hp Hlt. unfold check_signer_nonce.
  rewrite (bind_ok _ _ _ _ _ (get_account_run (E := CoreError) s L _ Hl)). cbn [nonce].
  rewrite Hp. by rewrite (proj2 (N.compare_lt_iff _ _) Hlt).
Qed.

Lemma check_signer_execute p s L si o :
  ledger_of s L → debug_disable_nonce_check p = false →
  ∃ m, check_signer_nonce Execute p o si s = (if nonce_current L si then Ok (Some m) else Err InvalidNonce, s) ∧
    sm_address m = default (address_spec_address (si_address_spec si)) (sm_address <$> o).
Proof.
  intros Hl Hp. unfold check_signer_nonce, nonce_current.
  rewrite (bind_ok _ _ _ _ _ (get_account_run (E := CoreError) s L _ Hl)). cbn [nonce]. rewrite Hp.
  exists (default {| sm_address := address_spec_address (si_address_spec si); sm_tx_nonce := si_nonce si;
            sm_state_nonce := nonce_of L (address_spec_address (si_address_spec si)) |} o).
  split; [|by destruct o]. rewrite N.eqb_compare. by destruct (_ ?= _)%N, o.
Qed.

Lemma check_signers_execute p s L l o :
  ledger_of s L → debug_disable_nonce_check p = false →
  ∃ m, fold_m l o (check_signer_nonce Execute p) s =
         (if forallb (nonce_current L) l then Ok m else Err InvalidNonce, s) ∧
    sm_address <$> m = match o with
                       | Some x => Some (sm_address x)
                       | None => (λ si, address_spec_address (si_address_spec si)) <$> head l
                       end.
Proof.
  intros Hl Hp. revert o. induction l as [|si l IH]; intros o.
  - exists o. split; [done|]. by destruct o.
  - cbn [fold_m forallb]. destruct (check_signer_execute p s L si o Hl Hp) as (m & Hr & Hm).
    destruct (nonce_current L si); cbn [andb].
    + rewrite (bind_ok _ _ _ _ _ Hr). destruct (IH (Some m)) as (m' & Hr' & Hm').
      exists m'. split; [done|]. rewrite Hm', Hm. by destruct o.
    + exists (Some m). rewrite (bind_err _ _ _ _ _ Hr). split; [done|]. simpl. rewrite Hm. by destruct o.
Qed.
End nonces.

(** * Authentication *)

Section authentication.
Context `{Platform} `{!MKVSLaws} `{!AccountsCodec} `{!AccountsCodecLaws} `{!AccountsRuntime}.

(** The store and the environment stay. *)
Definition same_store (s s' : State) : Prop := st_store s' = st_store s ∧ st_env s' = st_env s.

Lemma with_fee_manager_same {E A} (f : ST FeeManager Empty_set A) s :
  same_store s (with_fee_manager (E := E) f s).2.
Proof.
  unfold with_fee_manager, value_or_default, downcast, value_set. run_simpl.
  repeat (case_match; simplify_eq/=; try done).
Qed.
Lemma set_priority_same {E} x s : same_store s (set_priority (E := E) x s).2.
Proof. done. Qed.
Lemma same_store_trans s1 s2 s3 : same_store s1 s2 → same_store s2 s3 → same_store s1 s3.
Proof. intros [??] [??]. split; congruence. Qed.
Lemma store_only_env s s' : store_only s s' → st_env s' = st_env s.
Proof. by intros [st ->]. Qed.

(** Charging the fee leaves the nonces. *)
Lemma spec_sub_nonces a u L L' : spec_sub a u L = inr L' → nonces L' = nonces L.
Proof. unfold spec_sub. repeat case_match; intros [= <-]; done. Qed.
Lemma charge_tx_fee_nonces s L from u s' :
  ledger_of s L → charge_tx_fee from u s = (Ok tt, s') →
  st_env s' = st_env s ∧ ∃ L', ledger_of s' L' ∧ nonces L' = nonces L.
Proof.
  intros Hl. unfold charge_tx_fee. rewrite with_env_bind.
  destruct (is_simulation (st_env s)); [intros [= <-]; split; [done|by exists L]|].
  intros ([] & s1 & Hr1 & Hrun)%bind_ok_inv. destruct (spec_sub from u L) as [e|L1] eqn:Hsub.
  { by rewrite (map_err_err _ _ _ _ _ (refines_err _ _ _ _ _ (sub_amount_refines from u) Hl Hsub)) in Hr1. }
  destruct (refines_ok _ _ _ _ _ (sub_amount_refines from u) Hl Hsub) as (s2 & Hr2 & Hst & Hl1).
  rewrite (map_err_ok _ _ _ _ _ Hr2) in Hr1. simplify_eq.
  pose proof (with_fee_manager_same (E := CoreError) (record_fee from u) s1) as [Hsame Henv].
  rewrite Hrun in Hsame, Henv. simpl in *. split; [by rewrite Henv; apply store_only_env|].
  exists L1. split; [by apply (ledger_of_ext s1)|]. by eapply spec_sub_nonces.
Qed.

(** In execution, the check passes exactly when every signer's nonce is the one of its account. *)
Lemma check_nonces_execute ai s L p a rest :
  ledger_of s L → has_params s p → debug_disable_nonce_check p = false →
  env_mode (st_env s) = Execute → signers ai = a :: rest →
  check_signer_nonces ai s =
    (if forallb (nonce_current L) (signer_info ai) then Ok a else Err InvalidNonce, s).
Proof.
  intros Hl Hp Hd Hmode Hsig. unfold check_signer_nonces. rewrite with_env_bind, Hmode.
  rewrite (bind_ok _ _ _ _ _ Hp).
  destruct (check_signers_execute p s L (signer_info ai) None Hl Hd) as (m & Hr & Hm).
  unfold signers in Hsig. destruct (signer_info ai) as [|si l]; [done|]. simpl in Hsig. simplify_eq.
  destruct (forallb (nonce_current L) (si :: l)).
  - rewrite (bind_ok _ _ _ _ _ Hr). destruct m as [m|]; simplify_eq/=. by rewrite !ret_bind, Hm.
  - by rewrite (bind_err _ _ _ _ _ Hr).
Qed.

Lemma check_nonces_behind ai s L p si rest :
  ledger_of s L → has_params s p → debug_disable_nonce_check p = false → signer_info ai = si :: rest →
  (si_nonce si < nonce_of L (address_spec_address (si_address_spec si)))%N →
  check_signer_nonces ai s = (Err InvalidNonce, s).
Proof.
  intros Hl Hp Hd Hsig Hlt. unfold check_signer_nonces. rewrite with_env_bind, (bind_ok _ _ _ _ _ Hp), Hsig.
  apply bind_err. cbn [fold_m]. apply bind_err. by apply (check_signer_behind _ _ _ L).
Qed.

(** The fee proxy only reads. *)
Hypothesis payer_reads : ∀ ctx tx s, same_store s (resolve_payer ctx tx s).2.

Lemma authenticate_execute ctx tx s L p a rest dec s' :
  ledger_of s L → has_params s p → debug_disable_nonce_check p = false →
  env_mode (st_env s) = Execute → signers (tx_auth_info tx) = a :: rest →
  accounts_authenticate_tx ctx tx s = (Ok dec, s') →
  forallb (nonce_current L) (signer_info (tx_auth_info tx)) ∧
  ∃ L', ledger_of s' L' ∧ ∀ a, nonce_of L' a = (nonce_of L a + occurrences a (signers (tx_auth_info tx)))%N.
Proof.
  intros Hl Hp Hd Hmode Hsig Hrun. unfold accounts_authenticate_tx in Hrun.
  apply bind_ok_inv in Hrun as (dp & s1 & Hr1 & Hrun).
  rewrite (check_nonces_execute _ s L p a rest) in Hr1 by done.
  destruct (forallb _ _); simplify_eq. split; [done|].
  apply bind_ok_inv in Hrun as (proxy & s2 & Hr2 & Hrun).
  pose proof (payer_reads ctx tx s1) as [Hst2 Henv2]. rewrite Hr2 in Hst2, Henv2. simpl in Hst2, Henv2.
  apply bind_ok_inv in Hrun as ([] & s3 & Hr3 & Hrun).
  assert (Hl3 : st_env s3 = st_env s1 ∧ ∃ L3, ledger_of s3 L3 ∧ nonces L3 = nonces L).
  { apply (ledger_of_ext s1 s2) in Hl; [|done]. destruct (negb _).
    - rewrite with_env_bind, Henv2 in Hr3. unfold is_check_only in Hr3. rewrite Hmode in Hr3.
      apply bind_ok_inv in Hr3 as ([] & s4 & Hr4 & [= <-]).
      apply (charge_tx_fee_nonces _ L) in Hr4 as (Henv4 & L4 & Hl4 & Hn); [|done].
      split; [by rewrite <-Henv2|]. exists L4. split; [by apply (ledger_of_ext s4)|done].
    - injection Hr3 as <-. split; [done|]. by exists L. }
  destruct Hl3 as (Henv3 & L3 & Hl3 & Hn3). rewrite with_env_bind, Henv3 in Hrun.
  unfold is_check_only in Hrun. rewrite Hmode in Hrun. simpl in Hrun.
  apply bind_ok_inv in Hrun as ([] & s5 & Hr5 & [= <- <-]).
  destruct (update_signer_nonces_ok _ _ L3 _ Hl3 Hr5) as (_ & L' & Hl' & _ & _ & Hn').
  exists L'. split; [done|]. intros b. rewrite Hn'. unfold nonce_of. by rewrite Hn3.
Qed.
End authentication.

Module NonceClaims.
Section claims.
Context `{Platform} `{!MKVSLaws} `{!AccountsCodec} `{!AccountsCodecLaws} `{!AccountsRuntime}.

(** In execution, the nonce check of a transaction changes nothing and passes exactly when the
    nonce of every signer equals the nonce of its account; it then returns the address of the first
    signer, and otherwise fails with an invalid nonce. *)
Theorem nonces_checked_exactly ai s L p a rest :
  ledger_of s L → has_params s p → debug_disable_nonce_check p = false →
  env_mode (st_env s) = Execute → signers ai = a :: rest →
  check_signer_nonces ai s =
    (if forallb (nonce_current L) (signer_info ai) then Ok a else Err InvalidNonce, s).
Proof. apply check_nonces_execute. Qed.

(** C4. A transaction that was authenticated in execution raises the nonce of each signer by one per
    signature, and is rejected with an invalid nonce, in every mode and without any change, in any
    later state in which no nonce has decreased. *)
Theorem replay_rejected ctx tx s L p a rest dec s' :
  (∀ ctx tx s, same_store s (resolve_payer ctx tx s).2) →
  ledger_of s L → has_params s p → debug_disable_nonce_check p = false →
  env_mode (st_env s) = Execute → signers (tx_auth_info tx) = a :: rest →
  accounts_authenticate_tx ctx tx s = (Ok dec, s') →
  ∃ L', ledger_of s' L' ∧
    (∀ a, nonce_of L' a = nonce_of L a + occurrences a (signers (tx_auth_info tx)))%N ∧
    ∀ s2 L2 p2, ledger_of s2 L2 → has_params s2 p2 → debug_disable_nonce_check p2 = false →
      (∀ a, nonce_of L' a ≤ nonce_of L2 a)%N →
      accounts_authenticate_tx ctx tx s2 = (Err InvalidNonce, s2).
Proof.
  intros Hpay Hl Hp Hd Hmode Hsig Hrun.
  destruct (authenticate_execute Hpay ctx tx s L p a rest dec s') as (Hcur & L' & Hl' & Hn); [done..|].
  exists L'. split; [done|]. split; [done|]. intros s2 L2 p2 Hl2 Hp2 Hd2 Hle.
  unfold signers in Hsig. destruct (signer_info (tx_auth_info tx)) as [|si l] eqn:Hsi; [done|].
  unfold accounts_authenticate_tx. apply bind_err, (check_nonces_behind _ _ L2 p2 si l); [done..|].
  simpl in Hcur. apply andb_prop_elim in Hcur as [Hcur _]. unfold nonce_current in Hcur.
  apply Is_true_true, N.eqb_eq in Hcur. rewrite Hcur.
  specialize (Hle (address_spec_address (si_address_spec si))). rewrite Hn in Hle.
  unfold signers, occurrences in Hle. rewrite Hsi in Hle. simpl in Hle.
  rewrite decide_True in Hle by done. lia.
Qed.
End claims.
End NonceClaims.
