(* ===== verification/Disbursement.v ===== *)
(** The end of a block: the fees collected in the previous block are drained from the accumulator,
    divided among the entities of the committee, the remainder goes to the common pool, and the fees
    of this block are collected (src/runtime-sdk/src/modules/accounts/mod.rs, [end_block]). *)
From S2P Require Import Prelude Storage StoreIter Types Fee Errors State Current Transactions Module.
From S2P Require Import Core Accounts Ledger Accounting.

(** * Ordered iteration *)

Section iteration.
Context {A : Type}.

Lemma map_iter_perm {K} `{Countable K} (key : K → bytes) (m : gmap K A) :
  map_iter key m ≡ₚ map_to_list m.
Proof. apply merge_sort_Permutation. Qed.
Lemma elem_of_denom_iter (m : gmap Denomination A) d x : (d, x) ∈ denom_iter m ↔ m !! d = Some x.
Proof. unfold denom_iter. rewrite map_iter_perm. apply elem_of_map_to_list. Qed.
Lemma denom_iter_nodup (m : gmap Denomination A) : NoDup (denom_iter m).*1.
Proof. unfold denom_iter. rewrite map_iter_perm. apply NoDup_fst_map_to_list. Qed.
End iteration.

(** The amount of a denomination in a list of entries. *)
Definition entry_amount (d : Denomination) (x : Denomination * N) : N :=
  if decide (x.1 = d) then x.2 else 0%N.

Lemma entries_sum_notin d (l : list (Denomination * N)) : d ∉ l.*1 → list_sum (entry_amount d) l = 0%N.
Proof.
  induction l as [|[d' x] l IH]; simpl; [done|]. intros [Hne Hin]%not_elem_of_cons.
  rewrite IH by done. unfold entry_amount. simpl. by rewrite decide_False by congruence.
Qed.

Lemma entries_sum d (l : list (Denomination * N)) x :
  NoDup l.*1 → (d, x) ∈ l → list_sum (entry_amount d) l = x.
Proof.
  induction l as [|[d' y] l IH]; simpl; [by intros _ ?%not_elem_of_nil|].
  intros [Hni Hnd]%NoDup_cons [Heq|Hin]%elem_of_cons; unfold entry_amount at 1; simpl.
  - simplify_eq. rewrite decide_True by done. rewrite entries_sum_notin by done. lia.
  - rewrite IH by done. rewrite decide_False; [lia|]. intros ->. apply Hni.
    apply list_elem_of_fmap. by exists (d, x).
Qed.

Lemma denom_iter_sum (m : gmap Denomination N) d :
  list_sum (entry_amount d) (denom_iter m) = default 0%N (m !! d).
Proof.
  destruct (m !! d) as [x|] eqn:Hx; simpl.
  - apply entries_sum; [apply denom_iter_nodup|by apply elem_of_denom_iter].
  - apply entries_sum_notin. intros ([d' y] & -> & Hy%elem_of_denom_iter)%list_elem_of_fmap.
    simpl in *. congruence.
Qed.

(** The balances of one account. *)
Definition account_map (L : Ledger) (a : Address) : gmap Denomination N :=
  map_fold (λ k x m, if decide (k.1 = a) then <[k.2 := x]> m else m) ∅ (bal L).

Lemma account_map_lookup L a d : account_map L a !! d = bal L !! (a, d).
Proof.
  unfold account_map. apply (map_fold_weak_ind (λ r m, r !! d = m !! (a, d))); [done|].
  intros [a' d'] x m r Hm IH. simpl. case_decide as Ha; subst.
  - destruct (decide (d' = d)) as [->|Hne]; [by rewrite !lookup_insert_eq|].
    rewrite !lookup_insert_ne by congruence. done.
  - rewrite lookup_insert_ne by congruence. done.
Qed.

Section disbursement.
Context `{Platform} `{!MKVSLaws} `{!AccountsCodec} `{!AccountsCodecLaws}.

Lemma get_balances_run {E} s L a :
  ledger_of s L → get_balances (E := E) a s = (Ok (account_map L a), s).
Proof.
  intros [(st & Hst & Hwf & _ & Hl)]. unfold get_balances, account_ref.
  destruct (typed_iter_run (E := E) denomination_key 0%N denom_bytes
    ltac:(intros d; unfold denomination_key; by rewrite denomination_try_from_bytes)
    s st balances_ref (raw a) (account_map L a) Hst Hwf) as (l & Hrun & _ & _ & Hmap).
  - intros d. rewrite account_map_lookup. exact (ls_bal _ _ Hl a d).
  - intros b Hb. destruct (ls_bal_keys _ _ Hl (raw a ++ b)) as (a' & d & Heq); [exact Hb|].
    apply app_inj_1 in Heq as [_ ->]; [by exists d|].
    unfold raw. by rewrite (proj2_sig a), (proj2_sig a').
  - rewrite (bind_ok _ _ _ _ _ Hrun). by rewrite Hmap.
Qed.

(** The store and the events may change, nothing else. *)
Definition store_events_only (s s' : State) : Prop :=
  ∃ st ev, s' = set_events ev (set_store (Some st) s).
Lemma store_only_events s s' : store_only s s' → store_events_only s s'.
Proof. intros [st ->]. exists st, (st_events s). by destruct s. Qed.
Lemma store_events_trans s1 s2 s3 :
  store_events_only s1 s2 → store_events_only s2 s3 → store_events_only s1 s3.
Proof. intros (st & ev & ->) (st' & ev' & ->). by exists st', ev'. Qed.
Lemma store_events_event s s' e : store_events_only s s' → store_events_only s (after_event e s').
Proof. intros (st & ev & ->). by eexists _, _. Qed.

(** [grows L L' f]: balances grow by [f], supplies stay. *)
Definition grows (L L' : Ledger) (f : Address → Denomination → N) : Prop :=
  supply L' = supply L ∧ ∀ a d, balance L' a d = (balance L a d + f a d)%N.
Lemma grows_trans L1 L2 L3 f g :
  grows L1 L2 f → grows L2 L3 g → grows L1 L3 (λ a d, f a d + g a d)%N.
Proof. intros [? Hf] [? Hg]. split; [congruence|]. intros a d. rewrite Hg, Hf. lia. Qed.

(** Crediting an account from what is held. *)
Lemma credit_run h L s a u :
  ledger_of s L → sound h L → (amount u ≤ h (denomination u))%N →
  ∃ s' L', add_amount a u s = (Ok tt, s') ∧ store_only s s' ∧ ledger_of s' L' ∧
    sound (λ d, h d - delta u d)%N L' ∧ grows L L' (λ a' d, if decide (a = a') then delta u d else 0%N).
Proof.
  intros Hl Hs Hle. assert (Hadd : ∃ L', spec_add a u L = inr L').
  { unfold spec_add. destruct (amount u =? 0)%N; [by eexists|].
    destruct (N.leb_spec (balance L a (denomination u) + amount u) u128_max); [by eexists|].
    pose proof (balance_le_total L a (denomination u)). pose proof (Hs (denomination u)).
    pose proof (supply_bounded s L (denomination u) Hl). lia. }
  destruct Hadd as [L' Hadd].
  destruct (refines_ok _ _ _ _ _ (add_amount_refines a u) Hl Hadd) as (s' & Hrun & Hst & Hl').
  exists s', L'. do 3 (split; [done|]). pose proof (λ d, spec_add_total a u L L' d Hadd) as Ht. split.
  - intros d. destruct (Ht d) as [-> Hsup]. rewrite (supply_of_supply L L') by done.
    pose proof (Hs d). unfold delta in *. case_decide; subst; lia.
  - split; [apply (Ht NATIVE)|]. intros a' d. by apply spec_add_balance.
Qed.

(** Draining the accumulator. *)
Lemma drain_loop acc h L s (l : list (Denomination * N)) :
  ledger_of s L → NoDup l.*1 → (∀ d x, (d, x) ∈ l → balance L acc d = x) → sound h L →
  ∃ s' L', for_each l (λ '(denom, remainder), unwrap_or_panic (E' := Empty_set) "sub_amount must succeed"
             (sub_amount acc (BaseUnits_new remainder denom))) s = (Ok tt, s') ∧
    store_only s s' ∧ ledger_of s' L' ∧ supply L' = supply L ∧
    sound (λ d, h d + list_sum (entry_amount d) l)%N L' ∧
    (∀ a d, balance L' a d + (if decide (acc = a) then list_sum (entry_amount d) l else 0) = balance L a d)%N.
Proof.
  revert s L h. induction l as [|[d x] l IH]; intros s L h Hl Hnd Hbal Hs.
  - exists s, L. split; [done|]. split; [by eapply ledger_store_only|]. split; [done|]. split; [done|].
    split; [intros d; rewrite <-(Hs d); simpl; lia|]. intros a d. simpl. case_decide; lia.
  - apply NoDup_cons in Hnd as [Hni Hnd]. set (u := BaseUnits_new x d).
    assert (Hx : balance L acc d = x) by (apply Hbal; left).
    assert (Hsub : ∃ L1, spec_sub acc u L = inr L1).
    { unfold spec_sub. simpl. destruct (x =? 0)%N; [by eexists|]. rewrite Hx.
      destruct (N.leb_spec x x); [by eexists|lia]. }
    destruct Hsub as [L1 Hsub].
    destruct (refines_ok _ _ _ _ _ (sub_amount_refines acc u) Hl Hsub) as (s1 & Hr1 & Hst1 & Hl1).
    pose proof (λ d', spec_sub_total acc u L L1 d' Hsub) as Ht.
    pose proof (λ a' d', spec_sub_balance acc u L L1 a' d' Hsub) as Hb.
    destruct (IH s1 L1 (λ d', h d' + delta u d')%N) as (s' & L' & Hrun & Hst & Hl' & Hsup & Hs' & Hb').
    + done.
    + done.
    + intros d' x' Hin. specialize (Hbal d' x' ltac:(by right)). specialize (Hb acc d').
      rewrite decide_True in Hb by done. unfold delta in Hb. rewrite decide_False in Hb; [lia|].
      intros <-. apply Hni, list_elem_of_fmap. by exists (d, x').
    + intros d'. destruct (Ht d') as [? Hs1]. rewrite (supply_of_supply L L1) by done.
      pose proof (Hs d'). lia.
    + exists s', L'. cbn [for_each]. rewrite (bind_ok _ _ _ _ _ (unwrap_ok _ _ _ _ _ Hr1)).
      split; [done|]. split; [by eapply store_only_trans|]. split; [done|].
      destruct (Ht d) as [_ Hsup1]. split; [congruence|].
      assert (Hent : ∀ d', entry_amount d' (d, x) = delta u d') by done. split.
      * intros d'. rewrite <-(Hs' d'). simpl. rewrite Hent. lia.
      * intros a d'. specialize (Hb' a d'). specialize (Hb a d'). simpl. rewrite Hent.
        case_decide; lia.
Qed.

(** What is held of a denomination: outside of the accounts, and in the map of fees. *)
Definition plus (h : Denomination → N) (pf : gmap Denomination N) (d : Denomination) : N :=
  (h d + default 0 (pf !! d))%N.
Definition deltas (us : list BaseUnits) (d : Denomination) : N := list_sum (λ u, delta u d) us.

Lemma deltas_cons u us d : deltas (u :: us) d = (delta u d + deltas us d)%N.
Proof. done. Qed.

Lemma sound_ext h h' L : (∀ d, h d = h' d) → sound h L → sound h' L.
Proof. intros Heq Hs d. by rewrite <-Heq. Qed.

Lemma disburse_one_run h L s a pf u r :
  ledger_of s L → sound (plus h pf) L → pf !! denomination u = Some r → (amount u ≤ r)%N →
  ∃ s' L', disburse_one a pf u s = (Ok (<[denomination u := (r - amount u)%N]> pf), s') ∧
    store_events_only s s' ∧ ledger_of s' L' ∧
    sound (plus h (<[denomination u := (r - amount u)%N]> pf)) L' ∧
    grows L L' (λ a' d, if decide (a = a') then delta u d else 0%N).
Proof.
  intros Hl Hs Hr Hle. unfold disburse_one. rewrite Hr. cbn [expect]. rewrite ret_bind.
  unfold checked_sub. destruct (N.leb_spec (amount u) r); [|lia]. cbn [expect]. rewrite ret_bind.
  destruct (credit_run (plus h pf) L s a u Hl Hs) as (s1 & L1 & Hrun & Hst & Hl1 & Hs1 & Hg).
  { unfold plus. rewrite Hr. simpl. lia. }
  rewrite (bind_ok _ _ _ _ _ (unwrap_ok (E' := Empty_set) _ _ _ _ _ Hrun)).
  eexists (after_event _ s1), L1. split; [reflexivity|].
  split; [by apply store_events_event, store_only_events|]. split; [by apply (ledger_of_ext s1)|].
  split; [|done]. eapply sound_ext; [|exact Hs1]. intros d. unfold plus, delta.
  destruct (decide (denomination u = d)) as [<-|Hne].
  - rewrite lookup_insert_eq, Hr. simpl. lia.
  - rewrite lookup_insert_ne by done. lia.
Qed.

(** One address gets one share of every denomination. *)
Lemma disburse_shares_run h L s a pf us :
  ledger_of s L → sound (plus h pf) L → NoDup (denomination <$> us) →
  (∀ u, u ∈ us → ∃ r, pf !! denomination u = Some r ∧ (amount u ≤ r)%N) →
  ∃ s' L' pf', fold_m us pf (disburse_one a) s = (Ok pf', s') ∧
    store_events_only s s' ∧ ledger_of s' L' ∧ sound (plus h pf') L' ∧
    (∀ d, pf' !! d = (λ r, (r - deltas us d)%N) <$> pf !! d) ∧
    grows L L' (λ a' d, if decide (a = a') then deltas us d else 0%N).
Proof.
  revert s L pf. induction us as [|u us IH]; intros s L pf Hl Hs Hnd Hr.
  - exists s, L, pf. split; [done|]. split.
    { by eapply store_only_events, ledger_store_only. }
    split; [done|]. split; [done|]. split.
    + intros d. destruct (pf !! d) as [r|]; simpl; [|done]. unfold deltas. simpl. by rewrite N.sub_0_r.
    + split; [done|]. intros a' d. unfold deltas. simpl. case_decide; lia.
  - rewrite fmap_cons in Hnd. apply NoDup_cons in Hnd as [Hni Hnd].
    destruct (Hr u ltac:(left)) as (r & Hru & Hle).
    destruct (disburse_one_run h L s a pf u r Hl Hs Hru Hle) as (s1 & L1 & Hrun & Hst & Hl1 & Hs1 & Hg).
    destruct (IH s1 L1 _ Hl1 Hs1 Hnd) as (s' & L' & pf' & Hrun' & Hst' & Hl' & Hs' & Hpf' & Hg').
    { intros u' Hu'. destruct (Hr u' ltac:(by right)) as (r' & Hr' & Hle').
      exists r'. rewrite lookup_insert_ne; [done|]. intros Heq. apply Hni. rewrite Heq.
      by apply list_elem_of_fmap_2. }
    exists s', L', pf'. cbn [fold_m]. rewrite (bind_ok _ _ _ _ _ Hrun).
    split; [done|]. split; [by eapply store_events_trans|]. do 2 (split; [done|]). split.
    + intros d. rewrite Hpf'. unfold deltas. simpl. unfold delta at 2.
      destruct (decide (denomination u = d)) as [<-|Hne].
      * rewrite lookup_insert_eq, Hru. simpl. f_equal; lia.
      * rewrite lookup_insert_ne by done. destruct (pf !! d); simpl; [|done]. f_equal; lia.
    + destruct (grows_trans _ _ _ _ _ Hg Hg') as [? Hgg]. split; [done|]. intros a' d.
      rewrite Hgg. unfold deltas. simpl. case_decide; lia.
Qed.

Lemma deltas_notin us d : d ∉ denomination <$> us → deltas us d = 0%N.
Proof.
  induction us as [|u us IH]; [done|]. rewrite fmap_cons. intros [Hne Hni]%not_elem_of_cons.
  unfold deltas in *. simpl. rewrite IH by done. unfold delta. by rewrite decide_False by congruence.
Qed.
Lemma deltas_at us u : NoDup (denomination <$> us) → u ∈ us → deltas us (denomination u) = amount u.
Proof.
  induction us as [|v us IH]; [by intros _ ?%not_elem_of_nil|].
  rewrite fmap_cons. intros [Hni Hnd]%NoDup_cons [->|Hu]%elem_of_cons; unfold deltas; simpl; unfold delta at 1.
  - rewrite decide_True by done. fold (deltas us (denomination v)). rewrite deltas_notin by done. lia.
  - rewrite decide_False; [unfold deltas in IH; by rewrite IH|].
    intros Heq. apply Hni. rewrite Heq. by apply list_elem_of_fmap_2.
Qed.

Lemma disburse_loop_run h L s addrs pf us :
  ledger_of s L → sound (plus h pf) L → NoDup (denomination <$> us) →
  (∀ u, u ∈ us → ∃ r, pf !! denomination u = Some r ∧ (N.of_nat (length addrs) * amount u ≤ r)%N) →
  ∃ s' L' pf', fold_m addrs pf (λ pf address, fold_m us pf (disburse_one address)) s = (Ok pf', s') ∧
    store_events_only s s' ∧ ledger_of s' L' ∧ sound (plus h pf') L' ∧
    (∀ d, pf' !! d = (λ r, (r - N.of_nat (length addrs) * deltas us d)%N) <$> pf !! d) ∧
    grows L L' (λ a d, (occurrences a addrs * deltas us d)%N).
Proof.
  intros Hl Hs Hnd. revert s L pf Hl Hs. induction addrs as [|a addrs IH]; intros s L pf Hl Hs Hr.
  - exists s, L, pf. split; [done|]. split.
    { by eapply store_only_events, ledger_store_only. }
    split; [done|]. split; [done|]. split.
    + intros d. destruct (pf !! d) as [r|]; simpl; [|done]. by rewrite N.sub_0_r.
    + split; [done|]. intros a d. unfold occurrences. simpl. lia.
  - destruct (disburse_shares_run h L s a pf us Hl Hs Hnd)
      as (s1 & L1 & pf1 & Hrun & Hst & Hl1 & Hs1 & Hpf1 & Hg).
    { intros u Hu. destruct (Hr u Hu) as (r & ? & Hle). exists r. split; [done|].
      rewrite length_cons in Hle. nia. }
    destruct (IH s1 L1 pf1 Hl1 Hs1) as (s' & L' & pf' & Hrun' & Hst' & Hl' & Hs' & Hpf' & Hg').
    { intros u Hu. destruct (Hr u Hu) as (r & Hru & Hle). rewrite length_cons in Hle.
      pose proof (deltas_at us u Hnd Hu) as Hd.
      exists (r - amount u)%N. rewrite Hpf1, Hru. simpl. rewrite Hd. split; [done|]. nia. }
    exists s', L', pf'. cbn [fold_m]. rewrite (bind_ok _ _ _ _ _ Hrun).
    split; [done|]. split; [by eapply store_events_trans|]. do 2 (split; [done|]). split.
    + intros d. rewrite Hpf', Hpf1. destruct (pf !! d); simpl; [|done]. f_equal; lia.
    + destruct (grows_trans _ _ _ _ _ Hg Hg') as [? Hgg]. split; [done|]. intros a' d.
      rewrite Hgg. unfold occurrences. simpl. case_decide; lia.
Qed.

(** ** Shares *)

Definition share (n : N) (x : Denomination * N) : option BaseUnits :=
  let s := (x.2 / n)%N in if (s =? 0)%N then None else Some (BaseUnits_new s x.1).
Lemma fee_shares_omap n pf : fee_shares n pf = omap (share n) (denom_iter pf).
Proof.
  unfold fee_shares. induction (denom_iter pf) as [|[d x] l IH]; [done|].
  cbn [omap list_omap]. unfold share at 1. cbn [fst snd]. by rewrite <-IH.
Qed.

Lemma omap_share_denoms n l d : d ∈ denomination <$> omap (share n) l → d ∈ l.*1.
Proof.
  intros (u & -> & ([d' x] & Hin & Hu)%list_elem_of_omap)%list_elem_of_fmap.
  unfold share in Hu. simpl in Hu. case_match; simplify_eq/=.
  apply list_elem_of_fmap. by exists (d', x).
Qed.
Lemma shares_nodup n l : NoDup l.*1 → NoDup (denomination <$> omap (share n) l).
Proof.
  induction l as [|[d x] l IH]; [constructor|]. rewrite fmap_cons. intros [Hni Hnd]%NoDup_cons. simpl.
  destruct (share n (d, x)) as [u|] eqn:Hu; [|by apply IH]. rewrite fmap_cons. constructor; [|by apply IH].
  unfold share in Hu. simpl in Hu. case_match; simplify_eq/=. by intros ?%omap_share_denoms.
Qed.
Lemma shares_deltas n l d :
  NoDup l.*1 → deltas (omap (share n) l) d = (list_sum (entry_amount d) l / n)%N.
Proof.
  induction l as [|[d' x] l IH]; intros Hnd.
  { unfold deltas. simpl. by rewrite N.Div0.div_0_l. }
  rewrite fmap_cons in Hnd. apply NoDup_cons in Hnd as [Hni Hnd]. simpl.
  unfold entry_amount at 1. simpl. destruct (decide (d' = d)) as [->|Hne].
  - rewrite (entries_sum_notin d) by done. rewrite N.add_0_r.
    assert (Hz : deltas (omap (share n) l) d = 0%N).
    { apply deltas_notin. by intros ?%omap_share_denoms. }
    unfold share at 1. simpl. destruct (N.eqb_spec (x / n) 0) as [->|]; [done|].
    rewrite deltas_cons, (Hz : deltas (list_omap _ _ _ _) d = _). unfold delta. simpl.
    rewrite decide_True by done. lia.
  - rewrite N.add_0_l, <-IH by done. unfold share at 1. simpl. destruct (x / n =? 0)%N; [done|].
    rewrite deltas_cons. unfold delta. simpl. by rewrite decide_False.
Qed.

Lemma disburse_fees_nonempty addrs pf0 :
  addrs ≠ [] →
  disburse_fees addrs pf0 = fold_m addrs pf0 (λ pf address,
    fold_m (fee_shares (N.of_nat (length addrs)) pf0) pf (disburse_one address)).
Proof. by destruct addrs. Qed.

Lemma disburse_fees_run h L s addrs pf :
  ledger_of s L → sound (plus h pf) L →
  let n := N.of_nat (length addrs) in
  ∃ s' L' pf', disburse_fees addrs pf s = (Ok pf', s') ∧ store_events_only s s' ∧ ledger_of s' L' ∧
    sound (plus h pf') L' ∧ (∀ d, default 0 (pf' !! d) = default 0 (pf !! d) mod n)%N ∧
    grows L L' (λ a d, (occurrences a addrs * (default 0 (pf !! d) / n))%N).
Proof.
  intros Hl Hs n. destruct (decide (addrs = [])) as [->|Hne].
  - exists s, L, pf. split; [done|]. split; [by eapply store_only_events, ledger_store_only|].
    do 2 (split; [done|]). split; [intros d; by destruct (pf !! d) as [[]|]|].
    split; [done|]. intros a d. unfold occurrences. simpl. lia.
  - rewrite (disburse_fees_nonempty addrs pf Hne), fee_shares_omap. fold n.
    set (us := omap (share n) (denom_iter pf)).
    assert (Hd : ∀ d, deltas us d = (default 0 (pf !! d) / n)%N).
    { intros d. unfold us. rewrite shares_deltas by apply denom_iter_nodup. by rewrite denom_iter_sum. }
    destruct (disburse_loop_run h L s addrs pf us Hl Hs)
      as (s' & L' & pf' & Hrun & Hst & Hl' & Hs' & Hpf' & Hg).
    + apply shares_nodup, denom_iter_nodup.
    + intros u Hu. apply list_elem_of_omap in Hu as ([d x] & Hin%elem_of_denom_iter & Hu).
      unfold share in Hu. cbn [fst snd] in Hu. destruct (x / n =? 0)%N; simplify_eq/=.
      exists x. split; [done|]. apply N.Div0.mul_div_le.
    + exists s', L', pf'. split; [done|]. do 3 (split; [done|]). split.
      * intros d. rewrite Hpf', Hd. fold n. destruct (pf !! d) as [x|]; simpl; [|by destruct n].
        by rewrite N.Div0.mod_eq.
      * destruct Hg as [? Hg]. split; [done|]. intros a d. by rewrite Hg, Hd.
Qed.

(** ** Crediting one account from a map *)

Lemma credit_loop acc (body : Denomination * N → M Empty_set unit) h L s l :
  (∀ h L s d x, ledger_of s L → sound h L → (x ≤ h d)%N →
     ∃ s' L', body (d, x) s = (Ok tt, s') ∧ store_events_only s s' ∧ ledger_of s' L' ∧
       sound (λ d', h d' - entry_amount d' (d, x))%N L' ∧
       grows L L' (λ a d', if decide (acc = a) then entry_amount d' (d, x) else 0%N)) →
  ledger_of s L → sound h L → (∀ d, list_sum (entry_amount d) l ≤ h d)%N →
  ∃ s' L', for_each l body s = (Ok tt, s') ∧ store_events_only s s' ∧ ledger_of s' L' ∧
    sound (λ d, h d - list_sum (entry_amount d) l)%N L' ∧
    grows L L' (λ a d, if decide (acc = a) then list_sum (entry_amount d) l else 0%N).
Proof.
  intros Hbody. revert h L s. induction l as [|[d x] l IH]; intros h L s Hl Hs Hle.
  - exists s, L. split; [done|]. split; [by eapply store_only_events, ledger_store_only|].
    split; [done|]. split.
    + eapply sound_ext; [|exact Hs]. intros d. simpl. lia.
    + split; [done|]. intros a d. simpl. case_decide; lia.
  - destruct (Hbody h L s d x Hl Hs) as (s1 & L1 & Hrun & Hst & Hl1 & Hs1 & Hg).
    { specialize (Hle d). simpl in Hle. unfold entry_amount at 1 in Hle. simpl in Hle.
      rewrite decide_True in Hle by done. lia. }
    destruct (IH _ L1 s1 Hl1 Hs1) as (s' & L' & Hrun' & Hst' & Hl' & Hs' & Hg').
    { intros d'. specialize (Hle d'). simpl in Hle. lia. }
    exists s', L'. cbn [for_each]. rewrite (bind_ok _ _ _ _ _ Hrun).
    split; [done|]. split; [by eapply store_events_trans|]. split; [done|]. split.
    + eapply sound_ext; [|exact Hs']. intros d'. simpl. lia.
    + destruct (grows_trans _ _ _ _ _ Hg Hg') as [? Hgg]. split; [done|]. intros a d'.
      rewrite Hgg. simpl. case_decide; lia.
Qed.

Lemma pool_body h L s d x :
  ledger_of s L → sound h L → (x ≤ h d)%N →
  ∃ s' L', (if (x =? 0)%N then mret tt
            else unwrap_or_panic "add_amount must succeed for transfer to common pool"
                   (add_amount ADDRESS_COMMON_POOL (BaseUnits_new x d)) ;;
                 emit_event (E := Empty_set)
                   (EvTransfer ADDRESS_FEE_ACCUMULATOR ADDRESS_COMMON_POOL (BaseUnits_new x d))) s
           = (Ok tt, s') ∧ store_events_only s s' ∧ ledger_of s' L' ∧
    sound (λ d', h d' - entry_amount d' (d, x))%N L' ∧
    grows L L' (λ a d', if decide (ADDRESS_COMMON_POOL = a) then entry_amount d' (d, x) else 0%N).
Proof.
  intros Hl Hs Hle. destruct (N.eqb_spec x 0) as [->|].
  - exists s, L. split; [done|]. split; [by eapply store_only_events, ledger_store_only|].
    split; [done|]. unfold entry_amount. simpl. split.
    + eapply sound_ext; [|exact Hs]. intros d'. simpl. case_decide; lia.
    + split; [done|]. intros a d'. repeat case_decide; lia.
  - destruct (credit_run h L s ADDRESS_COMMON_POOL (BaseUnits_new x d) Hl Hs Hle)
      as (s1 & L1 & Hrun & Hst & Hl1 & Hs1 & Hg).
    rewrite (bind_ok _ _ _ _ _ (unwrap_ok _ _ _ _ _ Hrun)). eexists (after_event _ s1), L1.
    split; [reflexivity|]. split; [by apply store_events_event, store_only_events|].
    split; [by apply (ledger_of_ext s1)|]. done.
Qed.

Lemma collect_body h L s d x :
  ledger_of s L → sound h L → (x ≤ h d)%N →
  ∃ s' L', unwrap_or_panic (E' := Empty_set) "add_amount must succeed for transfer to fee accumulator"
             (add_amount ADDRESS_FEE_ACCUMULATOR (BaseUnits_new x d)) s = (Ok tt, s') ∧
    store_events_only s s' ∧ ledger_of s' L' ∧
    sound (λ d', h d' - entry_amount d' (d, x))%N L' ∧
    grows L L' (λ a d', if decide (ADDRESS_FEE_ACCUMULATOR = a) then entry_amount d' (d, x) else 0%N).
Proof.
  intros Hl Hs Hle.
  destruct (credit_run h L s ADDRESS_FEE_ACCUMULATOR (BaseUnits_new x d) Hl Hs Hle)
    as (s1 & L1 & Hrun & Hst & Hl1 & Hs1 & Hg).
  exists s1, L1. split; [by apply unwrap_ok|]. split; [by apply store_only_events|]. done.
Qed.

(** ** The block handler *)

(** What the fee manager of the block, if any, holds; no transaction is in progress. *)
Definition block_fees (mgr : option FeeManager) (d : Denomination) : N :=
  default 0%N (commit_block (default fee_manager_new mgr) !! d).

Lemma holds_value_store_events {V} `{!AnyVal V} sc key s s' (o : option V) :
  store_events_only s s' → holds_value sc key s o → holds_value sc key s' o.
Proof. intros (st & ev & ->). by destruct sc. Qed.

Lemma ledger_drop_value key s L (mgr : option FeeManager) :
  ledger_of s L → ledger_of (match mgr with
                             | Some _ => set_values Block (delete key (values Block s)) s
                             | None => s
                             end) L.
Proof. intros Hl. destruct mgr; [|done]. by apply (ledger_of_ext s). Qed.

Lemma drain_fees_run h L s :
  ledger_of s L → sound h L →
  let pf := account_map L ADDRESS_FEE_ACCUMULATOR in
  ∃ s' L', drain_fees pf s = (Ok tt, s') ∧ store_events_only s s' ∧ ledger_of s' L' ∧
    supply L' = supply L ∧ sound (plus h pf) L' ∧
    ∀ a d, balance L' a d = if decide (ADDRESS_FEE_ACCUMULATOR = a) then 0%N else balance L a d.
Proof.
  intros Hl Hs pf.
  destruct (drain_loop ADDRESS_FEE_ACCUMULATOR h L s (denom_iter pf))
    as (s' & L' & Hrun & Hst & Hl' & Hsup & Hs' & Hb); try done.
  - apply denom_iter_nodup.
  - intros d x Hin%elem_of_denom_iter. unfold pf in Hin. rewrite account_map_lookup in Hin.
    unfold balance. by rewrite Hin.
  - exists s', L'. split; [done|]. split; [by apply store_only_events|]. do 2 (split; [done|]). split.
    + eapply sound_ext; [|exact Hs']. intros d. unfold plus. by rewrite denom_iter_sum.
    + intros a d. specialize (Hb a d). rewrite denom_iter_sum in Hb. unfold pf in Hb.
      rewrite account_map_lookup in Hb. case_decide; subst; [|lia]. unfold balance in *. lia.
Qed.

Lemma collect_block_fees_run h L s mgr :
  ledger_of s L → sound h L → (∀ d, block_fees mgr d ≤ h d)%N →
  holds_value Block CONTEXT_KEY_FEE_MANAGER s mgr →
  ∃ s' L', collect_block_fees s = (Ok tt, s') ∧ ledger_of s' L' ∧
    holds_value Block CONTEXT_KEY_FEE_MANAGER s' (None : option FeeManager) ∧ st_env s' = st_env s ∧
    sound (λ d, h d - block_fees mgr d)%N L' ∧
    grows L L' (λ a d, if decide (ADDRESS_FEE_ACCUMULATOR = a) then block_fees mgr d else 0%N).
Proof.
  intros Hl Hs Hle Hv. unfold collect_block_fees.
  rewrite (bind_ok _ _ _ _ _ (value_take_run (E := Empty_set) _ _ _ _ Hv)).
  destruct (credit_loop ADDRESS_FEE_ACCUMULATOR (λ '(denom, a),
      unwrap_or_panic "add_amount must succeed for transfer to fee accumulator"
        (add_amount ADDRESS_FEE_ACCUMULATOR (BaseUnits_new a denom))) h L _
      (denom_iter (commit_block (default fee_manager_new mgr)))
      (λ h L s d x, collect_body h L s d x) (ledger_drop_value CONTEXT_KEY_FEE_MANAGER _ _ mgr Hl) Hs)
    as (s' & L' & Hrun & He & Hl' & Hs' & Hg).
  { intros d. rewrite denom_iter_sum. apply Hle. }
  exists s', L'. split; [exact Hrun|]. split; [done|]. split; [|split].
  { eapply holds_value_store_events; [exact He|]. destruct mgr; [|done]. unfold holds_value. simpl.
    by rewrite lookup_delete_eq. }
  { destruct He as (st & ev & ->). by destruct mgr. }
  split.
  - eapply sound_ext; [|exact Hs']. intros d. simpl. by rewrite denom_iter_sum.
  - destruct Hg as [? Hg]. split; [done|]. intros a d. rewrite Hg. by rewrite denom_iter_sum.
Qed.

Lemma remainder_to_pool_run h L s pf :
  ledger_of s L → sound (plus h pf) L →
  ∃ s' L', remainder_to_pool pf s = (Ok tt, s') ∧ store_events_only s s' ∧ ledger_of s' L' ∧ sound h L' ∧
    grows L L' (λ a d, if decide (ADDRESS_COMMON_POOL = a) then default 0%N (pf !! d) else 0%N).
Proof.
  intros Hl Hs.
  destruct (credit_loop ADDRESS_COMMON_POOL (λ '(denom, remainder),
      if (remainder =? 0)%N then mret tt
      else unwrap_or_panic "add_amount must succeed for transfer to common pool"
             (add_amount ADDRESS_COMMON_POOL (BaseUnits_new remainder denom)) ;;
           emit_event (EvTransfer ADDRESS_FEE_ACCUMULATOR ADDRESS_COMMON_POOL
                         (BaseUnits_new remainder denom))) (plus h pf) L s (denom_iter pf)
      (λ h L s d x, pool_body h L s d x) Hl Hs) as (s' & L' & Hrun & Hst & Hl' & Hs' & Hg).
  { intros d. rewrite denom_iter_sum. unfold plus. lia. }
  exists s', L'. split; [exact Hrun|]. do 2 (split; [done|]). split.
  - eapply sound_ext; [|exact Hs']. intros d. simpl. rewrite denom_iter_sum. unfold plus. lia.
  - destruct Hg as [? Hg]. split; [done|]. intros a d. rewrite Hg. by rewrite denom_iter_sum.
Qed.

(** The addresses of the entities of the committee that was in charge of the previous block. *)
Definition entity_addresses (ctx : Ctx) : list Address :=
  (λ pk, from_sigspec (SpecEd25519 pk)) <$> ctx_good_compute_entities ctx.

(** What an account holds after the block, given what it held before. *)
Definition settled (L : Ledger) (addrs : list Address) (mgr : option FeeManager)
    (a : Address) (d : Denomination) : N :=
  let previous := balance L ADDRESS_FEE_ACCUMULATOR d in
  let n := N.of_nat (length addrs) in
  ((if decide (ADDRESS_FEE_ACCUMULATOR = a) then block_fees mgr d else balance L a d) +
   occurrences a addrs * (previous / n) +
   (if decide (ADDRESS_COMMON_POOL = a) then previous mod n else 0))%N.

Lemma accounts_end_block_run ctx s L mgr :
  ledger_of s L → sound (block_fees mgr) L → holds_value Block CONTEXT_KEY_FEE_MANAGER s mgr →
  ∃ s' L', accounts_end_block ctx s = (Ok tt, s') ∧ ledger_of s' L' ∧
    holds_value Block CONTEXT_KEY_FEE_MANAGER s' (None : option FeeManager) ∧ st_env s' = st_env s ∧
    supply L' = supply L ∧ sound (λ _, 0%N) L' ∧
    ∀ a d, balance L' a d = settled L (entity_addresses ctx) mgr a d.
Proof.
  intros Hl Hs Hv. unfold accounts_end_block. fold (entity_addresses ctx).
  rewrite (bind_ok _ _ _ _ _ (get_balances_run (E := Empty_set) _ _ _ Hl)).
  destruct (drain_fees_run _ L s Hl Hs) as (s1 & L1 & Hr1 & He1 & Hl1 & Hsup1 & Hs1 & Hb1).
  rewrite (bind_ok _ _ _ _ _ Hr1).
  destruct (disburse_fees_run _ L1 s1 (entity_addresses ctx) _ Hl1 Hs1)
    as (s2 & L2 & pf & Hr2 & He2 & Hl2 & Hs2 & Hpf & [Hsup2 Hb2]).
  rewrite (bind_ok _ _ _ _ _ Hr2).
  destruct (remainder_to_pool_run _ L2 s2 pf Hl2 Hs2) as (s3 & L3 & Hr3 & He3 & Hl3 & Hs3 & [Hsup3 Hb3]).
  rewrite (bind_ok _ _ _ _ _ Hr3).
  destruct (collect_block_fees_run _ L3 s3 mgr Hl3 Hs3) as (s4 & L4 & Hr4 & Hl4 & Hv4 & He4 & Hs4 & [Hsup4 Hb4]).
  { intros d. done. }
  { by do 3 (eapply holds_value_store_events; [eassumption|]). }
  exists s4, L4. split; [done|]. split; [done|]. split; [done|]. split.
  { destruct He1 as (? & ? & ->), He2 as (? & ? & ->), He3 as (? & ? & ->). done. }
  split; [congruence|]. split.
  - eapply sound_ext; [|exact Hs4]. intros d. simpl. lia.
  - intros a d. rewrite Hb4, Hb3, Hb2, Hb1, Hpf, account_map_lookup.
    fold (balance L ADDRESS_FEE_ACCUMULATOR d). unfold settled. repeat case_decide; lia.
Qed.
End disbursement.

Module EndBlock.
Section claims.
Context `{Platform} `{!MKVSLaws} `{!AccountsCodec} `{!AccountsCodecLaws}.

(** C3. At the end of a block in which all tokens are accounted for, [end_block] succeeds and moves
    exactly the fees: the accumulator is drained of the fees of the previous block, which are split
    into equal shares, rounded down, one for each occurrence of an entity among the good compute
    entities; the remainder goes to the common pool; the fees of this block are collected into the
    accumulator. No other balance and no supply changes, and afterwards the balances alone account for
    all tokens. *)
Theorem end_block_disburses ctx s L mgr :
  ledger_of s L → sound (block_fees mgr) L → holds_value Block CONTEXT_KEY_FEE_MANAGER s mgr →
  ∃ s' L', accounts_end_block ctx s = (Ok tt, s') ∧ ledger_of s' L' ∧
    supply L' = supply L ∧ sound (λ _, 0%N) L' ∧
    ∀ a d, balance L' a d = settled L (entity_addresses ctx) mgr a d.
Proof.
  intros Hl Hs Hv.
  destruct (accounts_end_block_run ctx s L mgr Hl Hs Hv) as (s' & L' & Hrun & Hl' & _ & _ & Hsup & Hs' & Hb).
  by exists s', L'.
Qed.
End claims.
End EndBlock.
