(* ===== verification/Tokens.v ===== *)
(** Conservation of tokens across the operations of the accounts module: each operation on every
    branch, and the invariant that all tokens are accounted for along any sequence of operations
    (src/runtime-sdk/src/modules/accounts/mod.rs). *)
From S2P Require Import Prelude Storage StoreIter Types Fee Errors State Current Transactions Module.
From S2P Require Import Core Accounts Ledger Accounting Nonces Disbursement.

(** * The invariant *)

Section invariant.
Context `{Platform} `{!MKVSLaws} `{!AccountsCodec} `{!AccountsCodecLaws}.

(** The fee manager of the block. *)
Definition manager_of (s : State) (mgr : FeeManager) : Prop :=
  ∃ o : option FeeManager, holds_value Block CONTEXT_KEY_FEE_MANAGER s o ∧ mgr = default fee_manager_new o.

(** All tokens are accounted for, outside of checks: the state holds a ledger and a fee manager,
    and the balances together with what the manager holds sum up to the supplies. *)
Record accounted (s : State) (L : Ledger) (mgr : FeeManager) : Prop := {
  ac_mode : is_check_only (st_env s) = false;
  ac_ledger : ledger_of s L;
  ac_manager : manager_of s mgr;
  ac_wf : fee_wf mgr;
  ac_sound : sound (held mgr) L;
}.

Lemma held_bounded s L mgr d : accounted s L mgr → (held mgr d ≤ u128_max)%N.
Proof.
  intros Hac. pose proof (ac_sound _ _ _ Hac d). pose proof (supply_bounded s L d (ac_ledger _ _ _ Hac)).
  lia.
Qed.

Lemma manager_of_ext s s' mgr : st_block_values s' = st_block_values s → manager_of s mgr → manager_of s' mgr.
Proof. intros Heq (o & Ho & ->). exists o. split; [|done]. unfold holds_value in *. simpl in *. by rewrite Heq. Qed.

Lemma accounted_ledger s s' L L' mgr :
  accounted s L mgr → store_events_only s s' → ledger_of s' L' → sound (held mgr) L' → accounted s' L' mgr.
Proof.
  intros [Hm Hl Hmgr Hwf Hs] (st & ev & ->) Hl' Hs'. by split.
Qed.

Lemma manager_of_set s mgr :
  manager_of (set_values Block (<[CONTEXT_KEY_FEE_MANAGER := any_in mgr]> (values Block s)) s) mgr.
Proof. exists (Some mgr). split; [apply holds_value_set|done]. Qed.

(** Updating the fee manager. *)
Lemma with_fee_manager_run {E A} (f : ST FeeManager Empty_set A) s mgr a mgr' :
  manager_of s mgr → f mgr = (Ok a, mgr') →
  ∃ s', with_fee_manager (E := E) f s = (Ok a, s') ∧ manager_of s' mgr' ∧
    st_store s' = st_store s ∧ st_env s' = st_env s ∧ st_events s' = st_events s.
Proof.
  intros (o & Ho & ->) Hf. unfold with_fee_manager.
  rewrite (bind_ok _ _ _ _ _ (value_or_default_run (E := E) _ _ _ _ Ho)).
  change (any_default (V := FeeManager)) with fee_manager_new. rewrite Hf. run_simpl.
  eexists. split; [reflexivity|]. split.
  - apply manager_of_set.
  - by destruct o.
Qed.
Lemma with_fee_manager_panic {E A} (f : ST FeeManager Empty_set A) s mgr msg mgr' :
  manager_of s mgr → f mgr = (Panic msg, mgr') → (with_fee_manager (E := E) f s).1 = Panic msg.
Proof.
  intros (o & Ho & ->) Hf. unfold with_fee_manager.
  rewrite (bind_ok _ _ _ _ _ (value_or_default_run (E := E) _ _ _ _ Ho)).
  change (any_default (V := FeeManager)) with fee_manager_new. by rewrite Hf.
Qed.
End invariant.

(** * Fees *)

Create HintDb quiet discriminated.

Section fees.
Context `{Platform} `{!MKVSLaws} `{!AccountsCodec} `{!AccountsCodecLaws}.
Context `{!CoreCodec} `{!CoreConfig}.

(** What the gas accounting leaves alone: the store, the environment and the fee manager. *)
Definition untouched (s s' : State) : Prop :=
  st_store s' = st_store s ∧ st_env s' = st_env s ∧
  st_block_values s' !! CONTEXT_KEY_FEE_MANAGER = st_block_values s !! CONTEXT_KEY_FEE_MANAGER.
Definition quiet {E A} (m : M E A) : Prop := ∀ s, untouched s (m s).2.

Lemma untouched_trans s1 s2 s3 : untouched s1 s2 → untouched s2 s3 → untouched s1 s3.
Proof. intros (? & ? & ?) (? & ? & ?). repeat split; congruence. Qed.
Lemma quiet_bind {E A B} (m : M E A) (f : A → M E B) : quiet m → (∀ a, quiet (f a)) → quiet (m ≫= f).
Proof.
  intros Hm Hf s. specialize (Hm s). run_simpl. destruct (m s) as [[a|e|p] s1]; simpl in *; [|done..].
  by eapply untouched_trans, Hf.
Qed.
Lemma quiet_same {E A} (m : M E A) : (∀ s, (m s).2 = s) → quiet m.
Proof. intros Hm s. by rewrite Hm. Qed.
Lemma quiet_value_or_default {E V} `{!AnyVal V} sc key :
  key ≠ CONTEXT_KEY_FEE_MANAGER → quiet (value_or_default (E := E) (V := V) sc key).
Proof.
  intros Hne s. unfold value_or_default, downcast, value_set. run_simpl.
  case_match; [by case_match|]. destruct sc; [|done].
  split; [done|]. split; [done|]. simpl. by rewrite lookup_insert_ne.
Qed.
Lemma quiet_value_take {E V} `{!AnyVal V} sc key :
  key ≠ CONTEXT_KEY_FEE_MANAGER → quiet (value_take (E := E) (V := V) sc key).
Proof.
  intros Hne s. unfold value_take, downcast. run_simpl.
  destruct sc; repeat case_match; simplify_eq/=; try done;
    (split; [done|]; split; [done|]; simpl; by rewrite lookup_delete_ne).
Qed.
Lemma quiet_value_get {E V} `{!AnyVal V} sc key : quiet (value_get (E := E) (V := V) sc key).
Proof. apply quiet_same. intros s. unfold value_get, downcast. run_simpl. case_run. Qed.
Lemma quiet_typed_get {E T} `{!Cbor T} r key : quiet (typed_get (E := E) r key).
Proof. apply quiet_same. intros s. unfold typed_get, store. run_simpl. case_run. Qed.
Lemma quiet_ret {E A} (a : A) : quiet (mret (M := M E) a).
Proof. by apply quiet_same. Qed.
Lemma quiet_with_env {E A} (f : Environment → A) : quiet (with_env (E := E) f).
Proof. by apply quiet_same. Qed.
Lemma quiet_with_tx_env {E A} (f : Environment → option A) : quiet (with_tx_env (E := E) f).
Proof. apply quiet_same. intros s. unfold with_tx_env. run_simpl. case_run. Qed.

Hint Resolve quiet_value_or_default quiet_value_take quiet_value_get quiet_typed_get
  quiet_ret quiet_with_env quiet_with_tx_env : quiet.
Hint Extern 1 (_ ≠ CONTEXT_KEY_FEE_MANAGER) => discriminate : quiet.
Ltac solve_quiet :=
  repeat match goal with
         | |- quiet (_ ≫= _) => apply quiet_bind; [|intros ?]
         | |- quiet (match ?b with _ => _ end) => destruct b
         | |- quiet _ => solve [auto 2 with quiet nocore]
         end.

Lemma quiet_remaining_tx_gas {E} : quiet (remaining_tx_gas (E := E)).
Proof. unfold remaining_tx_gas, remaining_batch_gas, used_batch_gas, core_params, params. solve_quiet. Qed.
Hint Resolve quiet_remaining_tx_gas : quiet.
Lemma quiet_take_refund_unused {E} : quiet (take_refund_unused_tx_fee (E := E)).
Proof. unfold take_refund_unused_tx_fee. solve_quiet. Qed.

Lemma manager_of_untouched s s' mgr : untouched s s' → manager_of s mgr → manager_of s' mgr.
Proof.
  intros (_ & _ & Hv) (o & Ho & ->). exists o. split; [|done]. unfold holds_value in *. simpl in *.
  by rewrite Hv.
Qed.

(** Charging a fee: when it succeeds, the payer is debited and the manager holds the fee. *)
Lemma charge_tx_fee_ok s L mgr from u s' :
  accounted s L mgr → charge_tx_fee from u s = (Ok tt, s') → ∃ L' mgr', accounted s' L' mgr'.
Proof.
  intros Hac. destruct Hac as [Hm Hl Hmgr Hwf Hs] eqn:E. unfold charge_tx_fee. rewrite with_env_bind.
  destruct (is_simulation (st_env s)); [intros [= <-]; by exists L, mgr|]. intros Hrun.
  destruct (spec_sub from u L) as [e|L1] eqn:Hsub.
  { rewrite (bind_err _ _ _ _ _ (map_err_err _ _ _ _ _
      (refines_err _ _ _ _ _ (sub_amount_refines from u) Hl Hsub))) in Hrun. done. }
  destruct (refines_ok _ _ _ _ _ (sub_amount_refines from u) Hl Hsub) as (s1 & Hr1 & [st ->] & Hl1).
  rewrite (bind_ok _ _ _ _ _ (map_err_ok _ _ _ _ _ Hr1)) in Hrun.
  pose proof (λ d, spec_sub_total from u L L1 d Hsub) as Ht.
  assert (Hmgr1 : manager_of (set_store (Some st) s) mgr) by done.
  destruct (record_fee from u mgr) as [[[]|[]|msg] mgr'] eqn:Hrec; last first.
  { pose proof (with_fee_manager_panic (E := CoreError) _ _ _ _ _ Hmgr1 Hrec) as Hp.
    by rewrite Hrun in Hp. }
  destruct (with_fee_manager_run (E := CoreError) _ _ _ _ _ Hmgr1 Hrec)
    as (s2 & Hr2 & Hmgr2 & Hst2 & Henv2 & _). rewrite Hr2 in Hrun. simplify_eq.
  destruct (record_fee_ok from u mgr) as (mgr2 & Hrec' & Hheld & _).
  { intros t Htx. apply (record_fee_same _ _ mgr); [by rewrite Hrec|done]. }
  { destruct (Ht (denomination u)) as [Htot _]. pose proof (Hs (denomination u)).
    pose proof (supply_bounded s L (denomination u) Hl). unfold delta in Htot.
    rewrite decide_True in Htot by done. lia. }
  rewrite Hrec in Hrec'. simplify_eq. exists L1, mgr2. split.
  - by rewrite Henv2.
  - by apply (ledger_of_ext (set_store (Some st) s)).
  - done.
  - pose proof (record_fee_wf from u mgr Hwf) as Hw. by rewrite Hrec in Hw.
  - intros d. rewrite Hheld. destruct (Ht d) as [Htot Hsup]. rewrite (supply_of_supply L L1) by done.
    pose proof (Hs d). unfold delta in Htot. lia.
Qed.

(** Recording the refund after a call moves nothing. *)
Lemma accounts_after_handle_call_ok ctx res s L mgr s' :
  accounted s L mgr → accounts_after_handle_call ctx res s = (Ok tt, s') →
  ∃ x, accounted s' L (record_refund x mgr).
Proof.
  intros [Hm Hl Hmgr Hwf Hs] Hrun. unfold accounts_after_handle_call in Hrun.
  apply bind_ok_inv in Hrun as (refund & s1 & Hr1 & Hrun).
  apply bind_ok_inv in Hrun as (x & s2 & Hr2 & Hrun).
  assert (Hu1 : untouched s s1) by (pose proof (quiet_take_refund_unused (E := CoreError) s) as Hq; by rewrite Hr1 in Hq).
  assert (Hu2 : untouched s1 s2).
  { assert (Hq : quiet (if refund : bool then
                  remaining_gas ← remaining_tx_gas;
                  fee ← with_tx_env (λ e, ai_fee <$> env_tx_auth_info e);
                  mret (saturating_mul u128_max (gas_price fee) remaining_gas)
                else mret 0%N : M CoreError N)).
    { solve_quiet. }
    specialize (Hq s1). by rewrite Hr2 in Hq. }
  pose proof (untouched_trans _ _ _ Hu1 Hu2) as Hu. exists x.
  destruct (manager_of_untouched _ _ _ Hu Hmgr) as (o & Ho & ->).
  rewrite (bind_ok _ _ _ _ _ (value_or_default_run (E := CoreError) _ _ _ _ Ho)) in Hrun.
  change (any_default (V := FeeManager)) with fee_manager_new in Hrun. destruct Hu as (Hst & Henv & _).
  assert (Hs' : st_store s' = st_store s ∧ st_env s' = st_env s ∧
                manager_of s' (record_refund x (default fee_manager_new o))).
  { rewrite <-Hst, <-Henv. revert Hrun. unfold value_set, emit_unconditional_event. run_simpl.
    set (s3 := match o with Some _ => s2 | None => _ end).
    assert (st_store s3 = st_store s2 ∧ st_env s3 = st_env s2) as [Hst3 Henv3] by (by unfold s3; destruct o).
    destruct (0 <? _)%N; intros [= <-]; rewrite <-Hst3, <-Henv3; (split; [done|]; split; [done|]);
      [eapply manager_of_ext; [|apply (manager_of_set s3)]; done|apply manager_of_set]. }
  destruct Hs' as (Hst' & Henv' & Hmgr'). split.
  - by rewrite Henv'.
  - by apply (ledger_of_ext s).
  - done.
  - by apply record_refund_wf.
  - intros d. by rewrite held_record_refund.
Qed.

(** Settling the fee of a transaction. *)
Lemma after_dispatch_run ctx ai res s L mgr :
  accounted s L mgr →
  ∃ s' L' mgr', accounts_after_dispatch_tx ctx ai res s = (Ok tt, s') ∧ accounted s' L' mgr' ∧
    fm_tx_fee mgr' = None ∧ supply L' = supply L ∧
    (∀ d, held mgr' d + delta (refund_due mgr) d = held mgr d)%N ∧
    ∀ a d, balance L' a d = (balance L a d +
      if decide (from_option tf_payer address_default (fm_tx_fee mgr) = a) then delta (refund_due mgr) d else 0)%N.
Proof.
  intros Hac. destruct (commit_tx_ok mgr (ac_wf _ _ _ Hac)) as (u & mgr' & Hc & Htx & Hp & Hmax & Hr & Hh).
  { intros d. by eapply held_bounded. }
  destruct (with_fee_manager_run (E := Empty_set) commit_tx s mgr u mgr' (ac_manager _ _ _ Hac) Hc)
    as (s1 & Hr1 & Hmgr1 & Hst1 & Henv1 & _).
  unfold accounts_after_dispatch_tx. rewrite (bind_ok _ _ _ _ _ Hr1).
  assert (Hl1 : ledger_of s1 L) by (by apply (ledger_of_ext s), Hac).
  rewrite Hp, Hr. rewrite Hr in Hh.
  destruct (credit_run (held mgr) L s1 (from_option tf_payer address_default (fm_tx_fee mgr)) (refund_due mgr)
    Hl1 (ac_sound _ _ _ Hac)) as (s2 & L' & Hr2 & [st ->] & Hl2 & Hs2 & [Hsup Hg]).
  { rewrite (Hh (denomination (refund_due mgr))), decide_True by done. lia. }
  rewrite (bind_ok _ _ _ _ _ (unwrap_ok _ _ _ _ _ Hr2)). rewrite with_env_bind. simpl. rewrite Henv1.
  rewrite (ac_mode _ _ _ Hac). simpl. eexists _, L', mgr'. split; [reflexivity|]. split.
  - split; try done; [by simpl; rewrite Henv1; apply (ac_mode _ _ _ Hac)|by unfold fee_wf; rewrite Htx|].
    eapply sound_ext; [|exact Hs2]. intros d. simpl. rewrite (Hh d). unfold delta. lia.
  - split; [done|]. split; [done|]. split; [|done]. intros d. by rewrite (Hh d).
Qed.
End fees.

(** * Sequences of operations

    The operations of the module that move tokens, as steps between states.  An operation that fails
    is rolled back by its transaction and is no step; the block handler runs between transactions. *)

Section steps.
Context `{Platform} `{!MKVSLaws} `{!AccountsCodec} `{!AccountsCodecLaws}.
Context `{!CoreCodec} `{!CoreConfig} `{!AccountsRuntime}.

Inductive step : State → State → Prop :=
  | step_transfer from to u s s' : transfer from to u s = (Ok tt, s') → step s s'
  | step_mint to u s s' : mint to u s = (Ok tt, s') → step s s'
  | step_burn from u s s' : burn from u s = (Ok tt, s') → step s s'
  | step_charge from u s s' : charge_tx_fee from u s = (Ok tt, s') → step s s'
  | step_nonces ai s s' : update_signer_nonces ai s = (Ok tt, s') → step s s'
  | step_after_handle_call ctx res s s' : accounts_after_handle_call ctx res s = (Ok tt, s') → step s s'
  | step_after_dispatch_tx ctx ai res s s' :
      accounts_after_dispatch_tx ctx ai res s = (Ok tt, s') → step s s'
  | step_end_block ctx s s' mgr :
      manager_of s mgr → fm_tx_fee mgr = None → accounts_end_block ctx s = (Ok tt, s') → step s s'.
Lemma after_event_accounted s s1 L L' mgr e :
  accounted s L mgr → store_only s s1 → ledger_of (after_event e s1) L' → sound (held mgr) L' →
  accounted (after_event e s1) L' mgr.
Proof.
  intros Hac Hst Hl' Hs'. eapply accounted_ledger; [exact Hac| |done..].
  by apply store_events_event, store_only_events.
Qed.

Lemma end_block_run_accounted ctx s L mgr s' :
  accounted s L mgr → fm_tx_fee mgr = None → accounts_end_block ctx s = (Ok tt, s') →
  ∃ L', accounted s' L' fee_manager_new.
Proof.
  intros [Hm Hl (o & Ho & ->) Hwf Hs] Htx Hrun.
  destruct (accounts_end_block_run ctx s L o Hl) as (s2 & L' & Hrun' & Hl' & Hv' & Henv & _ & Hs' & _); [|done|].
  - eapply sound_ext; [|exact Hs]. intros d. unfold held, block_fees, commit_block. rewrite Htx. lia.
  - rewrite Hrun' in Hrun. simplify_eq. exists L'. split; try done; [by rewrite Henv|by exists None].
Qed.

Lemma transfer_accounted s L mgr from to u s' :
  accounted s L mgr → transfer from to u s = (Ok tt, s') → ∃ L' mgr', accounted s' L' mgr'.
Proof.
  intros Hac Hrun. pose proof Hac as [Hm Hl _ _ Hs]. unfold transfer in Hrun.
  rewrite with_env_bind, Hm in Hrun. cbn [orb] in Hrun.
  destruct (amount u =? 0)%N; [injection Hrun as <-; by exists L, mgr|].
  apply bind_ok_inv in Hrun as ([] & s1 & Hr1 & [= <-]).
  destruct (N.le_gt_cases (amount u) (balance L from (denomination u))) as [Hle|Hlt].
  - destruct (transfer_silent_run _ L s from to u Hl Hs Hle) as (s2 & L' & Hr2 & Hst & Hl' & Hsup & Ht & _).
    rewrite Hr2 in Hr1. simplify_eq. exists L', mgr.
    eapply (after_event_accounted s s1); [done|done|by apply (ledger_of_ext s1)|].
    intros d. by rewrite Ht, (supply_of_supply L L').
  - by rewrite (transfer_short from to u s L Hl Hlt) in Hr1.
Qed.

Lemma mint_accounted s L mgr to u s' :
  accounted s L mgr → mint to u s = (Ok tt, s') → ∃ L' mgr', accounted s' L' mgr'.
Proof.
  intros Hac Hrun. pose proof Hac as [Hm Hl _ _ Hs]. destruct (decide (amount u = 0%N)) as [Hz|Hz].
  { unfold mint in Hrun. rewrite with_env_bind, Hz, orb_true_r in Hrun. injection Hrun as <-. by exists L, mgr. }
  destruct (N.le_gt_cases (supply_of L (denomination u) + amount u) u128_max) as [Hle|Hlt].
  - destruct (mint_ok _ L s to u Hl Hs Hm Hle Hz) as (s1 & L' & Hr1 & Hst & Hl' & Hs' & _).
    rewrite Hr1 in Hrun. simplify_eq. exists L', mgr. by eapply after_event_accounted.
  - destruct (mint_overflow L s to u Hl Hm Hz Hlt) as (r & s1 & Hr1 & ->). by rewrite Hr1 in Hrun.
Qed.

Lemma burn_accounted s L mgr from u s' :
  accounted s L mgr → burn from u s = (Ok tt, s') → ∃ L' mgr', accounted s' L' mgr'.
Proof.
  intros Hac Hrun. pose proof Hac as [Hm Hl _ _ Hs]. destruct (decide (amount u = 0%N)) as [Hz|Hz].
  { unfold burn in Hrun. rewrite with_env_bind, Hz, orb_true_r in Hrun. injection Hrun as <-. by exists L, mgr. }
  destruct (N.le_gt_cases (amount u) (balance L from (denomination u))) as [Hle|Hlt].
  - destruct (burn_ok _ L s from u Hl Hs Hm Hle Hz) as (s1 & L' & Hr1 & Hst & Hl' & Hs' & _).
    rewrite Hr1 in Hrun. simplify_eq. exists L', mgr. by eapply after_event_accounted.
  - unfold burn in Hrun. rewrite with_env_bind, Hm in Hrun. cbn [orb] in Hrun.
    rewrite (proj2 (N.eqb_neq _ _) Hz) in Hrun. apply spec_sub_short in Hlt.
    by rewrite (bind_err _ _ _ _ _ (refines_err _ _ _ _ _ (sub_amount_refines from u) Hl Hlt)) in Hrun.
Qed.

Lemma manager_of_inj s mgr mgr' : manager_of s mgr → manager_of s mgr' → mgr = mgr'.
Proof.
  unfold manager_of, holds_value. intros (o & Ho & ->) (o' & Ho' & ->). rewrite Ho in Ho'.
  by destruct o, o'; simplify_eq/=.
Qed.

Lemma step_accounted s s' L mgr : step s s' → accounted s L mgr → ∃ L' mgr', accounted s' L' mgr'.
Proof.
  intros Hstep Hac. pose proof Hac as [Hm Hl Hmgr Hwf Hs].
  destruct Hstep as [from to u s s' Hrun|to u s s' Hrun|from u s s' Hrun|from u s s' Hrun|ai s s' Hrun
    |ctx res s s' Hrun|ctx ai res s s' Hrun|ctx s s' mgr' Hmgr' Htx Hrun].
  - by eapply transfer_accounted.
  - by eapply mint_accounted.
  - by eapply burn_accounted.
  - by eapply charge_tx_fee_ok.
  - destruct (update_signer_nonces_ok ai s L s' Hl Hrun) as (Hst & L' & Hl' & Hbal & Hsup & _).
    exists L', mgr. eapply accounted_ledger; [exact Hac|by apply store_only_events|done|].
    intros d. by rewrite (total_bal L L'), (supply_of_supply L L').
  - apply (accounts_after_handle_call_ok ctx res s L mgr) in Hrun as [x Hx]; [|done]. by eexists _, _.
  - destruct (after_dispatch_run ctx ai res s L mgr Hac) as (s2 & L' & mgr' & Hrun' & Hac' & _).
    rewrite Hrun' in Hrun. simplify_eq. by exists L', mgr'.
  - rewrite (manager_of_inj s mgr' mgr) in Htx by done.
    destruct (end_block_run_accounted ctx s L mgr s' Hac Htx Hrun) as [L' Hac']. by eexists _, _.
Qed.
End steps.

Module TokenClaims.
Section claims.
Context `{Platform} `{!MKVSLaws} `{!AccountsCodec} `{!AccountsCodecLaws}.

(** A transfer, on every branch: nothing happens in checks or for a zero amount; without the
    balance it fails and changes nothing; otherwise it succeeds, moves exactly the amount between
    the two accounts (which may be the same), keeps every other balance, every supply and the sum of
    the balances, and emits one transfer event. *)
Theorem transfer_moves held L s from to u :
  ledger_of s L → sound held L →
  ∃ r s', transfer from to u s = (r, s') ∧
    if is_check_only (st_env s) || (amount u =? 0)%N then r = Ok tt ∧ s' = s
    else if (balance L from (denomination u) <? amount u)%N then r = Err InsufficientBalance ∧ s' = s
    else r = Ok tt ∧ st_events s' = push_event (accounts_event (EvTransfer from to u)) (st_events s) ∧
      ∃ L', ledger_of s' L' ∧ sound held L' ∧ supply L' = supply L ∧
        ∀ a d, (balance L' a d + (if decide (from = a) then delta u d else 0) =
                balance L a d + (if decide (to = a) then delta u d else 0))%N.
Proof.
  intros Hl Hs. unfold transfer. rewrite with_env_bind.
  destruct (is_check_only (st_env s) || (amount u =? 0)%N); [by eexists _, _|].
  destruct (N.ltb_spec (balance L from (denomination u)) (amount u)) as [Hlt|Hle].
  - rewrite (bind_err _ _ _ _ _ (transfer_short from to u s L Hl Hlt)). by eexists _, _.
  - destruct (transfer_silent_run held L s from to u Hl Hs Hle)
      as (s1 & L' & Hrun & [st ->] & Hl' & Hsup & Ht & Hb).
    rewrite (bind_ok _ _ _ _ _ Hrun). eexists _, _. split; [reflexivity|]. split; [done|].
    split; [done|]. exists L'. split; [by eapply ledger_of_ext, Hl'|]. split; [|done].
    intros d. by rewrite Ht, (supply_of_supply L L') by done.
Qed.

(** Minting, on every branch: nothing happens in checks or for a zero amount; when the supply
    would overflow it fails; otherwise it succeeds, credits exactly the receiver, raises exactly the
    supply of the denomination and emits one mint event. *)
Theorem mint_issues held L s to u :
  ledger_of s L → sound held L →
  ∃ r s', mint to u s = (r, s') ∧
    if is_check_only (st_env s) || (amount u =? 0)%N then r = Ok tt ∧ s' = s
    else if (u128_max <? supply_of L (denomination u) + amount u)%N then r = Err AccInvalidArgument
    else r = Ok tt ∧ st_events s' = push_event (accounts_event (EvMint to u)) (st_events s) ∧
      ∃ L', ledger_of s' L' ∧ sound held L' ∧
        (∀ d, supply_of L' d = supply_of L d + delta u d)%N ∧
        (∀ a d, balance L' a d = balance L a d + if decide (to = a) then delta u d else 0)%N.
Proof.
  intros Hl Hs. destruct (is_check_only (st_env s) || (amount u =? 0)%N) eqn:Hc.
  { unfold mint. rewrite with_env_bind. rewrite Hc. by eexists _, _. }
  apply orb_false_iff in Hc as [Hco Hz%N.eqb_neq].
  destruct (N.ltb_spec u128_max (supply_of L (denomination u) + amount u)) as [Hlt|Hle].
  - by apply (mint_overflow L).
  - destruct (mint_ok held L s to u) as (s1 & L' & Hrun & [st ->] & Hl' & Hs' & Hsup & Hb); [done..|].
    eexists _, _. split; [exact Hrun|]. split; [done|]. split; [done|]. by exists L'.
Qed.

(** Burning, on every branch, never panics: nothing happens in checks or for a zero amount;
    without the balance it fails and changes nothing; otherwise it succeeds, debits exactly the owner,
    lowers exactly the supply of the denomination and emits one burn event. *)
Theorem burn_destroys held L s from u :
  ledger_of s L → sound held L →
  ∃ r s', burn from u s = (r, s') ∧
    if is_check_only (st_env s) || (amount u =? 0)%N then r = Ok tt ∧ s' = s
    else if (balance L from (denomination u) <? amount u)%N then r = Err InsufficientBalance ∧ s' = s
    else r = Ok tt ∧ st_events s' = push_event (accounts_event (EvBurn from u)) (st_events s) ∧
      ∃ L', ledger_of s' L' ∧ sound held L' ∧
        (∀ d, supply_of L' d + delta u d = supply_of L d)%N ∧
        (∀ a d, balance L' a d + (if decide (from = a) then delta u d else 0) = balance L a d)%N.
Proof.
  intros Hl Hs. destruct (is_check_only (st_env s) || (amount u =? 0)%N) eqn:Hc.
  { unfold burn. rewrite with_env_bind. rewrite Hc. by eexists _, _. }
  destruct (N.ltb_spec (balance L from (denomination u)) (amount u)) as [Hlt|Hle].
  - unfold burn. rewrite with_env_bind. rewrite Hc.
    apply spec_sub_short in Hlt.
    rewrite (bind_err _ _ _ _ _ (refines_err _ _ _ _ _ (sub_amount_refines from u) Hl Hlt)).
    by eexists _, _.
  - apply orb_false_iff in Hc as [Hco Hz%N.eqb_neq].
    destruct (burn_ok held L s from u) as (s1 & L' & Hrun & [st ->] & Hl' & Hs' & Hsup & Hb); [done..|].
    eexists _, _. split; [exact Hrun|]. split; [done|]. split; [done|]. by exists L'.
Qed.
End claims.

Section invariants.
Context `{Platform} `{!MKVSLaws} `{!AccountsCodec} `{!AccountsCodecLaws}.
Context `{!CoreCodec} `{!CoreConfig} `{!AccountsRuntime}.

(** Settling a transaction never fails and loses nothing: the refund goes back to the payer, the
    rest of the charge joins the fees of the block, no other balance and no supply changes, no
    transaction is in progress afterwards, and all tokens are accounted for. *)
Theorem after_dispatch_settles ctx ai res s L mgr :
  accounted s L mgr →
  ∃ s' L' mgr', accounts_after_dispatch_tx ctx ai res s = (Ok tt, s') ∧ accounted s' L' mgr' ∧
    fm_tx_fee mgr' = None ∧ supply L' = supply L ∧
    (∀ d, held mgr' d + delta (refund_due mgr) d = held mgr d)%N ∧
    ∀ a d, balance L' a d = (balance L a d +
      if decide (from_option tf_payer address_default (fm_tx_fee mgr) = a) then delta (refund_due mgr) d else 0)%N.
Proof. apply after_dispatch_run. Qed.

(** C2. All tokens stay accounted for along any sequence of operations: transfers, minting,
    burning, charges, refunds, settlements, nonce updates and ends of blocks. *)
Theorem tokens_accounted s s' :
  rtc step s s' → (∃ L mgr, accounted s L mgr) → ∃ L mgr, accounted s' L mgr.
Proof.
  induction 1 as [|s1 s2 s3 Hstep _ IH]; [done|]. intros (L & mgr & Hac). apply IH. clear IH.
  by eapply step_accounted.
Qed.
End invariants.
End TokenClaims.
