(* ===== verification/Moves.v ===== *)
(** The operations of the accounts module as other modules see them: their effect on the ledger, and
    what they leave alone (src/runtime-sdk/src/modules/accounts/mod.rs). *)
From S2P Require Import Prelude Endian Storage StoreIter Types Fee Errors State Current Transactions Module Tables CallFormat.
From S2P Require Import Core Gas Accounts Ledger Accounting Disbursement.

Definition accounts_prefix : bytes := str ACCOUNTS_MODULE_NAME.

(** The balances of a denomination are covered by its supply. *)
Definition covered (L : Ledger) : Prop := ∀ d, (total L d ≤ supply_of L d)%N.
Definition slack (L : Ledger) (d : Denomination) : N := (supply_of L d - total L d)%N.
Lemma covered_sound L : covered L → sound (slack L) L.
Proof. intros Hc d. specialize (Hc d). unfold slack. lia. Qed.
Lemma sound_covered h L : sound h L → covered L.
Proof. intros Hs d. specialize (Hs d). lia. Qed.

Section moves.
Context `{Platform} `{!MKVSLaws} `{!AccountsCodec} `{!AccountsCodecLaws}.

Lemma transfer_confined from to u : confined accounts_prefix (transfer from to u).
Proof. unfold transfer, transfer_silent, sub_amount, add_amount. solve_confined. Qed.
Lemma mint_confined to u : confined accounts_prefix (mint to u).
Proof. unfold mint, add_amount, inc_total_supply. solve_confined. Qed.
Lemma burn_confined from u : confined accounts_prefix (burn from u).
Proof. unfold burn, sub_amount, dec_total_supply. solve_confined. Qed.

Lemma ledger_writable s L : ledger_of s L → writable s.
Proof. intros [(st & Hst & Hwf & Hb & _)]. by exists st. Qed.

(** A ledger depends on the keys of the accounts module only. *)
Lemma ledger_of_keys s s' L :
  ledger_of s L → writable s' → (∀ k, at_key s' (accounts_prefix ++ k) = at_key s (accounts_prefix ++ k)) →
  ledger_of s' L.
Proof.
  intros [(st & Hst & _ & _ & Hl)] (st' & Hst' & Hwf & Hb) Hat. split. exists st'. do 3 (split; [done|]).
  assert (Hget : ∀ t k, get st' (table_key t k) = get st (table_key t k)).
  { intros t k. specialize (Hat (t :: k)). unfold at_key in Hat. by rewrite Hst, Hst' in Hat. }
  destruct Hl as [Hbal Hbk Hsup Hsk Hn]. unfold bal_key, supply_key, nonce_key in *.
  split; unfold bal_key, supply_key, nonce_key; intros; rewrite ?Hget in *; auto.
Qed.

(** What an operation of the accounts module leaves alone. *)
Definition moved (s s' : State) : Prop :=
  store_events_only s s' ∧ writable s' ∧ outside accounts_prefix s s'.

Lemma moved_of {E A} (m : M E A) s s' r :
  confined accounts_prefix m → writable s → m s = (r, s') → store_events_only s s' → moved s s'.
Proof. intros Hc Hw Hrun Hst. specialize (Hc s Hw). rewrite Hrun in Hc. by destruct Hc. Qed.

Lemma moved_refl s L : ledger_of s L → moved s s.
Proof.
  intros Hl. split; [by eapply store_only_events, ledger_store_only|].
  split; [by eapply ledger_writable|apply outside_refl].
Qed.

Lemma moved_trans s1 s2 s3 : moved s1 s2 → moved s2 s3 → moved s1 s3.
Proof.
  intros (He & _ & Ho) (He' & Hw & Ho'). split; [by eapply store_events_trans|]. split; [done|by eapply outside_trans].
Qed.

Lemma zero_delta u d : amount u = 0%N → delta u d = 0%N.
Proof. unfold delta. intros ->. by case_decide. Qed.

Lemma transfer_run L s from to u :
  ledger_of s L → covered L → is_check_only (st_env s) = false →
  (amount u ≤ balance L from (denomination u))%N →
  ∃ s' L', transfer from to u s = (Ok tt, s') ∧ moved s s' ∧ ledger_of s' L' ∧ covered L' ∧
    supply L' = supply L ∧
    (∀ a d, balance L' a d + (if decide (from = a) then delta u d else 0) =
            balance L a d + (if decide (to = a) then delta u d else 0))%N.
Proof.
  intros Hl Hc Hm Hle. destruct (decide (amount u = 0%N)) as [Hz|Hz].
  { exists s, L. unfold transfer. rewrite with_env_bind, Hz, orb_true_r. split; [done|].
    split; [by eapply moved_refl|]. do 3 (split; [done|]). intros a d. rewrite zero_delta by done.
    by repeat case_decide. }
  destruct (transfer_silent_run (slack L) L s from to u Hl (covered_sound _ Hc) Hle)
    as (s1 & L' & Hrun & Hst & Hl' & Hsup & Ht & Hb).
  assert (Hrun' : transfer from to u s = (Ok tt, after_event (EvTransfer from to u) s1)).
  { unfold transfer. rewrite with_env_bind, Hm, (proj2 (N.eqb_neq _ _) Hz). cbn [orb].
    by rewrite (bind_ok _ _ _ _ _ Hrun). }
  eexists _, L'. split; [exact Hrun'|]. split.
  - eapply moved_of; [apply transfer_confined|by eapply ledger_writable|exact Hrun'|].
    by apply store_events_event, store_only_events.
  - split; [by apply (ledger_of_ext s1)|]. split; [|done]. intros d. rewrite Ht, (supply_of_supply L L') by done.
    apply Hc.
Qed.

(** A transfer that succeeded had the balance. *)
Lemma transfer_inv L s from to u s' :
  ledger_of s L → is_check_only (st_env s) = false → transfer from to u s = (Ok tt, s') →
  (amount u ≤ balance L from (denomination u))%N.
Proof.
  intros Hl Hm. unfold transfer. rewrite with_env_bind, Hm. cbn [orb].
  destruct (N.eqb_spec (amount u) 0) as [->|_]; [lia|].
  destruct (N.le_gt_cases (amount u) (balance L from (denomination u))) as [|Hlt]; [done|].
  by rewrite (bind_err _ _ _ _ _ (transfer_short from to u s L Hl Hlt)).
Qed.

(** So did a burn, and a mint left the supply representable. *)
Lemma burn_inv L s from u s' :
  ledger_of s L → is_check_only (st_env s) = false → burn from u s = (Ok tt, s') →
  (amount u ≤ balance L from (denomination u))%N.
Proof.
  intros Hl Hm. unfold burn. rewrite with_env_bind, Hm. cbn [orb].
  destruct (N.eqb_spec (amount u) 0) as [->|_]; [lia|].
  destruct (N.le_gt_cases (amount u) (balance L from (denomination u))) as [|Hlt%spec_sub_short]; [done|].
  by rewrite (bind_err _ _ _ _ _ (refines_err _ _ _ _ _ (sub_amount_refines from u) Hl Hlt)).
Qed.
Lemma mint_inv L s to u s' :
  ledger_of s L → is_check_only (st_env s) = false → mint to u s = (Ok tt, s') →
  (supply_of L (denomination u) + amount u ≤ u128_max)%N.
Proof.
  intros Hl Hm Hrun. pose proof (supply_bounded s L (denomination u) Hl).
  destruct (decide (amount u = 0%N)) as [->|Hz]; [lia|].
  destruct (N.le_gt_cases (supply_of L (denomination u) + amount u) u128_max) as [|Hlt]; [done|].
  destruct (mint_overflow L s to u Hl Hm Hz Hlt) as (r & s1 & Hr1 & ->). by rewrite Hr1 in Hrun.
Qed.

Lemma mint_run L s to u :
  ledger_of s L → covered L → is_check_only (st_env s) = false →
  (supply_of L (denomination u) + amount u ≤ u128_max)%N →
  ∃ s' L', mint to u s = (Ok tt, s') ∧ moved s s' ∧ ledger_of s' L' ∧ covered L' ∧
    (∀ d, supply_of L' d = supply_of L d + delta u d)%N ∧
    (∀ a d, balance L' a d = balance L a d + if decide (to = a) then delta u d else 0)%N.
Proof.
  intros Hl Hc Hm Hle. destruct (decide (amount u = 0%N)) as [Hz|Hz].
  { exists s, L. unfold mint. rewrite with_env_bind, Hz, orb_true_r. split; [done|].
    split; [by eapply moved_refl|]. do 2 (split; [done|]).
    split; [intros d|intros a d; case_decide]; rewrite ?zero_delta by done; lia. }
  destruct (mint_ok (slack L) L s to u Hl (covered_sound _ Hc) Hm Hle Hz)
    as (s1 & L' & Hrun & Hst & Hl' & Hs' & Hsup & Hb).
  eexists _, L'. split; [exact Hrun|]. split.
  - eapply moved_of; [apply mint_confined|by eapply ledger_writable|exact Hrun|].
    by apply store_events_event, store_only_events.
  - split; [done|]. split; [by eapply sound_covered|done].
Qed.

Lemma burn_run L s from u :
  ledger_of s L → covered L → is_check_only (st_env s) = false →
  (amount u ≤ balance L from (denomination u))%N →
  ∃ s' L', burn from u s = (Ok tt, s') ∧ moved s s' ∧ ledger_of s' L' ∧ covered L' ∧
    (∀ d, supply_of L' d + delta u d = supply_of L d)%N ∧
    (∀ a d, balance L' a d + (if decide (from = a) then delta u d else 0) = balance L a d)%N.
Proof.
  intros Hl Hc Hm Hle. destruct (decide (amount u = 0%N)) as [Hz|Hz].
  { exists s, L. unfold burn. rewrite with_env_bind, Hz, orb_true_r. split; [done|].
    split; [by eapply moved_refl|]. do 2 (split; [done|]).
    split; [intros d|intros a d; case_decide]; rewrite ?zero_delta by done; lia. }
  destruct (burn_ok (slack L) L s from u Hl (covered_sound _ Hc) Hm Hle Hz)
    as (s1 & L' & Hrun & Hst & Hl' & Hs' & Hsup & Hb).
  eexists _, L'. split; [exact Hrun|]. split.
  - eapply moved_of; [apply burn_confined|by eapply ledger_writable|exact Hrun|].
    by apply store_events_event, store_only_events.
  - split; [done|]. split; [by eapply sound_covered|done].
Qed.

(** Tokens move from an account to another, supplies stay. *)
Definition shifted (from to : Address) (u : BaseUnits) (L L' : Ledger) : Prop :=
  supply L' = supply L ∧
  ∀ a d, (balance L' a d + (if decide (from = a) then delta u d else 0) =
          balance L a d + (if decide (to = a) then delta u d else 0))%N.
(** Tokens of an account are destroyed. *)
Definition destroyed (from : Address) (u : BaseUnits) (L L' : Ledger) : Prop :=
  (∀ d, supply_of L' d + delta u d = supply_of L d)%N ∧
  ∀ a d, (balance L' a d + (if decide (from = a) then delta u d else 0) = balance L a d)%N.
(** Tokens are issued to an account. *)
Definition issued (to : Address) (u : BaseUnits) (L L' : Ledger) : Prop :=
  (∀ d, supply_of L' d = supply_of L d + delta u d)%N ∧
  ∀ a d, (balance L' a d = balance L a d + if decide (to = a) then delta u d else 0)%N.
End moves.

(** What the core and accounts modules leave alone: gas, transfers, nonces and events do not concern the tables
    of a module whose prefix differs from that of the accounts. *)

Section leaves.
Context `{Platform} `{!MKVSLaws} `{!CoreCodec} `{!CoreConfig} `{!AccountsCodec}.
(** The prefix of a module, none of whose keys are those of the accounts. *)
Context (P : bytes) (apart : ∀ k, starts_with (P ++ k) accounts_prefix = false).

Lemma leaves_gas gas : leaves P (use_tx_gas gas).
Proof. apply (leaves_confined P accounts_prefix _ apart); [auto with framed|unfold use_tx_gas, use_batch_gas, used_batch_gas, core_params; solve_confined]. Qed.
Lemma leaves_transfer from to u : leaves P (transfer from to u).
Proof. apply (leaves_confined P accounts_prefix _ apart); [auto with framed|apply transfer_confined]. Qed.
Lemma leaves_remaining_gas {E} : leaves P (remaining_tx_gas (E := E)).
Proof.
  apply (leaves_confined P accounts_prefix _ apart); [auto with framed|].
  unfold remaining_tx_gas, remaining_batch_gas, used_batch_gas, max_batch_gas, core_params; solve_confined.
Qed.
Lemma leaves_balance {E} a d : leaves P (get_balance (E := E) a d).
Proof. apply (leaves_confined P accounts_prefix _ apart); unfold get_balance; [solve_framed|solve_confined]. Qed.
Lemma leaves_nonce {E} a : leaves P (get_nonce (E := E) a).
Proof. apply (leaves_confined P accounts_prefix _ apart); unfold get_nonce, get_account; [solve_framed|solve_confined]. Qed.
Lemma leaves_event {E} e : leaves P (emit_event_raw (E := E) e).
Proof. apply (leaves_confined P accounts_prefix _ apart); [solve_framed|solve_confined]. Qed.
Lemma leaves_execute `{!CborValue bool} {E} ctx : leaves P (should_execute_contracts (E := E) ctx).
Proof. apply (leaves_confined P accounts_prefix _ apart); unfold should_execute_contracts, local_config; [solve_framed|solve_confined]. Qed.
Lemma leaves_with_env {E A} (f : Environment → A) : leaves P (with_env (E := E) f).
Proof. by apply leaves_read. Qed.
Lemma leaves_with_tx_env {E A} (f : Environment → option A) : leaves P (with_tx_env (E := E) f).
Proof. apply leaves_read. intros s. unfold with_tx_env. run_simpl. by case_match. Qed.
End leaves.

Create HintDb leaves discriminated.
#[export] Hint Resolve leaves_gas leaves_transfer leaves_remaining_gas leaves_balance leaves_nonce leaves_event leaves_execute
  leaves_with_env leaves_with_tx_env : leaves.
#[export] Hint Extern 1 (∀ k, starts_with (_ ++ k) _ = false) => intros k; reflexivity : leaves.

Ltac leaves_step :=
  match goal with
  | |- leaves _ (mbind _ _) => apply leaves_bind
  | |- leaves _ (map_err _ _) => apply leaves_map_err
  | |- leaves _ (mret _) => by apply leaves_read
  | |- leaves _ (throw _) => by apply leaves_read
  | |- leaves _ (panic _) => by apply leaves_read
  | |- leaves _ (ok_or ?o _) => by apply leaves_read; destruct o
  | |- leaves _ (expect ?o _) => by apply leaves_read; destruct o
  | |- ∀ _, _ => intros ?
  | |- leaves _ (match ?x with _ => _ end) => destruct x
  end.
Ltac solve_leaves := repeat (first [solve [eauto 3 with leaves nocore] | leaves_step]).
