(* ===== verification/Supplies.v ===== *)
(** The invariant check of the accounts module: the balances, read back from the store, are summed per
    denomination and compared with the table of supplies
    (src/runtime-sdk/src/modules/accounts/mod.rs, [check_invariants]). *)
From S2P Require Import Prelude Storage StoreIter Types Fee Errors State Current Transactions Module.
From S2P Require Import Core Accounts Ledger Accounting Disbursement.

(** * Tallies *)

(** Amounts summed per denomination, the way the module does. *)
Definition tally (c : gmap Denomination N) (l : list (Denomination * N)) : gmap Denomination N :=
  foldl (λ c '(den, amt), add_to den amt c) c l.

Lemma tally_app c l l' : tally c (l ++ l') = tally (tally c l) l'.
Proof. apply foldl_app. Qed.

Lemma add_to_lookup den amt (c : gmap Denomination N) d :
  (default 0 (c !! den) + amt ≤ u128_max)%N →
  add_to den amt c !! d = if decide (den = d) then Some (default 0 (c !! d) + amt)%N else c !! d.
Proof.
  intros Hle. unfold add_to. rewrite lookup_insert. case_decide as Hd; [|done]. subst d.
  destruct (c !! den) as [x|]; simpl in *; [|f_equal; lia].
  f_equal. unfold wrapping_add. apply N.mod_small. lia.
Qed.

Lemma tally_lookup l c d :
  (∀ d, default 0 (c !! d) + list_sum (entry_amount d) l ≤ u128_max)%N →
  tally c l !! d = if decide (d ∈ l.*1) then Some (default 0 (c !! d) + list_sum (entry_amount d) l)%N
                   else c !! d.
Proof.
  revert c. induction l as [|[den amt] l IH]; intros c Hle.
  { rewrite decide_False; [done|]. apply not_elem_of_nil. }
  assert (Hadd : (default 0 (c !! den) + amt ≤ u128_max)%N).
  { specialize (Hle den). simpl in Hle. unfold entry_amount at 1 in Hle. simpl in Hle.
    rewrite decide_True in Hle by done. lia. }
  cbn [tally foldl]. fold (tally (add_to den amt c) l). rewrite IH; last first.
  { intros d'. rewrite add_to_lookup by done. specialize (Hle d'). simpl in Hle.
    unfold entry_amount at 1 in Hle. simpl in Hle. case_decide; subst; simpl; lia. }
  rewrite add_to_lookup by done. rewrite fmap_cons. cbn [fst list_sum foldr].
  fold (list_sum (entry_amount d) l). unfold entry_amount at 2. cbn [fst snd].
  destruct (decide (den = d)) as [->|Hne]; cbn [default].
  - rewrite (decide_True (P := d ∈ d :: l.*1)) by left.
    destruct (decide (d ∈ l.*1)) as [Hin|Hni]; simpl; f_equal; [lia|].
    rewrite entries_sum_notin by done. lia.
  - rewrite N.add_0_l. destruct (decide (d ∈ l.*1)) as [Hin|Hni].
    + rewrite decide_True by (by right). done.
    + rewrite decide_False; [done|]. intros [|]%elem_of_cons; done.
Qed.

(** * Reading the balances *)

(** The balances grouped by account. *)
Definition grouped (L : Ledger) (B : gmap Address (gmap Denomination N)) : Prop :=
  ∀ a d, (B !! a ≫= λ m, m !! d) = bal L !! (a, d).

Definition group_step (b : gmap Address (gmap Denomination N)) (x : (Address * Denomination) * N)
    : gmap Address (gmap Denomination N) :=
  <[x.1.1 := add_to x.1.2 x.2 (default ∅ (b !! x.1.1))]> b.

Lemma group_lookup l b a d :
  NoDup l.*1 → (∀ k, k ∈ l.*1 → (b !! k.1 ≫= λ m, m !! k.2) = None) →
  (foldl group_step b l !! a ≫= λ m, m !! d) =
    match (list_to_map l : gmap (Address * Denomination) N) !! (a, d) with
    | Some x => Some x
    | None => b !! a ≫= λ m, m !! d
    end.
Proof.
  revert b. induction l as [|[[a' d'] x] l IH]; intros b Hnd Hnone; [done|].
  rewrite fmap_cons in Hnd. apply NoDup_cons in Hnd as [Hni Hnd]. cbn [foldl].
  pose proof (Hnone (a', d') ltac:(left)) as Hab. simpl in Hab.
  assert (Hstep : ∀ a d, (group_step b ((a', d'), x) !! a ≫= λ m, m !! d) =
            if decide ((a', d') = (a, d)) then Some x else b !! a ≫= λ m, m !! d).
  { intros a0 d0. unfold group_step. simpl. rewrite lookup_insert. case_decide as Ha; subst; simpl.
    - unfold add_to. rewrite lookup_insert. destruct (decide (d' = d0)) as [->|Hne].
      + rewrite decide_True by done. destruct (b !! a0) as [m|] eqn:Hb; simpl in *; [by rewrite Hab|].
        by rewrite lookup_empty.
      + rewrite decide_False by congruence. by destruct (b !! a0); [|simpl; rewrite lookup_empty].
    - by rewrite decide_False by congruence. }
  rewrite IH; [|done|].
  - rewrite list_to_map_cons, Hstep, lookup_insert.
    destruct (decide ((a', d') = (a, d))) as [Heq|Hne]; [|done].
    rewrite not_elem_of_list_to_map_1; [done|]. by rewrite <-Heq.
  - intros [a0 d0] Hk. simpl. rewrite Hstep, decide_False; [|by intros [= -> ->]].
    apply (Hnone (a0, d0)). by right.
Qed.

Lemma group_foldl b l :
  foldl (λ b '((addr, den), amt), <[addr := add_to den amt (default ∅ (b !! addr))]> b) b l =
  foldl group_step b l.
Proof. revert b. induction l as [|[[a d] x] l IH]; intros b; [done|]. simpl. apply IH. Qed.

(** All entries, account by account. *)
Definition entries_of (B : gmap Address (gmap Denomination N)) : list ((Address * Denomination) * N) :=
  address_iter B ≫= λ x, (λ y, ((x.1, y.1), y.2)) <$> denom_iter x.2.

Lemma elem_of_entries B a d x : ((a, d), x) ∈ entries_of B ↔ (B !! a ≫= λ m, m !! d) = Some x.
Proof.
  unfold entries_of. rewrite list_elem_of_bind. split.
  - intros ([a' m] & (y & Heq & Hy)%list_elem_of_fmap & Hm). simplify_eq/=.
    unfold address_iter in Hm. rewrite map_iter_perm in Hm. apply elem_of_map_to_list in Hm. simpl in *.
    apply bind_Some. exists m. split; [exact Hm|]. apply elem_of_denom_iter. by destruct y.
  - intros (m & Hm & Hx)%bind_Some. exists (a, m). split.
    + apply list_elem_of_fmap. exists (d, x). split; [done|]. by apply elem_of_denom_iter.
    + unfold address_iter. rewrite map_iter_perm. by apply elem_of_map_to_list.
Qed.

Lemma entries_nodup B : NoDup (entries_of B).
Proof.
  unfold entries_of. apply NoDup_bind.
  - intros x1 x2 [k v] Hx1 Hx2 (y1 & [= -> ->] & _)%list_elem_of_fmap (y2 & [= Ha _ _] & _)%list_elem_of_fmap.
    unfold address_iter in *. rewrite map_iter_perm in Hx1, Hx2. destruct x1 as [a1 m1], x2 as [a2 m2].
    apply elem_of_map_to_list in Hx1, Hx2. simpl in *. congruence.
  - intros [a m] _. apply NoDup_fmap_2_strong.
    + intros [d x] [d' x'] _ _ [= -> ->]. done.
    + unfold denom_iter. rewrite map_iter_perm. apply NoDup_map_to_list.
  - unfold address_iter. rewrite map_iter_perm. apply NoDup_map_to_list.
Qed.

Lemma entries_perm L B : grouped L B → entries_of B ≡ₚ map_to_list (bal L).
Proof.
  intros Hg. apply NoDup_Permutation; [apply entries_nodup|apply NoDup_map_to_list|].
  intros [[a d] x]. rewrite elem_of_entries, elem_of_map_to_list. by rewrite Hg.
Qed.

(** The nested loops tally all entries. *)
Lemma computed_supplies_tally B :
  computed_supplies B = tally ∅ ((λ e, (e.1.2, e.2)) <$> entries_of B).
Proof.
  unfold computed_supplies, entries_of. generalize (∅ : gmap Denomination N) as c.
  induction (address_iter B) as [|[a m] l IH]; intros c; [done|]. cbn [foldl]. rewrite IH.
  rewrite bind_cons, fmap_app, tally_app. f_equal. unfold tally. cbn [fst snd].
  rewrite <-list_fmap_compose. generalize c as c'. induction (denom_iter m) as [|[d x] l' IH']; intros c'; [done|].
  simpl. apply IH'.
Qed.

Lemma entries_total L B d :
  grouped L B → list_sum (entry_amount d) ((λ e, (e.1.2, e.2)) <$> entries_of B) = total L d.
Proof.
  intros Hg%entries_perm. rewrite Hg. unfold total. rewrite map_sum_list. clear Hg.
  induction (map_to_list (bal L)) as [|[[a d'] x] l IH]; [done|]. simpl. by rewrite <-IH.
Qed.

(** The denominations that some account holds an entry of. *)
Definition tallied (L : Ledger) (d : Denomination) : Prop := ∃ a, is_Some (bal L !! (a, d)).

Lemma computed_supplies_lookup L B d x :
  grouped L B → (∀ d, total L d ≤ u128_max)%N →
  computed_supplies B !! d = Some x ↔ tallied L d ∧ x = total L d.
Proof.
  intros Hg Hle. rewrite computed_supplies_tally, tally_lookup; last first.
  { intros d'. rewrite (entries_total L) by done. rewrite lookup_empty. simpl. apply Hle. }
  rewrite (entries_total L) by done. rewrite lookup_empty. simpl.
  assert (Hin : d ∈ ((λ e, (e.1.2, e.2)) <$> entries_of B).*1 ↔ tallied L d).
  { rewrite <-list_fmap_compose. unfold tallied. rewrite list_elem_of_fmap. split.
    - intros ([[a d'] y] & -> & Hy%elem_of_entries). exists a. simpl. rewrite <-Hg. by exists y.
    - intros (a & y & Hy). exists ((a, d), y). split; [done|]. apply elem_of_entries. by rewrite Hg. }
  case_decide as Hd; rewrite Hin in Hd; naive_solver.
Qed.

(** * The check *)

(** What it means that every supply matched, and that nothing was left. *)
Lemma supplies_match L B (rest : gmap Denomination N) :
  grouped L B → (∀ d, total L d ≤ u128_max)%N → rest = ∅ →
  (∀ d x, (d, x) ∈ denom_iter (supply L) → computed_supplies B !! d = Some x) →
  (∀ d, rest !! d = if decide (d ∈ (denom_iter (supply L)).*1) then None else computed_supplies B !! d) →
  ∀ d, supply_of L d = total L d ∧ (is_Some (supply L !! d) ↔ tallied L d).
Proof.
  intros Hg Hle -> Hm Hrest d. pose proof (λ x, computed_supplies_lookup L B d x Hg Hle) as Hc.
  unfold supply_of. destruct (supply L !! d) as [x|] eqn:Hx.
  - specialize (Hm d x (proj2 (elem_of_denom_iter _ _ _) Hx)). apply Hc in Hm as [Ht ->].
    split; [done|]. split; [done|by eexists].
  - assert (Hnt : ¬ tallied L d).
    { intros Ht. specialize (Hrest d). rewrite lookup_empty, decide_False in Hrest.
      - rewrite (proj2 (Hc (total L d)) (conj Ht eq_refl)) in Hrest. done.
      - intros ([d' y] & -> & Hy%elem_of_denom_iter)%list_elem_of_fmap. simpl in *. congruence. }
    split; [|split; [by intros []|done]]. simpl. symmetry. apply map_sum_zero. intros [a d'] y Hy.
    unfold weight. case_decide; [|done]. simpl in *. subst. destruct Hnt. exists a. by exists y.
Qed.

Lemma supplies_rest L B (rest : gmap Denomination N) :
  grouped L B → (∀ d, total L d ≤ u128_max)%N →
  (∀ d, rest !! d = if decide (d ∈ (denom_iter (supply L)).*1) then None else computed_supplies B !! d) →
  (∀ d, supply_of L d = total L d ∧ (is_Some (supply L !! d) ↔ tallied L d)) → rest = ∅.
Proof.
  intros Hg Hle Hrest Hall. apply map_empty. intros d. rewrite Hrest. case_decide as Hin; [done|].
  destruct (computed_supplies B !! d) as [x|] eqn:Hx; [|done].
  apply (computed_supplies_lookup L B d x Hg Hle) in Hx as [Ht _]. apply Hall in Ht as [y Hy].
  destruct Hin. apply list_elem_of_fmap. exists (d, y). split; [done|]. by apply elem_of_denom_iter.
Qed.

Section check.
Context `{Platform} `{!MKVSLaws} `{!AccountsCodec} `{!AccountsCodecLaws}.

Lemma address_with_denomination_key (k : Address * Denomination) :
  address_with_denomination (raw k.1 ++ denom_bytes k.2) = inr k.
Proof.
  destruct k as [a d]. unfold address_with_denomination. simpl.
  assert (Hlen : length (raw a) = ADDRESS_SIZE) by apply (proj2_sig a).
  rewrite take_app_length' by done. rewrite drop_app_length' by done.
  unfold address_from_bytes. by rewrite bytes_n_of_proj, denomination_try_from_bytes.
Qed.

Lemma get_all_balances_run {E} s L :
  ledger_of s L → ∃ B, get_all_balances (E := E) s = (Ok B, s) ∧ grouped L B.
Proof.
  intros [(st & Hst & Hwf & _ & Hl)]. unfold get_all_balances, balances_ref.
  destruct (typed_iter_run (E := E) address_with_denomination 0%N (λ k, raw k.1 ++ denom_bytes k.2)
    address_with_denomination_key s st accounts_store BALANCES (bal L) Hst Hwf) as (l & Hrun & _ & _ & Hmap).
  - intros [a d]. exact (ls_bal _ _ Hl a d).
  - intros b Hb. destruct (ls_bal_keys _ _ Hl b) as (a & d & ->); [exact Hb|]. by exists (a, d).
  - rewrite (bind_ok _ _ _ _ _ Hrun). rewrite Hmap. eexists. split; [reflexivity|]. intros a d.
    rewrite group_foldl. set (e := map_iter _ (bal L)).
    assert (Hnd : NoDup e.*1) by (unfold e; rewrite map_iter_perm; apply NoDup_fst_map_to_list).
    rewrite group_lookup; [|done|intros k _; by rewrite lookup_empty].
    assert (Hbal : (list_to_map e : gmap (Address * Denomination) N) = bal L).
    { rewrite <-(list_to_map_to_list (bal L)). apply list_to_map_proper; [done|]. apply map_iter_perm. }
    rewrite Hbal, lookup_empty. by destruct (bal L !! (a, d)).
Qed.

Lemma get_total_supplies_run {E} s L :
  ledger_of s L → get_total_supplies (E := E) s = (Ok (supply L), s).
Proof.
  intros [(st & Hst & Hwf & _ & Hl)]. unfold get_total_supplies, supplies_ref.
  destruct (typed_iter_run (E := E) denomination_key 0%N denom_bytes
    ltac:(intros d; unfold denomination_key; by rewrite denomination_try_from_bytes)
    s st accounts_store TOTAL_SUPPLY (supply L) Hst Hwf) as (l & Hrun & _ & _ & Hmap).
  - intros d. exact (ls_supply _ _ Hl d).
  - intros b Hb. exact (ls_supply_keys _ _ Hl b Hb).
  - rewrite (bind_ok _ _ _ _ _ Hrun). by rewrite Hmap.
Qed.

(** The loop over the supplies: it removes the entries that match and stops at one that does not. *)
Lemma check_supplies_run l c s :
  NoDup l.*1 →
  ∃ r, fold_m l c check_supply s = (r, s) ∧
    match r with
    | Ok rest => (∀ d x, (d, x) ∈ l → c !! d = Some x) ∧
                 (∀ d, rest !! d = if decide (d ∈ l.*1) then None else c !! d)
    | Err e => ∃ d x, (d, x) ∈ l ∧ c !! d ≠ Some x
    | Panic _ => False
    end.
Proof.
  revert c. induction l as [|[d x] l IH]; intros c Hnd.
  { exists (Ok c). split; [done|]. split; [by intros ?? ?%not_elem_of_nil|].
    intros d. rewrite decide_False; [done|]. apply not_elem_of_nil. }
  rewrite fmap_cons in Hnd. apply NoDup_cons in Hnd as [Hni Hnd]. cbn [fold_m].
  destruct (decide (c !! d = Some x)) as [Hd|Hd].
  - rewrite (bind_ok _ _ s (delete d c) s) by (unfold check_supply; rewrite Hd; cbn [ok_or];
      by rewrite ret_bind, N.eqb_refl).
    destruct (IH (delete d c) Hnd) as (r & Hrun & Hr). exists r. split; [done|].
    destruct r as [rest|e|msg]; [|destruct Hr as (d' & x' & Hin & Hne)|done].
    + destruct Hr as [Hr1 Hr2]. split.
      * intros d' x' [[= -> ->]|Hin]%elem_of_cons; [done|]. specialize (Hr1 d' x' Hin).
        by apply lookup_delete_Some in Hr1 as [_ ?].
      * intros d'. rewrite Hr2, lookup_delete. simpl.
        destruct (decide (d' ∈ l.*1)) as [Hin|Hn]; [by rewrite decide_True by (by right)|].
        destruct (decide (d = d')) as [->|Hne]; [by rewrite decide_True by left|].
        rewrite decide_False; [done|]. by intros [|]%elem_of_cons.
    + exists d', x'. split; [by right|]. rewrite lookup_delete_ne in Hne; [done|].
      intros <-. apply Hni. simpl. apply list_elem_of_fmap. by exists (d, x').
  - assert (Hf : ∃ e, check_supply c (d, x) s = (Err e, s)).
    { unfold check_supply. destruct (c !! d) as [y|]; cbn [ok_or]; [|by eexists]. rewrite ret_bind.
      destruct (N.eqb_spec y x); [congruence|]. by eexists. }
    destruct Hf as [e Hf]. exists (Err e). rewrite (bind_err _ _ _ _ _ Hf). split; [done|].
    exists d, x. split; [by left|done].
Qed.
End check.

Module InvariantClaims.
Section claims.
Context `{Platform} `{!MKVSLaws} `{!AccountsCodec} `{!AccountsCodecLaws}.

(** The invariant check reads the whole state back from the store, changes nothing and never
    panics; it passes exactly when the supply of every denomination is the sum of its balances and a
    denomination has a supply if and only if some account has an entry of it. *)
Theorem check_invariants_exact ctx s L :
  ledger_of s L → (∀ d, total L d ≤ u128_max)%N →
  ∃ r, accounts_check_invariants ctx s = (r, s) ∧ (∀ msg, r ≠ Panic msg) ∧
    (r = Ok tt ↔ ∀ d, supply_of L d = total L d ∧ (is_Some (supply L !! d) ↔ tallied L d)).
Proof.
  intros Hl Hle. destruct (get_all_balances_run (E := CoreError) s L Hl) as (B & HB & Hg).
  unfold accounts_check_invariants. rewrite (bind_ok _ _ _ _ _ HB).
  rewrite (bind_ok _ _ _ _ _ (get_total_supplies_run (E := CoreError) s L Hl)).
  pose proof (λ d x, computed_supplies_lookup L B d x Hg Hle) as Hc.
  destruct (check_supplies_run (denom_iter (supply L)) (computed_supplies B) s (denom_iter_nodup _))
    as (r & Hrun & Hr). destruct r as [rest|e|]; [|clear Hc|done].
  - rewrite (bind_ok _ _ _ _ _ Hrun). destruct Hr as [Hr1 Hr2].
    destruct (decide (rest = ∅)) as [He|He].
    + rewrite bool_decide_eq_true_2 by done. eexists. split; [done|]. split; [done|]. split; [|done].
      intros _. by apply (supplies_match L B rest).
    + rewrite bool_decide_eq_false_2 by done. eexists. split; [done|]. split; [done|]. split; [done|].
      intros Hall. destruct He. by apply (supplies_rest L B).
  - rewrite (bind_err _ _ _ _ _ Hrun). eexists. split; [done|]. split; [done|]. split; [done|].
    intros Hall. destruct Hr as (d & x & Hin%elem_of_denom_iter & Hne). destruct Hne.
    apply (computed_supplies_lookup L B d x Hg Hle). destruct (Hall d) as [Hs Ht]. split.
    + apply Ht. by exists x.
    + rewrite <-Hs. unfold supply_of. by rewrite Hin.
Qed.
End claims.
End InvariantClaims.
