(* ===== verification/ConcreteAccounts.v ===== *)
(** The accounts module on the concrete platform: a state with two accounts, on which the theorems
    about tokens, fees, nonces and supplies are instantiated. *)
From S2P Require Import Prelude Storage StoreIter Types Fee Errors State Current Transactions Module.
From S2P Require Import Concrete Core Gas ConcreteCore Accounts Ledger Accounting Nonces Disbursement.
From S2P Require Import Tokens Supplies.

#[local] Existing Instances toy_platform toy_mkvs_laws toy_core_codec toy_core_config.

#[local] Instance account_eq_dec : EqDecision Account.
Proof. solve_decision. Defined.
#[local] Instance account_countable : Countable Account.
Proof. apply (inj_countable' nonce (λ n, {| nonce := n |})). by intros []. Defined.

#[local] Instance toy_accounts_codec : AccountsCodec := {|
  acc_parameters_cbor := const_cbor accounts_parameters_default;
  acc_account_cbor := toy_cbor (λ a, (nonce a ≤ u64_max)%N);
  acc_amount_cbor := toy_u128;
  acc_quantity_cbor := toy_u128;
  acc_event_value _ := [x01];
  acc_transfer_value := {| to_value _ := [x01]; from_value _ := None |};
|}.
#[local] Instance toy_accounts_laws : AccountsCodecLaws.
Proof. split; [apply toy_cbor_laws|done|apply toy_cbor_laws|done]. Qed.

#[local] Instance toy_accounts_runtime : AccountsRuntime := {|
  MAX_CHECK_NONCE_FUTURE_DELTA := 0;
  resolve_payer _ _ := mret None;
|}.

(** * A state *)

Definition alice : Address := from_sigspec (SpecEd25519 [x01; x02]).
Definition bob : Address := from_sigspec (SpecEd25519 [x01; x03]).

Definition empty_ledger : Ledger := {| bal := ∅; supply := ∅; nonces := ∅ |}.
Definition toy_ledger : Ledger :=
  set_supply NATIVE 2007 (set_bal (ADDRESS_FEE_ACCUMULATOR, NATIVE) 7 (set_bal (alice, NATIVE) 2000 empty_ledger)).

Definition put_balance (a : Address) (x : N) (s : State) : State :=
  (typed_insert (E := Empty_set) (account_ref a) (denom_bytes NATIVE) x s).2.
Definition toy_empty_root : Store := MKVSStore (∅ : gmap bytes bytes).
Definition toy_empty_state : State := set_tx toy_twm (root_state Execute toy_empty_root).
Definition toy_acc_state : State :=
  (typed_insert (E := Empty_set) supplies_ref (denom_bytes NATIVE) 2007%N
     (put_balance ADDRESS_FEE_ACCUMULATOR 7 (put_balance alice 2000 toy_empty_state))).2.

Lemma empty_ledger_of : ledger_of toy_empty_state empty_ledger.
Proof.
  split. eexists. split; [reflexivity|]. split; [by apply new_overlay_wf|]. split; [by eexists|].
  assert (Hget : ∀ k, get (new_overlay toy_empty_root) k = None) by done.
  split; intros; rewrite ?Hget; try done; by match goal with Hs : is_Some _ |- _ => destruct Hs end.
Qed.
Lemma put_balance_ledger s L a x :
  ledger_of s L → (x ≤ u128_max)%N → ledger_of (put_balance a x s) (set_bal (a, NATIVE) x L).
Proof.
  intros Hl Hx. unfold put_balance.
  by destruct (put_bal_run (E := Empty_set) s L a NATIVE x Hl Hx) as (s' & -> & _ & Hl').
Qed.
Lemma toy_ledger_of : ledger_of toy_acc_state toy_ledger.
Proof.
  unfold toy_acc_state, toy_ledger.
  destruct (put_supply_run (E := Empty_set)
    (put_balance ADDRESS_FEE_ACCUMULATOR 7 (put_balance alice 2000 toy_empty_state)) _ NATIVE 2007
    (put_balance_ledger _ _ ADDRESS_FEE_ACCUMULATOR 7 (put_balance_ledger _ _ alice 2000 empty_ledger_of
      ltac:(done)) ltac:(done)) ltac:(done)) as (s' & -> & _ & Hl').
  exact Hl'.
Qed.

Lemma toy_total d : total toy_ledger d = if decide (NATIVE = d) then 2007%N else 0%N.
Proof.
  unfold toy_ledger.
  pose proof (total_set_bal empty_ledger alice NATIVE 2000 d) as H1.
  pose proof (total_set_bal (set_bal (alice, NATIVE) 2000 empty_ledger) ADDRESS_FEE_ACCUMULATOR NATIVE 7 d) as H2.
  change (total (set_supply NATIVE 2007 ?L) d) with (total L d).
  assert (total empty_ledger d = 0%N) as H3 by done.
  assert (balance (set_bal (alice, NATIVE) 2000 empty_ledger) ADDRESS_FEE_ACCUMULATOR NATIVE = 0%N) as H4
    by (vm_compute; reflexivity).
  assert (balance empty_ledger alice NATIVE = 0%N) as H5 by done.
  case_decide; lia.
Qed.
Lemma toy_supply d : supply_of toy_ledger d = if decide (NATIVE = d) then 2007%N else 0%N.
Proof. unfold supply_of, toy_ledger, set_supply. simpl. rewrite lookup_insert. by case_decide. Qed.
Lemma toy_sound : sound (λ _, 0%N) toy_ledger.
Proof. intros d. rewrite toy_total, toy_supply. case_decide; lia. Qed.

Lemma toy_accounted : accounted toy_acc_state toy_ledger fee_manager_new.
Proof.
  split; [reflexivity|exact toy_ledger_of|by exists None|done|].
  intros d. unfold held. simpl. rewrite toy_total, toy_supply, lookup_empty. case_decide; simpl; lia.
Qed.
Lemma toy_account_params s :
  (accounts_params (E := CoreError) s).1 = Ok accounts_parameters_default →
  has_params s accounts_parameters_default.
Proof.
  intros Hok. unfold has_params. rewrite (run_ok _ _ _ Hok). f_equal.
  unfold accounts_params, params, typed_get, store. run_simpl. case_run.
Qed.

(** * Witnesses *)

Definition toy_units (x : N) : BaseUnits := BaseUnits_new x NATIVE.

Lemma transfer_moves_witness :
  ∃ s' L', transfer alice bob (toy_units 500) toy_acc_state = (Ok tt, s') ∧ ledger_of s' L' ∧
    balance L' bob NATIVE = 500%N.
Proof.
  destruct (TokenClaims.transfer_moves (λ _, 0%N) toy_ledger toy_acc_state alice bob (toy_units 500)
    toy_ledger_of toy_sound) as (r & s' & Hrun & -> & _ & L' & Hl' & _ & _ & Hb).
  exists s', L'. split; [exact Hrun|]. split; [exact Hl'|]. specialize (Hb bob NATIVE).
  replace (balance toy_ledger bob NATIVE) with 0%N in Hb by (vm_compute; reflexivity).
  rewrite decide_False in Hb by (vm_compute; discriminate). rewrite decide_True in Hb by reflexivity.
  unfold delta in Hb. simpl in Hb. rewrite N.add_0_r in Hb. exact Hb.
Defined.

Lemma mint_issues_witness :
  ∃ s' L', mint bob (toy_units 500) toy_acc_state = (Ok tt, s') ∧ ledger_of s' L' ∧
    supply_of L' NATIVE = 2507%N.
Proof.
  destruct (TokenClaims.mint_issues (λ _, 0%N) toy_ledger toy_acc_state bob (toy_units 500)
    toy_ledger_of toy_sound) as (r & s' & Hrun & -> & _ & L' & Hl' & _ & Hs & _).
  exists s', L'. split; [exact Hrun|]. split; [exact Hl'|]. rewrite Hs. vm_compute. reflexivity.
Defined.

Lemma burn_destroys_witness :
  burn bob (toy_units 500) toy_acc_state = (Err InsufficientBalance, toy_acc_state).
Proof.
  destruct (TokenClaims.burn_destroys (λ _, 0%N) toy_ledger toy_acc_state bob (toy_units 500)
    toy_ledger_of toy_sound) as (r & s' & Hrun & -> & ->). exact Hrun.
Defined.

Lemma after_dispatch_settles_witness :
  ∃ s' L' mgr', accounts_after_dispatch_tx toy_core_ctx toy_auth (CallOk value_null) toy_acc_state = (Ok tt, s') ∧
    accounted s' L' mgr'.
Proof.
  destruct (TokenClaims.after_dispatch_settles toy_core_ctx toy_auth (CallOk value_null) toy_acc_state
    toy_ledger fee_manager_new toy_accounted) as (s' & L' & mgr' & Hrun & Hac & _).
  exists s', L', mgr'. split; [exact Hrun|exact Hac].
Defined.

Lemma tokens_accounted_witness :
  ∃ L mgr, accounted (charge_tx_fee alice (toy_units 30)
                        (transfer alice bob (toy_units 500) toy_acc_state).2).2 L mgr.
Proof.
  apply (TokenClaims.tokens_accounted toy_acc_state).
  - eapply rtc_l; [eapply (step_transfer alice bob (toy_units 500)), run_ok; vm_compute; reflexivity|].
    eapply rtc_l; [eapply (step_charge alice (toy_units 30)), run_ok; vm_compute; reflexivity|].
    apply rtc_refl.
  - exists toy_ledger, fee_manager_new. exact toy_accounted.
Defined.

Definition toy_block_ctx : Ctx :=
  {| ctx_local_config := ∅; ctx_key_manager := None; ctx_round := 1; ctx_epoch := 4;
     ctx_good_compute_entities := [[x01; x02]; [x01; x03]]; ctx_bad_compute_entities := [[x01; x04]]; ctx_messages := []; ctx_max_messages := 2;
     ctx_now := 7000 |}.

(** Seven units of fees, two entities: three units each, one to the common pool. *)
Lemma end_block_disburses_witness :
  ∃ s' L', accounts_end_block toy_block_ctx toy_acc_state = (Ok tt, s') ∧ ledger_of s' L' ∧
    balance L' bob NATIVE = 3%N ∧ balance L' ADDRESS_COMMON_POOL NATIVE = 1%N.
Proof.
  destruct (EndBlock.end_block_disburses toy_block_ctx toy_acc_state toy_ledger None toy_ledger_of)
    as (s' & L' & Hrun & Hl' & _ & _ & Hb).
  - intros d. rewrite toy_total, toy_supply. unfold block_fees. simpl. rewrite lookup_empty. simpl.
    apply N.add_0_r.
  - reflexivity.
  - exists s', L'. split; [exact Hrun|]. split; [exact Hl'|]. rewrite !Hb. split; vm_compute; reflexivity.
Defined.

Lemma nonces_checked_exactly_witness :
  check_signer_nonces toy_auth toy_acc_state = (Ok alice, toy_acc_state).
Proof.
  apply (NonceClaims.nonces_checked_exactly toy_auth toy_acc_state toy_ledger accounts_parameters_default
    alice []); [exact toy_ledger_of|apply toy_account_params; vm_compute; reflexivity|reflexivity..].
Defined.

Lemma replay_rejected_witness :
  ∃ L', nonce_of L' alice = 1%N ∧
    let s' := (accounts_authenticate_tx toy_core_ctx toy_tx toy_acc_state).2 in
    accounts_authenticate_tx toy_core_ctx toy_tx s' = (Err InvalidNonce, s').
Proof.
  destruct (NonceClaims.replay_rejected toy_core_ctx toy_tx toy_acc_state toy_ledger
    accounts_parameters_default alice [] Continue
    (accounts_authenticate_tx toy_core_ctx toy_tx toy_acc_state).2) as (L' & Hl' & Hn & Hrej).
  - intros ctx tx s. split; reflexivity.
  - exact toy_ledger_of.
  - apply toy_account_params. vm_compute. reflexivity.
  - reflexivity.
  - reflexivity.
  - reflexivity.
  - apply run_ok. vm_compute. reflexivity.
  - exists L'. split; [rewrite Hn; vm_compute; reflexivity|].
    apply (Hrej _ L' accounts_parameters_default Hl'); [|reflexivity|intros a; reflexivity].
    apply toy_account_params. vm_compute. reflexivity.
Defined.

Lemma check_invariants_exact_witness :
  accounts_check_invariants toy_core_ctx toy_acc_state = (Ok tt, toy_acc_state).
Proof.
  destruct (InvariantClaims.check_invariants_exact toy_core_ctx toy_acc_state toy_ledger toy_ledger_of)
    as (r & Hrun & _ & Hiff).
  - intros d. rewrite toy_total. case_decide; vm_compute; discriminate.
  - rewrite Hrun. rewrite (proj2 Hiff); [reflexivity|]. intros d. split; [rewrite toy_total, toy_supply; reflexivity|].
    unfold toy_ledger, set_supply, tallied. simpl. split.
    + intros [x [[<- _]|[_ Hx]]%lookup_insert_Some]; [|rewrite lookup_empty in Hx; discriminate].
      exists alice. vm_compute. eexists. reflexivity.
    + intros (a & x & Hx). apply lookup_insert_Some in Hx as [[[= _ <-] _]|[_ Hx]]; [by rewrite lookup_insert_eq|].
      apply lookup_insert_Some in Hx as [[[= _ <-] _]|[_ Hx]]; [by rewrite lookup_insert_eq|].
      rewrite lookup_empty in Hx. discriminate.
Defined.
