(* ===== verification/ConsensusAccounts.v ===== *)
(** The consensus accounts module: deposits into and withdrawals from the runtime, delegation and
    undelegation, by messages to the consensus layer whose results arrive in the next round
    (src/runtime-sdk/src/modules/consensus_accounts/mod.rs, state.rs, types.rs). *)
From S2P Require Import Prelude Endian Storage StoreIter Types Fee Errors State Current Transactions Module.
From S2P Require Import Tables Core Consensus Accounts.

Local Open Scope string_scope.

Definition CONSENSUS_ACCOUNTS_MODULE_NAME : string := "consensus_accounts".

(** * Types *)

Inductive ConsensusAccountsError :=
  | CaInvalidArgument
  | CaInvalidDenomination
  | CaInsufficientBalance
  | CaForbidden
  | CaConsensus (source : ConsensusError)
  | CaCore (source : CoreError).

#[export] Instance consensus_accounts_sdk_error : SdkError ConsensusAccountsError := {
  module_name e := match e with
                   | CaConsensus source => module_name source
                   | CaCore source => module_name source
                   | _ => "consensus_accounts"
                   end;
  code e := match e with
            | CaInvalidArgument => 1
            | CaInvalidDenomination => 2
            | CaInsufficientBalance => 3
            | CaForbidden => 4
            | CaConsensus source => code source
            | CaCore source => code source
            end%N;
  to_string e := match e with
                 | CaInvalidArgument => "invalid argument"
                 | CaInvalidDenomination => "invalid denomination"
                 | CaInsufficientBalance => "insufficient balance"
                 | CaForbidden => "forbidden by policy"
                 | CaConsensus source => "consensus: " +:+ to_string source
                 | CaCore source => "core: " +:+ to_string source
                 end;
  into_abort e := match e with
                  | CaConsensus source => into_abort source
                  | CaCore source => into_abort source
                  | _ => None
                  end;
}.

Record ConsensusAccountsParameters := {
  tx_deposit_cost : N;
  tx_withdraw_cost : N;
  tx_delegate_cost : N;
  tx_undelegate_cost : N;
  store_receipt_cost : N;
  take_receipt_cost : N;
  delegation_cost : N;
  shares_to_tokens_cost : N;
  disable_delegate : bool;
  disable_undelegate : bool;
  disable_deposit : bool;
  disable_withdraw : bool;
}.
Definition consensus_accounts_parameters_default : ConsensusAccountsParameters :=
  {| tx_deposit_cost := 0; tx_withdraw_cost := 0; tx_delegate_cost := 0; tx_undelegate_cost := 0;
     store_receipt_cost := 0; take_receipt_cost := 0; delegation_cost := 0; shares_to_tokens_cost := 0;
     disable_delegate := false; disable_undelegate := false; disable_deposit := false;
     disable_withdraw := false |}.

Record Deposit := { dep_to : option Address; dep_amount : BaseUnits }.
Record Withdraw := { wd_to : option Address; wd_amount : BaseUnits }.
Record Delegate := { dg_to : Address; dg_amount : BaseUnits; dg_receipt : N }.
Record Undelegate := { ug_from : Address; ug_shares : N; ug_receipt : N }.

Inductive ReceiptKind := ReceiptInvalid | ReceiptDelegate | ReceiptUndelegateStart | ReceiptUndelegateDone.
#[export] Instance ReceiptKind_eq_dec : EqDecision ReceiptKind.
Proof. solve_decision. Defined.
Definition receipt_kind_is_valid (k : ReceiptKind) : bool :=
  match k with ReceiptInvalid => false | _ => true end.
Definition receipt_kind_byte (k : ReceiptKind) : Byte.byte :=
  match k with
  | ReceiptInvalid => x00
  | ReceiptDelegate => x01
  | ReceiptUndelegateStart => x02
  | ReceiptUndelegateDone => x03
  end.
Record TakeReceipt := { tkr_kind : ReceiptKind; tkr_id : N }.

(** Error details from the consensus layer. *)
Record ConsensusFailure := { cf_module : string; cf_code : N }.

Record Receipt := {
  rc_shares : N;
  rc_epoch : N;
  rc_receipt : N;
  rc_amount : N;
  rc_error : option ConsensusFailure;
}.
Definition receipt_default : Receipt :=
  {| rc_shares := 0; rc_epoch := 0; rc_receipt := 0; rc_amount := 0; rc_error := None |}.

Inductive SharePoolKind := PoolInvalid | PoolActive | PoolDebonding.
Record SharesToTokens := { stt_address : Address; stt_pool : SharePoolKind; stt_shares : N }.

Record DelegationInfo := { di_shares : N; di_receipt : N }.
Definition delegation_info_default : DelegationInfo := {| di_shares := 0; di_receipt := 0 |}.
Record CompleteDelegationInfo := { cdi_from : Address; cdi_to : Address; cdi_shares : N }.
Record UndelegationInfo := { ui_from : Address; ui_epoch : N; ui_shares : N }.

(** The contexts that travel with a message and come back with its result. *)
Record ConsensusTransferContext := {
  tc_to : Address; tc_nonce : N; tc_address : Address; tc_amount : BaseUnits }.
Record ConsensusWithdrawContext := {
  wc_from : Address; wc_nonce : N; wc_address : Address; wc_amount : BaseUnits }.
Record ConsensusDelegateContext := {
  dc_from : Address; dc_nonce : N; dc_to : Address; dc_amount : BaseUnits; dc_receipt : bool }.
Record ConsensusUndelegateContext := {
  uc_from : Address; uc_nonce : N; uc_to : Address; uc_shares : N; uc_receipt : bool }.

Inductive ConsensusAccountsEvent :=
  | EvDeposit (from : Address) (nonce : N) (to : Address) (amount : BaseUnits) (error : option ConsensusFailure)
  | EvWithdraw (from : Address) (nonce : N) (to : Address) (amount : BaseUnits) (error : option ConsensusFailure)
  | EvDelegate (from : Address) (nonce : N) (to : Address) (amount : BaseUnits)
      (error : option ConsensusFailure) (shares : option N)
  | EvUndelegateStart (from : Address) (nonce : N) (to : Address) (shares : N) (debond_end_time : N)
      (error : option ConsensusFailure)
  | EvUndelegateDone (from to : Address) (shares : N) (amount : BaseUnits) (epoch : option N).
Definition consensus_accounts_event_code (e : ConsensusAccountsEvent) : N :=
  match e with
  | EvDeposit _ _ _ _ _ => 1
  | EvWithdraw _ _ _ _ _ => 2
  | EvDelegate _ _ _ _ _ _ => 3
  | EvUndelegateStart _ _ _ _ _ _ => 4
  | EvUndelegateDone _ _ _ _ _ => 5
  end.

(** The results of the consensus layer: [AddEscrowResult] and [ReclaimEscrowResult]. *)
Record AddEscrowResult := { aer_new_shares : N }.
Record ReclaimEscrowResult := { rer_debonding_shares : N; rer_debond_end_time : N }.

Class ConsensusAccountsCodec `{Platform} := {
  ca_parameters_cbor :: Cbor ConsensusAccountsParameters;
  ca_delegation_info_cbor :: Cbor DelegationInfo;
  ca_receipt_cbor :: Cbor Receipt;
  ca_unit_cbor :: Cbor unit;
  ca_event_value : ConsensusAccountsEvent → Value;
  ca_transfer_context :: CborValue ConsensusTransferContext;
  ca_withdraw_context :: CborValue ConsensusWithdrawContext;
  ca_delegate_context :: CborValue ConsensusDelegateContext;
  ca_undelegate_context :: CborValue ConsensusUndelegateContext;
  ca_add_escrow_result :: CborValue AddEscrowResult;
  ca_reclaim_escrow_result :: CborValue ReclaimEscrowResult;
  ca_deposit :: CborValue Deposit;
  ca_withdraw :: CborValue Withdraw;
  ca_delegate :: CborValue Delegate;
  ca_undelegate :: CborValue Undelegate;
  ca_take_receipt :: CborValue TakeReceipt;
  ca_receipt_option :: CborValue (option Receipt);
  ca_delegation_query :: CborValue (Address * Address);
  ca_delegation_info_value :: CborValue DelegationInfo;
  ca_shares_to_tokens :: CborValue SharesToTokens;
  ca_amount_value :: CborValue N;
  ca_unit_result :: CborValue unit;
}.

(** * State schema *)

Definition DELEGATIONS : bytes := [x01].
Definition UNDELEGATIONS : bytes := [x02].
Definition UNDELEGATION_QUEUE : bytes := [x03].
Definition RECEIPTS : bytes := [x04].

Definition ca_store : StoreRef := PrefixStore CurrentStore (str CONSENSUS_ACCOUNTS_MODULE_NAME).
Definition delegations_ref : StoreRef := PrefixStore ca_store DELEGATIONS.
Definition delegations_of_ref (from : Address) : StoreRef := PrefixStore delegations_ref (raw from).
Definition undelegations_ref : StoreRef := PrefixStore ca_store UNDELEGATIONS.
Definition undelegations_to_ref (to : Address) : StoreRef := PrefixStore undelegations_ref (raw to).
Definition undelegation_ref (to from : Address) : StoreRef := PrefixStore (undelegations_to_ref to) (raw from).
Definition queue_ref : StoreRef := PrefixStore ca_store UNDELEGATION_QUEUE.
Definition receipts_ref (owner : Address) (kind : ReceiptKind) : StoreRef :=
  PrefixStore (PrefixStore (PrefixStore ca_store RECEIPTS) (raw owner)) [receipt_kind_byte kind].

(** Keys of the tables; slicing a key that is too short panics, like a malformed key does. *)
Definition address_key (b : bytes) : string + Address :=
  match address_from_bytes b with Some a => inr a | None => inl "malformed address" end.
Definition address_pair (b : bytes) : string + Address * Address :=
  match address_from_bytes (take ADDRESS_SIZE b), address_from_bytes (drop ADDRESS_SIZE b) with
  | Some a, Some a' => inr (a, a')
  | _, _ => inl "malformed address"
  end.
Definition address_with_epoch (b : bytes) : string + Address * N :=
  if negb (List.length b =? ADDRESS_SIZE + 8)%nat then inl "incorrect address with epoch key size"
  else match address_from_bytes (take ADDRESS_SIZE b) with
       | Some from => inr (from, from_be (drop ADDRESS_SIZE b))
       | None => inl "malformed address"
       end.
Definition address_pair_with_epoch (b : bytes) : string + Address * Address * N :=
  if negb (List.length b =? 2 * ADDRESS_SIZE + 8)%nat then inl "incorrect address pair with epoch key size"
  else match address_from_bytes (take ADDRESS_SIZE b),
             address_from_bytes (take ADDRESS_SIZE (drop ADDRESS_SIZE b)) with
       | Some a, Some a' => inr (a, a', from_be (drop (2 * ADDRESS_SIZE) b))
       | _, _ => inl "malformed address"
       end.

Record Undelegation := { ud_from : Address; ud_to : Address; ud_epoch : N }.
(** A key of the queue: epoch, to, from. *)
Definition undelegation_key (b : bytes) : string + Undelegation :=
  if negb (List.length b =? 2 * ADDRESS_SIZE + 8)%nat then inl "incorrect undelegation key size"
  else match address_from_bytes (take ADDRESS_SIZE (drop 8 b)),
             address_from_bytes (drop (8 + ADDRESS_SIZE) b) with
       | Some to, Some from =>
           inr {| ud_from := from; ud_to := to; ud_epoch := from_be (take 8 b) |}
       | _, _ => inl "malformed address"
       end.
Definition queue_entry_key (from to : Address) (epoch : N) : bytes :=
  (be_bytes64 epoch ++ raw to ++ raw from)%list.

Section state.
Context `{Platform} `{!ConsensusAccountsCodec}.

(** An untyped write. *)
Definition raw_insert {E} (r : StoreRef) (key value : bytes) : M E unit :=
  st ← store; put_store (ref_insert st r key value).

(** * Delegations *)

Definition get_delegation {E} (from to : Address) : M E DelegationInfo :=
  di ← typed_get (delegations_of_ref from) (raw to); mret (default delegation_info_default di).

Definition add_delegation (from to : Address) (shares : N) : M ConsensusAccountsError unit :=
  di ← get_delegation from to;
  n ← ok_or (checked_add u128_max (di_shares di) shares) CaInvalidArgument;
  typed_insert (delegations_of_ref from) (raw to) {| di_shares := n; di_receipt := di_receipt di |}.

Definition sub_delegation (from to : Address) (shares : N) : M ConsensusAccountsError unit :=
  di ← get_delegation from to;
  n ← ok_or (checked_sub (di_shares di) shares) CaInsufficientBalance;
  if (0 <? n)%N
  then typed_insert (delegations_of_ref from) (raw to) {| di_shares := n; di_receipt := di_receipt di |}
  else typed_remove (delegations_of_ref from) (raw to).

Definition get_delegations {E} (from : Address) : M E (list (Address * N)) :=
  l ← typed_iter address_key delegation_info_default (delegations_of_ref from);
  mret ((λ '(to, di), (to, di_shares di)) <$> l).

Definition add_by_destination (m : gmap Address N) (x : Address * Address * DelegationInfo)
    : M ConsensusAccountsError (gmap Address N) :=
  let '((_, to), di) := x in
  n ← ok_or (checked_add u128_max (default 0%N (m !! to)) (di_shares di)) CaInvalidArgument;
  mret (<[to := n]> m).
Definition get_delegations_by_destination : M ConsensusAccountsError (gmap Address N) :=
  l ← typed_iter address_pair delegation_info_default delegations_ref;
  fold_m l ∅ add_by_destination.

Definition get_all_delegations {E} : M E (list CompleteDelegationInfo) :=
  l ← typed_iter address_pair delegation_info_default delegations_ref;
  mret ((λ '((from, to), di), {| cdi_from := from; cdi_to := to; cdi_shares := di_shares di |}) <$> l).

(** * Undelegations *)

Definition add_undelegation (from to : Address) (epoch shares receipt : N) : M ConsensusAccountsError N :=
  di ← typed_get (undelegation_ref to from) (be_bytes64 epoch);
  let di := default delegation_info_default di in
  let done_receipt := if (0 <? receipt)%N && (di_receipt di =? 0)%N then receipt else di_receipt di in
  n ← ok_or (checked_add u128_max (di_shares di) shares) CaInvalidArgument;
  typed_insert (undelegation_ref to from) (be_bytes64 epoch) {| di_shares := n; di_receipt := done_receipt |} ;;
  raw_insert queue_ref (queue_entry_key from to epoch) [xf6] ;;
  mret done_receipt.

Definition take_undelegation {E} (ud : Undelegation) : M E DelegationInfo :=
  di ← typed_get (undelegation_ref (ud_to ud) (ud_from ud)) (be_bytes64 (ud_epoch ud));
  typed_remove (undelegation_ref (ud_to ud) (ud_from ud)) (be_bytes64 (ud_epoch ud)) ;;
  typed_remove queue_ref (queue_entry_key (ud_from ud) (ud_to ud) (ud_epoch ud)) ;;
  mret (default delegation_info_default di).

Definition get_undelegations {E} (to : Address) : M E (list UndelegationInfo) :=
  l ← typed_iter address_with_epoch delegation_info_default (undelegations_to_ref to);
  mret ((λ '((from, epoch), di), {| ui_from := from; ui_epoch := epoch; ui_shares := di_shares di |}) <$> l).

Definition get_all_undelegations {E} : M E (list (Undelegation * N)) :=
  l ← typed_iter address_pair_with_epoch delegation_info_default undelegations_ref;
  mret ((λ '((to, from, epoch), di),
           ({| ud_from := from; ud_to := to; ud_epoch := epoch |}, di_shares di)) <$> l).

(** [take_while] over a typed iterator: the entries behind the first one that fails are not decoded. *)
Fixpoint take_items {E K V} `{!Cbor V} (try_from : bytes → string + K) (dflt : V) (p : K → bool)
    (l : list (bytes * bytes)) : M E (list K) :=
  match l with
  | [] => mret []
  | kv :: l' =>
      x ← typed_item try_from dflt kv;
      if p x.1 then xs ← take_items try_from dflt p l'; mret (x.1 :: xs) else mret []
  end.

Definition get_queued_undelegations {E} (epoch : N) : M E (list Undelegation) :=
  st ← store;
  match ref_collect st queue_ref with
  | Ok l => take_items undelegation_key tt (λ ud, (ud_epoch ud <=? epoch)%N) l
  | Err e => match e with end
  | Panic msg => panic msg
  end.

(** * Receipts *)

Definition set_receipt {E} (owner : Address) (kind : ReceiptKind) (id : N) (receipt : Receipt) : M E unit :=
  typed_insert (receipts_ref owner kind) (be_bytes64 id) receipt.

Definition take_receipt {E} (owner : Address) (kind : ReceiptKind) (id : N) : M E (option Receipt) :=
  receipt ← typed_get (receipts_ref owner kind) (be_bytes64 id);
  typed_remove (receipts_ref owner kind) (be_bytes64 id) ;;
  mret receipt.
End state.

(** * Operations *)

Section operations.
Context `{Platform} `{!ConsensusLayer} `{!ConsensusAPI} `{!ConsensusAccountsCodec} `{!AccountsCodec}.

Definition ADDRESS_PENDING_WITHDRAWAL : Address :=
  from_module CONSENSUS_ACCOUNTS_MODULE_NAME "pending-withdrawal".
Definition ADDRESS_PENDING_DELEGATION : Address :=
  from_module CONSENSUS_ACCOUNTS_MODULE_NAME "pending-delegation".

Definition CONSENSUS_TRANSFER_HANDLER : string := "consensus.TransferFromRuntime".
Definition CONSENSUS_WITHDRAW_HANDLER : string := "consensus.WithdrawIntoRuntime".
Definition CONSENSUS_DELEGATE_HANDLER : string := "consensus.Delegate".
Definition CONSENSUS_UNDELEGATE_HANDLER : string := "consensus.Undelegate".

Definition ca_params {E} : M E ConsensusAccountsParameters :=
  params CONSENSUS_ACCOUNTS_MODULE_NAME consensus_accounts_parameters_default.
(** [Module::init], from genesis. *)
Definition consensus_accounts_init {E} (parameters : ConsensusAccountsParameters) : M E unit :=
  set_params CONSENSUS_ACCOUNTS_MODULE_NAME parameters.

Definition consensus_accounts_event (e : ConsensusAccountsEvent) : EventTag :=
  etag_for_event CONSENSUS_ACCOUNTS_MODULE_NAME (consensus_accounts_event_code e) (ca_event_value e).
Definition emit_ca_event {E} (e : ConsensusAccountsEvent) : M E unit :=
  emit_event_raw (consensus_accounts_event e).

(** [MessageEventHookInvocation::new]. *)
Definition hook_new {T} `{!CborValue T} (name : string) (payload : T) : MessageEventHookInvocation :=
  {| hook_name := name; hook_payload := to_value payload |}.

Definition deposit (ctx : Ctx) (from : Address) (nonce : N) (to : Address) (a : BaseUnits)
    : M ConsensusAccountsError unit :=
  map_err CaConsensus (cs_withdraw ctx from a
    (hook_new CONSENSUS_WITHDRAW_HANDLER
       {| wc_from := from; wc_nonce := nonce; wc_address := to; wc_amount := a |})).

Definition withdraw (ctx : Ctx) (from : Address) (nonce : N) (to : Address) (a : BaseUnits)
    : M ConsensusAccountsError unit :=
  map_err CaConsensus (cs_transfer ctx to a
    (hook_new CONSENSUS_TRANSFER_HANDLER
       {| tc_to := to; tc_nonce := nonce; tc_address := from; tc_amount := a |})) ;;
  check_only ← with_env is_check_only;
  if (check_only : bool) then mret tt
  else map_err (λ _, CaInsufficientBalance) (transfer from ADDRESS_PENDING_WITHDRAWAL a).

Definition delegate (ctx : Ctx) (from : Address) (nonce : N) (to : Address) (a : BaseUnits) (receipt : bool)
    : M ConsensusAccountsError unit :=
  map_err CaConsensus (cs_escrow ctx to a
    (hook_new CONSENSUS_DELEGATE_HANDLER
       {| dc_from := from; dc_nonce := nonce; dc_to := to; dc_amount := a; dc_receipt := receipt |})) ;;
  check_only ← with_env is_check_only;
  if (check_only : bool) then mret tt
  else map_err (λ _, CaInsufficientBalance) (transfer from ADDRESS_PENDING_DELEGATION a).

Definition undelegate (ctx : Ctx) (from : Address) (nonce : N) (to : Address) (shares : N) (receipt : bool)
    : M ConsensusAccountsError unit :=
  sub_delegation to from shares ;;
  map_err CaConsensus (cs_reclaim_escrow ctx from shares
    (hook_new CONSENSUS_UNDELEGATE_HANDLER
       {| uc_from := from; uc_nonce := nonce; uc_to := to; uc_shares := shares; uc_receipt := receipt |})).

(** ** Message results *)

Definition consensus_failure (me : MessageEvent) : ConsensusFailure :=
  {| cf_module := message_module me; cf_code := message_code me |}.

Definition message_result_transfer (me : MessageEvent) (c : ConsensusTransferContext) : M Empty_set unit :=
  if negb (message_is_success me) then
    unwrap_or_panic "should have enough balance"
      (transfer ADDRESS_PENDING_WITHDRAWAL (tc_address c) (tc_amount c)) ;;
    emit_ca_event (EvWithdraw (tc_address c) (tc_nonce c) (tc_to c) (tc_amount c) (Some (consensus_failure me)))
  else
    unwrap_or_panic "should have enough balance" (burn ADDRESS_PENDING_WITHDRAWAL (tc_amount c)) ;;
    emit_ca_event (EvWithdraw (tc_address c) (tc_nonce c) (tc_to c) (tc_amount c) None).

Definition message_result_withdraw (me : MessageEvent) (c : ConsensusWithdrawContext) : M Empty_set unit :=
  if negb (message_is_success me) then
    emit_ca_event (EvDeposit (wc_from c) (wc_nonce c) (wc_address c) (wc_amount c) (Some (consensus_failure me)))
  else
    unwrap_or_panic "called Result::unwrap on an Err value" (mint (wc_address c) (wc_amount c)) ;;
    emit_ca_event (EvDeposit (wc_from c) (wc_nonce c) (wc_address c) (wc_amount c) None).

(** [me.result.expect(..)], decoded, and the conversion of a quantity to a [u128]. *)
Definition decode_message_result {T} `{!CborValue T} (me : MessageEvent) : M Empty_set T :=
  result ← expect (message_result me) "event from consensus should have a result";
  expect (from_value result) "called Result::unwrap on an Err value".
Definition quantity_to_u128 {E} (n : N) : M E N :=
  if (u128_max <? n)%N then panic "called Result::unwrap on an Err value" else mret n.

Definition message_result_delegate (me : MessageEvent) (c : ConsensusDelegateContext) : M Empty_set unit :=
  if negb (message_is_success me) then
    unwrap_or_panic "should have enough balance"
      (transfer ADDRESS_PENDING_DELEGATION (dc_from c) (dc_amount c)) ;;
    (if dc_receipt c then
       set_receipt (dc_from c) ReceiptDelegate (dc_nonce c)
         {| rc_shares := 0; rc_epoch := 0; rc_receipt := 0; rc_amount := 0;
            rc_error := Some (consensus_failure me) |}
     else mret tt) ;;
    emit_ca_event (EvDelegate (dc_from c) (dc_nonce c) (dc_to c) (dc_amount c)
                     (Some (consensus_failure me)) None)
  else
    unwrap_or_panic "should have enough balance" (burn ADDRESS_PENDING_DELEGATION (dc_amount c)) ;;
    result ← decode_message_result (T := AddEscrowResult) me;
    shares ← quantity_to_u128 (aer_new_shares result);
    unwrap_or_panic "called Result::unwrap on an Err value" (add_delegation (dc_from c) (dc_to c) shares) ;;
    (if dc_receipt c then
       set_receipt (dc_from c) ReceiptDelegate (dc_nonce c)
         {| rc_shares := shares; rc_epoch := 0; rc_receipt := 0; rc_amount := 0; rc_error := None |}
     else mret tt) ;;
    emit_ca_event (EvDelegate (dc_from c) (dc_nonce c) (dc_to c) (dc_amount c) None (Some shares)).

Definition EPOCH_INVALID : N := u64_max.

Definition message_result_undelegate (me : MessageEvent) (c : ConsensusUndelegateContext) : M Empty_set unit :=
  if negb (message_is_success me) then
    unwrap_or_panic "called Result::unwrap on an Err value"
      (add_delegation (uc_to c) (uc_from c) (uc_shares c)) ;;
    (if uc_receipt c then
       set_receipt (uc_to c) ReceiptUndelegateStart (uc_nonce c)
         {| rc_shares := 0; rc_epoch := 0; rc_receipt := 0; rc_amount := 0;
            rc_error := Some (consensus_failure me) |}
     else mret tt) ;;
    emit_ca_event (EvUndelegateStart (uc_from c) (uc_nonce c) (uc_to c) (uc_shares c) EPOCH_INVALID
                     (Some (consensus_failure me)))
  else
    result ← decode_message_result (T := ReclaimEscrowResult) me;
    debonding_shares ← quantity_to_u128 (rer_debonding_shares result);
    let receipt := if uc_receipt c then uc_nonce c else 0%N in
    done_receipt ← unwrap_or_panic "called Result::unwrap on an Err value"
      (add_undelegation (uc_from c) (uc_to c) (rer_debond_end_time result) debonding_shares receipt);
    (if uc_receipt c then
       set_receipt (uc_to c) ReceiptUndelegateStart (uc_nonce c)
         {| rc_shares := 0; rc_epoch := rer_debond_end_time result; rc_receipt := done_receipt;
            rc_amount := 0; rc_error := None |}
     else mret tt) ;;
    emit_ca_event (EvUndelegateStart (uc_from c) (uc_nonce c) (uc_to c) (uc_shares c)
                     (rer_debond_end_time result) None).

(** ** End of the block *)

Context `{!LruCache (N * Address) (N * N)}.

(** The event of the reclaim from an escrow account by the runtime. *)
Fixpoint find_reclaim {E} (own from : Address) (events : list StakingEvent) : M E (option (N * N)) :=
  match events with
  | [] => mret None
  | EscrowReclaim owner escrow amount shares :: events' =>
      if bool_decide (owner = own) && bool_decide (escrow = from) then
        amount ← quantity_to_u128 amount;
        shares ← quantity_to_u128 shares;
        mret (Some (amount, shares))
      else find_reclaim own from events'
  | OtherStakingEvent :: events' => find_reclaim own from events'
  end.

(** What the runtime received for the reclaim at an epoch, remembered for the rest of the loop. *)
Definition reclaim_totals (ctx : Ctx) (own : Address) (reclaims : lru (N * Address) (N * N)) (ud : Undelegation)
    : M Empty_set ((N * N) * lru (N * Address) (N * N)) :=
  match lru_get (ud_epoch ud, ud_from ud) reclaims with
  | (Some totals, reclaims) => mret (totals, reclaims)
  | (None, reclaims) =>
      height ← unwrap_or_panic "failed to determine height for epoch" (cs_height_for_epoch ctx (ud_epoch ud));
      events ← (match consensus_events_at ctx height with
                | inr events => mret events
                | inl _ => panic "failed to fetch historic events"
                end);
      found ← find_reclaim own (ud_from ud) events;
      totals ← expect found "reclaim event should have been emitted";
      mret (totals, lru_put (ud_epoch ud, ud_from ud) totals reclaims)
  end.

Definition process_undelegation (ctx : Ctx) (own : Address) (d : Denomination)
    (reclaims : lru (N * Address) (N * N)) (ud : Undelegation) : M Empty_set (lru (N * Address) (N * N)) :=
  udi ← take_undelegation ud;
  r ← reclaim_totals ctx own reclaims ud;
  let '((total_amount, total_shares), reclaims) := r in
  product ← expect (checked_mul u128_max (di_shares udi) total_amount)
              "shares * total_amount should not overflow";
  amount ← expect (checked_div product total_shares) "total_shares should not be zero";
  raw_amount ← unwrap_or_panic "called Result::unwrap on an Err value" (cs_amount_from_consensus ctx amount);
  let a := BaseUnits_new raw_amount d in
  unwrap_or_panic "called Result::unwrap on an Err value" (mint (ud_to ud) a) ;;
  (if (0 <? di_receipt udi)%N then
     set_receipt (ud_to ud) ReceiptUndelegateDone (di_receipt udi)
       {| rc_shares := 0; rc_epoch := 0; rc_receipt := 0; rc_amount := raw_amount; rc_error := None |}
   else mret tt) ;;
  emit_ca_event (EvUndelegateDone (ud_from ud) (ud_to ud) (di_shares udi) a (Some (ud_epoch ud))) ;;
  mret reclaims.

(** [Address::from_runtime_id]. *)
Definition ADDRESS_RUNTIME_V0_CONTEXT : bytes := str "oasis-core/address: runtime".
Definition ADDRESS_RUNTIME_V0_VERSION : Byte.byte := x00.
Definition from_runtime_id (id : bytes) : Address :=
  address_new ADDRESS_RUNTIME_V0_CONTEXT ADDRESS_RUNTIME_V0_VERSION id.

Definition consensus_accounts_end_block (ctx : Ctx) : M Empty_set unit :=
  changed ← has_epoch_changed;
  if negb changed then mret tt
  else
    let own := from_runtime_id (runtime_id ctx) in
    d ← unwrap_or_panic "called Result::unwrap on an Err value" cs_denomination;
    qd ← get_queued_undelegations (ctx_epoch ctx);
    fold_m qd (lru_new 128) (process_undelegation ctx own d) ;;
    mret tt.

(** ** Invariants *)

Definition check_delegation (ctx : Ctx) (rt_addr : Address) (x : Address * N) : M CoreError unit :=
  let '(to, shares) := x in
  cons_shares ← map_err (λ _, InvariantViolation "unable to fetch consensus delegation")
                  (cs_delegation ctx rt_addr to);
  if (cons_shares <? shares)%N
  then throw (InvariantViolation "runtime does not have enough shares delegated") else mret tt.

Definition consensus_accounts_check_invariants (ctx : Ctx) : M CoreError unit :=
  den ← unwrap_or_panic "called Result::unwrap on an Err value" cs_denomination;
  ts ← get_total_supplies;
  let rt_addr := from_runtime_id (runtime_id ctx) in
  acct ← try_ (cs_account ctx rt_addr);
  let rt_acct := match acct with inr a => a | inl _ => consensus_account_default end in
  let rt_ga_balance := N.min (ca_general_balance rt_acct) u128_max in
  rt_ga_balance ← map_err (λ _, InvariantViolation "runtime's consensus balance is not representable")
                    (cs_amount_from_consensus ctx rt_ga_balance);
  (if (default 0 (ts !! den) <=? rt_ga_balance)%N then mret tt
   else throw (InvariantViolation "total supply is greater than runtime's general account balance")) ;;
  delegations ← map_err (λ _, InvariantViolation "unable to get delegations") get_delegations_by_destination;
  for_each (address_iter delegations) (check_delegation ctx rt_addr).
End operations.

(** * Methods *)

Section methods.
Context `{Platform} `{!ConsensusLayer} `{!ConsensusAPI} `{!ConsensusAccountsCodec} `{!AccountsCodec}.
Context `{!CoreCodec} `{!CoreConfig} `{!LruCache (N * Address) (N * N)}.

(** [tx_auth_info().signer_info[0]]. *)
Definition first_signer {E} : M E SignerInfo :=
  ai ← with_tx_env env_tx_auth_info; expect (head (signer_info ai)) "index out of bounds".

Definition tx_deposit (ctx : Ctx) (body : Deposit) : M ConsensusAccountsError unit :=
  p ← ca_params;
  map_err CaCore (use_tx_gas (tx_deposit_cost p)) ;;
  if disable_deposit p then throw CaForbidden
  else
    signer ← first_signer;
    map_err CaConsensus cs_ensure_compatible_tx_signer ;;
    let address := address_spec_address (si_address_spec signer) in
    deposit ctx address (si_nonce signer) (default address (dep_to body)) (dep_amount body).

Definition prefetch_withdraw (prefixes : gset bytes) (_ : Value) (auth_info : AuthInfo)
    : Outcome RuntimeError unit * gset bytes :=
  match signer_info auth_info with
  | [] => (Panic "index out of bounds", prefixes)
  | si :: _ =>
      let addr := address_spec_address (si_address_spec si) in
      (Ok tt, {[(str ACCOUNTS_MODULE_NAME ++ BALANCES ++ raw addr)%list]} ∪ prefixes)
  end.

Definition tx_withdraw (ctx : Ctx) (body : Withdraw) : M ConsensusAccountsError unit :=
  p ← ca_params;
  map_err CaCore (use_tx_gas (tx_withdraw_cost p)) ;;
  if disable_withdraw p then throw CaForbidden
  else
    (match wd_to body with
     | None => map_err CaConsensus cs_ensure_compatible_tx_signer
     | Some _ => mret tt
     end) ;;
    signer ← first_signer;
    let address := address_spec_address (si_address_spec signer) in
    withdraw ctx address (si_nonce signer) (default address (wd_to body)) (wd_amount body).

(** Receipts can be requested only internally; the identifier of the receipt is then the nonce. *)
Definition ensure_receipt_internal (receipt : N) : M ConsensusAccountsError unit :=
  internal ← with_env env_internal;
  if (0 <? receipt)%N && negb internal then throw CaInvalidArgument else mret tt.

Definition tx_delegate (ctx : Ctx) (body : Delegate) : M ConsensusAccountsError unit :=
  p ← ca_params;
  map_err CaCore (use_tx_gas (tx_delegate_cost p)) ;;
  let store_receipt := (0 <? dg_receipt body)%N in
  (if store_receipt then map_err CaCore (use_tx_gas (store_receipt_cost p)) else mret tt) ;;
  if disable_delegate p then throw CaForbidden
  else
    ensure_receipt_internal (dg_receipt body) ;;
    signer ← first_signer;
    let from := address_spec_address (si_address_spec signer) in
    let nonce := if store_receipt then dg_receipt body else si_nonce signer in
    delegate ctx from nonce (dg_to body) (dg_amount body) store_receipt.

Definition tx_undelegate (ctx : Ctx) (body : Undelegate) : M ConsensusAccountsError unit :=
  p ← ca_params;
  map_err CaCore (use_tx_gas (tx_undelegate_cost p)) ;;
  let store_receipt := (0 <? ug_receipt body)%N in
  (if store_receipt then map_err CaCore (use_tx_gas (store_receipt_cost p)) else mret tt) ;;
  if disable_undelegate p then throw CaForbidden
  else
    ensure_receipt_internal (ug_receipt body) ;;
    signer ← first_signer;
    let to := address_spec_address (si_address_spec signer) in
    let nonce := if store_receipt then ug_receipt body else si_nonce signer in
    undelegate ctx (ug_from body) nonce to (ug_shares body) store_receipt.

Definition internal_take_receipt (_ : Ctx) (body : TakeReceipt) : M ConsensusAccountsError (option Receipt) :=
  p ← ca_params;
  map_err CaCore (use_tx_gas (take_receipt_cost p)) ;;
  if negb (receipt_kind_is_valid (tkr_kind body)) then throw CaInvalidArgument
  else
    caller ← with_tx_env env_tx_caller_address;
    take_receipt caller (tkr_kind body) (tkr_id body).

Definition query_balance (address : Address) : M ConsensusAccountsError N :=
  denomination ← map_err CaConsensus cs_denomination;
  balances ← get_balances address;
  mret (default 0%N (balances !! denomination)).

Definition internal_delegation (_ : Ctx) (args : Address * Address) : M ConsensusAccountsError DelegationInfo :=
  p ← ca_params;
  map_err CaCore (use_tx_gas (delegation_cost p)) ;;
  get_delegation args.1 args.2.

(** [u128::try_from] of a quantity. *)
Definition quantity_try_u128 (n : N) : M ConsensusAccountsError N :=
  if (u128_max <? n)%N then throw CaInvalidArgument else mret n.

Definition internal_shares_to_tokens (ctx : Ctx) (args : SharesToTokens) : M ConsensusAccountsError N :=
  p ← ca_params;
  map_err CaCore (use_tx_gas (shares_to_tokens_cost p)) ;;
  account ← map_err CaConsensus (cs_account ctx (stt_address args));
  pool ← (match stt_pool args with
          | PoolActive => mret (ca_escrow_active account)
          | PoolDebonding => mret (ca_escrow_debonding account)
          | PoolInvalid => throw CaInvalidArgument
          end);
  balance ← quantity_try_u128 (pool_balance pool);
  product ← ok_or (checked_mul u128_max (stt_shares args) balance) CaInvalidArgument;
  total ← quantity_try_u128 (pool_total_shares pool);
  ok_or (checked_div product total) CaInvalidArgument.

(** ** The method tables *)

(** A message result with its context decoded. *)
Definition dispatch_message_with {T} `{!CborValue T} (result : MessageResult)
    (f : MessageEvent → T → M Empty_set unit) : M Empty_set (DispatchResult MessageResult unit) :=
  context ← expect (from_value (mr_context result)) "invalid message handler context";
  f (mr_event result) context ;;
  mret (Handled tt).

Definition ca_dispatch_message_result (_ : Ctx) (name : string) (result : MessageResult)
    : M Empty_set (DispatchResult MessageResult unit) :=
  if bool_decide (name = CONSENSUS_TRANSFER_HANDLER) then dispatch_message_with result message_result_transfer
  else if bool_decide (name = CONSENSUS_WITHDRAW_HANDLER) then dispatch_message_with result message_result_withdraw
  else if bool_decide (name = CONSENSUS_DELEGATE_HANDLER) then dispatch_message_with result message_result_delegate
  else if bool_decide (name = CONSENSUS_UNDELEGATE_HANDLER)
  then dispatch_message_with result message_result_undelegate
  else mret (Unhandled result).

Definition ca_dispatch_call (ctx : Ctx) (method : string) (body : Value)
    : M Empty_set (DispatchResult Value CallResult) :=
  if bool_decide (method = "consensus.Deposit") then dispatch_call_with body (tx_deposit ctx)
  else if bool_decide (method = "consensus.Withdraw") then dispatch_call_with body (tx_withdraw ctx)
  else if bool_decide (method = "consensus.Delegate") then dispatch_call_with body (tx_delegate ctx)
  else if bool_decide (method = "consensus.Undelegate") then dispatch_call_with body (tx_undelegate ctx)
  else if bool_decide (method = "consensus.TakeReceipt")
  then dispatch_call_with body (internal_only (CaCore Forbidden) internal_take_receipt ctx)
  else if bool_decide (method = "consensus.Delegation")
  then dispatch_call_with body (internal_only (CaCore Forbidden) internal_delegation ctx)
  else if bool_decide (method = "consensus.SharesToTokens")
  then dispatch_call_with body (internal_only (CaCore Forbidden) internal_shares_to_tokens ctx)
  else mret (Unhandled body).

(** The queries only read; their table is taken from [queries]. *)
Definition consensus_accounts_handlers (queries : Handlers) : Handlers := {|
  prefetch := prefetch queries;
  dispatch_call := ca_dispatch_call;
  dispatch_query := dispatch_query queries;
  dispatch_message_result := ca_dispatch_message_result;
  is_expensive_query method :=
    bool_decide (method = "consensus.AllDelegations") || bool_decide (method = "consensus.AllUndelegations");
  is_allowed_private_km_query := is_allowed_private_km_query default_handlers;
  is_allowed_interactive_call := is_allowed_interactive_call default_handlers;
  approve_raw_tx := approve_raw_tx default_handlers;
  approve_unverified_tx := approve_unverified_tx default_handlers;
  decode_tx := decode_tx default_handlers;
  authenticate_tx := authenticate_tx default_handlers;
  before_handle_call := before_handle_call default_handlers;
  before_authorized_call_dispatch := before_authorized_call_dispatch default_handlers;
  after_handle_call := after_handle_call default_handlers;
  after_dispatch_tx := after_dispatch_tx default_handlers;
  begin_block := begin_block default_handlers;
  end_block := consensus_accounts_end_block;
  check_invariants := consensus_accounts_check_invariants;
|}.
End methods.
