(* ===== verification/Delegations.v ===== *)
(** The tables of the consensus accounts module as finite maps, and the refinement of the operations on
    them: delegations, undelegations, and the queue of undelegations by epoch
    (src/runtime-sdk/src/modules/consensus_accounts/state.rs). *)
From S2P Require Import Prelude Endian Storage StoreIter Types Fee Errors State Current Transactions Module.
From S2P Require Import Tables Core Consensus Accounts Ledger ConsensusAccounts.

(** * The tables *)

#[export] Instance Undelegation_eq_dec : EqDecision Undelegation.
Proof. solve_decision. Defined.
#[export] Instance Undelegation_countable : Countable Undelegation.
Proof.
  apply (inj_countable' (λ ud, (ud_from ud, ud_to ud, ud_epoch ud))
           (λ '(f, t, e), {| ud_from := f; ud_to := t; ud_epoch := e |})).
  by intros [].
Defined.

(** Delegations are by owner and destination; undelegations and the queue by owner, origin and epoch. *)
Record Shares := {
  delegations : gmap (Address * Address) DelegationInfo;
  undelegations : gmap Undelegation DelegationInfo;
  queue : gmap Undelegation unit;
}.

Definition set_delegation (k : Address * Address) (di : DelegationInfo) (D : Shares) : Shares :=
  {| delegations := <[k := di]> (delegations D); undelegations := undelegations D; queue := queue D |}.
Definition drop_delegation (k : Address * Address) (D : Shares) : Shares :=
  {| delegations := delete k (delegations D); undelegations := undelegations D; queue := queue D |}.
Definition put_undelegation (ud : Undelegation) (di : DelegationInfo) (D : Shares) : Shares :=
  {| delegations := delegations D; undelegations := <[ud := di]> (undelegations D);
     queue := <[ud := tt]> (queue D) |}.
Definition drop_undelegation (ud : Undelegation) (D : Shares) : Shares :=
  {| delegations := delegations D; undelegations := delete ud (undelegations D); queue := delete ud (queue D) |}.

Definition delegation (D : Shares) (from to : Address) : DelegationInfo :=
  default delegation_info_default (delegations D !! (from, to)).
Definition undelegation (D : Shares) (ud : Undelegation) : DelegationInfo :=
  default delegation_info_default (undelegations D !! ud).

(** The abstract operations. *)
Definition spec_add_delegation (from to : Address) (n : N) (D : Shares) : ConsensusAccountsError + unit * Shares :=
  let di := delegation D from to in
  if (di_shares di + n <=? u128_max)%N
  then inr (tt, set_delegation (from, to) {| di_shares := di_shares di + n; di_receipt := di_receipt di |} D)
  else inl CaInvalidArgument.
Definition spec_sub_delegation (from to : Address) (n : N) (D : Shares) : ConsensusAccountsError + unit * Shares :=
  let di := delegation D from to in
  if (di_shares di <? n)%N then inl CaInsufficientBalance
  else if (di_shares di =? n)%N then inr (tt, drop_delegation (from, to) D)
  else inr (tt, set_delegation (from, to) {| di_shares := di_shares di - n; di_receipt := di_receipt di |} D).
Definition spec_add_undelegation (ud : Undelegation) (n receipt : N) (D : Shares)
    : ConsensusAccountsError + N * Shares :=
  let di := undelegation D ud in
  let done_receipt := if (0 <? receipt)%N && (di_receipt di =? 0)%N then receipt else di_receipt di in
  if (di_shares di + n <=? u128_max)%N
  then inr (done_receipt, put_undelegation ud {| di_shares := di_shares di + n; di_receipt := done_receipt |} D)
  else inl CaInvalidArgument.
Definition spec_take_undelegation (ud : Undelegation) (D : Shares) : ConsensusAccountsError + DelegationInfo * Shares :=
  inr (undelegation D ud, drop_undelegation ud D).

(** * Keys *)

Definition delegation_key (k : Address * Address) : bytes := raw k.1 ++ raw k.2.
Definition undelegation_entry (ud : Undelegation) : bytes :=
  raw (ud_to ud) ++ raw (ud_from ud) ++ be_bytes64 (ud_epoch ud).
Definition queue_entry (ud : Undelegation) : bytes := queue_entry_key (ud_from ud) (ud_to ud) (ud_epoch ud).

Definition epoch_valid (ud : Undelegation) : Prop := (ud_epoch ud ≤ u64_max)%N.

Lemma raw_length (a : Address) : length (raw a) = ADDRESS_SIZE.
Proof. apply (proj2_sig a). Qed.
Lemma raw_app_inj (a a' : Address) (b b' : bytes) : raw a ++ b = raw a' ++ b' → a = a' ∧ b = b'.
Proof. intros [Ha Hb]%app_inj_1; [split; [by apply bytes_n_eq|done]|by rewrite !raw_length]. Qed.
Lemma address_of_raw (a : Address) : address_from_bytes (raw a) = Some a.
Proof. apply bytes_n_of_proj. Qed.

Lemma delegation_key_inj k k' : True → True → delegation_key k = delegation_key k' → k = k'.
Proof. intros _ _ [Ha Hb%bytes_n_eq]%raw_app_inj. destruct k, k'; simpl in *; congruence. Qed.
Lemma undelegation_entry_inj k k' :
  epoch_valid k → epoch_valid k' → undelegation_entry k = undelegation_entry k' → k = k'.
Proof.
  destruct k as [a b e], k' as [a' b' e']. unfold epoch_valid, undelegation_entry. cbn [ud_from ud_to ud_epoch].
  intros He He' [-> [-> Hb]%raw_app_inj]%raw_app_inj. by rewrite (be_bytes64_inj e e').
Qed.
Lemma queue_entry_inj k k' : epoch_valid k → epoch_valid k' → queue_entry k = queue_entry k' → k = k'.
Proof.
  destruct k as [a b e], k' as [a' b' e']. unfold epoch_valid, queue_entry, queue_entry_key.
  cbn [ud_from ud_to ud_epoch]. intros He He' Heq.
  apply app_inj_1 in Heq as [Heq [-> Hb%bytes_n_eq]%raw_app_inj]; [|by unfold be_bytes64; rewrite !be_bytes_length].
  by rewrite (be_bytes64_inj e e'), Hb.
Qed.

Lemma take_raw (a : Address) b : take ADDRESS_SIZE (raw a ++ b) = raw a.
Proof. apply take_app_length'. by rewrite raw_length. Qed.
Lemma drop_raw (a : Address) b : drop ADDRESS_SIZE (raw a ++ b) = b.
Proof. apply drop_app_length'. by rewrite raw_length. Qed.
Lemma take_be64 n b : take 8 (be_bytes64 n ++ b) = be_bytes64 n.
Proof. apply take_app_length'. symmetry. apply be_bytes_length. Qed.
Lemma drop_be64 n b : drop 8 (be_bytes64 n ++ b) = b.
Proof. apply drop_app_length'. symmetry. apply be_bytes_length. Qed.

Lemma address_pair_key k : True → address_pair (delegation_key k) = inr k.
Proof.
  intros _. destruct k as [a b]. unfold address_pair, delegation_key. simpl.
  by rewrite take_raw, drop_raw, !address_of_raw.
Qed.
Lemma undelegation_key_entry ud : epoch_valid ud → undelegation_key (queue_entry ud) = inr ud.
Proof.
  destruct ud as [a b e]. unfold epoch_valid, undelegation_key, queue_entry, queue_entry_key.
  cbn [ud_from ud_to ud_epoch]. intros He. rewrite !length_app, !raw_length.
  unfold be_bytes64 at 1. rewrite be_bytes_length.
  rewrite (proj2 (Nat.eqb_eq _ _)) by (unfold ADDRESS_SIZE; lia). cbn [negb].
  rewrite <-drop_drop, drop_be64, take_be64, take_raw, drop_raw, !address_of_raw. by rewrite from_be_64.
Qed.

(** * Refinement *)

(** The laws of the encodings: shares are 128-bit integers, receipt identifiers 64-bit ones, and the
    value under which an entry is queued is the encoding of the empty value. *)
Class ConsensusAccountsCodecLaws `{Platform, !ConsensusAccountsCodec} : Prop := {
  ca_delegation_info_laws :: CborLaws DelegationInfo;
  ca_unit_laws :: CborLaws unit;
  delegation_info_encodable (di : DelegationInfo) :
    encodable di ↔ (di_shares di ≤ u128_max)%N ∧ (di_receipt di ≤ u64_max)%N;
  unit_encodable : encodable tt;
  unit_to_vec : to_vec tt = [xf6];
}.

Definition ca_prefix : bytes := str CONSENSUS_ACCOUNTS_MODULE_NAME.

Section refinement.
Context `{Platform} `{!MKVSLaws} `{!ConsensusAccountsCodec} `{!ConsensusAccountsCodecLaws}.

Record shares_of (s : State) (D : Shares) : Prop := {
  so_writable : writable s;
  so_delegations : table (ca_prefix ++ DELEGATIONS) delegation_key (λ _, True) (delegations D) s;
  so_undelegations : table (ca_prefix ++ UNDELEGATIONS) undelegation_entry epoch_valid (undelegations D) s;
  so_queue : table (ca_prefix ++ UNDELEGATION_QUEUE) queue_entry epoch_valid (queue D) s;
  (** an undelegation is queued exactly while it is recorded *)
  so_coherent ud : is_Some (queue D !! ud) ↔ is_Some (undelegations D !! ud);
}.

Lemma shares_of_store s s' D : st_store s' = st_store s → shares_of s D → shares_of s' D.
Proof.
  intros Heq [Hw Hd Hu Hq Hc]. assert (Hat : ∀ k, at_key s' k = at_key s k) by (intros; unfold at_key; by rewrite Heq).
  split; [by apply (writable_same s)|by apply (table_ext _ _ _ _ s)..|done].
Qed.

Lemma delegations_at from to :
  ref_prefix (delegations_of_ref from) ++ raw to = (ca_prefix ++ DELEGATIONS) ++ delegation_key (from, to).
Proof. done. Qed.
Lemma undelegations_at ud :
  ref_prefix (undelegation_ref (ud_to ud) (ud_from ud)) ++ be_bytes64 (ud_epoch ud) =
    (ca_prefix ++ UNDELEGATIONS) ++ undelegation_entry ud.
Proof. unfold undelegation_entry. simpl. by rewrite <-app_assoc. Qed.
Lemma queue_at ud :
  ref_prefix queue_ref ++ queue_entry_key (ud_from ud) (ud_to ud) (ud_epoch ud) =
    (ca_prefix ++ UNDELEGATION_QUEUE) ++ queue_entry ud.
Proof. done. Qed.

Lemma ca_table_ne (t t' : Byte.byte) b k :
  t ≠ t' → (ca_prefix ++ [t]) ++ b ≠ (ca_prefix ++ [t']) ++ k.
Proof. intros Hne Heq. rewrite <-!app_assoc in Heq. apply (inj (app ca_prefix)) in Heq. by injection Heq. Qed.
Lemma other_table {K V} `{Countable K} `{!Cbor V} (t t' : Byte.byte) (key : K → bytes) valid (m : gmap K V) s s' k :
  t ≠ t' → (∀ b, b ≠ (ca_prefix ++ [t]) ++ k → at_key s' b = at_key s b) →
  table (ca_prefix ++ [t']) key valid m s → table (ca_prefix ++ [t']) key valid m s'.
Proof. intros Hne Hat. apply table_ext. intros b. apply Hat. by apply ca_table_ne. Qed.
Lemma outside_ca t s s' k :
  (∀ b, b ≠ (ca_prefix ++ t) ++ k → at_key s' b = at_key s b) → outside ca_prefix s s'.
Proof. intros Hat b Hb. apply Hat. intros ->. by rewrite <-app_assoc, starts_with_app in Hb. Qed.

Lemma put_delegation_run {E} s D from to di :
  shares_of s D → encodable di →
  ∃ s', typed_insert (E := E) (delegations_of_ref from) (raw to) di s = (Ok tt, s') ∧ store_only s s' ∧
    shares_of s' (set_delegation (from, to) di D) ∧ outside ca_prefix s s'.
Proof.
  intros [Hw Hd Hu Hq Hc] Henc.
  destruct (table_insert_run (E := E) _ _ _ delegation_key_inj _ s (delegations_of_ref from) (raw to) (from, to)
    di Hd Hw I Henc) as (s' & Hrun & Hd' & Hw' & Hso & Hat).
  { apply delegations_at. }
  exists s'. split; [done|]. split; [done|]. split; [|by eapply outside_ca].
  split; [done..|by eapply (other_table x01)|by eapply (other_table x01)|done].
Qed.
Lemma remove_delegation_run {E} s D from to :
  shares_of s D →
  ∃ s', typed_remove (E := E) (delegations_of_ref from) (raw to) s = (Ok tt, s') ∧ store_only s s' ∧
    shares_of s' (drop_delegation (from, to) D) ∧ outside ca_prefix s s'.
Proof.
  intros [Hw Hd Hu Hq Hc].
  destruct (table_remove_run (E := E) _ _ _ delegation_key_inj _ s (delegations_of_ref from) (raw to) (from, to)
    Hd Hw I) as (s' & Hrun & Hd' & Hw' & Hso & Hat).
  { apply delegations_at. }
  exists s'. split; [done|]. split; [done|]. split; [|by eapply outside_ca].
  split; [done..|by eapply (other_table x01)|by eapply (other_table x01)|done].
Qed.

(** An operation implements an abstract one: same outcome, only the store changes, and only below the
    prefix of the module. *)
Definition ca_refines {A} (m : M ConsensusAccountsError A)
    (spec : Shares → ConsensusAccountsError + A * Shares) : Prop :=
  ∀ s D, shares_of s D → ∃ r s', m s = (r, s') ∧
    match spec D with
    | inr (a, D') => r = Ok a ∧ store_only s s' ∧ shares_of s' D' ∧ outside ca_prefix s s'
    | inl e => r = Err e ∧ s' = s
    end.

Lemma get_delegation_run {E} s D from to :
  shares_of s D → get_delegation (E := E) from to s = (Ok (delegation D from to), s).
Proof.
  intros Hs. unfold get_delegation.
  rewrite (bind_ok _ _ _ _ _ (table_get_run (E := E) _ _ _ _ s (delegations_of_ref from) (raw to) (from, to)
    (so_delegations _ _ Hs) (so_writable _ _ Hs) I (delegations_at from to))).
  done.
Qed.

Lemma delegation_bounded s D from to :
  shares_of s D → (di_shares (delegation D from to) ≤ u128_max)%N ∧ (di_receipt (delegation D from to) ≤ u64_max)%N.
Proof.
  intros Hs. unfold delegation. destruct (delegations D !! (from, to)) as [di|] eqn:Hdi; simpl; [|by vm_compute].
  apply delegation_info_encodable. pose proof (tb_get _ _ _ _ _ (so_delegations _ _ Hs) (from, to) I) as Hg.
  rewrite Hdi in Hg. destruct (at_key _ _) as [b|]; simplify_eq/=. by eapply cbor_decoded.
Qed.

Lemma add_delegation_refines from to n : ca_refines (add_delegation from to n) (spec_add_delegation from to n).
Proof.
  intros s D Hs. unfold add_delegation, spec_add_delegation.
  rewrite (bind_ok _ _ _ _ _ (get_delegation_run (E := ConsensusAccountsError) s D from to Hs)).
  unfold checked_add. destruct (delegation_bounded s D from to Hs) as [_ Hr].
  destruct (N.leb_spec (di_shares (delegation D from to) + n) u128_max) as [Hle|Hgt]; cbn [ok_or].
  - rewrite ret_bind. destruct (put_delegation_run (E := ConsensusAccountsError) s D from to
      {| di_shares := di_shares (delegation D from to) + n; di_receipt := di_receipt (delegation D from to) |} Hs)
      as (s' & Hrun & Hst & Hs' & Ho); [by apply delegation_info_encodable|]. eexists _, _. by split.
  - by eexists _, _.
Qed.

Lemma sub_delegation_refines from to n : ca_refines (sub_delegation from to n) (spec_sub_delegation from to n).
Proof.
  intros s D Hs. unfold sub_delegation, spec_sub_delegation.
  rewrite (bind_ok _ _ _ _ _ (get_delegation_run (E := ConsensusAccountsError) s D from to Hs)).
  destruct (delegation_bounded s D from to Hs) as [Hb Hr]. set (di := delegation D from to) in *.
  unfold checked_sub. destruct (N.leb_spec n (di_shares di)), (N.ltb_spec (di_shares di) n); try lia; cbn [ok_or].
  2: by eexists _, _.
  rewrite ret_bind. destruct (N.ltb_spec 0 (di_shares di - n)), (N.eqb_spec (di_shares di) n); try lia.
  - destruct (put_delegation_run (E := ConsensusAccountsError) s D from to
      {| di_shares := di_shares di - n; di_receipt := di_receipt di |} Hs) as (s' & Hrun & Hst & Hs' & Ho);
      [apply delegation_info_encodable; simpl; lia|]. eexists _, _. by split.
  - destruct (remove_delegation_run (E := ConsensusAccountsError) s D from to Hs) as (s' & Hrun & Hst & Hs' & Ho).
    eexists _, _. by split.
Qed.

(** ** Undelegations *)

Lemma get_undelegation_run {E} s D ud :
  shares_of s D → epoch_valid ud →
  typed_get (E := E) (undelegation_ref (ud_to ud) (ud_from ud)) (be_bytes64 (ud_epoch ud)) s =
    (Ok (undelegations D !! ud), s).
Proof.
  intros Hs Hv. apply (table_get_run _ _ _ _ _ _ _ _ (so_undelegations _ _ Hs) (so_writable _ _ Hs) Hv).
  apply undelegations_at.
Qed.

Lemma undelegation_bounded s D ud :
  shares_of s D → (di_shares (undelegation D ud) ≤ u128_max)%N ∧ (di_receipt (undelegation D ud) ≤ u64_max)%N.
Proof.
  intros Hs. unfold undelegation. destruct (undelegations D !! ud) as [di|] eqn:Hdi; simpl; [|by vm_compute].
  apply delegation_info_encodable. pose proof (so_undelegations _ _ Hs) as Ht.
  pose proof (tb_get _ _ _ _ _ Ht ud (tb_valid _ _ _ _ _ Ht ud ltac:(by eexists))) as Hg.
  rewrite Hdi in Hg. destruct (at_key _ _) as [b|]; simplify_eq/=. by eapply cbor_decoded.
Qed.

(** Both tables are written, so the record and its place in the queue appear and go together. *)
Lemma put_undelegation_run {E} s D ud di :
  shares_of s D → epoch_valid ud → encodable di →
  ∃ s', (typed_insert (E := E) (undelegation_ref (ud_to ud) (ud_from ud)) (be_bytes64 (ud_epoch ud)) di ;;
         raw_insert queue_ref (queue_entry_key (ud_from ud) (ud_to ud) (ud_epoch ud)) [xf6]) s = (Ok tt, s') ∧
    store_only s s' ∧ shares_of s' (put_undelegation ud di D) ∧ outside ca_prefix s s'.
Proof.
  intros [Hw Hd Hu Hq Hc] Hv Henc.
  destruct (table_insert_run (E := E) _ _ _ undelegation_entry_inj _ s _ _ ud di Hu Hw Hv Henc (undelegations_at ud))
    as (s1 & Hrun1 & Hu1 & Hw1 & Hso1 & Hat1).
  assert (Hq1 : table (ca_prefix ++ UNDELEGATION_QUEUE) queue_entry epoch_valid (queue D) s1)
    by (by eapply (other_table x02)).
  destruct (table_insert_run (E := E) _ _ _ queue_entry_inj _ s1 _ _ ud tt Hq1 Hw1 Hv unit_encodable (queue_at ud))
    as (s2 & Hrun2 & Hq2 & Hw2 & Hso2 & Hat2).
  exists s2. rewrite (bind_ok _ _ _ _ _ Hrun1). split; [by rewrite <-Hrun2; unfold typed_insert; rewrite unit_to_vec|].
  split; [by eapply store_only_trans|].
  split; [|eapply outside_trans; [by eapply outside_ca|by eapply outside_ca]].
  split; [done|by eapply (other_table x03), (other_table x02)|by eapply (other_table x03)|done|].
  intros ud'. simpl. destruct (decide (ud = ud')) as [<-|Hne]; [by rewrite !lookup_insert_eq|].
  rewrite !lookup_insert_ne by done. apply Hc.
Qed.
Lemma remove_undelegation_run {E} s D ud :
  shares_of s D → epoch_valid ud →
  ∃ s', (typed_remove (E := E) (undelegation_ref (ud_to ud) (ud_from ud)) (be_bytes64 (ud_epoch ud)) ;;
         typed_remove queue_ref (queue_entry_key (ud_from ud) (ud_to ud) (ud_epoch ud))) s = (Ok tt, s') ∧
    store_only s s' ∧ shares_of s' (drop_undelegation ud D) ∧ outside ca_prefix s s'.
Proof.
  intros [Hw Hd Hu Hq Hc] Hv.
  destruct (table_remove_run (E := E) _ _ _ undelegation_entry_inj _ s _ _ ud Hu Hw Hv (undelegations_at ud))
    as (s1 & Hrun1 & Hu1 & Hw1 & Hso1 & Hat1).
  assert (Hq1 : table (ca_prefix ++ UNDELEGATION_QUEUE) queue_entry epoch_valid (queue D) s1)
    by (by eapply (other_table x02)).
  destruct (table_remove_run (E := E) _ _ _ queue_entry_inj _ s1 _ _ ud Hq1 Hw1 Hv (queue_at ud))
    as (s2 & Hrun2 & Hq2 & Hw2 & Hso2 & Hat2).
  exists s2. rewrite (bind_ok _ _ _ _ _ Hrun1). split; [done|].
  split; [by eapply store_only_trans|].
  split; [|eapply outside_trans; [by eapply outside_ca|by eapply outside_ca]].
  split; [done|by eapply (other_table x03), (other_table x02)|by eapply (other_table x03)|done|].
  intros ud'. simpl. destruct (decide (ud = ud')) as [<-|Hne]; [by rewrite !lookup_delete_eq|].
  rewrite !lookup_delete_ne by done. apply Hc.
Qed.

Lemma bind_assoc_run {E A B C} (m : M E A) (f : A → M E B) (g : B → M E C) s :
  ((m ≫= f) ≫= g) s = (m ≫= λ a, f a ≫= g) s.
Proof. unfold mbind, ST_bind. by destruct (m s) as [[]]. Qed.

Lemma add_undelegation_refines from to e n receipt :
  (e ≤ u64_max)%N → (receipt ≤ u64_max)%N →
  ca_refines (add_undelegation from to e n receipt)
    (spec_add_undelegation {| ud_from := from; ud_to := to; ud_epoch := e |} n receipt).
Proof.
  intros He Hr s D Hs. unfold add_undelegation, spec_add_undelegation.
  set (ud := {| ud_from := from; ud_to := to; ud_epoch := e |}).
  rewrite (bind_ok _ _ _ _ _ (get_undelegation_run (E := ConsensusAccountsError) s D ud Hs He)).
  fold (undelegation D ud). cbv zeta. destruct (undelegation_bounded s D ud Hs) as [_ Hb].
  set (di := undelegation D ud) in *. set (done_receipt := if (_ && _)%bool then receipt else di_receipt di).
  unfold checked_add. destruct (N.leb_spec (di_shares di + n) u128_max) as [Hle|Hgt]; cbn [ok_or].
  - rewrite ret_bind. destruct (put_undelegation_run (E := ConsensusAccountsError) s D ud
      {| di_shares := di_shares di + n; di_receipt := done_receipt |} Hs He) as (s' & Hrun & Hst & Hs' & Ho).
    { apply delegation_info_encodable. simpl. split; [done|]. unfold done_receipt. by destruct (_ && _)%bool. }
    exists (Ok done_receipt), s'. split; [|done].
    rewrite <-(bind_assoc_run _ _ (λ _, mret done_receipt)). by rewrite (bind_ok _ _ _ _ _ Hrun).
  - by eexists _, _.
Qed.

Lemma take_undelegation_run {E} s D ud :
  shares_of s D → epoch_valid ud →
  ∃ s', take_undelegation (E := E) ud s = (Ok (undelegation D ud), s') ∧ store_only s s' ∧
    shares_of s' (drop_undelegation ud D) ∧ outside ca_prefix s s'.
Proof.
  intros Hs Hv. unfold take_undelegation.
  rewrite (bind_ok _ _ _ _ _ (get_undelegation_run (E := E) s D ud Hs Hv)).
  destruct (remove_undelegation_run (E := E) s D ud Hs Hv) as (s' & Hrun & Hst & Hs' & Ho).
  exists s'. split; [|done]. fold (undelegation D ud).
  rewrite <-(bind_assoc_run _ _ (λ _, mret (undelegation D ud))). by rewrite (bind_ok _ _ _ _ _ Hrun).
Qed.

(** ** The queue *)

(** Converting entries one by one until a key fails the predicate. *)
Lemma take_items_run {E K V} `{!Cbor V} (tf : bytes → string + K) (dflt : V) (p : K → bool) raws l s :
  map_m (typed_item (E := E) tf dflt) raws s = (Ok l, s) →
  ∃ l1 l2, l.*1 = l1 ++ l2 ∧ take_items (E := E) tf dflt p raws s = (Ok l1, s) ∧
    Forall (λ k, p k = true) l1 ∧ (∀ k, head l2 = Some k → p k = false).
Proof.
  revert l. induction raws as [|x raws IH]; intros l; cbn [map_m take_items].
  { intros [= <-]. by exists [], []. }
  intros (y & s1 & Hy & Hrest)%bind_ok_inv.
  assert (s1 = s) as ->.
  { clear -Hy. unfold typed_item in Hy. run_simpl_in Hy. repeat case_match; by simplify_eq. }
  apply bind_ok_inv in Hrest as (l' & s2 & Hl' & Hret). injection Hret as <- ->.
  rewrite (bind_ok _ _ _ _ _ Hy). destruct (p y.1) eqn:Hp.
  - destruct (IH l' Hl') as (l1 & l2 & Heq & Hrun & Hall & Hhd). exists (y.1 :: l1), l2.
    rewrite (bind_ok _ _ _ _ _ Hrun). rewrite fmap_cons, Heq. split; [done|]. split; [done|].
    split; [by constructor|done].
  - exists [], (y.1 :: l'.*1). split; [done|]. split; [done|]. split; [done|]. by intros k [= <-].
Qed.

(** In the order of the queue, an undelegation is before another. *)
Definition queued_before (x y : Undelegation) : Prop := bytes_lt (queue_entry x) (queue_entry y).

Lemma queued_before_epoch x y : epoch_valid x → epoch_valid y → queued_before x y → (ud_epoch x ≤ ud_epoch y)%N.
Proof. intros Hx Hy. by apply be_bytes64_app_lt. Qed.

Lemma queued_nodup l : StronglySorted queued_before l → NoDup l.
Proof.
  induction 1 as [|x l Hs IH Hall]; constructor; [|done]. intros Hx. rewrite Forall_forall in Hall.
  by apply (irreflexivity bytes_lt (queue_entry x)), (Hall x).
Qed.

Lemma StronglySorted_app_inv {A} (R : relation A) l1 l2 :
  StronglySorted R (l1 ++ l2) → StronglySorted R l1 ∧ StronglySorted R l2.
Proof.
  induction l1 as [|x l1 IH]; [by split; [constructor|]|]. intros [Hall Hs]%StronglySorted_cons.
  apply Forall_app in Hall as [Hall _]. destruct (IH Hs). by split; [constructor|].
Qed.

Lemma get_queued_undelegations_run {E} s D e :
  shares_of s D →
  ∃ l, get_queued_undelegations (E := E) e s = (Ok l, s) ∧ StronglySorted queued_before l ∧
    ∀ ud, ud ∈ l ↔ is_Some (undelegations D !! ud) ∧ (ud_epoch ud ≤ e)%N.
Proof.
  intros Hs. pose proof (so_queue _ _ Hs) as Hq.
  destruct (table_iter_run (E := E) _ _ _ undelegation_key tt _ s ca_store UNDELEGATION_QUEUE
    undelegation_key_entry Hq (so_writable _ _ Hs) eq_refl) as (l & Hrun & Hsorted & Hl & _).
  destruct (so_writable _ _ Hs) as (st & Hst & _). unfold get_queued_undelegations, typed_iter, store in *.
  run_simpl. run_simpl_in Hrun. rewrite Hst in *. fold queue_ref in Hrun.
  destruct (ref_collect st queue_ref) as [raws|[]|]; [|done].
  destruct (take_items_run (E := E) _ _ (λ ud, (ud_epoch ud <=? e)%N) _ _ _ Hrun) as (l1 & l2 & Heq & Hl1 & Hall & Hhd).
  exists l1. split; [exact Hl1|].
  assert (Hs1 : StronglySorted queued_before (l1 ++ l2)).
  { rewrite <-Heq. clear -Hsorted. induction Hsorted as [|x l Hs IH Hall]; [constructor|].
    rewrite fmap_cons. constructor; [done|]. apply Forall_fmap. exact Hall. }
  assert (Hin : ∀ ud, ud ∈ l1 ++ l2 ↔ is_Some (undelegations D !! ud)).
  { intros ud. rewrite <-(so_coherent _ _ Hs), <-Heq, list_elem_of_fmap. split.
    - intros ([k []] & -> & Hk%Hl). by eexists.
    - intros [[] Hud]. exists (ud, tt). split; [done|by apply Hl]. }
  assert (Hval : ∀ ud, ud ∈ l1 ++ l2 → epoch_valid ud).
  { intros ud Hud%Hin. by apply (tb_valid _ _ _ _ _ (so_undelegations _ _ Hs)). }
  destruct (StronglySorted_app_inv _ _ _ Hs1) as [Hsl1 Hsl2]. split; [done|].
  rewrite Forall_forall in Hall. intros ud. rewrite <-Hin. split.
  - intros Hud. specialize (Hall ud Hud). rewrite elem_of_app. split; [by left|by apply N.leb_le].
  - intros [[?|Hud]%elem_of_app Hle]; [done|]. exfalso. destruct l2 as [|x l2]; [by apply not_elem_of_nil in Hud|].
    specialize (Hhd x eq_refl). apply N.leb_gt in Hhd.
    assert (ud_epoch x ≤ ud_epoch ud)%N; [|lia]. apply elem_of_cons in Hud as [<-|Hud]; [done|].
    apply StronglySorted_cons in Hsl2 as [Hx _]. rewrite Forall_forall in Hx.
    apply queued_before_epoch; [apply Hval; set_solver..|by apply Hx].
Qed.
End refinement.

Module ShareClaims.
Section claims.
Context `{Platform} `{!MKVSLaws} `{!ConsensusAccountsCodec} `{!ConsensusAccountsCodecLaws}.

(** C38. The delegation and undelegation state implements finite maps: adding and subtracting shares of
    a delegation, and recording an undelegation, have exactly the outcome of the abstract operation on
    the tables (overflow and shortage are errors that change nothing, a delegation with no shares left
    is removed, the first receipt of an undelegation is kept), change nothing outside of the module,
    and keep the queue in step with the recorded undelegations. *)
Theorem shares_refine from to e n receipt :
  (e ≤ u64_max)%N → (receipt ≤ u64_max)%N →
  ca_refines (add_delegation from to n) (spec_add_delegation from to n) ∧
  ca_refines (sub_delegation from to n) (spec_sub_delegation from to n) ∧
  ca_refines (add_undelegation from to e n receipt)
    (spec_add_undelegation {| ud_from := from; ud_to := to; ud_epoch := e |} n receipt) ∧
  ca_refines (take_undelegation {| ud_from := from; ud_to := to; ud_epoch := e |})
    (spec_take_undelegation {| ud_from := from; ud_to := to; ud_epoch := e |}).
Proof.
  intros He Hr. split; [apply add_delegation_refines|]. split; [apply sub_delegation_refines|].
  split; [by apply add_undelegation_refines|]. intros s D Hs.
  destruct (take_undelegation_run (E := ConsensusAccountsError) s D
    {| ud_from := from; ud_to := to; ud_epoch := e |} Hs He) as (s' & Hrun & Hrest).
  by eexists _, _.
Qed.

(** The queue yields exactly the undelegations that are due: those whose epoch is not after the
    given one, each once, in the order of their epochs, and the state stays as it is.  The big-endian
    epoch at the front of a key is what makes stopping at the first later entry right. *)
Theorem queued_undelegations_are_due e s D :
  shares_of s D →
  ∃ l, get_queued_undelegations (E := ConsensusAccountsError) e s = (Ok l, s) ∧
    (∀ ud, ud ∈ l ↔ is_Some (undelegations D !! ud) ∧ (ud_epoch ud ≤ e)%N) ∧
    NoDup l ∧ StronglySorted (λ x y, (ud_epoch x ≤ ud_epoch y)%N) l.
Proof.
  intros Hs. destruct (get_queued_undelegations_run (E := ConsensusAccountsError) s D e Hs) as (l & Hrun & Hso & Hin).
  exists l. split; [done|]. split; [done|]. split; [by apply queued_nodup|].
  assert (Hval : ∀ ud, ud ∈ l → epoch_valid ud).
  { intros ud [Hud _]%Hin. by apply (tb_valid _ _ _ _ _ (so_undelegations _ _ Hs)). }
  clear -Hso Hval. induction Hso as [|x l Hs IH Hall]; constructor; [apply IH; set_solver|].
  rewrite Forall_forall in Hall |- *. intros y Hy. apply queued_before_epoch; [apply Hval; set_solver..|by apply Hall].
Qed.
End claims.
End ShareClaims.
