(* ===== verification/Flows.v ===== *)
(** Tokens and shares that travel between the runtime and the consensus layer: deposits, withdrawals,
    delegations and undelegations with their message results
    (src/runtime-sdk/src/modules/consensus_accounts/mod.rs).

    A withdrawn or delegated amount waits in a pending account until the result of its message
    arrives.  The theorems below are about the ledger of the accounts module and the shares of the
    consensus accounts module side by side in one store, against any implementation of the contract
    of the consensus module. *)
From S2P Require Import Prelude Endian Storage StoreIter Types Fee Errors State Current Transactions Module.
From S2P Require Import Tables Core Consensus Amounts Accounts Ledger Accounting Disbursement.
From S2P Require Import Moves ConsensusAccounts Delegations.

(** * The two modules side by side *)

Section bridge.
Context `{Platform} `{!MKVSLaws} `{!AccountsCodec} `{!AccountsCodecLaws}.
Context `{!ConsensusAccountsCodec} `{!ConsensusAccountsCodecLaws}.
Context `{!ConsensusLayer} `{!ConsensusAPI} `{!ConsensusContract}.
(** The denomination of the consensus layer and the scaling factor. *)
Context (cd : Denomination) (cf : N).

Record bridged (s : State) (L : Ledger) (D : Shares) : Prop := {
  br_mode : is_check_only (st_env s) = false;
  br_ledger : ledger_of s L;
  br_covered : covered L;
  br_shares : shares_of s D;
  br_settled : cs_settled s cd cf;
}.

Lemma bridged_same s s' L D :
  bridged s L D → st_store s' = st_store s → st_env s' = st_env s → bridged s' L D.
Proof.
  intros [Hm Hl Hc Hs Hp] Hst Henv. split; [by rewrite Henv|by apply (ledger_of_ext s)|done|by apply (shares_of_store s)|].
  apply (cs_settled_ext s); [done|by apply (writable_same s), Hs|]. unfold at_key. by rewrite Hst.
Qed.

Lemma bridged_moved s s' L L' D :
  bridged s L D → moved s s' → ledger_of s' L' → covered L' → bridged s' L' D.
Proof.
  intros [Hm Hl Hc [Hw Hd Hu Hq Hco] Hp] ((st & ev & Hs') & Hw' & Ho) Hl' Hc'.
  split; [by rewrite Hs'|done..| |by apply (cs_settled_ext s); [..|by apply Ho]].
  split; [done|by eapply table_outside..|done].
Qed.

Lemma bridged_shares s s' L D D' :
  bridged s L D → store_only s s' → shares_of s' D' → outside ca_prefix s s' → bridged s' L D'.
Proof.
  intros [Hm Hl Hc Hs Hp] [st Hst] Hs' Ho. pose proof (so_writable _ _ Hs') as Hw.
  split; [by rewrite Hst| |done..|by apply (cs_settled_ext s); [..|by apply Ho]].
  apply (ledger_of_keys s); [done..|]. intros k. by apply Ho.
Qed.

(** Receipts are in a table of their own. *)
Lemma receipt_run {E} s L D owner kind id rc :
  bridged s L D →
  ∃ s', set_receipt (E := E) owner kind id rc s = (Ok tt, s') ∧ bridged s' L D ∧ store_only s s'.
Proof.
  intros Hb. pose proof (so_writable _ _ (br_shares _ _ _ Hb)) as Hw. unfold set_receipt.
  destruct (typed_insert_at (E := E) s (receipts_ref owner kind) (be_bytes64 id) rc Hw) as (st & Hst & Hrun).
  eexists. split; [exact Hrun|]. split; [|by eexists].
  set (key := ref_prefix (receipts_ref owner kind) ++ be_bytes64 id).
  assert (Hat : ∀ b, starts_with b (ca_prefix ++ RECEIPTS) = false →
            at_key (set_store (Some (insert_ st key (to_vec rc))) s) b = at_key s b).
  { intros b Hsw. rewrite at_key_insert by done. rewrite decide_False; [done|]. intros <-.
    apply not_true_iff_false in Hsw. apply Hsw, starts_with_iff. by eexists. }
  eapply bridged_shares; [done|by eexists| |].
  - destruct (br_shares _ _ _ Hb) as [_ Hd Hu Hq Hc].
    split; [by apply insert_writable|by eapply (table_outside _ _ _ _ _ _ (ca_prefix ++ RECEIPTS))..|done].
  - intros k Hk. apply Hat. apply not_true_iff_false. intros [r ->]%starts_with_iff.
    by rewrite <-app_assoc, starts_with_app in Hk.
Qed.
Lemma receipt_if_run {E} (b : bool) s L D owner kind id rc :
  bridged s L D →
  ∃ s', (if b then set_receipt (E := E) owner kind id rc else mret tt) s = (Ok tt, s') ∧ bridged s' L D ∧
    st_events s' = st_events s ∧ st_messages s' = st_messages s.
Proof.
  intros Hb. destruct b; [|by exists s].
  destruct (receipt_run (E := E) s L D owner kind id rc Hb) as (s' & Hrun & Hb' & [st ->]).
  eexists. by split.
Qed.

Lemma bridged_event s L D e : bridged s L D → bridged (set_events e s) L D.
Proof. intros Hb. by apply (bridged_same s). Qed.

(** ** Sending *)

Lemma bridged_transfer s L D from to u :
  bridged s L D → (amount u ≤ balance L from (denomination u))%N →
  ∃ s' L', transfer from to u s = (Ok tt, s') ∧ bridged s' L' D ∧ shifted from to u L L' ∧
    st_messages s' = st_messages s.
Proof.
  intros Hb Hle. destruct (transfer_run L s from to u (br_ledger _ _ _ Hb) (br_covered _ _ _ Hb) (br_mode _ _ _ Hb) Hle)
    as (s' & L' & Hrun & Hmv & Hl' & Hc' & Hsup & Hbal). exists s', L'. split; [done|].
  split; [by eapply bridged_moved|]. split; [done|]. destruct Hmv as [(st & ev & ->) _]. done.
Qed.
Lemma bridged_burn s L D from u :
  bridged s L D → (amount u ≤ balance L from (denomination u))%N →
  ∃ s' L', burn from u s = (Ok tt, s') ∧ bridged s' L' D ∧ destroyed from u L L'.
Proof.
  intros Hb Hle. destruct (burn_run L s from u (br_ledger _ _ _ Hb) (br_covered _ _ _ Hb) (br_mode _ _ _ Hb) Hle)
    as (s' & L' & Hrun & Hmv & Hl' & Hc' & Hsup & Hbal). exists s', L'. split; [done|].
  by split; [eapply bridged_moved|].
Qed.
Lemma bridged_mint s L D to u :
  bridged s L D → (supply_of L (denomination u) + amount u ≤ u128_max)%N →
  ∃ s' L', mint to u s = (Ok tt, s') ∧ bridged s' L' D ∧ issued to u L L' ∧ store_events_only s s'.
Proof.
  intros Hb Hle. destruct (mint_run L s to u (br_ledger _ _ _ Hb) (br_covered _ _ _ Hb) (br_mode _ _ _ Hb) Hle)
    as (s' & L' & Hrun & Hmv & Hl' & Hc' & Hsup & Hbal). exists s', L'. split; [done|].
  split; [by eapply bridged_moved|]. split; [done|]. apply Hmv.
Qed.

(** Emitting the message and moving the amount to a pending account. *)
Lemma hold_ok (m : M ConsensusError unit) msg hook from pending a s L D s' :
  bridged s L D → emits cd cf msg a hook m s →
  (map_err CaConsensus m ;;
   check_only ← with_env is_check_only;
   if (check_only : bool) then mret tt
   else map_err (λ _, CaInsufficientBalance) (transfer from pending a)) s = (Ok tt, s') →
  ∃ L' c, denomination a = cd ∧ amount a = (c * cf)%N ∧ (amount a ≤ balance L from cd)%N ∧
    bridged s' L' D ∧ shifted from pending a L L' ∧
    st_messages s' = st_messages s ++ [(staking_message (msg c), hook)].
Proof.
  intros Hb Hem Hrun. destruct Hem as [(c & Hd & Ha & Hm)|[e Hm]]; last first.
  { by rewrite (bind_err _ _ _ _ _ (map_err_err CaConsensus _ _ _ _ Hm)) in Hrun. }
  rewrite (bind_ok _ _ _ _ _ (map_err_ok CaConsensus _ _ _ _ Hm)) in Hrun. rewrite with_env_bind in Hrun.
  set (s1 := push_message (msg c) hook s) in *. assert (Hb1 : bridged s1 L D) by (by apply (bridged_same s)).
  rewrite (br_mode _ _ _ Hb1) in Hrun.
  assert (Ht : transfer from pending a s1 = (Ok tt, s')).
  { unfold map_err in Hrun. by destruct (transfer from pending a s1) as [[[]|e|p] s2]; simplify_eq. }
  pose proof (transfer_inv L s1 from pending a s' (br_ledger _ _ _ Hb1) (br_mode _ _ _ Hb1) Ht) as Hle.
  destruct (bridged_transfer s1 L D from pending a Hb1 Hle) as (s2 & L' & Hrun2 & Hb2 & Hsh & Hmsg).
  rewrite Ht in Hrun2. simplify_eq. exists L', c. rewrite Hd in Hle. by do 5 (split; [done|]).
Qed.

Lemma withdraw_ok ctx from nonce to a s L D s' :
  bridged s L D → withdraw ctx from nonce to a s = (Ok tt, s') →
  ∃ L' c, denomination a = cd ∧ amount a = (c * cf)%N ∧ (amount a ≤ balance L from cd)%N ∧
    bridged s' L' D ∧ shifted from ADDRESS_PENDING_WITHDRAWAL a L L' ∧
    st_messages s' = st_messages s ++ [(staking_message (StakingTransfer to c),
      hook_new CONSENSUS_TRANSFER_HANDLER
        {| tc_to := to; tc_nonce := nonce; tc_address := from; tc_amount := a |})].
Proof. intros Hb Hrun. eapply hold_ok; [done|by apply cs_transfer_emits, Hb|exact Hrun]. Qed.

Lemma delegate_ok ctx from nonce to a receipt s L D s' :
  bridged s L D → delegate ctx from nonce to a receipt s = (Ok tt, s') →
  ∃ L' c, denomination a = cd ∧ amount a = (c * cf)%N ∧ (amount a ≤ balance L from cd)%N ∧
    bridged s' L' D ∧ shifted from ADDRESS_PENDING_DELEGATION a L L' ∧
    st_messages s' = st_messages s ++ [(staking_message (StakingAddEscrow to c),
      hook_new CONSENSUS_DELEGATE_HANDLER
        {| dc_from := from; dc_nonce := nonce; dc_to := to; dc_amount := a; dc_receipt := receipt |})].
Proof. intros Hb Hrun. eapply hold_ok; [done|by apply cs_escrow_emits, Hb|exact Hrun]. Qed.

Lemma deposit_ok ctx from nonce to a s L D s' :
  bridged s L D → deposit ctx from nonce to a s = (Ok tt, s') →
  ∃ c, denomination a = cd ∧ amount a = (c * cf)%N ∧ bridged s' L D ∧
    st_messages s' = st_messages s ++ [(staking_message (StakingWithdraw from c),
      hook_new CONSENSUS_WITHDRAW_HANDLER
        {| wc_from := from; wc_nonce := nonce; wc_address := to; wc_amount := a |})].
Proof.
  intros Hb Hrun. unfold deposit in Hrun.
  destruct (cs_withdraw_emits ctx from a (hook_new CONSENSUS_WITHDRAW_HANDLER
    {| wc_from := from; wc_nonce := nonce; wc_address := to; wc_amount := a |}) s cd cf (br_settled _ _ _ Hb))
    as [(c & Hd & Ha & Hm)|[e Hm]].
  - rewrite (map_err_ok CaConsensus _ _ _ _ Hm) in Hrun. simplify_eq. exists c.
    do 2 (split; [done|]). split; [by apply (bridged_same s)|done].
  - by rewrite (map_err_err CaConsensus _ _ _ _ Hm) in Hrun.
Qed.

Lemma undelegate_ok ctx from nonce to shares receipt s L D s' :
  bridged s L D → undelegate ctx from nonce to shares receipt s = (Ok tt, s') →
  ∃ D', spec_sub_delegation to from shares D = inr (tt, D') ∧ bridged s' L D' ∧
    st_messages s' = st_messages s ++ [(staking_message (StakingReclaimEscrow from shares),
      hook_new CONSENSUS_UNDELEGATE_HANDLER
        {| uc_from := from; uc_nonce := nonce; uc_to := to; uc_shares := shares; uc_receipt := receipt |})].
Proof.
  intros Hb Hrun. unfold undelegate in Hrun. apply bind_ok_inv in Hrun as ([] & s1 & Hsub & Hrun).
  destruct (sub_delegation_refines to from shares s D (br_shares _ _ _ Hb)) as (r & s2 & Hrun2 & Hspec).
  rewrite Hrun2 in Hsub. injection Hsub as -> ->.
  destruct (spec_sub_delegation to from shares D) as [e|[[] D']]; [by destruct Hspec|].
  destruct Hspec as (_ & [st Hst] & Hs1 & Ho). exists D'. split; [done|].
  assert (Hb1 : bridged s1 L D') by (eapply bridged_shares; [done|by eexists|done..]).
  set (hook := hook_new _ _) in *.
  destruct (cs_reclaim_escrow_emits ctx from shares hook s1) as [Hm|[e Hm]].
  - rewrite (map_err_ok CaConsensus _ _ _ _ Hm) in Hrun. simplify_eq.
    split; [|done]. by eapply bridged_same; [exact Hb1|..].
  - by rewrite (map_err_err CaConsensus _ _ _ _ Hm) in Hrun.
Qed.

(** ** Results of messages *)

Lemma message_result_transfer_run me c s L D :
  bridged s L D → (amount (tc_amount c) ≤ balance L ADDRESS_PENDING_WITHDRAWAL (denomination (tc_amount c)))%N →
  ∃ s' L', message_result_transfer me c s = (Ok tt, s') ∧ bridged s' L' D ∧
    if message_is_success me then destroyed ADDRESS_PENDING_WITHDRAWAL (tc_amount c) L L'
    else shifted ADDRESS_PENDING_WITHDRAWAL (tc_address c) (tc_amount c) L L'.
Proof.
  intros Hb Hle. unfold message_result_transfer. destruct (message_is_success me); cbn [negb].
  - destruct (bridged_burn s L D _ _ Hb Hle) as (s' & L' & Hrun & Hb' & Hd).
    rewrite (bind_ok _ _ _ _ _ (unwrap_ok _ _ _ _ _ Hrun)). eexists _, L'. split; [done|].
    split; [by apply bridged_event|done].
  - destruct (bridged_transfer s L D _ (tc_address c) _ Hb Hle) as (s' & L' & Hrun & Hb' & Hd & _).
    rewrite (bind_ok _ _ _ _ _ (unwrap_ok _ _ _ _ _ Hrun)). eexists _, L'. split; [done|].
    split; [by apply bridged_event|done].
Qed.

Lemma message_result_withdraw_run me c s L D :
  bridged s L D →
  (message_is_success me = true → supply_of L (denomination (wc_amount c)) + amount (wc_amount c) ≤ u128_max)%N →
  ∃ s' L', message_result_withdraw me c s = (Ok tt, s') ∧ bridged s' L' D ∧
    if message_is_success me then issued (wc_address c) (wc_amount c) L L' else L' = L.
Proof.
  intros Hb Hle. unfold message_result_withdraw. destruct (message_is_success me); cbn [negb].
  - destruct (bridged_mint s L D (wc_address c) _ Hb (Hle eq_refl)) as (s' & L' & Hrun & Hb' & Hd & _).
    rewrite (bind_ok _ _ _ _ _ (unwrap_ok _ _ _ _ _ Hrun)). eexists _, L'. split; [done|].
    split; [by apply bridged_event|done].
  - eexists _, L. split; [done|]. split; [by apply bridged_event|done].
Qed.

(** The result that comes with the event of a successful message. *)
Definition has_result {T} `{!CborValue T} (me : MessageEvent) (x : T) : Prop :=
  ∃ v, message_result me = Some v ∧ from_value v = Some x.
Lemma decode_result_run {T} `{!CborValue T} me (x : T) s :
  has_result me x → decode_message_result me s = (Ok x, s).
Proof. intros (v & Hv & Hx). unfold decode_message_result. rewrite Hv. cbn [expect]. by rewrite ret_bind, Hx. Qed.
Lemma quantity_run {E} n s : (n ≤ u128_max)%N → quantity_to_u128 (E := E) n s = (Ok n, s).
Proof. intros Hn. unfold quantity_to_u128. by destruct (N.ltb_spec u128_max n); [lia|]. Qed.

Lemma bridged_add_delegation {E} s L D from to n :
  bridged s L D → (di_shares (delegation D from to) + n ≤ u128_max)%N →
  ∃ s', unwrap_or_panic (E' := E) "called Result::unwrap on an Err value" (add_delegation from to n) s = (Ok tt, s') ∧
    bridged s' L (set_delegation (from, to)
      {| di_shares := di_shares (delegation D from to) + n; di_receipt := di_receipt (delegation D from to) |} D).
Proof.
  intros Hb Hle. destruct (add_delegation_refines from to n s D (br_shares _ _ _ Hb)) as (r & s' & Hrun & Hspec).
  unfold spec_add_delegation in Hspec. rewrite (proj2 (N.leb_le _ _) Hle) in Hspec.
  destruct Hspec as (-> & Hst & Hs' & Ho). exists s'. split; [by apply unwrap_ok|by eapply bridged_shares].
Qed.

Lemma message_result_delegate_run me c s L D n :
  bridged s L D → (amount (dc_amount c) ≤ balance L ADDRESS_PENDING_DELEGATION (denomination (dc_amount c)))%N →
  (message_is_success me = true → has_result me {| aer_new_shares := n |} ∧ (n ≤ u128_max)%N ∧
     (di_shares (delegation D (dc_from c) (dc_to c)) + n ≤ u128_max)%N) →
  ∃ s' L' D', message_result_delegate me c s = (Ok tt, s') ∧ bridged s' L' D' ∧
    if message_is_success me then
      destroyed ADDRESS_PENDING_DELEGATION (dc_amount c) L L' ∧
      spec_add_delegation (dc_from c) (dc_to c) n D = inr (tt, D')
    else shifted ADDRESS_PENDING_DELEGATION (dc_from c) (dc_amount c) L L' ∧ D' = D.
Proof.
  intros Hb Hle Hres. unfold message_result_delegate. destruct (message_is_success me) eqn:Hok; cbn [negb].
  - destruct (Hres eq_refl) as (Hr & Hn & Hsum).
    destruct (bridged_burn s L D _ _ Hb Hle) as (s1 & L' & Hrun & Hb1 & Hd).
    rewrite (bind_ok _ _ _ _ _ (unwrap_ok _ _ _ _ _ Hrun)), (bind_ok _ _ _ _ _ (decode_result_run _ _ _ Hr)).
    rewrite (bind_ok _ _ _ _ _ (quantity_run (E := Empty_set) n s1 Hn)).
    destruct (bridged_add_delegation (E := Empty_set) s1 L' D _ _ n Hb1 Hsum) as (s2 & Hrun2 & Hb2).
    rewrite (bind_ok _ _ _ _ _ Hrun2).
    destruct (receipt_if_run (E := Empty_set) (dc_receipt c) s2 L' _ (dc_from c) ReceiptDelegate (dc_nonce c)
      {| rc_shares := n; rc_epoch := 0; rc_receipt := 0; rc_amount := 0; rc_error := None |} Hb2)
      as (s3 & Hrun3 & Hb3 & _). rewrite (bind_ok _ _ _ _ _ Hrun3).
    eexists _, L', _. split; [done|]. split; [by apply bridged_event|]. split; [done|].
    unfold spec_add_delegation. by rewrite (proj2 (N.leb_le _ _) Hsum).
  - destruct (bridged_transfer s L D _ (dc_from c) _ Hb Hle) as (s1 & L' & Hrun & Hb1 & Hd & _).
    rewrite (bind_ok _ _ _ _ _ (unwrap_ok _ _ _ _ _ Hrun)).
    destruct (receipt_if_run (E := Empty_set) (dc_receipt c) s1 L' _ (dc_from c) ReceiptDelegate (dc_nonce c)
      {| rc_shares := 0; rc_epoch := 0; rc_receipt := 0; rc_amount := 0;
         rc_error := Some (consensus_failure me) |} Hb1) as (s3 & Hrun3 & Hb3 & _).
    rewrite (bind_ok _ _ _ _ _ Hrun3). eexists _, L', D. split; [done|]. by split; [apply bridged_event|].
Qed.

Lemma message_result_undelegate_run me c s L D n e :
  bridged s L D → (uc_nonce c ≤ u64_max)%N →
  (if message_is_success me
   then has_result me {| rer_debonding_shares := n; rer_debond_end_time := e |} ∧ (n ≤ u128_max)%N ∧ (e ≤ u64_max)%N ∧
     (di_shares (undelegation D {| ud_from := uc_from c; ud_to := uc_to c; ud_epoch := e |}) + n ≤ u128_max)%N
   else (di_shares (delegation D (uc_to c) (uc_from c)) + uc_shares c ≤ u128_max)%N) →
  ∃ s' D', message_result_undelegate me c s = (Ok tt, s') ∧ bridged s' L D' ∧
    if message_is_success me then
      ∃ rc, spec_add_undelegation {| ud_from := uc_from c; ud_to := uc_to c; ud_epoch := e |} n
              (if uc_receipt c then uc_nonce c else 0) D = inr (rc, D')
    else spec_add_delegation (uc_to c) (uc_from c) (uc_shares c) D = inr (tt, D').
Proof.
  intros Hb Hnonce Hres. unfold message_result_undelegate. destruct (message_is_success me) eqn:Hok; cbn [negb].
  - destruct Hres as (Hr & Hn & He & Hsum).
    rewrite (bind_ok _ _ _ _ _ (decode_result_run _ _ _ Hr)).
    rewrite (bind_ok _ _ _ _ _ (quantity_run (E := Empty_set) n s Hn)). cbn [rer_debond_end_time].
    set (rcv := (if uc_receipt c then uc_nonce c else 0)%N).
    assert (Hrcv : (rcv ≤ u64_max)%N) by (unfold rcv; destruct (uc_receipt c); [done|by vm_compute]).
    destruct (add_undelegation_refines (uc_from c) (uc_to c) e n rcv He Hrcv s D (br_shares _ _ _ Hb))
      as (r & s1 & Hrun1 & Hspec).
    destruct (spec_add_undelegation _ n rcv D) as [err|[rc D']] eqn:Hsp.
    { unfold spec_add_undelegation in Hsp. by rewrite (proj2 (N.leb_le _ _) Hsum) in Hsp. }
    destruct Hspec as (-> & Hst & Hs1 & Ho). rewrite (bind_ok _ _ _ _ _ (unwrap_ok _ _ _ _ _ Hrun1)).
    assert (Hb1 : bridged s1 L D') by (by eapply bridged_shares).
    destruct (receipt_if_run (E := Empty_set) (uc_receipt c) s1 L D' (uc_to c) ReceiptUndelegateStart (uc_nonce c)
      {| rc_shares := 0; rc_epoch := e; rc_receipt := rc; rc_amount := 0; rc_error := None |} Hb1)
      as (s2 & Hrun2 & Hb2 & _). rewrite (bind_ok _ _ _ _ _ Hrun2).
    eexists _, D'. split; [done|]. split; [by apply bridged_event|]. by eexists.
  - destruct (bridged_add_delegation (E := Empty_set) s L D _ _ (uc_shares c) Hb Hres) as (s1 & Hrun1 & Hb1).
    rewrite (bind_ok _ _ _ _ _ Hrun1).
    destruct (receipt_if_run (E := Empty_set) (uc_receipt c) s1 L _ (uc_to c) ReceiptUndelegateStart (uc_nonce c)
      {| rc_shares := 0; rc_epoch := 0; rc_receipt := 0; rc_amount := 0;
         rc_error := Some (consensus_failure me) |} Hb1) as (s2 & Hrun2 & Hb2 & _).
    rewrite (bind_ok _ _ _ _ _ Hrun2). eexists _, _. split; [done|]. split; [by apply bridged_event|].
    unfold spec_add_delegation. by rewrite (proj2 (N.leb_le _ _) Hres).
Qed.
End bridge.
