(* ===== verification/Reclaims.v ===== *)
(** The end of a block of the consensus accounts module: undelegations that are due are paid out of what
    the runtime received from the consensus layer
    (src/runtime-sdk/src/modules/consensus_accounts/mod.rs, [end_block]). *)
From S2P Require Import Prelude Endian Storage StoreIter Types Fee Errors State Current Transactions Module.
From S2P Require Import Tables Core Consensus Amounts Accounts Ledger Accounting Disbursement.
From S2P Require Import Moves ConsensusAccounts Delegations Flows.

(** The proportion of the received amount for a number of shares. *)
Definition proportion (totals : N * N) (shares : N) : N := (shares * totals.1 / totals.2)%N.

(** Rounding down never pays more than what was received. *)
Lemma proportion_sum {K A} `{Countable K} (shares : K → A → N) (totals : N * N) (m : gmap K A) :
  totals.2 ≠ 0%N → (map_sum shares m ≤ totals.2)%N →
  (map_sum (λ k x, proportion totals (shares k x)) m ≤ totals.1)%N.
Proof.
  intros Hnz Hle. apply (N.mul_le_mono_pos_r _ _ totals.2); [lia|].
  transitivity (map_sum shares m * totals.1)%N; [|rewrite (N.mul_comm totals.1); by apply N.mul_le_mono_r].
  clear Hle. induction m as [|k x m Hk IH] using map_ind; [done|].
  rewrite !map_sum_insert_None by done. rewrite !N.mul_add_distr_r.
  apply N.add_le_mono; [|exact IH]. unfold proportion. rewrite N.mul_comm. by apply N.Div0.mul_div_le.
Qed.

(** A list of the keys of a map that satisfy a predicate, summed up. *)
Lemma list_sum_map {K A} `{Countable K} (f : K → A → N) (dflt : A) (P : K → Prop) `{!∀ k, Decision (P k)}
    (l : list K) (m : gmap K A) :
  NoDup l → (∀ k, k ∈ l ↔ is_Some (m !! k) ∧ P k) →
  list_sum (λ k, f k (default dflt (m !! k))) l = map_sum (λ k x, if decide (P k) then f k x else 0%N) m.
Proof.
  revert l. induction m as [|k x m Hk IH] using map_ind; intros l Hnd Hl.
  { destruct l as [|k l]; [done|]. destruct (proj1 (Hl k) ltac:(left)) as [[y Hy] _]. by rewrite lookup_empty in Hy. }
  rewrite map_sum_insert_None by done. set (l' := filter (λ k', k' ≠ k) l).
  assert (Hl' : ∀ k', k' ∈ l' ↔ is_Some (m !! k') ∧ P k').
  { intros k'. unfold l'. rewrite list_elem_of_filter, Hl. destruct (decide (k' = k)) as [->|Hne].
    - rewrite Hk. split; [by intros []|]. by intros [[]].
    - rewrite lookup_insert_ne by done. naive_solver. }
  rewrite <-(IH l'); [|by apply NoDup_filter|done].
  assert (Hsum : list_sum (λ k', f k' (default dflt (m !! k'))) l' =
                 list_sum (λ k', f k' (default dflt (<[k := x]> m !! k'))) l').
  { clear IH. assert (Hne : ∀ k', k' ∈ l' → k' ≠ k) by (intros k' [? _]%list_elem_of_filter; done).
    clearbody l'. clear -Hne. induction l' as [|k' l' IH]; [done|]. simpl. rewrite lookup_insert_ne by (symmetry; apply Hne; left).
    by rewrite IH by (intros; apply Hne; by right). }
  rewrite Hsum. case_decide as HP.
  - assert (Hp : l ≡ₚ k :: l').
    { apply NoDup_Permutation; [done|constructor; [|by apply NoDup_filter]|].
      - by intros [? _]%list_elem_of_filter.
      - intros k'. rewrite elem_of_cons. unfold l'. rewrite list_elem_of_filter. destruct (decide (k' = k)) as [->|];
          [|naive_solver]. split; [by left|]. intros _. apply Hl. by rewrite lookup_insert_eq. }
    rewrite Hp. simpl. by rewrite lookup_insert_eq.
  - replace l' with l; [done|]. symmetry. apply filter_all. apply Forall_forall. intros k' Hk' ->.
    apply Hl in Hk'. by destruct Hk'.
Qed.

Section reclaims.
Context `{Platform} `{!MKVSLaws} `{!AccountsCodec} `{!AccountsCodecLaws}.
Context `{!ConsensusAccountsCodec} `{!ConsensusAccountsCodecLaws}.
Context `{!ConsensusLayer} `{!ConsensusAPI} `{!ConsensusContract}.
Context `{!LruCache (N * Address) (N * N), !LruLaws (N * Address) (N * N)}.
Context (cd : Denomination) (cf : N).

(** ** What the consensus layer paid *)

(** The amount and the shares of the reclaim from an escrow account. *)
Fixpoint first_reclaim (own from : Address) (events : list StakingEvent) : option (N * N) :=
  match events with
  | [] => None
  | EscrowReclaim owner escrow amount shares :: events' =>
      if bool_decide (owner = own) && bool_decide (escrow = from) then Some (amount, shares)
      else first_reclaim own from events'
  | OtherStakingEvent :: events' => first_reclaim own from events'
  end.

Lemma find_reclaim_run {E} own from events amount shares s :
  first_reclaim own from events = Some (amount, shares) → (amount ≤ u128_max)%N → (shares ≤ u128_max)%N →
  find_reclaim (E := E) own from events s = (Ok (Some (amount, shares)), s).
Proof.
  intros Hf Ha Hs. induction events as [|[owner escrow a n|] events IH]; [done| |by apply IH].
  cbn [find_reclaim first_reclaim] in *. destruct (bool_decide _ && bool_decide _); [|by apply IH].
  injection Hf as -> ->. rewrite (bind_ok _ _ _ _ _ (quantity_run (E := E) amount s Ha)).
  by rewrite (bind_ok _ _ _ _ _ (quantity_run (E := E) shares s Hs)).
Qed.
Lemma find_reclaim_keeps {E} own from events s : (find_reclaim (E := E) own from events s).2 = s.
Proof.
  induction events as [|[owner escrow a n|] events IH]; [done| |done]. cbn [find_reclaim].
  destruct (bool_decide _ && bool_decide _); [|done]. unfold quantity_to_u128. run_simpl. case_run.
Qed.

(** At the transition to an epoch, the runtime received the totals from an escrow account. *)
Definition received (ctx : Ctx) (k : N * Address) (totals : N * N) : Prop :=
  ∃ h events, cs_transition ctx k.1 h ∧ consensus_events_at ctx h = inr events ∧
    first_reclaim (from_runtime_id (runtime_id ctx)) k.2 events = Some totals ∧
    (totals.1 ≤ u128_max)%N ∧ (totals.2 ≤ u128_max)%N ∧ totals.2 ≠ 0%N.

Lemma reclaim_totals_run ctx T c ud s :
  cache_sound (λ k v, v = T k) c → received ctx (ud_epoch ud, ud_from ud) (T (ud_epoch ud, ud_from ud)) →
  ∃ c', reclaim_totals ctx (from_runtime_id (runtime_id ctx)) c ud s = (Ok (T (ud_epoch ud, ud_from ud), c'), s) ∧
    cache_sound (λ k v, v = T k) c'.
Proof.
  intros Hc (h & events & Hh & Hev & Hf & Ha & Hs & _). unfold reclaim_totals.
  pose proof (Hc (ud_epoch ud, ud_from ud)) as Hhit.
  pose proof (cache_sound_get (λ k v, v = T k) (ud_epoch ud, ud_from ud) c Hc) as Hc'.
  destruct (lru_get (ud_epoch ud, ud_from ud) c) as [[totals|] c1]; simpl in Hhit, Hc'.
  { rewrite (Hhit totals eq_refl). by exists c1. }
  rewrite (bind_ok _ _ _ _ _ (unwrap_ok _ _ _ _ _ (cs_height_run ctx _ _ s Hh))). simpl in Hev. rewrite Hev.
  rewrite ret_bind. destruct (T (ud_epoch ud, ud_from ud)) as [amount shares] eqn:HT.
  rewrite (bind_ok _ _ _ _ _ (find_reclaim_run (E := Empty_set) _ _ _ _ _ s Hf Ha Hs)). cbn [expect].
  rewrite ret_bind. eexists. split; [reflexivity|]. apply cache_sound_put; [done|]. by rewrite HT.
Qed.

Lemma reclaim_totals_keeps ctx own c ud s : (reclaim_totals ctx own c ud s).2 = s.
Proof.
  unfold reclaim_totals. destruct (lru_get _ c) as [[totals|] c1]; [done|].
  pose proof (cs_height_keeps ctx (ud_epoch ud) s) as Hk. run_simpl. unfold unwrap_or_panic.
  destruct (cs_height_for_epoch ctx (ud_epoch ud) s) as [[h|e|p] s1]; simpl in Hk; subst s1; [|done..].
  destruct (consensus_events_at ctx h) as [e|events]; [done|].
  pose proof (find_reclaim_keeps (E := Empty_set) own (ud_from ud) events s) as Hf.
  destruct (find_reclaim own (ud_from ud) events s) as [[[o|]|e|p] s1]; simpl in Hf; by subst s1.
Qed.

(** ** One undelegation *)

(** What is paid for an undelegation. *)
Definition due_amount (T : N * Address → N * N) (ud : Undelegation) (di : DelegationInfo) : N :=
  (proportion (T (ud_epoch ud, ud_from ud)) (di_shares di) * cf)%N.

(** Nothing overflows on the way. *)
Definition payable (ctx : Ctx) (T : N * Address → N * N) (ud : Undelegation) (di : DelegationInfo) : Prop :=
  received ctx (ud_epoch ud, ud_from ud) (T (ud_epoch ud, ud_from ud)) ∧
  (di_shares di * (T (ud_epoch ud, ud_from ud)).1 ≤ u128_max)%N ∧ (due_amount T ud di ≤ u128_max)%N.

Lemma process_undelegation_run ctx T c ud s L D :
  bridged cd cf s L D → epoch_valid ud → cache_sound (λ k v, v = T k) c →
  payable ctx T ud (undelegation D ud) →
  (supply_of L cd + due_amount T ud (undelegation D ud) ≤ u128_max)%N →
  ∃ c' s' L', process_undelegation ctx (from_runtime_id (runtime_id ctx)) cd c ud s = (Ok c', s') ∧
    cache_sound (λ k v, v = T k) c' ∧ bridged cd cf s' L' (drop_undelegation ud D) ∧
    issued (ud_to ud) (BaseUnits_new (due_amount T ud (undelegation D ud)) cd) L L'.
Proof.
  intros Hb Hv Hc (Hr & Hmul & Hmax) Hsup. unfold process_undelegation.
  destruct (take_undelegation_run (E := Empty_set) s D ud (br_shares _ _ _ _ _ Hb) Hv)
    as (s1 & Hrun1 & Hst1 & Hs1 & Ho1).
  rewrite (bind_ok _ _ _ _ _ Hrun1). set (di := undelegation D ud) in *.
  assert (Hb1 : bridged cd cf s1 L (drop_undelegation ud D)) by (by eapply bridged_shares).
  destruct (reclaim_totals_run ctx T c ud s1 Hc Hr) as (c' & Hrun2 & Hc'). rewrite (bind_ok _ _ _ _ _ Hrun2).
  destruct Hr as (_ & _ & _ & _ & _ & _ & _ & Hnz). unfold due_amount, proportion in *.
  destruct (T (ud_epoch ud, ud_from ud)) as [total_amount total_shares]; simpl in Hmul, Hnz, Hmax, Hsup.
  unfold checked_mul at 1. rewrite (proj2 (N.leb_le _ _) Hmul). cbn [expect]. rewrite ret_bind.
  unfold checked_div. rewrite (proj2 (N.eqb_neq _ _) Hnz). cbn [expect]. rewrite ret_bind.
  set (pay := (di_shares di * total_amount / total_shares * cf)%N) in *.
  assert (Hfrom : cs_amount_from_consensus ctx (di_shares di * total_amount / total_shares)%N s1 = (Ok pay, s1)).
  { rewrite (cs_amount_from_run ctx _ s1 cd cf (br_settled _ _ _ _ _ Hb1)). fold pay.
    by rewrite (proj2 (N.leb_le _ _) Hmax). }
  rewrite (bind_ok _ _ _ _ _ (unwrap_ok _ _ _ _ _ Hfrom)).
  destruct (bridged_mint cd cf s1 L (drop_undelegation ud D) (ud_to ud) (BaseUnits_new pay cd) Hb1 Hsup)
    as (s2 & L' & Hrun3 & Hb2 & His & _).
  cbv zeta. rewrite (bind_ok _ _ _ _ _ (unwrap_ok _ _ _ _ _ Hrun3)).
  destruct (receipt_if_run (E := Empty_set) cd cf (0 <? di_receipt di)%N s2 L' (drop_undelegation ud D) (ud_to ud)
    ReceiptUndelegateDone (di_receipt di)
    {| rc_shares := 0; rc_epoch := 0; rc_receipt := 0; rc_amount := pay; rc_error := None |} Hb2)
    as (s3 & Hrun4 & Hb3 & _).
  rewrite (bind_ok _ _ _ _ _ Hrun4). eexists c', _, L'. split; [reflexivity|]. split; [done|].
  split; [by apply bridged_event|done].
Qed.

(** Whatever the consensus layer reported, an undelegation that was processed is gone, and no balance
    went down. *)
Lemma process_undelegation_ok ctx own c ud c' s s' L D :
  bridged cd cf s L D → epoch_valid ud → process_undelegation ctx own cd c ud s = (Ok c', s') →
  ∃ L', bridged cd cf s' L' (drop_undelegation ud D) ∧ ∀ a d, (balance L a d ≤ balance L' a d)%N.
Proof.
  intros Hb Hv Hrun. unfold process_undelegation in Hrun.
  destruct (take_undelegation_run (E := Empty_set) s D ud (br_shares _ _ _ _ _ Hb) Hv)
    as (s1 & Hrun1 & Hst1 & Hs1 & Ho1).
  rewrite (bind_ok _ _ _ _ _ Hrun1) in Hrun. set (di := undelegation D ud) in *.
  assert (Hb1 : bridged cd cf s1 L (drop_undelegation ud D)) by (by eapply bridged_shares).
  apply bind_ok_inv in Hrun as ([[total_amount total_shares] c1] & s2 & Htot & Hrun).
  pose proof (reclaim_totals_keeps ctx own c ud s1) as Hk. rewrite Htot in Hk. simpl in Hk. subst s2.
  apply bind_ok_inv in Hrun as (product & s2 & [_ ->]%expect_inv & Hrun).
  apply bind_ok_inv in Hrun as (amount & s2 & [_ ->]%expect_inv & Hrun).
  apply bind_ok_inv in Hrun as (raw & s2 & Hfrom%unwrap_inv & Hrun).
  rewrite (cs_amount_from_run ctx _ s1 cd cf (br_settled _ _ _ _ _ Hb1)) in Hfrom. injection Hfrom as _ <-.
  apply bind_ok_inv in Hrun as ([] & s2 & Hmint%unwrap_inv & Hrun).
  pose proof (mint_inv L s1 _ _ s2 (br_ledger _ _ _ _ _ Hb1) (br_mode _ _ _ _ _ Hb1) Hmint) as Hfit.
  destruct (bridged_mint cd cf s1 L (drop_undelegation ud D) (ud_to ud) _ Hb1 Hfit) as (s3 & L' & Hmint' & Hb3 & [_ Hbal] & _).
  rewrite Hmint in Hmint'. injection Hmint' as <-.
  destruct (receipt_if_run (E := Empty_set) cd cf (0 <? di_receipt di)%N s2 L' (drop_undelegation ud D) (ud_to ud)
    ReceiptUndelegateDone (di_receipt di)
    {| rc_shares := 0; rc_epoch := 0; rc_receipt := 0; rc_amount := raw; rc_error := None |} Hb3)
    as (s4 & Hrun4 & Hb4 & _).
  rewrite (bind_ok _ _ _ _ _ Hrun4) in Hrun. injection Hrun as _ <-.
  exists L'. split; [by apply bridged_event|]. intros a d. rewrite Hbal. lia.
Qed.

Lemma process_all_ok ctx own l c c' s s' L D :
  bridged cd cf s L D → (∀ ud, ud ∈ l → epoch_valid ud) →
  fold_m l c (process_undelegation ctx own cd) s = (Ok c', s') →
  ∃ L' D', bridged cd cf s' L' D' ∧ (∀ a d, balance L a d ≤ balance L' a d)%N ∧ delegations D' = delegations D ∧
    ∀ ud, (di_shares (undelegation D' ud) ≤ di_shares (undelegation D ud))%N.
Proof.
  revert c s L D. induction l as [|ud l IH]; intros c s L D Hb Hv; cbn [fold_m].
  { intros [= _ <-]. by exists L, D. }
  intros (c1 & s1 & Hrun1 & Hrun)%bind_ok_inv.
  destruct (process_undelegation_ok ctx own c ud c1 s s1 L D Hb (Hv ud ltac:(left)) Hrun1) as (L1 & Hb1 & Hbal1).
  destruct (IH c1 s1 L1 (drop_undelegation ud D) Hb1 ltac:(intros; apply Hv; by right) Hrun)
    as (L' & D' & Hb' & Hbal' & Hd' & Hu').
  exists L', D'. split; [done|]. split; [intros a d; specialize (Hbal1 a d); specialize (Hbal' a d); lia|].
  split; [done|]. intros ud'. specialize (Hu' ud'). revert Hu'. unfold undelegation at 2 4, drop_undelegation. simpl.
  destruct (decide (ud = ud')) as [<-|Hne]; [rewrite lookup_delete_eq; simpl; lia|by rewrite lookup_delete_ne].
Qed.

Lemma end_block_ok ctx s s' L D :
  bridged cd cf s L D → consensus_accounts_end_block ctx s = (Ok tt, s') →
  ∃ L' D', bridged cd cf s' L' D' ∧ (∀ a d, balance L a d ≤ balance L' a d)%N ∧ delegations D' = delegations D ∧
    ∀ ud, (di_shares (undelegation D' ud) ≤ di_shares (undelegation D ud))%N.
Proof.
  intros Hb Hrun. unfold consensus_accounts_end_block in Hrun.
  apply bind_ok_inv in Hrun as (changed & s1 & Hch & Hrun).
  assert (s1 = s) as ->.
  { revert Hch. unfold has_epoch_changed, value_get, downcast. run_simpl. repeat case_match; by intros; simplify_eq. }
  destruct changed; cbn [negb] in Hrun; [|injection Hrun as <-; by exists L, D].
  rewrite (bind_ok _ _ _ _ _ (unwrap_ok _ _ _ _ _ (cs_denomination_run s cd cf (br_settled _ _ _ _ _ Hb)))) in Hrun.
  destruct (get_queued_undelegations_run (E := Empty_set) s D (ctx_epoch ctx) (br_shares _ _ _ _ _ Hb))
    as (l & Hq & _ & Hl). rewrite (bind_ok _ _ _ _ _ Hq) in Hrun.
  apply bind_ok_inv in Hrun as (c' & s2 & Hrun & [= ->]). eapply process_all_ok; [done| |exact Hrun].
  intros ud [Hud _]%Hl. by apply (tb_valid _ _ _ _ _ (so_undelegations _ _ (br_shares _ _ _ _ _ Hb))).
Qed.

(** ** The loop *)

Lemma delta_new x d : delta (BaseUnits_new x cd) d = if decide (cd = d) then x else 0%N.
Proof. done. Qed.
Lemma undelegation_drop ud ud' D : ud ≠ ud' → undelegation (drop_undelegation ud D) ud' = undelegation D ud'.
Proof. intros Hne. unfold undelegation, drop_undelegation. simpl. by rewrite lookup_delete_ne. Qed.
Lemma list_sum_ext {A} (f g : A → N) l : (∀ x, x ∈ l → f x = g x) → list_sum f l = list_sum g l.
Proof. induction l as [|x l IH]; intros Hfg; [done|]. simpl. rewrite Hfg by left. rewrite IH; [done|]. intros y Hy. apply Hfg. by right. Qed.

Lemma process_all_run ctx T l c s L D :
  bridged cd cf s L D → NoDup l → (∀ ud, ud ∈ l → epoch_valid ud ∧ payable ctx T ud (undelegation D ud)) →
  cache_sound (λ k v, v = T k) c →
  (supply_of L cd + list_sum (λ ud, due_amount T ud (undelegation D ud)) l ≤ u128_max)%N →
  ∃ c' s' L' D', fold_m l c (process_undelegation ctx (from_runtime_id (runtime_id ctx)) cd) s = (Ok c', s') ∧
    bridged cd cf s' L' D' ∧ delegations D' = delegations D ∧
    (∀ ud, undelegations D' !! ud = if decide (ud ∈ l) then None else undelegations D !! ud) ∧
    (∀ d, supply_of L' d = supply_of L d +
       if decide (cd = d) then list_sum (λ ud, due_amount T ud (undelegation D ud)) l else 0)%N ∧
    (∀ a d, balance L' a d = balance L a d +
       if decide (cd = d)
       then list_sum (λ ud, if decide (ud_to ud = a) then due_amount T ud (undelegation D ud) else 0) l
       else 0)%N.
Proof.
  intros Hb Hnd. revert c s L D Hb. induction Hnd as [|ud l Hud Hnd IH]; intros c s L D Hb Hpay Hc Hsup.
  { exists c, s, L, D. split; [done|]. do 2 (split; [done|]). split; [intros ud; by rewrite decide_False by set_solver|].
    split; [intros d|intros a d]; case_decide; simpl; lia. }
  cbn [fold_m list_sum foldr] in *. destruct (Hpay ud ltac:(left)) as [Hv Hp].
  destruct (process_undelegation_run ctx T c ud s L D Hb Hv Hc Hp) as (c1 & s1 & L1 & Hrun1 & Hc1 & Hb1 & [Hs1 Hbal1]).
  { unfold list_sum in Hsup. lia. }
  assert (Hrest : ∀ ud', ud' ∈ l → undelegation (drop_undelegation ud D) ud' = undelegation D ud').
  { intros ud' Hin. apply undelegation_drop. intros <-. done. }
  assert (Hsums : ∀ f : Undelegation → DelegationInfo → N,
            list_sum (λ ud', f ud' (undelegation (drop_undelegation ud D) ud')) l =
            list_sum (λ ud', f ud' (undelegation D ud')) l).
  { intros f. apply list_sum_ext. intros ud' Hin. by rewrite Hrest. }
  destruct (IH c1 s1 L1 (drop_undelegation ud D) Hb1) as (c' & s' & L' & D' & Hrun & Hb' & Hd' & Hu' & Hs' & Hbal'); [|done|..].
  { intros ud' Hin. rewrite Hrest by done. apply Hpay. by right. }
  { rewrite (Hsums (due_amount T)). specialize (Hs1 cd). rewrite delta_new, decide_True in Hs1 by done.
    unfold list_sum in *. lia. }
  exists c', s', L', D'. rewrite (bind_ok _ _ _ _ _ Hrun1). split; [done|]. split; [done|]. split; [done|]. split.
  { intros ud'. rewrite Hu'. unfold drop_undelegation. simpl. destruct (decide (ud = ud')) as [<-|Hne].
    - rewrite lookup_delete_eq. by repeat case_decide; set_solver.
    - rewrite lookup_delete_ne by done. by repeat case_decide; set_solver. }
  split.
  - intros d. rewrite Hs', Hs1, delta_new, (Hsums (due_amount T)). unfold list_sum. case_decide; lia.
  - intros a d. rewrite Hbal', Hbal1, delta_new.
    rewrite (Hsums (λ ud' di, if decide (ud_to ud' = a) then due_amount T ud' di else 0%N)).
    unfold list_sum. repeat case_decide; lia.
Qed.

(** The sum of what is due, to an account or in all. *)
Definition due (T : N * Address → N * N) (e : N) (P : Undelegation → Prop) `{!∀ ud, Decision (P ud)} (D : Shares) : N :=
  map_sum (λ ud di, if decide ((ud_epoch ud ≤ e)%N ∧ P ud) then due_amount T ud di else 0%N) (undelegations D).

Lemma due_list T e (P : Undelegation → Prop) `{!∀ ud, Decision (P ud)} D l :
  NoDup l → (∀ ud, ud ∈ l ↔ is_Some (undelegations D !! ud) ∧ (ud_epoch ud ≤ e)%N) →
  list_sum (λ ud, if decide (P ud) then due_amount T ud (undelegation D ud) else 0%N) l = due T e P D.
Proof.
  intros Hnd Hl. unfold due, undelegation.
  rewrite (list_sum_map (λ ud di, if decide (P ud) then due_amount T ud di else 0%N) delegation_info_default
    (λ ud, (ud_epoch ud ≤ e)%N) l (undelegations D) Hnd Hl).
  apply map_sum_ext. intros ud di _. repeat case_decide; naive_solver.
Qed.


(** For one reclaim, no more is due than what was received. *)
Lemma due_within T e k D :
  (T k).2 ≠ 0%N →
  (map_sum (λ ud di, if decide ((ud_epoch ud, ud_from ud) = k) then di_shares di else 0) (undelegations D) ≤ (T k).2)%N →
  (due T e (λ ud, (ud_epoch ud, ud_from ud) = k) D ≤ (T k).1 * cf)%N.
Proof.
  intros Hnz Hle. pose proof (proportion_sum _ (T k) (undelegations D) Hnz Hle) as Hp. unfold due.
  transitivity (map_sum (λ ud di, proportion (T k) (if decide ((ud_epoch ud, ud_from ud) = k) then di_shares di else 0))
    (undelegations D) * cf)%N; [|by apply N.mul_le_mono_r].
  clear Hp Hle. induction (undelegations D) as [|ud di m Hud IH] using map_ind; [done|].
  rewrite !map_sum_insert_None by done. rewrite N.mul_add_distr_r. apply N.add_le_mono; [|exact IH].
  destruct (decide (_ ∧ _)) as [[_ Hk]|_]; [|lia]. rewrite decide_True by done. unfold due_amount. by rewrite Hk.
Qed.
End reclaims.

Module ReclaimClaims.
Section claims.
Context `{Platform} `{!MKVSLaws} `{!AccountsCodec} `{!AccountsCodecLaws}.
Context `{!ConsensusAccountsCodec} `{!ConsensusAccountsCodecLaws}.
Context `{!ConsensusLayer} `{!ConsensusAPI} `{!ConsensusContract}.
Context `{!LruCache (N * Address) (N * N), !LruLaws (N * Address) (N * N)}.
Context (cd : Denomination) (cf : N).

(** C6. At the first block of an epoch, every undelegation that is due is paid exactly once: its owner
    is credited with its proportion, rounded down, of what the runtime received for the reclaim, in
    base units, the supply grows by the sum, and its record and its place in the queue are gone;
    undelegations that are not due, delegations and all other balances stay.  Whatever the cache of
    reclaims forgets, nothing panics as long as the amounts are representable, and for each reclaim no
    more is paid in all than what was received. *)
Theorem reclaims_are_paid ctx T s L D :
  bridged cd cf s L D → has_epoch_changed (E := Empty_set) s = (Ok true, s) →
  (∀ ud di, undelegations D !! ud = Some di → (ud_epoch ud ≤ ctx_epoch ctx)%N → payable cf ctx T ud di) →
  (supply_of L cd + due cf T (ctx_epoch ctx) (λ _, True) D ≤ u128_max)%N →
  ∃ s' L' D', consensus_accounts_end_block ctx s = (Ok tt, s') ∧ bridged cd cf s' L' D' ∧
    delegations D' = delegations D ∧
    (∀ ud, undelegations D' !! ud = if decide (ud_epoch ud ≤ ctx_epoch ctx)%N then None else undelegations D !! ud) ∧
    (∀ d, supply_of L' d = supply_of L d +
       if decide (cd = d) then due cf T (ctx_epoch ctx) (λ _, True) D else 0)%N ∧
    (∀ a d, balance L' a d = balance L a d +
       if decide (cd = d) then due cf T (ctx_epoch ctx) (λ ud, ud_to ud = a) D else 0)%N ∧
    (∀ k, (T k).2 ≠ 0%N →
       (map_sum (λ ud di, if decide ((ud_epoch ud, ud_from ud) = k) then di_shares di else 0) (undelegations D) ≤ (T k).2)%N →
       (due cf T (ctx_epoch ctx) (λ ud, (ud_epoch ud, ud_from ud) = k) D ≤ (T k).1 * cf)%N).
Proof.
  intros Hb Hch Hpay Hsup. unfold consensus_accounts_end_block. rewrite (bind_ok _ _ _ _ _ Hch). cbn [negb].
  rewrite (bind_ok _ _ _ _ _ (unwrap_ok _ _ _ _ _ (cs_denomination_run s cd cf (br_settled _ _ _ _ _ Hb)))).
  destruct (get_queued_undelegations_run (E := Empty_set) s D (ctx_epoch ctx) (br_shares _ _ _ _ _ Hb))
    as (l & Hrun & Hsorted & Hl). rewrite (bind_ok _ _ _ _ _ Hrun).
  pose proof (queued_nodup l Hsorted) as Hnd.
  assert (Hall : list_sum (λ ud, due_amount cf T ud (undelegation D ud)) l = due cf T (ctx_epoch ctx) (λ _, True) D).
  { rewrite <-(due_list cf T (ctx_epoch ctx) (λ _, True) D l Hnd Hl). apply list_sum_ext. intros ud _. by rewrite decide_True. }
  destruct (process_all_run cd cf ctx T l (lru_new 128) s L D Hb Hnd) as (c' & s' & L' & D' & Hrun' & Hb' & Hd' & Hu' & Hs' & Hbal').
  - intros ud Hud. apply Hl in Hud as [[di Hdi] Hle]. split.
    + apply (tb_valid _ _ _ _ _ (so_undelegations _ _ (br_shares _ _ _ _ _ Hb))). by eexists.
    + unfold undelegation. rewrite Hdi. by apply Hpay.
  - apply cache_sound_new.
  - by rewrite Hall.
  - exists s', L', D'. rewrite (bind_ok _ _ _ _ _ Hrun'). split; [done|]. split; [done|]. split; [done|].
    split; [|split; [intros d; by rewrite Hs', Hall|split]].
    + intros ud. rewrite Hu'. destruct (decide (ud_epoch ud ≤ ctx_epoch ctx)%N) as [Hle|Hgt].
      * destruct (decide (ud ∈ l)) as [|Hin]; [done|]. destruct (undelegations D !! ud) as [di|] eqn:Hud; [|done].
        destruct Hin. apply Hl. split; [by exists di|done].
      * rewrite decide_False; [done|]. by intros [_ ?]%Hl.
    + intros a d. rewrite Hbal'. by rewrite (due_list cf T (ctx_epoch ctx) (λ ud, ud_to ud = a) D l Hnd Hl).
    + intros k Hnz Hle. by apply due_within.
Qed.
End claims.
End ReclaimClaims.
