(* ===== verification/Bridge.v ===== *)
(** The traffic with the consensus layer as a state machine: messages in flight, their answers, and the
    invariant under which every answer can be handled
    (src/runtime-sdk/src/modules/consensus_accounts/mod.rs). *)
From S2P Require Import Prelude Endian Storage StoreIter Types Fee Errors State Current Transactions Module Tables Core.
From S2P Require Import Consensus Amounts Accounts Ledger Accounting Disbursement Moves Supplies ConsensusAccounts Delegations.
From S2P Require Import Flows Reclaims.

(** * Messages in flight *)

(** A message whose result has not arrived, with the context that comes back with it. *)
Inductive Pending :=
  | PendingTransfer (c : ConsensusTransferContext)
  | PendingDeposit (c : ConsensusWithdrawContext)
  | PendingDelegate (c : ConsensusDelegateContext)
  | PendingUndelegate (c : ConsensusUndelegateContext).

(** What the messages in flight keep in the pending accounts, and the shares that are being reclaimed
    from an escrow account. *)
Definition awaiting_withdrawal (d : Denomination) (p : Pending) : N :=
  match p with PendingTransfer c => delta (tc_amount c) d | _ => 0%N end.
Definition awaiting_delegation (d : Denomination) (p : Pending) : N :=
  match p with PendingDelegate c => delta (dc_amount c) d | _ => 0%N end.
Definition reclaiming (escrow : Address) (p : Pending) : N :=
  match p with
  | PendingUndelegate c => if decide (uc_from c = escrow) then uc_shares c else 0%N
  | _ => 0%N
  end.

(** The shares that the accounts of the runtime have in an escrow account. *)
Definition delegated (D : Shares) (escrow : Address) : N :=
  map_sum (λ k di, if decide (k.2 = escrow) then di_shares di else 0%N) (delegations D).

Lemma delegated_insert D from to di escrow :
  (delegated (set_delegation (from, to) di D) escrow +
     (if decide (to = escrow) then di_shares (delegation D from to) else 0) =
   delegated D escrow + (if decide (to = escrow) then di_shares di else 0))%N.
Proof.
  unfold delegated, delegation, set_delegation. simpl.
  pose proof (map_sum_insert (λ k di, if decide (k.2 = escrow) then di_shares di else 0%N) (delegations D) (from, to) di)
    as Hs.
  destruct (delegations D !! (from, to)) as [di'|]; simpl in *; case_decide; lia.
Qed.
Lemma delegated_delete D from to escrow :
  (delegated (drop_delegation (from, to) D) escrow +
     (if decide (to = escrow) then di_shares (delegation D from to) else 0) = delegated D escrow)%N.
Proof.
  unfold delegated, delegation, drop_delegation. simpl.
  destruct (delegations D !! (from, to)) as [di|] eqn:Hdi; simpl.
  - rewrite (map_sum_delete _ (delegations D) (from, to) di Hdi). simpl. case_decide; lia.
  - rewrite delete_id by done. case_decide; lia.
Qed.
Lemma delegation_le_delegated D from to : (di_shares (delegation D from to) ≤ delegated D to)%N.
Proof.
  unfold delegation, delegated. destruct (delegations D !! (from, to)) as [di|] eqn:Hdi; simpl; [|lia].
  pose proof (map_sum_lookup_le (λ k di, if decide (k.2 = to) then di_shares di else 0%N) (delegations D) (from, to) di Hdi)
    as Hle. simpl in Hle. by rewrite decide_True in Hle.
Qed.

Lemma spec_add_delegated from to n D D' escrow :
  spec_add_delegation from to n D = inr (tt, D') →
  delegated D' escrow = (delegated D escrow + if decide (to = escrow) then n else 0)%N ∧
  undelegations D' = undelegations D.
Proof.
  unfold spec_add_delegation. destruct (_ <=? _)%N; [|done]. intros [= <-]. split; [|done].
  pose proof (delegated_insert D from to
    {| di_shares := di_shares (delegation D from to) + n; di_receipt := di_receipt (delegation D from to) |} escrow) as Hd.
  simpl in Hd. case_decide; lia.
Qed.
Lemma spec_sub_delegated from to n D D' escrow :
  spec_sub_delegation from to n D = inr (tt, D') →
  (delegated D' escrow + (if decide (to = escrow) then n else 0) = delegated D escrow)%N ∧
  undelegations D' = undelegations D.
Proof.
  unfold spec_sub_delegation. destruct (N.ltb_spec (di_shares (delegation D from to)) n) as [|Hle]; [done|].
  destruct (N.eqb_spec (di_shares (delegation D from to)) n) as [Heq|Hne]; intros [= <-]; (split; [|done]).
  - pose proof (delegated_delete D from to escrow). case_decide; lia.
  - pose proof (delegated_insert D from to
      {| di_shares := di_shares (delegation D from to) - n; di_receipt := di_receipt (delegation D from to) |} escrow) as Hd.
    simpl in Hd. case_decide; lia.
Qed.

(** * The consensus layer's side *)

(** The shares that the runtime holds in an escrow account, and those that debond until an epoch. *)
Record Escrow := { granted : Address → N; debonding : Address → N → N }.

Definition grant (escrow : Address) (n : N) (X : Escrow) : Escrow :=
  {| granted a := if decide (escrow = a) then (granted X a + n)%N else granted X a; debonding := debonding X |}.
Definition reclaim (escrow : Address) (shares n e : N) (X : Escrow) : Escrow :=
  {| granted a := if decide (escrow = a) then (granted X a - shares)%N else granted X a;
     debonding a e' := if decide (escrow = a ∧ e = e') then (debonding X a e' + n)%N else debonding X a e' |}.

(** Numbers of shares are 128-bit integers. *)
Record escrow_bounded (X : Escrow) : Prop := {
  eb_granted a : (granted X a ≤ u128_max)%N;
  eb_debonding a e : (debonding X a e ≤ u128_max)%N;
}.

Section machine.
Context `{Platform} `{!MKVSLaws} `{!AccountsCodec} `{!AccountsCodecLaws}.
Context `{!ConsensusAccountsCodec} `{!ConsensusAccountsCodecLaws}.
Context `{!ConsensusLayer} `{!ConsensusAPI} `{!ConsensusContract}.
Context `{!LruCache (N * Address) (N * N)}.
Context (cd : Denomination) (cf : N).

(** The answer of the consensus layer to a message, with its effect on the shares of the runtime. *)
Inductive answer : MessageEvent → Pending → Escrow → Escrow → Prop :=
  | answer_failed me p X : message_is_success me = false → answer me p X X
  | answer_transfer me c X : message_is_success me = true → answer me (PendingTransfer c) X X
  | answer_deposit me c X : message_is_success me = true → answer me (PendingDeposit c) X X
  | answer_delegate me c n X :
      message_is_success me = true → has_result me {| aer_new_shares := n |} →
      (granted X (dc_to c) + n ≤ u128_max)%N → answer me (PendingDelegate c) X (grant (dc_to c) n X)
  | answer_undelegate me c n e X :
      message_is_success me = true →
      has_result me {| rer_debonding_shares := n; rer_debond_end_time := e |} → (e ≤ u64_max)%N →
      (debonding X (uc_from c) e + n ≤ u128_max)%N →
      answer me (PendingUndelegate c) X (reclaim (uc_from c) (uc_shares c) n e X).

(** The handler of the result. *)
Definition handle_result (me : MessageEvent) (p : Pending) : M Empty_set unit :=
  match p with
  | PendingTransfer c => message_result_transfer me c
  | PendingDeposit c => message_result_withdraw me c
  | PendingDelegate c => message_result_delegate me c
  | PendingUndelegate c => message_result_undelegate me c
  end.

(** The pending accounts have no keys, so that nobody else moves their tokens. *)
Definition outsider (a : Address) : Prop := a ≠ ADDRESS_PENDING_WITHDRAWAL ∧ a ≠ ADDRESS_PENDING_DELEGATION.

Record Config := { cf_state : State; cf_pending : list Pending; cf_escrow : Escrow }.

Inductive flow : Config → Config → Prop :=
  | flow_deposit ctx from nonce to a s s' ps X :
      deposit ctx from nonce to a s = (Ok tt, s') →
      flow (Build_Config s ps X)
        (Build_Config s' (PendingDeposit {| wc_from := from; wc_nonce := nonce; wc_address := to; wc_amount := a |} :: ps) X)
  | flow_withdraw ctx from nonce to a s s' ps X :
      outsider from → withdraw ctx from nonce to a s = (Ok tt, s') →
      flow (Build_Config s ps X)
        (Build_Config s' (PendingTransfer {| tc_to := to; tc_nonce := nonce; tc_address := from; tc_amount := a |} :: ps) X)
  | flow_delegate ctx from nonce to a receipt s s' ps X :
      outsider from → delegate ctx from nonce to a receipt s = (Ok tt, s') →
      flow (Build_Config s ps X)
        (Build_Config s' (PendingDelegate {| dc_from := from; dc_nonce := nonce; dc_to := to; dc_amount := a;
                                             dc_receipt := receipt |} :: ps) X)
  | flow_undelegate ctx from nonce to shares receipt s s' ps X :
      (nonce ≤ u64_max)%N → undelegate ctx from nonce to shares receipt s = (Ok tt, s') →
      flow (Build_Config s ps X)
        (Build_Config s' (PendingUndelegate {| uc_from := from; uc_nonce := nonce; uc_to := to; uc_shares := shares;
                                               uc_receipt := receipt |} :: ps) X)
  | flow_result me p s s' ps ps' X X' :
      ps ≡ₚ p :: ps' → answer me p X X' → handle_result me p s = (Ok tt, s') →
      flow (Build_Config s ps X) (Build_Config s' ps' X')
  | flow_transfer from to u s s' ps X :
      outsider from → transfer from to u s = (Ok tt, s') → flow (Build_Config s ps X) (Build_Config s' ps X)
  | flow_mint to u s s' ps X :
      mint to u s = (Ok tt, s') → flow (Build_Config s ps X) (Build_Config s' ps X)
  | flow_burn from u s s' ps X :
      outsider from → burn from u s = (Ok tt, s') → flow (Build_Config s ps X) (Build_Config s' ps X)
  | flow_end_block ctx s s' ps X :
      consensus_accounts_end_block ctx s = (Ok tt, s') → flow (Build_Config s ps X) (Build_Config s' ps X).

(** The pending accounts cover the messages in flight, the shares of the accounts are those of the
    runtime, and so are the recorded undelegations. *)
Record balanced (ps : list Pending) (X : Escrow) (L : Ledger) (D : Shares) : Prop := {
  bl_withdrawals d : (list_sum (awaiting_withdrawal d) ps ≤ balance L ADDRESS_PENDING_WITHDRAWAL d)%N;
  bl_delegations d : (list_sum (awaiting_delegation d) ps ≤ balance L ADDRESS_PENDING_DELEGATION d)%N;
  bl_granted a : (delegated D a + list_sum (reclaiming a) ps ≤ granted X a)%N;
  bl_debonding ud : (di_shares (undelegation D ud) ≤ debonding X (ud_from ud) (ud_epoch ud))%N;
  bl_nonces c : PendingUndelegate c ∈ ps → (uc_nonce c ≤ u64_max)%N;
}.
Definition bridge_inv (C : Config) : Prop :=
  escrow_bounded (cf_escrow C) ∧
  ∃ L D, bridged cd cf (cf_state C) L D ∧ balanced (cf_pending C) (cf_escrow C) L D.

Lemma balanced_perm ps ps' X L D : ps ≡ₚ ps' → balanced ps X L D → balanced ps' X L D.
Proof.
  intros Hp [Hw Hd Hg Hdb Hn]. split; [intros d; rewrite <-Hp..|intros a; rewrite <-Hp| |intros c; rewrite <-Hp]; auto.
Qed.
(** Balances of the pending accounts may grow. *)
Lemma balanced_grows ps X L L' D :
  balanced ps X L D →
  (∀ a d, outsider a ∨ (balance L a d ≤ balance L' a d)%N) → balanced ps X L' D.
Proof.
  intros [Hw Hd Hg Hdb Hn] Hle. split; [..|done|done|done].
  - intros d. specialize (Hw d). destruct (Hle ADDRESS_PENDING_WITHDRAWAL d) as [[]|]; [done|lia].
  - intros d. specialize (Hd d). destruct (Hle ADDRESS_PENDING_DELEGATION d) as [[]|]; [done|lia].
Qed.

Hypothesis pending_distinct : ADDRESS_PENDING_WITHDRAWAL ≠ ADDRESS_PENDING_DELEGATION.

Lemma delta_own u : delta u (denomination u) = amount u.
Proof. unfold delta. by rewrite decide_True. Qed.

(** Releasing tokens of a pending account touches no other one. *)
Lemma released_balance (ok : bool) P Q to u L L' d :
  P ≠ Q → (if ok then destroyed P u L L' else shifted P to u L L') →
  (balance L P d ≤ balance L' P d + delta u d)%N ∧ (balance L Q d ≤ balance L' Q d)%N.
Proof.
  intros Hne Hres. destruct ok; destruct Hres as [_ Hbal]; pose proof (Hbal P d) as HP; pose proof (Hbal Q d) as HQ;
    rewrite decide_True in HP by done; rewrite decide_False in HQ by done; repeat case_decide; lia.
Qed.

(** ** Answers can be handled *)

Lemma transfer_result_balanced me c s L D ps X :
  bridged cd cf s L D → balanced (PendingTransfer c :: ps) X L D →
  ∃ s' L', message_result_transfer me c s = (Ok tt, s') ∧ bridged cd cf s' L' D ∧ balanced ps X L' D.
Proof.
  intros Hb [Hw Hd Hg Hdb Hn].
  destruct (message_result_transfer_run cd cf me c s L D Hb) as (s' & L' & Hrun & Hb' & Hres).
  { specialize (Hw (denomination (tc_amount c))). rewrite list_sum_cons in Hw. simpl in Hw. rewrite delta_own in Hw. lia. }
  exists s', L'. split; [done|]. split; [done|].
  pose proof (λ d, released_balance _ _ ADDRESS_PENDING_DELEGATION _ _ _ _ d pending_distinct Hres) as Hrel.
  split; [intros d|intros d|intros a|done|intros c' Hc'; apply Hn; by right].
  - specialize (Hw d). destruct (Hrel d). rewrite list_sum_cons in Hw. simpl in Hw. lia.
  - specialize (Hd d). destruct (Hrel d). rewrite list_sum_cons in Hd. simpl in Hd. lia.
  - specialize (Hg a). by rewrite list_sum_cons in Hg.
Qed.

Lemma deposit_result_balanced me c s L D ps X :
  bridged cd cf s L D → balanced (PendingDeposit c :: ps) X L D →
  (message_is_success me = true → supply_of L (denomination (wc_amount c)) + amount (wc_amount c) ≤ u128_max)%N →
  ∃ s' L', message_result_withdraw me c s = (Ok tt, s') ∧ bridged cd cf s' L' D ∧ balanced ps X L' D.
Proof.
  intros Hb Hbal Hfit. destruct (message_result_withdraw_run cd cf me c s L D Hb Hfit) as (s' & L' & Hrun & Hb' & Hres).
  exists s', L'. split; [done|]. split; [done|].
  apply (balanced_grows _ _ L).
  - destruct Hbal as [Hw Hd Hg Hdb Hn]. split; [intros d..|intros a|done|intros c' Hc'; apply Hn; by right];
      [specialize (Hw d)|specialize (Hd d)|specialize (Hg a)]; by rewrite list_sum_cons in *.
  - intros a d. right. destruct (message_is_success me); [|by subst]. destruct Hres as [_ Hres]. rewrite Hres. lia.
Qed.

Lemma delegate_result_balanced me c s L D ps X X' :
  bridged cd cf s L D → balanced (PendingDelegate c :: ps) X L D → escrow_bounded X →
  answer me (PendingDelegate c) X X' →
  ∃ s' L' D', message_result_delegate me c s = (Ok tt, s') ∧ bridged cd cf s' L' D' ∧ balanced ps X' L' D' ∧
    escrow_bounded X'.
Proof.
  intros Hb Hbal HX Hans. pose proof Hbal as [Hw Hd Hg Hdb Hn].
  assert (Hle : (amount (dc_amount c) ≤ balance L ADDRESS_PENDING_DELEGATION (denomination (dc_amount c)))%N).
  { specialize (Hd (denomination (dc_amount c))). rewrite list_sum_cons in Hd. simpl in Hd. rewrite delta_own in Hd. lia. }
  set (n := (granted X' (dc_to c) - granted X (dc_to c))%N).
  destruct (message_result_delegate_run cd cf me c s L D n Hb Hle) as (s' & L' & D' & Hrun & Hb' & Hres).
  { intros Hok. inversion Hans as [? ? ? Hf|? ? ? Hs|? ? ? Hs|? ? n' ? Hs Hr Hb2|]; subst; [congruence|].
    assert (n = n') as ->. { unfold n, grant. simpl. rewrite decide_True by done. lia. }
    split; [done|]. pose proof (delegation_le_delegated D (dc_from c) (dc_to c)). specialize (Hg (dc_to c)). lia. }
  exists s', L', D'. split; [done|]. split; [done|].
  assert (Hrel : ∀ d, (balance L ADDRESS_PENDING_DELEGATION d ≤
            balance L' ADDRESS_PENDING_DELEGATION d + delta (dc_amount c) d)%N ∧
            (balance L ADDRESS_PENDING_WITHDRAWAL d ≤ balance L' ADDRESS_PENDING_WITHDRAWAL d)%N).
  { intros d. apply (released_balance (message_is_success me) _ _ (dc_from c)); [done|].
    by destruct (message_is_success me); destruct Hres. }
  assert (HD : (∀ a, delegated D' a + granted X a ≤ delegated D a + granted X' a)%N ∧ undelegations D' = undelegations D ∧
               debonding X' = debonding X ∧ escrow_bounded X').
  { inversion Hans as [? ? ? Hf|? ? ? Hs|? ? ? Hs|? ? n' ? Hs Hr Hb2|]; subst.
    - rewrite Hf in Hres. by destruct Hres as [_ ->].
    - rewrite Hs in Hres. destruct Hres as [_ Hspec].
      assert (n = n') as Hnn. { unfold n, grant. simpl. rewrite decide_True by done. lia. }
      split; [|split; [by apply (spec_add_delegated _ _ _ _ _ (dc_to c) Hspec)|split; [done|]]].
      + intros a. rewrite (proj1 (spec_add_delegated _ _ _ _ _ a Hspec)). simpl. case_decide; lia.
      + destruct HX as [Hg' Hd']. split; [|done]. intros a. simpl. case_decide as Ha; [by rewrite <-Ha|done]. }
  destruct HD as (HDg & HDu & HXd & HX'). split; [|done].
  split; [intros d|intros d|intros a| |intros c' Hc'; apply Hn; by right].
  - specialize (Hw d). destruct (Hrel d). rewrite list_sum_cons in Hw. simpl in Hw. lia.
  - specialize (Hd d). destruct (Hrel d). rewrite list_sum_cons in Hd. simpl in Hd. lia.
  - specialize (Hg a). specialize (HDg a). rewrite list_sum_cons in Hg. simpl in Hg. lia.
  - intros ud. unfold undelegation. rewrite HDu, HXd. apply Hdb.
Qed.

Lemma balanced_undelegated c ps X X' L D D' :
  balanced (PendingUndelegate c :: ps) X L D →
  (∀ a, delegated D' a + granted X a ≤ delegated D a + granted X' a + if decide (uc_from c = a) then uc_shares c else 0)%N →
  (∀ ud, di_shares (undelegation D' ud) ≤ debonding X' (ud_from ud) (ud_epoch ud))%N →
  balanced ps X' L D'.
Proof.
  intros [Hw Hd Hg Hdb Hn] Hdel Hdeb. split; [intros d|intros d|intros a|done|intros c' Hc'; apply Hn; by right].
  - specialize (Hw d). by rewrite list_sum_cons in Hw.
  - specialize (Hd d). by rewrite list_sum_cons in Hd.
  - specialize (Hg a). specialize (Hdel a). rewrite list_sum_cons in Hg. simpl in Hg. lia.
Qed.

Lemma reclaim_bounded escrow shares n e X :
  escrow_bounded X → (debonding X escrow e + n ≤ u128_max)%N → escrow_bounded (reclaim escrow shares n e X).
Proof.
  intros [Hg Hd] Hle. split; [intros a|intros a e']; simpl; [specialize (Hg a)|specialize (Hd a e')]; case_decide; try lia.
  by destruct_and!; subst.
Qed.

Lemma put_undelegation_debonding ud di n shares X D ud' :
  (∀ ud, di_shares (undelegation D ud) ≤ debonding X (ud_from ud) (ud_epoch ud))%N →
  di_shares di = (di_shares (undelegation D ud) + n)%N →
  (di_shares (undelegation (put_undelegation ud di D) ud') ≤
     debonding (reclaim (ud_from ud) shares n (ud_epoch ud) X) (ud_from ud') (ud_epoch ud'))%N.
Proof.
  intros Hdb Hdi. unfold undelegation, put_undelegation. simpl. destruct (decide (ud = ud')) as [<-|Hne].
  - rewrite lookup_insert_eq, decide_True by done. simpl. specialize (Hdb ud). lia.
  - rewrite lookup_insert_ne by done. fold (undelegation D ud'). specialize (Hdb ud'). case_decide; lia.
Qed.

Lemma undelegate_result_balanced me c s L D ps X X' :
  bridged cd cf s L D → balanced (PendingUndelegate c :: ps) X L D → escrow_bounded X →
  answer me (PendingUndelegate c) X X' →
  ∃ s' D', message_result_undelegate me c s = (Ok tt, s') ∧ bridged cd cf s' L D' ∧ balanced ps X' L D' ∧
    escrow_bounded X'.
Proof.
  intros Hb Hbal HX Hans. pose proof (bl_nonces _ _ _ _ Hbal c ltac:(left)) as Hnc.
  inversion Hans as [? ? ? Hf|? ? ? Hs|? ? ? Hs|? ? n' ? Hs Hr Hb2|? ? n e ? Hs Hr He Hbnd]; subst.
  - destruct (message_result_undelegate_run cd cf me c s L D 0 0 Hb Hnc) as (s' & D' & Hrun & Hb' & Hres); rewrite Hf in *.
    { pose proof (delegation_le_delegated D (uc_to c) (uc_from c)). pose proof (bl_granted _ _ _ _ Hbal (uc_from c)) as Hg.
      pose proof (eb_granted _ HX (uc_from c)). rewrite list_sum_cons in Hg. simpl in Hg.
      rewrite decide_True in Hg by done. lia. }
    exists s', D'. do 2 (split; [done|]). split; [|done]. apply (balanced_undelegated c ps X' X' L D); [done|..].
    + intros a. rewrite (proj1 (spec_add_delegated _ _ _ _ _ a Hres)). lia.
    + intros ud. unfold undelegation. rewrite (proj2 (spec_add_delegated _ _ _ _ _ (uc_from c) Hres)). apply Hbal.
  - set (ud := {| ud_from := uc_from c; ud_to := uc_to c; ud_epoch := e |}).
    destruct (message_result_undelegate_run cd cf me c s L D n e Hb Hnc) as (s' & D' & Hrun & Hb' & Hres); rewrite Hs in *.
    { pose proof (bl_debonding _ _ _ _ Hbal ud) as Hdb. simpl in Hdb. unfold ud in Hdb.
      split; [done|]. split; [lia|]. split; [done|]. lia. }
    destruct Hres as [rc Hspec]. unfold spec_add_undelegation in Hspec. fold ud in Hspec.
    destruct (_ <=? _)%N; [|done]. injection Hspec as _ <-. eexists s', _. split; [done|]. split; [exact Hb'|].
    split; [|by apply reclaim_bounded]. apply (balanced_undelegated c ps X _ L D); [done|..].
    + intros a. change (delegated (put_undelegation _ _ D) a) with (delegated D a). simpl. case_decide; lia.
    + intros ud'. apply (put_undelegation_debonding ud); [apply Hbal|done].
Qed.

Lemma handle_result_run me p s L D ps X X' :
  bridged cd cf s L D → balanced (p :: ps) X L D → escrow_bounded X → answer me p X X' →
  (∀ c, p = PendingDeposit c → message_is_success me = true →
     supply_of L (denomination (wc_amount c)) + amount (wc_amount c) ≤ u128_max)%N →
  ∃ s' L' D', handle_result me p s = (Ok tt, s') ∧ bridged cd cf s' L' D' ∧ balanced ps X' L' D' ∧ escrow_bounded X'.
Proof.
  intros Hb Hbal HX Hans Hfit. destruct p as [c|c|c|c]; cbn [handle_result].
  - destruct (transfer_result_balanced me c s L D ps X Hb Hbal) as (s' & L' & Hrun & Hb' & Hbal').
    exists s', L', D. inversion Hans; subst; done.
  - destruct (deposit_result_balanced me c s L D ps X Hb Hbal (Hfit c eq_refl)) as (s' & L' & Hrun & Hb' & Hbal').
    exists s', L', D. inversion Hans; subst; done.
  - by eapply delegate_result_balanced.
  - destruct (undelegate_result_balanced me c s L D ps X X' Hb Hbal HX Hans) as (s' & D' & Hrun & Hrest).
    by exists s', L, D'.
Qed.

(** ** The invariant *)

(** Moving tokens of an outsider to a pending account. *)
Lemma shifted_pending from P Q u L L' d :
  outsider from → from ≠ P → from ≠ Q → P ≠ Q → shifted from P u L L' →
  (balance L P d + delta u d ≤ balance L' P d)%N ∧ (balance L Q d ≤ balance L' Q d)%N.
Proof.
  intros _ HP HQ Hne [_ Hbal]. split; [specialize (Hbal P d)|specialize (Hbal Q d)];
    rewrite (decide_False (P := from = _)) in Hbal by done; case_decide; try done; lia.
Qed.

Lemma withdraw_balanced c ps X L L' D :
  outsider (tc_address c) → shifted (tc_address c) ADDRESS_PENDING_WITHDRAWAL (tc_amount c) L L' →
  balanced ps X L D → balanced (PendingTransfer c :: ps) X L' D.
Proof.
  intros Ho Hsh [Hw Hd Hg Hdb Hn]. pose proof Ho as [Ho1 Ho2].
  pose proof (λ d, shifted_pending _ _ _ _ _ _ d Ho Ho1 Ho2 pending_distinct Hsh) as Hb.
  split; [intros d|intros d|intros a|done|intros c' [?|?]%elem_of_cons; [done|by apply Hn]]; rewrite list_sum_cons; simpl.
  - destruct (Hb d). specialize (Hw d). lia.
  - destruct (Hb d). specialize (Hd d). lia.
  - apply Hg.
Qed.
Lemma delegate_balanced c ps X L L' D :
  outsider (dc_from c) → shifted (dc_from c) ADDRESS_PENDING_DELEGATION (dc_amount c) L L' →
  balanced ps X L D → balanced (PendingDelegate c :: ps) X L' D.
Proof.
  intros Ho Hsh [Hw Hd Hg Hdb Hn]. pose proof Ho as [Ho1 Ho2].
  pose proof (λ d, shifted_pending _ _ _ _ _ _ d Ho Ho2 Ho1 (not_eq_sym pending_distinct) Hsh) as Hb.
  split; [intros d|intros d|intros a|done|intros c' [?|?]%elem_of_cons; [done|by apply Hn]]; rewrite list_sum_cons; simpl.
  - destruct (Hb d). specialize (Hw d). lia.
  - destruct (Hb d). specialize (Hd d). lia.
  - apply Hg.
Qed.
Lemma undelegate_balanced c ps X L D D' :
  (uc_nonce c ≤ u64_max)%N → spec_sub_delegation (uc_to c) (uc_from c) (uc_shares c) D = inr (tt, D') →
  balanced ps X L D → balanced (PendingUndelegate c :: ps) X L D'.
Proof.
  intros Hnc Hspec [Hw Hd Hg Hdb Hn].
  split; [intros d|intros d|intros a| |intros c' [[= ->]|?]%elem_of_cons; [done|by apply Hn]]; rewrite ?list_sum_cons; simpl.
  - apply Hw.
  - apply Hd.
  - pose proof (proj1 (spec_sub_delegated _ _ _ _ _ a Hspec)). specialize (Hg a). lia.
  - intros ud. unfold undelegation. rewrite (proj2 (spec_sub_delegated _ _ _ _ _ (uc_to c) Hspec)). apply Hdb.
Qed.

Lemma deposit_fits me c s s' L D :
  bridged cd cf s L D → message_result_withdraw me c s = (Ok tt, s') → message_is_success me = true →
  (supply_of L (denomination (wc_amount c)) + amount (wc_amount c) ≤ u128_max)%N.
Proof.
  intros Hb Hrun Hok. unfold message_result_withdraw in Hrun. rewrite Hok in Hrun. cbn [negb] in Hrun.
  apply bind_ok_inv in Hrun as ([] & s1 & Hmint%unwrap_inv & _).
  eapply mint_inv; [apply Hb|apply Hb|exact Hmint].
Qed.

Lemma flow_inv C C' : flow C C' → bridge_inv C → bridge_inv C'.
Proof.
  intros Hf [HX (L & D & Hb & Hbal)].
  destruct Hf as [ctx from nonce to a s s' ps X Hrun|ctx from nonce to a s s' ps X Ho Hrun
    |ctx from nonce to a receipt s s' ps X Ho Hrun|ctx from nonce to shares receipt s s' ps X Hn Hrun
    |me p s s' ps ps' X X' Hp Hans Hrun|from to u s s' ps X Ho Hrun|to u s s' ps X Hrun|from u s s' ps X Ho Hrun
    |ctx s s' ps X Hrun]; simpl in *.
  - destruct (deposit_ok cd cf ctx from nonce to a s L D s' Hb Hrun) as (c & _ & _ & Hb' & _).
    split; [done|]. exists L, D. split; [done|]. simpl. destruct Hbal as [Hw Hd Hg Hdb Hn].
    by split; [..|intros c' [?|?]%elem_of_cons; [|apply Hn]].
  - destruct (withdraw_ok cd cf ctx from nonce to a s L D s' Hb Hrun) as (L' & c & _ & _ & _ & Hb' & Hsh & _).
    split; [done|]. exists L', D. split; [done|]. by eapply withdraw_balanced.
  - destruct (delegate_ok cd cf ctx from nonce to a receipt s L D s' Hb Hrun) as (L' & c & _ & _ & _ & Hb' & Hsh & _).
    split; [done|]. exists L', D. split; [done|]. by eapply delegate_balanced.
  - destruct (undelegate_ok cd cf ctx from nonce to shares receipt s L D s' Hb Hrun) as (D' & Hspec & Hb' & _).
    split; [done|]. exists L, D'. split; [done|]. by eapply undelegate_balanced.
  - apply (balanced_perm _ _ _ _ _ Hp) in Hbal.
    destruct (handle_result_run me p s L D ps' X X' Hb Hbal HX Hans) as (s2 & L' & D' & Hrun' & Hb' & Hbal' & HX').
    { intros c -> Hok. by eapply deposit_fits. }
    rewrite Hrun in Hrun'. injection Hrun' as <-. split; [done|]. by exists L', D'.
  - pose proof (transfer_inv L s from to u s' (br_ledger _ _ _ _ _ Hb) (br_mode _ _ _ _ _ Hb) Hrun) as Hle.
    destruct (bridged_transfer cd cf s L D from to u Hb Hle) as (s2 & L' & Hrun' & Hb' & [_ Hsh] & _).
    rewrite Hrun in Hrun'. injection Hrun' as <-. split; [done|]. exists L', D. split; [done|].
    apply (balanced_grows _ _ L); [done|]. intros a d. destruct (decide (from = a)) as [<-|Hne]; [by left|right].
    specialize (Hsh a d). rewrite decide_False in Hsh by done. case_decide; lia.
  - pose proof (mint_inv L s to u s' (br_ledger _ _ _ _ _ Hb) (br_mode _ _ _ _ _ Hb) Hrun) as Hle.
    destruct (bridged_mint cd cf s L D to u Hb Hle) as (s2 & L' & Hrun' & Hb' & [_ Hbl] & _).
    rewrite Hrun in Hrun'. injection Hrun' as <-. split; [done|]. exists L', D. split; [done|].
    apply (balanced_grows _ _ L); [done|]. intros a d. right. rewrite Hbl. lia.
  - pose proof (burn_inv L s from u s' (br_ledger _ _ _ _ _ Hb) (br_mode _ _ _ _ _ Hb) Hrun) as Hle.
    destruct (bridged_burn cd cf s L D from u Hb Hle) as (s2 & L' & Hrun' & Hb' & [_ Hbl]).
    rewrite Hrun in Hrun'. injection Hrun' as <-. split; [done|]. exists L', D. split; [done|].
    apply (balanced_grows _ _ L); [done|]. intros a d. destruct (decide (from = a)) as [<-|Hne]; [by left|right].
    specialize (Hbl a d). rewrite decide_False in Hbl by done. lia.
  - destruct (end_block_ok cd cf ctx s s' L D Hb Hrun) as (L' & D' & Hb' & Hle & Hdel & Hund).
    split; [done|]. exists L', D'. split; [done|].
    destruct (balanced_grows ps X L L' D Hbal ltac:(intros a d; right; apply Hle)) as [Hw Hd Hg Hdb Hn].
    split; [done..| | |done].
    + intros a. unfold delegated. rewrite Hdel. apply Hg.
    + intros ud. specialize (Hund ud). specialize (Hdb ud). simpl. lia.
Qed.
End machine.

Module BridgeClaims.
Section claims.
Context `{Platform} `{!MKVSLaws} `{!AccountsCodec} `{!AccountsCodecLaws}.
Context `{!ConsensusAccountsCodec} `{!ConsensusAccountsCodecLaws}.
Context `{!ConsensusLayer} `{!ConsensusAPI} `{!ConsensusContract}.
Context `{!LruCache (N * Address) (N * N)}.
Context (cd : Denomination) (cf : N).

(** C5. No result of a message is unexpected: along any sequence of deposits, withdrawals,
    delegations, undelegations, results in any order, transfers, mints and burns of others and ends
    of blocks, the pending accounts cover the messages in flight and the shares on record are
    those of the runtime, so that whatever the consensus layer answers next, the handler of the
    result does not panic, provided that the supply after a deposit is representable.  The two
    pending addresses are assumed not to collide. *)
Theorem results_can_be_handled C C' me p ps X :
  ADDRESS_PENDING_WITHDRAWAL ≠ ADDRESS_PENDING_DELEGATION →
  bridge_inv cd cf C → rtc flow C C' → cf_pending C' ≡ₚ p :: ps → answer me p (cf_escrow C') X →
  (∀ L c, ledger_of (cf_state C') L → p = PendingDeposit c → message_is_success me = true →
     supply_of L (denomination (wc_amount c)) + amount (wc_amount c) ≤ u128_max)%N →
  ∃ s', handle_result me p (cf_state C') = (Ok tt, s') ∧ bridge_inv cd cf (Build_Config s' ps X).
Proof.
  intros Hne Hinv Hsteps Hp Hans Hfit.
  assert (Hinv' : bridge_inv cd cf C').
  { clear Hp Hans Hfit. induction Hsteps as [|C1 C2 C3 Hf _ IH]; [done|]. by apply IH, (flow_inv cd cf Hne C1). }
  destruct Hinv' as [HX (L & D & Hb & Hbal)]. apply (balanced_perm _ _ _ _ _ Hp) in Hbal.
  destruct (handle_result_run cd cf Hne me p (cf_state C') L D ps (cf_escrow C') X Hb Hbal HX Hans)
    as (s' & L' & D' & Hrun & Hb' & Hbal' & HX').
  { intros c Hc. apply (Hfit L c); [apply Hb|done]. }
  exists s'. split; [done|]. split; [done|]. by exists L', D'.
Qed.

(** A withdrawal, from the call to its result: the call emits one transfer message over the exact
    amount in the units of the consensus layer and moves the tokens to the pending account.  When the
    message failed, its result restores every balance and every supply; when it succeeded, exactly
    the amount is gone from the account and from the supply, and the pending account is as before. *)
Theorem withdrawal_settles ctx from nonce to a me s L D s1 :
  bridged cd cf s L D → from ≠ ADDRESS_PENDING_WITHDRAWAL → withdraw ctx from nonce to a s = (Ok tt, s1) →
  let c := {| tc_to := to; tc_nonce := nonce; tc_address := from; tc_amount := a |} in
  (∃ n, denomination a = cd ∧ amount a = (n * cf)%N ∧ st_messages s1 =
     st_messages s ++ [(staking_message (StakingTransfer to n), hook_new CONSENSUS_TRANSFER_HANDLER c)]) ∧
  ∃ s2 L2, message_result_transfer me c s1 = (Ok tt, s2) ∧ bridged cd cf s2 L2 D ∧
    (∀ d, supply_of L2 d + (if message_is_success me then delta a d else 0) = supply_of L d)%N ∧
    (∀ b d, balance L2 b d + (if message_is_success me && bool_decide (from = b) then delta a d else 0) =
            balance L b d)%N.
Proof.
  intros Hb Hne Hrun c. destruct (withdraw_ok cd cf ctx from nonce to a s L D s1 Hb Hrun)
    as (L1 & n & Hd & Hn & Hle & Hb1 & [Hsup1 Hbal1] & Hmsg). split; [by exists n|].
  destruct (message_result_transfer_run cd cf me c s1 L1 D Hb1) as (s2 & L2 & Hrun2 & Hb2 & Hres).
  { simpl. specialize (Hbal1 ADDRESS_PENDING_WITHDRAWAL (denomination a)). rewrite delta_own in Hbal1.
    rewrite decide_False, decide_True in Hbal1 by done. lia. }
  exists s2, L2. split; [done|]. split; [done|]. simpl in Hres.
  destruct (message_is_success me); cbn [andb]; destruct Hres as [Hsup2 Hbal2]; split.
  - intros d. rewrite Hsup2. by apply supply_of_supply.
  - intros b d. specialize (Hbal1 b d). specialize (Hbal2 b d). repeat case_decide; case_bool_decide; try done; lia.
  - intros d. rewrite N.add_0_r. rewrite (supply_of_supply L1 L2) by done. by apply supply_of_supply.
  - intros b d. specialize (Hbal1 b d). specialize (Hbal2 b d). repeat case_decide; lia.
Qed.
End claims.
End BridgeClaims.

(** The invariant check of the consensus accounts module: the runtime owns what its accounts are owed
    (src/runtime-sdk/src/modules/consensus_accounts/mod.rs, [check_invariants]). *)

Section solvency.
Context `{Platform} `{!MKVSLaws} `{!AccountsCodec} `{!AccountsCodecLaws}.
Context `{!ConsensusAccountsCodec} `{!ConsensusAccountsCodecLaws}.
Context `{!ConsensusLayer} `{!ConsensusAPI} `{!ConsensusContract}.
Context (cd : Denomination) (cf : N).

(** The shares of an entry that are in an escrow account. *)
Definition entry_shares (escrow : Address) (x : Address * Address * DelegationInfo) : N :=
  if decide (x.1.2 = escrow) then di_shares x.2 else 0%N.

(** Adding up by destination. *)
Lemma add_all_run l m s :
  (∀ a, default 0 (m !! a) + list_sum (entry_shares a) l ≤ u128_max)%N →
  ∃ m', fold_m l m add_by_destination s = (Ok m', s) ∧
    ∀ a, (default 0 (m' !! a) = default 0 (m !! a) + list_sum (entry_shares a) l)%N.
Proof.
  revert m. induction l as [|[[from to] di] l IH]; intros m Hle; cbn [fold_m].
  { exists m. split; [done|]. intros a. simpl. lia. }
  assert (Hadd : (default 0 (m !! to) + di_shares di ≤ u128_max)%N).
  { specialize (Hle to). rewrite list_sum_cons in Hle. unfold entry_shares at 1 in Hle. simpl in Hle.
    rewrite decide_True in Hle by done. lia. }
  set (m1 := <[to := (default 0 (m !! to) + di_shares di)%N]> m).
  rewrite (bind_ok _ _ s m1 s); last first.
  { unfold add_by_destination, checked_add. rewrite (proj2 (N.leb_le _ _) Hadd). done. }
  assert (Hm1 : ∀ a, default 0%N (m1 !! a) = (default 0 (m !! a) + entry_shares a (from, to, di))%N).
  { intros a. unfold m1, entry_shares. simpl. rewrite lookup_insert. case_decide as Ha; [by subst|simpl; lia]. }
  destruct (IH m1) as (m' & Hrun & Hm').
  { intros a. specialize (Hle a). rewrite list_sum_cons in Hle. rewrite Hm1. lia. }
  exists m'. split; [done|]. intros a. rewrite Hm', Hm1, list_sum_cons. lia.
Qed.

Lemma get_delegations_by_destination_run s D :
  shares_of s D → (∀ a, delegated D a ≤ u128_max)%N →
  ∃ m, get_delegations_by_destination s = (Ok m, s) ∧ ∀ a, default 0%N (m !! a) = delegated D a.
Proof.
  intros Hs Hle. unfold get_delegations_by_destination.
  destruct (table_iter_run (E := ConsensusAccountsError) _ _ _ address_pair delegation_info_default _ s ca_store
    DELEGATIONS address_pair_key (so_delegations _ _ Hs) (so_writable _ _ Hs) eq_refl)
    as (l & Hrun & Hsorted & Hl & _).
  assert (Hsum : ∀ a, list_sum (entry_shares a) l = delegated D a).
  { intros a. unfold delegated. rewrite map_sum_list. assert (l ≡ₚ map_to_list (delegations D)) as ->; [|done].
    apply NoDup_Permutation; [by eapply NoDup_fmap_1, key_sorted_nodup|apply NoDup_map_to_list|].
    intros [k v]. by rewrite Hl, elem_of_map_to_list. }
  rewrite (bind_ok _ _ _ _ _ Hrun). destruct (add_all_run l ∅ s) as (m & Hm & Hget).
  { intros a. rewrite lookup_empty, Hsum. simpl. apply Hle. }
  exists m. split; [done|]. intros a. by rewrite Hget, lookup_empty, Hsum.
Qed.

(** Checking every destination. *)
Lemma check_delegations_run ctx rt (held : Address → N) l s :
  (∀ a s, cs_delegation ctx rt a s = (Ok (held a), s)) →
  ∃ r, for_each l (check_delegation ctx rt) s = (r, s) ∧ (∀ msg, r ≠ Panic msg) ∧
    (r = Ok tt ↔ ∀ a n, (a, n) ∈ l → (n ≤ held a)%N).
Proof.
  intros Hheld. induction l as [|[a n] l (r & Hrun & Hp & Hr)]; cbn [for_each].
  { exists (Ok tt). split; [done|]. split; [done|]. split; [|done]. by intros _ a n ?%not_elem_of_nil. }
  assert (Hone : check_delegation ctx rt (a, n) s =
    (if (held a <? n)%N then Err (InvariantViolation "runtime does not have enough shares delegated") else Ok tt, s)).
  { unfold check_delegation. rewrite (bind_ok _ _ _ _ _ (map_err_ok _ _ _ _ _ (Hheld a s))). by destruct (_ <? _)%N. }
  destruct (N.ltb_spec (held a) n) as [Hlt|Hle].
  - rewrite (bind_err _ _ _ _ _ Hone). eexists. split; [done|]. split; [done|]. split; [done|].
    intros Hall. specialize (Hall a n ltac:(left)). lia.
  - rewrite (bind_ok _ _ _ _ _ Hone). exists r. split; [done|]. split; [done|]. rewrite Hr. split.
    + intros Hall a' n' [[= -> ->]|Hin]%elem_of_cons; [done|by apply Hall].
    + intros Hall a' n' Hin. apply Hall. by right.
Qed.
End solvency.

Module SolvencyClaims.
Section claims.
Context `{Platform} `{!MKVSLaws} `{!AccountsCodec} `{!AccountsCodecLaws}.
Context `{!ConsensusAccountsCodec} `{!ConsensusAccountsCodecLaws}.
Context `{!ConsensusLayer} `{!ConsensusAPI} `{!ConsensusContract}.
Context (cd : Denomination) (cf : N).

(** The check of the consensus accounts reads the supplies and the delegations back from the store,
    changes nothing and never panics.  It passes exactly when the balance of the runtime on the
    consensus layer, in base units, is representable and not less than the supply of the
    denomination, and the runtime holds in every escrow account at least the sum of the shares
    that its accounts have there. *)
Theorem solvency_check_exact ctx s L D acct (held : Address → N) :
  bridged cd cf s L D → (∀ a, delegated D a ≤ u128_max)%N →
  let rt := from_runtime_id (runtime_id ctx) in
  (∀ s, cs_account ctx rt s = (Ok acct, s)) → (∀ a s, cs_delegation ctx rt a s = (Ok (held a), s)) →
  let owned := (N.min (ca_general_balance acct) u128_max * cf)%N in
  ∃ r, consensus_accounts_check_invariants ctx s = (r, s) ∧ (∀ msg, r ≠ Panic msg) ∧
    (r = Ok tt ↔ (owned ≤ u128_max)%N ∧ (supply_of L cd ≤ owned)%N ∧ ∀ a, (delegated D a ≤ held a)%N).
Proof.
  intros Hb Hdel rt Hacct Hheld owned. unfold consensus_accounts_check_invariants.
  rewrite (bind_ok _ _ _ _ _ (unwrap_ok _ _ _ _ _ (cs_denomination_run s cd cf (br_settled _ _ _ _ _ Hb)))).
  rewrite (bind_ok _ _ _ _ _ (get_total_supplies_run (E := CoreError) s L (br_ledger _ _ _ _ _ Hb))).
  cbv zeta. fold rt. rewrite (bind_ok _ _ _ _ _ (try_ok _ _ _ _ (Hacct s))).
  pose proof (cs_amount_from_run ctx (N.min (ca_general_balance acct) u128_max) s cd cf (br_settled _ _ _ _ _ Hb)) as Hfrom.
  fold owned in Hfrom. destruct (N.leb_spec owned u128_max) as [Ho|Ho]; last first.
  { rewrite (bind_err _ _ _ _ _ (map_err_err _ _ _ _ _ Hfrom)). eexists. split; [done|]. split; [done|].
    split; [done|]. intros [? _]. lia. }
  rewrite (bind_ok _ _ _ _ _ (map_err_ok _ _ _ _ _ Hfrom)). fold (supply_of L cd).
  destruct (N.leb_spec (supply_of L cd) owned) as [Hs|Hs]; last first.
  { eexists. split; [reflexivity|]. split; [done|]. split; [done|]. intros (_ & ? & _). lia. }
  rewrite ret_bind. destruct (get_delegations_by_destination_run s D (br_shares _ _ _ _ _ Hb) Hdel) as (m & Hm & Hget).
  rewrite (bind_ok _ _ _ _ _ (map_err_ok _ _ _ _ _ Hm)).
  destruct (check_delegations_run ctx rt held (address_iter m) s Hheld) as (r & Hrun & Hp & Hr).
  exists r. split; [done|]. split; [done|]. rewrite Hr. split.
  - intros Hall. do 2 (split; [done|]). intros a. rewrite <-Hget. destruct (m !! a) as [n|] eqn:Hn; simpl; [|lia].
    apply Hall. unfold address_iter. by rewrite map_iter_perm, elem_of_map_to_list.
  - intros (_ & _ & Hall) a n Hin. unfold address_iter in Hin. rewrite map_iter_perm, elem_of_map_to_list in Hin.
    change (m !! a = Some n) in Hin. specialize (Hall a). pose proof (Hget a) as Ha. rewrite Hin in Ha. simpl in Ha.
    by rewrite Ha.
Qed.
End claims.
End SolvencyClaims.
