(* ===== verification/ConcreteConsensus.v ===== *)
(** The consensus and consensus accounts modules on the concrete platform: a small history of the
    consensus layer, and a state with a delegation and an undelegation, on which the theorems about
    amounts, shares, messages in flight and reclaims are instantiated. *)
From S2P Require Import Prelude Endian Storage StoreIter Types Fee Errors State Current Concrete Transactions Module Tables.
From S2P Require Import Core Consensus Amounts Gas ConcreteCore Accounts Ledger Accounting Nonces Disbursement Tokens Moves.
From S2P Require Import Supplies ConcreteAccounts ConsensusAccounts Delegations Flows Reclaims Bridge.

Local Open Scope string_scope.

#[local] Existing Instances toy_platform toy_mkvs_laws toy_core_codec toy_core_config toy_accounts_codec
  toy_accounts_laws.

(** * A cache that forgets nothing *)

#[local] Instance map_lru K V `{Countable K} : LruCache K V := {|
  lru := gmap K V;
  lru_new _ := ∅;
  lru_get k c := (c !! k, c);
  lru_put k v c := <[k := v]> c;
|}.
#[local] Instance map_lru_laws K V `{Countable K} : LruLaws K V.
Proof.
  split; simpl; [intros; apply lookup_empty|done|]. intros k v k' c w. rewrite lookup_insert.
  case_decide as Hk; [|rewrite decide_False by congruence; done]. subst. rewrite decide_True by done. congruence.
Qed.

(** * The consensus layer *)

Definition escrow : Address := from_sigspec (SpecEd25519 [x01; x09]).
Definition toy_runtime : bytes := [x07].

(** Epoch [e] begins at the height [10 e + 1]; the latest height is 25. *)
Definition toy_transition (e : N) : N := (10 * e + 1)%N.
Definition toy_epoch_state (e : N) : EpochState := {| es_epoch := e; es_height := Z.of_N (toy_transition e) |}.
Definition toy_state_at (h : N) : ConsensusState :=
  let e := ((h - 1) / 10)%N in
  {| cst_height := h; cst_epoch_state := inr (toy_epoch_state e);
     cst_future_epoch_state := inr (toy_epoch_state (e + 1)) |}.

#[local] Instance toy_layer : ConsensusLayer := {|
  staking_message _ := [x01];
  message_is_success me := negb (N.eqb me 0);
  message_module _ := "staking";
  message_code _ := 0%N;
  message_result _ := Some [];
  runtime_id _ := toy_runtime;
  layer_account _ _ := inr {| ca_general_balance := 5000; ca_escrow_active := {| pool_balance := 0; pool_total_shares := 0 |};
                              ca_escrow_debonding := {| pool_balance := 0; pool_total_shares := 0 |} |};
  layer_delegation _ _ _ := inr 100%N;
  layer_round_roots _ _ _ := inr None;
  consensus_state_at _ h := inr (toy_state_at (if (h =? 0)%N then 25 else h)%N);
  consensus_events_at _ _ :=
    inr [OtherStakingEvent; EscrowReclaim (from_runtime_id toy_runtime) escrow 70 40];
|}.

Definition toy_cs_params : ConsensusParameters :=
  {| round_root_cost := 0; consensus_denomination_param := NATIVE; consensus_scaling_factor := 10;
     min_delegate_amount := 0 |}.
Definition toy_value {T} (x : T) : CborValue T := {| to_value _ := [x01]; from_value _ := Some x |}.
#[local] Instance toy_cs_codec : ConsensusCodec := {|
  cs_parameters_cbor := const_cbor toy_cs_params;
  cs_round_root_body_value := toy_value {| rrb_runtime_id := []; rrb_round := 0; rrb_kind := RootState |};
  cs_round_root_value := toy_value None;
  cs_unit_value := toy_value tt;
  cs_parameters_value := toy_value toy_cs_params;
|}.

#[local] Instance delegation_info_eq_dec : EqDecision DelegationInfo.
Proof. solve_decision. Defined.
#[local] Instance delegation_info_countable : Countable DelegationInfo.
Proof.
  apply (inj_countable' (λ di, (di_shares di, di_receipt di)) (λ '(n, r), {| di_shares := n; di_receipt := r |})).
  by intros [].
Defined.

Definition toy_deposit : Deposit := {| dep_to := None; dep_amount := toy_units 0 |}.
Definition toy_withdraw : Withdraw := {| wd_to := None; wd_amount := toy_units 0 |}.
#[local] Instance toy_ca_codec : ConsensusAccountsCodec := {|
  ca_parameters_cbor := const_cbor consensus_accounts_parameters_default;
  ca_delegation_info_cbor := toy_cbor (λ di, (di_shares di ≤ u128_max)%N ∧ (di_receipt di ≤ u64_max)%N);
  ca_receipt_cbor := const_cbor receipt_default;
  ca_unit_cbor := {| to_vec _ := [xf6]; from_slice b := if bool_decide (b = [xf6]) then Some tt else None;
                     encodable _ := True |};
  ca_event_value _ := [x01];
  ca_transfer_context := toy_value {| tc_to := alice; tc_nonce := 0; tc_address := alice; tc_amount := toy_units 0 |};
  ca_withdraw_context := toy_value {| wc_from := alice; wc_nonce := 0; wc_address := alice; wc_amount := toy_units 0 |};
  ca_delegate_context := toy_value {| dc_from := alice; dc_nonce := 0; dc_to := escrow; dc_amount := toy_units 0;
                                      dc_receipt := false |};
  ca_undelegate_context := toy_value {| uc_from := escrow; uc_nonce := 0; uc_to := alice; uc_shares := 0;
                                        uc_receipt := false |};
  ca_add_escrow_result := toy_value {| aer_new_shares := 5 |};
  ca_reclaim_escrow_result := toy_value {| rer_debonding_shares := 5; rer_debond_end_time := 3 |};
  ca_deposit := toy_value toy_deposit;
  ca_withdraw := toy_value toy_withdraw;
  ca_delegate := toy_value {| dg_to := escrow; dg_amount := toy_units 0; dg_receipt := 0 |};
  ca_undelegate := toy_value {| ug_from := escrow; ug_shares := 0; ug_receipt := 0 |};
  ca_take_receipt := toy_value {| tkr_kind := ReceiptDelegate; tkr_id := 0 |};
  ca_receipt_option := toy_value None;
  ca_delegation_query := toy_value (alice, escrow);
  ca_delegation_info_value := toy_value delegation_info_default;
  ca_shares_to_tokens := toy_value {| stt_address := escrow; stt_pool := PoolActive; stt_shares := 0 |};
  ca_amount_value := toy_value 0%N;
  ca_unit_result := toy_value tt;
|}.
#[local] Instance toy_ca_laws : ConsensusAccountsCodecLaws.
Proof.
  split; [apply toy_cbor_laws| |intros di; reflexivity|exact I|reflexivity].
  split; simpl; [by intros []|done|done].
Qed.

(** The consensus module on an empty cache of heights, with fuel for ten epochs. *)
#[local] Instance toy_api : ConsensusAPI := consensus_api ∅ 10.
#[local] Instance toy_contract : ConsensusContract := consensus_contract ∅ 10.

(** * A state: alice has delegated 30 shares, and 20 shares debond until the second epoch *)

Definition toy_cs_state : State := (set_params (E := Empty_set) CONSENSUS_MODULE_NAME toy_cs_params toy_acc_state).2.
Definition toy_bridge_state : State :=
  (add_undelegation escrow alice 2 20 0 (add_delegation alice escrow 30 toy_cs_state).2).2.

Definition empty_shares : Shares := {| delegations := ∅; undelegations := ∅; queue := ∅ |}.
Definition toy_ud : Undelegation := {| ud_from := escrow; ud_to := alice; ud_epoch := 2 |}.
Definition toy_shares : Shares :=
  put_undelegation toy_ud {| di_shares := 20; di_receipt := 0 |}
    (set_delegation (alice, escrow) {| di_shares := 30; di_receipt := 0 |} empty_shares).

Lemma toy_outside k : starts_with k accounts_prefix = false → at_key toy_acc_state k = None.
Proof.
  intros Hk. unfold toy_acc_state, put_balance.
  set (s0 := toy_empty_state). assert (Hw0 : writable s0) by apply (ledger_writable _ _ empty_ledger_of).
  pose proof (confined_typed_insert (E := Empty_set) accounts_prefix (account_ref alice) (denom_bytes NATIVE) 2000%N
    eq_refl s0 Hw0) as [Hw1 Ho1]. set (s1 := (typed_insert (account_ref alice) _ _ s0).2) in *.
  pose proof (confined_typed_insert (E := Empty_set) accounts_prefix (account_ref ADDRESS_FEE_ACCUMULATOR)
    (denom_bytes NATIVE) 7%N eq_refl s1 Hw1) as [Hw2 Ho2]. set (s2 := (typed_insert (account_ref _) _ _ s1).2) in *.
  pose proof (confined_typed_insert (E := Empty_set) accounts_prefix supplies_ref (denom_bytes NATIVE) 2007%N
    eq_refl s2 Hw2) as [_ Ho3].
  rewrite Ho3, Ho2, Ho1 by done. done.
Qed.

Lemma toy_empty_shares : shares_of toy_acc_state empty_shares.
Proof.
  split; [apply (ledger_writable _ _ toy_ledger_of)|..|by intros ud; simpl; rewrite !lookup_empty];
    (split; simpl; [by intros k Hk%lookup_empty_is_Some|intros k _; rewrite lookup_empty; by rewrite toy_outside
                   |intros b Hb; rewrite toy_outside in Hb by done; by destruct Hb]).
Qed.

(** Storing the parameters keeps everything else. *)
Lemma toy_cs_at k : k ≠ CONSENSUS_PARAMS_KEY → at_key toy_cs_state k = at_key toy_acc_state k.
Proof.
  intros Hk. unfold toy_cs_state, set_params.
  destruct (typed_insert_at (E := Empty_set) toy_acc_state (PrefixStore CurrentStore (str CONSENSUS_MODULE_NAME))
    PARAMS_STORE_KEY toy_cs_params (ledger_writable _ _ toy_ledger_of)) as (st & Hst & ->).
  cbn [snd]. rewrite at_key_insert by done. by rewrite decide_False.
Qed.
Lemma toy_cs_bridged : bridged NATIVE 10 toy_cs_state toy_ledger empty_shares.
Proof.
  destruct (typed_insert_at (E := Empty_set) toy_acc_state (PrefixStore CurrentStore (str CONSENSUS_MODULE_NAME))
    PARAMS_STORE_KEY toy_cs_params (ledger_writable _ _ toy_ledger_of)) as (st & Hst & Hrun).
  assert (Hw : writable toy_cs_state).
  { unfold toy_cs_state, set_params. rewrite Hrun. apply insert_writable; [apply (ledger_writable _ _ toy_ledger_of)|done]. }
  split.
  - unfold toy_cs_state, set_params. by rewrite Hrun.
  - apply (ledger_of_keys toy_acc_state); [exact toy_ledger_of|done|]. intros k. by apply toy_cs_at.
  - apply (sound_covered _ _ toy_sound).
  - destruct toy_empty_shares as [_ Hd Hu Hq Hc].
    split; [done|eapply table_ext; [|done]; intros b; by apply toy_cs_at..|done].
  - exists toy_cs_params. split; [|done]. exists (Some toy_cs_params). split; [|done].
    unfold toy_cs_state, set_params in *. rewrite Hrun in *. eexists. split; [done|]. destruct Hw as (st' & Hst' & Hwf & _).
    split; [by injection Hst' as <-|]. rewrite get_insert, decide_True by done. done.
Qed.
Lemma toy_bridged : bridged NATIVE 10 toy_bridge_state toy_ledger toy_shares.
Proof.
  unfold toy_bridge_state. pose proof toy_cs_bridged as Hb.
  destruct (add_delegation_refines alice escrow 30 toy_cs_state empty_shares (br_shares _ _ _ _ _ Hb))
    as (r & s1 & -> & Hspec). unfold spec_add_delegation in Hspec. cbv zeta in Hspec. cbn [snd].
  replace (delegation empty_shares alice escrow) with delegation_info_default in Hspec by (vm_compute; reflexivity).
  destruct Hspec as (_ & Hst1 & Hs1 & Ho1).
  assert (Hb1 := bridged_shares _ _ _ _ _ _ _ Hb Hst1 Hs1 Ho1).
  destruct (add_undelegation_refines escrow alice 2 20 0 ltac:(done) ltac:(done) s1 _ (br_shares _ _ _ _ _ Hb1))
    as (r2 & s2 & -> & Hspec). unfold spec_add_undelegation in Hspec. cbv zeta in Hspec.
  match type of Hspec with context [undelegation ?D ?ud] =>
    replace (undelegation D ud) with delegation_info_default in Hspec by (vm_compute; reflexivity) end.
  destruct Hspec as (_ & Hst2 & Hs2 & Ho2). exact (bridged_shares _ _ _ _ _ _ _ Hb1 Hst2 Hs2 Ho2).
Qed.

(** The history of the beacon. *)
Lemma toy_history : beacon_history toy_core_ctx 25 toy_transition.
Proof.
  split; [unfold toy_transition; lia|reflexivity|by vm_compute|]. intros h Hh. unfold consensus_state_at, toy_layer.
  destruct (N.eqb_spec h 0) as [|_]; [lia|]. eexists _, _, _. repeat (split; [reflexivity|]). cbn [es_epoch toy_epoch_state].
  set (e := ((h - 1) / 10)%N). pose proof (N.div_mod (h - 1) 10 ltac:(lia)) as Hd.
  pose proof (N.mod_lt (h - 1) 10 ltac:(lia)) as Hm. fold e in Hd. set (r := ((h - 1) mod 10)%N) in *. clearbody e r.
  unfold in_force, toy_transition. destruct (N.leb_spec (10 * (e + 1) + 1) h); lia.
Qed.
Lemma toy_current : in_force toy_transition 25 2.
Proof. by vm_compute. Qed.

(** * Witnesses *)

Lemma scaling_factor_power_of_ten_witness : consensus_validate_basic toy_cs_params = inr tt.
Proof.
  apply (ParameterClaims.scaling_factor_power_of_ten toy_cs_params); [vm_compute; discriminate|]. exists 1%N. reflexivity.
Defined.

Lemma toy_has_cs_params : has_consensus_params toy_bridge_state toy_cs_params.
Proof.
  destruct (br_settled _ _ _ _ _ toy_bridged) as (p & (o & Ho & ->) & Hd & Hf). exists o. split; [exact Ho|].
  destruct o as [p|]; simpl in *; [|done]. destruct Ho as (st & _ & _ & Hget).
  destruct (get st _) as [b|]; simplify_eq/=. by case_bool_decide; simplify_eq.
Qed.

(** Seventy base units are seven on the consensus layer, and no fraction of one is representable. *)
Lemma amounts_roundtrip_witness :
  amount_from_consensus toy_core_ctx 7 toy_bridge_state = (Ok 70%N, toy_bridge_state).
Proof.
  apply (AmountClaims.amounts_roundtrip toy_core_ctx toy_bridge_state toy_cs_params 70 7 toy_has_cs_params);
    [discriminate|vm_compute; discriminate|].
  rewrite (amount_to_consensus_run toy_core_ctx 70 toy_bridge_state toy_cs_params toy_has_cs_params). reflexivity.
Defined.

Lemma height_for_epoch_finds_witness :
  ∃ cache', height_for_epoch 3 toy_core_ctx 0 (lru_new 128) = (Ok 1%N, cache').
Proof.
  destruct (HeightClaims.height_for_epoch_finds toy_core_ctx 25 toy_transition 2 0 3 (lru_new 128) toy_history toy_current)
    as (cache' & Hrun & _); [lia|vm_compute; discriminate|vm_compute; lia|apply cache_sound_new|].
  exists cache'. exact Hrun.
Defined.

Lemma shares_refine_witness :
  sub_delegation alice escrow 31 toy_bridge_state = (Err CaInsufficientBalance, toy_bridge_state).
Proof.
  destruct (ShareClaims.shares_refine alice escrow 2 31 0) as (_ & Hsub & _); [vm_compute; discriminate..|].
  destruct (Hsub toy_bridge_state toy_shares (br_shares _ _ _ _ _ toy_bridged)) as (r & s' & Hrun & Hspec).
  rewrite Hrun. unfold spec_sub_delegation in Hspec. cbv zeta in Hspec.
  replace (di_shares (delegation toy_shares alice escrow)) with 30%N in Hspec by (vm_compute; reflexivity).
  destruct Hspec as [-> ->]. reflexivity.
Defined.

Lemma queued_undelegations_are_due_witness :
  ∃ l, get_queued_undelegations (E := ConsensusAccountsError) 2 toy_bridge_state = (Ok l, toy_bridge_state) ∧ toy_ud ∈ l.
Proof.
  destruct (ShareClaims.queued_undelegations_are_due 2 toy_bridge_state toy_shares (br_shares _ _ _ _ _ toy_bridged))
    as (l & Hrun & Hl & _). exists l. split; [exact Hrun|]. apply Hl. split; [|vm_compute; discriminate].
  eexists. vm_compute. reflexivity.
Defined.

(** Alice withdraws 500 base units, and the transfer succeeds. *)
Definition toy_withdrawn : State := (withdraw toy_core_ctx alice 0 bob (toy_units 500) toy_bridge_state).2.
Lemma toy_withdrawn_run : withdraw toy_core_ctx alice 0 bob (toy_units 500) toy_bridge_state = (Ok tt, toy_withdrawn).
Proof. unfold toy_withdrawn. apply run_ok. vm_compute. reflexivity. Qed.
Lemma withdrawal_settles_witness :
  ∃ s2 L2, message_result_transfer 1%N
      {| tc_to := bob; tc_nonce := 0; tc_address := alice; tc_amount := toy_units 500 |} toy_withdrawn = (Ok tt, s2) ∧
    ledger_of s2 L2 ∧ balance L2 alice NATIVE = 1500%N.
Proof.
  destruct (BridgeClaims.withdrawal_settles NATIVE 10 toy_core_ctx alice 0 bob (toy_units 500) 1%N toy_bridge_state
    toy_ledger toy_shares toy_withdrawn toy_bridged) as (_ & s2 & L2 & Hrun & Hb & _ & Hbal).
  - vm_compute. discriminate.
  - exact toy_withdrawn_run.
  - exists s2, L2. split; [exact Hrun|]. split; [apply Hb|]. specialize (Hbal alice NATIVE).
    replace (balance toy_ledger alice NATIVE) with 2000%N in Hbal by (vm_compute; reflexivity).
    rewrite bool_decide_eq_true_2 in Hbal by reflexivity. change (delta (toy_units 500) NATIVE) with 500%N in Hbal.
    change (balance L2 alice NATIVE + 500 = 2000)%N in Hbal. lia.
Defined.

(** The shares of the runtime on the consensus layer. *)
Definition toy_escrow : Escrow := {|
  granted a := if decide (escrow = a) then 100%N else 0%N;
  debonding a e := if decide (escrow = a ∧ e = 2%N) then 40%N else 0%N;
|}.
Lemma toy_delegated a : delegated toy_shares a = if decide (escrow = a) then 30%N else 0%N.
Proof.
  unfold delegated, toy_shares. simpl. rewrite map_sum_insert_None by (vm_compute; reflexivity).
  rewrite map_sum_empty. simpl. case_decide; reflexivity.
Qed.
Lemma toy_inv : bridge_inv NATIVE 10 (Build_Config toy_bridge_state [] toy_escrow).
Proof.
  split.
  - split; [intros a|intros a e]; simpl; case_decide; by vm_compute.
  - exists toy_ledger, toy_shares. split; [exact toy_bridged|]. simpl.
    split; [intros d; simpl; lia|intros d; simpl; lia| | |by intros c ?%not_elem_of_nil].
    + intros a. rewrite toy_delegated. simpl. case_decide; lia.
    + intros ud. unfold undelegation, toy_shares. simpl. destruct (decide (toy_ud = ud)) as [<-|Hne].
      * rewrite lookup_insert_eq, decide_True by done. simpl. lia.
      * rewrite lookup_insert_ne by done. rewrite lookup_empty. simpl. lia.
Qed.

(** The transfer of the withdrawal fails: its result can be handled. *)
Definition toy_transfer : ConsensusTransferContext :=
  {| tc_to := bob; tc_nonce := 0; tc_address := alice; tc_amount := toy_units 500 |}.
Lemma results_can_be_handled_witness :
  ∃ s', handle_result 0%N (PendingTransfer toy_transfer) toy_withdrawn = (Ok tt, s') ∧
    bridge_inv NATIVE 10 (Build_Config s' [] toy_escrow).
Proof.
  apply (BridgeClaims.results_can_be_handled NATIVE 10 (Build_Config toy_bridge_state [] toy_escrow)
    (Build_Config toy_withdrawn [PendingTransfer toy_transfer] toy_escrow) 0%N (PendingTransfer toy_transfer) [] toy_escrow).
  - vm_compute. discriminate.
  - exact toy_inv.
  - eapply rtc_l; [|apply rtc_refl]. apply (flow_withdraw toy_core_ctx).
    + split; vm_compute; discriminate.
    + exact toy_withdrawn_run.
  - reflexivity.
  - apply answer_failed. reflexivity.
  - discriminate.
Defined.

(** The undelegation of 20 of the 40 shares that were reclaimed for 70 is worth 35. *)
Definition toy_new_epoch : State :=
  (value_set (E := Empty_set) Block CONTEXT_KEY_EPOCH_CHANGED true toy_bridge_state).2.
Definition toy_totals (_ : N * Address) : N * N := (70, 40)%N.
Lemma toy_received : received toy_core_ctx (2%N, escrow) (70, 40)%N.
Proof.
  exists 21%N, [OtherStakingEvent; EscrowReclaim (from_runtime_id toy_runtime) escrow 70 40].
  split; [|split; [reflexivity|split; [|by vm_compute]]].
  - exists 25%N, toy_transition, 2%N. split; [exact toy_history|]. split; [exact toy_current|].
    split; [by vm_compute|]. split; [by vm_compute|]. split; [vm_compute; lia|]. split; [exact (cache_sound_new (K := N) (V := N) _ 128%N)|reflexivity].
  - cbn [first_reclaim]. rewrite !bool_decide_eq_true_2 by reflexivity. reflexivity.
Qed.
Lemma toy_due (P : Undelegation → Prop) `{!∀ ud, Decision (P ud)} :
  due 10 toy_totals 4 P toy_shares = if decide (P toy_ud) then 350%N else 0%N.
Proof.
  unfold due, toy_shares. simpl. rewrite map_sum_insert_None by apply lookup_empty. rewrite map_sum_empty.
  destruct (decide (P toy_ud)); [rewrite decide_True by (split; [vm_compute; discriminate|done]); reflexivity|].
  rewrite decide_False; [reflexivity|]. naive_solver.
Qed.
Lemma toy_new_bridged : bridged NATIVE 10 toy_new_epoch toy_ledger toy_shares.
Proof.
  unfold toy_new_epoch. pose proof toy_bridged as Hb. generalize dependent toy_bridge_state. intros s Hb.
  apply (bridged_same NATIVE 10 s); [exact Hb|reflexivity..].
Qed.
Lemma toy_epoch_changed : has_epoch_changed (E := Empty_set) toy_new_epoch = (Ok true, toy_new_epoch).
Proof.
  unfold toy_new_epoch. generalize toy_bridge_state as s. intros s. unfold has_epoch_changed, value_set.
  cbn [modify snd]. by rewrite (bind_ok _ _ _ _ _ (value_get_run (E := Empty_set) Block CONTEXT_KEY_EPOCH_CHANGED _ (Some true)
    (holds_value_set Block CONTEXT_KEY_EPOCH_CHANGED s true))).
Qed.
Lemma reclaims_are_paid_witness :
  ∃ s' L', consensus_accounts_end_block toy_core_ctx toy_new_epoch = (Ok tt, s') ∧ ledger_of s' L' ∧
    balance L' alice NATIVE = 2350%N.
Proof.
  destruct (ReclaimClaims.reclaims_are_paid NATIVE 10 toy_core_ctx toy_totals toy_new_epoch toy_ledger toy_shares)
    as (s' & L' & D' & Hrun & Hb & _ & _ & _ & Hbal & _).
  - exact toy_new_bridged.
  - exact toy_epoch_changed.
  - intros ud di Hud Hle. unfold toy_shares in Hud. simpl in Hud.
    apply lookup_insert_Some in Hud as [[<- <-]|[_ Hud]]; [|by rewrite lookup_empty in Hud].
    split; [exact toy_received|]. by vm_compute.
  - rewrite toy_due. by vm_compute.
  - exists s', L'. split; [exact Hrun|]. split; [apply Hb|]. rewrite Hbal, toy_due.
    rewrite !decide_True by reflexivity. vm_compute. reflexivity.
Defined.

Lemma solvency_check_exact_witness :
  consensus_accounts_check_invariants toy_core_ctx toy_bridge_state = (Ok tt, toy_bridge_state).
Proof.
  destruct (SolvencyClaims.solvency_check_exact NATIVE 10 toy_core_ctx toy_bridge_state toy_ledger toy_shares
    {| ca_general_balance := 5000; ca_escrow_active := {| pool_balance := 0; pool_total_shares := 0 |};
       ca_escrow_debonding := {| pool_balance := 0; pool_total_shares := 0 |} |} (λ _, 100%N) toy_bridged)
    as (r & Hrun & _ & Hiff).
  - intros a. rewrite toy_delegated. case_decide; vm_compute; discriminate.
  - reflexivity.
  - reflexivity.
  - rewrite Hrun. rewrite (proj2 Hiff); [reflexivity|]. split; [vm_compute; discriminate|].
    split; [vm_compute; discriminate|]. intros a. rewrite toy_delegated. case_decide; lia.
Defined.
