(* ===== verification/Rewards.v ===== *)
(** The rewards module: rewards for the entities that took part in the rounds of an epoch, paid out of a
    pool when the epoch changes (src/runtime-sdk/src/modules/rewards/mod.rs, types.rs). *)
From S2P Require Import Prelude Endian Storage StoreIter Types Fee Errors State Current Transactions Module.
From S2P Require Import Tables Core Accounts.

Local Open Scope string_scope.

Definition REWARDS_MODULE_NAME : string := "rewards".
Definition REWARDS : bytes := [x02].

(** * Types *)

Record RewardStep := { until : N; step_amount : BaseUnits }.
Record RewardSchedule := { steps : list RewardStep }.

Inductive RewardScheduleError := StepsNotSorted.
Fixpoint validate_steps (last_epoch : N) (l : list RewardStep) : RewardScheduleError + unit :=
  match l with
  | [] => inr tt
  | step :: l' => if (until step <=? last_epoch)%N then inl StepsNotSorted else validate_steps (until step) l'
  end.
Definition schedule_validate_basic (sch : RewardSchedule) : RewardScheduleError + unit := validate_steps 0 (steps sch).

(** No reward after the end of the schedule; the default amount is zero. *)
Definition base_units_default : BaseUnits := BaseUnits_new 0 NATIVE.
Fixpoint step_for_epoch (epoch : N) (l : list RewardStep) : BaseUnits :=
  match l with
  | [] => base_units_default
  | step :: l' => if (epoch <? until step)%N then step_amount step else step_for_epoch epoch l'
  end.
Definition for_epoch (sch : RewardSchedule) (epoch : N) : BaseUnits := step_for_epoch epoch (steps sch).

Inductive RewardAction := Reward (v : N) | NoReward.
Definition reward_action_default : RewardAction := Reward 0.
Definition increment (a : RewardAction) : RewardAction :=
  match a with Reward v => Reward (wrapping_add u64_max v 1) | NoReward => NoReward end.
Definition forbid (_ : RewardAction) : RewardAction := NoReward.
Definition reward_value (a : RewardAction) : N := match a with Reward v => v | NoReward => 0 end.

Record EpochRewards := { pending : gmap Address RewardAction }.
Definition epoch_rewards_default : EpochRewards := {| pending := ∅ |}.

(** The least number of rounds for a reward: a fraction of the largest number. *)
Definition max_value (r : EpochRewards) : N :=
  foldl (λ acc x, N.max acc (reward_value x.2)) 0%N (address_iter (pending r)).
Definition reward_threshold (numerator denominator max_v : N) : N :=
  if (u64_max <? numerator * max_v)%N
  then saturating_mul u64_max (default 0%N (checked_div max_v denominator)) numerator
  else default 0%N (checked_div (saturating_mul u64_max numerator max_v) denominator).
Definition rewarded (threshold : N) (x : Address * RewardAction) : option Address :=
  match x.2 with
  | Reward v => if (v <? threshold)%N then None else Some x.1
  | NoReward => None
  end.
Definition for_disbursement (r : EpochRewards) (numerator denominator : N) : list Address :=
  omap (rewarded (reward_threshold numerator denominator (max_value r))) (address_iter (pending r)).

Record RewardsParameters := {
  schedule : RewardSchedule;
  participation_threshold_numerator : N;
  participation_threshold_denominator : N;
}.
Definition rewards_parameters_default : RewardsParameters :=
  {| schedule := {| steps := [] |}; participation_threshold_numerator := 0;
     participation_threshold_denominator := 0 |}.

Inductive RewardsParameterError :=
  | InvalidParticipationThreshold
  | InvalidSchedule (source : RewardScheduleError).
Definition rewards_validate_basic (p : RewardsParameters) : RewardsParameterError + unit :=
  match schedule_validate_basic (schedule p) with
  | inl e => inl (InvalidSchedule e)
  | inr _ =>
      if (participation_threshold_denominator p <? participation_threshold_numerator p)%N
      then inl InvalidParticipationThreshold
      else if (participation_threshold_denominator p =? 0)%N then inl InvalidParticipationThreshold
      else inr tt
  end.

(** A key of the table of epochs. *)
Definition decodable_epoch_time (b : bytes) : string + N :=
  if (List.length b =? 8)%nat then inr (from_be b) else inl "could not convert slice to array".

Class RewardsCodec `{Platform} := {
  rw_parameters_cbor :: Cbor RewardsParameters;
  rw_epoch_rewards_cbor :: Cbor EpochRewards;
}.

(** * Operations *)

Section rewards.
Context `{Platform} `{!RewardsCodec} `{!AccountsCodec}.

Definition ADDRESS_REWARD_POOL : Address := from_module REWARDS_MODULE_NAME "reward-pool".

Definition rewards_store : StoreRef := PrefixStore CurrentStore (str REWARDS_MODULE_NAME).
Definition epochs_ref : StoreRef := PrefixStore rewards_store REWARDS.

Definition rewards_params {E} : M E RewardsParameters := params REWARDS_MODULE_NAME rewards_parameters_default.

(** [Module::init], from genesis. *)
Definition rewards_init {E} (parameters : RewardsParameters) : M E unit :=
  match rewards_validate_basic parameters with
  | inl _ => panic "invalid genesis parameters"
  | inr _ => set_params REWARDS_MODULE_NAME parameters
  end.

(** Version 2 removes the last epoch. *)
Definition migrate_v1_to_v2 {E} : M E unit := typed_remove rewards_store [x01].

Definition entity_address (entity_id : bytes) : Address := from_sigspec (SpecEd25519 entity_id).

(** [entry(address).or_default()], updated. *)
Definition update_action (f : RewardAction → RewardAction) (m : gmap Address RewardAction) (entity_id : bytes)
    : gmap Address RewardAction :=
  let a := entity_address entity_id in <[a := f (default reward_action_default (m !! a))]> m.

(** Good entities are counted, bad ones get nothing for the epoch. *)
Definition count_round (ctx : Ctx) (r : EpochRewards) : EpochRewards :=
  {| pending := foldl (update_action forbid)
                  (foldl (update_action increment) (pending r) (ctx_good_compute_entities ctx))
                  (ctx_bad_compute_entities ctx) |}.

(** Taking all epochs off the table. *)
Definition take_epochs {E} : M E (list (N * EpochRewards)) :=
  l ← typed_iter decodable_epoch_time epoch_rewards_default epochs_ref;
  for_each l (λ x, typed_remove epochs_ref (be_bytes64 x.1)) ;;
  mret l.

(** The rewards of an epoch, until the pool does not have enough any more. *)
Fixpoint disburse_rewards {E} (reward : BaseUnits) (l : list Address) : M E unit :=
  match l with
  | [] => mret tt
  | address :: l' =>
      r ← try_ (transfer ADDRESS_REWARD_POOL address reward);
      match r with
      | inr _ => disburse_rewards reward l'
      | inl InsufficientBalance => mret tt
      | inl _ => panic "failed to disburse rewards"
      end
  end.

Definition disburse_epoch {E} (p : RewardsParameters) (x : N * EpochRewards) : M E unit :=
  let reward := for_epoch (schedule p) x.1 in
  if (amount reward =? 0)%N then mret tt
  else disburse_rewards reward (for_disbursement x.2 (participation_threshold_numerator p)
                                  (participation_threshold_denominator p)).

Definition rewards_end_block (ctx : Ctx) : M Empty_set unit :=
  let epoch := ctx_epoch ctx in
  r ← typed_get epochs_ref (be_bytes64 epoch);
  let rewards := count_round ctx (default epoch_rewards_default r) in
  changed ← has_epoch_changed;
  (if (changed : bool) then
     epoch_rewards ← take_epochs;
     p ← rewards_params;
     for_each epoch_rewards (disburse_epoch p)
   else mret tt) ;;
  typed_insert epochs_ref (be_bytes64 epoch) rewards.

Definition rewards_handlers : Handlers := {|
  prefetch := prefetch default_handlers;
  dispatch_call := dispatch_call default_handlers;
  dispatch_query := dispatch_query default_handlers;
  dispatch_message_result := dispatch_message_result default_handlers;
  is_expensive_query := is_expensive_query default_handlers;
  is_allowed_private_km_query := is_allowed_private_km_query default_handlers;
  is_allowed_interactive_call := is_allowed_interactive_call default_handlers;
  approve_raw_tx := approve_raw_tx default_handlers;
  approve_unverified_tx := approve_unverified_tx default_handlers;
  decode_tx := decode_tx default_handlers;
  authenticate_tx := authenticate_tx default_handlers;
  before_handle_call := before_handle_call default_handlers;
  before_authorized_call_dispatch := before_authorized_call_dispatch default_handlers;
  after_handle_call := after_handle_call default_handlers;
  after_dispatch_tx := after_dispatch_tx default_handlers;
  begin_block := begin_block default_handlers;
  end_block := rewards_end_block;
  check_invariants := check_invariants default_handlers;
|}.
End rewards.

(** * The access module

    Methods that only some callers may call (src/runtime-sdk/src/modules/access/mod.rs, types.rs). *)

Inductive MethodAuthorization := AllowFrom (addrs : gset Address).
Definition method_is_authorized (authz : MethodAuthorization) (address : Address) : bool :=
  match authz with AllowFrom addrs => bool_decide (address ∈ addrs) end.

Inductive Authorization := FilterOnly (meths : gmap string MethodAuthorization).
Definition authorization_new : Authorization := FilterOnly ∅.
Definition is_authorized (a : Authorization) (method : string) (address : Address) : bool :=
  match a with
  | FilterOnly meths => match meths !! method with Some authz => method_is_authorized authz address | None => true end
  end.

Section access.
Context `{Platform}.
(** [Cfg::METHOD_AUTHORIZATIONS]. *)
Context (METHOD_AUTHORIZATIONS : Authorization).

Definition access_before_authorized_call_dispatch (_ : Ctx) (call : Call) : M CoreError unit :=
  tx_caller_address ← with_tx_env env_tx_caller_address;
  if is_authorized METHOD_AUTHORIZATIONS (call_method call) tx_caller_address then mret tt
  else throw (InvalidArgument "caller is not authorized to call method").
End access.
