(* ===== verification/Payouts.v ===== *)
(** Properties of the rewards module: who is rewarded, and what the end of a block pays
    (src/runtime-sdk/src/modules/rewards/mod.rs, types.rs). *)
From S2P Require Import Prelude Endian Storage StoreIter Types Fee Errors State Current Transactions Module.
From S2P Require Import Tables Core Gas Accounts Ledger Accounting Disbursement Moves Rewards.

(** * Who is rewarded *)

Lemma foldl_max_ge {A} (f : A → N) l acc : (acc ≤ foldl (λ acc x, N.max acc (f x)) acc l)%N.
Proof. revert acc. induction l as [|x l IH]; intros acc; simpl; [lia|]. specialize (IH (N.max acc (f x))). lia. Qed.
Lemma foldl_max_elem {A} (f : A → N) l acc x : x ∈ l → (f x ≤ foldl (λ acc x, N.max acc (f x)) acc l)%N.
Proof.
  revert acc. induction l as [|y l IH]; intros acc; [by intros ?%not_elem_of_nil|].
  intros [->|Hx]%elem_of_cons; simpl; [|by apply IH]. pose proof (foldl_max_ge f l (N.max acc (f y))). lia.
Qed.
Lemma elem_of_address_iter {A} (m : gmap Address A) a x : (a, x) ∈ address_iter m ↔ m !! a = Some x.
Proof. unfold address_iter. rewrite map_iter_perm. apply elem_of_map_to_list. Qed.
Lemma address_iter_nodup {A} (m : gmap Address A) : NoDup (address_iter m).*1.
Proof. unfold address_iter. rewrite map_iter_perm. apply NoDup_fst_map_to_list. Qed.

Lemma max_value_ge r a v : pending r !! a = Some (Reward v) → (v ≤ max_value r)%N.
Proof.
  intros Ha%elem_of_address_iter. unfold max_value.
  exact (foldl_max_elem (λ x, reward_value x.2) (address_iter (pending r)) 0%N (a, Reward v) Ha).
Qed.

(** The threshold is never above the largest number of rounds. *)
Lemma reward_threshold_le num den mx :
  (num ≤ den)%N → den ≠ 0%N → (reward_threshold num den mx ≤ mx)%N.
Proof.
  intros Hle Hden. unfold reward_threshold, checked_div, saturating_mul. rewrite (proj2 (N.eqb_neq _ _) Hden).
  cbn [default from_option id]. destruct (N.ltb_spec u64_max (num * mx)).
  - pose proof (N.Div0.mul_div_le mx den). transitivity (mx / den * num)%N; [lia|]. nia.
  - rewrite N.min_l by lia. apply N.Div0.div_le_upper_bound. by apply N.mul_le_mono_r.
Qed.
Lemma reward_threshold_exact num den mx :
  den ≠ 0%N → (num * mx ≤ u64_max)%N → reward_threshold num den mx = (num * mx / den)%N.
Proof.
  intros Hden Hle. unfold reward_threshold, checked_div, saturating_mul. rewrite (proj2 (N.eqb_neq _ _) Hden).
  destruct (N.ltb_spec u64_max (num * mx)); [lia|]. rewrite N.min_l by lia. done.
Qed.

Lemma elem_of_for_disbursement r num den a :
  a ∈ for_disbursement r num den ↔
    ∃ v, pending r !! a = Some (Reward v) ∧ (reward_threshold num den (max_value r) ≤ v)%N.
Proof.
  unfold for_disbursement. rewrite list_elem_of_omap. split.
  - intros ([a' act] & Hin%elem_of_address_iter & Hr). unfold rewarded in Hr. simpl in Hr.
    destruct act as [v|]; [|done]. destruct (N.ltb_spec v (reward_threshold num den (max_value r))); [done|].
    injection Hr as <-. by exists v.
  - intros (v & Hv & Hle). exists (a, Reward v). split; [by apply elem_of_address_iter|].
    unfold rewarded. simpl. by destruct (N.ltb_spec v (reward_threshold num den (max_value r))); [lia|].
Qed.
Lemma for_disbursement_nodup r num den : NoDup (for_disbursement r num den).
Proof.
  unfold for_disbursement. set (t := reward_threshold _ _ _). clearbody t.
  pose proof (address_iter_nodup (pending r)) as Hnd. induction (address_iter (pending r)) as [|[a act] l IH]; [constructor|].
  rewrite fmap_cons in Hnd. apply NoDup_cons in Hnd as [Hni Hnd]. simpl.
  assert (Hin : a ∉ omap (rewarded t) l).
  { intros ([a' act'] & Hin & Hr)%list_elem_of_omap. apply Hni, list_elem_of_fmap. exists (a', act').
    unfold rewarded in Hr. simpl in Hr. destruct act' as [v|]; [|done]. destruct (v <? t)%N; [done|].
    by injection Hr as <-. }
  unfold rewarded at 1. simpl. destruct act as [v|]; [|by apply IH]. destruct (v <? t)%N; [by apply IH|].
  constructor; [done|by apply IH].
Qed.

(** * What is paid *)

Class RewardsCodecLaws `{Platform, !RewardsCodec} : Prop := {
  rw_epoch_rewards_laws :: CborLaws EpochRewards;
  epoch_rewards_encodable (r : EpochRewards) :
    encodable r ↔ map_Forall (λ _ a, (reward_value a ≤ u64_max)%N) (pending r);
}.

Section payouts.
Context `{Platform} `{!MKVSLaws} `{!RewardsCodec} `{!RewardsCodecLaws} `{!AccountsCodec} `{!AccountsCodecLaws}.

(** Payments out of the pool: what the receivers get is what the pool loses. *)
Definition paid (ps : list (Address * BaseUnits)) (L L' : Ledger) : Prop :=
  supply L' = supply L ∧
  ∀ a d, (balance L' a d + (if decide (ADDRESS_REWARD_POOL = a) then list_sum (λ x, delta x.2 d) ps else 0) =
          balance L a d + list_sum (λ x, if decide (x.1 = a) then delta x.2 d else 0) ps)%N.

Lemma paid_nil L : paid [] L L.
Proof. split; [done|]. intros a d. simpl. by case_decide. Qed.
Lemma paid_app ps ps' L L' L'' : paid ps L L' → paid ps' L' L'' → paid (ps ++ ps') L L''.
Proof.
  intros [Hs Hb] [Hs' Hb']. split; [congruence|]. intros a d. specialize (Hb a d). specialize (Hb' a d).
  rewrite !list_sum_app. case_decide; lia.
Qed.
Lemma paid_one to u L L' : shifted ADDRESS_REWARD_POOL to u L L' → paid [(to, u)] L L'.
Proof. intros [Hs Hb]. split; [done|]. intros a d. specialize (Hb a d). simpl. repeat case_decide; lia. Qed.

(** The rewards of an epoch that are due, and those that a pool paid: in order, all of them unless what
    is left in the pool is less than the reward. *)
Definition due (p : RewardsParameters) (x : N * EpochRewards) : list Address :=
  if (amount (for_epoch (schedule p) x.1) =? 0)%N then []
  else for_disbursement x.2 (participation_threshold_numerator p) (participation_threshold_denominator p).
Definition settles (reward : BaseUnits) (l : list Address) (L L' : Ledger) : Prop :=
  ∃ n, paid ((λ a, (a, reward)) <$> take n l) L L' ∧
    ((n < length l)%nat → (balance L' ADDRESS_REWARD_POOL (denomination reward) < amount reward)%N).
Inductive settle_epochs (p : RewardsParameters) : list (N * EpochRewards) → Ledger → Ledger → Prop :=
  | settle_none L : settle_epochs p [] L L
  | settle_epoch x l L L' L'' :
      settles (for_epoch (schedule p) x.1) (due p x) L L' → settle_epochs p l L' L'' →
      settle_epochs p (x :: l) L L''.

(** A state of the accounts on which rewards can be paid. *)
Definition payable_state (s : State) (L : Ledger) : Prop :=
  ledger_of s L ∧ covered L ∧ is_check_only (st_env s) = false.
Lemma moved_check_only s s' : moved s s' → is_check_only (st_env s) = false → is_check_only (st_env s') = false.
Proof. by intros ((st & ev & ->) & _). Qed.

Lemma disburse_rewards_run {E} reward l s L :
  payable_state s L → amount reward ≠ 0%N →
  ∃ s' L', disburse_rewards (E := E) reward l s = (Ok tt, s') ∧ moved s s' ∧ payable_state s' L' ∧
    settles reward l L L'.
Proof.
  intros Hs Hz. revert s L Hs. induction l as [|a l IH]; intros s L (Hl & Hc & Hm); cbn [disburse_rewards].
  { exists s, L. split; [done|]. split; [by eapply moved_refl|]. split; [done|]. exists 0%nat.
    split; [apply paid_nil|simpl; lia]. }
  destruct (N.lt_ge_cases (balance L ADDRESS_REWARD_POOL (denomination reward)) (amount reward)) as [Hlt|Hle].
  - exists s, L. rewrite (bind_ok _ _ s (inl InsufficientBalance) s).
    + split; [done|]. split; [by eapply moved_refl|]. split; [done|]. exists 0%nat. split; [apply paid_nil|done].
    + apply try_err. unfold transfer. rewrite with_env_bind, Hm, (proj2 (N.eqb_neq _ _) Hz). cbn [orb].
      by rewrite (bind_err _ _ _ _ _ (transfer_short _ a _ _ _ Hl Hlt)).
  - destruct (transfer_run L s ADDRESS_REWARD_POOL a reward Hl Hc Hm Hle)
      as (s1 & L1 & Hrun & Hmv & Hl1 & Hc1 & Hsh).
    rewrite (bind_ok _ _ _ _ _ (try_ok (E' := E) _ _ _ _ Hrun)).
    destruct (IH s1 L1) as (s' & L' & Hrun' & Hmv' & Hs' & n & Hpaid & Hshort).
    { split; [done|]. split; [done|by eapply moved_check_only]. }
    exists s', L'. split; [done|]. split; [by eapply moved_trans|]. split; [done|]. exists (S n). split.
    + exact (paid_app [(a, reward)] _ _ _ _ (paid_one _ _ _ _ Hsh) Hpaid).
    + intros Hn. apply Hshort. simpl in Hn. lia.
Qed.

Lemma disburse_epochs_run {E} p l s L :
  payable_state s L →
  ∃ s' L', for_each l (disburse_epoch (E := E) p) s = (Ok tt, s') ∧ moved s s' ∧ payable_state s' L' ∧
    settle_epochs p l L L'.
Proof.
  revert s L. induction l as [|x l IH]; intros s L Hs; cbn [for_each].
  { exists s, L. split; [done|]. split; [eapply moved_refl, Hs|]. split; [done|constructor]. }
  assert (∃ s1 L1, disburse_epoch (E := E) p x s = (Ok tt, s1) ∧ moved s s1 ∧ payable_state s1 L1 ∧
    settles (for_epoch (schedule p) x.1) (due p x) L L1) as (s1 & L1 & Hrun & Hmv & Hs1 & Hset).
  { unfold disburse_epoch, due. destruct (N.eqb_spec (amount (for_epoch (schedule p) x.1)) 0) as [Hz|Hz].
    - exists s, L. split; [done|]. split; [eapply moved_refl, Hs|]. split; [done|]. exists 0%nat.
      split; [apply paid_nil|simpl; lia].
    - by apply disburse_rewards_run. }
  destruct (IH s1 L1 Hs1) as (s' & L' & Hrun' & Hmv' & Hs' & Hset').
  exists s', L'. rewrite (bind_ok _ _ _ _ _ Hrun). split; [done|]. split; [by eapply moved_trans|].
  split; [done|by econstructor].
Qed.

(** All payments of a settlement together. *)
Lemma settle_epochs_paid p l L L' : settle_epochs p l L L' → ∃ ps, paid ps L L'.
Proof.
  induction 1 as [L|x l L L' L'' (n & Hp & _) _ [ps IH]]; [exists []; apply paid_nil|].
  eexists. by eapply paid_app.
Qed.

(** ** The table of epochs *)

Definition epochs_prefix : bytes := str REWARDS_MODULE_NAME ++ REWARDS.
Definition rewards_params_key : bytes := str REWARDS_MODULE_NAME ++ PARAMS_STORE_KEY.
Definition u64_valid (e : N) : Prop := (e ≤ u64_max)%N.
Notation epochs_table := (table epochs_prefix be_bytes64 u64_valid).

Record rewards_of (s : State) (m : gmap N EpochRewards) : Prop := {
  rw_writable : writable s;
  rw_table : epochs_table m s;
  rw_counters : map_Forall (λ _ r, encodable r) m;
}.
Definition has_rewards_params (s : State) (p : RewardsParameters) : Prop :=
  ∃ o, (from_slice <$> at_key s rewards_params_key) = Some <$> o ∧ p = default rewards_parameters_default o.

Lemma rewards_params_run {E} s p : writable s → has_rewards_params s p → rewards_params (E := E) s = (Ok p, s).
Proof.
  intros (st & Hst & Hwf & _) (o & Ho & ->). unfold rewards_params, params.
  rewrite (bind_ok _ _ s o s); [done|]. apply typed_get_run. exists st. do 2 (split; [done|]).
  unfold at_key in Ho. by rewrite Hst in Ho.
Qed.
Lemma has_rewards_params_outside s s' p :
  outside epochs_prefix s s' → has_rewards_params s p → has_rewards_params s' p.
Proof. intros Ho (o & Hget & ->). exists o. split; [|done]. rewrite Ho by done. exact Hget. Qed.

(** A write to the table of epochs leaves the ledger alone. *)
Lemma payable_outside s s' L :
  payable_state s L → writable s' → outside epochs_prefix s s' → (∃ st, s' = set_store (Some st) s) →
  payable_state s' L.
Proof.
  intros (Hl & Hc & Hm) Hw Ho (st & ->). split; [|done]. eapply ledger_of_keys; [exact Hl|done|].
  intros k. by apply Ho.
Qed.
Lemma outside_other_keys s s' e :
  (∀ b, b ≠ epochs_prefix ++ be_bytes64 e → at_key s' b = at_key s b) → outside epochs_prefix s s'.
Proof.
  intros Hk b Hb. apply Hk. intros ->. apply not_true_iff_false in Hb. apply Hb, starts_with_app.
Qed.

Lemma remove_epochs_run {E} (l : list (N * EpochRewards)) m s :
  (∀ x, x ∈ l → u64_valid x.1) → epochs_table m s → writable s →
  ∃ s' m', for_each l (λ x, typed_remove (E := E) epochs_ref (be_bytes64 x.1)) s = (Ok tt, s') ∧
    epochs_table m' s' ∧ writable s' ∧ outside epochs_prefix s s' ∧ (∃ st, s' = set_store (Some st) s) ∧
    ∀ e r, m' !! e = Some r → m !! e = Some r ∧ e ∉ l.*1.
Proof.
  revert m s. induction l as [|x l IH]; intros m s Hv Ht Hw; cbn [for_each].
  { exists s, m. split; [done|]. do 3 (split; [done|]). split; [|by intros e r Hr; split; [|apply not_elem_of_nil]].
    destruct Hw as (st & Hst & _). exists st. destruct s. by simplify_eq/=. }
  destruct (table_remove_run (E := E) _ _ _ be_bytes64_inj m s epochs_ref (be_bytes64 x.1) x.1 Ht Hw
    (Hv x ltac:(left)) eq_refl) as (s1 & Hrun & Ht1 & Hw1 & (st1 & Hst1) & Ho1).
  rewrite (bind_ok _ _ _ _ _ Hrun).
  destruct (IH (delete x.1 m) s1 ltac:(intros; apply Hv; by right) Ht1 Hw1)
    as (s' & m' & Hrun' & Ht' & Hw' & Ho' & (st' & ->) & Hm').
  eexists _, m'. split; [exact Hrun'|]. split; [done|]. split; [done|].
  split; [eapply outside_trans; [by eapply outside_other_keys|done]|].
  split; [exists st'; by rewrite Hst1|]. intros e r (Hr & Hne)%Hm'. apply lookup_delete_Some in Hr as [Hx Hr].
  split; [done|]. rewrite fmap_cons, not_elem_of_cons. split; [congruence|done].
Qed.

Definition epoch_before (x y : N * EpochRewards) : Prop := (x.1 < y.1)%N.

Lemma take_epochs_run {E} m s :
  rewards_of s m →
  ∃ l s', take_epochs (E := E) s = (Ok l, s') ∧ (∀ e r, (e, r) ∈ l ↔ m !! e = Some r) ∧
    StronglySorted epoch_before l ∧ rewards_of s' ∅ ∧ outside epochs_prefix s s' ∧
    ∃ st, s' = set_store (Some st) s.
Proof.
  intros [Hw Ht Hc]. unfold take_epochs.
  destruct (table_iter_run (E := E) epochs_prefix be_bytes64 u64_valid decodable_epoch_time epoch_rewards_default
    m s rewards_store REWARDS) as (l & Hl & Hsort & Hin & _); [|done|done|done|].
  { intros e He. unfold decodable_epoch_time. unfold be_bytes64 at 1. rewrite be_bytes_length.
    cbn [Nat.eqb]. by rewrite from_be_64. }
  rewrite (bind_ok _ _ _ _ _ Hl).
  assert (Hv : ∀ x, x ∈ l → u64_valid x.1).
  { intros [e r] Hx%Hin. apply (tb_valid _ _ _ _ _ Ht). by exists r. }
  destruct (remove_epochs_run (E := E) l m s Hv Ht Hw) as (s' & m' & Hrun & Ht' & Hw' & Ho & Hst & Hm').
  rewrite (bind_ok _ _ _ _ _ Hrun). exists l, s'. split; [done|]. split; [done|]. split; [|split; [|done]].
  - clear -Hsort Hv. induction Hsort as [|x l _ IH Hx]; [constructor|].
    constructor; [apply IH; intros; apply Hv; by right|].
    rewrite Forall_forall in Hx |- *. intros y Hy. specialize (Hx y Hy). unfold key_lt, bytes_lt in Hx.
    rewrite from_be_order in Hx by (unfold be_bytes64; by rewrite !be_bytes_length).
    rewrite !from_be_64 in Hx by (apply Hv; first [left|by right]). by apply N.ltb_lt.
  - assert (m' = ∅) as ->; [|by split; [..|apply map_Forall_empty]].
    apply map_empty. intros e. apply eq_None_not_Some. intros [r (Hr & Hne)%Hm'].
    apply Hne. apply list_elem_of_fmap. exists (e, r). split; [done|by apply Hin].
Qed.

(** ** The counters of the rounds *)

Lemma increment_fits a : (reward_value a ≤ u64_max)%N → (reward_value (increment a) ≤ u64_max)%N.
Proof.
  intros _. destruct a as [v|]; simpl; [|done]. unfold wrapping_add.
  pose proof (N.mod_lt (v + 1) (u64_max + 1) ltac:(done)). lia.
Qed.
Lemma update_fits f l (m : gmap Address RewardAction) :
  (∀ a, (reward_value a ≤ u64_max → reward_value (f a) ≤ u64_max)%N) →
  map_Forall (λ _ a, (reward_value a ≤ u64_max)%N) m →
  map_Forall (λ _ a, (reward_value a ≤ u64_max)%N) (foldl (update_action f) m l).
Proof.
  intros Hf. revert m. induction l as [|x l IH]; intros m Hm; [done|]. simpl. apply IH. unfold update_action.
  apply map_Forall_insert_2; [|done]. apply Hf. destruct (m !! entity_address x) eqn:Hx; simpl; [by apply (Hm _ _ Hx)|done].
Qed.
Lemma count_round_encodable ctx r : encodable r → encodable (count_round ctx r).
Proof.
  rewrite !epoch_rewards_encodable. intros Hr. unfold count_round. simpl.
  apply update_fits; [done|]. apply update_fits; [apply increment_fits|done].
Qed.
Lemma epoch_rewards_default_encodable : encodable epoch_rewards_default.
Proof. apply epoch_rewards_encodable. by apply map_Forall_empty. Qed.
Lemma count_round_fits ctx (m : gmap N EpochRewards) e :
  map_Forall (λ _ r, encodable r) m → encodable (count_round ctx (default epoch_rewards_default (m !! e))).
Proof.
  intros Hm. apply count_round_encodable. destruct (m !! e) as [r|] eqn:He; [by apply (Hm e)|].
  apply epoch_rewards_default_encodable.
Qed.

(** ** The end of a block *)

Lemma store_rewards_run {E} s L m e r :
  payable_state s L → rewards_of s m → u64_valid e → encodable r →
  ∃ s', typed_insert (E := E) epochs_ref (be_bytes64 e) r s = (Ok tt, s') ∧ payable_state s' L ∧
    rewards_of s' (<[e := r]> m).
Proof.
  intros Hs [Hw Ht Hc] He Hr.
  destruct (table_insert_run (E := E) _ _ _ be_bytes64_inj m s epochs_ref (be_bytes64 e) e r Ht Hw He Hr eq_refl)
    as (s' & Hrun & Ht' & Hw' & Hst & Ho).
  exists s'. split; [exact Hrun|]. split; [by eapply payable_outside, Hst; [..|eapply outside_other_keys]|].
  split; [done..|]. by apply map_Forall_insert_2.
Qed.

Lemma rewards_of_moved s s' m : moved s s' → rewards_of s m → rewards_of s' m.
Proof. intros (_ & Hw & Ho) [_ Ht Hc]. split; [done| |done]. by eapply table_outside. Qed.

Lemma pay_rewards_run {E} s L m p :
  payable_state s L → rewards_of s m → has_rewards_params s p →
  ∃ s' L' l, (epoch_rewards ← take_epochs; p ← rewards_params; for_each epoch_rewards (disburse_epoch (E := E) p)) s
      = (Ok tt, s') ∧ payable_state s' L' ∧ rewards_of s' ∅ ∧ (∀ e r, (e, r) ∈ l ↔ m !! e = Some r) ∧
    StronglySorted epoch_before l ∧ settle_epochs p l L L'.
Proof.
  intros Hs Hr Hp. destruct (take_epochs_run (E := E) m s Hr) as (l & s1 & Hrun & Hin & Hsort & Hr1 & Ho & Hst).
  rewrite (bind_ok _ _ _ _ _ Hrun). pose proof (rw_writable _ _ Hr1) as Hw1.
  rewrite (bind_ok _ _ _ _ _ (rewards_params_run (E := E) s1 p Hw1 (has_rewards_params_outside _ _ _ Ho Hp))).
  destruct (disburse_epochs_run (E := E) p l s1 L (payable_outside _ _ _ Hs Hw1 Ho Hst))
    as (s' & L' & Hrun' & Hmv & Hs' & Hset).
  exists s', L', l. split; [exact Hrun'|]. split; [done|]. split; [by eapply rewards_of_moved|done].
Qed.

End payouts.

Module RewardClaims.
(** Who is rewarded for an epoch, with parameters that pass validation: each address at most once,
    never an entity that misbehaved in some round, always the entities with the most rounds, and, while
    the product fits into 64 bits, exactly those whose number of rounds reaches the fraction of the
    largest one, rounded down. *)
Theorem rewarded_exactly p r :
  rewards_validate_basic p = inr tt →
  let num := participation_threshold_numerator p in let den := participation_threshold_denominator p in
  let l := for_disbursement r num den in
  NoDup l ∧
  (∀ a, pending r !! a = Some NoReward → a ∉ l) ∧
  (∀ a, pending r !! a = Some (Reward (max_value r)) → a ∈ l) ∧
  ((num * max_value r ≤ u64_max)%N →
     ∀ a v, pending r !! a = Some (Reward v) → a ∈ l ↔ (num * max_value r / den ≤ v)%N).
Proof.
  intros Hval num den l. unfold rewards_validate_basic in Hval. destruct (schedule_validate_basic (schedule p)); [done|].
  fold num den in Hval. destruct (N.ltb_spec den num) as [|Hle]; [done|]. destruct (N.eqb_spec den 0) as [|Hden]; [done|].
  split; [apply for_disbursement_nodup|]. split; [|split].
  - intros a Ha (v & Hv & _)%elem_of_for_disbursement. congruence.
  - intros a Ha. apply elem_of_for_disbursement. exists (max_value r). split; [done|]. by apply reward_threshold_le.
  - intros Hfit a v Hv. unfold l. rewrite elem_of_for_disbursement, reward_threshold_exact by done. naive_solver.
Qed.

Section end_block.
Context `{Platform} `{!MKVSLaws} `{!RewardsCodec} `{!RewardsCodecLaws} `{!AccountsCodec} `{!AccountsCodecLaws}.

(** C39. The end of a block never panics in the rewards module.  When the epoch has changed, all epochs of
    the table are settled in their order and removed: in each, the due rewards are paid out of the pool
    one after the other, all of them unless the pool does not have the next one; otherwise the ledger
    stays.  Then the round of the block is counted for its epoch.  Supplies never change, and no account
    but the pool loses tokens. *)
Theorem end_block_pays_rewards ctx s L m p changed :
  payable_state s L → rewards_of s m → has_rewards_params s p →
  has_epoch_changed (E := Empty_set) s = (Ok changed, s) → (ctx_epoch ctx ≤ u64_max)%N →
  let r := count_round ctx (default epoch_rewards_default (m !! ctx_epoch ctx)) in
  ∃ s' L', rewards_end_block ctx s = (Ok tt, s') ∧ payable_state s' L' ∧
    (if changed then
       rewards_of s' {[ctx_epoch ctx := r]} ∧
       ∃ l, (∀ e r, (e, r) ∈ l ↔ m !! e = Some r) ∧ StronglySorted epoch_before l ∧ settle_epochs p l L L'
     else rewards_of s' (<[ctx_epoch ctx := r]> m) ∧ L' = L) ∧
    supply L' = supply L ∧ ∀ a d, a ≠ ADDRESS_REWARD_POOL → (balance L a d ≤ balance L' a d)%N.
Proof.
  intros Hs Hr Hp Hch He r. unfold rewards_end_block.
  rewrite (bind_ok _ _ s (m !! ctx_epoch ctx) s)
    by exact (table_get_run (E := Empty_set) _ _ _ m s epochs_ref _ _ (rw_table _ _ Hr) (rw_writable _ _ Hr) He eq_refl).
  fold r. rewrite (bind_ok _ _ _ _ _ Hch).
  assert (Henc : encodable r) by (apply count_round_fits, Hr). destruct changed.
  - destruct (pay_rewards_run (E := Empty_set) s L m p Hs Hr Hp) as (s1 & L' & l & Hrun & Hs1 & Hr1 & Hin & Hsort & Hset).
    rewrite (bind_ok _ _ _ _ _ Hrun).
    destruct (store_rewards_run (E := Empty_set) s1 L' ∅ (ctx_epoch ctx) r Hs1 Hr1 He Henc) as (s' & Hrun' & Hs' & Hr').
    exists s', L'. split; [exact Hrun'|]. split; [done|]. split; [by split; [|exists l]|].
    destruct (settle_epochs_paid p l L L' Hset) as (ps & Hsup & Hbal). split; [done|]. intros a d Ha.
    specialize (Hbal a d). rewrite decide_False in Hbal by done. lia.
  - rewrite ret_bind.
    destruct (store_rewards_run (E := Empty_set) s L m (ctx_epoch ctx) r Hs Hr He Henc) as (s' & Hrun' & Hs' & Hr').
    exists s', L. split; [exact Hrun'|]. split; [done|]. split; [done|]. by split.
Qed.
End end_block.
End RewardClaims.

(** * Access control *)

(** A restricted method is dispatched exactly for the callers that are allowed, and an unrestricted one for
    everybody; the state stays as it was. *)
Theorem access_enforced `{Platform} meths ctx call s caller :
  env_tx_caller_address (st_env s) = Some caller →
  access_before_authorized_call_dispatch (FilterOnly meths) ctx call s =
    (match meths !! call_method call with
     | Some (AllowFrom addrs) =>
         if decide (caller ∈ addrs) then Ok tt else Err (InvalidArgument "caller is not authorized to call method")
     | None => Ok tt
     end, s).
Proof.
  intros Hc. unfold access_before_authorized_call_dispatch.
  rewrite (bind_ok _ _ _ _ _ (with_tx_env_run (E := CoreError) _ _ _ Hc)). unfold is_authorized, method_is_authorized.
  destruct (meths !! call_method call) as [[addrs]|]; [|done].
  by destruct (decide (caller ∈ addrs)); [rewrite bool_decide_eq_true_2|rewrite bool_decide_eq_false_2].
Qed.
