(* ===== verification/ConcreteRewards.v ===== *)
(** The rewards module on the concrete platform: a pool that can pay only one of two rewards. *)
From S2P Require Import Prelude Endian Storage StoreIter Types Fee Errors State Current Transactions Module.
From S2P Require Import Tables Concrete Core Gas ConcreteCore Accounts Ledger Accounting Nonces.
From S2P Require Import Disbursement Tokens Moves Supplies ConcreteAccounts Rewards Payouts.

#[local] Existing Instances toy_platform toy_mkvs_laws toy_core_codec toy_core_config toy_accounts_codec
  toy_accounts_laws.

#[local] Instance reward_action_eq_dec : EqDecision RewardAction.
Proof. solve_decision. Defined.
#[local] Instance reward_action_countable : Countable RewardAction.
Proof.
  apply (inj_countable' (λ a, match a with Reward v => Some v | NoReward => None end)
    (λ o, match o with Some v => Reward v | None => NoReward end)). by intros [].
Defined.
#[local] Instance epoch_rewards_eq_dec : EqDecision EpochRewards.
Proof. solve_decision. Defined.
#[local] Instance epoch_rewards_countable : Countable EpochRewards.
Proof. apply (inj_countable' pending (λ m, {| pending := m |})). by intros []. Defined.

(** Ten tokens for each entity with at least half of the largest number of rounds. *)
Definition toy_rewards_params : RewardsParameters :=
  {| schedule := {| steps := [{| until := 10; step_amount := toy_units 10 |}] |};
     participation_threshold_numerator := 1; participation_threshold_denominator := 2 |}.
#[local] Instance toy_rewards_codec : RewardsCodec := {|
  rw_parameters_cbor := const_cbor toy_rewards_params;
  rw_epoch_rewards_cbor := toy_cbor (λ r, map_Forall (λ _ a, (reward_value a ≤ u64_max)%N) (pending r));
|}.
#[local] Instance toy_rewards_laws : RewardsCodecLaws.
Proof. split; [apply toy_cbor_laws|done]. Qed.

(** * A state: alice and bob have done their rounds, the pool has 15 tokens *)

Definition carol : Address := from_sigspec (SpecEd25519 [x01; x04]).
Definition toy_epoch_rewards : EpochRewards :=
  {| pending := {[ alice := Reward 4; bob := Reward 2; carol := NoReward ]} |}.
Definition toy_rewards_root : Store := MKVSStore ({[ rewards_params_key := [x01] ]} : gmap bytes bytes).
Definition toy_rewards_empty : State := set_tx toy_twm (root_state Execute toy_rewards_root).
Definition toy_pool_state : State :=
  (typed_insert (E := Empty_set) supplies_ref (denom_bytes NATIVE) 15%N
     (put_balance ADDRESS_REWARD_POOL 15 toy_rewards_empty)).2.
Definition toy_pool_ledger : Ledger := set_supply NATIVE 15 (set_bal (ADDRESS_REWARD_POOL, NATIVE) 15 empty_ledger).
Definition toy_rewards_state : State :=
  (value_set (E := Empty_set) Block CONTEXT_KEY_EPOCH_CHANGED true
     (typed_insert (E := Empty_set) epochs_ref (be_bytes64 3) toy_epoch_rewards toy_pool_state).2).2.

Lemma rewards_empty_at k : k ≠ rewards_params_key → at_key toy_rewards_empty k = None.
Proof.
  intros Hk. unfold at_key, toy_rewards_empty, toy_rewards_root. simpl. by apply lookup_singleton_ne.
Qed.
Lemma rewards_empty_ledger : ledger_of toy_rewards_empty empty_ledger.
Proof.
  split. eexists. split; [reflexivity|]. split; [by apply new_overlay_wf|]. split; [by eexists|].
  assert (Hget : ∀ t k, get (new_overlay toy_rewards_root) (table_key t k) = None)
    by (intros t k; exact (rewards_empty_at (table_key t k) ltac:(done))).
  split; unfold bal_key, supply_key, nonce_key; intros; rewrite ?Hget in *; try done;
    by match goal with Hs : is_Some None |- _ => destruct Hs end.
Qed.

Lemma toy_pool_ok : payable_state toy_pool_state toy_pool_ledger ∧ outside accounts_prefix toy_rewards_empty toy_pool_state.
Proof.
  pose proof rewards_empty_ledger as Hl0. assert (is_check_only (st_env toy_rewards_empty) = false) as Hm by done.
  unfold toy_pool_state, toy_pool_ledger. generalize dependent toy_rewards_empty. intros s0 Hl0 Hm.
  assert (Hl1 := put_balance_ledger s0 _ ADDRESS_REWARD_POOL 15 Hl0 ltac:(done)).
  pose proof (confined_typed_insert (E := Empty_set) accounts_prefix (account_ref ADDRESS_REWARD_POOL)
    (denom_bytes NATIVE) 15%N eq_refl s0 (ledger_writable _ _ Hl0)) as [Hw1 Ho1]. fold (put_balance ADDRESS_REWARD_POOL 15 s0) in *.
  pose proof (confined_typed_insert (E := Empty_set) accounts_prefix supplies_ref (denom_bytes NATIVE) 15%N eq_refl _ Hw1)
    as [_ Ho2].
  destruct (put_supply_run (E := Empty_set) (put_balance ADDRESS_REWARD_POOL 15 s0) _ NATIVE 15 Hl1 ltac:(done))
    as (s2 & Hrun2 & [st2 Hst2] & Hl2). rewrite Hrun2 in *. cbn [snd] in *.
  split; [|by eapply outside_trans]. split; [done|]. split.
  - intros d. change (total (set_supply NATIVE 15 ?L) d) with (total L d).
    pose proof (total_set_bal empty_ledger ADDRESS_REWARD_POOL NATIVE 15 d) as H1.
    assert (total empty_ledger d = 0%N) as H3 by done. assert (balance empty_ledger ADDRESS_REWARD_POOL NATIVE = 0%N) as H4 by done.
    unfold supply_of, set_supply. simpl. rewrite lookup_insert. case_decide; simpl; lia.
  - rewrite Hst2. simpl. unfold put_balance.
    destruct (put_bal_run (E := Empty_set) s0 _ ADDRESS_REWARD_POOL NATIVE 15%N Hl0 ltac:(done)) as (s1 & -> & [st1 ->] & _).
    done.
Qed.

Lemma toy_pool_rewards : rewards_of toy_pool_state ∅ ∧ has_rewards_params toy_pool_state toy_rewards_params.
Proof.
  destruct toy_pool_ok as [(Hl & _) Ho].
  assert (Hat : ∀ b, at_key toy_pool_state (epochs_prefix ++ b) = None).
  { intros b. rewrite Ho by done. by apply rewards_empty_at. }
  split.
  - split; [by eapply ledger_writable| |apply map_Forall_empty].
    split; [by intros k Hk%lookup_empty_is_Some|intros k _; by rewrite Hat, lookup_empty|].
    intros b Hb. rewrite Hat in Hb. by destruct Hb.
  - exists (Some toy_rewards_params). split; [|done]. rewrite Ho by done. vm_compute. reflexivity.
Qed.

Lemma toy_epoch_encodable : encodable toy_epoch_rewards.
Proof.
  apply epoch_rewards_encodable. unfold toy_epoch_rewards. cbn [pending].
  do 2 (apply map_Forall_insert_2; [by apply N.leb_le|]). apply map_Forall_singleton. by apply N.leb_le.
Qed.
Lemma toy_rewards_ok :
  payable_state toy_rewards_state toy_pool_ledger ∧ rewards_of toy_rewards_state {[ 3%N := toy_epoch_rewards ]} ∧
  has_rewards_params toy_rewards_state toy_rewards_params ∧
  has_epoch_changed (E := Empty_set) toy_rewards_state = (Ok true, toy_rewards_state).
Proof.
  destruct toy_pool_ok as [Hs _]. destruct toy_pool_rewards as [Hr Hp]. unfold toy_rewards_state.
  generalize dependent toy_pool_state. intros s Hs Hr Hp.
  pose proof (confined_typed_insert (E := Empty_set) epochs_prefix epochs_ref (be_bytes64 3) toy_epoch_rewards eq_refl s
    (rw_writable _ _ Hr)) as [_ Ho].
  destruct (store_rewards_run (E := Empty_set) s toy_pool_ledger ∅ 3 toy_epoch_rewards Hs Hr ltac:(done)
    toy_epoch_encodable) as (s1 & Hrun & (Hl & Hc & Hm) & [Hw Ht He]).
  rewrite Hrun in *. cbn [snd] in *. split; [|split; [|split]].
  - split; [by apply (ledger_of_ext s1)|done].
  - split; [by apply (writable_same s1)|by apply (table_ext _ _ _ _ s1)|done].
  - apply (has_rewards_params_outside s); [|done]. exact Ho.
  - unfold has_epoch_changed, value_set. cbn [modify snd]. by rewrite (bind_ok _ _ _ _ _ (value_get_run (E := Empty_set) Block
      CONTEXT_KEY_EPOCH_CHANGED _ (Some true) (holds_value_set Block CONTEXT_KEY_EPOCH_CHANGED s1 true))).
Qed.

(** Only one of the two rewards can have been paid. *)
Lemma toy_short n L' :
  let l := due toy_rewards_params (3%N, toy_epoch_rewards) in
  let u := for_epoch (schedule toy_rewards_params) 3 in
  (∀ a d, balance L' a d + (if decide (ADDRESS_REWARD_POOL = a)
            then list_sum (λ x, delta x.2 d) ((λ a, (a, u)) <$> take n l) else 0) =
          balance toy_pool_ledger a d +
          list_sum (λ x, if decide (x.1 = a) then delta x.2 d else 0) ((λ a, (a, u)) <$> take n l))%N →
  ((n < length l)%nat → (balance L' ADDRESS_REWARD_POOL (denomination u) < amount u)%N) →
  (balance L' ADDRESS_REWARD_POOL NATIVE < 10)%N.
Proof.
  intros l u Hpaid Hshort. destruct (decide (n < length l)%nat) as [Hn|Hn]; [exact (Hshort Hn)|].
  specialize (Hpaid ADDRESS_REWARD_POOL NATIVE). rewrite decide_True in Hpaid by done.
  rewrite take_ge in Hpaid by lia. revert Hpaid.
  set (g := list_sum _ _). set (g' := list_sum _ _).
  assert (g = 20%N) as -> by (vm_compute; reflexivity). assert (g' = 0%N) as -> by (vm_compute; reflexivity).
  assert (balance toy_pool_ledger ADDRESS_REWARD_POOL NATIVE = 15%N) as -> by (vm_compute; reflexivity). lia.
Qed.

Lemma only_epoch e0 (r0 : EpochRewards) l :
  (∀ e r, (e, r) ∈ l ↔ ({[ e0 := r0 ]} : gmap N EpochRewards) !! e = Some r) → StronglySorted epoch_before l →
  l = [(e0, r0)].
Proof.
  intros Hin Hsort. apply Permutation_singleton_r. apply NoDup_Permutation.
  - clear -Hsort. induction Hsort as [|x l _ IH Hx]; constructor; [|done].
    rewrite Forall_forall in Hx. intros Hx'%Hx. unfold epoch_before in Hx'. lia.
  - apply NoDup_singleton.
  - intros [e r]. rewrite Hin, lookup_singleton_Some, list_elem_of_singleton. naive_solver.
Qed.

Lemma settle_one p x L L' : settle_epochs p [x] L L' → settles (for_epoch (schedule p) x.1) (due p x) L L'.
Proof. intros Hset. inversion Hset as [|? ? ? ? ? Hs Hn]; subst. by inversion Hn; subst. Qed.

(** * Witnesses *)

Lemma rewarded_exactly_witness :
  let l := for_disbursement toy_epoch_rewards 1 2 in alice ∈ l ∧ bob ∈ l ∧ carol ∉ l.
Proof.
  destruct (RewardClaims.rewarded_exactly toy_rewards_params toy_epoch_rewards eq_refl) as (_ & Hno & Hmax & Hexact).
  split; [|split].
  - apply Hmax. vm_compute. reflexivity.
  - apply (Hexact ltac:(vm_compute; discriminate) bob 2%N); vm_compute; [reflexivity|discriminate].
  - apply Hno. vm_compute. reflexivity.
Defined.

Lemma end_block_pays_rewards_witness :
  ∃ s' L', rewards_end_block toy_core_ctx toy_rewards_state = (Ok tt, s') ∧ ledger_of s' L' ∧
    (balance L' ADDRESS_REWARD_POOL NATIVE < 10)%N ∧ supply_of L' NATIVE = 15%N.
Proof.
  destruct toy_rewards_ok as (Hs & Hr & Hp & Hch).
  destruct (RewardClaims.end_block_pays_rewards toy_core_ctx toy_rewards_state toy_pool_ledger
    {[ 3%N := toy_epoch_rewards ]} toy_rewards_params true Hs Hr Hp Hch ltac:(by apply N.leb_le))
    as (s' & L' & Hrun & (Hl & _) & (_ & l & Hin & Hsort & Hset) & Hsup & _).
  exists s', L'. split; [exact Hrun|]. split; [exact Hl|].
  split; [|by rewrite (supply_of_supply toy_pool_ledger L') by done].
  rewrite (only_epoch 3 toy_epoch_rewards l Hin Hsort) in Hset.
  destruct (settle_one _ _ _ _ Hset) as (n & (_ & Hpaid) & Hshort).
  exact (toy_short n _ Hpaid Hshort).
Defined.
