(* ===== verification/Dispatcher.v ===== *)
(** The transaction dispatcher: decoding, calls, transactions, checks, queries, batches and their
    scheduling, and state migration (src/runtime-sdk/src/dispatcher.rs, runtime.rs, config.rs,
    schedule_control.rs). *)
From S2P Require Import Prelude Storage StoreIter Types Fee Errors State Current Transactions Module.
From S2P Require Import CallFormat Core.

Local Open Scope string_scope.

(** * Runtimes *)

Record ScheduleControl := {
  initial_batch_size : N;
  batch_size : N;
  min_remaining_gas : N;
  max_tx_count : N;
}.
Definition schedule_control_default : ScheduleControl :=
  {| initial_batch_size := 50; batch_size := 50; min_remaining_gas := 1000; max_tx_count := 1000 |}.

(** [core::types::Metadata], the versions of the modules. *)
Definition Versions := gmap string N.
Definition VERSION_GLOBAL_KEY : string := "".

Section runtime.
Context `{Platform}.

(** What a runtime configures; [init_or_migrate] is that of its modules, with the genesis state. *)
Record Runtime := {
  rt_modules : Handlers;
  rt_init_or_migrate : Ctx → Versions → M Empty_set (bool * Versions);
  rt_migrate_state : Ctx → M Empty_set unit;
  STATE_VERSION : N;
  PREFETCH_LIMIT : N;
  SCHEDULE_CONTROL : ScheduleControl;
  rt_is_allowed_query : string → bool;
  rt_is_allowed_private_km_query : string → bool;
}.

(** The encodings that the dispatcher uses. *)
Class DispatchCodec := {
  utx_from_slice : bytes → option UnverifiedTransaction;
  args_from_slice : bytes → option Value;
  value_to_vec : Value → bytes;
  values_to_vec : list Value → bytes;
  versions_cbor :: Cbor Versions;
  message_handlers_cbor :: Cbor (gmap N MessageEventHookInvocation);
  bool_value :: CborValue bool;
  query_config_value :: CborValue (list (gmap string bool));
}.
End runtime.

(** * Results *)

Definition Tags := list (bytes * bytes).

Record CheckTxMetadata := { ct_priority : N; ct_sender : bytes; ct_sender_seq : N; ct_sender_state_seq : N }.
Record CheckTxResult := { ct_error : RuntimeError; ct_meta : option CheckTxMetadata }.

Section dispatcher.
Context `{Platform} `{!TxCodec} `{!CallCrypto} `{!CoreCodec} `{!DispatchCodec}.
Variable R : Runtime.
Notation mods := (rt_modules R).

Definition into_tags (es : EventTags) : Tags := (λ x, (x.1, values_to_vec x.2)) <$> btree_iter es.

(** [dispatcher::DispatchResult]. *)
Record TxDispatchResult := {
  dr_result : CallResult;
  dr_tags : Tags;
  dr_priority : N;
  dr_sender_metadata : SenderMeta;
  dr_call_format_metadata : Metadata;
}.
Definition dispatch_result_new (result : CallResult) (tags : Tags) (md : Metadata) : TxDispatchResult :=
  {| dr_result := result; dr_tags := tags; dr_priority := 0; dr_sender_metadata := sender_meta_default;
     dr_call_format_metadata := md |}.
Definition dispatch_result_from (result : CallResult) : TxDispatchResult :=
  dispatch_result_new result [] MetadataEmpty.

Record DispatchOptions := {
  do_tx_size : N;
  do_tx_index : N;
  do_tx_hash : Hash;
  do_method_authorizer : option (string → bool);
  do_skip_authentication : bool;
}.
Definition hash_default : Hash := exist _ (replicate 32 x00) eq_refl.

(** * Migration *)

Definition migrate (ctx : Ctx) : M Empty_set unit :=
  metadata ← typed_get (T := Versions) core_store CORE_METADATA;
  init ← rt_init_or_migrate R ctx (default ∅ metadata);
  let '(has_changes, metadata) := init in
  let global_version := default 0%N (metadata !! VERSION_GLOBAL_KEY) in
  check_only ← with_env is_check_only;
  state ← (if negb (global_version =? STATE_VERSION R)%N && negb check_only then
             if (global_version =? 0)%N || (global_version =? wrapping_sub u32_max (STATE_VERSION R) 1)%N then
               rt_migrate_state R ctx ;;
               mret (true, <[VERSION_GLOBAL_KEY := STATE_VERSION R]> metadata)
             else panic "inconsistent existing state version"
           else mret (has_changes, metadata));
  let '(has_changes, metadata) := state in
  if (has_changes : bool) then typed_insert core_store CORE_METADATA metadata else mret tt.

(** * Transactions *)

Definition decode_transaction (ctx : Ctx) (tx : bytes) : M CoreError Transaction :=
  approve_raw_tx mods ctx tx ;;
  utx ← ok_or (utx_from_slice tx) (MalformedTransaction "malformed");
  approve_unverified_tx mods ctx utx ;;
  match ut_proofs utx with
  | [ProofModule scheme] =>
      decoded ← decode_tx mods ctx scheme (ut_body utx);
      ok_or decoded (MalformedTransaction "module-controlled transaction decoding scheme not supported")
  | _ => match verify utx with
         | inr tx => mret tx
         | inl e => throw (MalformedTransaction (tx_error_to_string e))
         end
  end.

(** [_dispatch_tx_call]. *)
Definition dispatch_tx_call_ (ctx : Ctx) (call : Call) (opts : DispatchOptions)
    : M Empty_set (CallResult * Metadata) :=
  before ← try_ (before_handle_call mods ctx call);
  match before with
  | inl e => mret (into_call_result e, MetadataEmpty)
  | inr _ =>
      decoded ← try_ (decode_call ctx call (do_tx_index opts));
      match decoded with
      | inl err => mret (into_call_result err, MetadataEmpty)
      | inr None => mret (CallOk value_null, MetadataEmpty)
      | inr (Some (call, md)) =>
          if negb (from_option (λ f, f (call_method call)) true (do_method_authorizer opts))
          then mret (into_call_result Forbidden, md)
          else
            authorized ← try_ (before_authorized_call_dispatch mods ctx call);
            match authorized with
            | inl e => mret (into_call_result e, md)
            | inr _ =>
                r ← dispatch_call mods ctx (call_method call) (call_body call);
                mret (match r with
                      | Handled result => result
                      | Unhandled _ => into_call_result (InvalidMethod (call_method call))
                      end, md)
            end
      end
  end.

Definition dispatch_tx_call (ctx : Ctx) (call : Call) (opts : DispatchOptions)
    : M Empty_set (CallResult * Metadata) :=
  r ← dispatch_tx_call_ ctx call opts;
  let '(result, metadata) := r in
  after ← try_ (after_handle_call mods ctx result);
  match after with
  | inl e => mret (into_call_result e, metadata)
  | inr _ =>
      pending ← gets has_pending_store_updates;
      if call_read_only call && pending
      then mret (into_call_result ReadOnlyTransaction, metadata)
      else mret (result, metadata)
  end.

(** The closure that runs inside of the transaction. *)
Definition dispatch_in_tx (ctx : Ctx) (call : Call) (opts : DispatchOptions)
    : M Empty_set (TransactionResult TxDispatchResult) :=
  r ← dispatch_tx_call ctx call opts;
  let '(result, md) := r in
  if negb (is_success result) || call_read_only call then
    events ← take_unconditional_events;
    mret (Rollback (dispatch_result_new result (into_tags events) md))
  else
    priority ← take_priority;
    sender_metadata ← take_sender_meta;
    check_only ← with_env is_check_only;
    if (check_only : bool) then
      mret (Rollback {| dr_result := result; dr_tags := []; dr_priority := priority;
                        dr_sender_metadata := sender_metadata; dr_call_format_metadata := md |})
    else
      events ← take_all_events;
      mret (Commit {| dr_result := result; dr_tags := into_tags events; dr_priority := priority;
                      dr_sender_metadata := sender_metadata; dr_call_format_metadata := md |}).

Definition tx_options (tx : Transaction) (opts : DispatchOptions) : Options :=
  with_tx {| twm_data := tx; twm_size := do_tx_size opts; twm_index := do_tx_index opts;
             twm_hash := do_tx_hash opts |} options_new.

Definition dispatch_tx_opts (ctx : Ctx) (tx : Transaction) (opts : DispatchOptions)
    : M DispatcherError TxDispatchResult :=
  auth ← (if do_skip_authentication opts then mret (inr Continue)
          else try_ (authenticate_tx mods ctx tx));
  match auth with
  | inl err => mret (dispatch_result_from (into_call_result err))
  | inr _ =>
      result ← lift (with_transaction_opts (tx_options tx opts) (dispatch_in_tx ctx (tx_call tx) opts));
      lift (after_dispatch_tx mods ctx (tx_auth_info tx) (dr_result result)) ;;
      match dr_result result with
      | CallAborted err => throw err
      | _ => mret result
      end
  end.

Definition dispatch_tx (ctx : Ctx) (tx_size : N) (tx : Transaction) (tx_index : N)
    : M DispatcherError TxDispatchResult :=
  dispatch_tx_opts ctx tx {| do_tx_size := tx_size; do_tx_index := tx_index; do_tx_hash := hash_default;
                             do_method_authorizer := None; do_skip_authentication := false |}.

Definition usize_max : N := u64_max.

Definition check_tx (ctx : Ctx) (tx_size : N) (tx : Transaction) : M DispatcherError CheckTxResult :=
  dispatch ← catch_unwind (dispatch_tx ctx tx_size tx usize_max);
  match dispatch with
  | inl _ =>
      mret {| ct_error := {| re_module := "dispatcher"; re_code := 1;
                             re_message := "transaction check aborted: Any { .. }" |};
              ct_meta := None |}
  | inr dispatch =>
      match dr_result dispatch with
      | CallOk _ =>
          let meta := dr_sender_metadata dispatch in
          mret {| ct_error := no_error;
                  ct_meta := Some {| ct_priority := dr_priority dispatch; ct_sender := sender_id meta;
                                     ct_sender_seq := sm_tx_nonce meta;
                                     ct_sender_state_seq := sm_state_nonce meta |} |}
      | CallFailed m c msg =>
          mret {| ct_error := {| re_module := m; re_code := c; re_message := msg |}; ct_meta := None |}
      | CallAborted err => throw err
      end
  end.

(** The entropy that the encryption of results draws outside of execution is an argument. *)
Variable entropy : bytes.

Record ExecuteTxResult := { etr_output : bytes; etr_tags : Tags }.

Definition execute_tx_opts (ctx : Ctx) (tx : Transaction) (opts : DispatchOptions)
    : M DispatcherError (TxCallResult * Tags) :=
  dispatch_result ← dispatch_tx_opts ctx tx opts;
  output ← encode_result ctx entropy (dr_result dispatch_result) (dr_call_format_metadata dispatch_result);
  mret (output, dr_tags dispatch_result).

Definition execute_tx (ctx : Ctx) (tx_size : N) (tx_hash : Hash) (tx : Transaction) (tx_index : N)
    : M DispatcherError ExecuteTxResult :=
  r ← execute_tx_opts ctx tx {| do_tx_size := tx_size; do_tx_index := tx_index; do_tx_hash := tx_hash;
                                do_method_authorizer := None; do_skip_authentication := false |};
  let '(output, tags) := r in
  mret {| etr_output := result_to_vec output; etr_tags := tags |}.

Definition prefetch_tx (prefixes : gset bytes) (tx : Transaction) : (RuntimeError + unit) * gset bytes :=
  match prefetch mods prefixes (call_method (tx_call tx)) (call_body (tx_call tx)) (tx_auth_info tx) with
  | (Handled r, prefixes) => (r, prefixes)
  | (Unhandled _, prefixes) => (inr tt, prefixes)
  end.

(** * Consensus messages *)

Definition handle_message (ctx : Ctx) (handlers : gmap N MessageEventHookInvocation) (event : MessageEvent)
    : M CoreError (gmap N MessageEventHookInvocation) :=
  let index := message_event_index event in
  handler ← ok_or (handlers !! index) (MessageHandlerMissing index);
  r ← lift (dispatch_message_result mods ctx (hook_name handler)
              {| mr_event := event; mr_context := hook_payload handler |});
  match r with
  | Handled _ => mret (delete index handlers)
  | Unhandled _ => throw (InvalidMethod (hook_name handler))
  end.

Definition handle_last_round_messages (ctx : Ctx) : M CoreError unit :=
  handlers ← typed_get (T := gmap N MessageEventHookInvocation) core_store CORE_MESSAGE_HANDLERS;
  rest ← fold_m (ctx_messages ctx) (default ∅ handlers) (handle_message ctx);
  if bool_decide (dom rest = ∅) then mret tt else throw MessageHandlerNotInvoked.

(** The map collected from the enumerated handlers; indices are cast to 32 bits. *)
Definition indexed_handlers (handlers : list MessageEventHookInvocation)
    : gmap N MessageEventHookInvocation :=
  list_to_map (reverse (imap (λ idx h, ((N.of_nat idx mod (u32_max + 1))%N, h)) handlers)).

Definition save_emitted_message_handlers {E} (handlers : list MessageEventHookInvocation) : M E unit :=
  typed_insert core_store CORE_MESSAGE_HANDLERS (indexed_handlers handlers).

(** * Queries *)

Definition query_in_tx (ctx : Ctx) (method : string) (args : Value) : M RuntimeError Value :=
  lift (migrate ctx) ;;
  allowed ← (if rt_is_allowed_query R method
             then is_allowed_query ctx (is_expensive_query mods method) method else mret false);
  if negb allowed then throw (into_runtime_error Forbidden)
  else
    r ← lift (dispatch_query mods ctx method args);
    match r with
    | Handled (inr v) => mret v
    | Handled (inl e) => throw e
    | Unhandled _ => throw (into_runtime_error (InvalidMethod method))
    end.

Definition dispatch_query_bytes (ctx : Ctx) (method : string) (args : bytes) : M RuntimeError bytes :=
  args ← ok_or (args_from_slice args) (into_runtime_error (InvalidArgument "decode"));
  result ← with_transaction (r ← catch_unwind (try_ (query_in_tx ctx method args)); mret (Rollback r));
  match result with
  | inl _ => throw (into_runtime_error (QueryAborted "Any { .. }"))
  | inr (inl e) => throw e
  | inr (inr v) => mret (value_to_vec v)
  end.

(** * Batches *)

Record ExecuteBatchResult := {
  eb_results : list ExecuteTxResult;
  eb_messages : list Message;
  eb_block_tags : Tags;
  eb_tx_reject_hashes : list Hash;
}.

(** [Hash::digest_bytes]. *)
Definition digest_bytes (b : bytes) : Hash := digest [b].

(** What [execute_batch_common] runs on the root state. *)
Definition batch_body {A} (ctx : Ctx) (f : M RuntimeError (list ExecuteTxResult * A))
    : M RuntimeError (ExecuteBatchResult * A) :=
  lift (migrate ctx) ;;
  map_err into_runtime_error (handle_last_round_messages ctx) ;;
  lift (begin_block mods ctx) ;;
  r ← f;
  let '(results, a) := r in
  lift (end_block mods ctx) ;;
  messages ← take_messages;
  block_tags ← take_all_events;
  save_emitted_message_handlers (messages.*2) ;;
  mret ({| eb_results := results; eb_messages := messages.*1; eb_block_tags := into_tags block_tags;
           eb_tx_reject_hashes := [] |}, a).

Definition execute_batch_common {A} (ctx : Ctx) (root : Store)
    (f : M RuntimeError (list ExecuteTxResult * A)) : Outcome RuntimeError (ExecuteBatchResult * A) * Store :=
  enter_opts (with_mode Execute options_new) root (batch_body ctx f).

(** [tx.len().try_into()]. *)
Definition tx_size_of (tx : bytes) : M RuntimeError N :=
  let n := N.of_nat (length tx) in
  if (u32_max <? n)%N
  then throw (into_runtime_error (MalformedTransactionInBatch "transaction too large")) else mret n.

Definition prefetch_enabled : bool := (0 <? PREFETCH_LIMIT R)%N.

(** Prefetching warms the caches of the root store; the contents stay. *)
Definition prefetch_prefixes {E : Type} (prefixes : gset bytes) : M E unit :=
  store ;; mret tt.

(** The first loop of [execute_batch]. *)
Definition decode_batch_tx (ctx : Ctx) (acc : list (N * Hash * Transaction) * gset bytes) (tx : bytes)
    : M RuntimeError (list (N * Hash * Transaction) * gset bytes) :=
  tx_size ← tx_size_of tx;
  let tx_hash := digest_bytes tx in
  tx ← map_err (λ err, into_runtime_error (MalformedTransactionInBatch (to_string err)))
         (decode_transaction ctx tx);
  let txs := (acc.1 ++ [(tx_size, tx_hash, tx)])%list in
  if prefetch_enabled then
    match prefetch_tx acc.2 tx with
    | (inr _, prefixes) => mret (txs, prefixes)
    | (inl e, _) => throw e
    end
  else mret (txs, acc.2).

Fixpoint execute_all (ctx : Ctx) (index : N) (txs : list (N * Hash * Transaction))
    : M RuntimeError (list ExecuteTxResult) :=
  match txs with
  | [] => mret []
  | (tx_size, tx_hash, tx) :: txs' =>
      r ← map_err into_runtime_error (execute_tx ctx tx_size tx_hash tx index);
      rs ← execute_all ctx (index + 1) txs';
      mret (r :: rs)
  end.

Definition execute_batch_txs (ctx : Ctx) (batch : list bytes) : M RuntimeError (list ExecuteTxResult) :=
  decoded ← fold_m batch ([], ∅) (decode_batch_tx ctx);
  (if prefetch_enabled then prefetch_prefixes decoded.2 else mret tt) ;;
  execute_all ctx 0 decoded.1.

Definition execute_batch (ctx : Ctx) (root : Store) (batch : list bytes)
    : Outcome RuntimeError (ExecuteBatchResult * unit) * Store :=
  execute_batch_common ctx root (rs ← execute_batch_txs ctx batch; mret (rs, tt)).

(** * Scheduling *)

(** The host's transaction queue: the answers to the successive requests for more transactions;
    [None] when there are none, an error when the host cannot be reached. *)
Definition HostQueue := list (RuntimeError + option (list bytes)).

(** What has been scheduled so far. *)
Record Schedule := {
  sc_new_batch : list bytes;
  sc_results : list ExecuteTxResult;
  sc_rejected : list Hash;
}.
Definition reject (h : Hash) (acc : Schedule) : Schedule :=
  {| sc_new_batch := sc_new_batch acc; sc_results := sc_results acc; sc_rejected := (sc_rejected acc ++ [h])%list |}.

Inductive ScheduleStep := SchedDone | SchedNext (acc : Schedule).

(** The check in a subcontext: whether to skip the transaction, and whether to reject it. *)
Definition pre_schedule (ctx : Ctx) (tx : Transaction) (opts : DispatchOptions)
    : M DispatcherError (TransactionResult (bool * bool)) :=
  commit_ok (
    auth ← try_ (authenticate_tx mods ctx tx);
    match auth with
    | inl FutureNonce => mret (true, false)
    | inl _ => mret (true, true)
    | inr _ =>
        check_result ← dispatch_tx_opts ctx tx opts;
        if is_success (dr_result check_result) then mret (false, false) else mret (true, true)
    end).

Definition schedule_tx (ctx : Ctx) (raw_tx : bytes) (acc : Schedule) : M RuntimeError ScheduleStep :=
  let cfg := SCHEDULE_CONTROL R in
  remaining_gas ← remaining_batch_gas;
  if (remaining_gas <? min_remaining_gas cfg)%N ||
     (max_tx_count cfg <=? N.of_nat (length (sc_new_batch acc)))%N
  then mret SchedDone
  else
    let tx_hash := digest_bytes raw_tx in
    decoded ← try_ (decode_transaction ctx raw_tx);
    match decoded with
    | inl _ => mret (SchedNext (reject tx_hash acc))
    | inr tx =>
        tx_size ← unwrap_or_panic "called Result::unwrap on an Err value" (tx_size_of raw_tx);
        if (remaining_gas <? fee_gas (ai_fee (tx_auth_info tx)))%N then mret (SchedNext acc)
        else
          count ← gets emitted_messages_count;
          let remaining_messages :=
            saturating_sub (ctx_max_messages ctx) (N.of_nat count mod (u32_max + 1)) in
          if (remaining_messages <? fee_consensus_messages (ai_fee (tx_auth_info tx)))%N
          then mret (SchedNext acc)
          else
            let tx_index := N.of_nat (length (sc_new_batch acc)) in
            skip ← map_err into_runtime_error
              (with_transaction_opts (with_mode PreSchedule options_new)
                 (pre_schedule ctx tx {| do_tx_size := tx_size; do_tx_index := tx_index;
                    do_tx_hash := tx_hash; do_method_authorizer := None; do_skip_authentication := true |}));
            let '(skip, rejected) := skip in
            let acc := if (rejected : bool) then reject tx_hash acc else acc in
            if (skip : bool) then mret (SchedNext acc)
            else
              r ← map_err into_runtime_error (execute_tx ctx tx_size tx_hash tx tx_index);
              mret (SchedNext {| sc_new_batch := (sc_new_batch acc ++ [raw_tx])%list;
                                 sc_results := (sc_results acc ++ [r])%list;
                                 sc_rejected := sc_rejected acc |})
    end.

(** The loop over one batch; [true] when scheduling is done. *)
Fixpoint schedule_batch (ctx : Ctx) (batch : list bytes) (acc : Schedule)
    : M RuntimeError (bool * Schedule) :=
  match batch with
  | [] => mret (false, acc)
  | raw_tx :: batch' =>
      step ← schedule_tx ctx raw_tx acc;
      match step with
      | SchedDone => mret (true, acc)
      | SchedNext acc => schedule_batch ctx batch' acc
      end
  end.

(** The outer loop, which ends when the host has no more transactions. *)
Fixpoint schedule_loop (ctx : Ctx) (host : HostQueue) (requested : N) (batch : list bytes) (acc : Schedule)
    : M RuntimeError Schedule :=
  r ← schedule_batch ctx batch acc;
  let '(done, acc) := r in
  if (done : bool) then mret acc
  else if bool_decide (batch ≠ []) && (requested <=? N.of_nat (length batch))%N then
    match host with
    | inr (Some fetched) :: host' => schedule_loop ctx host' (batch_size (SCHEDULE_CONTROL R)) fetched acc
    | inl e :: _ => throw e
    | inr None :: _ | [] => mret acc
    end
  else mret acc.

Definition schedule_and_execute_batch (ctx : Ctx) (root : Store) (host : HostQueue) (batch : list bytes)
    : Outcome RuntimeError (ExecuteBatchResult * list bytes) * Store :=
  let start := {| sc_new_batch := []; sc_results := []; sc_rejected := [] |} in
  match execute_batch_common ctx root
          (acc ← schedule_loop ctx host (initial_batch_size (SCHEDULE_CONTROL R)) batch start;
           mret (sc_results acc, (sc_new_batch acc, sc_rejected acc))) with
  | (Ok (r, (new_batch, rejected)), root') =>
      (Ok ({| eb_results := eb_results r; eb_messages := eb_messages r; eb_block_tags := eb_block_tags r;
              eb_tx_reject_hashes := rejected |}, new_batch), root')
  | (Err e, root') => (Err e, root')
  | (Panic p, root') => (Panic p, root')
  end.

(** * Checks *)

Definition decode_check_tx (ctx : Ctx)
    (acc : list (RuntimeError + N * Transaction) * gset bytes) (tx : bytes)
    : M RuntimeError (list (RuntimeError + N * Transaction) * gset bytes) :=
  tx_size ← tx_size_of tx;
  decoded ← try_ (decode_transaction ctx tx);
  match decoded with
  | inl err => mret ((acc.1 ++ [inl (into_runtime_error err)])%list, acc.2)
  | inr tx =>
      if prefetch_enabled then
        match prefetch_tx acc.2 tx with
        | (inr _, prefixes) => mret ((acc.1 ++ [inr (tx_size, tx)])%list, prefixes)
        | (inl e, prefixes) => mret ((acc.1 ++ [inl e])%list, prefixes)
        end
      else mret ((acc.1 ++ [inr (tx_size, tx)])%list, acc.2)
  end.

Definition check_decoded (ctx : Ctx) (x : RuntimeError + N * Transaction) : M RuntimeError CheckTxResult :=
  match x with
  | inr (tx_size, tx) => map_err into_runtime_error (check_tx ctx tx_size tx)
  | inl err => mret {| ct_error := err; ct_meta := None |}
  end.

Definition check_batch_body (ctx : Ctx) (batch : list bytes) : M RuntimeError (list CheckTxResult) :=
  lift (migrate ctx) ;;
  decoded ← fold_m batch ([], ∅) (decode_check_tx ctx);
  (if prefetch_enabled then prefetch_prefixes decoded.2 else mret tt) ;;
  map_m (check_decoded ctx) decoded.1.

Definition check_batch (ctx : Ctx) (root : Store) (batch : list bytes)
    : Outcome RuntimeError (list CheckTxResult) * Store :=
  enter_opts (with_mode Check_ options_new) root (check_batch_body ctx batch).

(** * The query entry point *)

(** The key manager client with and without access to private keys, and the verification of the
    consensus state and of the runtime's readiness, which the node provides. *)
Record Node := {
  node_key_manager : option ((bytes → N → KeyManagerError + bytes) * (bytes → N → KeyManagerError + bytes));
  node_verify_for_query : RuntimeError + unit;
  node_ensure_initialized : RuntimeError + unit;
}.
Definition with_key_manager (km : option (bytes → N → KeyManagerError + bytes)) (ctx : Ctx) : Ctx :=
  {| ctx_local_config := ctx_local_config ctx; ctx_key_manager := km; ctx_round := ctx_round ctx;
     ctx_epoch := ctx_epoch ctx; ctx_good_compute_entities := ctx_good_compute_entities ctx;
     ctx_bad_compute_entities := ctx_bad_compute_entities ctx;
     ctx_messages := ctx_messages ctx; ctx_max_messages := ctx_max_messages ctx;
     ctx_now := ctx_now ctx |}.

Definition query (node : Node) (ctx : Ctx) (root : Store) (method : string) (args : bytes)
    : Outcome RuntimeError bytes * Store :=
  let is_confidential_allowed :=
    is_allowed_private_km_query mods method && rt_is_allowed_private_km_query R method in
  let run (km : option (bytes → N → KeyManagerError + bytes)) :=
    enter_opts {| o_mode := Some Check_; o_tx := None; o_internal := None;
                  o_rng_local_entropy := Some entropy |} root
      (dispatch_query_bytes (with_key_manager km ctx) method args) in
  if is_confidential_allowed then
    match node_verify_for_query node with
    | inl e => (Err e, root)
    | inr _ => match node_ensure_initialized node with
               | inl e => (Err e, root)
               | inr _ => run (fst <$> node_key_manager node)
               end
    end
  else run (snd <$> node_key_manager node).
End dispatcher.
