(* ===== verification/Dispatch.v ===== *)
(** What the dispatcher guarantees: transactions are atomic, checks and queries never panic and leave
    no trace, read-only calls modify nothing, batches and schedules are consistent, and every emitted
    message finds its handler in the next round (src/runtime-sdk/src/dispatcher.rs). *)
From S2P Require Import Prelude Storage StoreIter Types Fee Errors State Current Transactions Module.
From S2P Require Import CallFormat Core Dispatcher.

Lemma lift_ok `{Platform} {E A} (m : M Empty_set A) s a s' :
  m s = (Ok a, s') → lift (E := E) m s = (Ok a, s').
Proof. apply map_err_ok. Qed.

(** What a runtime promises to the dispatcher. *)
Class FramedRuntime `{Platform, !MKVSLaws} (R : Runtime) : Prop := {
  fr_modules :: FramedHandlers (rt_modules R);
  fr_init_or_migrate ctx v : framed (rt_init_or_migrate R ctx v);
  fr_migrate_state ctx : framed (rt_migrate_state R ctx);
}.
#[export] Hint Resolve fr_modules fr_init_or_migrate fr_migrate_state : framed.

Section framed_dispatcher.
Context `{Platform} `{!MKVSLaws} `{!TxCodec} `{!CallCrypto} `{!CoreCodec} `{!DispatchCodec}.
Context (R : Runtime) `{!FramedRuntime R} (entropy : bytes).

Lemma framed_migrate ctx : framed (migrate R ctx).
Proof. unfold migrate. solve_framed. Qed.
Lemma framed_dispatch_tx_call_ ctx call opts : framed (dispatch_tx_call_ R ctx call opts).
Proof. unfold dispatch_tx_call_. solve_framed. Qed.
Hint Resolve framed_migrate framed_dispatch_tx_call_ : framed.
Lemma framed_dispatch_tx_call ctx call opts : framed (dispatch_tx_call R ctx call opts).
Proof. unfold dispatch_tx_call. solve_framed. Qed.
Hint Resolve framed_dispatch_tx_call : framed.
Lemma framed_dispatch_in_tx ctx call opts : framed (dispatch_in_tx R ctx call opts).
Proof. unfold dispatch_in_tx. solve_framed. Qed.
Hint Resolve framed_dispatch_in_tx : framed.
Lemma framed_dispatch_tx_opts ctx tx opts : framed (dispatch_tx_opts R ctx tx opts).
Proof. unfold dispatch_tx_opts. solve_framed. Qed.
Hint Resolve framed_dispatch_tx_opts : framed.
Lemma framed_pre_schedule ctx tx opts : framed (pre_schedule R ctx tx opts).
Proof. unfold pre_schedule, commit_ok. solve_framed. Qed.
Lemma framed_query_in_tx ctx method args : framed (query_in_tx R ctx method args).
Proof. unfold query_in_tx, is_allowed_query. solve_framed. Qed.
End framed_dispatcher.
#[export] Hint Resolve framed_migrate framed_dispatch_tx_call framed_dispatch_in_tx framed_dispatch_tx_opts
  framed_pre_schedule framed_query_in_tx : framed.

(** * Transactions *)

Section transactions.
Context `{Platform} `{!MKVSLaws} `{!TxCodec} `{!CallCrypto} `{!CoreCodec} `{!DispatchCodec}.
Context (R : Runtime) `{!FramedRuntime R}.

(** The priority and the sender of a transaction are kept with their types. *)
Definition typed_values (s : State) : Prop :=
  (∃ o : option N, holds_value Block CONTEXT_KEY_PRIORITY s o) ∧
  (∃ o : option SenderMeta, holds_value Block CONTEXT_KEY_SENDER_META s o).

(** Only the block values differ. *)
Definition block_values_only (s s' : State) : Prop := ∃ bv, s' = set_block_values bv s.

Lemma value_take_block {E V} `{!AnyVal V} key s (o : option V) :
  holds_value Block key s o → ∃ s', value_take (E := E) (V := V) Block key s = (Ok o, s') ∧ block_values_only s s' ∧
    ∀ key', key' ≠ key → st_block_values s' !! key' = st_block_values s !! key'.
Proof.
  intros Ho. rewrite (value_take_run _ _ _ _ Ho). eexists. split; [done|]. destruct o; simpl.
  - split; [by eexists|]. intros key' Hne. by rewrite lookup_delete_ne.
  - split; [|done]. exists (st_block_values s). by destruct s.
Qed.

(** Loading the priority and the sender changes the block values only. *)
Lemma take_meta_run {E} s :
  typed_values s →
  ∃ p m s1 s2, take_priority (E := E) s = (Ok p, s1) ∧ take_sender_meta (E := E) s1 = (Ok m, s2) ∧
    block_values_only s s2.
Proof.
  intros [[o Ho] [o' Ho']].
  destruct (value_take_block (E := E) _ _ _ Ho) as (s1 & Hr1 & [bv Hb1] & Hk).
  assert (Ho1 : holds_value Block CONTEXT_KEY_SENDER_META s1 o').
  { unfold holds_value in *. simpl in *. by rewrite Hk. }
  destruct (value_take_block (E := E) _ _ _ Ho1) as (s2 & Hr2 & [bv' Hb2] & _).
  exists (default 0%N o), (default sender_meta_default o'), s1, s2.
  unfold take_priority, take_sender_meta. rewrite (bind_ok _ _ _ _ _ Hr1), (bind_ok _ _ _ _ _ Hr2).
  split; [done|]. split; [done|]. exists bv'. by subst.
Qed.

(** Whether the effects of a call are published. *)
Definition publishes (s : State) (call : Call) (res : CallResult) : bool :=
  is_success res && negb (call_read_only call) && negb (is_check_only (st_env s)).

(** The end of the closure: what it returns and leaves behind. *)
Lemma dispatch_in_tx_run ctx call opts s res md child :
  dispatch_tx_call R ctx call opts s = (Ok (res, md), child) → typed_values child →
  st_env child = st_env s →
  ∃ result child', dispatch_in_tx R ctx call opts s =
      (Ok (if publishes s call res then Commit result else Rollback result), child') ∧
    dr_result result = res ∧ dr_call_format_metadata result = md ∧
    dr_tags result = (if publishes s call res
                      then into_tags (merge_events (st_events child) (st_unconditional_events child))
                      else if is_success res && negb (call_read_only call) then []
                      else into_tags (st_unconditional_events child)) ∧
    (publishes s call res = true →
       st_store child' = st_store child ∧ st_messages child' = st_messages child ∧
       st_events child' = ∅ ∧ st_unconditional_events child' = ∅).
Proof.
  intros Hrun Hty Henv. unfold dispatch_in_tx, publishes. rewrite (bind_ok _ _ _ _ _ Hrun).
  destruct (is_success res), (call_read_only call); simpl;
    try (eexists _, _; split; [reflexivity|]; by repeat split).
  destruct (take_meta_run (E := Empty_set) child Hty) as (p & m & s1 & s2 & Hr1 & Hr2 & [bv ->]).
  rewrite (bind_ok _ _ _ _ _ Hr1), (bind_ok _ _ _ _ _ Hr2), with_env_bind. simpl. rewrite Henv.
  destruct (is_check_only (st_env s)); simpl; eexists _, _; (split; [reflexivity|]); by repeat split.
Qed.

Lemma tx_options_shape tx opts : discards (tx_options tx opts) = false ∧ hides (tx_options tx opts) = false.
Proof. done. Qed.

(** The authentication passed, or was skipped. *)
Definition authenticated ctx tx opts (s s1 : State) : Prop :=
  if do_skip_authentication opts then s1 = s else ∃ d, authenticate_tx (rt_modules R) ctx tx s = (Ok d, s1).

Lemma authenticated_ready ctx tx opts s s1 : ready s → authenticated ctx tx opts s s1 → ready s1.
Proof.
  unfold authenticated. intros Hs. destruct (do_skip_authentication opts); [by intros ->|]. intros [d Hd].
  pose proof (framed_authenticate_tx (h := rt_modules R) ctx tx s Hs) as Hf. rewrite Hd in Hf. apply Hf.
Qed.
Lemma dispatch_tx_opts_run ctx tx opts s s1 :
  authenticated ctx tx opts s s1 →
  dispatch_tx_opts R ctx tx opts s =
    (result ← lift (with_transaction_opts (tx_options tx opts) (dispatch_in_tx R ctx (tx_call tx) opts));
     lift (after_dispatch_tx (rt_modules R) ctx (tx_auth_info tx) (dr_result result)) ;;
     match dr_result result with CallAborted err => throw err | _ => mret result end) s1.
Proof.
  unfold authenticated, dispatch_tx_opts. destruct (do_skip_authentication opts); [by intros ->|].
  intros [d Hd]. by rewrite (bind_ok _ _ _ _ _ (try_ok _ _ _ _ Hd)).
Qed.
Lemma merge_events_empty es : merge_events es ∅ = es.
Proof. unfold merge_events, EventTags in *. apply (right_id_L ∅ (union_with _)). Qed.

(** The transaction of a query. *)
Lemma query_tx_run ctx method a s rg :
  ready s → st_rng s = Some rg →
  ∃ x child, with_transaction_opts options_new
      (r ← catch_unwind (try_ (E' := RuntimeError) (query_in_tx R ctx method a)); mret (Rollback r)) s =
    (Ok x, rolled_back options_new s child rg).
Proof.
  intros Hs Hr.
  set (f := (r ← catch_unwind (try_ (E' := RuntimeError) (query_in_tx R ctx method a)); mret (Rollback r)) :
    M RuntimeError (TransactionResult (string + (RuntimeError + Value)))).
  assert (Hf : framed f) by (unfold f; solve_framed).
  assert (Hrun : ∃ x child, f (opened options_new s rg) = (Ok (Rollback x), child)).
  { unfold f, catch_unwind, try_. run_simpl.
    destruct (query_in_tx R ctx method a (opened options_new s rg)) as [[v|e|p] child]; by eexists _, _. }
  destruct Hrun as (x & child & Hrun). exists x, child.
  by rewrite (with_transaction_run options_new f s rg _ child Hs Hr Hf Hrun).
Qed.

Lemma dispatch_query_run ctx method args s :
  ready s →
  ∃ r bv rng, dispatch_query_bytes R ctx method args s = (r, set_rng rng (set_block_values bv s)) ∧
    ∀ msg, r ≠ Panic msg.
Proof.
  intros Hs. unfold dispatch_query_bytes. destruct (args_from_slice args) as [a|]; cbn [ok_or].
  - rewrite ret_bind. destruct (ready_rng s Hs) as [rg Hr].
    destruct (query_tx_run ctx method a s rg Hs Hr) as (x & child & Htx). unfold with_transaction.
    rewrite (bind_ok _ _ _ _ _ Htx). destruct x as [p|[e|v]]; by eexists _, _, _.
  - exists (Err (into_runtime_error (InvalidArgument "decode"))), (st_block_values s), (st_rng s).
    split; [|done]. by destruct s.
Qed.
End transactions.

Module DispatchClaims.
Section claims.
Context `{Platform} `{!MKVSLaws} `{!TxCodec} `{!CallCrypto} `{!CoreCodec} `{!DispatchCodec}.
Context (R : Runtime) `{!FramedRuntime R}.

(** C1. A dispatched transaction is atomic.  Once authenticated, the call and its hooks run on a nested
    state; their outcome is handed to the after-dispatch hooks on a state that either has all of their
    effects (the contents of the store, the messages in order), when the call succeeded, was not
    read-only and this is not a check, or none of them (the store and the messages are those after the
    authentication).  The tags of the result are then all events, the unconditional events only, or
    none; an abort is propagated as an error; no event or local value leaks. *)
Theorem dispatch_is_atomic ctx tx opts s s1 r res md child :
  ready s → authenticated R ctx tx opts s s1 → st_rng s1 = Some r →
  dispatch_tx_call R ctx (tx_call tx) opts (opened (tx_options tx opts) s1 r) = (Ok (res, md), child) →
  typed_values child →
  ∃ result s2,
    dispatch_tx_opts R ctx tx opts s =
      (lift (after_dispatch_tx (rt_modules R) ctx (tx_auth_info tx) res) ;;
       match res with CallAborted err => throw err | _ => mret result end) s2 ∧
    dr_result result = res ∧ st_events s2 = st_events s1 ∧ st_local_values s2 = st_local_values s1 ∧
    if publishes s1 (tx_call tx) res then
      kv (st_store s2) = kv (st_store child) ∧ st_messages s2 = st_messages s1 ++ st_messages child ∧
      dr_tags result = into_tags (merge_events (st_events child) (st_unconditional_events child))
    else
      st_store s2 = st_store s1 ∧ st_messages s2 = st_messages s1 ∧
      dr_tags result = if is_success res && negb (call_read_only (tx_call tx)) then []
                       else into_tags (st_unconditional_events child).
Proof.
  intros Hs Hauth Hr Hrun Hty. pose proof (authenticated_ready R ctx tx opts s s1 Hs Hauth) as Hs1.
  set (o := tx_options tx opts) in *.
  pose proof (framed_dispatch_tx_call R ctx (tx_call tx) opts _ (opened_ready o s1 r Hs1)) as Hf.
  rewrite Hrun in Hf. simpl in Hf.
  destruct (dispatch_in_tx_run R ctx (tx_call tx) opts _ res md child Hrun Hty (fr_env _ _ Hf))
    as (result & child' & Hin & Hres & _ & Htags & Hpub).
  change (publishes (opened o s1 r) (tx_call tx) res) with (publishes s1 (tx_call tx) res) in *.
  pose proof (framed_dispatch_in_tx R ctx (tx_call tx) opts _ (opened_ready o s1 r Hs1)) as Hf'.
  rewrite Hin in Hf'. simpl in Hf'.
  pose proof (with_transaction_run (E := Empty_set) o _ s1 r _ child' Hs1 Hr
    (framed_dispatch_in_tx R ctx (tx_call tx) opts) Hin) as Htx.
  rewrite (dispatch_tx_opts_run R ctx tx opts s s1 Hauth). fold o.
  destruct (publishes s1 (tx_call tx) res); cbn [discards o tx_options with_tx options_new o_mode] in Htx;
    eexists result, _; rewrite (bind_ok _ _ _ _ _ (lift_ok (E := DispatcherError) _ _ _ _ Htx)), Hres;
    (split; [reflexivity|]; split; [done|]).
  - destruct (Hpub eq_refl) as (Hst & Hms & Hev & _).
    destruct (framed_child_store _ _ _ _ Hs1 Hf') as (st & cst & _ & Hcst & Hwf & _).
    simpl. rewrite Hms, Hev, merge_events_empty. do 2 (split; [done|]).
    split; [|done]. rewrite <-Hst, Hcst. simpl. by apply view_commit.
  - done.
Qed.

(** A read-only call that succeeds has modified nothing: the store reads as it did when the
    transaction was opened. *)
Theorem read_only_modifies_nothing ctx tx opts s r res md child :
  ready s → st_rng s = Some r → call_read_only (tx_call tx) = true →
  dispatch_tx_call R ctx (tx_call tx) opts (opened (tx_options tx opts) s r) = (Ok (res, md), child) →
  is_success res = true → kv (st_store child) = kv (st_store s).
Proof.
  intros Hs Hr Hro Hrun Hok. set (o := tx_options tx opts) in *.
  pose proof (framed_dispatch_tx_call R ctx (tx_call tx) opts _ (opened_ready o s r Hs)) as Hf.
  rewrite Hrun in Hf. simpl in Hf.
  destruct (framed_child_store _ _ _ _ Hs Hf) as (st & cst & Hst & Hcst & Hwf & Hwfs & Hb & _).
  assert (Hp : has_pending_store_updates child = false).
  { unfold dispatch_tx_call in Hrun. apply bind_ok_inv in Hrun as ([res' md'] & s1 & _ & Hrun).
    apply bind_ok_inv in Hrun as ([e|[]] & s2 & _ & Hrun).
    - injection Hrun as <- <- <-. by rewrite into_call_result_fails in Hok.
    - rewrite gets_bind, Hro in Hrun. destruct (has_pending_store_updates s2) eqn:Hp; simpl in Hrun.
      + injection Hrun as <- <- <-. by rewrite into_call_result_fails in Hok.
      + by injection Hrun as _ _ <-. }
  unfold has_pending_store_updates in Hp. rewrite Hcst in Hp. rewrite Hcst, Hst. simpl in *.
  by apply pending_free_view.
Qed.

(** The check of a transaction never panics, whatever the modules do. *)
Theorem check_tx_never_panics ctx tx_size tx s msg : (check_tx R ctx tx_size tx s).1 ≠ Panic msg.
Proof.
  unfold check_tx, catch_unwind. run_simpl.
  destruct (dispatch_tx R ctx tx_size tx usize_max s) as [[d|e|p] s']; [|done|done].
  by destruct (dr_result d).
Qed.

(** The check that precedes scheduling leaves no trace at all, the block values included: only
    the random number generator may have advanced. *)
Theorem pre_schedule_leaves_no_trace ctx tx opts s :
  ready s →
  ∃ r rng, with_transaction_opts (with_mode PreSchedule options_new) (pre_schedule R ctx tx opts) s =
    (r, set_rng rng s).
Proof.
  intros Hs. destruct (ready_rng s Hs) as [rg Hr]. set (o := with_mode PreSchedule options_new).
  destruct (pre_schedule R ctx tx opts (opened o s rg)) as [x child] eqn:Hrun.
  rewrite (with_transaction_run o _ s rg x child Hs Hr (framed_pre_schedule R ctx tx opts) Hrun).
  assert (Hback : rolled_back o s child rg = set_rng (closed_rng o s child rg) s) by (by destruct s).
  cbn [discards o with_mode o_mode]. rewrite Hback. destruct x as [[x|x]|e|p]; by eexists _, _.
Qed.
End claims.
End DispatchClaims.

(** * Scheduling *)

Section scheduling.
Context `{Platform} `{!MKVSLaws} `{!TxCodec} `{!CallCrypto} `{!CoreCodec} `{!DispatchCodec}.
Context (R : Runtime) (entropy : bytes).

(** A schedule that was built from the offered transactions, in their order. *)
Record scheduled (offered : list bytes) (acc : Schedule) : Prop := {
  sd_results : length (sc_results acc) = length (sc_new_batch acc);
  sd_count : (N.of_nat (length (sc_new_batch acc)) ≤ max_tx_count (SCHEDULE_CONTROL R))%N;
  sd_offered : sublist (sc_new_batch acc) offered;
}.

Lemma scheduled_skip offered acc l : scheduled offered acc → scheduled (offered ++ l) acc.
Proof. intros [? ? Hs]. split; [done..|]. by apply sublist_inserts_r. Qed.
Lemma scheduled_reject offered acc h : scheduled offered acc → scheduled offered (reject h acc).
Proof. by intros []. Qed.

Lemma schedule_tx_ok ctx raw_tx offered acc acc' s s' :
  scheduled offered acc → schedule_tx R entropy ctx raw_tx acc s = (Ok (SchedNext acc'), s') →
  scheduled (offered ++ [raw_tx]) acc'.
Proof.
  intros Hsd Hrun. unfold schedule_tx in Hrun. pose proof (scheduled_skip _ _ [raw_tx] Hsd) as Hskip.
  apply bind_ok_inv in Hrun as (gas & s1 & _ & Hrun).
  destruct (_ || _) eqn:Hstop in Hrun; [done|]. apply orb_false_iff in Hstop as [_ Hcount%N.leb_gt].
  apply bind_ok_inv in Hrun as ([e|tx] & s2 & _ & Hrun).
  { injection Hrun as <- <-. by apply scheduled_reject. }
  apply bind_ok_inv in Hrun as (size & s3 & _ & Hrun).
  destruct (_ <? _)%N in Hrun; [by injection Hrun as <- <-|]. rewrite gets_bind in Hrun.
  destruct (_ <? _)%N in Hrun; [by injection Hrun as <- <-|].
  apply bind_ok_inv in Hrun as ([skip rej] & s4 & _ & Hrun).
  set (acc1 := if rej then _ else acc) in Hrun.
  assert (Hacc1 : scheduled offered acc1) by (unfold acc1; destruct rej; [by apply scheduled_reject|done]).
  assert (Hlen : length (sc_new_batch acc1) = length (sc_new_batch acc)) by (by unfold acc1; destruct rej).
  destruct skip; [injection Hrun as <- <-; by apply scheduled_skip|].
  apply bind_ok_inv in Hrun as (r & s5 & _ & [= <- <-]). destruct Hacc1 as [Hr _ Hs]. split; simpl.
  - rewrite !length_app. simpl. lia.
  - rewrite length_app. simpl. lia.
  - by apply sublist_app.
Qed.

Lemma schedule_batch_ok ctx batch offered acc done acc' s s' :
  scheduled offered acc → schedule_batch R entropy ctx batch acc s = (Ok (done, acc'), s') →
  scheduled (offered ++ batch) acc'.
Proof.
  revert offered acc s. induction batch as [|raw_tx batch IH]; intros offered acc s Hsd; cbn [schedule_batch].
  - intros [= <- <- <-]. by apply scheduled_skip.
  - intros ([|acc1] & s1 & Hr1 & Hrun)%bind_ok_inv.
    + injection Hrun as <- <- <-. by apply scheduled_skip.
    + rewrite cons_middle, app_assoc. eapply IH; [by eapply schedule_tx_ok|done].
Qed.

(** The transactions that the host can deliver. *)
Definition queued (host : HostQueue) : list bytes :=
  host ≫= λ x, match x with inr (Some l) => l | _ => [] end.

Lemma schedule_loop_ok ctx host requested batch offered acc acc' s s' :
  scheduled offered acc → schedule_loop R entropy ctx host requested batch acc s = (Ok acc', s') →
  scheduled (offered ++ batch ++ queued host) acc'.
Proof.
  revert requested batch offered acc s. induction host as [|x host IH]; intros requested batch offered acc s Hsd;
    cbn [schedule_loop]; intros ([done acc1] & s1 & Hr1 & Hrun)%bind_ok_inv;
    apply (schedule_batch_ok _ _ _ _ _ _ _ _ Hsd) in Hr1; rewrite app_assoc;
    destruct done; try (injection Hrun as <- <-; by apply scheduled_skip);
    destruct (_ && _); try (injection Hrun as <- <-; by apply scheduled_skip).
  destruct x as [e|[fetched|]]; [done| |injection Hrun as <- <-; by apply scheduled_skip].
  apply (IH _ _ _ _ _ Hr1) in Hrun. exact Hrun.
Qed.

(** What a successful batch says about its parts. *)
Lemma enter_opts_ok {A} opts root (f : M RuntimeError A) a root' :
  enter_opts opts root f = (Ok a, root') → ∃ s s', f s = (Ok a, s').
Proof.
  unfold enter_opts. destruct (o_mode opts) as [m|]; [|done].
  destruct (init opts (root_state m root)) as [[[]|e|p] s1]; [|done..].
  destruct (f s1) as [o s2] eqn:Hf. destruct (st_store s2); [|done]. intros [= -> _]. by exists s1, s2.
Qed.
Lemma batch_body_ok {A} ctx (f : M RuntimeError (list ExecuteTxResult * A)) r a s s' :
  batch_body R ctx f s = (Ok (r, a), s') →
  ∃ s1 s2 results, f s1 = (Ok (results, a), s2) ∧ eb_results r = results.
Proof.
  unfold batch_body. intros ([] & s1 & _ & Hrun)%bind_ok_inv.
  apply bind_ok_inv in Hrun as ([] & s2 & _ & Hrun). apply bind_ok_inv in Hrun as ([] & s3 & _ & Hrun).
  apply bind_ok_inv in Hrun as ([results a'] & s4 & Hf & Hrun).
  apply bind_ok_inv in Hrun as ([] & s5 & _ & Hrun). apply bind_ok_inv in Hrun as (ms & s6 & _ & Hrun).
  apply bind_ok_inv in Hrun as (ev & s7 & _ & Hrun). apply bind_ok_inv in Hrun as ([] & s8 & _ & [= <- <- _]).
  by exists s3, s4, results.
Qed.

Lemma decode_batch_length ctx batch acc acc' s s' :
  fold_m batch acc (decode_batch_tx R ctx) s = (Ok acc', s') →
  length acc'.1 = (length acc.1 + length batch)%nat.
Proof.
  revert acc s. induction batch as [|tx batch IH]; intros acc s; cbn [fold_m].
  - intros [= <- _]. simpl. lia.
  - intros (acc1 & s1 & Hd & Hrun)%bind_ok_inv. apply IH in Hrun. rewrite Hrun.
    unfold decode_batch_tx in Hd. apply bind_ok_inv in Hd as (size & s2 & _ & Hd).
    apply bind_ok_inv in Hd as (t & s3 & _ & Hd).
    destruct prefetch_enabled; [destruct (prefetch_tx _ _ _) as [[e|[]] ps]; [done|]|];
      injection Hd as <- _; simpl; rewrite length_app; simpl; lia.
Qed.
Lemma execute_all_length ctx i txs rs s s' :
  execute_all R entropy ctx i txs s = (Ok rs, s') → length rs = length txs.
Proof.
  revert i rs s. induction txs as [|[[size hash] tx] txs IH]; intros i rs s; cbn [execute_all].
  - by intros [= <- _].
  - intros (r & s1 & _ & Hrun)%bind_ok_inv. apply bind_ok_inv in Hrun as (rs' & s2 & Hr & [= <- <-]).
    simpl. f_equal. by eapply IH.
Qed.
Lemma execute_batch_txs_length ctx batch rs s s' :
  execute_batch_txs R entropy ctx batch s = (Ok rs, s') → length rs = length batch.
Proof.
  unfold execute_batch_txs. intros (acc & s1 & Hd & Hrun)%bind_ok_inv.
  apply bind_ok_inv in Hrun as ([] & s2 & _ & Hrun). apply execute_all_length in Hrun. rewrite Hrun.
  by rewrite (decode_batch_length _ _ _ _ _ _ Hd).
Qed.
End scheduling.

Module ScheduleClaims.
Section claims.
Context `{Platform} `{!MKVSLaws} `{!TxCodec} `{!CallCrypto} `{!CoreCodec} `{!DispatchCodec}.
Context (R : Runtime) (entropy : bytes).

(** A scheduled block is consistent: it has one result per included transaction, it respects the
    runtime's limit on the number of transactions, and its transactions are taken, in order and without
    repetition of a position, from the input batch followed by what the host's queue delivers. *)
Theorem schedule_is_consistent ctx root host batch r new_batch root' :
  schedule_and_execute_batch R entropy ctx root host batch = (Ok (r, new_batch), root') →
  length (eb_results r) = length new_batch ∧
  (N.of_nat (length new_batch) ≤ max_tx_count (SCHEDULE_CONTROL R))%N ∧
  sublist new_batch (batch ++ queued host).
Proof.
  unfold schedule_and_execute_batch, execute_batch_common. intros Hrun.
  destruct (enter_opts _ _ _) as [[[r0 [nb rej]]|e|p] root0] eqn:He in Hrun; simplify_eq/=.
  apply enter_opts_ok in He as (s & s' & Hbody).
  destruct (batch_body_ok _ _ _ _ _ _ _ Hbody) as (s1 & s2 & results & Hf & Hres).
  apply bind_ok_inv in Hf as (acc & s3 & Hloop & [= <- <- <- <-]). rewrite Hres.
  apply (schedule_loop_ok R entropy ctx host _ batch [] _ acc s1 s3) in Hloop as [? ? ?]; [done|].
  split; simpl; [done|lia|apply sublist_nil_l].
Qed.

(** An executed batch has exactly one result per transaction. *)
Theorem batch_results_complete ctx root batch r root' :
  execute_batch R entropy ctx root batch = (Ok (r, tt), root') →
  length (eb_results r) = length batch.
Proof.
  unfold execute_batch, execute_batch_common. intros He.
  apply enter_opts_ok in He as (s & s' & Hbody).
  destruct (batch_body_ok _ _ _ _ _ _ _ Hbody) as (s1 & s2 & results & Hf & Hres).
  apply bind_ok_inv in Hf as (rs & s3 & Hrs & [= <- <-]). rewrite Hres.
  by eapply execute_batch_txs_length.
Qed.
End claims.
End ScheduleClaims.

(** * Consensus messages *)

Lemma imap_lookup_index {A} (l : list A) (f : nat → N) i :
  (∀ j j', j < length l → j' < length l → f j = f j' → j = j') → i < length l →
  (list_to_map (reverse (imap (λ idx h, (f idx, h)) l)) : gmap N A) !! f i = l !! i.
Proof.
  intros Hinj Hi. destruct (lookup_lt_is_Some_2 l i Hi) as [x Hx]. rewrite Hx.
  apply elem_of_list_to_map_1.
  - rewrite fmap_reverse, reverse_Permutation, fmap_imap. apply NoDup_alt. intros j j' y Hj Hj'.
    rewrite list_lookup_imap in Hj, Hj'.
    destruct (l !! j) as [a|] eqn:Ha, (l !! j') as [a'|] eqn:Ha'; simplify_eq/=.
    apply Hinj; [by eapply lookup_lt_Some|by eapply lookup_lt_Some|congruence].
  - rewrite elem_of_reverse. apply list_elem_of_lookup. exists i. by rewrite list_lookup_imap, Hx.
Qed.

Section messages.
Context `{Platform} `{!MKVSLaws} `{!CoreCodec} `{!DispatchCodec}.
Context (R : Runtime).

(** The index of a handler is its position. *)
Lemma indexed_handlers_lookup hs i :
  (N.of_nat (length hs) ≤ u32_max + 1)%N → i < length hs → indexed_handlers hs !! N.of_nat i = hs !! i.
Proof.
  intros Hlen Hi. unfold indexed_handlers.
  rewrite <-(imap_lookup_index hs (λ idx, (N.of_nat idx mod (u32_max + 1))%N) i); [|clear i Hi|done].
  - by rewrite N.mod_small by lia.
  - intros j j' Hj Hj'. rewrite !N.mod_small by lia. lia.
Qed.
Lemma indexed_handlers_dom hs k :
  (N.of_nat (length hs) ≤ u32_max + 1)%N → is_Some (indexed_handlers hs !! k) → (k < N.of_nat (length hs))%N.
Proof.
  intros Hlen [h Hh]. unfold indexed_handlers in Hh. apply elem_of_list_to_map_2 in Hh.
  rewrite elem_of_reverse in Hh. apply list_elem_of_lookup in Hh as [i Hi]. rewrite list_lookup_imap in Hi.
  destruct (hs !! i) as [h'|] eqn:Hl; simplify_eq/=. apply lookup_lt_Some in Hl.
  rewrite N.mod_small by lia. lia.
Qed.

(** The delivery of one event to the hook that was registered at its index. *)
Definition deliver (ctx : Ctx) (hs : list MessageEventHookInvocation) (e : MessageEvent)
    : M CoreError unit :=
  match hs !! N.to_nat (message_event_index e) with
  | None => throw (MessageHandlerMissing (message_event_index e))
  | Some h =>
      r ← lift (dispatch_message_result (rt_modules R) ctx (hook_name h)
                  {| mr_event := e; mr_context := hook_payload h |});
      match r with
      | Handled _ => mret tt
      | Unhandled _ => throw (InvalidMethod (hook_name h))
      end
  end.

(** Dispatching the events of a round, each with the handler of its index. *)
Lemma handle_messages_run ctx hs l handlers s :
  NoDup (message_event_index <$> l) →
  (∀ e, e ∈ l → handlers !! message_event_index e = hs !! N.to_nat (message_event_index e)) →
  fold_m l handlers (handle_message R ctx) s =
    (for_each l (deliver ctx hs) ;;
     mret (foldr (λ e m, delete (message_event_index e) m) handlers l)) s.
Proof.
  revert handlers s. induction l as [|e l IH]; intros handlers s Hnd Hin; [done|].
  rewrite fmap_cons in Hnd. apply NoDup_cons in Hnd as [Hni Hnd].
  assert (Hm : handle_message R ctx handlers e s =
            (deliver ctx hs e ;; mret (delete (message_event_index e) handlers)) s).
  { unfold handle_message, deliver. cbv zeta. rewrite (Hin e ltac:(left)). destruct (hs !! _) as [h|]; [|done].
    cbn [ok_or]. rewrite ret_bind. unfold mbind, ST_bind.
    destruct (lift _ s) as [[[u|b]|err|msg] s1]; done. }
  cbn [fold_m for_each]. unfold mbind, ST_bind at 1. rewrite Hm. unfold mbind, ST_bind.
  destruct (deliver ctx hs e s) as [[[]|err|msg] s1]; [|done|done]. cbn [mret ST_ret].
  change (fold_m l (delete (message_event_index e) handlers) (handle_message R ctx) s1 =
    (for_each l (deliver ctx hs) ;;
     mret (foldr (λ e m, delete (message_event_index e) m) handlers (e :: l))) s1).
  assert (Hf : ∀ k, foldr (λ e m, delete (message_event_index e) m) (delete k handlers) l =
    delete k (foldr (λ e m, delete (message_event_index e) m) handlers l)).
  { intros k. clear. induction l as [|e' l IHl]; simpl; [done|]. by rewrite IHl, delete_delete. }
  rewrite IH; [|done|].
  - cbn [foldr]. by rewrite Hf.
  - intros e' He'. rewrite lookup_delete_ne; [apply Hin; by right|]. intros Heq. apply Hni.
    rewrite Heq. by apply list_elem_of_fmap_2.
Qed.

Lemma foldr_delete_lookup (l : list MessageEvent) (m : gmap N MessageEventHookInvocation) k :
  k ∈ message_event_index <$> l → foldr (λ e m, delete (message_event_index e) m) m l !! k = None.
Proof.
  induction l as [|e l IH]; simpl; [by intros ?%not_elem_of_nil|]. intros [->|Hk]%elem_of_cons.
  - apply lookup_delete_eq.
  - apply lookup_delete_None. right. by apply IH.
Qed.
Lemma foldr_delete_None (l : list MessageEvent) (m : gmap N MessageEventHookInvocation) k :
  m !! k = None → foldr (λ e m, delete (message_event_index e) m) m l !! k = None.
Proof. intros Hk. induction l as [|e l IH]; simpl; [done|]. apply lookup_delete_None. by right. Qed.
End messages.

Module MessageClaims.
Section claims.
Context `{Platform} `{!MKVSLaws} `{!CoreCodec} `{!DispatchCodec}.
Context `{!CborLaws (gmap N MessageEventHookInvocation)}.
Context (R : Runtime).

(** C40. Every emitted message finds its handler in the next round: when the handlers of the messages
    emitted in a round have been saved and the consensus layer reports one result per message, in any
    order, handling the results is exactly the delivery of each result, in the order reported, to the
    hook that was registered with its message, with the payload it was registered with. No handler is
    ever missing and none is left uninvoked; the only failures are those of the hooks' own methods. *)
Theorem messages_are_delivered ctx hs s :
  ready s → (N.of_nat (length hs) ≤ u32_max + 1)%N → encodable (indexed_handlers hs) →
  (message_event_index <$> ctx_messages ctx) ≡ₚ N.of_nat <$> seq 0 (length hs) →
  ∃ s1, save_emitted_message_handlers (E := CoreError) hs s = (Ok tt, s1) ∧
    handle_last_round_messages R ctx s1 = for_each (ctx_messages ctx) (deliver R ctx hs) s1 ∧
    Forall (λ e, is_Some (hs !! N.to_nat (message_event_index e))) (ctx_messages ctx).
Proof.
  intros Hs Hlen Henc Hperm.
  destruct (stored_typed_insert (E := CoreError) (T' := gmap N MessageEventHookInvocation) s core_store
    CORE_MESSAGE_HANDLERS (indexed_handlers hs) Hs Henc) as (st1 & Hsave & Hst & _).
  set (s1 := set_store (Some st1) s) in *. exists s1. split; [done|]. unfold handle_last_round_messages.
  rewrite (bind_ok _ _ _ _ _ (typed_get_run (E := CoreError) _ _ _ _ Hst)). cbn [default].
  assert (Hidx : ∀ k, k ∈ message_event_index <$> ctx_messages ctx ↔ (k < N.of_nat (length hs))%N).
  { intros k. rewrite Hperm, list_elem_of_fmap. setoid_rewrite elem_of_seq. split.
    - intros (i & -> & ?). lia.
    - intros Hk. exists (N.to_nat k). lia. }
  split.
  - unfold mbind, ST_bind at 1. rewrite (handle_messages_run R ctx hs); [| |].
    + unfold mbind, ST_bind. destruct (for_each _ _ _) as [[[]|err|msg] s2]; [|done|done].
      cbn [mret ST_ret]. rewrite bool_decide_eq_true_2; [done|].
      apply dom_empty_iff_L, map_empty. intros k.
      destruct (decide (k < N.of_nat (length hs))%N) as [Hk|Hk].
      * by apply foldr_delete_lookup, Hidx.
      * apply foldr_delete_None, eq_None_not_Some. by intros ?%indexed_handlers_dom.
    + rewrite Hperm. apply NoDup_fmap_2; [apply _|apply NoDup_seq].
    + intros e He. apply (list_elem_of_fmap_2 message_event_index), Hidx in He.
      rewrite <-(N2Nat.id (message_event_index e)) at 1. apply indexed_handlers_lookup; lia.
  - apply Forall_forall. intros e He. apply (list_elem_of_fmap_2 message_event_index), Hidx in He.
    apply lookup_lt_is_Some. lia.
Qed.
End claims.
End MessageClaims.

(** * Queries *)

Section root.
Context `{Platform} `{!MKVSLaws}.

Lemma commit_new_overlay root : commit (new_overlay root) = root.
Proof. simpl. unfold commit_overlay, btree_iter. rewrite map_to_list_empty. simpl. by rewrite elements_empty. Qed.

(** The root state of a query. *)
Lemma enter_check_ok {E A} entropy root (f : M E A) :
  store_wf root →
  ∃ s, ready s ∧ st_store s = Some (new_overlay root) ∧
    enter_opts {| o_mode := Some Check_; o_tx := None; o_internal := None; o_rng_local_entropy := Some entropy |}
      root f =
    match f s with
    | (r, s') => match st_store s' with
                 | Some st => (r, commit st)
                 | None => (Panic "must not have open child states after exiting root state", root)
                 end
    end.
Proof.
  intros Hwf. unfold enter_opts. cbn [o_mode].
  destruct (init _ (root_state Check_ root)) as [o s] eqn:Hi. exists s. vm_compute in Hi.
  injection Hi as <- <-. split; [|by split].
  split; [by eexists|]. eexists. split; [done|]. split; [by apply new_overlay_wf|by eexists].
Qed.
End root.

Module QueryClaims.
Section claims.
Context `{Platform} `{!MKVSLaws} `{!TxCodec} `{!CallCrypto} `{!CoreCodec} `{!DispatchCodec}.
Context (R : Runtime) `{!FramedRuntime R} (entropy : bytes).

(** A query to the runtime never panics and leaves the root store exactly as it was, whatever the
    modules, the migration and the key manager do. *)
Theorem query_preserves_root node ctx root method args :
  store_wf root →
  ∃ r, query R entropy node ctx root method args = (r, root) ∧ ∀ msg, r ≠ Panic msg.
Proof.
  intros Hwf.
  assert (Hrun : ∀ ctx, ∃ r, enter_opts {| o_mode := Some Check_; o_tx := None; o_internal := None;
      o_rng_local_entropy := Some entropy |} root (dispatch_query_bytes R ctx method args) = (r, root) ∧
      ∀ msg, r ≠ Panic msg).
  { intros c. destruct (enter_check_ok entropy root (dispatch_query_bytes R c method args) Hwf)
      as (s & Hs & Hst & ->).
    destruct (dispatch_query_run R c method args s Hs) as (r & bv & rng & -> & Hr).
    exists r. cbn. rewrite Hst, commit_new_overlay. done. }
  unfold query. destruct (_ && _); [|apply Hrun].
  destruct (node_verify_for_query node) as [e|]; [by exists (Err e)|].
  destruct (node_ensure_initialized node) as [e|]; [by exists (Err e)|]. apply Hrun.
Qed.
End claims.
End QueryClaims.
