(* ===== verification/Subcall.v ===== *)
(** Subcalls: calls that a module makes into the runtime on behalf of an address, inside of a transaction
    of their own, with a limit on gas and on depth and with validators that also apply to the subcalls
    below (src/runtime-sdk/src/subcall.rs). *)
From S2P Require Import Prelude Storage StoreIter Types Fee Errors State Current Transactions Module.
From S2P Require Import CallFormat Core Gas Dispatcher Dispatch.



Section subcall.
Context `{Platform}.

Record SubcallInfo := {
  sub_caller : CallerAddress;
  sub_method : string;
  sub_body : Value;
  sub_max_depth : N;
  sub_max_gas : N;
  sub_read_only : bool;
}.
Record SubcallResult := { sr_call_result : CallResult; sr_gas_used : N }.

Definition Validator := SubcallInfo → CoreError + unit.
Definition allow_all : Validator := λ _, inr tt.

(** The stack of the validators of the subcalls that are running.  It is local to a thread and an entry is
    popped when its subcall is left in any way, so it is an argument of what runs below. *)
Definition SubcallStack := list Validator.
Definition depth (stack : SubcallStack) : N := (N.of_nat (List.length stack) mod (u16_max + 1))%N.
Fixpoint run_validators (stack : SubcallStack) (info : SubcallInfo) : CoreError + unit :=
  match stack with
  | [] => inr tt
  | validator :: stack' =>
      match validator info with inl e => inl e | inr _ => run_validators stack' info end
  end.
Definition push (stack : SubcallStack) (validator : Validator) : SubcallStack := stack ++ [validator].

Context `{!TxCodec} `{!CallCrypto} `{!CoreCodec} `{!DispatchCodec}.

(** A runtime, seen from below a stack of subcalls. *)
Variable R : SubcallStack → Runtime.

(** The internal transaction of a subcall: the call is made on behalf of the caller, its fee limits gas. *)
Definition subcall_tx (info : SubcallInfo) (consensus_messages : N) : Transaction := {|
  tx_version := LATEST_TRANSACTION_VERSION;
  tx_call := {| call_format := Plain; call_method := sub_method info; call_body := sub_body info;
                call_read_only := sub_read_only info |};
  tx_auth_info := {|
    signer_info := [{| si_address_spec := AddrInternal (sub_caller info); si_nonce := 0 |}];
    ai_fee := {| fee_amount := BaseUnits_new 0 NATIVE; fee_gas := sub_max_gas info;
                 fee_consensus_messages := consensus_messages; fee_proxy := None |};
    not_before := None;
    not_after := None;
  |};
|}.
(** [TransactionWithMeta::internal]. *)
Definition twm_internal (tx : Transaction) : TransactionWithMeta :=
  {| twm_data := tx; twm_size := 0; twm_index := 0; twm_hash := hash_default |}.
Definition subcall_options (tx : Transaction) : Options := with_tx (twm_internal tx) (with_internal true options_new).
Definition dispatch_options_default : DispatchOptions :=
  {| do_tx_size := 0; do_tx_index := 0; do_tx_hash := hash_default; do_method_authorizer := None;
     do_skip_authentication := false |}.

(** The closure that runs in the child context. *)
Definition subcall_body (rt : Runtime) (ctx : Ctx) (call : Call) : M Empty_set (TransactionResult (CallResult * N)) :=
  r ← dispatch_tx_call rt ctx call dispatch_options_default;
  let '(result, _) := r in
  gas ← remaining_tx_gas;
  mret (if is_success result then Commit (result, gas) else Rollback (result, gas)).

(** [subcall::call]. *)
Definition subcall (stack : SubcallStack) (ctx : Ctx) (info : SubcallInfo) (validator : Validator)
    : M CoreError SubcallResult :=
  match validator info with
  | inl e => throw e
  | inr _ =>
      if (sub_max_depth info <=? depth stack)%N
      then throw (CallDepthExceeded (wrapping_add u16_max (depth stack) 1) (sub_max_depth info))
      else
        match run_validators stack info with
        | inl e => throw e
        | inr _ =>
            consensus_messages ← gets (emitted_messages_max (ctx_max_messages ctx));
            let tx := subcall_tx info consensus_messages in
            r ← lift (with_transaction_opts (subcall_options tx)
                        (subcall_body (R (push stack validator)) ctx (tx_call tx)));
            mret {| sr_call_result := r.1; sr_gas_used := saturating_sub (sub_max_gas info) r.2 |}
        end
  end.
End subcall.

(** * Properties *)

Section properties.
Context `{Platform} `{!MKVSLaws} `{!TxCodec} `{!CallCrypto} `{!CoreCodec} `{!DispatchCodec}.
Context (R : SubcallStack → Runtime) `{!∀ stack, FramedRuntime (R stack)}.

Lemma framed_subcall_body rt `{!FramedRuntime rt} ctx call : framed (subcall_body rt ctx call).
Proof. unfold subcall_body. solve_framed. Qed.
Lemma framed_subcall stack ctx info validator : framed (subcall R stack ctx info validator).
Proof.
  assert (∀ st call, framed (subcall_body (R st) ctx call)) by (intros; by apply framed_subcall_body).
  unfold subcall. solve_framed.
Qed.

(** The validators of a stack agree. *)
Lemma run_validators_all (stack : SubcallStack) info :
  run_validators stack info = inr tt ↔ ∀ v, v ∈ stack → v info = inr tt.
Proof.
  induction stack as [|v stack IH]; simpl.
  - split; [by intros _ v ?%not_elem_of_nil|done].
  - destruct (v info) as [e|[]] eqn:Hv; split.
    + done.
    + intros Hall. by rewrite (Hall v ltac:(left)) in Hv.
    + intros Hr v' [->|Hv']%elem_of_cons; [done|by apply IH].
    + intros Hall. apply IH. intros v' Hv'. apply Hall. by right.
Qed.

(** What a subcall needs in order to be made. *)
Definition admitted (stack : SubcallStack) (info : SubcallInfo) (validator : Validator) : Prop :=
  (∀ v, v ∈ validator :: stack → v info = inr tt) ∧ (N.of_nat (length stack) < sub_max_depth info)%N.

Lemma subcall_refused stack ctx info validator s :
  (N.of_nat (length stack) ≤ u16_max)%N → ¬ admitted stack info validator →
  ∃ e, subcall R stack ctx info validator s = (Err e, s).
Proof.
  intros Hlen Hno. unfold subcall, depth. rewrite N.mod_small by lia.
  destruct (validator info) as [e|[]] eqn:Hv; [by exists e|].
  destruct (N.leb_spec (sub_max_depth info) (N.of_nat (length stack))) as [|Hlt]; [by eexists|].
  destruct (run_validators stack info) as [e|[]] eqn:Hr; [by exists e|]. exfalso. apply Hno. split; [|done].
  intros v [->|Hin]%elem_of_cons; [done|]. by apply (proj1 (run_validators_all stack info)).
Qed.
Lemma subcall_admitted stack ctx info validator s :
  (N.of_nat (length stack) ≤ u16_max)%N → admitted stack info validator →
  let tx := subcall_tx info (emitted_messages_max (ctx_max_messages ctx) s) in
  subcall R stack ctx info validator s =
    (r ← lift (with_transaction_opts (subcall_options tx) (subcall_body (R (push stack validator)) ctx (tx_call tx)));
     mret {| sr_call_result := r.1; sr_gas_used := saturating_sub (sub_max_gas info) r.2 |}) s.
Proof.
  intros Hlen [Hall Hd] tx. unfold subcall, depth. rewrite N.mod_small by lia.
  rewrite (Hall validator ltac:(left)). destruct (N.leb_spec (sub_max_depth info) (N.of_nat (length stack))); [lia|].
  rewrite (proj2 (run_validators_all stack info)) by (intros; apply Hall; by right). by rewrite gets_bind.
Qed.

(** What the closure returns says whether it is committed. *)
Lemma subcall_body_ok rt ctx call s t s' :
  subcall_body rt ctx call s = (Ok t, s') →
  ∃ result gas, t = if is_success result then Commit (result, gas) else Rollback (result, gas).
Proof.
  unfold subcall_body. intros ([result md] & s1 & _ & Hrun)%bind_ok_inv.
  apply bind_ok_inv in Hrun as (gas & s2 & _ & Hrun). injection Hrun as <- _. by exists result, gas.
Qed.

(** Nothing but the generator. *)
Definition rng_only (s s' : State) : Prop := ∃ rng, s' = set_rng rng s.
End properties.
#[export] Hint Resolve framed_subcall : framed.

Module SubcallClaims.
Section claims.
Context `{Platform} `{!MKVSLaws} `{!TxCodec} `{!CallCrypto} `{!CoreCodec} `{!DispatchCodec}.
Context (R : SubcallStack → Runtime) `{!∀ stack, FramedRuntime (R stack)}.

(** C33. A subcall is refused, without any effect, exactly when its own validator or one of the subcalls above
    it objects, or when the stack has reached the maximum depth; what runs below has all these validators
    on its stack, which never grows above the maximum depth.  A subcall that is made reports at most the
    gas it was given, and leaves environment, local and block values and parents of the caller alone; if it
    succeeds, the store of its child and its messages are published, otherwise no effect is left but on
    the generator. *)
Theorem subcall_is_isolated stack ctx info validator s :
  ready s → (N.of_nat (length stack) ≤ u16_max)%N →
  let r := subcall R stack ctx info validator s in
  (¬ admitted stack info validator → r.2 = s ∧ ∃ e, r.1 = Err e) ∧
  (admitted stack info validator →
     (N.of_nat (length (push stack validator)) ≤ sub_max_depth info)%N ∧
     match r.1 with
     | Err _ => False
     | Panic _ => rng_only s r.2
     | Ok res =>
         (sr_gas_used res ≤ sub_max_gas info)%N ∧
         if is_success (sr_call_result res) then
           ∃ s0 child result, subcall_body (R (push stack validator)) ctx
               (tx_call (subcall_tx info (emitted_messages_max (ctx_max_messages ctx) s))) s0
               = (Ok (Commit result), child) ∧
             kv (st_store s0) = kv (st_store s) ∧ kv (st_store r.2) = kv (st_store child) ∧
             st_messages r.2 = st_messages s ++ st_messages child ∧
             st_env r.2 = st_env s ∧ st_local_values r.2 = st_local_values s ∧
             st_block_values r.2 = st_block_values s ∧ st_parent r.2 = st_parent s
         else rng_only s r.2
     end).
Proof.
  intros Hs Hlen r. split; [intros Hno|intros Had].
  { destruct (subcall_refused R stack ctx info validator s Hlen Hno) as (e & He). unfold r. rewrite He. by split; [|exists e]. }
  split; [unfold push; rewrite length_app, Nat2N.inj_add; destruct Had as [_ Hd]; simpl; lia|].
  unfold r. rewrite (subcall_admitted R) by done. set (tx := subcall_tx _ _). clear r.
  destruct (ready_rng s Hs) as [rg Hr]. set (f := subcall_body _ ctx (tx_call tx)).
  assert (Hf : framed f) by (by apply framed_subcall_body).
  destruct (f (opened (subcall_options tx) s rg)) as [o child] eqn:Hrun.
  pose proof (with_transaction_run _ _ _ _ _ _ Hs Hr Hf Hrun) as Htx.
  assert (Hrb : rng_only s (rolled_back (subcall_options tx) s child rg)).
  { eexists. unfold rolled_back, closed_block_values. simpl. by destruct s. }
  destruct o as [t|[]|p]; [|by unfold mbind, ST_bind, lift, map_err; rewrite Htx].
  destruct (subcall_body_ok _ _ _ _ _ _ Hrun) as (result & gas & ->).
  destruct (is_success result) eqn:Hok; cbn in Htx; rewrite (bind_ok _ _ _ _ _ (lift_ok _ _ _ _ Htx));
    cbn [mret ST_ret fst snd sr_call_result sr_gas_used]; rewrite Hok; (split; [unfold saturating_sub; lia|]); [|done].
  exists (opened (subcall_options tx) s rg), child, (result, gas). split; [exact Hrun|].
  split; [by apply kv_opened|]. pose proof (Hf _ (opened_ready (subcall_options tx) s rg Hs)) as Hfr. rewrite Hrun in Hfr. cbn [snd] in Hfr.
  destruct (framed_child_store _ _ _ _ Hs Hfr) as (st & cst & Hst & Hcst & Hwf & _).
  split; [simpl; rewrite Hcst; by apply view_commit|]. done.
Qed.
End claims.
End SubcallClaims.
