(* ===== verification/Estimate.v ===== *)
(** The queries and internal calls of the core module that run other transactions or read the key manager:
    gas estimation by simulation and binary search, read-only transactions, the calldata key
    (src/runtime-sdk/src/modules/core/mod.rs, core/types.rs). *)
From S2P Require Import Prelude Storage StoreIter Types Fee Errors State Current Transactions Module Tables CallFormat Core.
From S2P Require Import Gas Dispatcher Dispatch Subcall.

Section types.
Context `{Platform}.
Record EstimateGasQuery := {
  eg_caller : option CallerAddress;
  eg_tx : Transaction;
  eg_propagate_failures : bool;
}.
Record ExecuteReadOnlyTxQuery := { er_tx : bytes }.
End types.

(** [TxSimulationFailure::is_error_core_out_of_gas]. *)
Definition is_error_core_out_of_gas (f : TxSimulationFailure) : bool :=
  bool_decide (tsf_module_name f = CORE_MODULE_NAME) && (tsf_code f =? 12)%N.
Definition is_out_of_gas (e : CoreError) : bool :=
  match e with TxSimulationFailed failure => is_error_core_out_of_gas failure | _ => false end.

(** * The search for a gas limit *)

Record GasSearch := {
  gs_lo : N;
  gs_hi : N;
  fast_path_tried : bool;
  has_succeeded : bool;
  tried_with_max_gas : bool;
}.
Definition set_lo (lo : N) (st : GasSearch) : GasSearch :=
  {| gs_lo := lo; gs_hi := gs_hi st; fast_path_tried := fast_path_tried st; has_succeeded := has_succeeded st;
     tried_with_max_gas := tried_with_max_gas st |}.
Definition set_hi (hi : N) (st : GasSearch) : GasSearch :=
  {| gs_lo := gs_lo st; gs_hi := hi; fast_path_tried := fast_path_tried st; has_succeeded := has_succeeded st;
     tried_with_max_gas := tried_with_max_gas st |}.
Definition set_fast (st : GasSearch) : GasSearch :=
  {| gs_lo := gs_lo st; gs_hi := gs_hi st; fast_path_tried := true; has_succeeded := has_succeeded st;
     tried_with_max_gas := tried_with_max_gas st |}.
Definition set_succeeded (st : GasSearch) : GasSearch :=
  {| gs_lo := gs_lo st; gs_hi := gs_hi st; fast_path_tried := fast_path_tried st; has_succeeded := true;
     tried_with_max_gas := tried_with_max_gas st |}.
Definition set_tried (st : GasSearch) : GasSearch :=
  {| gs_lo := gs_lo st; gs_hi := gs_hi st; fast_path_tried := fast_path_tried st; has_succeeded := has_succeeded st;
     tried_with_max_gas := true |}.
Definition gas_search_init (cap : N) : GasSearch :=
  {| gs_lo := 10; gs_hi := cap; fast_path_tried := false; has_succeeded := false; tried_with_max_gas := false |}.

Section search.
Context `{Platform}.
(** [simulate(&args.tx, gas, report_failure)] *)
Variable simulate : N → bool → M CoreError N.
Variables (cap : N) (propagate_failures : bool).

(** After a success with the limit [mid], which used [r]: try [r] itself, once. *)
Definition search_success (mid r : N) (st : GasSearch) : M CoreError (bool * GasSearch) :=
  let st := set_succeeded (set_hi mid st) in
  if negb (fast_path_tried st) && (gs_lo st + 1 <? gs_hi st)%N then
    let st := set_fast st in
    r1 ← try_ (simulate r true);
    match r1 with
    | inl _ => mret (true, st)
    | inr _ =>
        let st := set_hi r st in
        r2 ← try_ (simulate (wrapping_sub u64_max r 1) true);
        match r2 with inl _ => mret (false, st) | inr _ => mret (true, st) end
    end
  else mret (true, st).

(** After a failure that need not be due to the limit: try the maximum, once. *)
Definition search_failure (mid : N) (e : CoreError) (st : GasSearch) : M CoreError (bool * GasSearch) :=
  if has_succeeded st || is_out_of_gas e then mret (true, set_lo mid st)
  else
    res ← (if tried_with_max_gas st then mret (inl e) else try_ (simulate cap true));
    let st := set_tried st in
    match res with
    | inr _ => mret (true, set_lo mid (set_succeeded st))
    | inl e => if propagate_failures then throw e else mret (false, st)
    end.

(** An iteration; the flag says whether to go on. *)
Definition search_step (st : GasSearch) : M CoreError (bool * GasSearch) :=
  let mid := ((gs_hi st + gs_lo st) / 2)%N in
  r ← try_ (simulate (mid mod (u64_max + 1)) true);
  match r with
  | inr r => search_success mid r st
  | inl e => search_failure mid e st
  end.

(** At most [iters] iterations. *)
Fixpoint gas_search (iters : nat) (st : GasSearch) : M CoreError GasSearch :=
  match iters with
  | O => mret st
  | S iters' =>
      if (gs_lo st + 1 <? gs_hi st)%N then
        r ← search_step st;
        let '(continue, st) := r in
        if (continue : bool) then gas_search iters' st else mret st
      else mret st
  end.

Definition estimate_with (bs_max_iters extra_gas : N) : M CoreError N :=
  st ← gas_search (N.to_nat bs_max_iters) (gas_search_init cap);
  est ← (if (gs_hi st =? cap)%N then simulate cap propagate_failures
         else mret (gs_hi st mod (u64_max + 1))%N);
  mret (N.min (saturating_add u64_max est extra_gas) cap).
End search.

(** * Gas estimation *)

Section estimate.
Context `{Platform} `{!TxCodec} `{!CallCrypto} `{!CoreCodec} `{!CoreConfig} `{!DispatchCodec}.
Variable R : Runtime.
(** [cbor::to_vec] of an unverified transaction. *)
Variable utx_to_vec : UnverifiedTransaction → bytes.

Definition estimate_gas_search_max_iters {E} (ctx : Ctx) : M E N :=
  cfg ← local_config (T := LocalConfig) ctx CORE_MODULE_NAME;
  mret (from_option lc_estimate_gas_search_max_iters DEFAULT_LOCAL_ESTIMATE_GAS_SEARCH_MAX_ITERS cfg).
Definition get_local_max_estimated_gas {E} (ctx : Ctx) : M E N :=
  cfg ← local_config (T := LocalConfig) ctx CORE_MODULE_NAME;
  mret (from_option lc_max_estimated_gas 0%N cfg).

Definition set_fee (fee : Fee) (tx : Transaction) : Transaction :=
  {| tx_version := tx_version tx; tx_call := tx_call tx;
     tx_auth_info := {| signer_info := signer_info (tx_auth_info tx); ai_fee := fee;
                        not_before := not_before (tx_auth_info tx); not_after := not_after (tx_auth_info tx) |} |}.
Definition set_signer_info (si : list SignerInfo) (tx : Transaction) : Transaction :=
  {| tx_version := tx_version tx; tx_call := tx_call tx;
     tx_auth_info := {| signer_info := si; ai_fee := ai_fee (tx_auth_info tx);
                        not_before := not_before (tx_auth_info tx); not_after := not_after (tx_auth_info tx) |} |}.
Definition set_gas (gas : N) (tx : Transaction) : Transaction :=
  let fee := ai_fee (tx_auth_info tx) in
  set_fee {| fee_amount := fee_amount fee; fee_gas := gas; fee_consensus_messages := fee_consensus_messages fee;
             fee_proxy := fee_proxy fee |} tx.

(** In a confidential runtime the caller cannot be authenticated and is zeroized. *)
Definition estimate_caller (ctx : Ctx) (args : EstimateGasQuery) : EstimateGasQuery :=
  if is_confidential ctx then
    {| eg_caller :=
         Some (zeroized (default (match signer_info (tx_auth_info (eg_tx args)) with
                                  | si :: _ => spec_caller_address (si_address_spec si)
                                  | [] => CallerAddr address_default
                                  end) (eg_caller args)));
       eg_tx := eg_tx args;
       eg_propagate_failures := false |}
  else args.

(** The proofs that the signers would add, with signatures of 64 bytes. *)
Definition dummy_signature : Signature := replicate 64 x00.
Definition dummy_proof (si : SignerInfo) : CoreError + AuthProof :=
  match si_address_spec si with
  | AddrSignature _ => inr (ProofSignature dummy_signature)
  | AddrMultisig cfg => inr (ProofMultisig ((λ _, Some dummy_signature) <$> ms_signers cfg))
  | AddrInternal _ => inl (MalformedTransaction "internal address spec used")
  end.
Fixpoint dummy_proofs (l : list SignerInfo) : CoreError + list AuthProof :=
  match l with
  | [] => inr []
  | si :: l' =>
      match dummy_proof si with
      | inl e => inl e
      | inr p => match dummy_proofs l' with inl e => inl e | inr ps => inr (p :: ps) end
      end
  end.

(** What is simulated, after all of the query's arguments have been processed. *)
Record Estimation := {
  es_tx : Transaction;
  es_size : N;
  es_cap : N;
  es_max_iters : N;
  es_propagate_failures : bool;
  es_extra_gas : N;
  es_extra_gas_fail : N;
}.

Definition estimation_cap {E} (ctx : Ctx) : M E N :=
  local_max_estimated_gas ← get_local_max_estimated_gas ctx;
  if (local_max_estimated_gas =? 0)%N then p ← core_params; mret (max_batch_gas_param p)
  else mret local_max_estimated_gas.

Definition from_sum {A} (x : CoreError + A) : M CoreError A :=
  match x with inl e => throw e | inr a => mret a end.

Definition prepare_estimate (ctx : Ctx) (args : EstimateGasQuery) : M CoreError Estimation :=
  let args := estimate_caller ctx args in
  cap ← estimation_cap ctx;
  let tx := set_fee {| fee_amount := BaseUnits_new u64_max NATIVE; fee_gas := cap;
                       fee_consensus_messages := ctx_max_messages ctx;
                       fee_proxy := fee_proxy (ai_fee (tx_auth_info (eg_tx args))) |} (eg_tx args) in
  let si := signer_info (tx_auth_info tx) in
  auth_proofs ← from_sum (dummy_proofs si);
  let tx_size := N.of_nat (length (utx_to_vec {| ut_body := tx_to_vec tx; ut_proofs := auth_proofs |})) in
  (if (u32_max <? tx_size)%N then throw (InvalidArgument "transaction too large") else mret tt) ;;
  bs_max_iters ← estimate_gas_search_max_iters ctx;
  r ← match eg_caller args with
      | Some caller =>
          p ← core_params;
          mret (set_signer_info
                  [{| si_address_spec := AddrInternal caller;
                      si_nonce := match si with s :: _ => si_nonce s | [] => 0 end |}] tx,
                saturating_add u64_max 0 (default 0%N (compute_signature_verification_cost p si)))
      | None => mret (tx, 0%N)
      end;
  mret {| es_tx := r.1; es_size := tx_size; es_cap := cap; es_max_iters := bs_max_iters;
          es_propagate_failures := eg_propagate_failures args; es_extra_gas := r.2;
          es_extra_gas_fail := default 0%N (ESTIMATE_GAS_EXTRA_FAIL !! call_method (tx_call (eg_tx args))) |}.

(** The simulation of the transaction with a gas limit.  A failure to report has to be a failed result:
    an aborted one panics. *)
Definition simulate_closure (ctx : Ctx) (call : Call) (extra_gas_fail gas : N) (report_failure : bool)
    : M CoreError N :=
  r ← lift (dispatch_tx_call R ctx call dispatch_options_default);
  let result := r.1 in
  if negb (is_success result) && report_failure then
    match result with
    | CallFailed module code message =>
        throw (TxSimulationFailed {| tsf_message := message; tsf_module_name := module; tsf_code := code |})
    | _ => panic "CallResult not Failed"
    end
  else
    gas_used ← used_batch_gas;
    mret (if is_success result then gas_used else N.min (saturating_add u64_max gas_used extra_gas_fail) gas).
Definition simulate_options (tx : Transaction) (size : N) : Options :=
  with_tx {| twm_data := tx; twm_size := size; twm_index := 0; twm_hash := hash_default |}
    (with_mode Simulate options_new).
Definition simulate (ctx : Ctx) (e : Estimation) (gas : N) (report_failure : bool) : M CoreError N :=
  let tx := set_gas gas (es_tx e) in
  with_transaction_opts (simulate_options tx (es_size e))
    (commit_ok (simulate_closure ctx (tx_call tx) (es_extra_gas_fail e) gas report_failure)).

Definition query_estimate_gas (ctx : Ctx) (args : EstimateGasQuery) : M CoreError N :=
  e ← prepare_estimate ctx args;
  estimate_with (simulate ctx e) (es_cap e) (es_propagate_failures e) (es_max_iters e) (es_extra_gas e).
End estimate.

(** * The search is exact *)

Section exact.
Context `{Platform} (simulate : N → bool → M CoreError N) (cap : N) (propagate_failures : bool).
(** An invariant of the state under which a simulation with a limit has a fixed outcome. *)
Context (P : State → Prop) (out : N → CoreError + N).
Hypothesis sim_run : ∀ g s, (g ≤ cap)%N → P s →
  ∃ s', simulate g true s = (match out g with inr r => Ok r | inl e => Err e end, s') ∧ P s'.
(** The transaction succeeds from the limit [G] on, and uses at most its limit. *)
Context (G : N).
Hypothesis out_threshold : ∀ g, (g ≤ cap)%N → is_Some (match out g with inr r => Some r | inl _ => None end) ↔ (G ≤ g)%N.
Hypothesis out_used : ∀ g r, (g ≤ cap)%N → out g = inr r → (r ≤ g)%N.
Hypothesis cap_u64 : (cap ≤ u64_max)%N.
Hypothesis G_range : (10 < G)%N ∧ (G < cap)%N.

Lemma sim_try g s :
  (g ≤ cap)%N → P s → ∃ s', try_ (E' := CoreError) (simulate g true) s = (Ok (out g), s') ∧ P s'.
Proof.
  intros Hg Hs. destruct (sim_run g s Hg Hs) as (s' & Hrun & Hs'). exists s'. split; [|done].
  unfold try_. rewrite Hrun. by destruct (out g).
Qed.
Lemma out_cases g : (g ≤ cap)%N → (∃ e, out g = inl e ∧ (g < G)%N) ∨ (∃ r, out g = inr r ∧ (G ≤ g)%N ∧ (r ≤ g)%N).
Proof.
  intros Hg. pose proof (out_threshold g Hg) as Ht. pose proof (out_used g) as Hu.
  destruct (out g) as [e|r]; simpl in Ht.
  - left. exists e. split; [done|]. apply N.lt_nge. intros Hge%Ht. by destruct Hge.
  - right. exists r. split; [done|]. split; [by apply Ht|by apply Hu].
Qed.

(** The limit is between the bounds. *)
Definition brackets (st : GasSearch) : Prop := (gs_lo st < G)%N ∧ (G ≤ gs_hi st)%N ∧ (gs_hi st ≤ cap)%N ∧
  (tried_with_max_gas st = true → has_succeeded st = true).
Definition width (st : GasSearch) : N := (gs_hi st - gs_lo st)%N.
(** The outcome of an iteration: the limit is found, or the interval is halved. *)
Definition narrowed (st : GasSearch) (continue : bool) (st' : GasSearch) : Prop :=
  brackets st' ∧ if continue then (2 * width st' ≤ width st + 1)%N else gs_hi st' = G.
Ltac solve_narrowed := split; [split; [|split; [|split; [|simpl in *; naive_solver]]]|]; unfold width; simpl; lia.

Lemma search_success_ok mid r st s :
  P s → brackets st → (G ≤ mid)%N → (r ≤ mid)%N → mid = ((gs_hi st + gs_lo st) / 2)%N →
  ∃ b st' s', search_success simulate mid r st s = (Ok (b, st'), s') ∧ P s' ∧ narrowed st b st'.
Proof.
  intros Hs (Hlo & Hhi & Hcap & Htr) HG Hr Hmid. unfold search_success.
  assert (Hm : (2 * mid ≤ gs_hi st + gs_lo st)%N) by (rewrite Hmid; apply N.Div0.mul_div_le).
  destruct (negb _ && _)%bool.
  - destruct (sim_try r s ltac:(lia) Hs) as (s1 & Hrun1 & Hs1). rewrite (bind_ok _ _ _ _ _ Hrun1).
    destruct (out_cases r ltac:(lia)) as [(e & -> & Hlt)|(r' & -> & Hge & _)].
    { eexists _, _, s1. split; [done|]. split; [done|]. solve_narrowed. }
    assert (wrapping_sub u64_max r 1 = r - 1)%N as ->.
    { unfold wrapping_sub. replace (r + (u64_max + 1) - 1)%N with (r - 1 + 1 * (u64_max + 1))%N by lia.
      rewrite N.Div0.mod_add. apply N.mod_small. lia. }
    destruct (sim_try (r - 1) s1 ltac:(lia) Hs1) as (s2 & Hrun2 & Hs2). rewrite (bind_ok _ _ _ _ _ Hrun2).
    destruct (out_cases (r - 1) ltac:(lia)) as [(e & -> & Hlt)|(r2 & -> & Hge2 & _)];
      eexists _, _, s2; (split; [done|]); (split; [done|]); solve_narrowed.
  - eexists _, _, s. split; [done|]. split; [done|]. solve_narrowed.
Qed.

Lemma search_failure_ok mid e st s :
  P s → brackets st → (mid < G)%N → mid = ((gs_hi st + gs_lo st) / 2)%N →
  ∃ st' s', search_failure simulate cap propagate_failures mid e st s = (Ok (true, st'), s') ∧ P s' ∧ narrowed st true st' .
Proof.
  intros Hs (Hlo & Hhi & Hcap & Htr) HG Hmid. unfold search_failure.
  assert (Hm : (gs_hi st + gs_lo st < 2 * mid + 2)%N).
  { rewrite Hmid. pose proof (N.mod_lt (gs_hi st + gs_lo st) 2 ltac:(done)).
    pose proof (N.div_mod (gs_hi st + gs_lo st) 2 ltac:(done)). lia. }
  destruct (has_succeeded st) eqn:Hsu; cbn [orb].
  { eexists _, s. split; [done|]. split; [done|]. solve_narrowed. }
  destruct (is_out_of_gas e).
  { eexists _, s. split; [done|]. split; [done|]. solve_narrowed. }
  destruct (tried_with_max_gas st); [by specialize (Htr eq_refl)|].
  destruct (sim_try cap s ltac:(lia) Hs) as (s1 & Hrun1 & Hs1). rewrite (bind_ok _ _ _ _ _ Hrun1).
  destruct (out_cases cap ltac:(lia)) as [(e' & _ & Hlt)|(r & -> & _)]; [lia|].
  eexists _, s1. split; [done|]. split; [done|]. solve_narrowed.
Qed.

Lemma search_step_ok st s :
  P s → brackets st →
  ∃ b st' s', search_step simulate cap propagate_failures st s = (Ok (b, st'), s') ∧ P s' ∧ narrowed st b st'.
Proof.
  intros Hs Hb. unfold search_step. set (mid := ((gs_hi st + gs_lo st) / 2)%N).
  assert (Hmid : (mid ≤ cap)%N).
  { destruct Hb as (Hlo & Hhi & Hcap & _). apply N.Div0.div_le_upper_bound. lia. }
  rewrite N.mod_small by lia. destruct (sim_try mid s Hmid Hs) as (s1 & Hrun & Hs1). rewrite (bind_ok _ _ _ _ _ Hrun).
  destruct (out_cases mid Hmid) as [(e & -> & Hlt)|(r & -> & Hge & Hr)].
  - destruct (search_failure_ok mid e st s1 Hs1 Hb Hlt eq_refl) as (st' & s' & ? & ? & ?). by exists true, st', s'.
  - by apply search_success_ok.
Qed.

(** With an iteration per bit of the interval, the search ends with the limit. *)
Lemma gas_search_exact k st s :
  P s → brackets st → (width st ≤ 2 ^ N.of_nat k)%N →
  ∃ st' s', gas_search simulate cap propagate_failures k st s = (Ok st', s') ∧ P s' ∧ gs_hi st' = G.
Proof.
  revert st s. induction k as [|k IH]; intros st s Hs Hb Hw; cbn [gas_search].
  { exists st, s. split; [done|]. split; [done|]. destruct Hb as (Hlo & Hhi & _). unfold width in Hw.
    change (2 ^ N.of_nat 0)%N with 1%N in Hw. lia. }
  destruct (N.ltb_spec (gs_lo st + 1) (gs_hi st)) as [Hlt|Hge].
  - destruct (search_step_ok st s Hs Hb) as (b & st1 & s1 & Hrun & Hs1 & Hb1 & Hn). rewrite (bind_ok _ _ _ _ _ Hrun).
    destruct b; [|by exists st1, s1]. apply IH; [done..|].
    rewrite Nat2N.inj_succ, N.pow_succ_r' in Hw. lia.
  - exists st, s. split; [done|]. split; [done|]. destruct Hb as (Hlo & Hhi & _). lia.
Qed.

Lemma estimate_with_exact iters extra s :
  P s → (cap ≤ 2 ^ iters)%N →
  ∃ s', estimate_with simulate cap propagate_failures iters extra s = (Ok (N.min (G + extra) cap), s') ∧ P s'.
Proof.
  intros Hs Hit. unfold estimate_with.
  destruct (gas_search_exact (N.to_nat iters) (gas_search_init cap) s Hs) as (st & s' & Hrun & Hs' & Hhi).
  { unfold brackets. simpl. split; [lia|]. split; [lia|]. split; [lia|done]. }
  { rewrite N2Nat.id. unfold width. simpl. lia. }
  rewrite (bind_ok _ _ _ _ _ Hrun), Hhi. destruct (N.eqb_spec G cap); [lia|]. rewrite ret_bind. exists s'.
  split; [|done]. rewrite N.mod_small by lia. unfold saturating_add.
  by replace (N.min (N.min (G + extra) u64_max) cap) with (N.min (G + extra) cap) by lia.
Qed.
End exact.

(** ** A simulation leaves no trace *)

Section no_trace.
Context `{Platform} `{!MKVSLaws} `{!TxCodec} `{!CallCrypto} `{!CoreCodec} `{!CoreConfig} `{!DispatchCodec}.
Context (R : Runtime) `{!FramedRuntime R}.

Lemma framed_simulate_closure ctx call fail gas report : framed (simulate_closure R ctx call fail gas report).
Proof. unfold simulate_closure. solve_framed. Qed.

(** Only the generator may differ. *)
Definition untouched (s s' : State) : Prop := ready s' ∧ rng_only s s'.
Lemma rng_untouched_refl s : ready s → untouched s s.
Proof. intros Hs. split; [done|]. exists (st_rng s). by destruct s. Qed.
Lemma rng_untouched_trans s1 s2 s3 : untouched s1 s2 → untouched s2 s3 → untouched s1 s3.
Proof. intros [_ [r ->]] [Hs [r' ->]]. split; [done|]. by exists r'. Qed.

(** A framed closure in a transaction whose effects are discarded. *)
Lemma discarded_untouched {E A} opts (f : M E (TransactionResult A)) s :
  discards opts = true → framed f → ready s → untouched s (with_transaction_opts opts f s).2.
Proof.
  intros Hd Hf Hs. destruct (ready_rng s Hs) as [rg Hr].
  destruct (f (opened opts s rg)) as [o child] eqn:Hrun.
  pose proof (framed_with_transaction_opts opts f Hf s Hs) as Hfr.
  pose proof (with_transaction_run opts f s rg o child Hs Hr Hf Hrun) as Htx.
  assert (Hrb : (with_transaction_opts opts f s).2 = rolled_back opts s child rg).
  { rewrite Htx, Hd. by destruct o as [[]| |]. }
  rewrite Hrb in Hfr |- *. split; [apply Hfr|]. eexists. unfold rolled_back, closed_block_values, hides.
  rewrite Hd. simpl. by destruct s.
Qed.
Lemma simulate_untouched ctx e gas report s : ready s → untouched s (simulate R ctx e gas report s).2.
Proof.
  intros Hs. apply discarded_untouched; [done| |done].
  pose proof (framed_simulate_closure ctx (tx_call (set_gas gas (es_tx e))) (es_extra_gas_fail e) gas report).
  unfold commit_ok. solve_framed.
Qed.
End no_trace.

(** Preparing only reads. *)
Lemma reads_params {E T} `{Platform} `{!Cbor T} name (d : T) : reads (params (E := E) name d).
Proof. intros s. unfold params, typed_get, store. run_simpl. case_run. Qed.
Lemma reads_local_config {E T} `{Platform} `{!CborValue T} ctx key : reads (local_config (E := E) (T := T) ctx key).
Proof. intros s. unfold local_config. rewrite with_env_bind. repeat case_match; run_simpl; try done; case_run. Qed.
Lemma prepare_estimate_reads `{Platform} `{!TxCodec} `{!CoreCodec} `{!CoreConfig} utx_to_vec ctx args :
  reads (prepare_estimate utx_to_vec ctx args).
Proof.
  unfold prepare_estimate, estimation_cap, get_local_max_estimated_gas, estimate_gas_search_max_iters, core_params.
  repeat first [apply reads_params | apply reads_local_config | apply reads_bind; [|intros ?] | done
               | match goal with |- reads (match ?x with _ => _ end) => destruct x
                               | |- reads (from_sum ?x) => destruct x end].
Qed.

(** * The other queries and the internal calls *)

Section queries.
Context `{Platform} `{!TxCodec} `{!CallCrypto} `{!CoreCodec} `{!CoreConfig} `{!DispatchCodec}.
Variables (R : Runtime) (entropy : bytes).
(** [Runtime::is_allowed_interactive_call], and the signed public keys that the key manager has. *)
Variable rt_is_allowed_interactive_call : string → bool.
Context {SignedPublicKey : Type}.
Variable get_public_ephemeral_key : Ctx → option (bytes → N → KeyManagerError + SignedPublicKey).

Definition query_check_invariants (ctx : Ctx) : M CoreError unit := check_invariants (rt_modules R) ctx.

Definition calldata_public_key_common (ctx : Ctx) : M CoreError (SignedPublicKey * N) :=
  key_manager ← ok_or (get_public_ephemeral_key ctx) (InvalidArgument "key manager not available");
  let epoch := ctx_epoch ctx in
  match key_manager (get_key_pair_id epoch) epoch with
  | inl InvalidEpoch => throw (InvalidCallFormat "invalid epoch")
  | inl (OtherKeyManagerError msg) => throw (Abort_ (KeyManagerFailure msg))
  | inr public_key => mret (public_key, epoch)
  end.
Definition query_calldata_public_key (ctx : Ctx) : M CoreError (SignedPublicKey * N) := calldata_public_key_common ctx.
Definition internal_calldata_public_key (ctx : Ctx) : M CoreError (SignedPublicKey * N) :=
  use_tx_gas GAS_COST_CALL_CALLDATA_PUBLIC_KEY ;; calldata_public_key_common ctx.
Definition internal_current_epoch (ctx : Ctx) : M CoreError N :=
  use_tx_gas GAS_COST_CALL_CURRENT_EPOCH ;; mret (ctx_epoch ctx).

Definition interactive_authorizer (method : string) : bool :=
  is_allowed_interactive_call (rt_modules R) method && rt_is_allowed_interactive_call method.

Definition execute_read_only (ctx : Ctx) (raw_tx : bytes) : M CoreError TxCallResult :=
  (if (u32_max <? N.of_nat (length raw_tx))%N then throw OversizedTransaction else mret tt) ;;
  tx ← decode_transaction R ctx raw_tx;
  if negb (call_read_only (tx_call tx)) then throw (InvalidArgument "only read-only transactions are allowed")
  else
    match not_before (tx_auth_info tx), not_after (tx_auth_info tx) with
    | Some _, Some _ =>
        r ← map_err (λ e : DispatcherError, InvalidArgument (to_string e))
              (execute_tx_opts R entropy ctx tx
                 {| do_tx_size := N.of_nat (length raw_tx); do_tx_index := 0; do_tx_hash := hash_default;
                    do_method_authorizer := Some interactive_authorizer; do_skip_authentication := false |});
        mret r.1
    | _, _ => throw (InvalidArgument "only read-only transactions with expiry are allowed")
    end.
Definition query_execute_read_only_tx (ctx : Ctx) (args : ExecuteReadOnlyTxQuery) : M CoreError TxCallResult :=
  if negb ALLOW_INTERACTIVE_READ_ONLY_TRANSACTIONS then throw Forbidden
  else with_transaction_opts (with_mode Simulate options_new) (commit_ok (execute_read_only ctx (er_tx args))).
End queries.

(** An interactive read-only transaction leaves nothing behind but the generator. *)
Theorem read_only_query_untouched `{Platform} `{!MKVSLaws} `{!TxCodec} `{!CallCrypto} `{!CoreCodec} `{!CoreConfig}
    `{!DispatchCodec} (R : Runtime) `{!FramedRuntime R} entropy interactive ctx args s :
  ready s → untouched s (query_execute_read_only_tx R entropy interactive ctx args s).2.
Proof.
  intros Hs. unfold query_execute_read_only_tx.
  destruct (negb _); [by apply rng_untouched_refl|]. set (opts := with_mode Simulate options_new).
  set (f := commit_ok _).
  assert (Hf : framed f) by (unfold f, commit_ok, execute_read_only, decode_transaction, execute_tx_opts; solve_framed).
  by apply discarded_untouched.
Qed.

Module EstimateClaims.
Section claims.
Context `{Platform} `{!MKVSLaws} `{!TxCodec} `{!CallCrypto} `{!CoreCodec} `{!CoreConfig} `{!DispatchCodec}.
Context (R : Runtime) `{!FramedRuntime R} (utx_to_vec : UnverifiedTransaction → bytes).

(** C34. Gas estimation finds the exact limit.  Suppose that the simulations of the prepared transaction do not
    depend on the random number generator, and that they succeed from the limit [G] on, strictly between
    the lower bound of the search and its cap, with no more gas than the limit.  Then with one iteration
    per bit of the cap the query ends, with [G] plus the gas of the replaced signatures, at most the cap,
    whatever errors the simulations below [G] fail with; and it leaves nothing but the generator changed. *)
Theorem estimate_gas_exact ctx args s e (out : N → CoreError + N) G :
  ready s → (prepare_estimate utx_to_vec ctx args s).1 = Ok e →
  (∀ g s', (g ≤ es_cap e)%N → untouched s s' →
     (simulate R ctx e g true s').1 = match out g with inr r => Ok r | inl err => Err err end) →
  (∀ g, (g ≤ es_cap e)%N → is_Some (match out g with inr r => Some r | inl _ => None end) ↔ (G ≤ g)%N) →
  (∀ g r, (g ≤ es_cap e)%N → out g = inr r → (r ≤ g)%N) →
  (10 < G)%N → (G < es_cap e)%N → (es_cap e ≤ u64_max)%N → (es_cap e ≤ 2 ^ es_max_iters e)%N →
  ∃ s', query_estimate_gas R utx_to_vec ctx args s = (Ok (N.min (G + es_extra_gas e) (es_cap e)), s') ∧
    untouched s s'.
Proof.
  intros Hs Hprep Hsim Hth Hused Hlo Hhi Hu64 Hit. unfold query_estimate_gas.
  rewrite (bind_ok _ _ _ e s) by (rewrite (run_ok _ _ _ Hprep); f_equal; apply prepare_estimate_reads).
  apply (estimate_with_exact (simulate R ctx e) (es_cap e) (es_propagate_failures e) (untouched s) out);
    [|done|done|done|done|by apply rng_untouched_refl|done].
  intros g s' Hg Hs'. exists (simulate R ctx e g true s').2. rewrite <-(Hsim g s') by done.
  split; [by destruct (simulate R ctx e g true s')|]. exact (rng_untouched_trans _ _ _ Hs' (simulate_untouched R ctx e g true s' (proj1 Hs'))).
Qed.
End claims.
End EstimateClaims.
