(* ===== verification/ConcreteDispatch.v ===== *)
(** A runtime on the concrete platform, with the core module and one method that writes to the store:
    the theorems about modules and about the dispatcher are instantiated on it. *)
From S2P Require Import Prelude Storage StoreIter Types Fee Errors State Current Concrete Transactions Module CallFormat Core.
From S2P Require Import Gas ConcreteCore Dispatcher Dispatch Subcall Estimate.

Local Open Scope string_scope.

#[local] Existing Instances toy_platform toy_mkvs_laws toy_codec toy_core_codec toy_core_config toy_u128
  Confidential.toy_call_crypto.

(** * The runtime *)

(** A module with a method that writes a key and emits an event, and one that does nothing; every message
    result is handled, its authentication decides alone, and it decodes one transaction. *)
Definition toy_hook : MessageEventHookInvocation := {| hook_name := "hook"; hook_payload := [] |}.
Definition toy_method : M CoreError unit :=
  typed_insert CurrentStore (str "k") 5%N ;;
  emit_event_raw (etag_for_event "toy" 1 (str "e")).
Definition toy_call_m : M Empty_set (DispatchResult Value CallResult) :=
  r ← try_ toy_method;
  mret (Handled (match r with inl e => into_call_result (e : CoreError) | inr _ => CallOk value_null end)).
Definition toy_methods : Handlers := {|
  prefetch := prefetch default_handlers;
  dispatch_call _ m body := if bool_decide (m = "m") then toy_call_m
    else if bool_decide (m = "q") then mret (Handled (CallOk value_null)) else mret (Unhandled body);
  dispatch_query _ m args := mret (Handled (inr args));
  dispatch_message_result _ _ _ := mret (Handled tt);
  is_expensive_query _ := false;
  is_allowed_private_km_query _ := false;
  is_allowed_interactive_call _ := false;
  approve_raw_tx := approve_raw_tx default_handlers;
  approve_unverified_tx := approve_unverified_tx default_handlers;
  decode_tx _ _ _ := mret (Some toy_tx);
  authenticate_tx _ _ := mret Stop;
  before_handle_call := before_handle_call default_handlers;
  before_authorized_call_dispatch := before_authorized_call_dispatch default_handlers;
  after_handle_call := after_handle_call default_handlers;
  after_dispatch_tx := after_dispatch_tx default_handlers;
  begin_block := begin_block default_handlers;
  end_block := end_block default_handlers;
  check_invariants := check_invariants default_handlers;
|}.
#[local] Instance toy_methods_framed : FramedHandlers toy_methods.
Proof. split; intros; simpl; unfold toy_call_m, toy_method; solve_framed. Qed.

Definition toy_runtime : Runtime := {|
  rt_modules := compose [core_handlers default_handlers; toy_methods];
  rt_init_or_migrate _ v := mret (false, v);
  rt_migrate_state _ := mret tt;
  STATE_VERSION := 0; PREFETCH_LIMIT := 0; SCHEDULE_CONTROL := schedule_control_default;
  rt_is_allowed_query _ := true; rt_is_allowed_private_km_query _ := false;
|}.
#[local] Instance toy_runtime_framed : FramedRuntime toy_runtime.
Proof.
  split; [|intros; apply framed_ret..]. apply compose_framed. constructor; [|constructor; [exact toy_methods_framed|constructor]].
  apply core_handlers_framed, default_handlers_framed.
Qed.

Definition toy_hooks : list MessageEventHookInvocation := [toy_hook; {| hook_name := "other"; hook_payload := [x01] |}].
#[local] Instance toy_dispatch_codec : DispatchCodec := {|
  utx_from_slice b := Some {| ut_body := b; ut_proofs := [ProofModule []] |}; args_from_slice b := Some b; value_to_vec v := v;
  values_to_vec vs := concat vs;
  versions_cbor := const_cbor (∅ : Versions);
  message_handlers_cbor := const_cbor (indexed_handlers toy_hooks);
  bool_value := {| to_value _ := []; from_value _ := None |};
  query_config_value := {| to_value _ := []; from_value _ := None |};
|}.
#[local] Instance toy_handlers_laws : CborLaws (gmap N MessageEventHookInvocation) :=
  const_cbor_laws (indexed_handlers toy_hooks).

(** * Witnesses *)

Lemma authenticate_stops_witness :
  authenticate_tx (compose [default_handlers; toy_methods; default_handlers]) toy_core_ctx toy_tx toy_tx_state
    = (Ok Stop, toy_tx_state).
Proof.
  exact (Tuples.authenticate_stops [default_handlers] [default_handlers] toy_methods toy_core_ctx toy_tx
    toy_tx_state toy_tx_state toy_tx_state eq_refl eq_refl).
Defined.

Definition toy_opts : DispatchOptions :=
  {| do_tx_size := 40; do_tx_index := 0; do_tx_hash := toy_digest []; do_method_authorizer := None;
     do_skip_authentication := true |}.
Definition toy_block_state : State := root_state Execute toy_root.
Lemma toy_block_ready : ready toy_block_state.
Proof. split; [by eexists|]. eexists. split; [done|]. split; [apply toy_root_wf|by eexists]. Qed.
Definition toy_opened (tx : Transaction) : State :=
  opened (tx_options tx toy_opts) toy_block_state (root_rng_new Execute).

Lemma dispatch_is_atomic_witness :
  ∃ result s2, dispatch_tx_opts toy_runtime toy_core_ctx toy_tx toy_opts toy_block_state = (Ok result, s2) ∧
    kv (st_store s2) !! str "k" = Some (to_vec 5%N).
Proof.
  destruct (DispatchClaims.dispatch_is_atomic toy_runtime toy_core_ctx toy_tx toy_opts toy_block_state
    toy_block_state (root_rng_new Execute) (CallOk value_null) MetadataEmpty
    (dispatch_tx_call toy_runtime toy_core_ctx (tx_call toy_tx) toy_opts (toy_opened toy_tx)).2
    toy_block_ready eq_refl eq_refl) as (result & s2 & Hrun & _ & _ & _ & Hkv & _).
  - apply run_ok. vm_compute. reflexivity.
  - split; exists None; vm_compute; reflexivity.
  - exists result, s2. split; [exact Hrun|]. rewrite Hkv. vm_compute. reflexivity.
Defined.

Definition toy_read_only_tx : Transaction :=
  {| tx_version := 1;
     tx_call := {| call_format := Plain; call_method := "q"; call_body := []; call_read_only := true |};
     tx_auth_info := toy_auth |}.

Lemma read_only_modifies_nothing_witness :
  kv (st_store (dispatch_tx_call toy_runtime toy_core_ctx (tx_call toy_read_only_tx) toy_opts
                  (toy_opened toy_read_only_tx)).2) = kv (st_store toy_block_state).
Proof.
  apply (DispatchClaims.read_only_modifies_nothing toy_runtime toy_core_ctx toy_read_only_tx toy_opts
    toy_block_state (root_rng_new Execute) (CallOk value_null) MetadataEmpty); [exact toy_block_ready|reflexivity..| |reflexivity].
  apply run_ok. vm_compute. reflexivity.
Defined.

Lemma pre_schedule_leaves_no_trace_witness :
  ∃ r rng, with_transaction_opts (with_mode PreSchedule options_new)
             (pre_schedule toy_runtime toy_core_ctx toy_tx toy_opts) toy_block_state =
           (r, set_rng rng toy_block_state).
Proof.
  exact (DispatchClaims.pre_schedule_leaves_no_trace toy_runtime toy_core_ctx toy_tx toy_opts toy_block_state
    toy_block_ready).
Defined.

Lemma query_preserves_root_witness :
  ∃ r, query toy_runtime [] {| node_key_manager := None; node_verify_for_query := inr tt;
                               node_ensure_initialized := inr tt |} toy_core_ctx toy_root "m" [x05] = (r, toy_root) ∧
    ∀ msg, r ≠ Panic msg.
Proof. exact (QueryClaims.query_preserves_root toy_runtime [] _ toy_core_ctx toy_root "m" [x05] I). Defined.

(** The block has gas for one of the two offered transactions. *)
Lemma schedule_is_consistent_witness :
  ∃ r root', schedule_and_execute_batch toy_runtime [] toy_core_ctx toy_root [] [[x01]; [x02]] =
               (Ok (r, [[x01]]), root') ∧ length (eb_results r) = 1.
Proof.
  pose (o := schedule_and_execute_batch toy_runtime [] toy_core_ctx toy_root [] [[x01]; [x02]]).
  assert (Hb : match o.1 with Ok (_, nb) => bool_decide (nb = [[x01]]) | _ => false end = true)
    by (vm_compute; reflexivity).
  destruct o as [[[r nb]|e|p] root'] eqn:Ho; [|discriminate Hb..]. cbn in Hb.
  apply bool_decide_eq_true in Hb. subst nb. exists r, root'. split; [exact Ho|].
  apply (ScheduleClaims.schedule_is_consistent toy_runtime [] toy_core_ctx toy_root [] [[x01]; [x02]] r
    [[x01]] root' Ho).
Defined.

Lemma batch_results_complete_witness :
  ∃ r root', execute_batch toy_runtime [] toy_core_ctx toy_root [[x01]; [x02]] = (Ok (r, tt), root') ∧
    length (eb_results r) = 2.
Proof.
  pose (o := execute_batch toy_runtime [] toy_core_ctx toy_root [[x01]; [x02]]).
  assert (Hb : match o.1 with Ok _ => true | _ => false end = true) by (vm_compute; reflexivity).
  destruct o as [[[r []]|e|p] root'] eqn:Ho; [|discriminate Hb..]. exists r, root'. split; [exact Ho|].
  exact (ScheduleClaims.batch_results_complete toy_runtime [] toy_core_ctx toy_root [[x01]; [x02]] r root' Ho).
Defined.

Definition toy_round_ctx : Ctx :=
  {| ctx_local_config := ∅; ctx_key_manager := None; ctx_round := 1; ctx_epoch := 4;
     ctx_good_compute_entities := []; ctx_bad_compute_entities := []; ctx_messages := [1%N; 0%N]; ctx_max_messages := 2;
     ctx_now := 7000 |}.

Lemma messages_are_delivered_witness :
  ∃ s1, save_emitted_message_handlers (E := CoreError) toy_hooks toy_block_state = (Ok tt, s1) ∧
    handle_last_round_messages toy_runtime toy_round_ctx s1 =
      for_each (ctx_messages toy_round_ctx) (deliver toy_runtime toy_round_ctx toy_hooks) s1 ∧
    Forall (λ e, is_Some (toy_hooks !! N.to_nat (message_event_index e))) (ctx_messages toy_round_ctx).
Proof.
  apply (MessageClaims.messages_are_delivered toy_runtime toy_round_ctx toy_hooks toy_block_state toy_block_ready).
  - vm_compute. discriminate.
  - reflexivity.
  - apply Permutation_swap.
Defined.

(** A subcall at depth one is refused by a maximum depth of zero, and made otherwise. *)
Definition toy_subcall (max_depth : N) : SubcallInfo :=
  {| sub_caller := CallerAddr address_default; sub_method := "m"; sub_body := []; sub_max_depth := max_depth;
     sub_max_gas := 100; sub_read_only := false |}.
Lemma subcall_is_isolated_witness :
  (subcall (λ _, toy_runtime) [] toy_core_ctx (toy_subcall 0) allow_all toy_tx_state).2 = toy_tx_state ∧
  match (subcall (λ _, toy_runtime) [] toy_core_ctx (toy_subcall 1) allow_all toy_tx_state).1 with
  | Ok res => (sr_gas_used res ≤ 100)%N
  | _ => False
  end.
Proof.
  split.
  - destruct (SubcallClaims.subcall_is_isolated (λ _, toy_runtime) [] toy_core_ctx (toy_subcall 0) allow_all
      toy_tx_state toy_tx_ready ltac:(vm_compute; discriminate)) as [Hno _].
    apply Hno. intros [_ Hd]. vm_compute in Hd. discriminate.
  - destruct (SubcallClaims.subcall_is_isolated (λ _, toy_runtime) [] toy_core_ctx (toy_subcall 1) allow_all
      toy_tx_state toy_tx_ready ltac:(vm_compute; discriminate)) as [_ Hyes].
    destruct (Hyes ltac:(split; [by intros v [->|?%not_elem_of_nil]%elem_of_cons|vm_compute; reflexivity])) as [_ Hm].
    assert (Hok : match (subcall (λ _, toy_runtime) [] toy_core_ctx (toy_subcall 1) allow_all toy_tx_state).1 with
                  | Ok _ => true | _ => false end = true) by (vm_compute; reflexivity).
    destruct (subcall _ _ _ _ _ _).1 as [res|e|p]; [|discriminate Hok..]. exact (proj1 Hm).
Defined.

(** Gas estimation on the concrete platform: a method that needs twelve units of gas in a batch of sixteen. *)

Local Open Scope string_scope.

#[local] Existing Instances toy_platform toy_mkvs_laws toy_codec toy_u128 Confidential.toy_call_crypto.

Definition small_params : CoreParameters := {|
  max_batch_gas_param := 16; max_tx_size := 100; max_tx_signers := 1; max_multisig_signers := 2;
  core_gas_costs := core_gas_costs core_parameters_default; min_gas_price_param := ∅;
  dynamic_min_gas_price := dynamic_min_gas_price core_parameters_default;
|}.
#[local] Instance small_core_codec : CoreCodec := {|
  core_parameters_cbor := const_cbor small_params;
  core_prices_cbor := const_cbor ∅;
  core_epoch_cbor := toy_u128;
  core_local_config_value := {| to_value _ := []; from_value _ := None |};
  gas_used_value _ := [x01];
|}.
#[local] Instance small_core_config : CoreConfig := {|
  DEFAULT_LOCAL_MIN_GAS_PRICE := ∅; DEFAULT_LOCAL_ESTIMATE_GAS_SEARCH_MAX_ITERS := 4;
  ESTIMATE_GAS_EXTRA_FAIL := ∅; MIN_GAS_PRICE_EXEMPT_METHODS := ∅; EMIT_GAS_USED_EVENTS := true;
  ALLOW_INTERACTIVE_READ_ONLY_TRANSACTIONS := false; GAS_COST_CALL_CALLDATA_PUBLIC_KEY := 20;
  GAS_COST_CALL_CURRENT_EPOCH := 10;
|}.
#[local] Instance small_dispatch_codec : DispatchCodec := {|
  utx_from_slice b := None; args_from_slice b := Some b; value_to_vec v := v; values_to_vec vs := concat vs;
  versions_cbor := const_cbor (∅ : Versions);
  message_handlers_cbor := const_cbor (∅ : gmap N MessageEventHookInvocation);
  bool_value := {| to_value _ := []; from_value _ := None |};
  query_config_value := {| to_value _ := []; from_value _ := None |};
|}.

Definition costly_call : M Empty_set (DispatchResult Value CallResult) :=
  r ← try_ (use_tx_gas 12);
  mret (Handled (match r with inl e => into_call_result (e : CoreError) | inr _ => CallOk value_null end)).
Definition costly_method : Handlers := {|
  prefetch := prefetch default_handlers;
  dispatch_call _ _ _ := costly_call;
  dispatch_query := dispatch_query default_handlers;
  dispatch_message_result := dispatch_message_result default_handlers;
  is_expensive_query _ := false;
  is_allowed_private_km_query _ := false;
  is_allowed_interactive_call _ := false;
  approve_raw_tx := approve_raw_tx default_handlers;
  approve_unverified_tx := approve_unverified_tx default_handlers;
  decode_tx := decode_tx default_handlers;
  authenticate_tx := authenticate_tx default_handlers;
  before_handle_call := before_handle_call default_handlers;
  before_authorized_call_dispatch := before_authorized_call_dispatch default_handlers;
  after_handle_call := after_handle_call default_handlers;
  after_dispatch_tx := after_dispatch_tx default_handlers;
  begin_block := begin_block default_handlers;
  end_block := end_block default_handlers;
  check_invariants := check_invariants default_handlers;
|}.
#[local] Instance costly_method_framed : FramedHandlers costly_method.
Proof. split; intros; simpl; unfold costly_call; solve_framed. Qed.
Definition costly_runtime : Runtime := {|
  rt_modules := costly_method;
  rt_init_or_migrate _ v := mret (false, v);
  rt_migrate_state _ := mret tt;
  STATE_VERSION := 0; PREFETCH_LIMIT := 0; SCHEDULE_CONTROL := schedule_control_default;
  rt_is_allowed_query _ := true; rt_is_allowed_private_km_query _ := false;
|}.
#[local] Instance costly_runtime_framed : FramedRuntime costly_runtime.
Proof. split; [exact costly_method_framed|intros; apply framed_ret..]. Qed.

Definition costly_state : State := root_state Execute toy_root.
Lemma costly_ready : ready costly_state.
Proof. split; [by eexists|]. eexists. split; [done|]. split; [apply toy_root_wf|by eexists]. Qed.
Definition costly_query : EstimateGasQuery := {| eg_caller := None; eg_tx := toy_tx; eg_propagate_failures := false |}.
Definition costly_estimation : Estimation :=
  match (prepare_estimate (λ _, []) toy_core_ctx costly_query costly_state).1 with
  | Ok e => e
  | _ => {| es_tx := toy_tx; es_size := 0; es_cap := 0; es_max_iters := 0; es_propagate_failures := false;
            es_extra_gas := 0; es_extra_gas_fail := 0 |}
  end.
Definition costly_outcome (g : N) : CoreError + N :=
  if (12 <=? g)%N then inr 12%N
  else inl (TxSimulationFailed {| tsf_message := to_string (OutOfGas g 12); tsf_module_name := "core"; tsf_code := 12 |}).

Lemma costly_prepared : (prepare_estimate (λ _, []) toy_core_ctx costly_query costly_state).1 = Ok costly_estimation.
Proof.
  assert (Hok : match (prepare_estimate (λ _, []) toy_core_ctx costly_query costly_state).1 with
                | Ok _ => true | _ => false end = true) by (vm_compute; reflexivity).
  unfold costly_estimation. by destruct (prepare_estimate _ _ _ _).1.
Qed.
Lemma costly_simulations rg :
  Forall (λ n, (simulate costly_runtime toy_core_ctx costly_estimation (N.of_nat n) true (set_rng (Some rg) costly_state)).1 =
    match costly_outcome (N.of_nat n) with inr r => Ok r | inl err => Err err end) (seq 0 17).
Proof. repeat (constructor; [vm_compute; reflexivity|]). constructor. Qed.
Lemma costly_simulation g s' :
  (g ≤ 16)%N → untouched costly_state s' →
  (simulate costly_runtime toy_core_ctx costly_estimation g true s').1 =
    match costly_outcome g with inr r => Ok r | inl err => Err err end.
Proof.
  intros Hg [Hr [rng ->]]. destruct (ready_rng _ Hr) as [rg Hrg]. cbn in Hrg. subst.
  pose proof (costly_simulations rg) as Hall. rewrite Forall_forall in Hall.
  specialize (Hall (N.to_nat g)). rewrite N2Nat.id in Hall. apply Hall, elem_of_seq. lia.
Qed.
Lemma costly_shape : es_cap costly_estimation = 16%N ∧ es_max_iters costly_estimation = 4%N ∧ es_extra_gas costly_estimation = 0%N.
Proof. vm_compute. done. Qed.

Lemma estimate_gas_exact_witness :
  ∃ s', query_estimate_gas costly_runtime (λ _, []) toy_core_ctx costly_query costly_state = (Ok 12%N, s') ∧
    untouched costly_state s'.
Proof.
  destruct costly_shape as (Hcap & Hit & Hex).
  destruct (EstimateClaims.estimate_gas_exact costly_runtime (λ _, []) toy_core_ctx costly_query costly_state
    costly_estimation costly_outcome 12 costly_ready costly_prepared) as (s' & Hrun & Hun); rewrite ?Hcap, ?Hit.
  - exact costly_simulation.
  - intros g _. unfold costly_outcome. destruct (N.leb_spec 12 g); simpl; split; [done|by eexists|by intros []|lia].
  - intros g r _. unfold costly_outcome. destruct (N.leb_spec 12 g); [|done]. by intros [= <-].
  - reflexivity.
  - reflexivity.
  - vm_compute. discriminate.
  - vm_compute. discriminate.
  - exists s'. rewrite Hex, Hcap in Hrun. split; [exact Hrun|exact Hun].
Defined.
