(* ===== verification/EvmTypes.v ===== *)
(** The EVM module: its data types and configuration, errors, the callers of transactions, and the decoding of Ethereum
    transactions (src/runtime-sdk/modules/evm/src/{types,derive_caller,raw_tx}.rs and the first part of lib.rs). *)
From stdpp Require Import pretty.
From S2P Require Import Prelude Endian Storage StoreIter Types Fee Errors State Current Transactions Module.

Local Open Scope string_scope.

Definition EVM_MODULE_NAME : string := "evm".

(** * Data types *)

Definition H160 := bytes_n 20.
Definition H256 := bytes_n 32.
#[global] Instance H160_eq_dec : EqDecision H160 := bytes_n_eq_dec 20.
#[global] Instance H160_countable : Countable H160 := bytes_n_countable 20.
#[global] Instance H256_eq_dec : EqDecision H256 := bytes_n_eq_dec 32.
#[global] Instance H256_countable : Countable H256 := bytes_n_countable 32.
Definition h160_default : H160 := exist _ (replicate 20 x00) eq_refl.
Definition h256_default : H256 := exist _ (replicate 32 x00) eq_refl.
(** Integers of 256 bits. *)
Notation U256 := N.
Definition u256_max : N := (2 ^ 256 - 1)%N.

Record EvmCreate := { evc_value : U256; evc_init_code : bytes }.
Record EvmCall := { evk_address : H160; evk_value : U256; evk_data : bytes }.
Record StorageQuery := { sq_address : H160; sq_index : H256 }.
Record CodeQuery := { cq_address : H160 }.
Record EvmBalanceQuery := { bq_address : H160 }.
Record SimulateCallQuery := {
  scq_gas_price : U256;
  scq_gas_limit : N;
  scq_caller : H160;
  scq_address : option H160;
  scq_value : U256;
  scq_data : bytes;
}.
Record Leash := {
  leash_nonce : N;
  leash_block_number : N;
  leash_block_hash : H256;
  leash_block_range : N;
}.
Record SignedCallDataPack `{Platform} := {
  pack_data : Call;
  pack_leash : Leash;
  pack_signature : bytes_n 65;
}.

(** ** CBOR of fixed hashes and integers *)

(** Byte strings among the values of the CBOR library. *)
Class ByteStrings `{Crypto} := {
  byte_string : bytes → Value;
  as_byte_string : Value → option bytes;
}.
Class ByteStringLaws `{ByteStrings} : Prop := as_byte_string_of b : as_byte_string (byte_string b) = Some b.
Inductive DecodeError := UnexpectedIntegerSize | UnexpectedType.
Section cbor.
Context `{ByteStrings}.

Definition hash_into_cbor_value {n} (h : bytes_n n) : Value := byte_string (raw h).
Definition hash_try_from_cbor_value (n : nat) (v : Value) : DecodeError + bytes_n n :=
  match as_byte_string v with
  | Some b => match bytes_n_of n b with Some h => inr h | None => inl UnexpectedIntegerSize end
  | None => inl UnexpectedType
  end.
Definition u256_into_cbor_value (n : U256) : Value := byte_string (be_bytes 32 n).
Definition u256_try_from_cbor_value (v : Value) : DecodeError + U256 :=
  match as_byte_string v with
  | Some b => if (length b <=? 32)%nat then inr (from_be b) else inl UnexpectedIntegerSize
  | None => inl UnexpectedType
  end.

Context `{!ByteStringLaws}.
Lemma hash_cbor_roundtrip {n} (h : bytes_n n) : hash_try_from_cbor_value n (hash_into_cbor_value h) = inr h.
Proof. unfold hash_try_from_cbor_value, hash_into_cbor_value. by rewrite as_byte_string_of, bytes_n_of_proj. Qed.
Lemma u256_cbor_roundtrip n : (n ≤ u256_max)%N → u256_try_from_cbor_value (u256_into_cbor_value n) = inr n.
Proof.
  intros Hn. unfold u256_try_from_cbor_value, u256_into_cbor_value.
  rewrite as_byte_string_of, be_bytes_length, from_be_bytes. simpl. f_equal. apply N.mod_small. unfold u256_max in Hn. lia.
Qed.
End cbor.

(** * Errors *)

(** Of the evm crate. *)
Inductive ExitError :=
  | StackUnderflow | StackOverflow | InvalidJump | InvalidRange | DesignatedInvalid | CallTooDeep | CreateCollision
  | CreateContractLimit | InvalidCode (op : Byte.byte) | OutOfOffset | XOutOfGas | OutOfFund | PCUnderflow | CreateEmpty
  | MaxNonce | OtherExit (msg : string).
#[global] Instance ExitError_eq_dec : EqDecision ExitError.
Proof. solve_decision. Defined.
Inductive ExitFatal := NotSupported | UnhandledInterrupt | CallErrorAsFatal (e : ExitError) | OtherFatal (msg : string).
Inductive ExitReason := XSucceed | XRevert | XError (e : ExitError) | XFatal (e : ExitFatal).
Definition is_succeed (r : ExitReason) : bool := match r with XSucceed => true | _ => false end.

Inductive EvmError :=
  | EvInvalidArgument
  | EvExecutionFailed (msg : string)
  | EvInvalidSignerType
  | EvFeeOverflow
  | EvGasLimitTooLow (n : N)
  | EvInsufficientBalance
  | EvForbidden
  | EvReverted (data : string)
  | EvSimulationTooExpensive (n : N)
  | EvInvalidSignedSimulateCall (msg : string)
  | EvCore (e : CoreError).
Definition evm_error_code (e : EvmError) : N :=
  match e with
  | EvInvalidArgument => 1
  | EvExecutionFailed _ => 2
  | EvInvalidSignerType => 3
  | EvFeeOverflow => 4
  | EvGasLimitTooLow _ => 5
  | EvInsufficientBalance => 6
  | EvForbidden => 7
  | EvReverted _ => 8
  | EvSimulationTooExpensive _ => 9
  | EvInvalidSignedSimulateCall _ => 10
  | EvCore e => code e
  end.
Definition evm_error_string (e : EvmError) : string :=
  match e with
  | EvInvalidArgument => "invalid argument"
  | EvExecutionFailed msg => "execution failed: " +:+ msg
  | EvInvalidSignerType => "invalid signer type"
  | EvFeeOverflow => "fee overflow"
  | EvGasLimitTooLow n => "gas limit too low: " +:+ pretty n +:+ " required"
  | EvInsufficientBalance => "insufficient balance"
  | EvForbidden => "forbidden by policy"
  | EvReverted data => "reverted: " +:+ data
  | EvSimulationTooExpensive n =>
      "forbidden by policy: this node only allows simulating calls that use up to " +:+ pretty n +:+ " gas"
  | EvInvalidSignedSimulateCall msg => "invalid signed simulate call query: " +:+ msg
  | EvCore e => "core: " +:+ to_string e
  end.
#[export] Instance evm_sdk_error : SdkError EvmError := {
  module_name e := match e with EvCore e => module_name e | _ => EVM_MODULE_NAME end;
  code := evm_error_code;
  to_string := evm_error_string;
  into_abort e := match e with EvCore e => into_abort e | _ => None end;
}.

(** [From<ExitError>] and [From<ExitFatal>]. *)
Definition exit_error_msg (e : ExitError) : string :=
  match e with
  | StackUnderflow => "stack underflow"
  | StackOverflow => "stack overflow"
  | InvalidJump => "invalid jump"
  | InvalidRange => "invalid range"
  | DesignatedInvalid => "designated invalid"
  | CallTooDeep => "call too deep"
  | CreateCollision => "create collision"
  | CreateContractLimit => "create contract limit"
  | InvalidCode _ => "invalid code"
  | OutOfOffset => "out of offset"
  | XOutOfGas => "out of gas"
  | OutOfFund => "out of funds"
  | PCUnderflow => "PC underflow"
  | CreateEmpty => "create empty"
  | MaxNonce => "nonce overflow"
  | OtherExit msg => msg
  end.
Definition from_exit_error (e : ExitError) : EvmError := EvExecutionFailed (exit_error_msg e).
Definition from_exit_fatal (e : ExitFatal) : EvmError :=
  match e with
  | NotSupported => EvExecutionFailed "not supported"
  | UnhandledInterrupt => EvExecutionFailed "unhandled interrupt"
  | CallErrorAsFatal e => from_exit_error e
  | OtherFatal msg => EvExecutionFailed msg
  end.

(** * Configuration *)

Class EvmConfig := {
  CHAIN_ID : N;
  TOKEN_DENOMINATION : Denomination;
  CONFIDENTIAL : bool;
  REFUND_UNUSED_FEE : bool;
  MAX_RESULT_SIZE : nat;
  CREATE_CONTRACT_LIMIT : N;
  MAX_INITCODE_SIZE : N;
}.
(** The default implementation of [map_address]. *)
Definition map_address `{Crypto} (a : H160) : Address :=
  address_new ADDRESS_V0_SECP256K1ETH_CONTEXT ADDRESS_V0_VERSION (raw a).
(** What the module changes of the configuration of the hard fork Shanghai. *)
Record EVMConfig := { cfg_estimate : bool; cfg_create_contract_limit : option N; cfg_max_initcode_size : option N }.
Definition evm_config `{EvmConfig} (estimation : bool) : EVMConfig :=
  {| cfg_estimate := estimation; cfg_create_contract_limit := Some CREATE_CONTRACT_LIMIT;
     cfg_max_initcode_size := Some MAX_INITCODE_SIZE |}.
Record EvmLocalConfig := { query_simulate_call_max_gas : N }.
Definition evm_local_config_default : EvmLocalConfig := {| query_simulate_call_max_gas := 0 |}.
(** The parameters only hold an empty record of gas costs. *)
Inductive EvmParameters := MkEvmParameters.
Definition evm_validate_basic (p : EvmParameters) : unit + unit := inr tt.

(** * Callers *)

Section callers.
Context `{Platform}.

Definition caller_from_sigspec (spec : SignatureAddressSpec) : EvmError + H160 :=
  match spec with
  | SpecSecp256k1Eth pk => inr (to_eth_address pk)
  | _ => inl EvInvalidSignerType
  end.
(** Indexing [signer_info[0]] panics when there is no signer. *)
Definition caller_from_tx_auth_info (ai : AuthInfo) : M EvmError H160 :=
  si ← expect (head (signer_info ai)) "index out of bounds";
  match si_address_spec si with
  | AddrSignature spec => match caller_from_sigspec spec with inl e => throw e | inr a => mret a end
  | AddrInternal (CallerEth address) => mret address
  | _ => throw EvInvalidSignerType
  end.
Definition derive_caller : M EvmError H160 :=
  ai ← with_tx_env env_tx_auth_info; caller_from_tx_auth_info ai.
End callers.

(** * Ethereum transactions *)

Inductive TransactionAction := ActionCall (address : H160) | ActionCreate.
Record EthMessage := {
  eth_action : TransactionAction;
  eth_value : U256;
  eth_input : bytes;
  eth_nonce : U256;
  eth_gas_limit : U256;
}.
(** The transactions of the ethereum crate, with the chain identifier that a legacy message takes from its signature. *)
Inductive EthTransaction :=
  | Legacy (m : EthMessage) (r s : H256) (standard_v : N) (chain_id : option N) (gas_price : U256)
  | EIP2930 (m : EthMessage) (r s : H256) (odd_y_parity : bool) (chain_id : N) (gas_price : U256)
  | EIP1559 (m : EthMessage) (r s : H256) (odd_y_parity : bool) (chain_id : N) (max_priority_fee_per_gas max_fee_per_gas : U256).
(** The ethereum and k256 crates. *)
Class Ethereum := {
  eth_decode : bytes → option EthTransaction;
  (** the hash of the message of a transaction *)
  eth_message_hash : EthTransaction → H256;
  (** whether [r] and [s] make a signature, and [s] is high *)
  signature_from_scalars : H256 → H256 → bool;
  signature_is_high : H256 → bool;
  (** recovery of a key from a hash, with the recovery id: the uncompressed and the compressed point *)
  recover_from_prehash : H256 → H256 → H256 → N → option (bytes * bytes);
}.

Section raw_tx.
Context `{Crypto} `{Ethereum}.

(** [RecoveryId::from_byte] and [RecoveryId::new]. *)
Definition recovery_id_from_byte (v : N) : option N := if (v <? 4)%N then Some v else None.
Definition recovery_id_new (is_y_odd : bool) : N := if is_y_odd then 1%N else 0%N.
Definition recover_low (r s : H256) (sig_recid : N) (sig_hash : H256) : string + bytes * bytes :=
  if signature_is_high s then inl "signature s high"
  else match recover_from_prehash sig_hash r s sig_recid with
       | Some key => inr key
       | None => inl "recover verify key from digest"
       end.

(** What [decode] takes out of a transaction: chain identifier, scalars and recovery id of the signature, hash, message
    and gas price. *)
Record Decoded := {
  dec_chain_id : option N;
  dec_r : H256;
  dec_s : H256;
  dec_recid : N;
  dec_hash : H256;
  dec_message : EthMessage;
  dec_gas_price : U256;
}.
(** The price of a transaction after EIP-1559. *)
Definition effective_gas_price (max_priority_fee_per_gas max_fee_per_gas base_fee_per_gas : U256) : U256 :=
  saturating_add u256_max (N.min max_priority_fee_per_gas (saturating_sub max_fee_per_gas base_fee_per_gas)) base_fee_per_gas.
Definition decode_eth (expected_chain_id : option N) (min_gas_price : N) (tx : EthTransaction) : string + Decoded :=
  let hash := eth_message_hash tx in
  match tx with
  | Legacy m r s standard_v chain_id gas_price =>
      if negb (signature_from_scalars r s) then inl "signature from_scalars"
      else match recovery_id_from_byte standard_v with
           | None => inl "bad recovery id"
           | Some recid =>
               inr {| dec_chain_id := match chain_id with Some c => Some c | None => expected_chain_id end;
                      dec_r := r; dec_s := s; dec_recid := recid; dec_hash := hash; dec_message := m; dec_gas_price := gas_price |}
           end
  | EIP2930 m r s odd_y_parity chain_id gas_price =>
      if negb (signature_from_scalars r s) then inl "signature from_scalars"
      else inr {| dec_chain_id := Some chain_id; dec_r := r; dec_s := s; dec_recid := recovery_id_new odd_y_parity;
                  dec_hash := hash; dec_message := m; dec_gas_price := gas_price |}
  | EIP1559 m r s odd_y_parity chain_id max_priority_fee_per_gas max_fee_per_gas =>
      if negb (signature_from_scalars r s) then inl "signature from_scalars"
      else if (max_fee_per_gas <? max_priority_fee_per_gas)%N then inl "invalid gas price"
      else if (max_fee_per_gas <? min_gas_price)%N then inl "gas price too low"
      else inr {| dec_chain_id := Some chain_id; dec_r := r; dec_s := s; dec_recid := recovery_id_new odd_y_parity;
                  dec_hash := hash; dec_message := m;
                  dec_gas_price := effective_gas_price max_priority_fee_per_gas max_fee_per_gas min_gas_price |}
  end.

(** [try_into] an integer of fewer bits. *)
Definition narrow (mx n : N) : option N := if (n <=? mx)%N then Some n else None.

(** The derived encodings of the bodies, and [secp256k1::PublicKey::from_bytes] of the encoded point. *)
Class EvmBodies := {
  #[global] eb_call :: CborValue EvmCall;
  #[global] eb_create :: CborValue EvmCreate;
  encoded_point_from_bytes : bytes → bool;
}.
Context `{!EvmBodies}.
Definition eth_call_of (m : EthMessage) : Call :=
  let '(method, body) := match eth_action m with
    | ActionCall address => ("evm.Call", to_value {| evk_address := address; evk_value := eth_value m; evk_data := eth_input m |})
    | ActionCreate => ("evm.Create", to_value {| evc_value := eth_value m; evc_init_code := eth_input m |})
    end in
  {| call_format := Plain; call_method := method; call_body := body; call_read_only := false |}.
Definition raw_decode (body : bytes) (expected_chain_id : option N) (min_gas_price : N) (denom : Denomination)
    : string + Transaction :=
  match eth_decode body with
  | None => inl "decoding transaction rlp"
  | Some tx =>
      match decode_eth expected_chain_id min_gas_price tx with
      | inl e => inl e
      | inr d =>
          if bool_decide (dec_chain_id d ≠ expected_chain_id) then inl "chain ID"
          else
            let m := dec_message d in
            match recover_low (dec_r d) (dec_s d) (dec_recid d) (dec_hash d) with
            | inl e => inl e
            | inr (_, key) =>
                match narrow u64_max (eth_nonce m) with
                | None => inl "converting nonce"
                | Some nonce =>
                    match narrow u128_max (dec_gas_price d) with
                    | None => inl "converting gas price"
                    | Some gas_price =>
                        match narrow u64_max (eth_gas_limit m) with
                        | None => inl "converting gas limit"
                        | Some gas_limit =>
                            match checked_mul u128_max gas_price gas_limit with
                            | None => inl "computing total fee amount"
                            | Some resolved_fee_amount =>
                                if negb (encoded_point_from_bytes key) then inl "sdk secp256k1 public key from bytes"
                                else inr {|
                                  tx_version := LATEST_TRANSACTION_VERSION;
                                  tx_call := eth_call_of m;
                                  tx_auth_info := {|
                                    signer_info := [{| si_address_spec := AddrSignature (SpecSecp256k1Eth key); si_nonce := nonce |}];
                                    ai_fee := {| fee_amount := BaseUnits_new resolved_fee_amount denom; fee_gas := gas_limit;
                                                 fee_consensus_messages := 0; fee_proxy := None |};
                                    not_before := None; not_after := None |} |}
                            end
                        end
                    end
                end
            end
      end
  end.
End raw_tx.
