(* ===== verification/Rofl.v ===== *)
(** The ROFL module: a registry of applications that run in enclaves outside of the chain, and of their instances,
    whose keys are endorsed for a number of epochs
    (src/runtime-sdk/src/modules/rofl/{mod,app_id,policy,state,types,config,error,event}.rs). *)
From stdpp Require Import pretty.
From S2P Require Import Prelude Endian Storage StoreIter Types Fee Errors State Current Transactions Module.
From S2P Require Import Tables CallFormat Core Accounts Dispatcher.

Local Open Scope string_scope.

Definition ROFL_MODULE_NAME : string := "rofl".

(** * Identifiers of applications *)

Definition APP_ID_VERSION_SIZE : nat := 1.
Definition APP_ID_DATA_SIZE : nat := 20.
Definition APP_ID_SIZE : nat := APP_ID_VERSION_SIZE + APP_ID_DATA_SIZE.
Definition APP_ID_V0_VERSION : Byte.byte := x00.
Definition APP_ID_CRI_CONTEXT : bytes := str "oasis-sdk/rofl: cri app id".
Definition APP_ID_CN_CONTEXT : bytes := str "oasis-sdk/rofl: cn app id".
Definition APP_ID_GLOBAL_NAME_CONTEXT : bytes := str "oasis-sdk/rofl: global name app id".

Definition AppId := bytes_n APP_ID_SIZE.
Definition app_id_default : AppId := exist _ (replicate 21 x00) eq_refl.
Lemma app_id_new_size (version : Byte.byte) (h : Hash) :
  length (version :: take APP_ID_DATA_SIZE (raw h)) = APP_ID_SIZE.
Proof. exact (address_new_size version h). Qed.
Definition app_id_new `{Crypto} (ctx : bytes) (version : Byte.byte) (data : bytes) : AppId :=
  let h := digest [ctx; [version]; data] in
  exist _ (version :: take APP_ID_DATA_SIZE (raw h)) (app_id_new_size version h).
Definition from_global_name `{Crypto} (name : string) : AppId :=
  app_id_new APP_ID_GLOBAL_NAME_CONTEXT APP_ID_V0_VERSION (str name).
Definition from_creator_round_index `{Crypto} (creator : Address) (round index : N) : AppId :=
  app_id_new APP_ID_CRI_CONTEXT APP_ID_V0_VERSION (raw creator ++ be_bytes64 round ++ be_bytes32 index)%list.
Definition from_creator_nonce `{Crypto} (creator : Address) (n : N) : AppId :=
  app_id_new APP_ID_CN_CONTEXT APP_ID_V0_VERSION (raw creator ++ be_bytes64 n)%list.
Definition app_id_from_bytes (data : bytes) : option AppId := bytes_n_of APP_ID_SIZE data.

Definition StringMap := gmap string string.

(** * Errors and events *)

Inductive RoflError :=
  | RfInvalidArgument
  | UnknownApp
  | NotSignedByRAK
  | NotSignedByExtraKey
  | UnknownEnclave
  | UnknownNode
  | NodeNotAllowed
  | RegistrationExpired
  | ExtraKeyUpdateNotAllowed
  | AppAlreadyExists
  | RfForbidden
  | UnknownInstance
  | PlainCallFormatNotAllowed
  | EndorsementPolicyTooDeep (max : N)
  | EndorsementPolicyTooManyAtoms (max : N)
  | PolicyMaxExpirationTooHigh (max : N)
  | RfCore (source : CoreError)
  | RfAccounts (source : AccountsError)
  | RfAbort (source : DispatcherError).

(** The module of transparent errors is that of their source. *)
#[export] Instance rofl_sdk_error : SdkError RoflError := {
  module_name e := match e with
                   | RfCore source => module_name source
                   | RfAccounts source => module_name source
                   | RfAbort source => module_name source
                   | _ => ROFL_MODULE_NAME
                   end;
  code e := match e with
            | RfInvalidArgument => 1
            | UnknownApp => 2
            | NotSignedByRAK => 3
            | NotSignedByExtraKey => 4
            | UnknownEnclave => 5
            | UnknownNode => 6
            | NodeNotAllowed => 7
            | RegistrationExpired => 8
            | ExtraKeyUpdateNotAllowed => 9
            | AppAlreadyExists => 10
            | RfForbidden => 11
            | UnknownInstance => 12
            | PlainCallFormatNotAllowed => 13
            | EndorsementPolicyTooDeep _ => 14
            | EndorsementPolicyTooManyAtoms _ => 15
            | PolicyMaxExpirationTooHigh _ => 16
            | RfCore source => code source
            | RfAccounts source => code source
            | RfAbort source => code source
            end%N;
  to_string e := match e with
                 | RfInvalidArgument => "invalid argument"
                 | UnknownApp => "unknown application"
                 | NotSignedByRAK => "tx not signed by RAK"
                 | NotSignedByExtraKey => "tx not signed by extra key"
                 | UnknownEnclave => "unknown enclave"
                 | UnknownNode => "unknown node"
                 | NodeNotAllowed => "endorsement from given node not allowed"
                 | RegistrationExpired => "registration expired"
                 | ExtraKeyUpdateNotAllowed => "extra key update not allowed"
                 | AppAlreadyExists => "application already exists"
                 | RfForbidden => "forbidden"
                 | UnknownInstance => "unknown instance"
                 | PlainCallFormatNotAllowed => "must use non-plain call format"
                 | EndorsementPolicyTooDeep max => "endorsement policy too deep (max depth: " +:+ pretty max +:+ ")"
                 | EndorsementPolicyTooManyAtoms max => "endorsement policy has too many atoms (max: " +:+ pretty max +:+ ")"
                 | PolicyMaxExpirationTooHigh max => "max expiration in policy set too high (max: " +:+ pretty max +:+ ")"
                 | RfCore source => "core: " +:+ to_string source
                 | RfAccounts source => "accounts: " +:+ to_string source
                 | RfAbort source => to_string source
                 end;
  into_abort e := match e with
                  | RfCore source => into_abort source
                  | RfAccounts source => into_abort source
                  | RfAbort source => Some source
                  | _ => None
                  end;
}.

Inductive RoflEvent :=
  | AppCreated (id : AppId)
  | AppUpdated (id : AppId)
  | AppRemoved (id : AppId)
  | InstanceRegistered (app_id : AppId) (rak : PublicKey).
Definition rofl_event_code (e : RoflEvent) : N :=
  match e with AppCreated _ => 1 | AppUpdated _ => 2 | AppRemoved _ => 3 | InstanceRegistered _ _ => 4 end.

(** * Third-party code

    Attestation, the registry of the consensus layer, the key manager and the TupleHash function are outside of the
    repository. *)
Class RoflPlatform := {
  (** [sgx::QuotePolicy], [sgx::EnclaveIdentity] and [registry::EndorsedCapabilityTEE] *)
  QuotePolicy : Type;
  quote_policy_default : QuotePolicy;
  EnclaveIdentity : Type;
  enclave_identity_eq_dec :: EqDecision EnclaveIdentity;
  EndorsedCapabilityTEE : Type;
  (** the attestation and encryption keys of the enclave, and the node that endorses it *)
  ect_rak : EndorsedCapabilityTEE → bytes;
  ect_rek : EndorsedCapabilityTEE → option bytes;
  ect_node : EndorsedCapabilityTEE → bytes;
  (** [verify]: the identity of the enclave and the endorsing node *)
  ect_verify : QuotePolicy → EndorsedCapabilityTEE → option (EnclaveIdentity * option bytes);
  (** [verify_endorsement], or the message of its error *)
  ect_verify_endorsement : EndorsedCapabilityTEE → string + unit;
  (** [registry::Node], the roles it has and whether it is registered for this version of the runtime *)
  ConsensusNode : Type;
  nd_entity_id : ConsensusNode → bytes;
  nd_expiration : ConsensusNode → N;
  nd_is_compute_worker : ConsensusNode → bool;
  nd_is_observer : ConsensusNode → bool;
  nd_has_runtime : ConsensusNode → bool;
  (** [registry.node] in the consensus state of a block of the given round; [None] when the lookup fails *)
  registry_node : N → bytes → option (option ConsensusNode);
  (** the identifier of a key pair, and the secret, public and state keys that the key manager has for it *)
  get_key_pair_id : list bytes → bytes;
  get_or_create_keys : bytes → string + (bytes * bytes * bytes);
  km_not_initialized : string;
  (** [cbor::to_vec] of a map of strings to bytes *)
  dom_to_vec : gmap string bytes → bytes;
  (** [Address::from_consensus_pk] *)
  from_consensus_pk : bytes → Address;
}.

(** * Policies *)

Definition MAX_ENDORSEMENT_POLICY_DEPTH : nat := 4.

Inductive AllowedEndorsement :=
  | AllowAny
  | AllowComputeRole
  | AllowObserverRole
  | AllowEntity (id : bytes)
  | AllowNode (id : bytes)
  | AllowProvider (a : Address)
  | AllowProviderInstanceAdmin (a : Address)
  | AllowAnd (l : list AllowedEndorsement)
  | AllowOr (l : list AllowedEndorsement).
Inductive EndorsementPolicyOperator := OpAnd | OpOr.
Inductive FeePolicy := InstancePays | EndorsingNodePays.

Record AppAuthPolicy `{RoflPlatform} := {
  quotes : QuotePolicy;
  enclaves : list EnclaveIdentity;
  endorsements : list AllowedEndorsement;
  fees : FeePolicy;
  max_expiration : N;
}.

Class RoflConfig `{Platform, !RoflPlatform} := {
  GAS_COST_CALL_CREATE : N;
  GAS_COST_CALL_UPDATE : N;
  GAS_COST_CALL_REMOVE : N;
  GAS_COST_CALL_REGISTER : N;
  GAS_COST_CALL_IS_AUTHORIZED_ORIGIN : N;
  GAS_COST_CALL_AUTHORIZED_ORIGIN_NODE : N;
  GAS_COST_CALL_AUTHORIZED_ORIGIN_ENTITY : N;
  GAS_COST_CALL_ORIGIN_APP : N;
  GAS_COST_CALL_STAKE_THRESHOLDS : N;
  GAS_COST_CALL_DERIVE_KEY : N;
  ROFL_MAX_METADATA_PAIRS : N;
  ROFL_MAX_METADATA_KEY_SIZE : N;
  ROFL_MAX_METADATA_VALUE_SIZE : N;
  STAKE_APP_CREATE : BaseUnits;
  DERIVE_KEY_MAX_KEY_ID_LENGTH : N;
  MAX_ENDORSEMENT_POLICY_ATOMS : N;
  MAX_POLICY_EXPIRATION_EPOCHS : N;
  (** [EndorsementPolicyEvaluator::verify_atom] *)
  verify_atom : Ctx → AllowedEndorsement → EndorsedCapabilityTEE → bytes → option ConsensusNode → StringMap → M RoflError unit;
}.

(** The number of atoms of a policy; [left] is how much deeper a policy may be nested. *)
Fixpoint count_endorsement_atoms (left : nat) (policy : list AllowedEndorsement) : RoflError + N :=
  match left with
  | O => inl (EndorsementPolicyTooDeep (N.of_nat MAX_ENDORSEMENT_POLICY_DEPTH))
  | S left' =>
      (fix count (l : list AllowedEndorsement) (atom_count : N) : RoflError + N :=
        match l with
        | [] => inr atom_count
        | (AllowAnd atoms | AllowOr atoms) :: l' =>
            match count_endorsement_atoms left' atoms with
            | inl e => inl e
            | inr child_atoms => count l' (saturating_add u64_max atom_count child_atoms)
            end
        | _ :: l' => count l' atom_count
        end) policy (N.of_nat (length policy))
  end.

Section policy.
Context `{Platform} `{!RoflPlatform} `{!RoflConfig}.

Definition policy_validate (p : AppAuthPolicy) : RoflError + unit :=
  match count_endorsement_atoms MAX_ENDORSEMENT_POLICY_DEPTH (endorsements p) with
  | inl e => inl e
  | inr atom_count =>
      if (MAX_ENDORSEMENT_POLICY_ATOMS <? atom_count)%N
      then inl (EndorsementPolicyTooManyAtoms MAX_ENDORSEMENT_POLICY_ATOMS)
      else if (MAX_POLICY_EXPIRATION_EPOCHS <? max_expiration p)%N
      then inl (PolicyMaxExpirationTooHigh MAX_POLICY_EXPIRATION_EPOCHS)
      else inr tt
  end.

(** The atoms of a policy, one after the other: [Or] ends at the first that allows, [And] at the first that does
    not. *)
Fixpoint verify_atoms (ctx : Ctx) (op : EndorsementPolicyOperator) (policy : list AllowedEndorsement)
    (ect : EndorsedCapabilityTEE) (node_id : bytes) (node : option ConsensusNode) (metadata : StringMap) (max_depth : nat)
    : M RoflError unit :=
  match max_depth with
  | O => throw NodeNotAllowed
  | S max_depth' =>
      (fix loop (l : list AllowedEndorsement) : M RoflError unit :=
        match l with
        | [] => match op with OpOr => throw NodeNotAllowed | OpAnd => mret tt end
        | atom :: l' =>
            result ← try_ (match atom with
                           | AllowAnd children => verify_atoms ctx OpAnd children ect node_id node metadata max_depth'
                           | AllowOr children => verify_atoms ctx OpOr children ect node_id node metadata max_depth'
                           | _ => verify_atom ctx atom ect node_id node metadata
                           end);
            match op, result with
            | OpOr, inr _ => mret tt
            | OpAnd, inl err => throw err
            | _, _ => loop l'
            end
        end) policy
  end.

(** The endorsing node, which need not be registered. *)
Definition endorsing_node (ctx : Ctx) (node_id : bytes) : M RoflError (option ConsensusNode) :=
  node ← ok_or (registry_node (ctx_round ctx) node_id) UnknownNode;
  match node with
  | None => mret None
  | Some node => if (nd_expiration node <? ctx_epoch ctx)%N then mret None else mret (Some node)
  end.
Definition verify_policy (ctx : Ctx) (policy : list AllowedEndorsement) (ect : EndorsedCapabilityTEE) (metadata : StringMap)
    : M RoflError (option ConsensusNode) :=
  let node_id := ect_node ect in
  node ← endorsing_node ctx node_id;
  verify_atoms ctx OpOr policy ect node_id node metadata MAX_ENDORSEMENT_POLICY_DEPTH ;;
  mret node.
End policy.

(** A tuple of evaluators, and the one for basic atoms. *)
Definition Evaluator `{Platform, !RoflPlatform} : Type :=
  Ctx → AllowedEndorsement → EndorsedCapabilityTEE → bytes → option ConsensusNode → StringMap → M RoflError unit.
Fixpoint verify_atom_tuple `{Platform, !RoflPlatform} (evaluators : list Evaluator) : Evaluator :=
  λ ctx policy ect node_id node metadata,
    match evaluators with
    | [] => throw NodeNotAllowed
    | ev :: rest =>
        r ← try_ (ev ctx policy ect node_id node metadata);
        match r with
        | inr _ => mret tt
        | inl _ => verify_atom_tuple rest ctx policy ect node_id node metadata
        end
    end.
Definition basic_verify_atom `{Platform, !RoflPlatform} : Evaluator := λ ctx policy ect node_id node metadata,
  let allowed :=
    match policy, node with
    | AllowAny, _ => true
    | AllowComputeRole, Some node => nd_is_compute_worker node && nd_has_runtime node
    | AllowObserverRole, Some node => nd_is_observer node && nd_has_runtime node
    | AllowEntity entity_id, Some node => bool_decide (nd_entity_id node = entity_id)
    | AllowNode id, _ => bool_decide (node_id = id)
    | _, _ => false
    end in
  if allowed then mret tt else throw NodeNotAllowed.

(** * Types *)

Inductive IdentifierScheme := CreatorRoundIndex | CreatorNonce.
Inductive KeyKind := EntropyV0 | X25519.
Inductive KeyScope := ScopeGlobal | ScopeNode | ScopeEntity.
Definition key_kind_u8 (k : KeyKind) : Byte.byte := match k with EntropyV0 => x00 | X25519 => x01 end.
Definition key_scope_u8 (s : KeyScope) : Byte.byte := match s with ScopeGlobal => x00 | ScopeNode => x01 | ScopeEntity => x02 end.

Record RoflCreate `{RoflPlatform} := { rc_policy : AppAuthPolicy; rc_scheme : IdentifierScheme; rc_metadata : StringMap }.
Record RoflUpdate `{RoflPlatform} := {
  ru_id : AppId; ru_policy : AppAuthPolicy; ru_admin : option Address; ru_metadata : StringMap; ru_secrets : gmap string bytes;
}.
Record RoflRemove := { rr_id : AppId }.
Record AppConfig `{RoflPlatform} := {
  app_id : AppId;
  app_policy : AppAuthPolicy;
  app_admin : option Address;
  app_stake : BaseUnits;
  app_metadata : StringMap;
  app_secrets : gmap string bytes;
  app_sek : bytes;
}.
Record Register `{RoflPlatform} := {
  rg_app : AppId; rg_ect : EndorsedCapabilityTEE; rg_expiration : N; rg_extra_keys : list PublicKey; rg_metadata : StringMap;
}.
Record DeriveKey := { dk_app : AppId; dk_kind : KeyKind; dk_scope : KeyScope; dk_generation : N; dk_key_id : bytes }.
(** The registration descriptor of an instance. *)
Record Registration := {
  reg_app : AppId; reg_node_id : bytes; reg_entity_id : option bytes; reg_rak : bytes; reg_rek : bytes;
  reg_expiration : N; reg_extra_keys : list PublicKey; reg_metadata : StringMap;
}.
Record DeriveKeyResponse := { dkr_key : bytes }.
Record AppQuery := { aq_id : AppId }.
Record AppInstanceQuery := { aiq_app : AppId; aiq_rak : PublicKey }.
Record RoflStakeThresholds := { app_create : BaseUnits }.
Record MetadataLimits := { max_pairs : N; max_key_size : N; max_value_size : N }.

(** What is known of an endorsed key; the entries of a former version have no application. *)
Record KeyEndorsementInfo := { kei_node_id : bytes; kei_rak : option bytes; kei_app_id : AppId }.
Definition for_rak (node_id : bytes) (app : AppId) : KeyEndorsementInfo :=
  {| kei_node_id := node_id; kei_rak := None; kei_app_id := app |}.
Definition for_extra_key (node_id : bytes) (app : AppId) (rak : bytes) : KeyEndorsementInfo :=
  {| kei_node_id := node_id; kei_rak := Some rak; kei_app_id := app |}.
Inductive StoredEndorsement :=
  | LegacyEndorsement (node_id : bytes) (rak : option bytes)
  | Endorsement (kei : KeyEndorsementInfo).
Definition endorsement_info (e : StoredEndorsement) : KeyEndorsementInfo :=
  match e with
  | LegacyEndorsement node_id rak => {| kei_node_id := node_id; kei_rak := rak; kei_app_id := app_id_default |}
  | Endorsement kei => kei
  end.

Class RoflCodec `{Platform, !RoflPlatform} := {
  rf_parameters_cbor :: Cbor unit;
  rf_app_cbor :: Cbor AppConfig;
  rf_registration_cbor :: Cbor Registration;
  rf_endorsement_cbor :: Cbor StoredEndorsement;
  rf_public_key_cbor :: Cbor bytes;
  rf_event_value : RoflEvent → Value;
  register_from_value : Value → string + Register;
}.

(** * State *)

Definition APPS : bytes := [x01].
Definition REGISTRATIONS : bytes := [x02].
Definition ENDORSERS : bytes := [x03].
Definition EXPIRATION_QUEUE : bytes := [x04].

Definition key_type (pk : PublicKey) : bytes :=
  str (match pk with
       | Ed25519 _ => "ed25519" | Secp256k1 _ => "secp256k1" | Secp256r1 _ => "secp256r1" | Secp384r1 _ => "secp384r1"
       | Sr25519 _ => "sr25519"
       end).
Definition pk_bytes (pk : PublicKey) : bytes :=
  match pk with Ed25519 b | Secp256k1 b | Secp256r1 b | Secp384r1 b | Sr25519 b => b end.
Definition core_public_key (pk : PublicKey) : option bytes := match pk with Ed25519 b => Some b | _ => None end.
Definition hash_pk `{Crypto} (pk : PublicKey) : Hash := digest [key_type pk; pk_bytes pk].
Definition hash_rak `{Crypto} (rak : bytes) : Hash := hash_pk (Ed25519 rak).

(** Keys of the expiration queue: epoch, application and hash of the key. *)
Definition expiration_key (epoch : N) (app : AppId) (hrak : Hash) : bytes := (be_bytes64 epoch ++ raw app ++ raw hrak)%list.
Definition expiration_entry (b : bytes) : string + (N * AppId * Hash) :=
  if negb (length b =? 8 + 21 + 32)%nat then inl "incorrect expiration queue key size"
  else match bytes_n_of APP_ID_SIZE (take 21 (drop 8 b)), bytes_n_of 32 (drop 29 b) with
       | Some app, Some hrak => inr (from_be (take 8 b), app, hrak)
       | _, _ => inl "incorrect expiration queue key size"
       end.
Definition app_id_key (b : bytes) : string + AppId :=
  match app_id_from_bytes b with Some id => inr id | None => inl "malformed identifier" end.
Definition hash_of_key (b : bytes) : string + Hash :=
  match bytes_n_of 32 b with Some h => inr h | None => inl "malformed hash" end.

Definition stake_default : BaseUnits := BaseUnits_new 0 NATIVE.
Definition policy_default `{RoflPlatform} : AppAuthPolicy :=
  {| quotes := quote_policy_default; enclaves := []; endorsements := []; fees := EndorsingNodePays; max_expiration := 0 |}.
Definition x25519_default : bytes := replicate 32 x00.
Definition app_config_default `{RoflPlatform} : AppConfig :=
  {| app_id := app_id_default; app_policy := policy_default; app_admin := None; app_stake := stake_default; app_metadata := ∅;
     app_secrets := ∅; app_sek := x25519_default |}.
Definition registration_default : Registration :=
  {| reg_app := app_id_default; reg_node_id := replicate 32 x00; reg_entity_id := None; reg_rak := replicate 32 x00;
     reg_rek := x25519_default; reg_expiration := 0; reg_extra_keys := []; reg_metadata := ∅ |}.

Section state.
Context `{Platform} `{!RoflPlatform} `{!RoflCodec}.

Definition rofl_store : StoreRef := PrefixStore CurrentStore (str ROFL_MODULE_NAME).
Definition apps_ref : StoreRef := PrefixStore rofl_store APPS.
Definition registrations_ref (app : AppId) : StoreRef := PrefixStore (PrefixStore rofl_store REGISTRATIONS) (raw app).
Definition endorsers_ref : StoreRef := PrefixStore rofl_store ENDORSERS.
Definition expirations_ref : StoreRef := PrefixStore rofl_store EXPIRATION_QUEUE.

Definition get_app {E} (app : AppId) : M E (option AppConfig) := typed_get apps_ref (raw app).
Definition get_apps {E} : M E (list AppConfig) := l ← typed_iter app_id_key app_config_default apps_ref; mret l.*2.
Definition set_app {E} (cfg : AppConfig) : M E unit := typed_insert apps_ref (raw (app_id cfg)) cfg.
Definition remove_app {E} (app : AppId) : M E unit := typed_remove apps_ref (raw app).

(** The queue holds empty values. *)
Definition insert_expiration_queue {E} (epoch : N) (app : AppId) (hrak : Hash) : M E unit :=
  st ← store; put_store (ref_insert st expirations_ref (expiration_key epoch app hrak) []).
Definition remove_expiration_queue {E} (epoch : N) (app : AppId) (hrak : Hash) : M E unit :=
  typed_remove expirations_ref (expiration_key epoch app hrak).

Definition get_registration_hrak {E} (app : AppId) (hrak : Hash) : M E (option Registration) :=
  typed_get (registrations_ref app) (raw hrak).
Definition state_get_registration {E} (app : AppId) (rak : bytes) : M E (option Registration) :=
  get_registration_hrak app (hash_rak rak).
Definition get_registrations_for_app {E} (app : AppId) : M E (list Registration) :=
  l ← typed_iter hash_of_key registration_default (registrations_ref app); mret l.*2.
Definition get_endorser {E} (pk : PublicKey) : M E (option KeyEndorsementInfo) :=
  kei ← typed_get endorsers_ref (raw (hash_pk pk)); mret (endorsement_info <$> kei).

Definition update_registration (r : Registration) : M RoflError unit :=
  let hrak := hash_rak (reg_rak r) in
  existing ← get_registration_hrak (reg_app r) hrak;
  (match existing with
   | Some existing =>
       if bool_decide (reg_extra_keys existing ≠ reg_extra_keys r) then throw ExtraKeyUpdateNotAllowed
       else remove_expiration_queue (reg_expiration existing) (reg_app r) hrak
   | None => mret tt
   end) ;;
  insert_expiration_queue (reg_expiration r) (reg_app r) hrak ;;
  typed_insert endorsers_ref (raw hrak) (Endorsement (for_rak (reg_node_id r) (reg_app r))) ;;
  for_each (reg_extra_keys r) (λ pk,
    typed_insert endorsers_ref (raw (hash_pk pk)) (Endorsement (for_extra_key (reg_node_id r) (reg_app r) (reg_rak r)))) ;;
  typed_insert (registrations_ref (reg_app r)) (raw hrak) r.

Definition remove_registration_hrak {E} (app : AppId) (hrak : Hash) : M E unit :=
  existing ← get_registration_hrak app hrak;
  match existing with
  | None => mret tt
  | Some r =>
      remove_expiration_queue (reg_expiration r) (reg_app r) hrak ;;
      typed_remove endorsers_ref (raw hrak) ;;
      for_each (reg_extra_keys r) (λ pk, typed_remove endorsers_ref (raw (hash_pk pk))) ;;
      typed_remove (registrations_ref app) (raw hrak)
  end.
Definition remove_registration {E} (app : AppId) (rak : bytes) : M E unit := remove_registration_hrak app (hash_rak rak).

(** The first [limit] entries of the queue up to an epoch; the others are not decoded. *)
Fixpoint take_expired {E} (epoch : N) (limit : nat) (l : list (bytes * bytes)) : M E (list (AppId * Hash)) :=
  match limit, l with
  | O, _ | _, [] => mret []
  | S limit', kv :: l' =>
      x ← typed_item (V := bytes) expiration_entry [] kv;
      let '(e, app, hrak) := x.1 in
      if (e <=? epoch)%N then xs ← take_expired epoch limit' l'; mret ((app, hrak) :: xs)%list else mret []
  end.
Definition expire_registrations {E} (epoch : N) (limit : nat) : M E unit :=
  st ← store;
  expired ← (match ref_collect st expirations_ref with
             | Ok l => take_expired epoch limit l
             | Err e => match e with end
             | Panic msg => panic msg
             end);
  for_each expired (λ x, remove_registration_hrak x.1 x.2).
End state.

(** * Operations *)

Definition ADDRESS_APP_STAKE_POOL `{Crypto} : Address := from_module ROFL_MODULE_NAME "app-stake-pool".
Definition ROFL_DERIVE_KEY_CONTEXT : bytes := str "oasis-runtime-sdk/rofl: derive key v1".
Definition ROFL_KEY_ID_SEK : bytes := str "oasis-runtime-sdk/rofl: secrets encryption key v1".

(** [AddressSpec::public_key] and [CallFormat::is_encrypted]. *)
Definition addr_public_key (spec : AddressSpec) : option PublicKey :=
  match spec with AddrSignature spec => Some (spec_public_key spec) | _ => None end.
Definition is_encrypted (f : CallFormat) : bool := match f with Plain => false | EncryptedX25519DeoxysII => true end.
(** [Environment::tx_caller_public_key], which panics outside of a transaction. *)
Definition caller_public_key (ai : AuthInfo) : option PublicKey :=
  head (signer_info ai) ≫= λ si, addr_public_key (si_address_spec si).
Definition env_tx_caller_public_key `{Platform} (e : Environment) : option (option PublicKey) :=
  caller_public_key <$> env_tx_auth_info e.

Record RoflGenesis `{RoflPlatform} := { gen_apps : list AppConfig }.

Section api.
Context `{Platform} `{!RoflPlatform} `{!RoflCodec}.

(** [with_env_origin]: the environment of the transaction that a subcall stems from. *)
Definition with_env_origin {E A} (f : Environment → option A) : M E A :=
  s ← get_st; expect (f (env_origin s)) "only in transaction environment".

Definition get_origin_app {E} : M E (option AppId) :=
  caller_pk ← with_env_origin env_tx_caller_public_key;
  match caller_pk with
  | None => mret None
  | Some pk => kei ← get_endorser pk; mret (kei_app_id <$> kei)
  end.
(** The call may be made by an extra key, which points to the attestation key. *)
Definition get_origin_rak {E} : M E (option PublicKey) :=
  caller_pk ← with_env_origin env_tx_caller_public_key;
  match caller_pk with
  | None => mret None
  | Some pk =>
      kei ← get_endorser pk;
      mret ((λ kei, match kei_rak kei with Some rak => Ed25519 rak | None => pk end) <$> kei)
  end.
Definition get_origin_registration {E} (app : AppId) : M E (option Registration) :=
  rak ← get_origin_rak;
  match rak with
  | None => mret None
  | Some rak => rak ← expect (core_public_key rak) "called `Result::unwrap()` on an `Err` value"; state_get_registration app rak
  end.
Definition is_authorized_origin {E} (app : AppId) : M E bool :=
  r ← get_origin_registration app; mret (bool_decide (is_Some r)).

Definition api_get_registration (app : AppId) (rak : PublicKey) : M RoflError Registration :=
  rak ← ok_or (core_public_key rak) RfInvalidArgument;
  r ← state_get_registration app rak;
  ok_or r UnknownInstance.
Definition api_get_app (id : AppId) : M RoflError AppConfig := cfg ← get_app id; ok_or cfg UnknownApp.
Definition api_get_apps : M RoflError (list AppConfig) := get_apps.
Definition api_get_instances (id : AppId) : M RoflError (list Registration) := get_registrations_for_app id.

(** ** Keys *)

(** The extra domain separation of keys that belong to a node or an entity. *)
Definition extra_domain (scope : KeyScope) (reg : option Registration) : RoflError + gmap string bytes :=
  match scope with
  | ScopeGlobal => inr ∅
  | ScopeNode =>
      match reg with
      | None => inl RfInvalidArgument
      | Some r => inr (<["node_id" := reg_node_id r]> {["scope" := [key_scope_u8 scope]]})
      end
  | ScopeEntity =>
      match reg ≫= reg_entity_id with
      | None => inl RfInvalidArgument
      | Some entity_id => inr (<["entity_id" := entity_id]> {["scope" := [key_scope_u8 scope]]})
      end
  end.
(** The elements of the tuple that is hashed. *)
Definition key_id_tuple (app : AppId) (kind : KeyKind) (key_id : bytes) (extra_dom : gmap string bytes) : list bytes :=
  ([ROFL_DERIVE_KEY_CONTEXT; raw app; [key_kind_u8 kind]; key_id] ++
   (let dom := if bool_decide (extra_dom = ∅) then [] else dom_to_vec extra_dom in
    match dom with [] => [] | _ => [dom] end))%list.
Definition derive_app_key_id (app : AppId) (kind : KeyKind) (scope : KeyScope) (key_id : bytes) (reg : option Registration)
    : RoflError + bytes :=
  match extra_domain scope reg with
  | inl e => inl e
  | inr extra_dom => inr (get_key_pair_id (key_id_tuple app kind key_id extra_dom))
  end.
(** The secret, public and state keys. *)
Definition derive_app_key (ctx : Ctx) (app : AppId) (kind : KeyKind) (scope : KeyScope) (key_id : bytes)
    (reg : option Registration) : M RoflError (bytes * bytes * bytes) :=
  match derive_app_key_id app kind scope key_id reg with
  | inl e => throw e
  | inr id =>
      match ctx_key_manager ctx with
      | None => throw (RfAbort (KeyManagerFailure km_not_initialized))
      | Some _ =>
          match get_or_create_keys id with
          | inl err => throw (RfAbort (KeyManagerFailure err))
          | inr keys => mret keys
          end
      end
  end.
End api.

Section rofl.
Context `{Platform} `{!TxCodec} `{!CoreCodec} `{!CoreConfig} `{!AccountsCodec} `{!RoflPlatform} `{!RoflConfig} `{!RoflCodec}.

Definition rofl_event (e : RoflEvent) : EventTag := etag_for_event ROFL_MODULE_NAME (rofl_event_code e) (rf_event_value e).
Definition emit_rofl_event {E} (e : RoflEvent) : M E unit := emit_event_raw (rofl_event e).
Definition rf_use_gas (gas : N) : M RoflError unit := map_err RfCore (use_tx_gas gas).
Definition rf_transfer (from to : Address) (a : BaseUnits) : M RoflError unit := map_err RfAccounts (transfer from to a).

Definition rofl_init {E} (genesis : RoflGenesis) : M E unit :=
  set_params ROFL_MODULE_NAME tt ;;
  for_each (gen_apps genesis) (λ cfg,
    existing ← get_app (app_id cfg);
    match existing with
    | Some _ => panic "duplicate application in genesis"
    | None => set_app cfg
    end).

(** The limits on metadata and secrets. *)
Definition pairs_ok {V} (len : V → nat) (m : gmap string V) : bool :=
  (N.of_nat (size m) <=? ROFL_MAX_METADATA_PAIRS)%N &&
  forallb (λ kv, (N.of_nat (String.length kv.1) <=? ROFL_MAX_METADATA_KEY_SIZE)%N &&
                 (N.of_nat (len kv.2) <=? ROFL_MAX_METADATA_VALUE_SIZE)%N) (map_to_list m).
Definition check_pairs {V} (len : V → nat) (m : gmap string V) : M RoflError unit :=
  if pairs_ok len m then mret tt else throw RfInvalidArgument.
Definition check_policy (p : AppAuthPolicy) : M RoflError unit :=
  match policy_validate p with inl e => throw e | inr _ => mret tt end.

Definition new_app_id (ctx : Ctx) (creator : Address) (tx_index : N) (scheme : IdentifierScheme) : M RoflError AppId :=
  match scheme with
  | CreatorRoundIndex =>
      if (tx_index <=? u32_max)%N then mret (from_creator_round_index creator (ctx_round ctx) tx_index)
      else throw RfInvalidArgument
  | CreatorNonce => n ← get_nonce creator; mret (from_creator_nonce creator n)
  end.

Definition tx_create (ctx : Ctx) (body : RoflCreate) : M RoflError AppId :=
  rf_use_gas GAS_COST_CALL_CREATE ;;
  check_pairs String.length (rc_metadata body) ;;
  check_policy (rc_policy body) ;;
  check_only ← with_env is_check_only;
  if (check_only : bool) then mret app_id_default else
  creator ← with_tx_env env_tx_caller_address;
  tx_index ← with_tx_env env_tx_index;
  id ← new_app_id ctx creator tx_index (rc_scheme body);
  existing ← get_app id;
  match existing with
  | Some _ => throw AppAlreadyExists
  | None =>
      rf_transfer creator ADDRESS_APP_STAKE_POOL STAKE_APP_CREATE ;;
      keys ← derive_app_key ctx id X25519 ScopeGlobal ROFL_KEY_ID_SEK None;
      set_app {| app_id := id; app_policy := rc_policy body; app_admin := Some creator; app_stake := STAKE_APP_CREATE;
                 app_metadata := rc_metadata body; app_secrets := ∅; app_sek := keys.1.2 |} ;;
      emit_rofl_event (AppCreated id) ;;
      mret id
  end.

Definition ensure_caller_is_admin (cfg : AppConfig) : M RoflError unit :=
  caller ← with_tx_env env_tx_caller_address;
  if bool_decide (app_admin cfg = Some caller) then mret tt else throw RfForbidden.

Definition tx_update (ctx : Ctx) (body : RoflUpdate) : M RoflError unit :=
  rf_use_gas GAS_COST_CALL_UPDATE ;;
  check_pairs String.length (ru_metadata body) ;;
  check_pairs List.length (ru_secrets body) ;;
  check_policy (ru_policy body) ;;
  cfg ← api_get_app (ru_id body);
  ensure_caller_is_admin cfg ;;
  check_only ← with_env is_check_only;
  if (check_only : bool) then mret tt else
  sek ← (if bool_decide (app_sek cfg = x25519_default)
         then keys ← derive_app_key ctx (ru_id body) X25519 ScopeGlobal ROFL_KEY_ID_SEK None; mret keys.1.2
         else mret (app_sek cfg));
  set_app {| app_id := app_id cfg; app_policy := ru_policy body; app_admin := ru_admin body; app_stake := app_stake cfg;
             app_metadata := ru_metadata body; app_secrets := ru_secrets body; app_sek := sek |} ;;
  emit_rofl_event (AppUpdated (ru_id body)).

Definition tx_remove (_ : Ctx) (body : RoflRemove) : M RoflError unit :=
  rf_use_gas GAS_COST_CALL_REMOVE ;;
  cfg ← api_get_app (rr_id body);
  ensure_caller_is_admin cfg ;;
  check_only ← with_env is_check_only;
  if (check_only : bool) then mret tt else
  remove_app (rr_id body) ;;
  (match app_admin cfg with
   | Some admin => rf_transfer ADDRESS_APP_STAKE_POOL admin (app_stake cfg)
   | None => mret tt
   end) ;;
  emit_rofl_event (AppRemoved (rr_id body)).

(** The keys that have signed the transaction. *)
Definition signer_pks (ai : AuthInfo) : list PublicKey := omap (λ si, addr_public_key (si_address_spec si)) (signer_info ai).

(** What the platform attests of an instance, checked against the policy of its application. *)
Definition verified_registration (ctx : Ctx) (cfg : AppConfig) (body : Register) : M RoflError Registration :=
  v ← ok_or (ect_verify (quotes (app_policy cfg)) (rg_ect body)) RfInvalidArgument;
  let '(identity, node_id) := v in
  if negb (bool_decide (identity ∈ enclaves (app_policy cfg))) then throw UnknownEnclave else
  node ← verify_policy ctx (endorsements (app_policy cfg)) (rg_ect body) (rg_metadata body);
  node_id ← expect node_id "called `Option::unwrap()` on a `None` value";
  rek ← ok_or (ect_rek (rg_ect body)) RfInvalidArgument;
  mret {| reg_app := rg_app body; reg_node_id := node_id; reg_entity_id := nd_entity_id <$> node;
          reg_rak := ect_rak (rg_ect body); reg_rek := rek; reg_expiration := rg_expiration body;
          reg_extra_keys := rg_extra_keys body; reg_metadata := rg_metadata body |}.

Definition tx_register (ctx : Ctx) (body : Register) : M RoflError unit :=
  rf_use_gas GAS_COST_CALL_REGISTER ;;
  if (rg_expiration body <=? ctx_epoch ctx)%N then throw RegistrationExpired else
  check_pairs String.length (rg_metadata body) ;;
  cfg ← api_get_app (rg_app body);
  if (max_expiration (app_policy cfg) <? rg_expiration body - ctx_epoch ctx)%N then throw RfInvalidArgument else
  ai ← with_tx_env env_tx_auth_info;
  let signers := signer_pks ai in
  if negb (bool_decide (Ed25519 (ect_rak (rg_ect body)) ∈ signers)) then throw NotSignedByRAK else
  if negb (forallb (λ pk, bool_decide (pk ∈ signers)) (rg_extra_keys body)) then throw NotSignedByExtraKey else
  check_only ← with_env is_check_only;
  if (check_only : bool) then mret tt else
  r ← verified_registration ctx cfg body;
  update_registration r ;;
  emit_rofl_event (InstanceRegistered (rg_app body) (Ed25519 (ect_rak (rg_ect body)))).

Definition tx_derive_key (ctx : Ctx) (body : DeriveKey) : M RoflError DeriveKeyResponse :=
  rf_use_gas GAS_COST_CALL_DERIVE_KEY ;;
  format ← with_tx_env env_tx_call_format;
  if negb (is_encrypted format) then throw PlainCallFormatNotAllowed else
  if negb (dk_generation body =? 0)%N then throw RfInvalidArgument else
  if (DERIVE_KEY_MAX_KEY_ID_LENGTH <? N.of_nat (List.length (dk_key_id body)))%N then throw RfInvalidArgument else
  internal ← with_env env_internal;
  if (internal : bool) then throw RfForbidden else
  check_only ← with_env is_check_only;
  if (check_only : bool) then mret {| dkr_key := [] |} else
  r ← get_origin_registration (dk_app body);
  reg ← ok_or r RfForbidden;
  keys ← derive_app_key ctx (dk_app body) (dk_kind body) (dk_scope body) (dk_key_id body) (Some reg);
  mret {| dkr_key := match dk_kind body with EntropyV0 => keys.2 | X25519 => keys.1.1 end |}.

(** ** Internal calls and queries *)

Definition internal_is_authorized_origin (_ : Ctx) (app : AppId) : M RoflError bool :=
  rf_use_gas GAS_COST_CALL_IS_AUTHORIZED_ORIGIN ;; is_authorized_origin app.
Definition internal_authorized_origin_node (_ : Ctx) (app : AppId) : M RoflError bytes :=
  rf_use_gas GAS_COST_CALL_AUTHORIZED_ORIGIN_NODE ;;
  r ← get_origin_registration app; registration ← ok_or r UnknownInstance; mret (reg_node_id registration).
Definition internal_authorized_origin_entity (_ : Ctx) (app : AppId) : M RoflError (option bytes) :=
  rf_use_gas GAS_COST_CALL_AUTHORIZED_ORIGIN_ENTITY ;;
  r ← get_origin_registration app; registration ← ok_or r UnknownInstance; mret (reg_entity_id registration).
Definition internal_origin_app (_ : Ctx) : M RoflError AppId :=
  rf_use_gas GAS_COST_CALL_ORIGIN_APP ;; app ← get_origin_app; ok_or app UnknownInstance.
Definition query_app (_ : Ctx) (args : AppQuery) : M RoflError AppConfig := api_get_app (aq_id args).
Definition query_apps (_ : Ctx) : M RoflError (list AppConfig) := api_get_apps.
Definition query_app_instance (_ : Ctx) (args : AppInstanceQuery) : M RoflError Registration :=
  api_get_registration (aiq_app args) (aiq_rak args).
Definition query_app_instances (_ : Ctx) (args : AppQuery) : M RoflError (list Registration) := api_get_instances (aq_id args).
Definition rofl_query_stake_thresholds (_ : Ctx) : M RoflError RoflStakeThresholds := mret {| app_create := STAKE_APP_CREATE |}.
Definition internal_query_stake_thresholds (_ : Ctx) : M RoflError RoflStakeThresholds :=
  rf_use_gas GAS_COST_CALL_STAKE_THRESHOLDS ;; mret {| app_create := STAKE_APP_CREATE |}.
Definition query_metadata_limits (_ : Ctx) : M RoflError MetadataLimits :=
  mret {| max_pairs := ROFL_MAX_METADATA_PAIRS; max_key_size := ROFL_MAX_METADATA_KEY_SIZE;
          max_value_size := ROFL_MAX_METADATA_VALUE_SIZE |}.

(** ** Fees *)

(** Who pays for a transaction of an instance: the node that endorses it.  Errors are given by their text. *)
Definition resolve_payer_from_tx (ctx : Ctx) (tx : Transaction) (app : AppId) : M string (option Address) :=
  let caller_pk := caller_public_key (tx_auth_info tx) in
  if String.eqb (call_method (tx_call tx)) "rofl.Register" then
    match register_from_value (call_body (tx_call tx)) with
    | inl err => throw err
    | inr body =>
        if negb (bool_decide (rg_app body = app)) then throw (to_string RfInvalidArgument) else
        if (rg_expiration body <=? ctx_epoch ctx)%N then throw (to_string RegistrationExpired) else
        caller_pk ← ok_or caller_pk (to_string NotSignedByRAK);
        if negb (bool_decide (caller_pk = Ed25519 (ect_rak (rg_ect body)))) then throw (to_string NotSignedByRAK) else
        match ect_verify_endorsement (rg_ect body) with
        | inl err => throw err
        | inr _ => mret (Some (from_consensus_pk (ect_node (rg_ect body))))
        end
    end
  else
    match caller_pk with
    | None => mret None
    | Some pk =>
        endorser ← get_endorser pk;
        match endorser with
        | None => mret None
        | Some ei =>
            if negb (bool_decide (kei_app_id ei = app)) then throw (to_string RfInvalidArgument)
            else mret (Some (from_consensus_pk (kei_node_id ei)))
        end
    end.
Definition rofl_resolve_payer (ctx : Ctx) (tx : Transaction) : M CoreError (option Address) :=
  match fee_proxy (ai_fee (tx_auth_info tx)) with
  | None => mret None
  | Some proxy =>
      if negb (String.eqb (proxy_module proxy) ROFL_MODULE_NAME) then mret None else
      app ← ok_or (app_id_from_bytes (proxy_id proxy)) (InvalidArgument "malformed identifier");
      cfg ← get_app app;
      policy ← ok_or (app_policy <$> cfg) (InvalidArgument (to_string UnknownApp));
      match fees policy with
      | InstancePays => mret None
      | EndorsingNodePays => map_err InvalidArgument (resolve_payer_from_tx ctx tx app)
      end
  end.

(** ** Blocks *)

Definition rofl_end_block (ctx : Ctx) : M Empty_set unit :=
  changed ← has_epoch_changed;
  if (changed : bool) then expire_registrations (ctx_epoch ctx) 128 else mret tt.
End rofl.
