(* ===== verification/Market.v ===== *)
(** The ROFL market module: providers offer machines, users rent instances of them for terms that they pay in
    advance, and providers claim the payment as the time passes
    (src/runtime-sdk/modules/rofl-market/src/{lib,types,state,payment,config,error,event,policy}.rs). *)
From stdpp Require Import pretty.
From S2P Require Import Prelude Endian Storage StoreIter Types Fee Errors State Current Transactions Module.
From S2P Require Import Tables CallFormat Core Accounts Dispatcher Subcall EvmTypes Rofl.

Local Open Scope string_scope.

Definition MARKET_MODULE_NAME : string := "roflmarket".

(** * Errors and events *)

Inductive MarketError :=
  | MkInvalidArgument
  | ProviderAlreadyExists
  | ProviderNotFound
  | MkForbidden
  | ProviderHasInstances
  | OutOfCapacity
  | OfferNotFound
  | InstanceNotFound
  | TooManyQueuedCommands
  | PaymentFailed (msg : string)
  | BadResourceDescriptor (msg : string)
  | InvalidInstanceState
  | MkCore (source : CoreError)
  | MkAccounts (source : AccountsError)
  | MkEvm (source : EvmError)
  | MkAbort (source : DispatcherError).

Inductive MarketEvent :=
  | ProviderCreated (address : Address)
  | ProviderUpdated (address : Address)
  | ProviderRemoved (address : Address)
  | InstanceCreated (provider : Address) (id : N)
  | InstanceUpdated (provider : Address) (id : N)
  | InstanceAccepted (provider : Address) (id : N)
  | InstanceCancelled (provider : Address) (id : N)
  | InstanceRemoved (provider : Address) (id : N)
  | InstanceCommandQueued (provider : Address) (id : N).
Definition market_event_code (e : MarketEvent) : N :=
  match e with
  | ProviderCreated _ => 1
  | ProviderUpdated _ => 2
  | ProviderRemoved _ => 3
  | InstanceCreated _ _ => 4
  | InstanceUpdated _ _ => 5
  | InstanceAccepted _ _ => 6
  | InstanceCancelled _ _ => 7
  | InstanceRemoved _ _ => 8
  | InstanceCommandQueued _ _ => 9
  end.

(** * Types *)

(** Identifiers are numbers, kept as eight bytes in big-endian order.  [increment] returns the previous
    value. *)
Definition increment_id (id : N) : N * N := (id, wrapping_add u64_max id 1).

Inductive Term := Hour | Month | Year.
#[export] Instance Term_eq_dec : EqDecision Term.
Proof. solve_decision. Defined.
#[export] Instance Term_countable : Countable Term.
Proof.
  apply (inj_countable' (λ t, match t with Hour => 0 | Month => 1 | Year => 2 end%nat)
    (λ n, match n with O => Hour | S O => Month | _ => Year end)). by intros [].
Defined.
Definition term_as_u8 (t : Term) : N := match t with Hour => 1 | Month => 2 | Year => 3 end.
Definition term_as_secs (t : Term) : N :=
  match t with Hour => 60 * 60 | Month => 30 * 24 * 60 * 60 | Year => 365 * 24 * 60 * 60 end.

Inductive PaymentAddress := PaNative (address : Address) | PaEth (address : bytes_n 20).
Inductive Payment :=
  | PayNative (pay_denomination : Denomination) (pay_terms : gmap Term N)
  | PayEvmContract (pay_address : bytes_n 20) (pay_data : bytes).

Inductive TeeType := SGX | TDX.
Record GpuResource := { gpu_model : option string; gpu_count : N }.
Record Resources := {
  rs_tee : TeeType; rs_memory : N; rs_cpus : N; rs_storage : N; rs_gpu : option GpuResource;
}.
Definition gpu_validate (g : GpuResource) : MarketError + unit :=
  match gpu_model g with
  | Some model => if (64 <? String.length model)%nat then inl (BadResourceDescriptor "malformed GPU model name") else inr tt
  | None => inr tt
  end.
Definition resources_validate (r : Resources) : MarketError + unit :=
  if (rs_memory r <? 16)%N then inl (BadResourceDescriptor "memory must be at least 16 MiB")
  else if (rs_cpus r <? 1)%N then inl (BadResourceDescriptor "there must be at least 1 vCPU")
  else match rs_gpu r with Some gpu => gpu_validate gpu | None => inr tt end.

Record Offer := {
  of_id : N;
  of_resources : Resources;
  of_payment : Payment;
  of_capacity : N;
  of_metadata : StringMap;
}.
Definition offer_validate (o : Offer) : MarketError + unit := resources_validate (of_resources o).
Definition set_offer_id (id : N) (o : Offer) : Offer :=
  {| of_id := id; of_resources := of_resources o; of_payment := of_payment o; of_capacity := of_capacity o;
     of_metadata := of_metadata o |}.
Definition set_capacity (c : N) (o : Offer) : Offer :=
  {| of_id := of_id o; of_resources := of_resources o; of_payment := of_payment o; of_capacity := c;
     of_metadata := of_metadata o |}.

Record Provider := {
  pr_address : Address;
  pr_nodes : list bytes;
  pr_scheduler_app : AppId;
  pr_payment_address : PaymentAddress;
  pr_metadata : StringMap;
  pr_stake : BaseUnits;
  offers_next_id : N;
  offers_count : N;
  instances_next_id : N;
  instances_count : N;
  pr_created_at : N;
  pr_updated_at : N;
}.
(** The descriptor that the provider controls is replaced. *)
Definition set_descriptor (nodes : list bytes) (app : AppId) (pay : PaymentAddress) (metadata : StringMap) (now : N)
    (p : Provider) : Provider :=
  {| pr_address := pr_address p; pr_nodes := nodes; pr_scheduler_app := app; pr_payment_address := pay;
     pr_metadata := metadata; pr_stake := pr_stake p; offers_next_id := offers_next_id p;
     offers_count := offers_count p; instances_next_id := instances_next_id p; instances_count := instances_count p;
     pr_created_at := pr_created_at p; pr_updated_at := now |}.
Definition set_offers (next count now : N) (p : Provider) : Provider :=
  {| pr_address := pr_address p; pr_nodes := pr_nodes p; pr_scheduler_app := pr_scheduler_app p;
     pr_payment_address := pr_payment_address p; pr_metadata := pr_metadata p; pr_stake := pr_stake p;
     offers_next_id := next; offers_count := count; instances_next_id := instances_next_id p;
     instances_count := instances_count p; pr_created_at := pr_created_at p; pr_updated_at := now |}.
Definition set_instances (next count now : N) (p : Provider) : Provider :=
  {| pr_address := pr_address p; pr_nodes := pr_nodes p; pr_scheduler_app := pr_scheduler_app p;
     pr_payment_address := pr_payment_address p; pr_metadata := pr_metadata p; pr_stake := pr_stake p;
     offers_next_id := offers_next_id p; offers_count := offers_count p; instances_next_id := next;
     instances_count := count; pr_created_at := pr_created_at p; pr_updated_at := now |}.

Inductive InstanceStatus := Created | Accepted | Cancelled.
#[export] Instance InstanceStatus_eq_dec : EqDecision InstanceStatus.
Proof. solve_decision. Defined.
Record Deployment := { dp_app_id : AppId; dp_manifest_hash : Hash; dp_metadata : StringMap }.

(** [types::Instance]. *)
Record MarketInstance := {
  in_provider : Address;
  in_id : N;
  in_offer : N;
  in_status : InstanceStatus;
  in_creator : Address;
  in_admin : Address;
  in_node_id : option bytes;
  in_metadata : StringMap;
  in_resources : Resources;
  in_deployment : option Deployment;
  in_created_at : N;
  in_updated_at : N;
  in_paid_from : N;
  in_paid_until : N;
  in_payment : Payment;
  in_payment_address : bytes_n 20;
  in_refund_data : bytes;
  in_cmd_next_id : N;
  in_cmd_count : N;
}.

(** Updates of single fields. *)
Definition set_status (st : InstanceStatus) (i : MarketInstance) : MarketInstance :=
  {| in_provider := in_provider i; in_id := in_id i; in_offer := in_offer i; in_status := st;
     in_creator := in_creator i; in_admin := in_admin i; in_node_id := in_node_id i;
     in_metadata := in_metadata i; in_resources := in_resources i; in_deployment := in_deployment i;
     in_created_at := in_created_at i; in_updated_at := in_updated_at i; in_paid_from := in_paid_from i;
     in_paid_until := in_paid_until i; in_payment := in_payment i; in_payment_address := in_payment_address i;
     in_refund_data := in_refund_data i; in_cmd_next_id := in_cmd_next_id i; in_cmd_count := in_cmd_count i |}.
Definition set_updated_at (now : N) (i : MarketInstance) : MarketInstance :=
  {| in_provider := in_provider i; in_id := in_id i; in_offer := in_offer i; in_status := in_status i;
     in_creator := in_creator i; in_admin := in_admin i; in_node_id := in_node_id i;
     in_metadata := in_metadata i; in_resources := in_resources i; in_deployment := in_deployment i;
     in_created_at := in_created_at i; in_updated_at := now; in_paid_from := in_paid_from i;
     in_paid_until := in_paid_until i; in_payment := in_payment i; in_payment_address := in_payment_address i;
     in_refund_data := in_refund_data i; in_cmd_next_id := in_cmd_next_id i; in_cmd_count := in_cmd_count i |}.
Definition set_paid_from (t : N) (i : MarketInstance) : MarketInstance :=
  {| in_provider := in_provider i; in_id := in_id i; in_offer := in_offer i; in_status := in_status i;
     in_creator := in_creator i; in_admin := in_admin i; in_node_id := in_node_id i;
     in_metadata := in_metadata i; in_resources := in_resources i; in_deployment := in_deployment i;
     in_created_at := in_created_at i; in_updated_at := in_updated_at i; in_paid_from := t;
     in_paid_until := in_paid_until i; in_payment := in_payment i; in_payment_address := in_payment_address i;
     in_refund_data := in_refund_data i; in_cmd_next_id := in_cmd_next_id i; in_cmd_count := in_cmd_count i |}.
Definition set_paid_until (t : N) (i : MarketInstance) : MarketInstance :=
  {| in_provider := in_provider i; in_id := in_id i; in_offer := in_offer i; in_status := in_status i;
     in_creator := in_creator i; in_admin := in_admin i; in_node_id := in_node_id i;
     in_metadata := in_metadata i; in_resources := in_resources i; in_deployment := in_deployment i;
     in_created_at := in_created_at i; in_updated_at := in_updated_at i; in_paid_from := in_paid_from i;
     in_paid_until := t; in_payment := in_payment i; in_payment_address := in_payment_address i;
     in_refund_data := in_refund_data i; in_cmd_next_id := in_cmd_next_id i; in_cmd_count := in_cmd_count i |}.
Definition set_admin (a : Address) (i : MarketInstance) : MarketInstance :=
  {| in_provider := in_provider i; in_id := in_id i; in_offer := in_offer i; in_status := in_status i;
     in_creator := in_creator i; in_admin := a; in_node_id := in_node_id i; in_metadata := in_metadata i;
     in_resources := in_resources i; in_deployment := in_deployment i; in_created_at := in_created_at i;
     in_updated_at := in_updated_at i; in_paid_from := in_paid_from i; in_paid_until := in_paid_until i;
     in_payment := in_payment i; in_payment_address := in_payment_address i; in_refund_data := in_refund_data i;
     in_cmd_next_id := in_cmd_next_id i; in_cmd_count := in_cmd_count i |}.
Definition set_node_id (n : option bytes) (i : MarketInstance) : MarketInstance :=
  {| in_provider := in_provider i; in_id := in_id i; in_offer := in_offer i; in_status := in_status i;
     in_creator := in_creator i; in_admin := in_admin i; in_node_id := n; in_metadata := in_metadata i;
     in_resources := in_resources i; in_deployment := in_deployment i; in_created_at := in_created_at i;
     in_updated_at := in_updated_at i; in_paid_from := in_paid_from i; in_paid_until := in_paid_until i;
     in_payment := in_payment i; in_payment_address := in_payment_address i; in_refund_data := in_refund_data i;
     in_cmd_next_id := in_cmd_next_id i; in_cmd_count := in_cmd_count i |}.
Definition set_metadata (m : StringMap) (i : MarketInstance) : MarketInstance :=
  {| in_provider := in_provider i; in_id := in_id i; in_offer := in_offer i; in_status := in_status i;
     in_creator := in_creator i; in_admin := in_admin i; in_node_id := in_node_id i; in_metadata := m;
     in_resources := in_resources i; in_deployment := in_deployment i; in_created_at := in_created_at i;
     in_updated_at := in_updated_at i; in_paid_from := in_paid_from i; in_paid_until := in_paid_until i;
     in_payment := in_payment i; in_payment_address := in_payment_address i; in_refund_data := in_refund_data i;
     in_cmd_next_id := in_cmd_next_id i; in_cmd_count := in_cmd_count i |}.
Definition set_deployment (d : option Deployment) (i : MarketInstance) : MarketInstance :=
  {| in_provider := in_provider i; in_id := in_id i; in_offer := in_offer i; in_status := in_status i;
     in_creator := in_creator i; in_admin := in_admin i; in_node_id := in_node_id i;
     in_metadata := in_metadata i; in_resources := in_resources i; in_deployment := d;
     in_created_at := in_created_at i; in_updated_at := in_updated_at i; in_paid_from := in_paid_from i;
     in_paid_until := in_paid_until i; in_payment := in_payment i; in_payment_address := in_payment_address i;
     in_refund_data := in_refund_data i; in_cmd_next_id := in_cmd_next_id i; in_cmd_count := in_cmd_count i |}.
Definition set_cmd_next_id (n : N) (i : MarketInstance) : MarketInstance :=
  {| in_provider := in_provider i; in_id := in_id i; in_offer := in_offer i; in_status := in_status i;
     in_creator := in_creator i; in_admin := in_admin i; in_node_id := in_node_id i;
     in_metadata := in_metadata i; in_resources := in_resources i; in_deployment := in_deployment i;
     in_created_at := in_created_at i; in_updated_at := in_updated_at i; in_paid_from := in_paid_from i;
     in_paid_until := in_paid_until i; in_payment := in_payment i; in_payment_address := in_payment_address i;
     in_refund_data := in_refund_data i; in_cmd_next_id := n; in_cmd_count := in_cmd_count i |}.
Definition set_cmd_count (n : N) (i : MarketInstance) : MarketInstance :=
  {| in_provider := in_provider i; in_id := in_id i; in_offer := in_offer i; in_status := in_status i;
     in_creator := in_creator i; in_admin := in_admin i; in_node_id := in_node_id i;
     in_metadata := in_metadata i; in_resources := in_resources i; in_deployment := in_deployment i;
     in_created_at := in_created_at i; in_updated_at := in_updated_at i; in_paid_from := in_paid_from i;
     in_paid_until := in_paid_until i; in_payment := in_payment i; in_payment_address := in_payment_address i;
     in_refund_data := in_refund_data i; in_cmd_next_id := in_cmd_next_id i; in_cmd_count := n |}.

Record QueuedCommand := { qc_id : N; qc_cmd : bytes }.

(** ** Requests *)

Record ProviderCreate := {
  pc_nodes : list bytes; pc_scheduler_app : AppId; pc_payment_address : PaymentAddress; pc_offers : list Offer;
  pc_metadata : StringMap;
}.
Record ProviderUpdate := {
  pu_provider : Address; pu_nodes : list bytes; pu_scheduler_app : AppId; pu_payment_address : PaymentAddress;
  pu_metadata : StringMap;
}.
Record ProviderUpdateOffers := {
  puo_provider : Address; puo_add : list Offer; puo_update : list Offer; puo_remove : list N;
}.
Record ProviderRemove := { prm_provider : Address }.
Record InstanceCreate := {
  ic_provider : Address; ic_offer : N; ic_admin : option Address; ic_deployment : option Deployment; ic_term : Term;
  ic_term_count : N;
}.
Record InstanceChangeAdmin := { ica_provider : Address; ica_id : N; ica_admin : Address }.
Record InstanceTopUp := { itu_provider : Address; itu_id : N; itu_term : Term; itu_term_count : N }.
Record InstanceAccept := { ia_provider : Address; ia_ids : list N; ia_metadata : StringMap }.
Inductive DeploymentUpdate := DeploymentClear | DeploymentSet (d : Deployment).
Definition deployment_update_into (u : DeploymentUpdate) : option Deployment :=
  match u with DeploymentClear => None | DeploymentSet d => Some d end.
Record Update := {
  up_id : N; up_node_id : option bytes; up_deployment : option DeploymentUpdate; up_metadata : option StringMap;
  up_last_completed_cmd : option N;
}.
Record InstanceUpdate := { iu_provider : Address; iu_updates : list Update }.
Record InstanceClaimPayment := { icp_provider : Address; icp_instances : list N }.
Record InstanceCancel := { icn_provider : Address; icn_id : N }.
Record InstanceRemove := { irm_provider : Address; irm_id : N }.
Record InstanceExecuteCmds := { iec_provider : Address; iec_id : N; iec_cmds : list bytes }.
Record ProviderQuery := { pq_provider : Address }.
Record OfferQuery := { oq_provider : Address; oq_id : N }.
Record InstanceQuery := { iq_provider : Address; iq_id : N }.
Record StakeThresholds := { provider_create : BaseUnits }.

(** * Configuration and interfaces *)

Class MarketConfig := {
  GAS_COST_CALL_PROVIDER_CREATE : N;
  GAS_COST_CALL_PROVIDER_UPDATE : N;
  GAS_COST_CALL_PROVIDER_UPDATE_OFFERS_BASE : N;
  GAS_COST_CALL_PROVIDER_UPDATE_OFFERS_ADD : N;
  GAS_COST_CALL_PROVIDER_UPDATE_OFFERS_RM : N;
  GAS_COST_CALL_PROVIDER_REMOVE : N;
  GAS_COST_CALL_INSTANCE_CREATE : N;
  GAS_COST_CALL_INSTANCE_CHANGE_ADMIN : N;
  GAS_COST_CALL_INSTANCE_ACCEPT_BASE : N;
  GAS_COST_CALL_INSTANCE_ACCEPT_INSTANCE : N;
  GAS_COST_CALL_INSTANCE_TOPUP : N;
  GAS_COST_CALL_INSTANCE_UPDATE_BASE : N;
  GAS_COST_CALL_INSTANCE_UPDATE_INST : N;
  GAS_COST_CALL_INSTANCE_CANCEL : N;
  GAS_COST_CALL_INSTANCE_REMOVE : N;
  GAS_COST_CALL_INSTANCE_EXECUTE_CMDS_BASE : N;
  GAS_COST_CALL_INSTANCE_EXECUTE_CMDS_CMD : N;
  GAS_COST_CALL_INSTANCE_CLAIM_PAYMENT_BASE : N;
  GAS_COST_CALL_INSTANCE_CLAIM_PAYMENT_INST : N;
  MAX_INSTANCE_ACCEPT_TIME_SECONDS : N;
  MAX_PROVIDER_OFFERS : N;
  MAX_QUEUED_INSTANCE_COMMANDS : N;
  MAX_INSTANCE_COMMAND_SIZE : N;
  MAX_METADATA_PAIRS : N;
  MAX_METADATA_KEY_SIZE : N;
  MAX_METADATA_VALUE_SIZE : N;
  STAKE_PROVIDER_CREATE : BaseUnits;
}.

(** What the market uses of [rofl::API]. *)
Class RoflAPI `{Platform} := { rofl_get_origin_registration {E} : AppId → M E (option Registration) }.
#[export] Instance rofl_api `{Platform, !RoflPlatform, !RoflCodec} : RoflAPI := { rofl_get_origin_registration E := get_origin_registration }.

Class MarketCodec `{Platform} := {
  mk_parameters_cbor :: Cbor unit;
  mk_provider_cbor :: Cbor Provider;
  mk_offer_cbor :: Cbor Offer;
  mk_instance_cbor :: Cbor MarketInstance;
  mk_command_cbor :: Cbor bytes;
  mk_event_value : MarketEvent → Value;
  (** [cbor::to_value] of an EVM call of a contract with data and without value *)
  evm_call_value : bytes_n 20 → bytes → Value;
}.

(** The Keccak hash and the Solidity ABI are outside of the repository. *)
Class MarketCrypto := {
  keccak256 : bytes → Hash;
  encode_rmp_pay : N → N → N → bytes_n 20 → bytes → bytes;
  encode_rmp_refund : N → bytes → bytes;
  encode_rmp_claim : N → N → N → bytes_n 20 → bytes → bytes;
}.

(** [address::generate_custom_eth_address]. *)
Lemma last_20_size (h : Hash) : List.length (drop 12 (raw h)) = 20%nat.
Proof. rewrite length_drop. unfold raw. by rewrite (proj2_sig h). Qed.
Definition generate_custom_eth_address `{MarketCrypto} (domain : string) (kind : bytes) : bytes_n 20 :=
  let inner := keccak256 ([xfe] ++ str "oasis:" ++ str domain ++ str "." ++ kind)%list in
  let h := keccak256 ([xff] ++ replicate 20 x00 ++ str "oasis-runtime-sdk/address: ethxx" ++ raw inner)%list in
  exist _ (drop 12 (raw h)) (last_20_size h).
Definition generate_address `{MarketCrypto} (provider : Address) (id : N) : bytes_n 20 :=
  generate_custom_eth_address "roflmarket.instance" (raw provider ++ be_bytes64 id)%list.

(** * State *)

Definition PROVIDERS : bytes := [x01].
Definition OFFERS : bytes := [x02].
Definition INSTANCES : bytes := [x03].
Definition INSTANCE_COMMANDS : bytes := [x04].

(** A key of eight bytes. *)
Definition id_key (b : bytes) : string + N :=
  if (List.length b =? 8)%nat then inr (from_be b) else inl "malformed identifier".
Definition hash_key (b : bytes) : string + Hash :=
  match bytes_n_of 32 b with Some h => inr h | None => inl "malformed hash" end.

Definition payment_default : Payment := PayNative NATIVE ∅.
Definition resources_default : Resources := {| rs_tee := TDX; rs_memory := 0; rs_cpus := 0; rs_storage := 0; rs_gpu := None |}.
Definition offer_default : Offer :=
  {| of_id := 0; of_resources := resources_default; of_payment := payment_default; of_capacity := 0; of_metadata := ∅ |}.
Definition eth_default : bytes_n 20 := exist _ (replicate 20 x00) eq_refl.
Definition provider_default : Provider :=
  {| pr_address := address_default; pr_nodes := []; pr_scheduler_app := app_id_default;
     pr_payment_address := PaEth eth_default; pr_metadata := ∅; pr_stake := BaseUnits_new 0 NATIVE; offers_next_id := 0;
     offers_count := 0; instances_next_id := 0; instances_count := 0; pr_created_at := 0; pr_updated_at := 0 |}.
Definition instance_default : MarketInstance :=
  {| in_provider := address_default; in_id := 0; in_offer := 0; in_status := Created; in_creator := address_default;
     in_admin := address_default; in_node_id := None; in_metadata := ∅; in_resources := resources_default;
     in_deployment := None; in_created_at := 0; in_updated_at := 0; in_paid_from := 0; in_paid_until := 0;
     in_payment := payment_default; in_payment_address := eth_default; in_refund_data := []; in_cmd_next_id := 0;
     in_cmd_count := 0 |}.

Section state.
Context `{Platform} `{!MarketCodec}.

Definition market_store : StoreRef := PrefixStore CurrentStore (str MARKET_MODULE_NAME).
Definition providers_ref : StoreRef := PrefixStore market_store PROVIDERS.
Definition provider_key (address : Address) : bytes := raw (digest_bytes (raw address)).
Definition offers_ref (provider : Address) : StoreRef :=
  PrefixStore (PrefixStore market_store OFFERS) (provider_key provider).
Definition instances_ref (provider : Address) : StoreRef :=
  PrefixStore (PrefixStore market_store INSTANCES) (provider_key provider).
Definition commands_ref (provider : Address) (id : N) : StoreRef :=
  PrefixStore (PrefixStore (PrefixStore market_store INSTANCE_COMMANDS) (provider_key provider)) (be_bytes64 id).

Definition get_provider {E} (address : Address) : M E (option Provider) :=
  typed_get providers_ref (provider_key address).
Definition get_providers {E} : M E (list Provider) :=
  l ← typed_iter hash_key provider_default providers_ref; mret l.*2.
Definition set_provider {E} (p : Provider) : M E unit := typed_insert providers_ref (provider_key (pr_address p)) p.
Definition remove_provider {E} (address : Address) : M E unit := typed_remove providers_ref (provider_key address).

Definition get_offer {E} (provider : Address) (id : N) : M E (option Offer) :=
  typed_get (offers_ref provider) (be_bytes64 id).
Definition get_offers {E} (provider : Address) : M E (list Offer) :=
  l ← typed_iter id_key offer_default (offers_ref provider); mret l.*2.
Definition set_offer {E} (provider : Address) (o : Offer) : M E unit :=
  typed_insert (offers_ref provider) (be_bytes64 (of_id o)) o.
Definition remove_offer {E} (provider : Address) (id : N) : M E unit :=
  typed_remove (offers_ref provider) (be_bytes64 id).

Definition get_instance {E} (provider : Address) (id : N) : M E (option MarketInstance) :=
  typed_get (instances_ref provider) (be_bytes64 id).
Definition get_instances {E} (provider : Address) : M E (list MarketInstance) :=
  l ← typed_iter id_key instance_default (instances_ref provider); mret l.*2.
Definition set_instance {E} (i : MarketInstance) : M E unit :=
  typed_insert (instances_ref (in_provider i)) (be_bytes64 (in_id i)) i.
Definition remove_instance {E} (provider : Address) (id : N) : M E unit :=
  typed_remove (instances_ref provider) (be_bytes64 id).

(** The commands up to an identifier; those behind it are not decoded. *)
Fixpoint take_commands {E} (until : N) (l : list (bytes * bytes)) : M E (list QueuedCommand) :=
  match l with
  | [] => mret []
  | kv :: l' =>
      x ← typed_item id_key [] kv;
      if (x.1 <=? until)%N then qcs ← take_commands until l'; mret ({| qc_id := x.1; qc_cmd := x.2 |} :: qcs)%list
      else mret []
  end.
Definition get_instance_commands {E} (provider : Address) (id until : N) : M E (list QueuedCommand) :=
  st ← store;
  match ref_collect st (commands_ref provider id) with
  | Ok l => take_commands until l
  | Err e => match e with end
  | Panic msg => panic msg
  end.
Definition set_instance_command {E} (provider : Address) (id : N) (qc : QueuedCommand) : M E unit :=
  typed_insert (commands_ref provider id) (be_bytes64 (qc_id qc)) (qc_cmd qc).
Definition remove_instance_command {E} (provider : Address) (instance id : N) : M E unit :=
  typed_remove (commands_ref provider instance) (be_bytes64 id).
End state.

(** * Payments *)

Definition payment_address_address `{Crypto} (p : PaymentAddress) : Address :=
  match p with PaNative address => address | PaEth address => from_eth (raw address) end.

(** [ForbidReentrancy]: no subcall re-enters the market. *)
Definition forbid_reentrancy `{Platform} : Validator := λ info,
  if starts_with (str (sub_method info)) (str MARKET_MODULE_NAME) then inl Forbidden else inr tt.

(** * Operations *)

Section market.
Context `{Platform} `{!TxCodec} `{!CallCrypto} `{!CoreCodec} `{!CoreConfig} `{!DispatchCodec}.
Context `{!AccountsCodec} `{!MarketConfig} `{!MarketCodec} `{!MarketCrypto} `{!RoflAPI}.
(** The runtime below a stack of subcalls, and the stack in which the market is called. *)
Variables (R : SubcallStack → Runtime) (stack : SubcallStack).

Definition ADDRESS_PROVIDER_STAKE_POOL : Address := from_module MARKET_MODULE_NAME "provider-stake-pool".

Definition market_event (e : MarketEvent) : EventTag :=
  etag_for_event MARKET_MODULE_NAME (market_event_code e) (mk_event_value e).
Definition emit_market_event {E} (e : MarketEvent) : M E unit := emit_event_raw (market_event e).

Definition core_use_gas (gas : N) : M MarketError unit := map_err MkCore (use_tx_gas gas).
Definition mk_transfer (from to : Address) (a : BaseUnits) : M MarketError unit := map_err MkAccounts (transfer from to a).

(** A call of the payment contract on behalf of the address of the instance. *)
Definition call_contract (ctx : Ctx) (i : MarketInstance) (contract : bytes_n 20) (remaining_gas : N) (data : bytes)
    : M MarketError unit :=
  result ← map_err MkCore (subcall R stack ctx
    {| sub_caller := CallerEth (in_payment_address i); sub_method := "evm.Call";
       sub_body := evm_call_value contract data; sub_max_depth := 8; sub_max_gas := remaining_gas;
       sub_read_only := false |} forbid_reentrancy);
  core_use_gas (sr_gas_used result) ;;
  match sr_call_result result with
  | CallOk _ => mret tt
  | CallFailed module code message =>
      throw (PaymentFailed ("module: " +:+ module +:+ " code: " +:+ pretty code +:+ " message: " +:+ message))
  | CallAborted err => throw (MkAbort err)
  end.

(** [Payment::pay]: pays for terms in advance and extends the paid time. *)
Definition pay_amount (p : Payment) (ctx : Ctx) (i : MarketInstance) (term : Term) (term_count : N) : M MarketError unit :=
  match p with
  | PayNative d terms =>
      price ← ok_or (terms !! term) (PaymentFailed "invalid term");
      fee ← ok_or (checked_mul u128_max price term_count) (PaymentFailed "invalid value");
      caller ← with_tx_env env_tx_caller_address;
      mk_transfer caller (from_eth (raw (in_payment_address i))) (BaseUnits_new fee d)
  | PayEvmContract address data =>
      remaining_gas ← remaining_tx_gas;
      ai ← with_tx_env env_tx_auth_info;
      from ← map_err MkEvm (caller_from_tx_auth_info ai);
      call_contract ctx i address remaining_gas (encode_rmp_pay (in_id i) (term_as_u8 term) term_count from data)
  end.
Definition pay (p : Payment) (ctx : Ctx) (i : MarketInstance) (term : Term) (term_count : N) : M MarketError MarketInstance :=
  pay_amount p ctx i term term_count ;;
  secs ← ok_or (checked_mul u64_max (term_as_secs term) term_count) MkInvalidArgument;
  paid_until ← ok_or (checked_add u64_max (in_paid_until i) secs) MkInvalidArgument;
  mret (set_paid_until paid_until i).

(** [Payment::refund]: all that is left goes to the administrator. *)
Definition refund (p : Payment) (ctx : Ctx) (i : MarketInstance) : M MarketError unit :=
  match p with
  | PayNative d _ =>
      let payment_address := from_eth (raw (in_payment_address i)) in
      amount ← get_balance payment_address d;
      mk_transfer payment_address (in_admin i) (BaseUnits_new amount d)
  | PayEvmContract address data =>
      remaining_gas ← remaining_tx_gas;
      call_contract ctx i address remaining_gas (encode_rmp_refund (in_id i) data)
  end.

(** [Payment::claim]: the provider gets the share of the payment for the time that has passed. *)
Definition claim_time (now : N) (i : MarketInstance) : option N :=
  match in_status i with
  | Created => None
  | Accepted => Some (N.min now (in_paid_until i))
  | Cancelled => Some (in_paid_until i)
  end.
Definition claim (p : Payment) (ctx : Ctx) (provider : Provider) (i : MarketInstance) : M MarketError MarketInstance :=
  now ← ok_or (claim_time (ctx_now ctx) i) MkInvalidArgument;
  let claimable_time := saturating_sub now (in_paid_from i) in
  paid_time ← ok_or (checked_sub (in_paid_until i) (in_paid_from i)) (PaymentFailed "invalid paid time");
  match p with
  | PayNative d _ =>
      let instance_address := from_eth (raw (in_payment_address i)) in
      let provider_address := payment_address_address (pr_payment_address provider) in
      total_amount ← get_balance instance_address d;
      product ← ok_or (checked_mul u128_max claimable_time total_amount) MkInvalidArgument;
      mk_transfer instance_address provider_address (BaseUnits_new (default 0%N (checked_div product paid_time)) d)
  | PayEvmContract address data =>
      match pr_payment_address provider with
      | PaEth provider_address =>
          remaining_gas ← remaining_tx_gas;
          call_contract ctx i address remaining_gas
            (encode_rmp_claim (in_id i) claimable_time paid_time provider_address data)
      | PaNative _ => throw (PaymentFailed "incompatible payment address")
      end
  end ;;
  mret (set_paid_from now i).

(** * Providers *)

Definition market_init {E} : M E unit := set_params MARKET_MODULE_NAME tt.

Definition metadata_ok (metadata : StringMap) : bool :=
  (N.of_nat (size metadata) <=? MAX_METADATA_PAIRS)%N &&
  forallb (λ kv, (N.of_nat (String.length kv.1) <=? MAX_METADATA_KEY_SIZE)%N &&
                 (N.of_nat (String.length kv.2) <=? MAX_METADATA_VALUE_SIZE)%N) (map_to_list metadata).
Definition check_metadata (metadata : StringMap) : M MarketError unit :=
  if metadata_ok metadata then mret tt else throw MkInvalidArgument.

Definition caller_address {E} : M E Address := with_tx_env env_tx_caller_address.
Definition len {A} (l : list A) : N := N.of_nat (List.length l).

(** Offers get sequential identifiers. *)
Fixpoint create_offers (address : Address) (id : N) (l : list Offer) : M MarketError unit :=
  match l with
  | [] => mret tt
  | o :: l' =>
      match offer_validate o with
      | inl e => throw e
      | inr _ => set_offer address (set_offer_id id o) ;; create_offers address (id + 1) l'
      end
  end.

Definition tx_provider_create (ctx : Ctx) (body : ProviderCreate) : M MarketError unit :=
  core_use_gas GAS_COST_CALL_PROVIDER_CREATE ;;
  let offer_count := len (pc_offers body) in
  if (MAX_PROVIDER_OFFERS <? offer_count)%N then throw MkInvalidArgument else
  core_use_gas (saturating_mul u64_max offer_count GAS_COST_CALL_PROVIDER_UPDATE_OFFERS_ADD) ;;
  check_metadata (pc_metadata body) ;;
  check_only ← with_env is_check_only;
  if (check_only : bool) then mret tt else
  address ← caller_address;
  existing ← get_provider address;
  match existing with
  | Some _ => throw ProviderAlreadyExists
  | None =>
      mk_transfer address ADDRESS_PROVIDER_STAKE_POOL STAKE_PROVIDER_CREATE ;;
      set_provider {| pr_address := address; pr_nodes := pc_nodes body; pr_scheduler_app := pc_scheduler_app body;
                      pr_payment_address := pc_payment_address body; pr_metadata := pc_metadata body;
                      pr_stake := STAKE_PROVIDER_CREATE; offers_next_id := offer_count; offers_count := offer_count;
                      instances_next_id := 0; instances_count := 0; pr_created_at := ctx_now ctx;
                      pr_updated_at := ctx_now ctx |} ;;
      create_offers address 0 (pc_offers body) ;;
      emit_market_event (ProviderCreated address)
  end.

Definition ensure_caller_is_provider_admin (p : Provider) : M MarketError unit :=
  caller ← caller_address;
  if bool_decide (pr_address p = caller) then mret tt else throw MkForbidden.

Definition require_provider (address : Address) : M MarketError Provider :=
  p ← get_provider address; ok_or p ProviderNotFound.
Definition require_offer (provider : Address) (id : N) : M MarketError Offer :=
  o ← get_offer provider id; ok_or o OfferNotFound.
Definition require_instance (provider : Address) (id : N) : M MarketError MarketInstance :=
  i ← get_instance provider id; ok_or i InstanceNotFound.

Definition tx_provider_update (ctx : Ctx) (body : ProviderUpdate) : M MarketError unit :=
  core_use_gas GAS_COST_CALL_PROVIDER_UPDATE ;;
  check_metadata (pu_metadata body) ;;
  check_only ← with_env is_check_only;
  if (check_only : bool) then mret tt else
  p ← require_provider (pu_provider body);
  ensure_caller_is_provider_admin p ;;
  set_provider (set_descriptor (pu_nodes body) (pu_scheduler_app body) (pu_payment_address body) (pu_metadata body)
                  (ctx_now ctx) p) ;;
  emit_market_event (ProviderUpdated (pu_provider body)).

(** The three loops over the offers; the first returns the next identifier. *)
Fixpoint add_offers (address : Address) (next : N) (l : list Offer) : M MarketError N :=
  match l with
  | [] => mret next
  | o :: l' =>
      match offer_validate o with
      | inl e => throw e
      | inr _ =>
          let '(id, next) := increment_id next in
          set_offer address (set_offer_id id o) ;; add_offers address next l'
      end
  end.
Definition update_offer (address : Address) (o : Offer) : M MarketError unit :=
  match offer_validate o with
  | inl e => throw e
  | inr _ => require_offer address (of_id o) ;; set_offer address o
  end.
Definition drop_offer (address : Address) (id : N) : M MarketError unit :=
  require_offer address id ;; remove_offer address id.

Definition tx_provider_update_offers (ctx : Ctx) (body : ProviderUpdateOffers) : M MarketError unit :=
  core_use_gas GAS_COST_CALL_PROVIDER_UPDATE_OFFERS_BASE ;;
  let add_count := len (puo_add body) in
  let update_count := len (puo_update body) in
  let remove_count := len (puo_remove body) in
  core_use_gas (saturating_mul u64_max add_count GAS_COST_CALL_PROVIDER_UPDATE_OFFERS_ADD) ;;
  core_use_gas (saturating_mul u64_max update_count GAS_COST_CALL_PROVIDER_UPDATE_OFFERS_ADD) ;;
  core_use_gas (saturating_mul u64_max remove_count GAS_COST_CALL_PROVIDER_UPDATE_OFFERS_RM) ;;
  check_only ← with_env is_check_only;
  if (check_only : bool) then mret tt else
  p ← require_provider (puo_provider body);
  ensure_caller_is_provider_admin p ;;
  new_offer_count ← ok_or (checked_sub (saturating_add u64_max (offers_count p) add_count) remove_count) MkInvalidArgument;
  if (MAX_PROVIDER_OFFERS <? new_offer_count)%N then throw MkInvalidArgument else
  next ← add_offers (pr_address p) (offers_next_id p) (puo_add body);
  for_each (puo_update body) (update_offer (pr_address p)) ;;
  for_each (puo_remove body) (drop_offer (pr_address p)) ;;
  set_provider (set_offers next new_offer_count (ctx_now ctx) p) ;;
  emit_market_event (ProviderUpdated (puo_provider body)).

Definition tx_provider_remove (ctx : Ctx) (body : ProviderRemove) : M MarketError unit :=
  core_use_gas GAS_COST_CALL_PROVIDER_REMOVE ;;
  execute ← should_execute_contracts ctx;
  if negb execute then mret tt else
  p ← require_provider (prm_provider body);
  ensure_caller_is_provider_admin p ;;
  if (0 <? instances_count p)%N then throw ProviderHasInstances else
  core_use_gas (saturating_mul u64_max (offers_count p) GAS_COST_CALL_PROVIDER_UPDATE_OFFERS_RM) ;;
  offers ← get_offers (pr_address p);
  for_each offers (λ o, remove_offer (pr_address p) (of_id o)) ;;
  remove_provider (pr_address p) ;;
  mk_transfer ADDRESS_PROVIDER_STAKE_POOL (pr_address p) (pr_stake p) ;;
  emit_market_event (ProviderRemoved (pr_address p)).

(** * Instances *)

Definition tx_instance_create (ctx : Ctx) (body : InstanceCreate) : M MarketError N :=
  core_use_gas GAS_COST_CALL_INSTANCE_CREATE ;;
  if (ic_term_count body =? 0)%N then throw MkInvalidArgument else
  execute ← should_execute_contracts ctx;
  if negb execute then mret 0%N else
  p ← require_provider (ic_provider body);
  o ← require_offer (pr_address p) (ic_offer body);
  if (of_capacity o =? 0)%N then throw OutOfCapacity else
  caller ← caller_address;
  let '(instance_id, next) := increment_id (instances_next_id p) in
  let instance := {|
    in_provider := pr_address p; in_id := instance_id; in_offer := of_id o; in_status := Created; in_creator := caller;
    in_admin := default caller (ic_admin body); in_node_id := None; in_metadata := ∅; in_resources := of_resources o;
    in_deployment := ic_deployment body; in_created_at := ctx_now ctx; in_updated_at := ctx_now ctx;
    in_paid_from := ctx_now ctx; in_paid_until := ctx_now ctx; in_payment := of_payment o;
    in_payment_address := generate_address (ic_provider body) instance_id; in_refund_data := []; in_cmd_next_id := 0;
    in_cmd_count := 0 |} in
  instance ← pay (of_payment o) ctx instance (ic_term body) (ic_term_count body);
  set_instance instance ;;
  count ← ok_or (checked_add u64_max (instances_count p) 1) MkInvalidArgument;
  set_provider (set_instances next count (ctx_now ctx) p) ;;
  emit_market_event (InstanceCreated (ic_provider body) instance_id) ;;
  mret instance_id.

Definition ensure_caller_is_instance_admin (i : MarketInstance) : M MarketError unit :=
  simulation ← with_env is_simulation;
  if (simulation : bool) then mret tt else
  caller ← caller_address;
  if bool_decide (in_admin i = caller) then mret tt else throw MkForbidden.

(** Removing all commands of an instance, up to an identifier. *)
Definition drop_commands {E} (provider : Address) (id : N) (cmds : list QueuedCommand) : M E unit :=
  for_each cmds (λ qc, remove_instance_command provider id (qc_id qc)).

Definition tx_instance_change_admin (ctx : Ctx) (body : InstanceChangeAdmin) : M MarketError unit :=
  core_use_gas GAS_COST_CALL_INSTANCE_CHANGE_ADMIN ;;
  check_only ← with_env is_check_only;
  if (check_only : bool) then mret tt else
  i ← require_instance (ica_provider body) (ica_id body);
  ensure_caller_is_instance_admin i ;;
  set_instance (set_updated_at (ctx_now ctx) (set_cmd_count 0 (set_deployment None (set_admin (ica_admin body) i)))) ;;
  cmds ← get_instance_commands (ica_provider body) (ica_id body) u64_max;
  drop_commands (ica_provider body) (ica_id body) cmds ;;
  emit_market_event (InstanceUpdated (ica_provider body) (ica_id body)).

Definition tx_instance_topup (ctx : Ctx) (body : InstanceTopUp) : M MarketError unit :=
  core_use_gas GAS_COST_CALL_INSTANCE_TOPUP ;;
  if (itu_term_count body =? 0)%N then throw MkInvalidArgument else
  execute ← should_execute_contracts ctx;
  if negb execute then mret tt else
  i ← require_instance (itu_provider body) (itu_id body);
  if bool_decide (in_status i ≠ Accepted) then throw InvalidInstanceState else
  i ← pay (in_payment i) ctx i (itu_term body) (itu_term_count body);
  set_instance (set_updated_at (ctx_now ctx) i) ;;
  emit_market_event (InstanceUpdated (itu_provider body) (itu_id body)).

(** The endorsing node, which has to be one of the provider's. *)
Definition public_key_default : bytes := replicate 32 x00.
Definition ensure_caller_is_scheduler_app (p : Provider) : M MarketError bytes :=
  simulation ← with_env is_simulation;
  if (simulation : bool) then mret public_key_default else
  r ← rofl_get_origin_registration (pr_scheduler_app p);
  node_id ← ok_or (reg_node_id <$> r) MkForbidden;
  if bool_decide (node_id ∈ pr_nodes p) then mret node_id else throw MkForbidden.

(** The capacity of an offer that still exists. *)
Definition adjust_capacity (provider : Address) (id : N) (f : N → N) : M MarketError unit :=
  offer ← get_offer provider id;
  match offer with
  | Some o => set_offer provider (set_capacity (f (of_capacity o)) o)
  | None => mret tt
  end.

Definition accept_instance (ctx : Ctx) (body : InstanceAccept) (p : Provider) (node_id : bytes) (id : N) : M MarketError unit :=
  existing ← get_instance (ia_provider body) id;
  match existing with
  | None => mret tt
  | Some i =>
      if bool_decide (in_status i ≠ Created) then mret tt else
      adjust_capacity (ia_provider body) (in_offer i) (λ c, saturating_sub c 1) ;;
      set_instance (set_updated_at (ctx_now ctx)
                      (set_metadata (ia_metadata body) (set_node_id (Some node_id) (set_status Accepted i)))) ;;
      emit_market_event (InstanceAccepted (pr_address p) id)
  end.

Definition tx_instance_accept (ctx : Ctx) (body : InstanceAccept) : M MarketError unit :=
  core_use_gas GAS_COST_CALL_INSTANCE_ACCEPT_BASE ;;
  core_use_gas (saturating_mul u64_max (len (ia_ids body)) GAS_COST_CALL_INSTANCE_ACCEPT_INSTANCE) ;;
  check_metadata (ia_metadata body) ;;
  check_only ← with_env is_check_only;
  if (check_only : bool) then mret tt else
  p ← require_provider (ia_provider body);
  node_id ← ensure_caller_is_scheduler_app p;
  for_each (ia_ids body) (accept_instance ctx body p node_id).

(** The fields of an update, and whether any is given. *)
Definition apply_update (u : Update) (i : MarketInstance) : MarketInstance * bool :=
  let i1 := match up_node_id u with Some n => set_node_id (Some n) i | None => i end in
  let i2 := match up_deployment u with Some d => set_deployment (deployment_update_into d) i1 | None => i1 end in
  let i3 := match up_metadata u with Some m => set_metadata m i2 | None => i2 end in
  (i3, bool_decide (is_Some (up_node_id u)) || bool_decide (is_Some (up_deployment u)) ||
       bool_decide (is_Some (up_metadata u))).
(** Commands up to the last completed one leave the queue. *)
Definition complete_commands (provider : Address) (u : Update) (x : MarketInstance * bool)
    : M MarketError (MarketInstance * bool) :=
  match up_last_completed_cmd u with
  | None => mret x
  | Some last =>
      cmds ← get_instance_commands provider (up_id u) last;
      let i := set_cmd_count (saturating_sub (in_cmd_count x.1) (len cmds)) x.1 in
      drop_commands provider (up_id u) cmds ;;
      mret (i, x.2 || negb (len cmds =? 0)%N)
  end.
Definition update_instance (ctx : Ctx) (provider : Address) (u : Update) : M MarketError unit :=
  i ← require_instance provider (up_id u);
  x ← complete_commands provider u (apply_update u i);
  if negb x.2 then mret tt else
  set_instance (set_updated_at (ctx_now ctx) x.1) ;;
  emit_market_event (InstanceUpdated provider (up_id u)).

Definition tx_instance_update (ctx : Ctx) (body : InstanceUpdate) : M MarketError unit :=
  core_use_gas GAS_COST_CALL_INSTANCE_UPDATE_BASE ;;
  core_use_gas (saturating_mul u64_max (len (iu_updates body)) GAS_COST_CALL_INSTANCE_UPDATE_INST) ;;
  for_each (iu_updates body) (λ u, match up_metadata u with Some m => check_metadata m | None => mret tt end) ;;
  check_only ← with_env is_check_only;
  if (check_only : bool) then mret tt else
  p ← require_provider (iu_provider body);
  ensure_caller_is_scheduler_app p ;;
  for_each (iu_updates body) (update_instance ctx (iu_provider body)).

(** Cancelling: a late acceptance refunds everything, otherwise the provider gets everything. *)
Definition is_refundable (now : N) (i : MarketInstance) : bool :=
  bool_decide (in_status i = Created) &&
  (MAX_INSTANCE_ACCEPT_TIME_SECONDS <? saturating_sub now (in_created_at i))%N.
Definition tx_instance_cancel (ctx : Ctx) (body : InstanceCancel) : M MarketError unit :=
  core_use_gas GAS_COST_CALL_INSTANCE_CANCEL ;;
  execute ← should_execute_contracts ctx;
  if negb execute then mret tt else
  p ← require_provider (icn_provider body);
  i ← require_instance (icn_provider body) (icn_id body);
  ensure_caller_is_instance_admin i ;;
  if is_refundable (ctx_now ctx) i then
    refund (in_payment i) ctx i ;;
    remove_instance (icn_provider body) (icn_id body) ;;
    count ← ok_or (checked_sub (instances_count p) 1) MkInvalidArgument;
    set_provider (set_instances (instances_next_id p) count (ctx_now ctx) p) ;;
    emit_market_event (InstanceRemoved (icn_provider body) (icn_id body))
  else if bool_decide (in_status i = Cancelled) then mret tt
  else
    i ← claim (in_payment i) ctx p (set_status Cancelled (set_updated_at (ctx_now ctx) i));
    set_instance i ;;
    emit_market_event (InstanceCancelled (icn_provider body) (icn_id body)).

Definition tx_instance_remove (ctx : Ctx) (body : InstanceRemove) : M MarketError unit :=
  core_use_gas GAS_COST_CALL_INSTANCE_REMOVE ;;
  execute ← should_execute_contracts ctx;
  if negb execute then mret tt else
  p ← require_provider (irm_provider body);
  ensure_caller_is_scheduler_app p ;;
  i ← require_instance (irm_provider body) (irm_id body);
  count ← ok_or (checked_sub (instances_count p) 1) MkInvalidArgument;
  let p := set_instances (instances_next_id p) count (ctx_now ctx) p in
  (if (ctx_now ctx <? in_paid_until i)%N then refund (in_payment i) ctx i
   else _ ← claim (in_payment i) ctx p (set_status Cancelled i); mret tt) ;;
  adjust_capacity (irm_provider body) (in_offer i) (λ c, saturating_add u64_max c 1) ;;
  set_provider p ;;
  remove_instance (irm_provider body) (irm_id body) ;;
  cmds ← get_instance_commands (irm_provider body) (irm_id body) u64_max;
  drop_commands (irm_provider body) (irm_id body) cmds ;;
  emit_market_event (InstanceRemoved (irm_provider body) (irm_id body)).

(** Commands are queued with sequential identifiers. *)
Fixpoint queue_commands (provider : Address) (id next : N) (cmds : list bytes) : M MarketError N :=
  match cmds with
  | [] => mret next
  | cmd :: cmds' =>
      let '(cid, next) := increment_id next in
      set_instance_command provider id {| qc_id := cid; qc_cmd := cmd |} ;;
      queue_commands provider id next cmds'
  end.
Definition tx_instance_execute_cmds (ctx : Ctx) (body : InstanceExecuteCmds) : M MarketError unit :=
  core_use_gas GAS_COST_CALL_INSTANCE_EXECUTE_CMDS_BASE ;;
  let cmd_count := len (iec_cmds body) in
  core_use_gas (saturating_mul u64_max cmd_count GAS_COST_CALL_INSTANCE_EXECUTE_CMDS_CMD) ;;
  if negb (forallb (λ cmd, (len cmd <=? MAX_INSTANCE_COMMAND_SIZE)%N) (iec_cmds body)) then throw MkInvalidArgument else
  check_only ← with_env is_check_only;
  if (check_only : bool) then mret tt else
  i ← require_instance (iec_provider body) (iec_id body);
  ensure_caller_is_instance_admin i ;;
  if bool_decide (in_status i ≠ Accepted) then throw InvalidInstanceState else
  new_cmd_count ← ok_or (checked_add u64_max (in_cmd_count i) cmd_count) MkInvalidArgument;
  if (MAX_QUEUED_INSTANCE_COMMANDS <=? new_cmd_count)%N then throw TooManyQueuedCommands else
  next ← queue_commands (iec_provider body) (iec_id body) (in_cmd_next_id i) (iec_cmds body);
  set_instance (set_updated_at (ctx_now ctx) (set_cmd_count new_cmd_count (set_cmd_next_id next i))) ;;
  emit_market_event (InstanceUpdated (iec_provider body) (iec_id body)).

Definition claim_instance (ctx : Ctx) (p : Provider) (provider : Address) (id : N) : M MarketError unit :=
  i ← require_instance provider id;
  i ← claim (in_payment i) ctx p i;
  set_instance (set_updated_at (ctx_now ctx) i) ;;
  emit_market_event (InstanceUpdated provider id).
Definition tx_instance_claim_payment (ctx : Ctx) (body : InstanceClaimPayment) : M MarketError unit :=
  core_use_gas GAS_COST_CALL_INSTANCE_CLAIM_PAYMENT_BASE ;;
  core_use_gas (saturating_mul u64_max (len (icp_instances body)) GAS_COST_CALL_INSTANCE_CLAIM_PAYMENT_INST) ;;
  check_only ← with_env is_check_only;
  if (check_only : bool) then mret tt else
  p ← require_provider (icp_provider body);
  ensure_caller_is_scheduler_app p ;;
  for_each (icp_instances body) (claim_instance ctx p (icp_provider body)).

(** * Queries *)

Definition query_stake_thresholds : M MarketError StakeThresholds := mret {| provider_create := STAKE_PROVIDER_CREATE |}.
Definition query_provider (args : ProviderQuery) : M MarketError Provider := require_provider (pq_provider args).
Definition query_providers : M MarketError (list Provider) := get_providers.
Definition query_offer (args : OfferQuery) : M MarketError Offer := require_offer (oq_provider args) (oq_id args).
Definition query_offers (args : ProviderQuery) : M MarketError (list Offer) := get_offers (pq_provider args).
Definition query_instance (args : InstanceQuery) : M MarketError MarketInstance :=
  require_instance (iq_provider args) (iq_id args).
Definition query_instances (args : ProviderQuery) : M MarketError (list MarketInstance) := get_instances (pq_provider args).
Definition query_instance_commands (args : InstanceQuery) : M MarketError (list QueuedCommand) :=
  get_instance_commands (iq_provider args) (iq_id args) u64_max.
End market.
