(* ===== verification/MarketTables.v ===== *)
(** The tables of the ROFL market as finite maps, and what its operations do to them
    (src/runtime-sdk/modules/rofl-market/src/state.rs). *)
From S2P Require Import Prelude Endian Storage StoreIter Types Fee Errors State Current Transactions Module Tables CallFormat.
From S2P Require Import Core Gas Accounts Ledger Accounting Disbursement Moves Dispatcher Subcall Rofl Market.

(** * The abstract market *)

Record Market := {
  providers : gmap Address Provider;
  offers : gmap (Address * N) Offer;
  instances : gmap (Address * N) MarketInstance;
  commands : gmap (Address * N * N) bytes;
}.
Definition put_provider (p : Provider) (m : Market) : Market :=
  {| providers := <[pr_address p := p]> (providers m); offers := offers m; instances := instances m; commands := commands m |}.
Definition drop_provider (a : Address) (m : Market) : Market :=
  {| providers := delete a (providers m); offers := offers m; instances := instances m; commands := commands m |}.
Definition put_offer (a : Address) (o : Offer) (m : Market) : Market :=
  {| providers := providers m; offers := <[(a, of_id o) := o]> (offers m); instances := instances m; commands := commands m |}.
Definition del_offer (a : Address) (id : N) (m : Market) : Market :=
  {| providers := providers m; offers := delete (a, id) (offers m); instances := instances m; commands := commands m |}.
Definition put_instance (i : MarketInstance) (m : Market) : Market :=
  {| providers := providers m; offers := offers m; instances := <[(in_provider i, in_id i) := i]> (instances m);
     commands := commands m |}.
Definition del_instance (a : Address) (id : N) (m : Market) : Market :=
  {| providers := providers m; offers := offers m; instances := delete (a, id) (instances m); commands := commands m |}.
Definition put_command (a : Address) (id : N) (qc : QueuedCommand) (m : Market) : Market :=
  {| providers := providers m; offers := offers m; instances := instances m;
     commands := <[(a, id, qc_id qc) := qc_cmd qc]> (commands m) |}.
Definition del_command (a : Address) (id c : N) (m : Market) : Market :=
  {| providers := providers m; offers := offers m; instances := instances m; commands := delete (a, id, c) (commands m) |}.

(** The fields of a descriptor are within their widths. *)
Definition payment_fits (p : Payment) : Prop :=
  match p with PayNative _ terms => map_Forall (λ _ x, (x ≤ u128_max)%N) terms | PayEvmContract _ _ => True end.
Definition resources_fit (r : Resources) : Prop :=
  fits64 (rs_memory r) ∧ (rs_cpus r ≤ u16_max)%N ∧ fits64 (rs_storage r) ∧
  from_option (λ g, (gpu_count g ≤ 255)%N) True (rs_gpu r).
Definition offer_fits (o : Offer) : Prop :=
  fits64 (of_id o) ∧ resources_fit (of_resources o) ∧ payment_fits (of_payment o) ∧ fits64 (of_capacity o).
Definition provider_fits (p : Provider) : Prop :=
  (amount (pr_stake p) ≤ u128_max)%N ∧ fits64 (offers_next_id p) ∧ fits64 (offers_count p) ∧
  fits64 (instances_next_id p) ∧ fits64 (instances_count p) ∧ fits64 (pr_created_at p) ∧ fits64 (pr_updated_at p).
Definition instance_fits (i : MarketInstance) : Prop :=
  fits64 (in_id i) ∧ fits64 (in_offer i) ∧ resources_fit (in_resources i) ∧ fits64 (in_created_at i) ∧
  fits64 (in_updated_at i) ∧ fits64 (in_paid_from i) ∧ fits64 (in_paid_until i) ∧ payment_fits (in_payment i) ∧
  fits64 (in_cmd_next_id i) ∧ fits64 (in_cmd_count i).

(** What is assumed of the encodings and of the hash function. *)
Class MarketLaws `{Platform, !MarketCodec} : Prop := {
  mk_provider_laws :: CborLaws Provider;
  provider_encodable (p : Provider) : provider_fits p → encodable p;
  mk_offer_laws :: CborLaws Offer;
  offer_encodable (o : Offer) : offer_fits o → encodable o;
  mk_instance_laws :: CborLaws MarketInstance;
  instance_encodable (i : MarketInstance) : instance_fits i → encodable i;
  mk_command_laws :: CborLaws bytes;
  command_encodable (c : bytes) : encodable c;
  (** no two addresses have the same hash *)
  provider_key_inj a b : provider_key a = provider_key b → a = b;
}.

(** * Refinement *)

Section refinement.
Context `{Platform} `{!MKVSLaws} `{!MarketCodec} `{!MarketLaws}.

Definition market_prefix : bytes := str MARKET_MODULE_NAME.
Definition pair_key (x : Address * N) : bytes := provider_key x.1 ++ be_bytes64 x.2.
Definition command_key (x : Address * N * N) : bytes := pair_key x.1 ++ be_bytes64 x.2.
Definition pair_valid (x : Address * N) : Prop := fits64 x.2.
Definition command_valid (x : Address * N * N) : Prop := fits64 x.1.2 ∧ fits64 x.2.

Lemma provider_key_length a : length (provider_key a) = 32%nat.
Proof. unfold provider_key, raw. apply (proj2_sig (digest_bytes _)). Qed.
Lemma pair_key_length x : length (pair_key x) = 40%nat.
Proof. unfold pair_key, be_bytes64. by rewrite length_app, provider_key_length, be_bytes_length. Qed.
Lemma pair_key_inj x y : pair_valid x → pair_valid y → pair_key x = pair_key y → x = y.
Proof.
  destruct x as [a n], y as [b k]. unfold pair_valid, pair_key. simpl. intros Hn Hk Heq.
  apply app_inj_1 in Heq as [Ha Hb]; [|by rewrite !provider_key_length].
  f_equal; [by apply provider_key_inj|by apply be_bytes64_inj].
Qed.
Lemma command_key_inj x y : command_valid x → command_valid y → command_key x = command_key y → x = y.
Proof.
  destruct x as [x n], y as [y k]. unfold command_valid, command_key. simpl. intros [Hx Hn] [Hy Hk] Heq.
  apply app_inj_1 in Heq as [Ha Hb]; [|by rewrite !pair_key_length].
  f_equal; [by apply pair_key_inj|by apply be_bytes64_inj].
Qed.
Lemma key_inj' a b : True → True → provider_key a = provider_key b → a = b.
Proof. intros _ _. apply provider_key_inj. Qed.

Record market_of (s : State) (m : Market) : Prop := {
  mo_writable : writable s;
  mo_providers : table (market_prefix ++ PROVIDERS) provider_key (λ _, True) (providers m) s;
  mo_offers : table (market_prefix ++ OFFERS) pair_key pair_valid (offers m) s;
  mo_instances : table (market_prefix ++ INSTANCES) pair_key pair_valid (instances m) s;
  mo_commands : table (market_prefix ++ INSTANCE_COMMANDS) command_key command_valid (commands m) s;
}.

(** The market depends on the entries below its prefix only. *)
Lemma same_market_of s s' m : same_below market_prefix s s' → market_of s m → market_of s' m.
Proof.
  intros (Hw & Hk) [_ Hp Ho Hi Hc].
  split; [done|eapply table_ext; [|done]; intros b; rewrite <-!app_assoc; apply Hk..].
Qed.
#[export] Instance market_view : View Market := {
  shows := market_of; view_prefix := market_prefix; view_same := same_market_of;
}.

(** ** Reading and writing *)

Ltac table_tac := first [done | eapply other_table_below; [eassumption|reflexivity|reflexivity|eassumption]].

Lemma get_provider_run {E} s m a : market_of s m → get_provider (E := E) a s = (Ok (providers m !! a), s).
Proof. intros Hm. by apply (table_get_run _ _ _ _ _ _ _ _ (mo_providers _ _ Hm) (mo_writable _ _ Hm)). Qed.
Lemma get_offer_run {E} s m a id :
  market_of s m → fits64 id → get_offer (E := E) a id s = (Ok (offers m !! (a, id)), s).
Proof.
  intros Hm Hid. apply (table_get_run _ _ _ _ _ _ _ (a, id) (mo_offers _ _ Hm) (mo_writable _ _ Hm) Hid).
  done.
Qed.
Lemma get_instance_run {E} s m a id :
  market_of s m → fits64 id → get_instance (E := E) a id s = (Ok (instances m !! (a, id)), s).
Proof.
  intros Hm Hid. apply (table_get_run _ _ _ _ _ _ _ (a, id) (mo_instances _ _ Hm) (mo_writable _ _ Hm) Hid).
  done.
Qed.

Lemma set_provider_run {E} s m p :
  market_of s m → provider_fits p →
  ∃ s', set_provider (E := E) p s = (Ok tt, s') ∧ market_of s' (put_provider p m) ∧ st_env s' = st_env s.
Proof.
  intros [Hw Hp Ho Hi Hc] Hfit.
  destruct (table_insert_run (E := E) _ _ _ key_inj' _ s providers_ref _ (pr_address p) p Hp Hw I
    (provider_encodable p Hfit) eq_refl) as (s' & Hrun & Ht & Hw' & Hst & Hk).
  exists s'. split; [exact Hrun|]. split; [|by apply store_env]. split; table_tac.
Qed.
Lemma remove_provider_run {E} s m a :
  market_of s m →
  ∃ s', remove_provider (E := E) a s = (Ok tt, s') ∧ market_of s' (drop_provider a m) ∧ st_env s' = st_env s.
Proof.
  intros [Hw Hp Ho Hi Hc].
  destruct (table_remove_run (E := E) _ _ _ key_inj' _ s providers_ref _ a Hp Hw I eq_refl)
    as (s' & Hrun & Ht & Hw' & Hst & Hk).
  exists s'. split; [exact Hrun|]. split; [|by apply store_env]. split; table_tac.
Qed.
Lemma set_offer_run {E} s m a o :
  market_of s m → offer_fits o →
  ∃ s', set_offer (E := E) a o s = (Ok tt, s') ∧ market_of s' (put_offer a o m) ∧ st_env s' = st_env s.
Proof.
  intros [Hw Hp Ho Hi Hc] Hfit.
  destruct (table_insert_run (E := E) _ _ _ pair_key_inj _ s (offers_ref a) (be_bytes64 (of_id o)) (a, of_id o) o Ho Hw
    (proj1 Hfit) (offer_encodable o Hfit)) as (s' & Hrun & Ht & Hw' & Hst & Hk).
  { done. }
  exists s'. split; [exact Hrun|]. split; [|by apply store_env]. split; table_tac.
Qed.
Lemma remove_offer_run {E} s m a id :
  market_of s m → fits64 id →
  ∃ s', remove_offer (E := E) a id s = (Ok tt, s') ∧ market_of s' (del_offer a id m) ∧ st_env s' = st_env s.
Proof.
  intros [Hw Hp Ho Hi Hc] Hid.
  destruct (table_remove_run (E := E) _ _ _ pair_key_inj _ s (offers_ref a) (be_bytes64 id) (a, id) Ho Hw Hid)
    as (s' & Hrun & Ht & Hw' & Hst & Hk).
  { done. }
  exists s'. split; [exact Hrun|]. split; [|by apply store_env]. split; table_tac.
Qed.
Lemma set_instance_run {E} s m i :
  market_of s m → instance_fits i →
  ∃ s', set_instance (E := E) i s = (Ok tt, s') ∧ market_of s' (put_instance i m) ∧ st_env s' = st_env s.
Proof.
  intros [Hw Hp Ho Hi Hc] Hfit.
  destruct (table_insert_run (E := E) _ _ _ pair_key_inj _ s (instances_ref (in_provider i)) (be_bytes64 (in_id i))
    (in_provider i, in_id i) i Hi Hw (proj1 Hfit) (instance_encodable i Hfit)) as (s' & Hrun & Ht & Hw' & Hst & Hk).
  { done. }
  exists s'. split; [exact Hrun|]. split; [|by apply store_env]. split; table_tac.
Qed.
Lemma remove_instance_run {E} s m a id :
  market_of s m → fits64 id →
  ∃ s', remove_instance (E := E) a id s = (Ok tt, s') ∧ market_of s' (del_instance a id m) ∧ st_env s' = st_env s.
Proof.
  intros [Hw Hp Ho Hi Hc] Hid.
  destruct (table_remove_run (E := E) _ _ _ pair_key_inj _ s (instances_ref a) (be_bytes64 id) (a, id) Hi Hw Hid)
    as (s' & Hrun & Ht & Hw' & Hst & Hk).
  { done. }
  exists s'. split; [exact Hrun|]. split; [|by apply store_env]. split; table_tac.
Qed.
Lemma set_command_run {E} s m a id qc :
  market_of s m → fits64 id → fits64 (qc_id qc) →
  ∃ s', set_instance_command (E := E) a id qc s = (Ok tt, s') ∧ market_of s' (put_command a id qc m) ∧ st_env s' = st_env s.
Proof.
  intros [Hw Hp Ho Hi Hc] Hid Hqc.
  destruct (table_insert_run (E := E) _ _ _ command_key_inj _ s (commands_ref a id) (be_bytes64 (qc_id qc))
    (a, id, qc_id qc) (qc_cmd qc) Hc Hw (conj Hid Hqc) (command_encodable _)) as (s' & Hrun & Ht & Hw' & Hst & Hk).
  { unfold command_key, pair_key. simpl. by rewrite <-app_assoc. }
  exists s'. split; [exact Hrun|]. split; [|by apply store_env]. split; table_tac.
Qed.
Lemma remove_command_run {E} s m a id c :
  market_of s m → fits64 id → fits64 c →
  ∃ s', remove_instance_command (E := E) a id c s = (Ok tt, s') ∧ market_of s' (del_command a id c m) ∧ st_env s' = st_env s.
Proof.
  intros [Hw Hp Ho Hi Hc] Hid Hqc.
  destruct (table_remove_run (E := E) _ _ _ command_key_inj _ s (commands_ref a id) (be_bytes64 c)
    (a, id, c) Hc Hw (conj Hid Hqc)) as (s' & Hrun & Ht & Hw' & Hst & Hk).
  { unfold command_key, pair_key. simpl. by rewrite <-app_assoc. }
  exists s'. split; [exact Hrun|]. split; [|by apply store_env]. split; table_tac.
Qed.

(** ** Rows of a table *)

(** The entries of a map that belong to [a]. *)
Definition row {A V} `{Countable A} (a : A) (m : gmap (A * N) V) : gmap N V :=
  map_fold (λ k x m, if decide (k.1 = a) then <[k.2 := x]> m else m) ∅ m.
Lemma row_lookup {A V} `{Countable A} (a : A) (m : gmap (A * N) V) n : row a m !! n = m !! (a, n).
Proof.
  unfold row. apply (map_fold_weak_ind (λ r m, r !! n = m !! (a, n))); [done|].
  intros [a' n'] x m' r Hm IH. simpl. case_decide as Ha; subst.
  - destruct (decide (n' = n)) as [->|Hne]; [by rewrite !lookup_insert_eq|].
    rewrite !lookup_insert_ne by congruence. done.
  - rewrite lookup_insert_ne by congruence. done.
Qed.

Lemma row_table {A V} `{Countable A, !Cbor V} (P : bytes) (f : A → bytes) (valid : A * N → Prop) (m : gmap (A * N) V) s a n0 :
  table P (λ x, f x.1 ++ be_bytes64 x.2) valid m s → (∀ b, length (f b) = n0) →
  (∀ b n, valid (b, n) → fits64 n) → (∀ n, fits64 n → valid (a, n)) →
  table (P ++ f a) be_bytes64 fits64 (row a m) s.
Proof.
  intros [Hv Hg Hk] Hlen Hvalid Ha. split.
  - intros n. rewrite row_lookup. intros Hn%Hv. by eapply Hvalid.
  - intros n Hn. rewrite row_lookup, <-app_assoc. exact (Hg (a, n) (Ha n Hn)).
  - intros b Hb. rewrite <-app_assoc in Hb. destruct (Hk _ Hb) as ([a' n] & Hv' & Heq). simpl in Heq.
    apply app_inj_1 in Heq as [_ ->]; [|by rewrite !Hlen]. exists n. split; [by eapply Hvalid|done].
Qed.

Lemma id_key_bytes n : fits64 n → id_key (be_bytes64 n) = inr n.
Proof. intros Hn. unfold id_key. unfold be_bytes64 at 1. rewrite be_bytes_length. cbn [Nat.eqb]. by rewrite from_be_64. Qed.

(** Sorted identifiers are distinct. *)
Lemma sorted_ids {V} (l : list (N * V)) :
  (∀ x, x ∈ l → fits64 x.1) → StronglySorted (key_lt be_bytes64) l → StronglySorted N.lt l.*1.
Proof.
  intros Hv Hs. induction Hs as [|x l _ IH Hx]; [constructor|]. rewrite fmap_cons.
  constructor; [apply IH; intros; apply Hv; by right|].
  apply Forall_fmap. rewrite Forall_forall in Hx |- *. intros y Hy. specialize (Hx y Hy). simpl. unfold key_lt, bytes_lt in Hx.
  rewrite from_be_order in Hx by (unfold be_bytes64; by rewrite !be_bytes_length).
  rewrite !from_be_64 in Hx by (apply Hv; first [left|by right]). by apply N.ltb_lt.
Qed.
Lemma sorted_nodup l : StronglySorted N.lt l → NoDup l.
Proof.
  induction 1 as [|x l _ IH Hx]; constructor; [|done]. rewrite Forall_forall in Hx. intros Hin%Hx. lia.
Qed.

Lemma get_offers_run {E} s m a :
  market_of s m →
  ∃ l, get_offers (E := E) a s = (Ok l.*2, s) ∧ NoDup l.*1 ∧ ∀ id o, (id, o) ∈ l ↔ offers m !! (a, id) = Some o.
Proof.
  intros Hm. pose proof (row_table _ provider_key pair_valid (offers m) s a 32 (mo_offers _ _ Hm) provider_key_length
    ltac:(done) ltac:(done)) as Ht.
  destruct (table_iter_run (E := E) _ _ _ id_key offer_default _ s (PrefixStore market_store OFFERS) (provider_key a)
    id_key_bytes Ht (mo_writable _ _ Hm) eq_refl) as (l & Hrun & Hs & Hl & _).
  exists l. unfold get_offers. rewrite (bind_ok _ _ _ _ _ Hrun). split; [done|]. split.
  - apply sorted_nodup, sorted_ids; [|done]. intros [id o] Hin%Hl. apply (tb_valid _ _ _ _ _ Ht). by exists o.
  - intros id o. by rewrite Hl, row_lookup.
Qed.

(** ** The queue of commands *)

Definition to_command (x : N * bytes) : QueuedCommand := {| qc_id := x.1; qc_cmd := x.2 |}.
Lemma take_commands_run {E} until (raws : list (bytes * bytes)) s l :
  map_m (typed_item (E := E) id_key []) raws s = (Ok l, s) →
  ∃ l1 l2, l = l1 ++ l2 ∧ take_commands (E := E) until raws s = (Ok (to_command <$> l1), s) ∧
    Forall (λ x, (x.1 ≤ until)%N) l1 ∧ ∀ x l2', l2 = x :: l2' → (until < x.1)%N.
Proof.
  revert l. induction raws as [|kv raws IH]; intros l; cbn [map_m take_commands].
  { intros [= <-]. exists [], []. by split. }
  intros (x & s1 & Hx & Hrun)%bind_ok_inv. apply bind_ok_inv in Hrun as (ys & s2 & Hys & Hrun). injection Hrun as <- ->.
  assert (s1 = s) as ->.
  { clear -Hx. unfold typed_item in Hx. run_simpl_in Hx. repeat case_match; by simplify_eq. }
  rewrite (bind_ok _ _ _ _ _ Hx). destruct (IH ys Hys) as (l1 & l2 & -> & Hrun & Hall & Hhd).
  destruct (N.leb_spec x.1 until) as [Hle|Hgt].
  - exists (x :: l1), l2. rewrite (bind_ok _ _ _ _ _ Hrun). split; [done|]. split; [done|]. by split; [constructor|].
  - exists [], (x :: l1 ++ l2). do 3 (split; [done|]). intros y l2' [= <- _]. done.
Qed.

Lemma get_instance_commands_run {E} s m a id until :
  market_of s m → fits64 id →
  ∃ l, get_instance_commands (E := E) a id until s = (Ok (to_command <$> l), s) ∧ NoDup l.*1 ∧
    ∀ c x, (c, x) ∈ l ↔ commands m !! (a, id, c) = Some x ∧ (c ≤ until)%N.
Proof.
  intros Hm Hid.
  pose proof (row_table _ pair_key command_valid (commands m) s (a, id) 40 (mo_commands _ _ Hm) pair_key_length
    ltac:(by intros ? ? []) ltac:(done)) as Ht.
  assert (HP : ref_prefix (PrefixStore (PrefixStore market_store INSTANCE_COMMANDS) (provider_key a)) ++ be_bytes64 id =
    (market_prefix ++ INSTANCE_COMMANDS) ++ pair_key (a, id)).
  { unfold pair_key. simpl. by rewrite <-?app_assoc. }
  destruct (table_iter_run (E := E) _ _ _ id_key [] _ s _ _ id_key_bytes Ht (mo_writable _ _ Hm) HP)
    as (l & Hrun & Hs & Hl & _).
  destruct (mo_writable _ _ Hm) as (st & Hst & _). unfold get_instance_commands, typed_iter, store in *.
  run_simpl. run_simpl_in Hrun. rewrite Hst in *. fold (commands_ref a id) in Hrun.
  destruct (ref_collect st (commands_ref a id)) as [raws|[]|]; [|done].
  destruct (take_commands_run (E := E) until _ _ _ Hrun) as (l1 & l2 & -> & Hrun1 & Hall & Hhd).
  assert (Hsort : StronglySorted N.lt (l1 ++ l2).*1).
  { apply sorted_ids; [|done]. intros [c x] Hin%Hl. apply (tb_valid _ _ _ _ _ Ht). by exists x. }
  exists l1. split; [exact Hrun1|]. rewrite fmap_app in Hsort. split.
  - apply sorted_nodup in Hsort. by apply NoDup_app in Hsort as [? _].
  - intros c x. rewrite <-(row_lookup (a, id)), <-Hl, elem_of_app. rewrite Forall_forall in Hall. split.
    + intros Hin. split; [by left|exact (Hall _ Hin)].
    + intros [[?|Hin] Hle]; [done|]. exfalso. destruct l2 as [|y l2]; [by apply not_elem_of_nil in Hin|].
      specialize (Hhd y l2 eq_refl). apply elem_of_cons in Hin as [<-|Hin]; [simpl in *; lia|].
      assert (y.1 < c)%N; [|lia]. clear -Hsort Hin. induction l1 as [|z l1 IH]; simpl in Hsort.
      * apply StronglySorted_cons in Hsort as [Hall _]. rewrite Forall_forall in Hall. apply Hall.
        apply list_elem_of_fmap. by exists (c, x).
      * apply StronglySorted_cons in Hsort as [_ Hsort]. by apply IH.
Qed.
End refinement.
