(* ===== verification/Endorsements.v ===== *)
(** Endorsement policies mean what their tree says: for a policy that an application may have, the evaluation
    with its limited depth and early exits agrees with the boolean meaning of the tree
    (src/runtime-sdk/src/modules/rofl/policy.rs, src/runtime-sdk/modules/rofl-market/src/policy.rs). *)
From S2P Require Import Prelude Endian Storage StoreIter Types Fee Errors State Current Transactions Module Tables CallFormat.
From S2P Require Import Core Accounts Dispatcher Subcall Rofl Market MarketTables.

(** The endorsement policies that refer to the providers of the market
    (src/runtime-sdk/modules/rofl-market/src/policy.rs). *)

Local Open Scope string_scope.

Definition METADATA_KEY_POLICY_PROVIDER_ATTESTATION : string := "net.oasis.policy.provider".
Definition LABEL_PROVIDER : string := "net.oasis.provider".

Record ProviderLabel := { pl_provider : Address; pl_instance : N }.
Record ProviderAttestation := { pa_label_attestation : bytes; pa_signature : bytes }.
(** [host::attestation::LabelAttestation]. *)
Record LabelAttestation := { la_labels : StringMap; la_rak : bytes }.

(** Base64, the decoding of CBOR and signatures of nodes are outside of the repository. *)
Class PolicyPlatform := {
  base64_decode : string → option bytes;
  attestation_from_slice : bytes → option ProviderAttestation;
  labels_from_slice : bytes → option LabelAttestation;
  provider_label_from_slice : bytes → option ProviderLabel;
  ATTEST_LABELS_SIGNATURE_CONTEXT : bytes;
  node_signature_verify : bytes → bytes → bytes → bytes → bool;
}.

Section policy.
Context `{Platform} `{!RoflPlatform} `{!MarketCodec} `{!PolicyPlatform}.

(** What a node attests: the metadata of the instance decodes to labels that the node has signed for the
    attestation key, and one of them names the provider and the instance. *)
Definition attested_label (ect : EndorsedCapabilityTEE) (endorsing_node_id : bytes) (metadata : StringMap) : option ProviderLabel :=
  encoded ← metadata !! METADATA_KEY_POLICY_PROVIDER_ATTESTATION;
  pa ← base64_decode encoded ≫= attestation_from_slice;
  if negb (node_signature_verify (pa_signature pa) endorsing_node_id ATTEST_LABELS_SIGNATURE_CONTEXT (pa_label_attestation pa))
  then None else
  label_attestation ← labels_from_slice (pa_label_attestation pa);
  if negb (bool_decide (la_rak label_attestation = ect_rak ect)) then None else
  label ← la_labels label_attestation !! LABEL_PROVIDER;
  base64_decode label ≫= provider_label_from_slice.

Definition provider_verify_atom : Evaluator := λ _ policy ect endorsing_node_id _ metadata,
  match policy with
  | AllowProvider address =>
      p ← get_provider address;
      provider ← ok_or p NodeNotAllowed;
      if bool_decide (endorsing_node_id ∈ pr_nodes provider) then mret tt else throw NodeNotAllowed
  | AllowProviderInstanceAdmin expected_admin =>
      label ← ok_or (attested_label ect endorsing_node_id metadata) NodeNotAllowed;
      p ← get_provider (pl_provider label);
      provider ← ok_or p NodeNotAllowed;
      if negb (bool_decide (endorsing_node_id ∈ pr_nodes provider)) then throw NodeNotAllowed else
      i ← get_instance (pl_provider label) (pl_instance label);
      inst ← ok_or i NodeNotAllowed;
      if bool_decide (in_admin inst = expected_admin) then mret tt else throw NodeNotAllowed
  | _ => throw NodeNotAllowed
  end.

(** Policies are evaluated without writing. *)
Lemma reads_provider_atom ctx a ect id node metadata : reads (provider_verify_atom ctx a ect id node metadata).
Proof.
  destruct a; try done; simpl.
  - apply reads_bind; [apply reads_typed_get|]. intros p. apply reads_bind; [apply reads_ok_or|]. intros pr. by destruct (bool_decide _).
  - apply reads_bind; [apply reads_ok_or|]. intros l. apply reads_bind; [apply reads_typed_get|]. intros p.
    apply reads_bind; [apply reads_ok_or|]. intros pr. destruct (negb _); [done|].
    apply reads_bind; [apply reads_typed_get|]. intros i. apply reads_bind; [apply reads_ok_or|]. intros ins. by destruct (bool_decide _).
Qed.
Lemma reads_atoms ctx a ect id node metadata :
  reads (verify_atom_tuple [basic_verify_atom; provider_verify_atom] ctx a ect id node metadata).
Proof.
  cbn [verify_atom_tuple]. apply reads_bind; [apply reads_try; unfold basic_verify_atom; intros s; by case_match|].
  intros [e|u]; [|done]. apply reads_bind; [apply reads_try, reads_provider_atom|]. by intros [].
Qed.
End policy.

Definition is_atom (a : AllowedEndorsement) : bool := match a with AllowAnd _ | AllowOr _ => false | _ => true end.

Section meaning.
Context `{Platform} `{!RoflPlatform} `{!MarketCodec} `{!PolicyPlatform}.

(** What a policy says of an enclave that a node endorses, given the providers of the market. *)
Record Subject := { su_ect : EndorsedCapabilityTEE; su_node : option ConsensusNode; su_metadata : StringMap; su_market : Market }.
Definition su_node_id (x : Subject) : bytes := ect_node (su_ect x).
Definition endorsed_by (x : Subject) (provider : Address) : bool :=
  from_option (λ p, bool_decide (su_node_id x ∈ pr_nodes p)) false (providers (su_market x) !! provider).
Fixpoint endorsed (x : Subject) (a : AllowedEndorsement) : bool :=
  match a with
  | AllowAny => true
  | AllowComputeRole => from_option (λ n, nd_is_compute_worker n && nd_has_runtime n) false (su_node x)
  | AllowObserverRole => from_option (λ n, nd_is_observer n && nd_has_runtime n) false (su_node x)
  | AllowEntity id => from_option (λ n, bool_decide (nd_entity_id n = id)) false (su_node x)
  | AllowNode id => bool_decide (su_node_id x = id)
  | AllowProvider address => endorsed_by x address
  | AllowProviderInstanceAdmin admin =>
      match attested_label (su_ect x) (su_node_id x) (su_metadata x) with
      | Some l => endorsed_by x (pl_provider l) &&
                  from_option (λ i, bool_decide (in_admin i = admin)) false (instances (su_market x) !! (pl_provider l, pl_instance l))
      | None => false
      end
  | AllowAnd l => forallb (endorsed x) l
  | AllowOr l => existsb (endorsed x) l
  end.
Definition endorsed_op (op : EndorsementPolicyOperator) (x : Subject) (l : list AllowedEndorsement) : bool :=
  match op with OpAnd => forallb (endorsed x) l | OpOr => existsb (endorsed x) l end.
End meaning.

Section evaluation.
Context `{Platform} `{!MKVSLaws} `{!RoflPlatform} `{!MarketCodec} `{!MarketLaws} `{!PolicyPlatform}.

(** The outcome of an evaluation in a state that it only reads. *)
Definition decides (m : M RoflError unit) (s : State) (b : bool) : Prop :=
  ∃ o, m s = (o, s) ∧ if b then o = Ok tt else ∃ e, o = Err e.
(** Identifiers that are decoded from a label have 64 bits. *)
Definition labels_fit : Prop := ∀ b l, provider_label_from_slice b = Some l → fits64 (pl_instance l).
Lemma attested_label_fits ect id metadata l : labels_fit → attested_label ect id metadata = Some l → fits64 (pl_instance l).
Proof.
  intros Hfit. unfold attested_label. intros Hl. repeat (apply bind_Some in Hl as (? & ? & Hl) || case_match); try done.
  by eapply Hfit.
Qed.

Lemma decides_throw s e : decides (throw e) s false.
Proof. eexists. split; [done|]. by eexists. Qed.
Lemma decides_if s (b : bool) e : decides (if b then mret tt else throw e) s b.
Proof. destruct b; [by eexists|apply decides_throw]. Qed.

Lemma basic_decides ctx a x s :
  is_atom a = true →
  decides (basic_verify_atom ctx a (su_ect x) (su_node_id x) (su_node x) (su_metadata x)) s
    (match a with AllowProvider _ | AllowProviderInstanceAdmin _ => false | _ => endorsed x a end).
Proof.
  intros Ha. unfold basic_verify_atom. destruct a; try done; simpl; try (destruct (su_node x); simpl);
    first [apply decides_if|by eexists|apply decides_throw].
Qed.
Lemma provider_decides ctx a x s :
  labels_fit → market_of s (su_market x) →
  decides (provider_verify_atom ctx a (su_ect x) (su_node_id x) (su_node x) (su_metadata x)) s
    (match a with AllowProvider _ | AllowProviderInstanceAdmin _ => endorsed x a | _ => false end).
Proof.
  intros Hfit Hm. destruct a; try apply decides_throw; simpl; unfold endorsed_by.
  - unfold decides. rewrite (bind_ok _ _ _ _ _ (get_provider_run (E := RoflError) s _ a Hm)).
    destruct (providers (su_market x) !! a) as [p|]; [apply decides_if|apply decides_throw].
  - destruct (attested_label _ _ _) as [l|] eqn:Hl; [|apply decides_throw]. unfold decides.
    pose proof (attested_label_fits _ _ _ _ Hfit Hl) as Hid.
    rewrite (bind_ok (ok_or (Some l) NodeNotAllowed) _ s l s eq_refl), (bind_ok _ _ _ _ _ (get_provider_run (E := RoflError) s _ (pl_provider l) Hm)).
    destruct (providers (su_market x) !! pl_provider l) as [p|]; [|apply decides_throw].
    rewrite (bind_ok (ok_or (Some p) NodeNotAllowed) _ s p s eq_refl). simpl. destruct (bool_decide (su_node_id x ∈ pr_nodes p)); [|apply decides_throw]. simpl.
    rewrite (bind_ok _ _ _ _ _ (get_instance_run (E := RoflError) s _ (pl_provider l) (pl_instance l) Hm Hid)).
    destruct (instances _ !! _) as [i|]; [apply decides_if|apply decides_throw].
Qed.
(** The first evaluator of a tuple that allows an atom decides it. *)
Lemma tuple_decides ctx a x s :
  labels_fit → market_of s (su_market x) → is_atom a = true →
  decides (verify_atom_tuple [basic_verify_atom; provider_verify_atom] ctx a (su_ect x) (su_node_id x) (su_node x) (su_metadata x))
    s (endorsed x a).
Proof.
  intros Hfit Hm Ha. destruct (basic_decides ctx a x s Ha) as (o & Hrun & Ho).
  destruct (provider_decides ctx a x s Hfit Hm) as (o' & Hrun' & Ho').
  assert (endorsed x a = (match a with AllowProvider _ | AllowProviderInstanceAdmin _ => false | _ => endorsed x a end ||
    match a with AllowProvider _ | AllowProviderInstanceAdmin _ => endorsed x a | _ => false end)) as ->.
  { destruct a; simpl; by rewrite ?orb_false_r. }
  unfold decides. cbn [verify_atom_tuple]. unfold mbind, ST_bind, try_. rewrite Hrun.
  match type of Ho with if ?b then _ else _ => destruct b end; [subst o; by eexists|]. destruct Ho as [e ->]. simpl.
  rewrite Hrun'. match type of Ho' with if ?b then _ else _ => destruct b end; [subst o'; by eexists|].
  destruct Ho' as [e' ->]. eexists. split; [done|by eexists].
Qed.

Context `{!RoflConfig}.

(** The children of a policy whose atoms can be counted can be counted. *)
Definition counted (left : nat) (l : list AllowedEndorsement) : Prop := ∃ n, count_endorsement_atoms left l = inr n.
Lemma counted_children left l :
  counted (S left) l → Forall (λ a, match a with AllowAnd c | AllowOr c => counted left c | _ => True end) l.
Proof.
  intros [n Hn]. cbn [count_endorsement_atoms] in Hn. revert Hn. generalize (N.of_nat (length l)). intros k. revert k.
  induction l as [|a l IH]; intros k Hn; constructor.
  - destruct a; try done; destruct (count_endorsement_atoms left l0) eqn:Hc; try done; by eexists.
  - destruct a; try (by eapply IH); destruct (count_endorsement_atoms left l0); try done; by eapply IH.
Qed.

(** A policy that is not too deep is evaluated in full. *)
Section verify.
Variables (ctx : Ctx) (x : Subject) (s : State).
Hypothesis atoms_decide : ∀ a, is_atom a = true →
  decides (verify_atom ctx a (su_ect x) (su_node_id x) (su_node x) (su_metadata x)) s (endorsed x a).

Lemma verify_atoms_decides left op l :
  counted left l →
  ∃ o, verify_atoms ctx op l (su_ect x) (su_node_id x) (su_node x) (su_metadata x) left s = (o, s) ∧
    if endorsed_op op x l then o = Ok tt else match op with OpOr => o = Err NodeNotAllowed | OpAnd => ∃ e, o = Err e end.
Proof.
  revert op l. induction left as [|left IH]; intros op l Hc; [by destruct Hc|].
  apply counted_children in Hc. cbn [verify_atoms]. induction Hc as [|a l Ha Hl IHl]; [by destruct op; eexists|].
  assert (Hd : decides (match a with
      | AllowAnd c => verify_atoms ctx OpAnd c (su_ect x) (su_node_id x) (su_node x) (su_metadata x) left
      | AllowOr c => verify_atoms ctx OpOr c (su_ect x) (su_node_id x) (su_node x) (su_metadata x) left
      | _ => verify_atom ctx a (su_ect x) (su_node_id x) (su_node x) (su_metadata x) end) s (endorsed x a)).
  { destruct a; try (by apply atoms_decide); simpl.
    - destruct (IH OpAnd l0 Ha) as (o & Hrun & Ho). exists o. split; [done|]. simpl in Ho. by case_match.
    - destruct (IH OpOr l0 Ha) as (o & Hrun & Ho). exists o. split; [done|]. simpl in Ho. case_match; [done|by eexists]. }
  destruct Hd as (o & Hrun & Ho). unfold mbind, ST_bind, try_. rewrite Hrun.
  destruct op; simpl; destruct (endorsed x a); simpl; [subst o|destruct Ho as [e ->]|subst o|destruct Ho as [e ->]];
    [exact IHl| |by eexists|exact IHl].
  eexists. split; [done|by eexists].
Qed.
End verify.
End evaluation.

Module EndorsementClaims.
Section claims.
Context `{Platform} `{!MKVSLaws} `{!RoflPlatform} `{!RoflConfig} `{!MarketCodec} `{!MarketLaws} `{!PolicyPlatform}.

(** The node that endorses an enclave, unless its registration has expired. *)
Definition live_node (ctx : Ctx) (node : option ConsensusNode) : option ConsensusNode :=
  node ≫= λ n, if (nd_expiration n <? ctx_epoch ctx)%N then None else Some n.

(** C11. An endorsement policy that passes validation means what its tree of atoms says: in a runtime with the
    evaluators for nodes and for providers of the market, an enclave is accepted exactly when the boolean
    meaning of the policy is true of its endorsing node, the metadata it gives and the providers and
    instances of the market; otherwise the only error is that the node is not allowed.  The limit on the
    depth of the evaluation and its early exits make no difference, and nothing is written. *)
Theorem policy_means_its_tree ctx p ect metadata node s Mk :
  verify_atom = verify_atom_tuple [basic_verify_atom; provider_verify_atom] → labels_fit →
  market_of s Mk → policy_validate p = inr tt → registry_node (ctx_round ctx) (ect_node ect) = Some node →
  let x := {| su_ect := ect; su_node := live_node ctx node; su_metadata := metadata; su_market := Mk |} in
  verify_policy ctx (endorsements p) ect metadata s =
    (if existsb (endorsed x) (endorsements p) then Ok (live_node ctx node) else Err NodeNotAllowed, s).
Proof.
  intros Hev Hfit Hm Hval Hnode x. unfold policy_validate in Hval.
  destruct (count_endorsement_atoms _ _) as [e|n] eqn:Hc; [done|]. unfold verify_policy.
  assert (endorsing_node ctx (ect_node ect) s = (Ok (live_node ctx node), s)) as Hen.
  { unfold endorsing_node, live_node. rewrite Hnode. destruct node as [nd|]; [|done]. unfold mbind, ST_bind. simpl. by destruct (nd_expiration nd <? ctx_epoch ctx)%N. }
  rewrite (bind_ok _ _ _ _ _ Hen).
  destruct (verify_atoms_decides ctx x s) with (left := MAX_ENDORSEMENT_POLICY_DEPTH) (op := OpOr) (l := endorsements p)
    as (o & Hrun & Ho); [intros a Ha; rewrite Hev; by apply tuple_decides|by exists n|].
  unfold mbind, ST_bind. unfold su_node_id, x in Hrun. cbn [su_ect su_node su_metadata] in Hrun. rewrite Hrun. simpl in Ho.
  by destruct (existsb _ _); subst o.
Qed.
End claims.
End EndorsementClaims.
