(* ===== verification/MarketWp.v ===== *)
(** A program logic for the ROFL market: weakest preconditions over the abstract market, with one rule per
    operation on the tables (src/runtime-sdk/modules/rofl-market/src/{state,payment}.rs).

    The rules of the connectives are those of the general logic; here are those of the tables and payments. *)
From S2P Require Import Prelude Endian Storage StoreIter Types Fee Errors State Current Transactions Module Tables CallFormat.
From S2P Require Import Core Gas Accounts Ledger Accounting Disbursement Moves Dispatcher Dispatch Subcall EvmTypes Rofl Market.
From S2P Require Import MarketTables.

(** What does not concern the market. *)
Notation neutral := (leaves market_prefix).

Section wp.
Context `{Platform} `{!MKVSLaws} `{!MarketCodec} `{!MarketLaws}.

(** ** Tables *)

Ltac table_op H := intros; eapply wp_run;
  [match goal with |- framed ?m => let h := get_head m in unfold h end; solve_framed
  |intros s0 Hs0; destruct (H s0) as (s' & Hrun & Hs' & _); [..|exists s'; by split]; done|done].

Lemma wp_get_provider {E} a (Q : option Provider → Market → Prop) Mk :
  Q (providers Mk !! a) Mk → wp (get_provider (E := E) a) Q Mk.
Proof. intros HQ s Hr Hs x s' Hrun. rewrite (get_provider_run s Mk) in Hrun by done. simplify_eq. eauto. Qed.
Lemma wp_get_offer {E} a id (Q : option Offer → Market → Prop) Mk :
  fits64 id → Q (offers Mk !! (a, id)) Mk → wp (get_offer (E := E) a id) Q Mk.
Proof. intros Hid HQ s Hr Hs x s' Hrun. rewrite (get_offer_run s Mk) in Hrun by done. simplify_eq. eauto. Qed.
Lemma wp_get_instance {E} a id (Q : option MarketInstance → Market → Prop) Mk :
  fits64 id → Q (instances Mk !! (a, id)) Mk → wp (get_instance (E := E) a id) Q Mk.
Proof. intros Hid HQ s Hr Hs x s' Hrun. rewrite (get_instance_run s Mk) in Hrun by done. simplify_eq. eauto. Qed.
Lemma wp_set_provider {E} p (Q : unit → Market → Prop) Mk :
  provider_fits p → Q tt (put_provider p Mk) → wp (set_provider (E := E) p) Q Mk.
Proof. table_op (λ s, set_provider_run (E := E) s Mk p). Qed.
Lemma wp_remove_provider {E} a (Q : unit → Market → Prop) Mk :
  Q tt (drop_provider a Mk) → wp (remove_provider (E := E) a) Q Mk.
Proof. table_op (λ s, remove_provider_run (E := E) s Mk a). Qed.
Lemma wp_set_offer {E} a o (Q : unit → Market → Prop) Mk :
  offer_fits o → Q tt (put_offer a o Mk) → wp (set_offer (E := E) a o) Q Mk.
Proof. table_op (λ s, set_offer_run (E := E) s Mk a o). Qed.
Lemma wp_remove_offer {E} a id (Q : unit → Market → Prop) Mk :
  fits64 id → Q tt (del_offer a id Mk) → wp (remove_offer (E := E) a id) Q Mk.
Proof. table_op (λ s, remove_offer_run (E := E) s Mk a id). Qed.
Lemma wp_set_instance {E} i (Q : unit → Market → Prop) Mk :
  instance_fits i → Q tt (put_instance i Mk) → wp (set_instance (E := E) i) Q Mk.
Proof. table_op (λ s, set_instance_run (E := E) s Mk i). Qed.
Lemma wp_remove_instance {E} a id (Q : unit → Market → Prop) Mk :
  fits64 id → Q tt (del_instance a id Mk) → wp (remove_instance (E := E) a id) Q Mk.
Proof. table_op (λ s, remove_instance_run (E := E) s Mk a id). Qed.
Lemma wp_set_command {E} a id qc (Q : unit → Market → Prop) Mk :
  fits64 id → fits64 (qc_id qc) → Q tt (put_command a id qc Mk) → wp (set_instance_command (E := E) a id qc) Q Mk.
Proof. table_op (λ s, set_command_run (E := E) s Mk a id qc). Qed.
Lemma wp_remove_command {E} a id c (Q : unit → Market → Prop) Mk :
  fits64 id → fits64 c → Q tt (del_command a id c Mk) → wp (remove_instance_command (E := E) a id c) Q Mk.
Proof. table_op (λ s, remove_command_run (E := E) s Mk a id c). Qed.

Lemma wp_get_offers {E} a (Q : list Offer → Market → Prop) Mk :
  (∀ l, NoDup l.*1 → (∀ id o, (id, o) ∈ l ↔ offers Mk !! (a, id) = Some o) → Q l.*2 Mk) → wp (get_offers (E := E) a) Q Mk.
Proof.
  intros HQ s Hr Hs x s' Hrun. destruct (get_offers_run (E := E) s Mk a Hs) as (l & Hl & Hnd & Hin).
  rewrite Hrun in Hl. simplify_eq. eauto.
Qed.
Lemma wp_get_commands {E} a id until (Q : list QueuedCommand → Market → Prop) Mk :
  fits64 id →
  (∀ l, NoDup l.*1 → (∀ c x, (c, x) ∈ l ↔ commands Mk !! (a, id, c) = Some x ∧ (c ≤ until)%N) →
        Q (to_command <$> l) Mk) →
  wp (get_instance_commands (E := E) a id until) Q Mk.
Proof.
  intros Hid HQ s Hr Hs x s' Hrun. destruct (get_instance_commands_run (E := E) s Mk a id until Hs Hid) as (l & Hl & Hnd & Hin).
  rewrite Hrun in Hl. simplify_eq. eauto.
Qed.
End wp.

(** ** Gas, transfers and payments *)

(** The calls of a runtime that are not calls of the market; the method of an encrypted call is not known. *)
Definition not_market `{Crypto} (call : Call) : bool :=
  bool_decide (call_format call = Plain) && negb (starts_with (str (call_method call)) (str MARKET_MODULE_NAME)).

Section payments.
Context `{Platform} `{!MKVSLaws} `{!TxCodec} `{!CallCrypto} `{!CoreCodec} `{!CoreConfig} `{!DispatchCodec}.
Context `{!AccountsCodec} `{!MarketConfig} `{!MarketCodec} `{!MarketLaws} `{!MarketCrypto} `{!RoflAPI}.
Context (R : SubcallStack → Runtime) (stack : SubcallStack) `{!∀ stack, FramedRuntime (R stack)}.
(** Other modules write to the market only through its calls. *)
Hypothesis others_leave_market : ∀ stack' ctx call,
  forbid_reentrancy ∈ stack' → not_market call = true → neutral (subcall_body (R stack') ctx call).

Lemma neutral_subcall ctx info : neutral (subcall R stack ctx info forbid_reentrancy).
Proof.
  intros s Hs res s'. unfold subcall. destruct (forbid_reentrancy info) as [e|[]] eqn:Hv; [done|].
  case_match; [done|]. case_match; [done|]. rewrite gets_bind. set (tx := subcall_tx _ _).
  set (f := subcall_body _ ctx (tx_call tx)).
  assert (Hf : framed f) by (by apply framed_subcall_body).
  assert (Hn : neutral f).
  { apply others_leave_market; [unfold push; apply elem_of_app; right; by left|].
    unfold not_market. cbn. unfold forbid_reentrancy in Hv. by destruct (starts_with _ _). }
  destruct (ready_rng s Hs) as [rg Hr]. destruct (f (opened (subcall_options tx) s rg)) as [o child] eqn:Hrun.
  pose proof (with_transaction_run _ _ _ _ _ _ Hs Hr Hf Hrun) as Htx.
  pose proof (framed_with_transaction_opts (subcall_options tx) f Hf s Hs) as Hfr. rewrite Htx in Hfr.
  intros (x & s1 & Hx & Hret)%bind_ok_inv. injection Hret as _ <-. unfold lift, map_err in Hx. rewrite Htx in Hx.
  pose proof (opened_ready (subcall_options tx) s rg Hs) as Hor.
  assert (Hrb : st_store (rolled_back (subcall_options tx) s child rg) = st_store s).
  { unfold rolled_back, closed_block_values. simpl. by destruct s. }
  destruct o as [[y|y]|[]|p]; simplify_eq; (split; [apply (fr_ready _ _ Hfr)|]).
  - destruct (Hn _ Hor _ _ Hrun) as [Hcr [Hcw Hck]]. pose proof (fr_ready _ _ Hfr) as [_ Hw']. split; [done|]. intros k.
    pose proof (Hf _ Hor) as Hchild. rewrite Hrun in Hchild. cbn [snd] in Hchild.
    destruct (framed_child_store _ _ _ _ Hs Hchild) as (st & cst & Hst & Hcst & Hwf & _).
    rewrite (at_key_kv _ _ Hw'), (at_key_kv s) by apply Hs. rewrite <-(kv_opened (subcall_options tx) s rg) by done.
    rewrite <-(at_key_kv _ _ (proj2 Hor)), <-Hck, (at_key_kv _ _ Hcw). simpl. rewrite Hcst. simpl. by rewrite view_commit.
  - apply same_below_kv; [apply Hs|apply (fr_ready _ _ Hfr)|by rewrite Hrb].
Qed.

Lemma neutral_use_gas gas : neutral (core_use_gas gas).
Proof. unfold core_use_gas. solve_leaves. Qed.
Lemma neutral_transfer from to u : neutral (mk_transfer from to u).
Proof. unfold mk_transfer. solve_leaves. Qed.
Lemma neutral_event {E} e : neutral (emit_market_event (E := E) e).
Proof. unfold emit_market_event. solve_leaves. Qed.
End payments.
#[export] Hint Resolve neutral_subcall neutral_use_gas neutral_transfer neutral_event : leaves.

Section paying.
Context `{Platform} `{!MKVSLaws} `{!TxCodec} `{!CallCrypto} `{!CoreCodec} `{!CoreConfig} `{!DispatchCodec}.
Context `{!AccountsCodec} `{!MarketConfig} `{!MarketCodec} `{!MarketLaws} `{!MarketCrypto} `{!RoflAPI}.
Context (R : SubcallStack → Runtime) (stack : SubcallStack) `{!∀ stack, FramedRuntime (R stack)}.
Hypothesis others_leave_market : ∀ stack' ctx call,
  forbid_reentrancy ∈ stack' → not_market call = true → neutral (subcall_body (R stack') ctx call).

Lemma neutral_call_contract ctx i contract gas data : neutral (call_contract R stack ctx i contract gas data).
Proof. unfold call_contract. solve_leaves. Qed.
Hint Resolve neutral_call_contract : leaves.
Lemma neutral_pay_amount p ctx i term n : neutral (pay_amount R stack p ctx i term n).
Proof. unfold pay_amount, caller_from_tx_auth_info. solve_leaves. Qed.
Lemma neutral_refund p ctx i : neutral (refund R stack p ctx i).
Proof. unfold refund. solve_leaves. Qed.

Lemma wp_pay p ctx i term n (Q : MarketInstance → Market → Prop) Mk :
  (∀ t, (in_paid_until i ≤ t)%N → fits64 t → Q (set_paid_until t i) Mk) → wp (pay R stack p ctx i term n) Q Mk.
Proof.
  intros HQ. unfold pay. apply wp_bind, wp_leaves; [apply neutral_pay_amount|intros _].
  apply wp_bind, wp_ok_or. intros secs _. apply wp_bind, wp_ok_or. intros t [-> Ht]%checked_add_Some.
  apply wp_ret, HQ; [lia|done].
Qed.
Lemma wp_claim p ctx pr i (Q : MarketInstance → Market → Prop) Mk :
  (∀ t, in_status i ≠ Created → (t ≤ in_paid_until i)%N → Q (set_paid_from t i) Mk) →
  wp (claim R stack p ctx pr i) Q Mk.
Proof.
  intros HQ. unfold claim. apply wp_bind, wp_ok_or. intros t Ht. apply wp_bind, wp_ok_or. intros paid _.
  apply wp_bind, wp_leaves; [solve_leaves|intros _]. apply wp_ret, HQ; unfold claim_time in Ht; destruct (in_status i);
    simplify_eq; [done..|lia|lia].
Qed.
End paying.
