(* ===== verification/MarketInv.v ===== *)
(** The invariant of the ROFL market: its tables are coherent with each other, and every handler keeps them so
    (src/runtime-sdk/modules/rofl-market/src/lib.rs). *)
From S2P Require Import Prelude Endian Storage StoreIter Types Fee Errors State Current Transactions Module Tables CallFormat.
From S2P Require Import Core Gas Accounts Ledger Accounting Disbursement Moves Dispatcher Dispatch Subcall Rofl Market.
From S2P Require Import MarketTables MarketWp.

(** * Counting the entries of a row *)

Section count.
Context {A V : Type} `{Countable A}.
Implicit Types m : gmap (A * N) V.

Definition in_row (a : A) (k : A * N) (_ : V) : N := if decide (k.1 = a) then 1%N else 0%N.
Definition count_in (a : A) (m : gmap (A * N) V) : N := map_sum (in_row a) m.

Lemma count_in_insert a m k x :
  count_in a (<[k := x]> m) = if decide (k.1 = a ∧ m !! k = None) then (count_in a m + 1)%N else count_in a m.
Proof.
  unfold count_in. pose proof (map_sum_insert (in_row a) m k x) as Hs. unfold in_row in Hs at 2 3.
  destruct (decide (k.1 = a)) as [Ha|Ha].
  - destruct (m !! k) as [y|]; simpl in *; [rewrite decide_False by (by intros [])|rewrite decide_True by done];
      rewrite ?(decide_True _ _ Ha) in Hs; lia.
  - rewrite decide_False by tauto. destruct (m !! k); simpl in Hs; rewrite ?(decide_False _ _ Ha) in Hs; lia.
Qed.
Lemma count_in_delete a m k :
  count_in a (delete k m) = if decide (k.1 = a ∧ is_Some (m !! k)) then (count_in a m - 1)%N else count_in a m.
Proof.
  unfold count_in. destruct (m !! k) as [x|] eqn:Hk.
  - rewrite (map_sum_delete (in_row a) m k x Hk). unfold in_row at 2 4. destruct (decide (k.1 = a)) as [Ha|Ha].
    + rewrite decide_True by (split; [done|by eexists]). lia.
    + rewrite decide_False by tauto. lia.
  - rewrite delete_id by done. rewrite decide_False; [done|]. by intros [_ []].
Qed.
Lemma count_in_pos a m k x : m !! k = Some x → k.1 = a → (0 < count_in a m)%N.
Proof.
  intros Hk Ha. pose proof (map_sum_lookup_le (in_row a) m k x Hk) as Hle. unfold in_row in Hle at 1.
  rewrite decide_True in Hle by done. unfold count_in. lia.
Qed.
Lemma count_in_zero a m : (∀ k, k.1 = a → m !! k = None) → count_in a m = 0%N.
Proof.
  intros Hno. apply map_sum_zero. intros k x Hk. unfold in_row. case_decide as Ha; [|done].
  by rewrite (Hno k Ha) in Hk.
Qed.
Lemma count_in_zero_inv a m k : count_in a m = 0%N → k.1 = a → m !! k = None.
Proof. intros Hz Ha. destruct (m !! k) as [x|] eqn:Hk; [|done]. pose proof (count_in_pos a m k x Hk Ha). lia. Qed.

(** Removing entries of a row one after the other. *)
Definition delete_row (a : A) (l : list N) (m : gmap (A * N) V) : gmap (A * N) V := foldl (λ m c, delete (a, c) m) m l.
Lemma delete_row_lookup a l m k :
  delete_row a l m !! k = if decide (k.1 = a ∧ k.2 ∈ l) then None else m !! k.
Proof.
  revert m. induction l as [|c l IH]; intros m; simpl.
  { rewrite decide_False; [done|]. by intros [_ ?%not_elem_of_nil]. }
  fold (delete_row a l (delete (a, c) m)). rewrite IH. destruct (decide (k = (a, c))) as [->|Hne].
  - rewrite lookup_delete_eq. destruct (decide ((a, c).1 = a ∧ (a, c).2 ∈ c :: l)) as [|Hn]; [by case_decide|].
    exfalso. apply Hn. split; [done|by left].
  - rewrite lookup_delete_ne by done. apply decide_ext. rewrite elem_of_cons.
    destruct k as [a' c']. simpl. split; [tauto|]. intros [-> [->|?]]; [done|tauto].
Qed.
Lemma count_in_delete_row a l m :
  NoDup l → (∀ c, c ∈ l → is_Some (m !! (a, c))) → (count_in a (delete_row a l m) + len l = count_in a m)%N.
Proof.
  revert m. induction l as [|c l IH]; intros m; simpl; [unfold len; simpl; lia|].
  intros [Hc Hnd]%NoDup_cons Hin. fold (delete_row a l (delete (a, c) m)).
  assert (Hcm : is_Some (m !! (a, c))) by (apply Hin; by left).
  assert (0 < count_in a m)%N by (destruct Hcm as [x Hx]; by eapply count_in_pos).
  pose proof (count_in_delete a m (a, c)) as Hd. rewrite decide_True in Hd by done.
  assert (IH' := IH (delete (a, c) m) Hnd). unfold len in *. simpl.
  assert (∀ c', c' ∈ l → is_Some (delete (a, c) m !! (a, c'))).
  { intros c' Hc'. rewrite lookup_delete_ne by congruence. apply Hin. by right. }
  specialize (IH' ltac:(done)). lia.
Qed.

(** The count depends on the row only. *)
Lemma count_in_row a m : count_in a m = N.of_nat (size (row a m)).
Proof.
  induction m as [|k x m Hk IH] using map_ind; [done|].
  rewrite count_in_insert, IH. assert (Hrow : row a (<[k := x]> m) = if decide (k.1 = a) then <[k.2 := x]> (row a m) else row a m).
  { apply map_eq. intros n. rewrite row_lookup. destruct k as [b n']. simpl. destruct (decide (b = a)) as [->|Hne].
    - destruct (decide (n = n')) as [->|]; [by rewrite !lookup_insert_eq|]. rewrite !lookup_insert_ne by congruence.
      by rewrite row_lookup.
    - rewrite lookup_insert_ne by congruence. by rewrite row_lookup. }
  rewrite Hrow. destruct (decide (k.1 = a ∧ m !! k = None)) as [[Ha _]|Hd].
  - rewrite decide_True by done. rewrite map_size_insert_None; [lia|].
    rewrite row_lookup. destruct k as [b n]. simpl in *. by subst.
  - rewrite decide_False; [done|]. tauto.
Qed.
Lemma count_in_ext a m m' : (∀ k, k.1 = a → m !! k = m' !! k) → count_in a m = count_in a m'.
Proof.
  intros Heq. rewrite !count_in_row. do 2 f_equal. apply map_eq. intros n. rewrite !row_lookup. by apply Heq.
Qed.
End count.

(** * Coherence *)

Section coherence.
Context `{Platform} `{!MarketConfig} `{!MarketCrypto}.

(** A provider is kept under its address and counts its offers and instances. *)
Definition provider_ok (Mk : Market) (a : Address) (p : Provider) : Prop :=
  pr_address p = a ∧ provider_fits p ∧ offers_count p = count_in a (offers Mk) ∧
  (offers_count p ≤ MAX_PROVIDER_OFFERS)%N ∧ instances_count p = count_in a (instances Mk).
(** An offer belongs to a provider that has issued its identifier. *)
Definition offer_ok (Mk : Market) (a : Address) (id : N) (o : Offer) : Prop :=
  of_id o = id ∧ offer_fits o ∧ ∃ p, providers Mk !! a = Some p ∧ (id < offers_next_id p)%N.
(** So does an instance.  It has an address of its own, it has not been claimed beyond the time it is paid
    for, and it counts its queued commands, of which there are none before it is accepted. *)
Definition queue_ok (i : MarketInstance) (n : N) : Prop :=
  in_cmd_count i = n ∧ (n = 0 ∨ in_status i ≠ Created ∧ n < MAX_QUEUED_INSTANCE_COMMANDS)%N.
Definition instance_ok (a : Address) (id n : N) (i : MarketInstance) : Prop :=
  in_provider i = a ∧ in_id i = id ∧ instance_fits i ∧ (in_paid_from i ≤ in_paid_until i)%N ∧
  in_payment_address i = generate_address a id ∧ queue_ok i n.
(** A command belongs to an instance that has issued its identifier. *)
Definition command_ok (Mk : Market) (a : Address) (id c : N) (cmd : bytes) : Prop :=
  (len cmd ≤ MAX_INSTANCE_COMMAND_SIZE)%N ∧ ∃ i, instances Mk !! (a, id) = Some i ∧ (c < in_cmd_next_id i)%N.

Record coherent (Mk : Market) : Prop := {
  co_provider a p : providers Mk !! a = Some p → provider_ok Mk a p;
  co_offer a id o : offers Mk !! (a, id) = Some o → offer_ok Mk a id o;
  co_instance a id i : instances Mk !! (a, id) = Some i → instance_ok a id (count_in (a, id) (commands Mk)) i;
  co_issued a id i : instances Mk !! (a, id) = Some i → ∃ p, providers Mk !! a = Some p ∧ (id < instances_next_id p)%N;
  co_command a id c cmd : commands Mk !! (a, id, c) = Some cmd → command_ok Mk a id c cmd;
}.

(** The offers of one provider change, together with its descriptor. *)
Lemma coherent_offers Mk0 Mk a p' :
  coherent Mk0 → providers Mk = <[a := p']> (providers Mk0) → instances Mk = instances Mk0 → commands Mk = commands Mk0 →
  (∀ k, k.1 ≠ a → offers Mk !! k = offers Mk0 !! k) →
  (∀ id o, offers Mk !! (a, id) = Some o → of_id o = id ∧ offer_fits o ∧ (id < offers_next_id p')%N) →
  provider_ok Mk a p' →
  (∀ p, providers Mk0 !! a = Some p → (instances_next_id p ≤ instances_next_id p')%N) →
  coherent Mk.
Proof.
  intros [Hp Ho Hi His Hc] Eqp Eqi Eqc Hout Hrow Hok Hnext. split.
  - intros b p. rewrite Eqp. destruct (decide (b = a)) as [->|Hne].
    + rewrite lookup_insert_eq. by intros [= <-].
    + rewrite lookup_insert_ne by done. intros (Ha & Hf & Hn & Hm & Hin)%Hp. repeat split; [done|apply Hf..| |done|].
      * rewrite Hn. apply count_in_ext. intros k Hk. symmetry. apply Hout. by rewrite Hk.
      * by rewrite Eqi.
  - intros b id o Hk. destruct (decide (b = a)) as [->|Hne].
    + destruct (Hrow id o Hk) as (Hid & Hf & Hlt). split; [done|]. split; [done|]. exists p'. rewrite Eqp.
      by rewrite lookup_insert_eq.
    + rewrite Hout in Hk by done. destruct (Ho b id o Hk) as (Hid & Hf & p & Hbp & Hlt). split; [done|]. split; [done|].
      exists p. rewrite Eqp. by rewrite lookup_insert_ne.
  - intros b id i. rewrite Eqi, Eqc. apply Hi.
  - intros b id i. rewrite Eqi. intros (p & Hbp & Hlt)%His. rewrite Eqp. destruct (decide (b = a)) as [->|Hne].
    + exists p'. rewrite lookup_insert_eq. split; [done|]. specialize (Hnext p Hbp). lia.
    + exists p. by rewrite lookup_insert_ne.
  - intros b id c cmd. rewrite Eqc. intros Hcmd%Hc. unfold command_ok. by rewrite Eqi.
Qed.

(** A provider without instances leaves, with its offers. *)
Lemma coherent_leave Mk0 Mk a :
  coherent Mk0 → providers Mk = delete a (providers Mk0) → instances Mk = instances Mk0 → commands Mk = commands Mk0 →
  (∀ k, offers Mk !! k = if decide (k.1 = a) then None else offers Mk0 !! k) →
  count_in a (instances Mk0) = 0%N →
  coherent Mk.
Proof.
  intros [Hp Ho Hi His Hc] Eqp Eqi Eqc Hout Hz. split.
  - intros b p. rewrite Eqp. intros [Hne (Ha & Hf & Hn & Hm & Hin)%Hp]%lookup_delete_Some.
    repeat split; [done|apply Hf..| |done|by rewrite Eqi].
    rewrite Hn. apply count_in_ext. intros k Hk. by rewrite Hout, decide_False by (by rewrite Hk).
  - intros b id o. rewrite Hout. simpl. case_decide; [done|]. intros (Hid & Hf & p & Hbp & Hlt)%Ho.
    split; [done|]. split; [done|]. exists p. rewrite Eqp. by rewrite lookup_delete_ne.
  - intros b id i. rewrite Eqi, Eqc. apply Hi.
  - intros b id i. rewrite Eqi. intros Hk. destruct (His b id i Hk) as (p & Hbp & Hlt). exists p. split; [|done].
    rewrite Eqp, lookup_delete_ne; [done|]. intros <-. by rewrite (count_in_zero_inv a (instances Mk0) (a, id)) in Hk.
  - intros b id c cmd. rewrite Eqc. intros Hcmd%Hc. unfold command_ok. by rewrite Eqi.
Qed.

(** An offer changes, but not its identifier. *)
Lemma coherent_put_offer Mk a id o o' :
  coherent Mk → offers Mk !! (a, id) = Some o → of_id o' = id → offer_fits o' → coherent (put_offer a o' Mk).
Proof.
  intros Hco Hk <- Hf. destruct (co_offer _ Hco _ _ _ Hk) as (_ & _ & p & Hp & Hlt).
  destruct (co_provider _ Hco a p Hp) as (Ha & Hpf & Hn & Hm & Hin).
  assert (Hcount : count_in a (offers (put_offer a o' Mk)) = count_in a (offers Mk)).
  { simpl. rewrite count_in_insert, decide_False; [done|]. intros [_ Hno]. by rewrite Hno in Hk. }
  eapply (coherent_offers Mk _ a p); [done|simpl; by rewrite insert_id|done|done| | | |by intros p0; rewrite Hp; intros [= <-]].
  - intros k Hne. simpl. rewrite lookup_insert_ne; [done|]. by intros <-.
  - intros id o0. simpl. destruct (decide (id = of_id o')) as [->|Hne].
    + rewrite lookup_insert_eq. by intros [= <-].
    + rewrite lookup_insert_ne by congruence. intros (Hid & Hf0 & p0 & Hp0 & Hlt0)%(co_offer _ Hco).
      rewrite Hp in Hp0. by injection Hp0 as <-.
  - unfold provider_ok. by rewrite Hcount.
Qed.

(** An instance changes, together with its queue. *)
Lemma coherent_put_instance Mk0 Mk a id i i' :
  coherent Mk0 → instances Mk0 !! (a, id) = Some i →
  providers Mk = providers Mk0 → offers Mk = offers Mk0 → instances Mk = <[(a, id) := i']> (instances Mk0) →
  (∀ k, k.1 ≠ (a, id) → commands Mk !! k = commands Mk0 !! k) →
  (∀ c cmd, commands Mk !! (a, id, c) = Some cmd → (len cmd ≤ MAX_INSTANCE_COMMAND_SIZE)%N ∧ (c < in_cmd_next_id i')%N) →
  instance_ok a id (count_in (a, id) (commands Mk)) i' →
  coherent Mk.
Proof.
  intros [Hp Ho Hi His Hc] Hk Eqp Eqo Eqi Hout Hrow Hok. split.
  - intros b p. rewrite Eqp. intros (Ha & Hf & Hn & Hm & Hin)%Hp. repeat split; [done|apply Hf..|by rewrite Eqo|done|].
    rewrite Hin, Eqi, count_in_insert, decide_False; [done|]. intros [_ Hno]. by rewrite Hno in Hk.
  - intros b n o. rewrite Eqo. intros Hb%Ho. unfold offer_ok. by rewrite Eqp.
  - intros b n j. rewrite Eqi. destruct (decide ((b, n) = (a, id))) as [[= -> ->]|Hne].
    + rewrite lookup_insert_eq. by intros [= <-].
    + rewrite lookup_insert_ne by done. intros Hj%Hi. rewrite (count_in_ext _ (commands Mk) (commands Mk0)); [done|].
      intros k Hk'. apply Hout. congruence.
  - intros b n j. rewrite Eqi, Eqp. destruct (decide ((b, n) = (a, id))) as [[= -> ->]|Hne].
    + intros _. by apply (His a id i).
    + rewrite lookup_insert_ne by done. apply His.
  - intros b n c cmd Hcmd. unfold command_ok. rewrite Eqi. destruct (decide ((b, n) = (a, id))) as [[= -> ->]|Hne].
    + destruct (Hrow c cmd Hcmd) as [Hs Hlt]. split; [done|]. exists i'. by rewrite lookup_insert_eq.
    + rewrite lookup_insert_ne by done. rewrite Hout in Hcmd by done. by apply (Hc b n c).
Qed.
(** In particular, one that keeps its queue. *)
Lemma coherent_put_same Mk a id i i' :
  coherent Mk → instances Mk !! (a, id) = Some i →
  instance_ok a id (in_cmd_count i) i' → in_cmd_next_id i' = in_cmd_next_id i → coherent (put_instance i' Mk).
Proof.
  intros Hco Hk Hok Hnext. pose proof (co_instance _ Hco _ _ _ Hk) as (_ & _ & _ & _ & _ & Hq & _).
  assert (Hid : (in_provider i', in_id i') = (a, id)) by (destruct Hok as (-> & -> & _); done).
  eapply (coherent_put_instance Mk _ a id i i'); [done..|by simpl; rewrite Hid|done| |by simpl; rewrite <-Hq].
  intros c cmd (Hs & j & Hj & Hlt)%(co_command _ Hco). rewrite Hk in Hj. injection Hj as <-. by rewrite Hnext.
Qed.

(** A new instance. *)
Lemma coherent_new_instance Mk p i now :
  coherent Mk → providers Mk !! in_provider i = Some p → in_id i = instances_next_id p →
  instance_ok (in_provider i) (in_id i) 0 i → fits64 (instances_next_id p + 1) → fits64 now →
  fits64 (instances_count p + 1) →
  coherent (put_provider (set_instances (instances_next_id p + 1) (instances_count p + 1) now p) (put_instance i Mk)).
Proof.
  intros Hco Hp Hid Hok Hnext Hnow Hcnt. pose proof Hco as [Hps Hos His Hiss Hcs].
  set (a := in_provider i) in *. set (id := in_id i) in *.
  assert (Hnew : instances Mk !! (a, id) = None).
  { destruct (instances Mk !! (a, id)) as [j|] eqn:Hj; [|done]. destruct (Hiss a id j Hj) as (p0 & Hp0 & Hlt).
    rewrite Hp in Hp0. injection Hp0 as <-. lia. }
  assert (Hnoc : ∀ k, k.1 = (a, id) → commands Mk !! k = None).
  { intros [[b n] c] [= -> ->]. destruct (commands Mk !! _) as [cmd|] eqn:Hcmd; [|done].
    destruct (Hcs _ _ _ _ Hcmd) as (_ & j & Hj & _). by rewrite Hnew in Hj. }
  destruct (Hps a p Hp) as (Ha & Hpf & Hn & Hm & Hin).
  assert (Eqp : providers (put_provider (set_instances (instances_next_id p + 1) (instances_count p + 1) now p)
      (put_instance i Mk)) = <[a := set_instances (instances_next_id p + 1) (instances_count p + 1) now p]> (providers Mk)).
  { simpl. by rewrite Ha. }
  split.
  - intros b q. rewrite Eqp. destruct (decide (b = a)) as [->|Hne].
    + rewrite lookup_insert_eq. intros [= <-]. repeat split; simpl; try done; try apply Hpf.
      rewrite count_in_insert, decide_True by done. by rewrite Hin.
    + rewrite lookup_insert_ne by done. intros (Hb & Hf & Hn' & Hm' & Hin')%Hps. repeat split; try done; try apply Hf.
      simpl. rewrite count_in_insert, decide_False; [done|]. by intros [? _].
  - intros b n o (Hoid & Hf & q & Hq & Hlt)%Hos. split; [done|]. split; [done|]. rewrite Eqp.
    destruct (decide (b = a)) as [->|Hne].
    + eexists. rewrite lookup_insert_eq. split; [done|]. rewrite Hp in Hq. by injection Hq as <-.
    + exists q. by rewrite lookup_insert_ne.
  - intros b n j. simpl. destruct (decide ((b, n) = (a, id))) as [[= -> ->]|Hne].
    + rewrite lookup_insert_eq. intros [= <-]. by rewrite count_in_zero.
    + rewrite lookup_insert_ne by done. apply His.
  - intros b n j. rewrite Eqp. simpl. destruct (decide (b = a)) as [->|Hne].
    + rewrite lookup_insert_eq. intros Hj. eexists. split; [done|]. simpl.
      destruct (decide (n = id)) as [->|Hn']; [lia|]. rewrite lookup_insert_ne in Hj by (intros [= Heq]; apply Hn'; by rewrite <-Heq).
      destruct (Hiss a n j Hj) as (q & Hq & Hlt). rewrite Hp in Hq. injection Hq as <-. lia.
    + rewrite !lookup_insert_ne by (by try intros [= Heq _]). apply Hiss.
  - intros b n c cmd Hcmd. destruct (Hcs b n c cmd Hcmd) as (Hs & j & Hj & Hlt). split; [done|]. exists j. simpl.
    rewrite lookup_insert_ne; [done|]. intros Heq. fold a id in Heq. by rewrite <-Heq, Hnew in Hj.
Qed.

(** An instance goes, with its queue. *)
Lemma coherent_del_instance Mk0 Mk a id p i now :
  coherent Mk0 → providers Mk0 !! a = Some p → instances Mk0 !! (a, id) = Some i →
  providers Mk = <[a := set_instances (instances_next_id p) (instances_count p - 1) now p]> (providers Mk0) →
  offers Mk = offers Mk0 → instances Mk = delete (a, id) (instances Mk0) →
  (∀ k, commands Mk !! k = if decide (k.1 = (a, id)) then None else commands Mk0 !! k) → fits64 now →
  coherent Mk.
Proof.
  intros [Hps Hos His Hiss Hcs] Hp Hi Eqp Eqo Eqi Hout Hnow. destruct (Hps a p Hp) as (Ha & Hpf & Hn & Hm & Hin). split.
  - intros b q. rewrite Eqp. destruct (decide (b = a)) as [->|Hne].
    + rewrite lookup_insert_eq. intros [= <-].
      assert (Hc' : count_in a (instances Mk) = (count_in a (instances Mk0) - 1)%N).
      { rewrite Eqi, count_in_delete, decide_True; [done|]. by rewrite Hi. }
      repeat split; simpl; rewrite ?Eqo, ?Hc'; try done; try apply Hpf; [|by rewrite Hin].
      destruct Hpf as (_ & _ & _ & _ & Hf & _). unfold fits64 in *. lia.
    + rewrite lookup_insert_ne by done. intros (Hb & Hf & Hn' & Hm' & Hin')%Hps. repeat split; try done; try apply Hf.
      * by rewrite Eqo.
      * rewrite Eqi, count_in_delete, decide_False; [done|]. by intros [? _].
  - intros b n o. rewrite Eqo. intros (Hoid & Hf & q & Hq & Hlt)%Hos. split; [done|]. split; [done|]. rewrite Eqp.
    destruct (decide (b = a)) as [->|Hne].
    + eexists. rewrite lookup_insert_eq. split; [done|]. rewrite Hp in Hq. by injection Hq as <-.
    + exists q. by rewrite lookup_insert_ne.
  - intros b n j. rewrite Eqi. intros [Hne Hj%His]%lookup_delete_Some.
    rewrite (count_in_ext _ (commands Mk) (commands Mk0)); [done|]. intros k Hk. rewrite Hout, decide_False; congruence.
  - intros b n j. rewrite Eqi, Eqp. intros [Hne (q & Hq & Hlt)%Hiss]%lookup_delete_Some.
    destruct (decide (b = a)) as [->|Hne'].
    + eexists. rewrite lookup_insert_eq. split; [done|]. rewrite Hp in Hq. by injection Hq as <-.
    + exists q. by rewrite lookup_insert_ne.
  - intros b n c cmd. rewrite Hout. simpl. case_decide as Hd; [done|]. intros (Hs & j & Hj & Hlt)%Hcs. split; [done|].
    exists j. rewrite Eqi, lookup_delete_ne by congruence. done.
Qed.
End coherence.
