(* ===== verification/MarketHandlers.v ===== *)
(** Every handler of the ROFL market keeps the tables coherent
    (src/runtime-sdk/modules/rofl-market/src/lib.rs). *)
From S2P Require Import Prelude Endian Storage StoreIter Types Fee Errors State Current Transactions Module Tables CallFormat.
From S2P Require Import Core Gas Accounts Ledger Accounting Disbursement Moves Dispatcher Dispatch Subcall Rofl Market.
From S2P Require Import MarketTables MarketWp MarketInv.

(** The parameters of the module are within their widths. *)
Class MarketBounds `{!MarketConfig} : Prop := {
  stake_fits : (amount STAKE_PROVIDER_CREATE ≤ u128_max)%N;
  max_offers_fit : fits64 MAX_PROVIDER_OFFERS;
  max_queued_fits : fits64 MAX_QUEUED_INSTANCE_COMMANDS;
}.
(** What the market assumes of the registry of enclave applications: it is read, not written. *)
Class RoflReads `{Platform, !MKVSLaws, !RoflAPI} : Prop := { registration_neutral app : neutral (rofl_get_origin_registration (E := MarketError) app) }.

(** The ROFL module keeps this promise. *)
Section registry.
Context `{Platform} `{!MKVSLaws} `{!RoflPlatform} `{!RoflCodec}.
Lemma reads_get_endorser {E} pk : reads (get_endorser (E := E) pk).
Proof. apply reads_bind; [apply reads_typed_get|by intros ? ?]. Qed.
Lemma reads_get_origin_registration {E} app : reads (get_origin_registration (E := E) app).
Proof.
  apply reads_bind; [apply reads_bind|].
  - intros s. unfold with_env_origin. run_simpl. by destruct (env_tx_caller_public_key _).
  - intros [pk|]; [|by intros s]. apply reads_bind; [apply reads_get_endorser|by intros ? ?].
  - intros [rak|]; [|by intros s]. apply reads_bind; [intros s; by destruct (core_public_key rak)|].
    intros k. apply reads_typed_get.
Qed.
#[export] Instance rofl_reads : RoflReads.
Proof. split. intros app. apply leaves_read, reads_get_origin_registration. Qed.
End registry.

(** One step through a handler. *)
Ltac wp_step :=
  match goal with
  | |- wp (mbind _ _) _ _ => apply wp_bind
  | |- wp (mret _) _ _ => apply wp_ret
  | |- wp (throw _) _ _ => apply wp_throw
  | |- wp (panic _) _ _ => apply wp_panic
  | |- wp (core_use_gas _) _ _ => apply wp_leaves; [apply neutral_use_gas|intros []]
  | |- wp (mk_transfer _ _ _) _ _ => apply wp_leaves; [apply neutral_transfer|intros []]
  | |- wp (emit_market_event _) _ _ => apply wp_leaves; [apply neutral_event|intros []]
  | |- wp (should_execute_contracts _) _ _ => apply wp_leaves; [apply leaves_execute; solve_leaves|intros ?]
  | |- wp (with_env _) _ _ => apply wp_leaves; [solve_leaves|intros ?]
  | |- wp caller_address _ _ => apply wp_leaves; [solve_leaves|intros ?]
  | |- wp (if negb ?b then mret _ else _) _ _ => destruct b; simpl negb; cbv iota; [|by apply wp_ret]
  | |- wp (if ?b then mret _ else _) _ _ => destruct b; [by apply wp_ret|]
  | |- wp (if ?b then throw _ else _) _ _ => destruct b eqn:?; [apply wp_throw|]
  end.
Ltac wp_steps := repeat wp_step.

Section offers.
Context `{Platform} `{!MKVSLaws} `{!MarketConfig} `{!MarketCodec} `{!MarketLaws}.

(** ** The offers of a provider *)

(** While the offers of [a] change, all else is as it was in [Mk0]. *)
Record offering (a : Address) (Mk0 : Market) (next n : N) (Mk : Market) : Prop := {
  og_providers : providers Mk = providers Mk0;
  og_instances : instances Mk = instances Mk0;
  og_commands : commands Mk = commands Mk0;
  og_others k : k.1 ≠ a → offers Mk !! k = offers Mk0 !! k;
  og_offer id o : offers Mk !! (a, id) = Some o → of_id o = id ∧ offer_fits o ∧ (id < next)%N;
  og_count : count_in a (offers Mk) = n;
}.

Lemma offering_put a Mk0 next n Mk o :
  offering a Mk0 next n Mk → offer_fits o → (of_id o < next)%N → is_Some (offers Mk !! (a, of_id o)) →
  offering a Mk0 next n (put_offer a o Mk).
Proof.
  intros [Hp Hi Hc Ho Hr Hn] Hf Hlt [o0 Hk]. split; simpl; [done..| | |].
  - intros k Hne. rewrite lookup_insert_ne; [by apply Ho|]. by intros <-.
  - intros id o1. destruct (decide (id = of_id o)) as [->|Hne].
    + rewrite lookup_insert_eq. by intros [= <-].
    + rewrite lookup_insert_ne by congruence. apply Hr.
  - rewrite count_in_insert, decide_False; [done|]. intros [_ Hno]. by rewrite Hno in Hk.
Qed.
Lemma offering_add a Mk0 next n Mk o :
  offering a Mk0 next n Mk → offer_fits o → of_id o = next → offering a Mk0 (next + 1) (n + 1) (put_offer a o Mk).
Proof.
  intros [Hp Hi Hc Ho Hr Hn] Hf Hid. split; simpl; [done..| | |].
  - intros k Hne. rewrite lookup_insert_ne; [by apply Ho|]. by intros <-.
  - intros id o1. destruct (decide (id = of_id o)) as [->|Hne].
    + rewrite lookup_insert_eq. intros [= <-]. do 2 (split; [done|]). lia.
    + rewrite lookup_insert_ne by congruence. intros (? & ? & ?)%Hr. do 2 (split; [done|]). lia.
  - rewrite count_in_insert, decide_True; [by rewrite Hn|]. split; [done|].
    destruct (offers Mk !! (a, of_id o)) as [o1|] eqn:Hk; [|done]. apply Hr in Hk as (_ & _ & Hlt). lia.
Qed.
Lemma offering_del a Mk0 next n Mk id :
  offering a Mk0 next n Mk → is_Some (offers Mk !! (a, id)) → offering a Mk0 next (n - 1) (del_offer a id Mk) ∧ (1 ≤ n)%N.
Proof.
  intros [Hp Hi Hc Ho Hr Hn] [o Hk]. split; [|rewrite <-Hn; pose proof (count_in_pos a _ _ _ Hk eq_refl); lia].
  split; simpl; [done..| | |].
  - intros k Hne. rewrite lookup_delete_ne; [by apply Ho|]. by intros <-.
  - intros id' o1 [_ Hk']%lookup_delete_Some. by apply Hr.
  - rewrite count_in_delete, decide_True; [by rewrite Hn|]. split; [done|by eexists].
Qed.

Lemma set_offer_id_fits id o : offer_fits o → fits64 id → offer_fits (set_offer_id id o).
Proof. intros (_ & ?) ?. by split. Qed.

Lemma wp_create_offers a Mk0 l next n Mk :
  offering a Mk0 next n Mk → Forall offer_fits l → fits64 (next + len l) →
  wp (create_offers a next l) (λ _, offering a Mk0 (next + len l) (n + len l)) Mk.
Proof.
  revert next n Mk. induction l as [|o l IH]; intros next n Mk Hog Hall Hfit; cbn [create_offers].
  { apply wp_ret. unfold len. simpl. by rewrite !N.add_0_r. }
  apply Forall_cons in Hall as [Hf Hall]. destruct (offer_validate o) as [e|[]]; [apply wp_throw|].
  assert (Hlen : len (o :: l) = (1 + len l)%N) by (unfold len; simpl; lia). rewrite Hlen in *. unfold fits64 in Hfit.
  apply wp_bind, wp_set_offer; [apply set_offer_id_fits; [done|unfold fits64; lia]|].
  rewrite !N.add_assoc. apply IH; [|done|unfold fits64; lia]. apply offering_add; [done| |done].
  apply set_offer_id_fits; [done|unfold fits64; lia].
Qed.
Lemma wp_add_offers a Mk0 l next n Mk :
  offering a Mk0 next n Mk → Forall offer_fits l → fits64 (next + len l) →
  wp (add_offers a next l) (λ r Mk', r = (next + len l)%N ∧ offering a Mk0 r (n + len l) Mk') Mk.
Proof.
  revert next n Mk. induction l as [|o l IH]; intros next n Mk Hog Hall Hfit; cbn [add_offers].
  { apply wp_ret. unfold len. simpl. by rewrite !N.add_0_r. }
  apply Forall_cons in Hall as [Hf Hall]. destruct (offer_validate o) as [e|[]]; [apply wp_throw|].
  assert (Hlen : len (o :: l) = (1 + len l)%N) by (unfold len; simpl; lia). rewrite Hlen in *. unfold fits64 in Hfit.
  unfold increment_id. rewrite wrapping_add_small by lia.
  apply wp_bind, wp_set_offer; [apply set_offer_id_fits; [done|unfold fits64; lia]|].
  rewrite !N.add_assoc. apply IH; [|done|unfold fits64; lia]. apply offering_add; [done| |done].
  apply set_offer_id_fits; [done|unfold fits64; lia].
Qed.
Lemma wp_require_offer a id (Q : Offer → Market → Prop) Mk :
  fits64 id → (∀ o, offers Mk !! (a, id) = Some o → Q o Mk) → wp (require_offer a id) Q Mk.
Proof. intros Hid HQ. apply wp_bind, wp_get_offer; [done|]. by apply wp_ok_or. Qed.
Lemma wp_update_offers a Mk0 l next n Mk :
  offering a Mk0 next n Mk → Forall offer_fits l → wp (for_each l (update_offer a)) (λ _, offering a Mk0 next n) Mk.
Proof.
  intros Hog Hall. apply (wp_for_each l _ (λ l Mk, offering a Mk0 next n Mk ∧ Forall offer_fits l)); [done|by intros ? []|].
  clear Mk l Hog Hall. intros o l Mk [Hog [Hf Hall]%Forall_cons]. unfold update_offer.
  destruct (offer_validate o); [apply wp_throw|]. apply wp_bind, wp_require_offer; [apply Hf|]. intros o0 Hk.
  apply wp_set_offer; [done|]. split; [|done]. pose proof (og_offer _ _ _ _ _ Hog _ _ Hk) as (_ & _ & Hlt).
  by apply offering_put.
Qed.
Lemma wp_drop_offers a Mk0 l next n Mk :
  offering a Mk0 next n Mk → Forall fits64 l →
  wp (for_each l (drop_offer a)) (λ _ Mk', offering a Mk0 next (n - len l) Mk' ∧ (len l ≤ n)%N) Mk.
Proof.
  intros Hog Hall.
  apply (wp_for_each l _ (λ l' Mk', ∃ d, offering a Mk0 next d Mk' ∧ (d + len l = n + len l')%N ∧ Forall fits64 l')).
  { exists n. done. }
  { intros Mk' (d & Hd & Heq & _). unfold len at 2 in Heq. simpl in Heq. split; [|lia].
    by replace (n - len l)%N with d by lia. }
  clear Mk Hog Hall. intros id l' Mk (d & Hog & Heq & [Hf Hall]%Forall_cons). unfold drop_offer.
  apply wp_bind, wp_require_offer; [done|]. intros o Hk. apply wp_remove_offer; [done|].
  destruct (offering_del a Mk0 next d Mk id Hog) as [Hog' Hd]; [by eexists|].
  exists (d - 1)%N. split; [done|]. split; [|done]. unfold len in *. simpl length in Heq. lia.
Qed.
(** All offers of a provider are removed. *)
Lemma wp_remove_all a l Mk :
  (∀ id o, offers Mk !! (a, id) = Some o → of_id o = id ∧ fits64 id) →
  (∀ id o, (id, o) ∈ l ↔ offers Mk !! (a, id) = Some o) →
  wp (E := MarketError) (for_each l.*2 (λ o, remove_offer a (of_id o)))
    (λ _ Mk', providers Mk' = providers Mk ∧ instances Mk' = instances Mk ∧ commands Mk' = commands Mk ∧
       ∀ k, offers Mk' !! k = if decide (k.1 = a) then None else offers Mk !! k) Mk.
Proof.
  intros Hok Hin.
  assert (Hids : of_id <$> l.*2 = l.*1).
  { rewrite <-list_fmap_compose. apply list_fmap_ext. intros i [id o] Hl. apply list_elem_of_lookup_2, Hin, Hok in Hl as [? _]. done. }
  apply (wp_for_each _ _ (λ (os : list Offer) (Mk' : Market), providers Mk' = providers Mk ∧ instances Mk' = instances Mk ∧
    commands Mk' = commands Mk ∧ Forall (λ o, fits64 (of_id o)) os ∧
    delete_row a (of_id <$> os) (offers Mk') = delete_row a l.*1 (offers Mk))).
  - do 3 (split; [done|]). split; [|by rewrite Hids].
    apply Forall_fmap, Forall_forall. intros [id o] [Hid Hf]%Hin%Hok. simpl. by rewrite Hid.
  - intros Mk' (Hp & Hi & Hc & _ & Ho). do 3 (split; [done|]). intros k. simpl in Ho. rewrite Ho, delete_row_lookup.
    destruct k as [b id]. simpl. destruct (decide (b = a)) as [->|Hne]; [|by rewrite decide_False by tauto].
    case_decide as Hd; [done|]. destruct (offers Mk !! (a, id)) as [o|] eqn:Hk; [|done]. exfalso. apply Hd. split; [done|].
    apply list_elem_of_fmap. exists (id, o). by rewrite Hin.
  - intros o os Mk' (Hp & Hi & Hc & [Hf Hall]%Forall_cons & Ho). apply wp_remove_offer; [done|]. by do 3 (split; [done|]).
Qed.
End offers.

(** ** The queue of an instance *)

Section queue.
Context `{Platform} `{!MKVSLaws} `{!MarketConfig} `{!MarketCodec} `{!MarketLaws} `{!MarketCrypto}.

Definition set_commands (cs : gmap (Address * N * N) bytes) (Mk : Market) : Market :=
  {| providers := providers Mk; offers := offers Mk; instances := instances Mk; commands := cs |}.

Lemma wp_drop_commands {E} a id l (Q : unit → Market → Prop) Mk :
  fits64 id → Forall fits64 l.*1 → Q tt (set_commands (delete_row (a, id) l.*1 (commands Mk)) Mk) →
  wp (E := E) (drop_commands a id (to_command <$> l)) Q Mk.
Proof.
  intros Hid Hall HQ. unfold drop_commands.
  apply (wp_for_each _ _ (λ qs Mk', Forall fits64 (qc_id <$> qs) ∧
    set_commands (delete_row (a, id) (qc_id <$> qs) (commands Mk')) Mk' = set_commands (delete_row (a, id) l.*1 (commands Mk)) Mk)).
  - assert (Heq : qc_id <$> (to_command <$> l) = l.*1) by (by rewrite <-list_fmap_compose). by rewrite Heq.
  - intros Mk' [_ Heq]. simpl in Heq. rewrite <-Heq in HQ. by destruct Mk'.
  - intros qc qs Mk' [[Hc Hqs]%Forall_cons Heq]. by apply wp_remove_command.
Qed.
(** The whole queue. *)
Lemma wp_clear_commands {E} a id (Q : unit → Market → Prop) Mk :
  fits64 id → (∀ c cmd, commands Mk !! (a, id, c) = Some cmd → fits64 c) →
  (∀ cs, (∀ k, cs !! k = if decide (k.1 = (a, id)) then None else commands Mk !! k) → Q tt (set_commands cs Mk)) →
  wp (E := E) (get_instance_commands a id u64_max) (λ cmds, wp (E := E) (drop_commands a id cmds) Q) Mk.
Proof.
  intros Hid Hc HQ. apply wp_get_commands; [done|]. intros l Hnd Hin. apply wp_drop_commands; [done| |].
  - apply Forall_fmap, Forall_forall. intros [c cmd] [Hk _]%Hin. by eapply Hc.
  - apply HQ. intros [b c]. rewrite delete_row_lookup. simpl. destruct (decide (b = (a, id))) as [->|Hne]; [|by rewrite decide_False by tauto].
    case_decide as Hd; [done|]. destruct (commands Mk !! (a, id, c)) as [cmd|] eqn:Hk; [|done]. exfalso. apply Hd. split; [done|].
    apply list_elem_of_fmap. exists (c, cmd). split; [done|]. apply Hin. split; [done|]. by eapply Hc.
Qed.
Lemma wp_queue_commands a id cmds next Mk :
  fits64 id → fits64 (next + len cmds) → (∀ c cmd, commands Mk !! (a, id, c) = Some cmd → (c < next)%N) →
  Forall (λ cmd, (len cmd ≤ MAX_INSTANCE_COMMAND_SIZE)%N) cmds →
  wp (queue_commands a id next cmds) (λ r Mk', r = (next + len cmds)%N ∧ ∃ cs, Mk' = set_commands cs Mk ∧
    (∀ k, k.1 ≠ (a, id) → cs !! k = commands Mk !! k) ∧ count_in (a, id) cs = (count_in (a, id) (commands Mk) + len cmds)%N ∧
    ∀ c cmd, cs !! (a, id, c) = Some cmd →
      commands Mk !! (a, id, c) = Some cmd ∨ (len cmd ≤ MAX_INSTANCE_COMMAND_SIZE)%N ∧ (c < next + len cmds)%N) Mk.
Proof.
  intros Hid. revert next Mk. induction cmds as [|cmd cmds IH]; intros next Mk Hfit Hlt Hall; cbn [queue_commands].
  { apply wp_ret. unfold len. simpl. rewrite !N.add_0_r. split; [done|]. exists (commands Mk). split; [by destruct Mk|]. auto. }
  apply Forall_cons in Hall as [Hsz Hall].
  assert (Hlen : len (cmd :: cmds) = (1 + len cmds)%N) by (unfold len; simpl; lia). rewrite Hlen in *. unfold fits64 in Hfit.
  unfold increment_id. rewrite wrapping_add_small by lia.
  apply wp_bind, wp_set_command; [done|unfold fits64; simpl; lia|].
  eapply wp_mono; [apply IH; [unfold fits64; lia| |done]|].
  - intros c cmd'. simpl. destruct (decide (c = next)) as [->|Hne]; [lia|]. rewrite lookup_insert_ne by congruence.
    intros Hc%Hlt. lia.
  - intros r Mk' [-> (cs & -> & Hout & Hn & Hin)]. split; [lia|]. exists cs. split; [done|].
    assert (Hnew : commands Mk !! (a, id, next) = None).
    { destruct (commands Mk !! _) as [x|] eqn:Hk; [|done]. apply Hlt in Hk. lia. }
    split; [|split].
    + intros k Hk. rewrite Hout by done. simpl. rewrite lookup_insert_ne; [done|]. by intros <-.
    + rewrite Hn. simpl. rewrite count_in_insert, decide_True by done. lia.
    + intros c cmd' Hc. destruct (Hin c cmd' Hc) as [Hk|[Hs Hl]]; [|right; split; [done|lia]]. simpl in Hk.
      destruct (decide (c = next)) as [->|Hne]; [|rewrite lookup_insert_ne in Hk by congruence; by left].
      rewrite lookup_insert_eq in Hk. injection Hk as <-. right. split; [done|lia].
Qed.
End queue.

(** * The handlers *)

Section handlers.
Context `{Platform} `{!MKVSLaws} `{!TxCodec} `{!CallCrypto} `{!CoreCodec} `{!CoreConfig} `{!DispatchCodec}.
Context `{!AccountsCodec} `{!MarketConfig} `{!MarketBounds} `{!MarketCodec} `{!MarketLaws} `{!MarketCrypto}.
Context `{!RoflAPI} `{!RoflReads}.
Context (R : SubcallStack → Runtime) (stack : SubcallStack) `{!∀ stack, FramedRuntime (R stack)}.
Hypothesis others_leave_market : ∀ stack' ctx call,
  forbid_reentrancy ∈ stack' → not_market call = true → neutral (subcall_body (R stack') ctx call).
Context (ctx : Ctx) (Hnow : fits64 (ctx_now ctx)).

Lemma wp_require_provider a (Q : Provider → Market → Prop) Mk :
  (∀ p, providers Mk !! a = Some p → Q p Mk) → wp (require_provider a) Q Mk.
Proof. intros HQ. apply wp_bind, wp_get_provider. by apply wp_ok_or. Qed.
Lemma wp_require_instance a id (Q : MarketInstance → Market → Prop) Mk :
  fits64 id → (∀ i, instances Mk !! (a, id) = Some i → Q i Mk) → wp (require_instance a id) Q Mk.
Proof. intros Hid HQ. apply wp_bind, wp_get_instance; [done|]. by apply wp_ok_or. Qed.
Lemma wp_check_metadata md (Q : unit → Market → Prop) Mk : Q tt Mk → wp (check_metadata md) Q Mk.
Proof. intros HQ. unfold check_metadata. destruct (metadata_ok md); [by apply wp_ret|apply wp_throw]. Qed.
Lemma wp_ensure_provider_admin p (Q : unit → Market → Prop) Mk : Q tt Mk → wp (ensure_caller_is_provider_admin p) Q Mk.
Proof. intros HQ. unfold ensure_caller_is_provider_admin. wp_steps. Qed.
Lemma wp_ensure_instance_admin i (Q : unit → Market → Prop) Mk : Q tt Mk → wp (ensure_caller_is_instance_admin i) Q Mk.
Proof. intros HQ. unfold ensure_caller_is_instance_admin. wp_steps. Qed.
Lemma wp_ensure_scheduler p (Q : bytes → Market → Prop) Mk : (∀ n, Q n Mk) → wp (ensure_caller_is_scheduler_app p) Q Mk.
Proof.
  intros HQ. unfold ensure_caller_is_scheduler_app. wp_steps. apply wp_leaves; [apply registration_neutral|intros r].
  wp_steps. apply wp_ok_or. intros n _. wp_steps.
Qed.

(** ** Providers *)

Lemma provider_create_coherent body Mk :
  coherent Mk → Forall offer_fits (pc_offers body) → wp (tx_provider_create ctx body) (λ _, coherent) Mk.
Proof.
  intros Hco Hall. unfold tx_provider_create. wp_steps. apply wp_check_metadata. wp_steps.
  apply wp_get_provider. destruct (providers Mk !! a) as [p0|] eqn:Hp; [apply wp_throw|]. wp_steps.
  apply N.ltb_ge in Heqb. pose proof max_offers_fit as Hmax. pose proof stake_fits as Hstake. unfold fits64 in *.
  apply wp_set_provider; [by repeat split; simpl; unfold fits64; try lia; try done|]. wp_steps.
  assert (Hnoo : ∀ k, k.1 = a → offers Mk !! k = None).
  { intros [b id]; simpl; intros ->. destruct (offers Mk !! _) as [o|] eqn:Hk; [|done].
    destruct (co_offer _ Hco _ _ _ Hk) as (_ & _ & p & Hp' & _). by rewrite Hp in Hp'. }
  assert (Hnoi : ∀ k, k.1 = a → instances Mk !! k = None).
  { intros [b id]; simpl; intros ->. destruct (instances Mk !! _) as [i|] eqn:Hk; [|done].
    destruct (co_issued _ Hco _ _ _ Hk) as (p & Hp' & _). by rewrite Hp in Hp'. }
  match goal with |- wp _ _ ?M0 => set (Mk0 := M0) end.
  eapply wp_mono; [apply (wp_create_offers a Mk0 _ 0 0); [|done|unfold fits64; lia]|].
  - split; simpl; [done..| |by apply count_in_zero]. intros id o Hk. by rewrite Hnoo in Hk.
  - intros [] Mk' [Ep Ei Ec Ho Hr Hn]. wp_steps.
    eapply (coherent_offers Mk Mk' a); [done|exact Ep|done|done|exact Ho|exact Hr| |intros p; by rewrite Hp].
    repeat split; simpl; unfold fits64; try done; try lia. by rewrite Ei, count_in_zero.
Qed.

Lemma provider_update_coherent body Mk : coherent Mk → wp (tx_provider_update ctx body) (λ _, coherent) Mk.
Proof.
  intros Hco. unfold tx_provider_update. wp_steps. apply wp_check_metadata. wp_steps. apply wp_require_provider. intros p Hp.
  wp_steps. apply wp_ensure_provider_admin. wp_steps. destruct (co_provider _ Hco _ _ Hp) as (Ha & Hf & Hn & Hm & Hi).
  apply wp_set_provider; [repeat split; try apply Hf; done|]. wp_steps.
  eapply (coherent_offers Mk); [done|done|done|done|done| | |].
  - intros id o Hk. simpl in Hk. rewrite Ha in Hk. destruct (co_offer _ Hco _ _ _ Hk) as (? & ? & p0 & Hp0 & ?).
    rewrite Hp in Hp0. by injection Hp0 as <-.
  - simpl. rewrite Ha. by repeat split; try apply Hf.
  - intros p0. simpl. rewrite Ha, Hp. by intros [= <-].
Qed.

Lemma provider_update_offers_coherent body Mk :
  coherent Mk → Forall offer_fits (puo_add body) → Forall offer_fits (puo_update body) → Forall fits64 (puo_remove body) →
  fits64 (MAX_PROVIDER_OFFERS + len (puo_add body)) →
  (∀ p, providers Mk !! puo_provider body = Some p → fits64 (offers_next_id p + len (puo_add body))) →
  wp (tx_provider_update_offers ctx body) (λ _, coherent) Mk.
Proof.
  intros Hco Hadd Hupd Hrm Hroom Hnext. unfold tx_provider_update_offers. wp_steps. apply wp_require_provider. intros p Hp.
  wp_steps. apply wp_ensure_provider_admin. wp_steps. apply wp_ok_or. intros n [-> Hle]%checked_sub_Some. wp_steps.
  destruct (co_provider _ Hco _ _ Hp) as (Ha & Hf & Hn & Hm & Hi). specialize (Hnext p Hp). set (a := puo_provider body) in *.
  rewrite Ha. unfold fits64, saturating_add in *. rewrite N.min_l in Heqb, Hle |- * by lia. apply N.ltb_ge in Heqb.
  eapply wp_mono; [apply (wp_add_offers a Mk _ _ (offers_count p)); [|done|done]|].
  { split; try done. intros id o Hk. destruct (co_offer _ Hco _ _ _ Hk) as (? & ? & p0 & Hp0 & ?).
    rewrite Hp in Hp0. by injection Hp0 as <-. }
  intros next Mk1 [-> Hog1]. wp_steps. eapply wp_mono; [by apply wp_update_offers|]. intros [] Mk2 Hog2. wp_steps.
  eapply wp_mono; [by apply wp_drop_offers|]. intros [] Mk3 [[Ep Ei Ec Ho Hr Hcnt] Hrl]. wp_steps. pose proof max_offers_fit as Hmax.
  unfold fits64 in Hmax. apply wp_set_provider; [repeat split; simpl; try apply Hf; try done; unfold fits64; lia|]. wp_steps.
  eapply (coherent_offers Mk _ a (set_offers _ _ (ctx_now ctx) p)); simpl; rewrite ?Ha, ?Ep; try done.
  - repeat split; simpl; try apply Hf; try done; unfold fits64; try lia. by rewrite Ei.
  - intros p0. rewrite Hp. by intros [= <-].
Qed.

Lemma provider_remove_coherent body Mk : coherent Mk → wp (tx_provider_remove ctx body) (λ _, coherent) Mk.
Proof.
  intros Hco. unfold tx_provider_remove. wp_steps. apply wp_require_provider. intros p Hp.
  wp_steps. apply wp_ensure_provider_admin. wp_steps. destruct (co_provider _ Hco _ _ Hp) as (Ha & Hf & Hn & Hm & Hi).
  apply N.ltb_ge in Heqb. apply wp_get_offers. intros l _ Hin. wp_steps.
  eapply wp_mono; [apply wp_remove_all; [|exact Hin]|].
  { intros id o Hk. destruct (co_offer _ Hco _ _ _ Hk) as (Hid & [Hfit _] & _). rewrite Hid in Hfit. done. }
  intros [] Mk1 (Ep & Ei & Ec & Ho). wp_steps. apply wp_remove_provider. wp_steps.
  eapply (coherent_leave Mk); simpl; rewrite ?Ep; try done. rewrite Ha. lia.
Qed.

(** ** Instances *)

(** Coherence of an instance that is stored. *)
Lemma instance_at Mk a id i :
  coherent Mk → instances Mk !! (a, id) = Some i →
  in_provider i = a ∧ in_id i = id ∧ instance_fits i ∧ (in_paid_from i ≤ in_paid_until i)%N ∧
  in_payment_address i = generate_address a id ∧ queue_ok i (in_cmd_count i) ∧ in_cmd_count i = count_in (a, id) (commands Mk).
Proof. intros Hco Hi. destruct (co_instance _ Hco _ _ _ Hi) as (? & ? & ? & ? & ? & Hq & ?). repeat (split; [done|]). rewrite <-Hq in *. done. Qed.
Lemma command_fits Mk a id c cmd : coherent Mk → commands Mk !! (a, id, c) = Some cmd → fits64 c.
Proof.
  intros Hco (_ & i & Hi & Hlt)%(co_command _ Hco). apply (co_instance _ Hco) in Hi as (_ & _ & Hf & _).
  destruct Hf as (_ & _ & _ & _ & _ & _ & _ & _ & Hf & _). unfold fits64 in *. lia.
Qed.

Lemma instance_create_coherent body Mk :
  coherent Mk → fits64 (ic_offer body) →
  (∀ p, providers Mk !! ic_provider body = Some p → fits64 (instances_next_id p + 1)) →
  wp (tx_instance_create R stack ctx body) (λ _, coherent) Mk.
Proof.
  intros Hco Hof Hnext. unfold tx_instance_create. wp_steps. apply wp_require_provider. intros p Hp. wp_steps.
  apply wp_require_offer; [done|]. intros o Ho. wp_steps. specialize (Hnext p Hp).
  destruct (co_provider _ Hco _ _ Hp) as (Ha & Hf & Hn & Hm & Hi). rewrite Ha in *.
  destruct (co_offer _ Hco _ _ _ Ho) as (Hid & (_ & Hres & Hpay & _) & _).
  unfold increment_id. unfold fits64 in Hnext. rewrite wrapping_add_small by lia. wp_steps. apply wp_pay; [done..|].
  intros t Ht Hft. wp_steps. simpl in Ht.
  apply wp_set_instance; [by repeat split; simpl; rewrite ?Hid; try done; unfold fits64; try lia; apply Hres|]. wp_steps.
  apply wp_ok_or. intros n [-> Hn1]%checked_add_Some. wp_steps.
  apply wp_set_provider; [by repeat split; simpl; try apply Hf; unfold fits64; try lia|]. wp_steps.
  apply coherent_new_instance; simpl; try done. by repeat split; simpl; rewrite ?Hid; try done; unfold fits64; try lia; try apply Hres; by left.
Qed.

(** An instance whose fields change keeps to its widths. *)
Ltac solve_instance H := repeat split; simpl; try done; try apply H; unfold fits64 in *; try lia.

Lemma instance_change_admin_coherent body Mk :
  coherent Mk → fits64 (ica_id body) → wp (tx_instance_change_admin ctx body) (λ _, coherent) Mk.
Proof.
  intros Hco Hid. unfold tx_instance_change_admin. wp_steps. apply wp_require_instance; [done|]. intros i Hi. wp_steps.
  apply wp_ensure_instance_admin. wp_steps. destruct (instance_at _ _ _ _ Hco Hi) as (Ep & Eid & Hf & Hpaid & Hpa & Hq & Hn).
  apply wp_set_instance; [solve_instance Hf|]. wp_steps.
  eapply wp_mono; [apply wp_clear_commands; [done|intros; by eapply command_fits|]|intros cmds Mk'; apply wp_bind].
  intros cs Hcs. cbv beta. wp_steps.
  eapply (coherent_put_instance Mk _ _ _ _ _ Hco Hi); [done|done|by simpl; rewrite Ep, Eid| | |].
  - intros k Hk. simpl. by rewrite Hcs, decide_False.
  - intros c cmd. simpl. by rewrite Hcs, decide_True.
  - simpl. rewrite count_in_zero by (intros k Hk; by rewrite Hcs, decide_True). solve_instance Hf.
Qed.

Lemma instance_topup_coherent body Mk :
  coherent Mk → fits64 (itu_id body) → wp (tx_instance_topup R stack ctx body) (λ _, coherent) Mk.
Proof.
  intros Hco Hid. unfold tx_instance_topup. wp_steps. apply wp_require_instance; [done|]. intros i Hi. wp_steps.
  apply wp_pay; [done..|]. intros t Ht Hft. wp_steps.
  destruct (instance_at _ _ _ _ Hco Hi) as (Ep & Eid & Hf & Hpaid & Hpa & Hq & Hn).
  apply wp_set_instance; [solve_instance Hf|]. wp_steps.
  eapply coherent_put_same; [done|exact Hi| |done]. solve_instance Hf. apply Hq.
Qed.

Lemma adjust_capacity_coherent a id f Mk :
  coherent Mk → fits64 id → (∀ c, fits64 c → fits64 (f c)) →
  wp (adjust_capacity a id f) (λ _ Mk', coherent Mk' ∧ providers Mk' = providers Mk ∧ instances Mk' = instances Mk ∧
    commands Mk' = commands Mk) Mk.
Proof.
  intros Hco Hid Hfit. unfold adjust_capacity. wp_steps. apply wp_get_offer; [done|].
  destruct (offers Mk !! (a, id)) as [o|] eqn:Ho; wp_steps; [|done].
  destruct (co_offer _ Hco _ _ _ Ho) as (Eid & (Hf1 & Hf2 & Hf3 & Hf4) & _).
  assert (offer_fits (set_capacity (f (of_capacity o)) o)) by (repeat split; try apply Hf2; try done; by apply Hfit).
  apply wp_set_offer; [done|]. split; [by eapply coherent_put_offer|done].
Qed.

Lemma accept_instance_coherent body p node_id id Mk :
  coherent Mk → fits64 id → wp (accept_instance ctx body p node_id id) (λ _, coherent) Mk.
Proof.
  intros Hco Hid. unfold accept_instance. wp_steps. apply wp_get_instance; [done|].
  destruct (instances Mk !! _) as [i|] eqn:Hi; wp_steps; [|done].
  destruct (instance_at _ _ _ _ Hco Hi) as (Ep & Eid & Hf & Hpaid & Hpa & Hq & Hn).
  eapply wp_mono; [apply adjust_capacity_coherent; [done|apply Hf|unfold fits64, saturating_sub; lia]|].
  intros [] Mk1 (Hco1 & Eqp & Eqi & Eqc). wp_steps. apply wp_set_instance; [solve_instance Hf|]. wp_steps. rewrite <-Eqi in Hi.
  eapply coherent_put_same; [done|exact Hi| |done]. solve_instance Hf. destruct Hq as [_ [Hz|[_ Hlt]]]; [by left|right; done].
Qed.
Lemma instance_accept_coherent body Mk :
  coherent Mk → Forall fits64 (ia_ids body) → wp (tx_instance_accept ctx body) (λ _, coherent) Mk.
Proof.
  intros Hco Hall. unfold tx_instance_accept. wp_steps. apply wp_check_metadata. wp_steps. apply wp_require_provider. intros p Hp.
  wp_steps. apply wp_ensure_scheduler. intros node. wp_steps.
  apply (wp_for_each _ _ (λ l Mk', coherent Mk' ∧ Forall fits64 l)); [done|by intros ? []|].
  intros id l Mk' [Hco' [Hid Hl]%Forall_cons]. eapply wp_mono; [by apply accept_instance_coherent|done].
Qed.

(** What an update of the descriptor keeps. *)
Lemma apply_update_keeps u i :
  let i' := (apply_update u i).1 in
  in_provider i' = in_provider i ∧ in_id i' = in_id i ∧ in_status i' = in_status i ∧ in_payment_address i' = in_payment_address i ∧
  in_paid_from i' = in_paid_from i ∧ in_paid_until i' = in_paid_until i ∧ in_cmd_count i' = in_cmd_count i ∧
  in_cmd_next_id i' = in_cmd_next_id i ∧ (instance_fits i → instance_fits i').
Proof. unfold apply_update. by destruct (up_node_id u), (up_deployment u), (up_metadata u). Qed.

(** The commands up to an identifier leave the queue. *)
Lemma wp_complete_commands a u i b (Q : MarketInstance * bool → Market → Prop) Mk :
  coherent Mk → fits64 (up_id u) → in_cmd_count i = count_in (a, up_id u) (commands Mk) →
  (∀ n cs changed, (∀ k, k.1 ≠ (a, up_id u) → cs !! k = commands Mk !! k) → cs ⊆ commands Mk →
     (n ≤ in_cmd_count i)%N → n = count_in (a, up_id u) cs → (changed = false → cs = commands Mk ∧ n = in_cmd_count i) →
     Q (set_cmd_count n i, b || changed) (set_commands cs Mk)) →
  (Q (i, b) Mk) →
  wp (complete_commands a u (i, b)) Q Mk.
Proof.
  intros Hco Hid Hn HQ HQ0. unfold complete_commands. destruct (up_last_completed_cmd u) as [last|]; [|by apply wp_ret].
  apply wp_bind, wp_get_commands; [done|]. intros l Hnd Hin. apply wp_bind, wp_drop_commands; [done| |].
  { apply Forall_fmap, Forall_forall. intros [c cmd] [Hk _]%Hin. by eapply command_fits. }
  assert (Hcnt : (count_in (a, up_id u) (delete_row (a, up_id u) l.*1 (commands Mk)) + len l.*1 = count_in (a, up_id u) (commands Mk))%N).
  { apply count_in_delete_row; [done|]. intros c ([c' cmd] & -> & [Hk _]%Hin)%list_elem_of_fmap. by eexists. }
  assert (Hlen : len (to_command <$> l) = len l.*1) by (unfold len; by rewrite !length_fmap).
  apply wp_ret. simpl. rewrite Hlen. unfold saturating_sub. apply HQ.
  - intros k Hk. rewrite delete_row_lookup, decide_False; [done|]. by intros [? _].
  - apply map_subseteq_spec. intros k x. rewrite delete_row_lookup. by case_decide.
  - lia.
  - lia.
  - intros Hz%negb_false_iff%N.eqb_eq. destruct l as [|x l]; [|done]. split; [done|]. unfold len. simpl. lia.
Qed.

Lemma update_instance_coherent a u Mk :
  coherent Mk → fits64 (up_id u) → wp (update_instance ctx a u) (λ _, coherent) Mk.
Proof.
  intros Hco Hid. unfold update_instance. wp_steps. apply wp_require_instance; [done|]. intros i Hi. wp_steps.
  destruct (instance_at _ _ _ _ Hco Hi) as (Ep & Eid & Hf & Hpaid & Hpa & Hq & Hn).
  destruct (apply_update_keeps u i) as (Ep' & Eid' & Est & Epa & Epf & Epu & Ecc & Ecn & Hfit).
  destruct (apply_update u i) as [i' b]. simpl in *. specialize (Hfit Hf). apply wp_complete_commands; [done|done|congruence| |].
  - intros n cs changed Hout Hsub Hle Hcnt Hsame. simpl. destruct (b || changed) eqn:Hb; simpl negb; cbv iota.
    2: { apply wp_ret. apply orb_false_iff in Hb as [_ Hch]. destruct (Hsame Hch) as [-> _]. by destruct Mk. }
    assert (Hi' : instance_fits (set_updated_at (ctx_now ctx) (set_cmd_count n i'))).
    { repeat split; simpl; try done; try apply Hfit. destruct Hfit as (_ & _ & _ & _ & _ & _ & _ & _ & _ & Hfc).
      unfold fits64 in *. lia. }
    wp_steps. apply wp_set_instance; [done|]. wp_steps.
    eapply (coherent_put_instance Mk _ a (up_id u) i); [done|done|done|done|simpl; by rewrite Ep', Eid', Ep, Eid|exact Hout| |].
    + intros c cmd Hk. simpl in *. pose proof (lookup_weaken _ _ _ _ Hk Hsub) as Hk'.
      destruct (co_command _ Hco _ _ _ _ Hk') as (Hsz & j & Hj & Hlt). rewrite Hi in Hj. injection Hj as <-.
      by rewrite Ecn.
    + simpl. rewrite <-Hcnt. repeat (split; [simpl; done || congruence || lia|]). simpl.
      destruct Hq as [_ [Hz|[Hst Hlt]]]; [left; lia|]. right. split; [congruence|lia].
  - destruct b; simpl negb; cbv iota; wp_steps; [|done].
    apply wp_set_instance; [repeat split; simpl; try done; apply Hfit|]. wp_steps.
    eapply coherent_put_same; [done|exact Hi| |done].
    repeat (split; [simpl; first [done | congruence | lia | repeat split; simpl; try done; apply Hfit]|]). simpl.
    destruct Hq as [_ Hq]. by rewrite Est.
Qed.
Lemma instance_update_coherent body Mk :
  coherent Mk → Forall (λ u, fits64 (up_id u)) (iu_updates body) → wp (tx_instance_update ctx body) (λ _, coherent) Mk.
Proof.
  intros Hco Hall. unfold tx_instance_update. wp_steps.
  apply (wp_for_each _ _ (λ _ Mk', Mk' = Mk)); [done| |].
  2: { intros u l Mk' ->. destruct (up_metadata u); [by apply wp_check_metadata|by apply wp_ret]. }
  intros Mk' ->. wp_steps. apply wp_require_provider. intros p Hp. wp_steps. apply wp_ensure_scheduler. intros _. wp_steps.
  apply (wp_for_each _ _ (λ l Mk', coherent Mk' ∧ Forall (λ u, fits64 (up_id u)) l)); [done|by intros ? []|].
  intros u l Mk' [Hco' [Hu Hl]%Forall_cons]. eapply wp_mono; [by apply update_instance_coherent|done].
Qed.

Lemma instance_cancel_coherent body Mk :
  coherent Mk → fits64 (icn_id body) → wp (tx_instance_cancel R stack ctx body) (λ _, coherent) Mk.
Proof.
  intros Hco Hid. unfold tx_instance_cancel. wp_steps. apply wp_require_provider. intros p Hp. wp_steps.
  apply wp_require_instance; [done|]. intros i Hi. wp_steps. apply wp_ensure_instance_admin.
  destruct (co_provider _ Hco _ _ Hp) as (Ha & Hpf & _). set (a := icn_provider body) in *. set (id := icn_id body) in *.
  destruct (instance_at _ _ _ _ Hco Hi) as (Ep & Eid & Hf & Hpaid & Hpa & Hq & Hn).
  destruct (is_refundable (ctx_now ctx) i) eqn:Href; wp_steps.
  - apply wp_leaves; [by apply neutral_refund|intros []]. wp_steps. apply wp_remove_instance; [done|]. wp_steps.
    apply wp_ok_or. intros n [-> Hle]%checked_sub_Some. wp_steps.
    apply wp_set_provider; [repeat split; simpl; try done; try apply Hpf; destruct Hpf as (_ & _ & _ & _ & Hc & _); unfold fits64 in *; lia|].
    wp_steps. eapply (coherent_del_instance Mk _ a id p i (ctx_now ctx)); simpl; rewrite ?Ha; try done.
    assert (Hz : count_in (a, id) (commands Mk) = 0%N).
    { rewrite <-Hn. unfold is_refundable in Href. apply andb_true_iff in Href as [Hst%bool_decide_eq_true _].
      by destruct Hq as [_ [?|[? _]]]. }
    intros k. case_decide as Hk; [|done]. by eapply count_in_zero_inv.
  - apply wp_claim; [done..|]. intros t Hst Ht. simpl in Ht. wp_steps.
    assert (fits64 t) by (destruct Hf as (_ & _ & _ & _ & _ & _ & Hu & _); unfold fits64 in *; lia).
    apply wp_set_instance; [repeat split; simpl; try done; apply Hf|]. wp_steps.
    eapply coherent_put_same; [done|exact Hi| |done]. repeat split; simpl; try done; try apply Hf; try lia.
    destruct Hq as [_ [Hz|[_ Hlt]]]; [by left|by right].
Qed.

Lemma instance_remove_coherent body Mk :
  coherent Mk → fits64 (irm_id body) → wp (tx_instance_remove R stack ctx body) (λ _, coherent) Mk.
Proof.
  intros Hco Hid. unfold tx_instance_remove. wp_steps. apply wp_require_provider. intros p Hp. wp_steps.
  apply wp_ensure_scheduler. intros _. wp_steps. apply wp_require_instance; [done|]. intros i Hi. wp_steps.
  destruct (co_provider _ Hco _ _ Hp) as (Ha & Hpf & _). set (a := irm_provider body) in *. set (id := irm_id body) in *.
  destruct (instance_at _ _ _ _ Hco Hi) as (Ep & Eid & Hf & Hpaid & Hpa & Hq & Hn).
  apply wp_ok_or. intros n [-> Hle]%checked_sub_Some. wp_steps.
  apply (wp_mono _ (λ _ Mk', Mk' = Mk)).
  { destruct (_ <? _)%N; [apply wp_leaves; [by apply neutral_refund|done]|]. wp_steps. apply wp_claim; [done..|].
    intros t _ _. by apply wp_ret. }
  intros [] Mk0 ->. wp_steps.
  eapply wp_mono; [apply adjust_capacity_coherent; [done|apply Hf|unfold fits64, saturating_add; lia]|].
  intros [] Mk1 (Hco1 & Eqp & Eqi & Eqc). wp_steps.
  apply wp_set_provider; [repeat split; simpl; try done; try apply Hpf; destruct Hpf as (_ & _ & _ & _ & Hc & _); unfold fits64 in *; lia|].
  wp_steps. apply wp_remove_instance; [done|]. wp_steps.
  eapply wp_mono; [apply wp_clear_commands; [done|intros c cmd; simpl; rewrite Eqc; exact (command_fits Mk _ _ _ _ Hco)|]|
    intros cmds Mk'; apply wp_bind].
  intros cs Hcs. cbv beta. wp_steps. rewrite <-Eqi in Hi. rewrite <-Eqp in Hp.
  eapply (coherent_del_instance Mk1 _ a id p i (ctx_now ctx)); simpl; rewrite ?Ha; done.
Qed.

Lemma instance_execute_coherent body Mk :
  coherent Mk → fits64 (iec_id body) →
  (∀ i, instances Mk !! (iec_provider body, iec_id body) = Some i → fits64 (in_cmd_next_id i + len (iec_cmds body))) →
  wp (tx_instance_execute_cmds ctx body) (λ _, coherent) Mk.
Proof.
  intros Hco Hid Hroom. unfold tx_instance_execute_cmds. wp_steps. apply negb_false_iff in Heqb.
  assert (Hsz : Forall (λ cmd, (len cmd ≤ MAX_INSTANCE_COMMAND_SIZE)%N) (iec_cmds body)).
  { apply Forall_forall. intros cmd Hin. apply N.leb_le. by apply (proj1 (forallb_forall _ _) Heqb), list_elem_of_In. }
  apply wp_require_instance; [done|]. intros i Hi. wp_steps. apply wp_ensure_instance_admin. wp_steps.
  apply bool_decide_eq_false in Heqb0.
  destruct (instance_at _ _ _ _ Hco Hi) as (Ep & Eid & Hf & Hpaid & Hpa & Hq & Hn). specialize (Hroom i Hi).
  apply wp_ok_or. intros n [-> Hle]%checked_add_Some. wp_steps. apply N.leb_gt in Heqb1.
  eapply wp_mono; [apply wp_queue_commands; [done|done| |done]|].
  { intros c cmd (_ & j & Hj & Hlt)%(co_command _ Hco). rewrite Hi in Hj. by injection Hj as <-. }
  intros next Mk' [-> (cs & -> & Hout & Hcnt & Hin)]. wp_steps.
  apply wp_set_instance; [repeat split; simpl; try done; apply Hf|]. wp_steps.
  eapply (coherent_put_instance Mk _ _ _ i); [done|done|done|done|simpl; by rewrite Ep, Eid|exact Hout| |].
  - intros c cmd Hk. simpl in *. destruct (Hin c cmd Hk) as [Hk'|[? ?]]; [|done].
    destruct (co_command _ Hco _ _ _ _ Hk') as (Hs & j & Hj & Hlt). rewrite Hi in Hj. injection Hj as <-. split; [done|lia].
  - simpl. rewrite Hcnt, <-Hn. repeat split; simpl; try done; try apply Hf. right. split; [|done].
    intros Hst. apply Heqb0. by rewrite Hst.
Qed.

Lemma claim_instance_coherent p a id Mk :
  coherent Mk → fits64 id → wp (claim_instance R stack ctx p a id) (λ _, coherent) Mk.
Proof.
  intros Hco Hid. unfold claim_instance. wp_steps. apply wp_require_instance; [done|]. intros i Hi. wp_steps.
  destruct (instance_at _ _ _ _ Hco Hi) as (Ep & Eid & Hf & Hpaid & Hpa & Hq & Hn).
  apply wp_claim; [done..|]. intros t Hst Ht. wp_steps.
  assert (fits64 t) by (destruct Hf as (_ & _ & _ & _ & _ & _ & Hu & _); unfold fits64 in *; lia).
  apply wp_set_instance; [repeat split; simpl; try done; apply Hf|]. wp_steps.
  eapply coherent_put_same; [done|exact Hi| |done]. repeat split; simpl; try done; try apply Hf. apply Hq.
Qed.
Lemma instance_claim_coherent body Mk :
  coherent Mk → Forall fits64 (icp_instances body) → wp (tx_instance_claim_payment R stack ctx body) (λ _, coherent) Mk.
Proof.
  intros Hco Hall. unfold tx_instance_claim_payment. wp_steps. apply wp_require_provider. intros p Hp.
  wp_steps. apply wp_ensure_scheduler. intros node. wp_steps.
  apply (wp_for_each _ _ (λ l Mk', coherent Mk' ∧ Forall fits64 l)); [done|by intros ? []|].
  intros id l Mk' [Hco' [Hid Hl]%Forall_cons]. eapply wp_mono; [by apply claim_instance_coherent|done].
Qed.
End handlers.

(** The ROFL market as a state machine: whatever is called, in whatever order, its tables stay coherent
    (src/runtime-sdk/modules/rofl-market/src/lib.rs). *)

(** The calls of the module. *)
Inductive MarketCall :=
  | CallProviderCreate (body : ProviderCreate)
  | CallProviderUpdate (body : ProviderUpdate)
  | CallProviderUpdateOffers (body : ProviderUpdateOffers)
  | CallProviderRemove (body : ProviderRemove)
  | CallInstanceCreate (body : InstanceCreate)
  | CallInstanceChangeAdmin (body : InstanceChangeAdmin)
  | CallInstanceTopUp (body : InstanceTopUp)
  | CallInstanceAccept (body : InstanceAccept)
  | CallInstanceUpdate (body : InstanceUpdate)
  | CallInstanceCancel (body : InstanceCancel)
  | CallInstanceRemove (body : InstanceRemove)
  | CallInstanceExecuteCmds (body : InstanceExecuteCmds)
  | CallInstanceClaimPayment (body : InstanceClaimPayment).

(** What is decoded from a request is within its widths. *)
Definition call_fits (c : MarketCall) : Prop :=
  match c with
  | CallProviderCreate body => Forall offer_fits (pc_offers body)
  | CallProviderUpdateOffers body =>
      Forall offer_fits (puo_add body) ∧ Forall offer_fits (puo_update body) ∧ Forall fits64 (puo_remove body)
  | CallInstanceCreate body => fits64 (ic_offer body)
  | CallInstanceChangeAdmin body => fits64 (ica_id body)
  | CallInstanceTopUp body => fits64 (itu_id body)
  | CallInstanceAccept body => Forall fits64 (ia_ids body)
  | CallInstanceUpdate body => Forall (λ u, fits64 (up_id u)) (iu_updates body)
  | CallInstanceCancel body => fits64 (icn_id body)
  | CallInstanceRemove body => fits64 (irm_id body)
  | CallInstanceExecuteCmds body => fits64 (iec_id body)
  | CallInstanceClaimPayment body => Forall fits64 (icp_instances body)
  | CallProviderUpdate _ | CallProviderRemove _ => True
  end.
(** There are identifiers of 64 bits left to be issued. *)
Definition call_room `{!MarketConfig} (c : MarketCall) (Mk : Market) : Prop :=
  match c with
  | CallProviderUpdateOffers body =>
      fits64 (MAX_PROVIDER_OFFERS + len (puo_add body)) ∧
      ∀ p, providers Mk !! puo_provider body = Some p → fits64 (offers_next_id p + len (puo_add body))
  | CallInstanceCreate body => ∀ p, providers Mk !! ic_provider body = Some p → fits64 (instances_next_id p + 1)
  | CallInstanceExecuteCmds body =>
      ∀ i, instances Mk !! (iec_provider body, iec_id body) = Some i → fits64 (in_cmd_next_id i + len (iec_cmds body))
  | _ => True
  end.

Section machine.
Context `{Platform} `{!MKVSLaws} `{!TxCodec} `{!CallCrypto} `{!CoreCodec} `{!CoreConfig} `{!DispatchCodec}.
Context `{!AccountsCodec} `{!MarketConfig} `{!MarketCodec} `{!MarketLaws} `{!MarketCrypto} `{!RoflAPI}.
Context (R : SubcallStack → Runtime) (stack : SubcallStack).

Definition market_call (ctx : Ctx) (c : MarketCall) : M MarketError unit :=
  match c with
  | CallProviderCreate body => tx_provider_create ctx body
  | CallProviderUpdate body => tx_provider_update ctx body
  | CallProviderUpdateOffers body => tx_provider_update_offers ctx body
  | CallProviderRemove body => tx_provider_remove ctx body
  | CallInstanceCreate body => tx_instance_create R stack ctx body ;; mret tt
  | CallInstanceChangeAdmin body => tx_instance_change_admin ctx body
  | CallInstanceTopUp body => tx_instance_topup R stack ctx body
  | CallInstanceAccept body => tx_instance_accept ctx body
  | CallInstanceUpdate body => tx_instance_update ctx body
  | CallInstanceCancel body => tx_instance_cancel R stack ctx body
  | CallInstanceRemove body => tx_instance_remove R stack ctx body
  | CallInstanceExecuteCmds body => tx_instance_execute_cmds ctx body
  | CallInstanceClaimPayment body => tx_instance_claim_payment R stack ctx body
  end.

(** A call of the market succeeds, or something else happens that leaves its tables alone: a call of another
    module, or a call of the market that fails and is rolled back. *)
Inductive market_step : State → State → Prop :=
  | step_market ctx c s s' :
      fits64 (ctx_now ctx) → call_fits c → (∀ Mk, market_of s Mk → call_room c Mk) →
      market_call ctx c s = (Ok tt, s') → market_step s s'
  | step_other s s' : ready s' → same_below market_prefix s s' → market_step s s'.

Context `{!MarketBounds} `{!RoflReads} `{!∀ stack, FramedRuntime (R stack)}.
Hypothesis others_leave_market : ∀ stack' ctx call,
  forbid_reentrancy ∈ stack' → not_market call = true → neutral (subcall_body (R stack') ctx call).

Lemma market_call_coherent ctx c Mk :
  fits64 (ctx_now ctx) → call_fits c → call_room c Mk → coherent Mk → wp (market_call ctx c) (λ _, coherent) Mk.
Proof.
  intros Hnow Hfit Hroom Hco. destruct c; simpl in *.
  - by apply provider_create_coherent.
  - by apply provider_update_coherent.
  - destruct Hfit as (? & ? & ?), Hroom. by apply provider_update_offers_coherent.
  - by apply provider_remove_coherent.
  - apply wp_bind. eapply wp_mono; [by apply instance_create_coherent|]. intros id Mk' Hco'. by apply wp_ret.
  - by apply instance_change_admin_coherent.
  - by apply instance_topup_coherent.
  - by apply instance_accept_coherent.
  - by apply instance_update_coherent.
  - by apply instance_cancel_coherent.
  - by apply instance_remove_coherent.
  - by apply instance_execute_coherent.
  - by apply instance_claim_coherent.
Qed.
Lemma market_step_coherent s s' Mk :
  market_step s s' → ready s → market_of s Mk → coherent Mk → ready s' ∧ ∃ Mk', market_of s' Mk' ∧ coherent Mk'.
Proof.
  intros [ctx c s1 s2 Hnow Hfit Hroom Hrun|s1 s2 Hr Hsame] Hs Hm Hco.
  - by eapply (market_call_coherent ctx c Mk Hnow Hfit (Hroom Mk Hm) Hco).
  - split; [done|]. exists Mk. split; [by eapply same_market_of|done].
Qed.
Lemma market_reach_coherent s s' Mk :
  rtc market_step s s' → ready s → market_of s Mk → coherent Mk → ready s' ∧ ∃ Mk', market_of s' Mk' ∧ coherent Mk'.
Proof.
  intros Hsteps. revert Mk. induction Hsteps as [s|s1 s2 s3 Hstep _ IH]; intros Mk Hs Hm Hco; [by split; [|exists Mk]|].
  destruct (market_step_coherent s1 s2 Mk Hstep Hs Hm Hco) as (Hs2 & Mk2 & Hm2 & Hco2). by apply (IH Mk2).
Qed.
End machine.

Module MarketClaims.
Section claims.
Context `{Platform} `{!MKVSLaws} `{!TxCodec} `{!CallCrypto} `{!CoreCodec} `{!CoreConfig} `{!DispatchCodec}.
Context `{!AccountsCodec} `{!MarketConfig} `{!MarketBounds} `{!MarketCodec} `{!MarketLaws} `{!MarketCrypto}.
Context `{!RoflAPI} `{!RoflReads}.
Context (R : SubcallStack → Runtime) (stack : SubcallStack) `{!∀ stack, FramedRuntime (R stack)}.

(** C7. The market stays coherent along any sequence of its calls and of calls of other modules, when these
    reach its tables only through its calls: every provider is kept under its address and counts its
    offers and instances exactly; every offer and instance belongs to a provider whose next identifier is
    above its own; no instance is claimed beyond the time it is paid for, each has the payment address of
    its identifier, and counts its queued commands exactly; an instance that is not accepted has none, the
    queue is below its limit, and no command outlives its instance.  Payments call contracts, which call
    the runtime again: the validator that forbids re-entrance is what keeps their effects out. *)
Theorem market_stays_coherent s s' Mk :
  (∀ stack' ctx call, forbid_reentrancy ∈ stack' → not_market call = true → neutral (subcall_body (R stack') ctx call)) →
  ready s → market_of s Mk → coherent Mk → rtc (market_step R stack) s s' →
  ∃ Mk', market_of s' Mk' ∧ coherent Mk'.
Proof.
  intros Hothers Hs Hm Hco Hsteps. by destruct (market_reach_coherent R stack Hothers s s' Mk Hsteps Hs Hm Hco) as [_ ?].
Qed.
End claims.
End MarketClaims.
