(* ===== verification/MarketPay.v ===== *)
(** Payments of the ROFL market in the tokens of the runtime: what a provider claims over time is its share of
    what was paid, and the rest is refunded (src/runtime-sdk/modules/rofl-market/src/payment.rs). *)
From S2P Require Import Prelude Endian Storage StoreIter Types Fee Errors State Current Transactions Module Tables CallFormat.
From S2P Require Import Core Gas Accounts Ledger Accounting Disbursement Moves Dispatcher Dispatch Subcall Rofl Market.

(** * Shares of a payment *)

(** What is claimed of the balance [b], for the time from [f] to [t] of the time from [f] to [u]. *)
Definition claimed (b f t u : N) : N := if decide (f = u) then 0%N else ((t - f) * b / (u - f))%N.

(** After [k] claims up to the time [f], the balance [b'] is what is left of [b] for the time that remains, give
    or take the rounding of each claim; [d] is the whole time, which ends at [u]. *)
Record remaining (b d u k f b' : N) : Prop := {
  rem_share : (b * (u - f) ≤ b' * d)%N;
  rem_round : (b' * d ≤ b * (u - f) + k * d)%N;
  rem_none : f = u → b' = 0%N;
}.

Lemma claimed_le b f t u : (t ≤ u)%N → (claimed b f t u ≤ b)%N.
Proof.
  intros Ht. unfold claimed. case_decide as Hd; [lia|].
  destruct (N.le_gt_cases u f) as [|Hlt]; [replace (t - f)%N with 0%N by lia; rewrite N.mul_0_l, N.Div0.div_0_l; lia|].
  apply N.Div0.div_le_upper_bound. apply N.mul_le_mono_r. lia.
Qed.
Lemma claimed_bounds b f t u :
  (f < u)%N → let x := claimed b f t u in (x * (u - f) ≤ (t - f) * b < (x + 1) * (u - f))%N.
Proof.
  intros Hlt. unfold claimed. rewrite decide_False by lia. cbv zeta.
  pose proof (N.div_mod ((t - f) * b) (u - f) ltac:(lia)) as Hdm.
  pose proof (N.mod_lt ((t - f) * b) (u - f) ltac:(lia)) as Hm.
  generalize dependent ((t - f) * b / (u - f))%N. generalize dependent ((t - f) * b mod (u - f))%N. intros m Hm q Hdm. nia.
Qed.
Lemma remaining_step b d u k f b' t :
  (f ≤ t ≤ u)%N → remaining b d u k f b' → remaining b d u (k + 1) t (b' - claimed b' f t u).
Proof.
  intros [Hft Htu] [Hs Hr Hn]. destruct (decide (f = u)) as [->|Hne].
  { assert (t = u) as -> by lia. rewrite Hn by done. split; [|lia|done]. rewrite N.sub_diag in *. lia. }
  pose proof (claimed_le b' f t u Htu) as Hle. pose proof (claimed_bounds b' f t u ltac:(lia)) as [H1 H2].
  set (x := claimed b' f t u) in *. clearbody x.
  assert (Hut : (u - t = (u - f) - (t - f))%N) by lia.
  assert (Hc : (t - f ≤ u - f)%N) by lia. assert (Hr0 : (0 < u - f)%N) by lia. 
  assert (Hend : t = u → (t - f = u - f)%N) by lia. clear Hn Hne Hft Htu.
  generalize dependent (u - f)%N. generalize dependent (t - f)%N. intros c r Hs Hr H1 H2 Hut Hc Hr0 Hend.
  assert (Hce : ∃ e, (r = e + c)%N) by (exists (r - c)%N; lia). destruct Hce as [e ->].
  replace (e + c - c)%N with e in Hut by lia.
  assert (Hxy : ∃ y, (b' = y + x)%N) by (exists (b' - x)%N; lia). destruct Hxy as [y ->]. replace (y + x - x)%N with y by lia.
  assert (Hlo : ((y + x) * e ≤ y * (e + c))%N) by nia. assert (Hhi : (y * (e + c) ≤ (y + x) * e + (e + c))%N) by nia. split.
  - rewrite Hut. apply (N.mul_le_mono_pos_r _ _ (e + c)); [done|].
    pose proof (N.mul_le_mono_r _ _ e Hs). pose proof (N.mul_le_mono_r _ _ d Hlo). lia.
  - rewrite Hut. apply (N.mul_le_mono_pos_r _ _ (e + c)); [done|].
    pose proof (N.mul_le_mono_r _ _ e Hr). pose proof (N.mul_le_mono_r _ _ d Hhi). nia.
  - intros Heq. specialize (Hend Heq). assert (e = 0%N) as -> by lia. nia.
Qed.
Lemma remaining_start b f u : (f < u)%N → remaining b (u - f) u 0 f b.
Proof. intros Hlt. split; lia. Qed.

(** [x] of the denomination [d] has moved, and nothing else. *)
Definition moves (L L' : Ledger) (from to : Address) (d : Denomination) (x : N) : Prop := ∀ a d',
  (balance L' a d' + (if decide (from = a ∧ d = d') then x else 0) =
   balance L a d' + (if decide (to = a ∧ d = d') then x else 0))%N.
Lemma moves_refl L from to d : moves L L from to d 0.
Proof. intros a d'. by repeat case_decide. Qed.
Lemma moves_trans L1 L2 L3 from to d x y :
  moves L1 L2 from to d x → moves L2 L3 from to d y → moves L1 L3 from to d (x + y).
Proof. intros H1 H2 a d'. specialize (H1 a d'). specialize (H2 a d'). repeat case_decide; lia. Qed.
Lemma moves_from L L' from to d x : from ≠ to → moves L L' from to d x → (balance L' from d + x = balance L from d)%N.
Proof.
  intros Hne Hm. specialize (Hm from d). rewrite decide_True in Hm by done. rewrite decide_False in Hm; [lia|].
  by intros [? _].
Qed.

(** The accounts of a payment. *)
Definition instance_account `{Crypto} (i : MarketInstance) : Address := from_eth (raw (in_payment_address i)).
Definition provider_account `{Crypto} (p : Provider) : Address := payment_address_address (pr_payment_address p).

Section paying.
Context `{Platform} `{!MKVSLaws} `{!TxCodec} `{!CallCrypto} `{!CoreCodec} `{!CoreConfig} `{!DispatchCodec}.
Context `{!AccountsCodec} `{!AccountsCodecLaws} `{!MarketConfig} `{!MarketCodec} `{!MarketCrypto} `{!RoflAPI}.
Context (R : SubcallStack → Runtime) (stack : SubcallStack).

(** A state in which tokens can be moved. *)
Definition solvent (s : State) (L : Ledger) : Prop :=
  ledger_of s L ∧ covered L ∧ is_check_only (st_env s) = false.

Lemma get_balance_run {E} s L a d : ledger_of s L → get_balance (E := E) a d s = (Ok (balance L a d), s).
Proof. intros Hl. unfold get_balance. by rewrite (bind_ok _ _ _ _ _ (get_bal_run (E := E) s L a d Hl)). Qed.
Lemma mk_transfer_run s L from to d x :
  solvent s L → (x ≤ balance L from d)%N →
  ∃ s' L', mk_transfer from to (BaseUnits_new x d) s = (Ok tt, s') ∧ solvent s' L' ∧ supply L' = supply L ∧ moves L L' from to d x.
Proof.
  intros (Hl & Hc & Hm) Hle. destruct (transfer_run L s from to (BaseUnits_new x d) Hl Hc Hm Hle)
    as (s' & L' & Hrun & (Hev & Hw & _) & Hl' & Hc' & Hsup & Hb).
  exists s', L'. split; [by apply map_err_ok|]. split; [split; [done|]; split; [done|]|split; [done|]].
  - destruct Hev as (st & ev & ->). done.
  - intros a d'. specialize (Hb a d'). unfold delta in Hb. simpl in Hb. repeat case_decide; naive_solver lia.
Qed.

Definition claim_until (ctx : Ctx) (i : MarketInstance) : N := N.min (ctx_now ctx) (in_paid_until i).
Lemma claim_run s L d terms ctx pr i :
  solvent s L → in_status i = Accepted → (in_paid_from i ≤ claim_until ctx i)%N →
  let b := balance L (instance_account i) d in
  let x := claimed b (in_paid_from i) (claim_until ctx i) (in_paid_until i) in
  (b * (in_paid_until i - in_paid_from i) ≤ u128_max)%N →
  ∃ s' L', claim R stack (PayNative d terms) ctx pr i s = (Ok (set_paid_from (claim_until ctx i) i), s') ∧
    solvent s' L' ∧ supply L' = supply L ∧ moves L L' (instance_account i) (provider_account pr) d x.
Proof.
  intros Hs Hst Hft b x Hfit. set (t := claim_until ctx i) in *. assert (Htu : (t ≤ in_paid_until i)%N) by (unfold t, claim_until; lia).
  destruct (mk_transfer_run s L (instance_account i) (provider_account pr) d x Hs) as (s' & L' & Hrun & Hs' & Hsup & Hm).
  { by apply claimed_le. }
  exists s', L'. split; [|done]. unfold claim, claim_time. rewrite Hst. change (N.min (ctx_now ctx) (in_paid_until i)) with t. cbn [ok_or]. rewrite ret_bind.
  unfold checked_sub. destruct (N.leb_spec (in_paid_from i) (in_paid_until i)); [|lia]. cbn [ok_or]. rewrite ret_bind.
  fold (instance_account i) (provider_account pr).
  match goal with |- (?m ≫= _) s = _ => assert (Hpay : m s = (Ok tt, s')) end; [|by rewrite (bind_ok _ _ _ _ _ Hpay)].
  rewrite (bind_ok _ _ _ _ _ (get_balance_run (E := MarketError) s L _ d (proj1 Hs))). fold b. unfold saturating_sub.
  unfold checked_mul. destruct (N.leb_spec ((t - in_paid_from i) * b) u128_max) as [_|Hgt]; [|nia].
  cbn [ok_or]. rewrite ret_bind. rewrite <-Hrun. do 2 f_equal. unfold checked_div, x, claimed.
  case_decide as Hd; [rewrite Hd, N.sub_diag; by case_match|].
  by destruct (N.eqb_spec (in_paid_until i - in_paid_from i) 0); [lia|].
Qed.

(** Claims at different times, one after the other. *)
Fixpoint claims (p : Payment) (pr : Provider) (ctxs : list Ctx) (i : MarketInstance) : M MarketError MarketInstance :=
  match ctxs with
  | [] => mret i
  | ctx :: ctxs' => i' ← claim R stack p ctx pr i; claims p pr ctxs' i'
  end.
(** The times do not go backwards. *)
Fixpoint in_order (f : N) (ctxs : list Ctx) : Prop :=
  match ctxs with [] => True | ctx :: ctxs' => (f ≤ ctx_now ctx)%N ∧ in_order (ctx_now ctx) ctxs' end.
Lemma in_order_weaken f f' ctxs : (f' ≤ f)%N → in_order f ctxs → in_order f' ctxs.
Proof. intros Hle. destruct ctxs as [|ctx ctxs]; [done|]. intros [? ?]. split; [lia|done]. Qed.

Lemma claims_run d terms pr b dur k ctxs s L i :
  solvent s L → in_status i = Accepted → instance_account i ≠ provider_account pr → (in_paid_from i ≤ in_paid_until i)%N →
  in_order (in_paid_from i) ctxs →
  (balance L (instance_account i) d * (in_paid_until i - in_paid_from i) ≤ u128_max)%N →
  remaining b dur (in_paid_until i) k (in_paid_from i) (balance L (instance_account i) d) →
  ∃ s' L' t x, claims (PayNative d terms) pr ctxs i s = (Ok (set_paid_from t i), s') ∧ solvent s' L' ∧ supply L' = supply L ∧
    moves L L' (instance_account i) (provider_account pr) d x ∧
    t = foldl (λ t ctx, claim_until ctx i) (in_paid_from i) ctxs ∧ (in_paid_from i ≤ t ≤ in_paid_until i)%N ∧
    remaining b dur (in_paid_until i) (k + len ctxs) t (balance L' (instance_account i) d).
Proof.
  intros Hs Hst Hne. revert k s L i Hs Hst Hne. induction ctxs as [|ctx ctxs IH]; intros k s L i Hs Hst Hne Hle Hord Hfit Hrem.
  - exists s, L, (in_paid_from i), 0%N. split; [by destruct i|]. do 2 (split; [done|]). split; [apply moves_refl|].
    split; [done|]. split; [done|]. unfold len. simpl. by rewrite N.add_0_r.
  - destruct Hord as [Hnow Hord]. assert (Hft : (in_paid_from i ≤ claim_until ctx i)%N) by (unfold claim_until; lia).
    assert (Htu : (claim_until ctx i ≤ in_paid_until i)%N) by (unfold claim_until; lia).
    destruct (claim_run s L d terms ctx pr i Hs Hst Hft Hfit) as (s1 & L1 & Hrun & Hs1 & Hsup & Hm). set (t := claim_until ctx i) in *.
    pose proof (moves_from _ _ _ _ _ _ Hne Hm) as Hb. pose proof (remaining_step _ _ _ _ _ _ t (conj Hft Htu) Hrem) as Hrem1.
    destruct (IH (k + 1)%N s1 L1 (set_paid_from t i)) as (s' & L' & t' & y & Hrun' & Hs' & Hsup' & Hm' & Ht' & Hb' & Hrem'); try done.
    { eapply in_order_weaken; [|exact Hord]. unfold t, claim_until. simpl. lia. }
    { change (instance_account (set_paid_from t i)) with (instance_account i). simpl. nia. }
    { change (instance_account (set_paid_from t i)) with (instance_account i). simpl.
      replace (balance L1 (instance_account i) d) with (balance L (instance_account i) d -
        claimed (balance L (instance_account i) d) (in_paid_from i) t (in_paid_until i))%N by lia. done. }
    exists s', L', t', (claimed (balance L (instance_account i) d) (in_paid_from i) t (in_paid_until i) + y)%N.
    split; [cbn [claims]; rewrite (bind_ok _ _ _ _ _ Hrun); exact Hrun'|]. split; [done|]. split; [congruence|].
    split; [by eapply moves_trans|]. split; [done|]. split; [simpl in Hb'; lia|]. unfold len in *. simpl length. simpl in Hrem'.
    replace (k + N.of_nat (S (length ctxs)))%N with (k + 1 + N.of_nat (length ctxs))%N by lia. done.
Qed.

(** What is left goes to the administrator. *)
Lemma refund_run s L d terms ctx i :
  solvent s L →
  ∃ s' L', refund R stack (PayNative d terms) ctx i s = (Ok tt, s') ∧ solvent s' L' ∧ supply L' = supply L ∧
    moves L L' (instance_account i) (in_admin i) d (balance L (instance_account i) d).
Proof.
  intros Hs. unfold refund. fold (instance_account i).
  rewrite (bind_ok _ _ _ _ _ (get_balance_run (E := MarketError) s L _ d (proj1 Hs))). by apply mk_transfer_run.
Qed.
End paying.

Module PaymentClaims.
Section claims_.
Context `{Platform} `{!MKVSLaws} `{!TxCodec} `{!CallCrypto} `{!CoreCodec} `{!CoreConfig} `{!DispatchCodec}.
Context `{!AccountsCodec} `{!AccountsCodecLaws} `{!MarketConfig} `{!MarketCodec} `{!MarketCrypto} `{!RoflAPI}.
Context (R : SubcallStack → Runtime) (stack : SubcallStack).

(** C8. Payments are pro rata.  An accepted instance that has the balance [b], paid for the time from [f] to [u], is
    claimed at any sequence of times that does not go backwards, up to the time [t].  Every claim succeeds; the
    provider gets some amount [x] and nobody else's balance changes, nor does the supply; [x] is at most the
    provider's share [b * (t - f) / (u - f)], and short of it by at most one base unit per claim; once all of
    the time has passed it is all of [b].  A refund then succeeds and gives the administrator exactly what is
    left, so that nothing stays in the account of the instance. *)
Theorem payments_are_pro_rata s L d terms pr ctxs ctx i :
  let b := balance L (instance_account i) d in
  let f := in_paid_from i in
  let u := in_paid_until i in
  solvent s L → in_status i = Accepted → (f < u)%N → in_order f ctxs → (b * (u - f) ≤ u128_max)%N →
  instance_account i ≠ provider_account pr → instance_account i ≠ in_admin i →
  ∃ s' L' t x, claims R stack (PayNative d terms) pr ctxs i s = (Ok (set_paid_from t i), s') ∧
    t = foldl (λ t ctx, N.min (ctx_now ctx) u) f ctxs ∧
    supply L' = supply L ∧ moves L L' (instance_account i) (provider_account pr) d x ∧
    (x * (u - f) ≤ b * (t - f))%N ∧ (b * (t - f) ≤ (x + len ctxs) * (u - f))%N ∧ (t = u → x = b) ∧
    ∃ s'' L'', refund R stack (PayNative d terms) ctx (set_paid_from t i) s' = (Ok tt, s'') ∧ ledger_of s'' L'' ∧
      supply L'' = supply L ∧ moves L' L'' (instance_account i) (in_admin i) d (b - x) ∧
      balance L'' (instance_account i) d = 0%N.
Proof.
  intros b f u Hs Hst Hlt Hord Hfit Hne Hne'.
  destruct (claims_run R stack d terms pr b (u - f) 0 ctxs s L i Hs Hst Hne ltac:(lia) Hord Hfit (remaining_start b f u Hlt))
    as (s' & L' & t & x & Hrun & Hs' & Hsup & Hm & Ht & Hb & [Hsh Hro Hno]).
  pose proof (moves_from _ _ _ _ _ _ Hne Hm) as Hx. fold b f u in Hx, Hb, Hsh, Hro, Hno.
  destruct (refund_run R stack s' L' d terms ctx (set_paid_from t i) Hs') as (s'' & L'' & Hrun' & Hs'' & Hsup' & Hm').
  change (instance_account (set_paid_from t i)) with (instance_account i) in Hm'. cbn [in_admin set_paid_from] in Hm'.
  pose proof (moves_from _ _ _ _ _ _ Hne' Hm') as Hx'.
  exists s', L', t, x. split; [exact Hrun|]. split; [exact Ht|]. split; [done|]. split; [done|].
  set (b' := balance L' (instance_account i) d) in *. clearbody b'.
  split; [nia|]. split; [nia|]. split; [intros Heq; specialize (Hno Heq); lia|].
  exists s'', L''. split; [done|]. split; [apply Hs''|]. split; [congruence|]. split; [|lia].
  by replace (b - x)%N with b' by lia.
Qed.
End claims_.
End PaymentClaims.
