(* ===== verification/ConcreteMarket.v ===== *)
(** The ROFL market on the concrete platform: alice offers machines, and instances of them are rented and paid. *)
From S2P Require Import Prelude Endian Storage StoreIter Types Fee Errors State Current Concrete Transactions Module Tables.
From S2P Require Import CallFormat Core Gas ConcreteCore Accounts Ledger Accounting Disbursement Moves ConcreteAccounts.
From S2P Require Import Dispatcher Dispatch Subcall ConcreteDispatch Rofl Market MarketTables MarketWp MarketInv.
From S2P Require Import MarketHandlers MarketPay.

#[local] Existing Instances toy_platform toy_mkvs_laws toy_codec toy_core_codec toy_core_config toy_accounts_codec
  toy_accounts_laws Confidential.toy_call_crypto toy_dispatch_codec.

(** * Encodings *)

#[local] Instance payment_address_eq_dec : EqDecision PaymentAddress.
Proof. solve_decision. Defined.
#[local] Instance payment_address_countable : Countable PaymentAddress.
Proof.
  apply (inj_countable' (λ a, match a with PaNative x => inl x | PaEth x => inr x end)
    (λ a, match a with inl x => PaNative x | inr x => PaEth x end)). by intros [].
Defined.
#[local] Instance payment_eq_dec : EqDecision Payment.
Proof. solve_decision. Defined.
#[local] Instance payment_countable : Countable Payment.
Proof.
  apply (inj_countable' (λ p, match p with PayNative d t => inl (d, t) | PayEvmContract a b => inr (a, b) end)
    (λ p, match p with inl (d, t) => PayNative d t | inr (a, b) => PayEvmContract a b end)). by intros [].
Defined.
#[local] Instance resources_eq_dec : EqDecision Resources.
Proof. assert (EqDecision TeeType) by solve_decision. assert (EqDecision GpuResource) by solve_decision. solve_decision. Defined.
#[local] Instance resources_countable : Countable Resources.
Proof.
  apply (inj_countable' (λ r, ((match rs_tee r with SGX => true | TDX => false end, rs_memory r), (rs_cpus r, rs_storage r),
      (λ g, (gpu_model g, gpu_count g)) <$> rs_gpu r))
    (λ x, {| rs_tee := if x.1.1.1 then SGX else TDX; rs_memory := x.1.1.2; rs_cpus := x.1.2.1; rs_storage := x.1.2.2;
             rs_gpu := (λ g, {| gpu_model := g.1; gpu_count := g.2 |}) <$> x.2 |})). by intros [[] ? ? ? [[]|]].
Defined.
#[local] Instance deployment_eq_dec : EqDecision Deployment.
Proof. solve_decision. Defined.
#[local] Instance deployment_countable : Countable Deployment.
Proof.
  apply (inj_countable' (λ d, (dp_app_id d, dp_manifest_hash d, dp_metadata d))
    (λ x, {| dp_app_id := x.1.1; dp_manifest_hash := x.1.2; dp_metadata := x.2 |})). by intros [].
Defined.
#[local] Instance status_countable : Countable InstanceStatus.
Proof.
  apply (inj_countable' (λ s, match s with Created => 0 | Accepted => 1 | Cancelled => 2 end%nat)
    (λ n, match n with O => Created | S O => Accepted | _ => Cancelled end)). by intros [].
Defined.

(** Records are encoded as the lists of their fields. *)
#[local] Instance offer_eq_dec : EqDecision Offer.
Proof. solve_decision. Defined.
#[local] Instance offer_countable : Countable Offer.
Proof.
  apply (inj_countable (λ o, [encode (of_id o); encode (of_resources o); encode (of_payment o); encode (of_capacity o);
      encode (of_metadata o)])
    (λ l, match l with
          | [p1; p2; p3; p4; p5] =>
              x1 ← decode p1; x2 ← decode p2; x3 ← decode p3; x4 ← decode p4; x5 ← decode p5;
              Some {| of_id := x1; of_resources := x2; of_payment := x3; of_capacity := x4; of_metadata := x5 |}
          | _ => None end)).
  intros []. simpl. by repeat (rewrite decode_encode; simpl).
Defined.
#[local] Instance provider_eq_dec : EqDecision Provider.
Proof. solve_decision. Defined.
#[local] Instance provider_countable : Countable Provider.
Proof.
  apply (inj_countable (λ p, [encode (pr_address p); encode (pr_nodes p); encode (pr_scheduler_app p);
      encode (pr_payment_address p); encode (pr_metadata p); encode (amount (pr_stake p)); encode (denomination (pr_stake p));
      encode (offers_next_id p); encode (offers_count p); encode (instances_next_id p); encode (instances_count p);
      encode (pr_created_at p); encode (pr_updated_at p)])
    (λ l, match l with
          | [p1; p2; p3; p4; p5; p6; p7; p8; p9; p10; p11; p12; p13] =>
              x1 ← decode p1; x2 ← decode p2; x3 ← decode p3; x4 ← decode p4; x5 ← decode p5; x6 ← decode p6; x7 ← decode p7;
              x8 ← decode p8; x9 ← decode p9; x10 ← decode p10; x11 ← decode p11; x12 ← decode p12; x13 ← decode p13;
              Some {| pr_address := x1; pr_nodes := x2; pr_scheduler_app := x3; pr_payment_address := x4; pr_metadata := x5;
                      pr_stake := BaseUnits_new x6 x7; offers_next_id := x8; offers_count := x9; instances_next_id := x10;
                      instances_count := x11; pr_created_at := x12; pr_updated_at := x13 |}
          | _ => None end)).
  intros [? ? ? ? ? []]. simpl. by repeat (rewrite decode_encode; simpl).
Defined.
#[local] Instance instance_eq_dec : EqDecision MarketInstance.
Proof. solve_decision. Defined.
#[local] Instance instance_countable : Countable MarketInstance.
Proof.
  apply (inj_countable (λ i, [encode (in_provider i); encode (in_id i); encode (in_offer i); encode (in_status i);
      encode (in_creator i); encode (in_admin i); encode (in_node_id i); encode (in_metadata i); encode (in_resources i);
      encode (in_deployment i); encode (in_created_at i); encode (in_updated_at i); encode (in_paid_from i);
      encode (in_paid_until i); encode (in_payment i); encode (in_payment_address i); encode (in_refund_data i);
      encode (in_cmd_next_id i); encode (in_cmd_count i)])
    (λ l, match l with
          | [p1; p2; p3; p4; p5; p6; p7; p8; p9; p10; p11; p12; p13; p14; p15; p16; p17; p18; p19] =>
              x1 ← decode p1; x2 ← decode p2; x3 ← decode p3; x4 ← decode p4; x5 ← decode p5; x6 ← decode p6; x7 ← decode p7;
              x8 ← decode p8; x9 ← decode p9; x10 ← decode p10; x11 ← decode p11; x12 ← decode p12; x13 ← decode p13;
              x14 ← decode p14; x15 ← decode p15; x16 ← decode p16; x17 ← decode p17; x18 ← decode p18; x19 ← decode p19;
              Some {| in_provider := x1; in_id := x2; in_offer := x3; in_status := x4; in_creator := x5; in_admin := x6;
                      in_node_id := x7; in_metadata := x8; in_resources := x9; in_deployment := x10; in_created_at := x11;
                      in_updated_at := x12; in_paid_from := x13; in_paid_until := x14; in_payment := x15;
                      in_payment_address := x16; in_refund_data := x17; in_cmd_next_id := x18; in_cmd_count := x19 |}
          | _ => None end)).
  intros []. simpl. by repeat (rewrite decode_encode; simpl).
Defined.

#[local] Instance fits64_dec n : Decision (fits64 n) := _.
#[local] Instance payment_fits_dec p : Decision (payment_fits p).
Proof. destruct p; apply _. Defined.
#[local] Instance resources_fit_dec r : Decision (resources_fit r).
Proof. unfold resources_fit. destruct (rs_gpu r); simpl; apply _. Defined.
#[local] Instance offer_fits_dec o : Decision (offer_fits o).
Proof. unfold offer_fits. apply _. Defined.
#[local] Instance provider_fits_dec p : Decision (provider_fits p).
Proof. unfold provider_fits. apply _. Defined.
#[local] Instance instance_fits_dec i : Decision (instance_fits i).
Proof. unfold instance_fits. apply _. Defined.

#[local] Instance toy_market_codec : MarketCodec := {|
  mk_parameters_cbor := const_cbor tt;
  mk_provider_cbor := toy_cbor provider_fits;
  mk_offer_cbor := toy_cbor offer_fits;
  mk_instance_cbor := toy_cbor instance_fits;
  mk_command_cbor := toy_cbor (λ _, True);
  mk_event_value e := bits (encode (market_event_code e));
  evm_call_value _ data := data;
|}.
Lemma toy_digest_address (a : Address) : raw (toy_digest [raw a]) = reverse (raw a) ++ replicate 11 x00.
Proof.
  unfold toy_digest, raw. destruct a as [b Hb]. simpl. rewrite app_nil_r. unfold bytes_n_of.
  assert (Hl : length (reverse b) = 21%nat) by (rewrite length_reverse; exact Hb).
  rewrite take_app_ge by lia. rewrite Hl. simpl take. destruct (decide _) as [Hg|Hg]; [done|]. exfalso. apply Hg.
  rewrite length_app, Hl. done.
Qed.
#[local] Instance toy_market_laws : MarketLaws.
Proof.
  split; [apply toy_cbor_laws|done|apply toy_cbor_laws|done|apply toy_cbor_laws|done|apply toy_cbor_laws|done|].
  intros a b. unfold provider_key, digest_bytes. simpl. rewrite !toy_digest_address.
  intros [Heq%(inj reverse) _]%app_inj_1; [|unfold raw; rewrite !length_reverse, (proj2_sig a), (proj2_sig b); done].
  by apply bytes_n_eq.
Qed.

#[local] Instance toy_market_config : MarketConfig := {|
  GAS_COST_CALL_PROVIDER_CREATE := 1; GAS_COST_CALL_PROVIDER_UPDATE := 1; GAS_COST_CALL_PROVIDER_UPDATE_OFFERS_BASE := 1;
  GAS_COST_CALL_PROVIDER_UPDATE_OFFERS_ADD := 1; GAS_COST_CALL_PROVIDER_UPDATE_OFFERS_RM := 1;
  GAS_COST_CALL_PROVIDER_REMOVE := 1; GAS_COST_CALL_INSTANCE_CREATE := 1; GAS_COST_CALL_INSTANCE_CHANGE_ADMIN := 1;
  GAS_COST_CALL_INSTANCE_ACCEPT_BASE := 1; GAS_COST_CALL_INSTANCE_ACCEPT_INSTANCE := 1; GAS_COST_CALL_INSTANCE_TOPUP := 1;
  GAS_COST_CALL_INSTANCE_UPDATE_BASE := 1; GAS_COST_CALL_INSTANCE_UPDATE_INST := 1; GAS_COST_CALL_INSTANCE_CANCEL := 1;
  GAS_COST_CALL_INSTANCE_REMOVE := 1; GAS_COST_CALL_INSTANCE_EXECUTE_CMDS_BASE := 1;
  GAS_COST_CALL_INSTANCE_EXECUTE_CMDS_CMD := 1; GAS_COST_CALL_INSTANCE_CLAIM_PAYMENT_BASE := 1;
  GAS_COST_CALL_INSTANCE_CLAIM_PAYMENT_INST := 1; MAX_INSTANCE_ACCEPT_TIME_SECONDS := 300; MAX_PROVIDER_OFFERS := 64;
  MAX_QUEUED_INSTANCE_COMMANDS := 8; MAX_INSTANCE_COMMAND_SIZE := 16384; MAX_METADATA_PAIRS := 64;
  MAX_METADATA_KEY_SIZE := 1024; MAX_METADATA_VALUE_SIZE := 16384; STAKE_PROVIDER_CREATE := base_units_native 0;
|}.
#[local] Instance toy_market_bounds : MarketBounds.
Proof. by split; apply N.leb_le. Qed.
#[local] Instance toy_market_crypto : MarketCrypto := {|
  keccak256 b := toy_digest [b];
  encode_rmp_pay _ _ _ _ data := data; encode_rmp_refund _ data := data; encode_rmp_claim _ _ _ _ data := data;
|}.
Definition toy_node : bytes := [x07].
#[local] Instance toy_rofl : RoflAPI := {|
  rofl_get_origin_registration E app := mret (M := M E) (Some {| reg_app := app; reg_node_id := toy_node; reg_entity_id := None;
    reg_rak := []; reg_rek := []; reg_expiration := 9; reg_extra_keys := []; reg_metadata := ∅ |});
|}.
#[local] Instance toy_rofl_reads : RoflReads.
Proof. split. intros app. by apply leaves_read. Qed.

(** A runtime whose other modules do nothing. *)
Definition idle_runtime : Runtime := {|
  rt_modules := compose [default_handlers];
  rt_init_or_migrate _ v := mret (false, v);
  rt_migrate_state _ := mret tt;
  STATE_VERSION := 0; PREFETCH_LIMIT := 0; SCHEDULE_CONTROL := schedule_control_default;
  rt_is_allowed_query _ := true; rt_is_allowed_private_km_query _ := false;
|}.
Definition idle (_ : SubcallStack) : Runtime := idle_runtime.
#[local] Instance idle_framed stack : FramedRuntime (idle stack).
Proof.
  split; [|intros; apply framed_ret..]. apply compose_framed. constructor; [|constructor]. apply default_handlers_framed.
Qed.
Lemma idle_neutral stack' ctx call :
  forbid_reentrancy ∈ stack' → not_market call = true → neutral (subcall_body (idle stack') ctx call).
Proof.
  intros _ _. apply (leaves_confined market_prefix accounts_prefix); [done| |]; [by apply framed_subcall_body, idle_framed|].
  unfold subcall_body, dispatch_tx_call, dispatch_tx_call_. simpl. unfold decode_call, decode_call_ex, verify_epoch, remaining_tx_gas, remaining_batch_gas,
    used_batch_gas, max_batch_gas, core_params. solve_confined.
Qed.

(** * Renting *)

Definition toy_offer : Offer :=
  {| of_id := 0; of_resources := {| rs_tee := TDX; rs_memory := 512; rs_cpus := 2; rs_storage := 0; rs_gpu := None |};
     of_payment := PayNative NATIVE {[ Hour := 0%N ]}; of_capacity := 3; of_metadata := ∅ |}.
Definition toy_create : MarketCall := CallProviderCreate
  {| pc_nodes := [toy_node]; pc_scheduler_app := app_id_default; pc_payment_address := PaNative bob;
     pc_offers := [toy_offer]; pc_metadata := ∅ |}.
Definition toy_rent : MarketCall := CallInstanceCreate
  {| ic_provider := alice; ic_offer := 0; ic_admin := None; ic_deployment := None; ic_term := Hour; ic_term_count := 2 |}.
Definition toy_run (c : MarketCall) (s : State) : State := (market_call idle [] toy_core_ctx c s).2.
Definition toy_market : Market := {| providers := ∅; offers := ∅; instances := ∅; commands := ∅ |}.

Lemma toy_market_of : market_of toy_tx_state toy_market.
Proof.
  assert (Hat : ∀ T k, at_key toy_tx_state ((market_prefix ++ T) ++ k) = None).
  { intros T k. unfold at_key, toy_tx_state, toy_root. simpl. apply lookup_singleton_ne. done. }
  split; [apply toy_tx_ready|apply table_empty, Hat..].
Qed.
Lemma toy_market_coherent : coherent toy_market.
Proof. split; simpl; intros; by match goal with Hk : ∅ !! _ = Some _ |- _ => rewrite lookup_empty in Hk end. Qed.

(** The calls succeed. *)
Lemma toy_create_ok : market_call idle [] toy_core_ctx toy_create toy_tx_state = (Ok tt, toy_run toy_create toy_tx_state).
Proof. unfold toy_run. apply run_ok. vm_compute. reflexivity. Qed.
Lemma toy_rent_ok :
  market_call idle [] toy_core_ctx toy_rent (toy_run toy_create toy_tx_state)
    = (Ok tt, toy_run toy_rent (toy_run toy_create toy_tx_state)).
Proof. unfold toy_run. apply run_ok. vm_compute. reflexivity. Qed.

Lemma toy_rent_room Mk : market_of (toy_run toy_create toy_tx_state) Mk → call_room toy_rent Mk.
Proof.
  intros Hm p Hp. pose proof (get_provider_run (E := MarketError) _ _ alice Hm) as Hrun. cbn [ic_provider] in Hp. rewrite Hp in Hrun.
  assert (Hn : match (get_provider (E := MarketError) alice (toy_run toy_create toy_tx_state)).1 with
               | Ok (Some p) => instances_next_id p | _ => 1%N end = 0%N) by (vm_compute; reflexivity).
  rewrite Hrun in Hn. cbn [fst] in Hn. rewrite Hn. by apply N.leb_le.
Qed.
Lemma toy_steps : rtc (market_step idle []) toy_tx_state (toy_run toy_rent (toy_run toy_create toy_tx_state)).
Proof.
  apply rtc_l with (toy_run toy_create toy_tx_state).
  - apply (step_market idle [] toy_core_ctx toy_create); [by apply N.leb_le| |done|exact toy_create_ok].
    simpl. constructor; [|constructor]. by apply (bool_decide_unpack _); vm_compute.
  - apply rtc_once, (step_market idle [] toy_core_ctx toy_rent); [by apply N.leb_le|by apply N.leb_le|exact toy_rent_room|exact toy_rent_ok].
Qed.

(** Alice registers as a provider, and rents an instance of her own offer. *)
Lemma market_stays_coherent_witness :
  ∃ Mk', market_of (toy_run toy_rent (toy_run toy_create toy_tx_state)) Mk' ∧ coherent Mk'.
Proof.
  exact (MarketClaims.market_stays_coherent idle [] toy_tx_state _ toy_market idle_neutral toy_tx_ready toy_market_of
    toy_market_coherent toy_steps).
Defined.

(** * Paying *)

(** An instance that is paid 1001 for 2000 seconds. *)
Definition toy_instance : MarketInstance :=
  {| in_provider := alice; in_id := 0; in_offer := 0; in_status := Accepted; in_creator := alice; in_admin := alice;
     in_node_id := None; in_metadata := ∅; in_resources := of_resources toy_offer; in_deployment := None; in_created_at := 1000;
     in_updated_at := 1000; in_paid_from := 1000; in_paid_until := 3000; in_payment := of_payment toy_offer;
     in_payment_address := generate_address alice 0; in_refund_data := []; in_cmd_next_id := 0; in_cmd_count := 0 |}.
Definition toy_provider : Provider :=
  {| pr_address := alice; pr_nodes := []; pr_scheduler_app := app_id_default; pr_payment_address := PaNative bob;
     pr_metadata := ∅; pr_stake := base_units_native 0; offers_next_id := 1; offers_count := 1; instances_next_id := 1;
     instances_count := 1; pr_created_at := 1000; pr_updated_at := 1000 |}.
Definition paid_state : State :=
  (typed_insert (E := Empty_set) supplies_ref (denom_bytes NATIVE) 1001%N
     (put_balance (instance_account toy_instance) 1001 toy_empty_state)).2.
Definition paid_ledger : Ledger := set_supply NATIVE 1001 (set_bal (instance_account toy_instance, NATIVE) 1001 empty_ledger).

Lemma paid_solvent : solvent paid_state paid_ledger.
Proof.
  unfold paid_state, paid_ledger. generalize (instance_account toy_instance). intros a.
  destruct (put_supply_run (E := Empty_set) (put_balance a 1001 toy_empty_state) _ NATIVE 1001
    (put_balance_ledger _ _ a 1001 empty_ledger_of ltac:(done)) ltac:(done)) as (s' & Hrun & [st ->] & Hl). rewrite Hrun. cbn [snd].
  split; [done|]. split.
  - intros d. change (total (set_supply NATIVE 1001 ?L) d) with (total L d).
    pose proof (total_set_bal empty_ledger a NATIVE 1001 d) as H1.
    assert (total empty_ledger d = 0%N) as H3 by done. assert (balance empty_ledger a NATIVE = 0%N) as H4 by done.
    unfold supply_of, set_supply. simpl. rewrite lookup_insert. case_decide; simpl; lia.
  - cbn [st_env set_store]. unfold put_balance.
    by destruct (put_bal_run (E := Empty_set) toy_empty_state _ a NATIVE 1001%N empty_ledger_of ltac:(done)) as (s1 & -> & [st1 ->] & _).
Qed.
Definition toy_at (now : N) : Ctx :=
  {| ctx_local_config := ∅; ctx_key_manager := None; ctx_round := 1; ctx_epoch := 4; ctx_good_compute_entities := [];
     ctx_bad_compute_entities := []; ctx_messages := []; ctx_max_messages := 2; ctx_now := now |}.

(** Three quarters of the time have passed in two claims. *)
Lemma payments_are_pro_rata_witness :
  ∃ s' x, claims idle [] (PayNative NATIVE ∅) toy_provider [toy_at 1500; toy_at 2500] toy_instance paid_state
      = (Ok (set_paid_from 2500 toy_instance), s') ∧ (748 ≤ x ≤ 750)%N.
Proof.
  assert (Hb : balance paid_ledger (instance_account toy_instance) NATIVE = 1001%N) by (vm_compute; reflexivity).
  destruct (PaymentClaims.payments_are_pro_rata idle [] paid_state paid_ledger NATIVE ∅ toy_provider [toy_at 1500; toy_at 2500]
    (toy_at 2600) toy_instance paid_solvent eq_refl) as (s' & L' & t & x & Hrun & Ht & _ & _ & Hle & Hge & _).
  - by apply N.ltb_lt.
  - by repeat split; apply N.leb_le.
  - rewrite Hb. by apply N.leb_le.
  - apply (bool_decide_unpack _). vm_compute. done.
  - apply (bool_decide_unpack _). vm_compute. done.
  - assert (t = 2500%N) as -> by (rewrite Ht; vm_compute; reflexivity). exists s', x. split; [exact Hrun|].
    rewrite Hb in Hle, Hge. unfold len in Hge. simpl in Hle, Hge. lia.
Defined.
