(* ===== verification/RoflTables.v ===== *)
(** The tables of the ROFL module as finite maps, and what its operations do to them
    (src/runtime-sdk/src/modules/rofl/state.rs). *)
From S2P Require Import Prelude Endian Storage StoreIter Types Fee Errors State Current Transactions Module Tables CallFormat.
From S2P Require Import Core Accounts Rofl.

(** * The abstract registry *)

(** The expiration queue has no values: its entries are empty. *)
Inductive Mark := Queued.
#[export] Instance mark_cbor : Cbor Mark := {
  to_vec _ := []; from_slice b := if bool_decide (b = []) then Some Queued else None; encodable _ := True;
}.
#[export] Instance mark_roundtrip : CborRoundtrip Mark.
Proof. by intros []. Qed.

Section registry.
Context `{RoflPlatform}.
Record Registry := {
  apps : gmap AppId AppConfig;
  regs : gmap (AppId * Hash) Registration;
  endorsers : gmap Hash StoredEndorsement;
  queue : gmap (N * AppId * Hash) Mark;
}.
Definition put_app (cfg : AppConfig) (g : Registry) : Registry :=
  {| apps := <[app_id cfg := cfg]> (apps g); regs := regs g; endorsers := endorsers g; queue := queue g |}.
Definition del_app (id : AppId) (g : Registry) : Registry :=
  {| apps := delete id (apps g); regs := regs g; endorsers := endorsers g; queue := queue g |}.
Definition put_reg (h : Hash) (r : Registration) (g : Registry) : Registry :=
  {| apps := apps g; regs := <[(reg_app r, h) := r]> (regs g); endorsers := endorsers g; queue := queue g |}.
Definition del_reg (app : AppId) (h : Hash) (g : Registry) : Registry :=
  {| apps := apps g; regs := delete (app, h) (regs g); endorsers := endorsers g; queue := queue g |}.
Definition put_endorser (h : Hash) (e : StoredEndorsement) (g : Registry) : Registry :=
  {| apps := apps g; regs := regs g; endorsers := <[h := e]> (endorsers g); queue := queue g |}.
Definition del_endorser (h : Hash) (g : Registry) : Registry :=
  {| apps := apps g; regs := regs g; endorsers := delete h (endorsers g); queue := queue g |}.
Definition enqueue (e : N) (app : AppId) (h : Hash) (g : Registry) : Registry :=
  {| apps := apps g; regs := regs g; endorsers := endorsers g; queue := <[(e, app, h) := Queued]> (queue g) |}.
Definition dequeue (e : N) (app : AppId) (h : Hash) (g : Registry) : Registry :=
  {| apps := apps g; regs := regs g; endorsers := endorsers g; queue := delete (e, app, h) (queue g) |}.
End registry.

(** The fields of what is stored are within their widths. *)
Definition policy_fits `{RoflPlatform} (p : AppAuthPolicy) : Prop := fits64 (max_expiration p).
Definition app_fits `{RoflPlatform} (cfg : AppConfig) : Prop := (amount (app_stake cfg) ≤ u128_max)%N ∧ policy_fits (app_policy cfg).
Definition registration_fits (r : Registration) : Prop := fits64 (reg_expiration r).

(** What is assumed of the encodings. *)
Class RoflLaws `{Platform, !RoflPlatform, !RoflCodec} : Prop := {
  rf_app_laws :: CborLaws AppConfig;
  app_encodable (cfg : AppConfig) : app_fits cfg → encodable cfg;
  rf_registration_laws :: CborLaws Registration;
  registration_encodable (r : Registration) : registration_fits r → encodable r;
  rf_endorsement_laws :: CborLaws StoredEndorsement;
  endorsement_encodable (e : StoredEndorsement) : encodable e;
}.

Definition reg_key (x : AppId * Hash) : bytes := raw x.1 ++ raw x.2.
Definition queue_key (x : N * AppId * Hash) : bytes := expiration_key x.1.1 x.1.2 x.2.
Definition queue_valid (x : N * AppId * Hash) : Prop := fits64 x.1.1.
Lemma reg_key_inj x y : True → True → reg_key x = reg_key y → x = y.
Proof.
  destruct x as [a h], y as [b k]. unfold reg_key. simpl. intros _ _ Heq.
  apply app_inj_1 in Heq as [Ha Hh]; [|unfold raw; by rewrite (proj2_sig a), (proj2_sig b)].
  f_equal; by apply bytes_n_eq.
Qed.
Lemma queue_key_inj x y : queue_valid x → queue_valid y → queue_key x = queue_key y → x = y.
Proof.
  destruct x as [[e a] h], y as [[e' a'] h']. unfold queue_key, expiration_key, queue_valid. cbn [fst snd]. intros He He' Heq.
  apply app_inj_1 in Heq as [Hb Hr]; [|unfold be_bytes64; by rewrite !be_bytes_length].
  apply be_bytes64_inj in Hb as ->; [|done..]. by apply (reg_key_inj (a, h) (a', h')) in Hr as [= -> ->].
Qed.
Lemma raw_key_inj {n} (a b : bytes_n n) : True → True → raw a = raw b → a = b.
Proof. intros _ _. apply bytes_n_eq. Qed.

Section refinement.
Context `{Platform} `{!MKVSLaws} `{!RoflPlatform} `{!RoflCodec} `{!RoflLaws}.

Definition rofl_prefix : bytes := str ROFL_MODULE_NAME.

Record rofl_of (s : State) (g : Registry) : Prop := {
  ro_writable : writable s;
  ro_apps : table (rofl_prefix ++ APPS) raw (λ _, True) (apps g) s;
  ro_regs : table (rofl_prefix ++ REGISTRATIONS) reg_key (λ _, True) (regs g) s;
  ro_endorsers : table (rofl_prefix ++ ENDORSERS) raw (λ _, True) (endorsers g) s;
  ro_queue : table (rofl_prefix ++ EXPIRATION_QUEUE) queue_key queue_valid (queue g) s;
}.
Lemma same_rofl_of s s' g : same_below rofl_prefix s s' → rofl_of s g → rofl_of s' g.
Proof.
  intros (Hw & Hk) [_ Ha Hr He Hq].
  split; [done|eapply table_ext; [|done]; intros b; rewrite <-!app_assoc; apply Hk..].
Qed.
#[export] Instance rofl_view : View Registry := {
  shows := rofl_of; view_prefix := rofl_prefix; view_same := same_rofl_of;
}.

(** ** Reading and writing *)

Ltac table_tac := first [done | eapply other_table_below; [eassumption|reflexivity|reflexivity|eassumption]].
Ltac written :=
  let s' := fresh "s" in let Hrun := fresh in
  match goal with H : ∃ s', _ |- _ => destruct H as (s' & Hrun & ? & ? & ? & ?) end;
  exists s'; split; [exact Hrun|split; table_tac].

Lemma get_app_run {E} s g id : rofl_of s g → get_app (E := E) id s = (Ok (apps g !! id), s).
Proof. intros Hg. by apply (table_get_run _ _ _ _ _ _ _ _ (ro_apps _ _ Hg) (ro_writable _ _ Hg)). Qed.
Lemma set_app_run {E} s g cfg :
  rofl_of s g → app_fits cfg → ∃ s', set_app (E := E) cfg s = (Ok tt, s') ∧ rofl_of s' (put_app cfg g).
Proof.
  intros [Hw Ha Hr He Hq] Hfit.
  pose proof (table_insert_run (E := E) _ _ _ raw_key_inj _ s apps_ref _ (app_id cfg) cfg Ha Hw I (app_encodable cfg Hfit) eq_refl).
  written.
Qed.
Lemma remove_app_run {E} s g id : rofl_of s g → ∃ s', remove_app (E := E) id s = (Ok tt, s') ∧ rofl_of s' (del_app id g).
Proof.
  intros [Hw Ha Hr He Hq]. pose proof (table_remove_run (E := E) _ _ _ raw_key_inj _ s apps_ref _ id Ha Hw I eq_refl). written.
Qed.
Lemma get_registration_run {E} s g app h :
  rofl_of s g → get_registration_hrak (E := E) app h s = (Ok (regs g !! (app, h)), s).
Proof.
  intros Hg. apply (table_get_run _ _ _ _ _ _ _ (app, h) (ro_regs _ _ Hg) (ro_writable _ _ Hg) I).
  unfold reg_key. simpl. by rewrite <-?app_assoc.
Qed.
Lemma put_registration_run {E} s g h r :
  rofl_of s g → registration_fits r →
  ∃ s', typed_insert (E := E) (registrations_ref (reg_app r)) (raw h) r s = (Ok tt, s') ∧ rofl_of s' (put_reg h r g).
Proof.
  intros [Hw Ha Hr He Hq] Hfit.
  pose proof (table_insert_run (E := E) _ _ _ reg_key_inj _ s (registrations_ref (reg_app r)) (raw h) (reg_app r, h) r Hr Hw I
    (registration_encodable r Hfit) eq_refl). written.
Qed.
Lemma del_registration_run {E} s g app h :
  rofl_of s g → ∃ s', typed_remove (E := E) (registrations_ref app) (raw h) s = (Ok tt, s') ∧ rofl_of s' (del_reg app h g).
Proof.
  intros [Hw Ha Hr He Hq].
  pose proof (table_remove_run (E := E) _ _ _ reg_key_inj _ s (registrations_ref app) (raw h) (app, h) Hr Hw I eq_refl). written.
Qed.
Lemma get_endorser_run {E} s g pk :
  rofl_of s g → get_endorser (E := E) pk s = (Ok (endorsement_info <$> endorsers g !! hash_pk pk), s).
Proof.
  intros Hg. unfold get_endorser.
  erewrite bind_ok; [done|]. by apply (table_get_run _ _ _ _ _ _ _ (hash_pk pk) (ro_endorsers _ _ Hg) (ro_writable _ _ Hg)).
Qed.
Lemma put_endorser_run {E} s g h e :
  rofl_of s g → ∃ s', typed_insert (E := E) endorsers_ref (raw h) e s = (Ok tt, s') ∧ rofl_of s' (put_endorser h e g).
Proof.
  intros [Hw Ha Hr He Hq].
  pose proof (table_insert_run (E := E) _ _ _ raw_key_inj _ s endorsers_ref (raw h) h e He Hw I (endorsement_encodable e) eq_refl).
  written.
Qed.
Lemma del_endorser_run {E} s g h :
  rofl_of s g → ∃ s', typed_remove (E := E) endorsers_ref (raw h) s = (Ok tt, s') ∧ rofl_of s' (del_endorser h g).
Proof.
  intros [Hw Ha Hr He Hq]. pose proof (table_remove_run (E := E) _ _ _ raw_key_inj _ s endorsers_ref (raw h) h He Hw I eq_refl).
  written.
Qed.
Lemma enqueue_run {E} s g e app h :
  rofl_of s g → fits64 e → ∃ s', insert_expiration_queue (E := E) e app h s = (Ok tt, s') ∧ rofl_of s' (enqueue e app h g).
Proof.
  intros [Hw Ha Hr He Hq] Hfit.
  pose proof (table_insert_run (E := E) _ _ _ queue_key_inj _ s expirations_ref (expiration_key e app h) (e, app, h) Queued
    Hq Hw Hfit I eq_refl). written.
Qed.
Lemma dequeue_run {E} s g e app h :
  rofl_of s g → fits64 e → ∃ s', remove_expiration_queue (E := E) e app h s = (Ok tt, s') ∧ rofl_of s' (dequeue e app h g).
Proof.
  intros [Hw Ha Hr He Hq] Hfit.
  pose proof (table_remove_run (E := E) _ _ _ queue_key_inj _ s expirations_ref (expiration_key e app h) (e, app, h) Hq Hw Hfit
    eq_refl). written.
Qed.
End refinement.

(** Registrations of ROFL instances as operations on the abstract registry, and the invariant that they keep: every
    endorsed key is vouched for by a live registration, and the queue has exactly the registrations
    (src/runtime-sdk/src/modules/rofl/state.rs). *)

(** * Writing and removing a list of keys *)

Section lists.
Context {K V : Type} `{Countable K}.
Implicit Types m : gmap K V.
Definition put_all (ks : list K) (v : V) (m : gmap K V) : gmap K V := foldl (λ m k, <[k := v]> m) m ks.
Definition del_all (ks : list K) (m : gmap K V) : gmap K V := foldl (λ m k, delete k m) m ks.
Lemma put_all_lookup ks v m k : put_all ks v m !! k = if decide (k ∈ ks) then Some v else m !! k.
Proof.
  revert m. induction ks as [|k' ks IH]; intros m; cbn [put_all del_all foldl].
  { rewrite decide_False; [done|apply not_elem_of_nil]. }
  fold (put_all ks v (<[k' := v]> m)). rewrite IH. destruct (decide (k ∈ ks)) as [Hin|Hin].
  - rewrite decide_True; [done|by right].
  - destruct (decide (k = k')) as [->|Hne]; [rewrite lookup_insert_eq, decide_True; [done|by left]|].
    rewrite lookup_insert_ne, decide_False; [done| |done]. by intros [->|]%elem_of_cons.
Qed.
Lemma del_all_lookup ks m k : del_all ks m !! k = if decide (k ∈ ks) then None else m !! k.
Proof.
  revert m. induction ks as [|k' ks IH]; intros m; cbn [put_all del_all foldl].
  { rewrite decide_False; [done|apply not_elem_of_nil]. }
  fold (del_all ks (delete k' m)). rewrite IH. destruct (decide (k ∈ ks)) as [Hin|Hin].
  - rewrite decide_True; [done|by right].
  - destruct (decide (k = k')) as [->|Hne]; [rewrite lookup_delete_eq, decide_True; [done|by left]|].
    rewrite lookup_delete_ne, decide_False; [done| |done]. by intros [->|]%elem_of_cons.
Qed.
End lists.

(** * Registering and unregistering *)

Section registrations.
Context `{Platform} `{!RoflPlatform}.

Definition rak_endorsement (r : Registration) : StoredEndorsement := Endorsement (for_rak (reg_node_id r) (reg_app r)).
Definition extra_endorsement (r : Registration) : StoredEndorsement :=
  Endorsement (for_extra_key (reg_node_id r) (reg_app r) (reg_rak r)).
Definition extra_hashes (r : Registration) : list Hash := hash_pk <$> reg_extra_keys r.

Definition set_endorsers (m : gmap Hash StoredEndorsement) (g : Registry) : Registry :=
  {| apps := apps g; regs := regs g; endorsers := m; queue := queue g |}.
Definition register (r : Registration) (g : Registry) : Registry :=
  let h := hash_rak (reg_rak r) in
  {| apps := apps g;
     regs := <[(reg_app r, h) := r]> (regs g);
     endorsers := put_all (extra_hashes r) (extra_endorsement r) (<[h := rak_endorsement r]> (endorsers g));
     queue := <[(reg_expiration r, reg_app r, h) := Queued]>
                (match regs g !! (reg_app r, h) with
                 | Some r0 => delete (reg_expiration r0, reg_app r, h) (queue g)
                 | None => queue g
                 end) |}.
Definition unregister (app : AppId) (h : Hash) (g : Registry) : Registry :=
  match regs g !! (app, h) with
  | None => g
  | Some r =>
      {| apps := apps g;
         regs := delete (app, h) (regs g);
         endorsers := del_all (extra_hashes r) (delete h (endorsers g));
         queue := delete (reg_expiration r, reg_app r, h) (queue g) |}
  end.

(** A registration vouches for its attestation key and for its extra keys. *)
Definition vouches (r : Registration) (h : Hash) (e : StoredEndorsement) : Prop :=
  h = hash_rak (reg_rak r) ∧ e = rak_endorsement r ∨ h ∈ extra_hashes r ∧ e = extra_endorsement r.

Context `{!RoflConfig}.

Record registered (g : Registry) : Prop := {
  rd_app id cfg : apps g !! id = Some cfg → app_id cfg = id ∧ app_fits cfg ∧ policy_validate (app_policy cfg) = inr tt;
  rd_reg app h r : regs g !! (app, h) = Some r →
    reg_app r = app ∧ hash_rak (reg_rak r) = h ∧ registration_fits r ∧ is_Some (queue g !! (reg_expiration r, app, h));
  rd_queue e app h : is_Some (queue g !! (e, app, h)) → ∃ r, regs g !! (app, h) = Some r ∧ reg_expiration r = e;
  rd_endorser h e : endorsers g !! h = Some e → ∃ r, regs g !! (reg_app r, hash_rak (reg_rak r)) = Some r ∧ vouches r h e;
}.

Lemma vouched_key r h e : vouches r h e → h = hash_rak (reg_rak r) ∨ h ∈ extra_hashes r.
Proof. intros [[? _]|[? _]]; auto. Qed.

Lemma register_registered r g :
  registered g → registration_fits r →
  (∀ r0, regs g !! (reg_app r, hash_rak (reg_rak r)) = Some r0 → reg_extra_keys r0 = reg_extra_keys r) →
  registered (register r g).
Proof.
  intros [Ha Hr Hq He] Hfit Hsame. set (k := (reg_app r, hash_rak (reg_rak r))) in *. split; simpl.
  - apply Ha.
  - intros app h r' Hk. destruct (decide (k = (app, h))) as [Heq|Hne].
    + rewrite <-Heq, lookup_insert_eq in Hk. injection Hk as <-. injection Heq as <- <-.
      do 3 (split; [done|]). by rewrite lookup_insert_eq.
    + rewrite lookup_insert_ne in Hk by done. destruct (Hr _ _ _ Hk) as (? & ? & ? & Hin). do 3 (split; [done|]).
      rewrite lookup_insert_ne by (intros [= _ <- <-]; done). case_match; [|done].
      by rewrite lookup_delete_ne by (intros [= _ <- <-]; done).
  - intros e app h Hin. destruct (decide (k = (app, h))) as [Heq|Hne].
    + exists r. rewrite <-Heq, lookup_insert_eq. split; [done|]. injection Heq as <- <-.
      destruct (decide (reg_expiration r = e)) as [|Hexp]; [done|exfalso].
      rewrite lookup_insert_ne in Hin by congruence. fold k in Hin. destruct (regs g !! k) as [r0|] eqn:Hk.
      * apply lookup_delete_is_Some in Hin as [Hne (r1 & Hr1 & <-)%Hq]. fold k in Hr1. rewrite Hk in Hr1. by simplify_eq.
      * apply Hq in Hin as (r1 & Hr1 & _). fold k in Hr1. by rewrite Hk in Hr1.
    + rewrite lookup_insert_ne by done. apply Hq. rewrite lookup_insert_ne in Hin by (intros [= _ <- <-]; done).
      case_match; [|done]. by apply lookup_delete_is_Some in Hin as [_ ?].
  - intros h e. rewrite put_all_lookup. destruct (decide (h ∈ extra_hashes r)) as [Hx|Hx].
    { intros [= <-]. exists r. fold k. rewrite lookup_insert_eq. split; [done|by right]. }
    destruct (decide (hash_rak (reg_rak r) = h)) as [<-|Hh].
    { rewrite lookup_insert_eq. intros [= <-]. exists r. fold k. rewrite lookup_insert_eq. split; [done|by left]. }
    rewrite lookup_insert_ne by done. intros (r0 & Hr0 & Hv)%He. exists r0. split; [|done].
    rewrite lookup_insert_ne; [done|]. intros Heq. fold k in Heq. rewrite <-Heq in Hr0. pose proof (Hsame r0 Hr0) as Hkeys.
    injection Heq as _ Heq. destruct (vouched_key _ _ _ Hv) as [->|Hin]; [done|]. unfold extra_hashes in *. congruence.
Qed.
Lemma unregister_registered app h g : registered g → registered (unregister app h g).
Proof.
  intros Hg. unfold unregister. destruct (regs g !! (app, h)) as [r|] eqn:Hk; [|done]. destruct Hg as [Ha Hr Hq He].
  destruct (Hr _ _ _ Hk) as (<- & <- & Hfit & _). split; simpl.
  - apply Ha.
  - intros app h r' [Hne Hk']%lookup_delete_Some. destruct (Hr _ _ _ Hk') as (? & ? & ? & Hin). do 3 (split; [done|]).
    rewrite lookup_delete_ne; [done|]. congruence.
  - intros e app h [Hne Hin]%lookup_delete_is_Some. destruct (Hq _ _ _ Hin) as (r' & Hk' & <-). exists r'. split; [|done].
    rewrite lookup_delete_ne; [done|]. intros [= <- <-]. rewrite Hk in Hk'. by simplify_eq.
  - intros h e. rewrite del_all_lookup. destruct (decide (h ∈ extra_hashes r)) as [|Hx]; [done|].
    intros [Hne (r0 & Hr0 & Hv)%He]%lookup_delete_Some. exists r0. split; [|done].
    rewrite lookup_delete_ne; [done|]. intros Heq. rewrite <-Heq, Hk in Hr0. injection Hr0 as <-.
    by destruct (vouched_key _ _ _ Hv) as [->|].
Qed.
Lemma put_app_registered cfg g :
  registered g → app_fits cfg → policy_validate (app_policy cfg) = inr tt → registered (put_app cfg g).
Proof.
  intros [Ha Hr Hq He] Hfit Hp. split; simpl; [|done..]. intros id c. destruct (decide (app_id cfg = id)) as [<-|Hne].
  - rewrite lookup_insert_eq. by intros [= <-].
  - rewrite lookup_insert_ne by done. apply Ha.
Qed.
Lemma del_app_registered id g : registered g → registered (del_app id g).
Proof. intros [Ha Hr Hq He]. split; simpl; [|done..]. intros id' c [_ Hk]%lookup_delete_Some. by apply Ha. Qed.
End registrations.
