(* ===== verification/Expiry.v ===== *)
(** What registering, unregistering and the expiry of registrations do to the tables
    (src/runtime-sdk/src/modules/rofl/state.rs). *)
From S2P Require Import Prelude Endian Storage StoreIter Types Fee Errors State Current Transactions Module Tables CallFormat.
From S2P Require Import Core Accounts Rofl RoflTables.

(** * Registering and unregistering *)

Section runs.
Context `{Platform} `{!MKVSLaws} `{!RoflPlatform} `{!RoflConfig} `{!RoflCodec} `{!RoflLaws}.

Lemma endorse_all_run {E} l e s g m :
  rofl_of s (set_endorsers m g) →
  ∃ s', for_each l (λ pk, typed_insert (E := E) endorsers_ref (raw (hash_pk pk)) e) s = (Ok tt, s') ∧
    rofl_of s' (set_endorsers (put_all (hash_pk <$> l) e m) g).
Proof.
  revert s m. induction l as [|pk l IH]; intros s m Hg; [by exists s|].
  destruct (put_endorser_run (E := E) s _ (hash_pk pk) e Hg) as (s1 & Hrun & Hg1).
  destruct (IH s1 (<[hash_pk pk := e]> m) Hg1) as (s2 & Hrun2 & Hg2). exists s2. cbn [for_each].
  by rewrite (bind_ok _ _ _ _ _ Hrun).
Qed.
Lemma retract_all_run {E} l s g m :
  rofl_of s (set_endorsers m g) →
  ∃ s', for_each l (λ pk, typed_remove (E := E) endorsers_ref (raw (hash_pk pk))) s = (Ok tt, s') ∧
    rofl_of s' (set_endorsers (del_all (hash_pk <$> l) m) g).
Proof.
  revert s m. induction l as [|pk l IH]; intros s m Hg; [by exists s|].
  destruct (del_endorser_run (E := E) s _ (hash_pk pk) Hg) as (s1 & Hrun & Hg1).
  destruct (IH s1 (delete (hash_pk pk) m) Hg1) as (s2 & Hrun2 & Hg2). exists s2. cbn [for_each].
  by rewrite (bind_ok _ _ _ _ _ Hrun).
Qed.

(** A registration is replaced only by one with the same extra keys. *)
Definition replaces (r : Registration) (g : Registry) : Prop :=
  ∀ r0, regs g !! (reg_app r, hash_rak (reg_rak r)) = Some r0 → reg_extra_keys r0 = reg_extra_keys r.

Lemma update_registration_run r s g :
  rofl_of s g → registered g → registration_fits r → replaces r g →
  ∃ s', update_registration r s = (Ok tt, s') ∧ rofl_of s' (register r g).
Proof.
  intros Hg Hd Hfit Hsame. unfold update_registration. set (h := hash_rak (reg_rak r)).
  rewrite (bind_ok _ _ _ _ _ (get_registration_run (E := RoflError) s g (reg_app r) h Hg)).
  set (q := match regs g !! (reg_app r, h) with
            | Some r0 => delete (reg_expiration r0, reg_app r, h) (queue g) | None => queue g end).
  assert (∃ s1, (match regs g !! (reg_app r, h) with
      | Some existing => if bool_decide (reg_extra_keys existing ≠ reg_extra_keys r) then throw ExtraKeyUpdateNotAllowed
                         else remove_expiration_queue (reg_expiration existing) (reg_app r) h
      | None => mret tt end) s = (Ok tt, s1) ∧
    rofl_of s1 {| apps := apps g; regs := regs g; endorsers := endorsers g; queue := q |}) as (s1 & Hrun1 & Hg1).
  { unfold q. destruct (regs g !! (reg_app r, h)) as [r0|] eqn:Hk; [|by exists s; destruct g].
    rewrite bool_decide_eq_false_2 by (intros Hne; by apply Hne, Hsame).
    apply (dequeue_run s g); [done|]. apply (rd_reg _ Hd _ _ _ Hk). }
  rewrite (bind_ok _ _ _ _ _ Hrun1).
  destruct (enqueue_run (E := RoflError) s1 _ (reg_expiration r) (reg_app r) h Hg1 Hfit) as (s2 & Hrun2 & Hg2).
  rewrite (bind_ok _ _ _ _ _ Hrun2).
  destruct (put_endorser_run (E := RoflError) s2 _ h (rak_endorsement r) Hg2) as (s3 & Hrun3 & Hg3).
  rewrite (bind_ok _ _ _ _ _ Hrun3).
  destruct (endorse_all_run (E := RoflError) (reg_extra_keys r) (extra_endorsement r) s3 _ _ Hg3) as (s4 & Hrun4 & Hg4).
  rewrite (bind_ok _ _ _ _ _ Hrun4). exact (put_registration_run (E := RoflError) s4 _ h r Hg4 Hfit).
Qed.
Lemma update_registration_refused r s g r0 :
  rofl_of s g → regs g !! (reg_app r, hash_rak (reg_rak r)) = Some r0 → reg_extra_keys r0 ≠ reg_extra_keys r →
  update_registration r s = (Err ExtraKeyUpdateNotAllowed, s).
Proof.
  intros Hg Hk Hne. unfold update_registration.
  rewrite (bind_ok _ _ _ _ _ (get_registration_run (E := RoflError) s g _ _ Hg)), Hk.
  by rewrite bool_decide_eq_true_2.
Qed.
Lemma remove_registration_run {E} app h s g :
  rofl_of s g → registered g →
  ∃ s', remove_registration_hrak (E := E) app h s = (Ok tt, s') ∧ rofl_of s' (unregister app h g).
Proof.
  intros Hg Hd. unfold remove_registration_hrak, unregister.
  rewrite (bind_ok _ _ _ _ _ (get_registration_run (E := E) s g app h Hg)).
  destruct (regs g !! (app, h)) as [r|] eqn:Hk; [|by exists s].
  assert (Hfit : fits64 (reg_expiration r)) by apply (rd_reg _ Hd _ _ _ Hk).
  destruct (dequeue_run (E := E) s g (reg_expiration r) (reg_app r) h Hg Hfit) as (s1 & Hrun1 & Hg1).
  rewrite (bind_ok _ _ _ _ _ Hrun1).
  destruct (del_endorser_run (E := E) s1 _ h Hg1) as (s2 & Hrun2 & Hg2). rewrite (bind_ok _ _ _ _ _ Hrun2).
  destruct (retract_all_run (E := E) (reg_extra_keys r) s2 _ _ Hg2) as (s3 & Hrun3 & Hg3).
  rewrite (bind_ok _ _ _ _ _ Hrun3). exact (del_registration_run (E := E) s3 _ app h Hg3).
Qed.

(** One after the other. *)
Definition unregister_all (l : list (AppId * Hash)) (g : Registry) : Registry := foldl (λ g x, unregister x.1 x.2 g) g l.
Lemma unregister_all_registered l g : registered g → registered (unregister_all l g).
Proof. revert g. induction l as [|x l IH]; intros g Hd; [done|]. by apply IH, unregister_registered. Qed.
Lemma unregister_regs app h g : regs (unregister app h g) = delete (app, h) (regs g).
Proof. unfold unregister. destruct (regs g !! (app, h)) eqn:Hk; [done|]. by rewrite delete_id. Qed.
Lemma unregister_all_regs l g : regs (unregister_all l g) = del_all l (regs g).
Proof.
  revert g. induction l as [|[app h] l IH]; intros g; [done|]. simpl. fold (unregister_all l (unregister app h g)).
  by rewrite IH, unregister_regs.
Qed.
Lemma unregister_all_apps l g : apps (unregister_all l g) = apps g.
Proof.
  revert g. induction l as [|[app h] l IH]; intros g; [done|]. simpl. fold (unregister_all l (unregister app h g)).
  rewrite IH. unfold unregister. by case_match.
Qed.
Lemma remove_all_run {E} l s g :
  rofl_of s g → registered g →
  ∃ s', for_each l (λ x, remove_registration_hrak (E := E) x.1 x.2) s = (Ok tt, s') ∧ rofl_of s' (unregister_all l g).
Proof.
  revert s g. induction l as [|x l IH]; intros s g Hg Hd; [by exists s|].
  destruct (remove_registration_run (E := E) x.1 x.2 s g Hg Hd) as (s1 & Hrun & Hg1). cbn [for_each].
  rewrite (bind_ok _ _ _ _ _ Hrun). by apply IH; [|apply unregister_registered].
Qed.
End runs.

(** * The queue *)

Lemma list_of_image {A B} (P : A → Prop) (f : A → B) (l : list B) :
  (∀ y, y ∈ l → ∃ x, P x ∧ y = f x) → ∃ l', l = f <$> l' ∧ Forall P l'.
Proof.
  induction l as [|y l IH]; intros Hl; [by exists []|]. destruct (Hl y) as (x & Hx & ->); [by left|].
  destruct IH as (l' & -> & Hall); [intros z Hz; apply Hl; by right|]. exists (x :: l'). by split; [|constructor].
Qed.

(** Entries in the order of the queue. *)
Definition expires_before (x y : N * AppId * Hash) : Prop := bytes_lt (queue_key x) (queue_key y).
Lemma expires_before_epoch x y : queue_valid x → queue_valid y → expires_before x y → (x.1.1 ≤ y.1.1)%N.
Proof. intros Hx Hy. by apply be_bytes64_app_lt. Qed.
Lemma expires_before_nodup l : StronglySorted expires_before l → NoDup l.
Proof.
  induction 1 as [|x l Hs IH Hall]; constructor; [|done]. intros Hx. rewrite Forall_forall in Hall.
  by apply (irreflexivity bytes_lt (queue_key x)), (Hall x).
Qed.
Lemma expiration_entry_key x : queue_valid x → expiration_entry (queue_key x) = inr x.
Proof.
  destruct x as [[e app] h]. unfold queue_valid, queue_key, expiration_entry, expiration_key. cbn [fst snd]. intros He.
  assert (H8 : length (be_bytes64 e) = 8%nat) by (unfold be_bytes64; by rewrite be_bytes_length).
  assert (Ha : length (raw app) = 21%nat) by apply (proj2_sig app). assert (Hh : length (raw h) = 32%nat) by apply (proj2_sig h).
  rewrite !length_app, H8, Ha, Hh. cbn [Nat.eqb Nat.add negb].
  rewrite (drop_app_length' (be_bytes64 e)) by done. rewrite (take_app_length' (raw app)) by done.
  rewrite (take_app_length' (be_bytes64 e)) by done.
  replace (drop 29 _) with (raw h).
  2: { rewrite app_assoc, drop_app_length'; [done|]. by rewrite length_app, H8, Ha. }
  by rewrite !bytes_n_of_proj, from_be_64.
Qed.

Section queue.
Context `{Platform} `{!MKVSLaws} `{!RoflPlatform} `{!RoflConfig} `{!RoflCodec} `{!RoflLaws}.

Definition queue_item (x : N * AppId * Hash) : bytes * bytes := (queue_key x, []).
Lemma queue_list s g :
  rofl_of s g →
  ∃ st L, st_store s = Some st ∧ ref_collect st expirations_ref = Ok (queue_item <$> L) ∧
    StronglySorted expires_before L ∧ ∀ x, x ∈ L ↔ is_Some (queue g !! x).
Proof.
  intros Hg. destruct (ro_writable _ _ Hg) as (st & Hst & Hwf & _). exists st.
  pose proof (ref_collect_below st rofl_store EXPIRATION_QUEUE Hwf) as Hc. fold expirations_ref in Hc.
  set (P := ref_prefix rofl_store ++ EXPIRATION_QUEUE) in *. destruct (ro_queue _ _ Hg) as [Hv Hget Hkeys].
  change (rofl_prefix ++ EXPIRATION_QUEUE) with P in *.
  assert (Hat : ∀ k, at_key s k = get st k) by (intros k; unfold at_key; by rewrite Hst).
  assert (Hmem : ∀ k v, (k, v) ∈ below P (view st) ↔ get st (P ++ k) = Some v).
  { intros k v. by rewrite elem_of_below, view_lookup. }
  destruct (list_of_image (λ x, is_Some (queue g !! x)) queue_item (below P (view st))) as (L & HL & Hall).
  { intros [k v] Hin%Hmem. destruct (Hkeys k) as (x & Hx & ->); [rewrite Hat; by eexists|]. exists x. specialize (Hget x Hx).
    rewrite Hat, Hin in Hget. simpl in Hget. destruct (queue g !! x) as [[]|]; [|done]. simpl in Hget.
    split; [done|]. unfold queue_item. f_equal. by case_bool_decide. }
  rewrite HL in *. exists L. split; [done|]. split; [done|]. pose proof (below_sorted P (view st)) as Hs. rewrite HL in Hs. split.
  - clear -Hs. induction L as [|x L IH]; [constructor|]. rewrite fmap_cons in Hs. apply StronglySorted_cons in Hs as [Hall Hs].
    constructor; [by apply IH|]. rewrite Forall_forall. rewrite Forall_forall in Hall. intros y Hy. apply (Hall (queue_item y)). apply list_elem_of_fmap. by exists y.
  - intros x. rewrite Forall_forall in Hall. split; [apply Hall|].
    intros Hin. pose proof (Hv x Hin) as Hx. specialize (Hget x Hx). destruct Hin as [[] Hin]. rewrite Hin, Hat in Hget.
    destruct (get st _) as [d|] eqn:Hd; [|done]. apply Hmem, list_elem_of_fmap in Hd as (y & Heq%(f_equal fst) & Hy).
    apply queue_key_inj in Heq as ->; [done..|]. by apply Hv, Hall.
Qed.

(** The entries that are due come first. *)
Fixpoint due (epoch : N) (L : list (N * AppId * Hash)) : list (N * AppId * Hash) :=
  match L with [] => [] | x :: L' => if (x.1.1 <=? epoch)%N then x :: due epoch L' else [] end.
Lemma elem_of_due epoch L x :
  StronglySorted expires_before L → (∀ y, y ∈ L → queue_valid y) → x ∈ due epoch L ↔ x ∈ L ∧ (x.1.1 ≤ epoch)%N.
Proof.
  induction 1 as [|y L Hs IH Hall]; intros Hv; simpl; [by split; [intros ?%not_elem_of_nil|intros [?%not_elem_of_nil _]]|].
  rewrite Forall_forall in Hall. destruct (N.leb_spec y.1.1 epoch) as [Hle|Hgt].
  - rewrite !elem_of_cons, IH by (intros z Hz; apply Hv; by right). split; [intros [->|]; tauto|tauto].
  - split; [by intros ?%not_elem_of_nil|]. intros [[->|Hin]%elem_of_cons Hx]; [lia|].
    pose proof (expires_before_epoch y x ltac:(apply Hv; by left) ltac:(apply Hv; by right) (Hall x Hin)). lia.
Qed.
Lemma due_sorted epoch L : StronglySorted expires_before L → StronglySorted expires_before (due epoch L).
Proof.
  induction 1 as [|y L Hs IH Hall]; simpl; [constructor|]. destruct (_ <=? _)%N; [|constructor]. constructor; [done|].
  rewrite Forall_forall in Hall |- *. intros x Hx. apply Hall. clear -Hx. induction L as [|z L IH]; [done|]. simpl in Hx.
  destruct (_ <=? _)%N; [|by apply not_elem_of_nil in Hx]. apply elem_of_cons in Hx as [->|Hx]; [by left|right; auto].
Qed.

Definition queue_name (x : N * AppId * Hash) : AppId * Hash := (x.1.2, x.2).
Lemma take_expired_run {E} epoch limit L s :
  Forall queue_valid L →
  take_expired (E := E) epoch limit (queue_item <$> L) s = (Ok (queue_name <$> take limit (due epoch L)), s).
Proof.
  intros Hv. revert limit. induction Hv as [|x L Hx HL IH]; intros [|limit]; try done.
  rewrite fmap_cons. cbn [take_expired due].
  assert (Hitem : typed_item (E := E) (V := bytes) expiration_entry [] (queue_item x) s = (Ok (x, []), s)).
  { unfold typed_item, queue_item. cbn [fst snd]. rewrite expiration_entry_key by done. by rewrite bool_decide_eq_true_2. }
  rewrite (bind_ok _ _ _ _ _ Hitem). destruct x as [[e app] h]. cbn [fst snd]. destruct (e <=? epoch)%N; [|done].
  by rewrite (bind_ok _ _ _ _ _ (IH limit)).
Qed.
Lemma expire_registrations_run {E} epoch limit s g :
  rofl_of s g → registered g →
  ∃ L s', StronglySorted expires_before L ∧ (∀ x, x ∈ L ↔ is_Some (queue g !! x) ∧ (x.1.1 ≤ epoch)%N) ∧
    expire_registrations (E := E) epoch limit s = (Ok tt, s') ∧ rofl_of s' (unregister_all (queue_name <$> take limit L) g).
Proof.
  intros Hg Hd. destruct (queue_list s g Hg) as (st & L & Hst & Hc & Hs & Hin).
  assert (Hv : ∀ x, x ∈ L → queue_valid x) by (intros x Hx%Hin; by apply (tb_valid _ _ _ _ _ (ro_queue _ _ Hg))).
  destruct (remove_all_run (E := E) (queue_name <$> take limit (due epoch L)) s g Hg Hd) as (s' & Hrun & Hg').
  exists (due epoch L), s'. split; [by apply due_sorted|]. split; [intros x; by rewrite elem_of_due, Hin|]. split; [|done].
  assert (Hstore : store (E := E) s = (Ok st, s)) by (unfold store; run_simpl; by rewrite Hst).
  unfold expire_registrations. rewrite (bind_ok _ _ _ _ _ Hstore), Hc.
  by rewrite (bind_ok _ _ _ _ _ (take_expired_run (E := E) epoch limit L s ltac:(by apply Forall_forall))).
Qed.
(** The entries of the queue that are due name the registrations that are. *)
Section due.
Variables (epoch : N) (g : Registry) (L : list (N * AppId * Hash)).
Hypothesis (Hd : registered g) (Hs : StronglySorted expires_before L).
Hypothesis (Hin : ∀ x, x ∈ L ↔ is_Some (queue g !! x) ∧ (x.1.1 ≤ epoch)%N).

Lemma due_registration x : x ∈ L → ∃ r, regs g !! queue_name x = Some r ∧ reg_expiration r = x.1.1 ∧ (x.1.1 ≤ epoch)%N.
Proof.
  destruct x as [[e app] h]. intros [Hq He]%Hin. destruct (rd_queue _ Hd _ _ _ Hq) as (r & Hr & Hre). by exists r.
Qed.
Lemma due_entry k r : regs g !! k = Some r → (reg_expiration r ≤ epoch)%N → (reg_expiration r, k.1, k.2) ∈ L.
Proof. destruct k as [app h]. intros Hk He. apply Hin. split; [|done]. apply (rd_reg _ Hd _ _ _ Hk). Qed.
Lemma due_nodup : NoDup (queue_name <$> L).
Proof.
  apply NoDup_fmap_2_strong; [|by apply expires_before_nodup]. intros x y Hx Hy Heq.
  destruct (due_registration x Hx) as (r & Hr & Hrx & _), (due_registration y Hy) as (r' & Hr' & Hry & _).
  rewrite Heq, Hr' in Hr. injection Hr as ->.
  destruct x as [[e app] h], y as [[e' app'] h']. simpl in *. injection Heq as -> ->. congruence.
Qed.
Lemma due_size :
  size (filter (λ kr : (AppId * Hash) * Registration, (reg_expiration kr.2 ≤ epoch)%N) (regs g)) = length L.
Proof.
  rewrite <-size_dom, <-(length_fmap queue_name), <-(size_list_to_set (C := gset _)) by apply due_nodup. f_equal.
  apply set_eq. intros k. rewrite elem_of_list_to_set, elem_of_dom, list_elem_of_fmap. split.
  - intros [r [Hr He]%map_lookup_filter_Some]. exists (reg_expiration r, k.1, k.2). split; [by destruct k|by apply due_entry].
  - intros (x & -> & Hx). destruct (due_registration x Hx) as (r & Hr & Hrx & He). exists r.
    apply map_lookup_filter_Some. split; [done|]. simpl. by rewrite Hrx.
Qed.
(** What is taken first expires first. *)
Lemma due_order n x k' r' :
  (∀ y, y ∈ L → queue_valid y) → x ∈ take n L → k' ∉ queue_name <$> take n L → regs g !! k' = Some r' →
  (x.1.1 ≤ reg_expiration r')%N.
Proof.
  intros Hv Hx Hk' Hr'. assert (HxL : x ∈ L) by (rewrite <-(take_drop n L); apply elem_of_app; by left).
  destruct (N.le_gt_cases (reg_expiration r') epoch) as [Hle|Hgt].
  2: { destruct (due_registration x HxL) as (_ & _ & _ & ?). lia. }
  pose proof (due_entry k' r' Hr' Hle) as Hy. set (y := (reg_expiration r', k'.1, k'.2)) in *.
  apply (expires_before_epoch x y); [by apply Hv..|]. assert (Hyd : y ∈ drop n L).
  { rewrite <-(take_drop n L) in Hy. apply elem_of_app in Hy as [Hy|]; [|done]. exfalso. apply Hk', list_elem_of_fmap.
    exists y. split; [by destruct k'|done]. }
  rewrite <-(take_drop n L) in Hs. by apply (StronglySorted_app_1_elem_of _ _ _ _ _ Hs).
Qed.
End due.
End queue.

Module ExpiryClaims.
Section claims.
Context `{Platform} `{!MKVSLaws} `{!RoflPlatform} `{!RoflConfig} `{!RoflCodec} `{!RoflLaws}.

(** Expiry of registrations at the change of an epoch: of the registrations that expire in the epoch or before it,
    as many as the limit allows are removed, those that expire first before the others, and no registration
    that is still valid.  Applications and all other registrations stay as they are, and each of the removed
    ones goes together with its place in the queue and the endorsements of its keys. *)
Theorem expiry_takes_the_oldest {E} epoch limit s g :
  rofl_of s g → registered g →
  ∃ s' g' (gone : gset (AppId * Hash)),
    expire_registrations (E := E) epoch limit s = (Ok tt, s') ∧ rofl_of s' g' ∧ registered g' ∧ apps g' = apps g ∧
    (∀ k, regs g' !! k = if decide (k ∈ gone) then None else regs g !! k) ∧
    size gone = limit `min` size (filter (λ kr : (AppId * Hash) * Registration, (reg_expiration kr.2 ≤ epoch)%N) (regs g)) ∧
    (∀ k, k ∈ gone → ∃ r, regs g !! k = Some r ∧ (reg_expiration r ≤ epoch)%N) ∧
    ∀ k k' r r', k ∈ gone → k' ∉ gone → regs g !! k = Some r → regs g !! k' = Some r' →
      (reg_expiration r ≤ reg_expiration r')%N.
Proof.
  intros Hg Hd. destruct (expire_registrations_run (E := E) epoch limit s g Hg Hd) as (L & s' & Hs & Hin & Hrun & Hg').
  assert (Hv : ∀ x, x ∈ L → queue_valid x) by (intros x [Hx _]%Hin; by apply (tb_valid _ _ _ _ _ (ro_queue _ _ Hg))).
  exists s', (unregister_all (queue_name <$> take limit L) g), (list_to_set (queue_name <$> take limit L)).
  split; [done|]. split; [done|]. split; [by apply unregister_all_registered|]. split; [apply unregister_all_apps|]. split.
  { intros k. rewrite unregister_all_regs, del_all_lookup. apply decide_ext. by rewrite elem_of_list_to_set. }
  assert (Hgone : ∀ k, k ∈ (list_to_set (queue_name <$> take limit L) : gset (AppId * Hash)) →
    ∃ x r, k = queue_name x ∧ x ∈ take limit L ∧ regs g !! k = Some r ∧ reg_expiration r = x.1.1 ∧ (x.1.1 ≤ epoch)%N).
  { intros k (x & -> & Hx)%elem_of_list_to_set%list_elem_of_fmap.
    destruct (due_registration epoch g L Hd Hin x) as (r & ? & ? & ?); [|by exists x, r].
    rewrite <-(take_drop limit L). apply elem_of_app. by left. }
  split; [|split].
  - rewrite size_list_to_set, length_fmap, length_take, (due_size epoch g L Hd Hs Hin); [done|].
    pose proof (due_nodup epoch g L Hd Hs Hin) as Hnd. rewrite <-(take_drop limit L), fmap_app in Hnd. by apply NoDup_app in Hnd as [? _].
  - intros k (x & r & _ & _ & Hr & <- & He)%Hgone. by exists r.
  - intros k k' r r' (x & r0 & _ & Hx & Hr0 & Hre & _)%Hgone Hk' Hr Hr'. rewrite Hr in Hr0. injection Hr0 as <-.
    rewrite elem_of_list_to_set in Hk'. rewrite Hre. by apply (due_order epoch g L Hd Hs Hin limit x k' r').
Qed.
End claims.
End ExpiryClaims.
