(* ===== verification/RoflSafety.v ===== *)
(** The ROFL module as a state machine: its calls and the end of its blocks keep the registry in order
    (src/runtime-sdk/src/modules/rofl/mod.rs). *)
From S2P Require Import Prelude Endian Storage StoreIter Types Fee Errors State Current Transactions Module Tables CallFormat.
From S2P Require Import Core Gas Accounts Ledger Accounting Disbursement Moves Rofl RoflTables Expiry.

(** The parameters of the module are within their widths, and the evaluator of policies only reads. *)
Class RoflBounds `{RoflConfig} : Prop := {
  app_stake_fits : (amount STAKE_APP_CREATE ≤ u128_max)%N;
  max_policy_expiration_fits : fits64 MAX_POLICY_EXPIRATION_EPOCHS;
  evaluator_reads ctx a ect id node metadata s : (verify_atom ctx a ect id node metadata s).2 = s;
}.

Section policies.
Context `{Platform} `{!RoflPlatform} `{!RoflConfig} `{!RoflBounds}.

Lemma policy_validate_fits p : policy_validate p = inr tt → policy_fits p.
Proof.
  unfold policy_validate, policy_fits. destruct (count_endorsement_atoms _ _); [done|]. case_match; [done|].
  destruct (N.ltb_spec MAX_POLICY_EXPIRATION_EPOCHS (max_expiration p)); [done|]. intros _.
  pose proof max_policy_expiration_fits. unfold fits64 in *. lia.
Qed.
Lemma verify_atoms_reads ctx op l ect id node metadata n s : (verify_atoms ctx op l ect id node metadata n s).2 = s.
Proof.
  revert op l s. induction n as [|n IH]; intros op l s; [done|]. cbn [verify_atoms].
  induction l as [|a l IHl]; [by destruct op|]. unfold mbind, ST_bind, try_.
  match goal with |- context [?m s] => assert (Hm : (m s).2 = s) by (destruct a; first [apply IH|apply evaluator_reads]) end.
  match goal with |- context [?m s] => destruct (m s) as [[[]|e|p] s'] end; simpl in *; subst; destruct op; done.
Qed.
Lemma endorsing_node_reads ctx id s : (endorsing_node ctx id s).2 = s.
Proof.
  unfold endorsing_node. destruct (registry_node _ _) as [[nd|]|]; [|done..]. unfold mbind, ST_bind. simpl. by destruct (_ <? _)%N.
Qed.
Lemma verify_policy_reads ctx l ect metadata s : (verify_policy ctx l ect metadata s).2 = s.
Proof.
  unfold verify_policy, mbind, ST_bind. pose proof (endorsing_node_reads ctx (ect_node ect) s) as Hn.
  destruct (endorsing_node _ _ s) as [[nd|e|p] s1]; [|done..]. cbn [snd] in Hn. subst s1.
  pose proof (verify_atoms_reads ctx OpOr l ect (ect_node ect) nd metadata MAX_ENDORSEMENT_POLICY_DEPTH s) as Hr.
  destruct (verify_atoms _ _ _ _ _ _ _ _ s) as [[[]|e|p] s']; exact Hr.
Qed.
End policies.

Section handlers.
Context `{Platform} `{!MKVSLaws} `{!CoreCodec} `{!CoreConfig} `{!AccountsCodec}.
Context `{!RoflPlatform} `{!RoflConfig} `{!RoflBounds} `{!RoflCodec} `{!RoflLaws}.

(** ** Rules *)

Lemma wp_get_app {E} id (Q : option AppConfig → Registry → Prop) g : Q (apps g !! id) g → wp (get_app (E := E) id) Q g.
Proof. apply wp_reads. intros s. by apply get_app_run. Qed.
Lemma wp_api_get_app id (Q : AppConfig → Registry → Prop) g :
  (∀ cfg, apps g !! id = Some cfg → Q cfg g) → wp (api_get_app id) Q g.
Proof. intros HQ. apply wp_bind, wp_get_app. by apply wp_ok_or. Qed.
Lemma wp_set_app {E} cfg (Q : unit → Registry → Prop) g : app_fits cfg → Q tt (put_app cfg g) → wp (set_app (E := E) cfg) Q g.
Proof. intros Hfit. apply wp_run; [unfold set_app; solve_framed|]. intros s Hs. by apply set_app_run. Qed.
Lemma wp_remove_app {E} id (Q : unit → Registry → Prop) g : Q tt (del_app id g) → wp (remove_app (E := E) id) Q g.
Proof. apply wp_run; [unfold remove_app; solve_framed|]. intros s Hs. by apply remove_app_run. Qed.
Lemma framed_insert_queue {E} e app h : framed (insert_expiration_queue (E := E) e app h).
Proof. exact (framed_typed_insert (E := E) expirations_ref (expiration_key e app h) Queued). Qed.
Hint Resolve framed_insert_queue : framed.
Lemma wp_update_registration r (Q : unit → Registry → Prop) g :
  registered g → registration_fits r → (replaces r g → Q tt (register r g)) → wp (update_registration r) Q g.
Proof.
  intros Hd Hfit HQ s Hr Hs [] s' Hrun.
  assert (framed (update_registration r)) as Hf.
  { unfold update_registration, get_registration_hrak, remove_expiration_queue. solve_framed. }
  pose proof (Hf s Hr) as Hfr. rewrite Hrun in Hfr. split; [apply (fr_ready _ _ Hfr)|].
  assert (Hsame : replaces r g).
  { intros r0 Hr0. destruct (decide (reg_extra_keys r0 = reg_extra_keys r)) as [|Hne]; [done|].
    by rewrite (update_registration_refused r s g r0) in Hrun. }
  destruct (update_registration_run r s g Hs Hd Hfit Hsame) as (s1 & Hrun1 & Hg1). rewrite Hrun in Hrun1. simplify_eq. eauto.
Qed.
Lemma wp_check_policy p (Q : unit → Registry → Prop) g :
  (policy_validate p = inr tt → Q tt g) → wp (check_policy p) Q g.
Proof. intros HQ. unfold check_policy. destruct (policy_validate p) as [|[]]; [apply wp_throw|by apply wp_ret, HQ]. Qed.

Lemma wp_check_pairs {V} len (m : gmap string V) (Q : unit → Registry → Prop) g : Q tt g → wp (check_pairs len m) Q g.
Proof. intros HQ. unfold check_pairs. destruct (pairs_ok _ _); [by apply wp_ret|apply wp_throw]. Qed.

(** One step through a handler. *)
Ltac wp_leaf := apply wp_leaves; [solve_leaves|intros ?].
Ltac wp_step :=
  match goal with
  | |- wp (mbind _ _) _ _ => apply wp_bind
  | |- wp (mret _) _ _ => apply wp_ret
  | |- wp (throw _) _ _ => apply wp_throw
  | |- wp (panic _) _ _ => apply wp_panic
  | |- wp (rf_use_gas _) _ _ => unfold rf_use_gas; wp_leaf
  | |- wp (rf_transfer _ _ _) _ _ => unfold rf_transfer; wp_leaf
  | |- wp (emit_rofl_event _) _ _ => unfold emit_rofl_event; wp_leaf
  | |- wp (check_pairs _ _) _ _ => apply wp_check_pairs
  | |- wp (derive_app_key _ _ _ _ _ _) _ _ => unfold derive_app_key; wp_leaf
  | |- wp (new_app_id _ _ _ _) _ _ => unfold new_app_id; wp_leaf
  | |- wp (ensure_caller_is_admin _) _ _ => unfold ensure_caller_is_admin; wp_leaf
  | |- wp (with_env _) _ _ => wp_leaf
  | |- wp (with_tx_env _) _ _ => wp_leaf
  | |- wp (check_policy _) _ _ => apply wp_check_policy; intros ?
  | |- wp (api_get_app _) _ _ => apply wp_api_get_app; intros ? ?
  | |- wp (get_app _) _ _ => apply wp_get_app
  | |- wp (if ?b then mret _ else _) _ _ => destruct b; [by apply wp_ret|]
  | |- wp (if ?b then throw _ else _) _ _ => destruct b eqn:?; [apply wp_throw|]
  end.
Ltac wp_steps := repeat wp_step.

(** ** Calls *)

Lemma create_registered ctx body g : registered g → wp (tx_create ctx body) (λ _, registered) g.
Proof.
  intros Hd. unfold tx_create. wp_steps.
  apply wp_set_app; [by split; [apply app_stake_fits|apply policy_validate_fits]|]. wp_steps.
  apply put_app_registered; [done| |done]. by split; [apply app_stake_fits|apply policy_validate_fits].
Qed.
Lemma update_registered ctx body g : registered g → wp (tx_update ctx body) (λ _, registered) g.
Proof.
  intros Hd. unfold tx_update. wp_steps.
  match goal with H : apps g !! _ = Some _ |- _ => destruct (rd_app _ Hd _ _ H) as (_ & [Hst _] & _) end.
  apply wp_leaves; [destruct (bool_decide _); unfold derive_app_key; solve_leaves|intros sek].
  wp_steps. apply wp_set_app; [by split; [|apply policy_validate_fits]|]. wp_steps.
  apply put_app_registered; [done| |done]. by split; [|apply policy_validate_fits].
Qed.
Lemma remove_registered ctx body g : registered g → wp (tx_remove ctx body) (λ _, registered) g.
Proof.
  intros Hd. unfold tx_remove. wp_steps. apply wp_remove_app. wp_steps.
  apply wp_leaves; [destruct (app_admin _); unfold rf_transfer; solve_leaves|intros _]. wp_steps. by apply del_app_registered.
Qed.
Lemma wp_verified_registration ctx cfg body (Q : Registration → Registry → Prop) g :
  (∀ r, reg_expiration r = rg_expiration body → Q r g) → wp (verified_registration ctx cfg body) Q g.
Proof.
  intros HQ. unfold verified_registration. apply wp_bind, wp_ok_or. intros [identity node_id] _.
  destruct (negb _); [apply wp_throw|].
  apply wp_bind, wp_leaves; [apply leaves_read, verify_policy_reads|intros node].
  apply wp_bind, wp_leaves; [solve_leaves|intros nid]. apply wp_bind, wp_ok_or. intros rek _. by apply wp_ret, HQ.
Qed.
Lemma tx_register_registered ctx body g :
  registered g → fits64 (rg_expiration body) → wp (tx_register ctx body) (λ _, registered) g.
Proof.
  intros Hd Hfit. unfold tx_register. wp_steps. apply wp_verified_registration. intros r Hr.
  assert (registration_fits r) by (unfold registration_fits; by rewrite Hr). wp_steps.
  apply wp_update_registration; [done..|]. intros Hsame. wp_steps. by apply register_registered.
Qed.
Lemma framed_take_expired {E} epoch limit l : framed (take_expired (E := E) epoch limit l).
Proof.
  revert limit. induction l as [|kv l IH]; intros [|limit]; cbn [take_expired]; try apply framed_ret.
  apply framed_bind; [unfold typed_item; solve_framed|]. intros [[[e app] h] v]. simpl. destruct (_ <=? _)%N; [|apply framed_ret].
  apply framed_bind; [apply IH|]. intros xs. apply framed_ret.
Qed.
Lemma framed_expire {E} epoch limit : framed (expire_registrations (E := E) epoch limit).
Proof.
  unfold expire_registrations. apply framed_bind; [solve_framed|]. intros st. apply framed_bind.
  { destruct (ref_collect _ _) as [l|[]|]; [apply framed_take_expired|solve_framed]. }
  intros l. apply framed_for_each. intros x. unfold remove_registration_hrak, get_registration_hrak, remove_expiration_queue.
  solve_framed.
Qed.
Lemma end_block_registered ctx g : registered g → wp (rofl_end_block ctx) (λ _, registered) g.
Proof.
  intros Hd. unfold rofl_end_block. apply wp_bind, wp_leaves.
  { apply (leaves_confined _ accounts_prefix); [done|unfold has_epoch_changed; solve_framed|unfold has_epoch_changed; solve_confined]. }
  intros changed.
  destruct changed; [|by apply wp_ret]. intros s Hr Hs [] s' Hrun.
  pose proof (framed_expire (E := Empty_set) (ctx_epoch ctx) 128 s Hr) as Hfr. rewrite Hrun in Hfr.
  split; [apply (fr_ready _ _ Hfr)|].
  destruct (expire_registrations_run (E := Empty_set) (ctx_epoch ctx) 128 s g Hs Hd) as (L & s1 & _ & _ & Hrun1 & Hg1).
  rewrite Hrun in Hrun1. simplify_eq. eexists. split; [exact Hg1|]. by apply unregister_all_registered.
Qed.
End handlers.

(** * The machine *)

Inductive RoflCall `{RoflPlatform} :=
  | CallCreate (body : RoflCreate)
  | CallUpdate (body : RoflUpdate)
  | CallRemove (body : RoflRemove)
  | CallRegister (body : Register).
(** What is decoded from a request is within its width. *)
Definition rofl_call_fits `{RoflPlatform} (c : RoflCall) : Prop :=
  match c with CallRegister body => fits64 (rg_expiration body) | _ => True end.

Section machine.
Context `{Platform} `{!MKVSLaws} `{!CoreCodec} `{!CoreConfig} `{!AccountsCodec}.
Context `{!RoflPlatform} `{!RoflConfig} `{!RoflCodec} `{!RoflLaws}.

Definition rofl_call (ctx : Ctx) (c : RoflCall) : M RoflError unit :=
  match c with
  | CallCreate body => tx_create ctx body ;; mret tt
  | CallUpdate body => tx_update ctx body
  | CallRemove body => tx_remove ctx body
  | CallRegister body => tx_register ctx body
  end.

(** A call succeeds, a block ends, or something else happens that leaves the tables of the module alone: a call of
    another module, or a call that fails and is rolled back. *)
Inductive rofl_step : State → State → Prop :=
  | rofl_step_call ctx c s s' : rofl_call_fits c → rofl_call ctx c s = (Ok tt, s') → rofl_step s s'
  | rofl_step_block ctx s s' : rofl_end_block ctx s = (Ok tt, s') → rofl_step s s'
  | rofl_step_other s s' : ready s' → same_below rofl_prefix s s' → rofl_step s s'.

Context `{!RoflBounds}.

Lemma rofl_call_registered ctx c g : rofl_call_fits c → registered g → wp (rofl_call ctx c) (λ _, registered) g.
Proof.
  intros Hfit Hd. destruct c; simpl in *.
  - apply wp_bind. eapply wp_mono; [by apply create_registered|]. intros id g' Hd'. by apply wp_ret.
  - by apply update_registered.
  - by apply remove_registered.
  - by apply tx_register_registered.
Qed.
Lemma rofl_step_registered s s' g :
  rofl_step s s' → ready s → rofl_of s g → registered g → ready s' ∧ ∃ g', rofl_of s' g' ∧ registered g'.
Proof.
  intros [ctx c s1 s2 Hfit Hrun|ctx s1 s2 Hrun|s1 s2 Hr Hsame] Hs Hg Hd.
  - by eapply (rofl_call_registered ctx c g).
  - by eapply (end_block_registered ctx g).
  - split; [done|]. exists g. split; [by eapply same_rofl_of|done].
Qed.
Lemma rofl_reach_registered s s' g :
  rtc rofl_step s s' → ready s → rofl_of s g → registered g → ready s' ∧ ∃ g', rofl_of s' g' ∧ registered g'.
Proof.
  intros Hsteps. revert g. induction Hsteps as [s|s1 s2 s3 Hstep _ IH]; intros g Hs Hg Hd; [by split; [|exists g]|].
  destruct (rofl_step_registered s1 s2 g Hstep Hs Hg Hd) as (Hs2 & g2 & Hg2 & Hd2). by apply (IH g2).
Qed.
End machine.
