(* ===== verification/Instances.v ===== *)
(** What the ROFL module promises to those who rely on it: who is registered, who is recognized as an instance, and
    who gets which keys (src/runtime-sdk/src/modules/rofl/mod.rs). *)
From S2P Require Import Prelude Endian Storage StoreIter Types Fee Errors State Current Transactions Module Tables CallFormat.
From S2P Require Import Core Gas Accounts Ledger Accounting Disbursement Moves Rofl RoflTables Expiry RoflSafety.

(** * The origin of a transaction *)

Section origin.
Context `{Platform} `{!MKVSLaws} `{!RoflPlatform} `{!RoflConfig} `{!RoflCodec} `{!RoflLaws}.

(** The keys of registered instances, and a further key, are told apart by their hashes. *)
Definition key_known (g : Registry) (pk : PublicKey) : Prop :=
  ∃ k r, regs g !! k = Some r ∧ (pk = Ed25519 (reg_rak r) ∨ pk ∈ reg_extra_keys r).
Definition keys_distinct (g : Registry) (o : option PublicKey) : Prop :=
  ∀ a b, key_known g a ∨ o = Some a → key_known g b ∨ o = Some b → hash_pk a = hash_pk b → a = b.

(** A registered instance for which a key speaks. *)
Definition speaks_for (g : Registry) (pk : PublicKey) (r : Registration) : Prop :=
  regs g !! (reg_app r, hash_rak (reg_rak r)) = Some r ∧ (pk = Ed25519 (reg_rak r) ∨ pk ∈ reg_extra_keys r).

Lemma known_rak g k r : regs g !! k = Some r → key_known g (Ed25519 (reg_rak r)).
Proof. intros Hk. exists k, r. auto. Qed.
Lemma endorser_speaks g pk kei :
  registered g → keys_distinct g (Some pk) → endorsement_info <$> endorsers g !! hash_pk pk = Some kei →
  ∃ r, speaks_for g pk r ∧ kei_app_id kei = reg_app r ∧ kei_node_id kei = reg_node_id r ∧
    (match kei_rak kei with Some rak => Ed25519 rak | None => pk end) = Ed25519 (reg_rak r).
Proof.
  intros Hd Hinj (e & Hk & ->)%fmap_Some. destruct (rd_endorser _ Hd _ _ Hk) as (r & Hr & Hv). exists r.
  destruct Hv as [[Heq ->]|[Hin ->]]; simpl.
  - apply Hinj in Heq as ->; [by repeat split; auto|by right|left; by eapply known_rak].
  - apply list_elem_of_fmap in Hin as (pk' & Heq & Hin). apply Hinj in Heq as <-; [by repeat split; auto|by right|].
    left. eexists _, r. eauto.
Qed.

(** The key that signed the origin of a subcall. *)
Definition origin_key (s : State) (pk : option PublicKey) : Prop := env_tx_caller_public_key (env_origin s) = Some pk.

Lemma get_origin_rak_run {E} s g pk :
  registered g → keys_distinct g pk → rofl_of s g → origin_key s pk →
  ∃ o, get_origin_rak (E := E) s = (Ok o, s) ∧
    ∀ rak, o = Some rak → ∃ pk' r, pk = Some pk' ∧ speaks_for g pk' r ∧ rak = Ed25519 (reg_rak r).
Proof.
  intros Hd Hinj Hg Hpk. unfold get_origin_rak, with_env_origin.
  assert (Hrun : (s0 ← get_st; expect (E := E) (env_tx_caller_public_key (env_origin s0)) "only in transaction environment") s =
    (Ok pk, s)) by (run_simpl; unfold origin_key in Hpk; by rewrite Hpk).
  rewrite (bind_ok _ _ _ _ _ Hrun). destruct pk as [pk|]; [|by exists None].
  rewrite (bind_ok _ _ _ _ _ (get_endorser_run (E := E) s g pk Hg)). eexists. split; [done|]. intros rak.
  destruct (endorsement_info <$> _) as [kei|] eqn:Hk; [|done]. intros [= <-].
  destruct (endorser_speaks g pk kei Hd Hinj Hk) as (r & Hs & _ & _ & Hrak). by exists pk, r.
Qed.
(** The attestation key is always one that can be converted: the [unwrap] does not panic. *)
Lemma get_origin_registration_run {E} s g pk app :
  registered g → keys_distinct g pk → rofl_of s g → origin_key s pk →
  ∃ o, get_origin_registration (E := E) app s = (Ok o, s) ∧
    ∀ r, o = Some r → regs g !! (app, hash_rak (reg_rak r)) = Some r ∧ reg_app r = app ∧
      ∃ pk' r0, pk = Some pk' ∧ speaks_for g pk' r0 ∧ reg_rak r0 = reg_rak r.
Proof.
  intros Hd Hinj Hg Hpk. destruct (get_origin_rak_run (E := E) s g pk Hd Hinj Hg Hpk) as (o & Hrun & Ho).
  unfold get_origin_registration. rewrite (bind_ok _ _ _ _ _ Hrun). destruct o as [rak|]; [|by exists None].
  destruct (Ho rak eq_refl) as (pk' & r0 & -> & Hs & ->). cbn [core_public_key expect].
  exists (regs g !! (app, hash_rak (reg_rak r0))). split.
  { rewrite (bind_ok (mret (reg_rak r0)) _ s (reg_rak r0) s eq_refl). by apply get_registration_run. }
  intros r Hr. destruct (rd_reg _ Hd _ _ _ Hr) as (Happ & Hh & _). apply Hinj in Hh as [= Hrak]; [|left; by eapply known_rak|left; eapply known_rak, (proj1 Hs)]. rewrite Hrak.
  split; [done|]. split; [done|]. exists pk', r0. by repeat split; try apply Hs.
Qed.
End origin.

(** * Registration *)

Section registration.
Context `{Platform} `{!MKVSLaws} `{!CoreCodec} `{!CoreConfig} `{!AccountsCodec}.
Context `{!RoflPlatform} `{!RoflConfig} `{!RoflBounds} `{!RoflCodec} `{!RoflLaws}.

(** What has to hold for an instance to be registered: the registration is for the future and not for longer than the
    policy allows, it is signed by the attestation key and by all extra keys, and the platform attests an enclave
    and a node that the policy of the application admits. *)
Record admitted (ctx : Ctx) (s : State) (cfg : AppConfig) (body : Register) (r : Registration) : Prop := {
  ad_app : reg_app r = rg_app body;
  ad_expiration : reg_expiration r = rg_expiration body;
  ad_keys : reg_rak r = ect_rak (rg_ect body) ∧ ect_rek (rg_ect body) = Some (reg_rek r) ∧ reg_extra_keys r = rg_extra_keys body;
  ad_time : (ctx_epoch ctx < reg_expiration r ≤ ctx_epoch ctx + max_expiration (app_policy cfg))%N;
  ad_signed : ∃ ai, env_tx_auth_info (st_env s) = Some ai ∧
    Ed25519 (reg_rak r) ∈ signer_pks ai ∧ Forall (λ pk, pk ∈ signer_pks ai) (reg_extra_keys r);
  ad_enclave : ∃ identity, ect_verify (quotes (app_policy cfg)) (rg_ect body) = Some (identity, Some (reg_node_id r)) ∧
    identity ∈ enclaves (app_policy cfg);
  ad_endorsed : ∃ node s0, verify_policy ctx (endorsements (app_policy cfg)) (rg_ect body) (rg_metadata body) s0 = (Ok node, s0) ∧
    same_below rofl_prefix s s0 ∧ reg_entity_id r = nd_entity_id <$> node;
  ad_metadata : pairs_ok String.length (reg_metadata r) = true;
}.
Lemma verified_registration_inv ctx cfg body s r s' :
  verified_registration ctx cfg body s = (Ok r, s') →
  s' = s ∧ reg_app r = rg_app body ∧ reg_expiration r = rg_expiration body ∧ reg_metadata r = rg_metadata body ∧
  (reg_rak r = ect_rak (rg_ect body) ∧ ect_rek (rg_ect body) = Some (reg_rek r) ∧ reg_extra_keys r = rg_extra_keys body) ∧
  (∃ identity, ect_verify (quotes (app_policy cfg)) (rg_ect body) = Some (identity, Some (reg_node_id r)) ∧
    identity ∈ enclaves (app_policy cfg)) ∧
  ∃ node, verify_policy ctx (endorsements (app_policy cfg)) (rg_ect body) (rg_metadata body) s = (Ok node, s) ∧
    reg_entity_id r = nd_entity_id <$> node.
Proof.
  unfold verified_registration. intros ([identity nid] & s1 & Hv & Hrun)%bind_ok_inv.
  destruct (ect_verify _ _) as [x|]; [|done]. injection Hv as -> ->.
  destruct (bool_decide (identity ∈ _)) eqn:Hid; [|done]. apply bool_decide_eq_true in Hid. cbn [negb] in Hrun.
  apply bind_ok_inv in Hrun as (node & s2 & Hpol & Hrun).
  pose proof (verify_policy_reads ctx (endorsements (app_policy cfg)) (rg_ect body) (rg_metadata body) s1) as Hread.
  rewrite Hpol in Hread. simpl in Hread. subst s2. apply bind_ok_inv in Hrun as (n & s2 & Hn & Hrun).
  destruct nid as [nid|]; [|done]. injection Hn as <- <-. apply bind_ok_inv in Hrun as (rek & s3 & Hrek & Hrun).
  destruct (ect_rek _) as [k|]; [|done]. injection Hrek as <- <-. injection Hrun as <- <-. simpl.
  repeat split; [by exists identity|by exists node].
Qed.

Lemma rf_use_gas_ok gas s s' :
  ready s → rf_use_gas gas s = (Ok tt, s') → ready s' ∧ same_below rofl_prefix s s' ∧ st_env s' = st_env s.
Proof.
  intros Hr Hgas. assert (Hl : leaves rofl_prefix (rf_use_gas gas)) by (unfold rf_use_gas; solve_leaves).
  assert (Hf : framed (rf_use_gas gas)) by (unfold rf_use_gas; solve_framed).
  destruct (Hl s Hr tt s' Hgas). pose proof (Hf s Hr) as Hfr. rewrite Hgas in Hfr. by pose proof (fr_env _ _ Hfr).
Qed.
Lemma record_registration_ok r e s s' g :
  ready s → rofl_of s g → registered g → registration_fits r →
  (update_registration r ;; emit_rofl_event e) s = (Ok tt, s') → replaces r g ∧ rofl_of s' (register r g).
Proof.
  intros Hr Hg Hd Hfit ([] & s1 & Hup & Hev)%bind_ok_inv.
  assert (Hwp : wp (update_registration r) (λ _ g', replaces r g ∧ g' = register r g) g) by by apply wp_update_registration.
  destruct (Hwp s Hr Hg tt s1 Hup) as (Hr1 & g1 & Hg1 & Hrep & ->).
  assert (Hl : leaves rofl_prefix (emit_rofl_event (E := RoflError) e)) by (unfold emit_rofl_event; solve_leaves).
  destruct (Hl s1 Hr1 tt s' Hev) as [_ Hsame]. split; [done|by eapply same_rofl_of].
Qed.
Lemma tx_register_inv ctx body s s' g :
  ready s → rofl_of s g → registered g → is_check_only (st_env s) = false → fits64 (rg_expiration body) →
  tx_register ctx body s = (Ok tt, s') →
  ∃ cfg r, apps g !! rg_app body = Some cfg ∧ admitted ctx s cfg body r ∧ replaces r g ∧ rofl_of s' (register r g).
Proof.
  intros Hr Hg Hd Hmode Hfit. unfold tx_register. intros ([] & s1 & Hgas & Hrun)%bind_ok_inv.
  destruct (rf_use_gas_ok _ s s1 Hr Hgas) as (Hr1 & Hsame & Henv). pose proof (same_rofl_of _ _ _ Hsame Hg) as Hg1.
  destruct (N.leb_spec (rg_expiration body) (ctx_epoch ctx)) as [|Hlt]; [done|].
  apply bind_ok_inv in Hrun as ([] & s2 & Hpairs & Hrun). unfold check_pairs in Hpairs.
  destruct (pairs_ok _ _) eqn:Hmeta; [|done]. injection Hpairs as <-.
  apply bind_ok_inv in Hrun as (cfg & s2 & Happ & Hrun). unfold api_get_app in Happ.
  rewrite (bind_ok _ _ _ _ _ (get_app_run (E := RoflError) s1 g (rg_app body) Hg1)) in Happ.
  destruct (apps g !! rg_app body) as [c|] eqn:Hcfg; [|done]. injection Happ as -> <-.
  destruct (N.ltb_spec (max_expiration (app_policy cfg)) (rg_expiration body - ctx_epoch ctx)) as [|Hmax]; [done|].
  apply bind_ok_inv in Hrun as (ai & s2 & Hai & Hrun). unfold with_tx_env in Hai. run_simpl_in Hai. rewrite Henv in Hai.
  destruct (env_tx_auth_info (st_env s)) as [ai'|] eqn:Hinfo; [|done]. injection Hai as -> <-.
  destruct (bool_decide (Ed25519 _ ∈ _)) eqn:Hrak; [|done]. apply bool_decide_eq_true in Hrak. cbn [negb] in Hrun.
  destruct (forallb _ _) eqn:Hextra; [|done]. cbn [negb] in Hrun.
  apply bind_ok_inv in Hrun as (co & s2 & Hco & Hrun). injection Hco as <- <-. rewrite Henv, Hmode in Hrun.
  apply bind_ok_inv in Hrun as (r & s2 & Hver & Hrun).
  destruct (verified_registration_inv _ _ _ _ _ _ Hver) as (-> & Hra & Hre & Hrm & Hrk & Hid & node & Hpol & Hent).
  exists cfg, r. split; [done|].
  assert (Hfit' : registration_fits r) by (unfold registration_fits; by rewrite Hre).
  destruct (record_registration_ok r _ s1 s' g Hr1 Hg1 Hd Hfit' Hrun) as [Hrep Hg'].
  split; [|done]. destruct Hrk as (Hrk & Hrek & Hx). split; try done; [lia| | |by rewrite Hrm].
  - exists ai. rewrite Hrk, Hx. split; [done|]. split; [done|]. rewrite forallb_forall in Hextra. apply Forall_forall.
    intros pk Hpk%list_elem_of_In. by eapply bool_decide_eq_true_1, (Hextra pk).
  - exists node, s1. done.
Qed.
End registration.

(** * Keys *)

Section keys.
Context `{Platform} `{!MKVSLaws} `{!CoreCodec} `{!CoreConfig} `{!AccountsCodec}.
Context `{!RoflPlatform} `{!RoflConfig} `{!RoflCodec} `{!RoflLaws}.

(** What is assumed of the encoding of a map. *)
Class KeyLaws : Prop := {
  dom_to_vec_inj : Inj (=) (=) dom_to_vec;
  dom_to_vec_nonempty m : dom_to_vec m ≠ [];
}.
#[export] Existing Instance dom_to_vec_inj.

(** The node or entity to which a key belongs. *)
Definition key_owner (scope : KeyScope) (reg : option Registration) : option bytes :=
  match scope with ScopeGlobal => None | ScopeNode => reg_node_id <$> reg | ScopeEntity => reg ≫= reg_entity_id end.

Lemma extra_domain_scope scope reg dom :
  extra_domain scope reg = inr dom → dom !! "scope"%string = match scope with ScopeGlobal => None | _ => Some [key_scope_u8 scope] end.
Proof. destruct scope; simpl; repeat case_match; intros; by simplify_map_eq. Qed.
Lemma extra_domain_owner scope reg dom :
  extra_domain scope reg = inr dom →
  key_owner scope reg = match scope with ScopeGlobal => None | ScopeNode => dom !! "node_id"%string | ScopeEntity => dom !! "entity_id"%string end.
Proof.
  destruct scope; simpl; [done|destruct reg|destruct (reg ≫= reg_entity_id) as [i|] eqn:Hi]; intros; by simplify_map_eq.
Qed.
Lemma key_id_tuple_domain `{!KeyLaws} app kind id dm :
  key_id_tuple app kind id dm =
    [ROFL_DERIVE_KEY_CONTEXT; raw app; [key_kind_u8 kind]; id] ++ (if decide (dm = ∅) then [] else [dom_to_vec dm]).
Proof.
  unfold key_id_tuple. pose proof (dom_to_vec_nonempty dm). destruct (decide (dm = ∅)) as [Heq|Hne];
    [by rewrite bool_decide_eq_true_2|rewrite bool_decide_eq_false_2 by done; by destruct (dom_to_vec dm)].
Qed.
Lemma key_id_tuple_inj `{!KeyLaws} app kind id dm app' kind' id' dm' :
  key_id_tuple app kind id dm = key_id_tuple app' kind' id' dm' → app = app' ∧ kind = kind' ∧ id = id' ∧ dm = dm'.
Proof.
  rewrite !key_id_tuple_domain. intros Heq. apply (app_inj_1 [_; _; _; _] [_; _; _; _]) in Heq as [Heq Hdom]; [|done].
  injection Heq as Happ Hkind ->. split; [by apply bytes_n_eq|]. split; [by destruct kind, kind'|]. split; [done|].
  do 2 case_decide; try done; [congruence|]. injection Hdom as Hdom. by apply (inj dom_to_vec).
Qed.
(** The tuple that is hashed to an identifier of a key. *)
Definition key_tuple (app : AppId) (kind : KeyKind) (scope : KeyScope) (id : bytes) (reg : option Registration) (t : list bytes) : Prop :=
  ∃ dm, extra_domain scope reg = inr dm ∧ t = key_id_tuple app kind id dm.
Lemma derive_app_key_id_tuple app kind scope id reg k :
  derive_app_key_id app kind scope id reg = inr k → ∃ t, key_tuple app kind scope id reg t ∧ k = get_key_pair_id t.
Proof.
  unfold derive_app_key_id. destruct (extra_domain scope reg) as [|dm] eqn:Hd; [done|]. intros [= <-]. eexists. split; [|done].
  by exists dm.
Qed.
Lemma key_tuple_inj `{!KeyLaws} app kind scope id reg app' kind' scope' id' reg' t :
  key_tuple app kind scope id reg t → key_tuple app' kind' scope' id' reg' t →
  app = app' ∧ kind = kind' ∧ scope = scope' ∧ id = id' ∧ key_owner scope reg = key_owner scope' reg'.
Proof.
  intros (dm & Hd & ->) (dm' & Hd' & Heq). apply key_id_tuple_inj in Heq as (-> & -> & -> & ->).
  assert (scope = scope') as <-.
  { pose proof (extra_domain_scope _ _ _ Hd) as Hs. rewrite (extra_domain_scope _ _ _ Hd') in Hs. by destruct scope, scope'. }
  do 4 (split; [done|]). by rewrite (extra_domain_owner _ _ _ Hd), (extra_domain_owner _ _ _ Hd').
Qed.

Lemma env_origin_outer s : env_internal (st_env s) = false → env_origin s = st_env s.
Proof. destruct s as [parent]. simpl. intros Hi. destruct parent; [by rewrite Hi|done]. Qed.
End keys.

Section deriving.
Context `{Platform} `{!MKVSLaws} `{!CoreCodec} `{!CoreConfig} `{!AccountsCodec}.
Context `{!RoflPlatform} `{!RoflConfig} `{!RoflCodec} `{!RoflLaws}.

(** The key that the key manager has for an instance. *)
Definition key_of (body : DeriveKey) (r : Registration) (t : list bytes) (key : bytes) : Prop :=
  key_tuple (dk_app body) (dk_kind body) (dk_scope body) (dk_key_id body) (Some r) t ∧
  ∃ keys, get_or_create_keys (get_key_pair_id t) = inr keys ∧
    key = match dk_kind body with EntropyV0 => keys.2 | X25519 => keys.1.1 end.

Lemma derive_app_key_inv ctx app kind scope id reg s keys s' :
  derive_app_key ctx app kind scope id reg s = (Ok keys, s') →
  s' = s ∧ ∃ k, derive_app_key_id app kind scope id reg = inr k ∧ get_or_create_keys k = inr keys.
Proof.
  unfold derive_app_key. destruct (derive_app_key_id _ _ _ _ _) as [|k]; [done|]. destruct (ctx_key_manager ctx); [|done].
  destruct (get_or_create_keys k) as [|keys'] eqn:Hk; [done|]. intros [= <- <-]. split; [done|]. by exists k.
Qed.
Lemma tx_derive_key_inv ctx body s s' g res :
  ready s → rofl_of s g → registered g → is_check_only (st_env s) = false →
  (∀ ai, env_tx_auth_info (st_env s) = Some ai → keys_distinct g (caller_public_key ai)) →
  tx_derive_key ctx body s = (Ok res, s') →
  env_tx_call_format (st_env s) = Some EncryptedX25519DeoxysII ∧ env_internal (st_env s) = false ∧
  ∃ ai pk r r0, env_tx_auth_info (st_env s) = Some ai ∧ caller_public_key ai = Some pk ∧
    speaks_for g pk r0 ∧ reg_rak r0 = reg_rak r ∧ reg_app r = dk_app body ∧ regs g !! (dk_app body, hash_rak (reg_rak r)) = Some r ∧
    ∃ t, key_of body r t (dkr_key res).
Proof.
  intros Hr Hg Hd Hmode Hinj. unfold tx_derive_key. intros ([] & s1 & Hgas & Hrun)%bind_ok_inv.
  destruct (rf_use_gas_ok _ s s1 Hr Hgas) as (Hr1 & Hsame & Henv). pose proof (same_rofl_of _ _ _ Hsame Hg) as Hg1.
  apply bind_ok_inv in Hrun as (f & s2 & Hf & Hrun). unfold with_tx_env in Hf. run_simpl_in Hf. rewrite Henv in Hf.
  destruct (env_tx_call_format (st_env s)) as [f'|] eqn:Hfmt; [|done]. injection Hf as -> <-.
  destruct f; [done|]. cbn [is_encrypted negb] in Hrun. destruct (negb (dk_generation body =? 0)%N); [done|].
  case_match; [done|]. apply bind_ok_inv in Hrun as (b & s2 & Hb & Hrun). injection Hb as Hb <-. rewrite Henv in Hb.
  destruct b; [done|]. apply bind_ok_inv in Hrun as (co & s2 & Hco & Hrun). injection Hco as <- <-. rewrite Henv, Hmode in Hrun.
  split; [done|]. split; [done|].
  assert (∃ ai, env_tx_auth_info (st_env s) = Some ai) as [ai Hai].
  { unfold env_tx_call_format in Hfmt. unfold env_tx_auth_info. destruct (env_tx (st_env s)); [by eexists|done]. }
  assert (Hpk : origin_key s1 (caller_public_key ai)).
  { unfold origin_key, env_tx_caller_public_key. rewrite env_origin_outer by (by rewrite Henv). by rewrite Henv, Hai. }
  destruct (get_origin_registration_run (E := RoflError) s1 g _ (dk_app body) Hd (Hinj ai Hai) Hg1 Hpk) as (o & Horig & Ho).
  rewrite (bind_ok _ _ _ _ _ Horig) in Hrun. destruct o as [r|]; [|done].
  destruct (Ho r eq_refl) as (Hreg & Happ & pk & r0 & Hcaller & Hspeaks & Hrak).
  rewrite (bind_ok (ok_or (Some r) RfForbidden) _ s1 r s1 eq_refl) in Hrun.
  apply bind_ok_inv in Hrun as (keys & s2 & Hkeys & Hrun). injection Hrun as <- <-.
  destruct (derive_app_key_inv _ _ _ _ _ _ _ _ _ Hkeys) as (_ & k & Hk & Hget).
  exists ai, pk, r, r0. do 6 (split; [done|]).
  destruct (derive_app_key_id_tuple _ _ _ _ _ _ Hk) as (t & Ht & ->). exists t. split; [done|]. by exists keys.
Qed.
End deriving.

(** Two registrations that share an extra key: when one goes, the key is no longer endorsed, though the other still
    has it. *)
Lemma shared_key_is_lost `{Platform} `{!RoflPlatform} (g : Registry) r1 r2 pk :
  (reg_app r1, hash_rak (reg_rak r1)) ≠ (reg_app r2, hash_rak (reg_rak r2)) →
  pk ∈ reg_extra_keys r1 → pk ∈ reg_extra_keys r2 →
  let g' := unregister (reg_app r1) (hash_rak (reg_rak r1)) (register r2 (register r1 g)) in
  regs g' !! (reg_app r2, hash_rak (reg_rak r2)) = Some r2 ∧ endorsers g' !! hash_pk pk = None.
Proof.
  intros Hne Hin1 Hin2. unfold unregister, register. cbn [regs apps endorsers queue].
  rewrite lookup_insert_ne, lookup_insert_eq by done. cbn [regs endorsers]. split.
  - rewrite lookup_delete_ne by done. by rewrite lookup_insert_eq.
  - rewrite del_all_lookup, decide_True; [done|]. apply list_elem_of_fmap. by exists pk.
Qed.

Module RoflClaims.
Section claims.
Context `{Platform} `{!MKVSLaws} `{!CoreCodec} `{!CoreConfig} `{!AccountsCodec}.
Context `{!RoflPlatform} `{!RoflConfig} `{!RoflBounds} `{!RoflCodec} `{!RoflLaws}.

(** C9. The registry of applications stays in order along any sequence of calls of the module, ends of blocks, and of what
    else leaves its tables alone: applications and registrations are kept under their identifiers, the policy of
    every application is valid, the expiration queue has exactly the registrations, each at its epoch, and every key
    that is endorsed is vouched for by a registration that still exists, and points to it. *)
Theorem registry_stays_in_order s s' g :
  ready s → rofl_of s g → registered g → rtc rofl_step s s' → ∃ g', rofl_of s' g' ∧ registered g'.
Proof. intros Hr Hg Hd Hsteps. by destruct (rofl_reach_registered s s' g Hsteps Hr Hg Hd) as [_ ?]. Qed.

(** C10. An instance is registered only when it is entitled to be: the call is signed by the attestation key of the enclave
    and by every extra key, the registration lasts beyond the epoch and no longer than the policy of the application
    allows, the platform attests an enclave that the policy names, and the endorsing node passes the policy.  The
    registry then has exactly this registration added or renewed, with the same extra keys if it is renewed. *)
Theorem only_admitted_instances_register ctx body s s' g :
  ready s → rofl_of s g → registered g → is_check_only (st_env s) = false → fits64 (rg_expiration body) →
  tx_register ctx body s = (Ok tt, s') →
  ∃ cfg r, apps g !! rg_app body = Some cfg ∧ admitted ctx s cfg body r ∧ replaces r g ∧ rofl_of s' (register r g).
Proof. apply tx_register_inv. Qed.

(** Whoever is taken for an instance of an application is one: the lookup of the instance behind the origin of a
    transaction does not panic, it writes nothing, and what it returns is a live registration of that application,
    of an enclave for which the key that signed the transaction speaks, as its attestation key or as an extra key. *)
Theorem origin_is_a_registered_instance {E} s g pk app :
  registered g → keys_distinct g pk → rofl_of s g → origin_key s pk →
  ∃ o, get_origin_registration (E := E) app s = (Ok o, s) ∧
    ∀ r, o = Some r → regs g !! (app, hash_rak (reg_rak r)) = Some r ∧ reg_app r = app ∧
      ∃ pk' r0, pk = Some pk' ∧ speaks_for g pk' r0 ∧ reg_rak r0 = reg_rak r.
Proof. apply get_origin_registration_run. Qed.

(** C12. Keys are derived for instances only: a call that returns a key is encrypted and not made by another call, its
    signer speaks for a registered instance of the application, and the key is the one of that application, kind,
    scope and identifier, and of the node or entity of the instance: what is hashed to the identifier of the key
    determines all of these. *)
Theorem keys_are_for_instances_only `{!KeyLaws} ctx body s s' g res :
  ready s → rofl_of s g → registered g → is_check_only (st_env s) = false →
  (∀ ai, env_tx_auth_info (st_env s) = Some ai → keys_distinct g (caller_public_key ai)) →
  tx_derive_key ctx body s = (Ok res, s') →
  env_tx_call_format (st_env s) = Some EncryptedX25519DeoxysII ∧ env_internal (st_env s) = false ∧
  ∃ ai pk r r0, env_tx_auth_info (st_env s) = Some ai ∧ caller_public_key ai = Some pk ∧
    speaks_for g pk r0 ∧ reg_rak r0 = reg_rak r ∧ reg_app r = dk_app body ∧ regs g !! (dk_app body, hash_rak (reg_rak r)) = Some r ∧
    ∃ t, key_of body r t (dkr_key res) ∧
      ∀ app kind scope key_id reg, key_tuple app kind scope key_id reg t →
        app = dk_app body ∧ kind = dk_kind body ∧ scope = dk_scope body ∧ key_id = dk_key_id body ∧
        key_owner scope reg = key_owner (dk_scope body) (Some r).
Proof.
  intros Hr Hg Hd Hmode Hinj Hrun.
  destruct (tx_derive_key_inv ctx body s s' g res Hr Hg Hd Hmode Hinj Hrun) as (Hf & Hi & ai & pk & r & r0 & Hrest).
  do 2 (split; [done|]). exists ai, pk, r, r0. destruct Hrest as (? & ? & ? & ? & ? & ? & t & Ht & Hkey).
  do 6 (split; [done|]). exists t. split; [done|]. intros app kind scope key_id reg Ht'. by apply (key_tuple_inj _ _ _ _ _ _ _ _ _ _ t).
Qed.
End claims.
End RoflClaims.
