(* ===== verification/ConcreteRofl.v ===== *)
(** The ROFL module on the concrete platform: an enclave of an application registers, and asks for keys. *)
From S2P Require Import Prelude Endian Storage StoreIter Types Fee Errors State Current Concrete Transactions Module Tables.
From S2P Require Import CallFormat Core Gas ConcreteCore Accounts Ledger Accounting Disbursement Moves ConcreteAccounts.
From S2P Require Import Dispatcher Dispatch Subcall ConcreteDispatch Rofl Market MarketTables Endorsements ConcreteMarket.
From S2P Require Import RoflTables Expiry RoflSafety Instances.

#[local] Existing Instances toy_platform toy_mkvs_laws toy_codec toy_core_codec toy_core_config toy_accounts_codec
  toy_accounts_laws toy_market_codec toy_market_laws.

(** * Platform *)

(** Enclaves are given by their keys and node; every node is registered, and all attested enclaves have the same
    identity. *)
#[local] Instance toy_rofl_platform : RoflPlatform := {|
  QuotePolicy := unit; quote_policy_default := tt; EnclaveIdentity := N; enclave_identity_eq_dec := N.eq_dec;
  EndorsedCapabilityTEE := bytes * option bytes * bytes;
  ect_rak e := e.1.1; ect_rek e := e.1.2; ect_node e := e.2;
  ect_verify _ e := Some (7%N, Some e.2); ect_verify_endorsement _ := inr tt;
  ConsensusNode := bytes; nd_entity_id n := n; nd_expiration _ := 100%N; nd_is_compute_worker _ := true;
  nd_is_observer _ := false; nd_has_runtime _ := true;
  registry_node _ id := Some (Some id);
  get_key_pair_id l := concat l; get_or_create_keys k := inr (k, k, k); km_not_initialized := "not initialized";
  dom_to_vec m := x01 :: bits (encode m);
  from_consensus_pk _ := address_default;
|}.
#[local] Instance toy_key_laws : KeyLaws.
Proof.
  split; [|done]. intros m m' [= Heq]. apply (f_equal unbits) in Heq. rewrite !unbits_bits in Heq. injection Heq as Heq.
  by apply (inj encode).
Qed.
#[local] Instance toy_policy_platform : PolicyPlatform := {|
  base64_decode s := Some (str s); attestation_from_slice _ := None; labels_from_slice _ := None;
  provider_label_from_slice _ := None; ATTEST_LABELS_SIGNATURE_CONTEXT := []; node_signature_verify _ _ _ _ := false;
|}.
#[local] Instance toy_rofl_config : RoflConfig := {|
  GAS_COST_CALL_CREATE := 1; GAS_COST_CALL_UPDATE := 1; GAS_COST_CALL_REMOVE := 1; GAS_COST_CALL_REGISTER := 1;
  GAS_COST_CALL_IS_AUTHORIZED_ORIGIN := 1; GAS_COST_CALL_AUTHORIZED_ORIGIN_NODE := 1;
  GAS_COST_CALL_AUTHORIZED_ORIGIN_ENTITY := 1; GAS_COST_CALL_ORIGIN_APP := 1; GAS_COST_CALL_STAKE_THRESHOLDS := 1;
  GAS_COST_CALL_DERIVE_KEY := 1; ROFL_MAX_METADATA_PAIRS := 64; ROFL_MAX_METADATA_KEY_SIZE := 1024;
  ROFL_MAX_METADATA_VALUE_SIZE := 16384; STAKE_APP_CREATE := base_units_native 0; DERIVE_KEY_MAX_KEY_ID_LENGTH := 128;
  MAX_ENDORSEMENT_POLICY_ATOMS := 64; MAX_POLICY_EXPIRATION_EPOCHS := 100;
  verify_atom := verify_atom_tuple [basic_verify_atom; provider_verify_atom];
|}.
#[local] Instance toy_rofl_bounds : RoflBounds.
Proof. split; [by apply N.leb_le|by apply N.leb_le|]. intros. apply reads_atoms. Qed.

(** * Encodings *)

(** Policies as trees. *)
Fixpoint allow_tree (a : AllowedEndorsement) : gen_tree (nat * bytes) :=
  match a with
  | AllowAny => GenLeaf (0%nat, [])
  | AllowComputeRole => GenLeaf (1%nat, [])
  | AllowObserverRole => GenLeaf (2%nat, [])
  | AllowEntity id => GenLeaf (3%nat, id)
  | AllowNode id => GenLeaf (4%nat, id)
  | AllowProvider a => GenLeaf (5%nat, raw a)
  | AllowProviderInstanceAdmin a => GenLeaf (6%nat, raw a)
  | AllowAnd l => GenNode 0 (allow_tree <$> l)
  | AllowOr l => GenNode 1 (allow_tree <$> l)
  end.
Fixpoint tree_allow (t : gen_tree (nat * bytes)) : AllowedEndorsement :=
  match t with
  | GenLeaf (1%nat, _) => AllowComputeRole
  | GenLeaf (2%nat, _) => AllowObserverRole
  | GenLeaf (3%nat, id) => AllowEntity id
  | GenLeaf (4%nat, id) => AllowNode id
  | GenLeaf (5%nat, b) => AllowProvider (default address_default (address_from_bytes b))
  | GenLeaf (6%nat, b) => AllowProviderInstanceAdmin (default address_default (address_from_bytes b))
  | GenNode 0 l => AllowAnd (tree_allow <$> l)
  | GenNode 1 l => AllowOr (tree_allow <$> l)
  | _ => AllowAny
  end.
Lemma tree_allow_tree a : tree_allow (allow_tree a) = a.
Proof.
  revert a. fix IH 1. intros [| | | | |a|a|l|l]; [reflexivity..| | | |]; simpl.
  - unfold address_from_bytes. rewrite bytes_n_of_proj. reflexivity.
  - unfold address_from_bytes. rewrite bytes_n_of_proj. reflexivity.
  - f_equal. induction l as [|a l IHl]; [reflexivity|]. rewrite !fmap_cons. f_equal; [apply IH|exact IHl].
  - f_equal. induction l as [|a l IHl]; [reflexivity|]. rewrite !fmap_cons. f_equal; [apply IH|exact IHl].
Qed.
#[local] Instance allow_eq_dec : EqDecision AllowedEndorsement.
Proof.
  refine (λ a b, cast_if (decide (allow_tree a = allow_tree b))); [|congruence].
  by rewrite <-(tree_allow_tree a), <-(tree_allow_tree b), e.
Defined.
#[local] Instance allow_countable : Countable AllowedEndorsement := inj_countable' allow_tree tree_allow tree_allow_tree.

#[local] Instance policy_eq_dec : EqDecision AppAuthPolicy.
Proof. assert (EqDecision FeePolicy) by solve_decision. intros [[] ? ? ? ?] [[] ? ? ? ?]. solve_decision. Defined.
#[local] Instance policy_countable : Countable AppAuthPolicy.
Proof.
  apply (inj_countable' (λ p, (enclaves p, endorsements p, match fees p with InstancePays => true | _ => false end, max_expiration p))
    (λ x, @Build_AppAuthPolicy toy_rofl_platform tt x.1.1.1 x.1.1.2 (if x.1.2 then InstancePays else EndorsingNodePays) x.2)). by intros [[] ? ? [] ?].
Defined.
#[local] Instance app_eq_dec : EqDecision AppConfig.
Proof. solve_decision. Defined.
#[local] Instance app_countable : Countable AppConfig.
Proof.
  apply (inj_countable (λ c, [encode (app_id c); encode (app_policy c); encode (app_admin c); encode (amount (app_stake c));
      encode (denomination (app_stake c)); encode (app_metadata c); encode (app_secrets c); encode (app_sek c)])
    (λ l, match l with
          | [p1; p2; p3; p4; p5; p6; p7; p8] =>
              x1 ← decode p1; x2 ← decode p2; x3 ← decode p3; x4 ← decode p4; x5 ← decode p5; x6 ← decode p6; x7 ← decode p7;
              x8 ← decode p8;
              Some {| app_id := x1; app_policy := x2; app_admin := x3; app_stake := BaseUnits_new x4 x5; app_metadata := x6;
                      app_secrets := x7; app_sek := x8 |}
          | _ => None end)).
  intros [? ? ? [] ? ? ?]. simpl. by repeat (rewrite decode_encode; simpl).
Defined.
#[local] Instance public_key_countable : Countable PublicKey.
Proof.
  apply (inj_countable' (λ k, match k with Ed25519 b => (0, b) | Secp256k1 b => (1, b) | Secp256r1 b => (2, b)
      | Secp384r1 b => (3, b) | Sr25519 b => (4, b) end%nat)
    (λ x, match x with (O, b) => Ed25519 b | (1, b) => Secp256k1 b | (2, b) => Secp256r1 b | (3, b) => Secp384r1 b
      | (_, b) => Sr25519 b end%nat)). by intros [].
Defined.
#[local] Instance registration_eq_dec : EqDecision Registration.
Proof. solve_decision. Defined.
#[local] Instance registration_countable : Countable Registration.
Proof.
  apply (inj_countable (λ r, [encode (reg_app r); encode (reg_node_id r); encode (reg_entity_id r); encode (reg_rak r);
      encode (reg_rek r); encode (reg_expiration r); encode (reg_extra_keys r); encode (reg_metadata r)])
    (λ l, match l with
          | [p1; p2; p3; p4; p5; p6; p7; p8] =>
              x1 ← decode p1; x2 ← decode p2; x3 ← decode p3; x4 ← decode p4; x5 ← decode p5; x6 ← decode p6; x7 ← decode p7;
              x8 ← decode p8;
              Some {| reg_app := x1; reg_node_id := x2; reg_entity_id := x3; reg_rak := x4; reg_rek := x5; reg_expiration := x6;
                      reg_extra_keys := x7; reg_metadata := x8 |}
          | _ => None end)).
  intros []. simpl. by repeat (rewrite decode_encode; simpl).
Defined.
#[local] Instance endorsement_eq_dec : EqDecision StoredEndorsement.
Proof. assert (EqDecision KeyEndorsementInfo) by solve_decision. solve_decision. Defined.
#[local] Instance endorsement_countable : Countable StoredEndorsement.
Proof.
  apply (inj_countable' (λ e, match e with
      | LegacyEndorsement n r => inl (n, r) | Endorsement k => inr (kei_node_id k, kei_rak k, kei_app_id k) end)
    (λ x, match x with
      | inl (n, r) => LegacyEndorsement n r
      | inr (n, r, a) => Endorsement {| kei_node_id := n; kei_rak := r; kei_app_id := a |} end)). by intros [|[]].
Defined.
#[local] Instance toy_app_fits_dec c : Decision (app_fits c).
Proof. unfold app_fits, policy_fits, fits64. apply _. Defined.
#[local] Instance toy_registration_fits_dec r : Decision (registration_fits r).
Proof. unfold registration_fits, fits64. apply _. Defined.
#[local] Instance toy_rofl_codec : RoflCodec := {|
  rf_parameters_cbor := const_cbor tt;
  rf_app_cbor := toy_cbor app_fits;
  rf_registration_cbor := toy_cbor registration_fits;
  rf_endorsement_cbor := toy_cbor (λ _, True);
  rf_public_key_cbor := toy_cbor (λ _, True);
  rf_event_value e := bits (encode (rofl_event_code e));
  register_from_value _ := inl "not a registration"%string;
|}.
#[local] Instance toy_rofl_laws : RoflLaws.
Proof. split; [apply toy_cbor_laws|done|apply toy_cbor_laws|done|apply toy_cbor_laws|done]. Qed.

(** * A registered instance *)

Definition toy_ctx4 : Ctx :=
  {| ctx_local_config := ∅; ctx_key_manager := Some (λ _ _, inl InvalidEpoch); ctx_round := 1; ctx_epoch := 4;
     ctx_good_compute_entities := []; ctx_bad_compute_entities := []; ctx_messages := []; ctx_max_messages := 2;
     ctx_now := 7000 |}.
Definition toy_policy : AppAuthPolicy := @Build_AppAuthPolicy toy_rofl_platform tt [7%N]
  [AllowAnd [AllowOr [AllowEntity [x08]; AllowComputeRole]; AllowNode [x09]]; AllowProvider alice] EndorsingNodePays 10.
Definition toy_app : AppConfig :=
  {| app_id := app_id_default; app_policy := toy_policy; app_admin := Some alice; app_stake := base_units_native 0;
     app_metadata := ∅; app_secrets := ∅; app_sek := [x05] |}.
Definition toy_ect : EndorsedCapabilityTEE := ([x01; x02], Some [x06], [x09]).
Definition toy_register : Register :=
  {| rg_app := app_id_default; rg_ect := toy_ect; rg_expiration := 9; rg_extra_keys := [Ed25519 [x01; x02]]; rg_metadata := ∅ |}.
Definition toy_reg : Registration :=
  {| reg_app := app_id_default; reg_node_id := [x09]; reg_entity_id := Some [x09]; reg_rak := [x01; x02]; reg_rek := [x06];
     reg_expiration := 9; reg_extra_keys := []; reg_metadata := ∅ |}.

Definition in_tx (t : TransactionWithMeta) : State := set_tx t (root_state Execute toy_root).
Definition with_app (t : TransactionWithMeta) : State := (set_app (E := Empty_set) toy_app (in_tx t)).2.
Definition with_reg (t : TransactionWithMeta) : State := (update_registration toy_reg (with_app t)).2.
Definition no_registry : Registry := {| apps := ∅; regs := ∅; endorsers := ∅; queue := ∅ |}.

Lemma in_tx_ready t : ready (in_tx t).
Proof. split; [by eexists|]. eexists. split; [done|]. split; [apply toy_root_wf|by eexists]. Qed.
Lemma no_registry_of t : rofl_of (in_tx t) no_registry.
Proof.
  assert (Hat : ∀ T k, at_key (in_tx t) ((rofl_prefix ++ T) ++ k) = None).
  { intros T k. unfold at_key, in_tx, toy_root. simpl. apply lookup_singleton_ne. done. }
  split; [apply in_tx_ready|apply table_empty, Hat..].
Qed.
Lemma no_registry_registered : registered no_registry.
Proof.
  split; simpl; intros; repeat match goal with
    | Hk : ∅ !! _ = Some _ |- _ => rewrite lookup_empty in Hk; done
    | Hk : is_Some (∅ !! _) |- _ => rewrite lookup_empty in Hk; by destruct Hk
    end.
Qed.
Lemma toy_app_fits : app_fits toy_app.
Proof. split; by apply N.leb_le. Qed.
Lemma app_registered : registered (put_app toy_app no_registry).
Proof. apply put_app_registered; [apply no_registry_registered|apply toy_app_fits|vm_compute; reflexivity]. Qed.
Lemma with_app_of t : rofl_of (with_app t) (put_app toy_app no_registry).
Proof.
  unfold with_app. destruct (set_app_run (E := Empty_set) _ _ toy_app (no_registry_of t) toy_app_fits) as (s' & -> & Hs). done.
Qed.
Lemma with_app_frame t : frame (in_tx t) (with_app t).
Proof. apply (framed_typed_insert (E := Empty_set) apps_ref (raw (app_id toy_app)) toy_app), in_tx_ready. Qed.
Definition toy_registry : Registry := register toy_reg (put_app toy_app no_registry).
Lemma toy_replaces : replaces toy_reg (put_app toy_app no_registry).
Proof. intros r Hr. simpl in Hr. by rewrite lookup_empty in Hr. Qed.
Lemma toy_registered : registered toy_registry.
Proof. apply register_registered; [apply app_registered|by apply N.leb_le|apply toy_replaces]. Qed.
Lemma with_reg_of t : rofl_of (with_reg t) toy_registry.
Proof.
  unfold with_reg.
  destruct (update_registration_run toy_reg _ _ (with_app_of t) app_registered ltac:(by apply N.leb_le) toy_replaces) as (s' & -> & Hs).
  done.
Qed.
Lemma with_reg_frame t : frame (in_tx t) (with_reg t).
Proof.
  apply (frame_trans _ (with_app t)); [apply with_app_frame|].
  assert (framed (update_registration toy_reg)) as Hf.
  { unfold update_registration, get_registration_hrak, remove_expiration_queue. solve_framed.
    all: exact (framed_typed_insert (E := RoflError) expirations_ref _ Queued). }
  apply Hf, (fr_ready _ _ (with_app_frame t)).
Qed.
Lemma toy_keys_distinct : keys_distinct toy_registry (Some (Ed25519 [x01; x02])).
Proof.
  assert (Hk : ∀ a, key_known toy_registry a ∨ Some (Ed25519 [x01; x02]) = Some a → a = Ed25519 [x01; x02]).
  { intros a [(k & r & Hr & Ha)|[= <-]]; [|done]. unfold toy_registry, register in Hr. cbn [regs put_app no_registry] in Hr.
    apply lookup_insert_Some in Hr as [[_ <-]|[_ Hr]]; [|by rewrite lookup_empty in Hr].
    destruct Ha as [->|Ha]; [done|by apply not_elem_of_nil in Ha]. }
  intros a b ->%Hk ->%Hk. done.
Qed.

(** * Witnesses *)

(** The node of an enclave is a compute node, and the one that the policy names. *)
Lemma policy_means_its_tree_witness :
  verify_policy toy_ctx4 (endorsements toy_policy) toy_ect ∅ toy_tx_state = (Ok (Some [x09]), toy_tx_state).
Proof.
  rewrite (EndorsementClaims.policy_means_its_tree toy_ctx4 toy_policy toy_ect ∅ (Some [x09]) toy_tx_state toy_market).
  - f_equal.
  - reflexivity.
  - intros b l Hl. discriminate Hl.
  - exact toy_market_of.
  - vm_compute. reflexivity.
  - reflexivity.
Defined.

Lemma expiry_takes_the_oldest_witness :
  ∃ s' g', expire_registrations (E := Empty_set) 9 128 (with_reg toy_twm) = (Ok tt, s') ∧ rofl_of s' g' ∧ registered g' ∧ regs g' = ∅.
Proof.
  destruct (ExpiryClaims.expiry_takes_the_oldest (E := Empty_set) 9 128 _ _ (with_reg_of toy_twm) toy_registered)
    as (s' & g' & gone & Hrun & Hg & Hd & _ & Hregs & Hsize & Hgone & _).
  exists s', g'. split; [exact Hrun|]. split; [exact Hg|]. split; [exact Hd|].
  assert (H1 : size gone = 1%nat) by (rewrite Hsize; vm_compute; reflexivity).
  destruct (size_pos_elem_of gone) as [k Hk]; [lia|].
  assert (Hone : ∀ k r, regs toy_registry !! k = Some r → k = (app_id_default, hash_rak [x01; x02])).
  { intros k' r Hr. unfold toy_registry, register in Hr. cbn [regs put_app no_registry] in Hr.
    apply lookup_insert_Some in Hr as [[<- _]|[_ Hr]]; [done|by rewrite lookup_empty in Hr]. }
  apply map_empty. intros k'. rewrite Hregs. case_decide as Hin; [done|].
  destruct (regs toy_registry !! k') as [r|] eqn:Hr; [|done]. exfalso. apply Hin.
  destruct (Hgone k Hk) as (r' & Hr' & _). by rewrite (Hone k' r Hr), <-(Hone k r' Hr').
Defined.

(** The application is created by a call, and an instance registers. *)
Definition create_call : RoflCall :=
  CallCreate {| rc_policy := toy_policy; rc_scheme := CreatorRoundIndex; rc_metadata := ∅ |}.
Definition toy_rofl_run (c : RoflCall) (s : State) : State := (rofl_call toy_ctx4 c s).2.
Lemma create_ok : rofl_call toy_ctx4 create_call toy_tx_state = (Ok tt, toy_rofl_run create_call toy_tx_state).
Proof. unfold toy_rofl_run. apply run_ok. vm_compute. reflexivity. Qed.
Definition created_id : AppId := from_creator_round_index alice 1 0.
Definition register_call : RoflCall :=
  CallRegister {| rg_app := created_id; rg_ect := toy_ect; rg_expiration := 9; rg_extra_keys := []; rg_metadata := ∅ |}.
Lemma register_ok :
  rofl_call toy_ctx4 register_call (toy_rofl_run create_call toy_tx_state)
    = (Ok tt, toy_rofl_run register_call (toy_rofl_run create_call toy_tx_state)).
Proof. unfold toy_rofl_run. apply run_ok. vm_compute. reflexivity. Qed.
Lemma registry_stays_in_order_witness :
  ∃ g', rofl_of (toy_rofl_run register_call (toy_rofl_run create_call toy_tx_state)) g' ∧ registered g'.
Proof.
  apply (RoflClaims.registry_stays_in_order toy_tx_state _ no_registry toy_tx_ready (no_registry_of toy_twm) no_registry_registered).
  apply rtc_l with (toy_rofl_run create_call toy_tx_state).
  - exact (rofl_step_call toy_ctx4 create_call _ _ I create_ok).
  - apply rtc_once. exact (rofl_step_call toy_ctx4 register_call _ _ ltac:(by apply N.leb_le) register_ok).
Defined.

Lemma register_runs : tx_register toy_ctx4 toy_register (with_app toy_twm) = (Ok tt, (tx_register toy_ctx4 toy_register (with_app toy_twm)).2).
Proof. apply run_ok. vm_compute. reflexivity. Qed.
Lemma only_admitted_instances_register_witness :
  ∃ r, admitted toy_ctx4 (with_app toy_twm) toy_app toy_register r ∧
    rofl_of (tx_register toy_ctx4 toy_register (with_app toy_twm)).2 (register r (put_app toy_app no_registry)).
Proof.
  destruct (RoflClaims.only_admitted_instances_register toy_ctx4 toy_register (with_app toy_twm) _ (put_app toy_app no_registry)
    (fr_ready _ _ (with_app_frame toy_twm)) (with_app_of toy_twm) app_registered ltac:(vm_compute; reflexivity)
    ltac:(by apply N.leb_le) register_runs) as (cfg & r & Hcfg & Hr & _ & Hg).
  exists r. split; [|exact Hg]. simpl in Hcfg. rewrite lookup_insert_eq in Hcfg. by injection Hcfg as <-.
Defined.

Lemma origin_is_a_registered_instance_witness :
  ∃ o, get_origin_registration (E := Empty_set) app_id_default (with_reg toy_twm) = (Ok o, with_reg toy_twm) ∧
    ∀ r, o = Some r → reg_app r = app_id_default.
Proof.
  destruct (RoflClaims.origin_is_a_registered_instance (E := Empty_set) (with_reg toy_twm) toy_registry
    (Some (Ed25519 [x01; x02])) app_id_default toy_registered toy_keys_distinct (with_reg_of toy_twm)) as (o & Hrun & Ho).
  { unfold origin_key. vm_compute. reflexivity. }
  exists o. split; [exact Hrun|]. intros r Hr. apply (Ho r Hr).
Defined.

(** The instance asks for a key of its node, in an encrypted call. *)
Definition key_twm : TransactionWithMeta :=
  {| twm_data := {| tx_version := 1;
       tx_call := {| call_format := EncryptedX25519DeoxysII; call_method := "rofl.DeriveKey"; call_body := []; call_read_only := false |};
       tx_auth_info := toy_auth |};
     twm_size := 40; twm_index := 0; twm_hash := toy_digest [] |}.
Definition toy_derive : DeriveKey :=
  {| dk_app := app_id_default; dk_kind := EntropyV0; dk_scope := ScopeNode; dk_generation := 0; dk_key_id := [x0a] |}.
Definition derived : M RoflError DeriveKeyResponse := tx_derive_key toy_ctx4 toy_derive.
Definition derived_key : DeriveKeyResponse := match (derived (with_reg key_twm)).1 with Ok res => res | _ => {| dkr_key := [] |} end.
Lemma derive_runs : derived (with_reg key_twm) = (Ok derived_key, (derived (with_reg key_twm)).2).
Proof. apply run_ok. vm_compute. reflexivity. Qed.
Lemma keys_are_for_instances_only_witness :
  ∃ r t, regs toy_registry !! (app_id_default, hash_rak (reg_rak r)) = Some r ∧ key_of toy_derive r t (dkr_key derived_key).
Proof.
  destruct (RoflClaims.keys_are_for_instances_only toy_ctx4 toy_derive (with_reg key_twm) (derived (with_reg key_twm)).2 toy_registry derived_key
    (fr_ready _ _ (with_reg_frame key_twm)) (with_reg_of key_twm) toy_registered ltac:(vm_compute; reflexivity))
    as (_ & _ & ai & pk & r & r0 & _ & _ & _ & _ & _ & Hr & t & Hkey & _).
  - rewrite (fr_env _ _ (with_reg_frame key_twm)). intros ai [= <-]. exact toy_keys_distinct.
  - exact derive_runs.
  - by exists r, t.
Defined.
