(* ===== verification/Metering.v ===== *)
(** Gas metering instrumentation of contract code (src/runtime-sdk/modules/contracts/src/abi/gas.rs).

    A first pass over a function splits its instructions into metered blocks, which are always executed as a
    whole, and a second pass puts code in front of each of them that charges its cost. *)
From S2P Require Import Prelude.

(** The intermediate representation of contract code, as the contracts module sees it through the walrus
    library (src/runtime-sdk/modules/contracts/src/abi/gas.rs and abi/oasis/validation.rs).

    The operators are those that the validation enumerates.  An instruction that the module does not tell from
    others is [Other].  A function is an arena of instruction sequences, which nested instructions refer to by
    their index; debug locations are left out. *)

Module IR.

(** An index into the arena of sequences of a function. *)
Notation InstrSeqId := nat (only parsing).
Notation GlobalId := N (only parsing).

Inductive BinaryOp : Type :=
  | F32Eq | F32Ne | F32Lt | F32Gt | F32Le | F32Ge | F64Eq | F64Ne | F64Lt | F64Gt | F64Le | F64Ge
  | F32Add | F32Sub | F32Mul | F32Div | F32Min | F32Max | F32Copysign | F64Add | F64Sub | F64Mul
  | F64Div | F64Min | F64Max | F64Copysign | F32x4ReplaceLane (lane : N)
  | F64x2ReplaceLane (lane : N) | F32x4Eq | F32x4Ne | F32x4Lt | F32x4Gt | F32x4Le | F32x4Ge
  | F64x2Eq | F64x2Ne | F64x2Lt | F64x2Gt | F64x2Le | F64x2Ge | F32x4Add | F32x4Sub | F32x4Mul
  | F32x4Div | F32x4Min | F32x4Max | F32x4PMin | F32x4PMax | F64x2Add | F64x2Sub | F64x2Mul
  | F64x2Div | F64x2Min | F64x2Max | F64x2PMin | F64x2PMax | I32Eq | I32Ne | I32LtS | I32LtU
  | I32GtS | I32GtU | I32LeS | I32LeU | I32GeS | I32GeU | I64Eq | I64Ne | I64LtS | I64LtU | I64GtS
  | I64GtU | I64LeS | I64LeU | I64GeS | I64GeU | I32Add | I32Sub | I32Mul | I32DivS | I32DivU
  | I32RemS | I32RemU | I32And | I32Or | I32Xor | I32Shl | I32ShrS | I32ShrU | I32Rotl | I32Rotr
  | I64Add | I64Sub | I64Mul | I64DivS | I64DivU | I64RemS | I64RemU | I64And | I64Or | I64Xor
  | I64Shl | I64ShrS | I64ShrU | I64Rotl | I64Rotr | I8x16ReplaceLane (lane : N)
  | I16x8ReplaceLane (lane : N) | I32x4ReplaceLane (lane : N) | I64x2ReplaceLane (lane : N)
  | I8x16Eq | I8x16Ne | I8x16LtS | I8x16LtU | I8x16GtS | I8x16GtU | I8x16LeS | I8x16LeU | I8x16GeS
  | I8x16GeU | I16x8Eq | I16x8Ne | I16x8LtS | I16x8LtU | I16x8GtS | I16x8GtU | I16x8LeS | I16x8LeU
  | I16x8GeS | I16x8GeU | I32x4Eq | I32x4Ne | I32x4LtS | I32x4LtU | I32x4GtS | I32x4GtU | I32x4LeS
  | I32x4LeU | I32x4GeS | I32x4GeU | I64x2Eq | I64x2Ne | I64x2LtS | I64x2GtS | I64x2LeS | I64x2GeS
  | V128And | V128Or | V128Xor | V128AndNot | I8x16Shl | I8x16ShrS | I8x16ShrU | I8x16Add
  | I8x16AddSatS | I8x16AddSatU | I8x16Sub | I8x16SubSatS | I8x16SubSatU | I16x8Shl | I16x8ShrS
  | I16x8ShrU | I16x8Add | I16x8AddSatS | I16x8AddSatU | I16x8Sub | I16x8SubSatS | I16x8SubSatU
  | I16x8Mul | I32x4Shl | I32x4ShrS | I32x4ShrU | I32x4Add | I32x4Sub | I32x4Mul | I64x2Shl
  | I64x2ShrS | I64x2ShrU | I64x2Add | I64x2Sub | I64x2Mul | I8x16NarrowI16x8S | I8x16NarrowI16x8U
  | I16x8NarrowI32x4S | I16x8NarrowI32x4U | I8x16RoundingAverageU | I16x8RoundingAverageU
  | I8x16MinS | I8x16MinU | I8x16MaxS | I8x16MaxU | I16x8MinS | I16x8MinU | I16x8MaxS | I16x8MaxU
  | I32x4MinS | I32x4MinU | I32x4MaxS | I32x4MaxU | I32x4DotI16x8S | I16x8Q15MulrSatS
  | I16x8ExtMulLowI8x16S | I16x8ExtMulHighI8x16S | I16x8ExtMulLowI8x16U | I16x8ExtMulHighI8x16U
  | I32x4ExtMulLowI16x8S | I32x4ExtMulHighI16x8S | I32x4ExtMulLowI16x8U | I32x4ExtMulHighI16x8U
  | I64x2ExtMulLowI32x4S | I64x2ExtMulHighI32x4S | I64x2ExtMulLowI32x4U | I64x2ExtMulHighI32x4U.

Inductive UnaryOp : Type :=
  | F32Abs | F32Neg | F32Ceil | F32Floor | F32Trunc | F32Nearest | F32Sqrt | F64Abs | F64Neg
  | F64Ceil | F64Floor | F64Trunc | F64Nearest | F64Sqrt | I32TruncSF32 | I32TruncUF32
  | I32TruncSF64 | I32TruncUF64 | I64TruncSF32 | I64TruncUF32 | I64TruncSF64 | I64TruncUF64
  | F32ConvertSI32 | F32ConvertUI32 | F32ConvertSI64 | F32ConvertUI64 | F32DemoteF64
  | F64ConvertSI32 | F64ConvertUI32 | F64ConvertSI64 | F64ConvertUI64 | F64PromoteF32
  | I32ReinterpretF32 | I64ReinterpretF64 | F32ReinterpretI32 | F64ReinterpretI64 | F32x4Splat
  | F32x4ExtractLane (lane : N) | F64x2Splat | F64x2ExtractLane (lane : N) | F32x4Abs | F32x4Neg
  | F32x4Sqrt | F32x4Ceil | F32x4Floor | F32x4Trunc | F32x4Nearest | F64x2Abs | F64x2Neg
  | F64x2Sqrt | F64x2Ceil | F64x2Floor | F64x2Trunc | F64x2Nearest | I32x4TruncSatF64x2SZero
  | I32x4TruncSatF64x2UZero | F64x2ConvertLowI32x4S | F64x2ConvertLowI32x4U | F32x4DemoteF64x2Zero
  | F64x2PromoteLowF32x4 | I32x4TruncSatF32x4S | I32x4TruncSatF32x4U | F32x4ConvertI32x4S
  | F32x4ConvertI32x4U | I32TruncSSatF32 | I32TruncUSatF32 | I32TruncSSatF64 | I32TruncUSatF64
  | I64TruncSSatF32 | I64TruncUSatF32 | I64TruncSSatF64 | I64TruncUSatF64 | I32Eqz | I32Clz
  | I32Ctz | I32Popcnt | I64Eqz | I64Clz | I64Ctz | I64Popcnt | I32WrapI64 | I64ExtendSI32
  | I64ExtendUI32 | I32Extend8S | I32Extend16S | I64Extend8S | I64Extend16S | I64Extend32S
  | I8x16Splat | I8x16ExtractLaneS (lane : N) | I8x16ExtractLaneU (lane : N) | I16x8Splat
  | I16x8ExtractLaneS (lane : N) | I16x8ExtractLaneU (lane : N) | I32x4Splat
  | I32x4ExtractLane (lane : N) | I64x2Splat | I64x2ExtractLane (lane : N) | V128Not | V128AnyTrue
  | I8x16Abs | I8x16Popcnt | I8x16Neg | I8x16AllTrue | I8x16Bitmask | I16x8Abs | I16x8Neg
  | I16x8AllTrue | I16x8Bitmask | I32x4Abs | I32x4Neg | I32x4AllTrue | I32x4Bitmask | I64x2Abs
  | I64x2Neg | I64x2AllTrue | I64x2Bitmask | I16x8ExtAddPairwiseI8x16S | I16x8ExtAddPairwiseI8x16U
  | I32x4ExtAddPairwiseI16x8S | I32x4ExtAddPairwiseI16x8U | I64x2ExtendLowI32x4S
  | I64x2ExtendHighI32x4S | I64x2ExtendLowI32x4U | I64x2ExtendHighI32x4U | I16x8WidenLowI8x16S
  | I16x8WidenLowI8x16U | I16x8WidenHighI8x16S | I16x8WidenHighI8x16U | I32x4WidenLowI16x8S
  | I32x4WidenLowI16x8U | I32x4WidenHighI16x8S | I32x4WidenHighI16x8U.

Inductive ValType : Type := I32 | I64 | F32 | F64 | V128 | Ref.
Inductive Literal : Type :=
  | ConstI32 (n : N) | ConstI64 (n : N) | ConstF32 (bits : N) | ConstF64 (bits : N) | ConstV128 (n : N).
(** The kind of a load or store: of a float, or of anything else. *)
Inductive AccessKind : Type := AccessF32 | AccessF64 | AccessOther.

Inductive Instr : Type :=
  | Block (seq : InstrSeqId)
  | Loop (seq : InstrSeqId)
  | IfElse (consequent alternative : InstrSeqId)
  | Call (func : N)
  | CallIndirect (ty table : N)
  | LocalGet (local : N)
  | LocalSet (local : N)
  | LocalTee (local : N)
  | GlobalGet (global : GlobalId)
  | GlobalSet (global : GlobalId)
  | Const (value : Literal)
  | Binop (op : BinaryOp)
  | Unop (op : UnaryOp)
  | Br (block : InstrSeqId)
  | BrIf (block : InstrSeqId)
  | BrTable (blocks : list InstrSeqId) (default : InstrSeqId)
  | Return
  | Unreachable
  | Load (kind : AccessKind)
  | Store (kind : AccessKind)
  | Other (opcode : N).

Notation InstrSeq := (list Instr).
Record LocalFunction : Type := { entry_block : InstrSeqId; arena : list InstrSeq }.
(** [LocalFunction::block]. *)
Definition block (func : LocalFunction) (id : InstrSeqId) : InstrSeq := default [] (arena func !! id).

(** The sequences that an instruction contains. *)
Definition nested (i : Instr) : list InstrSeqId :=
  match i with
  | Block s | Loop s => [s]
  | IfElse c a => [c; a]
  | _ => []
  end.

(** The sequences reachable from [id] through at most [d] levels, in order ([dfs_in_order]). *)
Fixpoint sequences (func : LocalFunction) (d : nat) (id : InstrSeqId) : list InstrSeqId :=
  id :: match d with
        | 0 => []
        | S d => block func id ≫= λ i, nested i ≫= sequences func d
        end.
(** No sequence below [id] is nested deeper than [d]. *)
Fixpoint shallow (func : LocalFunction) (d : nat) (id : InstrSeqId) : Prop :=
  match d with
  | 0 => ∀ i, i ∈ block func id → nested i = []
  | S d => ∀ i s, i ∈ block func id → s ∈ nested i → shallow func d s
  end.

Lemma shallow_0 func id : shallow func 0 id ↔ Forall (λ i, nested i = []) (block func id).
Proof. by rewrite Forall_forall. Qed.
Lemma shallow_S func d id : shallow func (S d) id ↔ Forall (λ i, Forall (shallow func d) (nested i)) (block func id).
Proof.
  rewrite Forall_forall. simpl. split.
  - intros Hs i Hi. apply Forall_forall. eauto.
  - intros Hs i s Hi. specialize (Hs i Hi). rewrite Forall_forall in Hs. auto.
Qed.
#[global] Instance shallow_dec func d : ∀ id, Decision (shallow func d id).
Proof.
  induction d as [|d IH]; intros id.
  - refine (cast_if (decide (Forall (λ i, nested i = []) (block func id)))); by rewrite shallow_0.
  - refine (cast_if (decide (Forall (λ i, Forall (shallow func d) (nested i)) (block func id)))); by rewrite shallow_S.
Defined.

(** ** Modules *)
Inductive FunctionKind : Type := Import | Local (local : LocalFunction) | Uninitialized.
Record Function : Type := { fun_params : list ValType; fun_results : list ValType; kind : FunctionKind }.
Record Global : Type := { global_ty : ValType; global_mutable : bool; global_init : option Literal }.
Inductive ExportItem : Type :=
  | ExportFunction (func : N) | ExportTable (table : N) | ExportMemory (memory : N) | ExportGlobal (global : GlobalId).
Record Export : Type := { export_name : string; export_item : ExportItem }.
(** Of memories only the number matters, of tables and elements the types, of locals their types. *)
Record Module_ : Type := {
  exports : list Export;
  start : option N;
  memories : N;
  functions : list Function;
  tables : list ValType;
  elements : list ValType;
  globals : list Global;
  locals : list ValType;
}.

End IR.

Import IR.

Definition EXPORT_GAS_LIMIT : string := "gas_limit".
Definition EXPORT_GAS_LIMIT_EXHAUSTED : string := "gas_limit_exhausted".

(** Instruction cost function. *)
Definition instruction_cost (instr : Instr) : N :=
  match instr with
  | Loop _ | Block _ => 2
  | LocalGet _ | LocalSet _ | LocalTee _ | GlobalGet _ | GlobalSet _ | Const _ => 1
  | Call _ => 15
  | CallIndirect _ _ => 20
  | Br _ | BrIf _ => 3
  | BrTable _ _ => 4
  | Binop op =>
      match op with
      | I32Eq | I32Ne | I32LtS | I32LtU | I32GtS | I32GtU | I32LeS | I32LeU | I32GeS | I32GeU | I64Eq | I64Ne
      | I64LtS | I64LtU | I64GtS | I64GtU | I64LeS | I64LeU | I64GeS | I64GeU | I32Add | I32Sub | I32Mul
      | I32And | I32Or | I32Xor | I32Shl | I32ShrS | I32ShrU | I32Rotl | I32Rotr | I64Add | I64Sub | I64Mul
      | I64And | I64Or | I64Xor | I64Shl | I64ShrS | I64ShrU | I64Rotl | I64Rotr => 1
      | I32DivS | I32DivU | I32RemS | I32RemU | I64DivS | I64DivU | I64RemS | I64RemU => 4
      | _ => 3
      end
  | Unop op =>
      match op with
      | I32Eqz | I32Clz | I32Ctz | I32Popcnt | I64Eqz | I64Clz | I64Ctz | I64Popcnt => 1
      | _ => 3
      end
  | _ => 10
  end%N.

(** A block of instructions which is metered. *)
Record MeteredBlock : Type := {
  mb_seq_id : nat;
  mb_start_index : nat;
  mb_cost : N;
  mb_merge_index : option nat;
}.
Definition metered_new (seq_id start_index : nat) : MeteredBlock :=
  {| mb_seq_id := seq_id; mb_start_index := start_index; mb_cost := 0; mb_merge_index := None |}.
Definition mergable (b : MeteredBlock) (start_index : nat) : MeteredBlock :=
  {| mb_seq_id := mb_seq_id b; mb_start_index := start_index; mb_cost := 0;
     mb_merge_index := Some (mb_start_index b) |}.
Definition add_cost (b : MeteredBlock) (c : N) : MeteredBlock :=
  {| mb_seq_id := mb_seq_id b; mb_start_index := mb_start_index b; mb_cost := mb_cost b + c;
     mb_merge_index := mb_merge_index b |}.

(** The finalized metered blocks of each sequence. *)
Notation MeteredBlocks := (gmap nat (list MeteredBlock)).
Definition finalize (blocks : MeteredBlocks) (b : MeteredBlock) : MeteredBlocks :=
  if (0 <? mb_cost b)%N then <[mb_seq_id b := default [] (blocks !! mb_seq_id b) ++ [b]]> blocks else blocks.

(** An entry of the traversal stack: a sequence, where to go on in it, and the current metered block. *)
Notation Frame := (nat * nat * MeteredBlock)%type.
(** What the traversal of the instructions of one sequence comes to: it descends, or it reaches the end. *)
Inductive Traversed : Type :=
  | Descend (pushed : list Frame) (blocks : MeteredBlocks)
  | Finished (b : MeteredBlock) (blocks : MeteredBlocks).

Fixpoint traverse_instrs (seq_id index : nat) (instrs : InstrSeq) (b : MeteredBlock) (blocks : MeteredBlocks) : Traversed :=
  match instrs with
  | [] => Finished b blocks
  | instr :: instrs =>
      let b := add_cost b (instruction_cost instr) in
      match instr with
      | Block seq => Descend [(seq, 0, b); (seq_id, S index, mergable b (S index))] blocks
      | Loop seq =>
          Descend [(seq, 0, metered_new seq 0); (seq_id, S index, metered_new seq_id (S index))] (finalize blocks b)
      | IfElse consequent alternative =>
          Descend [(consequent, 0, metered_new consequent 0); (alternative, 0, metered_new alternative 0);
                   (seq_id, S index, metered_new seq_id (S index))] (finalize blocks b)
      | Call _ | CallIndirect _ _ | Br _ | BrIf _ | BrTable _ _ | Return =>
          traverse_instrs seq_id (S index) instrs (metered_new seq_id (S index)) (finalize blocks b)
      | _ => traverse_instrs seq_id (S index) instrs b blocks
      end
  end.

(** Whether a block that reached the end of its sequence is the one that the frame above goes on with. *)
Definition merges (upper b : MeteredBlock) : bool :=
  match mb_merge_index upper with
  | Some index => (mb_seq_id upper =? mb_seq_id b)%nat && (index =? mb_start_index b)%nat
  | None => false
  end.

(** The traversal, top of the stack first; [None] when it is not over after [fuel] frames. *)
Fixpoint traverse_blocks (func : LocalFunction) (fuel : nat) (stack : list Frame) (blocks : MeteredBlocks)
    : option MeteredBlocks :=
  match stack with
  | [] => Some blocks
  | (seq_id, index, b) :: stack =>
      match fuel with
      | 0 => None
      | S fuel =>
          match traverse_instrs seq_id index (drop index (block func seq_id)) b blocks with
          | Descend pushed blocks => traverse_blocks func fuel (pushed ++ stack) blocks
          | Finished b blocks =>
              match stack with
              | (seq_id', index', upper) :: stack' =>
                  if merges upper b then traverse_blocks func fuel ((seq_id', index', b) :: stack') blocks
                  else traverse_blocks func fuel stack (finalize blocks b)
              | [] => traverse_blocks func fuel [] (finalize blocks b)
              end
          end
      end
  end.
(** Enough fuel for functions whose sequences form a tree: a frame per sequence and per instruction. *)
Definition traversal_fuel (func : LocalFunction) : nat := sum_list (map (λ instrs, S (length instrs)) (arena func)).
Definition determine_metered_blocks (func : LocalFunction) : option MeteredBlocks :=
  traverse_blocks func (traversal_fuel func)
    [(entry_block func, 0, metered_new (entry_block func) 0)] ∅.

(** The code that charges a block, and the sequences it adds to the arena. *)
Definition inject_metering (arena : list InstrSeq) (b : MeteredBlock) (gas_limit_global gas_limit_exhausted_global : N)
    : list InstrSeq * list Instr :=
  let cost := Const (ConstI64 (mb_cost b mod 2 ^ 64)) in
  let id := length arena in
  (arena ++ [[]; [cost; GlobalSet gas_limit_exhausted_global; Unreachable]; []],
   [GlobalGet gas_limit_global; cost; Binop I64LtU; IfElse (id + 1) (id + 2);
    GlobalGet gas_limit_global; cost; Binop I64Sub; GlobalSet gas_limit_global]).

(** The instructions of a sequence with the metered block that is charged before each, if any. *)
Fixpoint place (blocks : list MeteredBlock) (index : nat) (instrs : InstrSeq) : list (option MeteredBlock * Instr) :=
  match instrs with
  | [] => []
  | instr :: instrs =>
      match blocks with
      | b :: blocks' =>
          if (mb_start_index b =? index)%nat then (Some b, instr) :: place blocks' (S index) instrs
          else (None, instr) :: place blocks (S index) instrs
      | [] => (None, instr) :: place [] (S index) instrs
      end
  end.
Fixpoint emit (gl gx : N) (arena : list InstrSeq) (placed : list (option MeteredBlock * Instr))
    : list InstrSeq * list Instr :=
  match placed with
  | [] => (arena, [])
  | (o, instr) :: placed =>
      let '(arena, metering) := match o with Some b => inject_metering arena b gl gx | None => (arena, []) end in
      let '(arena, instrs) := emit gl gx arena placed in
      (arena, metering ++ instr :: instrs)
  end.
(** One sequence of the second pass. *)
Definition transform_sequence (gl gx : N) (arena : list InstrSeq) (seq_id : nat) (blocks : list MeteredBlock) : list InstrSeq :=
  let original_instrs := default [] (arena !! seq_id) in
  let '(arena, new_instrs) := emit gl gx arena (place blocks 0 original_instrs) in
  <[seq_id := new_instrs]> arena.
(** The map of blocks is iterated in the order of the sequences. *)
Definition transform_function (func : LocalFunction) (gl gx : N) : option LocalFunction :=
  blocks ← determine_metered_blocks func;
  Some {| entry_block := entry_block func;
          arena := foldl (λ arena seq_id,
                     match blocks !! seq_id with
                     | Some bs => transform_sequence gl gx arena seq_id bs
                     | None => arena
                     end) (arena func) (seq 0 (length (arena func))) |}.

(** Inject gas metering instrumentation into the module. *)
Definition gas_global : Global :=
  {| global_ty := I64; global_mutable := true; global_init := Some (ConstI64 0) |}.
Definition transform_kind (k : FunctionKind) (gl gx : N) : option FunctionKind :=
  match k with
  | Local func => Local <$> transform_function func gl gx
  | k => Some k
  end.
Definition transform (m : Module_) : option Module_ :=
  let gas_limit_global := N.of_nat (length (globals m)) in
  let gas_limit_exhausted_global := N.of_nat (S (length (globals m))) in
  funcs ← mapM (λ f,
    k ← transform_kind (kind f) gas_limit_global gas_limit_exhausted_global;
    Some {| fun_params := fun_params f; fun_results := fun_results f; kind := k |}) (functions m);
  Some {|
    exports := exports m ++
      [{| export_name := EXPORT_GAS_LIMIT; export_item := ExportGlobal gas_limit_global |};
       {| export_name := EXPORT_GAS_LIMIT_EXHAUSTED; export_item := ExportGlobal gas_limit_exhausted_global |}];
    start := start m;
    memories := memories m;
    functions := funcs;
    tables := tables m;
    elements := elements m;
    globals := globals m ++ [gas_global; gas_global];
    locals := locals m;
  |}.
