(* ===== verification/Metered.v ===== *)
(** What gas metering charges: every path through a function pays for the instructions it executes.

    [path] is the control flow of a function: the positions that an execution may visit, and how it ends.
    [metered] describes charges at positions with which every path pays exactly what it costs. *)
From S2P Require Import Prelude Metering.

Import IR.

(** * Control flow *)

(** How an execution leaves a sequence; it is [Stopped] when it traps or is observed before its end. *)
Inductive Outcome : Type := Fell | To (target : nat) | Returned | Stopped.

(** Whether the instruction after a plain instruction may be next. *)
Definition falls_through (i : Instr) : bool :=
  match i with
  | Br _ | BrTable _ _ | Return | Unreachable => false
  | Block _ | Loop _ | IfElse _ _ => false
  | _ => true
  end.
Definition targets (i : Instr) : list nat :=
  match i with
  | Br t | BrIf t => [t]
  | BrTable ts t => t :: ts
  | _ => []
  end.
(** A branch to a block or to an arm of a conditional goes to its end, one to a loop to its start. *)
Definition ends (i : Instr) (b : nat) (o : Outcome) : Prop :=
  o = Fell ∨ (o = To b ∧ i ≠ Loop b).
Definition leaves_out (b : nat) (o : Outcome) : Prop :=
  match o with Fell => False | To t => t ≠ b | Returned | Stopped => True end.

Notation Pos := (nat * nat)%type.

Inductive path (f : LocalFunction) : nat → nat → list Pos → Outcome → Prop :=
  | path_stop s i : path f s i [] Stopped
  | path_end s i : block f s !! i = None → path f s i [] Fell
  | path_next s i instr π o :
      block f s !! i = Some instr → falls_through instr = true →
      path f s (S i) π o → path f s i ((s, i) :: π) o
  | path_trap s i instr :
      block f s !! i = Some instr → nested instr = [] → path f s i [(s, i)] Stopped
  | path_branch s i instr t :
      block f s !! i = Some instr → t ∈ targets instr → path f s i [(s, i)] (To t)
  | path_return s i :
      block f s !! i = Some Return → path f s i [(s, i)] Returned
  | path_leave s i instr b π o :
      block f s !! i = Some instr → b ∈ nested instr →
      path f b 0 π o → leaves_out b o → path f s i ((s, i) :: π) o
  | path_through s i instr b π1 o1 π2 o :
      block f s !! i = Some instr → b ∈ nested instr →
      path f b 0 π1 o1 → ends instr b o1 →
      path f s (S i) π2 o → path f s i ((s, i) :: π1 ++ π2) o
  | path_again s i b π1 π2 o :
      block f s !! i = Some (Loop b) → path f b 0 π1 (To b) →
      path f s i ((s, i) :: π2) o → path f s i ((s, i) :: π1 ++ π2) o.

(** * Costs and charges of paths *)

Definition cost_at (f : LocalFunction) (p : Pos) : N :=
  match block f p.1 !! p.2 with Some instr => instruction_cost instr | None => 0 end.
Definition sum_over {A} (g : A → N) (l : list A) : N := foldr (λ x n, g x + n)%N 0%N l.
Notation path_cost f := (sum_over (cost_at f)).

Lemma sum_over_app {A} (g : A → N) l k : sum_over g (l ++ k) = (sum_over g l + sum_over g k)%N.
Proof. induction l as [|x l IH]; simpl; [done|]. rewrite IH. lia. Qed.

Lemma instruction_cost_pos i : (0 < instruction_cost i)%N.
Proof. destruct i as [| | | | | | | | | | |op|op| | | | | | | |]; try done; by destruct op. Qed.

(** * Charges that pay exactly *)

Section metered.
Context (f : LocalFunction) (ch : Pos → N).

Definition pos (b : MeteredBlock) : Pos := (mb_seq_id b, mb_start_index b).
(** The charge at the position of a new block is its own, inside of a block nothing is charged. *)
Definition pays (p : Pos) (b : MeteredBlock) : Prop :=
  if (mb_cost b =? 0)%N then pos b = p else ch p = 0%N.
(** The charge of a block that is over is its cost. *)
Definition final (b : MeteredBlock) : Prop := mb_cost b = 0%N ∨ ch (pos b) = mb_cost b.
(** What is paid already for the rest of a block. *)
Definition credit (b : MeteredBlock) : N := if (mb_cost b =? 0)%N then 0 else ch (pos b) - mb_cost b.
Definition covered (b : MeteredBlock) : Prop := mb_cost b = 0%N ∨ (mb_cost b ≤ ch (pos b))%N.

Notation "b +$ i" := (add_cost b (instruction_cost i)) (at level 50).

(** [metered s i b instrs b']: from position [i] of sequence [s] with the instructions [instrs] ahead and the
    block [b] open, the charges pay exactly, and [b'] is open at the end. *)
Inductive metered : nat → nat → MeteredBlock → list Instr → MeteredBlock → Prop :=
  | metered_nil s i b : metered s i b [] b
  | metered_plain s i b instr instrs b' :
      falls_through instr = true ∨ instr = Unreachable → targets instr = [] →
      pays (s, i) b → metered s (S i) (b +$ instr) instrs b' →
      metered s i b (instr :: instrs) b'
  | metered_split s i b instr instrs b' :
      nested instr = [] → pays (s, i) b → final (b +$ instr) →
      metered s (S i) (metered_new s (S i)) instrs b' →
      metered s i b (instr :: instrs) b'
  | metered_arms s i b instr instrs b' :
      (∀ c, instr ≠ Block c) → nested instr ≠ [] → pays (s, i) b → final (b +$ instr) →
      (∀ c, c ∈ nested instr → ∃ bc, metered c 0 (metered_new c 0) (block f c) bc ∧ final bc) →
      metered s (S i) (metered_new s (S i)) instrs b' →
      metered s i b (instr :: instrs) b'
  | metered_block s i b c bc instrs b' :
      pays (s, i) b → metered c 0 (b +$ Block c) (block f c) bc →
      (∀ π o, path f c 0 π o → o = Fell ∨ o = Stopped) → metered s (S i) bc instrs b' →
      metered s i b (Block c :: instrs) b'
  | metered_block_split s i b c bc b1 instrs b' :
      pays (s, i) b → metered c 0 (b +$ Block c) (block f c) bc →
      final bc → mb_cost b1 = 0%N → pos b1 = (s, S i) → metered s (S i) b1 instrs b' →
      metered s i b (Block c :: instrs) b'.

(** What a block costs so far is covered by its charge. *)
Lemma covered_add b i : covered (b +$ i) → covered b.
Proof.
  unfold covered, pos. pose proof (instruction_cost_pos i). simpl. intros [?|?]; [lia|right; lia].
Qed.
Lemma final_covered b : final b → covered b.
Proof. intros [?|He]; [by left|]. right. by rewrite He. Qed.
Lemma metered_covered s i b instrs b' : metered s i b instrs b' → covered b' → covered b.
Proof. induction 1; intros Hb'; eauto using covered_add, final_covered. Qed.

(** One instruction of a block: what the charge at its position adds to the credit. *)
Lemma credit_step p b i : pays p b → covered (b +$ i) → (ch p + credit b = instruction_cost i + credit (b +$ i))%N.
Proof.
  unfold pays, covered, credit. pose proof (instruction_cost_pos i). simpl.
  destruct (N.eqb_spec (mb_cost b) 0) as [H0|H0].
  - intros Hp [?|Hc]; [lia|]. rewrite (proj2 (N.eqb_neq _ _)) by lia. unfold pos in *. simpl in *. rewrite <-Hp. lia.
  - intros Hp [?|Hc]; [lia|]. rewrite (proj2 (N.eqb_neq _ _)) by lia. unfold pos in *. simpl in *. lia.
Qed.
Lemma credit_final b : final b → credit b = 0%N.
Proof. unfold final, credit. case_match; [done|]. apply N.eqb_neq in H. intros [?|He]; [done|]. rewrite He. lia. Qed.
Lemma credit_fresh b : mb_cost b = 0%N → credit b = 0%N.
Proof. unfold credit. by intros ->. Qed.
Lemma credit_new s i : credit (metered_new s i) = 0%N.
Proof. by apply credit_fresh. Qed.

(** The balance of a path: exact, but for one that stops early, which has paid in advance. *)
Definition balanced (b b' : MeteredBlock) (π : list Pos) (o : Outcome) : Prop :=
  match o with
  | Fell => (path_cost f π + credit b' = credit b + sum_over ch π)%N
  | To _ | Returned => (path_cost f π = credit b + sum_over ch π)%N
  | Stopped => (path_cost f π ≤ credit b + sum_over ch π)%N
  end.

Lemma metered_cons_inv s i b instr instrs b' :
  metered s i b (instr :: instrs) b' → pays (s, i) b ∧
  ((falls_through instr = true ∨ instr = Unreachable) ∧ targets instr = [] ∧ metered s (S i) (b +$ instr) instrs b'
   ∨ nested instr = [] ∧ final (b +$ instr) ∧ metered s (S i) (metered_new s (S i)) instrs b'
   ∨ nested instr ≠ [] ∧ final (b +$ instr) ∧ metered s (S i) (metered_new s (S i)) instrs b' ∧
     (∀ c, c ∈ nested instr → ∃ bc, metered c 0 (metered_new c 0) (block f c) bc ∧ final bc)
   ∨ ∃ c bc, instr = Block c ∧ metered c 0 (b +$ Block c) (block f c) bc ∧
     ((∀ π o, path f c 0 π o → o = Fell ∨ o = Stopped) ∧ metered s (S i) bc instrs b'
      ∨ final bc ∧ ∃ b1, mb_cost b1 = 0%N ∧ metered s (S i) b1 instrs b')).
Proof. inversion 1; subst; split; eauto 12. Qed.

(** Balances of steps and of paths one after the other. *)
Lemma balanced_step s i instr b x b' π o :
  block f s !! i = Some instr → pays (s, i) b → covered (b +$ instr) → credit x = credit (b +$ instr) →
  balanced x b' π o → balanced b b' ((s, i) :: π) o.
Proof.
  intros Hi Hp Hc Hx Hb. pose proof (credit_step _ _ _ Hp Hc). unfold balanced in *. simpl.
  replace (cost_at f (s, i)) with (instruction_cost instr) by (unfold cost_at; simpl; by rewrite Hi).
  destruct o; lia.
Qed.
Lemma balanced_app x bc y b' π1 o1 π2 o :
  balanced x bc π1 o1 → (o1 = Fell ∧ credit y = credit bc) ∨ ((∃ t, o1 = To t) ∧ credit y = 0%N) →
  balanced y b' π2 o → balanced x b' (π1 ++ π2) o.
Proof.
  unfold balanced. rewrite !sum_over_app. intros H1 [[-> Hy]|[[t ->] Hy]] H2; destruct o; lia.
Qed.
Lemma balanced_stop b b' : balanced b b' [] Stopped.
Proof. simpl. lia. Qed.
(** The last block of a path that does not reach the end does not matter. *)
Lemma balanced_out x b1 b2 π o : o ≠ Fell → balanced x b1 π o → balanced x b2 π o.
Proof. by destruct o. Qed.

(** The blocks in which a nested sequence and what follows it run. *)
Lemma metered_nested s i b instr instrs b' c :
  metered s i b (instr :: instrs) b' → c ∈ nested instr → covered b' →
  ∃ x bc y, covered (b +$ instr) ∧ credit x = credit (b +$ instr) ∧ metered c 0 x (block f c) bc ∧ covered bc ∧
    metered s (S i) y instrs b' ∧
    (credit y = credit bc ∧ (credit y = 0%N ∨ ∀ π o, path f c 0 π o → o = Fell ∨ o = Stopped)).
Proof.
  intros Hm Hc Hcov. apply metered_cons_inv in Hm as [_ [(Hft & _ & _)|[(Hn & _)|[(Hn & Hf & Hm & Harms)|Hb]]]].
  - by destruct instr, Hft; try done; apply not_elem_of_nil in Hc.
  - rewrite Hn in Hc. by apply not_elem_of_nil in Hc.
  - destruct (Harms c Hc) as (bc & Hbc & Hfc). exists (metered_new c 0), bc, (metered_new s (S i)).
    rewrite !credit_new, !credit_final by done. split_and!; eauto using final_covered.
  - destruct Hb as (c' & bc & -> & Hbc & Hrest). apply list_elem_of_singleton in Hc as ->.
    destruct Hrest as [[Hno Hm]|(Hf & b1 & H0 & Hm)].
    + exists (b +$ Block c'), bc, bc. pose proof (metered_covered _ _ _ _ _ Hm Hcov).
      split_and!; eauto using metered_covered.
    + exists (b +$ Block c'), bc, b1. rewrite (credit_fresh b1), (credit_final bc) by done.
      pose proof (final_covered _ Hf). split_and!; eauto using metered_covered.
Qed.
(** The block in which the instruction after one without nested sequences runs, and that branches end blocks. *)
Lemma metered_simple s i b instr instrs b' :
  metered s i b (instr :: instrs) b' → nested instr = [] → covered b' →
  pays (s, i) b ∧ covered (b +$ instr) ∧ (∃ y, credit y = credit (b +$ instr) ∧ metered s (S i) y instrs b') ∧
  (targets instr ≠ [] ∨ instr = Return → credit (b +$ instr) = 0%N).
Proof.
  intros Hm Hn Hcov. apply metered_cons_inv in Hm as [Hp [(Hft & Ht & Hm)|[(_ & Hf & Hm)|[(? & _)|(c & bc & -> & _)]]]]; [| |done|done].
  - split_and!; eauto using metered_covered. by intros [?| ->]; destruct Hft.
  - split_and!; eauto using final_covered, credit_final.
    exists (metered_new s (S i)). by rewrite credit_new, credit_final.
Qed.

Lemma metered_balanced s i π o : path f s i π o → ∀ b b',
  metered s i b (drop i (block f s)) b' → covered b' → balanced b b' π o.
Proof.
  induction 1 as [s i|s i Hi|s i instr π o Hi Hft _ IH|s i instr Hi Hn|s i instr t Hi Ht|s i Hi
                 |s i instr c π o Hi Hc Hp IH Hout|s i instr c π1 o1 π2 o Hi Hc Hp1 IH1 Hends _ IH2|s i c π1 π2 o Hi Hp1 IH1 _ IH2];
    intros b b' Hm Hcov.
  - apply balanced_stop.
  - rewrite drop_ge in Hm by by apply lookup_ge_None. inversion Hm; subst. simpl. lia.
  - rewrite (drop_S _ _ _ Hi) in Hm. apply metered_simple in Hm as (Hp & Hc & (y & Hy & Hm) & _); [|by destruct instr|done].
    eauto using balanced_step.
  - rewrite (drop_S _ _ _ Hi) in Hm. apply metered_simple in Hm as (Hp & Hc & _ & _); [|done..].
    eauto using balanced_step, balanced_stop.
  - rewrite (drop_S _ _ _ Hi) in Hm. apply metered_simple in Hm as (Hp & Hc & _ & Hz); [|by destruct instr; first [done|apply not_elem_of_nil in Ht]|done].
    eapply (balanced_step s i instr b (metered_new s i)); eauto; [|simpl; by rewrite credit_new].
    rewrite credit_new, Hz; [done|]. left. intros He. rewrite He in Ht. by apply not_elem_of_nil in Ht.
  - rewrite (drop_S _ _ _ Hi) in Hm. apply metered_simple in Hm as (Hp & Hc & _ & Hz); [|done..].
    eapply (balanced_step s i Return b (metered_new s i)); eauto; [|simpl; by rewrite credit_new].
    rewrite credit_new, Hz; [done|]. by right.
  - rewrite (drop_S _ _ _ Hi) in Hm. pose proof (metered_cons_inv _ _ _ _ _ _ Hm) as [Hpay _].
    destruct (metered_nested _ _ _ _ _ _ c Hm Hc Hcov) as (x & bc & y & Hcb & Hx & Hmc & Hcbc & _).
    eapply balanced_step; eauto. eapply (balanced_out _ bc); [by intros ->|]. by apply IH.
  - rewrite (drop_S _ _ _ Hi) in Hm. pose proof (metered_cons_inv _ _ _ _ _ _ Hm) as [Hpay _].
    destruct (metered_nested _ _ _ _ _ _ c Hm Hc Hcov) as (x & bc & y & Hcb & Hx & Hmc & Hcbc & Hmy & Hy & Hz).
    eapply balanced_step; eauto. eapply balanced_app; [by apply IH1|  |by apply IH2].
    destruct Hends as [->|[-> _]]; [by left|right]. split; [by eauto|].
    destruct Hz as [?|Hno]; [done|]. by destruct (Hno _ _ Hp1).
  - pose proof Hm as Hm'. rewrite (drop_S _ _ _ Hi) in Hm. pose proof (metered_cons_inv _ _ _ _ _ _ Hm) as [Hpay _].
    apply metered_cons_inv in Hm as [_ [(Hft & _ & _)|[(Hn & _)|[(Hn & Hf & _ & Harms)|Hb]]]]; [by destruct Hft|done| |by destruct Hb as (? & ? & ? & _)].
    destruct (Harms c) as (bc & Hbc & Hfc); [by left|].
    pose proof (IH1 _ _ Hbc (final_covered _ Hfc)) as H1. pose proof (IH2 _ _ Hm' Hcov) as H2.
    unfold balanced in *. simpl in *. rewrite !sum_over_app, credit_new in *. destruct o; lia.
Qed.

End metered.
