(* ===== verification/MeterRegions.v ===== *)
(** Where the scan puts metered blocks: every block starts in the sequence it meters, blocks of one sequence
    come in order, and no two start at the same place.

    This holds for [tidy] functions.  In others, a block of code that lies in a block, which lies in a block
    that was entered by the same metered block, is attributed to the wrong sequence when it is split. *)
From S2P Require Import Prelude Metering Metered.

(** The traversal that determines metered blocks, as a recursive function on nested sequences.

    [scan] follows the structure of the code; the traversal with an explicit stack computes the same blocks in
    the same order and is over after at most one frame per sequence and per instruction. *)

Import IR.

Section scan.
Context (f : LocalFunction).

Notation "b +$ i" := (add_cost b (instruction_cost i)) (at level 50).
Notation Scanned := (list MeteredBlock * MeteredBlock)%type.

(** What is finalized while the instructions are scanned, and the block that is open after them. *)
Fixpoint scan_instrs (sub : nat → MeteredBlock → Scanned) (s i : nat) (instrs : list Instr) (b : MeteredBlock) : Scanned :=
  match instrs with
  | [] => ([], b)
  | instr :: instrs =>
      let b := b +$ instr in
      match instr with
      | Block c =>
          let '(fins, bc) := sub c b in
          let upper := mergable b (S i) in
          if merges upper bc then
            let '(fins', l) := scan_instrs sub s (S i) instrs bc in (fins ++ fins', l)
          else
            let '(fins', l) := scan_instrs sub s (S i) instrs upper in (fins ++ bc :: fins', l)
      | Loop c =>
          let '(fins, bc) := sub c (metered_new c 0) in
          let '(fins', l) := scan_instrs sub s (S i) instrs (metered_new s (S i)) in
          (b :: fins ++ bc :: fins', l)
      | IfElse c a =>
          let '(fins, bc) := sub c (metered_new c 0) in
          let '(finsa, ba) := sub a (metered_new a 0) in
          let '(fins', l) := scan_instrs sub s (S i) instrs (metered_new s (S i)) in
          (b :: fins ++ bc :: finsa ++ ba :: fins', l)
      | Call _ | CallIndirect _ _ | Br _ | BrIf _ | BrTable _ _ | Return =>
          let '(fins', l) := scan_instrs sub s (S i) instrs (metered_new s (S i)) in (b :: fins', l)
      | _ => scan_instrs sub s (S i) instrs b
      end
  end.
Fixpoint scan (d s : nat) (b : MeteredBlock) : Scanned :=
  match d with
  | 0 => scan_instrs (λ _ b, ([], b)) s 0 (block f s) b
  | S d => scan_instrs (scan d) s 0 (block f s) b
  end.

(** ** The traversal computes the scan *)

(** What the traversal does when the sequence at the top of the stack is over. *)
Definition after (fuel : nat) (stack : list Frame) (r : Scanned) (blocks : MeteredBlocks) : option MeteredBlocks :=
  let blocks := foldl finalize blocks r.1 in
  match stack with
  | (s, i, upper) :: stack' =>
      if merges upper r.2 then traverse_blocks f fuel ((s, i, r.2) :: stack') blocks
      else traverse_blocks f fuel stack (finalize blocks r.2)
  | [] => traverse_blocks f fuel [] (finalize blocks r.2)
  end.
Definition continue (fuel : nat) (stack : list Frame) (t : Traversed) : option MeteredBlocks :=
  match t with
  | Descend pushed blocks => traverse_blocks f fuel (pushed ++ stack) blocks
  | Finished b blocks => after fuel stack ([], b) blocks
  end.
Lemma traverse_frame fuel s i b stack blocks :
  traverse_blocks f (S fuel) ((s, i, b) :: stack) blocks =
  continue fuel stack (traverse_instrs s i (drop i (block f s)) b blocks).
Proof. simpl. by destruct (traverse_instrs _ _ _ _ _). Qed.

(** [n] frames turn the traversal [t] into the scan [r]. *)
Definition scans (n : nat) (t : MeteredBlocks → Traversed) (r : Scanned) : Prop :=
  ∀ fuel stack blocks, continue (n + fuel) stack (t blocks) = after fuel stack r blocks.

Lemma after_cons fuel stack b fins l blocks :
  after fuel stack (b :: fins, l) blocks = after fuel stack (fins, l) (finalize blocks b).
Proof. done. Qed.
Lemma after_app fuel stack fins fins' l blocks :
  after fuel stack (fins ++ fins', l) blocks = after fuel stack (fins', l) (foldl finalize blocks fins).
Proof. unfold after. simpl. by rewrite foldl_app. Qed.

(** Frames of sequences with their own metered block are not merged with. *)
Lemma after_new fuel s i s' i' stack r blocks :
  after fuel ((s, i, metered_new s' i') :: stack) r blocks =
  traverse_blocks f fuel ((s, i, metered_new s' i') :: stack) (finalize (foldl finalize blocks r.1) r.2).
Proof. done. Qed.

(** One frame per sequence and per instruction. *)
Definition weight (l : list nat) : nat := sum_list_with (λ c, S (length (block f c))) l.
Definition frames (w : nat → nat) (instrs : list Instr) : nat :=
  sum_list_with (λ x, S (sum_list_with w (nested x))) instrs.

Definition scans_sub (w : nat → nat) (sub : nat → MeteredBlock → Scanned) (c : nat) : Prop :=
  ∀ b, ∃ n, S n ≤ w c ∧ scans n (traverse_instrs c 0 (block f c) b) (sub c b).

(** A sequence at the top of the stack. *)
Lemma scans_frame w sub c b : scans_sub w sub c → ∃ n, n ≤ w c ∧ ∀ fuel stack blocks,
  traverse_blocks f (n + fuel) ((c, 0, b) :: stack) blocks = after fuel stack (sub c b) blocks.
Proof.
  intros Hs. destruct (Hs b) as (n & Hn & Ht). exists (S n). split; [done|]. intros fuel stack blocks.
  change (S n + fuel) with (S (n + fuel)). rewrite traverse_frame. apply Ht.
Qed.
(** The rest of a sequence at the top of the stack. *)
Lemma scans_rest n s i b r : scans n (traverse_instrs s i (drop i (block f s)) b) r → ∀ fuel stack blocks,
  traverse_blocks f (S n + fuel) ((s, i, b) :: stack) blocks = after fuel stack r blocks.
Proof. intros Ht fuel stack blocks. change (S n + fuel) with (S (n + fuel)). rewrite traverse_frame. apply Ht. Qed.

Lemma drop_tail {A} i (l : list A) x k : drop i l = x :: k → drop (S i) l = k.
Proof. intros Hd. rewrite <-Nat.add_1_r, <-drop_drop, Hd. done. Qed.

(** The steps of the induction: instructions that nest sequences. *)
Lemma scans_block w sub c s i b m (rest : MeteredBlock → Scanned) :
  scans_sub w sub c →
  (∀ b', ∃ n, n ≤ m ∧ scans n (traverse_instrs s (S i) (drop (S i) (block f s)) b') (rest b')) →
  ∃ n, n ≤ S (w c) + m ∧ scans n (λ blocks, Descend [(c, 0, b); (s, S i, mergable b (S i))] blocks)
    (let '(fins, bc) := sub c b in
     if merges (mergable b (S i)) bc then let '(fins', l) := rest bc in (fins ++ fins', l)
     else let '(fins', l) := rest (mergable b (S i)) in (fins ++ bc :: fins', l)).
Proof.
  intros Hc Hrest. destruct (scans_frame _ _ _ b Hc) as (nc & Hnc & Hfc). destruct (sub c b) as [fins bc].
  set (upper := mergable b (S i)) in *.
  destruct (Hrest (if merges upper bc then bc else upper)) as (n & Hn & Hr).
  exists (nc + S n). split; [lia|]. intros fuel stack blocks. cbn [continue app].
  rewrite <-Nat.add_assoc, Hfc. unfold after at 1. cbn [fst snd].
  destruct (merges upper bc); rewrite (scans_rest _ _ _ _ _ Hr).
  - destruct (rest bc) as [fins' l]. by rewrite after_app.
  - destruct (rest upper) as [fins' l]. by rewrite after_app, after_cons.
Qed.
Lemma scans_arms w sub cs s i b m (rest : Scanned) :
  (∀ c, c ∈ cs → scans_sub w sub c) →
  (∃ n, n ≤ m ∧ scans n (traverse_instrs s (S i) (drop (S i) (block f s)) (metered_new s (S i))) rest) →
  ∃ n, n ≤ S (sum_list_with w cs) + m ∧
    scans n (λ blocks, Descend (((λ c, (c, 0, metered_new c 0)) <$> cs) ++ [(s, S i, metered_new s (S i))]) (finalize blocks b))
      (b :: foldr (λ c r, (sub c (metered_new c 0)).1 ++ (sub c (metered_new c 0)).2 :: r) rest.1 cs, rest.2).
Proof.
  intros Hcs (n0 & Hn0 & Hr). 
  cut (∃ n, n ≤ S (sum_list_with w cs) + m ∧ ∀ fuel stack blocks,
    traverse_blocks f (n + fuel) (((λ c, (c, 0, metered_new c 0)) <$> cs) ++ (s, S i, metered_new s (S i)) :: stack) blocks =
    after fuel stack (foldr (λ c r, (sub c (metered_new c 0)).1 ++ (sub c (metered_new c 0)).2 :: r) rest.1 cs, rest.2) blocks).
  { intros (n & Hn & Hf). exists n. split; [done|]. intros fuel stack blocks. rewrite after_cons, <-Hf.
    cbn [continue]. by rewrite <-app_assoc. }
  induction cs as [|c cs IH]; simpl.
  - exists (S n0). split; [lia|]. intros fuel stack blocks. rewrite (scans_rest _ _ _ _ _ Hr). by destruct rest.
  - destruct IH as (n & Hn & Hf); [intros; apply Hcs; by right|].
    destruct (scans_frame _ _ _ (metered_new c 0) (Hcs c ltac:(by left))) as (nc & Hnc & Hfc).
    exists (nc + n). split; [lia|]. intros fuel stack blocks. rewrite <-Nat.add_assoc, Hfc, after_app, after_cons, <-Hf.
    by destruct cs.
Qed.

Lemma scans_instrs w sub s instrs : ∀ i b,
  drop i (block f s) = instrs → (∀ x c, x ∈ instrs → c ∈ nested x → scans_sub w sub c) →
  ∃ n, n ≤ frames w instrs ∧ scans n (traverse_instrs s i instrs b) (scan_instrs sub s i instrs b).
Proof.
  induction instrs as [|x instrs IH]; intros i b Hd Hsub; [by exists 0|].
  pose proof (drop_tail _ _ _ _ Hd) as Hd'.
  assert (∀ c, c ∈ nested x → scans_sub w sub c) as Hx by (intros; eapply Hsub; [by left|done]).
  assert (∀ b', ∃ n, n ≤ frames w instrs ∧ scans n (traverse_instrs s (S i) (drop (S i) (block f s)) b')
      (scan_instrs sub s (S i) instrs b')) as Hrest
    by (intros; rewrite Hd'; apply IH; [done|]; intros; eapply Hsub; [by right|done]).
  clear IH Hsub. unfold frames; cbn [sum_list_with]; fold (frames w instrs).
  destruct x; cbn [traverse_instrs scan_instrs nested sum_list_with] in *; rewrite ?Nat.add_0_r.
  4-21: rewrite Hd' in Hrest.
  4-21: first [destruct (Hrest (metered_new s (S i))) as (n & Hn & Hs); exists n; split; [lia|]; intros fuel stack blocks';
      destruct (scan_instrs _ _ _ _ _); by rewrite after_cons, <-Hs
    |match goal with |- context [scan_instrs _ _ _ _ ?b'] => destruct (Hrest b') as (n & Hn & Hs) end; exists n; split; [lia|exact Hs]].
  - apply (scans_block _ _ _ _ _ _ _ (scan_instrs sub s (S i) instrs)); [apply Hx; by left|done].
  - destruct (scans_arms w sub [seq] s i (b +$ Loop seq) _ _ Hx (Hrest _)) as (n & Hn & Hs). simpl in Hn, Hs.
    exists n. split; [lia|]. destruct (sub seq _). by destruct (scan_instrs _ _ _ _ _).
  - destruct (scans_arms w sub [consequent; alternative] s i (b +$ IfElse consequent alternative) _ _ Hx (Hrest _)) as (n & Hn & Hs).
    simpl in Hn, Hs. exists n. split; [lia|]. destruct (sub consequent _), (sub alternative _). by destruct (scan_instrs _ _ _ _ _).
Qed.

Lemma weight_frames d instrs :
  weight (instrs ≫= λ x, nested x ≫= sequences f d) + length instrs = frames (λ c, weight (sequences f d c)) instrs.
Proof.
  unfold weight, frames. induction instrs as [|x instrs IH]; [done|]. cbn [mbind list_bind length sum_list_with].
  rewrite <-IH, sum_list_with_app. enough (∀ cs, sum_list_with (λ c, S (length (block f c))) (cs ≫= sequences f d) =
    sum_list_with (λ c, sum_list_with (λ c', S (length (block f c'))) (sequences f d c)) cs) as -> by lia.
  intros cs. induction cs as [|c cs IHc]; [done|]. cbn [mbind list_bind sum_list_with]. by rewrite sum_list_with_app, IHc.
Qed.

Lemma scans_scan d : ∀ s, shallow f d s → scans_sub (λ c, weight (sequences f d c)) (scan d) s.
Proof.
  induction d as [|d IH]; intros s Hs b.
  - destruct (scans_instrs (λ _, 0) (λ _ b, ([], b)) s (block f s) 0 b) as (n & Hn & Ht); [done| |].
    { intros x c Hx Hc. rewrite (Hs x Hx) in Hc. by apply not_elem_of_nil in Hc. }
    exists n. split; [|done]. enough (frames (λ _, 0) (block f s) = length (block f s)) as He by (cbn; lia).
    clear. unfold frames. induction (block f s) as [|x instrs IH]; [done|]. cbn [sum_list_with length]. rewrite IH.
    by destruct x.
  - destruct (scans_instrs (λ c, weight (sequences f d c)) (scan d) s (block f s) 0 b) as (n & Hn & Ht); [done| |].
    { intros x c Hx Hc. apply IH. by apply (Hs x c). }
    exists n. split; [|done]. rewrite <-weight_frames in Hn. unfold weight at 1. cbn [sequences sum_list_with]. fold weight.
    unfold weight in *. lia.
Qed.

(** ** The fuel suffices *)

(** The sequences of a function form a tree of at most [d] levels below the first. *)
Definition tree (d : nat) : Prop :=
  shallow f d (entry_block f) ∧ NoDup (sequences f d (entry_block f)) ∧
  Forall (λ c, c < length (arena f)) (sequences f d (entry_block f)).

Lemma sum_submseteq (g : nat → nat) l k : l ⊆+ k → sum_list_with g l ≤ sum_list_with g k.
Proof. induction 1; simpl; lia. Qed.
Lemma sum_arena (A : list InstrSeq) :
  sum_list_with (λ c, S (length (default [] (A !! c)))) (seq 0 (length A)) = sum_list (map (λ instrs, S (length instrs)) A).
Proof.
  induction A as [|x A IH]; [done|]. cbn [length seq sum_list_with map sum_list_with lookup list_lookup].
  change (sum_list (?y :: ?l)) with (y + sum_list l). rewrite <-IH, <-fmap_S_seq. simpl. f_equal. f_equal.
  clear IH. induction (seq 0 (length A)) as [|c l IHl]; simpl in *; auto.
Qed.
Lemma tree_fuel d : tree d → weight (sequences f d (entry_block f)) ≤ traversal_fuel f.
Proof.
  intros (_ & Hnd & Hlt). unfold traversal_fuel. rewrite <-sum_arena. apply sum_submseteq, NoDup_submseteq; [done|].
  intros c Hc. rewrite Forall_forall in Hlt. apply elem_of_seq. specialize (Hlt c Hc). lia.
Qed.

(** On a tree the traversal ends, with what the scan finalizes. *)
Lemma determine_scan d : tree d → determine_metered_blocks f = Some (
  let '(fins, l) := scan d (entry_block f) (metered_new (entry_block f) 0) in foldl finalize ∅ (fins ++ [l])).
Proof.
  intros Ht. destruct (scans_frame _ _ _ (metered_new (entry_block f) 0) (scans_scan d _ (proj1 Ht))) as (n & Hn & Hf).
  pose proof (tree_fuel _ Ht) as Hw. unfold determine_metered_blocks.
  replace (traversal_fuel f) with (n + (traversal_fuel f - n)) by lia. rewrite Hf. unfold after.
  destruct (scan _ _ _) as [fins l]. rewrite foldl_app. by destruct (_ - _).
Qed.

End scan.

Import IR.

(** * Kinds of instructions *)

Inductive Kind : Type := KBlock (c : nat) | KArms (cs : list nat) | KSplit | KPlain.
Definition kind_of (x : Instr) : Kind :=
  match x with
  | Block c => KBlock c
  | Loop c => KArms [c]
  | IfElse c a => KArms [c; a]
  | Call _ | CallIndirect _ _ | Br _ | BrIf _ | BrTable _ _ | Return => KSplit
  | _ => KPlain
  end.
Definition kids (k : Kind) : list nat := match k with KBlock c => [c] | KArms cs => cs | _ => [] end.
Lemma kids_nested x : nested x = kids (kind_of x).
Proof. by destruct x. Qed.

Section regions.
Context (f : LocalFunction).

Notation "b +$ i" := (add_cost b (instruction_cost i)) (at level 50).
Notation Scanned := (list MeteredBlock * MeteredBlock)%type.

Definition arms (sub : nat → MeteredBlock → Scanned) (cs : list nat) : list MeteredBlock :=
  cs ≫= λ c, (sub c (metered_new c 0)).1 ++ [(sub c (metered_new c 0)).2].

Lemma scan_cons sub s i x instrs b :
  scan_instrs sub s i (x :: instrs) b =
  match kind_of x with
  | KPlain => scan_instrs sub s (S i) instrs (b +$ x)
  | KSplit => let r := scan_instrs sub s (S i) instrs (metered_new s (S i)) in (b +$ x :: r.1, r.2)
  | KArms cs => let r := scan_instrs sub s (S i) instrs (metered_new s (S i)) in (b +$ x :: arms sub cs ++ r.1, r.2)
  | KBlock c =>
      let rc := sub c (b +$ x) in
      let upper := mergable (b +$ x) (S i) in
      if merges upper rc.2 then let r := scan_instrs sub s (S i) instrs rc.2 in (rc.1 ++ r.1, r.2)
      else let r := scan_instrs sub s (S i) instrs upper in (rc.1 ++ rc.2 :: r.1, r.2)
  end.
Proof.
  destruct x; cbn [scan_instrs kind_of arms mbind list_bind]; rewrite ?app_nil_r; try done;
    repeat match goal with
    | |- context [sub ?c ?b'] => destruct (sub c b') as [? ?]; cbn
    | |- context [scan_instrs _ _ _ _ ?b'] => destruct (scan_instrs _ _ _ _ b') as [? ?]; cbn
    | |- context [if ?e then _ else _] => destruct e
    end; by rewrite <-?app_assoc.
Qed.

(** * Tidy functions *)

(** Whether a metered block may end inside of a sequence. *)
Fixpoint splits (d s : nat) : bool :=
  existsb (λ x, match kind_of x with
    | KPlain => false
    | KBlock c => match d with 0 => false | S d => splits d c end
    | _ => true
    end) (block f s).
Definition splits_sub (d c : nat) : bool := match d with 0 => false | S d => splits d c end.
Definition splits_instr (d : nat) (x : Instr) : bool :=
  match kind_of x with KPlain => false | KBlock c => splits_sub d c | _ => true end.

(** [own] says that the current metered block begins in this sequence.  Otherwise it begins around it, and then
    blocks in this sequence must not split it. *)
Fixpoint tidy_instrs (sub : bool → nat → bool) (d : nat) (own : bool) (instrs : list Instr) : bool :=
  match instrs with
  | [] => true
  | x :: instrs =>
      forallb (sub (match kind_of x with KArms _ => true | _ => false end)) (nested x) &&
      match kind_of x with
      | KBlock c => (own || negb (splits_sub d c)) && tidy_instrs sub d own instrs
      | KPlain => tidy_instrs sub d own instrs
      | _ => tidy_instrs sub d true instrs
      end
  end.
Fixpoint tidy_seq (d : nat) (own : bool) (s : nat) : bool :=
  tidy_instrs (match d with 0 => λ _ _, true | S d => tidy_seq d end) d own (block f s).
Definition tidy (d : nat) : bool := tidy_seq d true (entry_block f).

Definition sub_scan (d : nat) : nat → MeteredBlock → Scanned :=
  match d with 0 => λ _ b, ([], b) | S d => scan f d end.
Definition tidy_sub (d : nat) : bool → nat → bool := match d with 0 => λ _ _, true | S d => tidy_seq d end.
Lemma scan_unfold d s b : scan f d s b = scan_instrs (sub_scan d) s 0 (block f s) b.
Proof. by destruct d. Qed.
Lemma tidy_unfold d own s : tidy_seq d own s = tidy_instrs (tidy_sub d) d own (block f s).
Proof. by destruct d. Qed.
Lemma splits_unfold d s : splits d s = existsb (splits_instr d) (block f s).
Proof. by destruct d. Qed.

(** The sequences below one, and those below instructions. *)
Definition sub_sequences (d : nat) : nat → list nat := match d with 0 => λ _, [] | S d => sequences f d end.
Definition below (d : nat) (instrs : list Instr) : list nat := instrs ≫= λ x, nested x ≫= sub_sequences d.
Lemma sequences_unfold d s : sequences f d s = s :: below d (block f s).
Proof.
  destruct d as [|d]; [|done]. cbn [sequences]. f_equal. unfold below.
  induction (block f s) as [|x l IH]; [done|]. cbn [mbind list_bind]. rewrite <-IH. by destruct x.
Qed.
Lemma below_cons d x instrs : below d (x :: instrs) = (kids (kind_of x) ≫= sub_sequences d) ++ below d instrs.
Proof. unfold below. cbn [mbind list_bind]. by rewrite kids_nested. Qed.

(** * Regions *)

(** The invariant of the current block [b] at position [i] of [s]. *)
Definition current (own : bool) (s i : nat) (S : list nat) (b : MeteredBlock) : Prop :=
  if own then mb_seq_id b = s ∧ (mb_cost b = 0%N ∧ mb_start_index b = i ∨ (0 < mb_cost b)%N ∧ mb_start_index b < i)
  else (0 < mb_cost b)%N ∧ mb_seq_id b ∉ s :: S.
(** Positions from [i] on in [s], and positions in the sequences [S]. *)
Definition region (s i : nat) (S : list nat) (p : Pos) : Prop :=
  p.2 < length (block f p.1) ∧ (p.1 = s ∧ i ≤ p.2 ∨ p.1 ∈ S).
Definition starts (b : MeteredBlock) (s i : nat) (S : list nat) (x : MeteredBlock) : Prop :=
  (0 < mb_cost x)%N → (0 < mb_cost b)%N ∧ pos x = pos b ∨ region s (if (mb_cost b =? 0)%N then i else Datatypes.S i) S (pos x).
(** The order of the blocks of one sequence. *)
Definition before (x y : MeteredBlock) : Prop :=
  (0 < mb_cost x)%N → (0 < mb_cost y)%N → mb_seq_id x = mb_seq_id y → mb_start_index x < mb_start_index y.
Notation ordered := (StronglySorted before).
(** All blocks of a scan, the open one last. *)
Definition all (r : Scanned) : list MeteredBlock := r.1 ++ [r.2].

(** A scan of [n] instructions from position [i] of [s], over the sequences [S] below them. *)
Record good (own splitted : bool) (s i n : nat) (S : list nat) (b : MeteredBlock) (r : Scanned) : Prop := {
  g_starts : ∀ x, x ∈ all r → starts b s i S x;
  g_ordered : ordered (all r);
  g_current : current (own || splitted) s (i + n) S r.2;
  g_kept : splitted = false → r.1 = [] ∧ pos r.2 = pos b;
}.
(** The scan of a sequence below. *)
Definition sub_good (d : nat) (own : bool) (c : nat) (b : MeteredBlock) : Prop :=
  good own (splits_sub d c) c 0 (length (block f c)) (tail (sub_sequences d c)) b (sub_scan d c b).

Lemma region_mono s i i' S S' p : i' ≤ i → S ⊆ S' → region s i S p → region s i' S' p.
Proof. unfold region. intros Hi HS [? [[? ?]|?]]; split; [done|left; lia|done|right; set_solver]. Qed.
Lemma current_mono own s i S S' b : S' ⊆ S → current own s i S b → current own s i S' b.
Proof. unfold current. destruct own; [done|]. set_solver. Qed.
Lemma current_new s i S : current true s i S (metered_new s i).
Proof. split; [done|]. by left. Qed.

Context (d s : nat).

(** The current block with the next instruction. *)
Lemma current_step own i S b x : current own s i S b → current own s (Datatypes.S i) S (b +$ x).
Proof.
  unfold current. pose proof (instruction_cost_pos x). destruct own; simpl; [|intros [? ?]; split; [lia|done]].
  intros [? [[? ?]|[? ?]]]; split; try done; right; split; lia.
Qed.
(** It starts at its position, or is the one from before. *)
Lemma starts_step own i S b b' :
  current own s i S b → i < length (block f s) → pos b' = pos b → starts b s i S b'.
Proof.
  unfold current, starts, region. intros Hc Hi Hp _. destruct (N.eqb_spec (mb_cost b) 0) as [H0|H0]; [|left; split; [lia|done]].
  right. rewrite Hp. destruct own; [|destruct Hc; lia]. destruct Hc as [Hs [[_ Hst]|?]]; [|lia].
  unfold pos. simpl. rewrite Hs, Hst. split; [done|]. left. lia.
Qed.

(** The current block goes on as [b'], after an instruction over the sequences [T]. *)
Lemma good_plain own sp i n S T b b' r :
  current own s i (T ++ S) b → i < length (block f s) → pos b' = pos b → (0 < mb_cost b')%N →
  good own sp s (Datatypes.S i) n S b' r → good own sp s i (Datatypes.S n) (T ++ S) b r.
Proof.
  intros Hc Hi Hp Hpos [H1 H2 H3 H4]. split; [|done| |intros Hsp; destruct (H4 Hsp); by rewrite <-Hp].
  - intros y Hy Hpy. destruct (H1 y Hy Hpy) as [[_ Hpy']|Hr]; [eapply starts_step; [done..|by rewrite Hpy'|done]|].
    right. eapply region_mono; [| |done]; [repeat case_match; lia|set_solver].
  - rewrite <-Nat.add_succ_comm. destruct (own || sp) eqn:Ho; [done|]. apply orb_false_iff in Ho as [-> ->].
    destruct H3 as [H3 _]. split; [done|]. destruct (H4 eq_refl) as [_ Hr]. rewrite Hp in Hr. inversion Hr as [[Hr1 Hr2]].
    rewrite Hr1. by destruct Hc.
Qed.

(** The blocks [l] of an instruction which splits, over the sequences [T], and then a new block. *)
Definition spread (T : list nat) (b x : MeteredBlock) : Prop :=
  (0 < mb_cost x)%N → pos x = pos b ∨ mb_seq_id x ∈ T ∧ mb_start_index x < length (block f (mb_seq_id x)).
Lemma good_split own sp i n S T b b1 l r :
  current own s i (T ++ S) b → i < length (block f s) → NoDup (s :: T ++ S) →
  (∀ x, x ∈ l → spread T b x) → ordered l → mb_cost b1 = 0%N → good true sp s (Datatypes.S i) n S b1 r →
  good own true s i (Datatypes.S n) (T ++ S) b (l ++ r.1, r.2).
Proof.
  intros Hc Hi Hnd Hl Hol H0 [H1 H2 H3 H4]. apply NoDup_cons in Hnd as [Hs Hnd]. apply NoDup_app in Hnd as (_ & HTS & _).
  assert (∀ y, y ∈ all r → (0 < mb_cost y)%N → region s (Datatypes.S i) S (pos y)) as Hr.
  { intros y Hy Hpos. destruct (H1 y Hy Hpos) as [[? _]|Hr]; [lia|]. by rewrite H0 in Hr. }
  split.
  - intros y Hy Hpos. unfold all in Hy. simpl in Hy. rewrite <-app_assoc in Hy. apply elem_of_app in Hy as [Hy|Hy].
    + destruct (Hl y Hy Hpos) as [Hp|[HT Hlen]]; [by eapply starts_step|]. right. split; [done|]. right. apply elem_of_app. by left.
    + right. eapply region_mono; [| |by apply Hr]; [case_match; lia|set_solver].
  - unfold all. simpl. rewrite <-app_assoc. apply StronglySorted_app_2; [|done|done].
    intros x y Hx Hy Hpx Hpy Heq. destruct (Hr y Hy Hpy) as [_ Hreg]. unfold pos in Hreg. simpl in Hreg.
    destruct (Hl x Hx Hpx) as [Hp|[HT _]].
    + inversion Hp as [[Hsx Hix]]. destruct own; destruct Hc as [Hc1 Hc2].
      * assert (mb_start_index b ≤ i) by lia. destruct Hreg as [[? ?]|HyS]; [lia|]. exfalso. apply Hs, elem_of_app. right. congruence.
      * exfalso. apply Hc2. rewrite <-Hsx, Heq. destruct Hreg as [[-> _]|?]; [left|right; apply elem_of_app; by right].
    + exfalso. destruct Hreg as [[Hy' _]|HyS].
      * apply Hs, elem_of_app. left. by rewrite <-Hy', <-Heq.
      * apply (HTS _ HT). by rewrite Heq.
  - simpl. rewrite orb_true_r. by rewrite <-Nat.add_succ_comm.
  - done.
Qed.

(** Below the last level there are no sequences. *)
Definition shallow_sub (c : nat) : Prop := match d with 0 => False | S d => shallow f d c end.
Definition level (cs : list nat) : Prop := ∀ c, c ∈ cs → shallow_sub c.
Lemma level_eq cs c : level cs → c ∈ cs → sub_sequences d c = c :: tail (sub_sequences d c).
Proof. intros Hl Hc. specialize (Hl c Hc). unfold shallow_sub in Hl. unfold sub_sequences. by destruct d as [|[|d']]. Qed.

Lemma region_sub c i p : level [c] → region c i (tail (sub_sequences d c)) p → p.1 ∈ sub_sequences d c ∧ p.2 < length (block f p.1).
Proof.
  intros Hc [Hlen Hp]. split; [|done]. rewrite (level_eq _ c Hc) by by left.
  destruct Hp as [[-> _]|Hp]; [by left|by right].
Qed.
Lemma good_arms cs : level cs → NoDup (cs ≫= sub_sequences d) → (∀ c, c ∈ cs → sub_good d true c (metered_new c 0)) →
  (∀ x, x ∈ arms (sub_scan d) cs → (0 < mb_cost x)%N →
    mb_seq_id x ∈ cs ≫= sub_sequences d ∧ mb_start_index x < length (block f (mb_seq_id x))) ∧
  ordered (arms (sub_scan d) cs).
Proof.
  induction cs as [|c cs IH]; intros Hlv Hnd Hsub; [by split; [intros x Hx; apply not_elem_of_nil in Hx|constructor]|].
  cbn [mbind list_bind] in *. apply NoDup_app in Hnd as (_ & Hdisj & Hnd).
  destruct IH as [IH1 IH2]; [intros c' ?; apply Hlv; by right|done|intros; apply Hsub; by right|].
  assert (∀ x, x ∈ all (sub_scan d c (metered_new c 0)) → (0 < mb_cost x)%N →
    mb_seq_id x ∈ sub_sequences d c ∧ mb_start_index x < length (block f (mb_seq_id x))) as Hc.
  { intros x Hx Hpos. destruct (g_starts _ _ _ _ _ _ _ _ (Hsub c ltac:(by left)) x Hx Hpos) as [[? _]|Hr]; [simpl in *; lia|].
    apply region_sub in Hr; [done|]. intros c' Hc'. apply list_elem_of_singleton in Hc' as ->. apply Hlv. by left. }
  unfold arms. cbn [mbind list_bind]. fold (all (sub_scan d c (metered_new c 0))). fold (arms (sub_scan d) cs). split.
  - intros x [Hx|Hx]%elem_of_app Hpos; rewrite elem_of_app; naive_solver.
  - apply StronglySorted_app_2; [|by apply (g_ordered _ _ _ _ _ _ _ _ (Hsub c ltac:(by left)))|done].
    intros x y Hx Hy Hpx Hpy Heq. exfalso. destruct (Hc x Hx Hpx) as [Hx' _]. destruct (IH1 y Hy Hpy) as [Hy' _].
    apply (Hdisj _ Hx'). by rewrite Heq.
Qed.

(** The current block, for a block of code nested in this sequence. *)
Lemma current_inside own i S b x c :
  level [c] → current own s i (sub_sequences d c ++ S) b → s ∉ sub_sequences d c →
  current false c 0 (tail (sub_sequences d c)) (b +$ x).
Proof.
  intros Hlv Hc Hs. pose proof (instruction_cost_pos x). split; [simpl; lia|]. simpl. rewrite <-(level_eq _ c Hlv) by by left.
  destruct own; destruct Hc as [Hc1 Hc2]; [by rewrite Hc1|]. intros Hin. apply Hc2. right. apply elem_of_app. by left.
Qed.
Lemma sub_spread own c b x : level [c] → sub_good d own c (b +$ x) →
  ∀ y, y ∈ all (sub_scan d c (b +$ x)) → spread (sub_sequences d c) b y.
Proof.
  intros Hlv Hg y Hy Hpos. destruct (g_starts _ _ _ _ _ _ _ _ Hg y Hy Hpos) as [[_ ?]|Hr]; [by left|right].
  by apply region_sub in Hr.
Qed.

Lemma NoDup_bind_at {A B} (g : A → list B) l x : NoDup (l ≫= g) → x ∈ l → NoDup (g x).
Proof.
  induction l as [|y l IH]; intros Hnd Hx; [by apply not_elem_of_nil in Hx|].
  cbn [mbind list_bind] in Hnd. apply NoDup_app in Hnd as (? & _ & ?). apply elem_of_cons in Hx as [->|?]; auto.
Qed.

(** What is known of the sequences below. *)
Definition sub_hyp : Prop := ∀ c own b,
  level [c] → tidy_sub d own c = true → NoDup (sub_sequences d c) →
  current own c 0 (tail (sub_sequences d c)) b → sub_good d own c b.

(** A nested block of code which is merged into the current block. *)
Lemma merges_kept own c b x i : sub_good d own c (b +$ x) → splits_sub d c = false →
  merges (mergable (b +$ x) i) (sub_scan d c (b +$ x)).2 = true.
Proof.
  intros Hg Hsp. destruct (g_kept _ _ _ _ _ _ _ _ Hg Hsp) as [_ Hp]. inversion Hp as [[H1 H2]].
  unfold merges. simpl in *. by rewrite H1, H2, !Nat.eqb_refl.
Qed.
Lemma merges_split own c b x i : sub_good d own c (b +$ x) → splits_sub d c = true → mb_seq_id b ≠ c →
  merges (mergable (b +$ x) i) (sub_scan d c (b +$ x)).2 = false.
Proof.
  intros Hg Hsp Hne. pose proof (g_current _ _ _ _ _ _ _ _ Hg) as Hc. rewrite Hsp, orb_true_r in Hc. destruct Hc as [Hc _].
  unfold merges. simpl. rewrite Hc. by rewrite (proj2 (Nat.eqb_neq _ _)).
Qed.

Lemma good_instrs instrs : sub_hyp → ∀ own i b,
  drop i (block f s) = instrs → (∀ x, x ∈ instrs → level (kids (kind_of x))) → NoDup (s :: below d instrs) →
  tidy_instrs (tidy_sub d) d own instrs = true → current own s i (below d instrs) b →
  good own (existsb (splits_instr d) instrs) s i (length instrs) (below d instrs) b (scan_instrs (sub_scan d) s i instrs b).
Proof.
  intros Hsub. induction instrs as [|x instrs IH]; intros own i b Hd Hlv Hnd Htidy Hcur.
  { split; [|by repeat constructor|simpl; by rewrite orb_false_r, Nat.add_0_r|done].
    intros y Hy Hpos. left. apply list_elem_of_singleton in Hy as ->. done. }
  pose proof (drop_tail _ _ _ _ Hd) as Hd'.
  assert (i < length (block f s)) as Hi by (apply (f_equal length) in Hd; rewrite length_drop in Hd; simpl in Hd; lia).
  assert (∀ y, y ∈ instrs → level (kids (kind_of y))) as Hlv' by (intros; apply Hlv; by right).
  assert (level (kids (kind_of x))) as Hlx by (apply Hlv; by left).
  specialize (IH) with (2 := Hlv'). rewrite below_cons in *.
  cbn [tidy_instrs] in Htidy. apply andb_true_iff in Htidy as [Hkids Htidy]. rewrite kids_nested in Hkids.
  rewrite scan_cons. cbn [existsb length]. unfold splits_instr at 1.
  pose proof (current_step own i _ b x Hcur) as Hstep. pose proof (instruction_cost_pos x) as Hcost.
  assert (NoDup (s :: below d instrs)) as Hnd'.
  { apply NoDup_cons in Hnd as [Hs Hnd]. apply NoDup_app in Hnd as (_ & _ & Hnd). constructor; [|done].
    intros Hin. apply Hs, elem_of_app. by right. }
  destruct (kind_of x) as [c|cs| |] eqn:Hk; cbn [kids mbind list_bind forallb] in *; rewrite ?app_nil_r in *.
  - rewrite andb_true_r in Hkids. apply andb_true_iff in Htidy as [Hown Htidy].
    pose proof Hnd as [Hs (HndT & _ & _)%NoDup_app]%NoDup_cons.
    assert (sub_good d false c (b +$ x)) as Hg.
    { apply Hsub; [done..|]. eapply current_inside; [done..|]. intros Hin. apply Hs, elem_of_app. by left. }
    assert (c ∈ sub_sequences d c) as Hcin by (rewrite (level_eq _ c Hlx) by (by left); by left).
    destruct (splits_sub d c) eqn:Hsp.
    + rewrite orb_false_r in Hown. subst own. rewrite (merges_split false) by (try done; destruct Hcur as [-> _]; intros ->; apply Hs, elem_of_app; by left).
      replace ((sub_scan d c (b +$ x)).1 ++ (sub_scan d c (b +$ x)).2 :: (scan_instrs (sub_scan d) s (S i) instrs (mergable (b +$ x) (S i))).1)
        with (all (sub_scan d c (b +$ x)) ++ (scan_instrs (sub_scan d) s (S i) instrs (mergable (b +$ x) (S i))).1)
        by (unfold all; by rewrite <-app_assoc).
      eapply (good_split true _ _ _ _ _ _ (mergable (b +$ x) (S i))); [done..|by eapply sub_spread|by apply (g_ordered _ _ _ _ _ _ _ _ Hg)|done|].
      apply IH; [done..|]. split; [by destruct Hcur|]. by left.
    + rewrite (merges_kept false) by done. destruct (g_kept _ _ _ _ _ _ _ _ Hg Hsp) as [-> Hpos].
      pose proof (g_current _ _ _ _ _ _ _ _ Hg) as Hcg. rewrite Hsp in Hcg. destruct Hcg as [Hcg _].
      cbn [app]. rewrite <-surjective_pairing.
      eapply (good_plain _ _ _ _ _ _ b (sub_scan d c (b +$ x)).2); [done|done|done|done|]. apply IH; [done..|]. inversion Hpos as [[Hp1 Hp2]].
      destruct own; destruct Hcur as [Hc1 Hc2]; split; rewrite ?Hp1, ?Hp2; [done|right; lia|done|].
      intros Hin. apply Hc2. apply elem_of_cons in Hin as [->|?]; [by left|right; apply elem_of_app; by right].
  - pose proof Hnd as [Hs (HndT & _ & _)%NoDup_app]%NoDup_cons.
    destruct (good_arms cs Hlx HndT) as [Ha1 Ha2].
    { intros c Hc. apply Hsub; [intros c' ->%list_elem_of_singleton; by apply Hlx| | |apply current_new].
      - rewrite forallb_forall in Hkids. apply Hkids. by apply list_elem_of_In.
      - by eapply NoDup_bind_at. }
    rewrite app_comm_cons. eapply (good_split _ _ _ _ _ _ _ (metered_new s (S i))); [done|done|done| | |done|].
    + intros y [->|Hy]%elem_of_cons Hpy; [by left|]. right. by apply Ha1.
    + constructor; [done|]. apply Forall_forall. intros y Hy Hpx Hpy Heq. exfalso. destruct (Ha1 y Hy Hpy) as [Hy' _].
      destruct own; destruct Hcur as [Hc1 Hc2]; simpl in Heq.
      * apply Hs, elem_of_app. left. by rewrite <-Hc1, Heq.
      * apply Hc2. right. apply elem_of_app. left. by rewrite Heq.
    + apply IH; [done..|]. apply current_new.
  - eapply (good_split _ _ _ _ _ [] _ (metered_new s (S i)) [b +$ x]); [done|done|done| | |done|].
    + intros y ->%list_elem_of_singleton _. by left.
    + repeat constructor.
    + apply IH; [done..|]. apply current_new.
  - eapply (good_plain _ _ _ _ _ [] b (b +$ x)); [done|done|done|simpl; lia|]. by apply IH.
Qed.

End regions.

Section whole.
Context (f : LocalFunction).

Lemma shallow_level d s x : shallow f d s → x ∈ block f s → level f d (kids (kind_of x)).
Proof.
  intros Hs Hx c Hc. rewrite <-kids_nested in Hc. destruct d as [|d]; simpl in *.
  - rewrite (Hs x Hx) in Hc. by apply not_elem_of_nil in Hc.
  - by eapply Hs.
Qed.

Lemma sub_hyp_all d : sub_hyp f d.
Proof.
  induction d as [|d IH]; intros c own b Hlv Htidy Hnd Hcur.
  - by destruct (Hlv c ltac:(by left)).
  - specialize (Hlv c ltac:(by left)). unfold sub_good. simpl in *. rewrite scan_unfold, splits_unfold.
    rewrite sequences_unfold in *. rewrite tidy_unfold in Htidy. simpl in *. apply good_instrs; try done.
    intros x Hx. by eapply shallow_level.
Qed.

(** The scan of a tidy function whose sequences form a tree. *)
Lemma scan_good d : tree f d → tidy f d = true →
  good f true (splits f d (entry_block f)) (entry_block f) 0 (length (block f (entry_block f)))
    (below f d (block f (entry_block f))) (metered_new (entry_block f) 0) (scan f d (entry_block f) (metered_new (entry_block f) 0)).
Proof.
  intros (Hs & Hnd & _) Ht. unfold tidy in Ht. rewrite tidy_unfold in Ht. rewrite scan_unfold, splits_unfold.
  rewrite sequences_unfold in Hnd. apply good_instrs; try done; [apply sub_hyp_all|intros x Hx; by eapply shallow_level|apply current_new].
Qed.

End whole.
