(* ===== verification/MeterPaths.v ===== *)
(** In tidy functions the metered blocks pay exactly for every path: the charges that the instrumentation puts
    in front of instructions satisfy [metered]. *)
From S2P Require Import Prelude Metering Metered MeterRegions.

Import IR.

Section unsplit.
Context (f : LocalFunction).

(** Execution does not leave a sequence in which no metered block ends, but at its end. *)
Lemma path_unsplit s i π o : path f s i π o → ∀ d, shallow f d s → splits f d s = false → o = Fell ∨ o = Stopped.
Proof.
  induction 1 as [| |s i x π o Hx _ _ IH| |s i x t Hx Ht|s i Hx|s i x c π o Hx Hc _ IH Hout|s i x c π1 o1 π2 o Hx Hc _ _ _ _ IH|s i c π1 π2 o Hx _ IH1 _ _];
    intros d Hsh Hsp; auto.
  all: pose proof Hsp as Hsp'; rewrite splits_unfold in Hsp'.
  all: assert (∀ y, y ∈ block f s → splits_instr f d y = false) as Hno
    by (intros y Hy; apply not_true_iff_false; intros Hy'; apply not_true_iff_false in Hsp'; apply Hsp', existsb_exists;
        exists y; split; [by apply list_elem_of_In|done]).
  all: pose proof (Hno _ (list_elem_of_lookup_2 _ _ _ Hx)) as Hsx; unfold splits_instr in Hsx.
  all: try by eapply IH.
  - destruct x; try done; by apply not_elem_of_nil in Ht.
  - done.
  - destruct x; try done; try by apply not_elem_of_nil in Hc.
    apply list_elem_of_singleton in Hc as ->. simpl in Hsx. destruct d as [|d].
    + by specialize (Hsh _ (list_elem_of_lookup_2 _ _ _ Hx)).
    + eapply IH; [|done]. eapply Hsh; [by eapply list_elem_of_lookup_2|by left].
  - done.
Qed.

End unsplit.

Section paths.
Context (f : LocalFunction) (ch : Pos → N).

Notation "b +$ i" := (add_cost b (instruction_cost i)) (at level 50).
Notation Scanned := (list MeteredBlock * MeteredBlock)%type.

Lemma all_app (l : list MeteredBlock) (r : Scanned) : all (l ++ r.1, r.2) = l ++ all r.
Proof. unfold all. simpl. by rewrite app_assoc. Qed.

(** The charges in a region are those of the blocks of its scan. *)
Definition charged (s i : nat) (S : list nat) (r : Scanned) : Prop :=
  (∀ x, x ∈ r.1 → (0 < mb_cost x)%N → ch (pos x) = mb_cost x) ∧
  (∀ p, region f s i S p → ch p ≠ 0%N → ∃ x, x ∈ all r ∧ (0 < mb_cost x)%N ∧ pos x = p).

Context (d s : nat).

Lemma not_ahead own i S b : current own s i S b → NoDup (s :: S) → ¬ region f s (Datatypes.S i) S (pos b).
Proof.
  unfold current, region, pos. intros Hc Hnd [_ Hr]. simpl in Hr. apply NoDup_cons in Hnd as [Hs _]. destruct own.
  - destruct Hc as [Hc1 Hc]. rewrite Hc1 in Hr. destruct Hr as [[_ ?]|?]; [lia|done].
  - destruct Hc as [_ Hc]. apply Hc. destruct Hr as [[Hr _]|?]; [rewrite Hr; by left|by right].
Qed.

Lemma pays_here own sp i n S b r :
  current own s i S b → i < length (block f s) → NoDup (s :: S) → good f own sp s i n S b r → charged s i S r →
  pays ch (s, i) b.
Proof.
  intros Hc Hi Hnd Hg [_ Hch]. unfold pays. destruct (N.eqb_spec (mb_cost b) 0) as [H0|H0].
  - unfold current in Hc. destruct own; [|lia]. destruct Hc as [<- [[_ <-]|?]]; [done|lia].
  - destruct (N.eq_dec (ch (s, i)) 0%N) as [|Hne]; [done|]. exfalso.
    destruct (Hch (s, i)) as (x & Hx & Hpx & Hp); [split; [done|]; by left|done|].
    destruct (g_starts _ _ _ _ _ _ _ _ _ Hg x Hx Hpx) as [[_ Hb]|Hr].
    + rewrite Hp in Hb. unfold current in Hc. inversion Hb as [[Hb1 Hb2]]. destruct own.
      * destruct Hc as [_ [?|?]]; lia.
      * destruct Hc as [_ Hc]. apply Hc. rewrite <-Hb1. by left.
    + rewrite (proj2 (N.eqb_neq _ _) H0), Hp in Hr. destruct Hr as [_ [[_ ?]|HS]]; [simpl in *; lia|].
      by apply NoDup_cons in Hnd as [? _].
Qed.

(** The part of the charges that belongs to the rest of the sequence, or to a sequence below. *)
Lemma charged_rest own i S T b (l : list MeteredBlock) (r b' : Scanned) :
  current own s i (T ++ S) b → NoDup (s :: T ++ S) → (∀ x, x ∈ l → spread f T b x) →
  (∀ x, x ∈ r.1 → x ∈ b'.1) → (∀ x, x ∈ all b' → x ∈ l ∨ x ∈ all r) →
  charged s i (T ++ S) b' → charged s (Datatypes.S i) S r.
Proof.
  intros Hc Hnd Hl Hsub Hall [H1 H2]. split; [by auto|]. intros p Hp Hne.
  destruct (H2 p) as (x & Hx & Hpx & Hpos); [eapply region_mono; [| |done]; [lia|set_solver]|done|].
  destruct (Hall x Hx) as [Hxl|?]; [|by eauto]. exfalso. destruct (Hl x Hxl Hpx) as [Hb|[HT _]].
  - apply (not_ahead _ _ _ _ Hc Hnd). rewrite <-Hb, Hpos. eapply region_mono; [| |done]; [lia|set_solver].
  - apply NoDup_cons in Hnd as [Hs Hnd]. apply NoDup_app in Hnd as (_ & Hdisj & _).
    destruct Hp as [_ [[Heq _]|HS]].
    + apply Hs, elem_of_app. left. by rewrite <-Heq, <-Hpos.
    + apply (Hdisj _ HT). by rewrite <-Hpos in HS.
Qed.
Lemma charged_below i S c (total r : Scanned) :
  level f d [c] → sub_sequences f d c ⊆ S → (∀ x, x ∈ r.1 → x ∈ total.1) →
  (∀ x, x ∈ all total → (0 < mb_cost x)%N → x ∈ all r ∨ mb_seq_id x ∉ sub_sequences f d c) →
  charged s i S total → charged c 0 (tail (sub_sequences f d c)) r.
Proof.
  intros Hlv HS Hsub Hall [H1 H2]. split; [by auto|]. intros p Hp Hne.
  pose proof (region_sub _ _ _ _ _ Hlv Hp) as [Hin Hlen].
  destruct (H2 p) as (x & Hx & Hpx & Hpos); [split; [done|right; by apply HS]|done|].
  destruct (Hall x Hx Hpx) as [?|Hno]; [by eauto|]. exfalso. apply Hno. by rewrite <-Hpos in Hin.
Qed.

Lemma NoDup_bind_apart {A B} (g : A → list B) l x y z : NoDup (l ≫= g) → x ∈ l → y ∈ l → z ∈ g x → z ∈ g y → x = y.
Proof.
  induction l as [|w l IH]; intros Hnd Hx Hy Hzx Hzy; [by apply not_elem_of_nil in Hx|].
  cbn [mbind list_bind] in Hnd. apply NoDup_app in Hnd as (_ & Hdisj & Hnd).
  apply elem_of_cons in Hx as [->|Hx], Hy as [->|Hy]; [done| | |by auto].
  - exfalso. apply (Hdisj _ Hzx), list_elem_of_bind. by eauto.
  - exfalso. apply (Hdisj _ Hzy), list_elem_of_bind. by eauto.
Qed.

(** What is known of the sequences below. *)
Definition sub_metered : Prop := ∀ c own b,
  level f d [c] → tidy_sub f d own c = true → NoDup (sub_sequences f d c) →
  current own c 0 (tail (sub_sequences f d c)) b → charged c 0 (tail (sub_sequences f d c)) (sub_scan f d c b) →
  metered f ch c 0 b (block f c) (sub_scan f d c b).2.

(** The current block and the blocks of the rest of this sequence do not start in sequences [T] apart from it. *)
Lemma current_apart own i S T b : current own s i (T ++ S) b → NoDup (s :: T ++ S) → mb_seq_id b ∉ T.
Proof.
  intros Hc Hnd HT. apply NoDup_cons in Hnd as [Hs _]. destruct own; destruct Hc as [Hc1 Hc2].
  - apply Hs, elem_of_app. left. by rewrite <-Hc1.
  - apply Hc2. right. apply elem_of_app. by left.
Qed.
Lemma rest_apart own i S T b b' x :
  current own s i (T ++ S) b → NoDup (s :: T ++ S) → mb_cost b' = 0%N ∨ pos b' = pos b →
  starts f b' s (Datatypes.S i) S x → (0 < mb_cost x)%N → mb_seq_id x ∉ T.
Proof.
  intros Hc Hnd Hb' Hst Hpx HT. destruct (Hst Hpx) as [[Hpos Hp]|Hr].
  - destruct Hb' as [?|Hb']; [lia|]. rewrite Hb' in Hp. apply (f_equal fst) in Hp. simpl in Hp.
    apply (current_apart _ _ _ _ _ Hc Hnd). by rewrite <-Hp.
  - apply NoDup_cons in Hnd as [Hs Hnd]. apply NoDup_app in Hnd as (_ & Hdisj & _).
    destruct Hr as [_ [[Heq _]|HS]]; [|by apply (Hdisj _ HT)]. apply Hs, elem_of_app. left. by rewrite <-Heq.
Qed.

(** The steps of the induction, by the kind of the instruction; [r] is the scan of the rest of the sequence. *)
Lemma final_in (r : Scanned) s' i S x : charged s' i S r → x ∈ r.1 → final ch x.
Proof. intros [H1 _] Hx. destruct (N.eq_dec (mb_cost x) 0%N); [by left|right]. apply H1; [done|lia]. Qed.

Lemma metered_step_split own sp i n S b x instrs (r : Scanned) :
  kind_of x = KSplit → current own s i S b → NoDup (s :: S) → pays ch (s, i) b →
  good f true sp s (Datatypes.S i) n S (metered_new s (Datatypes.S i)) r →
  (charged s (Datatypes.S i) S r → metered f ch s (Datatypes.S i) (metered_new s (Datatypes.S i)) instrs r.2) →
  charged s i S (b +$ x :: r.1, r.2) → metered f ch s i b (x :: instrs) r.2.
Proof.
  intros Hk Hcur Hnd Hp Hg IH Hch. apply metered_split; [by destruct x|done|eapply final_in; [done|by left]|].
  apply IH. eapply (charged_rest own i S [] b [b +$ x]); [done|done| | | |done].
  - intros y ->%list_elem_of_singleton _. by left.
  - intros y Hy. by right.
  - intros y [->|Hy]%elem_of_cons; [left; by left|by right].
Qed.

Lemma metered_step_arms own sp i n S b x cs instrs (r : Scanned) :
  sub_hyp f d → sub_metered → kind_of x = KArms cs → level f d cs → forallb (tidy_sub f d true) cs = true →
  current own s i ((cs ≫= sub_sequences f d) ++ S) b → NoDup (s :: (cs ≫= sub_sequences f d) ++ S) → pays ch (s, i) b →
  good f true sp s (Datatypes.S i) n S (metered_new s (Datatypes.S i)) r →
  (charged s (Datatypes.S i) S r → metered f ch s (Datatypes.S i) (metered_new s (Datatypes.S i)) instrs r.2) →
  charged s i ((cs ≫= sub_sequences f d) ++ S) (b +$ x :: arms (sub_scan f d) cs ++ r.1, r.2) →
  metered f ch s i b (x :: instrs) r.2.
Proof.
  intros Hsub Hsm Hk Hlv Htidy Hcur Hnd Hp Hg IH Hch.
  pose proof Hnd as [_ (HndT & _ & _)%NoDup_app]%NoDup_cons.
  assert (∀ c, c ∈ cs → level f d [c] ∧ tidy_sub f d true c = true ∧ NoDup (sub_sequences f d c)) as Hcs.
  { intros c Hc. split_and!; [intros c' ->%list_elem_of_singleton; by apply Hlv| |by eapply NoDup_bind_at].
    rewrite forallb_forall in Htidy. apply Htidy. by apply list_elem_of_In. }
  assert (∀ c, c ∈ cs → sub_good f d true c (metered_new c 0)) as Hgs
    by (intros c Hc; destruct (Hcs c Hc) as (? & ? & ?); apply Hsub; [done..|apply current_new]).
  destruct (good_arms f d cs Hlv HndT Hgs) as [Ha _].
  apply metered_arms; [by destruct x|by destruct x|done|eapply final_in; [done|by left]| |].
  - intros c Hc. rewrite kids_nested, Hk in Hc. destruct (Hcs c Hc) as (Hl & Ht & Hn). exists (sub_scan f d c (metered_new c 0)).2. split.
    + apply (Hsm c true); [done..|apply current_new|]. eapply charged_below; [done| | | |done].
      * intros y Hy. apply elem_of_app. left. apply list_elem_of_bind. by eauto.
      * intros y Hy. right. apply elem_of_app. left. apply list_elem_of_bind. exists c. split; [|done]. apply elem_of_app. by left.
      * intros y Hy Hpy. rewrite app_comm_cons, all_app in Hy. cbn [app] in Hy.
        assert (sub_sequences f d c ⊆ cs ≫= sub_sequences f d) as Hin by (intros z Hz; apply list_elem_of_bind; by eauto).
        apply elem_of_cons in Hy as [->|[Hy|Hy]%elem_of_app].
        -- right. intros HT. by apply (current_apart _ _ _ _ _ Hcur Hnd), Hin.
        -- apply list_elem_of_bind in Hy as (c' & Hy & Hc'). destruct (decide (c' = c)) as [->|Hne]; [by left|right].
           intros HT. apply Hne. eapply (NoDup_bind_apart (sub_sequences f d)); [done..| |done].
           destruct (good_arms f d [c']) as [Ha' _]; [by apply Hcs|cbn; rewrite app_nil_r; by apply Hcs|intros ? ->%list_elem_of_singleton; by apply Hgs|].
           destruct (Ha' y) as [Hy' _]; [cbn; by rewrite app_nil_r|done|]. cbn in Hy'. by rewrite app_nil_r in Hy'.
        -- right. intros HT. eapply (rest_apart own i S _ b (metered_new s (Datatypes.S i)) y); [done|done|by left| |done|by apply Hin].
           by apply (g_starts _ _ _ _ _ _ _ _ _ Hg).
    + eapply final_in; [done|]. right. apply elem_of_app. left. apply list_elem_of_bind. exists c. split; [|done].
      apply elem_of_app. right. by left.
  - apply IH. eapply (charged_rest own i S (cs ≫= sub_sequences f d) b (b +$ x :: arms (sub_scan f d) cs)); [done|done| | | |done].
    + intros y [->|Hy]%elem_of_cons Hpy; [by left|right]. by apply Ha.
    + intros y Hy. right. apply elem_of_app. by right.
    + intros y. rewrite app_comm_cons, all_app, elem_of_app. tauto.
Qed.

(** The current block, extended. *)
Lemma current_kept own i S T b b' :
  current own s i (T ++ S) b → pos b' = pos b → (0 < mb_cost b')%N → current own s (Datatypes.S i) S b'.
Proof.
  intros Hcur Hpos Hc. inversion Hpos as [[Hp1 Hp2]].
  destruct own; destruct Hcur as [Hc1 Hc2]; split; rewrite ?Hp1, ?Hp2; [done|right; lia|done|].
  intros Hin. apply Hc2. apply elem_of_cons in Hin as [->|?]; [by left|right; apply elem_of_app; by right].
Qed.
(** A block of code in the current metered block. *)
Lemma sub_good_block own i S b x c :
  sub_hyp f d → level f d [c] → tidy_sub f d false c = true → current own s i (sub_sequences f d c ++ S) b →
  NoDup (s :: (sub_sequences f d c ++ S)) →
  NoDup (sub_sequences f d c) ∧ (s ∉ sub_sequences f d c) ∧ current false c 0 (tail (sub_sequences f d c)) (b +$ x) ∧ sub_good f d false c (b +$ x).
Proof.
  intros Hsub Hlv Ht Hcur [Hs (HndT & _ & _)%NoDup_app]%NoDup_cons.
  assert (s ∉ sub_sequences f d c) as Hs' by (intros Hin; apply Hs, elem_of_app; by left).
  assert (current false c 0 (tail (sub_sequences f d c)) (b +$ x)) by by eapply current_inside.
  split_and!; try done. by apply Hsub.
Qed.

Lemma metered_step_block own sp i n S b c instrs (r : Scanned) :
  let b' := b +$ Block c in
  sub_hyp f d → sub_metered → level f d [c] → tidy_sub f d false c = true → splits_sub f d c = true → own = true →
  current own s i (sub_sequences f d c ++ S) b → NoDup (s :: sub_sequences f d c ++ S) → pays ch (s, i) b →
  good f true sp s (Datatypes.S i) n S (mergable b' (Datatypes.S i)) r →
  (charged s (Datatypes.S i) S r → metered f ch s (Datatypes.S i) (mergable b' (Datatypes.S i)) instrs r.2) →
  charged s i (sub_sequences f d c ++ S) (all (sub_scan f d c b') ++ r.1, r.2) →
  metered f ch s i b (Block c :: instrs) r.2.
Proof.
  intros b' Hsub Hsm Hlv Ht Hsp -> Hcur Hnd Hp Hg IH Hch.
  destruct (sub_good_block true i S b (Block c) c Hsub Hlv Ht Hcur Hnd) as (HndT & Hs & Hcc & Hgc).
  eapply (metered_block_split _ _ _ _ _ _ (sub_scan f d c b').2 (mergable b' (Datatypes.S i))); [done| | |done| |].
  - apply (Hsm c false); [done..|]. eapply (charged_below i (sub_sequences f d c ++ S)); [done|set_solver| | |done].
    + intros y Hy. apply elem_of_app. left. apply elem_of_app. by left.
    + intros y Hy Hpy. rewrite all_app in Hy.
      apply elem_of_app in Hy as [Hy|Hy]; [by left|right].
      eapply (rest_apart true i S _ b (mergable b' (Datatypes.S i))); [done|done|by left| |done]. by apply (g_starts _ _ _ _ _ _ _ _ _ Hg).
  - eapply final_in; [done|]. apply elem_of_app. left. apply elem_of_app. right. by left.
  - unfold pos. simpl. by destruct Hcur as [-> _].
  - apply IH. eapply (charged_rest true i S _ b (all (sub_scan f d c b'))); [done|done|by eapply sub_spread| | |done].
    + intros y Hy. apply elem_of_app. by right.
    + intros y. rewrite all_app, elem_of_app. tauto.
Qed.

Lemma metered_step_merge own sp i n S b c instrs (r : Scanned) :
  let b' := b +$ Block c in
  sub_hyp f d → sub_metered → level f d [c] → tidy_sub f d false c = true → splits_sub f d c = false →
  current own s i (sub_sequences f d c ++ S) b → NoDup (s :: sub_sequences f d c ++ S) → pays ch (s, i) b →
  good f own sp s (Datatypes.S i) n S (sub_scan f d c b').2 r →
  (charged s (Datatypes.S i) S r → metered f ch s (Datatypes.S i) (sub_scan f d c b').2 instrs r.2) →
  charged s i (sub_sequences f d c ++ S) r → metered f ch s i b (Block c :: instrs) r.2.
Proof.
  intros b' Hsub Hsm Hlv Ht Hsp Hcur Hnd Hp Hg IH Hch.
  destruct (sub_good_block own i S b (Block c) c Hsub Hlv Ht Hcur Hnd) as (HndT & Hs & Hcc & Hgc).
  destruct (g_kept _ _ _ _ _ _ _ _ _ Hgc Hsp) as [Hnil Hpos].
  eapply (metered_block _ _ _ _ _ _ (sub_scan f d c b').2); [done| | |].
  - apply (Hsm c false); [done..|]. eapply (charged_below i (sub_sequences f d c ++ S)); [done|set_solver| | |done].
    + unfold b'. rewrite Hnil. intros y Hy. by apply not_elem_of_nil in Hy.
    + intros y Hy Hpy. right. eapply (rest_apart own i S _ b (sub_scan f d c b').2); [done|done|right; exact Hpos| |done]. by apply (g_starts _ _ _ _ _ _ _ _ _ Hg).
  - intros π o Hπ. specialize (Hlv c ltac:(by left)). unfold splits_sub in Hsp. unfold shallow_sub in Hlv.
    destruct d; [done|]. by eapply path_unsplit.
  - apply IH. eapply (charged_rest own i S _ b []); [done|done| | | |done].
    + intros y Hy. by apply not_elem_of_nil in Hy.
    + done.
    + auto.
Qed.

Lemma metered_instrs instrs : sub_hyp f d → sub_metered → ∀ own i b,
  drop i (block f s) = instrs → (∀ x, x ∈ instrs → level f d (kids (kind_of x))) → NoDup (s :: below f d instrs) →
  tidy_instrs f (tidy_sub f d) d own instrs = true → current own s i (below f d instrs) b →
  charged s i (below f d instrs) (scan_instrs (sub_scan f d) s i instrs b) →
  metered f ch s i b instrs (scan_instrs (sub_scan f d) s i instrs b).2.
Proof.
  intros Hsub Hsm. induction instrs as [|x instrs IH]; intros own i b Hd Hlv Hnd Htidy Hcur Hch; [constructor|].
  pose proof (good_instrs f d s _ Hsub own i b Hd Hlv Hnd Htidy Hcur) as Hgood.
  pose proof (drop_tail _ _ _ _ Hd) as Hd'.
  assert (i < length (block f s)) as Hi by (apply (f_equal length) in Hd; rewrite length_drop in Hd; simpl in Hd; lia).
  pose proof (pays_here _ _ _ _ _ _ _ Hcur Hi Hnd Hgood Hch) as Hpays. clear Hgood.
  assert (∀ y, y ∈ instrs → level f d (kids (kind_of y))) as Hlv' by (intros; apply Hlv; by right).
  assert (level f d (kids (kind_of x))) as Hlx by (apply Hlv; by left).
  assert (∀ own b', drop (S i) (block f s) = instrs → NoDup (s :: below f d instrs) →
    tidy_instrs f (tidy_sub f d) d own instrs = true → current own s (S i) (below f d instrs) b' →
    good f own (existsb (splits_instr f d) instrs) s (S i) (length instrs) (below f d instrs) b' (scan_instrs (sub_scan f d) s (S i) instrs b')) as Hgr
    by (intros; by apply good_instrs).
  specialize (IH) with (2 := Hlv'). rewrite below_cons in *. rewrite scan_cons in *.
  cbn [tidy_instrs] in Htidy. apply andb_true_iff in Htidy as [Hkids Htidy]. rewrite kids_nested in Hkids.
  pose proof (current_step s own i _ b x Hcur) as Hstep. pose proof (instruction_cost_pos x) as Hcost.
  assert (NoDup (s :: below f d instrs)) as Hnd'.
  { apply NoDup_cons in Hnd as [Hs Hnd]. apply NoDup_app in Hnd as (_ & _ & Hnd). constructor; [|done].
    intros Hin. apply Hs, elem_of_app. by right. }
  destruct (kind_of x) as [c|cs| |] eqn:Hk; cbn [kids mbind list_bind forallb] in *; rewrite ?app_nil_r in *.
  - assert (x = Block c) as -> by (destruct x; by inversion Hk). rewrite andb_true_r in Hkids.
    apply andb_true_iff in Htidy as [Hown Htidy].
    destruct (sub_good_block own i _ b (Block c) c Hsub Hlx Hkids Hcur Hnd) as (_ & Hs & Hcc & Hg).
    destruct (splits_sub f d c) eqn:Hsp.
    + rewrite orb_false_r in Hown. subst own.
      rewrite (merges_split f d false) in * by (try done; destruct Hcur as [-> _]; intros ->; apply Hs; rewrite (level_eq _ _ _ _ Hlx) by (by left); by left).
      assert (current true s (S i) (below f d instrs) (mergable (b +$ Block c) (S i))) as Hc1 by (split; [by destruct Hcur|by left]).
      cbn [snd]. eapply (metered_step_block true); [done..|by apply Hgr|by eapply IH|]. unfold all. by rewrite <-app_assoc.
    + rewrite (merges_kept f d false) in * by done. destruct (g_kept _ _ _ _ _ _ _ _ _ Hg Hsp) as [Hnil Hpos].
      rewrite Hnil in Hch. cbn [app snd] in *. rewrite <-surjective_pairing in Hch.
      pose proof (g_current _ _ _ _ _ _ _ _ _ Hg) as Hcg. rewrite Hsp in Hcg. destruct Hcg as [Hcg _].
      assert (current own s (S i) (below f d instrs) (sub_scan f d c (b +$ Block c)).2) as Hc1 by by eapply current_kept.
      eapply metered_step_merge; [done..|by apply Hgr|by eapply IH|done].
  - cbn [snd]. eapply metered_step_arms; [done..|apply Hgr; [done..|apply current_new]|intros; eapply IH; [done..|apply current_new|done]|done].
  - cbn [snd]. eapply metered_step_split; [done..|apply Hgr; [done..|apply current_new]|intros; eapply IH; [done..|apply current_new|done]|done].
  - apply metered_plain; [by destruct x; auto|by destruct x|done|]. eapply IH; try done.
    destruct Hch as [H1 H2]. split; [done|]. intros p Hp. apply H2. eapply region_mono; [| |done]; [lia|done].
Qed.

End paths.

Section whole.
Context (f : LocalFunction) (ch : Pos → N).

Lemma sub_metered_all d : sub_metered f ch d.
Proof.
  induction d as [|d IH]; intros c own b Hlv Htidy Hnd Hcur Hch.
  - by destruct (Hlv c ltac:(by left)).
  - specialize (Hlv c ltac:(by left)). simpl in *. rewrite scan_unfold in *. rewrite sequences_unfold in *.
    rewrite tidy_unfold in Htidy. simpl in *. eapply metered_instrs; try done; [apply sub_hyp_all|].
    intros x Hx. by eapply shallow_level.
Qed.

Lemma scan_metered d : tree f d → tidy f d = true →
  charged f ch (entry_block f) 0 (below f d (block f (entry_block f))) (scan f d (entry_block f) (metered_new (entry_block f) 0)) →
  metered f ch (entry_block f) 0 (metered_new (entry_block f) 0) (block f (entry_block f))
    (scan f d (entry_block f) (metered_new (entry_block f) 0)).2.
Proof.
  intros (Hs & Hnd & _) Ht Hch. unfold tidy in Ht. rewrite tidy_unfold in Ht. rewrite scan_unfold in *.
  rewrite sequences_unfold in Hnd. eapply metered_instrs; try done;
    [apply sub_hyp_all|apply sub_metered_all|intros x Hx; by eapply shallow_level|apply current_new].
Qed.

End whole.
