(* ===== verification/MeterCharges.v ===== *)
(** The claims about gas metering: the instrumentation charges every execution of a function for exactly the
    instructions it executes, in advance; and a family of functions for which it does not. *)
From S2P Require Import Prelude Metering Metered MeterRegions MeterPaths.

Import IR.

(** * The charges of the instrumentation *)

(** What is charged in front of a position, from the second pass over the sequence. *)
Definition charge_at (f : LocalFunction) (blocks : MeteredBlocks) (p : Pos) : N :=
  match place (default [] (blocks !! p.1)) 0 (block f p.1) !! p.2 with
  | Some (Some b, _) => mb_cost b
  | _ => 0
  end.

(** Passing a position with [g] units of gas left: the charge is deducted, or execution traps. *)
Definition meter (f : LocalFunction) (blocks : MeteredBlocks) (g : N) (p : Pos) : option N :=
  checked_sub g (charge_at f blocks p).
Fixpoint meter_path (f : LocalFunction) (blocks : MeteredBlocks) (g : N) (π : list Pos) : option N :=
  match π with
  | [] => Some g
  | p :: π => g ← meter f blocks g p; meter_path f blocks g π
  end.

Lemma meter_path_sum f blocks π : ∀ g, meter_path f blocks g π =
  let c := sum_over (charge_at f blocks) π in if (c <=? g)%N then Some (g - c)%N else None.
Proof.
  induction π as [|p π IH]; intros g; simpl; [by rewrite N.sub_0_r; destruct g|].
  unfold meter, checked_sub. destruct (N.leb_spec (charge_at f blocks p) g); simpl.
  - rewrite IH. simpl. destruct (N.leb_spec (sum_over (charge_at f blocks) π) (g - charge_at f blocks p)),
      (N.leb_spec (charge_at f blocks p + sum_over (charge_at f blocks) π) g); try lia; [|done]. f_equal. lia.
  - by destruct (N.leb_spec (charge_at f blocks p + sum_over (charge_at f blocks) π) g); [lia|].
Qed.

(** ** Placement *)

Definition of_sequence (s : nat) (b : MeteredBlock) : Prop := (0 < mb_cost b)%N ∧ mb_seq_id b = s.
#[global] Instance of_sequence_dec s b : Decision (of_sequence s b).
Proof. unfold of_sequence. apply _. Defined.

Lemma finalize_all l : ∀ (m : MeteredBlocks) s, default [] (foldl finalize m l !! s) = default [] (m !! s) ++ filter (of_sequence s) l.
Proof.
  induction l as [|b l IH]; intros m s; [by rewrite app_nil_r|]. simpl. rewrite IH. unfold finalize.
  destruct (N.ltb_spec 0 (mb_cost b)).
  - destruct (decide (mb_seq_id b = s)) as [<-|Hne].
    + rewrite lookup_insert_eq, filter_cons_True by done. simpl. by rewrite <-app_assoc.
    + rewrite lookup_insert_ne, filter_cons_False by (try done; by intros [_ ?]). done.
  - rewrite filter_cons_False; [done|]. intros [? _]. lia.
Qed.

Lemma place_at bs instrs : ∀ i, StronglySorted (λ x y, mb_start_index x < mb_start_index y) bs →
  Forall (λ b, i ≤ mb_start_index b) bs → ∀ k x, instrs !! k = Some x →
  ∃ o, place bs i instrs !! k = Some (o, x) ∧
    (∀ b, o = Some b → b ∈ bs ∧ mb_start_index b = i + k) ∧ (∀ b, b ∈ bs → mb_start_index b = i + k → o = Some b).
Proof.
  revert bs. induction instrs as [|y instrs IH]; intros bs i Hs Hf k x Hk; [done|].
  assert (∀ bs', StronglySorted (λ x y, mb_start_index x < mb_start_index y) bs' → Forall (λ b, S i ≤ mb_start_index b) bs' →
    ∀ k', k = S k' → ∃ o, place bs' (S i) instrs !! k' = Some (o, x) ∧
    (∀ b, o = Some b → b ∈ bs' ∧ mb_start_index b = i + k) ∧ (∀ b, b ∈ bs' → mb_start_index b = i + k → o = Some b)) as Hrest.
  { intros bs' Hs' Hf' k' ->. simpl in Hk. replace (i + S k') with (S i + k') by lia. by apply IH. }
  clear IH. destruct bs as [|b bs]; simpl.
  - destruct k as [|k].
    + inversion Hk. exists None. split_and!; [done..|]. intros b Hb. by apply not_elem_of_nil in Hb.
    + simpl. by apply Hrest.
  - apply StronglySorted_inv in Hs as [Hs Hb]. apply Forall_cons in Hf as [Hi Hf].
    assert (Forall (λ c, S i ≤ mb_start_index c) bs) as Hf'.
    { eapply Forall_impl; [exact Hb|]. simpl. intros; lia. }
    destruct (Nat.eqb_spec (mb_start_index b) i) as [He|Hne].
    + destruct k as [|k]; simpl.
      * inversion Hk. exists (Some b). split_and!; [done|intros ? [= <-]; split; [by left|lia]|].
        intros c [->|Hc]%elem_of_cons Hc'; [done|]. rewrite Forall_forall in Hf'. specialize (Hf' c Hc). lia.
      * destruct (Hrest bs Hs Hf' k eq_refl) as (o & Ho & H1 & H2). exists o. split_and!; [done| |].
        -- intros c Hc. destruct (H1 c Hc). split; [by right|done].
        -- intros c [->|Hc]%elem_of_cons Hc'; [lia|by apply H2].
    + destruct k as [|k]; simpl.
      * inversion Hk. exists None. split_and!; [done..|].
        intros c [->|Hc]%elem_of_cons Hc'; [lia|]. rewrite Forall_forall in Hf'. specialize (Hf' c Hc). lia.
      * apply Hrest; [by constructor|constructor; [lia|done]|done].
Qed.

(** ** The charges of a tidy function are those of its blocks *)

Section tidy.
Context (f : LocalFunction) (d : nat).
Hypothesis Htree : tree f d.
Hypothesis Htidy : tidy f d = true.

Let r := scan f d (entry_block f) (metered_new (entry_block f) 0).
Let blocks : MeteredBlocks := foldl finalize ∅ (all r).

Lemma determine_blocks : determine_metered_blocks f = Some blocks.
Proof. rewrite (determine_scan f d Htree). unfold blocks, r, all. by destruct (scan _ _ _ _). Qed.

Lemma blocks_of s : default [] (blocks !! s) = filter (of_sequence s) (all r).
Proof. unfold blocks. by rewrite finalize_all. Qed.

Lemma blocks_sorted s : StronglySorted (λ x y, mb_start_index x < mb_start_index y) (filter (of_sequence s) (all r)).
Proof.
  pose proof (g_ordered _ _ _ _ _ _ _ _ _ (scan_good f d Htree Htidy)) as Ho. fold r in Ho.
  induction Ho as [|x l Ho IH Hx]; [constructor|]. destruct (decide (of_sequence s x)) as [Hsx|Hsx].
  - rewrite filter_cons_True by done. constructor; [done|]. apply Forall_forall. intros y Hy.
    apply list_elem_of_filter in Hy as [[Hpy Hsy] Hy]. rewrite Forall_forall in Hx. destruct Hsx as [Hpx Hsx].
    apply (Hx y Hy); [done..|congruence].
  - by rewrite filter_cons_False.
Qed.

Lemma charge_spec p x : block f p.1 !! p.2 = Some x →
  (∀ b, b ∈ all r → (0 < mb_cost b)%N → pos b = p → charge_at f blocks p = mb_cost b) ∧
  (charge_at f blocks p ≠ 0%N → ∃ b, b ∈ all r ∧ (0 < mb_cost b)%N ∧ pos b = p).
Proof.
  intros Hx. unfold charge_at. rewrite blocks_of.
  destruct (place_at (filter (of_sequence p.1) (all r)) (block f p.1) 0) with (k := p.2) (x := x) as (o & Ho & H1 & H2);
    [apply blocks_sorted|apply Forall_forall; intros; lia|done|]. simpl in *. rewrite Ho. split.
  - intros b Hb Hpb <-. rewrite (H2 b); [done| |done]. by apply list_elem_of_filter.
  - destruct o as [b|]; [|done]. intros _. destruct (H1 b eq_refl) as [Hb Hst].
    apply list_elem_of_filter in Hb as [[Hpb Hsb] Hb]. exists b. split_and!; [done..|]. destruct p. unfold pos. simpl in *. by subst.
Qed.

(** All blocks start at instructions. *)
Lemma block_starts b : b ∈ all r → (0 < mb_cost b)%N → ∃ x, block f (pos b).1 !! (pos b).2 = Some x.
Proof.
  intros Hb Hpb. destruct (g_starts _ _ _ _ _ _ _ _ _ (scan_good f d Htree Htidy) b Hb Hpb) as [[? _]|[Hlen _]]; [simpl in *; lia|].
  by apply lookup_lt_is_Some_2.
Qed.
Lemma blocks_charge b : b ∈ all r → (0 < mb_cost b)%N → charge_at f blocks (pos b) = mb_cost b.
Proof. intros Hb Hpb. destruct (block_starts b Hb Hpb) as [x Hx]. by apply (charge_spec _ _ Hx). Qed.

Lemma blocks_charged : charged f (charge_at f blocks) (entry_block f) 0 (below f d (block f (entry_block f))) r.
Proof.
  split.
  - intros b Hb. apply blocks_charge. unfold all. apply elem_of_app. by left.
  - intros p [Hlen _] Hne. apply lookup_lt_is_Some_2 in Hlen as [x Hx]. by apply (charge_spec _ _ Hx).
Qed.

Lemma path_balance π o : path f (entry_block f) 0 π o →
  (path_cost f π ≤ sum_over (charge_at f blocks) π)%N ∧ (o ≠ Stopped → path_cost f π = sum_over (charge_at f blocks) π).
Proof.
  intros Hp. assert (final (charge_at f blocks) r.2) as Hfin.
  { destruct (N.eq_dec (mb_cost r.2) 0%N); [by left|right]. apply blocks_charge; [|lia]. unfold all. apply elem_of_app. right. by left. }
  pose proof (metered_balanced f _ _ _ _ _ Hp _ _ (scan_metered f _ d Htree Htidy blocks_charged) (final_covered _ _ Hfin)) as Hb.
  unfold balanced in Hb. fold r in Hb. rewrite (credit_final _ _ Hfin), credit_new in Hb. destruct o; split; intros; try done; lia.
Qed.

End tidy.

(** * The injected code *)

Section injected.
Context (gl gx : N).

(** The operand stack and the two globals, as the injected instructions see them. *)
Record GasState : Type := { gs_stack : list N; gs_limit : N; gs_exhausted : N }.
Inductive Ran : Type := Continues (st : GasState) | Traps (st : GasState).

(** The instructions of the injected code, as WebAssembly defines them. *)
Definition step (instr : Instr) (st : GasState) : option Ran :=
  let push n := Some (Continues {| gs_stack := n :: gs_stack st; gs_limit := gs_limit st; gs_exhausted := gs_exhausted st |}) in
  match instr, gs_stack st with
  | GlobalGet g, _ =>
      if (g =? gl)%N then push (gs_limit st) else if (g =? gx)%N then push (gs_exhausted st) else None
  | GlobalSet g, n :: stack =>
      if (g =? gl)%N then Some (Continues {| gs_stack := stack; gs_limit := n; gs_exhausted := gs_exhausted st |})
      else if (g =? gx)%N then Some (Continues {| gs_stack := stack; gs_limit := gs_limit st; gs_exhausted := n |})
      else None
  | Const (ConstI64 n), _ => push n
  | Binop I64LtU, b :: a :: stack =>
      Some (Continues {| gs_stack := (if (a <? b)%N then 1 else 0)%N :: stack; gs_limit := gs_limit st; gs_exhausted := gs_exhausted st |})
  | Binop I64Sub, b :: a :: stack =>
      Some (Continues {| gs_stack := ((a + (2 ^ 64 - b)) mod 2 ^ 64)%N :: stack; gs_limit := gs_limit st; gs_exhausted := gs_exhausted st |})
  | Unreachable, _ => Some (Traps st)
  | _, _ => None
  end.
Fixpoint run_flat (instrs : list Instr) (st : GasState) : option Ran :=
  match instrs with
  | [] => Some (Continues st)
  | i :: instrs => r ← step i st; match r with Continues st => run_flat instrs st | Traps st => Some (Traps st) end
  end.
(** Straight-line code with conditionals whose arms are straight-line code. *)
Fixpoint run_code (A : list InstrSeq) (instrs : list Instr) (st : GasState) : option Ran :=
  match instrs with
  | [] => Some (Continues st)
  | i :: instrs =>
      r ← match i, gs_stack st with
          | IfElse c a, n :: stack =>
              run_flat (default [] (A !! (if (n =? 0)%N then a else c)))
                {| gs_stack := stack; gs_limit := gs_limit st; gs_exhausted := gs_exhausted st |}
          | _, _ => step i st
          end;
      match r with Continues st => run_code A instrs st | Traps st => Some (Traps st) end
  end.

Definition metering_code (cost : N) (c a : nat) : list Instr :=
  let cost := Const (ConstI64 (cost mod 2 ^ 64)) in
  [GlobalGet gl; cost; Binop I64LtU; IfElse c a; GlobalGet gl; cost; Binop I64Sub; GlobalSet gl].
Definition throw_code (cost : N) : list Instr := [Const (ConstI64 (cost mod 2 ^ 64)); GlobalSet gx; Unreachable].

(** The code deducts the cost, or it records the cost and traps. *)
Lemma metering_code_runs A cost c a st :
  A !! c = Some (throw_code cost) → A !! a = Some [] → gl ≠ gx → (cost < 2 ^ 64)%N → (gs_limit st < 2 ^ 64)%N →
  run_code A (metering_code cost c a) st = Some (
    if (gs_limit st <? cost)%N then Traps {| gs_stack := gs_stack st; gs_limit := gs_limit st; gs_exhausted := cost |}
    else Continues {| gs_stack := gs_stack st; gs_limit := gs_limit st - cost; gs_exhausted := gs_exhausted st |}).
Proof.
  intros Hc Ha Hne Hcost Hlim. unfold metering_code. rewrite (N.mod_small cost) by done.
  cbn [run_code step gs_stack gs_limit gs_exhausted]. rewrite N.eqb_refl. cbn [mbind option_bind run_code step gs_stack gs_limit gs_exhausted].
  destruct (N.ltb_spec (gs_limit st) cost) as [Hlt|Hge].
  - cbn [N.eqb]. rewrite Hc. unfold throw_code. rewrite (N.mod_small cost) by done.
    cbn [default from_option id run_flat step gs_stack gs_limit gs_exhausted mbind option_bind].
    by rewrite (proj2 (N.eqb_neq gx gl)), N.eqb_refl by done.
  - cbn [N.eqb]. rewrite Ha. cbn [default from_option id run_flat mbind option_bind gs_stack gs_limit gs_exhausted]. do 3 f_equal.
    replace (gs_limit st + (2 ^ 64 - cost))%N with (gs_limit st - cost + 1 * 2 ^ 64)%N by lia.
    rewrite N.Div0.mod_add. apply N.mod_small. lia.
Qed.

(** ** The second pass *)

(** Code that deducts a cost that fits 64 bits, or records it and traps. *)
Definition charges (A : list InstrSeq) (cost : N) (code : list Instr) : Prop := ∀ st, (cost < 2 ^ 64)%N → (gs_limit st < 2 ^ 64)%N →
  run_code A code st = Some (
    match checked_sub (gs_limit st) cost with
    | Some rest => Continues {| gs_stack := gs_stack st; gs_limit := rest; gs_exhausted := gs_exhausted st |}
    | None => Traps {| gs_stack := gs_stack st; gs_limit := gs_limit st; gs_exhausted := cost |}
    end).
(** [instrs] are the placed instructions, with code that charges the blocks before them. *)
Inductive instrumented (A : list InstrSeq) : list (option MeteredBlock * Instr) → list Instr → Prop :=
  | instrumented_nil : instrumented A [] []
  | instrumented_plain x ps instrs : instrumented A ps instrs → instrumented A ((None, x) :: ps) (x :: instrs)
  | instrumented_metered b x code ps instrs :
      charges A (mb_cost b) code → instrumented A ps instrs → instrumented A ((Some b, x) :: ps) (code ++ x :: instrs).

(** Sequences that were added from index [n] on stay. *)
Definition extends (n : nat) (A A' : list InstrSeq) : Prop := ∀ i x, n ≤ i → A !! i = Some x → A' !! i = Some x.
(** The same, with the arms of the injected code at indices from [n] on. *)
Inductive instrumented_from (n : nat) (A : list InstrSeq) : list (option MeteredBlock * Instr) → list Instr → Prop :=
  | from_nil : instrumented_from n A [] []
  | from_plain x ps instrs : instrumented_from n A ps instrs → instrumented_from n A ((None, x) :: ps) (x :: instrs)
  | from_metered b x c a ps instrs :
      n ≤ c → n ≤ a → A !! c = Some (throw_code (mb_cost b)) → A !! a = Some [] →
      instrumented_from n A ps instrs → instrumented_from n A ((Some b, x) :: ps) (metering_code (mb_cost b) c a ++ x :: instrs).
Lemma from_instrumented n A ps instrs : gl ≠ gx → instrumented_from n A ps instrs → instrumented A ps instrs.
Proof.
  intros Hne. induction 1; constructor; try done. intros st Hcost Hlim. rewrite metering_code_runs by done.
  unfold checked_sub. by destruct (N.ltb_spec (gs_limit st) (mb_cost b)), (N.leb_spec (mb_cost b) (gs_limit st)); try lia.
Qed.
Lemma from_extends n A A' ps instrs : extends n A A' → instrumented_from n A ps instrs → instrumented_from n A' ps instrs.
Proof. intros He. induction 1; econstructor; eauto. Qed.

Lemma emit_instrumented ps : ∀ n A, n ≤ length A → let r := emit gl gx A ps in
  (∃ extra, r.1 = A ++ extra) ∧ instrumented_from n r.1 ps r.2.
Proof.
  induction ps as [|[o x] ps IH]; intros n A Hn; [split; [exists []; by rewrite app_nil_r|constructor]|].
  cbn [emit]. destruct o as [b|].
  - unfold inject_metering. cbn zeta. set (A1 := A ++ _).
    specialize (IH n A1). destruct (emit gl gx A1 ps) as [A2 instrs]. simpl in IH |- *.
    destruct IH as [[extra ->] IH]; [unfold A1; rewrite length_app; lia|]. split.
    { unfold A1. rewrite <-app_assoc. by eexists. }
    apply (from_metered n _ b x (length A + 1) (length A + 2)); [lia|lia| | |done].
    + unfold A1. rewrite <-app_assoc, lookup_app_r by lia. by replace (length A + 1 - length A) with 1 by lia.
    + unfold A1. rewrite <-app_assoc, lookup_app_r by lia. by replace (length A + 2 - length A) with 2 by lia.
  - specialize (IH n A Hn). destruct (emit gl gx A ps) as [A2 instrs]. simpl in *. destruct IH as [? IH]. split; [done|by constructor].
Qed.

(** One sequence of the second pass: it is instrumented, the others stay. *)
Lemma transform_sequence_spec n A s bs : s < n → n ≤ length A → let A' := transform_sequence gl gx A s bs in
  n ≤ length A' ∧ extends n A A' ∧ (∀ i, i < n → i ≠ s → A' !! i = A !! i) ∧
  (∃ instrs, A' !! s = Some instrs ∧ instrumented_from n A' (place bs 0 (default [] (A !! s))) instrs).
Proof.
  intros Hs Hn. unfold transform_sequence. pose proof (emit_instrumented (place bs 0 (default [] (A !! s))) n A Hn) as He.
  destruct (emit _ _ _ _) as [A1 instrs]. simpl in *. destruct He as [[extra ->] He].
  assert (extends n (A ++ extra) (<[s:=instrs]> (A ++ extra))) as Hex.
  { intros i x Hi Hx. rewrite list_lookup_insert_ne by lia. done. }
  split_and!.
  - rewrite length_insert, length_app. lia.
  - intros i x Hi Hx. apply Hex; [done|]. by apply lookup_app_l_Some.
  - intros i Hi Hne. rewrite list_lookup_insert_ne by done. by apply lookup_app_l; lia.
  - exists instrs. split; [|by eapply from_extends]. apply list_lookup_insert_eq. rewrite length_app. lia.
Qed.

(** All sequences. *)
Lemma transform_arena_spec (blocks : MeteredBlocks) (A0 : list InstrSeq) k : k ≤ length A0 →
  let A := foldl (λ A s, match blocks !! s with Some bs => transform_sequence gl gx A s bs | None => A end) A0 (seq 0 k) in
  length A0 ≤ length A ∧ (∀ i, k ≤ i → i < length A0 → A !! i = A0 !! i) ∧
  (∀ i, i < k → ∃ instrs, A !! i = Some instrs ∧
    instrumented_from (length A0) A (place (default [] (blocks !! i)) 0 (default [] (A0 !! i))) instrs).
Proof.
  induction k as [|k IH]; intros Hk; [split_and!; [done..|intros; lia]|].
  rewrite seq_S, foldl_app. simpl. destruct IH as (H1 & H2 & H3); [lia|].
  set (A := foldl _ _ _) in *. destruct (blocks !! k) as [bs|] eqn:Hb.
  - destruct (transform_sequence_spec (length A0) A k bs) as (T1 & T2 & T3 & T4); [lia|done|]. split_and!; [done| |].
    + intros i Hi Hi'. rewrite T3, H2 by lia. done.
    + intros i Hi. destruct (decide (i = k)) as [->|Hne].
      * rewrite Hb. rewrite H2 in T4 by lia. done.
      * destruct (H3 i) as (instrs & Hi1 & Hi2); [lia|]. exists instrs. rewrite T3 by lia. split; [done|by eapply from_extends].
  - split_and!; [done|intros; apply H2; lia|]. intros i Hi. destruct (decide (i = k)) as [->|Hne]; [|apply H3; lia].
    rewrite Hb. rewrite H2 by lia. destruct (A0 !! k) as [instrs|] eqn:Hk'; [|apply lookup_ge_None in Hk'; lia].
    exists instrs. split; [done|]. simpl. clear. generalize 0. induction instrs as [|x instrs IHi]; intros j; simpl; by constructor.
Qed.

End injected.

(** * Code that is not paid for *)

(** A branch inside of a block nested in a block: code behind the inner and behind the outer block. *)
Definition nested_branch (before work rest : list Instr) (t : nat) : LocalFunction :=
  {| entry_block := 0; arena := [Block 1 :: rest; Block 2 :: work; before ++ [BrIf t]] |}.
(** Instructions after which the next one is always next, and that do not end a metered block. *)
Definition straight (i : Instr) : bool :=
  match i with
  | Block _ | Loop _ | IfElse _ _ | Call _ | CallIndirect _ _ | Br _ | BrIf _ | BrTable _ _ | Return | Unreachable => false
  | _ => true
  end.
Definition code_cost (l : list Instr) : N := sum_over instruction_cost l.
Lemma code_cost_pos l : l ≠ [] → (0 < code_cost l)%N.
Proof. destruct l as [|i l]; [done|]. intros _. unfold code_cost. simpl. pose proof (instruction_cost_pos i). lia. Qed.

Lemma traverse_straight s i l k b blocks : forallb straight l = true →
  traverse_instrs s i (l ++ k) b blocks = traverse_instrs s (length l + i) k (add_cost b (code_cost l)) blocks.
Proof.
  revert i b. induction l as [|x l IH]; intros i b; cbn [forallb length app].
  { intros _. f_equal. unfold add_cost. destruct b. simpl. by rewrite N.add_0_r. }
  rewrite andb_true_iff. intros [Hx Hl]. replace (S (length l) + i) with (length l + S i) by lia.
  assert (add_cost b (code_cost (x :: l)) = add_cost (add_cost b (instruction_cost x)) (code_cost l)) as ->
    by (unfold add_cost; simpl; f_equal; unfold code_cost; simpl; lia).
  rewrite <-(IH (S i)) by done. by destruct x.
Qed.
Lemma straight_sub {A} (g : nat → list A) l : forallb straight l = true → (l ≫= λ i, nested i ≫= g) = [].
Proof.
  induction l as [|x l IH]; [done|]. cbn [forallb mbind list_bind]. rewrite andb_true_iff. intros [Hx Hl]. cbn [mbind list_bind] in IH.
  rewrite IH by done. by destruct x.
Qed.

(** One frame of the traversal. *)
Lemma traverse_descend f fuel s i b stack blocks pushed blocks' :
  traverse_instrs s i (drop i (block f s)) b blocks = Descend pushed blocks' →
  traverse_blocks f (S fuel) ((s, i, b) :: stack) blocks = traverse_blocks f fuel (pushed ++ stack) blocks'.
Proof. intros Ht. simpl. by rewrite Ht. Qed.
Lemma traverse_finish f fuel s i b stack blocks b' blocks' :
  traverse_instrs s i (drop i (block f s)) b blocks = Finished b' blocks' →
  traverse_blocks f (S fuel) ((s, i, b) :: stack) blocks =
    match stack with
    | (s', i', upper) :: stack' =>
        if merges upper b' then traverse_blocks f fuel ((s', i', b') :: stack') blocks'
        else traverse_blocks f fuel stack (finalize blocks' b')
    | [] => traverse_blocks f fuel [] (finalize blocks' b')
    end.
Proof. intros Ht. simpl. by rewrite Ht. Qed.

Section nested_branch.
Context (before work rest : list Instr) (t : nat).
Context (Hb : forallb straight before = true) (Hw : forallb straight work = true) (Hr : forallb straight rest = true).
Notation f := (nested_branch before work rest t).

Lemma straight_in l i : forallb straight l = true → i ∈ l → nested i = [].
Proof. rewrite forallb_forall. intros Hl Hi%list_elem_of_In. specialize (Hl i Hi). by destruct i. Qed.
Lemma nested_branch_tree : tree f 2.
Proof.
  assert (sequences f 2 0 = [0; 1; 2]) as Hs.
  { cbn [sequences]. unfold block. cbn [nested_branch arena lookup list_lookup default mbind list_bind nested app sequences from_option id].
    unfold block. cbn [nested_branch arena lookup list_lookup default mbind list_bind nested app sequences from_option id].
    by rewrite !straight_sub. }
  unfold tree. change (entry_block f) with 0. rewrite Hs. split_and!.
  - intros i s [->|Hi]%elem_of_cons Hn; [|by rewrite (straight_in rest i Hr Hi) in Hn; apply elem_of_nil in Hn].
    apply list_elem_of_singleton in Hn as ->. intros i' s' [->|Hi']%elem_of_cons Hn; [|by rewrite (straight_in work i' Hw Hi') in Hn; apply elem_of_nil in Hn].
    apply list_elem_of_singleton in Hn as ->. intros i [Hi|Hi%list_elem_of_singleton]%elem_of_app; [by apply (straight_in before)|by subst].
  - by apply (bool_decide_unpack _); vm_compute.
  - simpl. repeat constructor; lia.
Qed.

(** The metered blocks: the last one starts where another one does. *)
Definition unpaid_blocks : list MeteredBlock :=
  [{| mb_seq_id := 0; mb_start_index := 0; mb_cost := 7 + code_cost before; mb_merge_index := None |};
   {| mb_seq_id := 0; mb_start_index := 1; mb_cost := code_cost work; mb_merge_index := Some 0 |};
   {| mb_seq_id := 0; mb_start_index := 1; mb_cost := code_cost rest; mb_merge_index := Some 0 |}].
Context (Hwn : work ≠ []) (Hrn : rest ≠ []).
Lemma nested_branch_blocks : determine_metered_blocks f = Some {[0 := unpaid_blocks]}.
Proof.
  assert (∃ k, traversal_fuel f = 6 + k) as [k Hk].
  { unfold traversal_fuel. simpl. rewrite length_app. simpl. eexists (length rest + length work + length before). lia. }
  pose proof (code_cost_pos work Hwn) as Hwc%N.ltb_lt. pose proof (code_cost_pos rest Hrn) as Hrc%N.ltb_lt.
  assert (∀ s i l b blocks, forallb straight l = true → traverse_instrs s i l b blocks = Finished (add_cost b (code_cost l)) blocks) as Hall.
  { intros s i l b blocks Hl. rewrite <-(app_nil_r l) at 1. by rewrite traverse_straight. }
  unfold determine_metered_blocks. rewrite Hk. cbn [Nat.add].
  do 2 (erewrite traverse_descend by reflexivity; cbn [app]).
  erewrite traverse_finish by (change (drop _ _) with (before ++ [BrIf t]); by rewrite traverse_straight).
  match goal with |- context[merges ?x ?y] => change (merges x y) with false end. cbv iota.
  match goal with |- context[finalize ?x (metered_new 2 ?y)] => change (finalize x (metered_new 2 y)) with x end.
  erewrite traverse_finish by (change (drop _ _) with work; by apply Hall).
  match goal with |- context[merges ?x ?y] => change (merges x y) with false end. cbv iota.
  erewrite traverse_finish by (change (drop _ _) with rest; by apply Hall). cbn [traverse_blocks].
  unfold finalize. cbn [mb_cost add_cost mergable metered_new mb_seq_id entry_block nested_branch instruction_cost]. rewrite !N.add_0_l, Hwc, Hrc.
  rewrite (proj2 (N.ltb_lt 0 _)) by lia. rewrite lookup_empty, !lookup_insert_eq, !insert_insert_eq. cbn [default from_option id app].
  unfold unpaid_blocks, add_cost. cbn [mb_seq_id mb_start_index mb_merge_index mb_cost metered_new mergable].
  rewrite insert_empty, !N.add_0_l. do 4 f_equal. lia.
Qed.

(** Falling through straight code. *)
Definition positions (s i n : nat) : list Pos := (λ j, (s, j)) <$> seq i n.
Lemma path_straight g s i l : drop i (block g s) = l → forallb falls_through l = true → path g s i (positions s i (length l)) Fell.
Proof.
  revert i. induction l as [|x l IH]; intros i Hd Hl; unfold positions; simpl.
  - constructor. apply (f_equal (λ k, k !! 0)) in Hd. rewrite lookup_drop, Nat.add_0_r in Hd. done.
  - apply andb_true_iff in Hl as [Hx Hl]. eapply path_next; [|exact Hx|].
    + apply (f_equal (λ k, k !! 0)) in Hd. rewrite lookup_drop, Nat.add_0_r in Hd. done.
    + apply IH; [|done]. by apply (drop_tail _ _ _ _ Hd).
Qed.
Lemma sum_positions (g : Pos → N) s i l (h : Instr → N) : (∀ j x, l !! j = Some x → g (s, i + j) = h x) →
  sum_over g (positions s i (length l)) = sum_over h l.
Proof.
  revert i. induction l as [|x l IH]; intros i Hg; [done|]. unfold positions. simpl. rewrite <-(Nat.add_0_r i) at 1.
  rewrite (Hg 0 x eq_refl). f_equal. apply (IH (S i)). intros j y Hj. rewrite <-(Hg (S j) y Hj). f_equal. f_equal. lia.
Qed.
Lemma straight_falls l : forallb straight l = true → forallb falls_through l = true.
Proof. rewrite !forallb_forall. intros Hl x Hx. specialize (Hl x Hx). by destruct x. Qed.

Definition nested_branch_path : list Pos :=
  (0, 0) :: ((1, 0) :: positions 2 0 (S (length before)) ++ positions 1 1 (length work)) ++ positions 0 1 (length rest).
Lemma nested_branch_falls : path f 0 0 nested_branch_path Fell.
Proof.
  eapply (path_through _ 0 0 (Block 1) 1 _ Fell); [done|by left| |by left|by apply path_straight, straight_falls].
  eapply (path_through _ 1 0 (Block 2) 2 _ Fell); [done|by left| |by left|by apply path_straight, straight_falls].
  replace (S (length before)) with (length (before ++ [BrIf t])) by (rewrite length_app; simpl; lia).
  apply path_straight; [done|]. by rewrite forallb_app, straight_falls.
Qed.
Lemma sum_over_cons {A} (g : A → N) x l : sum_over g (x :: l) = (g x + sum_over g l)%N.
Proof. done. Qed.
Lemma nested_branch_sum (g : Pos → N) : sum_over g nested_branch_path =
  (g (0, 0)%nat + (g (1, 0)%nat + (sum_over g (positions 2 0 (length (before ++ [BrIf t]))) + sum_over g (positions 1 1 (length work)))
    + sum_over g (positions 0 1 (length rest))))%N.
Proof.
  unfold nested_branch_path. replace (S (length before)) with (length (before ++ [BrIf t])) by (rewrite length_app; simpl; lia).
  rewrite sum_over_cons, sum_over_app. cbn [app]. by rewrite sum_over_cons, sum_over_app.
Qed.
Lemma nested_branch_cost : path_cost f nested_branch_path = (7 + code_cost before + code_cost work + code_cost rest)%N.
Proof.
  rewrite nested_branch_sum.
  rewrite !(sum_positions _ _ _ _ instruction_cost) by (intros j x Hj; unfold cost_at, block; cbn [nested_branch arena fst snd lookup list_lookup default]; simpl; by rewrite Hj).
  rewrite sum_over_app. fold (code_cost before) (code_cost work) (code_cost rest).
  change (cost_at f (0, 0)) with 2%N. change (cost_at f (1, 0)) with 2%N. simpl. lia.
Qed.

(** Where no block starts, nothing is charged. *)
Lemma place_behind bs i l j o x : Forall (λ b, mb_start_index b < i) bs → place bs i l !! j = Some (o, x) → o = None.
Proof.
  revert i j bs. induction l as [|y l IH]; intros i j bs Hbs; [done|]. cbn [place]. destruct bs as [|b bs].
  - destruct j; [by intros [= <- _]|]. simpl. intros H. eapply (IH (S i)); [constructor|exact H].
  - inversion Hbs as [|? ? Hi Hbs']; subst. rewrite (proj2 (Nat.eqb_neq _ _)) by lia.
    destruct j; [by intros [= <- _]|]. simpl. intros H. eapply (IH (S i)); [|exact H]. constructor; [lia|].
    eapply Forall_impl; [exact Hbs'|]. simpl. lia.
Qed.
Lemma sum_none (g : Pos → N) s i n : (∀ j, i ≤ j → g (s, j) = 0%N) → sum_over g (positions s i n) = 0%N.
Proof.
  revert i. induction n as [|n IH]; intros i Hg; [done|]. unfold positions. simpl. rewrite Hg by lia. apply (IH (S i)).
  intros j Hj. apply Hg. lia.
Qed.
Lemma unpaid_elsewhere s j : s ≠ 0 → charge_at f {[0 := unpaid_blocks]} (s, j) = 0%N.
Proof.
  intros Hs. unfold charge_at. cbn [fst snd]. rewrite lookup_singleton_ne by done. cbn [default from_option id].
  destruct (place _ _ _ !! j) as [[o x]|] eqn:Hp; [|done]. by rewrite (place_behind _ _ _ _ _ _ (Forall_nil_2 _) Hp).
Qed.
Lemma unpaid_place l j o x : place unpaid_blocks 0 (Block 1 :: l) !! (2 + j) = Some (o, x) → o = None.
Proof. destruct l as [|r l]; [done|]. cbn. intros Hp. refine (place_behind _ 2 _ _ _ _ _ Hp). repeat constructor. Qed.
Lemma unpaid_rest j : charge_at f {[0 := unpaid_blocks]} (0, 2 + j) = 0%N.
Proof.
  unfold charge_at. cbn [fst snd]. rewrite lookup_singleton_eq. cbn [default from_option id].
  change (block f 0) with (Block 1 :: rest). destruct (place _ _ _ !! _) as [[o x]|] eqn:Hp; [|done]. by rewrite (unpaid_place _ _ _ _ Hp).
Qed.
Lemma nested_branch_charge :
  sum_over (charge_at f {[0 := unpaid_blocks]}) nested_branch_path = (7 + code_cost before + code_cost work)%N.
Proof.
  rewrite nested_branch_sum, (unpaid_elsewhere 1) by done.
  rewrite (sum_none _ 2), (sum_none _ 1) by (intros; by apply unpaid_elsewhere).
  assert (∃ n, length rest = S n) as [n ->] by (destruct rest; [done|by eexists]).
  change (positions 0 1 (S n)) with ((0, 1) :: positions 0 2 n). rewrite sum_over_cons, (sum_none _ 0 2).
  2:{ intros j Hj. replace j with (2 + (j - 2)) by lia. apply unpaid_rest. }
  unfold charge_at. cbn [fst snd]. rewrite lookup_singleton_eq. cbn [default from_option id].
  change (block f 0) with (Block 1 :: rest). destruct rest as [|r rest']; [done|]. cbn. lia.
Qed.
End nested_branch.

Module MeterClaims.

(** C13. Every execution is paid for.  In a tidy function, whose sequences form a tree, the determination of metered blocks
    ends, and for every path of control flow from its start: an execution that the meter lets pass with [g'] of [g] units
    of gas left has executed instructions of a cost of at most [g - g'], wherever it is stopped; and one that ends by
    falling off the end, by a branch out or by a return is charged exactly the cost of the instructions it executed, and
    is let pass if and only if the gas suffices for that. *)
Theorem execution_is_paid (f : LocalFunction) (d : nat) : tree f d → tidy f d = true →
  ∃ blocks, determine_metered_blocks f = Some blocks ∧ ∀ π o g, path f (entry_block f) 0 π o →
    (∀ g', meter_path f blocks g π = Some g' → (path_cost f π ≤ g - g')%N ∧ (g' ≤ g)%N) ∧
    (o ≠ Stopped → meter_path f blocks g π = checked_sub g (path_cost f π)).
Proof.
  intros Ht Hy. eexists. split; [by apply (determine_blocks f d)|]. intros π o g Hp.
  destruct (path_balance f d Ht Hy π o Hp) as [Hle Heq]. rewrite meter_path_sum. simpl. split.
  - intros g'. case_match eqn:Hc; [|done]. apply N.leb_le in Hc. intros [= <-]. lia.
  - intros Ho. unfold checked_sub. by rewrite (Heq Ho).
Qed.

(** C14. The instrumentation adds the meter and nothing else.  Every sequence of an instrumented function consists of the
    instructions of the original sequence in their order, and in front of those at which a metered block starts, of code
    that deducts the cost of the block from the gas limit, or, when that does not suffice, leaves the limit, records the
    cost as exhausted and traps; the operand stack is as before. *)
Theorem instrumentation_charges (f f' : LocalFunction) (gl gx : N) : gl ≠ gx → transform_function f gl gx = Some f' →
  ∃ blocks, determine_metered_blocks f = Some blocks ∧ entry_block f' = entry_block f ∧
    ∀ s, s < length (arena f) →
      instrumented gl gx (arena f') (place (default [] (blocks !! s)) 0 (block f s)) (block f' s).
Proof.
  intros Hne. unfold transform_function. destruct (determine_metered_blocks f) as [blocks|]; [|done].
  cbn [mbind option_bind]. intros [= <-]. exists blocks. split_and!; [done|done|]. intros s Hs.
  destruct (transform_arena_spec gl gx blocks (arena f) (length (arena f))) as (_ & _ & H3); [done|].
  destruct (H3 s Hs) as (instrs & Hi & Hinst). unfold block at 2. cbn [arena]. rewrite Hi. simpl.
  eapply from_instrumented; [done|exact Hinst].
Qed.



(** A block with a conditional exit, a loop that is repeated, and a conditional return. *)
Definition looping : LocalFunction :=
  {| entry_block := 0;
     arena := [[Block 1; Const (ConstI32 1)]; [LocalGet 0; BrIf 1; Loop 2]; [LocalGet 1; BrIf 2; LocalGet 2; IfElse 3 4]; [Return]; []] |}.
(** Two iterations of the loop, then out through the other arm and to the end. *)
Definition two_rounds : list Pos :=
  [(0, 0); (1, 0); (1, 1); (1, 2); (2, 0); (2, 1); (2, 0); (2, 1); (2, 2); (2, 3); (0, 1)].

Lemma two_rounds_path : path looping 0 0 two_rounds Fell.
Proof.
  eapply (path_through _ 0 0 (Block 1) 1 [(1, 0); (1, 1); (1, 2); (2, 0); (2, 1); (2, 0); (2, 1); (2, 2); (2, 3)] Fell [(0, 1)]);
    [done|by left| |by left|].
  - do 2 (eapply path_next; [done..|]).
    eapply (path_again _ 1 2 2 [(2, 0); (2, 1)] [(2, 0); (2, 1); (2, 2); (2, 3)]); [done| |].
    + eapply path_next; [done..|]. eapply path_branch; [done|by left].
    + eapply (path_through _ 1 2 (Loop 2) 2 [(2, 0); (2, 1); (2, 2); (2, 3)] Fell []); [done|by left| |by left|by constructor].
      do 3 (eapply path_next; [done..|]).
      eapply (path_through _ 2 3 (IfElse 3 4) 4 [] Fell []); [done|by right; left|by constructor|by left|by constructor].
  - eapply path_next; [done..|]. by constructor.
Qed.

Lemma execution_is_paid_witness : ∃ blocks, determine_metered_blocks looping = Some blocks ∧
  (∀ g', meter_path looping blocks 50 two_rounds = Some g' → (path_cost looping two_rounds ≤ 50 - g')%N ∧ (g' ≤ 50)%N) ∧
  meter_path looping blocks 50 two_rounds = checked_sub 50 (path_cost looping two_rounds).
Proof.
  destruct (execution_is_paid looping 3) as (blocks & Hb & H).
  - split_and!; by apply (bool_decide_unpack _); vm_compute.
  - by vm_compute.
  - exists blocks. split; [exact Hb|]. destruct (H two_rounds Fell 50%N two_rounds_path) as [H1 H2].
    split; [exact H1|]. apply H2. discriminate.
Defined.

Lemma instrumentation_charges_witness : ∃ f' blocks, transform_function looping 0 1 = Some f' ∧
  determine_metered_blocks looping = Some blocks ∧ entry_block f' = 0 ∧
  instrumented 0 1 (arena f') (place (default [] (blocks !! 2)) 0 (block looping 2)) (block f' 2).
Proof.
  destruct (transform_function looping 0 1) as [f'|] eqn:Hf; [|exfalso; vm_compute in Hf; discriminate].
  destruct (instrumentation_charges looping f' 0 1) as (blocks & Hb & He & Hi); [discriminate|exact Hf|].
  exists f', blocks. split_and!; [reflexivity|exact Hb|exact He|]. apply Hi. simpl. lia.
Defined.

End MeterClaims.
