(* ===== verification/ContractTypes.v ===== *)
(** Types of the contracts module and of the interface of contracts: identifiers, policies, errors, parameters
    and messages (src/runtime-sdk/modules/contracts/src/{lib,types,wasm}.rs and abi/mod.rs,
    src/contract-sdk/types/src/{lib,message,event,storage,env}.rs). *)
From stdpp Require Import pretty.
From S2P Require Import Prelude Endian Storage StoreIter Types Fee Errors State Current Transactions Module.
From S2P Require Import CallFormat Core.

Local Open Scope string_scope.

Definition CONTRACTS_MODULE_NAME : string := "contracts".

(** * Identifiers *)

(** [CodeId] and [InstanceId] are numbers of 64 bits; the additions of a release build wrap around. *)
Definition id_increment (id : N) : N := wrapping_add u64_max id 1.
Definition to_storage_key (id : N) : bytes := be_bytes64 id.

(** * Errors *)

(** The error of a contract, in a module named after its code. *)
Record ContractError := { ce_module : string; ce_code : N; ce_message : string }.
Definition contract_module (code_id : N) (module : string) : string :=
  if String.eqb module "" then CONTRACTS_MODULE_NAME +:+ "." +:+ pretty code_id
  else CONTRACTS_MODULE_NAME +:+ "." +:+ pretty code_id +:+ "." +:+ module.
Definition contract_error_new (code_id : N) (module : string) (code : N) (message : string) : ContractError :=
  {| ce_module := contract_module code_id module; ce_code := code; ce_message := message |}.
#[export] Instance contract_sdk_error : SdkError ContractError := {
  module_name := ce_module;
  code := ce_code;
  to_string := ce_message;
  into_abort _ := None;
}.

Inductive ContractsError :=
  | CtInvalidArgument
  | CtCodeTooLarge (size max : N)
  | CtCodeMalformed
  | CtUnsupportedABI
  | CtCodeMissingRequiredExport (export : string)
  | CtCodeDeclaresReservedExport (export : string)
  | CtCodeDeclaresStartFunction
  | CtCodeDeclaresTooManyMemories
  | CtCodeNotFound (id : N)
  | CtInstanceNotFound (id : N)
  | CtModuleLoadingFailed
  | CtExecutionFailed (source : string)
  | CtForbidden
  | CtUnsupported
  | CtInsufficientCallerBalance
  | CtResultTooLarge (size max : N)
  | CtTooManySubcalls (count max : N)
  | CtCodeAlreadyUpgraded (id : N)
  | CtAbort (source : DispatcherError)
  | CtStorageKeyTooLarge (size max : N)
  | CtStorageValueTooLarge (size max : N)
  | CtCryptoMsgTooLarge (size max : N)
  | CtCryptoMalformedPublicKey
  | CtCodeDeclaresMultipleSubVersions
  | CtCryptoMalformedPrivateKey
  | CtCryptoMalformedKey
  | CtCryptoMalformedNonce
  | CtCryptoKeyDerivationFunctionFailure
  | CtModuleUsesFloatingPoint
  | CtCodeDeclaresTooManyFunctions
  | CtCodeDeclaresTooManyLocals
  | CtCodeDeclaresTooDeepNesting
  | CtCore (source : CoreError)
  | CtContract (source : ContractError).
#[export] Instance contracts_sdk_error : SdkError ContractsError := {
  module_name e := match e with
                   | CtCore source => module_name source
                   | CtContract source => module_name source
                   | _ => CONTRACTS_MODULE_NAME
                   end;
  code e := match e with
            | CtInvalidArgument => 1
            | CtCodeTooLarge _ _ => 2
            | CtCodeMalformed => 3
            | CtUnsupportedABI => 4
            | CtCodeMissingRequiredExport _ => 5
            | CtCodeDeclaresReservedExport _ => 6
            | CtCodeDeclaresStartFunction => 7
            | CtCodeDeclaresTooManyMemories => 8
            | CtCodeNotFound _ => 9
            | CtInstanceNotFound _ => 10
            | CtModuleLoadingFailed => 11
            | CtExecutionFailed _ => 12
            | CtForbidden => 13
            | CtUnsupported => 14
            | CtInsufficientCallerBalance => 15
            | CtResultTooLarge _ _ => 17
            | CtTooManySubcalls _ _ => 18
            | CtCodeAlreadyUpgraded _ => 19
            | CtAbort _ => 20
            | CtStorageKeyTooLarge _ _ => 21
            | CtStorageValueTooLarge _ _ => 22
            | CtCryptoMsgTooLarge _ _ => 23
            | CtCryptoMalformedPublicKey => 24
            | CtCodeDeclaresMultipleSubVersions => 25
            | CtCryptoMalformedPrivateKey => 26
            | CtCryptoMalformedKey => 27
            | CtCryptoMalformedNonce => 28
            | CtCryptoKeyDerivationFunctionFailure => 29
            | CtModuleUsesFloatingPoint => 30
            | CtCodeDeclaresTooManyFunctions => 31
            | CtCodeDeclaresTooManyLocals => 32
            | CtCodeDeclaresTooDeepNesting => 33
            | CtCore source => code source
            | CtContract source => code source
            end%N;
  to_string e := match e with
                 | CtInvalidArgument => "invalid argument"
                 | CtCodeTooLarge size max => "code too large (size: " +:+ pretty size +:+ " max: " +:+ pretty max +:+ ")"
                 | CtCodeMalformed => "code is malformed"
                 | CtUnsupportedABI => "specified ABI is not supported"
                 | CtCodeMissingRequiredExport x => "code is missing required ABI export: " +:+ x
                 | CtCodeDeclaresReservedExport x => "code declares reserved ABI export: " +:+ x
                 | CtCodeDeclaresStartFunction => "code declares start function"
                 | CtCodeDeclaresTooManyMemories => "code declares too many memories"
                 | CtCodeNotFound x => "code " +:+ pretty x +:+ " not found"
                 | CtInstanceNotFound x => "instance " +:+ pretty x +:+ " not found"
                 | CtModuleLoadingFailed => "module loading failed"
                 | CtExecutionFailed x => "execution failed: " +:+ x
                 | CtForbidden => "forbidden by policy"
                 | CtUnsupported => "function not supported"
                 | CtInsufficientCallerBalance => "insufficient balance in caller account"
                 | CtResultTooLarge size max => "result size exceeded (size: " +:+ pretty size +:+ " max: " +:+ pretty max +:+ ")"
                 | CtTooManySubcalls size max => "too many subcalls (count: " +:+ pretty size +:+ " max: " +:+ pretty max +:+ ")"
                 | CtCodeAlreadyUpgraded x => "instance is already using code " +:+ pretty x
                 | CtAbort x => "abort: " +:+ to_string x
                 | CtStorageKeyTooLarge size max => "storage: key too large (size: " +:+ pretty size +:+ " max: " +:+ pretty max +:+ ")"
                 | CtStorageValueTooLarge size max => "storage: value too large (size: " +:+ pretty size +:+ " max: " +:+ pretty max +:+ ")"
                 | CtCryptoMsgTooLarge size max => "crypto: msg too large (size: " +:+ pretty size +:+ " max: " +:+ pretty max +:+ ")"
                 | CtCryptoMalformedPublicKey => "crypto: malformed public key"
                 | CtCodeDeclaresMultipleSubVersions => "code declares multiple sub-versions"
                 | CtCryptoMalformedPrivateKey => "crypto: malformed private key"
                 | CtCryptoMalformedKey => "crypto: malformed encryption key"
                 | CtCryptoMalformedNonce => "crypto: malformed nonce"
                 | CtCryptoKeyDerivationFunctionFailure => "crypto: key derivation function failure"
                 | CtModuleUsesFloatingPoint => "module uses floating point data or operations"
                 | CtCodeDeclaresTooManyFunctions => "code declares too many functions"
                 | CtCodeDeclaresTooManyLocals => "code declares too many locals"
                 | CtCodeDeclaresTooDeepNesting => "code declares too deep nesting"
                 | CtCore x => "core: " +:+ to_string x
                 | CtContract x => "contract error: " +:+ to_string x
                 end;
  into_abort e := match e with
                  | CtAbort source => Some source
                  | CtCore source => into_abort source
                  | CtContract source => into_abort source
                  | _ => None
                  end;
}.

(** * Parameters *)

Record ContractsGasCosts := {
  gc_tx_upload : N;
  gc_tx_upload_per_byte : N;
  gc_tx_instantiate : N;
  gc_tx_call : N;
  gc_tx_upgrade : N;
  gc_tx_change_upgrade_policy : N;
  gc_subcall_dispatch : N;
  gc_wasm_public_storage_get_base : N;
  gc_wasm_public_storage_insert_base : N;
  gc_wasm_public_storage_remove_base : N;
  gc_wasm_public_storage_key_byte : N;
  gc_wasm_public_storage_value_byte : N;
  gc_wasm_confidential_storage_get_base : N;
  gc_wasm_confidential_storage_insert_base : N;
  gc_wasm_confidential_storage_remove_base : N;
  gc_wasm_confidential_storage_key_byte : N;
  gc_wasm_confidential_storage_value_byte : N;
  gc_wasm_env_query_base : N;
  gc_wasm_crypto_ecdsa_recover : N;
  gc_wasm_crypto_signature_verify_ed25519 : N;
  gc_wasm_crypto_signature_verify_secp256k1 : N;
  gc_wasm_crypto_signature_verify_sr25519 : N;
  gc_wasm_crypto_x25519_derive_symmetric : N;
  gc_wasm_crypto_deoxysii_base : N;
  gc_wasm_crypto_deoxysii_byte : N;
  gc_wasm_crypto_random_bytes_base : N;
  gc_wasm_crypto_random_bytes_byte : N;
}.
Definition contracts_gas_costs_default : ContractsGasCosts := {|
  gc_tx_upload := 30000000;
  gc_tx_upload_per_byte := 400;
  gc_tx_instantiate := 100000;
  gc_tx_call := 50000;
  gc_tx_upgrade := 50000;
  gc_tx_change_upgrade_policy := 30000;
  gc_subcall_dispatch := 1000;
  gc_wasm_public_storage_get_base := 5000;
  gc_wasm_public_storage_insert_base := 8400;
  gc_wasm_public_storage_remove_base := 6400;
  gc_wasm_public_storage_key_byte := 3000;
  gc_wasm_public_storage_value_byte := 300;
  gc_wasm_confidential_storage_get_base := 10000;
  gc_wasm_confidential_storage_insert_base := 16800;
  gc_wasm_confidential_storage_remove_base := 12800;
  gc_wasm_confidential_storage_key_byte := 3500;
  gc_wasm_confidential_storage_value_byte := 400;
  gc_wasm_env_query_base := 100;
  gc_wasm_crypto_ecdsa_recover := 500000;
  gc_wasm_crypto_signature_verify_ed25519 := 500000;
  gc_wasm_crypto_signature_verify_secp256k1 := 500000;
  gc_wasm_crypto_signature_verify_sr25519 := 500000;
  gc_wasm_crypto_x25519_derive_symmetric := 250000;
  gc_wasm_crypto_deoxysii_base := 1000;
  gc_wasm_crypto_deoxysii_byte := 3;
  gc_wasm_crypto_random_bytes_base := 1000;
  gc_wasm_crypto_random_bytes_byte := 3;
|}.
Record ContractsParameters := {
  max_code_size : N;
  max_stack_size : N;
  max_memory_pages : N;
  max_wasm_functions : N;
  max_wasm_locals : N;
  max_subcall_depth : N;
  max_subcall_count : N;
  max_result_size_bytes : N;
  max_query_size_bytes : N;
  max_storage_key_size_bytes : N;
  max_storage_value_size_bytes : N;
  max_crypto_signature_verify_message_size_bytes : N;
  contracts_gas_costs : ContractsGasCosts;
}.
Definition contracts_parameters_default : ContractsParameters := {|
  max_code_size := 1024 * 1024;
  max_stack_size := 60 * 1024;
  max_memory_pages := 160;
  max_wasm_functions := 10000;
  max_wasm_locals := 256000;
  max_subcall_depth := 8;
  max_subcall_count := 16;
  max_result_size_bytes := 1024;
  max_query_size_bytes := 1024;
  max_storage_key_size_bytes := 64;
  max_storage_value_size_bytes := 16 * 1024;
  max_crypto_signature_verify_message_size_bytes := 16 * 1024;
  contracts_gas_costs := contracts_gas_costs_default;
|}.
(** The local configuration of a node. *)
Record ContractsLocalConfig := { query_custom_max_gas : N; max_instance_raw_storage_query_items : N }.
Definition contracts_local_config_default : ContractsLocalConfig :=
  {| query_custom_max_gas := 10000000; max_instance_raw_storage_query_items := 100 |}.

(** * Policies, code and instances *)

Inductive ContractPolicy := Nobody | OnlyAddress (address : Address) | Everyone.
Definition enforce (p : ContractPolicy) (caller : Address) : ContractsError + unit :=
  match p with
  | Nobody => inl CtForbidden
  | OnlyAddress address => if bool_decide (address = caller) then inr tt else inl CtForbidden
  | Everyone => inr tt
  end.

(** Whom a policy permits what it guards. *)
Definition permits (p : ContractPolicy) (caller : Address) : Prop :=
  match p with Nobody => False | OnlyAddress address => caller = address | Everyone => True end.
Lemma enforce_permits p caller : enforce p caller = inr tt ↔ permits p caller.
Proof. destruct p as [|address|]; simpl; [done| |done]. case_bool_decide; naive_solver. Qed.

Inductive ABI := OasisV1.
Record Code := {
  code_id : N;
  code_hash : Hash;
  code_abi : ABI;
  code_abi_sv : N;
  code_uploader : Address;
  code_instantiate_policy : ContractPolicy;
}.
Record ContractInstance := {
  inst_id : N;
  inst_code_id : N;
  inst_creator : Address;
  inst_upgrades_policy : ContractPolicy;
}.
(** [Address::from_module_raw]. *)
Definition from_module_raw `{Crypto} (module : string) (kind : bytes) : Address :=
  address_new ADDRESS_V0_MODULE_CONTEXT ADDRESS_V0_VERSION (str module ++ str "." ++ kind)%list.
Definition address_for `{Crypto} (id : N) : Address := from_module_raw CONTRACTS_MODULE_NAME (be_bytes64 id).
Definition inst_address `{Crypto} (i : ContractInstance) : Address := address_for (inst_id i).

(** * Requests *)

Record Upload := { up_abi : ABI; up_instantiate_policy : ContractPolicy; up_code : bytes }.
Record Instantiate := { ins_code_id : N; ins_upgrades_policy : ContractPolicy; ins_data : bytes; ins_tokens : list BaseUnits }.
Record ContractCall := { cc_id : N; cc_data : bytes; cc_tokens : list BaseUnits }.
Record Upgrade := { ug_id : N; ug_code_id : N; ug_data : bytes; ug_tokens : list BaseUnits }.
Record ChangeUpgradePolicy := { cup_id : N; cup_upgrades_policy : ContractPolicy }.
Record UploadResult := { upr_id : N }.
Record InstantiateResult := { inr_id : N }.
(** [CallResult] of the module. *)
Record ContractCallResult := { ccr_data : bytes }.

(** * Queries *)

Inductive StoreKind := PublicStore | ConfidentialKind.
Record ContractCodeQuery := { ctq_code_id : N }.
Record CodeStorageQuery := { ctq_storage_code_id : N }.
Record CodeStorageQueryResult := { csr_code : bytes }.
Record InstanceQuery := { ctq_instance_id : N }.
Record InstanceStorageQuery := { isq_id : N; isq_key : bytes }.
Record InstanceStorageQueryResult := { isr_value : option bytes }.
Record InstanceRawStorageQuery := { irq_id : N; irq_store_kind : StoreKind; irq_limit : option N; irq_offset : option N }.
Record InstanceRawStorageQueryResult := { irr_items : list (bytes * bytes) }.
Inductive PublicKeyKind := KeyTransaction.
Record PublicKeyQuery := { pkq_id : N; pkq_kind : PublicKeyKind }.
Record PublicKeyQueryResult := { pkr_key : bytes; pkr_checksum : bytes; pkr_signature : bytes }.
Record CustomQuery := { cuq_id : N; cuq_data : bytes }.
Record CustomQueryResult := { cur_data : bytes }.

(** * What contracts exchange with the module *)

Section messages.
Context `{Crypto}.

Inductive NotifyReply := Never | OnError | OnSuccess | Always.
(** A message of a kind that is not known here is [UnknownMessage]; the types are open. *)
Inductive ContractMessage :=
  | MessageCall (id : N) (reply : NotifyReply) (method : string) (body : Value) (max_gas : option N) (data : option Value)
  | UnknownMessage.
(** The result of a call, as a contract sees it. *)
Inductive ReplyResult := ReplyOk (value : Value) | ReplyFailed (module : string) (code : N).
Definition reply_result (r : CallResult) : ReplyResult :=
  match r with
  | CallOk value => ReplyOk value
  | CallFailed module code _ => ReplyFailed module code
  | CallAborted err => ReplyFailed (module_name err) (code err)
  end.
Inductive ContractReply := ReplyCall (id : N) (result : ReplyResult) (data : option Value).
Record ContractsEvent := { ev_module : string; ev_code : N; ev_data : bytes }.
Record ExecutionOk := { ok_data : bytes; ok_messages : list ContractMessage; ok_events : list ContractsEvent }.
(** [contract_sdk::ExecutionResult], what a contract returns. *)
Inductive ContractResult :=
  | ContractOk (ok : ExecutionOk)
  | ContractFailed (module : string) (code : N) (message : string).
(** [contract_sdk::ExecutionContext], what a contract is told. *)
Record CallContext := {
  cx_instance_id : N;
  cx_instance_address : Address;
  cx_caller_address : Address;
  cx_deposited_tokens : list BaseUnits;
  cx_read_only : bool;
  cx_call_format : CallFormat;
}.
(** [abi::ExecutionResult]. *)
Record ExecutionResult := { er_inner : ContractsError + ExecutionOk; er_gas_used : N }.

Definition store_kind_prefix (k : StoreKind) : bytes := match k with PublicStore => [x00] | ConfidentialKind => [x01] end.
Definition store_kind_try_from (n : N) : option StoreKind :=
  match n with 0 => Some PublicStore | 1 => Some ConfidentialKind | _ => None end%N.

Inductive AccountsQuery := BalanceQuery (address : Address) (denomination : Denomination) | UnknownAccountsQuery.
Inductive QueryRequest := BlockInfoQuery | AccountsQueryRequest (q : AccountsQuery) | UnknownQuery.
Inductive QueryResponse :=
  | QueryError (module : string) (code : N) (message : string)
  | BlockInfoResponse (round epoch timestamp : N)
  | BalanceResponse (balance : N).
End messages.
