(* ===== verification/ValidModules.v ===== *)
(** What validation accepts, and that all of it can be metered. *)
From Stdlib Require Import Ascii String.
From S2P Require Import Prelude Types Errors Metering Metered MeterRegions ContractTypes.

(** Validation of contract code against the Oasis ABI
    (src/runtime-sdk/modules/contracts/src/abi/oasis/{validation,mod}.rs and wasm.rs).

    Loading a module and writing it are done by the walrus library and are parameters. *)

Import IR.
Local Open Scope string_scope.

Definition EXPORT_ALLOCATE : string := "allocate".
Definition EXPORT_DEALLOCATE : string := "deallocate".
Definition EXPORT_INSTANTIATE : string := "instantiate".
Definition EXPORT_CALL : string := "call".
Definition EXPORT_HANDLE_REPLY : string := "handle_reply".
Definition EXPORT_PRE_UPGRADE : string := "pre_upgrade".
Definition EXPORT_POST_UPGRADE : string := "post_upgrade".
Definition EXPORT_QUERY : string := "query".
Definition REQUIRED_EXPORTS : list string := [EXPORT_ALLOCATE; EXPORT_DEALLOCATE; EXPORT_INSTANTIATE; EXPORT_CALL].
Definition RESERVED_EXPORTS : list string := [EXPORT_GAS_LIMIT; EXPORT_GAS_LIMIT_EXHAUSTED].
Definition EXPORT_SUB_VERSION_PREFIX : string := "__oasis_sv_".
Definition MAX_CONTROL_FLOW_NESTING_DEPTH : nat := 1000.

(** * Checks of functions *)

Definition check_valtype_acceptable (ty : ValType) : ContractsError + unit :=
  match ty with
  | F32 | F64 => inl CtModuleUsesFloatingPoint
  | _ => inr tt
  end.

(** The first error of a sequence of checks. *)
Fixpoint check_all {A} (check : A → ContractsError + unit) (l : list A) : ContractsError + unit :=
  match l with
  | [] => inr tt
  | x :: l => match check x with inl e => inl e | inr _ => check_all check l end
  end.

(** [levels] is what is left of the maximum depth; the depth is exceeded when nothing is. *)
Fixpoint dfs (func : LocalFunction) (levels : nat) (block_id : nat) : ContractsError + unit :=
  match levels with
  | 0 => inl CtCodeDeclaresTooDeepNesting
  | S levels => check_all (λ instr, check_all (dfs func levels) (nested instr)) (block func block_id)
  end.
Definition check_nesting_depth (func : LocalFunction) : ContractsError + unit :=
  dfs func (S MAX_CONTROL_FLOW_NESTING_DEPTH) (entry_block func).

(** Whether an operator has to do with floats. *)
Definition visit_binop (op : BinaryOp) : bool :=
  match op with
  | F32Eq | F32Ne | F32Lt | F32Gt | F32Le | F32Ge | F64Eq | F64Ne | F64Lt | F64Gt | F64Le | F64Ge
  | F32Add | F32Sub | F32Mul | F32Div | F32Min | F32Max | F32Copysign | F64Add | F64Sub | F64Mul
  | F64Div | F64Min | F64Max | F64Copysign | F32x4ReplaceLane _ | F64x2ReplaceLane _ | F32x4Eq
  | F32x4Ne | F32x4Lt | F32x4Gt | F32x4Le | F32x4Ge | F64x2Eq | F64x2Ne | F64x2Lt | F64x2Gt
  | F64x2Le | F64x2Ge | F32x4Add | F32x4Sub | F32x4Mul | F32x4Div | F32x4Min | F32x4Max | F32x4PMin
  | F32x4PMax | F64x2Add | F64x2Sub | F64x2Mul | F64x2Div | F64x2Min | F64x2Max | F64x2PMin
  | F64x2PMax => true
  | _ => false
  end.

Definition visit_unop (op : UnaryOp) : bool :=
  match op with
  | F32Abs | F32Neg | F32Ceil | F32Floor | F32Trunc | F32Nearest | F32Sqrt | F64Abs | F64Neg
  | F64Ceil | F64Floor | F64Trunc | F64Nearest | F64Sqrt | I32TruncSF32 | I32TruncUF32
  | I32TruncSF64 | I32TruncUF64 | I64TruncSF32 | I64TruncUF32 | I64TruncSF64 | I64TruncUF64
  | F32ConvertSI32 | F32ConvertUI32 | F32ConvertSI64 | F32ConvertUI64 | F32DemoteF64
  | F64ConvertSI32 | F64ConvertUI32 | F64ConvertSI64 | F64ConvertUI64 | F64PromoteF32
  | I32ReinterpretF32 | I64ReinterpretF64 | F32ReinterpretI32 | F64ReinterpretI64 | F32x4Splat
  | F32x4ExtractLane _ | F64x2Splat | F64x2ExtractLane _ | F32x4Abs | F32x4Neg | F32x4Sqrt
  | F32x4Ceil | F32x4Floor | F32x4Trunc | F32x4Nearest | F64x2Abs | F64x2Neg | F64x2Sqrt
  | F64x2Ceil | F64x2Floor | F64x2Trunc | F64x2Nearest | I32x4TruncSatF64x2SZero
  | I32x4TruncSatF64x2UZero | F64x2ConvertLowI32x4S | F64x2ConvertLowI32x4U | F32x4DemoteF64x2Zero
  | F64x2PromoteLowF32x4 | I32x4TruncSatF32x4S | I32x4TruncSatF32x4U | F32x4ConvertI32x4S
  | F32x4ConvertI32x4U | I32TruncSSatF32 | I32TruncUSatF32 | I32TruncSSatF64 | I32TruncUSatF64
  | I64TruncSSatF32 | I64TruncUSatF32 | I64TruncSSatF64 | I64TruncUSatF64 => true
  | _ => false
  end.

Definition visit_const (value : Literal) : bool :=
  match value with ConstF32 _ | ConstF64 _ => true | _ => false end.
Definition visit_access (kind : AccessKind) : bool :=
  match kind with AccessF32 | AccessF64 => true | AccessOther => false end.
Definition visit_instr (instr : Instr) : bool :=
  match instr with
  | Const value => visit_const value
  | Binop op => visit_binop op
  | Unop op => visit_unop op
  | Load kind | Store kind => visit_access kind
  | _ => false
  end.
(** The scan of all instructions of a function that is not nested too deeply. *)
Definition scan_floats (func : LocalFunction) : bool :=
  existsb (λ id, existsb visit_instr (block func id)) (sequences func MAX_CONTROL_FLOW_NESTING_DEPTH (entry_block func)).

Fixpoint check_functions (max count : N) (funcs : list Function) : ContractsError + unit :=
  match funcs with
  | [] => inr tt
  | func :: funcs =>
      match check_all check_valtype_acceptable (fun_params func ++ fun_results func) with
      | inl e => inl e
      | inr _ =>
          match kind func with
          | Local local =>
              let count := (count + 1)%N in
              if (max <? count)%N then inl CtCodeDeclaresTooManyFunctions
              else match check_nesting_depth local with
                   | inl e => inl e
                   | inr _ => if scan_floats local then inl CtModuleUsesFloatingPoint else check_functions max count funcs
                   end
          | _ => check_functions max count funcs
          end
      end
  end.
Fixpoint check_locals (max count : N) (locals : list ValType) : ContractsError + unit :=
  match locals with
  | [] => inr tt
  | local :: locals =>
      let count := (count + 1)%N in
      if (max <? count)%N then inl CtCodeDeclaresTooManyLocals
      else match check_valtype_acceptable local with inl e => inl e | inr _ => check_locals max count locals end
  end.

(** * The module *)

(** [str::parse::<u32>]: digits, perhaps after a sign, of a number of 32 bits. *)
Definition parse_digit (a : Ascii.ascii) : option N :=
  let n := Ascii.N_of_ascii a in if ((48 <=? n) && (n <=? 57))%N then Some (n - 48)%N else None.
Fixpoint parse_digits (acc : N) (s : string) : option N :=
  match s with
  | "" => Some acc
  | String a s =>
      d ← parse_digit a; acc ← checked_mul u32_max acc 10; acc ← checked_add u32_max acc d; parse_digits acc s
  end.
Definition parse_u32 (s : string) : option N :=
  match s with
  | "" | "+" => None
  | String "+"%char s => parse_digits 0 s
  | s => parse_digits 0 s
  end.
Definition strip_prefix (p s : string) : option string :=
  if String.prefix p s then Some (String.substring (String.length p) (String.length s - String.length p) s) else None.

Definition abi_sub_version (exports : list string) : ContractsError + N :=
  match filter (λ e, String.prefix EXPORT_SUB_VERSION_PREFIX e = true) exports with
  | [] => inr 0%N
  | [sv] =>
      match strip_prefix EXPORT_SUB_VERSION_PREFIX sv with
      | None => inl CtCodeMalformed
      | Some s => match parse_u32 s with Some n => inr n | None => inl CtCodeMalformed end
      end
  | _ => inl CtCodeDeclaresMultipleSubVersions
  end.
(** The set of the names of the exports. *)
Definition export_names (m : Module_) : list string := remove_dups (export_name <$> exports m).

(** Additional information related to the ABI instance is the sub-version. *)
Definition validate_module (m : Module_) (params : ContractsParameters) : ContractsError + N :=
  let exports := export_names m in
  match check_all (λ r, if bool_decide (r ∈ exports) then inr tt else inl (CtCodeMissingRequiredExport r)) REQUIRED_EXPORTS with
  | inl e => inl e
  | inr _ =>
  match check_all (λ r, if bool_decide (r ∈ exports) then inl (CtCodeDeclaresReservedExport r) else inr tt) RESERVED_EXPORTS with
  | inl e => inl e
  | inr _ =>
  match abi_sub_version exports with
  | inl e => inl e
  | inr abi_sv =>
      if bool_decide (start m ≠ None) then inl CtCodeDeclaresStartFunction
      else if (1 <? memories m)%N then inl CtCodeDeclaresTooManyMemories
      else
        match check_functions (max_wasm_functions params) 0 (functions m) with
        | inl e => inl e
        | inr _ =>
        match check_all check_valtype_acceptable (tables m) with
        | inl e => inl e
        | inr _ =>
        match check_all check_valtype_acceptable (elements m) with
        | inl e => inl e
        | inr _ =>
        match check_all (λ g, check_valtype_acceptable (global_ty g)) (globals m) with
        | inl e => inl e
        | inr _ =>
        match check_locals (max_wasm_locals params) 0 (locals m) with
        | inl e => inl e
        | inr _ => inr abi_sv
        end end end end end
  end end end.

(** [Abi::validate]: validates the module and adds gas metering. *)
Definition abi_validate (m : Module_) (params : ContractsParameters) : ContractsError + option Module_ * N :=
  match validate_module m params with
  | inl e => inl e
  | inr info => inr (transform m, info)
  end.

(** The walrus library. *)
Class Walrus := {
  parse_module : bytes → option Module_;
  emit_wasm : Module_ → bytes;
}.
(** [wasm::validate_and_transform]; instrumentation that does not terminate is [None]. *)
Definition validate_and_transform `{Walrus} (code : bytes) (abi : ABI) (params : ContractsParameters)
    : ContractsError + option bytes * N :=
  match parse_module code with
  | None => inl CtCodeMalformed
  | Some m =>
      match abi with
      | OasisV1 => match abi_validate m params with inl e => inl e | inr (m, info) => inr (emit_wasm <$> m, info) end
      end
  end.

Import IR.

Local Close Scope string_scope.

(** * Validation accepts exactly the valid modules *)

Lemma check_all_ok {A} (check : A → ContractsError + unit) l : check_all check l = inr tt ↔ Forall (λ x, check x = inr tt) l.
Proof.
  induction l as [|x l IH]; simpl; [by split; [constructor|]|]. rewrite Forall_cons, <-IH.
  destruct (check x) as [e|[]]; naive_solver.
Qed.
(** A sequence of checks that is not passed has an error. *)
Lemma check_all_cases {A} (check : A → ContractsError + unit) l : check_all check l = inr tt ∨ ∃ e, check_all check l = inl e.
Proof. destruct (check_all check l) as [e|[]]; eauto. Qed.

Definition no_float (ty : ValType) : Prop := ty ≠ F32 ∧ ty ≠ F64.
Lemma valtype_ok ty : check_valtype_acceptable ty = inr tt ↔ no_float ty.
Proof. unfold no_float. destruct ty; simpl; naive_solver. Qed.
Lemma valtypes_ok l : check_all check_valtype_acceptable l = inr tt ↔ Forall no_float l.
Proof. rewrite check_all_ok. apply Forall_iff. intros. apply valtype_ok. Qed.

Lemma dfs_ok func d : ∀ id, dfs func (S d) id = inr tt ↔ shallow func d id.
Proof.
  induction d as [|d IH]; intros id.
  - rewrite shallow_0. simpl. rewrite check_all_ok. apply Forall_iff. intros x. rewrite check_all_ok.
    destruct (nested x); simpl; [done|]. split; [|done]. by intros [? _]%Forall_cons.
  - rewrite shallow_S. change (dfs func (S (S d)) id) with (check_all (λ x, check_all (dfs func (S d)) (nested x)) (block func id)).
    rewrite check_all_ok. apply Forall_iff. intros x. rewrite check_all_ok. apply Forall_iff, IH.
Qed.

(** What the operators of WebAssembly work on: the types of their operands and of their result, and for vectors how these are
    divided into lanes. *)
Inductive Shape : Type :=
  | Num (ty : ValType) | LanesI8x16 | LanesI16x8 | LanesI32x4 | LanesI64x2 | LanesF32x4 | LanesF64x2.
Definition binop_shapes (op : BinaryOp) : list Shape :=
  match op with
  | F32Eq | F32Ne | F32Lt | F32Gt | F32Le | F32Ge
      => [Num F32; Num I32]
  | F64Eq | F64Ne | F64Lt | F64Gt | F64Le | F64Ge
      => [Num F64; Num I32]
  | F32Add | F32Sub | F32Mul | F32Div | F32Min | F32Max | F32Copysign
      => [Num F32]
  | F64Add | F64Sub | F64Mul | F64Div | F64Min | F64Max | F64Copysign
      => [Num F64]
  | F32x4ReplaceLane _
      => [Num F32; LanesF32x4]
  | F64x2ReplaceLane _
      => [Num F64; LanesF64x2]
  | F32x4Eq | F32x4Ne | F32x4Lt | F32x4Gt | F32x4Le | F32x4Ge | F32x4Add | F32x4Sub | F32x4Mul | F32x4Div | F32x4Min
  | F32x4Max | F32x4PMin | F32x4PMax
      => [LanesF32x4]
  | F64x2Eq | F64x2Ne | F64x2Lt | F64x2Gt | F64x2Le | F64x2Ge | F64x2Add | F64x2Sub | F64x2Mul | F64x2Div | F64x2Min
  | F64x2Max | F64x2PMin | F64x2PMax
      => [LanesF64x2]
  | I32Eq | I32Ne | I32LtS | I32LtU | I32GtS | I32GtU | I32LeS | I32LeU | I32GeS | I32GeU | I32Add | I32Sub | I32Mul
  | I32DivS | I32DivU | I32RemS | I32RemU | I32And | I32Or | I32Xor | I32Shl | I32ShrS | I32ShrU | I32Rotl | I32Rotr
      => [Num I32]
  | I64Eq | I64Ne | I64LtS | I64LtU | I64GtS | I64GtU | I64LeS | I64LeU | I64GeS | I64GeU
      => [Num I64; Num I32]
  | I64Add | I64Sub | I64Mul | I64DivS | I64DivU | I64RemS | I64RemU | I64And | I64Or | I64Xor | I64Shl | I64ShrS
  | I64ShrU | I64Rotl | I64Rotr
      => [Num I64]
  | I8x16ReplaceLane _
      => [Num I32; LanesI8x16]
  | I16x8ReplaceLane _
      => [Num I32; LanesI16x8]
  | I32x4ReplaceLane _
      => [Num I32; LanesI32x4]
  | I64x2ReplaceLane _
      => [Num I64; LanesI64x2]
  | I8x16Eq | I8x16Ne | I8x16LtS | I8x16LtU | I8x16GtS | I8x16GtU | I8x16LeS | I8x16LeU | I8x16GeS | I8x16GeU
  | I8x16Add | I8x16AddSatS | I8x16AddSatU | I8x16Sub | I8x16SubSatS | I8x16SubSatU | I8x16RoundingAverageU
  | I8x16MinS | I8x16MinU | I8x16MaxS | I8x16MaxU
      => [LanesI8x16]
  | I16x8Eq | I16x8Ne | I16x8LtS | I16x8LtU | I16x8GtS | I16x8GtU | I16x8LeS | I16x8LeU | I16x8GeS | I16x8GeU
  | I16x8Add | I16x8AddSatS | I16x8AddSatU | I16x8Sub | I16x8SubSatS | I16x8SubSatU | I16x8Mul | I16x8RoundingAverageU
  | I16x8MinS | I16x8MinU | I16x8MaxS | I16x8MaxU | I16x8Q15MulrSatS
      => [LanesI16x8]
  | I32x4Eq | I32x4Ne | I32x4LtS | I32x4LtU | I32x4GtS | I32x4GtU | I32x4LeS | I32x4LeU | I32x4GeS | I32x4GeU
  | I32x4Add | I32x4Sub | I32x4Mul | I32x4MinS | I32x4MinU | I32x4MaxS | I32x4MaxU
      => [LanesI32x4]
  | I64x2Eq | I64x2Ne | I64x2LtS | I64x2GtS | I64x2LeS | I64x2GeS | I64x2Add | I64x2Sub | I64x2Mul
      => [LanesI64x2]
  | V128And | V128Or | V128Xor | V128AndNot
      => [Num V128]
  | I8x16Shl | I8x16ShrS | I8x16ShrU
      => [LanesI8x16; Num I32]
  | I16x8Shl | I16x8ShrS | I16x8ShrU
      => [LanesI16x8; Num I32]
  | I32x4Shl | I32x4ShrS | I32x4ShrU
      => [LanesI32x4; Num I32]
  | I64x2Shl | I64x2ShrS | I64x2ShrU
      => [LanesI64x2; Num I32]
  | I8x16NarrowI16x8S | I8x16NarrowI16x8U
      => [LanesI16x8; LanesI8x16]
  | I16x8NarrowI32x4S | I16x8NarrowI32x4U
      => [LanesI32x4; LanesI16x8]
  | I32x4DotI16x8S | I32x4ExtMulLowI16x8S | I32x4ExtMulHighI16x8S | I32x4ExtMulLowI16x8U | I32x4ExtMulHighI16x8U
      => [LanesI16x8; LanesI32x4]
  | I16x8ExtMulLowI8x16S | I16x8ExtMulHighI8x16S | I16x8ExtMulLowI8x16U | I16x8ExtMulHighI8x16U
      => [LanesI8x16; LanesI16x8]
  | I64x2ExtMulLowI32x4S | I64x2ExtMulHighI32x4S | I64x2ExtMulLowI32x4U | I64x2ExtMulHighI32x4U
      => [LanesI32x4; LanesI64x2]
  end.
Definition unop_shapes (op : UnaryOp) : list Shape :=
  match op with
  | F32Abs | F32Neg | F32Ceil | F32Floor | F32Trunc | F32Nearest | F32Sqrt
      => [Num F32]
  | F64Abs | F64Neg | F64Ceil | F64Floor | F64Trunc | F64Nearest | F64Sqrt
      => [Num F64]
  | I32TruncSF32 | I32TruncUF32 | I32ReinterpretF32 | I32TruncSSatF32 | I32TruncUSatF32
      => [Num F32; Num I32]
  | I32TruncSF64 | I32TruncUF64 | I32TruncSSatF64 | I32TruncUSatF64
      => [Num F64; Num I32]
  | I64TruncSF32 | I64TruncUF32 | I64TruncSSatF32 | I64TruncUSatF32
      => [Num F32; Num I64]
  | I64TruncSF64 | I64TruncUF64 | I64ReinterpretF64 | I64TruncSSatF64 | I64TruncUSatF64
      => [Num F64; Num I64]
  | F32ConvertSI32 | F32ConvertUI32 | F32ReinterpretI32
      => [Num I32; Num F32]
  | F32ConvertSI64 | F32ConvertUI64
      => [Num I64; Num F32]
  | F32DemoteF64
      => [Num F64; Num F32]
  | F64ConvertSI32 | F64ConvertUI32
      => [Num I32; Num F64]
  | F64ConvertSI64 | F64ConvertUI64 | F64ReinterpretI64
      => [Num I64; Num F64]
  | F64PromoteF32
      => [Num F32; Num F64]
  | F32x4Splat | F32x4ExtractLane _
      => [Num F32; LanesF32x4]
  | F64x2Splat | F64x2ExtractLane _
      => [Num F64; LanesF64x2]
  | F32x4Abs | F32x4Neg | F32x4Sqrt | F32x4Ceil | F32x4Floor | F32x4Trunc | F32x4Nearest
      => [LanesF32x4]
  | F64x2Abs | F64x2Neg | F64x2Sqrt | F64x2Ceil | F64x2Floor | F64x2Trunc | F64x2Nearest
      => [LanesF64x2]
  | I32x4TruncSatF64x2SZero | I32x4TruncSatF64x2UZero
      => [LanesF64x2; LanesI32x4]
  | F64x2ConvertLowI32x4S | F64x2ConvertLowI32x4U
      => [LanesI32x4; LanesF64x2]
  | F32x4DemoteF64x2Zero
      => [LanesF64x2; LanesF32x4]
  | F64x2PromoteLowF32x4
      => [LanesF32x4; LanesF64x2]
  | I32x4TruncSatF32x4S | I32x4TruncSatF32x4U
      => [LanesF32x4; LanesI32x4]
  | F32x4ConvertI32x4S | F32x4ConvertI32x4U
      => [LanesI32x4; LanesF32x4]
  | I32Eqz | I32Clz | I32Ctz | I32Popcnt | I32Extend8S | I32Extend16S
      => [Num I32]
  | I64Eqz | I32WrapI64
      => [Num I64; Num I32]
  | I64Clz | I64Ctz | I64Popcnt | I64Extend8S | I64Extend16S | I64Extend32S
      => [Num I64]
  | I64ExtendSI32 | I64ExtendUI32
      => [Num I32; Num I64]
  | I8x16Splat | I8x16ExtractLaneS _ | I8x16ExtractLaneU _
      => [Num I32; LanesI8x16]
  | I16x8Splat | I16x8ExtractLaneS _ | I16x8ExtractLaneU _
      => [Num I32; LanesI16x8]
  | I32x4Splat | I32x4ExtractLane _
      => [Num I32; LanesI32x4]
  | I64x2Splat | I64x2ExtractLane _
      => [Num I64; LanesI64x2]
  | V128Not
      => [Num V128]
  | V128AnyTrue
      => [Num V128; Num I32]
  | I8x16Abs | I8x16Popcnt | I8x16Neg
      => [LanesI8x16]
  | I8x16AllTrue | I8x16Bitmask
      => [LanesI8x16; Num I32]
  | I16x8Abs | I16x8Neg
      => [LanesI16x8]
  | I16x8AllTrue | I16x8Bitmask
      => [LanesI16x8; Num I32]
  | I32x4Abs | I32x4Neg
      => [LanesI32x4]
  | I32x4AllTrue | I32x4Bitmask
      => [LanesI32x4; Num I32]
  | I64x2Abs | I64x2Neg
      => [LanesI64x2]
  | I64x2AllTrue | I64x2Bitmask
      => [LanesI64x2; Num I32]
  | I16x8ExtAddPairwiseI8x16S | I16x8ExtAddPairwiseI8x16U | I16x8WidenLowI8x16S | I16x8WidenLowI8x16U
  | I16x8WidenHighI8x16S | I16x8WidenHighI8x16U
      => [LanesI8x16; LanesI16x8]
  | I32x4ExtAddPairwiseI16x8S | I32x4ExtAddPairwiseI16x8U | I32x4WidenLowI16x8S | I32x4WidenLowI16x8U
  | I32x4WidenHighI16x8S | I32x4WidenHighI16x8U
      => [LanesI16x8; LanesI32x4]
  | I64x2ExtendLowI32x4S | I64x2ExtendHighI32x4S | I64x2ExtendLowI32x4U | I64x2ExtendHighI32x4U
      => [LanesI32x4; LanesI64x2]
  end.
(** The type of a literal and of what is loaded or stored, where it is a number. *)
Definition literal_shape (value : Literal) : Shape :=
  Num match value with ConstI32 _ => I32 | ConstI64 _ => I64 | ConstF32 _ => F32 | ConstF64 _ => F64 | ConstV128 _ => V128 end.
Definition access_shapes (kind : AccessKind) : list Shape :=
  match kind with AccessF32 => [Num F32] | AccessF64 => [Num F64] | AccessOther => [] end.
Definition shapes (instr : Instr) : list Shape :=
  match instr with
  | Const value => [literal_shape value]
  | Binop op => binop_shapes op
  | Unop op => unop_shapes op
  | Load kind | Store kind => access_shapes kind
  | _ => []
  end.
Definition float_shape (sh : Shape) : Prop := sh = Num F32 ∨ sh = Num F64 ∨ sh = LanesF32x4 ∨ sh = LanesF64x2.
#[global] Instance float_shape_dec sh : Decision (float_shape sh).
Proof. unfold float_shape. destruct sh as [[]| | | | | |]; first [by left; eauto|by right; naive_solver]. Defined.
Definition uses_float (instr : Instr) : Prop := Exists float_shape (shapes instr).
Lemma visit_instr_ok instr : visit_instr instr = false ↔ ¬ uses_float instr.
Proof.
  unfold uses_float. assert (visit_instr instr = bool_decide (Exists float_shape (shapes instr))) as ->; [|apply bool_decide_eq_false].
  destruct instr as [| | | | | | | | | |[]|[]|[]| | | | | |[]|[]|]; vm_compute; reflexivity.
Qed.

(** The sequences of instructions that are part of a function. *)
Inductive part_of (func : LocalFunction) : InstrSeqId → Prop :=
  | part_entry : part_of func (entry_block func)
  | part_nested id instr c : part_of func id → instr ∈ block func id → c ∈ nested instr → part_of func c.
(** No instruction of a function has to do with floats. *)
Definition float_free (func : LocalFunction) : Prop :=
  ∀ id instr, part_of func id → instr ∈ block func id → ¬ uses_float instr.

Lemma sequences_self func d id : id ∈ sequences func d id.
Proof. destruct d; simpl; by left. Qed.
Lemma sequences_part func d : ∀ id c, part_of func id → c ∈ sequences func d id → part_of func c.
Proof.
  induction d as [|d IH]; intros id c Hid; simpl.
  - by intros ->%list_elem_of_singleton.
  - intros [->|Hc]%elem_of_cons; [done|]. apply list_elem_of_bind in Hc as (instr & Hc & Hi).
    apply list_elem_of_bind in Hc as (s & Hc & Hs). eapply IH; [|exact Hc]. by eapply part_nested.
Qed.
Lemma sequences_closed func d : ∀ id, shallow func d id →
  ∀ c instr c', c ∈ sequences func d id → instr ∈ block func c → c' ∈ nested instr → c' ∈ sequences func d id.
Proof.
  induction d as [|d IH]; intros id Hs c instr c'; simpl.
  - intros ->%list_elem_of_singleton Hi Hc'. rewrite (Hs instr Hi) in Hc'. by apply elem_of_nil in Hc'.
  - intros [->|Hc]%elem_of_cons Hi Hc'; right; apply list_elem_of_bind.
    + exists instr. split; [|done]. apply list_elem_of_bind. exists c'. split; [apply sequences_self|done].
    + apply list_elem_of_bind in Hc as (x & Hc & Hx). apply list_elem_of_bind in Hc as (s & Hc & Hsx).
      exists x. split; [|done]. apply list_elem_of_bind. exists s. split; [|done]. by eapply IH; [eapply Hs|..].
Qed.
Lemma part_of_iff func d id : shallow func d (entry_block func) → part_of func id ↔ id ∈ sequences func d (entry_block func).
Proof.
  intros Hs. split; [|apply sequences_part; constructor]. induction 1; [apply sequences_self|]. by eapply sequences_closed.
Qed.
Lemma existsb_false {A} (p : A → bool) l : existsb p l = false ↔ ∀ x, x ∈ l → p x = false.
Proof.
  rewrite <-not_true_iff_false, existsb_exists. setoid_rewrite <-list_elem_of_In. split.
  - intros Hn x Hx. apply not_true_iff_false. intros Hp. apply Hn. eauto.
  - intros Ha (x & Hx & Hp). by rewrite Ha in Hp.
Qed.
Lemma scan_floats_ok func : shallow func MAX_CONTROL_FLOW_NESTING_DEPTH (entry_block func) → scan_floats func = false ↔ float_free func.
Proof.
  unfold scan_floats. generalize MAX_CONTROL_FLOW_NESTING_DEPTH as d. intros d Hs. unfold float_free. rewrite existsb_false.
  setoid_rewrite existsb_false. split; intros Ha id.
  - intros instr Hid Hi. apply visit_instr_ok, (Ha id); [by apply part_of_iff|done].
  - intros Hid instr Hi. apply visit_instr_ok, (Ha id); [by eapply part_of_iff|done].
Qed.

Definition is_local (f : Function) : bool := match kind f with Local _ => true | _ => false end.
Definition local_count (fs : list Function) : N := foldr (λ f n, if is_local f then n + 1 else n)%N 0%N fs.
Definition valid_function (f : Function) : Prop :=
  Forall no_float (fun_params f ++ fun_results f) ∧
  match kind f with
  | Local func => shallow func MAX_CONTROL_FLOW_NESTING_DEPTH (entry_block func) ∧ float_free func
  | _ => True
  end.
Lemma check_functions_ok max fs : ∀ count, check_functions max count fs = inr tt ↔
  Forall valid_function fs ∧ (count + local_count fs ≤ N.max max count)%N.
Proof.
  induction fs as [|f fs IH]; intros count; simpl; [split; [intros _; split; [constructor|lia]|done]|].
  rewrite Forall_cons. unfold valid_function at 1. destruct (check_all_cases check_valtype_acceptable (fun_params f ++ fun_results f)) as [Hv|[e He]].
  2: { rewrite He. split; [done|]. intros [[[Hv _] _] _]. apply valtypes_ok in Hv. congruence. }
  rewrite Hv. apply valtypes_ok in Hv. unfold is_local.
  destruct (kind f) as [|func|] eqn:Hk.
  - rewrite IH. tauto.
  - destruct (N.ltb_spec max (count + 1)) as [Hm|Hm].
    { split; [done|]. intros [_ Hc]. lia. }
    pose proof (dfs_ok func MAX_CONTROL_FLOW_NESTING_DEPTH (entry_block func)) as Hd. fold (check_nesting_depth func) in Hd.
    destruct (check_nesting_depth func) as [e|[]]; [split; [done|]; intros [[(_ & Hs & _) _] _]; apply Hd in Hs; done|].
    pose proof (scan_floats_ok func (proj1 Hd eq_refl)) as Hf. destruct (scan_floats func); [split; [done|]; intros [[(_ & _ & Hs) _] _]; apply Hf in Hs; done|].
    rewrite IH. split; [intros [? ?]; split; [split; [|done]; tauto|lia]|intros [[_ ?] ?]; split; [done|lia]].
  - rewrite IH. tauto.
Qed.
Lemma check_locals_ok max ls : ∀ count, check_locals max count ls = inr tt ↔
  Forall no_float ls ∧ (count + N.of_nat (length ls) ≤ N.max max count)%N.
Proof.
  induction ls as [|l ls IH]; intros count; cbn [check_locals length]; [split; [intros _; split; [constructor|lia]|done]|].
  rewrite Forall_cons. destruct (N.ltb_spec max (count + 1)); [split; [done|lia]|].
  pose proof (valtype_ok l) as Hv. destruct (check_valtype_acceptable l) as [e|[]]; [split; [done|]; intros [[Hl _] _]; apply Hv in Hl; done|].
  rewrite IH. split; [intros [? ?]; split; [split; [tauto|done]|lia]|intros [[_ ?] ?]; split; [done|lia]].
Qed.

(** ** The declared sub-version *)

(** A string of decimal digits and the number it denotes. *)
Inductive numeral : string → N → Prop :=
  | numeral_empty : numeral "" 0
  | numeral_digit d s n : (d < 10)%N → numeral s n →
      numeral (String (Ascii.ascii_of_N (48 + d)) s) (d * 10 ^ N.of_nat (String.length s) + n)%N.
(** A number in text: at least one digit, perhaps after a plus sign. *)
Definition number (s : string) (n : N) : Prop :=
  ∃ digits, digits ≠ ""%string ∧ numeral digits n ∧ (s = digits ∨ s = String "+" digits).
(** The sub-version that names declare: zero where none begins as a declaration does, else the number in the only one that does. *)
Definition declares (names : list string) (sv : N) : Prop :=
  ((∀ t, (EXPORT_SUB_VERSION_PREFIX ++ t)%string ∉ names) ∧ sv = 0%N) ∨
  (∃ t, number t sv ∧ (sv ≤ u32_max)%N ∧ ∀ t', (EXPORT_SUB_VERSION_PREFIX ++ t')%string ∈ names ↔ t' = t).

Lemma parse_digit_ok a d : parse_digit a = Some d ↔ (d < 10)%N ∧ a = Ascii.ascii_of_N (48 + d).
Proof.
  unfold parse_digit. split.
  - case_match eqn:Hc; [|done]. apply andb_true_iff in Hc as [H1%N.leb_le H2%N.leb_le]. intros [= <-]. split; [lia|].
    replace (48 + (Ascii.N_of_ascii a - 48))%N with (Ascii.N_of_ascii a) by lia. symmetry. apply Ascii.ascii_N_embedding.
  - intros [Hd ->]. rewrite Ascii.N_ascii_embedding by lia. rewrite !(proj2 (N.leb_le _ _)) by lia. simpl. f_equal. lia.
Qed.
Lemma parse_digits_ok s : ∀ acc n, (acc ≤ u32_max)%N → parse_digits acc s = Some n ↔
  ∃ v, numeral s v ∧ n = (acc * 10 ^ N.of_nat (String.length s) + v)%N ∧ (n ≤ u32_max)%N.
Proof.
  induction s as [|a s IH]; intros acc n Hacc; cbn [parse_digits String.length].
  - split; [intros [= <-]; exists 0%N; split_and!; [constructor|simpl; lia|done]|].
    intros (v & Hv & -> & _). inversion Hv; subst. f_equal. simpl. lia.
  - rewrite Nat2N.inj_succ, N.pow_succ_r'. split.
    + intros (d & [Hd ->]%parse_digit_ok & (x & [-> Hx]%checked_mul_Some & (y & [-> Hy]%checked_add_Some & Hp)%bind_Some)%bind_Some)%bind_Some.
      apply IH in Hp as (v & Hv & -> & Hn); [|done]. eexists. split_and!; [by constructor|lia|lia].
    + intros (v & Hv & -> & Hn). inversion Hv as [|d ? v' Hd Hv']; subst. rewrite (proj2 (parse_digit_ok _ d)) by done.
      cbn [mbind option_bind]. assert (0 < 10 ^ N.of_nat (String.length s))%N by (apply N.neq_0_lt_0, N.pow_nonzero; lia).
      rewrite (proj2 (checked_mul_Some _ _ _ (acc * 10)%N)) by (split; [done|nia]). cbn [mbind option_bind].
      rewrite (proj2 (checked_add_Some _ _ _ (acc * 10 + d)%N)) by (split; [done|nia]). cbn [mbind option_bind].
      apply IH; [nia|]. exists v'. split_and!; [done|lia|lia].
Qed.
Lemma numeral_no_sign s n : ¬ numeral (String "+" s) n.
Proof. inversion 1 as [|d ? ? Hd Hs Heq]; subst. assert (d < 10)%N as Hlt by done. clear -Heq Hlt.
  apply (f_equal Ascii.N_of_ascii) in Heq. rewrite Ascii.N_ascii_embedding in Heq by lia. change (Ascii.N_of_ascii "+") with 43%N in Heq. lia.
Qed.
Lemma parse_u32_ok s n : parse_u32 s = Some n ↔ number s n ∧ (n ≤ u32_max)%N.
Proof.
  assert (∀ s, parse_digits 0 s = Some n ↔ numeral s n ∧ (n ≤ u32_max)%N) as Hd.
  { intros s'. rewrite parse_digits_ok by done. setoid_rewrite N.mul_0_l. setoid_rewrite N.add_0_l. naive_solver. }
  unfold number. destruct s as [|a s]; [split; [done|]; intros [(? & ? & ? & [?|?]) _]; congruence|].
  destruct (decide (a = "+"%char)) as [->|Ha].
  - destruct s as [|b s]; [split; [done|]; intros [(ds & Hne & Hn & [<-|Hs]) _]; [by apply numeral_no_sign in Hn|congruence]|].
    change (parse_u32 _) with (parse_digits 0 (String b s)). rewrite Hd. split.
    + intros [Hn Hle]. split; [|done]. exists (String b s). split_and!; [done|done|by right].
    + intros [(ds & Hne & Hn & [<-|[= <-]]) Hle]; [by apply numeral_no_sign in Hn|done].
  - assert (parse_u32 (String a s) = parse_digits 0 (String a s)) as ->.
    { destruct a as [[] [] [] [] [] [] [] []]; try reflexivity. done. }
    rewrite Hd. split.
    + intros [Hn Hle]. split; [|done]. exists (String a s). split_and!; [done|done|by left].
    + intros [(ds & Hne & Hn & [<-|[= ? _]]) Hle]; [done|congruence].
Qed.
Lemma prefix_ok p s : String.prefix p s = true ↔ ∃ t, s = (p ++ t)%string.
Proof.
  revert s. induction p as [|a p IH]; intros s; simpl; [destruct s; (split; [by eexists|done])|].
  destruct s as [|b s]; [split; [done|by intros [t Ht]]|]. cbn [String.prefix append]. destruct (Ascii.ascii_dec a b) as [->|Hne]; [|split; [done|intros [t [= ? _]]; congruence]].
  rewrite IH. split; intros [t Ht]; exists t; [by rewrite Ht|by injection Ht].
Qed.
Lemma substring_app p t : String.substring (String.length p) (String.length t) (p ++ t) = t.
Proof.
  induction p as [|a p IH]; [|exact IH]. change (String.substring 0 (String.length t) t = t).
  induction t as [|b t IH]; [done|]. change (String b (String.substring 0 (String.length t) t) = String b t). by rewrite IH.
Qed.
Lemma strip_prefix_app p t : strip_prefix p (p ++ t) = Some t.
Proof.
  unfold strip_prefix. rewrite (proj2 (prefix_ok _ _)) by by eexists.
  assert (∀ x y, String.length (x ++ y) = String.length x + String.length y) as -> by (intros x y; induction x as [|? x IHx]; [done|exact (f_equal S IHx)]).
  replace (_ + _ - _) with (String.length t) by lia. by rewrite substring_app.
Qed.
Lemma append_inj p t t' : (p ++ t)%string = (p ++ t')%string → t = t'.
Proof. induction p as [|a p IH]; [done|]. intros [= ?]. auto. Qed.
Lemma abi_sub_version_ok names sv : NoDup names → abi_sub_version names = inr sv ↔ declares names sv.
Proof.
  intros Hnd. unfold abi_sub_version. set (l := filter _ names).
  assert (∀ e, e ∈ l ↔ ∃ t, e = (EXPORT_SUB_VERSION_PREFIX ++ t)%string ∧ e ∈ names) as Hl.
  { intros e. unfold l. rewrite list_elem_of_filter, prefix_ok. naive_solver. }
  assert (∀ t, (EXPORT_SUB_VERSION_PREFIX ++ t)%string ∈ names ↔ (EXPORT_SUB_VERSION_PREFIX ++ t)%string ∈ l) as Hn by (intros t; rewrite Hl; naive_solver).
  assert (NoDup l) as Hndl by by apply NoDup_filter.
  unfold declares. setoid_rewrite Hn. destruct l as [|e [|e' l0]] eqn:Hle.
  - split; [intros [= <-]; left; split; [|done]; intros t; apply not_elem_of_nil|].
    intros [[_ ->]|(t & _ & _ & Ht)]; [done|]. by destruct (not_elem_of_nil _ (proj2 (Ht t) eq_refl)).
  - destruct (proj1 (Hl e)) as (t & -> & _); [by left|]. rewrite strip_prefix_app. pose proof (parse_u32_ok t) as Hp.
    setoid_rewrite list_elem_of_singleton. split.
    + destruct (parse_u32 t) as [n|] eqn:Hpt; [|done]. intros [= <-]. destruct (proj1 (Hp n) eq_refl) as [? ?].
      right. exists t. split_and!; [done|done|]. intros t'. split; [apply append_inj|by intros ->].
    + intros [[Hno _]|(t0 & Hnum & Hle0 & Ht)]; [by destruct (Hno t)|]. rewrite (proj1 (Ht t) eq_refl) in *.
      by rewrite (proj2 (Hp sv)).
  - split; [done|]. intros [[Hno _]|(t0 & _ & _ & Ht)].
    + destruct (proj1 (Hl e)) as (t & -> & _); [by left|]. destruct (Hno t). by left.
    + destruct (proj1 (Hl e)) as (t & -> & _); [by left|]. destruct (proj1 (Hl e')) as (t' & -> & _); [by right; left|].
      rewrite (proj1 (Ht t)), (proj1 (Ht t')) in Hndl; [|by right; left|by left].
      apply NoDup_cons in Hndl as [Hndl _]. destruct Hndl. by left.
Qed.
(** The condition that validation decides. *)
Record valid_module (m : Module_) (params : ContractsParameters) (abi_sv : N) : Prop := {
  vm_required : ∀ e, e ∈ REQUIRED_EXPORTS → e ∈ export_name <$> exports m;
  vm_reserved : ∀ e, e ∈ RESERVED_EXPORTS → e ∉ export_name <$> exports m;
  vm_version : declares (export_name <$> exports m) abi_sv;
  vm_start : start m = None;
  vm_memories : (memories m ≤ 1)%N;
  vm_functions : Forall valid_function (functions m) ∧ (local_count (functions m) ≤ max_wasm_functions params)%N;
  vm_types : Forall no_float (tables m) ∧ Forall no_float (elements m) ∧ Forall (λ g, no_float (global_ty g)) (globals m);
  vm_locals : Forall no_float (locals m) ∧ (N.of_nat (length (locals m)) ≤ max_wasm_locals params)%N;
}.

Lemma export_in m e : e ∈ export_names m ↔ e ∈ export_name <$> exports m.
Proof. apply elem_of_remove_dups. Qed.

(** Checks one after the other. *)
Lemma checked {A} (x : ContractsError + unit) (k : ContractsError + A) v :
  match x with inl e => inl e | inr _ => k end = inr v ↔ x = inr tt ∧ k = inr v.
Proof. destruct x as [e|[]]; naive_solver. Qed.
Lemma checked_if {A} (b : bool) e (k : ContractsError + A) v : (if b then inl e else k) = inr v ↔ b = false ∧ k = inr v.
Proof. destruct b; naive_solver. Qed.
Lemma required_ok m : check_all (λ r, if bool_decide (r ∈ export_names m) then inr tt else inl (CtCodeMissingRequiredExport r)) REQUIRED_EXPORTS = inr tt ↔
  ∀ e, e ∈ REQUIRED_EXPORTS → e ∈ export_name <$> exports m.
Proof.
  rewrite check_all_ok, Forall_forall. setoid_rewrite <-export_in. split; intros Ha e He; specialize (Ha e He).
  - by destruct (bool_decide_reflect (e ∈ export_names m)).
  - by rewrite bool_decide_eq_true_2.
Qed.
Lemma reserved_ok m : check_all (λ r, if bool_decide (r ∈ export_names m) then inl (CtCodeDeclaresReservedExport r) else inr tt) RESERVED_EXPORTS = inr tt ↔
  ∀ e, e ∈ RESERVED_EXPORTS → e ∉ export_name <$> exports m.
Proof.
  rewrite check_all_ok, Forall_forall. setoid_rewrite <-export_in. split; intros Ha e He; specialize (Ha e He).
  - by destruct (bool_decide_reflect (e ∈ export_names m)).
  - by rewrite bool_decide_eq_false_2.
Qed.

Lemma declares_proper names names' sv : (∀ e, e ∈ names ↔ e ∈ names') → declares names sv ↔ declares names' sv.
Proof. intros He. unfold declares. setoid_rewrite He. done. Qed.
Lemma version_ok m sv : abi_sub_version (export_names m) = inr sv ↔ declares (export_name <$> exports m) sv.
Proof. rewrite abi_sub_version_ok by apply NoDup_remove_dups. apply declares_proper, export_in. Qed.

Lemma validate_iff m params abi_sv : validate_module m params = inr abi_sv ↔ valid_module m params abi_sv.
Proof.
  unfold validate_module. rewrite !checked, required_ok, reserved_ok. pose proof (version_ok m) as Hvo.
  destruct (abi_sub_version (export_names m)) as [e|sv]; [split; [by intros (_ & _ & ?)|intros [_ _ Hv _ _ _ _ _]; by apply Hvo in Hv]|].
  rewrite !checked_if, !checked, check_functions_ok, !valtypes_ok, check_all_ok, check_locals_ok, bool_decide_eq_false.
  assert (Forall (λ g, check_valtype_acceptable (global_ty g) = inr tt) (globals m) ↔ Forall (λ g, no_float (global_ty g)) (globals m)) as ->
    by (apply Forall_iff; intros; apply valtype_ok).
  rewrite N.ltb_ge, !N.add_0_l, !N.max_0_r. split.
  - intros (? & ? & ? & ? & ? & ? & ? & ? & ? & [= ->]). split; try done; [by apply Hvo|by apply dec_stable].
  - intros [? ? Hv -> ? ? (? & ? & ?) ?]. apply Hvo in Hv. injection Hv as ->. destruct_and!. split_and!; try done. auto.
Qed.

(** * All valid modules can be metered *)

(** The sequences of a function form a tree, as those of parsed code do. *)
Definition well_formed (func : LocalFunction) : Prop :=
  let ids := sequences func MAX_CONTROL_FLOW_NESTING_DEPTH (entry_block func) in
  NoDup ids ∧ Forall (λ c, c < length (arena func)) ids.
Definition well_formed_function (f : Function) : Prop := match kind f with Local func => well_formed func | _ => True end.

Lemma transform_function_total func gl gx : shallow func MAX_CONTROL_FLOW_NESTING_DEPTH (entry_block func) → well_formed func →
  ∃ func', transform_function func gl gx = Some func'.
Proof.
  intros Hs [Hn Hf]. unfold transform_function. rewrite (determine_scan func MAX_CONTROL_FLOW_NESTING_DEPTH (conj Hs (conj Hn Hf))).
  by eexists.
Qed.

(** A function before and after instrumentation. *)
Definition metered_function (gl gx : N) (f f' : Function) : Prop :=
  fun_params f' = fun_params f ∧ fun_results f' = fun_results f ∧ transform_kind (kind f) gl gx = Some (kind f').

Lemma transform_functions_total gl gx fs : Forall valid_function fs → Forall well_formed_function fs →
  ∃ fs', mapM (λ f, k ← transform_kind (kind f) gl gx; Some {| fun_params := fun_params f; fun_results := fun_results f; kind := k |}) fs = Some fs' ∧
    Forall2 (metered_function gl gx) fs fs'.
Proof.
  intros Hv Hw. induction fs as [|f fs IH]; [by exists []; split; [|constructor]|].
  apply Forall_cons in Hv as [[_ Hf] Hv], Hw as [Hwf Hw]. destruct IH as (fs' & Hm & Hfs'); [done..|].
  assert (∃ k, transform_kind (kind f) gl gx = Some k) as [k Hk].
  { unfold transform_kind. unfold well_formed_function in Hwf. destruct (kind f) as [|func|]; [by eexists| |by eexists].
    destruct Hf as [Hs _]. destruct (transform_function_total func gl gx Hs Hwf) as [func' ->]. by eexists. }
  eexists. split; [simpl; rewrite Hk; simpl; rewrite Hm; reflexivity|]. by constructor.
Qed.

(** The item that a module exports under a name. *)
Definition exported (m : Module_) (name : string) : list ExportItem :=
  export_item <$> filter (λ e, export_name e = name) (exports m).
Lemma exported_none m name : name ∉ export_name <$> exports m → exported m name = [].
Proof.
  unfold exported. induction (exports m) as [|e l IH]; [done|]. simpl. intros [Hne Hl]%not_elem_of_cons.
  rewrite filter_cons_False by (by intros <-). auto.
Qed.

Module ValidationClaims.

(** C16. Validation accepts exactly the valid modules, and every class of malformed code is refused: a module passes, with
    the ABI sub-version its exports declare, if and only if it exports what the ABI requires and nothing that it
    reserves, declares no sub-version, which means zero, or one in the form of a decimal number, has no start function and at most one memory, uses floats neither in
    types nor in any instruction of any function, whatever works on a float or on lanes of floats, nests no code deeper than the maximum, and has no more functions and
    locals than allowed. *)
Theorem validation_is_exact (m : Module_) (params : ContractsParameters) (abi_sv : N) :
  validate_module m params = inr abi_sv ↔ valid_module m params abi_sv.
Proof. apply validate_iff. Qed.

(** C17. Every module that passes validation is metered: instrumentation ends, keeps the types of all functions and imports,
    instruments every function with code, and exports under the two reserved names one fresh mutable global each, the
    gas limit and the exhausted amount, which the code of the contract can not refer to. *)
Theorem validated_modules_are_metered (m : Module_) (params : ContractsParameters) (om : option Module_) (abi_sv : N) :
  abi_validate m params = inr (om, abi_sv) → Forall well_formed_function (functions m) →
  ∃ m', om = Some m' ∧
    Forall2 (metered_function (N.of_nat (length (globals m))) (N.of_nat (S (length (globals m))))) (functions m) (functions m') ∧
    globals m' = globals m ++ [gas_global; gas_global] ∧
    exported m' EXPORT_GAS_LIMIT = [ExportGlobal (N.of_nat (length (globals m)))] ∧
    exported m' EXPORT_GAS_LIMIT_EXHAUSTED = [ExportGlobal (N.of_nat (S (length (globals m))))] ∧
    (∀ name, name ∉ RESERVED_EXPORTS → exported m' name = exported m name).
Proof.
  unfold abi_validate. destruct (validate_module m params) as [e|sv] eqn:Hv; [done|]. intros [= <- <-] Hw.
  apply validate_iff in Hv as [_ Hres _ _ _ [Hf _] _ _].
  destruct (transform_functions_total (N.of_nat (length (globals m))) (N.of_nat (S (length (globals m)))) _ Hf Hw) as (fs & Hm & Hfs).
  unfold transform. rewrite Hm. simpl. eexists. split; [reflexivity|].
  pose proof (exported_none m _ (Hres EXPORT_GAS_LIMIT ltac:(by left))) as H1.
  pose proof (exported_none m _ (Hres EXPORT_GAS_LIMIT_EXHAUSTED ltac:(by right; left))) as H2.
  unfold exported in *. cbn [exports]. split_and!; [done|done|by rewrite filter_app, fmap_app, H1|by rewrite filter_app, fmap_app, H2|].
  intros name Hn. rewrite filter_app, fmap_app. apply not_elem_of_cons in Hn as [Hn1 Hn2]. apply not_elem_of_cons in Hn2 as [Hn2 _].
  rewrite !(filter_cons_False _ _ (_ :: _)), (filter_cons_False _ _ []) by (cbn; congruence). by rewrite app_nil_r.
Qed.

(** A module with a looping function. *)
Definition toy_module : Module_ := {|
  exports := [{| export_name := "allocate"; export_item := ExportFunction 1 |}; {| export_name := "deallocate"; export_item := ExportFunction 1 |};
              {| export_name := "instantiate"; export_item := ExportFunction 1 |}; {| export_name := "call"; export_item := ExportFunction 1 |};
              {| export_name := "__oasis_sv_1"; export_item := ExportFunction 1 |}];
  start := None;
  memories := 1;
  functions := [{| fun_params := [I32]; fun_results := []; kind := Import |};
                {| fun_params := [I32; I32]; fun_results := [I32];
                   kind := Local {| entry_block := 0; arena := [[Loop 1; Const (ConstI32 7)]; [LocalGet 0; BrIf 1]] |} |}];
  tables := []; elements := []; globals := []; locals := [I32; I32];
|}.
Lemma validated_modules_are_metered_witness : ∃ om sv m', abi_validate toy_module contracts_parameters_default = inr (om, sv) ∧ om = Some m' ∧
  exported m' EXPORT_GAS_LIMIT = [ExportGlobal 0].
Proof.
  destruct (abi_validate toy_module contracts_parameters_default) as [e|[om sv]] eqn:Hv; [exfalso; vm_compute in Hv; discriminate|].
  destruct (validated_modules_are_metered toy_module contracts_parameters_default om sv Hv) as (m' & Hm & _ & _ & He & _).
  - repeat constructor; by apply (bool_decide_unpack _); vm_compute.
  - exists om, sv, m'. split; [reflexivity|split; [exact Hm|exact He]].
Defined.

End ValidationClaims.
