(* ===== verification/ConfidentialStore.v ===== *)
(** Confidential and hashed stores (src/runtime-sdk/src/storage/confidential.rs and hashed.rs).

    A confidential store encrypts keys and values of the store below it.  The cipher, the key derivation and the
    hash functions are parameters. *)
From S2P Require Import Prelude Endian Storage StoreIter Types Fee Errors State Current Concrete.

Local Open Scope string_scope.

Definition NONCE_SIZE : nat := 15.

(** Deoxys-II without associated data, HMAC-SHA512/256 under the fixed label of nonce keys, and BLAKE3. *)
Class StoreCrypto := {
  deoxysii_seal : bytes → bytes → bytes → bytes;
  deoxysii_open : bytes → bytes → bytes → option bytes;
  nonce_kdf : bytes → bytes;
  blake3 : bytes → bytes;
}.
(** What they are documented to do: sealed messages open to what was sealed and carry a tag, digests have a fixed
    size. *)
Class StoreCryptoLaws `{StoreCrypto} : Prop := {
  deoxysii_roundtrip key nonce m : deoxysii_open key nonce (deoxysii_seal key nonce m) = Some m;
  deoxysii_size key nonce m : deoxysii_seal key nonce m ≠ [];
  blake3_size m : length (blake3 m) = 32;
}.

(** [usize::to_le_bytes] on a machine of 64 bits. *)
Definition le_bytes64 (n : N) : bytes := rev (be_bytes64 n).

Inductive ConfidentialError := CorruptKey | CorruptValue | DecryptionFailure.

Section confidential.
Context `{Crypto, StoreCrypto}.

(** The store below is a path into the current store. *)
Record ConfidentialStore := {
  cs_inner : StoreRef;
  cs_key : bytes;
  cs_base_value_prefix : bytes;
  cs_nonce_counter : N;
  cs_nonce_key : bytes;
}.
Definition cs_new_with_key (inner : StoreRef) (key : bytes) (value_context : list bytes) : ConfidentialStore :=
  {| cs_inner := inner; cs_key := key; cs_base_value_prefix := concat value_context; cs_nonce_counter := 0;
     cs_nonce_key := nonce_kdf key |}.

Definition unpack_nonce_slice (packed : bytes) : option (bytes * bytes) :=
  if (length packed <=? NONCE_SIZE)%nat then None else Some (take NONCE_SIZE packed, drop NONCE_SIZE packed).
Definition pack_nonce_slice (nonce slice : bytes) : bytes := (nonce ++ slice)%list.
(** [Hash::truncated]. *)
Definition truncated (h : Hash) : bytes := take NONCE_SIZE (raw h).

Definition make_key (cs : ConfidentialStore) (plain_key : bytes) : bytes * bytes :=
  let nonce := truncated (digest [(cs_nonce_key cs ++ plain_key)%list]) in
  (nonce, pack_nonce_slice nonce (deoxysii_seal (cs_key cs) nonce plain_key)).
Definition make_value (cs : ConfidentialStore) (plain_value : bytes) : bytes * bytes * ConfidentialStore :=
  let counter := wrapping_add u64_max (cs_nonce_counter cs) 1 in
  let nonce := truncated (digest [cs_base_value_prefix cs; le_bytes64 counter]) in
  (nonce, pack_nonce_slice nonce (deoxysii_seal (cs_key cs) nonce plain_value),
   {| cs_inner := cs_inner cs; cs_key := cs_key cs; cs_base_value_prefix := cs_base_value_prefix cs;
      cs_nonce_counter := counter; cs_nonce_key := cs_nonce_key cs |}).
Definition get_item (cs : ConfidentialStore) (packed : bytes) : ConfidentialError + bytes * bytes :=
  match unpack_nonce_slice packed with
  | Some (nonce, enc) =>
      match deoxysii_open (cs_key cs) nonce enc with
      | Some plain => inr (nonce, plain)
      | None => inl DecryptionFailure
      end
  | None => inl CorruptKey
  end.

Context `{MKVS}.

Definition cs_get (s : Store) (cs : ConfidentialStore) (key : bytes) : Outcome Empty_set (option bytes) :=
  match ref_get s (cs_inner cs) (make_key cs key).2 with
  | None => Ok None
  | Some inner_value =>
      match get_item cs inner_value with
      | inr (_, value) => Ok (Some value)
      | inl _ => Panic "error decrypting value"
      end
  end.
Definition cs_insert (s : Store) (cs : ConfidentialStore) (key value : bytes) : Store * ConfidentialStore :=
  let inner_key := (make_key cs key).2 in
  let '(_, inner_value, cs) := make_value cs value in
  (ref_insert s (cs_inner cs) inner_key inner_value, cs).
Definition cs_remove (s : Store) (cs : ConfidentialStore) (key : bytes) : Store :=
  ref_remove s (cs_inner cs) (make_key cs key).2.

(** ** The iterator *)

Record ConfidentialCursor (P : Type) := {
  cf_inner : P;
  cf_store : ConfidentialStore;
  cf_key : option bytes;
  cf_value : option bytes;
  cf_error : option string;
}.
Arguments cf_inner {P}. Arguments cf_store {P}. Arguments cf_key {P}. Arguments cf_value {P}. Arguments cf_error {P}.

Section iterator.
Context {P : Type} `{MIterator P}.

Definition on_conf_inner {A} (m : ST P Empty_set A) : ST (ConfidentialCursor P) Empty_set A := λ c,
  let '(r, p) := m (cf_inner c) in
  (r, {| cf_inner := p; cf_store := cf_store c; cf_key := cf_key c; cf_value := cf_value c; cf_error := cf_error c |}).
Definition confidential_is_valid (c : ConfidentialCursor P) : bool :=
  match cf_error c with None => it_is_valid (cf_inner c) | Some _ => false end.
Definition conf_error_string (e : ConfidentialError) : string :=
  match e with CorruptKey => "corrupt key" | CorruptValue => "corrupt value" | DecryptionFailure => "decryption failure" end.
Definition conf_load (inner_key inner_value : bytes) (c : ConfidentialCursor P) : ConfidentialCursor P :=
  if negb (confidential_is_valid c) then c
  else
    let at_item k v e := {| cf_inner := cf_inner c; cf_store := cf_store c; cf_key := k; cf_value := v; cf_error := e |} in
    match get_item (cf_store c) inner_key with
    | inr (_, key) =>
        match get_item (cf_store c) inner_value with
        | inr (_, value) => at_item (Some key) (Some value) (cf_error c)
        | inl e => at_item (cf_key c) (cf_value c) (Some (conf_error_string e))
        end
    | inl e => at_item (cf_key c) (cf_value c) (Some (conf_error_string e))
    end.
Definition reset_and_load (c : ConfidentialCursor P) : ConfidentialCursor P :=
  let c := {| cf_inner := cf_inner c; cf_store := cf_store c; cf_key := None; cf_value := None; cf_error := None |} in
  let fail e := {| cf_inner := cf_inner c; cf_store := cf_store c; cf_key := None; cf_value := None; cf_error := Some e |} in
  if it_is_valid (cf_inner c) then
    match it_get_key (cf_inner c), it_get_value (cf_inner c) with
    | Some inner_key, Some inner_value => conf_load inner_key inner_value c
    | Some _, None => fail "no value in valid inner iterator"
    | None, _ => fail "no key in valid inner iterator"
    end
  else c.

(** [Iterator::next]. *)
Definition confidential_item : ST (ConfidentialCursor P) Empty_set (option (bytes * bytes)) :=
  modify reset_and_load ;;
  c ← get_st;
  if negb (confidential_is_valid c) then mret None
  else
    on_conf_inner it_next ;;
    k ← expect (cf_key c) "called Option::unwrap on a None value";
    v ← expect (cf_value c) "called Option::unwrap on a None value";
    mret (Some (k, v)).
#[export] Instance confidential_iterator : MIterator (ConfidentialCursor P) := {|
  it_is_valid := confidential_is_valid;
  it_get_key := cf_key;
  it_get_value := cf_value;
  it_next := on_conf_inner it_next ;; modify reset_and_load;
  it_seek key := c ← get_st; on_conf_inner (it_seek (make_key (cf_store c) key).2) ;; modify reset_and_load;
  it_item := confidential_item;
|}.
End iterator.

(** [Store::iter]. *)
Definition cs_iter (s : Store) (cs : ConfidentialStore) : Outcome Empty_set DynIter :=
  match ref_iter s (cs_inner cs) with
  | Ok it => Ok {| di_cursor := ConfidentialCursor (di_cursor it); di_ops := confidential_iterator (H2 := di_ops it);
                   di_pos := {| cf_inner := di_pos it; cf_store := cs; cf_key := None; cf_value := None; cf_error := None |} |}
  | Err e => Err e
  | Panic m => Panic m
  end.

(** ** Hashed stores *)

(** Keys are stored as the digest of the key and the key. *)
Definition hashed_key (key : bytes) : bytes := (blake3 key ++ key)%list.
Definition hs_get (s : Store) (parent : StoreRef) (key : bytes) : option bytes := ref_get s parent (hashed_key key).
Definition hs_insert (s : Store) (parent : StoreRef) (key value : bytes) : Store := ref_insert s parent (hashed_key key) value.
Definition hs_remove (s : Store) (parent : StoreRef) (key : bytes) : Store := ref_remove s parent (hashed_key key).
Definition hs_iter (s : Store) (parent : StoreRef) : Outcome Empty_set DynIter := ref_iter s parent.
End confidential.

(** * A confidential store is a map of plaintexts *)

Section refines.
Context `{Crypto, StoreCryptoLaws, MKVSLaws}.

Lemma truncated_length h : length (truncated h) = NONCE_SIZE.
Proof. unfold truncated. rewrite length_take. unfold raw. by rewrite (proj2_sig h). Qed.
(** What was sealed and packed is found again. *)
Lemma get_item_sealed cs nonce m : length nonce = NONCE_SIZE →
  get_item cs (pack_nonce_slice nonce (deoxysii_seal (cs_key cs) nonce m)) = inr (nonce, m).
Proof.
  intros Hn. unfold get_item, unpack_nonce_slice, pack_nonce_slice. rewrite length_app, Hn.
  pose proof (deoxysii_size (cs_key cs) nonce m) as Hs. destruct (Nat.leb_spec (NONCE_SIZE + length (deoxysii_seal (cs_key cs) nonce m)) NONCE_SIZE).
  - destruct (deoxysii_seal (cs_key cs) nonce m); [done|]. cbn [length] in *. lia.
  - rewrite <-Hn, take_app_length, drop_app_length. by rewrite deoxysii_roundtrip.
Qed.
Lemma make_key_inj cs k k' : (make_key cs k).2 = (make_key cs k').2 → k = k'.
Proof.
  intros Heq. apply (f_equal (get_item cs)) in Heq. unfold make_key in Heq. simpl in Heq.
  rewrite !get_item_sealed in Heq by apply truncated_length. by injection Heq.
Qed.
Lemma make_value_item cs v : get_item (make_value cs v).2 (make_value cs v).1.2 = inr ((make_value cs v).1.1, v).
Proof. unfold make_value. simpl. apply (get_item_sealed cs). apply truncated_length. Qed.

(** The operations of a confidential store, and the same on a map. *)
Inductive CsOp := CsInsert (key value : bytes) | CsRemove (key : bytes).
Definition cs_exec (x : Store * ConfidentialStore) (op : CsOp) : Store * ConfidentialStore :=
  match op with
  | CsInsert key value => cs_insert x.1 x.2 key value
  | CsRemove key => (cs_remove x.1 x.2 key, x.2)
  end.
Definition cs_spec (m : gmap bytes bytes) (op : CsOp) : gmap bytes bytes :=
  match op with CsInsert key value => <[key := value]> m | CsRemove key => delete key m end.
(** The values that are inserted, and what is then found below their keys in the inner store. *)
Fixpoint written (x : Store * ConfidentialStore) (ops : list CsOp) : list (bytes * option bytes) :=
  match ops with
  | [] => []
  | op :: ops =>
      let x' := cs_exec x op in
      (match op with
       | CsInsert key value => [(value, ref_get x'.1 (cs_inner x'.2) (make_key x'.2 key).2)]
       | CsRemove _ => []
       end ++ written x' ops)%list
  end.
(** A value sealed under a key, with a nonce that is derived from a context and an input. *)
Definition sealed_with (key context input : bytes) (x : bytes * option bytes) : Prop :=
  let nonce := truncated (digest [context; input]) in
  x.2 = Some (pack_nonce_slice nonce (deoxysii_seal key nonce x.1)).

(** The map that a store holds, encrypted. *)
Definition encrypts (m : gmap bytes bytes) (x : Store * ConfidentialStore) : Prop :=
  store_wf x.1 ∧ ∀ k, match ref_get x.1 (cs_inner x.2) (make_key x.2 k).2 with
                      | Some c => ∃ nonce v, get_item x.2 c = inr (nonce, v) ∧ m !! k = Some v
                      | None => m !! k = None
                      end.
Lemma encrypts_get m x k : encrypts m x → cs_get x.1 x.2 k = Ok (m !! k).
Proof.
  intros [_ Hm]. specialize (Hm k). unfold cs_get. destruct (ref_get _ _ _); [|by rewrite Hm].
  destruct Hm as (nonce & v & -> & ->). done.
Qed.

(** What stays of a confidential store. *)
Definition same_keys (cs cs' : ConfidentialStore) : Prop :=
  cs_inner cs' = cs_inner cs ∧ cs_key cs' = cs_key cs ∧ cs_base_value_prefix cs' = cs_base_value_prefix cs ∧ cs_nonce_key cs' = cs_nonce_key cs.
Lemma same_keys_exec x op : same_keys x.2 (cs_exec x op).2.
Proof. by destruct op. Qed.
Lemma same_keys_key cs cs' k : same_keys cs cs' → make_key cs' k = make_key cs k.
Proof. intros (_ & Hk & _ & Hn). unfold make_key. by rewrite Hk, Hn. Qed.
Lemma same_keys_item cs cs' c : same_keys cs cs' → get_item cs' c = get_item cs c.
Proof. intros (_ & Hk & _). unfold get_item. by rewrite Hk. Qed.

Lemma cs_exec_get x op b : store_wf x.1 → get (cs_exec x op).1 b =
  match op with
  | CsInsert k v => if decide ((ref_prefix (cs_inner x.2) ++ (make_key x.2 k).2)%list = b) then Some (make_value x.2 v).1.2 else get x.1 b
  | CsRemove k => if decide ((ref_prefix (cs_inner x.2) ++ (make_key x.2 k).2)%list = b) then None else get x.1 b
  end.
Proof.
  intros Hwf. destruct op as [k v|k]; simpl.
  - rewrite ref_insert_key, get_insert. done.
  - unfold cs_remove. rewrite ref_remove_key, get_remove by done. done.
Qed.
Lemma cs_exec_wf x op : store_wf x.1 → store_wf (cs_exec x op).1.
Proof.
  intros Hwf. destruct op; simpl; [rewrite ref_insert_key; by apply insert_wf|unfold cs_remove; rewrite ref_remove_key; by apply remove_wf].
Qed.

Lemma encrypts_exec m x op : encrypts m x → encrypts (cs_spec m op) (cs_exec x op).
Proof.
  intros [Hwf Hm]. split; [by apply cs_exec_wf|]. intros k. pose proof (same_keys_exec x op) as Hsk.
  rewrite (same_keys_key _ _ _ Hsk), ref_get_key, cs_exec_get by done. rewrite (proj1 Hsk).
  specialize (Hm k). rewrite ref_get_key in Hm.
  assert (∀ c m', m' = m !! k → get x.1 (ref_prefix (cs_inner x.2) ++ (make_key x.2 k).2) = c →
    match c with Some c => ∃ nonce v, get_item (cs_exec x op).2 c = inr (nonce, v) ∧ m' = Some v | None => m' = None end) as Hkeep.
  { intros c m' -> <-. destruct (get _ _); [|done]. destruct Hm as (nonce & v & ? & ?). exists nonce, v. by rewrite (same_keys_item _ _ _ Hsk). }
  assert (∀ k', (ref_prefix (cs_inner x.2) ++ (make_key x.2 k').2)%list = (ref_prefix (cs_inner x.2) ++ (make_key x.2 k).2)%list ↔ k' = k) as Hk.
  { intros k'. split; [intros Heq; by apply (inj (app _)), (make_key_inj x.2) in Heq|by intros ->]. }
  destruct op as [k' v|k']; cbn [cs_spec]; case_decide as Hd; rewrite Hk in Hd.
  - subst k'. eexists _, v. rewrite lookup_insert_eq. split; [exact (make_value_item x.2 v)|done].
  - apply Hkeep; [by rewrite lookup_insert_ne|done].
  - subst k'. by rewrite lookup_delete_eq.
  - apply Hkeep; [by rewrite lookup_delete_ne|done].
Qed.
Lemma encrypts_run ops m x : encrypts m x → encrypts (foldl cs_spec m ops) (foldl cs_exec x ops).
Proof. revert m x. induction ops as [|op ops IH]; [done|]. intros m x Hx. simpl. by apply IH, encrypts_exec. Qed.

(** Entries that are not below the inner store stay. *)
Lemma outside_run ops x b : store_wf x.1 → starts_with b (ref_prefix (cs_inner x.2)) = false →
  get (foldl cs_exec x ops).1 b = get x.1 b.
Proof.
  revert x. induction ops as [|op ops IH]; [done|]. intros x Hwf Hb. cbn [foldl].
  rewrite IH; [|by apply cs_exec_wf|by rewrite (proj1 (same_keys_exec x op))]. rewrite cs_exec_get by done.
  destruct op; (case_decide as Hd; [|done]); subst b; by rewrite starts_with_app in Hb.
Qed.

(** While the counter does not wrap around, no two values are sealed with a nonce of the same input. *)
Lemma le_bytes64_inj n m : (n ≤ u64_max)%N → (m ≤ u64_max)%N → le_bytes64 n = le_bytes64 m → n = m.
Proof. intros ?? Heq. apply (f_equal (@rev _)) in Heq. unfold le_bytes64 in Heq. rewrite !rev_involutive in Heq. by apply be_bytes64_inj. Qed.
Lemma written_value x key value : store_wf x.1 →
  sealed_with (cs_key x.2) (cs_base_value_prefix x.2) (le_bytes64 (wrapping_add u64_max (cs_nonce_counter x.2) 1))
    (value, ref_get (cs_exec x (CsInsert key value)).1 (cs_inner x.2) (make_key (cs_exec x (CsInsert key value)).2 key).2).
Proof.
  intros Hwf. unfold sealed_with. cbn [fst snd]. rewrite ref_get_key, cs_exec_get by done.
  by rewrite (same_keys_key x.2 _ key (same_keys_exec x (CsInsert key value))), decide_True by done.
Qed.
(** The counter is the number of the insertion. *)
Fixpoint insertions (ops : list CsOp) : nat :=
  match ops with [] => 0 | CsInsert _ _ :: ops => S (insertions ops) | CsRemove _ :: ops => insertions ops end.
Lemma insertions_length ops : (insertions ops ≤ length ops)%nat.
Proof. induction ops as [|[] ops IH]; simpl; lia. Qed.
Lemma written_sealed ops x : store_wf x.1 → (cs_nonce_counter x.2 + N.of_nat (insertions ops) ≤ u64_max)%N →
  Forall2 (sealed_with (cs_key x.2) (cs_base_value_prefix x.2))
    ((λ i, le_bytes64 (cs_nonce_counter x.2 + 1 + N.of_nat i)) <$> seq 0 (insertions ops)) (written x ops).
Proof.
  revert x. induction ops as [|op ops IH]; intros x Hwf Hn; [constructor|]. pose proof (same_keys_exec x op) as (Hi & Hk & Hp & _).
  specialize (IH (cs_exec x op) (cs_exec_wf x op Hwf)). rewrite Hk, Hp in IH. cbn [written]. rewrite Hi.
  destruct op as [key value|key]; cbn [insertions] in *; [|by apply IH].
  assert (cs_nonce_counter (cs_exec x (CsInsert key value)).2 = cs_nonce_counter x.2 + 1)%N as Hc by (cbn; apply wrapping_add_small; lia).
  rewrite Hc in IH. cbn [seq fmap list_fmap app]. constructor.
  - rewrite N.add_0_r, <-(wrapping_add_small u64_max) by lia. by apply written_value.
  - rewrite <-fmap_S_seq, <-list_fmap_compose. erewrite list_fmap_ext; [apply IH; lia|].
    intros _ i _. cbn [compose]. f_equal. lia.
Qed.
Lemma counters_distinct c n : (c + N.of_nat n ≤ u64_max)%N → NoDup ((λ i, le_bytes64 (c + 1 + N.of_nat i)) <$> seq 0 n).
Proof.
  intros Hn. apply NoDup_fmap_2_strong; [|apply NoDup_seq]. intros i j Hi%elem_of_seq Hj%elem_of_seq Heq.
  apply le_bytes64_inj in Heq; lia.
Qed.
End refines.

Module ConfidentialClaims.
Section claims.
Context `{Crypto, StoreCryptoLaws, MKVSLaws}.

(** C18. A confidential store is a map of plaintexts: over a store with nothing below the prefix of the inner store,
    after any sequence of insertions and removals every key reads, without a panic, what the same sequence leaves in a
    map; the entries outside the prefix are as they were; and while fewer than 2^64 operations are made, what each insertion leaves in the
    inner store is its value sealed with a nonce derived from the context of the store and an input that no other insertion has. *)
Theorem confidential_store_refines_map (s : Store) (inner : StoreRef) (key : bytes) (value_context : list bytes) (ops : list CsOp) :
  store_wf s → (∀ k, ref_get s inner k = None) → (N.of_nat (length ops) ≤ u64_max)%N →
  let x := (s, cs_new_with_key inner key value_context) in
  let x' := foldl cs_exec x ops in
  (∀ k, cs_get x'.1 x'.2 k = Ok (foldl cs_spec ∅ ops !! k)) ∧
  (∀ b, starts_with b (ref_prefix inner) = false → get x'.1 b = get s b) ∧
  ∃ inputs, NoDup inputs ∧ Forall2 (sealed_with key (concat value_context)) inputs (written x ops).
Proof.
  intros Hwf Hnone Hn x x'. split; [|split].
  - intros k. apply encrypts_get, encrypts_run. split; [done|]. intros k'. by rewrite Hnone.
  - intros b Hb. by apply outside_run.
  - pose proof (insertions_length ops). eexists. split; [|apply (written_sealed ops x Hwf); simpl; lia]. apply counters_distinct. simpl. lia.
Qed.
End claims.

Section witnesses.
#[local] Existing Instances gmap_mkvs gmap_mkvs_laws toy_crypto.
(** A cipher that adds a tag and compares it. *)
#[local] Instance toy_store_crypto : StoreCrypto := {|
  deoxysii_seal key nonce m := x2a :: m;
  deoxysii_open key nonce c := match c with x2a :: m => Some m | _ => None end;
  nonce_kdf key := key;
  blake3 m := take 32 (m ++ replicate 32 x00)%list;
|}.
#[local] Instance toy_store_crypto_laws : StoreCryptoLaws.
Proof. split; [done|done|]. intros m. unfold blake3, toy_store_crypto. rewrite length_take, length_app, length_replicate. lia. Qed.

Definition cs_root : Store := MKVSStore ({[ [x02] := [x07] ]} : gmap bytes bytes).
Definition cs_inner_example : StoreRef := PrefixStore CurrentStore [x01].
Definition cs_ops : list CsOp := [CsInsert [x05] [x09]; CsInsert [x06] [x0a]; CsRemove [x06]; CsInsert [x05] [x0b]].
Definition cs_example : Store * ConfidentialStore := foldl cs_exec (cs_root, cs_new_with_key cs_inner_example [x04] [[x03]]) cs_ops.

Lemma confidential_store_refines_map_witness :
  cs_get cs_example.1 cs_example.2 [x05] = Ok (Some [x0b]) ∧ cs_get cs_example.1 cs_example.2 [x06] = Ok None ∧ get cs_example.1 [x02] = Some [x07].
Proof.
  destruct (confidential_store_refines_map cs_root cs_inner_example [x04] [[x03]] cs_ops) as (Hget & Hout & _).
  - exact I.
  - intros k. rewrite ref_get_key. apply (lookup_singleton_ne (M := gmap bytes)). discriminate.
  - vm_compute. discriminate.
  - unfold cs_example. rewrite !Hget. split; [vm_compute; reflexivity|]. split; [vm_compute; reflexivity|].
    rewrite Hout by reflexivity. vm_compute. reflexivity.
Defined.

(** The cursor of a prefix store gives full keys, which do not open: a confidential store over a prefix store reads a
    value that its iterator does not yield, although the iterator of the prefix store yields the entry, with a key that
    opens. *)
Definition cs_collect (x : Store * ConfidentialStore) : Outcome Empty_set (list (bytes * bytes)) :=
  match cs_iter x.1 x.2 with Ok it => @collect _ (di_ops it) (S (store_bound x.1)) (di_pos it) | Err e => Err e | Panic m => Panic m end.
Definition cs_empty : Store := MKVSStore (∅ : gmap bytes bytes).
Lemma confidential_prefix_iteration_empty :
  let x := cs_exec (cs_empty, cs_new_with_key cs_inner_example [x04] [[x03]]) (CsInsert [x05] [x09]) in
  cs_get x.1 x.2 [x05] = Ok (Some [x09]) ∧ cs_collect x = Ok [] ∧
  ∃ k v n n', ref_collect x.1 cs_inner_example = Ok [(k, v)] ∧ get_item x.2 k = inr (n, [x05]) ∧ get_item x.2 v = inr (n', [x09]).
Proof. vm_compute. split; [done|]. split; [done|]. eexists _, _, _, _. auto. Qed.
End witnesses.
End ConfidentialClaims.
