(* ===== verification/HostMemory.v ===== *)
(** The memory that a contract shares with its host: the engine that runs contracts, gas, regions of memory and
    their allocation (src/runtime-sdk/modules/contracts/src/abi/gas.rs and abi/oasis/memory.rs).

    The engine is the wasm3 library.  A run of a function of a contract is a tree: it ends with a result or a trap,
    or it calls a function of the host and goes on, with the instance that the host left behind, if that succeeds. *)
From S2P Require Import Prelude Endian Metering ContractTypes ValidModules.

Local Open Scope string_scope.

(** * The engine *)

(** A pair of a pointer and a length, as an argument. *)
Notation Arg := (N * N)%type.
(** The functions that the host links into an instance, called with their arguments. *)
Inductive HostFunction :=
  | StorageGet (store : N) (key : Arg)
  | StorageInsert (store : N) (key value : Arg)
  | StorageRemove (store : N) (key : Arg)
  | EnvQuery (query : Arg)
  | EnvAddressForInstance (instance_id : N) (dst : Arg)
  | CryptoEcdsaRecover (input output : Arg)
  | CryptoSignatureVerify (kind : N) (key context message signature : Arg)
  | CryptoRandomBytes (pers dst : Arg)
  | CryptoX25519DeriveSymmetric (public_key private_key output_key : Arg)
  | CryptoDeoxysiiSeal (key nonce message additional_data : Arg)
  | CryptoDeoxysiiOpen (key nonce message additional_data : Arg).

Inductive WasmRun (I : Type) :=
  | Returned (i : I) (result : N)
  | Trapped (i : I)
  | HostCall (i : I) (f : HostFunction) (k : I → N → WasmRun I).
Arguments Returned {I} i result.
Arguments Trapped {I} i.
Arguments HostCall {I} i f k.

Class Wasm3 := {
  Instance_ : Type;
  (** [parse_module] and [load_module] in a runtime with limits on stack and memory *)
  load_module : bytes → N → N → option Instance_;
  get_global : Instance_ → string → option N;
  set_global : Instance_ → string → N → option Instance_;
  (** [try_with_memory]: the linear memory, and what is left of the instance after writing to it *)
  memory : Instance_ → option bytes;
  set_memory : bytes → Instance_ → Instance_;
  (** [find_function] with so many arguments of 32 bits, and a run of it *)
  find_function : Instance_ → string → nat → bool;
  run_function : Instance_ → string → list N → WasmRun Instance_;
  (** the message of an error of the library *)
  wasm3_error : string;
}.
(** What the library documents of globals and memory: they are independent cells, and a memory has at most 65536 pages
    of 64 KiB. *)
Class Wasm3Laws `{Wasm3} : Prop := {
  get_set_global i i' n v : set_global i n v = Some i' → get_global i' n = Some v;
  get_set_global_ne i i' n n' v : n ≠ n' → set_global i n v = Some i' → get_global i' n' = get_global i n';
  memory_set_global i i' n v : set_global i n v = Some i' → memory i' = memory i;
  set_memory_memory i m0 m : memory i = Some m0 → length m = length m0 → memory (set_memory m i) = Some m;
  memory_limit i m : memory i = Some m → (N.of_nat (length m) ≤ 2 ^ 32)%N;
  set_memory_global i m n : get_global (set_memory m i) n = get_global i n;
}.

Section gas.
Context `{Wasm3}.

(** ** Gas of a running contract *)

Definition set_gas_limit (i : Instance_) (gas_limit : N) : ContractsError + Instance_ :=
  match set_global i EXPORT_GAS_LIMIT gas_limit with
  | Some i => inr i
  | None => inl (CtExecutionFailed wasm3_error)
  end.
Definition get_remaining_gas (i : Instance_) : N := default 0%N (get_global i EXPORT_GAS_LIMIT).
Definition get_exhausted_amount (i : Instance_) : N := default 0%N (get_global i EXPORT_GAS_LIMIT_EXHAUSTED).
(** [use_gas]: [None] is a trap. *)
Definition use_gas (i : Instance_) (amount : N) : option unit * Instance_ :=
  match get_global i EXPORT_GAS_LIMIT with
  | None => (None, i)
  | Some gas_limit =>
      if (gas_limit <? amount)%N then (None, default i (set_global i EXPORT_GAS_LIMIT_EXHAUSTED amount))
      else match set_global i EXPORT_GAS_LIMIT (gas_limit - amount) with
           | Some i => (Some tt, i)
           | None => (None, i)
           end
  end.
End gas.

(** * Regions *)

Record Region := { rg_offset : N; rg_length : N }.
Inductive RegionError := RegionTooBig | BadAllocationFunction | AllocationFailed | SizeMismatch | BadPointer.
Definition region_error_string (e : RegionError) : string :=
  match e with
  | RegionTooBig => "region too big"
  | BadAllocationFunction => "bad allocation function"
  | AllocationFailed => "region allocation failed"
  | SizeMismatch => "region size mismatch"
  | BadPointer => "bad region pointer"
  end.

Definition mem_size (memory : bytes) : N := N.of_nat (length memory).
(** The bytes of a memory from an offset on, and their replacement, for a range that lies in the memory. *)
Definition mem_slice (memory : bytes) (offset length : N) : bytes := take (N.to_nat length) (drop (N.to_nat offset) memory).
Definition mem_write (memory : bytes) (offset : N) (src : bytes) : bytes :=
  (take (N.to_nat offset) memory ++ src ++ drop (N.to_nat offset + length src) memory)%list.

Definition le_bytes32 (n : N) : bytes := rev (be_bytes32 n).
Definition from_le (b : bytes) : N := from_be (rev b).

Definition to_arg (r : Region) : Arg := (rg_offset r mod 2 ^ 32, rg_length r mod 2 ^ 32)%N.
Definition from_arg (arg : Arg) : Region := {| rg_offset := arg.1; rg_length := arg.2 |}.
Definition deref (memory : bytes) (arg : N) : RegionError + Region :=
  if (mem_size memory <? arg + 8)%N then inl BadPointer
  else
    let offset := from_le (mem_slice memory arg 4) in
    let length := from_le (mem_slice memory (arg + 4) 4) in
    if (mem_size memory <? offset + length)%N then inl BadPointer
    else inr {| rg_offset := offset; rg_length := length |}.
Definition copy_from_slice (r : Region) (memory src : bytes) : RegionError + bytes :=
  if negb (N.of_nat (length src) =? rg_length r)%N then inl SizeMismatch
  else if (mem_size memory <? rg_offset r + rg_length r)%N then inl BadPointer
  else inr (mem_write memory (rg_offset r) src).
Definition as_slice (r : Region) (memory : bytes) : RegionError + bytes :=
  if (mem_size memory <? rg_offset r + rg_length r)%N then inl BadPointer
  else inr (mem_slice memory (rg_offset r) (rg_length r)).
(** The slice to be written to is known by its length; the writing is [mem_write]. *)
Definition as_slice_mut (r : Region) (memory : bytes) : RegionError + N :=
  if (mem_size memory <? rg_offset r + rg_length r)%N then inl BadPointer else inr (rg_length r).
Definition serialize (r : Region) : bytes :=
  (le_bytes32 (rg_offset r mod 2 ^ 32) ++ le_bytes32 (rg_length r mod 2 ^ 32))%list.

(** ** Allocation in the memory of a contract *)

Section allocation.
Context `{Wasm3}.

(** A run without a context: every function of the host traps at once. *)
Definition run_plain (r : WasmRun Instance_) : option N * Instance_ :=
  match r with
  | Returned i v => (Some v, i)
  | Trapped i => (None, i)
  | HostCall i _ _ => (None, i)
  end.

Notation Alloc := (ST Instance_ RegionError).
(** [try_with_memory(..).unwrap()?] with a closure that may write. *)
Definition with_memory {A} (f : bytes → RegionError + A * bytes) : Alloc A :=
  i ← get_st;
  match memory i with
  | None => panic "called Result::unwrap on an Err value"
  | Some m => match f m with inl e => throw e | inr (a, m') => modify (set_memory m') ;; mret a end
  end.

Definition allocate (length : N) : Alloc Region :=
  if (u32_max <? length)%N then throw RegionTooBig
  else
    i ← get_st;
    if negb (find_function i EXPORT_ALLOCATE 1) then throw BadAllocationFunction
    else
      let '(r, i) := run_plain (run_function i EXPORT_ALLOCATE [length]) in
      modify (λ _, i) ;;
      offset ← ok_or r AllocationFailed;
      let region := {| rg_offset := offset; rg_length := length |} in
      with_memory (λ m, if (mem_size m <? rg_offset region + rg_length region)%N then inl BadPointer else inr (tt, m)) ;;
      mret region.
Definition allocate_and_copy (data : bytes) : Alloc Region :=
  dst ← allocate (N.of_nat (length data));
  with_memory (λ m, match copy_from_slice dst m data with inl e => inl e | inr m => inr (tt, m) end) ;;
  mret dst.
(** The data is serialized by the caller. *)
Definition serialize_and_allocate_as_ptr (data : bytes) : Alloc N :=
  outer ← allocate (N.of_nat (length data) + 8);
  let inner := {| rg_offset := rg_offset outer + 8; rg_length := rg_length outer - 8 |} in
  with_memory (λ m,
    match copy_from_slice inner m data with
    | inl e => inl e
    | inr m => inr (tt, mem_write m (rg_offset outer) (serialize inner))
    end) ;;
  mret (rg_offset outer mod 2 ^ 32)%N.
Definition allocate_region (region : Region) : Alloc N :=
  let data := serialize region in
  dst ← allocate (N.of_nat (length data));
  with_memory (λ m, match copy_from_slice dst m data with inl e => inl e | inr m => inr (tt, m) end) ;;
  mret (rg_offset dst mod 2 ^ 32)%N.
End allocation.
Notation Alloc := (ST Instance_ RegionError).

(** * Properties of regions *)

Lemma from_le_bytes32 n : (n ≤ u32_max)%N → from_le (le_bytes32 n) = n.
Proof.
  intros Hn. unfold from_le, le_bytes32. rewrite rev_involutive. unfold be_bytes32. rewrite from_be_bytes. apply N.mod_small.
  change (256 ^ N.of_nat 4)%N with (u32_max + 1)%N. lia.
Qed.
Lemma le_bytes32_length n : length (le_bytes32 n) = 4.
Proof. unfold le_bytes32. rewrite length_rev. apply be_bytes_length. Qed.
Lemma serialize_length r : length (serialize r) = 8.
Proof. unfold serialize. by rewrite length_app, !le_bytes32_length. Qed.

Lemma mem_write_length m o src : (o + N.of_nat (length src) ≤ mem_size m)%N → length (mem_write m o src) = length m.
Proof. intros Ho. unfold mem_write, mem_size in *. rewrite !length_app, length_take, length_drop. lia. Qed.
(** What was written is read back. *)
Lemma mem_slice_write m o src : (o + N.of_nat (length src) ≤ mem_size m)%N → mem_slice (mem_write m o src) o (N.of_nat (length src)) = src.
Proof.
  intros Ho. unfold mem_slice, mem_write, mem_size in *. rewrite Nat2N.id, drop_app_ge by (rewrite length_take; lia).
  rewrite length_take. replace (N.to_nat o - N.to_nat o `min` length m) with 0 by lia. simpl. apply take_app_length.
Qed.
(** A write leaves the rest alone. *)
Lemma mem_slice_before m o src o' n : (o + N.of_nat (length src) ≤ mem_size m)%N → (o' + n ≤ o)%N →
  mem_slice (mem_write m o src) o' n = mem_slice m o' n.
Proof.
  intros Ho Hn. unfold mem_slice, mem_write, mem_size in *.
  rewrite drop_app_le by (rewrite length_take; lia). rewrite take_app_le by (rewrite length_drop, length_take; lia).
  rewrite <-(take_drop (N.to_nat o) m) at 2. rewrite (drop_app_le (take _ _)) by (rewrite length_take; lia).
  rewrite take_app_le by (rewrite length_drop, length_take; lia). done.
Qed.
Lemma mem_slice_after m o src o' n : (o + N.of_nat (length src) ≤ mem_size m)%N → (o + N.of_nat (length src) ≤ o')%N →
  mem_slice (mem_write m o src) o' n = mem_slice m o' n.
Proof.
  intros Ho Hn. unfold mem_slice, mem_write, mem_size in *. f_equal.
  rewrite drop_app_ge by (rewrite length_take; lia). rewrite drop_app_ge by (rewrite length_take; lia).
  rewrite drop_drop, length_take. f_equal. lia.
Qed.
(** A slice in parts. *)
Lemma mem_slice_app (m a b : bytes) (o : N) : mem_slice m o (N.of_nat (length a + length b)) = (a ++ b)%list →
  mem_slice m o (N.of_nat (length a)) = a ∧ mem_slice m (o + N.of_nat (length a)) (N.of_nat (length b)) = b.
Proof.
  unfold mem_slice. rewrite !Nat2N.id. intros Hs. split.
  - apply (f_equal (take (length a))) in Hs. by rewrite take_take, take_app_length, Nat.min_l in Hs by lia.
  - apply (f_equal (drop (length a))) in Hs. rewrite drop_app_length in Hs.
    rewrite skipn_firstn_comm, drop_drop in Hs. rewrite N2Nat.inj_add, Nat2N.id.
    replace (length a + length b - length a) with (length b) in Hs by lia. exact Hs.
Qed.

(** A region that is written to memory in serialized form is found there. *)
Lemma deref_serialized m ptr r : (rg_offset r ≤ u32_max)%N → (rg_length r ≤ u32_max)%N → (rg_offset r + rg_length r ≤ mem_size m)%N →
  (ptr + 8 ≤ mem_size m)%N → mem_slice m ptr 8 = serialize r → deref m ptr = inr r.
Proof.
  intros Ho Hl Hr Hp Hs. unfold deref. destruct (N.ltb_spec (mem_size m) (ptr + 8)); [lia|].
  unfold serialize in Hs. rewrite !N.mod_small in Hs by (unfold u32_max in *; lia).
  set (a := le_bytes32 (rg_offset r)) in Hs. set (b := le_bytes32 (rg_length r)) in Hs.
  assert (Hla : length a = 4) by apply le_bytes32_length. assert (Hlb : length b = 4) by apply le_bytes32_length.
  destruct (mem_slice_app m a b ptr) as [Ha Hb]; [by rewrite Hla, Hlb|]. rewrite Hla in Ha, Hb. rewrite Hlb in Hb.
  change (N.of_nat 4) with 4%N in *. rewrite Ha, Hb. unfold a, b. rewrite !from_le_bytes32 by done.
  destruct (N.ltb_spec (mem_size m) (rg_offset r + rg_length r)); [lia|]. by destruct r.
Qed.

Section allocated.
Context `{Wasm3, !Wasm3Laws}.

Lemma with_memory_inv {A} (f : bytes → RegionError + A * bytes) i a i' : with_memory f i = (Ok a, i') →
  ∃ m m', memory i = Some m ∧ f m = inr (a, m') ∧ i' = set_memory m' i.
Proof.
  unfold with_memory. rewrite get_st_bind. destruct (memory i) as [m|]; [|done]. destruct (f m) as [e|[a' m']] eqn:Hf; [done|].
  intros [= <- <-]. eauto.
Qed.
Lemma copy_from_slice_inv r m src m' : copy_from_slice r m src = inr m' →
  N.of_nat (length src) = rg_length r ∧ (rg_offset r + rg_length r ≤ mem_size m)%N ∧ m' = mem_write m (rg_offset r) src.
Proof.
  unfold copy_from_slice. destruct (N.eqb_spec (N.of_nat (length src)) (rg_length r)); [|done]. simpl.
  destruct (N.ltb_spec (mem_size m) (rg_offset r + rg_length r)); [done|]. intros [= <-]. auto.
Qed.
(** What an allocation returns lies in memory. *)
Lemma allocate_inv n i r i' : allocate n i = (Ok r, i') →
  rg_length r = n ∧ (n ≤ u32_max)%N ∧ ∃ m, memory i' = Some m ∧ (rg_offset r + n ≤ mem_size m)%N.
Proof.
  unfold allocate. destruct (N.ltb_spec u32_max n); [done|]. rewrite get_st_bind. destruct (negb _); [done|].
  destruct (run_plain _) as [o i1]. intros (? & i2 & Hm & Hrun)%bind_ok_inv. injection Hm as <- <-.
  apply bind_ok_inv in Hrun as (off & i3 & Ho & Hrun). destruct o as [o|]; [|done]. injection Ho as <- <-.
  apply bind_ok_inv in Hrun as ([] & i4 & Hw & Hrun). injection Hrun as <- <-.
  apply with_memory_inv in Hw as (m & m' & Hm & Hf & ->). simpl in Hf.
  destruct (N.ltb_spec (mem_size m) (o + n)); [done|]. injection Hf as <-. simpl.
  split; [done|]. split; [done|]. exists m. split; [|done]. by eapply set_memory_memory.
Qed.
(** Slices of a memory, as a contract reads them. *)
Lemma as_slice_in r m : (rg_offset r + rg_length r ≤ mem_size m)%N → as_slice r m = inr (mem_slice m (rg_offset r) (rg_length r)).
Proof. intros Hr. unfold as_slice. by destruct (N.ltb_spec (mem_size m) (rg_offset r + rg_length r)); [lia|]. Qed.
End allocated.
