(* ===== verification/HostFunctions.v ===== *)
(** The functions that the host offers to contracts: storage, queries about the environment and cryptography
    (src/runtime-sdk/modules/contracts/src/store.rs and abi/oasis/{storage,env,crypto}.rs). *)
From S2P Require Import Prelude Endian Storage StoreIter Types Fee Errors State Current Transactions Module CallFormat Core.
From S2P Require Import Accounts Dispatcher Subcall Metering ContractTypes ValidModules ConfidentialStore HostMemory.

Local Open Scope string_scope.

(** * Stores of instances *)

Definition INSTANCE_STATE : bytes := [x05].
Definition CONFIDENTIAL_STORE_KEY_PAIR_ID_CONTEXT_BASE : bytes := str "oasis-runtime-sdk/contracts: state".
Definition CONTEXT_KEY_CONFIDENTIAL_STORE_INSTANCE_COUNT : string := "contracts.ConfidentialStoreCounter".

(** What the module uses of its surroundings: the serialization of requests and results, the key manager and the
    cryptography of contracts. *)
Class ContractsPlatform `{Platform} := {
  #[global] cp_query :: Cbor QueryRequest;
  #[global] cp_response :: Cbor QueryResponse;
  #[global] cp_context :: Cbor CallContext;
  #[global] cp_result :: Cbor ContractResult;
  #[global] cp_reply :: Cbor ContractReply;
  (** the message of an error of the deserialization *)
  cbor_error : string;
  (** [get_or_create_keys]: the state key of a key pair *)
  km_state_key : bytes → KeyManagerError + bytes;
  (** [from_bytes] of the public keys of a scheme (Ed25519, Secp256k1, Sr25519), and [verify_raw] *)
  public_key_from_bytes : N → bytes → option PublicKey;
  verify_raw : PublicKey → bytes → Signature → bool;
  (** the k256 library: whether [r] and [s] are a signature, [s] is high, and the key recovered from a digest with the
      recovery id *)
  k256_signature : bytes → bytes → bool;
  k256_is_high : bytes → bool;
  k256_recover : bytes → bytes → bytes → N → option (bytes_n 65);
  (** the key derivation after Diffie-Hellman of a public and a private key, and Deoxys-II with additional data *)
  x25519_kdf : bytes → bytes → bytes_n 32;
  deoxysii_seal_with : bytes → bytes → bytes → bytes → bytes;
  deoxysii_open_with : bytes → bytes → bytes → bytes → option bytes;
}.

(** ** The cryptography of the contract SDK (src/contract-sdk/crypto/src) *)

Inductive X25519Error := XMalformedPublicKey | XMalformedPrivateKey | XKeyDerivationFunctionFailure.
Inductive DeoxysiiError := DMalformedKey | DMalformedNonce | DDecryptionFailed.
Section crypto.
Context `{ContractsPlatform}.

(** [ecdsa::recover]; the kinds of its errors are not told apart by its callers. *)
Definition ecdsa_recover (input : bytes) : option bytes :=
  if negb (length input =? 97)%nat then None
  else
    let msg := take 32 input in
    let r := take 32 (drop 32 input) in
    let s := take 32 (drop 64 input) in
    let v := Byte.to_N (default x00 (input !! 96)) in
    if negb (k256_signature r s) then None
    else if k256_is_high s then None
    else if negb (v =? 0)%N && negb (v =? 1)%N then None
    else raw <$> k256_recover msg r s v.
Definition derive_symmetric (public_key private_key : bytes) : X25519Error + bytes :=
  if negb (length public_key =? 32)%nat then inl XMalformedPublicKey
  else if negb (length private_key =? 32)%nat then inl XMalformedPrivateKey
  else inr (raw (x25519_kdf public_key private_key)).
Definition crypto_deoxysii_seal (key nonce message additional_text : bytes) : DeoxysiiError + bytes :=
  if negb (length key =? 32)%nat then inl DMalformedKey
  else if negb (length nonce =? NONCE_SIZE)%nat then inl DMalformedNonce
  else inr (deoxysii_seal_with key nonce message additional_text).
Definition crypto_deoxysii_open (key nonce message additional_text : bytes) : DeoxysiiError + bytes :=
  if negb (length key =? 32)%nat then inl DMalformedKey
  else if negb (length nonce =? NONCE_SIZE)%nat then inl DMalformedNonce
  else match deoxysii_open_with key nonce message additional_text with Some m => inr m | None => inl DDecryptionFailed end.
End crypto.

(** The store of an instance: public ones have hashed keys. *)
Inductive InstanceStore := PublicInstanceStore (parent : StoreRef) | ConfidentialInstanceStore (cs : ConfidentialStore).

Section store.
Context `{Platform} `{!CallCrypto} `{!StoreCrypto} `{!VrfCrypto} `{!ContractsPlatform}.

Definition is_get {E} (st : InstanceStore) (key : bytes) : M E (option bytes) :=
  s ← store;
  match st with
  | PublicInstanceStore parent => mret (hs_get s parent key)
  | ConfidentialInstanceStore cs =>
      match cs_get s cs key with
      | Ok v => mret v
      | Err e => match e with end
      | Panic msg => panic msg
      end
  end.
Definition is_insert {E} (st : InstanceStore) (key value : bytes) : M E unit :=
  s ← store;
  put_store (match st with
             | PublicInstanceStore parent => hs_insert s parent key value
             | ConfidentialInstanceStore cs => (cs_insert s cs key value).1
             end).
Definition is_remove {E} (st : InstanceStore) (key : bytes) : M E unit :=
  s ← store;
  put_store (match st with
             | PublicInstanceStore parent => hs_remove s parent key
             | ConfidentialInstanceStore cs => cs_remove s cs key
             end).

(** The store that [with_instance_raw_store] runs its closure with. *)
Definition instance_state_ref (id : N) : StoreRef :=
  PrefixStore (PrefixStore (PrefixStore CurrentStore (str CONTRACTS_MODULE_NAME)) INSTANCE_STATE) (to_storage_key id).
Definition instance_raw_ref (i : ContractInstance) (kind : StoreKind) : StoreRef :=
  PrefixStore (instance_state_ref (inst_id i)) (store_kind_prefix kind).

(** The number of confidential stores that were instantiated in this block. *)
Definition next_instance_count {E} : M E N :=
  cnt ← value_or_default (V := N) Block CONTEXT_KEY_CONFIDENTIAL_STORE_INSTANCE_COUNT;
  value_set Block CONTEXT_KEY_CONFIDENTIAL_STORE_INSTANCE_COUNT (wrapping_add u64_max cnt 1) ;;
  mret cnt.
Definition le_bytes16 (n : N) : bytes := rev (be_bytes 2 n).
(** [with_instance_store]. *)
Definition with_instance_store {A} (stack : SubcallStack) (ctx : Ctx) (i : ContractInstance) (kind : StoreKind)
    (f : InstanceStore → M ContractsError A) : M ContractsError A :=
  match kind with
  | PublicStore => f (PublicInstanceStore (instance_raw_ref i kind))
  | ConfidentialKind =>
      let subcall_count := depth stack in
      instance_count ← next_instance_count;
      match ctx_key_manager ctx with
      | None => throw CtUnsupported
      | Some _ =>
          match km_state_key (key_pair_id [CONFIDENTIAL_STORE_KEY_PAIR_ID_CONTEXT_BASE; to_storage_key (inst_id i)]) with
          | inl err => throw (CtAbort (KeyManagerFailure (km_error_string err)))
          | inr key =>
              f (ConfidentialInstanceStore (cs_new_with_key (instance_raw_ref i kind) key
                   [le_bytes64 (ctx_round ctx); le_bytes16 subcall_count; le_bytes64 instance_count]))
          end
      end
  end.
End store.

(** * The host *)

(** [abi::ExecutionContext], but for the field [aborted], which changes while a contract runs. *)
Record ExecutionContext `{Platform} := {
  ec_tx_context : Ctx;
  ec_params : ContractsParameters;
  ec_code_info : Code;
  ec_instance_info : ContractInstance;
  ec_gas_limit : N;
  ec_caller_address : Address;
  ec_read_only : bool;
  ec_call_format : CallFormat;
}.
Record Host `{Platform} `{Wasm3} := { h_state : State; h_instance : Instance_; h_aborted : option ContractsError }.
(** [wasm3::Trap::Abort], into which all errors of the host are converted. *)
Inductive Trap := TrapAbort.
Notation HM := (ST Host).

Section host.
Context `{Platform} `{!TxCodec} `{!CallCrypto} `{!AccountsCodec} `{!StoreCrypto} `{!VrfCrypto} `{!ContractsPlatform} `{Wasm3}.
Variables (stack : SubcallStack) (ec : ExecutionContext).

Definition on_state {E A} (m : M E A) : HM E A := λ h,
  let '(r, s) := m (h_state h) in (r, {| h_state := s; h_instance := h_instance h; h_aborted := h_aborted h |}).
Definition on_instance {E A} (m : ST Instance_ E A) : HM E A := λ h,
  let '(r, i) := m (h_instance h) in (r, {| h_state := h_state h; h_instance := i; h_aborted := h_aborted h |}).
Definition set_aborted {E} (e : ContractsError) : HM E unit :=
  modify (λ h, {| h_state := h_state h; h_instance := h_instance h; h_aborted := Some e |}).
(** Fails with a trap, after setting the error to be reported instead. *)
Definition abort_with {A} (e : ContractsError) : HM Trap A := set_aborted e ;; throw TrapAbort.
Definition trap_of {E A} (m : HM E A) : HM Trap A := map_err (λ _, TrapAbort) m.

Definition host_use_gas (amount : N) : HM Trap unit :=
  on_instance (λ i, match use_gas i amount with (Some _, i) => (Ok tt, i) | (None, i) => (Err TrapAbort, i) end).
(** [try_with_memory(..)?]. *)
Definition get_memory : HM Trap bytes := h ← get_st; ok_or (memory (h_instance h)) TrapAbort.
Definition put_memory (m : bytes) : HM Trap unit := on_instance (modify (set_memory m)).
Definition region_slice (m : bytes) (arg : Arg) : HM Trap bytes :=
  match as_slice (from_arg arg) m with inl _ => throw TrapAbort | inr b => mret b end.
Definition region_slice_mut (m : bytes) (arg : Arg) : HM Trap N :=
  match as_slice_mut (from_arg arg) m with inl _ => throw TrapAbort | inr n => mret n end.

(** ** Storage *)

Definition ensure_key_size (size : N) : HM Trap unit :=
  if (max_storage_key_size_bytes (ec_params ec) <? size)%N
  then abort_with (CtStorageKeyTooLarge size (max_storage_key_size_bytes (ec_params ec))) else mret tt.
Definition ensure_value_size (size : N) : HM Trap unit :=
  if (max_storage_value_size_bytes (ec_params ec) <? size)%N
  then abort_with (CtStorageValueTooLarge size (max_storage_value_size_bytes (ec_params ec))) else mret tt.
(** The wrapper of [with_instance_store] in storage.rs, which propagates the error. *)
Definition host_instance_store {A} (kind : StoreKind) (f : InstanceStore → M ContractsError A) : HM Trap A :=
  r ← try_ (on_state (with_instance_store stack (ec_tx_context ec) (ec_instance_info ec) kind f));
  match r with
  | inl err => abort_with err
  | inr a => mret a
  end.

(** The gas for a base amount and a number of bytes, [None] on overflow. *)
Definition bytes_gas (base per_byte size : N) : option N := k ← checked_mul u64_max per_byte size; checked_add u64_max base k.

Definition storage_get (store : N) (key : Arg) : HM Trap N :=
  let gc := contracts_gas_costs (ec_params ec) in
  kind ← ok_or (store_kind_try_from store) TrapAbort;
  ensure_key_size key.2 ;;
  let '(base, key_base) := match kind with
    | PublicStore => (gc_wasm_public_storage_get_base gc, gc_wasm_public_storage_key_byte gc)
    | ConfidentialKind => (gc_wasm_confidential_storage_get_base gc, gc_wasm_confidential_storage_key_byte gc)
    end in
  total_gas ← ok_or (bytes_gas base key_base key.2) TrapAbort;
  host_use_gas total_gas ;;
  m ← get_memory;
  k ← region_slice m key;
  value ← host_instance_store kind (λ st, is_get st k);
  match value with
  | None => mret 0%N
  | Some value =>
      let value_byte_cost := match kind with
        | PublicStore => gc_wasm_public_storage_value_byte gc
        | ConfidentialKind => gc_wasm_confidential_storage_value_byte gc
        end in
      g ← ok_or (checked_mul u64_max value_byte_cost (N.of_nat (length value))) TrapAbort;
      host_use_gas g ;;
      value_region ← trap_of (on_instance (allocate_and_copy value));
      trap_of (on_instance (allocate_region value_region))
  end.

Definition storage_insert (store : N) (key value : Arg) : HM Trap unit :=
  let gc := contracts_gas_costs (ec_params ec) in
  kind ← ok_or (store_kind_try_from store) TrapAbort;
  ensure_key_size key.2 ;;
  ensure_value_size value.2 ;;
  let '(base, key_base, value_base) := match kind with
    | PublicStore => (gc_wasm_public_storage_insert_base gc, gc_wasm_public_storage_key_byte gc, gc_wasm_public_storage_value_byte gc)
    | ConfidentialKind =>
        (gc_wasm_confidential_storage_insert_base gc, gc_wasm_confidential_storage_key_byte gc, gc_wasm_confidential_storage_value_byte gc)
    end in
  total_gas ← ok_or (k ← checked_mul u64_max key_base key.2;
                     v ← checked_mul u64_max value_base value.2;
                     t ← checked_add u64_max base k;
                     checked_add u64_max t v) TrapAbort;
  host_use_gas total_gas ;;
  m ← get_memory;
  k ← region_slice m key;
  v ← region_slice m value;
  host_instance_store kind (λ st, is_insert st k v).

Definition storage_remove (store : N) (key : Arg) : HM Trap unit :=
  let gc := contracts_gas_costs (ec_params ec) in
  kind ← ok_or (store_kind_try_from store) TrapAbort;
  ensure_key_size key.2 ;;
  let '(base, key_base) := match kind with
    | PublicStore => (gc_wasm_public_storage_remove_base gc, gc_wasm_public_storage_key_byte gc)
    | ConfidentialKind => (gc_wasm_confidential_storage_remove_base gc, gc_wasm_confidential_storage_key_byte gc)
    end in
  total_gas ← ok_or (bytes_gas base key_base key.2) TrapAbort;
  host_use_gas total_gas ;;
  m ← get_memory;
  k ← region_slice m key;
  host_instance_store kind (λ st, is_remove st k).

(** ** Environment *)

Definition query_not_supported : QueryResponse := QueryError "" 1 "query not supported".
Definition dispatch_accounts_query {E} (query : AccountsQuery) : M E QueryResponse :=
  match query with
  | BalanceQuery address denomination =>
      balance ← get_balance address denomination;
      mret (BalanceResponse balance)
  | UnknownAccountsQuery => mret query_not_supported
  end.
Definition dispatch_env_query {E} (ctx : Ctx) (query : QueryRequest) : M E QueryResponse :=
  match query with
  | BlockInfoQuery => mret (BlockInfoResponse (ctx_round ctx) (ctx_epoch ctx) (ctx_now ctx))
  | AccountsQueryRequest query => dispatch_accounts_query query
  | UnknownQuery => mret query_not_supported
  end.
Definition env_query (query : Arg) : HM Trap N :=
  host_use_gas (gc_wasm_env_query_base (contracts_gas_costs (ec_params ec))) ;;
  m ← get_memory;
  q ← region_slice m query;
  if (max_query_size_bytes (ec_params ec) <? N.of_nat (length q))%N then throw TrapAbort
  else
    request ← ok_or (from_slice q) TrapAbort;
    result ← on_state (dispatch_env_query (ec_tx_context ec) request);
    trap_of (on_instance (serialize_and_allocate_as_ptr (to_vec result))).
(** [copy_from_slice] panics when the lengths of the slices differ. *)
Definition env_address_for_instance (instance_id : N) (dst : Arg) : HM Trap unit :=
  host_use_gas (gc_wasm_env_query_base (contracts_gas_costs (ec_params ec))) ;;
  m ← get_memory;
  len ← region_slice_mut m dst;
  let address := raw (address_for instance_id) in
  if (len =? N.of_nat (length address))%N then put_memory (mem_write m dst.1 address)
  else panic "source slice length does not match destination slice length".

(** ** Cryptography *)

Definition crypto_ecdsa_recover (input output : Arg) : HM Trap unit :=
  host_use_gas (gc_wasm_crypto_ecdsa_recover (contracts_gas_costs (ec_params ec))) ;;
  m ← get_memory;
  i ← region_slice m input;
  len ← region_slice_mut m output;
  if (len =? 65)%N
  then put_memory (mem_write m output.1 (match ecdsa_recover i with Some key => key | None => replicate 65 x00 end))
  else throw TrapAbort.

Definition get_key (m : bytes) (kind : N) (key : Arg) : HM Trap PublicKey :=
  region ← region_slice m key;
  ok_or (public_key_from_bytes kind region) TrapAbort.
Definition crypto_signature_verify (kind : N) (key context message signature : Arg) : HM Trap N :=
  let gc := contracts_gas_costs (ec_params ec) in
  if (max_crypto_signature_verify_message_size_bytes (ec_params ec) <? message.2)%N
  then abort_with (CtCryptoMsgTooLarge message.2 (max_crypto_signature_verify_message_size_bytes (ec_params ec)))
  else
    cost ← ok_or (match kind with
                  | 0 => Some (gc_wasm_crypto_signature_verify_ed25519 gc)
                  | 1 => Some (gc_wasm_crypto_signature_verify_secp256k1 gc)
                  | 2 => Some (gc_wasm_crypto_signature_verify_sr25519 gc)
                  | _ => None
                  end%N) TrapAbort;
    host_use_gas cost ;;
    m ← get_memory;
    k ← try_ (get_key m kind key);
    match k with
    | inl _ => abort_with CtCryptoMalformedPublicKey
    | inr k =>
        msg ← region_slice m message;
        sig ← region_slice m signature;
        if negb (context.1 =? 0)%N && negb (context.2 =? 0)%N && (kind =? 2)%N then
          c ← region_slice m context;
          mret (if verify_signature k c msg sig then 0%N else 1%N)
        else mret (if verify_raw k msg sig then 0%N else 1%N)
    end.

Definition crypto_random_bytes (pers dst : Arg) : HM Trap N :=
  let gc := contracts_gas_costs (ec_params ec) in
  let num_bytes := N.min dst.2 1024 in
  let cost := default u64_max (g ← checked_mul u64_max (gc_wasm_crypto_random_bytes_byte gc) (num_bytes + pers.2);
                               checked_add u64_max g (gc_wasm_crypto_random_bytes_base gc)) in
  host_use_gas cost ;;
  m ← get_memory;
  p ← region_slice m pers;
  rng ← on_state (with_rng_fork (ec_tx_context ec) p);
  match rng with
  | inl e => abort_with (CtExecutionFailed (to_string e))
  | inr rng =>
      len ← region_slice_mut m (dst.1, num_bytes);
      put_memory (mem_write m dst.1 (leaf_fill rng len)) ;;
      mret num_bytes
  end.

Definition crypto_x25519_derive_symmetric (public_key private_key output_key : Arg) : HM Trap N :=
  host_use_gas (gc_wasm_crypto_x25519_derive_symmetric (contracts_gas_costs (ec_params ec))) ;;
  m ← get_memory;
  public ← region_slice m public_key;
  private ← region_slice m private_key;
  len ← region_slice_mut m output_key;
  if negb (len =? 32)%N then throw TrapAbort
  else
    match derive_symmetric public private with
    | inl XMalformedPublicKey => abort_with CtCryptoMalformedPublicKey
    | inl XMalformedPrivateKey => abort_with CtCryptoMalformedPrivateKey
    | inl XKeyDerivationFunctionFailure => abort_with CtCryptoKeyDerivationFunctionFailure
    | inr derived =>
        if negb (len =? N.of_nat (length derived))%N then throw TrapAbort
        else put_memory (mem_write m output_key.1 derived) ;; mret 0%N
    end.

(** [deoxysii_factory]; the sum and product of a release build wrap around, and a failed decryption has no result. *)
Definition crypto_deoxysii (func : bytes → bytes → bytes → bytes → DeoxysiiError + bytes)
    (key nonce message additional_data : Arg) : HM Trap N :=
  let gc := contracts_gas_costs (ec_params ec) in
  host_use_gas (wrapping_add u64_max (gc_wasm_crypto_deoxysii_base gc)
                  ((gc_wasm_crypto_deoxysii_byte gc * (message.2 + additional_data.2)) mod 2 ^ 64)) ;;
  m ← get_memory;
  k ← region_slice m key;
  n ← region_slice m nonce;
  msg ← region_slice m message;
  ad ← region_slice m additional_data;
  match func k n msg ad with
  | inl DMalformedKey => abort_with CtCryptoMalformedKey
  | inl DMalformedNonce => abort_with CtCryptoMalformedNonce
  | inl DDecryptionFailed => mret 0%N
  | inr output =>
      output_region ← trap_of (on_instance (allocate_and_copy output));
      trap_of (on_instance (allocate_region output_region))
  end.

(** ** Runs with a context *)

Definition host_function (f : HostFunction) : HM Trap N :=
  match f with
  | StorageGet store key => storage_get store key
  | StorageInsert store key value => storage_insert store key value ;; mret 0%N
  | StorageRemove store key => storage_remove store key ;; mret 0%N
  | EnvQuery query => env_query query
  | EnvAddressForInstance instance_id dst => env_address_for_instance instance_id dst ;; mret 0%N
  | CryptoEcdsaRecover input output => crypto_ecdsa_recover input output ;; mret 0%N
  | CryptoSignatureVerify kind key context message signature => crypto_signature_verify kind key context message signature
  | CryptoRandomBytes pers dst => crypto_random_bytes pers dst
  | CryptoX25519DeriveSymmetric public_key private_key output_key => crypto_x25519_derive_symmetric public_key private_key output_key
  | CryptoDeoxysiiSeal key nonce message ad => crypto_deoxysii crypto_deoxysii_seal key nonce message ad
  | CryptoDeoxysiiOpen key nonce message ad => crypto_deoxysii crypto_deoxysii_open key nonce message ad
  end.
(** [call_with_context]: the trap of a function of the host ends the run. *)
Fixpoint run_with_context (r : WasmRun Instance_) : HM Trap N :=
  match r with
  | Returned i v => on_instance (modify (λ _, i)) ;; mret v
  | Trapped i => on_instance (modify (λ _, i)) ;; throw TrapAbort
  | HostCall i f k =>
      on_instance (modify (λ _, i)) ;;
      v ← host_function f;
      h ← get_st;
      run_with_context (k (h_instance h) v)
  end.
End host.
