(* ===== verification/Contracts.v ===== *)
(** The contracts module: uploading code, instantiating, calling and upgrading contracts, the messages that contracts
    emit and the replies to them, queries, and the module in a runtime (src/runtime-sdk/modules/contracts/src/{lib,code,results}.rs). *)
From S2P Require Import Prelude Endian Storage StoreIter Types Fee Errors State Current Transactions Module CallFormat Core.
From S2P Require Import Accounts Dispatcher Subcall Metering ContractTypes ValidModules ConfidentialStore HostMemory.
From S2P Require Import HostFunctions.

(** The Oasis V1 ABI: how the functions of a contract are called with a request and a context, what comes back, and the
    gas that it cost (src/runtime-sdk/modules/contracts/src/abi/oasis/mod.rs and wasm.rs). *)

Local Open Scope string_scope.

Definition GAS_SCALING_FACTOR : N := 1.

(** [wasm::Contract]. *)
Record Contract := { ct_code_info : Code; ct_code : bytes; ct_instance_info : ContractInstance }.

Section abi.
Context `{Platform} `{!TxCodec} `{!CallCrypto} `{!CoreConfig} `{!AccountsCodec} `{!StoreCrypto} `{!VrfCrypto} `{!ContractsPlatform} `{Wasm3}.
Variable stack : SubcallStack.

(** What a contract is told of its call; sub-version 0 knows neither of read-only calls nor of call formats. *)
Definition call_context (ec : ExecutionContext) (deposited_tokens : list BaseUnits) : CallContext :=
  let sv1 := (1 <=? code_abi_sv (ec_code_info ec))%N in
  {| cx_instance_id := inst_id (ec_instance_info ec);
     cx_instance_address := inst_address (ec_instance_info ec);
     cx_caller_address := ec_caller_address ec;
     cx_deposited_tokens := deposited_tokens;
     cx_read_only := if sv1 then ec_read_only ec else false;
     cx_call_format := if sv1 then ec_call_format ec else Plain |}.

Definition region_failed (e : RegionError) : ContractsError := CtExecutionFailed (region_error_string e).
(** [try_with_memory(..).unwrap()?] with a closure that only reads. *)
Definition read_memory {A} (f : bytes → ContractsError + A) : HM ContractsError A :=
  h ← get_st;
  match memory (h_instance h) with
  | None => panic "called Result::unwrap on an Err value"
  | Some m => match f m with inl e => throw e | inr a => mret a end
  end.

Definition raw_call_with_request_context (ec : ExecutionContext) (request : bytes) (deposited_tokens : list BaseUnits)
    (function_name : string) : HM ContractsError ExecutionOk :=
  context_dst ← map_err region_failed (on_instance (allocate_and_copy (to_vec (call_context ec deposited_tokens))));
  request_dst ← map_err region_failed (on_instance (allocate_and_copy request));
  h ← get_st;
  if negb (find_function (h_instance h) function_name 4) then throw (CtExecutionFailed wasm3_error)
  else
    result ← map_err (λ _, CtExecutionFailed wasm3_error)
      (run_with_context stack ec (run_function (h_instance h) function_name
         [(to_arg context_dst).1; (to_arg context_dst).2; (to_arg request_dst).1; (to_arg request_dst).2]));
    region ← read_memory (λ m, match deref m result with inl e => inl (region_failed e) | inr r => inr r end);
    if (max_result_size_bytes (ec_params ec) <? rg_length region mod 2 ^ 32)%N
    then throw (CtResultTooLarge (rg_length region mod 2 ^ 32) (max_result_size_bytes (ec_params ec)))
    else
      r ← read_memory (λ m,
            match as_slice region m with
            | inl e => inl (region_failed e)
            | inr data => match from_slice data with Some r => inr r | None => inl (CtExecutionFailed cbor_error) end
            end);
      match r with
      | ContractOk ok => mret ok
      | ContractFailed module code message =>
          throw (CtContract (contract_error_new (inst_code_id (ec_instance_info ec)) module code message))
      end.

(** The error that is reported instead of that of a failed call. *)
Definition report_error (initial_gas : N) (h : Host) (err : ContractsError) : ContractsError :=
  match h_aborted h with
  | Some aborted => aborted
  | None =>
      let exhausted_gas := get_exhausted_amount (h_instance h) in
      if negb (exhausted_gas =? 0)%N then
        let final_gas := get_remaining_gas (h_instance h) in
        CtCore (out_of_gas EMIT_GAS_USED_EVENTS initial_gas
                  (wrapping_add u64_max initial_gas (saturating_sub exhausted_gas final_gas)))
      else err
  end.
Definition call_with_request_context (ec : ExecutionContext) (request : bytes) (deposited_tokens : list BaseUnits)
    (function_name : string) : HM Empty_set ExecutionResult :=
  h ← get_st;
  let initial_gas := get_remaining_gas (h_instance h) in
  r ← try_ (raw_call_with_request_context ec request deposited_tokens function_name);
  h ← get_st;
  let inner := match r with inl err => inl (report_error initial_gas h err) | inr ok => inr ok end in
  let final_gas := get_remaining_gas (h_instance h) in
  mret {| er_inner := inner; er_gas_used := (saturating_sub initial_gas final_gas / GAS_SCALING_FACTOR)%N |}.

(** [Abi::set_gas_limit]. *)
Definition abi_set_gas_limit (i : Instance_) (gas_limit : N) : ContractsError + Instance_ :=
  set_gas_limit i (saturating_mul u64_max gas_limit GAS_SCALING_FACTOR).

(** [with_runtime]: loads the code, sets the gas limit and runs the function of the ABI on the instance. *)
Definition with_runtime (ec : ExecutionContext) (contract : Contract) (f : HM Empty_set ExecutionResult)
    : M Empty_set ExecutionResult := λ s,
  let failed e := (Ok {| er_inner := inl e; er_gas_used := 0 |}, s) in
  match load_module (ct_code contract) (max_stack_size (ec_params ec)) (max_memory_pages (ec_params ec)) with
  | None => failed CtModuleLoadingFailed
  | Some i =>
      match abi_set_gas_limit i (ec_gas_limit ec) with
      | inl e => failed e
      | inr i =>
          let '(r, h) := f {| h_state := s; h_instance := i; h_aborted := None |} in (r, h_state h)
      end
  end.

(** ** The entry points *)

Definition wasm_instantiate (ec : ExecutionContext) (contract : Contract) (c : Instantiate) : M Empty_set ExecutionResult :=
  with_runtime ec contract (call_with_request_context ec (ins_data c) (ins_tokens c) EXPORT_INSTANTIATE).
Definition wasm_call (ec : ExecutionContext) (contract : Contract) (c : ContractCall) : M Empty_set ExecutionResult :=
  with_runtime ec contract (call_with_request_context ec (cc_data c) (cc_tokens c) EXPORT_CALL).
Definition wasm_handle_reply (ec : ExecutionContext) (contract : Contract) (reply : ContractReply) : M Empty_set ExecutionResult :=
  with_runtime ec contract (call_with_request_context ec (to_vec reply) [] EXPORT_HANDLE_REPLY).
Definition wasm_pre_upgrade (ec : ExecutionContext) (contract : Contract) (u : Upgrade) : M Empty_set ExecutionResult :=
  with_runtime ec contract (call_with_request_context ec (ug_data u) (ug_tokens u) EXPORT_PRE_UPGRADE).
Definition wasm_post_upgrade (ec : ExecutionContext) (contract : Contract) (u : Upgrade) : M Empty_set ExecutionResult :=
  with_runtime ec contract (call_with_request_context ec (ug_data u) (ug_tokens u) EXPORT_POST_UPGRADE).
Definition wasm_query (ec : ExecutionContext) (contract : Contract) (data : bytes) : M Empty_set ExecutionResult :=
  with_runtime ec contract (call_with_request_context ec data [] EXPORT_QUERY).
End abi.

Local Open Scope string_scope.

(** * State *)

Definition NEXT_CODE_IDENTIFIER : bytes := [x01].
Definition NEXT_INSTANCE_IDENTIFIER : bytes := [x02].
Definition CODE_INFO : bytes := [x03].
Definition INSTANCE_INFO : bytes := [x04].
Definition CODE : bytes := [xff].

(** The derived encodings of what the module stores, configures and emits. *)
Class ContractsCodec `{Platform} := {
  #[global] ctc_parameters :: Cbor ContractsParameters;
  #[global] ctc_id :: Cbor N;
  #[global] ctc_code :: Cbor Code;
  #[global] ctc_instance :: Cbor ContractInstance;
  #[global] ctc_local_config :: CborValue ContractsLocalConfig;
  (** the value of [ContractEvent] *)
  contract_event_value : N → bytes → Value;
}.
(** The encodings of the arguments and results of its methods and queries. *)
Class ContractsBodies `{Platform} := {
  #[global] ctb_upload :: CborValue Upload;
  #[global] ctb_upload_result :: CborValue UploadResult;
  #[global] ctb_instantiate :: CborValue Instantiate;
  #[global] ctb_instantiate_result :: CborValue InstantiateResult;
  #[global] ctb_call :: CborValue ContractCall;
  #[global] ctb_call_result :: CborValue ContractCallResult;
  #[global] ctb_change_upgrade_policy :: CborValue ChangeUpgradePolicy;
  #[global] ctb_upgrade :: CborValue Upgrade;
  ctb_unit :: CborValue unit;
  #[global] ctb_code_query :: CborValue ContractCodeQuery;
  #[global] ctb_code :: CborValue Code;
  #[global] ctb_code_storage_query :: CborValue CodeStorageQuery;
  #[global] ctb_code_storage_result :: CborValue CodeStorageQueryResult;
  #[global] ctb_instance_query :: CborValue InstanceQuery;
  #[global] ctb_instance :: CborValue ContractInstance;
  #[global] ctb_instance_storage_query :: CborValue InstanceStorageQuery;
  #[global] ctb_instance_storage_result :: CborValue InstanceStorageQueryResult;
  #[global] ctb_instance_raw_storage_query :: CborValue InstanceRawStorageQuery;
  #[global] ctb_instance_raw_storage_result :: CborValue InstanceRawStorageQueryResult;
  #[global] ctb_public_key_query :: CborValue PublicKeyQuery;
  #[global] ctb_public_key_result :: CborValue PublicKeyQueryResult;
  #[global] ctb_custom_query :: CborValue CustomQuery;
  #[global] ctb_custom_result :: CborValue CustomQueryResult;
}.
(** Identifiers that were decoded are numbers of 64 bits. *)
Class ContractsBodiesLaws `{Platform, !ContractsBodies} : Prop := {
  ctb_instantiate_fits v (b : Instantiate) : from_value v = Some b → (ins_code_id b ≤ u64_max)%N;
  ctb_call_fits v (b : ContractCall) : from_value v = Some b → (cc_id b ≤ u64_max)%N;
  ctb_change_fits v (b : ChangeUpgradePolicy) : from_value v = Some b → (cup_id b ≤ u64_max)%N;
  ctb_upgrade_fits v (b : Upgrade) : from_value v = Some b → (ug_id b ≤ u64_max)%N ∧ (ug_code_id b ≤ u64_max)%N;
}.
(** The snap library: the frame format of Snappy; reading stops after a limit, if there is one. *)
Class Snap := {
  snap_encode : bytes → bytes;
  snap_decode : option N → bytes → option bytes;
}.
Class SnapLaws `{Snap} : Prop := {
  snap_roundtrip b : snap_decode None (snap_encode b) = Some b;
  snap_limit n b b' : snap_decode (Some n) b = Some b' → (N.of_nat (length b') ≤ n)%N;
}.
(** The lru library. *)
Class LruCache := {
  Lru : Type;
  (** a new cache of so many entries *)
  lru_new : N → Lru;
  lru_get : Lru → Hash → option bytes * Lru;
  lru_contains : Lru → Hash → bool;
  lru_put : Lru → Hash → bytes → Lru;
}.
(** A cache finds only what was put into it. *)
Class LruLaws `{LruCache} : Prop := {
  lru_get_new n h : (lru_get (lru_new n) h).1 = None;
  lru_get_put c h code h' code' : (lru_get (lru_put c h code) h').1 = Some code' → (h' = h ∧ code' = code) ∨ (lru_get c h').1 = Some code';
  lru_get_get c h h' code : (lru_get (lru_get c h).2 h').1 = Some code → (lru_get c h').1 = Some code;
}.

Section tables.
Context `{Platform} `{!ContractsCodec} `{!Snap} `{!LruCache}.

Definition contracts_store : StoreRef := PrefixStore CurrentStore (str CONTRACTS_MODULE_NAME).
Definition code_info_ref : StoreRef := PrefixStore contracts_store CODE_INFO.
Definition instance_info_ref : StoreRef := PrefixStore contracts_store INSTANCE_INFO.
Definition code_ref : StoreRef := PrefixStore contracts_store CODE.
Definition contracts_params {E} : M E ContractsParameters := params CONTRACTS_MODULE_NAME contracts_parameters_default.
Definition contracts_init {E} (parameters : ContractsParameters) : M E unit := set_params CONTRACTS_MODULE_NAME parameters.

Definition load_code_info (id : N) : M ContractsError Code :=
  o ← typed_get code_info_ref (to_storage_key id); ok_or o (CtCodeNotFound id).
Definition store_code_info {E} (code_info : Code) : M E unit :=
  typed_insert code_info_ref (to_storage_key (code_id code_info)) code_info.
Definition load_instance_info (id : N) : M ContractsError ContractInstance :=
  o ← typed_get instance_info_ref (to_storage_key id); ok_or o (CtInstanceNotFound id).
Definition store_instance_info {E} (instance_info : ContractInstance) : M E unit :=
  typed_insert instance_info_ref (to_storage_key (inst_id instance_info)) instance_info.
(** The assignment of the next identifier. *)
Definition next_identifier {E} (key : bytes) : M E N :=
  o ← typed_get (T := N) contracts_store key;
  let id := default 0%N o in
  typed_insert contracts_store key (id_increment id) ;;
  mret id.

(** ** Code *)

(** The cache at the start of the process. *)
Definition CODE_CACHE : Lru := lru_new 128.
Definition load_code_cached (cache : Lru) (code_info : Code) : M ContractsError (bytes * Lru) :=
  match lru_get cache (code_hash code_info) with
  | (Some code, cache) => mret (code, cache)
  | (None, cache) =>
      s ← store;
      code ← ok_or (ref_get s code_ref (to_storage_key (code_id code_info))) (CtCodeNotFound (code_id code_info));
      output ← expect (snap_decode None code) "called Result::unwrap on an Err value";
      mret (output, lru_put cache (code_hash code_info) output)
  end.
Definition store_code_cached (cache : Lru) (code_info : Code) (code : bytes) : M ContractsError Lru :=
  let cache := if lru_contains cache (code_hash code_info) then lru_put cache (code_hash code_info) code else cache in
  s ← store;
  put_store (ref_insert s code_ref (to_storage_key (code_id code_info)) (snap_encode code)) ;;
  mret cache.

(** The cache is shared by all threads of the process: what a handler finds in it is arbitrary. *)
Variable found : Code → Lru.
Definition load_code (code_info : Code) : M ContractsError bytes :=
  r ← load_code_cached (found code_info) code_info; mret r.1.
Definition store_code (code_info : Code) (code : bytes) : M ContractsError unit :=
  store_code_cached (found code_info) code_info code ;; mret tt.
End tables.

(** * Results of executions *)

Section contracts.
Context `{Platform} `{!TxCodec} `{!CallCrypto} `{!CoreCodec} `{!CoreConfig} `{!DispatchCodec} `{!AccountsCodec}.
Context `{!StoreCrypto} `{!VrfCrypto} `{!ContractsPlatform} `{!ContractsCodec} `{!Snap} `{!LruCache} `{Wasm3} `{Walrus}.
Variables (R : SubcallStack → Runtime) (stack : SubcallStack) (found : Code → Lru).

Definition ct_use_gas (gas : N) : M ContractsError unit := map_err CtCore (use_tx_gas gas).

Definition process_execution_result (result : ExecutionResult) : M ContractsError ExecutionOk :=
  ct_use_gas (er_gas_used result) ;;
  match er_inner result with inl e => throw e | inr ok => mret ok end.

Definition contract_event_tag (contract : Contract) (event : ContractsEvent) : EventTag :=
  etag_for_event (contract_module (code_id (ct_code_info contract)) (ev_module event)) (ev_code event)
    (contract_event_value (inst_id (ct_instance_info contract)) (ev_data event)).
Definition process_events {E} (contract : Contract) (events : list ContractsEvent) : M E unit :=
  for_each events (λ event, emit_event_raw (contract_event_tag contract event)).

(** The context in which a reply is handled, with the gas that is left to the transaction. *)
Definition reply_execution_context (ctx : Ctx) (params : ContractsParameters) (contract : Contract)
    (read_only : bool) (format : CallFormat) : M ContractsError ExecutionContext :=
  gas_limit ← remaining_tx_gas;
  caller ← with_tx_env env_tx_caller_address;
  mret {| ec_tx_context := ctx; ec_params := params; ec_code_info := ct_code_info contract;
          ec_instance_info := ct_instance_info contract; ec_gas_limit := gas_limit; ec_caller_address := caller;
          ec_read_only := read_only; ec_call_format := format |}.

Definition notifies (reply : NotifyReply) (success : bool) : bool :=
  match reply, success with
  | OnError, false | OnSuccess, true | Always, _ => true
  | _, _ => false
  end.

Section subcalls.
(** The processing of a successful execution, for replies. *)
Variable process : ExecutionOk → M ContractsError bytes.
Variables (ctx : Ctx) (params : ContractsParameters) (contract : Contract).

Definition process_message (orig_read_only : bool) (orig_call_format : CallFormat) (result_data : bytes)
    (msg : ContractMessage) : M ContractsError bytes :=
  match msg with
  | UnknownMessage => throw CtUnsupported
  | MessageCall id reply method body max_gas data =>
      remaining_gas ← remaining_tx_gas;
      let max_gas := default remaining_gas max_gas in
      let max_gas := if (remaining_gas <? max_gas)%N then remaining_gas else max_gas in
      result ← map_err CtCore (subcall R stack ctx
        {| sub_caller := CallerAddr (inst_address (ct_instance_info contract)); sub_method := method; sub_body := body;
           sub_max_depth := max_subcall_depth params; sub_max_gas := max_gas; sub_read_only := orig_read_only |} allow_all);
      ct_use_gas (sr_gas_used result) ;;
      let call_result := sr_call_result result in
      if notifies reply (is_success call_result) then
        ec ← reply_execution_context ctx params contract orig_read_only orig_call_format;
        reply_result ← lift (wasm_handle_reply stack ec contract (ReplyCall id (reply_result call_result) data));
        ok ← process_execution_result reply_result;
        data ← process ok;
        mret (if bool_decide (data = []) then result_data else data)
      else mret result_data
  end.
Definition process_subcalls (messages : list ContractMessage) (data : bytes) : M ContractsError bytes :=
  ct_use_gas (saturating_mul u64_max (gc_subcall_dispatch (contracts_gas_costs params)) (N.of_nat (length messages))) ;;
  if (u16_max <? N.of_nat (length messages))%N then throw (CtTooManySubcalls u16_max (max_subcall_count params))
  else if (max_subcall_count params <? N.of_nat (length messages))%N
  then throw (CtTooManySubcalls (N.of_nat (length messages)) (max_subcall_count params))
  else
    orig_call_format ← with_tx_env env_tx_call_format;
    orig_read_only ← with_tx_env env_is_read_only;
    fold_m messages data (process_message orig_read_only orig_call_format).
End subcalls.

(** [process_execution_success], which handles replies recursively; [stop] is what would happen at a depth of [fuel]. *)
Fixpoint process_success (stop : M ContractsError bytes) (fuel : nat) (ctx : Ctx) (params : ContractsParameters) (contract : Contract) (result : ExecutionOk)
    : M ContractsError bytes :=
  match fuel with
  | O => stop
  | S fuel =>
      process_events contract (ok_events result) ;;
      process_subcalls (process_success stop fuel ctx params contract) ctx params contract (ok_messages result) (ok_data result)
  end.
(** The gas limit of the transaction: every reply follows a message that was paid for out of it. *)
Definition tx_gas_limit (s : State) : N := from_option (λ ai, fee_gas (ai_fee ai)) 0%N (env_tx_auth_info (st_env s)).
Definition reply_fuel (params : ContractsParameters) (gas : N) : nat :=
  let cost := gc_subcall_dispatch (contracts_gas_costs params) in
  S (N.to_nat (if (cost =? 0)%N then gas else gas / cost)).
Definition process_execution_success (ctx : Ctx) (params : ContractsParameters) (contract : Contract) (result : ExecutionOk)
    : M ContractsError bytes :=
  limit ← gets tx_gas_limit; process_success (panic "out of fuel") (reply_fuel params limit) ctx params contract result.

(** * Transactions *)

(** Tokens that are attached to a call. *)
Definition transfer_attached (from to : Address) (tokens : list BaseUnits) : M ContractsError unit :=
  for_each tokens (λ a, map_err (λ _, CtInsufficientCallerBalance) (transfer from to a)).
(** The context of a call of the transaction. *)
Definition tx_execution_context (ctx : Ctx) (params : ContractsParameters) (contract : Contract) (caller : Address)
    : M ContractsError ExecutionContext :=
  gas_limit ← remaining_tx_gas;
  read_only ← with_tx_env env_is_read_only;
  format ← with_tx_env env_tx_call_format;
  mret {| ec_tx_context := ctx; ec_params := params; ec_code_info := ct_code_info contract;
          ec_instance_info := ct_instance_info contract; ec_gas_limit := gas_limit; ec_caller_address := caller;
          ec_read_only := read_only; ec_call_format := format |}.
Definition enforce_policy (p : ContractPolicy) (caller : Address) : M ContractsError unit :=
  match enforce p caller with inl e => throw e | inr _ => mret tt end.

(** The record of uploaded code. *)
Definition upload_code_info (body : Upload) (uploader : Address) (id : N) (code : bytes) (abi_sv : N) : Code :=
  {| code_id := id; code_hash := digest [code]; code_abi := up_abi body; code_abi_sv := abi_sv; code_uploader := uploader;
     code_instantiate_policy := up_instantiate_policy body |}.
(** The identifier of the code; zero is the default result of a check. *)
Definition tx_upload (ctx : Ctx) (body : Upload) : M ContractsError N :=
  params ← contracts_params;
  let gc := contracts_gas_costs params in
  uploader ← with_tx_env env_tx_caller_address;
  let len := N.of_nat (length (up_code body)) in
  if (u32_max <? len)%N then throw (CtCodeTooLarge u32_max (max_code_size params))
  else if (max_code_size params <? len)%N then throw (CtCodeTooLarge len (max_code_size params))
  else
    ct_use_gas (gc_tx_upload gc) ;;
    ct_use_gas (saturating_mul u64_max (gc_tx_upload_per_byte gc) len) ;;
    code ← ok_or (snap_decode (Some (max_code_size params)) (up_code body)) CtCodeMalformed;
    plain_code_size ← expect (if (N.of_nat (length code) <=? u32_max)%N then Some (N.of_nat (length code)) else None)
                        "called Result::unwrap on an Err value";
    ct_use_gas (saturating_mul u64_max (gc_tx_upload_per_byte gc) (saturating_sub plain_code_size len)) ;;
    execute ← should_execute_contracts ctx;
    if negb execute then mret 0%N
    else
      match validate_and_transform code (up_abi body) params with
      | inl e => throw e
      | inr (None, _) => panic "instrumentation does not terminate"
      | inr (Some code, abi_sv) =>
          let size := N.of_nat (length code) in
          if (u32_max <? size)%N then throw (CtCodeTooLarge u32_max (max_code_size params))
          else if (max_code_size params <? size)%N then throw (CtCodeTooLarge size (max_code_size params))
          else
            ct_use_gas (saturating_mul u64_max (gc_tx_upload_per_byte gc) (saturating_sub size plain_code_size)) ;;
            id ← next_identifier NEXT_CODE_IDENTIFIER;
            let code_info := upload_code_info body uploader id code abi_sv in
            store_code found code_info code ;;
            store_code_info code_info ;;
            mret id
      end.

Definition tx_instantiate (ctx : Ctx) (body : Instantiate) : M ContractsError N :=
  params ← contracts_params;
  creator ← with_tx_env env_tx_caller_address;
  ct_use_gas (gc_tx_instantiate (contracts_gas_costs params)) ;;
  execute ← should_execute_contracts ctx;
  if negb execute then mret 0%N
  else
    code_info ← load_code_info (ins_code_id body);
    enforce_policy (code_instantiate_policy code_info) creator ;;
    code ← load_code found code_info;
    id ← next_identifier NEXT_INSTANCE_IDENTIFIER;
    let instance_info := {| inst_id := id; inst_code_id := ins_code_id body; inst_creator := creator;
                            inst_upgrades_policy := ins_upgrades_policy body |} in
    store_instance_info instance_info ;;
    transfer_attached creator (inst_address instance_info) (ins_tokens body) ;;
    let contract := {| ct_code_info := code_info; ct_code := code; ct_instance_info := instance_info |} in
    ec ← tx_execution_context ctx params contract creator;
    result ← lift (wasm_instantiate stack ec contract body);
    ok ← process_execution_result result;
    process_execution_success ctx params contract ok ;;
    mret id.

Definition contracts_tx_call (ctx : Ctx) (body : ContractCall) : M ContractsError bytes :=
  params ← contracts_params;
  caller ← with_tx_env env_tx_caller_address;
  ct_use_gas (gc_tx_call (contracts_gas_costs params)) ;;
  execute ← should_execute_contracts ctx;
  if negb execute then mret []
  else
    instance_info ← load_instance_info (cc_id body);
    code_info ← load_code_info (inst_code_id instance_info);
    code ← load_code found code_info;
    transfer_attached caller (inst_address instance_info) (cc_tokens body) ;;
    let contract := {| ct_code_info := code_info; ct_code := code; ct_instance_info := instance_info |} in
    ec ← tx_execution_context ctx params contract caller;
    result ← lift (wasm_call stack ec contract body);
    ok ← process_execution_result result;
    process_execution_success ctx params contract ok.

Definition tx_change_upgrade_policy (ctx : Ctx) (body : ChangeUpgradePolicy) : M ContractsError unit :=
  params ← contracts_params;
  caller ← with_tx_env env_tx_caller_address;
  ct_use_gas (gc_tx_change_upgrade_policy (contracts_gas_costs params)) ;;
  check_only ← with_env is_check_only;
  if (check_only : bool) then mret tt
  else
    i ← load_instance_info (cup_id body);
    enforce_policy (inst_upgrades_policy i) caller ;;
    store_instance_info {| inst_id := inst_id i; inst_code_id := inst_code_id i; inst_creator := inst_creator i;
                           inst_upgrades_policy := cup_upgrades_policy body |}.

Definition tx_upgrade (ctx : Ctx) (body : Upgrade) : M ContractsError unit :=
  params ← contracts_params;
  caller ← with_tx_env env_tx_caller_address;
  ct_use_gas (gc_tx_upgrade (contracts_gas_costs params)) ;;
  execute ← should_execute_contracts ctx;
  if negb execute then mret tt
  else
    i ← load_instance_info (ug_id body);
    enforce_policy (inst_upgrades_policy i) caller ;;
    if (inst_code_id i =? ug_code_id body)%N then throw (CtCodeAlreadyUpgraded (ug_code_id body))
    else
      code_info ← load_code_info (inst_code_id i);
      code ← load_code found code_info;
      transfer_attached caller (inst_address i) (ug_tokens body) ;;
      let contract := {| ct_code_info := code_info; ct_code := code; ct_instance_info := i |} in
      ec ← tx_execution_context ctx params contract caller;
      result ← lift (wasm_pre_upgrade stack ec contract body);
      process_execution_result result ;;
      let i := {| inst_id := inst_id i; inst_code_id := ug_code_id body; inst_creator := inst_creator i;
                  inst_upgrades_policy := inst_upgrades_policy i |} in
      code_info ← load_code_info (inst_code_id i);
      code ← load_code found code_info;
      store_instance_info i ;;
      let contract := {| ct_code_info := code_info; ct_code := code; ct_instance_info := i |} in
      ec ← tx_execution_context ctx params contract caller;
      result ← lift (wasm_post_upgrade stack ec contract body);
      process_execution_result result ;;
      mret tt.

(** * Queries *)

Definition query_code (id : N) : M ContractsError Code := load_code_info id.
Definition query_code_storage (id : N) : M ContractsError bytes :=
  code_info ← load_code_info id; load_code found code_info.
Definition query_contract_instance (id : N) : M ContractsError ContractInstance := load_instance_info id.
Definition query_instance_storage (ctx : Ctx) (id : N) (key : bytes) : M ContractsError (option bytes) :=
  instance_info ← load_instance_info id;
  with_instance_store stack ctx instance_info PublicStore (λ st, is_get st key).
(** The items of a store, with the digests in front of their keys removed. *)
Definition raw_items (limit offset : N) (l : list (bytes * bytes)) : list (bytes * bytes) :=
  take (N.to_nat limit) (drop (N.to_nat offset)
    (prod_map (drop 32) id <$> filter (λ x : bytes * bytes, (32 ≤ length x.1)%nat) l)).
Definition query_instance_raw_storage (ctx : Ctx) (id : N) (kind : StoreKind) (limit offset : option N)
    : M ContractsError (list (bytes * bytes)) :=
  cfg ← local_config ctx CONTRACTS_MODULE_NAME;
  let cfg := default contracts_local_config_default cfg in
  let limit := N.min (default u64_max limit) (max_instance_raw_storage_query_items cfg) in
  let offset := default 0%N offset in
  instance_info ← load_instance_info id;
  s ← store;
  match ref_collect s (instance_raw_ref instance_info kind) with
  | Ok l => mret (raw_items limit offset l)
  | Err e => match e with end
  | Panic msg => panic msg
  end.
Definition query_public_key : M ContractsError PublicKeyQueryResult := throw CtUnsupported.
Definition query_custom (ctx : Ctx) (id : N) (data : bytes) : M ContractsError bytes :=
  params ← contracts_params;
  instance_info ← load_instance_info id;
  code_info ← load_code_info (inst_code_id instance_info);
  code ← load_code found code_info;
  cfg ← local_config ctx CONTRACTS_MODULE_NAME;
  let cfg := default contracts_local_config_default cfg in
  let contract := {| ct_code_info := code_info; ct_code := code; ct_instance_info := instance_info |} in
  let ec := {| ec_tx_context := ctx; ec_params := params; ec_code_info := code_info; ec_instance_info := instance_info;
               ec_gas_limit := query_custom_max_gas cfg; ec_caller_address := address_default; ec_read_only := true;
               ec_call_format := Plain |} in
  result ← lift (wasm_query stack ec contract data);
  match er_inner result with inl e => throw e | inr ok => mret (ok_data ok) end.

(** * The module *)

Context `{!ContractsBodies}.
Definition contracts_dispatch_call (ctx : Ctx) (method : string) (body : Value) : M Empty_set (DispatchResult Value CallResult) :=
  if bool_decide (method = "contracts.Upload")
  then dispatch_call_with body (λ b, id ← tx_upload ctx b; mret {| upr_id := id |})
  else if bool_decide (method = "contracts.Instantiate")
  then dispatch_call_with body (λ b, id ← tx_instantiate ctx b; mret {| inr_id := id |})
  else if bool_decide (method = "contracts.Call")
  then dispatch_call_with body (λ b, data ← contracts_tx_call ctx b; mret {| ccr_data := data |})
  else if bool_decide (method = "contracts.ChangeUpgradePolicy") then dispatch_call_with body (tx_change_upgrade_policy ctx)
  else if bool_decide (method = "contracts.Upgrade") then dispatch_call_with body (tx_upgrade ctx)
  else mret (Unhandled body).
Definition contracts_dispatch_query (ctx : Ctx) (method : string) (args : Value)
    : M Empty_set (DispatchResult Value (RuntimeError + Value)) :=
  if bool_decide (method = "contracts.Code") then dispatch_query_with args (λ q, query_code (ctq_code_id q))
  else if bool_decide (method = "contracts.CodeStorage")
  then dispatch_query_with args (λ q, code ← query_code_storage (ctq_storage_code_id q); mret {| csr_code := code |})
  else if bool_decide (method = "contracts.Instance") then dispatch_query_with args (λ q, query_contract_instance (ctq_instance_id q))
  else if bool_decide (method = "contracts.InstanceStorage")
  then dispatch_query_with args (λ q, v ← query_instance_storage ctx (isq_id q) (isq_key q); mret {| isr_value := v |})
  else if bool_decide (method = "contracts.InstanceRawStorage")
  then dispatch_query_with args (λ q,
         l ← query_instance_raw_storage ctx (irq_id q) (irq_store_kind q) (irq_limit q) (irq_offset q); mret {| irr_items := l |})
  else if bool_decide (method = "contracts.PublicKey") then dispatch_query_with args (λ _ : PublicKeyQuery, query_public_key)
  else if bool_decide (method = "contracts.Custom")
  then dispatch_query_with args (λ q, data ← query_custom ctx (cuq_id q) (cuq_data q); mret {| cur_data := data |})
  else mret (Unhandled args).
(** The module has no handlers of transactions, blocks and invariants of its own. *)
Definition contracts_handlers : Handlers := {|
  prefetch := prefetch default_handlers;
  dispatch_call := contracts_dispatch_call;
  dispatch_query := contracts_dispatch_query;
  dispatch_message_result := dispatch_message_result default_handlers;
  is_expensive_query method := bool_decide (method = "contracts.InstanceRawStorage") || bool_decide (method = "contracts.Custom");
  is_allowed_private_km_query := is_allowed_private_km_query default_handlers;
  is_allowed_interactive_call method := bool_decide (method = "contracts.Call");
  approve_raw_tx := approve_raw_tx default_handlers;
  approve_unverified_tx := approve_unverified_tx default_handlers;
  decode_tx := decode_tx default_handlers;
  authenticate_tx := authenticate_tx default_handlers;
  before_handle_call := before_handle_call default_handlers;
  before_authorized_call_dispatch := before_authorized_call_dispatch default_handlers;
  after_handle_call := after_handle_call default_handlers;
  after_dispatch_tx := after_dispatch_tx default_handlers;
  begin_block := begin_block default_handlers;
  end_block := end_block default_handlers;
  check_invariants := check_invariants default_handlers;
|}.
End contracts.

(** * Runtimes with the module *)

Definition with_modules `{Platform} (rt : Runtime) (modules : Handlers) : Runtime := {|
  rt_modules := modules;
  rt_init_or_migrate := rt_init_or_migrate rt; rt_migrate_state := rt_migrate_state rt; STATE_VERSION := STATE_VERSION rt;
  PREFETCH_LIMIT := PREFETCH_LIMIT rt; SCHEDULE_CONTROL := SCHEDULE_CONTROL rt; rt_is_allowed_query := rt_is_allowed_query rt;
  rt_is_allowed_private_km_query := rt_is_allowed_private_km_query rt |}.
(** Where the bound on nested subcalls is exceeded. *)
Definition exhausted_handlers `{Platform} : Handlers := {|
  prefetch := prefetch default_handlers;
  dispatch_call _ _ _ := panic "out of fuel";
  dispatch_query := dispatch_query default_handlers;
  dispatch_message_result := dispatch_message_result default_handlers;
  is_expensive_query := is_expensive_query default_handlers;
  is_allowed_private_km_query := is_allowed_private_km_query default_handlers;
  is_allowed_interactive_call := is_allowed_interactive_call default_handlers;
  approve_raw_tx := approve_raw_tx default_handlers;
  approve_unverified_tx := approve_unverified_tx default_handlers;
  decode_tx := decode_tx default_handlers;
  authenticate_tx := authenticate_tx default_handlers;
  before_handle_call := before_handle_call default_handlers;
  before_authorized_call_dispatch := before_authorized_call_dispatch default_handlers;
  after_handle_call := after_handle_call default_handlers;
  after_dispatch_tx := after_dispatch_tx default_handlers;
  begin_block := begin_block default_handlers;
  end_block := end_block default_handlers;
  check_invariants := check_invariants default_handlers;
|}.
(** A runtime in which the module stands between others, all of which make subcalls to that runtime again: its behaviour up to
    [n] nested subcalls.  The stack of a subcall is that of its caller with one more validator. *)
Section runtime.
Context `{Platform} `{!TxCodec} `{!CallCrypto} `{!CoreCodec} `{!CoreConfig} `{!DispatchCodec} `{!AccountsCodec}.
Context `{!StoreCrypto} `{!VrfCrypto} `{!ContractsPlatform} `{!ContractsCodec} `{!ContractsBodies} `{!Snap} `{!LruCache} `{Wasm3} `{Walrus}.
Variables (rt : Runtime) (front back : (SubcallStack → Runtime) → SubcallStack → list Handlers) (found : Code → Lru).
Fixpoint contracts_runtime (n : nat) (stack : SubcallStack) : Runtime :=
  with_modules rt match n with
  | O => exhausted_handlers
  | S n => compose (front (contracts_runtime n) stack ++ contracts_handlers (contracts_runtime n) stack found :: back (contracts_runtime n) stack)
  end.
End runtime.
