(* ===== verification/Isolation.v ===== *)
(** Contracts are isolated: whatever code a contract runs, it changes nothing of the state of the runtime but the
    entries of its own instance, and it uses no more gas than it was given
    (src/runtime-sdk/modules/contracts/src/store.rs, wasm.rs and abi/oasis). *)
From S2P Require Import Prelude Endian Storage StoreIter Types Fee Errors State Current Transactions Module Tables CallFormat.
From S2P Require Import Core Gas Accounts Dispatcher Dispatch Subcall Metering ContractTypes ValidModules ConfidentialStore.
From S2P Require Import HostMemory HostFunctions Contracts.

(** The keys of an instance. *)
Definition instance_prefix (id : N) : bytes := ref_prefix (instance_state_ref id).

Section isolated.
Context `{Platform} `{!MKVSLaws}.

(** What an execution leaves of a state. *)
Record isolated (id : N) (s s' : State) : Prop := {
  iso_frame : frame s s';
  iso_store : outside (instance_prefix id) s s';
  iso_events : st_events s' = st_events s;
  iso_unconditional : st_unconditional_events s' = st_unconditional_events s;
  iso_messages : st_messages s' = st_messages s;
  iso_local : st_local_values s' = st_local_values s;
  iso_block k : k ≠ CONTEXT_KEY_CONFIDENTIAL_STORE_INSTANCE_COUNT → st_block_values s' !! k = st_block_values s !! k;
}.
Lemma isolated_refl id s : ready s → isolated id s s.
Proof. intros Hr. by constructor; [apply frame_refl|..]. Qed.
Lemma isolated_trans id s1 s2 s3 : isolated id s1 s2 → isolated id s2 s3 → isolated id s1 s3.
Proof.
  intros [] []. constructor; first [congruence|by eapply frame_trans|by eapply outside_trans|intros k Hk; by rewrite iso_block1, iso_block0].
Qed.

(** Computations on the state and on the host that are isolated, however they end. *)
Definition isolates (id : N) {E A} (m : M E A) : Prop := ∀ s, ready s → isolated id s (m s).2.
Lemma isolates_bind id {E A B} (m : M E A) (f : A → M E B) : isolates id m → (∀ a, isolates id (f a)) → isolates id (m ≫= f).
Proof.
  intros Hm Hf s Hs. unfold mbind, ST_bind. specialize (Hm s Hs). destruct (m s) as [[a|e|p] s']; simpl in *; [|done..].
  eapply isolated_trans; [exact Hm|]. apply Hf, (iso_frame _ _ _ Hm).
Qed.
Lemma isolates_reads id {E A} (m : M E A) : reads m → isolates id m.
Proof. intros Hm s Hs. rewrite Hm. by apply isolated_refl. Qed.
Lemma isolates_map_err id {E E' A} (g : E → E') (m : M E A) : isolates id m → isolates id (map_err g m).
Proof. intros Hm s Hs. specialize (Hm s Hs). unfold map_err. by destruct (m s) as [[]]. Qed.

(** A write of an entry of the instance. *)
Lemma isolates_write id {E} (f : Store → Store) :
  (∀ st, store_wf st → is_Some (overlay_base st) →
     store_wf (f st) ∧ overlay_base (f st) = overlay_base st ∧
     ∀ k, starts_with k (instance_prefix id) = false → get (f st) k = get st k) →
  isolates id (E := E) (st ← store; put_store (f st)).
Proof.
  intros Hf s Hs. pose proof Hs as (Hr & st & Hst & Hwf & Hb). unfold store, put_store. run_simpl. rewrite Hst. simpl.
  destruct (Hf st Hwf Hb) as (Hwf' & Hb' & Hk). constructor; try done.
  - by apply (framed_put_store (E := E)); [|done|rewrite Hst].
  - intros k Hk'. unfold at_key. simpl. rewrite Hst. simpl. by apply Hk.
Qed.
Lemma prefixed_write id r k (v : option bytes) st : starts_with (ref_prefix r) (instance_prefix id) = true →
  store_wf st → is_Some (overlay_base st) →
  let st' := match v with Some v => ref_insert st r k v | None => ref_remove st r k end in
  store_wf st' ∧ overlay_base st' = overlay_base st ∧ ∀ b, starts_with b (instance_prefix id) = false → get st' b = get st b.
Proof.
  intros [rest Hp]%starts_with_iff Hwf Hb. cbv zeta.
  assert (∀ b, starts_with b (instance_prefix id) = false → (ref_prefix r ++ k)%list ≠ b) as Hne.
  { intros b Hb' <-. rewrite Hp, <-app_assoc, starts_with_app in Hb'. done. }
  destruct v as [v|].
  - rewrite ref_insert_key. split; [by apply insert_wf|]. split; [destruct st; [by destruct Hb|done]|].
    intros b Hb'. rewrite get_insert, decide_False; [done|by apply Hne].
  - rewrite ref_remove_key. split; [by apply remove_wf|]. split; [destruct st; [by destruct Hb|]; simpl; by case_decide|].
    intros b Hb'. rewrite get_remove, decide_False; [done|by apply Hne|done].
Qed.

Context `{!CallCrypto} `{!StoreCrypto} `{!VrfCrypto} `{!ContractsPlatform}.

(** A store whose entries are those of the instance. *)
Definition store_of (id : N) (st : InstanceStore) : Prop :=
  match st with
  | PublicInstanceStore parent => starts_with (ref_prefix parent) (instance_prefix id) = true
  | ConfidentialInstanceStore cs => starts_with (ref_prefix (cs_inner cs)) (instance_prefix id) = true
  end.
Lemma isolates_is_get id {E} st k : isolates id (is_get (E := E) st k).
Proof.
  apply isolates_reads. intros s. unfold is_get, store. run_simpl. case_run.
Qed.
Lemma isolates_is_insert id {E} st k v : store_of id st → isolates id (is_insert (E := E) st k v).
Proof.
  intros Hst. apply isolates_write. intros s Hwf Hb. destruct st as [parent|cs]; simpl in *.
  - by apply (prefixed_write id parent (hashed_key k) (Some v)).
  - by apply (prefixed_write id (cs_inner cs) (make_key cs k).2 (Some (make_value cs v).1.2)).
Qed.
Lemma isolates_is_remove id {E} st k : store_of id st → isolates id (is_remove (E := E) st k).
Proof.
  intros Hst. apply isolates_write. intros s Hwf Hb. destruct st as [parent|cs]; simpl in *.
  - by apply (prefixed_write id parent (hashed_key k) None).
  - by apply (prefixed_write id (cs_inner cs) (make_key cs k).2 None).
Qed.
Lemma isolates_instance_count id {E} : isolates id (next_instance_count (E := E)).
Proof.
  intros s Hs. unfold next_instance_count, value_or_default, value_set, downcast. run_simpl. simpl.
  assert (∀ vs, (∀ k, k ≠ CONTEXT_KEY_CONFIDENTIAL_STORE_INSTANCE_COUNT → vs !! k = st_block_values s !! k) →
    isolated id s (set_block_values vs s)) as Hset.
  { intros vs Hvs. by constructor. }
  destruct (_ !! _) as [v|] eqn:Hv; simpl.
  - destruct v; simpl; try by apply isolated_refl. apply Hset. intros k Hk. by rewrite lookup_insert_ne.
  - apply (Hset _). intros k Hk. simpl. by rewrite !lookup_insert_ne.
Qed.
Lemma isolates_with_instance_store {A} stack ctx i kind (f : InstanceStore → M ContractsError A) :
  (∀ st, store_of (inst_id i) st → isolates (inst_id i) (f st)) →
  isolates (inst_id i) (with_instance_store stack ctx i kind f).
Proof.
  assert (∀ k, starts_with (ref_prefix (instance_raw_ref i k)) (instance_prefix (inst_id i)) = true) as Hp.
  { intros k. apply starts_with_app. }
  intros Hf. unfold with_instance_store. destruct kind; [by apply Hf, Hp|].
  apply isolates_bind; [apply isolates_instance_count|]. intros n.
  destruct (ctx_key_manager ctx); [|by apply isolates_reads]. destruct (km_state_key _); [by apply isolates_reads|].
  apply Hf, Hp.
Qed.
Lemma isolates_rng_fork id {E} ctx pers : isolates id (with_rng_fork (E := E) ctx pers).
Proof.
  intros s Hs. unfold with_rng_fork. run_simpl. destruct (st_rng s) as [r|] eqn:Hr; [|by apply isolated_refl]. simpl.
  pose proof Hs as (_ & Hst). by constructor.
Qed.
End isolated.

(** * The host *)

Section host.
Context `{Platform} `{!MKVSLaws} `{!TxCodec} `{!CallCrypto} `{!AccountsCodec} `{!StoreCrypto} `{!VrfCrypto} `{!ContractsPlatform} `{Wasm3}.
Variables (stack : SubcallStack) (ec : ExecutionContext).
Notation id := (inst_id (ec_instance_info ec)).

Definition shielded {E A} (m : HM E A) : Prop := ∀ h, ready (h_state h) → isolated id (h_state h) (h_state (m h).2).

Lemma shielded_bind {E A B} (m : HM E A) (f : A → HM E B) : shielded m → (∀ a, shielded (f a)) → shielded (m ≫= f).
Proof.
  intros Hm Hf h Hs. unfold mbind, ST_bind. specialize (Hm h Hs). destruct (m h) as [[a|e|p] h']; simpl in *; [|done..].
  eapply isolated_trans; [exact Hm|]. apply Hf, (iso_frame _ _ _ Hm).
Qed.
(** Commands that do not touch the state at all. *)
Lemma shielded_same {E A} (m : HM E A) : (∀ h, h_state (m h).2 = h_state h) → shielded m.
Proof. intros Hm h Hs. rewrite Hm. by apply isolated_refl. Qed.
Lemma shielded_ret {E A} (a : A) : shielded (E := E) (mret a).
Proof. by apply shielded_same. Qed.
Lemma shielded_throw {E A} (e : E) : shielded (A := A) (throw e).
Proof. by apply shielded_same. Qed.
Lemma shielded_panic {E A} msg : shielded (E := E) (A := A) (panic msg).
Proof. by apply shielded_same. Qed.
Lemma shielded_get_st {E} : shielded (E := E) get_st.
Proof. by apply shielded_same. Qed.
Lemma shielded_ok_or {E A} (o : option A) (e : E) : shielded (ok_or o e).
Proof. apply shielded_same. by destruct o. Qed.
Lemma shielded_set_aborted {E} e : shielded (E := E) (set_aborted e).
Proof. by apply shielded_same. Qed.
Lemma shielded_on_instance {E A} (m : ST Instance_ E A) : shielded (on_instance m).
Proof. apply shielded_same. intros h. unfold on_instance. by destruct (m (h_instance h)). Qed.
Lemma shielded_map_err {E E' A} (g : E → E') (m : HM E A) : shielded m → shielded (map_err g m).
Proof. intros Hm h Hs. specialize (Hm h Hs). unfold map_err. by destruct (m h) as [[]]. Qed.
Lemma shielded_try {E E' A} (m : HM E A) : shielded m → shielded (try_ (E' := E') m).
Proof. intros Hm h Hs. specialize (Hm h Hs). unfold try_. by destruct (m h) as [[]]. Qed.
Lemma shielded_on_state {E A} (m : M E A) : isolates id m → shielded (on_state m).
Proof. intros Hm h Hs. specialize (Hm (h_state h) Hs). unfold on_state. by destruct (m (h_state h)). Qed.
End host.

Create HintDb shielded discriminated.
#[export] Hint Resolve shielded_ret shielded_throw shielded_panic shielded_get_st shielded_ok_or shielded_set_aborted
  shielded_on_instance : shielded.
Ltac shielded_step :=
  match goal with
  | |- shielded _ (mbind _ _) => apply shielded_bind
  | |- shielded _ (map_err _ _) => apply shielded_map_err
  | |- shielded _ (try_ _) => apply shielded_try
  | |- shielded _ (trap_of _) => apply shielded_map_err
  | |- ∀ _, _ => intros ?
  | |- shielded _ (match ?x with _ => _ end) => destruct x
  end.
Ltac solve_shielded := repeat (first [solve [eauto 3 with shielded nocore] | shielded_step]).

Section functions.
Context `{Platform} `{!MKVSLaws} `{!TxCodec} `{!CallCrypto} `{!CoreConfig} `{!AccountsCodec} `{!StoreCrypto} `{!VrfCrypto} `{!ContractsPlatform} `{Wasm3}.
Variables (stack : SubcallStack) (ec : ExecutionContext).

Lemma shielded_abort {A} e : shielded ec (abort_with (A := A) e).
Proof. unfold abort_with. solve_shielded. Qed.
Lemma shielded_use_gas n : shielded ec (host_use_gas n).
Proof. apply shielded_on_instance. Qed.
Lemma shielded_get_memory : shielded ec get_memory.
Proof. unfold get_memory. solve_shielded. Qed.
Lemma shielded_put_memory m : shielded ec (put_memory m).
Proof. apply shielded_on_instance. Qed.
Lemma shielded_slice m a : shielded ec (region_slice m a).
Proof. unfold region_slice. solve_shielded. Qed.
Lemma shielded_slice_mut m a : shielded ec (region_slice_mut m a).
Proof. unfold region_slice_mut. solve_shielded. Qed.
Hint Resolve shielded_abort shielded_use_gas shielded_get_memory shielded_put_memory shielded_slice shielded_slice_mut : shielded.
Lemma shielded_instance_store {A} kind (f : InstanceStore → M ContractsError A) :
  (∀ st, store_of (inst_id (ec_instance_info ec)) st → isolates (inst_id (ec_instance_info ec)) (f st)) →
  shielded ec (host_instance_store stack ec kind f).
Proof.
  intros Hf. unfold host_instance_store. apply shielded_bind; [|solve_shielded].
  by apply shielded_try, shielded_on_state, isolates_with_instance_store.
Qed.
Lemma shielded_key_size n : shielded ec (ensure_key_size ec n).
Proof. unfold ensure_key_size. solve_shielded. Qed.
Lemma shielded_value_size n : shielded ec (ensure_value_size ec n).
Proof. unfold ensure_value_size. solve_shielded. Qed.
Hint Resolve shielded_key_size shielded_value_size : shielded.

Lemma shielded_storage_get st k : shielded ec (storage_get stack ec st k).
Proof.
  assert (∀ kind b, shielded ec (host_instance_store stack ec kind (λ st, is_get st b))).
  { intros. apply shielded_instance_store. intros. apply isolates_is_get. }
  unfold storage_get. solve_shielded.
Qed.
Lemma shielded_storage_insert st k v : shielded ec (storage_insert stack ec st k v).
Proof.
  assert (∀ kind b c, shielded ec (host_instance_store stack ec kind (λ st, is_insert st b c))).
  { intros. apply shielded_instance_store. intros. by apply isolates_is_insert. }
  unfold storage_insert. solve_shielded.
Qed.
Lemma shielded_storage_remove st k : shielded ec (storage_remove stack ec st k).
Proof.
  assert (∀ kind b, shielded ec (host_instance_store stack ec kind (λ st, is_remove st b))).
  { intros. apply shielded_instance_store. intros. by apply isolates_is_remove. }
  unfold storage_remove. solve_shielded.
Qed.
Lemma shielded_env_query q : shielded ec (env_query ec q).
Proof.
  assert (∀ r, shielded ec (on_state (E := Trap) (dispatch_env_query (ec_tx_context ec) r))).
  { intros r. apply shielded_on_state, isolates_reads. destruct r as [|[]|]; [apply reads_ret| |apply reads_ret..].
    apply reads_bind; [|intros; apply reads_ret]. unfold get_balance. apply reads_bind; [apply reads_typed_get|intros; apply reads_ret]. }
  unfold env_query. solve_shielded.
Qed.
Lemma shielded_random pers dst : shielded ec (crypto_random_bytes ec pers dst).
Proof.
  assert (∀ p, shielded ec (on_state (E := Trap) (with_rng_fork (ec_tx_context ec) p))).
  { intros p. apply shielded_on_state, isolates_rng_fork. }
  unfold crypto_random_bytes. solve_shielded.
Qed.
Lemma shielded_host_function f : shielded ec (host_function stack ec f).
Proof.
  pose proof shielded_storage_get. pose proof shielded_storage_insert. pose proof shielded_storage_remove.
  pose proof shielded_env_query. pose proof shielded_random.
  destruct f; simpl; unfold env_address_for_instance, crypto_ecdsa_recover, crypto_signature_verify, get_key,
    crypto_x25519_derive_symmetric, crypto_deoxysii; solve_shielded.
Qed.
Lemma shielded_run r : shielded ec (run_with_context stack ec r).
Proof.
  pose proof shielded_host_function. induction r as [i v|i|i f k IH]; simpl; solve_shielded.
Qed.
Lemma shielded_call request tokens name : shielded ec (call_with_request_context stack ec request tokens name).
Proof.
  pose proof shielded_run. unfold call_with_request_context, raw_call_with_request_context, read_memory. solve_shielded.
Qed.
(** A run of a function of a contract on a fresh instance. *)
Lemma isolates_with_runtime contract f : shielded ec f → isolates (inst_id (ec_instance_info ec)) (with_runtime ec contract f).
Proof.
  intros Hf s Hs. unfold with_runtime. destruct (load_module _ _ _) as [i|]; [|by apply isolated_refl].
  destruct (abi_set_gas_limit i _) as [e|i']; [by apply isolated_refl|].
  specialize (Hf {| h_state := s; h_instance := i'; h_aborted := None |} Hs). by destruct (f _).
Qed.

(** ** Gas *)

Context `{!Wasm3Laws}.
Lemma div_scaling n : (n / GAS_SCALING_FACTOR)%N = n.
Proof. apply N.div_1_r. Qed.
(** An execution reports no more gas than it was given. *)
Lemma call_gas_used i request tokens name s a r h : (get_remaining_gas i ≤ a)%N →
  call_with_request_context stack ec request tokens name {| h_state := s; h_instance := i; h_aborted := None |} = (Ok r, h) →
  (er_gas_used r ≤ a)%N.
Proof.
  intros Hi Hrun. unfold call_with_request_context in Hrun. rewrite get_st_bind in Hrun.
  apply bind_ok_inv in Hrun as (r' & h' & _ & Hrun). rewrite get_st_bind in Hrun. injection Hrun as <- _. simpl.
  rewrite div_scaling. unfold saturating_sub. lia.
Qed.
Lemma runtime_gas_used contract request tokens name s r s' :
  with_runtime ec contract (call_with_request_context stack ec request tokens name) s = (Ok r, s') →
  (er_gas_used r ≤ ec_gas_limit ec)%N.
Proof.
  unfold with_runtime. destruct (load_module _ _ _) as [i|]; [|intros [= <- _]; simpl; lia].
  unfold abi_set_gas_limit, set_gas_limit. destruct (set_global i _ _) as [i'|] eqn:Hi; [|intros [= <- _]; simpl; lia].
  destruct (call_with_request_context _ _ _ _ _ _) as [o h] eqn:Hrun. intros [= -> _].
  apply (call_gas_used _ _ _ _ _ (ec_gas_limit ec) _ _) in Hrun; [done|].
  unfold get_remaining_gas. rewrite (get_set_global _ _ _ _ Hi). simpl. unfold saturating_mul, GAS_SCALING_FACTOR. lia.
Qed.
End functions.

(** What the host guarantees to contracts about memory and storage, and what it does not
    (src/runtime-sdk/modules/contracts/src/store.rs and abi/oasis). *)

Local Open Scope string_scope.

Section host_data.
Context `{Wasm3, !Wasm3Laws}.

(** The memory after data and the region of it were written behind a pointer. *)
Lemma as_ptr_memory data i ptr i' : serialize_and_allocate_as_ptr data i = (Ok ptr, i') →
  ∃ m m', memory i' = Some m' ∧ (ptr + 8 + N.of_nat (length data) ≤ mem_size m)%N ∧ (mem_size m ≤ 2 ^ 32)%N ∧
    (N.of_nat (length data) ≤ u32_max)%N ∧ mem_size m' = mem_size m ∧
    m' = mem_write (mem_write m (ptr + 8) data) ptr (serialize {| rg_offset := ptr + 8; rg_length := N.of_nat (length data) |}).
Proof.
  unfold serialize_and_allocate_as_ptr. intros (outer & i1 & Ha & Hrun)%bind_ok_inv.
  apply allocate_inv in Ha as (Hlen & Hfit & m & Hm & Hin). pose proof (memory_limit _ _ Hm) as Hlim.
  apply bind_ok_inv in Hrun as ([] & i2 & Hw & Hrun). injection Hrun as <- <-.
  apply with_memory_inv in Hw as (m0 & m' & Hm0 & Hf & ->). simplify_eq.
  destruct (copy_from_slice _ _ _) as [e|m1] eqn:Hc; [done|]. injection Hf as <-.
  apply copy_from_slice_inv in Hc as (Hdl & Hdin & ->). cbn [rg_offset rg_length] in *. rewrite Hlen in *.
  unfold mem_size in *. rewrite N.mod_small by lia.
  replace (N.of_nat (length data) + 8 - 8)%N with (N.of_nat (length data)) in * by lia.
  assert (Hl1 : length (mem_write m (rg_offset outer + 8) data) = length m) by (apply mem_write_length; unfold mem_size; lia).
  match goal with |- ∃ _ m', memory (set_memory ?x _) = _ ∧ _ => assert (Hl2 : length x = length m) end.
  { rewrite mem_write_length; [done|]. rewrite serialize_length. unfold mem_size. rewrite Hl1. lia. }
  eexists m, _. split; [by eapply set_memory_memory|]. rewrite Hl2. split_and!; try done; lia.
Qed.
End host_data.

Section nonces.
Context `{Platform} `{!MKVSLaws} `{!CallCrypto} `{!StoreCrypto} `{!VrfCrypto} `{!ContractsPlatform}.

(** Accesses to the stores of instances, as the functions of the host make them, each with a store of its own. *)
Inductive StoreAccess := AccessGet (key : bytes) | AccessInsert (key value : bytes) | AccessRemove (key : bytes).
Definition access_op (op : StoreAccess) (st : InstanceStore) : M ContractsError unit :=
  match op with
  | AccessGet key => is_get st key ;; mret tt
  | AccessInsert key value => is_insert st key value
  | AccessRemove key => is_remove st key
  end.
Definition access (stack : SubcallStack) (ctx : Ctx) (x : ContractInstance * StoreKind * StoreAccess) : M ContractsError unit :=
  with_instance_store stack ctx x.1.1 x.1.2 (access_op x.2).
Fixpoint confidential_accesses (l : list (ContractInstance * StoreKind * StoreAccess)) : N :=
  match l with
  | [] => 0
  | x :: l => (match x.1.2 with ConfidentialKind => 1 | PublicStore => 0 end + confidential_accesses l)%N
  end.

Lemma framed_access stack ctx x : framed (access stack ctx x).
Proof.
  intros s Hs. apply (iso_frame (inst_id x.1.1)). apply isolates_with_instance_store; [|done]. intros st Hst.
  destruct x.2; [|by apply isolates_is_insert|by apply isolates_is_remove].
  apply isolates_bind; [apply isolates_is_get|]. intros. by apply isolates_reads.
Qed.

(** The counter of confidential stores: in a subcall it starts anew, and every access to one counts. *)
Notation counted := (holds_n Block CONTEXT_KEY_CONFIDENTIAL_STORE_INSTANCE_COUNT).
Lemma counted_opened tx s r : counted (opened (subcall_options tx) s r) 0%N.
Proof. by exists None. Qed.
Lemma instance_count_run {E} s n : counted s n → (n < u64_max)%N →
  ∃ s', next_instance_count (E := E) s = (Ok n, s') ∧ counted s' (n + 1)%N ∧ st_store s' = st_store s.
Proof.
  intros (o & Ho & ->) Hn. unfold next_instance_count. rewrite (bind_ok _ _ _ _ _ (value_or_default_run _ _ _ _ Ho)).
  change (default any_default o) with (default 0%N o). eexists. split; [done|]. rewrite wrapping_add_small by lia. split; [|by destruct o].
  eexists (Some _). split; [apply holds_value_set|done].
Qed.
Lemma access_op_counts op st s s' n : counted s n → access_op op st s = (Ok tt, s') → counted s' n.
Proof.
  intros Hc. destruct op; unfold access_op, is_get, is_insert, is_remove, store; run_simpl; intros Hr; case_run; injection Hr as <-; exact Hc.
Qed.
Lemma access_counts stack ctx x s s' n : counted s n → (n + 1 ≤ u64_max)%N → access stack ctx x s = (Ok tt, s') →
  counted s' (n + confidential_accesses [x])%N.
Proof.
  intros Hc Hn Hrun. destruct x as [[i kind] op]. unfold access, with_instance_store in Hrun. cbn [fst snd] in Hrun.
  destruct kind; simpl; [rewrite !N.add_0_r; by eapply access_op_counts|].
  destruct (instance_count_run (E := ContractsError) s n Hc ltac:(lia)) as (s1 & Hcount & Hc1 & _).
  rewrite (bind_ok _ _ _ _ _ Hcount) in Hrun. destruct (ctx_key_manager ctx); [|done]. destruct (km_state_key _); [done|].
  by eapply access_op_counts.
Qed.
Lemma accesses_count stack ctx l s s' n : counted s n → (n + confidential_accesses l < u64_max)%N →
  for_each l (access stack ctx) s = (Ok tt, s') → counted s' (n + confidential_accesses l)%N.
Proof.
  revert s n. induction l as [|x l IH]; intros s n Hc Hn Hrun; simpl in *; [injection Hrun as <-; by rewrite N.add_0_r|].
  apply bind_ok_inv in Hrun as ([] & s1 & Hx & Hrun). apply access_counts with (n := n) in Hx; [|done|lia]. simpl in Hx.
  rewrite N.add_assoc. apply (IH s1); [by rewrite N.add_0_r in Hx|lia|done].
Qed.

(** The first value that is written to a confidential store. *)
Lemma is_insert_confidential {E} cs k v s st : st_store s = Some st →
  ∃ s', is_insert (E := E) (ConfidentialInstanceStore cs) k v s = (Ok tt, s') ∧
    at_key s' (ref_prefix (cs_inner cs) ++ (make_key cs k).2)%list = Some (make_value cs v).1.2.
Proof.
  intros Hst. unfold is_insert, store. unfold mbind, ST_bind. simpl. rewrite Hst. eexists. split; [done|].
  unfold at_key. simpl. rewrite ref_insert_key, get_insert, decide_True by done. done.
Qed.
End nonces.

Module HostClaims.
Section claims.

(** C30. Data that the host passes by a pointer is what the contract reads: however the contract allocates memory, when
    the host has placed the serialized data behind a pointer, following the pointer gives a region in memory that holds
    exactly that data. *)
Theorem host_data_roundtrip `{Wasm3, !Wasm3Laws} (data : bytes) (i i' : Instance_) (ptr : N) :
  serialize_and_allocate_as_ptr data i = (Ok ptr, i') →
  ∃ m r, memory i' = Some m ∧ deref m ptr = inr r ∧ as_slice r m = inr data.
Proof.
  intros (m & m' & Hm' & Hin & Hlim & Hfit & Hsz & ->)%as_ptr_memory. set (m1 := mem_write m _ _) in *.
  assert (Hs1 : mem_size m1 = mem_size m). { unfold m1. unfold mem_size at 1. by rewrite mem_write_length by lia. }
  assert (Hd : mem_slice m1 (ptr + 8) (N.of_nat (length data)) = data) by (apply mem_slice_write; lia).
  remember (N.of_nat (length data)) as len eqn:Hlen. set (w := serialize _) in *.
  assert (Hw : length w = 8) by apply serialize_length.
  set (r := {| rg_offset := (ptr + 8) mod 2 ^ 32; rg_length := len |}).
  assert (Hser : serialize r = w). { unfold w, serialize. simpl. by rewrite N.Div0.mod_mod. }
  assert (Hoff : ((ptr + 8) mod 2 ^ 32 = ptr + 8 ∨ (ptr + 8) mod 2 ^ 32 = 0 ∧ len = 0)%N).
  { destruct (decide (ptr + 8 = 2 ^ 32)%N) as [Heq|Hne]; [right; rewrite Heq; split; [done|lia]|left; apply N.mod_small; lia]. }
  assert (Hlt : ((ptr + 8) mod 2 ^ 32 ≤ u32_max)%N). { pose proof (N.mod_lt (ptr + 8) (2 ^ 32) ltac:(done)). unfold u32_max. lia. }
  eexists _, r. split; [exact Hm'|]. split.
  - apply deref_serialized; cbn [rg_offset rg_length r]; [done|lia|rewrite Hsz; lia|rewrite Hsz; lia|].
    rewrite Hser. replace 8%N with (N.of_nat (length w)) by lia. apply mem_slice_write. rewrite Hs1, Hw. lia.
  - rewrite as_slice_in by (simpl; rewrite Hsz; lia). f_equal. simpl. destruct Hoff as [->|[-> Hl]].
    + by rewrite mem_slice_after by (rewrite ?Hs1, Hw; lia).
    + rewrite Hl. unfold mem_slice. simpl. by destruct data; [|simpl in *; lia].
Qed.

End claims.
End HostClaims.
