(* ===== verification/ContractsGas.v ===== *)
(** The gas of contracts: what an execution reports can always be charged, and the replies to the messages of a contract
    come to an end because every message is paid for
    (src/runtime-sdk/modules/contracts/src/results.rs and lib.rs). *)
From S2P Require Import Prelude Endian Storage StoreIter Types Fee Errors State Current Transactions Module Tables CallFormat.
From S2P Require Import Core Gas Accounts Dispatcher Dispatch Subcall Metering ContractTypes ValidModules ConfidentialStore.
From S2P Require Import HostMemory HostFunctions Contracts Isolation.

Section metered.
Context `{Platform} `{!MKVSLaws} `{!CoreCodec} `{!CoreConfig}.

(** A state in the middle of a transaction, with what it has used of its limits. *)
Record metered (ai : AuthInfo) (p : CoreParameters) (m : Meter) (s : State) : Prop := {
  mt_env : env_tx_auth_info (st_env s) = Some ai;
  mt_params : has_core_params s p;
  mt_meter : meter_of s m;
  mt_within : within (fee_gas (ai_fee ai)) (max_batch_gas_param p) m;
}.
(** Limits of 64 bits. *)
Definition limits_fit (ai : AuthInfo) (p : CoreParameters) : Prop := fits64 (fee_gas (ai_fee ai)) ∧ fits64 (max_batch_gas_param p).
(** The gas that is left. *)
Definition left_gas (ai : AuthInfo) (p : CoreParameters) (m : Meter) : N :=
  N.min (fee_gas (ai_fee ai) - tx_used m) (max_batch_gas_param p - batch_used m).

Lemma metered_values ai p m s s' : only_values s s' → meter_of s' m → metered ai p m s → metered ai p m s'.
Proof.
  intros Hov Hm [He Hp _ Hw]. constructor; [by rewrite (only_values_env _ _ Hov)|by eapply only_values_params|done|done].
Qed.
Lemma remaining_batch_gas_run {E} p b s : has_core_params s p → holds_n Block CONTEXT_KEY_GAS_USED s b →
  remaining_batch_gas (E := E) s = (Ok (max_batch_gas_param p - b)%N, s).
Proof.
  intros Hp Hb. unfold remaining_batch_gas. rewrite (bind_ok _ _ _ _ _ (core_params_run (E := E) _ _ Hp)).
  by rewrite (bind_ok _ _ _ _ _ (used_batch_gas_run (E := E) _ _ Hb)).
Qed.
Lemma remaining_tx_gas_run {E} ai p m s : metered ai p m s →
  ∃ s', remaining_tx_gas (E := E) s = (Ok (left_gas ai p m), s') ∧ only_values s s' ∧ metered ai p m s'.
Proof.
  intros Hmt. unfold remaining_tx_gas, with_tx_env.
  rewrite (bind_ok _ _ s (fee_gas (ai_fee ai)) s) by (unfold mbind, ST_bind, get_st; by rewrite (mt_env _ _ _ _ Hmt)).
  destruct (used_tx_gas_run (E := E) s m (mt_meter _ _ _ _ Hmt)) as (s1 & Hrun & Hov & Hm1 & _). rewrite (bind_ok _ _ _ _ _ Hrun).
  rewrite (bind_ok _ _ _ _ _ (remaining_batch_gas_run (E := E) _ _ _ (only_values_params _ _ _ Hov (mt_params _ _ _ _ Hmt)) (proj2 Hm1))).
  exists s1. split; [done|]. split; [done|by eapply metered_values].
Qed.
(** What is left can be charged. *)
Lemma use_left_gas ai p m s gas : limits_fit ai p → metered ai p m s → (gas ≤ left_gas ai p m)%N →
  ∃ s' m', use_tx_gas gas s = (Ok tt, s') ∧ only_values s s' ∧ metered ai p m' s' ∧ tx_used m' = (tx_used m + gas)%N.
Proof.
  intros [Hf1 Hf2] Hmt Hle. destruct (use_tx_gas_run s ai p m gas (mt_env _ _ _ _ Hmt) (mt_params _ _ _ _ Hmt) (mt_meter _ _ _ _ Hmt))
    as (r & s' & Hrun & Hov & Hc). destruct (mt_within _ _ _ _ Hmt) as [Hw1 Hw2].
  destruct (charge _ _ _ _ gas m) as [e|m'] eqn:Hch.
  { unfold charge, left_gas, fits64 in *. exfalso. clear Hc Hrun.
    destruct (N.ltb_spec u64_max (tx_used m + gas)); [lia|]. destruct (N.ltb_spec (fee_gas (ai_fee ai)) (tx_used m + gas)); [lia|].
    destruct (is_check_only _); [done|]. destruct (N.ltb_spec u64_max (batch_used m + gas)); [lia|].
    destruct (N.ltb_spec (max_batch_gas_param p) (batch_used m + gas)); [lia|done]. }
  destruct Hc as [-> Hm']. exists s', m'. split; [done|]. split; [done|]. split; [|by eapply charge_used].
  constructor; [by rewrite (only_values_env _ _ Hov); apply Hmt|eapply only_values_params; [done|apply Hmt]|done|].
  by eapply charge_within.
Qed.

(** An execution does not touch the meter. *)
Lemma isolated_metered id ai p m s s' : isolated id s s' → metered ai p m s → metered ai p m s'.
Proof.
  intros Hiso [He Hp [Ht Hb] Hw]. constructor; [by rewrite (fr_env _ _ (iso_frame _ _ _ Hiso))| | |done].
  - destruct Hp as (o & (st & Hst & Hwf & Hget) & ->). exists o. split; [|done].
    destruct (fr_ready _ _ (iso_frame _ _ _ Hiso)) as (_ & st' & Hst' & Hwf' & _). exists st'. do 2 (split; [done|]).
    pose proof (iso_store _ _ _ Hiso (ref_prefix core_store ++ PARAMS_STORE_KEY) eq_refl) as Hk.
    unfold at_key in Hk. rewrite Hst, Hst' in Hk. simpl in Hk. simpl. by rewrite Hk.
  - split.
    + destruct Ht as (o & Ho & ->). exists o. split; [|done]. unfold holds_value in *. simpl in *. by rewrite (iso_local _ _ _ Hiso).
    + destruct Hb as (o & Ho & ->). exists o. split; [|done]. unfold holds_value in *. simpl in *. by rewrite (iso_block _ _ _ Hiso).
Qed.
End metered.

(** The keys of two instances are apart. *)
Lemma instance_prefix_apart id id' k : fits64 id → fits64 id' → id ≠ id' → starts_with (instance_prefix id ++ k) (instance_prefix id') = false.
Proof.
  intros Hid Hid' Hne. apply not_true_iff_false. intros [r Hr]%starts_with_iff. unfold instance_prefix, instance_state_ref in Hr.
  cbn [ref_prefix] in Hr. rewrite <-!(assoc_L app) in Hr. do 3 apply (inj (app _)) in Hr.
  apply app_inj_1 in Hr as [Hb _]; [|unfold to_storage_key, be_bytes64; by rewrite !be_bytes_length].
  apply Hne, be_bytes64_inj; done.
Qed.
Lemma with_tx_env_inv `{Platform} {E A} (f : Environment → option A) s a s' :
  with_tx_env (E := E) f s = (Ok a, s') → s' = s ∧ f (st_env s) = Some a.
Proof. unfold with_tx_env. rewrite get_st_bind. by intros [-> ->]%expect_inv. Qed.

(** * Replies *)

Section used.
Context `{Platform} `{!MKVSLaws} `{!CoreCodec} `{!CoreConfig}.
Variable ai : AuthInfo.

(** At least [n] units of gas have been used. *)
Definition used_from (n : N) (s : State) : Prop :=
  ready s ∧ env_tx_auth_info (st_env s) = Some ai ∧ ∃ u, holds_n Local_ CONTEXT_KEY_GAS_USED s u ∧ (n ≤ u)%N.
(** Computations after which at least that much is used. *)
Definition uses {E A} (n : N) (m : M E A) : Prop := ∀ s, used_from n s → ∀ a s', m s = (Ok a, s') → used_from n s'.

Lemma used_from_mono n n' s : (n' ≤ n)%N → used_from n s → used_from n' s.
Proof. intros Hle (Hr & He & u & Hu & Hn). split; [done|]. split; [done|]. exists u. split; [done|lia]. Qed.
Lemma used_from_frame n s s' : frame s s' → st_local_values s' = st_local_values s → used_from n s → used_from n s'.
Proof.
  intros Hf Hl (Hr & He & u & Hu & Hn). split; [apply Hf|]. split; [by rewrite (fr_env _ _ Hf)|]. exists u. split; [|done].
  destruct Hu as (o & Ho & ->). exists o. split; [|done]. unfold holds_value in *. simpl in *. by rewrite Hl.
Qed.
Lemma uses_frame {E A} n (m : M E A) : framed m → (∀ s, ready s → st_local_values (m s).2 = st_local_values s) → uses n m.
Proof.
  intros Hf Hl s Hs a s' Hrun. pose proof (Hf s (proj1 Hs)) as Hfr. pose proof (Hl s (proj1 Hs)) as Hls. rewrite Hrun in Hfr, Hls.
  by eapply used_from_frame.
Qed.
Lemma uses_bind {E A B} n (m : M E A) (f : A → M E B) : uses n m → (∀ a, uses n (f a)) → uses n (m ≫= f).
Proof. intros Hm Hf s Hs b s' (a & s1 & Ha & Hb)%bind_ok_inv. eapply Hf; [|exact Hb]. by eapply Hm. Qed.
Lemma uses_map_err {E E' A} n (g : E → E') (m : M E A) : uses n m → uses n (map_err g m).
Proof. intros Hm s Hs a s' Hrun. apply (Hm s Hs a). unfold map_err in Hrun. by destruct (m s) as [[] ?]; simplify_eq. Qed.
Lemma uses_reads {E A} n (m : M E A) : reads m → uses n m.
Proof. intros Hm s Hs a s' Hrun. specialize (Hm s). rewrite Hrun in Hm. simpl in Hm. by subst. Qed.

Lemma use_batch_gas_local gas s : st_local_values (use_batch_gas gas s).2 = st_local_values s.
Proof.
  unfold use_batch_gas, with_env, core_params, params, used_batch_gas, value_get, value_set, typed_get, store, downcast.
  run_simpl. case_run.
Qed.
(** A charge that succeeds is added to what was used, and within the limit. *)
Lemma use_tx_gas_used n gas s s' : used_from n s → use_tx_gas gas s = (Ok tt, s') →
  used_from (n + gas) s' ∧ (n + gas ≤ fee_gas (ai_fee ai))%N.
Proof.
  intros (Hr & He & u & Hu & Hn) Hrun. pose proof (framed_use_tx_gas gas s Hr) as Hfr. rewrite Hrun in Hfr. simpl in Hfr.
  unfold use_tx_gas, with_tx_env in Hrun.
  rewrite (bind_ok _ _ s (fee_gas (ai_fee ai)) s) in Hrun by (unfold mbind, ST_bind, get_st; by rewrite He).
  destruct Hu as (o & Ho & ->). rewrite (bind_ok _ _ _ _ _ (value_or_default_run (E := CoreError) (V := N) _ _ _ _ Ho)) in Hrun.
  set (s1 := match o with Some _ => s | None => _ end) in Hrun. change (any_default : N) with 0%N in Hrun.
  destruct (checked_add u64_max (default 0%N o) gas) as [sum|] eqn:Hsum; [|done]. apply checked_add_Some in Hsum as [-> _].
  cbn [ok_or] in Hrun. rewrite ret_bind in Hrun. destruct (N.ltb_spec (fee_gas (ai_fee ai)) (default 0%N o + gas)%N); [done|].
  split; [|lia]. apply bind_ok_inv in Hrun as ([] & s2 & _ & Hrun). apply bind_ok_inv in Hrun as (v & s3 & _ & Hrun).
  unfold value_set, modify in Hrun. injection Hrun as <-. split; [apply Hfr|]. split; [rewrite (fr_env _ _ Hfr); exact He|].
  exists (default 0%N o + gas)%N. split; [|lia]. exists (Some (default 0%N o + gas)%N). split; [|done].
  exact (holds_value_set (V := N) Local_ CONTEXT_KEY_GAS_USED s3 (default 0%N o + gas)%N).
Qed.
Lemma uses_use_tx_gas n gas : uses n (use_tx_gas gas).
Proof. intros s Hs [] s' Hrun. eapply used_from_mono; [|by eapply use_tx_gas_used]. lia. Qed.
Lemma uses_remaining {E} n : uses n (remaining_tx_gas (E := E)).
Proof.
  intros s (Hr & He & u & (o & Ho & ->) & Hn) g s' Hrun. pose proof (framed_remaining_tx_gas (E := E) s Hr) as Hfr. rewrite Hrun in Hfr. simpl in Hfr.
  unfold remaining_tx_gas, with_tx_env in Hrun.
  rewrite (bind_ok _ _ s (fee_gas (ai_fee ai)) s) in Hrun by (unfold mbind, ST_bind, get_st; by rewrite He).
  rewrite (bind_ok _ _ _ _ _ (value_or_default_run (E := E) (V := N) _ _ _ _ Ho)) in Hrun.
  set (s1 := match o with Some _ => s | None => _ end) in Hrun.
  assert (s' = s1) as ->.
  { unfold remaining_batch_gas, core_params, params, used_batch_gas, value_get, typed_get, store, downcast in Hrun.
    run_simpl_in Hrun. repeat (case_match; simplify_eq; try done). }
  split; [apply Hfr|]. split; [by rewrite (fr_env _ _ Hfr)|]. exists (default 0%N o). split; [|done]. unfold s1.
  destruct o as [x|]; [by exists (Some x)|]. exists (Some 0%N). split; [|done]. apply (holds_value_set (V := N) Local_).
Qed.
End used.

Section replies.
Context `{Platform} `{!MKVSLaws} `{!TxCodec} `{!CallCrypto} `{!CoreCodec} `{!CoreConfig} `{!DispatchCodec} `{!AccountsCodec}.
Context `{!StoreCrypto} `{!VrfCrypto} `{!ContractsPlatform} `{!ContractsCodec} `{!Snap} `{!LruCache} `{Wasm3} `{Walrus}.
Context (R : SubcallStack → Runtime) `{!∀ stack, FramedRuntime (R stack)} (stack : SubcallStack).
Variables (ai : AuthInfo) (ctx : Ctx) (params : ContractsParameters) (contract : Contract).

Lemma uses_subcall n info v : uses ai n (subcall R stack ctx info v).
Proof.
  apply uses_frame; [by apply framed_subcall|]. intros s Hs. unfold subcall.
  destruct (v info); [done|]. destruct (_ <=? _)%N; [done|]. destruct (run_validators _ _); [done|]. rewrite gets_bind.
  set (tx := subcall_tx _ _). destruct (ready_rng s Hs) as [rg Hr]. set (f := subcall_body _ ctx (tx_call tx)).
  assert (Hf : framed f) by (by apply framed_subcall_body).
  destruct (f (opened (subcall_options tx) s rg)) as [o child] eqn:Hrun.
  pose proof (with_transaction_run _ _ _ _ _ _ Hs Hr Hf Hrun) as Htx.
  unfold mbind, ST_bind, lift, map_err. rewrite Htx. by destruct o as [[]|[]|].
Qed.
Lemma uses_runtime n ec c f : shielded ec f → uses ai n (E := ContractsError) (lift (with_runtime ec c f)).
Proof.
  intros Hf. apply uses_map_err, uses_frame.
  - intros s Hs. apply (iso_frame _ _ _ (isolates_with_runtime ec c f Hf s Hs)).
  - intros s Hs. apply (iso_local _ _ _ (isolates_with_runtime ec c f Hf s Hs)).
Qed.
Lemma uses_execution_result n r : uses ai n (process_execution_result r).
Proof.
  apply uses_bind; [apply uses_map_err, uses_use_tx_gas|]. intros _. destruct (er_inner r); by apply uses_reads.
Qed.
Lemma uses_events {E} n events : uses ai n (process_events (E := E) contract events).
Proof.
  unfold process_events. induction events as [|e es IH]; simpl; [by apply uses_reads|]. apply uses_bind; [|done].
  apply uses_frame; [apply framed_emit_event|done].
Qed.

Lemma uses_reply_context n ro cf : uses ai n (reply_execution_context ctx params contract ro cf).
Proof.
  apply uses_bind; [apply uses_remaining|]. intros g. apply uses_bind; [|by intros; apply uses_reads].
  apply uses_reads. intros s. unfold with_tx_env. run_simpl. case_run.
Qed.

(** Two computations that agree wherever at least [n] units of gas are used, and use no less. *)
Definition agree {A} (n : N) (m m' : M ContractsError A) : Prop := uses ai n m ∧ ∀ s, used_from ai n s → m s = m' s.
Lemma agree_bind {A B} n (m m' : M ContractsError A) (f f' : A → M ContractsError B) :
  agree n m m' → (∀ a, agree n (f a) (f' a)) → agree n (m ≫= f) (m' ≫= f').
Proof.
  intros [Hu Hm] Hf. split; [apply uses_bind; [done|apply Hf]|]. intros s Hs. unfold mbind, ST_bind. rewrite <-(Hm s Hs).
  specialize (Hu s Hs). destruct (m s) as [[a|e|msg] s'] eqn:Hrun; [|done..]. apply Hf. by eapply Hu.
Qed.
Lemma agree_uses {A} n (m : M ContractsError A) : uses ai n m → agree n m m.
Proof. done. Qed.
Lemma agree_reads {A} n (m : M ContractsError A) : reads m → agree n m m.
Proof. intros Hm. by apply agree_uses, uses_reads. Qed.
Lemma agree_fold {A B} n (l : list A) (b : B) (f f' : B → A → M ContractsError B) :
  (∀ b x, agree n (f b x) (f' b x)) → agree n (fold_m l b f) (fold_m l b f').
Proof.
  intros Hf. revert b. induction l as [|x l IH]; intros b; simpl; [by apply agree_reads|]. apply agree_bind; [apply Hf|done].
Qed.
(** What follows a charge runs with that much more used, within the limit. *)
Lemma agree_charge {A} n c (m m' : M ContractsError A) :
  ((n + c ≤ fee_gas (ai_fee ai))%N → agree (n + c) m m') → agree n (ct_use_gas c ;; m) (ct_use_gas c ;; m').
Proof.
  intros Hm. assert (Hc : ∀ s s', used_from ai n s → ct_use_gas c s = (Ok tt, s') → used_from ai (n + c) s' ∧ agree (n + c) m m').
  { intros s s' Hs Hrun. unfold ct_use_gas, map_err in Hrun. destruct (use_tx_gas c s) as [[[]|e|msg] s1] eqn:Hg; simplify_eq.
    destruct (use_tx_gas_used _ _ _ _ _ Hs Hg) as [Hu Hle]. split; [done|by apply Hm]. }
  split.
  - intros s Hs a s' ([] & s1 & Hg & Hrun)%bind_ok_inv. destruct (Hc _ _ Hs Hg) as [Hs1 [Hu _]].
    eapply used_from_mono; [|by eapply Hu]. lia.
  - intros s Hs. unfold mbind, ST_bind. destruct (ct_use_gas c s) as [[[]|e|msg] s1] eqn:Hg; [|done..].
    destruct (Hc _ _ Hs Hg) as [Hs1 [_ Ha]]. by apply Ha.
Qed.

Lemma process_message_agree n (process process' : ExecutionOk → M ContractsError bytes) ro cf data msg :
  (∀ ok, agree n (process ok) (process' ok)) →
  agree n (process_message R stack process ctx params contract ro cf data msg)
    (process_message R stack process' ctx params contract ro cf data msg).
Proof.
  intros Ha. destruct msg as [id reply method body max_gas d|]; [|by apply agree_reads]. unfold process_message.
  apply agree_bind; [apply agree_uses, uses_remaining|]. intros g.
  apply agree_bind; [apply agree_uses, uses_map_err, uses_subcall|]. intros r.
  apply agree_bind; [apply agree_uses, uses_map_err, uses_use_tx_gas|]. intros _. destruct (notifies _ _); [|by apply agree_reads].
  apply agree_bind; [apply agree_uses, uses_reply_context|]. intros ec.
  apply agree_bind; [apply agree_uses, uses_runtime, shielded_call|]. intros rr.
  apply agree_bind; [apply agree_uses, uses_execution_result|]. intros ok. apply agree_bind; [done|by intros; apply agree_reads].
Qed.

(** The cost of a message, and what is charged for some of them. *)
Notation cost := (gc_subcall_dispatch (contracts_gas_costs params)).
Hypothesis (cost_pos : (0 < cost)%N) (cost_fits : fits64 cost).
(** Depths to which replies are followed that make no difference. *)
Definition deep_enough (n : N) (fuel : nat) : Prop := (fee_gas (ai_fee ai) - n < N.of_nat fuel * cost)%N.

Lemma process_success_agree stop stop' fuel fuel' n ok : deep_enough n fuel → deep_enough n fuel' →
  agree n (process_success R stack stop fuel ctx params contract ok) (process_success R stack stop' fuel' ctx params contract ok).
Proof.
  revert fuel' n ok. induction fuel as [|fuel IH]; intros fuel' n ok Hd Hd'; unfold deep_enough in *; [lia|].
  destruct fuel' as [|fuel']; [lia|]. cbn [process_success].
  apply agree_bind; [apply agree_uses, uses_events|]. intros _. unfold process_subcalls. apply agree_charge. intros Hle.
  do 2 (case_match; [by apply agree_reads|]).
  do 2 (apply agree_bind; [apply agree_reads; intros s; unfold with_tx_env; run_simpl; case_run|intros ?]).
  destruct (decide (ok_messages ok = [])) as [->|Hne]; [by apply agree_reads|].
  assert (Hc : (cost ≤ saturating_mul u64_max cost (N.of_nat (length (ok_messages ok))))%N).
  { unfold saturating_mul, fits64 in *. destruct (ok_messages ok); [done|]. cbn [length]. nia. }
  apply agree_fold. intros b msg. apply process_message_agree. intros ok'. apply IH; lia.
Qed.
Lemma reply_fuel_enough n fuel : reply_fuel params (fee_gas (ai_fee ai)) ≤ fuel → deep_enough n fuel.
Proof.
  unfold reply_fuel, deep_enough. destruct (N.eqb_spec cost 0); [lia|]. intros Hf.
  pose proof (N.mul_succ_div_gt (fee_gas (ai_fee ai)) cost ltac:(lia)). nia.
Qed.
End replies.

Module ContractGasClaims.
Section claims.
Context `{Platform} `{!MKVSLaws} `{!TxCodec} `{!CallCrypto} `{!CoreCodec} `{!CoreConfig} `{!DispatchCodec} `{!AccountsCodec}.
Context `{!StoreCrypto} `{!VrfCrypto} `{!ContractsPlatform} `{!ContractsCodec} `{!Snap} `{!LruCache} `{Wasm3, !Wasm3Laws} `{Walrus}.

(** C27. Contracts are isolated.  Whatever code an instance has and whatever function of it is called, with whatever
    request: the state of the runtime is as before, but for the entries of this instance in the store, the generator of
    random numbers and the counter of confidential stores, also when the execution fails or panics; in particular the
    tables of the module and the entries of other instances are untouched, nothing is emitted and no gas is charged.
    The execution does not return an error but a result, which reports no more gas than the limit. *)
Theorem contracts_are_isolated (stack : SubcallStack) (ec : ExecutionContext) (contract : Contract) (request : bytes)
    (tokens : list BaseUnits) (name : string) (s s' : State) (o : Outcome Empty_set ExecutionResult) :
  ready s → with_runtime ec contract (call_with_request_context stack ec request tokens name) s = (o, s') →
  isolated (inst_id (ec_instance_info ec)) s s' ∧
  (∀ id k, fits64 id → fits64 (inst_id (ec_instance_info ec)) → id ≠ inst_id (ec_instance_info ec) →
     at_key s' (instance_prefix id ++ k) = at_key s (instance_prefix id ++ k)) ∧
  (∀ r, o = Ok r → (er_gas_used r ≤ ec_gas_limit ec)%N).
Proof.
  intros Hs Hrun. pose proof (isolates_with_runtime ec contract _ (shielded_call stack ec request tokens name) s Hs) as Hiso.
  rewrite Hrun in Hiso. simpl in Hiso. split; [done|]. split.
  - intros id k Hid Hid' Hne. apply (iso_store _ _ _ Hiso). by apply instance_prefix_apart.
  - intros r ->. by eapply runtime_gas_used.
Qed.

(** C28. The gas of an execution can always be charged.  In a transaction within its limits, a contract runs with the
    gas that is left; however it ends, charging what it used succeeds: the result of the contract is returned, and the
    transaction has used exactly that much more, within its limits. *)
Theorem execution_gas_is_covered (stack : SubcallStack) (ctx : Ctx) (params : ContractsParameters) (contract : Contract)
    (caller : Address) (request : bytes) (tokens : list BaseUnits) (name : string) (ai : AuthInfo) (p : CoreParameters)
    (m : Meter) (s s1 s2 : State) (ec : ExecutionContext) (r : ExecutionResult) :
  ready s → limits_fit ai p → metered ai p m s →
  tx_execution_context ctx params contract caller s = (Ok ec, s1) →
  with_runtime ec contract (call_with_request_context stack ec request tokens name) s1 = (Ok r, s2) →
  ∃ s3 m', process_execution_result r s2 = (match er_inner r with inl e => Err e | inr ok => Ok ok end, s3) ∧
    metered ai p m' s3 ∧ tx_used m' = (tx_used m + er_gas_used r)%N.
Proof.
  intros Hr Hfit Hm Hec Hrun. unfold tx_execution_context in Hec.
  destruct (remaining_tx_gas_run (E := ContractsError) ai p m s Hm) as (s0 & Hrem & Hov & Hm0).
  assert (Hr0 : ready s0). { destruct Hov as (bv & lv & ->). exact Hr. }
  rewrite (bind_ok _ _ _ _ _ Hrem) in Hec.
  apply bind_ok_inv in Hec as (ro & s0' & Hro & Hec). apply with_tx_env_inv in Hro as [-> _].
  apply bind_ok_inv in Hec as (cf & s0' & Hcf & Hec). apply with_tx_env_inv in Hcf as [-> _].
  assert (ec_gas_limit ec = left_gas ai p m ∧ s1 = s0) as [Hlim ->] by (by injection Hec as <- <-). clear Hec.
  pose proof (runtime_gas_used _ _ _ _ _ _ _ _ _ Hrun) as Hle. rewrite Hlim in Hle.
  pose proof (isolates_with_runtime ec contract _ (shielded_call stack ec request tokens name) s0 Hr0) as Hiso.
  rewrite Hrun in Hiso. pose proof (isolated_metered _ _ _ _ _ _ Hiso Hm0) as Hm2.
  destruct (use_left_gas ai p m s2 (er_gas_used r) Hfit Hm2 Hle) as (s3 & m' & Hg & _ & Hm3 & Hu).
  exists s3, m'. split; [|done]. unfold process_execution_result, ct_use_gas.
  rewrite (bind_ok _ _ _ _ _ (map_err_ok _ _ _ _ _ Hg)). by destruct (er_inner r).
Qed.

(** C29. Replies come to an end.  When messages have a price, the recursion of the processing of messages and replies
    never gets as deep as the gas limit of the transaction divided by that price: whatever would happen at that depth, or
    at any greater one, makes no difference to the outcome. *)
Theorem replies_terminate (R : SubcallStack → Runtime) (HR : ∀ st, FramedRuntime (R st)) (stack : SubcallStack) (ai : AuthInfo)
    (ctx : Ctx) (params : ContractsParameters) (contract : Contract) (ok : ExecutionOk) (s : State)
    (stop : M ContractsError bytes) (fuel : nat) :
  used_from ai 0 s → (0 < gc_subcall_dispatch (contracts_gas_costs params))%N → fits64 (gc_subcall_dispatch (contracts_gas_costs params)) →
  reply_fuel params (fee_gas (ai_fee ai)) ≤ fuel →
  process_execution_success R stack ctx params contract ok s = process_success R stack stop fuel ctx params contract ok s.
Proof.
  intros Hs Hpos Hfit Hf. unfold process_execution_success. rewrite gets_bind.
  assert (tx_gas_limit s = fee_gas (ai_fee ai)) as ->. { unfold tx_gas_limit. by rewrite (proj1 (proj2 Hs)). }
  apply (process_success_agree R stack ai ctx params contract Hpos Hfit _ stop _ fuel 0 ok);
    [by apply reply_fuel_enough..|exact Hs].
Qed.
End claims.
End ContractGasClaims.
