(* ===== verification/Registry.v ===== *)
(** The registry of the contracts module: code, instances and identifiers as an abstract state machine, whose steps
    are uploads, instantiations, changes of policies and upgrades, each by its caller, how the tables show it, and the caches
    of code (src/runtime-sdk/modules/contracts/src/{lib,code,results}.rs). *)
From S2P Require Import Prelude Endian Storage StoreIter Types Fee Errors State Current Transactions Module Tables CallFormat.
From S2P Require Import Core Gas Accounts Ledger Accounting Disbursement Moves Dispatcher Dispatch Subcall Metering.
From S2P Require Import ContractTypes ValidModules ConfidentialStore HostMemory HostFunctions Contracts Isolation.

(** * The abstract registry *)

Record Registry := {
  codes : gmap N Code;
  binaries : gmap N bytes;
  deployed : gmap N ContractInstance;
  next_code : N;
  next_instance : N;
}.
Definition put_binary (id : N) (w : bytes) (r : Registry) : Registry :=
  {| codes := codes r; binaries := <[id := w]> (binaries r); deployed := deployed r;
     next_code := next_code r; next_instance := next_instance r |}.
Definition put_info (c : Code) (r : Registry) : Registry :=
  {| codes := <[code_id c := c]> (codes r); binaries := binaries r; deployed := deployed r;
     next_code := next_code r; next_instance := next_instance r |}.
Definition put_code (c : Code) (w : bytes) (r : Registry) : Registry := put_info c (put_binary (code_id c) w r).
Definition put_deployed (i : ContractInstance) (r : Registry) : Registry :=
  {| codes := codes r; binaries := binaries r; deployed := <[inst_id i := i]> (deployed r);
     next_code := next_code r; next_instance := next_instance r |}.
Definition bump_code (r : Registry) : Registry :=
  {| codes := codes r; binaries := binaries r; deployed := deployed r; next_code := id_increment (next_code r);
     next_instance := next_instance r |}.
Definition bump_instance (r : Registry) : Registry :=
  {| codes := codes r; binaries := binaries r; deployed := deployed r; next_code := next_code r;
     next_instance := id_increment (next_instance r) |}.
Definition with_code (cid : N) (i : ContractInstance) : ContractInstance :=
  {| inst_id := inst_id i; inst_code_id := cid; inst_creator := inst_creator i; inst_upgrades_policy := inst_upgrades_policy i |}.
Definition with_policy (p : ContractPolicy) (i : ContractInstance) : ContractInstance :=
  {| inst_id := inst_id i; inst_code_id := inst_code_id i; inst_creator := inst_creator i; inst_upgrades_policy := p |}.

Section steps.
Context `{Crypto}.

(** The records of new code and of a new instance. *)
Definition new_code (caller : Address) (abi : ABI) (policy : ContractPolicy) (w : bytes) (sv : N) (r : Registry) : Code :=
  {| code_id := next_code r; code_hash := digest [w]; code_abi := abi; code_abi_sv := sv; code_uploader := caller;
     code_instantiate_policy := policy |}.
Definition new_instance (caller : Address) (cid : N) (policy : ContractPolicy) (r : Registry) : ContractInstance :=
  {| inst_id := next_instance r; inst_code_id := cid; inst_creator := caller; inst_upgrades_policy := policy |}.

(** What a caller can do to the registry. *)
Inductive registry_step (caller : Address) : Registry → Registry → Prop :=
  | step_upload r w abi sv policy : (sv ≤ u32_max)%N →
      registry_step caller r (put_code (new_code caller abi policy w sv r) w (bump_code r))
  | step_instantiate r cid c policy : codes r !! cid = Some c → permits (code_instantiate_policy c) caller →
      registry_step caller r (put_deployed (new_instance caller cid policy r) (bump_instance r))
  | step_change_policy r id i policy : deployed r !! id = Some i → permits (inst_upgrades_policy i) caller →
      registry_step caller r (put_deployed (with_policy policy i) r)
  | step_upgrade r id i cid c : deployed r !! id = Some i → permits (inst_upgrades_policy i) caller →
      inst_code_id i ≠ cid → codes r !! cid = Some c → registry_step caller r (put_deployed (with_code cid i) r).
(** Any number of steps, of whichever callers. *)
Definition evolves : relation Registry := rtc (λ r r', ∃ caller, registry_step caller r r').

(** What holds of the registry: records are kept under their identifiers, the binary of every code has the recorded
    hash, and the code of every instance exists. *)
Record registry_sound (r : Registry) : Prop := {
  sd_next_code : fits64 (next_code r);
  sd_next_instance : fits64 (next_instance r);
  sd_code id c : codes r !! id = Some c → code_id c = id ∧ fits64 id ∧ ∃ w, binaries r !! id = Some w ∧ digest [w] = code_hash c;
  sd_instance id i : deployed r !! id = Some i → inst_id i = id ∧ fits64 id ∧ fits64 (inst_code_id i) ∧ is_Some (codes r !! inst_code_id i);
}.
(** Code and instances never disappear. *)
Definition grows (r r' : Registry) : Prop :=
  (∀ id, is_Some (codes r !! id) → is_Some (codes r' !! id)) ∧ (∀ id, is_Some (deployed r !! id) → is_Some (deployed r' !! id)).

Lemma id_increment_fits id : fits64 (id_increment id).
Proof. unfold id_increment, wrapping_add, fits64. pose proof (N.mod_lt (id + 1) (u64_max + 1) ltac:(done)). lia. Qed.

Lemma step_sound caller r r' : registry_step caller r r' → registry_sound r → registry_sound r'.
Proof.
  intros [r0 w abi sv pol Hsv|r0 cid c pol Hcid He|r0 id i pol Hid He|r0 id i cid c Hid He Hne Hcid] [Hc Hi Hcode Hinst];
    (split; [try apply id_increment_fits; done|try apply id_increment_fits; done|..]); try done; simpl.
  - intros id c [[<- <-]|[Hne Hl]]%lookup_insert_Some; simpl.
    + split_and!; [done|done|]. exists w. by rewrite lookup_insert_eq.
    + rewrite lookup_insert_ne by done. by apply Hcode.
  - intros id i Hid. destruct (Hinst id i Hid) as (He & Hf & Hf' & Hs). split_and!; try done. rewrite lookup_insert_is_Some'. by right.
  - intros id i [[<- <-]|[Hne Hl]]%lookup_insert_Some; [|by apply Hinst]. simpl. destruct (Hcode _ _ Hcid) as (_ & Hf & _). split_and!; [done..|by eexists].
  - intros id' i' [[<- <-]|[Hne Hl]]%lookup_insert_Some; [|by apply Hinst]. destruct (Hinst _ _ Hid) as (Heq & Hf). subst id. by split.
  - intros id' i' [[<- <-]|[Hne' Hl]]%lookup_insert_Some; [|by apply Hinst]. destruct (Hinst _ _ Hid) as (Heq & Hf & _). subst id.
    destruct (Hcode _ _ Hcid) as (_ & Hfc & _). split_and!; [done..|by eexists].
Qed.
Lemma step_grows caller r r' : registry_step caller r r' → grows r r'.
Proof. intros []; split; simpl; intros ? ?; rewrite ?lookup_insert_is_Some'; auto. Qed.
Lemma evolves_sound r r' : evolves r r' → registry_sound r → registry_sound r'.
Proof. induction 1 as [|r r1 r2 [caller Hstep] _ IH]; [done|]. intros Hs. eapply IH, step_sound; done. Qed.
Lemma evolves_grows r r' : evolves r r' → grows r r'.
Proof.
  induction 1 as [|r r1 r2 [caller Hstep] _ IH]; [done|]. apply step_grows in Hstep as [Hc Hd]. destruct IH as [IHc IHd]. split; auto.
Qed.
#[export] Instance evolves_preorder : PreOrder evolves.
Proof. unfold evolves. apply _. Qed.
Lemma evolves_step caller r r' : registry_step caller r r' → evolves r r'.
Proof. intros Hs. apply rtc_once. by exists caller. Qed.
End steps.

(** * The registry in the store *)

(** What is assumed of the encodings. *)
Class ContractsLaws `{Platform, !ContractsCodec} : Prop := {
  cl_id :: CborLaws N;
  cl_id_encodable (n : N) : fits64 n → encodable n;
  cl_code :: CborLaws Code;
  cl_code_encodable (c : Code) : fits64 (code_id c) → (code_abi_sv c ≤ u32_max)%N → encodable c;
  cl_instance :: CborLaws ContractInstance;
  cl_instance_encodable (i : ContractInstance) : fits64 (inst_id i) → fits64 (inst_code_id i) → encodable i;
}.

Section view.
Context `{Platform} `{!MKVSLaws} `{!ContractsCodec} `{!ContractsLaws} `{!Snap}.
Notation P := (str CONTRACTS_MODULE_NAME).

(** The next identifier, which is zero at first. *)
Definition next_at (s : State) (key : bytes) (n : N) : Prop := default (Some 0%N) (from_slice <$> at_key s (P ++ key)) = Some n.

Record registry_of (s : State) (r : Registry) : Prop := {
  ro_writable : writable s;
  ro_codes : table (P ++ CODE_INFO) to_storage_key fits64 (codes r) s;
  ro_deployed : table (P ++ INSTANCE_INFO) to_storage_key fits64 (deployed r) s;
  ro_binaries id : fits64 id → at_key s ((P ++ CODE) ++ to_storage_key id) = snap_encode <$> binaries r !! id;
  ro_next_code : next_at s NEXT_CODE_IDENTIFIER (next_code r);
  ro_next_instance : next_at s NEXT_INSTANCE_IDENTIFIER (next_instance r);
}.

(** The entries outside of one table of the module stay. *)
Definition only_table (t : byte) (s s' : State) : Prop :=
  writable s' ∧ ∀ t' k, t' ≠ t → at_key s' (P ++ t' :: k) = at_key s (P ++ t' :: k).
Lemma only_table_codes t s s' m : only_table t s s' → t ≠ x03 →
  table (P ++ CODE_INFO) to_storage_key fits64 (V := Code) m s → table (P ++ CODE_INFO) to_storage_key fits64 m s'.
Proof. intros [_ Hk] Ht. apply table_ext. intros b. by apply (Hk x03 b). Qed.
Lemma only_table_deployed t s s' m : only_table t s s' → t ≠ x04 →
  table (P ++ INSTANCE_INFO) to_storage_key fits64 (V := ContractInstance) m s → table (P ++ INSTANCE_INFO) to_storage_key fits64 m s'.
Proof. intros [_ Hk] Ht. apply table_ext. intros b. by apply (Hk x04 b). Qed.
Lemma only_table_binary t s s' b o : only_table t s s' → t ≠ xff →
  at_key s ((P ++ CODE) ++ b) = o → at_key s' ((P ++ CODE) ++ b) = o.
Proof. intros [_ Hk] Ht <-. by apply (Hk xff b). Qed.
Lemma only_table_next t t' s s' n : only_table t s s' → t ≠ t' → next_at s [t'] n → next_at s' [t'] n.
Proof. intros [_ Hk] Ht. unfold next_at. by rewrite Hk. Qed.
(** The registry does not depend on the entries of instances. *)
Lemma undisturbed_registry s s' r : only_table x05 s s' → registry_of s r → registry_of s' r.
Proof.
  intros Ho [_ Hc Hd Hb Hnc Hni]. split; [apply Ho|by eapply only_table_codes|by eapply only_table_deployed|..].
  - intros id Hid. eapply only_table_binary; [done..|auto].
  - by eapply only_table_next.
  - by eapply only_table_next.
Qed.
Lemma same_registry_of s s' r : same_below P s s' → registry_of s r → registry_of s' r.
Proof. intros [Hw Hk]. apply undisturbed_registry. split; [done|]. intros t k _. apply Hk. Qed.
#[export] Instance registry_view : View Registry := {
  shows := registry_of; view_prefix := P; view_same := same_registry_of;
}.
Lemma isolated_registry id s s' r : isolated id s s' → registry_of s r → registry_of s' r.
Proof.
  intros Hiso. apply undisturbed_registry. split; [apply (fr_ready _ _ (iso_frame _ _ _ Hiso))|]. intros t k Ht.
  apply (iso_store _ _ _ Hiso). apply not_true_iff_false. intros [rest Hr]%starts_with_iff.
  change (instance_prefix id) with ((P ++ [x05]) ++ to_storage_key id) in Hr. rewrite <-!app_assoc in Hr. apply (inj (app P)) in Hr.
  by injection Hr.
Qed.

(** ** Reading *)

Lemma key_inj_64 n m : fits64 n → fits64 m → to_storage_key n = to_storage_key m → n = m.
Proof. intros Hn Hm. by apply be_bytes64_inj. Qed.
Lemma wp_load_code_info id (Q : Code → Registry → Prop) r :
  fits64 id → (∀ c, codes r !! id = Some c → Q c r) → wp (load_code_info id) Q r.
Proof.
  intros Hid HQ. unfold load_code_info. apply wp_bind. eapply wp_reads.
  - intros s Hs. apply (table_get_run _ _ _ _ _ _ _ _ (ro_codes _ _ Hs) (ro_writable _ _ Hs) Hid). done.
  - by apply wp_ok_or.
Qed.
Lemma load_instance_info_run s r id : registry_of s r → fits64 id →
  load_instance_info id s = (match deployed r !! id with Some i => Ok i | None => Err (CtInstanceNotFound id) end, s).
Proof.
  intros Hs Hid. unfold load_instance_info. rewrite (bind_ok _ _ s (deployed r !! id) s); [by destruct (deployed r !! id)|].
  by apply (table_get_run _ _ _ _ _ _ _ _ (ro_deployed _ _ Hs) (ro_writable _ _ Hs) Hid).
Qed.
Lemma wp_load_instance_info id (Q : ContractInstance → Registry → Prop) r :
  fits64 id → (∀ i, deployed r !! id = Some i → Q i r) → wp (load_instance_info id) Q r.
Proof.
  intros Hid HQ s Hs Hr i s'. rewrite (load_instance_info_run s r id Hr Hid).
  destruct (deployed r !! id) as [j|] eqn:Hj; [|done]. intros [= -> ->]. eauto.
Qed.

(** ** Writing *)

(** A write to a table of the module. *)
Lemma only_table_write s st t k v : writable s → st_store s = Some st →
  only_table t s (set_store (Some (insert_ st (P ++ t :: k) v)) s).
Proof.
  intros Hw Hst. split; [by apply insert_writable|]. intros t' k' Hne. rewrite at_key_insert by done.
  rewrite decide_False; [done|]. by intros [=]%(inj (app P)).
Qed.
Ltac elsewhere := first [by eapply only_table_codes|by eapply only_table_deployed|by eapply only_table_next
  |intros; eapply only_table_binary; [done|done|auto]].

Lemma next_identifier_run {E} t s n : writable s → next_at s [t] n →
  ∃ s', next_identifier (E := E) [t] s = (Ok n, s') ∧ only_table t s s' ∧ next_at s' [t] (id_increment n).
Proof.
  intros Hw Hn. destruct (typed_insert_at (E := E) s contracts_store [t] (id_increment n) Hw) as (st & Hst & Hins).
  assert (Hwf : store_wf st). { destruct Hw as (st' & Hst' & Hwf & _). by simplify_eq. }
  assert (Hget : ∃ o, typed_get (E := E) (T := N) contracts_store [t] s = (Ok o, s) ∧ default 0%N o = n).
  { unfold next_at, at_key in Hn. rewrite Hst in Hn. cbn [mbind option_bind] in Hn.
    destruct (get st _) as [b|] eqn:Hb; cbn [fmap option_fmap option_map default from_option] in Hn.
    - exists (Some n). split; [|done]. apply typed_get_run. exists st.
      split_and!; [done..|]. change (ref_prefix contracts_store) with P. rewrite Hb. exact (f_equal Some Hn).
    - exists None. split; [|by injection Hn]. apply typed_get_run. exists st.
      split_and!; [done..|]. change (ref_prefix contracts_store) with P. by rewrite Hb. }
  destruct Hget as (o & Hget & Ho). unfold next_identifier. rewrite (bind_ok _ _ _ _ _ Hget), Ho.
  rewrite (bind_ok _ _ _ _ _ Hins). eexists. split; [done|]. split; [by apply only_table_write|].
  unfold next_at. rewrite at_key_insert, decide_True by done. simpl. by rewrite cbor_roundtrip by apply cl_id_encodable, id_increment_fits.
Qed.
Lemma framed_next_identifier {E} key : framed (next_identifier (E := E) key).
Proof. unfold next_identifier. solve_framed. Qed.
Lemma wp_next_code {E} (Q : N → Registry → Prop) r : Q (next_code r) (bump_code r) → wp (next_identifier (E := E) NEXT_CODE_IDENTIFIER) Q r.
Proof.
  intros HQ. eapply wp_run; [apply framed_next_identifier| |exact HQ]. intros s [Hw Hc Hd Hb Hnc Hni].
  destruct (next_identifier_run (E := E) _ _ _ Hw Hnc) as (s' & Hrun & Ho & Hn). exists s'. split; [done|].
  split; [apply Ho|try elsewhere..]. done.
Qed.
Lemma wp_next_instance {E} (Q : N → Registry → Prop) r :
  Q (next_instance r) (bump_instance r) → wp (next_identifier (E := E) NEXT_INSTANCE_IDENTIFIER) Q r.
Proof.
  intros HQ. eapply wp_run; [apply framed_next_identifier| |exact HQ]. intros s [Hw Hc Hd Hb Hnc Hni].
  destruct (next_identifier_run (E := E) _ _ _ Hw Hni) as (s' & Hrun & Ho & Hn). exists s'. split; [done|].
  split; [apply Ho|try elsewhere..]. done.
Qed.
Lemma wp_store_code_info {E} c (Q : unit → Registry → Prop) r : fits64 (code_id c) → (code_abi_sv c ≤ u32_max)%N →
  Q tt (put_info c r) → wp (store_code_info (E := E) c) Q r.
Proof.
  intros Hid Hsv HQ. eapply wp_run; [unfold store_code_info; solve_framed| |exact HQ]. intros s [Hw Hc Hd Hb Hnc Hni].
  destruct (table_insert_run (E := E) _ _ _ key_inj_64 _ s code_info_ref _ (code_id c) c Hc Hw Hid
    (cl_code_encodable c Hid Hsv) eq_refl) as (s' & Hrun & Ht & Hw' & Hst & Hk).
  exists s'. split; [exact Hrun|]. assert (Ho : only_table x03 s s').
  { split; [done|]. intros t k Hne. apply Hk. by intros [=]%(inj (app P)). }
  split; [done|done|elsewhere..].
Qed.
Lemma wp_store_instance_info {E} i (Q : unit → Registry → Prop) r : fits64 (inst_id i) → fits64 (inst_code_id i) →
  Q tt (put_deployed i r) → wp (store_instance_info (E := E) i) Q r.
Proof.
  intros Hid Hsv HQ. eapply wp_run; [unfold store_instance_info; solve_framed| |exact HQ]. intros s [Hw Hc Hd Hb Hnc Hni].
  destruct (table_insert_run (E := E) _ _ _ key_inj_64 _ s instance_info_ref _ (inst_id i) i Hd Hw Hid
    (cl_instance_encodable i Hid Hsv) eq_refl) as (s' & Hrun & Ht & Hw' & Hst & Hk).
  exists s'. split; [exact Hrun|]. assert (Ho : only_table x04 s s').
  { split; [done|]. intros t k Hne. apply Hk. by intros [=]%(inj (app P)). }
  split; [done|elsewhere|done|elsewhere..].
Qed.

Context `{!LruCache}.

(** ** The cache of code *)

(** The cache holds under every hash code that has it. *)
Definition honest (c : Lru) : Prop := ∀ h w, (lru_get c h).1 = Some w → digest [w] = h.
(** What the module does with the cache, which all threads of the process share: entries are looked up, the code of a registered record is
    loaded, in a state with a sound registry, and uploaded code is stored, be it in a transaction that is rolled back. *)
Inductive cache_step : Lru → Lru → Prop :=
  | cache_lookup c h : cache_step c (lru_get c h).2
  | cache_load c c' s s' r id code_info w : registry_of s r → registry_sound r → fits64 id →
      load_code_info id s = (Ok code_info, s) → load_code_cached c code_info s = (Ok (w, c'), s') → cache_step c c'
  | cache_store c c' s s' body uploader id w sv :
      store_code_cached c (upload_code_info body uploader id w sv) w s = (Ok c', s') → cache_step c c'.
(** The caches that there can be in a process. *)
Definition reachable_cache : Lru → Prop := rtc cache_step CODE_CACHE.

Lemma load_code_info_run s r id : registry_of s r → fits64 id →
  load_code_info id s = (match codes r !! id with Some c => Ok c | None => Err (CtCodeNotFound id) end, s).
Proof.
  intros Hs Hid. unfold load_code_info. rewrite (bind_ok _ _ s (codes r !! id) s); [by destruct (codes r !! id)|].
  by apply (table_get_run _ _ _ _ _ _ _ _ (ro_codes _ _ Hs) (ro_writable _ _ Hs) Hid).
Qed.
Lemma load_binary `{!SnapLaws} s r c w : registry_of s r → fits64 (code_id c) → binaries r !! code_id c = Some w →
  ∃ st, st_store s = Some st ∧ ref_get st code_ref (to_storage_key (code_id c)) = Some (snap_encode w).
Proof.
  intros [Hw Hc Hd Hb Hnc Hni] Hid Hbin. destruct Hw as (st & Hst & _). exists st. split; [done|].
  specialize (Hb _ Hid). rewrite Hbin in Hb. unfold at_key in Hb. rewrite Hst in Hb. cbn [mbind option_bind] in Hb.
  rewrite ref_get_key. exact Hb.
Qed.
Lemma load_cached_run `{!SnapLaws} cache s r c w : registry_of s r → fits64 (code_id c) → binaries r !! code_id c = Some w →
  load_code_cached cache c s = (Ok match lru_get cache (code_hash c) with
    | (Some w', cache') => (w', cache') | (None, cache') => (w, lru_put cache' (code_hash c) w) end, s).
Proof.
  intros Hr Hid Hbin. unfold load_code_cached. destruct (lru_get cache (code_hash c)) as [[w'|] cache']; [done|].
  destruct (load_binary s r c w Hr Hid Hbin) as (st & Hst & Hget). unfold store. run_simpl. rewrite Hst. cbn [expect]. run_simpl.
  rewrite Hget. simpl. by rewrite snap_roundtrip.
Qed.
Lemma honest_put `{!LruLaws} c h w : honest c → digest [w] = h → honest (lru_put c h w).
Proof. intros Hc Hh h' w' [[-> ->]|Hg]%lru_get_put; [done|auto]. Qed.
Lemma cache_step_honest `{!LruLaws} `{!SnapLaws} c c' : cache_step c c' → honest c → honest c'.
Proof.
  intros Hstep Hc. assert (∀ h, honest (lru_get c h).2) as Hget by (intros h h' w' Hg%lru_get_get; auto).
  destruct Hstep as [c h|c c' s s' r id ci w Hr Hsd Hid Hinfo Hload|c c' s s' body up id w sv Hstore]; [auto| |].
  - rewrite (load_code_info_run s r id Hr Hid) in Hinfo. destruct (codes r !! id) as [ci'|] eqn:Hci; [|done]. injection Hinfo as ->.
    destruct (sd_code _ Hsd _ _ Hci) as (<- & _ & b & Hb & Hdig). rewrite (load_cached_run c s r ci b Hr Hid Hb) in Hload.
    specialize (Hget (code_hash ci)). destruct (lru_get c (code_hash ci)) as [[w'|] c1]; injection Hload as <- <- <-; [done|].
    by apply honest_put.
  - unfold store_code_cached in Hstore. apply bind_ok_inv in Hstore as (st & s1 & _ & Hstore).
    apply bind_ok_inv in Hstore as ([] & s2 & _ & Hstore). injection Hstore as <- _.
    destruct (lru_contains c _); [by apply honest_put|done].
Qed.
Lemma reachable_honest `{!LruLaws} `{!SnapLaws} c : reachable_cache c → honest c.
Proof.
  intros Hc. assert (honest CODE_CACHE) as Hh by (intros h w; unfold CODE_CACHE; by rewrite lru_get_new).
  induction Hc as [c|c1 c2 c3 Hs _ IH]; [done|]. apply IH. by eapply cache_step_honest.
Qed.

Variable found : Code → Lru.
Lemma framed_store_code c w : framed (store_code found c w).
Proof.
  intros s Hs. pose proof Hs as (Hr & st & Hst & Hwf & Hb). unfold store_code, store_code_cached, store, put_store. run_simpl. rewrite Hst. simpl.
  apply (framed_put_store (E := ContractsError)); try done; rewrite ?ref_insert_key; [by apply insert_wf|].
  rewrite Hst. destruct st; [by destruct Hb|done].
Qed.
Lemma wp_store_code c w (Q : unit → Registry → Prop) r : fits64 (code_id c) →
  Q tt (put_binary (code_id c) w r) → wp (store_code found c w) Q r.
Proof.
  intros Hid HQ. eapply wp_run; [apply framed_store_code| |exact HQ].
  intros s [Hw Hc Hd Hb Hnc Hni]. pose proof Hw as (st & Hst & Hwf & Hov). unfold store_code, store_code_cached, store, put_store.
  run_simpl. rewrite Hst. simpl. eexists. split; [done|].
  pose proof (only_table_write s st xff (to_storage_key (code_id c)) (snap_encode w) Hw Hst) as Ho.
  split; [apply Ho|elsewhere|elsewhere| |elsewhere..].
  intros id Hf. cbn [put_binary binaries].
  change (insert_ st _ _) with (insert_ st ((P ++ CODE) ++ to_storage_key (code_id c)) (snap_encode w)). rewrite at_key_insert by done.
  destruct (decide (code_id c = id)) as [<-|Hne]; [by rewrite decide_True, lookup_insert_eq|].
  rewrite lookup_insert_ne by done. rewrite decide_False; [by apply Hb|]. intros Heq%(inj (app (P ++ CODE))). by apply Hne, key_inj_64.
Qed.
Lemma reads_load_code c : reads (load_code found c).
Proof.
  intros s. unfold load_code, load_code_cached. destruct (lru_get _ _) as [[]]; [done|]. unfold store. run_simpl. case_run.
Qed.
End view.

(** * Executions *)

(** The calls of a runtime whose effects are kept change the registry by steps of some callers only. *)
Class RegistryRuntime `{Platform, !MKVSLaws, !ContractsCodec, !ContractsLaws, !Snap, !TxCodec, !CallCrypto, !CoreCodec, !CoreConfig, !DispatchCodec}
    (R : SubcallStack → Runtime) : Prop := {
  rr_framed stack :: FramedRuntime (R stack);
  rr_commit stack ctx call s x s' r : ready s → registry_of s r → registry_sound r →
    subcall_body (R stack) ctx call s = (Ok (Commit x), s') → ∃ r', registry_of s' r' ∧ evolves r r';
}.

Section executions.
Context `{Platform} `{!MKVSLaws} `{!TxCodec} `{!CallCrypto} `{!CoreCodec} `{!CoreConfig} `{!DispatchCodec} `{!AccountsCodec}.
Context `{!StoreCrypto} `{!VrfCrypto} `{!ContractsPlatform} `{!ContractsCodec} `{!ContractsLaws} `{!Snap} `{!LruCache} `{Wasm3} `{Walrus}.
Context (R : SubcallStack → Runtime) `{!RegistryRuntime R} (stack : SubcallStack) (found : Code → Lru).
Notation P := (str CONTRACTS_MODULE_NAME).

(** Computations under which the registry evolves, when they succeed. *)
Definition evolving {E A} (m : M E A) : Prop := ∀ r, registry_sound r → wp m (λ _ r', evolves r r') r.
Lemma evolving_bind {E A B} (m : M E A) (f : A → M E B) : evolving m → (∀ a, evolving (f a)) → evolving (m ≫= f).
Proof.
  intros Hm Hf r Hr. apply wp_bind. eapply wp_mono; [by apply Hm|]. intros a r1 Hr1.
  eapply wp_mono; [apply Hf, (evolves_sound _ _ Hr1 Hr)|]. intros b r2 Hr2. by transitivity r1.
Qed.
Lemma evolving_map_err {E E' A} (g : E → E') (m : M E A) : evolving m → evolving (map_err g m).
Proof. intros Hm r Hr. by apply wp_map_err, Hm. Qed.
Lemma evolving_leaves {E A} (m : M E A) : leaves P m → evolving m.
Proof. intros Hm r _. by apply wp_leaves. Qed.
Lemma evolving_fold {A B} (l : list A) (b : B) (f : B → A → M ContractsError B) : (∀ b x, evolving (f b x)) → evolving (fold_m l b f).
Proof.
  intros Hf. revert b. induction l as [|x l IH]; intros b; simpl; [apply evolving_leaves; solve_leaves|]. by apply evolving_bind.
Qed.

(** A contract that runs does not change the registry. *)
Lemma wp_runtime {A} (ec : ExecutionContext) (c : Contract) f (Q : ExecutionResult → Registry → Prop) r :
  shielded ec f → (∀ x, Q x r) → wp (E := A) (lift (with_runtime ec c f)) Q r.
Proof.
  intros Hf HQ. apply wp_map_err. intros s Hs Hr x s' Hrun.
  pose proof (isolates_with_runtime ec c f Hf s Hs) as Hiso. rewrite Hrun in Hiso. split; [apply (iso_frame _ _ _ Hiso)|].
  exists r. split; [by eapply isolated_registry|done].
Qed.
Lemma evolving_runtime {A} ec c f : shielded ec f → evolving (E := A) (lift (with_runtime ec c f)).
Proof. intros Hf r _. by apply wp_runtime. Qed.

Lemma evolving_subcall ctx info : evolving (subcall R stack ctx info allow_all).
Proof.
  intros r Hr s Hs Hreg res s'. unfold subcall. destruct (allow_all info); [done|].
  case_match; [done|]. case_match; [done|]. rewrite gets_bind. set (tx := subcall_tx _ _).
  set (f := subcall_body _ ctx (tx_call tx)). assert (Hf : framed f) by (by apply framed_subcall_body, rr_framed).
  destruct (ready_rng s Hs) as [rg Hrg]. destruct (f (opened (subcall_options tx) s rg)) as [o child] eqn:Hrun.
  pose proof (with_transaction_run _ _ _ _ _ _ Hs Hrg Hf Hrun) as Htx.
  pose proof (framed_with_transaction_opts (subcall_options tx) f Hf s Hs) as Hfr. rewrite Htx in Hfr.
  intros (x & s1 & Hx & Hret)%bind_ok_inv. injection Hret as _ <-. unfold lift, map_err in Hx. rewrite Htx in Hx.
  pose proof (opened_ready (subcall_options tx) s rg Hs) as Hor.
  assert (Hrb : st_store (rolled_back (subcall_options tx) s child rg) = st_store s).
  { unfold rolled_back, closed_block_values. simpl. by destruct s. }
  assert (Hop : registry_of (opened (subcall_options tx) s rg) r).
  { eapply same_registry_of, Hreg. apply same_below_kv; [apply Hs|apply Hor|by apply kv_opened]. }
  destruct o as [[y|y]|[]|p]; simplify_eq; (split; [apply (fr_ready _ _ Hfr)|]).
  - destruct (rr_commit _ _ _ _ _ _ _ Hor Hop Hr Hrun) as (r' & Hr' & Hev). exists r'. split; [|done].
    pose proof (fr_ready _ _ Hfr) as [_ Hw']. eapply same_registry_of, Hr'. apply same_below_kv; [apply Hr'|done|].
    pose proof (Hf _ Hor) as Hchild. rewrite Hrun in Hchild. cbn [snd] in Hchild.
    destruct (framed_child_store _ _ _ _ Hs Hchild) as (st & cst & Hst & Hcst & Hwf & _).
    simpl. rewrite Hcst. simpl. by rewrite view_commit.
  - exists r. split; [|done]. eapply same_registry_of, Hreg. apply same_below_kv; [apply Hs|apply (fr_ready _ _ Hfr)|by rewrite Hrb].
Qed.

Lemma leaves_ct_use_gas gas : leaves P (ct_use_gas gas).
Proof. unfold ct_use_gas. solve_leaves. Qed.
Lemma leaves_execution_result res : leaves P (process_execution_result res).
Proof. unfold process_execution_result. solve_leaves; apply leaves_ct_use_gas. Qed.
Lemma leaves_events {E} c events : leaves P (process_events (E := E) c events).
Proof. unfold process_events. induction events as [|e es IH]; simpl; solve_leaves; done. Qed.
Lemma leaves_reply_context ctx p c ro cf : leaves P (reply_execution_context ctx p c ro cf).
Proof. unfold reply_execution_context. solve_leaves. Qed.
Lemma leaves_tx_context ctx p c caller : leaves P (tx_execution_context ctx p c caller).
Proof. unfold tx_execution_context. solve_leaves. Qed.
Lemma leaves_transfer_attached from to tokens : leaves P (transfer_attached from to tokens).
Proof. unfold transfer_attached. induction tokens as [|e es IH]; simpl; solve_leaves; done. Qed.
Lemma leaves_enforce p caller : leaves P (enforce_policy p caller).
Proof. unfold enforce_policy. solve_leaves. Qed.
End executions.
