(* ===== verification/Deployments.v ===== *)
(** The handlers of the contracts module refine the registry, in a runtime in which the module stands among others and
    contracts call all of them (src/runtime-sdk/modules/contracts/src/{lib,results}.rs). *)
From S2P Require Import Prelude Endian Storage StoreIter Types Fee Errors State Current Transactions Module Tables CallFormat.
From S2P Require Import Core Gas Accounts Ledger Accounting Disbursement Moves Dispatcher Dispatch Subcall Metering.
From S2P Require Import ContractTypes ValidModules ConfidentialStore HostMemory HostFunctions Contracts Isolation Registry.

(** The sub-version of the ABI is a number of 32 bits. *)
Lemma validate_module_sv m params sv : validate_module m params = inr sv → (sv ≤ u32_max)%N.
Proof. rewrite validate_iff. intros [_ _ [[_ ->]|(t & _ & Hsv & _)] _ _ _ _ _]; [by apply N.leb_le|done]. Qed.
Lemma validated_sv `{Walrus} code abi params o sv : validate_and_transform code abi params = inr (o, sv) → (sv ≤ u32_max)%N.
Proof.
  unfold validate_and_transform. destruct (parse_module code) as [m|]; [|done]. destruct abi. unfold abi_validate.
  destruct (validate_module m params) as [|v] eqn:Hv; [done|]. intros [= _ <-]. by eapply validate_module_sv.
Qed.

(** ** Preconditions on the environment *)

Section env.
Context `{Platform} `{!MKVSLaws} `{!ContractsCodec} `{!ContractsLaws} `{!Snap}.
Notation P := (str CONTRACTS_MODULE_NAME).

Definition wpe {E A} (e : Environment) (m : M E A) (Q : A → Registry → Prop) (r : Registry) : Prop :=
  ∀ s, ready s → registry_of s r → st_env s = e → ∀ a s', m s = (Ok a, s') → ready s' ∧ ∃ r', registry_of s' r' ∧ Q a r'.
Lemma wpe_wp {E A} e (m : M E A) Q r : wp m Q r → wpe e m Q r.
Proof. intros Hm s Hs Hr _. by apply Hm. Qed.
Lemma wpe_leaves {E A B} e (m : M E A) (f : A → M E B) Q r :
  framed m → leaves P m → (∀ a, wpe e (f a) Q r) → wpe e (m ≫= f) Q r.
Proof.
  intros Hfr Hm Hf s Hs Hr He b s'' (a & s' & Ha & Hb)%bind_ok_inv. destruct (Hm s Hs a s' Ha) as [Hs' Hsame].
  pose proof (Hfr s Hs) as Hf'. rewrite Ha in Hf'. cbn [snd] in Hf'. apply (Hf a s' Hs'); [by eapply same_registry_of|rewrite (fr_env _ _ Hf'); done|done].
Qed.
Lemma wpe_env {E A B} e (m : M E A) (f : A → M E B) a Q r :
  (∀ s, st_env s = e → m s = (Ok a, s)) → wpe e (f a) Q r → wpe e (m ≫= f) Q r.
Proof. intros Hm Hf s Hs Hr He b s'. rewrite (bind_ok _ _ _ _ _ (Hm s He)). by apply Hf. Qed.
Lemma wpe_caller {E B} e (f : Address → M E B) Q r : (∀ caller, env_tx_caller_address e = Some caller → wpe e (f caller) Q r) →
  wpe e (with_tx_env env_tx_caller_address ≫= f) Q r.
Proof.
  destruct (env_tx_caller_address e) as [caller|] eqn:Hc; intros Hf.
  - apply (wpe_env _ _ _ caller); [|by apply Hf]. intros s <-. unfold with_tx_env. run_simpl. by rewrite Hc.
  - intros s Hs Hr <- b s' (a & s1 & Ha & _)%bind_ok_inv. unfold with_tx_env in Ha. run_simpl_in Ha. by rewrite Hc in Ha.
Qed.
(** Outside of blocks, handlers may return before they change anything. *)
Lemma wpe_execute `{!CborValue bool} {E B} ctx e (f : bool → M E B) Q r : env_mode e = Execute ∨ wpe e (f false) Q r →
  wpe e (f true) Q r → wpe e (should_execute_contracts ctx ≫= f) Q r.
Proof.
  intros [Hm|Hskip] Hf.
  - apply (wpe_env _ _ _ true); [|done]. intros s <-. unfold should_execute_contracts, with_env. run_simpl. by rewrite Hm.
  - apply wpe_leaves; [unfold should_execute_contracts; solve_framed|by apply leaves_execute|by intros []].
Qed.
Lemma wpe_params {E B} e (f : ContractsParameters → M E B) Q r : (∀ p, wpe e (f p) Q r) → wpe e (contracts_params ≫= f) Q r.
Proof.
  intros Hf. apply wpe_leaves; [unfold contracts_params; solve_framed| |done].
  apply leaves_read. apply reads_bind; [apply reads_typed_get|intros; apply reads_ret].
Qed.
End env.

(** * Handlers *)

(** The transactions of the module. *)
Inductive ContractsTx := TxUpload (body : Upload) | TxInstantiate (body : Instantiate) | TxCall (body : ContractCall)
  | TxChangeUpgradePolicy (body : ChangeUpgradePolicy) | TxUpgrade (body : Upgrade).
(** The identifiers in it are numbers of 64 bits. *)
Definition tx_fits (tx : ContractsTx) : Prop :=
  match tx with
  | TxUpload _ => True
  | TxInstantiate body => fits64 (ins_code_id body)
  | TxCall body => fits64 (cc_id body)
  | TxChangeUpgradePolicy body => fits64 (cup_id body)
  | TxUpgrade body => fits64 (ug_id body) ∧ fits64 (ug_code_id body)
  end.
(** What a transaction of a caller does to the registry.  Uploaded code is decompressed, validated and instrumented for the
    parameters of the module, and is registered with the hash of the result. *)
Definition tx_spec `{Crypto, Snap, Walrus} (caller : Address) (tx : ContractsTx) (r r' : Registry) : Prop :=
  match tx with
  | TxUpload body => ∃ p plain w sv, snap_decode (Some (max_code_size p)) (up_code body) = Some plain ∧
      validate_and_transform plain (up_abi body) p = inr (Some w, sv) ∧
      r' = put_code (new_code caller (up_abi body) (up_instantiate_policy body) w sv r) w (bump_code r)
  | TxInstantiate body => ∃ c, codes r !! ins_code_id body = Some c ∧ permits (code_instantiate_policy c) caller ∧
      evolves (put_deployed (new_instance caller (ins_code_id body) (ins_upgrades_policy body) r) (bump_instance r)) r'
  | TxCall body => is_Some (deployed r !! cc_id body) ∧ evolves r r'
  | TxChangeUpgradePolicy body => ∃ i, deployed r !! cup_id body = Some i ∧ permits (inst_upgrades_policy i) caller ∧
      r' = put_deployed (with_policy (cup_upgrades_policy body) i) r
  | TxUpgrade body => ∃ i c, deployed r !! ug_id body = Some i ∧ permits (inst_upgrades_policy i) caller ∧
      inst_code_id i ≠ ug_code_id body ∧ codes r !! ug_code_id body = Some c ∧ r' = put_deployed (with_code (ug_code_id body) i) r
  end.
Lemma tx_spec_evolves `{Crypto, Snap, Walrus} caller tx r r' : tx_spec caller tx r r' → evolves r r'.
Proof.
  destruct tx as [body|body|body|body|body]; simpl.
  - intros (p & plain & w & sv & _ & Hsv%validated_sv & ->). by eapply evolves_step, step_upload.
  - intros (c & Hc & He & Hev). etrans; [|exact Hev]. by eapply evolves_step, step_instantiate.
  - by intros [_ Hev].
  - intros (i & Hi & He & ->). by eapply evolves_step, step_change_policy.
  - intros (i & c & Hi & He & Hne & Hc & ->). by eapply evolves_step, step_upgrade.
Qed.

Section handlers.
Context `{Platform} `{!MKVSLaws} `{!TxCodec} `{!CallCrypto} `{!CoreCodec} `{!CoreConfig} `{!DispatchCodec} `{!AccountsCodec}.
Context `{!StoreCrypto} `{!VrfCrypto} `{!ContractsPlatform} `{!ContractsCodec} `{!ContractsLaws} `{!Snap} `{!LruCache} `{Wasm3} `{Walrus}.
Context (R : SubcallStack → Runtime) `{!RegistryRuntime R} (stack : SubcallStack) (found : Code → Lru).
Notation P := (str CONTRACTS_MODULE_NAME).

Definition contracts_tx (ctx : Ctx) (tx : ContractsTx) : M ContractsError unit :=
  match tx with
  | TxUpload body => tx_upload found ctx body ;; mret tt
  | TxInstantiate body => tx_instantiate R stack found ctx body ;; mret tt
  | TxCall body => contracts_tx_call R stack found ctx body ;; mret tt
  | TxChangeUpgradePolicy body => tx_change_upgrade_policy ctx body
  | TxUpgrade body => tx_upgrade stack found ctx body
  end.

Lemma evolving_message (process : ExecutionOk → M ContractsError bytes) ctx p c ro cf data msg :
  (∀ ok, evolving (process ok)) → evolving (process_message R stack process ctx p c ro cf data msg).
Proof.
  intros Hp. unfold process_message. destruct msg as [id reply method body max_gas d|]; [|apply evolving_leaves; solve_leaves].
  apply evolving_bind; [apply evolving_leaves; solve_leaves|]. intros g.
  apply evolving_bind; [apply evolving_map_err, evolving_subcall, _|]. intros res.
  apply evolving_bind; [apply evolving_leaves, leaves_ct_use_gas|]. intros _.
  destruct (notifies _ _); [|apply evolving_leaves; solve_leaves].
  apply evolving_bind; [apply evolving_leaves, leaves_reply_context|]. intros ec.
  apply evolving_bind; [apply evolving_runtime, shielded_call|]. intros rr.
  apply evolving_bind; [apply evolving_leaves, leaves_execution_result|]. intros ok.
  apply evolving_bind; [done|]. intros b. apply evolving_leaves; solve_leaves.
Qed.
Lemma evolving_success ctx p c ok fuel : evolving (process_success R stack (panic "out of fuel") fuel ctx p c ok).
Proof.
  revert ok. induction fuel as [|fuel IH]; intros ok; simpl; [apply evolving_leaves; solve_leaves|].
  apply evolving_bind; [apply evolving_leaves, leaves_events|]. intros _. unfold process_subcalls.
  apply evolving_bind; [apply evolving_leaves, leaves_ct_use_gas|]. intros _.
  do 2 (case_match; [apply evolving_leaves; solve_leaves|]).
  do 2 (apply evolving_bind; [apply evolving_leaves; solve_leaves|intros ?]).
  apply evolving_fold. intros. by apply evolving_message.
Qed.
Lemma evolving_execution_success ctx p c ok : evolving (process_execution_success R stack ctx p c ok).
Proof. intros r Hr s Hs Hreg. unfold process_execution_success. rewrite gets_bind. by apply evolving_success. Qed.

Lemma framed_ct_use_gas gas : framed (ct_use_gas gas).
Proof. unfold ct_use_gas. solve_framed. Qed.
Lemma wp_enforce p caller (Q : unit → Registry → Prop) r : (permits p caller → Q tt r) → wp (enforce_policy p caller) Q r.
Proof. rewrite <-enforce_permits. unfold enforce_policy. destruct (enforce p caller) as [|[]]; intros HQ; [apply wp_throw|by apply wp_ret, HQ]. Qed.
Lemma wp_load_code c (Q : bytes → Registry → Prop) r : (∀ w, Q w r) → wp (load_code found c) Q r.
Proof. intros HQ. apply wp_leaves; [apply leaves_read, reads_load_code|done]. Qed.

(** ** The common beginning and the common end *)

Lemma wpe_charge {B} e gas (f : unit → M ContractsError B) Q r : wpe e (f tt) Q r → wpe e (ct_use_gas gas ≫= f) Q r.
Proof. intros Hf. apply wpe_leaves; [apply framed_ct_use_gas|apply leaves_ct_use_gas|]. by intros []. Qed.
Lemma wp_calm {A B} (m : M ContractsError A) (f : A → M ContractsError B) Q r : leaves P m → (∀ a, wp (f a) Q r) → wp (m ≫= f) Q r.
Proof. intros Hm Hf. by apply wp_bind, wp_leaves. Qed.
(** A contract runs, and its gas is charged. *)
Lemma wp_run_contract {B} ctx p c caller (name : string) request tokens (f : ExecutionOk → M ContractsError B) Q r :
  (∀ ok, wp (f ok) Q r) →
  wp (ec ← tx_execution_context ctx p c caller;
      res ← lift (with_runtime ec c (call_with_request_context stack ec request tokens name));
      ok ← process_execution_result res; f ok) Q r.
Proof.
  intros Hf. apply wp_calm; [apply leaves_tx_context|]. intros ec. apply wp_bind, wp_runtime; [apply shielded_call|]. intros res.
  by apply wp_calm; [apply leaves_execution_result|].
Qed.

Section transactions.
Context (ctx : Ctx) (e : Environment) (r : Registry) (Hr : registry_sound r) (Q : Registry → Prop).
Context (tx : ContractsTx) (Hf : tx_fits tx) (Hskip : env_mode e = Execute ∨ Q r).
(** What a transaction has to do to the registry. *)
Context (HQ : ∀ caller r', env_tx_caller_address e = Some caller → tx_spec caller tx r r' → Q r').
Ltac skips := destruct Hskip as [|Hq]; [by left|right; by apply wpe_wp, wp_ret].

Lemma upload_refines body : tx = TxUpload body → wpe e (tx_upload found ctx body) (λ _, Q) r.
Proof.
  intros ->. unfold tx_upload. apply wpe_params. intros p. apply wpe_caller. intros caller Hc.
  do 2 (case_match; [apply wpe_wp, wp_throw|]). do 2 apply wpe_charge.
  destruct (snap_decode _ _) as [code|] eqn:Hsnap; [|by intros ? ? ? ? ? ? ?].
  apply (wpe_env _ _ _ code); [done|]. apply wpe_leaves; [solve_framed|solve_leaves|]. intros size.
  apply wpe_charge. apply wpe_execute; [skips|]. apply wpe_wp. cbn [negb].
  destruct (validate_and_transform _ _ _) as [|[[w|] sv]] eqn:Hv; [apply wp_throw| |apply wp_panic]. pose proof (validated_sv _ _ _ _ _ Hv).
  do 2 (case_match; [apply wp_throw|]). apply wp_calm; [apply leaves_ct_use_gas|]. intros _.
  apply wp_bind, wp_next_code. apply wp_bind, wp_store_code; [apply Hr|]. apply wp_bind, wp_store_code_info; [apply Hr|done|].
  apply wp_ret. eapply HQ; [done|]. by exists p, code, w, sv.
Qed.
Lemma instantiate_refines body : tx = TxInstantiate body → wpe e (tx_instantiate R stack found ctx body) (λ _, Q) r.
Proof.
  intros ->. unfold tx_instantiate. apply wpe_params. intros p. apply wpe_caller. intros caller Hc.
  apply wpe_charge. apply wpe_execute; [skips|]. apply wpe_wp. cbn [negb].
  apply wp_bind, wp_load_code_info; [done|]. intros c Hcode. apply wp_bind, wp_enforce. intros Hpol.
  apply wp_bind, wp_load_code. intros w. apply wp_bind, wp_next_instance. apply wp_bind, wp_store_instance_info; [apply Hr|done|].
  apply wp_calm; [apply leaves_transfer_attached|]. intros _. apply wp_run_contract. intros ok.
  apply wp_bind. eapply wp_mono; [apply evolving_execution_success|].
  - eapply step_sound, Hr. by apply (step_instantiate caller r (ins_code_id body) c (ins_upgrades_policy body)).
  - intros ? r' Hev. apply wp_ret. eapply HQ; [done|]. by exists c.
Qed.
Lemma call_refines body : tx = TxCall body → wpe e (contracts_tx_call R stack found ctx body) (λ _, Q) r.
Proof.
  intros ->. unfold contracts_tx_call. apply wpe_params. intros p. apply wpe_caller. intros caller Hc.
  apply wpe_charge. apply wpe_execute; [skips|]. apply wpe_wp. cbn [negb].
  apply wp_bind, wp_load_instance_info; [done|]. intros i Hi. destruct (sd_instance _ Hr _ _ Hi) as (_ & _ & Hfc & _).
  apply wp_bind, wp_load_code_info; [done|]. intros c Hcode. apply wp_bind, wp_load_code. intros w.
  apply wp_calm; [apply leaves_transfer_attached|]. intros _. apply wp_run_contract. intros ok.
  eapply wp_mono; [by apply evolving_execution_success|]. intros ? r' Hev. eapply HQ; [done|]. by split; [eexists|].
Qed.
Lemma change_policy_refines body : tx = TxChangeUpgradePolicy body → wpe e (tx_change_upgrade_policy ctx body) (λ _, Q) r.
Proof.
  intros ->. unfold tx_change_upgrade_policy. apply wpe_params. intros p. apply wpe_caller. intros caller Hc.
  apply wpe_charge. apply (wpe_env _ _ _ (is_check_only e)); [by intros s <-|].
  destruct (is_check_only e) eqn:Hck; [destruct Hskip as [Hm|Hq]; [by unfold is_check_only in Hck; rewrite Hm in Hck|by apply wpe_wp, wp_ret]|].
  apply wpe_wp. apply wp_bind, wp_load_instance_info; [done|]. intros i Hi. destruct (sd_instance _ Hr _ _ Hi) as (Hid & Hfit & Hfc & _).
  apply wp_bind, wp_enforce. intros Hpol. apply wp_store_instance_info; [by rewrite <-Hid in Hfit|done|].
  eapply HQ; [done|]. by exists i.
Qed.
Lemma upgrade_refines body : tx = TxUpgrade body → wpe e (tx_upgrade stack found ctx body) (λ _, Q) r.
Proof.
  intros ->. destruct Hf as [Hfit Hfc]. unfold tx_upgrade. apply wpe_params. intros p. apply wpe_caller. intros caller Hc.
  apply wpe_charge. apply wpe_execute; [skips|]. apply wpe_wp. cbn [negb].
  apply wp_bind, wp_load_instance_info; [done|]. intros i Hi. destruct (sd_instance _ Hr _ _ Hi) as (Hid & _ & Hfi & _).
  apply wp_bind, wp_enforce. intros Hpol. destruct (N.eqb_spec (inst_code_id i) (ug_code_id body)) as [|Hne]; [apply wp_throw|].
  apply wp_bind, wp_load_code_info; [done|]. intros c0 _. apply wp_bind, wp_load_code. intros w0.
  apply wp_calm; [apply leaves_transfer_attached|]. intros _. apply wp_run_contract. intros _.
  apply wp_bind, wp_load_code_info; [done|]. intros c Hcode. apply wp_bind, wp_load_code. intros w.
  apply wp_bind, wp_store_instance_info; [by rewrite <-Hid in Hfit|done|]. apply wp_run_contract. intros _.
  apply wp_ret. eapply HQ; [done|]. by exists i, c.
Qed.
(** All of them together. *)
Lemma contracts_tx_refines : wpe e (contracts_tx ctx tx) (λ _, Q) r.
Proof.
  assert (∀ A (m : M ContractsError A), wpe e m (λ _, Q) r → wpe e (m ;; mret tt) (λ _, Q) r) as Hret.
  { intros A m Hq s Hs Hreg He a s' (x & s1 & Hx & [= _ <-])%bind_ok_inv. by eapply Hq. }
  enough (∀ t, tx = t → wpe e (contracts_tx ctx t) (λ _, Q) r) as Hall by auto. intros [] Ht; simpl; [apply Hret..| |].
  - by apply upload_refines.
  - by apply instantiate_refines.
  - by apply call_refines.
  - by apply change_policy_refines.
  - by apply upgrade_refines.
Qed.
End transactions.
Lemma contracts_tx_spec ctx tx e caller r : env_tx_caller_address e = Some caller → env_mode e = Execute → registry_sound r → tx_fits tx →
  wpe e (contracts_tx ctx tx) (λ _, tx_spec caller tx r) r.
Proof. intros Hc Hm Hr Hf. apply contracts_tx_refines; [done..|by left|]. intros caller' r' Hc'. by simplify_eq. Qed.
(** In any mode, the registry evolves. *)
Lemma evolving_tx ctx tx : tx_fits tx → evolving (contracts_tx ctx tx).
Proof.
  intros Hf r Hr s Hs Hreg a s' Hrun. eapply (contracts_tx_refines ctx (st_env s) r Hr (evolves r) tx Hf); [by right| |done..].
  intros caller r' _. apply tx_spec_evolves.
Qed.

(** In a sound registry, an instance and its code are found, with any cache that there can be. *)
Lemma instance_loads `{!SnapLaws} `{!LruLaws} s r id : registry_of s r → registry_sound r → is_Some (deployed r !! id) →
  ∃ i c, load_instance_info id s = (Ok i, s) ∧ inst_id i = id ∧ load_code_info (inst_code_id i) s = (Ok c, s) ∧
    ∀ cache, reachable_cache cache →
      ∃ w cache', load_code_cached cache c s = (Ok (w, cache'), s) ∧ digest [w] = code_hash c ∧ reachable_cache cache'.
Proof.
  intros Hs Hr [i Hi]. destruct (sd_instance _ Hr _ _ Hi) as (Hid & Hfit & Hfc & c & Hc).
  destruct (sd_code _ Hr _ _ Hc) as (Hcid & _ & w & Hw & Hdig). rewrite <-Hcid in Hw.
  assert (load_code_info (inst_code_id i) s = (Ok c, s)) as Hinfo by (by rewrite (load_code_info_run s r _ Hs Hfc), Hc).
  exists i, c. split_and!; [by rewrite (load_instance_info_run s r id Hs Hfit), Hi|done|done|]. intros cache Hcache.
  pose proof (load_cached_run cache s r c w Hs ltac:(by rewrite Hcid) Hw) as Hload. pose proof (reachable_honest cache Hcache (code_hash c)) as Hh.
  assert (∃ w' cache', load_code_cached cache c s = (Ok (w', cache'), s) ∧ digest [w'] = code_hash c) as (w' & cache' & Hrun & Hdig').
  { rewrite Hload. destruct (lru_get cache (code_hash c)) as [[w'|] c']; eexists _, _; split; [done|auto|done|done]. }
  exists w', cache'. split_and!; [done|done|]. eapply rtc_r; [exact Hcache|]. by eapply cache_load.
Qed.
End handlers.

(** * The module in a runtime *)

Section framed_module.
Context `{Platform} `{!MKVSLaws} `{!TxCodec} `{!CallCrypto} `{!CoreCodec} `{!CoreConfig} `{!DispatchCodec} `{!AccountsCodec}.
Context `{!StoreCrypto} `{!VrfCrypto} `{!ContractsPlatform} `{!ContractsCodec} `{!Snap} `{!LruCache} `{Wasm3} `{Walrus} `{!ContractsBodies}.
Context (R : SubcallStack → Runtime) `{!∀ stack, FramedRuntime (R stack)} (stack : SubcallStack) (found : Code → Lru).

Lemma framed_reads {E A} (m : M E A) : reads m → framed m.
Proof. intros Hm s Hs. rewrite Hm. by apply frame_refl. Qed.
Lemma framed_runtime {E} ec c f : shielded ec f → framed (E := E) (lift (with_runtime ec c f)).
Proof. intros Hf. apply framed_lift. intros s Hs. apply (iso_frame _ _ _ (isolates_with_runtime ec c f Hf s Hs)). Qed.
Lemma framed_load_code c : framed (load_code found c).
Proof. apply framed_reads, reads_load_code. Qed.
Lemma framed_contracts_params {E} : framed (contracts_params (E := E)).
Proof. unfold contracts_params. solve_framed. Qed.
Hint Resolve framed_load_code framed_contracts_params framed_ct_use_gas framed_next_identifier framed_store_code framed_subcall : framed.
Ltac runs := apply framed_bind; [apply framed_runtime, shielded_call|intros ?].

Lemma framed_execution_result res : framed (process_execution_result res).
Proof. unfold process_execution_result. solve_framed. Qed.
Lemma framed_reply_context ctx p c ro cf : framed (reply_execution_context ctx p c ro cf).
Proof. unfold reply_execution_context. solve_framed. Qed.
Lemma framed_tx_context ctx p c caller : framed (tx_execution_context ctx p c caller).
Proof. unfold tx_execution_context. solve_framed. Qed.
Lemma framed_execute {E} ctx : framed (should_execute_contracts (E := E) ctx).
Proof. unfold should_execute_contracts. solve_framed. Qed.
Lemma framed_policy p caller : framed (enforce_policy p caller).
Proof. unfold enforce_policy. solve_framed. Qed.
Lemma framed_attached from to tokens : framed (transfer_attached from to tokens).
Proof. unfold transfer_attached. solve_framed. Qed.
Lemma framed_instance_info id : framed (load_instance_info id).
Proof. unfold load_instance_info. solve_framed. Qed.
Lemma framed_code_info id : framed (load_code_info id).
Proof. unfold load_code_info. solve_framed. Qed.
Lemma framed_store_instance {E} i : framed (store_instance_info (E := E) i).
Proof. unfold store_instance_info. solve_framed. Qed.
Hint Resolve framed_execution_result framed_reply_context framed_tx_context framed_execute framed_policy framed_attached framed_instance_info
  framed_code_info framed_store_instance : framed.
Lemma framed_fold {A B} (l : list A) (b : B) (f : B → A → M ContractsError B) : (∀ b x, framed (f b x)) → framed (fold_m l b f).
Proof. intros Hf. revert b. induction l as [|x l IH]; intros b; simpl; [solve_framed|]. by apply framed_bind. Qed.
Lemma framed_success ctx p c fuel : ∀ ok, framed (process_success R stack (panic "out of fuel") fuel ctx p c ok).
Proof.
  induction fuel as [|fuel IH]; intros ok; simpl; [solve_framed|]. apply framed_bind; [unfold process_events; solve_framed|]. intros _.
  unfold process_subcalls. apply framed_bind; [solve_framed|]. intros _. do 2 (case_match; [solve_framed|]).
  do 2 (apply framed_bind; [solve_framed|intros ?]). apply framed_fold. intros b [id reply method body mg d|]; simpl; [|solve_framed].
  apply framed_bind; [solve_framed|]. intros g. cbv zeta. apply framed_bind; [solve_framed|]. intros res.
  apply framed_bind; [solve_framed|]. intros _. case_match; [|solve_framed]. apply framed_bind; [solve_framed|]. intros ec.
  runs. apply framed_bind; [solve_framed|]. intros ok'. apply framed_bind; [apply IH|]. intros. solve_framed.
Qed.
Lemma framed_execution_success ctx p c ok : framed (process_execution_success R stack ctx p c ok).
Proof. unfold process_execution_success. apply framed_bind; [solve_framed|]. intros limit. apply framed_success. Qed.
Hint Resolve framed_execution_success : framed.
Ltac solve_handler := repeat first [solve [solve_framed]|runs|apply framed_bind; [|intros ?]|case_match].
Lemma framed_contracts_call ctx method body : framed (contracts_dispatch_call R stack found ctx method body).
Proof.
  unfold contracts_dispatch_call, tx_upload, tx_instantiate, contracts_tx_call, tx_change_upgrade_policy, tx_upgrade, store_code_info.
  repeat (case_match; [apply framed_dispatch_call_with; intros ?; solve_handler|]). solve_framed.
Qed.
Lemma framed_contracts_query ctx method args : framed (contracts_dispatch_query stack found ctx method args).
Proof.
  unfold contracts_dispatch_query, query_code, query_code_storage, query_contract_instance, query_instance_raw_storage, query_public_key, query_custom.
  repeat (case_match; [apply framed_dispatch_query_with; intros ?; solve_handler|]). solve_framed.
Qed.
Lemma contracts_handlers_framed : FramedHandlers (contracts_handlers R stack found).
Proof. split; intros; [apply framed_contracts_call|apply framed_contracts_query|apply framed_ret..]. Qed.
End framed_module.

(** ** Dispatching to modules that keep the registry in order *)

Section dispatched.
Context `{Platform} `{!MKVSLaws} `{!TxCodec} `{!CallCrypto} `{!CoreCodec} `{!CoreConfig} `{!DispatchCodec} `{!AccountsCodec}.
Context `{!ContractsCodec} `{!ContractsLaws} `{!Snap}.
Notation P := (str CONTRACTS_MODULE_NAME).

(** The registry evolves whenever the result is as wanted; else what was done is rolled back. *)
Definition evolves_when {E A} (wanted : A → bool) (m : M E A) : Prop := ∀ s r a s', ready s → registry_of s r → registry_sound r →
  m s = (Ok a, s') → wanted a = true → ready s' ∧ ∃ r', registry_of s' r' ∧ evolves r r'.
Definition settled (x : DispatchResult Value CallResult) : bool := match x with Handled r => is_success r | Unhandled _ => true end.
Definition passed {E A} (x : E + A) : bool := match x with inl _ => false | inr _ => true end.

Lemma evolving_when {E A} (m : M E A) : evolving m → evolves_when (λ _, true) m.
Proof. intros Hm s r a s' Hs Hr Hsd Hrun _. by apply (Hm r Hsd s Hs Hr a). Qed.
Lemma when_evolving {E A} (m : M E A) : evolves_when (λ _, true) m → evolving m.
Proof. intros Hm r Hsd s Hs Hr a s' Hrun. by apply (Hm s r a s'). Qed.
Lemma evolves_when_try {E E' A} (m : M E A) : evolving m → evolves_when passed (try_ (E' := E') m).
Proof.
  intros Hm s r a s' Hs Hr Hsd. unfold try_. destruct (m s) as [[x|e|p] s1] eqn:Hx; intros [= <- <-] Hw; [|done].
  by apply (Hm r Hsd s Hs Hr x).
Qed.
Lemma evolves_when_bind {E A B} (wa : A → bool) (wb : B → bool) (m : M E A) (f : A → M E B) :
  evolves_when wa m → (∀ a, wa a = true → evolves_when wb (f a)) → (∀ a s b s', wa a = false → f a s = (Ok b, s') → wb b = false) →
  evolves_when wb (m ≫= f).
Proof.
  intros Hm Hf Hno s r b s' Hs Hr Hsd (a & s1 & Ha & Hb)%bind_ok_inv Hw.
  destruct (wa a) eqn:Hwa; [|by rewrite (Hno a s1 b s' Hwa Hb) in Hw].
  destruct (Hm s r a s1 Hs Hr Hsd Ha Hwa) as (Hs1 & r1 & Hr1 & Hev).
  destruct (Hf a Hwa s1 r1 b s' Hs1 Hr1 (evolves_sound _ _ Hev Hsd) Hb Hw) as (Hs2 & r2 & Hr2 & Hev2).
  split; [done|]. exists r2. split; [done|by etrans].
Qed.
Lemma evolves_when_ret {E A} (w : A → bool) (a : A) : evolves_when (E := E) w (mret a).
Proof. intros s r b s' Hs Hr _ [= _ <-] _. split; [done|]. by exists r. Qed.
Lemma evolves_when_weaken {E A} (w w' : A → bool) (m : M E A) : (∀ a, w' a = true → w a = true) → evolves_when w m → evolves_when w' m.
Proof. intros Hw Hm s r a s' Hs Hr Hsd Hrun Ha. eapply Hm; eauto. Qed.
Lemma evolves_when_leaves {E A} (w : A → bool) (m : M E A) : leaves P m → evolves_when w m.
Proof. intros Hm. eapply evolves_when_weaken; [|apply evolving_when, evolving_leaves, Hm]. done. Qed.

(** What a module promises: its handlers of calls, when they succeed, change the registry by steps only. *)
Class RegistryHandlers (h : Handlers) : Prop := {
  rh_framed :: FramedHandlers h;
  rh_before ctx c : evolving (before_handle_call h ctx c);
  rh_authorized ctx c : evolving (before_authorized_call_dispatch h ctx c);
  rh_dispatch ctx m b : evolves_when settled (dispatch_call h ctx m b);
  rh_after ctx res : evolving (after_handle_call h ctx res);
}.
(** The same of all modules of a runtime that make subcalls to it. *)
Class RegistryModules (modules : (SubcallStack → Runtime) → SubcallStack → list Handlers) : Prop :=
  registry_modules R stack : RegistryRuntime R → Forall RegistryHandlers (modules R stack).

Lemma evolving_for_each {E A} (l : list A) (body : A → M E unit) : Forall (λ x, evolving (body x)) l → evolving (for_each l body).
Proof. induction 1 as [|x l Hx _ IH]; simpl; [apply evolving_leaves; solve_leaves|]. by apply evolving_bind. Qed.
Lemma evolves_first (fs : list (Value → M Empty_set (DispatchResult Value CallResult))) b :
  Forall (λ f, ∀ b, evolves_when settled (f b)) fs → evolves_when settled (first_handled fs b).
Proof.
  intros Hfs. revert b. induction Hfs as [|f fs Hf _ IH]; intros b; simpl; [apply evolves_when_ret|].
  apply (evolves_when_bind settled); [apply Hf| |].
  - intros [x|b'] _; [apply evolves_when_ret|apply IH].
  - intros [x|b'] s y s' Hx; [|done]. intros [= <- _]. exact Hx.
Qed.
Lemma evolves_after_all ms ctx res e : Forall RegistryHandlers ms →
  evolves_when (λ _, bool_decide (e = None)) (after_handle_all ms ctx res e) ∧ ∀ s x s', e ≠ None → after_handle_all ms ctx res e s ≠ (Ok x, s').
Proof.
  intros Hms. revert e. induction Hms as [|h ms Hh _ IH]; intros e; simpl.
  { destruct e; split; [apply evolves_when_leaves; solve_leaves|done|apply evolves_when_ret|done]. }
  split.
  - apply (evolves_when_bind passed); [by apply evolves_when_try, rh_after| |].
    + intros [e'|[]] Hp; [done|]. simpl. apply IH.
    + intros [e'|[]] s b s' Hp Hrun; [|done]. exfalso. destruct (IH (match e with None => Some e' | Some _ => e end)) as [_ Hno].
      eapply Hno, Hrun. by destruct e.
  - intros s x s' He (a & s1 & _ & Hrun)%bind_ok_inv. eapply (proj2 (IH _)), Hrun. by destruct a, e.
Qed.
Lemma compose_registry ms : Forall RegistryHandlers ms → RegistryHandlers (compose ms).
Proof.
  intros Hms. split; intros; simpl.
  - apply compose_framed. eapply Forall_impl; [exact Hms|]. intros h Hh. apply _.
  - apply evolving_for_each. eapply Forall_impl; [exact Hms|]. intros h Hh. apply rh_before.
  - apply evolving_for_each. eapply Forall_impl; [exact Hms|]. intros h Hh. apply rh_authorized.
  - apply evolves_first, Forall_fmap. eapply Forall_impl; [exact Hms|]. intros h Hh b'. apply rh_dispatch.
  - apply when_evolving. by apply (evolves_after_all ms ctx res None).
Qed.

Lemma reads_decode_call ctx call index : reads (decode_call ctx call index).
Proof.
  unfold decode_call, decode_call_ex, verify_epoch, with_env.
  repeat first [done|apply reads_bind; [|intros ?]|match goal with |- reads (ok_or ?o _) => by destruct o
    | |- reads (match ?x with _ => _ end) => destruct x end].
Qed.
Definition succeeded (x : CallResult * Metadata) : bool := is_success x.1.
Lemma dispatch_tx_call_evolves rt ctx call opts : RegistryHandlers (rt_modules rt) →
  evolves_when succeeded (dispatch_tx_call rt ctx call opts).
Proof.
  intros Hrt. unfold dispatch_tx_call. apply (evolves_when_bind succeeded).
  - unfold dispatch_tx_call_. apply (evolves_when_bind passed); [by apply evolves_when_try, rh_before| |].
    2:{ intros [e|] s b s' Hp; [|done]. intros [= <- _]. apply into_call_result_fails. }
    intros [|[]] _; [apply evolves_when_ret|]. apply (evolves_when_bind (λ _, true)); [|intros d _|done].
    { by apply evolves_when_leaves, leaves_read, reads_try, reads_decode_call. }
    destruct d as [e|[[c md]|]]; [apply evolves_when_ret| |apply evolves_when_ret]. case_match; [apply evolves_when_ret|].
    apply (evolves_when_bind passed); [by apply evolves_when_try, rh_authorized| |].
    2:{ intros [e|] s b s' Hp; [|done]. intros [= <- _]. apply into_call_result_fails. }
    intros [|[]] _; [apply evolves_when_ret|]. apply (evolves_when_bind settled); [apply rh_dispatch|intros; apply evolves_when_ret|].
    intros [x|b] s y s' Hx; [|done]. intros [= <- _]. exact Hx.
  - intros [res md] Hres. apply (evolves_when_bind passed); [by apply evolves_when_try, rh_after| |].
    2:{ intros [e|] s b s' Hp; [|done]. intros [= <- _]. apply into_call_result_fails. }
    intros [|[]] _; [apply evolves_when_ret|]. apply (evolves_when_bind (λ _, true)); [apply evolves_when_leaves, leaves_read; done|intros pd _|done].
    case_match; apply evolves_when_ret.
  - intros [res md] s [res' md'] s' Hres (a & s1 & _ & Hrun)%bind_ok_inv. destruct a as [e|[]].
    + injection Hrun as <- _ _. apply into_call_result_fails.
    + apply bind_ok_inv in Hrun as (pd & s2 & _ & Hrun). case_match; injection Hrun as <- _ _; [apply into_call_result_fails|exact Hres].
Qed.
Lemma subcall_commits rt ctx call s x s' r : RegistryHandlers (rt_modules rt) → ready s → registry_of s r → registry_sound r →
  subcall_body rt ctx call s = (Ok (Commit x), s') → ∃ r', registry_of s' r' ∧ evolves r r'.
Proof.
  intros Hrt Hs Hr Hsd. unfold subcall_body. intros ([res md] & s1 & Hd & Hrun)%bind_ok_inv.
  apply bind_ok_inv in Hrun as (gas & s2 & Hg & Hrun). destruct (is_success res) eqn:Hok; [|done]. injection Hrun as _ <-.
  destruct (dispatch_tx_call_evolves rt ctx call _ Hrt s r _ s1 Hs Hr Hsd Hd Hok) as (Hs1 & r1 & Hr1 & Hev). exists r1. split; [|done].
  assert (leaves P (remaining_tx_gas (E := Empty_set))) as Hl by solve_leaves. eapply same_registry_of, Hr1. by apply (Hl s1 Hs1 gas).
Qed.
End dispatched.

(** ** The module among others *)

Section runtime.
Context `{Platform} `{!MKVSLaws} `{!TxCodec} `{!CallCrypto} `{!CoreCodec} `{!CoreConfig} `{!DispatchCodec} `{!AccountsCodec}.
Context `{!StoreCrypto} `{!VrfCrypto} `{!ContractsPlatform} `{!ContractsCodec} `{!ContractsLaws} `{!Snap} `{!LruCache} `{Wasm3} `{Walrus}.
Context `{!ContractsBodies} `{!ContractsBodiesLaws}.

Lemma dispatch_call_evolves {B T} `{!CborValue B, !CborValue T} body (f : B → M ContractsError T) :
  (∀ b, from_value body = Some b → evolving (f b)) → evolves_when settled (dispatch_call_with body f).
Proof.
  intros Hf. unfold dispatch_call_with. destruct (from_value body) as [b|] eqn:Hb; [|apply evolves_when_ret].
  apply (evolves_when_bind passed); [by apply evolves_when_try, Hf| |].
  - intros [e|x] _; apply evolves_when_ret.
  - intros [e|x] s y s' Hp; [|done]. intros [= <- _]. apply into_call_result_fails.
Qed.
#[export] Instance contracts_handlers_registry R stack found : RegistryRuntime R → RegistryHandlers (contracts_handlers R stack found).
Proof.
  intros HR. assert (∀ E A (a : A), evolving (E := E) (mret a)) as Hret by (intros; apply evolving_leaves; solve_leaves).
  assert (∀ A B (m : M ContractsError A) (g : A → B), evolving (m ;; mret tt) → evolving (x ← m; mret (g x))) as Hres.
  { intros A B m g Hm r Hr s Hs Hreg b s' (x & s1 & Hx & Hb)%bind_ok_inv. injection Hb as _ <-.
    eapply (Hm r Hr s Hs Hreg tt). by rewrite (bind_ok _ _ _ _ _ Hx). }
  split; [by apply contracts_handlers_framed, rr_framed|intros; apply Hret..| |intros; apply Hret].
  intros ctx m body. simpl. unfold contracts_dispatch_call.
  repeat (case_match; [apply dispatch_call_evolves; intros b Hb|]); [| | | | |apply evolves_when_ret].
  - apply Hres, (evolving_tx R stack found ctx (TxUpload b)). done.
  - apply Hres, (evolving_tx R stack found ctx (TxInstantiate b)). by eapply ctb_instantiate_fits.
  - apply Hres, (evolving_tx R stack found ctx (TxCall b)). by eapply ctb_call_fits.
  - apply (evolving_tx R stack found ctx (TxChangeUpgradePolicy b)). by eapply ctb_change_fits.
  - apply (evolving_tx R stack found ctx (TxUpgrade b)). by eapply ctb_upgrade_fits.
Qed.

Context (rt : Runtime) `{!FramedRuntime rt} (front back : (SubcallStack → Runtime) → SubcallStack → list Handlers).
Context `{!RegistryModules front} `{!RegistryModules back} (found : Code → Lru).
Lemma exhausted_registry : RegistryHandlers exhausted_handlers.
Proof.
  split; [split; intros; first [apply framed_ret|apply framed_panic]|intros; by apply evolving_leaves, leaves_read..|
    |intros; by apply evolving_leaves, leaves_read].
  intros ctx m b s r a s' _ _ _ Hrun. done.
Qed.
Lemma modules_registry modules : (∀ stack, RegistryHandlers (modules stack)) → RegistryRuntime (λ stack, with_modules rt (modules stack)).
Proof.
  intros Hm. split.
  - intros stack. split; [apply Hm|apply (fr_init_or_migrate (R := rt))|apply (fr_migrate_state (R := rt))].
  - intros stack ctx call s x s' r Hs Hr Hsd. apply (subcall_commits (with_modules rt (modules stack)) ctx call s x s' r (Hm stack) Hs Hr Hsd).
Qed.
(** The core and the accounts module among them; the tables of methods are those of [methods]. *)
Lemma core_registry methods : RegistryHandlers methods → RegistryHandlers (core_handlers methods).
Proof.
  intros Hm. assert (FramedHandlers (core_handlers methods)) as Hf by (apply core_handlers_framed, _).
  split; [done|intros ctx c|intros ctx c|intros ctx m b|intros ctx res]; simpl.
  - apply evolving_leaves, (leaves_confined _ accounts_prefix); [done|apply (framed_before_handle_call (h := core_handlers methods))|].
    unfold core_before_handle_call, enforce_min_gas_price, min_gas_price, min_gas_prices, get_local_min_gas_price, local_config, use_tx_gas, use_batch_gas, used_batch_gas, core_params. solve_confined.
  - by apply evolving_leaves, leaves_read.
  - apply rh_dispatch.
  - apply evolving_leaves, (leaves_confined _ accounts_prefix); [done|apply (framed_after_handle_call (h := core_handlers methods) ctx res)|].
    unfold core_after_handle_call, use_tx_gas, use_batch_gas, used_batch_gas, used_tx_gas, core_params. solve_confined.
Qed.
Lemma accounts_registry `{!AccountsRuntime} methods : (∀ (ctx : Ctx) (tx : Transaction), framed (resolve_payer ctx tx)) →
  RegistryHandlers methods → RegistryHandlers (accounts_handlers methods).
Proof.
  intros Hp Hm. assert (FramedHandlers (accounts_handlers methods)) as Hf by (apply accounts_handlers_framed; [done|apply _]).
  split; [done|intros; by apply evolving_leaves, leaves_read..|intros; apply (rh_dispatch (h := methods))|intros ctx res]. simpl.
  apply evolving_leaves, (leaves_confined _ accounts_prefix); [done|apply (framed_after_handle_call (h := accounts_handlers methods) ctx res)|].
  unfold accounts_after_handle_call, take_refund_unused_tx_fee, remaining_tx_gas, remaining_batch_gas, used_batch_gas, max_batch_gas, core_params.
  solve_confined.
Qed.
(** Its messages, and those of the other modules, change the registry by steps only. *)
Lemma contracts_runtime_registry n : RegistryRuntime (contracts_runtime rt front back found n).
Proof.
  induction n as [|n IH]; [apply (modules_registry (λ _, exhausted_handlers)); intros; apply exhausted_registry|].
  apply (modules_registry (λ stack, compose (front (contracts_runtime rt front back found n) stack ++
    contracts_handlers (contracts_runtime rt front back found n) stack found :: back (contracts_runtime rt front back found n) stack))).
  intros stack. apply compose_registry. apply Forall_app. split; [by apply registry_modules|].
  constructor; [by apply contracts_handlers_registry|by apply registry_modules].
Qed.
End runtime.

Module DeploymentClaims.
Section claims.
Context `{Platform} `{!MKVSLaws} `{!TxCodec} `{!CallCrypto} `{!CoreCodec} `{!CoreConfig} `{!DispatchCodec} `{!AccountsCodec}.
Context `{!StoreCrypto} `{!VrfCrypto} `{!ContractsPlatform} `{!ContractsCodec} `{!ContractsLaws} `{!Snap} `{!LruCache} `{Wasm3} `{Walrus}.
Context `{!ContractsBodies} `{!ContractsBodiesLaws}.
(** A runtime with the module between others, for any number of nested subcalls. *)
Context (rt : Runtime) `{!FramedRuntime rt} (front back : (SubcallStack → Runtime) → SubcallStack → list Handlers).
Context `{!RegistryModules front} `{!RegistryModules back} (found : Code → Lru) (n : nat).
Notation R := (contracts_runtime rt front back found n).

(** C25. The handlers of the contracts module refine the registry.  In a runtime that contains the module, among others that reach its tables by
    calls only, a transaction that succeeds in a block does to the tables exactly what the registry prescribes: an upload adds the code that validation and instrumentation
    make of what was sent, with its hash, under the next identifier; an instantiation is one that the policy of the code
    permits to the caller, and adds an instance; a policy is changed or an instance upgraded only if the policy of the instance
    permits it to the caller, and to code that exists.  The messages of contracts and the replies to them, which call the methods of
    this runtime, those of the module included, to any depth, change the registry by such steps of their callers only. *)
Theorem contracts_refine_registry (stack : SubcallStack) (ctx : Ctx) (tx : ContractsTx) (caller : Address) (s s' : State) (r : Registry) :
  ready s → registry_of s r → registry_sound r → tx_fits tx →
  env_tx_caller_address (st_env s) = Some caller → env_mode (st_env s) = Execute →
  contracts_tx R stack found ctx tx s = (Ok tt, s') →
  ∃ r', registry_of s' r' ∧ tx_spec caller tx r r'.
Proof.
  intros Hs Hr Hsd Hf Hc Hm Hrun. pose proof (contracts_runtime_registry rt front back found n) as HR.
  by destruct (contracts_tx_spec R stack found ctx tx _ caller r Hc Hm Hsd Hf s Hs Hr eq_refl tt s' Hrun) as [_ ?].
Qed.

(** C26. Instances run their code.  Records of code and instances are never lost or left dangling: after any
    transaction that succeeds in a block the registry is sound again, and every instance that existed before is found, is stored
    under its identifier, its code is found, and the code that is loaded for it has the recorded hash, whether it comes from the store
    or from the cache of the process: no sequence of loads and uploads, of transactions that are kept or rolled back, puts code
    into the cache under a hash other than its own. *)
Theorem instances_run_their_code `{!SnapLaws} `{!LruLaws} (stack : SubcallStack) (ctx : Ctx) (tx : ContractsTx) (caller : Address)
    (s s' : State) (r : Registry) :
  ready s → registry_of s r → registry_sound r → tx_fits tx →
  env_tx_caller_address (st_env s) = Some caller → env_mode (st_env s) = Execute →
  contracts_tx R stack found ctx tx s = (Ok tt, s') →
  ∃ r', registry_of s' r' ∧ registry_sound r' ∧ ∀ id, is_Some (deployed r !! id) →
    ∃ i c, load_instance_info id s' = (Ok i, s') ∧ inst_id i = id ∧ load_code_info (inst_code_id i) s' = (Ok c, s') ∧
      ∀ cache, reachable_cache cache →
        ∃ w cache', load_code_cached cache c s' = (Ok (w, cache'), s') ∧ digest [w] = code_hash c ∧ reachable_cache cache'.
Proof.
  intros Hs Hr Hsd Hf Hc Hm Hrun. pose proof (contracts_runtime_registry rt front back found n) as HR.
  destruct (contracts_tx_spec R stack found ctx tx _ caller r Hc Hm Hsd Hf s Hs Hr eq_refl tt s' Hrun) as (_ & r' & Hr' & Hev%tx_spec_evolves).
  pose proof (evolves_sound _ _ Hev Hsd) as Hsd'. exists r'. split_and!; [done..|]. intros id Hid.
  by apply (instance_loads s' r'); [..|apply (evolves_grows _ _ Hev)].
Qed.
End claims.
End DeploymentClaims.
