(* ===== verification/ConcreteContracts.v ===== *)
(** The contracts module on the concrete platform: an engine with a small memory and a bump allocator, whose contracts
    store an entry when they are called, or upload code by a message; code is uploaded, instantiated and called. *)
From S2P Require Import Prelude Endian Storage StoreIter Types Fee Errors State Current Concrete Transactions Module Tables.
From S2P Require Import CallFormat Core Gas ConcreteCore Accounts Ledger Accounting Disbursement Moves ConcreteAccounts.
From S2P Require Import Dispatcher Dispatch Subcall ConcreteDispatch ConcreteMarket Metering ContractTypes ValidModules.
From S2P Require Import ConfidentialStore HostMemory HostFunctions Contracts Isolation ContractsGas Registry Deployments.

#[local] Existing Instances toy_platform toy_mkvs_laws toy_codec toy_core_codec toy_core_config toy_accounts_codec
  toy_accounts_laws toy_accounts_runtime Confidential.toy_call_crypto toy_dispatch_codec ConfidentialClaims.toy_store_crypto idle_framed.

(** * The engine *)

Record ToyInstance := { ti_globals : gmap string N; ti_memory : bytes }.
Definition toy_memory : bytes :=
  (replicate 200 x00 ++ serialize {| rg_offset := 208; rg_length := 1 |} ++ [x07; x08] ++ replicate 6 x00 ++
   serialize {| rg_offset := 209; rg_length := 1 |} ++ replicate 32 x00)%list.
Definition toy_global (i : ToyInstance) (n : string) : N := default 0%N (ti_globals i !! n).
Definition toy_set_global (n : string) (v : N) (i : ToyInstance) : ToyInstance :=
  {| ti_globals := <[n := v]> (ti_globals i); ti_memory := ti_memory i |}.
(** A function that costs three units of gas and returns a pointer to its result, which is another one for long requests. *)
Definition toy_return (i : ToyInstance) : WasmRun ToyInstance :=
  Returned (toy_set_global EXPORT_GAS_LIMIT (toy_global i EXPORT_GAS_LIMIT - 3) i) (if (10 <=? toy_global i "heap")%N then 216 else 200).
#[local] Instance toy_wasm3 : Wasm3 := {|
  Instance_ := ToyInstance;
  load_module _ _ _ := Some {| ti_globals := ∅; ti_memory := toy_memory |};
  get_global i n := ti_globals i !! n;
  set_global i n v := Some (toy_set_global n v i);
  memory i := if bool_decide (length (ti_memory i) = 256%nat) then Some (ti_memory i) else None;
  set_memory m i := {| ti_globals := ti_globals i; ti_memory := m |};
  find_function _ _ _ := true;
  run_function i name args :=
    if bool_decide (name = EXPORT_ALLOCATE) then
      Returned (toy_set_global "heap" (toy_global i "heap" + hd 0%N args) i) (toy_global i "heap")
    else if bool_decide (name = EXPORT_CALL) then HostCall i (StorageInsert 0 (208, 1)%N (208, 1)%N) (λ i _, toy_return i)
    else toy_return i;
  wasm3_error := "error";
|}.
#[local] Instance toy_wasm3_laws : Wasm3Laws.
Proof.
  split; simpl; unfold toy_set_global.
  - intros i i' n v [= <-]. apply lookup_insert_eq.
  - intros i i' n n' v Hne [= <-]. by apply lookup_insert_ne.
  - by intros i i' n v [= <-].
  - intros i m0 m. case_bool_decide as Hm; [|done]. intros [= <-] ->. by case_bool_decide.
  - intros i m. case_bool_decide as Hm; [|done]. intros [= <-]. rewrite Hm. by apply N.leb_le.
  - done.
Qed.

(** * Encodings and cryptography *)

#[local] Instance contract_policy_eq_dec : EqDecision ContractPolicy.
Proof. solve_decision. Defined.
#[local] Instance contract_policy_countable : Countable ContractPolicy.
Proof.
  apply (inj_countable' (λ p, match p with Nobody => inl true | Everyone => inl false | OnlyAddress a => inr a end)
    (λ x, match x with inl true => Nobody | inl false => Everyone | inr a => OnlyAddress a end)). by intros [].
Defined.
#[local] Instance code_eq_dec : EqDecision Code.
Proof. assert (EqDecision ABI) by solve_decision. solve_decision. Defined.
#[local] Instance code_countable : Countable Code.
Proof.
  apply (inj_countable' (λ c, (code_id c, code_hash c, code_abi_sv c, code_uploader c, code_instantiate_policy c))
    (λ x, {| code_id := x.1.1.1.1; code_hash := x.1.1.1.2; code_abi := OasisV1; code_abi_sv := x.1.1.2; code_uploader := x.1.2;
             code_instantiate_policy := x.2 |})). by intros [? ? []].
Defined.
#[local] Instance contract_instance_eq_dec : EqDecision ContractInstance.
Proof. solve_decision. Defined.
#[local] Instance contract_instance_countable : Countable ContractInstance.
Proof.
  apply (inj_countable' (λ i, (inst_id i, inst_code_id i, inst_creator i, inst_upgrades_policy i))
    (λ x, {| inst_id := x.1.1.1; inst_code_id := x.1.1.2; inst_creator := x.1.2; inst_upgrades_policy := x.2 |})). by intros [].
Defined.

(** Everything costs one unit. *)
Definition toy_ct_costs : ContractsGasCosts := {|
  gc_tx_upload := 1; gc_tx_upload_per_byte := 1; gc_tx_instantiate := 1; gc_tx_call := 1; gc_tx_upgrade := 1;
  gc_tx_change_upgrade_policy := 1; gc_subcall_dispatch := 1; gc_wasm_public_storage_get_base := 1;
  gc_wasm_public_storage_insert_base := 1; gc_wasm_public_storage_remove_base := 1; gc_wasm_public_storage_key_byte := 1;
  gc_wasm_public_storage_value_byte := 1; gc_wasm_confidential_storage_get_base := 1;
  gc_wasm_confidential_storage_insert_base := 1; gc_wasm_confidential_storage_remove_base := 1;
  gc_wasm_confidential_storage_key_byte := 1; gc_wasm_confidential_storage_value_byte := 1; gc_wasm_env_query_base := 1;
  gc_wasm_crypto_ecdsa_recover := 1; gc_wasm_crypto_signature_verify_ed25519 := 1;
  gc_wasm_crypto_signature_verify_secp256k1 := 1; gc_wasm_crypto_signature_verify_sr25519 := 1;
  gc_wasm_crypto_x25519_derive_symmetric := 1; gc_wasm_crypto_deoxysii_base := 1; gc_wasm_crypto_deoxysii_byte := 1;
  gc_wasm_crypto_random_bytes_base := 1; gc_wasm_crypto_random_bytes_byte := 1;
|}.
Definition toy_ct_params : ContractsParameters := {|
  max_code_size := 1024; max_stack_size := 60; max_memory_pages := 1; max_wasm_functions := 10; max_wasm_locals := 10;
  max_subcall_depth := 8; max_subcall_count := 16; max_result_size_bytes := 1024; max_query_size_bytes := 1024;
  max_storage_key_size_bytes := 64; max_storage_value_size_bytes := 64; max_crypto_signature_verify_message_size_bytes := 64;
  contracts_gas_costs := toy_ct_costs;
|}.
#[local] Instance toy_contracts_codec : ContractsCodec := {|
  ctc_parameters := const_cbor toy_ct_params;
  ctc_id := toy_cbor fits64;
  ctc_code := toy_cbor (λ c, fits64 (code_id c) ∧ (code_abi_sv c ≤ u32_max)%N);
  ctc_instance := toy_cbor (λ i, fits64 (inst_id i) ∧ fits64 (inst_code_id i));
  ctc_local_config := {| to_value _ := []; from_value _ := None |};
  contract_event_value _ b := b;
|}.
#[local] Instance toy_contracts_laws : ContractsLaws.
Proof. split; [apply toy_cbor_laws|done|apply toy_cbor_laws|done|apply toy_cbor_laws|done]. Qed.
#[local] Instance toy_snap : Snap := {|
  snap_encode b := b;
  snap_decode limit b := match limit with Some n => if (N.of_nat (length b) <=? n)%N then Some b else None | None => Some b end;
|}.
#[local] Instance toy_snap_laws : SnapLaws.
Proof. split; [done|]. intros n b b'. simpl. by destruct (N.leb_spec (N.of_nat (length b)) n); intros [= <-]. Qed.
(** A cache that keeps everything. *)
#[local] Instance toy_lru : Contracts.LruCache := {|
  Lru := list (Hash * bytes);
  lru_new _ := [];
  lru_get c h := (snd <$> head (filter (λ x, x.1 = h) c), c);
  lru_contains c h := bool_decide (h ∈ c.*1);
  lru_put c h code := (h, code) :: c;
|}.
#[local] Instance toy_lru_laws : LruLaws.
Proof.
  split; simpl; [done| |done]. intros c h w h' w'. rewrite filter_cons. simpl. destruct (decide (h = h')) as [->|]; [|by right].
  intros [= ->]. by left.
Qed.
#[local] Instance toy_walrus : Walrus := {| parse_module _ := Some ValidationClaims.toy_module; emit_wasm _ := [x2a] |}.

Definition toy_ok : ExecutionOk := {| ok_data := [x2a]; ok_messages := []; ok_events := [] |}.
(** A contract that uploads code. *)
Definition toy_uploads : ExecutionOk :=
  {| ok_data := [x2b]; ok_messages := [MessageCall 1 Never "contracts.Upload" [x01] None None]; ok_events := [] |}.
#[local] Instance toy_contracts_platform : ContractsPlatform := {|
  cp_query := const_cbor UnknownQuery;
  cp_response := const_cbor (BalanceResponse 0);
  cp_context := {| to_vec _ := [x01; x02]; from_slice _ := None; encodable _ := False |};
  cp_result := {| to_vec _ := []; from_slice b :=
    if bool_decide (b = [x07]) then Some (ContractOk toy_ok) else if bool_decide (b = [x08]) then Some (ContractOk toy_uploads) else None; encodable _ := False |};
  cp_reply := {| to_vec _ := [x03]; from_slice _ := None; encodable _ := False |};
  cbor_error := "malformed";
  km_state_key _ := inr [x04];
  public_key_from_bytes _ _ := None;
  verify_raw _ _ _ := false;
  k256_signature _ _ := false; k256_is_high _ := false; k256_recover _ _ _ _ := None;
  x25519_kdf _ _ := exist _ (replicate 32 x00) eq_refl;
  deoxysii_seal_with _ _ m _ := m; deoxysii_open_with _ _ m _ := Some m;
|}.
#[local] Instance toy_vrf : VrfCrypto := {|
  Keypair := unit; expand_to_keypair _ := inr tt; vrf_create_rng _ t := (0%N, t); LeafRng := N; leaf_rng _ r := (r, (r + 1)%N);
  leaf_fill _ n := replicate (N.to_nat n) x00; encoded_header_hash := []; km_error_string _ := ""; km_not_initialized_string := "";
|}.

(** * A block *)

(** Parameters of the core and of the contracts module. *)
Definition toy_ct_root : Store :=
  MKVSStore (<[ str CONTRACTS_MODULE_NAME ++ [x00] := [x01] ]> {[ str "core" ++ [x00] := [x01] ]} : gmap bytes bytes).
Definition toy_ct_state : State := set_tx toy_twm (root_state Execute toy_ct_root).
Lemma toy_ct_wf : store_wf (new_overlay toy_ct_root).
Proof. by apply new_overlay_wf. Qed.
Lemma toy_ct_ready : ready toy_ct_state.
Proof. split; [by eexists|]. eexists. split; [done|]. split; [apply toy_ct_wf|by eexists]. Qed.

Definition empty_registry : Registry := {| codes := ∅; binaries := ∅; deployed := ∅; next_code := 0; next_instance := 0 |}.
Lemma empty_registry_of : registry_of toy_ct_state empty_registry.
Proof.
  assert (Hat : ∀ t k, t ≠ x00 → at_key toy_ct_state (str CONTRACTS_MODULE_NAME ++ t :: k) = None).
  { intros t k Ht. unfold at_key, toy_ct_state, toy_ct_root. simpl.
    rewrite lookup_insert_ne by (intros [= ? ?]; by apply Ht). by apply lookup_singleton_ne. }
  split; [apply toy_ct_ready|apply table_empty..| | |].
  - intros b. by apply (Hat x03 b).
  - intros b. by apply (Hat x04 b).
  - intros id _. by apply (Hat xff).
  - unfold next_at. by rewrite (Hat x01 [] ltac:(done) : at_key _ (str CONTRACTS_MODULE_NAME ++ NEXT_CODE_IDENTIFIER) = _).
  - unfold next_at. by rewrite (Hat x02 [] ltac:(done) : at_key _ (str CONTRACTS_MODULE_NAME ++ NEXT_INSTANCE_IDENTIFIER) = _).
Qed.
Lemma empty_registry_sound : registry_sound empty_registry.
Proof. split; simpl; [by apply N.leb_le..|intros ? ? Hl; by rewrite lookup_empty in Hl|intros ? ? Hl; by rewrite lookup_empty in Hl]. Qed.

Definition toy_upload : Upload := {| up_abi := OasisV1; up_instantiate_policy := OnlyAddress alice; up_code := [x01; x02; x03] |}.
Definition toy_instantiate : Instantiate := {| ins_code_id := 0; ins_upgrades_policy := Nobody; ins_data := [x05]; ins_tokens := [] |}.
Definition toy_invoke : ContractCall := {| cc_id := 0; cc_data := [x06]; cc_tokens := [] |}.
(** A call on which the contract uploads code itself. *)
Definition toy_send : ContractCall := {| cc_id := 0; cc_data := replicate 9 x06; cc_tokens := [] |}.

(** * A runtime with the core, the accounts and the contracts module *)

#[local] Instance toy_bodies : ContractsBodies := {|
  ctb_upload := {| to_value _ := []; from_value _ := Some toy_upload |};
  ctb_upload_result := {| to_value r := be_bytes64 (upr_id r); from_value _ := None |};
  ctb_instantiate := {| to_value _ := []; from_value _ := Some toy_instantiate |};
  ctb_instantiate_result := {| to_value r := be_bytes64 (inr_id r); from_value _ := None |};
  ctb_call := {| to_value _ := []; from_value _ := Some toy_invoke |};
  ctb_call_result := {| to_value := ccr_data; from_value _ := None |};
  ctb_change_upgrade_policy := {| to_value _ := []; from_value _ := None |};
  ctb_upgrade := {| to_value _ := []; from_value _ := None |};
  ctb_unit := {| to_value _ := []; from_value _ := Some tt |};
  ctb_code_query := {| to_value _ := []; from_value _ := None |};
  ctb_code := {| to_value _ := []; from_value _ := None |};
  ctb_code_storage_query := {| to_value _ := []; from_value _ := None |};
  ctb_code_storage_result := {| to_value := csr_code; from_value _ := None |};
  ctb_instance_query := {| to_value _ := []; from_value _ := None |};
  ctb_instance := {| to_value _ := []; from_value _ := None |};
  ctb_instance_storage_query := {| to_value _ := []; from_value _ := None |};
  ctb_instance_storage_result := {| to_value _ := []; from_value _ := None |};
  ctb_instance_raw_storage_query := {| to_value _ := []; from_value _ := None |};
  ctb_instance_raw_storage_result := {| to_value _ := []; from_value _ := None |};
  ctb_public_key_query := {| to_value _ := []; from_value _ := None |};
  ctb_public_key_result := {| to_value _ := []; from_value _ := None |};
  ctb_custom_query := {| to_value _ := []; from_value _ := None |};
  ctb_custom_result := {| to_value := cur_data; from_value _ := None |};
|}.
#[local] Instance toy_bodies_laws : ContractsBodiesLaws.
Proof. split; intros v b; simpl; [intros [= <-]; by apply N.leb_le..|done|done]. Qed.

Definition toy_front (_ : SubcallStack → Runtime) (_ : SubcallStack) : list Handlers := [core_handlers default_handlers].
Definition toy_back (_ : SubcallStack → Runtime) (_ : SubcallStack) : list Handlers := [accounts_handlers default_handlers].
Lemma default_registry : RegistryHandlers default_handlers.
Proof.
  split; [apply _|intros; by apply evolving_leaves, leaves_read..| |intros; by apply evolving_leaves, leaves_read].
  intros. apply evolves_when_ret.
Qed.
#[local] Instance toy_front_registry : RegistryModules toy_front.
Proof. intros R stack _. constructor; [|constructor]. apply core_registry, default_registry. Qed.
#[local] Instance toy_back_registry : RegistryModules toy_back.
Proof. intros R stack _. constructor; [|constructor]. apply accounts_registry, default_registry. intros. apply framed_ret. Qed.
#[local] Instance idle_runtime_framed : FramedRuntime idle_runtime := idle_framed [].

(** The cache has the code of an earlier upload. *)
Definition toy_found (_ : Code) : Lru := [(toy_digest [[x2a]], [x2a])].
Definition toy_rt : SubcallStack → Runtime := contracts_runtime idle_runtime toy_front toy_back toy_found 2.
Definition toy_ct_run (tx : ContractsTx) (s : State) : State := (contracts_tx toy_rt [] toy_found toy_core_ctx tx s).2.
Definition toy_ct_state1 : State := toy_ct_run (TxUpload toy_upload) toy_ct_state.
Definition toy_ct_state2 : State := toy_ct_run (TxInstantiate toy_instantiate) toy_ct_state1.
Definition toy_ct_state3 : State := toy_ct_run (TxCall toy_invoke) toy_ct_state2.
Lemma toy_upload_ok : contracts_tx toy_rt [] toy_found toy_core_ctx (TxUpload toy_upload) toy_ct_state = (Ok tt, toy_ct_state1).
Proof. unfold toy_ct_state1, toy_ct_run. apply run_ok. vm_compute. reflexivity. Qed.
Lemma toy_instantiate_ok : contracts_tx toy_rt [] toy_found toy_core_ctx (TxInstantiate toy_instantiate) toy_ct_state1 = (Ok tt, toy_ct_state2).
Proof. unfold toy_ct_state2, toy_ct_run. apply run_ok. vm_compute. reflexivity. Qed.
Lemma toy_invoke_ok : contracts_tx toy_rt [] toy_found toy_core_ctx (TxCall toy_invoke) toy_ct_state2 = (Ok tt, toy_ct_state3).
Proof. unfold toy_ct_state3, toy_ct_run. apply run_ok. vm_compute. reflexivity. Qed.

(** Code 0 is uploaded, and alice instantiates it. *)
Definition toy_in_block (s : State) : Prop := env_tx_caller_address (st_env s) = Some alice ∧ env_mode (st_env s) = Execute.
Lemma toy_in_block0 : toy_in_block toy_ct_state.
Proof. split; vm_compute; reflexivity. Qed.
Lemma toy_in_block1 : toy_in_block toy_ct_state1.
Proof. split; vm_compute; reflexivity. Qed.
Lemma toy_in_block2 : toy_in_block toy_ct_state2.
Proof. split; vm_compute; reflexivity. Qed.
Lemma toy_tx_sound tx s s' r : ready s → registry_of s r → registry_sound r → tx_fits tx → toy_in_block s →
  contracts_tx toy_rt [] toy_found toy_core_ctx tx s = (Ok tt, s') → ready s' ∧ ∃ r', registry_of s' r' ∧ registry_sound r'.
Proof.
  intros Hs Hr Hsd Hf [He Hm] Hrun. pose proof (contracts_runtime_registry idle_runtime toy_front toy_back toy_found 2) as HR.
  destruct (contracts_tx_spec toy_rt [] toy_found toy_core_ctx tx _ alice r He Hm Hsd Hf s Hs Hr eq_refl tt s' Hrun)
    as (Hs' & r' & Hr' & Hev%tx_spec_evolves). split; [done|]. exists r'. split; [done|]. by apply (evolves_sound r).
Qed.
Lemma toy_uploaded : ready toy_ct_state1 ∧ ∃ r, registry_of toy_ct_state1 r ∧ registry_sound r.
Proof.
  exact (toy_tx_sound (TxUpload toy_upload) _ _ _ toy_ct_ready empty_registry_of empty_registry_sound I toy_in_block0 toy_upload_ok).
Qed.
Lemma toy_fits0 : fits64 0.
Proof. by apply N.leb_le. Qed.
Lemma toy_instance_found : ∃ i, (load_instance_info 0 toy_ct_state2).1 = Ok i.
Proof. eexists. vm_compute. reflexivity. Qed.
Lemma toy_deployed : ready toy_ct_state2 ∧ ∃ r, registry_of toy_ct_state2 r ∧ registry_sound r ∧ is_Some (deployed r !! 0%N).
Proof.
  destruct toy_uploaded as (Hs & r & Hr & Hsd).
  destruct (toy_tx_sound _ _ _ _ Hs Hr Hsd (toy_fits0 : tx_fits (TxInstantiate toy_instantiate)) toy_in_block1 toy_instantiate_ok)
    as (Hs2 & r2 & Hr2 & Hsd2). split; [exact Hs2|]. exists r2. split; [exact Hr2|]. split; [exact Hsd2|].
  destruct toy_instance_found as [i Hi]. rewrite (load_instance_info_run _ _ _ Hr2 toy_fits0) in Hi.
  destruct (deployed r2 !! 0%N) as [j|]; [by exists j|discriminate].
Qed.

(** * Witnesses *)

(** Alice instantiates the code that she uploaded; and calls the instance, which uploads code itself by a message to the module. *)
Definition toy_ct_state4 : State := toy_ct_run (TxCall toy_send) toy_ct_state2.
Lemma toy_send_ok : contracts_tx toy_rt [] toy_found toy_core_ctx (TxCall toy_send) toy_ct_state2 = (Ok tt, toy_ct_state4).
Proof. unfold toy_ct_state4, toy_ct_run. apply run_ok. vm_compute. reflexivity. Qed.
Lemma toy_fits1 : fits64 1.
Proof. by apply N.leb_le. Qed.
Lemma toy_no_code : (load_code_info 1 toy_ct_state2).1 = Err (CtCodeNotFound 1).
Proof. vm_compute. reflexivity. Qed.
Lemma toy_new_code : ∃ c, (load_code_info 1 toy_ct_state4).1 = Ok c ∧ code_uploader c = address_for 0.
Proof. eexists. split; [vm_compute; reflexivity|]. apply (bool_decide_unpack _). vm_compute. exact I. Qed.
Lemma contracts_refine_registry_witness :
  (∃ r r', registry_of toy_ct_state2 r' ∧ tx_spec alice (TxInstantiate toy_instantiate) r r') ∧
  (∃ r r', registry_of toy_ct_state4 r' ∧ tx_spec alice (TxCall toy_send) r r' ∧ codes r !! 1%N = None ∧
     code_uploader <$> codes r' !! 1%N = Some (address_for 0)).
Proof.
  split.
  - destruct toy_uploaded as (Hs & r & Hr & Hsd). exists r.
    exact (DeploymentClaims.contracts_refine_registry idle_runtime toy_front toy_back toy_found 2 [] toy_core_ctx (TxInstantiate toy_instantiate) alice
      toy_ct_state1 toy_ct_state2 r Hs Hr Hsd toy_fits0 (proj1 toy_in_block1) (proj2 toy_in_block1) toy_instantiate_ok).
  - destruct toy_deployed as (Hs & r & Hr & Hsd & _). exists r.
    destruct (DeploymentClaims.contracts_refine_registry idle_runtime toy_front toy_back toy_found 2 [] toy_core_ctx (TxCall toy_send) alice
      toy_ct_state2 toy_ct_state4 r Hs Hr Hsd toy_fits0 (proj1 toy_in_block2) (proj2 toy_in_block2) toy_send_ok) as (r' & Hr' & Hspec).
    exists r'. split; [exact Hr'|]. split; [exact Hspec|]. pose proof toy_no_code as Hno. destruct toy_new_code as (c & Hc & Hu).
    rewrite (load_code_info_run _ _ _ Hr toy_fits1) in Hno. rewrite (load_code_info_run _ _ _ Hr' toy_fits1) in Hc.
    destruct (codes r !! 1%N); [discriminate|]. split; [reflexivity|]. destruct (codes r' !! 1%N) as [c'|]; [|discriminate].
    injection Hc as ->. simpl. by rewrite Hu.
Defined.

(** The instance is called, and found again with its code, in the store with the cache of a new process, and then in the cache. *)
Lemma instances_run_their_code_witness : ∃ i c w cache, load_instance_info 0 toy_ct_state3 = (Ok i, toy_ct_state3) ∧
  load_code_info (inst_code_id i) toy_ct_state3 = (Ok c, toy_ct_state3) ∧
  load_code_cached CODE_CACHE c toy_ct_state3 = (Ok (w, cache), toy_ct_state3) ∧ digest [w] = code_hash c ∧
  ∃ w' cache', load_code_cached cache c toy_ct_state3 = (Ok (w', cache'), toy_ct_state3) ∧ digest [w'] = code_hash c.
Proof.
  destruct toy_deployed as (Hs & r & Hr & Hsd & Hd).
  destruct (DeploymentClaims.instances_run_their_code idle_runtime toy_front toy_back toy_found 2 [] toy_core_ctx (TxCall toy_invoke) alice
    toy_ct_state2 toy_ct_state3 r Hs Hr Hsd toy_fits0 (proj1 toy_in_block2) (proj2 toy_in_block2) toy_invoke_ok)
    as (r' & _ & _ & Hl). destruct (Hl 0%N Hd) as (i & c & Hi & _ & Hc & Hw).
  destruct (Hw CODE_CACHE (rtc_refl _ _)) as (w & cache & Hload & Hdig & Hcache). destruct (Hw cache Hcache) as (w' & cache' & Hload' & Hdig' & _).
  exists i, c, w, cache. split; [exact Hi|]. split; [exact Hc|]. split; [exact Hload|]. split; [exact Hdig|].
  exists w', cache'. split; [exact Hload'|exact Hdig'].
Defined.

(** ** Executions *)

Definition toy_code : Code :=
  {| code_id := 0; code_hash := toy_digest [[x2a]]; code_abi := OasisV1; code_abi_sv := 1; code_uploader := alice;
     code_instantiate_policy := Everyone |}.
Definition toy_ct_instance : ContractInstance :=
  {| inst_id := 0; inst_code_id := 0; inst_creator := alice; inst_upgrades_policy := Nobody |}.
Definition toy_contract : Contract := {| ct_code_info := toy_code; ct_code := [x2a]; ct_instance_info := toy_ct_instance |}.
Definition toy_ec : ExecutionContext :=
  {| ec_tx_context := toy_core_ctx; ec_params := toy_ct_params; ec_code_info := toy_code; ec_instance_info := toy_ct_instance;
     ec_gas_limit := 100; ec_caller_address := alice; ec_read_only := false; ec_call_format := Plain |}.
Definition toy_execution : M Empty_set ExecutionResult :=
  with_runtime toy_ec toy_contract (call_with_request_context [] toy_ec [x06] [] EXPORT_CALL).
Definition toy_result : ExecutionResult := {| er_inner := inr toy_ok; er_gas_used := 6 |}.
Lemma toy_execution_ok s : (toy_execution s).1 = Ok toy_result → toy_execution s = (Ok toy_result, (toy_execution s).2).
Proof. apply run_ok. Qed.

(** The call stores an entry of the instance; the entries of another one stay. *)
Lemma contracts_are_isolated_witness : at_key (toy_execution toy_ct_state).2 (instance_prefix 1 ++ [x00]) = at_key toy_ct_state (instance_prefix 1 ++ [x00])
  ∧ (er_gas_used toy_result ≤ 100)%N.
Proof.
  destruct (ContractGasClaims.contracts_are_isolated [] toy_ec toy_contract [x06] [] EXPORT_CALL toy_ct_state (toy_execution toy_ct_state).2
    (Ok toy_result) toy_ct_ready) as (_ & Hk & Hg).
  - apply toy_execution_ok. vm_compute. reflexivity.
  - split; [|apply (Hg toy_result eq_refl)]. apply (Hk 1%N [x00]); [by apply N.leb_le..|discriminate].
Defined.

Lemma toy_ct_has_params : has_core_params toy_ct_state toy_core_params.
Proof.
  exists (Some toy_core_params). split; [|done]. eexists. split; [reflexivity|]. split; [apply toy_ct_wf|vm_compute; reflexivity].
Qed.
Definition toy_context_state : State := (remaining_tx_gas (E := ContractsError) toy_ct_state).2.
Lemma toy_metered : metered toy_auth toy_core_params toy_meter toy_ct_state.
Proof.
  constructor; [vm_compute; reflexivity|exact toy_ct_has_params| |by split; apply N.leb_le].
  split; exists None; split; reflexivity.
Qed.
Lemma toy_remaining : remaining_tx_gas (E := ContractsError) toy_ct_state = (Ok 100%N, toy_context_state).
Proof. apply run_ok. vm_compute. reflexivity. Qed.
Lemma toy_context_ok : tx_execution_context toy_core_ctx toy_ct_params toy_contract alice toy_ct_state = (Ok toy_ec, toy_context_state).
Proof.
  unfold tx_execution_context. rewrite (bind_ok _ _ _ _ _ toy_remaining).
  destruct (remaining_tx_gas_run (E := ContractsError) _ _ _ _ toy_metered) as (s' & Hrem & Hov & _). rewrite toy_remaining in Hrem.
  injection Hrem as Hs. rewrite <-Hs in Hov. pose proof (only_values_env _ _ Hov) as He.
  unfold with_tx_env. rewrite (bind_ok _ _ toy_context_state false toy_context_state) by (unfold mbind, ST_bind, get_st; rewrite He; reflexivity).
  rewrite (bind_ok _ _ toy_context_state Plain toy_context_state) by (unfold mbind, ST_bind, get_st; rewrite He; reflexivity).
  reflexivity.
Qed.
(** The six units that the call used are charged. *)
Lemma execution_gas_is_covered_witness : ∃ s3 m', process_execution_result toy_result (toy_execution toy_context_state).2 = (Ok toy_ok, s3) ∧
  metered toy_auth toy_core_params m' s3 ∧ tx_used m' = 6%N.
Proof.
  refine (ContractGasClaims.execution_gas_is_covered [] toy_core_ctx toy_ct_params toy_contract alice [x06] [] EXPORT_CALL
    toy_auth toy_core_params toy_meter toy_ct_state toy_context_state (toy_execution toy_context_state).2 toy_ec toy_result
    toy_ct_ready _ toy_metered toy_context_ok _).
  - split; by apply N.leb_le.
  - apply toy_execution_ok. vm_compute. reflexivity.
Defined.

(** A message and the reply to it: no depth beyond the gas limit makes a difference. *)
Definition toy_messages : ExecutionOk :=
  {| ok_data := []; ok_messages := [MessageCall 7 Always "m" [] None None]; ok_events := [{| ev_module := "a"; ev_code := 1; ev_data := [] |}] |}.
Lemma replies_terminate_witness :
  process_execution_success idle [] toy_core_ctx toy_ct_params toy_contract toy_messages toy_ct_state =
  process_success idle [] (panic "deep") 101 toy_core_ctx toy_ct_params toy_contract toy_messages toy_ct_state.
Proof.
  apply (ContractGasClaims.replies_terminate idle idle_framed [] toy_auth toy_core_ctx toy_ct_params toy_contract toy_messages
    toy_ct_state (panic "deep") 101).
  - split; [exact toy_ct_ready|]. split; [vm_compute; reflexivity|]. exists 0%N. split; [|apply N.le_refl]. exists None. split; reflexivity.
  - reflexivity.
  - by apply N.leb_le.
  - apply Nat.leb_le. vm_compute. reflexivity.
Defined.

(** ** Host and contract *)

Definition toy_fresh : Instance_ := {| ti_globals := ∅; ti_memory := toy_memory |}.
Lemma host_data_roundtrip_witness : ∃ m r, memory (serialize_and_allocate_as_ptr [x08; x09] toy_fresh).2 = Some m ∧
  deref m 0 = inr r ∧ as_slice r m = inr [x08; x09].
Proof.
  apply (HostClaims.host_data_roundtrip [x08; x09] toy_fresh _ 0). apply run_ok. vm_compute. reflexivity.
Defined.

(** Two subcalls that write different values to a confidential store after reading from it use one nonce. *)
Definition toy_reads : list (ContractInstance * StoreKind * StoreAccess) := [(toy_ct_instance, ConfidentialKind, AccessGet [x09])].
Definition toy_conf_ctx : Ctx := Confidential.toy_ctx (inr [x07]).
Definition toy_subcall_read : State :=
  (for_each toy_reads (access [] toy_conf_ctx) (opened (subcall_options toy_tx) toy_ct_state (root_rng_new Execute))).2.
Lemma toy_subcall_read_ok : for_each toy_reads (access [] toy_conf_ctx) (opened (subcall_options toy_tx) toy_ct_state (root_rng_new Execute))
  = (Ok tt, toy_subcall_read).
Proof. apply run_ok. vm_compute. reflexivity. Qed.
