(* ===== verification/EvmBackend.v ===== *)
(** The state of the EVM: code, storage and block hashes of contracts, and the backend with nested substates that the
    stack executor of the evm crate works on (src/runtime-sdk/modules/evm/src/{state,backend}.rs). *)
From S2P Require Import Prelude Endian Storage StoreIter Types Fee Errors State Current Transactions Module CallFormat Core.
From S2P Require Import Accounts Dispatcher Subcall ConfidentialStore HostFunctions EvmTypes.

Local Open Scope string_scope.

(** * Stores *)

Definition CODES : bytes := [x01].
Definition STORAGES : bytes := [x02].
Definition BLOCK_HASHES : bytes := [x03].
Definition CONFIDENTIAL_STORAGES : bytes := [x04].
Definition EVM_STORE_KEY_PAIR_ID_CONTEXT_BASE : bytes := str "oasis-runtime-sdk/evm: state".
Definition EVM_STORE_INSTANCE_COUNT : string := "evm.ConfidentialStoreCounter".
Definition BLOCK_HASH_WINDOW_SIZE : N := 256.
Definition RNG_MAX_BYTES : N := 1024.

(** The encodings of what is stored and emitted, the state key of a key pair ([get_or_create_keys]) and the hash of the
    header of a block. *)
Class EvmCodec `{Platform} := {
  #[global] ev_hash :: Cbor (bytes_n 32);
  #[global] ev_code :: Cbor bytes;
  #[global] ev_params :: Cbor EvmParameters;
  evm_state_key : bytes → KeyManagerError + bytes;
  log_value : H160 → list H256 → bytes → Value;
  header_hash : Ctx → Hash;
}.

Section stores.
Context `{Platform} `{!CallCrypto} `{!StoreCrypto} `{!EvmConfig} `{!EvmCodec}.

Definition evm_store : StoreRef := PrefixStore CurrentStore (str EVM_MODULE_NAME).
Definition contract_storage (prefix : bytes) (address : H160) : StoreRef := PrefixStore (PrefixStore evm_store prefix) (raw address).
Definition codes : StoreRef := PrefixStore evm_store CODES.
Definition block_hashes : StoreRef := PrefixStore evm_store BLOCK_HASHES.

Definition with_public_storage {E A} (address : H160) (f : InstanceStore → M E A) : M E A :=
  f (PublicInstanceStore (contract_storage STORAGES address)).
(** The number of confidential stores that were instantiated in this block. *)
Definition evm_instance_count {E} : M E N :=
  cnt ← value_or_default (V := N) Block EVM_STORE_INSTANCE_COUNT;
  value_set Block EVM_STORE_INSTANCE_COUNT (wrapping_add u64_max cnt 1) ;;
  mret cnt.
Definition with_confidential_storage {E A} (ctx : Ctx) (address : H160) (f : InstanceStore → M E A) : M E A :=
  match ctx_key_manager ctx with
  | None => panic "key manager must be available to use confidentiality"
  | Some _ =>
      match evm_state_key (key_pair_id [EVM_STORE_KEY_PAIR_ID_CONTEXT_BASE; raw address]) with
      | inl _ => panic "unable to retrieve confidential storage keys"
      | inr key =>
          instance_count ← evm_instance_count;
          mode ← with_env env_mode;
          f (ConfidentialInstanceStore (cs_new_with_key (contract_storage CONFIDENTIAL_STORAGES address) key
               [le_bytes64 (ctx_round ctx); le_bytes64 instance_count; [mode_u8 mode]]))
      end
  end.
Definition with_storage {E A} (ctx : Ctx) (address : H160) (f : InstanceStore → M E A) : M E A :=
  if CONFIDENTIAL then with_confidential_storage ctx address f else with_public_storage address f.

(** The typed store in the closures: [get(key).unwrap_or_default()], [insert] and [remove]. *)
Definition slot_get {E} (key : H256) (st : InstanceStore) : M E H256 :=
  v ← is_get st (raw key);
  match v with
  | None => mret h256_default
  | Some data => expect (from_slice data) "called Result::unwrap on an Err value"
  end.
Definition slot_insert {E} (key value : H256) (st : InstanceStore) : M E unit := is_insert st (raw key) (to_vec value).
Definition slot_remove {E} (key : H256) (st : InstanceStore) : M E unit := is_remove st (raw key).
Definition get_code_of {E} (address : H160) : M E bytes :=
  v ← typed_get codes (raw address); mret (default [] v).
End stores.

(** * Substates *)

(** [Accessed] and [StackSubstateMetadata] of the evm crate: metadata with the gas of a frame. *)
Record Accessed := { accessed_addresses : gset H160; accessed_storage : gset (H160 * H256) }.
Class StackMetadata := {
  Metadata_ : Type;
  metadata_new : N → EVMConfig → Metadata_;
  spit_child : Metadata_ → N → bool → Metadata_;
  (** the result, and the metadata of the parent after it *)
  swallow_commit : Metadata_ → Metadata_ → (ExitError + unit) * Metadata_;
  swallow_revert : Metadata_ → Metadata_ → (ExitError + unit) * Metadata_;
  swallow_discard : Metadata_ → Metadata_ → (ExitError + unit) * Metadata_;
  accessed : Metadata_ → option Accessed;
  (** the gas that is left, the gas that was used, and recording a cost *)
  gas_left : Metadata_ → N;
  gas_used : Metadata_ → N;
  record_gas : Metadata_ → N → (ExitError + unit) * Metadata_;
}.

Record Log := { log_address : H160; log_topics : list H256; log_data : bytes }.
Record Vicinity := { v_gas_price : U256; v_origin : H160 }.
Record Basic := { b_balance : U256; b_nonce : U256 }.

Section substate.
Context `{StackMetadata}.

Inductive OasisStackSubstate := MkSubstate {
  ss_metadata : Metadata_;
  ss_parent : option OasisStackSubstate;
  ss_logs : list Log;
  ss_deletes : gset H160;
  ss_origin_nonce_incremented : bool;
}.
Definition substate_new (m : Metadata_) : OasisStackSubstate := MkSubstate m None [] ∅ false.
Definition substate_set_metadata (m : Metadata_) (s : OasisStackSubstate) : OasisStackSubstate :=
  MkSubstate m (ss_parent s) (ss_logs s) (ss_deletes s) (ss_origin_nonce_incremented s).
Definition substate_enter (gas_limit : N) (is_static : bool) (s : OasisStackSubstate) : OasisStackSubstate :=
  MkSubstate (spit_child (ss_metadata s) gas_limit is_static) (Some s) [] ∅ false.
(** The exits swap in the parent before its metadata takes in that of the child, which may fail. *)
Definition substate_exit_commit : ST OasisStackSubstate Empty_set (ExitError + unit) :=
  exited ← get_st;
  parent ← expect (ss_parent exited) "Cannot commit on root substate";
  match swallow_commit (ss_metadata parent) (ss_metadata exited) with
  | (inl e, m) => modify (λ _, substate_set_metadata m parent) ;; mret (inl e)
  | (inr _, m) =>
      modify (λ _, MkSubstate m (ss_parent parent) (ss_logs parent ++ ss_logs exited) (ss_deletes parent ∪ ss_deletes exited)
                     (ss_origin_nonce_incremented parent || ss_origin_nonce_incremented exited)) ;;
      mret (inr tt)
  end.
Definition substate_exit_with (msg : string) (swallow : Metadata_ → Metadata_ → (ExitError + unit) * Metadata_)
    : ST OasisStackSubstate Empty_set (ExitError + unit) :=
  exited ← get_st;
  parent ← expect (ss_parent exited) msg;
  let '(r, m) := swallow (ss_metadata parent) (ss_metadata exited) in
  modify (λ _, substate_set_metadata m parent) ;; mret r.
Definition substate_exit_revert := substate_exit_with "Cannot revert on root substate" swallow_revert.
Definition substate_exit_discard := substate_exit_with "Cannot discard on root substate" swallow_discard.

Fixpoint recursive_is_cold (f : Accessed → bool) (s : OasisStackSubstate) : bool :=
  match s with
  | MkSubstate metadata parent _ _ _ =>
      if from_option f false (accessed metadata) then false
      else match parent with Some p => recursive_is_cold f p | None => true end
  end.
Fixpoint substate_deleted (address : H160) (s : OasisStackSubstate) : bool :=
  match s with
  | MkSubstate _ parent _ deletes _ =>
      if bool_decide (address ∈ deletes) then true
      else match parent with Some p => substate_deleted address p | None => false end
  end.
Definition substate_log (l : Log) (s : OasisStackSubstate) : OasisStackSubstate :=
  MkSubstate (ss_metadata s) (ss_parent s) (ss_logs s ++ [l]) (ss_deletes s) (ss_origin_nonce_incremented s).
Definition substate_set_deleted (address : H160) (s : OasisStackSubstate) : OasisStackSubstate :=
  MkSubstate (ss_metadata s) (ss_parent s) (ss_logs s) ({[address]} ∪ ss_deletes s) (ss_origin_nonce_incremented s).
Definition substate_set_incremented (s : OasisStackSubstate) : OasisStackSubstate :=
  MkSubstate (ss_metadata s) (ss_parent s) (ss_logs s) (ss_deletes s) true.
End substate.

(** * The backend *)

(** [OasisStackState], with the current state that it works on. *)
Record StackState `{Platform} `{StackMetadata} := {
  es_state : State;
  es_substate : OasisStackSubstate;
  es_original_storage : gmap (H160 * H256) H256;
}.
Notation EM := (ST StackState).

Section backend.
Context `{Platform} `{!TxCodec} `{!CallCrypto} `{!CoreCodec} `{!AccountsCodec} `{!StoreCrypto} `{!VrfCrypto} `{!EvmConfig} `{!EvmCodec}.
Context `{StackMetadata}.
Variables (ctx : Ctx) (vicinity : Vicinity).

Definition on_current {E A} (m : M E A) : EM E A := λ h,
  let '(r, s) := m (es_state h) in
  (r, {| es_state := s; es_substate := es_substate h; es_original_storage := es_original_storage h |}).
Definition on_substate {E A} (m : ST OasisStackSubstate E A) : EM E A := λ h,
  let '(r, s) := m (es_substate h) in
  (r, {| es_state := es_state h; es_substate := s; es_original_storage := es_original_storage h |}).
Definition set_original {E} (key : H160 * H256) (v : H256) : EM E unit :=
  modify (λ h, {| es_state := es_state h; es_substate := es_substate h;
                  es_original_storage := <[key := v]> (es_original_storage h) |}).

(** ** [Backend] *)

Definition block_hash {E} (number : U256) : EM E H256 :=
  h ← on_current (typed_get block_hashes (be_bytes64 (number mod 2 ^ 64)));
  mret (default h256_default h).
Definition block_number : U256 := ctx_round ctx.
Definition block_coinbase : H160 := h160_default.
Definition block_timestamp : U256 := ctx_now ctx.
Definition block_difficulty : U256 := 0.
Definition block_randomness : option H256 := None.
Definition block_gas_limit {E} : EM E U256 := on_current max_batch_gas.
Definition block_base_fee_per_gas {E} : EM E U256 :=
  p ← on_current (min_gas_price TOKEN_DENOMINATION); mret (default 0%N p).
Definition chain_id : U256 := CHAIN_ID.

Definition basic {E} (address : H160) : EM E Basic :=
  let sdk_address := map_address address in
  balance ← on_current (get_balance sdk_address TOKEN_DENOMINATION);
  nonce ← on_current (get_nonce sdk_address);
  h ← get_st;
  simulation ← on_current (with_env is_simulation);
  mret {| b_balance := balance;
          b_nonce := if bool_decide (address = v_origin vicinity) && negb (ss_origin_nonce_incremented (es_substate h))
                          && negb simulation
                     then saturating_sub nonce 1 else nonce |}.
Definition evm_exists {E} (address : H160) : EM E bool :=
  acct ← basic address; mret (negb ((b_nonce acct =? 0)%N && (b_balance acct =? 0)%N)).
Definition evm_code {E} (address : H160) : EM E bytes := on_current (get_code_of address).
Definition storage {E} (address : H160) (key : H256) : EM E H256 := on_current (with_storage ctx address (slot_get key)).
Definition original_storage {E} (address : H160) (key : H256) : EM E H256 :=
  h ← get_st;
  match es_original_storage h !! (address, key) with
  | Some v => mret v
  | None => storage address key
  end.

(** ** [StackState] *)

(** [CurrentState::start_transaction], [commit_transaction] and [rollback_transaction]. *)
Definition enter {E} (gas_limit : N) (is_static : bool) : EM E unit :=
  on_substate (modify (substate_enter gas_limit is_static)) ;; on_current (modify open).
Definition exit_commit : EM Empty_set (ExitError + unit) :=
  r ← on_substate substate_exit_commit;
  match r with
  | inl e => mret (inl e)
  | inr _ => on_current commit_state ;; mret (inr tt)
  end.
Definition exit_revert : EM Empty_set (ExitError + unit) :=
  r ← on_substate substate_exit_revert;
  match r with
  | inl e => mret (inl e)
  | inr _ => on_current rollback_state ;; mret (inr tt)
  end.
Definition exit_discard : EM Empty_set (ExitError + unit) :=
  r ← on_substate substate_exit_discard;
  match r with
  | inl e => mret (inl e)
  | inr _ => on_current rollback_state ;; mret (inr tt)
  end.

Definition is_empty {E} (address : H160) : EM E bool :=
  b1 ← basic address;
  if negb (b_balance b1 =? 0)%N then mret false
  else
    b2 ← basic address;
    if negb (b_nonce b2 =? 0)%N then mret false
    else code ← evm_code address; mret (length code =? 0)%nat.
Definition deleted {E} (address : H160) : EM E bool := gets (λ h, substate_deleted address (es_substate h)).
Definition is_cold {E} (address : H160) : EM E bool :=
  gets (λ h, recursive_is_cold (λ a, bool_decide (address ∈ accessed_addresses a)) (es_substate h)).
Definition is_storage_cold {E} (address : H160) (key : H256) : EM E bool :=
  gets (λ h, recursive_is_cold (λ a, bool_decide ((address, key) ∈ accessed_storage a)) (es_substate h)).

Definition evm_inc_nonce {E} (address : H160) : EM E (ExitError + unit) :=
  simulation ← on_current (with_env is_simulation);
  if bool_decide (address = v_origin vicinity) && negb simulation then
    on_substate (modify substate_set_incremented) ;; mret (inr tt)
  else
    on_current (inc_nonce (map_address address)) ;; mret (inr tt).

Definition set_storage {E} (address : H160) (key value : H256) : EM E unit :=
  h ← get_st;
  (match es_original_storage h !! (address, key) with
   | Some _ => mret tt
   | None =>
       original ← on_current (with_storage ctx address (slot_get key));
       if bool_decide (original = value) then mret tt else set_original (address, key) original
   end) ;;
  on_current (with_storage ctx address (if bool_decide (value = h256_default) then slot_remove key else slot_insert key value)).
Definition reset_storage {E} (address : H160) : EM E unit := mret tt.
Definition evm_log {E} (address : H160) (topics : list H256) (data : bytes) : EM E unit :=
  on_substate (modify (substate_log {| log_address := address; log_topics := topics; log_data := data |})).
Definition set_deleted {E} (address : H160) : EM E unit := on_substate (modify (substate_set_deleted address)).
Definition set_code {E} (address : H160) (code : bytes) : EM E unit := on_current (typed_insert codes (raw address) code).
Definition evm_transfer {E} (source target : H160) (value : U256) : EM E (ExitError + unit) :=
  match narrow u128_max value with
  | None => mret (inl OutOfFund)
  | Some amount =>
      r ← on_current (try_ (transfer (map_address source) (map_address target) (BaseUnits_new amount TOKEN_DENOMINATION)));
      mret (match r with inl _ => inl OutOfFund | inr _ => inr tt end)
  end.
Definition reset_balance {E} (address : H160) : EM E unit := mret tt.
Definition touch {E} (address : H160) : EM E unit := mret tt.

(** ** The end of an execution *)

Definition log_event (l : Log) : EventTag :=
  etag_for_event EVM_MODULE_NAME 1 (log_value (log_address l) (log_topics l) (log_data l)).
Definition apply (substate : OasisStackSubstate) : M EvmError unit :=
  if bool_decide (ss_deletes substate ≠ ∅) then throw (EvExecutionFailed "SELFDESTRUCT not supported")
  else for_each (ss_logs substate) (λ log, emit_event_raw (log_event log)).

(** ** [EVMBackendExt] *)

Definition random_bytes {E} (num_bytes : N) (pers : bytes) : M E bytes :=
  let num_bytes := N.min num_bytes RNG_MAX_BYTES in
  rng ← with_rng_fork ctx pers;
  match rng with
  | inl _ => panic "unable to access RNG"
  | inr rng => mret (leaf_fill rng num_bytes)
  end.
End backend.
