(* ===== verification/EvmPrecompiles.v ===== *)
(** The precompiled contracts of the EVM: costs, the standard, confidential and general ones, the set that dispatches to
    them, and ERC-20 tokens (src/runtime-sdk/modules/evm/src/precompile/; the generated dispatch of static contracts
    follows src/runtime-sdk-macros/src/evm_derive.rs). *)
From S2P Require Import Prelude Endian Storage StoreIter Types Fee Errors State Current Transactions Module CallFormat Core.
From S2P Require Import Accounts Dispatcher Subcall ConfidentialStore HostFunctions Signatures EvmTypes EvmBackend.

Local Open Scope string_scope.

(** * Handles and results *)

(** What a handle tells a precompile of its call; gas and logs are those of the executor. *)
Record PrecompileHandle := {
  ph_code_address : H160;
  ph_input : bytes;
  ph_context_address : H160;
  ph_context_caller : H160;
  ph_is_static : bool;
}.
Inductive PrecompileFailure := PfError (e : ExitError) | PfRevert (output : bytes).
Definition pf_other (msg : string) : PrecompileFailure := PfError (OtherExit msg).
Inductive IsPrecompileResult := PrecompileAnswer (is_precompile : bool) (extra_cost : N) | PrecompileOutOfGas.

(** * Libraries *)

(** The encodings of the solabi crate, at the types that are used. *)
Class AbiDecode (T : Type) := abi_decode : bytes → string + T.
Class AbiEncode (T : Type) := abi_encode : T → bytes.
(** Arrays of one element. *)
Inductive Array1 (T : Type) := array1 (x : T).
Arguments array1 {T} x.
Class Solabi := {
  #[global] sd_u128 :: AbiDecode N;
  #[global] sd_uint_bytes :: AbiDecode (U256 * bytes);
  #[global] sd_bytes2 :: AbiDecode (bytes * bytes);
  #[global] sd_deoxysii :: AbiDecode (bytes_n 32 * bytes_n 32 * bytes * bytes);
  #[global] sd_sign :: AbiDecode (U256 * bytes * bytes * bytes);
  #[global] sd_verify :: AbiDecode (U256 * bytes * bytes * bytes * bytes);
  #[global] sd_address :: AbiDecode H160;
  #[global] sd_address2 :: AbiDecode (H160 * H160);
  #[global] sd_address_uint :: AbiDecode (H160 * U256);
  #[global] sd_address2_uint :: AbiDecode (H160 * H160 * U256);
  #[global] se_uint :: AbiEncode N;
  #[global] se_bool :: AbiEncode bool;
  #[global] se_string :: AbiEncode string;
  #[global] se_address :: AbiEncode H160;
  #[global] se_address_uint2 :: AbiEncode (H160 * N * N);
  #[global] se_uint_bytes :: AbiEncode (N * bytes);
  #[global] se_bytes2 :: AbiEncode (bytes * bytes);
  #[global] se_uint1 :: AbiEncode (Array1 N);
  #[global] se_bool1 :: AbiEncode (Array1 bool);
  #[global] se_string1 :: AbiEncode (Array1 string);
  #[global] se_address1 :: AbiEncode (Array1 H160);
}.
(** The bn crate. *)
Class Bn128 := {
  Fq : Type; Fr : Type; G1 : Type; G2 : Type;
  fq_from_slice : bytes → option Fq;
  fr_from_slice : bytes → option Fr;
  fq_is_zero : Fq → bool;
  g1_zero : G1;
  affine_g1 : Fq → Fq → option G1;
  g2_zero : G2;
  (** from two elements of the quadratic extension, each a real and an imaginary part *)
  affine_g2 : Fq * Fq → Fq * Fq → option G2;
  g1_add : G1 → G1 → G1;
  g1_mul : G1 → Fr → G1;
  (** the coordinates of a point, unless it is at infinity *)
  from_jacobian : G1 → option (bytes_n 32 * bytes_n 32);
  pairing_is_one : list (G1 * G2) → bool;
}.
(** Hashes, exponentiation of the num crate, key exchange and encryption, CBOR and UTF-8. *)
Class PrecompileLibs `{Platform} := {
  keccak256 : bytes → bytes_n 32;
  ripemd160 : bytes → bytes_n 20;
  sha512 : bytes → bytes;
  modpow : N → N → N → N;
  x25519_public_key : bytes → bytes;
  x25519_derive : bytes → bytes → bytes;
  deoxys_seal : bytes → bytes → bytes → bytes → bytes;
  deoxys_open : bytes → bytes → bytes → bytes → option bytes;
  value_from_slice : bytes → option Value;
  value_to_vec : Value → bytes;
  from_utf8 : bytes → option string;
}.
Class ModpowLaws `{PrecompileLibs} : Prop := modpow_spec b e m : m ≠ 0%N → modpow b e m = ((b ^ e) mod m)%N.

(** * Costs *)

Definition bytes_to_words (n : N) : N := (saturating_add u64_max n 31 / 32)%N.
(** [a*ceil(x/32) + b*ceil(y/32) + c], [None] on overflow. *)
Definition multilinear_cost (x y a b c : N) : option N :=
  ax ← checked_mul u64_max a (bytes_to_words x);
  by_ ← checked_mul u64_max b (bytes_to_words y);
  cost ← checked_add u64_max c ax;
  checked_add u64_max cost by_.

(** [read_input] into a target of zeros. *)
Definition read_input (source : bytes) (size offset : nat) : bytes :=
  let read := take size (drop offset source) in (read ++ replicate (size - length read) x00)%list.

Section costs.
Context `{Platform} `{StackMetadata}.

Definition record_cost (cost : N) : EM PrecompileFailure unit :=
  h ← get_st;
  let '(r, m) := record_gas (ss_metadata (es_substate h)) cost in
  on_substate (modify (substate_set_metadata m)) ;;
  match r with inl e => throw (PfError e) | inr _ => mret tt end.
Definition record_multilinear_cost (x y a b c : N) : EM PrecompileFailure unit :=
  cost ← ok_or (multilinear_cost x y a b c) (PfError XOutOfGas);
  record_cost cost.
Definition record_linear_cost (len base word : N) : EM PrecompileFailure unit := record_multilinear_cost len 0 word 0 base.
Definition used_gas {E} : EM E N := gets (λ h, gas_used (ss_metadata (es_substate h))).
Definition remaining_gas {E} : EM E N := gets (λ h, gas_left (ss_metadata (es_substate h))).
Definition input_len (h : PrecompileHandle) : N := N.of_nat (length (ph_input h)).
Definition abi_input {T} `{!AbiDecode T} (h : PrecompileHandle) : EM PrecompileFailure T :=
  match abi_decode (ph_input h) with inl e => throw (pf_other e) | inr x => mret x end.
End costs.

Section precompiles.
Context `{Platform} `{!TxCodec} `{!CallCrypto} `{!CoreCodec} `{!DispatchCodec} `{!AccountsCodec} `{!StoreCrypto} `{!VrfCrypto}.
Context `{!EvmConfig} `{!EvmCodec} `{StackMetadata} `{Solabi} `{Bn128} `{!PrecompileLibs} `{SignatureLibs} `{Ethereum}.
Variables (R : SubcallStack → Runtime) (stack : SubcallStack) (ctx : Ctx).
Implicit Types h : PrecompileHandle.

(** * Standard precompiles *)

(** The recovery of an address from a signature; everything that is not well formed returns nothing. *)
Definition ecrecover (input : bytes) : bytes :=
  let prehash := read_input input 32 0 in
  let padding := read_input input 32 32 in
  let sig := read_input input 64 64 in
  let p31 := Byte.to_N (default x00 (padding !! 31%nat)) in
  let v := if (26 <? p31)%N then (p31 - 27)%N else p31 in
  if negb (bool_decide (take 31 padding = replicate 31 x00)) then []
  else if negb (v <? 2)%N then []
  else match bytes_n_of 32 prehash, bytes_n_of 32 (take 32 sig), bytes_n_of 32 (drop 32 sig) with
       | Some hash, Some r, Some s =>
           if negb (signature_from_scalars r s) then []
           else if signature_is_high s then []
           else match recover_from_prehash hash r s v with
                | Some (uncompressed, _) => (replicate 12 x00 ++ drop 12 (raw (keccak256 (drop 1 uncompressed))))%list
                | None => []
                end
       | _, _, _ => []
       end.
Definition call_ecrecover h : EM PrecompileFailure bytes :=
  record_linear_cost (input_len h) 3000 0 ;; mret (ecrecover (ph_input h)).
Definition call_sha256 h : EM PrecompileFailure bytes :=
  record_linear_cost (input_len h) 60 12 ;; mret (sha256 (ph_input h)).
Definition call_ripemd160 h : EM PrecompileFailure bytes :=
  record_linear_cost (input_len h) 600 120 ;; mret (replicate 12 x00 ++ raw (ripemd160 (ph_input h)))%list.
Definition call_datacopy h : EM PrecompileFailure bytes :=
  record_linear_cost (input_len h) 15 3 ;; mret (ph_input h).

(** ** Modular exponentiation *)

Definition MIN_GAS_COST : N := 200.
Definition MODEXP_MAX_SIZE : N := 1024.
Definition calculate_multiplication_complexity (base_length mod_length : N) : N :=
  let max_length := N.max base_length mod_length in
  let words := (max_length / 8)%N in
  let words := if (max_length mod 8 =? 0)%N then words else (words + 1)%N in
  saturating_mul u64_max words words.
Definition calculate_iteration_count (exponent : N) (exponent_bytes : bytes) : N :=
  let exp_length := N.of_nat (length exponent_bytes) in
  let iteration_count :=
    if (exp_length <=? 32)%N && (exponent =? 0)%N then 0%N
    else if (exp_length <=? 32)%N then (N.size exponent - 1)%N
    else (8 * (exp_length - 32) + N.size (from_be (take 32 exponent_bytes)) - 1)%N in
  N.max iteration_count 1.
Definition calculate_gas_cost (base_length mod_length exponent : N) (exponent_bytes : bytes) (mod_is_even : bool) : N :=
  let multiplication_complexity := calculate_multiplication_complexity base_length mod_length in
  let iteration_count := calculate_iteration_count exponent exponent_bytes in
  let gas := N.max MIN_GAS_COST (saturating_mul u64_max multiplication_complexity iteration_count / 3) in
  saturating_mul u64_max gas (if mod_is_even then 20 else 1).
(** [BigUint::to_bytes_be]: no leading zeros, but one byte for zero. *)
Definition to_bytes_be (n : N) : bytes := be_bytes (N.to_nat (N.max 1 ((N.size n + 7) / 8))) n.
(** The lengths of base, exponent and modulus. *)
Definition modexp_lengths (input : bytes) : PrecompileFailure + N * N * N :=
  let base_len := from_be (read_input input 32 0) in
  let exp_len := from_be (read_input input 32 32) in
  let mod_len := from_be (read_input input 32 64) in
  if (MODEXP_MAX_SIZE <? base_len)%N then inl (pf_other "unreasonably large base length")
  else if (MODEXP_MAX_SIZE <? exp_len)%N then inl (pf_other "unreasonably large exponent length")
  else if (MODEXP_MAX_SIZE <? mod_len)%N then inl (pf_other "unreasonably large exponent length")
  else inr (base_len, exp_len, mod_len).
(** The result, left padded to the length of the modulus. *)
Definition modexp_output (r : N) (mod_len : nat) : PrecompileFailure + bytes :=
  let b := to_bytes_be r in
  if (length b =? mod_len)%nat then inr b
  else if (length b <? mod_len)%nat then inr (replicate (mod_len - length b) x00 ++ b)%list
  else inl (pf_other "failed").
Definition call_bigmodexp h : EM PrecompileFailure bytes :=
  let input := ph_input h in
  match modexp_lengths input with
  | inl e => throw e
  | inr (base_len, exp_len, mod_len) =>
      r ← (if (base_len =? 0)%N && (mod_len =? 0)%N then record_cost MIN_GAS_COST ;; mret 0%N
           else
             let base := from_be (read_input input (N.to_nat base_len) 96) in
             let exp_buf := read_input input (N.to_nat exp_len) (96 + N.to_nat base_len) in
             let exponent := from_be exp_buf in
             let modulus := from_be (read_input input (N.to_nat mod_len) (96 + N.to_nat base_len + N.to_nat exp_len)) in
             record_cost (calculate_gas_cost base_len mod_len exponent exp_buf (N.even modulus)) ;;
             mret (if (modulus =? 0)%N || (modulus =? 1)%N then 0%N else modpow base exponent modulus));
      match modexp_output r (N.to_nat mod_len) with inl e => throw e | inr out => mret out end
  end.

(** ** The curve alt-bn128 *)

Definition BN128_ADD_GAS_COST : N := 150.
Definition BN128_MUL_GAS_COST : N := 6000.
Definition BN128_PAIRING_BASE_GAS_COST : N := 45000.
Definition BN128_PAIRING_CHECK_GAS_COST : N := 34000.
Definition read_field_element_fq (source : bytes) (offset : nat) : PrecompileFailure + Fq :=
  match fq_from_slice (read_input source 32 offset) with Some x => inr x | None => inl (pf_other "invalid field element Fq") end.
Definition read_field_element_fr (source : bytes) (offset : nat) : PrecompileFailure + Fr :=
  match fr_from_slice (read_input source 32 offset) with Some x => inr x | None => inl (pf_other "invalid field element Fr") end.
Definition read_curve_point_g1 (source : bytes) (offset : nat) : PrecompileFailure + G1 :=
  match read_field_element_fq source offset with
  | inl e => inl e
  | inr x =>
      match read_field_element_fq source (offset + 32) with
      | inl e => inl e
      | inr y =>
          if fq_is_zero x && fq_is_zero y then inr g1_zero
          else match affine_g1 x y with Some p => inr p | None => inl (pf_other "invalid point G1") end
      end
  end.
Definition read_twist_point_g2 (source : bytes) (offset : nat) : PrecompileFailure + G2 :=
  match read_field_element_fq source offset with
  | inl e => inl e
  | inr ay =>
  match read_field_element_fq source (offset + 32) with
  | inl e => inl e
  | inr ax =>
  match read_field_element_fq source (offset + 64) with
  | inl e => inl e
  | inr by_ =>
  match read_field_element_fq source (offset + 96) with
  | inl e => inl e
  | inr bx =>
      if (fq_is_zero ax && fq_is_zero ay) && (fq_is_zero bx && fq_is_zero by_) then inr g2_zero
      else match affine_g2 (ax, ay) (bx, by_) with Some p => inr p | None => inl (pf_other "invalid point G2") end
  end end end end.
Definition encode_curve_point_g1 (p : G1) : bytes :=
  match from_jacobian p with None => replicate 64 x00 | Some (x, y) => (raw x ++ raw y)%list end.
(** The loop over the pairs. *)
Fixpoint read_pairs (input : bytes) (i n : nat) : PrecompileFailure + list (G1 * G2) :=
  match n with
  | O => inr []
  | S n =>
      match read_curve_point_g1 input (i * 192) with
      | inl e => inl e
      | inr a =>
          match read_twist_point_g2 input (i * 192 + 64) with
          | inl e => inl e
          | inr b => match read_pairs input (S i) n with inl e => inl e | inr l => inr ((a, b) :: l) end
          end
      end
  end.
(** [?] on a result that is data. *)
Definition propagate {E A} (x : E + A) : EM E A := match x with inl e => throw e | inr a => mret a end.
Definition call_bn128_add h : EM PrecompileFailure bytes :=
  record_cost BN128_ADD_GAS_COST ;;
  p1 ← propagate (read_curve_point_g1 (ph_input h) 0);
  p2 ← propagate (read_curve_point_g1 (ph_input h) 64);
  mret (encode_curve_point_g1 (g1_add p1 p2)).
Definition call_bn128_mul h : EM PrecompileFailure bytes :=
  record_cost BN128_MUL_GAS_COST ;;
  p ← propagate (read_curve_point_g1 (ph_input h) 0);
  s ← propagate (read_field_element_fr (ph_input h) 64);
  mret (encode_curve_point_g1 (g1_mul p s)).
Definition call_bn128_pairing h : EM PrecompileFailure bytes :=
  let len := length (ph_input h) in
  if negb (len mod 192 =? 0)%nat then throw (pf_other "bad elliptic curve pairing size")
  else
    let num_pairings := (len / 192)%nat in
    record_cost ((BN128_PAIRING_BASE_GAS_COST + BN128_PAIRING_CHECK_GAS_COST * N.of_nat num_pairings) mod 2 ^ 64) ;;
    pairs ← propagate (read_pairs (ph_input h) 0 num_pairings);
    mret (replicate 31 x00 ++ [if pairing_is_one pairs then x01 else x00])%list.

(** * Gas *)

Definition GAS_USED_COST : N := 10.
Definition PAD_GAS_COST : N := 10.
Definition call_gas_used h : EM PrecompileFailure bytes :=
  record_cost GAS_USED_COST ;; used ← used_gas; mret (abi_encode (T := N) used).
Definition call_pad_gas h : EM PrecompileFailure bytes :=
  record_cost PAD_GAS_COST ;;
  gas_amount_big ← abi_input (T := N) h;
  let gas_amount := default u64_max (narrow u64_max gas_amount_big) in
  used ← used_gas;
  if (gas_amount <? used)%N then throw (pf_other "gas pad amount less than already used gas")
  else record_cost (gas_amount - used) ;; mret [].

(** * SHA-2 *)

(** [make_hasher]. *)
Definition call_hasher (digest : bytes → bytes) h : EM PrecompileFailure bytes :=
  record_linear_cost (input_len h) 115 13 ;; mret (digest (ph_input h)).
Definition call_sha512_256 := call_hasher sha512_256.
Definition call_sha384 := call_hasher sha384.
Definition call_sha512 := call_hasher sha512.

(** * Confidential precompiles *)

Definition X25519_KEY_DERIVATION_BASE_COST : N := 1100.
Definition CURVE25519_COMPUTE_PUBLIC_COST : N := 1000.
Definition DEOXYSII_BASE_COST : N := 100.
Definition DEOXYSII_WORD_COST : N := 10.
Definition KEYPAIR_GENERATE_BASE_COST (t : SignatureType) : N :=
  match t with
  | Ed25519_Oasis | Ed25519_Pure | Ed25519_PrehashedSha512 => 1000
  | Secp256k1_Oasis | Secp256k1_PrehashedKeccak256 | Secp256k1_PrehashedSha256 => 1500
  | Secp256r1_PrehashedSha256 => 4000
  | Secp384r1_PrehashedSha384 => 18000
  | Sr25519_Pure => 1000
  end.
Definition SIGN_MESSAGE_COST (t : SignatureType) : N * N :=
  match t with
  | Ed25519_Oasis | Ed25519_Pure => (1500, 8)
  | Ed25519_PrehashedSha512 => (1500, 0)
  | Secp256k1_Oasis => (3000, 8)
  | Secp256k1_PrehashedKeccak256 | Secp256k1_PrehashedSha256 => (3000, 0)
  | Secp256r1_PrehashedSha256 => (9000, 0)
  | Secp384r1_PrehashedSha384 => (43200, 0)
  | Sr25519_Pure => (1500, 8)
  end%N.
Definition VERIFY_MESSAGE_COST (t : SignatureType) : N * N :=
  match t with
  | Ed25519_Oasis | Ed25519_Pure => (2000, 8)
  | Ed25519_PrehashedSha512 => (2000, 0)
  | Secp256k1_Oasis => (3000, 8)
  | Secp256k1_PrehashedKeccak256 | Secp256k1_PrehashedSha256 => (3000, 0)
  | Secp256r1_PrehashedSha256 => (7900, 0)
  | Secp384r1_PrehashedSha384 => (37920, 0)
  | Sr25519_Pure => (2000, 8)
  end%N.

Definition call_random_bytes h : EM PrecompileFailure bytes :=
  '(num_bytes_big, pers_str) ← abi_input (T := U256 * bytes) h;
  let num_bytes := N.min (default u64_max (narrow u64_max num_bytes_big)) RNG_MAX_BYTES in
  record_multilinear_cost num_bytes (N.of_nat (length pers_str)) 240 60 10000 ;;
  on_current (random_bytes ctx num_bytes pers_str).
Definition call_curve25519_compute_public h : EM PrecompileFailure bytes :=
  record_cost CURVE25519_COMPUTE_PUBLIC_COST ;;
  if negb (length (ph_input h) =? 32)%nat then throw (pf_other "input length must be 32 bytes")
  else mret (x25519_public_key (ph_input h)).
Definition call_x25519_derive h : EM PrecompileFailure bytes :=
  record_linear_cost (input_len h) X25519_KEY_DERIVATION_BASE_COST 0 ;;
  if negb (length (ph_input h) =? 64)%nat then throw (pf_other "input length must be 64 bytes")
  else mret (x25519_derive (take 32 (ph_input h)) (drop 32 (ph_input h))).
(** The nonce is the front of a word. *)
Definition decode_deoxysii_call_args h : EM PrecompileFailure (bytes * bytes * bytes * bytes) :=
  '(key, nonce, text, ad) ← abi_input (T := bytes_n 32 * bytes_n 32 * bytes * bytes) h;
  mret (raw key, take NONCE_SIZE (raw nonce), text, ad).
Definition call_deoxysii_seal h : EM PrecompileFailure bytes :=
  record_linear_cost (input_len h) DEOXYSII_BASE_COST DEOXYSII_WORD_COST ;;
  '(key, nonce, text, ad) ← decode_deoxysii_call_args h;
  mret (deoxys_seal key nonce text ad).
Definition call_deoxysii_open h : EM PrecompileFailure bytes :=
  record_linear_cost (input_len h) DEOXYSII_BASE_COST DEOXYSII_WORD_COST ;;
  '(key, nonce, ciphertext, ad) ← decode_deoxysii_call_args h;
  match deoxys_open key nonce ciphertext ad with Some decrypted => mret decrypted | None => throw (PfRevert []) end.

(** The signature type of a number of 256 bits. *)
Definition signature_type_arg (out_of_bounds : string) (method : U256) : EM PrecompileFailure SignatureType :=
  method ← ok_or (narrow u64_max method) (pf_other out_of_bounds);
  method ← ok_or (narrow 255 method) (pf_other out_of_bounds);
  match signature_type_try_from method with inl _ => throw (pf_other "unknown signature type") | inr t => mret t end.
Definition call_keypair_generate h : EM PrecompileFailure bytes :=
  '(method, seed) ← abi_input (T := U256 * bytes) h;
  sig_type ← signature_type_arg "method identifier out of bounds" method;
  record_linear_cost (input_len h) (KEYPAIR_GENERATE_BASE_COST sig_type) 0 ;;
  match signer_new_from_seed sig_type seed with
  | inl err => throw (pf_other ("error creating signer: " +:+ signature_error_string err))
  | inr signer => mret (abi_encode (T := bytes * bytes) (pk_as_bytes (memory_public_key signer), signer_to_bytes signer))
  end.
Definition call_sign h : EM PrecompileFailure bytes :=
  '(typ, pk, ctx_or_hash, message) ← abi_input (T := U256 * bytes * bytes * bytes) h;
  sig_type ← signature_type_arg "signature type identifier out of bounds" typ;
  let costs := SIGN_MESSAGE_COST sig_type in
  record_linear_cost (input_len h) costs.1 costs.2 ;;
  match signer_from_bytes sig_type pk with
  | inl e => throw (pf_other ("error creating signer: " +:+ signature_error_string e))
  | inr signer =>
      match sign_by_type signer sig_type ctx_or_hash message with
      | inl e => throw (pf_other ("error signing message: " +:+ signature_error_string e))
      | inr result => mret result
      end
  end.
Definition call_verify h : EM PrecompileFailure bytes :=
  '(typ, pk, ctx_or_hash, message, signature) ← abi_input (T := U256 * bytes * bytes * bytes * bytes) h;
  sig_type ← signature_type_arg "signature type identifier out of bounds" typ;
  let costs := VERIFY_MESSAGE_COST sig_type in
  record_linear_cost (input_len h) costs.1 costs.2 ;;
  match pk_from_bytes sig_type pk with
  | inl _ => throw (pf_other "error reading public key")
  | inr public_key =>
      mret (abi_encode (T := bool) (match pk_verify_by_type public_key sig_type ctx_or_hash message signature with
                                    | inr _ => true | inl _ => false end))
  end.

(** * Subcalls *)

Definition evm_forbid_reentrancy : Validator := λ info,
  if String.prefix "evm." (sub_method info) then inl Forbidden else inr tt.
Definition SUBCALL_BASE_COST : N := 10.
Definition SUBCALL_WORD_COST : N := 1.
Definition call_subcall h : EM PrecompileFailure bytes :=
  record_linear_cost (input_len h) SUBCALL_BASE_COST SUBCALL_WORD_COST ;;
  if bool_decide (ph_context_address h ≠ ph_code_address h) then throw (pf_other "invalid call")
  else
    '(method, body) ← abi_input (T := bytes * bytes) h;
    body ← ok_or (value_from_slice body) (pf_other "body is malformed");
    method ← ok_or (from_utf8 method) (pf_other "method is malformed");
    max_gas ← remaining_gas;
    result ← map_err (λ _, pf_other "subcall failed") (on_current (subcall R stack ctx
      {| sub_caller := CallerEth (ph_context_caller h); sub_method := method; sub_body := body; sub_max_depth := 8;
         sub_max_gas := max_gas; sub_read_only := ph_is_static h |} evm_forbid_reentrancy));
    record_cost (sr_gas_used result) ;;
    match sr_call_result result with
    | CallOk value => mret (abi_encode (T := N * bytes) (0%N, value_to_vec value))
    | CallFailed module code _ => mret (abi_encode (T := N * bytes) (code, str module))
    | CallAborted _ => throw (pf_other "subcall failed")
    end.

(** * The set *)

(** Additional precompiles of the configuration. *)
Record PrecompileSet := {
  pcs_execute : PrecompileHandle → EM Empty_set (option (PrecompileFailure + bytes));
  pcs_is_precompile : H160 → N → IsPrecompileResult;
}.
Variable additional_precompiles : option PrecompileSet.

Definition addr_byte (a : H160) (i : nat) : N := Byte.to_N (default x00 (raw a !! i)).
Definition is_builtin (address : H160) : bool :=
  let '(a0, a18, a19) := (addr_byte address 0, addr_byte address 18, addr_byte address 19) in
  bool_decide (take 17 (drop 1 (raw address)) = replicate 17 x00) &&
  (((a0 =? 0)%N && (a18 =? 0)%N && (1 <=? a19)%N && (a19 <=? 8)%N)
   || ((a0 =? 1)%N && (a18 =? 0)%N && (1 <=? a19)%N && (a19 <=? 10)%N && CONFIDENTIAL)
   || ((a0 =? 1)%N && (a18 =? 1)%N && (1 <=? a19)%N && (a19 <=? 4)%N)).
Definition is_precompile (address : H160) (remaining_gas : N) : IsPrecompileResult :=
  if is_builtin address then PrecompileAnswer true 0
  else match additional_precompiles with
       | Some pc => pcs_is_precompile pc address remaining_gas
       | None => PrecompileAnswer false 0
       end.
(** The builtin precompile of an address; only the first and the last two bytes are looked at. *)
Definition builtin (address : H160) : option (PrecompileHandle → EM PrecompileFailure bytes) :=
  match addr_byte address 0, addr_byte address 18, addr_byte address 19 with
  | 0, 0, 1 => Some call_ecrecover
  | 0, 0, 2 => Some call_sha256
  | 0, 0, 3 => Some call_ripemd160
  | 0, 0, 4 => Some call_datacopy
  | 0, 0, 5 => Some call_bigmodexp
  | 0, 0, 6 => Some call_bn128_add
  | 0, 0, 7 => Some call_bn128_mul
  | 0, 0, 8 => Some call_bn128_pairing
  | 1, 0, 1 => Some call_random_bytes
  | 1, 0, 2 => Some call_x25519_derive
  | 1, 0, 3 => Some call_deoxysii_seal
  | 1, 0, 4 => Some call_deoxysii_open
  | 1, 0, 5 => Some call_keypair_generate
  | 1, 0, 6 => Some call_sign
  | 1, 0, 7 => Some call_verify
  | 1, 0, 8 => Some call_curve25519_compute_public
  | 1, 0, 9 => Some call_gas_used
  | 1, 0, 10 => Some call_pad_gas
  | 1, 1, 1 => Some call_sha512_256
  | 1, 1, 2 => Some call_sha512
  | 1, 1, 3 => Some call_subcall
  | 1, 1, 4 => Some call_sha384
  | _, _, _ => None
  end%N.
Definition precompile_execute h : EM Empty_set (option (PrecompileFailure + bytes)) :=
  gas ← remaining_gas;
  let dispatch : EM Empty_set (option (PrecompileFailure + bytes)) :=
    match builtin (ph_code_address h) with
    | Some f => r ← try_ (f h); mret (Some r)
    | None => match additional_precompiles with Some pc => pcs_execute pc h | None => mret None end
    end in
  match is_precompile (ph_code_address h) gas with
  | PrecompileAnswer true extra_cost =>
      r ← try_ (record_cost extra_cost);
      match r with
      | inl e => mret (Some (inl e))
      | inr _ => dispatch
      end
  | PrecompileOutOfGas => mret (Some (inl (PfError XOutOfGas)))
  | PrecompileAnswer false _ => mret None
  end.
End precompiles.

(** * ERC-20 tokens *)

Inductive Erc20Error :=
  | Erc20Forbidden
  | ERC20InvalidSender (a : H160)
  | ERC20InvalidReceiver (a : H160)
  | ERC20InvalidApprover (a : H160)
  | ERC20InvalidSpender (a : H160)
  | ERC20InsufficientBalance (a : H160) (balance needed : N)
  | ERC20InsufficientAllowance (a : H160) (allowance needed : N)
  | Erc20Accounts (e : AccountsError).
Record TokenOperationCosts := {
  toc_name : N; toc_symbol : N; toc_decimals : N; toc_total_supply : N; toc_balance_of : N; toc_transfer : N;
  toc_transfer_from : N; toc_approve : N; toc_allowance : N; toc_mint : N; toc_burn : N;
}.
Definition token_operation_costs_default : TokenOperationCosts := {|
  toc_name := 100; toc_symbol := 100; toc_decimals := 100; toc_total_supply := 500; toc_balance_of := 500;
  toc_transfer := 1000; toc_transfer_from := 1000; toc_approve := 1500; toc_allowance := 500; toc_mint := 1000; toc_burn := 1000;
|}.
(** A token that is backed by a denomination of the accounts module. *)
Class AccountToken `{Platform} := {
  TOKEN_ADDRESS : H160;
  TOKEN_COSTS : TokenOperationCosts;
  TOKEN_NAME : string;
  TOKEN_SYMBOL : string;
  TOKEN_DECIMALS : N;
  token_denomination : Denomination;
  is_minting_allowed : H160 → H160 → M Erc20Error bool;
  is_burning_allowed : H160 → H160 → M Erc20Error bool;
}.

Section erc20.
Context `{Platform} `{!AccountsCodec} `{!AccountToken}.

Definition is_zero (a : H160) : bool := bool_decide (a = h160_default).
Definition token_units (n : N) : BaseUnits := BaseUnits_new n token_denomination.
Definition annotate_accounts_error {A} (account : Address) (address : H160) (a : BaseUnits) (m : M AccountsError A)
    : M Erc20Error A :=
  r ← try_ m;
  match r with
  | inr x => mret x
  | inl InsufficientBalance =>
      balance ← get_balance account (denomination a);
      throw (ERC20InsufficientBalance address balance (amount a))
  | inl err => throw (Erc20Accounts err)
  end.
Definition erc20_total_supply : M Erc20Error N := get_total_supply token_denomination.
Definition erc20_balance_of (account : H160) : M Erc20Error N := get_balance (from_eth (raw account)) token_denomination.
Definition erc20_transfer (sender recipient : H160) (amount : N) : M Erc20Error bool :=
  if is_zero sender then throw (ERC20InvalidSender sender)
  else if is_zero recipient then throw (ERC20InvalidReceiver recipient)
  else
    let amount := token_units amount in
    let sender_address := from_eth (raw sender) in
    annotate_accounts_error sender_address sender amount (transfer sender_address (from_eth (raw recipient)) amount) ;;
    mret true.
Definition erc20_transfer_from (owner spender recipient : H160) (amount : N) : M Erc20Error bool :=
  if is_zero owner then throw (ERC20InvalidApprover owner)
  else if is_zero spender then throw (ERC20InvalidSpender spender)
  else if is_zero recipient then throw (ERC20InvalidReceiver recipient)
  else
    let owner_acc := from_eth (raw owner) in
    let spender_acc := from_eth (raw spender) in
    allowance ← get_allowance owner_acc spender_acc token_denomination;
    left ← ok_or (checked_sub allowance amount) (ERC20InsufficientAllowance spender allowance amount);
    set_allowance owner_acc spender_acc (token_units left) ;;
    annotate_accounts_error owner_acc owner (token_units amount)
      (transfer owner_acc (from_eth (raw recipient)) (token_units amount)) ;;
    mret true.
Definition erc20_approve (owner spender : H160) (amount : N) : M Erc20Error bool :=
  if is_zero owner then throw (ERC20InvalidApprover owner)
  else if is_zero spender then throw (ERC20InvalidSpender spender)
  else set_allowance (from_eth (raw owner)) (from_eth (raw spender)) (token_units amount) ;; mret true.
Definition erc20_allowance (owner spender : H160) : M Erc20Error N :=
  get_allowance (from_eth (raw owner)) (from_eth (raw spender)) token_denomination.
Definition erc20_mint (caller to : H160) (amount : N) : M Erc20Error unit :=
  if is_zero to then throw (ERC20InvalidReceiver to)
  else
    allowed ← is_minting_allowed caller to;
    if (allowed : bool) then map_err Erc20Accounts (mint (from_eth (raw to)) (token_units amount)) else throw Erc20Forbidden.
Definition erc20_burn (caller from : H160) (amount : N) : M Erc20Error unit :=
  if is_zero from then throw (ERC20InvalidReceiver from)
  else
    allowed ← is_burning_allowed caller from;
    if (allowed : bool) then map_err Erc20Accounts (burn (from_eth (raw from)) (token_units amount)) else throw Erc20Forbidden.

(** ** The static contract *)

Context `{StackMetadata} `{Solabi} `{!PrecompileLibs}.
Implicit Types h : PrecompileHandle.

(** [parse_signature]: the first four bytes of the hash of a signature. *)
Definition selector (signature : string) : bytes := take 4 (raw (keccak256 (str signature))).
(** The derived [EvmError]. *)
Definition erc20_encode (e : Erc20Error) : PrecompileFailure :=
  PfRevert (match e with
            | Erc20Forbidden => selector "Forbidden()"
            | ERC20InvalidSender a => selector "ERC20InvalidSender(address)" ++ abi_encode a
            | ERC20InvalidReceiver a => selector "ERC20InvalidReceiver(address)" ++ abi_encode a
            | ERC20InvalidApprover a => selector "ERC20InvalidApprover(address)" ++ abi_encode a
            | ERC20InvalidSpender a => selector "ERC20InvalidSpender(address)" ++ abi_encode a
            | ERC20InsufficientBalance a x y => selector "ERC20InsufficientBalance(address,uint256,uint256)" ++ abi_encode (a, x, y)
            | ERC20InsufficientAllowance a x y => selector "ERC20InsufficientAllowance(address,uint256,uint256)" ++ abi_encode (a, x, y)
            | Erc20Accounts e => selector "Accounts(string)" ++ abi_encode (to_string e)
            end)%list.
(** The derived [EvmEvent::emit] of an event with two indexed addresses and a value. *)
(** The encoding of an address is a word. *)
Definition topic_of (b : bytes) : H256 := default h256_default (bytes_n_of 32 b).
Definition emit_erc20 {E} (signature : string) (a b : H160) (value : N) : EM E unit :=
  evm_log TOKEN_ADDRESS [keccak256 (str signature); topic_of (abi_encode (array1 a)); topic_of (abi_encode (array1 b))]
    (abi_encode (array1 value)).
Definition TRANSFER_EVENT : string := "Transfer(address,address,uint256)".
Definition APPROVAL_EVENT : string := "Approval(address,address,uint256)".

Definition erc20_run {A} (m : M Erc20Error A) : EM PrecompileFailure A := map_err erc20_encode (on_current m).
(** The methods that write refuse static calls, after their cost is recorded. *)
Definition erc20_write {A} h (cost : N) (m : EM PrecompileFailure A) : EM PrecompileFailure A :=
  record_cost cost ;; if ph_is_static h then throw (erc20_encode Erc20Forbidden) else m.
Definition token_name : EM PrecompileFailure bytes := record_cost (toc_name TOKEN_COSTS) ;; mret (abi_encode (array1 TOKEN_NAME)).
Definition token_symbol : EM PrecompileFailure bytes := record_cost (toc_symbol TOKEN_COSTS) ;; mret (abi_encode (array1 TOKEN_SYMBOL)).
Definition token_decimals : EM PrecompileFailure bytes := record_cost (toc_decimals TOKEN_COSTS) ;; mret (abi_encode (array1 TOKEN_DECIMALS)).
Definition token_total_supply : EM PrecompileFailure bytes :=
  record_cost (toc_total_supply TOKEN_COSTS) ;; a ← erc20_run erc20_total_supply; mret (abi_encode (T := N) a).
Definition token_balance_of (address : H160) : EM PrecompileFailure bytes :=
  record_cost (toc_balance_of TOKEN_COSTS) ;; a ← erc20_run (erc20_balance_of address); mret (abi_encode (T := N) a).
Definition token_transfer h (recipient : H160) (amount : N) : EM PrecompileFailure bytes :=
  erc20_write h (toc_transfer TOKEN_COSTS) (
    done ← erc20_run (erc20_transfer (ph_context_caller h) recipient amount);
    emit_erc20 TRANSFER_EVENT (ph_context_caller h) recipient amount ;;
    mret (abi_encode (T := bool) done)).
Definition token_transfer_from h (owner recipient : H160) (amount : N) : EM PrecompileFailure bytes :=
  erc20_write h (toc_transfer_from TOKEN_COSTS) (
    done ← erc20_run (erc20_transfer_from owner (ph_context_caller h) recipient amount);
    emit_erc20 TRANSFER_EVENT owner recipient amount ;;
    mret (abi_encode (array1 (done : bool)))).
Definition token_approve h (spender : H160) (amount : N) : EM PrecompileFailure bytes :=
  erc20_write h (toc_approve TOKEN_COSTS) (
    done ← erc20_run (erc20_approve (ph_context_caller h) spender amount);
    emit_erc20 APPROVAL_EVENT (ph_context_caller h) spender amount ;;
    mret (abi_encode (array1 (done : bool)))).
Definition token_allowance (owner spender : H160) : EM PrecompileFailure bytes :=
  record_cost (toc_allowance TOKEN_COSTS) ;; a ← erc20_run (erc20_allowance owner spender); mret (abi_encode (T := N) a).
Definition token_mint h (to : H160) (amount : N) : EM PrecompileFailure bytes :=
  erc20_write h (toc_mint TOKEN_COSTS) (
    erc20_run (erc20_mint (ph_context_caller h) to amount) ;;
    emit_erc20 TRANSFER_EVENT h160_default to amount ;; mret []).
Definition token_burn h (from : H160) (amount : N) : EM PrecompileFailure bytes :=
  erc20_write h (toc_burn TOKEN_COSTS) (
    erc20_run (erc20_burn (ph_context_caller h) from amount) ;;
    emit_erc20 TRANSFER_EVENT from h160_default amount ;; mret []).

(** [generate_method_call]: the arguments behind the selector, integers limited to 128 bits. *)
Definition method_args {T} `{!AbiDecode T} h (k : T → EM PrecompileFailure bytes) : EM PrecompileFailure bytes :=
  match abi_decode (drop 4 (ph_input h)) with inl _ => throw (pf_other "invalid argument") | inr x => k x end.
Definition uint_arg (n : U256) (k : N → EM PrecompileFailure bytes) : EM PrecompileFailure bytes :=
  match narrow u128_max n with None => throw (pf_other "integer overflow") | Some n => k n end.
(** The derived [StaticContract::dispatch_call]. *)
Definition erc20_dispatch_call h : EM PrecompileFailure bytes :=
  if bool_decide (ph_context_address h ≠ ph_code_address h) then throw (pf_other "invalid call")
  else if (length (ph_input h) <? 4)%nat then throw (PfRevert [])
  else
    let sel sig := bool_decide (take 4 (ph_input h) = selector sig) in
    if sel "name()" then token_name
    else if sel "symbol()" then token_symbol
    else if sel "decimals()" then token_decimals
    else if sel "totalSupply()" then token_total_supply
    else if sel "balanceOf(address)" then method_args h token_balance_of
    else if sel "transfer(address,uint256)" then method_args h (λ '(recipient, n), uint_arg n (token_transfer h recipient))
    else if sel "transferFrom(address,address,uint256)" then
      method_args h (λ '(owner, recipient, n), uint_arg n (token_transfer_from h owner recipient))
    else if sel "approve(address,uint256)" then method_args h (λ '(spender, n), uint_arg n (token_approve h spender))
    else if sel "allowance(address,address)" then method_args h (λ '(owner, spender), token_allowance owner spender)
    else if sel "mint(address,uint256)" then method_args h (λ '(to, n), uint_arg n (token_mint h to))
    else if sel "burn(address,uint256)" then method_args h (λ '(from, n), uint_arg n (token_burn h from))
    else throw (PfRevert []).
(** The derived set of precompiles with this contract only. *)
Definition erc20_is_precompile (address : H160) (gas : N) : IsPrecompileResult := PrecompileAnswer (bool_decide (TOKEN_ADDRESS = address)) 0.
Definition erc20_execute h : EM Empty_set (option (PrecompileFailure + bytes)) :=
  if bool_decide (TOKEN_ADDRESS = ph_code_address h) then
    r ← try_ (record_cost 0);
    match r with
    | inl e => mret (Some (inl e))
    | inr _ => r ← try_ (erc20_dispatch_call h); mret (Some r)
    end
  else mret None.
Definition erc20_precompiles : PrecompileSet := {| pcs_execute := erc20_execute; pcs_is_precompile := erc20_is_precompile |}.
End erc20.
