(* ===== verification/Evm.v ===== *)
(** The EVM module: the operations that the stack executor of the evm crate performs on the backend, executions, the
    calls and queries of the module, signed queries, and the hooks for Ethereum transactions and blocks
    (src/runtime-sdk/modules/evm/src/{lib,signed_call}.rs). *)
From S2P Require Import Prelude Endian Storage StoreIter Types Fee Errors State Current Transactions Module CallFormat Core.
From S2P Require Import Accounts Dispatcher Subcall Estimate ConfidentialStore HostFunctions Signatures EvmTypes EvmBackend EvmPrecompiles.

Local Open Scope string_scope.

(** * Runs of the executor *)

(** The operations of [Backend], [StackState] and [PrecompileSet]. *)
Inductive EvmOp `{StackMetadata} :=
  | OpGasPrice | OpOrigin | OpBlockHash (number : U256) | OpBlockNumber | OpBlockCoinbase | OpBlockTimestamp
  | OpBlockDifficulty | OpBlockRandomness | OpBlockGasLimit | OpBlockBaseFee | OpChainId
  | OpExists (a : H160) | OpBasic (a : H160) | OpCode (a : H160) | OpStorage (a : H160) (key : H256)
  | OpOriginalStorage (a : H160) (key : H256)
  | OpMetadata | OpSetMetadata (m : Metadata_)
  | OpEnter (gas_limit : N) (is_static : bool) | OpExitCommit | OpExitRevert | OpExitDiscard
  | OpIsEmpty (a : H160) | OpDeleted (a : H160) | OpIsCold (a : H160) | OpIsStorageCold (a : H160) (key : H256)
  | OpIncNonce (a : H160) | OpSetStorage (a : H160) (key value : H256) | OpResetStorage (a : H160)
  | OpLog (a : H160) (topics : list H256) (data : bytes) | OpSetDeleted (a : H160) | OpSetCode (a : H160) (code : bytes)
  | OpTransfer (source target : H160) (value : U256) | OpResetBalance (a : H160) | OpTouch (a : H160)
  | OpExecute (h : PrecompileHandle) | OpIsPrecompile (a : H160) (remaining_gas : N).
Definition EvmRet `{StackMetadata} (op : EvmOp) : Type :=
  match op with
  | OpGasPrice | OpBlockNumber | OpBlockTimestamp | OpBlockDifficulty | OpBlockGasLimit | OpBlockBaseFee | OpChainId => U256
  | OpOrigin | OpBlockCoinbase => H160
  | OpBlockHash _ | OpStorage _ _ | OpOriginalStorage _ _ => H256
  | OpBlockRandomness => option H256
  | OpExists _ | OpIsEmpty _ | OpDeleted _ | OpIsCold _ | OpIsStorageCold _ _ => bool
  | OpBasic _ => Basic
  | OpCode _ => bytes
  | OpMetadata => Metadata_
  | OpExitCommit | OpExitRevert | OpExitDiscard | OpIncNonce _ | OpTransfer _ _ _ => (ExitError + unit)%type
  | OpExecute _ => option (PrecompileFailure + bytes)
  | OpIsPrecompile _ _ => IsPrecompileResult
  | _ => unit
  end.
(** A run: it ends with a result, or performs an operation and goes on with what comes back. *)
Inductive EvmRun `{StackMetadata} (A : Type) :=
  | RunRet (a : A)
  | RunOp (op : EvmOp) (k : EvmRet op → EvmRun A).
Arguments RunRet {_ A} a.
Arguments RunOp {_ A} op k.
Fixpoint run_bind `{StackMetadata} {A B} (r : EvmRun A) (f : A → EvmRun B) : EvmRun B :=
  match r with
  | RunRet a => f a
  | RunOp op k => RunOp op (λ x, run_bind (k x) f)
  end.

(** [StackExecutor] of the evm crate, and Base64. *)
Class EvmEngine `{StackMetadata} := {
  transact_call : EVMConfig → H160 → H160 → U256 → bytes → N → EvmRun (ExitReason * bytes);
  transact_create : EVMConfig → H160 → U256 → bytes → N → EvmRun (ExitReason * bytes);
  (** [create_address] with the legacy scheme *)
  create_address : H160 → EvmRun H160;
  (** [used_gas] *)
  executor_used_gas : EVMConfig → Metadata_ → N;
  base64_encode : bytes → string;
}.
(** The decoding of signed queries, the values of results, and configuration. *)
Class EvmValues `{Platform} := {
  pack_from_slice : bytes → option SignedCallDataPack;
  #[global] evv_config :: CborValue EvmLocalConfig;
  #[global] evv_bytes :: CborValue bytes;
  #[global] evv_u128 :: CborValue N;
  #[global] evv_storage :: CborValue StorageQuery;
  #[global] evv_code :: CborValue CodeQuery;
  #[global] evv_balance :: CborValue EvmBalanceQuery;
  #[global] evv_simulate :: CborValue SimulateCallQuery;
  (** [encode_packed] of the solabi crate, on byte strings and words *)
  encode_packed : list bytes → bytes;
}.

Section evm.
Context `{Platform} `{!TxCodec} `{!CallCrypto} `{!CoreCodec} `{!CoreConfig} `{!DispatchCodec} `{!AccountsCodec} `{!StoreCrypto} `{!VrfCrypto}.
Context `{!CborValue bool} `{!CborValue (list (gmap string bool))} `{!CborValue LocalConfig}.
Context `{!EvmConfig} `{!EvmCodec} `{StackMetadata} `{Solabi} `{Bn128} `{!PrecompileLibs} `{SignatureLibs} `{Ethereum}.
Context `{!EvmEngine} `{!EvmValues} `{!EvmBodies} `{!ByteStrings}.
Variables (R : SubcallStack → Runtime) (stack : SubcallStack) (additional_precompiles : option PrecompileSet).

Section runs.
Variables (ctx : Ctx) (vicinity : Vicinity).

Definition evm_op (op : EvmOp) : EM Empty_set (EvmRet op) :=
  match op with
  | OpGasPrice => mret (v_gas_price vicinity)
  | OpOrigin => mret (v_origin vicinity)
  | OpBlockHash number => block_hash number
  | OpBlockNumber => mret (block_number ctx)
  | OpBlockCoinbase => mret block_coinbase
  | OpBlockTimestamp => mret (block_timestamp ctx)
  | OpBlockDifficulty => mret block_difficulty
  | OpBlockRandomness => mret block_randomness
  | OpBlockGasLimit => block_gas_limit
  | OpBlockBaseFee => block_base_fee_per_gas
  | OpChainId => mret chain_id
  | OpExists a => evm_exists vicinity a
  | OpBasic a => basic vicinity a
  | OpCode a => evm_code a
  | OpStorage a key => storage ctx a key
  | OpOriginalStorage a key => original_storage ctx a key
  | OpMetadata => gets (λ h, ss_metadata (es_substate h))
  | OpSetMetadata m => on_substate (modify (substate_set_metadata m))
  | OpEnter gas_limit is_static => enter gas_limit is_static
  | OpExitCommit => exit_commit
  | OpExitRevert => exit_revert
  | OpExitDiscard => exit_discard
  | OpIsEmpty a => is_empty vicinity a
  | OpDeleted a => deleted a
  | OpIsCold a => is_cold a
  | OpIsStorageCold a key => is_storage_cold a key
  | OpIncNonce a => evm_inc_nonce vicinity a
  | OpSetStorage a key value => set_storage ctx a key value
  | OpResetStorage a => reset_storage a
  | OpLog a topics data => evm_log a topics data
  | OpSetDeleted a => set_deleted a
  | OpSetCode a code => set_code a code
  | OpTransfer source target value => evm_transfer source target value
  | OpResetBalance a => reset_balance a
  | OpTouch a => touch a
  | OpExecute h => precompile_execute R stack ctx additional_precompiles h
  | OpIsPrecompile a gas => mret (is_precompile additional_precompiles a gas)
  end.
Fixpoint run_evm {A} (r : EvmRun A) : EM Empty_set A :=
  match r with
  | RunRet a => mret a
  | RunOp op k => x ← evm_op op; run_evm (k x)
  end.
(** A run on a fresh stack state with the given metadata, and the substate after it ([into_state]). *)
Definition with_stack_state {A} (m : Metadata_) (r : EvmRun A) : M Empty_set (A * OasisStackSubstate) := λ s,
  match run_evm r {| es_state := s; es_substate := substate_new m; es_original_storage := ∅ |} with
  | (Ok a, h) => (Ok (a, es_substate h), es_state h)
  | (Err e, h) => match e with end
  | (Panic p, h) => (Panic p, es_state h)
  end.
End runs.

(** * Executions *)

Definition ev_use_gas (gas : N) : M EvmError unit := map_err EvCore (use_tx_gas gas).
Definition exit_error_of (reason : ExitReason) (exit_value : bytes) : option EvmError :=
  match reason with
  | XSucceed => None
  | XRevert => Some (EvReverted (base64_encode exit_value))
  | XError err => Some (from_exit_error err)
  | XFatal err => Some (from_exit_fatal err)
  end.
(** What follows the run of the executor. *)
Definition evm_finish (is_query : bool) (gas_used : N) (reason : ExitReason) (exit_value : bytes) (substate : OasisStackSubstate)
    : M EvmError bytes :=
  let exit_value := if negb is_query && (MAX_RESULT_SIZE <? length exit_value)%nat then take MAX_RESULT_SIZE exit_value
                    else exit_value in
  match exit_error_of reason exit_value with
  | Some err =>
      ev_use_gas gas_used ;;
      set_refund_unused_tx_fee REFUND_UNUSED_FEE ;;
      throw err
  | None =>
      r ← try_ (apply substate);
      match r with
      | inl err => ev_use_gas gas_used ;; throw err
      | inr _ =>
          ev_use_gas gas_used ;;
          set_refund_unused_tx_fee REFUND_UNUSED_FEE ;;
          mret exit_value
      end
  end.
Definition evm_execute (ctx : Ctx) (source : H160) (f : EVMConfig → N → EvmRun (ExitReason * bytes)) (estimate_gas : bool)
    : M EvmError bytes :=
  is_query ← with_env (λ env, negb (is_execute env));
  let cfg := evm_config estimate_gas in
  gas_limit ← remaining_tx_gas;
  price ← with_tx_env (λ env, (λ ai, gas_price (ai_fee ai)) <$> env_tx_auth_info env);
  let vicinity := {| v_gas_price := price; v_origin := source |} in
  '(reason, exit_value, substate) ← lift (with_stack_state ctx vicinity (metadata_new gas_limit cfg) (f cfg gas_limit));
  evm_finish is_query (executor_used_gas cfg (ss_metadata substate)) reason exit_value substate.

Definition evm_call (ctx : Ctx) (caller address : H160) (value : U256) (data : bytes) (estimate_gas : bool) : M EvmError bytes :=
  evm_execute ctx caller (λ cfg gas_limit, transact_call cfg caller address value data gas_limit) estimate_gas.
Definition create_run (caller : H160) (value : U256) (init_code : bytes) (cfg : EVMConfig) (gas_limit : N)
    : EvmRun (ExitReason * bytes) :=
  run_bind (create_address caller) (λ address,
  run_bind (transact_create cfg caller value init_code gas_limit) (λ '(reason, exit_value),
  RunRet (if is_succeed reason then (reason, raw address) else (reason, exit_value)))).
Definition evm_create (ctx : Ctx) (caller : H160) (value : U256) (init_code : bytes) (estimate_gas : bool) : M EvmError bytes :=
  evm_execute ctx caller (create_run caller value init_code) estimate_gas.

(** * Call data and results *)

Definition evm_decode_call (ctx : Ctx) (call : Call) (tx_index : N) (assume_km_reachable : bool)
    : M EvmError (option (bytes * Metadata)) :=
  r ← map_err EvCore (decode_call_ex ctx call tx_index assume_km_reachable);
  match r with
  | Some (call, metadata) =>
      match as_byte_string (call_body call) with
      | Some data => mret (Some (data, metadata))
      | None => throw (EvCore (InvalidCallFormat "invalid inner data"))
      end
  | None => mret None
  end.
Definition decode_call_data (ctx : Ctx) (data : bytes) (format : CallFormat) (tx_index : N) (assume_km_reachable : bool)
    : M EvmError (option (bytes * Metadata)) :=
  if negb CONFIDENTIAL || bool_decide (format ≠ Plain) then mret (Some (data, MetadataEmpty))
  else match call_from_slice data with
       | Some call => evm_decode_call ctx call tx_index assume_km_reachable
       | None => mret (Some (data, MetadataEmpty))
       end.
(** The bytes drawn for a nonce outside of execution are an argument. *)
Definition encode_evm_result (ctx : Ctx) (entropy : bytes) (evm_result : EvmError + bytes) (tx_metadata : Metadata)
    : M EvmError bytes :=
  match tx_metadata with
  | MetadataEmpty => match evm_result with inl e => throw e | inr data => mret data end
  | _ =>
      match evm_result with
      | inl e => throw e
      | inr data =>
          result ← encode_result_ex ctx entropy (CallOk (byte_string data)) tx_metadata true;
          mret (result_to_vec result)
      end
  end.

(** * Calls *)

(** The format and index of the transaction, and whether gas is estimated without a search. *)
Definition tx_mode : M EvmError (CallFormat * N * bool) :=
  format ← with_tx_env env_tx_call_format;
  index ← with_tx_env env_tx_index;
  simulation ← with_env is_simulation;
  mret (format, index, simulation).
Definition estimates_gas (ctx : Ctx) (simulation : bool) : M EvmError bool :=
  if simulation then iters ← estimate_gas_search_max_iters ctx; mret (iters =? 0)%N else mret false.
Definition create (ctx : Ctx) (value : U256) (init_code : bytes) : M EvmError bytes :=
  caller ← derive_caller;
  execute ← should_execute_contracts ctx;
  if negb execute then mret []
  else
    '(format, index, simulation) ← tx_mode;
    r ← decode_call_data ctx init_code format index true;
    '(init_code, _) ← expect r "processing always proceeds";
    estimate_gas ← estimates_gas ctx simulation;
    evm_create ctx caller value init_code estimate_gas.
Definition call (ctx : Ctx) (entropy : bytes) (address : H160) (value : U256) (data : bytes) : M EvmError bytes :=
  caller ← derive_caller;
  execute ← should_execute_contracts ctx;
  if negb execute then mret []
  else
    '(format, index, simulation) ← tx_mode;
    r ← decode_call_data ctx data format index true;
    '(data, tx_metadata) ← expect r "processing always proceeds";
    estimate_gas ← estimates_gas ctx simulation;
    evm_result ← try_ (evm_call ctx caller address value data estimate_gas);
    encode_evm_result ctx entropy evm_result tx_metadata.
Definition evm_tx_create (ctx : Ctx) (body : EvmCreate) : M EvmError bytes := create ctx (evc_value body) (evc_init_code body).
Definition evm_tx_call (ctx : Ctx) (entropy : bytes) (body : EvmCall) : M EvmError bytes :=
  call ctx entropy (evk_address body) (evk_value body) (evk_data body).

(** * Queries *)

(** The slots of EIP-1967. *)
Definition magic_slot (n : N) : H256 := default h256_default (bytes_n_of 32 (be_bytes 32 n)).
Definition WHITELISTED_MAGIC_SLOTS : list H256 :=
  [magic_slot 0x360894a13ba1a3210667c828492db98dca3e2076cc3735a920a3ca505d382bbc;
   magic_slot 0xa3f0ad74e5423aebfd80d3ef4346578335a9a72aeaee59ff6cb3582b35133d50;
   magic_slot 0xb53127684a568b3173ae13b9f8a6016e243e63b6e8ee1178d6a717850b5d6103]%N.
Definition get_storage (ctx : Ctx) (address : H160) (index : H256) : M EvmError bytes :=
  v ← (if is_confidential ctx && bool_decide (index ∈ WHITELISTED_MAGIC_SLOTS)
       then with_confidential_storage ctx address (slot_get index)
       else with_public_storage address (slot_get index));
  mret (raw v).
Definition get_code (address : H160) : M EvmError bytes := get_code_of address.
Definition evm_get_balance (address : H160) : M EvmError N := get_balance (map_address address) TOKEN_DENOMINATION.

(** ** Signed queries *)

Definition u64x4_to_u8x32 (arr : list N) : bytes := concat (be_bytes64 <$> rev arr).
(** The words of an integer of 256 bits, the lowest first. *)
Definition words64 (n : U256) : list N := [n mod 2 ^ 64; (n / 2 ^ 64) mod 2 ^ 64; (n / 2 ^ 128) mod 2 ^ 64; (n / 2 ^ 192) mod 2 ^ 64]%N.
Definition pad_address_to_u8x32 (a : H160) : bytes := replicate 12 x00 ++ raw a.
Definition hash_bytes (b : bytes) : bytes := raw (keccak256 b).
Definition LEASH_TYPE_STR : string := "Leash(uint64 nonce,uint64 blockNumber,bytes32 blockHash,uint64 blockRange)".
Definition CALL_TYPE_STR : string :=
  "Call(address from,address to,uint64 gasLimit,uint256 gasPrice,uint256 value,bytes data,Leash leash)" +:+ LEASH_TYPE_STR.
Definition DOMAIN_TYPE_STR : string := "EIP712Domain(string name,string version,uint256 chainId)".
Definition hash_leash (leash : Leash) : bytes :=
  hash_bytes (encode_packed [hash_bytes (str LEASH_TYPE_STR); be_bytes 32 (leash_nonce leash);
                             be_bytes 32 (leash_block_number leash); raw (leash_block_hash leash); be_bytes 32 (leash_block_range leash)]).
Definition hash_call (query : SimulateCallQuery) (leash : Leash) : bytes :=
  hash_bytes (encode_packed
    [hash_bytes (str CALL_TYPE_STR); pad_address_to_u8x32 (scq_caller query);
     pad_address_to_u8x32 (default h160_default (scq_address query)); be_bytes 32 (scq_gas_limit query);
     u64x4_to_u8x32 (words64 (scq_gas_price query)); u64x4_to_u8x32 (words64 (scq_value query));
     hash_bytes (scq_data query); hash_leash leash]).
Definition hash_domain : bytes :=
  hash_bytes (encode_packed [hash_bytes (str DOMAIN_TYPE_STR); hash_bytes (str "oasis-runtime-sdk/evm: signed query");
                             hash_bytes (str "1.0.0"); be_bytes 32 CHAIN_ID]).
Definition hash_call_toplevel (query : SimulateCallQuery) (leash : Leash) : H256 :=
  keccak256 ([x19; x01] ++ hash_domain ++ hash_call query leash)%list.

(** The scalars and the recovery id of a signature; wallets may add 27 to the id. *)
Definition signature_parts (signature : bytes_n 65) : option (H256 * H256 * N) :=
  let v := Byte.to_N (default x00 (raw signature !! 64%nat)) in
  let v := if (27 <=? v)%N then (v - 27)%N else v in
  r ← bytes_n_of 32 (take 32 (raw signature));
  s ← bytes_n_of 32 (take 32 (drop 32 (raw signature)));
  if signature_from_scalars r s then recid ← recovery_id_from_byte v; Some (r, s, recid) else None.
Definition signer_address (uncompressed : bytes) : bytes := drop 12 (raw (keccak256 (drop 1 uncompressed))).
Definition invalid_signed {A} (msg : string) : M EvmError A := throw (EvInvalidSignedSimulateCall msg).
Definition signed_verify (ctx : Ctx) (query : SimulateCallQuery) (leash : Leash) (signature : bytes_n 65)
    : M EvmError SimulateCallQuery :=
  match signature_parts signature with
  | None => invalid_signed "invalid signature"
  | Some (r, s, sig_recid) =>
      match recover_low r s sig_recid (hash_call_toplevel query leash) with
      | inl _ => invalid_signed "signature recovery failed"
      | inr (signer_pk, _) =>
          if bool_decide (signer_address signer_pk ≠ raw (scq_caller query)) then invalid_signed "signer != caller"
          else
            nonce ← get_nonce (map_address (scq_caller query));
            if (leash_nonce leash <? nonce)%N then invalid_signed "stale nonce"
            else
              base_block_hash ← typed_get block_hashes (be_bytes64 (leash_block_number leash));
              match base_block_hash with
              | None => invalid_signed "base block not found"
              | Some hash =>
                  if bool_decide (hash ≠ leash_block_hash leash) then invalid_signed "unexpected base block"
                  else
                    let block_delta := default (leash_block_number leash - ctx_round ctx)%N
                                         (checked_sub (ctx_round ctx) (leash_block_number leash)) in
                    if (leash_block_range leash <? block_delta)%N then invalid_signed "current block out of range"
                    else mret query
              end
      end
  end.

(** ** Simulated calls *)

Definition with_data (query : SimulateCallQuery) (caller : H160) (data : bytes) : SimulateCallQuery :=
  {| scq_gas_price := scq_gas_price query; scq_gas_limit := scq_gas_limit query; scq_caller := caller;
     scq_address := scq_address query; scq_value := scq_value query; scq_data := data |}.
Definition decode_simulate_call_query (ctx : Ctx) (query : SimulateCallQuery) : M EvmError (SimulateCallQuery * Metadata) :=
  if negb CONFIDENTIAL then mret (query, MetadataEmpty)
  else match pack_from_slice (scq_data query) with
       | Some pack =>
           r ← evm_decode_call ctx (pack_data pack) 0 true;
           '(data, tx_metadata) ← expect r "processing always proceeds";
           verified ← signed_verify ctx (with_data query (scq_caller query) data) (pack_leash pack) (pack_signature pack);
           mret (verified, tx_metadata)
       | None =>
           r ← decode_call_data ctx (scq_data query) Plain 0 true;
           '(data, tx_metadata) ← expect r "processing always proceeds";
           mret (with_data query h160_default data, tx_metadata)
       end.
(** The call and the execution of a query, by whether it has an address. *)
Definition simulated_call (query : SimulateCallQuery) : Call :=
  let '(method, body) := match scq_address query with
    | Some address => ("evm.Call", to_value {| evk_address := address; evk_value := scq_value query; evk_data := scq_data query |})
    | None => ("evm.Create", to_value {| evc_value := scq_value query; evc_init_code := scq_data query |})
    end in
  {| call_format := Plain; call_method := method; call_body := body; call_read_only := false |}.
Definition simulated_exec (ctx : Ctx) (query : SimulateCallQuery) : M EvmError bytes :=
  match scq_address query with
  | Some address => evm_call ctx (scq_caller query) address (scq_value query) (scq_data query) false
  | None => evm_create ctx (scq_caller query) (scq_value query) (scq_data query) false
  end.
Definition simulated_fee (query : SimulateCallQuery) : option N :=
  a ← checked_mul u256_max (scq_gas_price query) (scq_gas_limit query); narrow u128_max a.
Definition simulated_tx (query : SimulateCallQuery) (fee : N) : Transaction := {|
  tx_version := 1;
  tx_call := simulated_call query;
  tx_auth_info := {|
    signer_info := [{| si_address_spec := AddrInternal (CallerEth (scq_caller query)); si_nonce := 0 |}];
    ai_fee := {| fee_amount := BaseUnits_new fee TOKEN_DENOMINATION; fee_gas := scq_gas_limit query; fee_consensus_messages := 0;
                 fee_proxy := None |};
    not_before := None; not_after := None |} |}.
Definition simulate_call_options (tx : Transaction) : Options := with_mode Simulate (with_tx (twm_internal tx) options_new).
Definition simulate_call (ctx : Ctx) (entropy : bytes) (query : SimulateCallQuery) : M EvmError bytes :=
  '(query, tx_metadata) ← decode_simulate_call_query ctx query;
  fee ← ok_or (simulated_fee query) EvFeeOverflow;
  evm_result ← with_transaction_opts (simulate_call_options (simulated_tx query fee))
                 (r ← try_ (simulated_exec ctx query); mret (Rollback r));
  encode_evm_result ctx entropy evm_result tx_metadata.
Definition query_simulate_call (ctx : Ctx) (entropy : bytes) (query : SimulateCallQuery) : M EvmError bytes :=
  cfg ← local_config ctx EVM_MODULE_NAME;
  let max_gas := query_simulate_call_max_gas (default evm_local_config_default cfg) in
  if (0 <? max_gas)%N && (max_gas <? scq_gas_limit query)%N then throw (EvSimulationTooExpensive max_gas)
  else simulate_call ctx entropy query.

(** * Hooks *)

Definition evm_init {E} (p : EvmParameters) : M E unit := set_params EVM_MODULE_NAME p.
Definition evm_decode_tx (ctx : Ctx) (scheme body : bytes) : M CoreError (option Transaction) :=
  if bool_decide (scheme = str "evm.ethereum.v0") then
    price ← min_gas_price TOKEN_DENOMINATION;
    match raw_decode body (Some CHAIN_ID) (default 0%N price) TOKEN_DENOMINATION with
    | inl e => throw (MalformedTransaction e)
    | inr tx => mret (Some tx)
    end
  else mret None.
Definition evm_end_block (ctx : Ctx) : M Empty_set unit :=
  let block_number := ctx_round ctx in
  typed_insert block_hashes (be_bytes64 block_number) (header_hash ctx) ;;
  if (BLOCK_HASH_WINDOW_SIZE <? block_number)%N
  then typed_remove block_hashes (be_bytes64 (block_number - BLOCK_HASH_WINDOW_SIZE)) else mret tt.

Definition evm_dispatch_call (ctx : Ctx) (entropy : bytes) (method : string) (body : Value)
    : M Empty_set (DispatchResult Value CallResult) :=
  if bool_decide (method = "evm.Create") then dispatch_call_with body (evm_tx_create ctx)
  else if bool_decide (method = "evm.Call") then dispatch_call_with body (evm_tx_call ctx entropy)
  else mret (Unhandled body).
Definition evm_dispatch_query (ctx : Ctx) (entropy : bytes) (method : string) (args : Value)
    : M Empty_set (DispatchResult Value (RuntimeError + Value)) :=
  if bool_decide (method = "evm.Storage") then dispatch_query_with args (λ q, get_storage ctx (sq_address q) (sq_index q))
  else if bool_decide (method = "evm.Code") then dispatch_query_with args (λ q, get_code (cq_address q))
  else if bool_decide (method = "evm.Balance") then dispatch_query_with args (λ q, evm_get_balance (bq_address q))
  else if bool_decide (method = "evm.SimulateCall") then dispatch_query_with args (query_simulate_call ctx entropy)
  else mret (Unhandled args).
End evm.
