(* ===== verification/EvmFrames.v ===== *)
(** Frames of the EVM: the state transactions that a run of the executor opens and closes through the backend, in step with
    its substates (src/runtime-sdk/modules/evm/src/backend.rs and precompile/). *)
From S2P Require Import Prelude Endian Storage StoreIter Types Fee Errors State Current Transactions Module CallFormat Core.
From S2P Require Import Accounts Dispatcher Dispatch Subcall Estimate ConfidentialStore HostFunctions Signatures EvmTypes EvmBackend.
From S2P Require Import EvmPrecompiles Evm.

(** * States that are opened without options *)

Section open_states.
Context `{Platform} `{!MKVSLaws}.

(** The state behind a child that was rolled back, and behind one that was committed. *)
Definition unwound (s child : State) : State := set_rng (st_rng child) (set_block_values (st_block_values child) s).
Definition published (s child : State) : State :=
  set_unconditional_events (merge_events (st_unconditional_events s) (st_unconditional_events child))
  (set_events (merge_events (st_events s) (st_events child))
  (set_messages (st_messages s ++ st_messages child)
  (set_store (commit <$> st_store child) (unwound s child)))).

Lemma open_ready s : ready s → ready (open s).
Proof.
  intros (Hr & st & Hst & Hwf & _). split; [done|]. simpl. rewrite Hst.
  eexists. split; [done|]. split; [by apply new_overlay_wf|by eexists].
Qed.
Lemma kv_open s : ready s → kv (st_store (open s)) = kv (st_store s).
Proof. intros (_ & st & Hst & Hwf & _). simpl. rewrite Hst. by apply view_new_overlay. Qed.
Lemma open_child_store s child : ready s → frame (open s) child →
  ∃ st cst, st_store s = Some st ∧ st_store child = Some cst ∧ store_wf cst ∧ overlay_base cst = Some st ∧ is_Some (overlay_base st).
Proof.
  intros (_ & st & Hst & Hwf & Hb) [_ _ _ _ _ Hbase (_ & cst & Hcst & Hcwf & _)].
  exists st, cst. do 3 (split; [done|]). split; [|done]. rewrite Hcst in Hbase. simpl in Hbase. by rewrite Hbase, Hst.
Qed.
Lemma rollback_open {E} s child : ready s → frame (open s) child →
  rollback_state (E := E) child = (Ok tt, unwound s child).
Proof.
  intros Hs Hf. destruct (open_child_store _ _ Hs Hf) as (st & cst & Hst & Hcst & _ & Hb & Hbb).
  destruct Hf as [Hp _ _ Hh Hhr _ _]. unfold rollback_state, return_store. run_simpl. rewrite Hp, Hcst. simpl.
  destruct cst as [|p o d]; simplify_eq/=. rewrite convert_overlay by done. run_simpl. f_equal.
  unfold put_back, unwound. rewrite Hh, Hhr. simpl. by destruct s; simpl in *; subst.
Qed.
Lemma commit_open {E} s child : ready s → frame (open s) child →
  commit_state (E := E) child = (Ok tt, published s child).
Proof.
  intros Hs Hf. unfold commit_state. run_simpl. rewrite (fr_always_rollback _ _ Hf). simpl.
  destruct (open_child_store _ _ Hs Hf) as (st & cst & Hst & Hcst & _ & Hb & Hbb).
  destruct Hf as [Hp _ _ Hh Hhr _ _]. unfold commit_, return_store. run_simpl. rewrite Hp, Hcst. simpl.
  rewrite convert_overlay by (by rewrite (commit_base _ _ Hb Hbb)). run_simpl. f_equal.
  unfold published. rewrite Hcst. unfold put_back, unwound. rewrite Hh, Hhr. simpl. by destruct s; simpl in *; subst.
Qed.
Lemma unwound_frame s child : ready s → frame (open s) child → frame s (unwound s child).
Proof. intros Hs Hf. constructor; try done. split; [apply (fr_ready _ _ Hf)|by destruct Hs]. Qed.
Lemma published_frame s child : ready s → frame (open s) child → frame s (published s child).
Proof.
  intros Hs Hf. destruct (open_child_store _ _ Hs Hf) as (st & cst & Hst & Hcst & Hwf & Hb & Hbb).
  constructor; try done; simpl.
  - rewrite Hst, Hcst. simpl. by rewrite (commit_base _ _ Hb Hbb).
  - split; [apply (fr_ready _ _ Hf)|]. simpl. rewrite Hcst. eexists. split; [done|].
    split; [by apply commit_wf|]. by rewrite (commit_base _ _ Hb Hbb).
Qed.
Lemma kv_published s child : frame (open s) child → kv (st_store (published s child)) = kv (st_store child).
Proof. intros [_ _ _ _ _ _ (_ & cst & Hcst & Hwf & _)]. simpl. rewrite Hcst. by apply view_commit. Qed.
End open_states.

(** * Computations inside of a frame *)

Section eframed.
Context `{Platform} `{!MKVSLaws} `{StackMetadata}.

(** They keep the frame of the state and the parent of the substate, however they end. *)
Definition eframed {E A} (m : EM E A) : Prop := ∀ h, ready (es_state h) →
  frame (es_state h) (es_state (m h).2) ∧ ss_parent (es_substate (m h).2) = ss_parent (es_substate h).

Lemma eframed_id {E A} (m : EM E A) : (∀ h, (m h).2 = h) → eframed m.
Proof. intros Hm h Hh. rewrite Hm. by split; [apply frame_refl|]. Qed.
Lemma eframed_ret {E A} (a : A) : eframed (mret (M := EM E) a).
Proof. by apply eframed_id. Qed.
Lemma eframed_throw {E A} (e : E) : eframed (throw (A := A) e).
Proof. by apply eframed_id. Qed.
Lemma eframed_get_st {E} : eframed (get_st (E := E)).
Proof. by apply eframed_id. Qed.
Lemma eframed_gets {E A} (f : StackState → A) : eframed (gets (E := E) f).
Proof. by apply eframed_id. Qed.
Lemma eframed_ok_or {E A} (o : option A) (e : E) : eframed (ok_or o e).
Proof. by destruct o; apply eframed_id. Qed.
Lemma eframed_bind {E A B} (m : EM E A) (f : A → EM E B) : eframed m → (∀ a, eframed (f a)) → eframed (m ≫= f).
Proof.
  intros Hm Hf h Hh. unfold mbind, ST_bind. destruct (Hm h Hh) as [Hfr Hp]. destruct (m h) as [[a|e|p] h']; simpl in *; [|done..].
  destruct (Hf a h' (fr_ready _ _ Hfr)) as [Hfr' Hp']. split; [by eapply frame_trans|by rewrite Hp', Hp].
Qed.
Lemma eframed_try {E E' A} (m : EM E A) : eframed m → eframed (try_ (E' := E') m).
Proof. intros Hm h Hh. specialize (Hm h Hh). unfold try_. by destruct (m h) as [[]]. Qed.
Lemma eframed_map_err {E E' A} (g : E → E') (m : EM E A) : eframed m → eframed (map_err g m).
Proof. intros Hm h Hh. specialize (Hm h Hh). unfold map_err. by destruct (m h) as [[]]. Qed.
Lemma eframed_on_current {E A} (m : M E A) : framed m → eframed (on_current m).
Proof. intros Hm h Hh. specialize (Hm _ Hh). unfold on_current. by destruct (m (es_state h)). Qed.
Lemma eframed_on_substate {E} f : (∀ b, ss_parent (f b) = ss_parent b) → eframed (on_substate (E := E) (modify f)).
Proof. intros Hf h Hh. split; [by apply frame_refl|]. simpl. apply Hf. Qed.
Lemma eframed_set_original {E} key v : eframed (set_original (E := E) key v).
Proof. intros h Hh. split; [by apply frame_refl|done]. Qed.
Lemma eframed_set_metadata {E} m : eframed (on_substate (E := E) (modify (substate_set_metadata m))).
Proof. by apply eframed_on_substate. Qed.
End eframed.

Create HintDb eframed discriminated.
#[export] Hint Resolve eframed_ret eframed_throw eframed_get_st eframed_gets eframed_ok_or eframed_set_original
  eframed_set_metadata : eframed.
Ltac eframed_step :=
  match goal with
  | |- eframed (mbind _ _) => apply eframed_bind
  | |- eframed (map_err _ _) => apply eframed_map_err
  | |- eframed (try_ _) => apply eframed_try
  | |- eframed (on_current _) => apply eframed_on_current; solve [solve_framed]
  | |- eframed (on_substate (modify _)) => by apply eframed_on_substate
  | |- ∀ _, _ => intros ?
  | |- eframed (let _ := _ in _) => cbv zeta
  | |- eframed (match ?x with _ => _ end) => destruct x
  end.
Ltac solve_eframed := repeat (first [solve [eauto 4 with eframed nocore] | eframed_step]).

(** * The operations of the backend *)

Section stores.
Context `{Platform} `{!MKVSLaws} `{!TxCodec} `{!CallCrypto} `{!CoreCodec} `{!AccountsCodec} `{!StoreCrypto} `{!VrfCrypto}.
Context `{!EvmConfig} `{!EvmCodec}.

Lemma framed_write_store {E} (f : Store → Store) :
  (∀ st, store_wf st → is_Some (overlay_base st) → store_wf (f st) ∧ overlay_base (f st) = overlay_base st) →
  framed (E := E) (st ← store; put_store (f st)).
Proof.
  intros Hf s Hs. pose proof Hs as (_ & st & Hst & Hwf & Hb). unfold store, put_store. run_simpl. rewrite Hst. simpl.
  destruct (Hf st Hwf Hb) as [Hwf' Hb']. by apply (framed_put_store (E := E)); [|done|rewrite Hst].
Qed.
Lemma ref_insert_keeps st r k v : store_wf st → is_Some (overlay_base st) →
  store_wf (ref_insert st r k v) ∧ overlay_base (ref_insert st r k v) = overlay_base st.
Proof. intros Hwf Hb. rewrite ref_insert_key. split; [by apply insert_wf|]. destruct st; [by destruct Hb|done]. Qed.
Lemma ref_remove_keeps st r k : store_wf st → is_Some (overlay_base st) →
  store_wf (ref_remove st r k) ∧ overlay_base (ref_remove st r k) = overlay_base st.
Proof.
  intros Hwf Hb. rewrite ref_remove_key. split; [by apply remove_wf|]. destruct st; [by destruct Hb|]. simpl. by case_decide.
Qed.
Lemma framed_slot_get {E} k st : framed (slot_get (E := E) k st).
Proof.
  intros s Hs. unfold slot_get, is_get, store. run_simpl. case_run; by apply frame_refl.
Qed.
Lemma framed_slot_insert {E} k v st : framed (slot_insert (E := E) k v st).
Proof. apply framed_write_store. intros. destruct st; by apply ref_insert_keeps. Qed.
Lemma framed_slot_remove {E} k st : framed (slot_remove (E := E) k st).
Proof. apply framed_write_store. intros. destruct st; by apply ref_remove_keeps. Qed.
Lemma framed_with_storage {E A} ctx a (f : InstanceStore → M E A) : (∀ st, framed (f st)) → framed (with_storage ctx a f).
Proof.
  intros Hf. unfold with_storage, with_confidential_storage, with_public_storage, evm_instance_count. solve_framed.
Qed.
Lemma framed_slot_write {E} ctx a k v :
  framed (with_storage (E := E) ctx a (if bool_decide (v = h256_default) then slot_remove k else slot_insert k v)).
Proof. apply framed_with_storage. intros st. case_bool_decide; [apply framed_slot_remove|apply framed_slot_insert]. Qed.
Lemma framed_storage {E} ctx a k : framed (with_storage (E := E) ctx a (slot_get k)).
Proof. apply framed_with_storage, framed_slot_get. Qed.
Lemma framed_rng_fork {E} ctx pers : framed (with_rng_fork (E := E) ctx pers).
Proof.
  intros s Hs. unfold with_rng_fork. run_simpl. destruct (st_rng s) as [r|] eqn:Hr; [|by apply frame_refl]. simpl.
  pose proof Hs as (_ & Hst). by constructor.
Qed.
Lemma framed_get_balance {E} a d : framed (get_balance (E := E) a d).
Proof. unfold get_balance. solve_framed. Qed.
Lemma framed_get_nonce {E} a : framed (get_nonce (E := E) a).
Proof. unfold get_nonce, get_account. solve_framed. Qed.
Lemma framed_inc_nonce {E} a : framed (inc_nonce (E := E) a).
Proof. unfold inc_nonce, get_account. solve_framed. Qed.
Lemma framed_get_code_of {E} a : framed (get_code_of (E := E) a).
Proof. unfold get_code_of. solve_framed. Qed.
End stores.
#[export] Hint Resolve framed_slot_get framed_slot_insert framed_slot_remove framed_slot_write framed_storage framed_rng_fork
  framed_get_balance framed_get_nonce framed_inc_nonce framed_get_code_of : framed.

Section backend.
Context `{Platform} `{!MKVSLaws} `{!TxCodec} `{!CallCrypto} `{!CoreCodec} `{!AccountsCodec} `{!StoreCrypto} `{!VrfCrypto}.
Context `{!EvmConfig} `{!EvmCodec} `{StackMetadata}.
Variables (ctx : Ctx) (vicinity : Vicinity).

Lemma eframed_basic {E} a : eframed (basic (E := E) vicinity a).
Proof. unfold basic. solve_eframed. Qed.
Lemma eframed_evm_code {E} a : eframed (evm_code (E := E) a).
Proof. unfold evm_code. solve_eframed. Qed.
Lemma eframed_storage {E} a k : eframed (storage (E := E) ctx a k).
Proof. unfold storage. solve_eframed. Qed.
Lemma eframed_set_storage {E} a k v : eframed (set_storage (E := E) ctx a k v).
Proof. unfold set_storage. solve_eframed. Qed.
Lemma eframed_inc_nonce {E} a : eframed (evm_inc_nonce (E := E) vicinity a).
Proof. unfold evm_inc_nonce. solve_eframed. Qed.
Lemma eframed_transfer {E} a b v : eframed (evm_transfer (E := E) a b v).
Proof. unfold evm_transfer. solve_eframed. Qed.
Lemma eframed_block_gas_limit {E} : eframed (block_gas_limit (E := E)).
Proof. unfold block_gas_limit, max_batch_gas. solve_eframed. Qed.
Lemma eframed_block_base_fee {E} : eframed (block_base_fee_per_gas (E := E)).
Proof. unfold block_base_fee_per_gas, min_gas_price. solve_eframed. Qed.
End backend.
#[export] Hint Resolve eframed_basic eframed_evm_code eframed_storage eframed_set_storage eframed_inc_nonce eframed_transfer
  eframed_block_gas_limit eframed_block_base_fee : eframed.

(** * Precompiles *)

(** What a set of precompiles promises to the executor. *)
Class FramedSet `{Platform} `{!MKVSLaws} `{StackMetadata} (pc : PrecompileSet) : Prop :=
  framed_set ph : eframed (pcs_execute pc ph).
#[export] Hint Resolve framed_set : eframed.

Section costs.
Context `{Platform} `{!MKVSLaws} `{StackMetadata}.
Lemma eframed_record_cost n : eframed (record_cost n).
Proof. unfold record_cost. solve_eframed. Qed.
Lemma eframed_multilinear x y a b c : eframed (record_multilinear_cost x y a b c).
Proof. pose proof eframed_record_cost. unfold record_multilinear_cost. solve_eframed. Qed.
Lemma eframed_linear x a b : eframed (record_linear_cost x a b).
Proof. apply eframed_multilinear. Qed.
Lemma eframed_abi_input {T} `{!AbiDecode T} ph : eframed (abi_input (T := T) ph).
Proof. unfold abi_input. solve_eframed. Qed.
Lemma eframed_propagate {E A} (x : E + A) : eframed (propagate x).
Proof. unfold propagate. solve_eframed. Qed.
End costs.
#[export] Hint Resolve eframed_record_cost eframed_multilinear eframed_linear eframed_abi_input eframed_propagate : eframed.

Section precompiles.
Context `{Platform} `{!MKVSLaws} `{!TxCodec} `{!CallCrypto} `{!CoreCodec} `{!DispatchCodec} `{!AccountsCodec} `{!StoreCrypto} `{!VrfCrypto}.
Context `{!EvmConfig} `{!EvmCodec} `{StackMetadata} `{Solabi} `{Bn128} `{!PrecompileLibs} `{SignatureLibs} `{Ethereum}.
Context (R : SubcallStack → Runtime) `{!∀ stack, FramedRuntime (R stack)}.
Variables (stack : SubcallStack) (ctx : Ctx).

Lemma framed_random_bytes {E} n pers : framed (random_bytes (E := E) ctx n pers).
Proof. unfold random_bytes. solve_framed. Qed.
Hint Resolve framed_random_bytes : framed.
Lemma eframed_signature_type_arg msg n : eframed (signature_type_arg msg n).
Proof. unfold signature_type_arg. solve_eframed. Qed.
Lemma eframed_deoxysii_args ph : eframed (decode_deoxysii_call_args ph).
Proof. unfold decode_deoxysii_call_args. solve_eframed. Qed.
Hint Resolve eframed_signature_type_arg eframed_deoxysii_args : eframed.
Lemma eframed_call_bigmodexp ph : eframed (call_bigmodexp ph).
Proof. unfold call_bigmodexp. solve_eframed. Qed.
Lemma eframed_call_subcall ph : eframed (call_subcall R stack ctx ph).
Proof. unfold call_subcall, remaining_gas. solve_eframed. Qed.
Hint Resolve eframed_call_bigmodexp eframed_call_subcall : eframed.
Lemma eframed_builtin a f ph : builtin R stack ctx a = Some f → eframed (f ph).
Proof.
  unfold builtin. intros Hf. repeat case_match; simplify_eq; try solve [eauto with eframed nocore];
    unfold call_ecrecover, call_sha256, call_ripemd160, call_datacopy, call_bn128_add, call_bn128_mul, call_bn128_pairing,
      call_random_bytes, call_x25519_derive, call_deoxysii_seal, call_deoxysii_open, call_keypair_generate, call_sign,
      call_verify, call_curve25519_compute_public, call_gas_used, call_pad_gas, call_sha512_256, call_sha512, call_sha384,
      call_hasher, used_gas; solve_eframed.
Qed.
Lemma eframed_execute pcs ph : (∀ pc, pcs = Some pc → FramedSet pc) → eframed (precompile_execute R stack ctx pcs ph).
Proof.
  intros Hpcs. unfold precompile_execute, remaining_gas. apply eframed_bind; [solve_eframed|]. intros gas.
  assert (eframed (E := Empty_set) (match builtin R stack ctx (ph_code_address ph) with
    | Some f => r ← try_ (f ph); mret (Some r)
    | None => match pcs with Some pc => pcs_execute pc ph | None => mret None end end)) as Hd.
  { destruct (builtin _ _ _ _) as [f|] eqn:Hf.
    - pose proof (eframed_builtin _ _ ph Hf). solve_eframed.
    - destruct pcs as [pc|]; [|solve_eframed]. specialize (Hpcs pc eq_refl). apply framed_set. }
  cbv zeta. solve_eframed.
Qed.
End precompiles.

(** The set with one ERC-20 token is such a set. *)
Section erc20.
Context `{Platform} `{!MKVSLaws} `{!AccountsCodec} `{!AccountToken} `{StackMetadata} `{Solabi} `{!PrecompileLibs}.
Context (minting : ∀ a b, framed (is_minting_allowed a b)) (burning : ∀ a b, framed (is_burning_allowed a b)).

Lemma framed_annotate {A} a b u (m : M AccountsError A) : framed m → framed (annotate_accounts_error a b u m).
Proof. intros Hm. unfold annotate_accounts_error. solve_framed. Qed.
Lemma framed_get_allowance {E} a b d : framed (get_allowance (E := E) a b d).
Proof. unfold get_allowance. solve_framed. Qed.
Lemma framed_set_allowance {E} a b u : framed (set_allowance (E := E) a b u).
Proof. unfold set_allowance. solve_framed. Qed.
Lemma framed_get_total_supply {E} d : framed (get_total_supply (E := E) d).
Proof. unfold get_total_supply. solve_framed. Qed.
Hint Resolve framed_annotate framed_get_allowance framed_set_allowance framed_get_total_supply : framed.
Lemma eframed_erc20_run {A} (m : M Erc20Error A) : framed m → eframed (erc20_run m).
Proof. intros Hm. unfold erc20_run. solve_eframed. Qed.
Lemma eframed_erc20_write {A} ph n (m : EM PrecompileFailure A) : eframed m → eframed (erc20_write ph n m).
Proof. intros Hm. unfold erc20_write. solve_eframed. Qed.
Lemma eframed_emit_erc20 {E} sig a b v : eframed (emit_erc20 (E := E) sig a b v).
Proof. unfold emit_erc20, evm_log. solve_eframed. Qed.
Hint Resolve eframed_emit_erc20 : eframed.
#[global] Instance erc20_framed_set : FramedSet erc20_precompiles.
Proof.
  intros ph. simpl. unfold erc20_execute. destruct (bool_decide _); [|solve_eframed].
  apply eframed_bind; [solve_eframed|]. intros [e|u]; [solve_eframed|]. apply eframed_bind; [|solve_eframed].
  apply eframed_try. unfold erc20_dispatch_call, method_args, uint_arg, token_name, token_symbol, token_decimals,
    token_total_supply, token_balance_of, token_transfer, token_transfer_from, token_approve, token_allowance, token_mint, token_burn.
  repeat first [apply eframed_erc20_write | apply eframed_erc20_run;
    unfold erc20_total_supply, erc20_balance_of, erc20_transfer, erc20_transfer_from, erc20_approve, erc20_allowance, erc20_mint,
      erc20_burn; solve [solve_framed] | solve [eauto 4 with eframed nocore] | eframed_step].
Qed.
End erc20.

(** * Runs *)

Section runs.
Context `{Platform} `{!MKVSLaws} `{!TxCodec} `{!CallCrypto} `{!CoreCodec} `{!CoreConfig} `{!DispatchCodec} `{!AccountsCodec} `{!StoreCrypto} `{!VrfCrypto}.
Context `{!EvmConfig} `{!EvmCodec} `{StackMetadata} `{Solabi} `{Bn128} `{!PrecompileLibs} `{SignatureLibs} `{Ethereum}.
Context (R : SubcallStack → Runtime) `{!∀ stack, FramedRuntime (R stack)}.
Variables (stack : SubcallStack) (pcs : option PrecompileSet) (framed_pcs : ∀ pc, pcs = Some pc → FramedSet pc).
Variables (ctx : Ctx) (vicinity : Vicinity).
Notation op_ := (evm_op R stack pcs ctx vicinity).
Notation run := (run_evm R stack pcs ctx vicinity).

(** The operations that open or close a frame. *)
Definition opens_frame (op : EvmOp) : bool := match op with OpEnter _ _ => true | _ => false end.
Definition closes_frame (op : EvmOp) : bool := match op with OpExitCommit | OpExitRevert | OpExitDiscard => true | _ => false end.
Lemma eframed_op op : opens_frame op = false → closes_frame op = false → eframed (op_ op).
Proof.
  intros Ho Hc. destruct op; try discriminate; cbn [evm_op];
    unfold block_hash, evm_exists, original_storage, is_empty, deleted, is_cold, is_storage_cold, reset_storage, evm_log, set_deleted,
      set_code, reset_balance, touch; solve [solve_eframed | by apply eframed_execute].
Qed.

(** The gas meter of the parent takes in that of the frame that is left. *)
Definition takes_in (swallow : Metadata_ → Metadata_ → (ExitError + unit) * Metadata_) (h : StackState) : Prop :=
  ∀ p, ss_parent (es_substate h) = Some p → (swallow (ss_metadata p) (ss_metadata (es_substate h))).1 = inr tt.
(** The protocol of the stack state, for a run that has entered [d] frames: it leaves the frames it entered and no others,
    each with a gas meter that the parent can take in. *)
Definition permits (d : nat) (op : EvmOp) (h : StackState) : Prop :=
  match op with
  | OpExitCommit => 0 < d ∧ takes_in swallow_commit h
  | OpExitRevert => 0 < d ∧ takes_in swallow_revert h
  | OpExitDiscard => 0 < d ∧ takes_in swallow_discard h
  | _ => True
  end.
Definition depth_after (d : nat) (op : EvmOp) : nat :=
  if opens_frame op then S d else if closes_frame op then pred d else d.
Fixpoint obeys {A} (d : nat) (r : EvmRun A) (h : StackState) : Prop :=
  match r with
  | RunRet _ => d = 0
  | RunOp op k => permits d op h ∧ ∀ x h', op_ op h = (Ok x, h') → obeys (depth_after d op) (k x) h'
  end.

(** A state and a substate with [d] frames over [s0] and [b0]. *)
Inductive nested (s0 : State) (p0 : option OasisStackSubstate) : nat → State → OasisStackSubstate → Prop :=
  | nested_base s b : frame s0 s → ss_parent b = p0 → nested s0 p0 0 s b
  | nested_frame d s1 b1 s b : nested s0 p0 d s1 b1 → frame (open s1) s → ss_parent b = Some b1 → nested s0 p0 (S d) s b.
Lemma nested_ready s0 p0 d s b : nested s0 p0 d s b → ready s.
Proof. intros Hn. destruct Hn as [? ? Hf|? ? ? ? ? _ Hf]; apply (fr_ready _ _ Hf). Qed.
Lemma nested_step s0 p0 d s b s' b' : nested s0 p0 d s b → frame s s' → ss_parent b' = ss_parent b → nested s0 p0 d s' b'.
Proof.
  intros Hn Hf Hb. destruct Hn as [s b Hf0 Hp|d s1 b1 s b Hn Hf1 Hp].
  - constructor; [by eapply frame_trans|congruence].
  - econstructor; [done|by eapply frame_trans|congruence].
Qed.

Lemma nested_inv s0 p0 d s b : nested s0 p0 (S d) s b →
  ∃ s1 b1, nested s0 p0 d s1 b1 ∧ frame (open s1) s ∧ ss_parent b = Some b1.
Proof. inversion 1; subst. eauto. Qed.

(** What closing a frame does, in step on the state and on the substates. *)
Lemma exit_revert_run h s p : ready s → frame (open s) (es_state h) → ss_parent (es_substate h) = Some p → takes_in swallow_revert h →
  exit_revert h = (Ok (inr tt), {| es_state := unwound s (es_state h);
    es_substate := substate_set_metadata (swallow_revert (ss_metadata p) (ss_metadata (es_substate h))).2 p;
    es_original_storage := es_original_storage h |}).
Proof.
  intros Hs Hf Hp Ht. specialize (Ht p Hp). unfold exit_revert, on_substate, substate_exit_revert, substate_exit_with, on_current.
  run_simpl. rewrite Hp. simpl. destruct (swallow_revert _ _) as [r m]; simpl in *; subst r. by rewrite (rollback_open s).
Qed.
Lemma exit_discard_run h s p : ready s → frame (open s) (es_state h) → ss_parent (es_substate h) = Some p → takes_in swallow_discard h →
  exit_discard h = (Ok (inr tt), {| es_state := unwound s (es_state h);
    es_substate := substate_set_metadata (swallow_discard (ss_metadata p) (ss_metadata (es_substate h))).2 p;
    es_original_storage := es_original_storage h |}).
Proof.
  intros Hs Hf Hp Ht. specialize (Ht p Hp). unfold exit_discard, on_substate, substate_exit_discard, substate_exit_with, on_current.
  run_simpl. rewrite Hp. simpl. destruct (swallow_discard _ _) as [r m]; simpl in *; subst r. by rewrite (rollback_open s).
Qed.
(** The substate behind a committed one. *)
Definition merged (p b : OasisStackSubstate) : OasisStackSubstate :=
  MkSubstate (swallow_commit (ss_metadata p) (ss_metadata b)).2 (ss_parent p) (ss_logs p ++ ss_logs b) (ss_deletes p ∪ ss_deletes b)
    (ss_origin_nonce_incremented p || ss_origin_nonce_incremented b).
Lemma exit_commit_run h s p : ready s → frame (open s) (es_state h) → ss_parent (es_substate h) = Some p → takes_in swallow_commit h →
  exit_commit h = (Ok (inr tt), {| es_state := published s (es_state h); es_substate := merged p (es_substate h);
    es_original_storage := es_original_storage h |}).
Proof.
  intros Hs Hf Hp Ht. specialize (Ht p Hp). unfold exit_commit, on_substate, substate_exit_commit, on_current, merged.
  run_simpl. rewrite Hp. simpl. destruct (swallow_commit _ _) as [r m]; simpl in *; subst r. by rewrite (commit_open s).
Qed.

(** One operation, under the protocol. *)
Lemma nested_op s0 p0 d op h : nested s0 p0 d (es_state h) (es_substate h) → permits d op h →
  match op_ op h with
  | (Ok _, h') => nested s0 p0 (depth_after d op) (es_state h') (es_substate h')
  | (Panic _, h') => nested s0 p0 d (es_state h') (es_substate h')
  | (Err e, _) => match e with end
  end.
Proof.
  intros Hn Hperm. pose proof (nested_ready _ _ _ _ _ Hn) as Hr.
  assert (Hplain : opens_frame op = false → closes_frame op = false →
    nested s0 p0 d (es_state (op_ op h).2) (es_substate (op_ op h).2)).
  { intros Ho Hc. destruct (eframed_op op Ho Hc h Hr) as [Hf Hp]. by eapply nested_step. }
  unfold depth_after. destruct (opens_frame op) eqn:Ho; [|destruct (closes_frame op) eqn:Hc].
  - destruct op; try discriminate. simpl. econstructor; [exact Hn|by apply frame_refl, open_ready|done].
  - assert (0 < d) as Hd by (destruct op; try discriminate; apply Hperm).
    destruct d as [|d]; [lia|]. destruct (nested_inv _ _ _ _ _ Hn) as (s1 & b1 & Hn1 & Hf & Hb).
    pose proof (nested_ready _ _ _ _ _ Hn1) as Hr1.
    destruct op; try discriminate; destruct Hperm as [_ Ht]; cbn [evm_op pred].
    + rewrite (exit_commit_run h s1 b1) by done. by eapply nested_step; [exact Hn1|by apply published_frame|].
    + rewrite (exit_revert_run h s1 b1) by done. by eapply nested_step; [exact Hn1|by apply unwound_frame|].
    + rewrite (exit_discard_run h s1 b1) by done. by eapply nested_step; [exact Hn1|by apply unwound_frame|].
  - specialize (Hplain eq_refl eq_refl). by destruct (op_ op h) as [[x|[]|q] h'].
Qed.
(** A run that keeps to the protocol ends without open frames, unless it panics. *)
Lemma nested_run {A} s0 p0 (r : EvmRun A) : ∀ d h, nested s0 p0 d (es_state h) (es_substate h) → obeys d r h →
  match run r h with
  | (Ok _, h') => nested s0 p0 0 (es_state h') (es_substate h')
  | (Panic _, h') => ∃ d', nested s0 p0 d' (es_state h') (es_substate h')
  | (Err e, _) => match e with end
  end.
Proof.
  induction r as [a|op k IH]; intros d h Hn Hob; cbn [run_evm]; [simpl in Hob; by subst d|].
  destruct Hob as [Hp Hk]. pose proof (nested_op _ _ _ op _ Hn Hp) as Hop. unfold mbind, ST_bind.
  destruct (op_ op h) as [[x|[]|q] h'] eqn:Hrun; [|by exists d]. by eapply IH, Hk.
Qed.
(** The same for a run on its own. *)
Lemma run_keeps_frame {A} (r : EvmRun A) h : ready (es_state h) → obeys 0 r h →
  match run r h with
  | (Ok _, h') => frame (es_state h) (es_state h') ∧ ss_parent (es_substate h') = ss_parent (es_substate h)
  | (Panic _, _) => True
  | (Err e, _) => match e with end
  end.
Proof.
  intros Hr Hob. assert (nested (es_state h) (ss_parent (es_substate h)) 0 (es_state h) (es_substate h)) as Hn.
  { constructor; [by apply frame_refl|done]. }
  pose proof (nested_run _ _ r _ _ Hn Hob) as Hrun. destruct (run r h) as [[x|[]|q] h']; [|done]. by inversion Hrun.
Qed.
Lemma obeys_bind {A B} (r : EvmRun A) (f : A → EvmRun B) : ∀ d h, obeys d r h →
  (∀ x h', run r h = (Ok x, h') → obeys 0 (f x) h') → obeys d (run_bind r f) h.
Proof.
  induction r as [a|op k IH]; intros d h Hob Hf; simpl in *; [subst d; by apply Hf|].
  destruct Hob as [Hp Hk]. split; [done|]. intros x h' Hrun. apply IH; [by apply Hk|].
  intros y h'' Hy. apply Hf. by rewrite (bind_ok _ _ _ _ _ Hrun).
Qed.
Lemma run_bind_ok {A B} (r : EvmRun A) (f : A → EvmRun B) : ∀ h,
  run (run_bind r f) h = (x ← run r; run (f x)) h.
Proof.
  induction r as [a|op k IH]; intros h; [done|]. cbn [run_bind run_evm]. unfold mbind, ST_bind.
  destruct (op_ op h) as [[x|e|q] h']; [|done..]. apply IH.
Qed.
End runs.
