(* ===== verification/EvmClaims.v ===== *)
(** What the EVM module guarantees: frames are atomic, simulated calls change nothing and run as the caller who asked for
    them, Ethereum transactions are decoded exactly, and the hashes of the last blocks are kept. *)
From S2P Require Import Prelude Endian Storage StoreIter Types Fee Errors State Current Transactions Module Tables CallFormat Core.
From S2P Require Import Accounts Dispatcher Dispatch Subcall Estimate ConfidentialStore HostFunctions Signatures EvmTypes EvmBackend.
From S2P Require Import EvmPrecompiles Evm EvmFrames.

(** * Executions keep the frame of their state *)

Section keeps.
Context `{Platform} `{!MKVSLaws}.
(** Unless they panic. *)
Definition keeps {E A} (m : M E A) : Prop := ∀ s, ready s → match m s with (Panic _, _) => True | (_, s') => frame s s' end.
Lemma framed_keeps {E A} (m : M E A) : framed m → keeps m.
Proof. intros Hm s Hs. specialize (Hm s Hs). by destruct (m s) as [[]]. Qed.
Lemma keeps_bind {E A B} (m : M E A) (f : A → M E B) : keeps m → (∀ a, keeps (f a)) → keeps (m ≫= f).
Proof.
  intros Hm Hf s Hs. specialize (Hm s Hs). unfold mbind, ST_bind. destruct (m s) as [[a|e|p] s']; [|done..].
  specialize (Hf a s' (fr_ready _ _ Hm)). destruct (f a s') as [[b|e|p] s'']; [by eapply frame_trans..|done].
Qed.
Lemma keeps_try {E E' A} (m : M E A) : keeps m → keeps (try_ (E' := E') m).
Proof. intros Hm s Hs. specialize (Hm s Hs). unfold try_. by destruct (m s) as [[]]. Qed.
Lemma rollback_never_errs {E} s (e : E) s' : rollback_state s ≠ (Err e, s').
Proof. unfold rollback_state, return_store. run_simpl. intros Hrun. case_run. Qed.
Lemma keeps_lift {E A} (m : M Empty_set A) : keeps m → keeps (lift (E := E) m).
Proof. intros Hm s Hs. specialize (Hm s Hs). unfold lift, map_err. by destruct (m s) as [[|[]|]]. Qed.
End keeps.

Section executions.
Context `{Platform} `{!MKVSLaws} `{!TxCodec} `{!CallCrypto} `{!CoreCodec} `{!CoreConfig} `{!DispatchCodec} `{!AccountsCodec} `{!StoreCrypto} `{!VrfCrypto}.
Context `{!EvmConfig} `{!EvmCodec} `{StackMetadata} `{Solabi} `{Bn128} `{!PrecompileLibs} `{SignatureLibs} `{Ethereum}.
Context (R : SubcallStack → Runtime) `{!∀ stack, FramedRuntime (R stack)}.
Variables (stack : SubcallStack) (pcs : option PrecompileSet) (framed_pcs : ∀ pc, pcs = Some pc → FramedSet pc).

(** The executor keeps to the protocol of the stack state. *)
Class EngineProtocol `{!EvmEngine} : Prop := {
  call_obeys ctx v cfg caller address value data gas h : ready (es_state h) →
    obeys R stack pcs ctx v 0 (transact_call cfg caller address value data gas) h;
  create_obeys ctx v cfg caller value code gas h : ready (es_state h) →
    obeys R stack pcs ctx v 0 (transact_create cfg caller value code gas) h;
  address_obeys ctx v caller h : ready (es_state h) → obeys R stack pcs ctx v 0 (create_address caller) h;
}.
Context `{!EvmEngine} `{!EngineProtocol}.

Lemma create_run_obeys ctx v caller value code cfg gas h : ready (es_state h) →
  obeys R stack pcs ctx v 0 (create_run caller value code cfg gas) h.
Proof.
  intros Hr. apply obeys_bind; [by apply address_obeys|]. intros a h' Hrun.
  pose proof (run_keeps_frame R stack pcs framed_pcs ctx v _ h Hr (address_obeys ctx v caller h Hr)) as Hk.
  rewrite Hrun in Hk. destruct Hk as [Hf _]. apply obeys_bind; [apply create_obeys, (fr_ready _ _ Hf)|].
  by intros [reason out] h''.
Qed.
Lemma keeps_stack_state {A} ctx v m (r : EvmRun A) : (∀ h, ready (es_state h) → obeys R stack pcs ctx v 0 r h) →
  keeps (with_stack_state R stack pcs ctx v m r).
Proof.
  intros Hob s Hs. unfold with_stack_state. set (h := {| es_state := s |}).
  pose proof (run_keeps_frame R stack pcs framed_pcs ctx v r h Hs (Hob h Hs)) as Hk.
  destruct (run_evm _ _ _ _ _ r h) as [[x|[]|p] h']; [apply Hk|done].
Qed.
Lemma framed_evm_finish is_query gas reason out sub : framed (evm_finish is_query gas reason out sub).
Proof.
  unfold evm_finish, apply, ev_use_gas, set_refund_unused_tx_fee. solve_framed.
Qed.
Lemma keeps_execute ctx source f estimate : (∀ v cfg gas h, ready (es_state h) → obeys R stack pcs ctx v 0 (f cfg gas) h) →
  keeps (evm_execute R stack pcs ctx source f estimate).
Proof.
  intros Hob. unfold evm_execute. apply keeps_bind; [apply framed_keeps; solve_framed|]. intros q. cbv zeta.
  apply keeps_bind; [apply framed_keeps; solve_framed|]. intros gas.
  apply keeps_bind; [apply framed_keeps; solve_framed|]. intros price.
  apply keeps_bind; [apply keeps_lift, keeps_stack_state; auto|]. intros [[reason out] sub].
  apply framed_keeps, framed_evm_finish.
Qed.
Lemma keeps_simulated_exec ctx q : keeps (simulated_exec R stack pcs ctx q).
Proof.
  unfold simulated_exec, evm_call, evm_create. destruct (scq_address q); apply keeps_execute; intros; [by apply call_obeys|].
  by apply create_run_obeys.
Qed.
(** The transaction of a simulation: it is rolled back. *)
Lemma simulation_run `{!EvmBodies} ctx q fee s rg : ready s → st_rng s = Some rg →
  let opts := simulate_call_options (simulated_tx q fee) in
  match with_transaction_opts (E := EvmError) opts (r ← try_ (simulated_exec R stack pcs ctx q); mret (Rollback r)) s with
  | (Panic _, _) => True
  | (Err _, _) => False
  | (Ok r, s') => rng_only s s' ∧ ∃ child, simulated_exec R stack pcs ctx q (opened opts s rg) =
      (match r with inr out => Ok out | inl e => Err e end, child)
  end.
Proof.
  intros Hs Hrg opts. pose proof (keeps_simulated_exec ctx q _ (opened_ready opts s rg Hs)) as Hk.
  set (f := (r ← try_ _; mret _)).
  assert (∀ child, rng_only s (rolled_back opts s child rg)) as Hrb.
  { intros child. eexists. unfold rolled_back, closed_block_values. simpl. by destruct s. }
  destruct (simulated_exec R stack pcs ctx q (opened opts s rg)) as [[out|e|p] child] eqn:Hx.
  - assert (f (opened opts s rg) = (Ok (Rollback (inr out)), child)) as Hf by (unfold f, try_; run_simpl; by rewrite Hx).
    rewrite (with_transaction_at _ _ _ _ _ _ Hs Hrg Hf Hk). split; [apply Hrb|by exists child].
  - assert (f (opened opts s rg) = (Ok (Rollback (inl e)), child)) as Hf by (unfold f, try_; run_simpl; by rewrite Hx).
    rewrite (with_transaction_at _ _ _ _ _ _ Hs Hrg Hf Hk). split; [apply Hrb|by exists child].
  - unfold with_transaction_opts. rewrite (init_open _ _ _ Hrg).
    assert (f (opened opts s rg) = (Panic p, child)) as -> by (unfold f, try_; run_simpl; by rewrite Hx).
    unfold drop_guard. destruct (bool_decide _); [|done].
    destruct (rollback_state (E := EvmError) child) as [[]] eqn:Hr; try done. by apply rollback_never_errs in Hr.
Qed.
End executions.

(** * Reading and checking queries *)

Ltac solve_reads := repeat first [done | apply reads_typed_get | apply reads_local_config | apply reads_bind; [|intros ?]
  | match goal with
    | |- reads (match ?x with _ => _ end) => destruct x
    | |- reads (let _ := _ in _) => cbv zeta
    | |- reads (expect ?o _) => by destruct o
    | |- reads (ok_or ?o _) => by destruct o
    end].

Section queries.
Context `{Platform} `{!CallCrypto} `{!AccountsCodec} `{!EvmConfig} `{!EvmCodec} `{!PrecompileLibs} `{Ethereum}.
Context `{!EvmValues} `{!ByteStrings}.

Lemma reads_map_err {E E' A} (g : E → E') (m : M E A) : reads m → reads (map_err g m).
Proof. intros Hm s. specialize (Hm s). unfold map_err. by destruct (m s) as [[]]. Qed.
Lemma reads_decode_call_ex ctx call index b : reads (decode_call_ex ctx call index b).
Proof. unfold decode_call_ex, verify_epoch, with_env. solve_reads. Qed.
Lemma reads_evm_decode_call ctx call index b : reads (evm_decode_call ctx call index b).
Proof. unfold evm_decode_call. apply reads_bind; [by apply reads_map_err, reads_decode_call_ex|]. intros [[]|]; solve_reads. Qed.
Lemma reads_get_nonce {E} a : reads (get_nonce (E := E) a).
Proof. unfold get_nonce, get_account. solve_reads. Qed.
Lemma reads_signed_verify ctx q l sg : reads (signed_verify ctx q l sg).
Proof. pose proof @reads_get_nonce. unfold signed_verify, invalid_signed. solve_reads. Qed.
Lemma reads_decode_query ctx q : reads (decode_simulate_call_query ctx q).
Proof.
  unfold decode_simulate_call_query, decode_call_data. destruct CONFIDENTIAL; [|done]. simpl. case_match.
  - apply reads_bind; [apply reads_evm_decode_call|]. intros r. apply reads_bind; [by destruct r|]. intros [data md].
    apply reads_bind; [apply reads_signed_verify|]. done.
  - apply reads_bind; [case_match; [apply reads_evm_decode_call|done]|]. intros r. apply reads_bind; [by destruct r|]. by intros [].
Qed.
Lemma reads_encode_evm_result ctx entropy r md : reads (encode_evm_result ctx entropy r md).
Proof.
  unfold encode_evm_result, encode_result_ex, encrypt_result_x25519_deoxysii, with_env. solve_reads.
Qed.
Lemma reads_bind_run {E A B} (m : M E A) (f : A → M E B) s (Q : Outcome E B * State → Prop) : reads m →
  (∀ a, m s = (Ok a, s) → Q (f a s)) → (∀ e, Q (Err e, s)) → (∀ p, Q (Panic p, s)) → Q ((m ≫= f) s).
Proof.
  intros Hm Hok He Hp. unfold mbind, ST_bind. specialize (Hm s). destruct (m s) as [[a|e|p] s'] eqn:Hrun; simpl in Hm; subst s'; auto.
Qed.
Lemma reads_ok {E A} (m : M E A) s a s' : reads m → m s = (Ok a, s') → s' = s.
Proof. intros Hm Hrun. specialize (Hm s). by rewrite Hrun in Hm. Qed.

(** A signed query is fresh and comes from its caller: the caller signed all of it, its nonce is not behind the account, and
    the block it names is known and near. *)
Record signed_by_caller (ctx : Ctx) (s : State) (q : SimulateCallQuery) (leash : Leash) (signature : bytes_n 65) : Prop := {
  sc_signer : ∃ r sv recid uncompressed compressed, signature_parts signature = Some (r, sv, recid) ∧ signature_is_high sv = false ∧
    recover_from_prehash (hash_call_toplevel q leash) r sv recid = Some (uncompressed, compressed) ∧
    signer_address uncompressed = raw (scq_caller q);
  sc_nonce : ∃ n, get_nonce (E := EvmError) (map_address (scq_caller q)) s = (Ok n, s) ∧ (n ≤ leash_nonce leash)%N;
  sc_block : typed_get (E := EvmError) block_hashes (be_bytes64 (leash_block_number leash)) s = (Ok (Some (leash_block_hash leash)), s);
  sc_range : (ctx_round ctx ≤ leash_block_number leash + leash_block_range leash)%N ∧
    (leash_block_number leash ≤ ctx_round ctx + leash_block_range leash)%N;
}.
Lemma block_delta_spec round block range :
  (default (block - round)%N (checked_sub round block) ≤ range)%N ↔ (round ≤ block + range)%N ∧ (block ≤ round + range)%N.
Proof. unfold checked_sub. destruct (N.leb_spec block round); simpl; lia. Qed.
Lemma signed_verify_ok ctx q leash sg s q' s' : signed_verify ctx q leash sg s = (Ok q', s') ↔
  q' = q ∧ s' = s ∧ signed_by_caller ctx s q leash sg.
Proof.
  unfold signed_verify. split.
  - intros Hrun. destruct (signature_parts sg) as [[[r sv] recid]|] eqn:Hp; [|done].
    unfold recover_low in Hrun. destruct (signature_is_high sv) eqn:Hh; [done|].
    destruct (recover_from_prehash _ _ _ _) as [[u c]|] eqn:Hrec; [|done].
    case_bool_decide as Hs; [done|].
    apply bind_ok_inv in Hrun as (n & s1 & Hn & Hrun). pose proof (reads_ok _ _ _ _ (reads_get_nonce _) Hn). subst s1.
    destruct (N.ltb_spec (leash_nonce leash) n); [done|].
    apply bind_ok_inv in Hrun as (bh & s1 & Hb & Hrun). pose proof (reads_ok _ _ _ _ (reads_typed_get _ _) Hb). subst s1.
    destruct bh as [bh|]; [|done]. case_bool_decide as Hbh; [done|]. subst bh. cbv zeta in Hrun.
    match type of Hrun with context[(?a <? ?b)%N] => destruct (N.ltb_spec a b) as [|Hd]; [done|] end. injection Hrun as <- <-.
    split; [done|]. split; [done|]. constructor; [by exists r, sv, recid, u, c|by exists n|done|].
    by apply block_delta_spec.
  - intros (-> & -> & [(r & sv & recid & u & c & -> & Hh & Hrec & Hs) (n & Hn & Hle) Hb Hd]).
    unfold recover_low. rewrite Hh, Hrec, bool_decide_eq_false_2 by (intros ?; done).
    rewrite (bind_ok _ _ _ _ _ Hn). destruct (N.ltb_spec (leash_nonce leash) n); [lia|].
    rewrite (bind_ok _ _ _ _ _ Hb), bool_decide_eq_false_2 by (intros ?; done). cbv zeta.
    apply block_delta_spec in Hd. by match goal with |- context[(?a <? ?b)%N] => destruct (N.ltb_spec a b); [lia|] end.
Qed.

(** ** What a query asks for *)

(** The epochs for which the key that opens an envelope may have been made. *)
Definition epoch_of (ctx : Ctx) (envelope : CallEnvelope) (epoch : N) : Prop :=
  (env_epoch envelope = 0%N ∧ (epoch = ctx_epoch ctx ∨ epoch = wrapping_sub u64_max (ctx_epoch ctx) 1)) ∨
  (epoch = env_epoch envelope ∧ (0 < epoch)%N ∧ (epoch ≤ ctx_epoch ctx)%N ∧ (ctx_epoch ctx ≤ epoch + 5)%N).
(** A call carries data, and perhaps the keys under which the answer is to be sealed: in plain, or in an envelope that a key of the
    key manager for an admissible epoch opens. *)
Inductive carries (ctx : Ctx) (call : Call) : bytes → option (bytes * bytes) → Prop :=
  | carries_plain data : call_format call = Plain → as_byte_string (call_body call) = Some data → carries ctx call data None
  | carries_sealed envelope km epoch sk plain inner data :
      call_format call = EncryptedX25519DeoxysII → call_method call = ""%string →
      from_value (call_body call) = Some envelope → ctx_key_manager ctx = Some km → epoch_of ctx envelope epoch →
      km (tuple_hash_v256 KEY_PAIR_ID_CONTEXT [chain_context_for CALL_DATA_KEY_PAIR_ID_CONTEXT_BASE; be_bytes64 epoch]) epoch = inr sk →
      box_open (env_nonce envelope) (env_data envelope) (env_pk envelope) sk = Some plain →
      call_from_slice plain = Some inner → call_read_only inner = call_read_only call →
      as_byte_string (call_body inner) = Some data → carries ctx call data (Some (env_pk envelope, sk)).
Definition metadata_of (keys : option (bytes * bytes)) : Metadata :=
  match keys with None => MetadataEmpty | Some (pk, sk) => MetadataEncrypted pk sk 0 end.

Lemma decrypt_ok km envelope epoch plain sk : decrypt km envelope epoch = inr (plain, sk) →
  km (tuple_hash_v256 KEY_PAIR_ID_CONTEXT [chain_context_for CALL_DATA_KEY_PAIR_ID_CONTEXT_BASE; be_bytes64 epoch]) epoch = inr sk ∧
  box_open (env_nonce envelope) (env_data envelope) (env_pk envelope) sk = Some plain.
Proof.
  unfold decrypt, get_key_pair_id. destruct (km _ _) as [[]|sk'] eqn:Hk; [done..|]. case_match eqn:Hb; [|done]. intros [= <- <-]. done.
Qed.
Lemma decode_call_ex_carries ctx call s inner md s' : decode_call_ex ctx call 0 true s = (Ok (Some (inner, md)), s') →
  ∃ keys, md = metadata_of keys ∧ ∀ data, as_byte_string (call_body inner) = Some data → carries ctx call data keys.
Proof.
  unfold decode_call_ex, verify_epoch, with_env. destruct (call_format call) eqn:Hf.
  { intros [= -> <- _]. exists None. split; [done|]. intros data Hd. by apply carries_plain. }
  case_bool_decide as Hm; [|done]. simpl. destruct (from_value (call_body call)) as [envelope|] eqn:He; [|done].
  destruct (ctx_key_manager ctx) as [km|] eqn:Hk; [|done]. run_simpl. intros Hrun.
  assert (∃ epoch plain sk, epoch_of ctx envelope epoch ∧ decrypt km envelope epoch = inr (plain, sk) ∧
    call_from_slice plain = Some inner ∧ call_read_only inner = call_read_only call ∧ md = MetadataEncrypted (env_pk envelope) sk 0)
    as (epoch & plain & sk & Hep & [Hsk Hopen]%decrypt_ok & Hcall & Hro & ->).
  2:{ exists (Some (env_pk envelope, sk)). split; [done|]. intros data Hd. by eapply carries_sealed. }
  assert (∀ epoch (plain sk : bytes), epoch_of ctx envelope epoch → decrypt km envelope epoch = inr (plain, sk) →
    (call' ← ok_or (call_from_slice plain) (InvalidCallFormat "malformed call");
     if bool_decide (call_read_only call' ≠ call_read_only call) then throw (InvalidCallFormat "read-only flag mismatch")
     else mret (Some (call', MetadataEncrypted (env_pk envelope) sk 0))) s = (Ok (Some (inner, md)), s') →
    ∃ epoch plain sk, epoch_of ctx envelope epoch ∧ decrypt km envelope epoch = inr (plain, sk) ∧
    call_from_slice plain = Some inner ∧ call_read_only inner = call_read_only call ∧ md = MetadataEncrypted (env_pk envelope) sk 0) as Hgo.
  { intros epoch plain sk Hep Hd Hr. destruct (call_from_slice plain) as [c|] eqn:Hc; [|done]. run_simpl_in Hr.
    case_bool_decide as Hro; [done|]. injection Hr as <- <- _. by exists epoch, plain, sk. }
  destruct (N.ltb_spec 0 (env_epoch envelope)).
  - destruct (N.ltb_spec (ctx_epoch ctx) (env_epoch envelope)); [done|].
    destruct (N.ltb_spec (env_epoch envelope) (saturating_sub (ctx_epoch ctx) MAX_EPHEMERAL_KEY_AGE)) as [|Hage]; [done|].
    destruct (decrypt km envelope (env_epoch envelope)) as [|[plain sk]] eqn:Hd; [done|].
    apply (Hgo (env_epoch envelope) plain sk); [|done|exact Hrun]. right.
    unfold saturating_sub, MAX_EPHEMERAL_KEY_AGE in Hage. lia.
  - assert (env_epoch envelope = 0%N) as Hz by lia. destruct (decrypt km envelope (ctx_epoch ctx)) as [|[plain sk]] eqn:Hd.
    + destruct (decrypt km envelope (wrapping_sub _ _ _)) as [|[plain sk]] eqn:Hd'; [done|].
      by eapply (Hgo _ plain sk); [|exact Hd'|exact Hrun]; left; split; [|right].
    + by eapply (Hgo _ plain sk); [|exact Hd|exact Hrun]; left; split; [|left].
Qed.
Lemma decode_call_carries ctx call s data md s' : evm_decode_call ctx call 0 true s = (Ok (Some (data, md)), s') →
  ∃ keys, carries ctx call data keys ∧ md = metadata_of keys.
Proof.
  unfold evm_decode_call. intros Hrun. apply bind_ok_inv in Hrun as (r & s1 & Hr & Hrun). unfold map_err in Hr.
  destruct (decode_call_ex ctx call 0 true s) as [[r'|e|p] s2] eqn:Hd; [|done..]. injection Hr as -> ->.
  destruct r as [[inner md']|]; [|done]. destruct (as_byte_string (call_body inner)) as [d|] eqn:Hb; [|done]. injection Hrun as -> -> _.
  apply decode_call_ex_carries in Hd as (keys & -> & Hc). exists keys. split; [by apply Hc|done].
Qed.
(** What a query is run as, and the keys for its answer. *)
Definition authentic (ctx : Ctx) (s : State) (query q : SimulateCallQuery) (keys : option (bytes * bytes)) : Prop :=
  let run_as caller data := {|
    scq_gas_price := scq_gas_price query; scq_gas_limit := scq_gas_limit query; scq_caller := caller;
    scq_address := scq_address query; scq_value := scq_value query; scq_data := data |} in
  if CONFIDENTIAL
  then ∃ data, match pack_from_slice (scq_data query) with
    | Some pack => carries ctx (pack_data pack) data keys ∧ q = run_as (scq_caller query) data ∧
        signed_by_caller ctx s q (pack_leash pack) (pack_signature pack)
    | None => q = run_as h160_default data ∧
        match call_from_slice (scq_data query) with
        | Some call => carries ctx call data keys
        | None => data = scq_data query ∧ keys = None
        end
    end
  else q = query ∧ keys = None.
Lemma decode_query_authentic ctx query s q md s' :
  decode_simulate_call_query ctx query s = (Ok (q, md), s') → s' = s ∧ ∃ keys, authentic ctx s query q keys ∧ md = metadata_of keys.
Proof.
  intros Hrun. pose proof (reads_ok _ _ _ _ (reads_decode_query ctx query) Hrun) as ->. split; [done|].
  unfold decode_simulate_call_query, decode_call_data, authentic in *. destruct CONFIDENTIAL; simpl in Hrun; [|injection Hrun as -> <-; by exists None].
  destruct (pack_from_slice (scq_data query)) as [pack|] eqn:Hpack.
  - apply bind_ok_inv in Hrun as (r & s1 & Hr & Hrun). pose proof (reads_ok _ _ _ _ (reads_evm_decode_call _ _ _ _) Hr). subst s1.
    destruct r as [[data m]|]; [|done]. apply bind_ok_inv in Hrun as (x & s1 & [= <- <-] & Hrun).
    apply bind_ok_inv in Hrun as (v & s1 & [-> [-> Hsig]]%signed_verify_ok & Hrun). injection Hrun as <- <-.
    apply decode_call_carries in Hr as (keys & Hc & ->). exists keys. split; [|done]. by exists data.
  - apply bind_ok_inv in Hrun as (r & s1 & Hr & Hrun). apply bind_ok_inv in Hrun as ([data m] & s2 & Hx & Hrun).
    destruct r as [r|]; [|done]. injection Hx as -> <-. injection Hrun as <- <- <-.
    destruct (call_from_slice (scq_data query)) as [call|].
    + apply decode_call_carries in Hr as (keys & Hc & ->). exists keys. split; [|done]. by exists data.
    + injection Hr as <- <-. exists None. split; [|done]. by eexists.
Qed.
(** What is answered: the result itself, or sealed for the keys. *)
Definition answers (ctx : Ctx) (s : State) (entropy : bytes) (keys : option (bytes * bytes)) (out answer : bytes) : Prop :=
  match keys with
  | None => answer = out
  | Some (pk, sk) =>
      let nonce := if is_execute (st_env s) then be_bytes64 (ctx_round ctx) ++ replicate 7 x00 else take 15 entropy in
      ∃ sealed, box_seal nonce (result_to_vec (TxOk (byte_string out))) pk sk = Some sealed ∧
        answer = result_to_vec (TxOk (to_value {| renv_nonce := nonce; renv_data := sealed |}))
  end.
Lemma encode_answers ctx entropy out keys s data s' :
  encode_evm_result ctx entropy (inr out) (metadata_of keys) s = (Ok data, s') → answers ctx s entropy keys out data.
Proof.
  destruct keys as [[pk sk]|]; [|by intros [= <- _]]. simpl. unfold encrypt_result_x25519_deoxysii, with_env. run_simpl.
  destruct (is_execute (st_env s)); simpl.
  - change (result_nonce (ctx_round ctx) 0) with (be_bytes64 (ctx_round ctx) ++ replicate 7 x00).
    destruct (box_seal _ _ pk sk) as [sealed|] eqn:Hseal; [|done]. intros [= <- _]. by exists sealed.
  - change NONCE_SIZE with 15. destruct (box_seal _ _ pk sk) as [sealed|] eqn:Hseal; [|done]. intros [= <- _]. by exists sealed.
Qed.
End queries.

(** * The hashes of blocks *)

Section block_hashes.
Context `{Platform} `{!MKVSLaws} `{!EvmCodec}.

(** The table of the hashes, by round. *)
Definition hashes (m : gmap N H256) (s : State) : Prop := table (ref_prefix block_hashes) be_bytes64 fits64 m s.
Definition ended (m : gmap N H256) (c : Ctx) : gmap N H256 :=
  let m := <[ctx_round c := header_hash c]> m in
  if (BLOCK_HASH_WINDOW_SIZE <? ctx_round c)%N then delete (ctx_round c - BLOCK_HASH_WINDOW_SIZE)%N m else m.
Context `{!CborRoundtrip (bytes_n 32)}.
Lemma evm_end_block_run c m s : hashes m s → writable s → fits64 (ctx_round c) → encodable (header_hash c) →
  ∃ s', evm_end_block c s = (Ok tt, s') ∧ hashes (ended m c) s' ∧ writable s' ∧ outside (ref_prefix block_hashes) s s'.
Proof.
  intros Hh Hw Hr He. unfold evm_end_block, ended. cbv zeta.
  assert (∀ k k', fits64 k → fits64 k' → be_bytes64 k = be_bytes64 k' → k = k') as Hinj by (intros; by apply be_bytes64_inj).
  assert (∀ (b : bytes) n, starts_with b (ref_prefix block_hashes) = false → b ≠ ref_prefix block_hashes ++ be_bytes64 n) as Hout.
  { intros b n Hb ->. by rewrite starts_with_app in Hb. }
  destruct (table_insert_run _ _ _ Hinj (E := Empty_set) m s block_hashes (be_bytes64 (ctx_round c)) (ctx_round c) (header_hash c)
    Hh Hw Hr He eq_refl) as (s1 & Hrun & Hh1 & Hw1 & _ & Ho1). rewrite (bind_ok _ _ _ _ _ Hrun).
  destruct (N.ltb_spec BLOCK_HASH_WINDOW_SIZE (ctx_round c)) as [Hlt|]; [|exists s1; do 3 (split; [done|]); intros b Hb; by apply Ho1, Hout].
  assert (fits64 (ctx_round c - BLOCK_HASH_WINDOW_SIZE)) as Hf by (unfold fits64 in *; lia).
  destruct (table_remove_run _ _ _ Hinj (E := Empty_set) _ s1 block_hashes _ _ Hh1 Hw1 Hf eq_refl) as (s2 & -> & Hh2 & Hw2 & _ & Ho2).
  exists s2. do 3 (split; [done|]). intros b Hb. rewrite Ho2, Ho1; [done|by apply Hout..].
Qed.

Lemma evm_end_blocks_run l : ∀ m s, hashes m s → writable s → Forall (λ c, fits64 (ctx_round c) ∧ encodable (header_hash c)) l →
  ∃ s', for_each l evm_end_block s = (Ok tt, s') ∧ hashes (foldl ended m l) s' ∧ writable s' ∧ outside (ref_prefix block_hashes) s s'.
Proof.
  induction l as [|c l IH]; intros m s Hh Hw Hl; [by exists s|].
  apply Forall_cons in Hl as [[Hf He] Hl]. destruct (evm_end_block_run c m s Hh Hw Hf He) as (s1 & Hrun & Hh1 & Hw1 & Ho1).
  destruct (IH _ s1 Hh1 Hw1 Hl) as (s2 & Hrun2 & Hh2 & Hw2 & Ho2). exists s2. cbn [for_each]. rewrite (bind_ok _ _ _ _ _ Hrun).
  do 3 (split; [done|]). by eapply outside_trans.
Qed.
Lemma ended_at m c n : ended m c !! n =
  if decide (n = ctx_round c) then Some (header_hash c)
  else if decide ((BLOCK_HASH_WINDOW_SIZE < ctx_round c)%N ∧ n = (ctx_round c - BLOCK_HASH_WINDOW_SIZE)%N) then None else m !! n.
Proof.
  unfold ended. cbv zeta. assert (BLOCK_HASH_WINDOW_SIZE = 256%N) as Hw by done.
  destruct (N.ltb_spec BLOCK_HASH_WINDOW_SIZE (ctx_round c)); repeat case_decide; subst; destruct_and?; subst;
    repeat first [rewrite lookup_insert_eq; done | rewrite lookup_delete_eq; done | rewrite lookup_delete_ne by naive_solver lia
      | rewrite lookup_insert_ne by done]; try done; naive_solver lia.
Qed.

Definition earlier (c c' : Ctx) : Prop := (ctx_round c < ctx_round c')%N.
Lemma ended_lookup l : StronglySorted earlier l → ∀ n x, foldl ended ∅ l !! n = Some x ↔
  ∃ c, c ∈ l ∧ ctx_round c = n ∧ header_hash c = x ∧ (n = 0%N ∨ ∀ c', c' ∈ l → ctx_round c' ≠ (n + BLOCK_HASH_WINDOW_SIZE)%N).
Proof.
  induction l as [|c l IH] using rev_ind; intros Hs n x.
  { simpl. rewrite lookup_empty. split; [done|]. by intros (? & ?%not_elem_of_nil & _). }
  assert (StronglySorted earlier l ∧ ∀ c', c' ∈ l → earlier c' c) as [Hl Hlast].
  { split; [by apply StronglySorted_app_1_l in Hs|]. intros c' Hc'. eapply (StronglySorted_app_1_elem_of _ l [c]); [done..|]. by left. }
  rewrite foldl_app. cbn [foldl]. specialize (IH Hl n x). rewrite ended_at. unfold earlier in *.
  assert (∀ P : Ctx → Prop, (∃ c', c' ∈ l ++ [c] ∧ P c') ↔ P c ∨ ∃ c', c' ∈ l ∧ P c') as Hex by set_solver.
  rewrite Hex. assert (BLOCK_HASH_WINDOW_SIZE = 256%N) as Hw by done.
  assert ((∀ c', c' ∈ l ++ [c] → ctx_round c' ≠ (n + BLOCK_HASH_WINDOW_SIZE)%N) ↔ ctx_round c ≠ (n + BLOCK_HASH_WINDOW_SIZE)%N ∧
    ∀ c', c' ∈ l → ctx_round c' ≠ (n + BLOCK_HASH_WINDOW_SIZE)%N) as Hall by set_solver.
  setoid_rewrite Hall. destruct (decide (n = ctx_round c)) as [->|Hn].
  - split.
    + intros [= <-]. left. split; [done|]. split; [done|]. right. split; [lia|]. intros c' Hc'%Hlast. lia.
    + intros [(_ & <- & _)|(c' & Hc'%Hlast & Heq & _)]; [done|lia].
  - destruct (decide _) as [[Hlt ->]|Hk].
    + split; [done|]. intros [(? & _)|(c' & _ & _ & _ & [?|[? _]])]; lia.
    + rewrite IH. split.
      * intros (c' & Hin & Hc' & Hx & Hkeep). right. exists c'. do 3 (split; [done|]).
        destruct Hkeep as [->|Hkeep]; [by left|]. destruct (decide (n = 0%N)) as [->|]; [by left|]. right. split; [lia|done].
      * intros [(? & _)|(c' & Hin & Hc' & Hx & Hkeep)]; [done|]. exists c'. do 3 (split; [done|]).
        destruct Hkeep as [->|[_ Hkeep]]; [by left|by right].
Qed.
End block_hashes.

(** * Ethereum transactions *)

Section decoding.
Context `{Crypto} `{Ethereum}.

(** Integers of 256 bits are what the ethereum crate decodes. *)
Definition eth_fits (e : EthTransaction) : Prop :=
  match e with EIP1559 _ _ _ _ _ priority fee => (priority ≤ u256_max)%N ∧ (fee ≤ u256_max)%N | _ => True end.
Definition eth_message (e : EthTransaction) : EthMessage :=
  match e with Legacy m _ _ _ _ _ | EIP2930 m _ _ _ _ _ | EIP1559 m _ _ _ _ _ _ => m end.
(** Legacy messages need not name a chain. *)
Definition for_chain (e : EthTransaction) (chain : N) : Prop :=
  match e with
  | Legacy _ _ _ _ c _ => c = None ∨ c = Some chain
  | EIP2930 _ _ _ _ c _ | EIP1559 _ _ _ _ c _ _ => c = chain
  end.
(** The compressed key of the signer; the signature has a low scalar. *)
Definition signed_by (e : EthTransaction) (key : bytes) : Prop :=
  let '(r, s, recid) := match e with
    | Legacy _ r s v _ _ => (r, s, v)
    | EIP2930 _ r s odd _ _ | EIP1559 _ r s odd _ _ _ => (r, s, if odd then 1%N else 0%N) end in
  signature_from_scalars r s = true ∧ (recid < 4)%N ∧ signature_is_high s = false ∧
  ∃ uncompressed, recover_from_prehash (eth_message_hash e) r s recid = Some (uncompressed, key).
(** What is paid per gas: with EIP-1559, the base fee and the priority fee, up to the maximum. *)
Definition pays (e : EthTransaction) (base price : N) : Prop :=
  match e with
  | Legacy _ _ _ _ _ p | EIP2930 _ _ _ _ _ p => price = p
  | EIP1559 _ _ _ _ _ priority fee => (priority ≤ fee)%N ∧ (base ≤ fee)%N ∧ price = N.min fee (base + priority)
  end.

Lemma effective_gas_price_spec priority fee base : (fee ≤ u256_max)%N → (base ≤ fee)%N →
  effective_gas_price priority fee base = N.min fee (base + priority).
Proof. intros Hf Hb. unfold effective_gas_price, saturating_add, saturating_sub. lia. Qed.
Lemma narrow_Some mx n m : narrow mx n = Some m ↔ m = n ∧ (n ≤ mx)%N.
Proof. unfold narrow. destruct (N.leb_spec n mx); naive_solver lia. Qed.
Lemma recover_low_ok r s recid hash u c : recover_low r s recid hash = inr (u, c) ↔
  signature_is_high s = false ∧ recover_from_prehash hash r s recid = Some (u, c).
Proof. unfold recover_low. destruct (signature_is_high s); [naive_solver|]. destruct (recover_from_prehash _ _ _ _); naive_solver. Qed.

(** What [decode_eth] takes out of a transaction, together with the checks that [raw_decode] makes on it. *)
Lemma decode_eth_ok e chain base d : eth_fits e →
  decode_eth (Some chain) base e = inr d ∧ dec_chain_id d = Some chain ↔
  for_chain e chain ∧ pays e base (dec_gas_price d) ∧ dec_message d = eth_message e ∧ dec_hash d = eth_message_hash e ∧
  dec_chain_id d = Some chain ∧ signature_from_scalars (dec_r d) (dec_s d) = true ∧ (dec_recid d < 4)%N ∧
  (dec_r d, dec_s d, dec_recid d) = match e with
    | Legacy _ r s v _ _ => (r, s, v)
    | EIP2930 _ r s odd _ _ | EIP1559 _ r s odd _ _ _ => (r, s, if odd then 1%N else 0%N) end.
Proof.
  intros Hfits. destruct d as [dc dr ds drec dh dm dp]. destruct e as [m r s v c p|m r s odd c p|m r s odd c pr fee]; simpl.
  - unfold recovery_id_from_byte. destruct (signature_from_scalars r s) eqn:Hs; simpl; [|naive_solver congruence].
    destruct (N.ltb_spec v 4); [|naive_solver lia]. destruct c; naive_solver congruence.
  - unfold recovery_id_new. destruct (signature_from_scalars r s) eqn:Hs; simpl; [|naive_solver congruence].
    destruct odd; (split; [intros [Heq ?]; injection Heq; intros; subst|intros; destruct_and?]; simplify_eq/=; split_and?; done || lia).
  - unfold recovery_id_new. destruct (signature_from_scalars r s) eqn:Hs; simpl; [|naive_solver congruence].
    destruct (N.ltb_spec fee pr); [naive_solver lia|]. destruct (N.ltb_spec fee base); [naive_solver lia|].
    destruct Hfits as [_ Hfee]. rewrite effective_gas_price_spec by done. destruct odd; (split; [intros [Heq ?]; injection Heq; intros; subst|intros; destruct_and?]; simplify_eq/=; split_and?; done || lia).
Qed.

Context `{!EvmBodies}.
(** The transaction of the runtime that stands for a message: a call or a creation with its value and data, authenticated by the
    signer, for its nonce and gas limit, at the whole fee. *)
Definition runtime_tx (m : EthMessage) (key : bytes) (price : N) (denom : Denomination) : Transaction := {|
  tx_version := LATEST_TRANSACTION_VERSION;
  tx_call := match eth_action m with
    | ActionCall a => {| call_format := Plain; call_method := "evm.Call"; call_read_only := false;
        call_body := to_value {| evk_address := a; evk_value := eth_value m; evk_data := eth_input m |} |}
    | ActionCreate => {| call_format := Plain; call_method := "evm.Create"; call_read_only := false;
        call_body := to_value {| evc_value := eth_value m; evc_init_code := eth_input m |} |} end;
  tx_auth_info := {|
    signer_info := [{| si_address_spec := AddrSignature (SpecSecp256k1Eth key); si_nonce := eth_nonce m |}];
    ai_fee := {| fee_amount := BaseUnits_new (price * eth_gas_limit m) denom; fee_gas := eth_gas_limit m;
                 fee_consensus_messages := 0; fee_proxy := None |};
    not_before := None; not_after := None |} |}.
Lemma eth_call_runtime m key price denom : eth_call_of m = tx_call (runtime_tx m key price denom).
Proof. unfold eth_call_of, runtime_tx. by destruct (eth_action m). Qed.
End decoding.

(** * Modular exponentiation *)

Lemma record_cost_run `{Platform} `{StackMetadata} n h :
  let recorded := record_gas (ss_metadata (es_substate h)) n in
  record_cost n h = (match recorded.1 with inl e => Err (PfError e) | inr _ => Ok tt end,
    {| es_state := es_state h; es_substate := substate_set_metadata recorded.2 (es_substate h);
       es_original_storage := es_original_storage h |}).
Proof. unfold record_cost. run_simpl. by destruct (record_gas _ n) as [[]]. Qed.

Section modexp.
Lemma be_byte_small n i : (n < 256 ^ i)%N → be_byte n i = x00.
Proof.
  intros Hn. apply byte_to_N_inj. rewrite be_byte_digit.
  replace (2 ^ (8 * i))%N with (256 ^ i)%N by (by rewrite N.pow_mul_r). by rewrite N.div_small.
Qed.
Lemma be_bytes_pad k d n : (n < 256 ^ N.of_nat k)%N → replicate d x00 ++ be_bytes k n = be_bytes (d + k) n.
Proof.
  intros Hn. induction d as [|d IH]; [done|]. cbn [replicate be_bytes Nat.add app]. rewrite IH, be_byte_small; [done|].
  eapply N.lt_le_trans; [exact Hn|]. apply N.pow_le_mono_r; lia.
Qed.
Lemma size_fits n k : (n < 256 ^ N.of_nat k)%N → (N.size n ≤ 8 * N.of_nat k)%N.
Proof.
  intros Hn. destruct (decide (n = 0%N)) as [->|Hz]; [simpl; lia|]. rewrite N.size_log2 by done.
  enough (N.log2 n < 8 * N.of_nat k)%N by lia. apply N.log2_lt_pow2; [lia|]. by rewrite N.pow_mul_r.
Qed.
Lemma to_bytes_be_fits n k : 0 < k → (n < 256 ^ N.of_nat k)%N → N.to_nat (N.max 1 ((N.size n + 7) / 8)) ≤ k.
Proof.
  intros Hk Hn%size_fits. enough (((N.size n + 7) / 8) ≤ N.of_nat k)%N by lia.
  apply N.lt_succ_r, N.Div0.div_lt_upper_bound. lia.
Qed.
Lemma to_bytes_be_holds n : (n < 256 ^ N.of_nat (N.to_nat (N.max 1 ((N.size n + 7) / 8))))%N.
Proof.
  rewrite N2Nat.id. destruct (decide (n = 0%N)) as [->|Hz]; [done|].
  apply N.lt_le_trans with (2 ^ N.size n)%N; [apply N.size_gt|]. replace 256%N with (2 ^ 8)%N by done. rewrite <-N.pow_mul_r.
  apply N.pow_le_mono_r; [done|]. pose proof (N.div_mod (N.size n + 7) 8 ltac:(done)). pose proof (N.mod_lt (N.size n + 7) 8 ltac:(done)). lia.
Qed.
(** The output is the number in as many bytes as the modulus has; there is none for a modulus without bytes. *)
Lemma modexp_output_spec n k : (n < 256 ^ N.of_nat k)%N →
  modexp_output n k = if decide (k = 0) then inl (pf_other "failed") else inr (be_bytes k n).
Proof.
  intros Hn. unfold modexp_output, to_bytes_be. pose proof (to_bytes_be_holds n) as Hh. set (w := N.to_nat _) in *. rewrite be_bytes_length.
  assert (0 < w) by (unfold w; lia). case_decide as Hk; [subst k; by destruct (Nat.eqb_spec w 0), (Nat.ltb_spec w 0); try lia|].
  pose proof (to_bytes_be_fits n k ltac:(lia) Hn) as Hfit. fold w in Hfit.
  destruct (Nat.eqb_spec w k) as [->|Hne]; [done|]. destruct (Nat.ltb_spec w k); [|lia].
  rewrite be_bytes_pad by done. by replace (k - w + w) with k by lia.
Qed.

Lemma read_input_length source size offset : length (read_input source size offset) = size.
Proof. unfold read_input. rewrite length_app, length_replicate. pose proof (firstn_le_length size (drop offset source)). lia. Qed.
Lemma complexity_spec a b : (a ≤ 1024)%N → (b ≤ 1024)%N →
  calculate_multiplication_complexity a b = (((N.max a b + 7) / 8) * ((N.max a b + 7) / 8))%N ∧ ((N.max a b + 7) / 8 ≤ 128)%N.
Proof.
  intros Ha Hb. unfold calculate_multiplication_complexity. set (x := N.max a b).
  assert (x ≤ 1024)%N by lia.
  pose proof (N.div_mod x 8 ltac:(done)) as Hx. pose proof (N.mod_lt x 8 ltac:(done)).
  assert ((if (x mod 8 =? 0)%N then x / 8 else x / 8 + 1) = (x + 7) / 8)%N as ->.
  { destruct (N.eqb_spec (x mod 8) 0) as [Hm|Hm].
    - apply N.div_unique with 7%N; lia.
    - set (r := (x mod 8)%N) in *. set (q := (x / 8)%N) in *. apply N.div_unique with (r - 1)%N; clearbody q r; lia. }
  assert ((x + 7) / 8 ≤ 128)%N as Hw by (apply N.lt_succ_r, N.Div0.div_lt_upper_bound; lia).
  split; [|done]. unfold saturating_mul, u64_max. pose proof (N.mul_le_mono _ _ _ _ Hw Hw). lia.
Qed.
(** The bytes of an input from an offset on, zeros where it is over. *)
Definition bytes_at (input : bytes) (offset : nat) (size : N) : bytes :=
  (λ j, default x00 (input !! (offset + j)%nat)) <$> seq 0 (N.to_nat size).
Lemma read_input_at input size offset : read_input input (N.to_nat size) offset = bytes_at input offset size.
Proof.
  apply list_eq. intros j. unfold bytes_at. rewrite list_lookup_fmap. destruct (decide (j < N.to_nat size)) as [Hj|Hj].
  - rewrite lookup_seq_lt by done. simpl. unfold read_input. rewrite length_take, length_drop.
    destruct (decide (offset + j < length input)) as [Hin|Hout].
    + destruct (lookup_lt_is_Some_2 input (offset + j) Hin) as [x Hx]. rewrite Hx. simpl.
      rewrite lookup_app_l by (rewrite length_take, length_drop; lia). by rewrite lookup_take_lt, lookup_drop by lia.
    + rewrite (lookup_ge_None_2 input) by lia. simpl. rewrite lookup_app_r by (rewrite length_take, length_drop; lia).
      apply lookup_replicate. split; [done|]. rewrite length_take, length_drop. lia.
  - rewrite (lookup_ge_None_2 (seq _ _)) by (rewrite length_seq; lia). apply lookup_ge_None_2. rewrite read_input_length. lia.
Qed.
Lemma from_be_take n b : n ≤ length b → from_be (take n b) = (from_be b / 256 ^ N.of_nat (length b - n))%N.
Proof.
  intros Hn. rewrite <-(take_drop n b) at 2. rewrite from_be_app, length_drop.
  pose proof (from_be_bound (drop n b)) as Hb. rewrite length_drop in Hb. apply N.div_unique with (from_be (drop n b)); lia.
Qed.
(** How often the exponentiation squares, by EIP-2565: the position of the highest bit of an exponent of up to 32 bytes; of a longer one
    that in its first 32 bytes, and eight for every byte after them; at least once. *)
Definition squarings (len exp : N) : N :=
  N.max 1
    (if decide (len ≤ 32)%N then N.log2 exp
     else let head := (exp / 256 ^ (len - 32))%N in
          if decide (head = 0%N) then (8 * (len - 32) - 1)%N else (8 * (len - 32) + N.log2 head)%N).
Lemma iterations_spec b : calculate_iteration_count (from_be b) b = squarings (N.of_nat (length b)) (from_be b).
Proof.
  unfold calculate_iteration_count, squarings. cbv zeta. set (len := N.of_nat (length b)).
  destruct (N.leb_spec len 32) as [Hl|Hl]; cbn [andb].
  - rewrite decide_True by done. destruct (N.eqb_spec (from_be b) 0) as [->|Hz]; [done|]. rewrite N.size_log2 by done. lia.
  - rewrite decide_False by lia. rewrite from_be_take by lia.
    replace (N.of_nat (length b - 32)) with (len - 32)%N by lia. set (head := (from_be b / _)%N).
    case_decide as Hh; [rewrite Hh; cbn [N.size]; lia|]. rewrite N.size_log2 by done. lia.
Qed.
Lemma iteration_bound b : (N.of_nat (length b) ≤ 1024)%N → (calculate_iteration_count (from_be b) b ≤ 8192)%N.
Proof.
  intros Hb. unfold calculate_iteration_count. pose proof (size_fits _ _ (from_be_bound b)).
  pose proof (size_fits _ _ (from_be_bound (take 32 b))) as Ht. rewrite length_take in Ht.
  repeat case_match; lia.
Qed.
(** The cost is that of EIP-2565, twenty times as much for an even modulus; nothing saturates. *)
Lemma gas_cost_spec a b e even : (a ≤ 1024)%N → (b ≤ 1024)%N → (N.of_nat (length e) ≤ 1024)%N →
  calculate_gas_cost a b (from_be e) e even =
    (N.max 200 (((N.max a b + 7) / 8) * ((N.max a b + 7) / 8) * squarings (N.of_nat (length e)) (from_be e) / 3) * (if even then 20 else 1))%N.
Proof.
  intros Ha Hb He. rewrite <-iterations_spec. unfold calculate_gas_cost. cbv zeta. destruct (complexity_spec a b Ha Hb) as [-> Hw]. pose proof (iteration_bound e He) as Hi.
  set (w := ((N.max a b + 7) / 8)%N) in *. set (i := calculate_iteration_count _ _) in *.
  assert (w * w * i ≤ 2 ^ 27)%N as Hp by (pose proof (N.mul_le_mono _ _ _ _ (N.mul_le_mono _ _ _ _ Hw Hw) Hi); lia).
  assert (saturating_mul u64_max (w * w) i = w * w * i)%N as -> by (unfold saturating_mul, u64_max; lia).
  assert (w * w * i / 3 ≤ 2 ^ 27)%N by (etransitivity; [apply N.Div0.div_le_mono, Hp|done]).
  unfold saturating_mul, u64_max, MIN_GAS_COST. destruct even; lia.
Qed.
End modexp.

Section modexp_run.
Context `{Platform} `{StackMetadata} `{!PrecompileLibs}.
(** The precompile, with its own way of reading the input. *)
Lemma modexp_run `{!ModpowLaws} ph h :
  let input := ph_input ph in
  let bl := from_be (read_input input 32 0) in let el := from_be (read_input input 32 32) in let ml := from_be (read_input input 32 64) in
  let base := from_be (read_input input (N.to_nat bl) 96) in
  let exp := read_input input (N.to_nat el) (96 + N.to_nat bl) in
  let m := from_be (read_input input (N.to_nat ml) (96 + N.to_nat bl + N.to_nat el)) in
  let words := ((N.max bl ml + 7) / 8)%N in
  let cost := if decide (bl = 0%N ∧ ml = 0%N) then 200%N
    else (N.max 200 (words * words * squarings el (from_be exp) / 3) * (if N.even m then 20 else 1))%N in
  let recorded := record_gas (ss_metadata (es_substate h)) cost in
  let h' := {| es_state := es_state h; es_substate := substate_set_metadata recorded.2 (es_substate h);
               es_original_storage := es_original_storage h |} in
  if decide (bl ≤ 1024 ∧ el ≤ 1024 ∧ ml ≤ 1024)%N then
    call_bigmodexp ph h =
      (match recorded.1 with
       | inl e => Err (PfError e)
       | inr _ => if decide (ml = 0%N) then Err (pf_other "failed")
                  else Ok (be_bytes (N.to_nat ml) (if decide (m = 0%N) then 0%N else ((base ^ from_be exp) mod m)%N))
       end, h')
  else ∃ msg, call_bigmodexp ph h = (Err (pf_other msg), h).
Proof.
  intros input bl el ml base exp m words cost recorded h'.
  assert (Hr : ∀ r, r = (if decide (m = 0%N) then 0%N else ((base ^ from_be exp) mod m)%N) → (r < 256 ^ N.of_nat (N.to_nat ml))%N).
  { intros r ->. pose proof (from_be_bound (read_input input (N.to_nat ml) (96 + N.to_nat bl + N.to_nat el))) as Hb.
    rewrite read_input_length in Hb. fold m in Hb. case_decide; [lia|]. pose proof (N.mod_lt (base ^ from_be exp) m ltac:(done)). lia. }
  unfold call_bigmodexp, modexp_lengths, MODEXP_MAX_SIZE. fold input bl el ml.
  destruct (decide (bl ≤ 1024 ∧ el ≤ 1024 ∧ ml ≤ 1024)%N) as [Hlen|Hlen].
  2: { destruct (N.ltb_spec 1024 bl); [by eexists|]. destruct (N.ltb_spec 1024 el); [by eexists|].
       destruct (N.ltb_spec 1024 ml); [by eexists|]. exfalso. apply Hlen. split_and!; done. }
  destruct Hlen as (Hbl & Hel & Hml). destruct (N.ltb_spec 1024 bl), (N.ltb_spec 1024 el), (N.ltb_spec 1024 ml); try lia.
  set (r := if decide (m = 0%N) then 0%N else ((base ^ from_be exp) mod m)%N) in *.
  enough (Hrun : (if (bl =? 0)%N && (ml =? 0)%N then record_cost MIN_GAS_COST ;; mret 0%N
    else record_cost (calculate_gas_cost bl ml (from_be exp) exp (N.even m)) ;;
         mret (if (m =? 0)%N || (m =? 1)%N then 0%N else modpow base (from_be exp) m)) h =
    (match recorded.1 with inl e => Err (PfError e) | inr _ => Ok r end, h')).
  { unfold mbind at 1, ST_bind at 1. cbv zeta. fold base exp m. rewrite Hrun. destruct recorded.1 as [e|]; [done|].
    rewrite modexp_output_spec by (by apply Hr). assert (N.to_nat ml = 0 ↔ ml = 0%N) as Hz by lia.
    by repeat case_decide; first [done|tauto]. }
  assert (N.of_nat (length exp) ≤ 1024)%N as He by (unfold exp; rewrite read_input_length; lia).
  assert (cost = if (bl =? 0)%N && (ml =? 0)%N then MIN_GAS_COST else calculate_gas_cost bl ml (from_be exp) exp (N.even m)) as Hc.
  { assert (N.of_nat (length exp) = el) as Hel' by (unfold exp; rewrite read_input_length; lia).
    unfold cost. rewrite gas_cost_spec, Hel' by done. destruct (N.eqb_spec bl 0), (N.eqb_spec ml 0), (decide _); naive_solver. }
  destruct ((bl =? 0)%N && (ml =? 0)%N) eqn:Hz; rewrite <-Hc; unfold mbind at 1, ST_bind at 1; rewrite record_cost_run;
    fold recorded h'; destruct recorded.1; try done; simpl; do 2 f_equal; unfold r.
  - apply andb_true_iff in Hz as [_ Hz%N.eqb_eq]. assert (m = 0%N) as -> by (unfold m; by rewrite Hz). done.
  - destruct (N.eqb_spec m 0) as [->|Hm0]; [done|]. rewrite decide_False by done.
    destruct (N.eqb_spec m 1) as [->|Hm1]; [by rewrite N.mod_1_r|]. simpl. by rewrite modpow_spec.
Qed.
End modexp_run.

(** * Claims *)

Module EvmClaims.
Section claims.
Context `{Platform} `{!MKVSLaws} `{!TxCodec} `{!CallCrypto} `{!CoreCodec} `{!CoreConfig} `{!DispatchCodec} `{!AccountsCodec} `{!StoreCrypto} `{!VrfCrypto}.
Context `{!EvmConfig} `{!EvmCodec} `{StackMetadata} `{Solabi} `{Bn128} `{!PrecompileLibs} `{SignatureLibs} `{Ethereum}.
Context (R : SubcallStack → Runtime) `{!∀ stack, FramedRuntime (R stack)}.
Variables (stack : SubcallStack) (pcs : option PrecompileSet) (framed_pcs : ∀ pc, pcs = Some pc → FramedSet pc).

(** C19. A frame of the EVM is atomic.  It starts from what the state holds; whatever the executor does inside of it (storage, code,
    transfers, nonces, logs, nested frames, precompiles and subcalls), if the frame is reverted or discarded, the state is as it
    was before it was entered, but for the random number generator and the values of the block, and so is the substate but for its
    metadata; if it is committed, contents of the store, messages, events, logs and deleted accounts are those of before with
    those of the frame behind them, and nothing else has changed. *)
Theorem frames_are_atomic {A} ctx v gas static (body : EvmRun A) h :
  ready (es_state h) → let h1 := (enter (E := Empty_set) gas static h).2 in
  obeys R stack pcs ctx v 0 body h1 →
  kv (st_store (es_state h1)) = kv (st_store (es_state h)) ∧
  match run_evm R stack pcs ctx v body h1 with
  | (Ok _, h2) =>
      let '(s, b, s2, b2) := (es_state h, es_substate h, es_state h2, es_substate h2) in
      let reverted h3 := es_state h3 = set_rng (st_rng s2) (set_block_values (st_block_values s2) s) ∧
        ∃ m, es_substate h3 = substate_set_metadata m b in
      (takes_in swallow_revert h2 → ∃ h3, exit_revert h2 = (Ok (inr tt), h3) ∧ reverted h3) ∧
      (takes_in swallow_discard h2 → ∃ h3, exit_discard h2 = (Ok (inr tt), h3) ∧ reverted h3) ∧
      (takes_in swallow_commit h2 → ∃ h3, exit_commit h2 = (Ok (inr tt), h3) ∧ ready (es_state h3) ∧
         kv (st_store (es_state h3)) = kv (st_store s2) ∧
         st_messages (es_state h3) = st_messages s ++ st_messages s2 ∧
         st_events (es_state h3) = merge_events (st_events s) (st_events s2) ∧
         st_unconditional_events (es_state h3) = merge_events (st_unconditional_events s) (st_unconditional_events s2) ∧
         st_local_values (es_state h3) = st_local_values s ∧ st_env (es_state h3) = st_env s ∧
         st_parent (es_state h3) = st_parent s ∧
         ss_parent (es_substate h3) = ss_parent b ∧ ss_logs (es_substate h3) = ss_logs b ++ ss_logs b2 ∧
         ss_deletes (es_substate h3) = ss_deletes b ∪ ss_deletes b2)
  | (Panic _, _) => True
  | (Err e, _) => match e with end
  end.
Proof.
  intros Hr h1 Hob. split; [by apply kv_open|].
  pose proof (run_keeps_frame R stack pcs framed_pcs ctx v body h1 (open_ready _ Hr) Hob) as Hk.
  destruct (run_evm _ _ _ _ _ body h1) as [[x|[]|p] h2]; [|done]. destruct Hk as [Hf Hp]. cbn in Hf, Hp.
  split; [|split]; intros Ht.
  - rewrite (exit_revert_run h2 _ _ Hr Hf Hp Ht). eexists. split; [done|]. split; [done|by eexists].
  - rewrite (exit_discard_run h2 _ _ Hr Hf Hp Ht). eexists. split; [done|]. split; [done|by eexists].
  - rewrite (exit_commit_run h2 _ _ Hr Hf Hp Ht). eexists. split; [done|].
    split; [apply (fr_ready _ _ (published_frame _ _ Hr Hf))|]. split; [by apply kv_published|]. done.
Qed.

(** A panic in a frame of the EVM escapes the guard of the transaction around it: the guard compares levels for equality, so that it
    rolls back nothing when frames are open, and the state is left inside of them. *)
Theorem panics_leave_frames_open {E T} opts (f : M E (TransactionResult T)) s rg p child :
  st_rng s = Some rg → f (opened opts s rg) = (Panic p, child) → level (opened opts s rg) < level child →
  with_transaction_opts opts f s = (Panic p, child) ∧ S (level s) < level child.
Proof.
  intros Hrg Hrun Hlevel. split; [|by rewrite level_parent in Hlevel; destruct s].
  unfold with_transaction_opts. rewrite (init_open _ _ _ Hrg), Hrun. unfold drop_guard. by rewrite bool_decide_eq_false_2 by lia.
Qed.

(** Additional precompiles at some addresses are never run: where the first and the last two bytes of the address are those of a
    builtin precompile, that one is run instead, although the address is none of its own. *)
Theorem builtin_shadows_additional ctx pc ph h f cost :
  is_builtin (ph_code_address ph) = false → builtin R stack ctx (ph_code_address ph) = Some f →
  pcs_is_precompile pc (ph_code_address ph) (gas_left (ss_metadata (es_substate h))) = PrecompileAnswer true cost →
  precompile_execute R stack ctx (Some pc) ph h =
    (r ← try_ (record_cost cost);
     match r with inl e => mret (Some (inl e)) | inr _ => r ← try_ (f ph); mret (Some r) end) h.
Proof.
  intros Hno Hf Hpc. unfold precompile_execute, remaining_gas, is_precompile. rewrite gets_bind. cbv zeta. by rewrite Hno, Hpc, Hf.
Qed.

(** C21. Ethereum transactions are decoded exactly: a body is accepted if and only if it is a transaction of one of the three kinds for
    the chain (legacy ones may leave it out), signed with a low scalar by the key it is then authenticated with, whose integers
    fit and whose maximum fees cover the minimum gas price; what comes out calls or creates with the value and data of the
    message, for its nonce and gas limit, and pays exactly price times gas, where the price is that of EIP-1559. *)
Theorem raw_decode_exact `{!EvmBodies} body chain base denom tx :
  (∀ e, eth_decode body = Some e → eth_fits e) →
  raw_decode body (Some chain) base denom = inr tx ↔
  ∃ e key price, eth_decode body = Some e ∧ for_chain e chain ∧ signed_by e key ∧ pays e base price ∧
    encoded_point_from_bytes key = true ∧
    let m := eth_message e in
    (eth_nonce m ≤ u64_max)%N ∧ (eth_gas_limit m ≤ u64_max)%N ∧ (price ≤ u128_max)%N ∧ (price * eth_gas_limit m ≤ u128_max)%N ∧
    tx = runtime_tx m key price denom.
Proof.
  intros Hfits. unfold raw_decode. destruct (eth_decode body) as [e|]; [specialize (Hfits e eq_refl)|split; naive_solver].
  split.
  - intros Hrun. destruct (decode_eth (Some chain) base e) as [|d] eqn:Hd; [done|]. case_bool_decide as Hc; [done|].
    destruct (proj1 (decode_eth_ok e chain base d Hfits) (conj Hd Hc)) as (Hch & Hp & Hm & Hh & _ & Hsig & Hrec & Hparts).
    destruct (recover_low _ _ _ _) as [|[u key]] eqn:Hlow; [done|]. apply recover_low_ok in Hlow as [Hhigh Hlow].
    destruct (narrow u64_max (eth_nonce _)) as [nonce|] eqn:Hn; [|done]. apply narrow_Some in Hn as [-> Hn].
    destruct (narrow u128_max _) as [price|] eqn:Hpr; [|done]. apply narrow_Some in Hpr as [-> Hpr].
    destruct (narrow u64_max (eth_gas_limit _)) as [gas|] eqn:Hg; [|done]. apply narrow_Some in Hg as [-> Hg].
    destruct (checked_mul _ _ _) as [fee|] eqn:Hfee; [|done]. apply checked_mul_Some in Hfee as [-> Hfee].
    destruct (encoded_point_from_bytes key) eqn:Hkey; [|done]. injection Hrun as <-. rewrite Hm in *.
    exists e, key, (dec_gas_price d). split; [done|]. split; [done|]. split; [|by rewrite (eth_call_runtime _ key (dec_gas_price d) denom)].
    unfold signed_by. rewrite <-Hparts, <-Hh. repeat split; try done. by exists u.
  - intros (e' & key & price & [= <-] & Hch & Hsig & Hp & Hkey & Hn & Hg & Hpr & Hfee & ->).
    unfold signed_by in Hsig.
    set (parts := match e with Legacy _ r s v _ _ => (r, s, v) | EIP2930 _ r s odd _ _ | EIP1559 _ r s odd _ _ _ => _ end) in Hsig.
    destruct parts as [[r s] recid] eqn:Hparts. destruct Hsig as (Hsc & Hrec & Hhigh & u & Hlow).
    set (d := {| dec_chain_id := Some chain; dec_r := r; dec_s := s; dec_recid := recid; dec_hash := eth_message_hash e;
                 dec_message := eth_message e; dec_gas_price := price |}).
    destruct (proj2 (decode_eth_ok e chain base d Hfits)) as [-> _]; [by repeat split|].
    rewrite bool_decide_eq_false_2 by (by intros []). simpl. unfold recover_low. rewrite Hhigh, Hlow.
    rewrite (proj2 (narrow_Some _ _ _) (conj eq_refl Hn)), (proj2 (narrow_Some _ _ _) (conj eq_refl Hpr)),
      (proj2 (narrow_Some _ _ _) (conj eq_refl Hg)), (proj2 (checked_mul_Some _ _ _ _) (conj eq_refl Hfee)), Hkey. simpl.
    by rewrite (eth_call_runtime _ key price denom).
Qed.

(** C22. The modular exponentiation of the EVM: base, exponent and modulus are read behind their three lengths, zeros standing for what the
    input lacks; the gas is that of EIP-2565, and twenty times as much for an even modulus, without overflow; and if that gas can be
    recorded, the output is the power modulo the modulus, zero for the moduli zero and one, in as many bytes as the modulus has.
    Lengths above 1024 fail, and so does the length zero of the modulus, after the gas has been paid. *)
Theorem modexp_exact `{!ModpowLaws} ph h :
  let number offset size := from_be (bytes_at (ph_input ph) offset size) in
  let bl := number 0 32%N in let el := number 32 32%N in let ml := number 64 32%N in
  let base := number 96 bl in
  let exp := number (96 + N.to_nat bl) el in
  let m := number (96 + N.to_nat bl + N.to_nat el) ml in
  let words := ((N.max bl ml + 7) / 8)%N in
  let cost := if decide (bl = 0%N ∧ ml = 0%N) then 200%N
    else (N.max 200 (words * words * squarings el exp / 3) * (if N.even m then 20 else 1))%N in
  let recorded := record_gas (ss_metadata (es_substate h)) cost in
  let h' := {| es_state := es_state h; es_substate := substate_set_metadata recorded.2 (es_substate h);
               es_original_storage := es_original_storage h |} in
  if decide (bl ≤ 1024 ∧ el ≤ 1024 ∧ ml ≤ 1024)%N then
    call_bigmodexp ph h =
      (match recorded.1 with
       | inl e => Err (PfError e)
       | inr _ => if decide (ml = 0%N) then Err (pf_other "failed")
                  else Ok (be_bytes (N.to_nat ml) (if decide (m = 0%N) then 0%N else ((base ^ exp) mod m)%N))
       end, h')
  else ∃ msg, call_bigmodexp ph h = (Err (pf_other msg), h).
Proof.
  pose proof (modexp_run ph h) as Hrun. assert (∀ offset, read_input (ph_input ph) 32 offset = bytes_at (ph_input ph) offset 32) as H32
    by (intros; apply (read_input_at _ 32)).
  cbv zeta in *. rewrite !H32, !read_input_at in Hrun. exact Hrun.
Qed.

(** C23. The hashes of blocks: after the ends of any blocks, the hash of a block is known to contracts exactly if that block ended and
    the block 256 rounds later has not; the first block, of round 0, is known for ever.  So with a block in each round the known
    hashes are those of the last 256 rounds, but after a round without a block the hash that it should have removed stays. *)
Theorem block_hash_window `{!CborRoundtrip (bytes_n 32)} (l : list Ctx) s :
  writable s → hashes ∅ s → StronglySorted earlier l → Forall (λ c, fits64 (ctx_round c) ∧ encodable (header_hash c)) l →
  ∃ s', for_each l evm_end_block s = (Ok tt, s') ∧ outside (ref_prefix block_hashes) s s' ∧
    ∀ h n, es_state h = s' → fits64 n →
      ∃ o, block_hash (E := Empty_set) n h = (Ok (default h256_default o), h) ∧
        ∀ x, o = Some x ↔ ∃ c, c ∈ l ∧ ctx_round c = n ∧ header_hash c = x ∧
          (n = 0%N ∨ ∀ c', c' ∈ l → ctx_round c' ≠ (n + 256)%N).
Proof.
  intros Hw Hh Hs Hl. destruct (evm_end_blocks_run l ∅ s Hh Hw Hl) as (s' & Hrun & Hh' & Hw' & Ho).
  exists s'. split; [done|]. split; [done|]. intros h n Hst Hn. exists (foldl ended ∅ l !! n). split; [|intros x; by apply ended_lookup].
  unfold block_hash, on_current. run_simpl. rewrite Hst, N.mod_small by (unfold fits64, u64_max in Hn; lia).
  rewrite (table_get_run _ _ _ _ _ _ _ n Hh' Hw' Hn eq_refl). simpl. destruct h; simpl in *; by subst.
Qed.

Context `{!CborValue bool} `{!CborValue (list (gmap string bool))} `{!CborValue LocalConfig}.
Context `{!EvmEngine} `{!EngineProtocol R stack pcs} `{!EvmValues} `{!EvmBodies} `{!ByteStrings}.

End claims.
End EvmClaims.
