(* ===== verification/ConcreteEvm.v ===== *)
(** The EVM module on the concrete platform: an executor that enters a frame, logs, stores code and commits, a block whose hash is
    known, and signed queries, in plain and in an envelope. *)
From S2P Require Import Prelude Endian Storage StoreIter Types Fee Errors State Current Concrete Transactions Module Tables.
From S2P Require Import CallFormat Core Gas ConcreteCore Accounts Ledger ConcreteAccounts Dispatcher Dispatch Subcall Estimate.
From S2P Require Import ConcreteDispatch ConcreteMarket ConfidentialStore HostFunctions Signatures EvmTypes EvmBackend EvmPrecompiles.
From S2P Require Import Evm EvmFrames EvmClaims ConcreteContracts.

#[local] Existing Instances toy_platform toy_mkvs_laws toy_codec toy_core_codec toy_core_config toy_accounts_codec
  Confidential.toy_call_crypto toy_dispatch_codec ConfidentialClaims.toy_store_crypto idle_framed toy_vrf SignatureClaims.toy_libs.

Module EvmWitnesses.

(** * Libraries *)

Definition toy_h256 (b : Byte.byte) : H256 := exist _ (replicate 32 b) eq_refl.
Definition toy_h160 (b : Byte.byte) : H160 := exist _ (replicate 20 b) eq_refl.
#[local] Instance toy_evm_config : EvmConfig := {|
  CHAIN_ID := 23294; TOKEN_DENOMINATION := NATIVE; CONFIDENTIAL := true; REFUND_UNUSED_FEE := true; MAX_RESULT_SIZE := 4;
  CREATE_CONTRACT_LIMIT := 100; MAX_INITCODE_SIZE := 200;
|}.
#[local] Instance toy_hash_cbor : Cbor (bytes_n 32) := {|
  to_vec := raw; from_slice := bytes_n_of 32; encodable _ := True |}.
#[local] Instance toy_evm_codec : EvmCodec := {|
  ev_hash := toy_hash_cbor;
  ev_code := {| to_vec b := b; from_slice b := Some b; encodable _ := True |};
  ev_params := const_cbor MkEvmParameters;
  evm_state_key _ := inr [x04];
  log_value _ _ data := data;
  header_hash c := if (ctx_round c =? 0)%N then toy_h256 x0a else toy_h256 x0b;
|}.
#[local] Instance toy_hash_roundtrip : @CborRoundtrip (bytes_n 32) (@ev_hash toy_platform toy_evm_codec).
Proof. intros x _. apply bytes_n_of_proj. Qed.
(** A gas meter that counts down. *)
#[local] Instance toy_metadata : StackMetadata := {|
  Metadata_ := N * N;
  metadata_new gas _ := (gas, 0%N);
  spit_child _ gas _ := (gas, 0%N);
  swallow_commit p c := (inr tt, ((p.1 + c.1)%N, p.2));
  swallow_revert p c := (inr tt, ((p.1 + c.1)%N, p.2));
  swallow_discard p c := (inr tt, p);
  accessed _ := None;
  gas_left := fst; gas_used := snd;
  record_gas m n := if (m.1 <? n)%N then (inl XOutOfGas, (0%N, m.2)) else (inr tt, ((m.1 - n)%N, (m.2 + n)%N));
|}.
#[local] Instance toy_solabi : Solabi := {|
  sd_u128 b := inr (from_be b); sd_uint_bytes _ := inl "abi"; sd_bytes2 _ := inl "abi"; sd_deoxysii _ := inl "abi"; sd_sign _ := inl "abi";
  sd_verify _ := inl "abi"; sd_address _ := inl "abi"; sd_address2 _ := inl "abi"; sd_address_uint _ := inl "abi";
  sd_address2_uint _ := inl "abi"; se_uint := be_bytes 32; se_bool b := [if b then x01 else x00]; se_string := str; se_address := raw;
  se_address_uint2 _ := []; se_uint_bytes x := be_bytes 32 x.1 ++ x.2; se_bytes2 x := x.1 ++ x.2; se_uint1 _ := []; se_bool1 _ := [];
  se_string1 _ := []; se_address1 _ := [];
|}.
#[local] Instance toy_bn128 : Bn128 := {|
  Fq := unit; Fr := unit; G1 := unit; G2 := unit; fq_from_slice _ := Some tt; fr_from_slice _ := Some tt; fq_is_zero _ := true;
  g1_zero := tt; affine_g1 _ _ := None; g2_zero := tt; affine_g2 _ _ := None; g1_add _ _ := tt; g1_mul _ _ := tt;
  from_jacobian _ := None; pairing_is_one _ := true;
|}.
#[local] Instance toy_precompile_libs : PrecompileLibs := {|
  keccak256 _ := toy_h256 x05; ripemd160 _ := toy_h160 x06; sha512 b := b; modpow b e m := ((b ^ e) mod m)%N; x25519_public_key b := b;
  x25519_derive a b := a; deoxys_seal _ _ m _ := m; deoxys_open _ _ m _ := Some m; value_from_slice b := Some b; value_to_vec v := v;
  from_utf8 _ := None;
|}.
#[local] Instance toy_modpow_laws : ModpowLaws.
Proof. by intros b e m Hm. Qed.
(** Decoded are transactions of EIP-1559 only, with a maximum fee of nine and a priority fee of two. *)
Definition toy_message : EthMessage :=
  {| eth_action := ActionCall (toy_h160 x07); eth_value := 12; eth_input := [x2a]; eth_nonce := 3; eth_gas_limit := 1000 |}.
#[local] Instance toy_ethereum : Ethereum := {|
  eth_decode _ := Some (EIP1559 toy_message (toy_h256 x01) (toy_h256 x02) true 23294 2 9);
  eth_message_hash _ := toy_h256 x03; signature_from_scalars _ _ := true; signature_is_high _ := false;
  recover_from_prehash _ _ _ _ := Some ([x04; x08], [x02; x08]);
|}.
#[local] Instance toy_bodies : EvmBodies := {|
  eb_call := {| to_value c := evk_data c; from_value _ := None |}; eb_create := {| to_value c := evc_init_code c; from_value _ := None |};
  encoded_point_from_bytes _ := true;
|}.
#[local] Instance toy_byte_strings : ByteStrings := {| byte_string b := b; as_byte_string v := Some v |}.

(** * The executor *)

Definition toy_body : EvmRun unit :=
  RunOp (OpLog (toy_h160 x07) [toy_h256 x01] [x2a]) (λ _, RunOp (OpSetCode (toy_h160 x07) [x01; x02]) (λ _, RunRet tt)).
Definition toy_transact : EvmRun (ExitReason * bytes) :=
  RunOp (OpEnter 50 false) (λ _, run_bind toy_body (λ _, RunOp OpExitCommit (λ _, RunRet (XSucceed, [x2a; x2b])))).
#[local] Instance toy_engine : EvmEngine := {|
  transact_call _ _ _ _ _ _ := toy_transact; transact_create _ _ _ _ _ := toy_transact; create_address _ := RunRet (toy_h160 x09);
  executor_used_gas _ m := snd m; base64_encode _ := "";
|}.
Lemma toy_takes_in h : takes_in swallow_commit h.
Proof. by intros p _. Qed.
#[local] Instance toy_protocol : EngineProtocol idle [] None.
Proof.
  assert (∀ ctx v h, obeys idle [] None ctx v 0 toy_transact h) as Hob.
  { intros ctx v h. split; [done|]. intros x1 h1 _. split; [done|]. intros x2 h2 _. split; [done|]. intros x3 h3 _.
    split; [split; [apply Nat.lt_0_1|apply toy_takes_in]|]. by intros x4 h4 _. }
  split; [intros; apply Hob|intros; apply Hob|done].
Qed.

Definition toy_evm_ctx : Ctx :=
  {| ctx_local_config := ∅; ctx_key_manager := None; ctx_round := 1; ctx_epoch := 4;
     ctx_good_compute_entities := []; ctx_bad_compute_entities := []; ctx_messages := []; ctx_max_messages := 2; ctx_now := 7000 |}.
Definition toy_vicinity : Vicinity := {| v_gas_price := 5; v_origin := toy_h160 x05 |}.
Definition toy_stack : StackState :=
  {| es_state := toy_tx_state; es_substate := substate_new (100%N, 0%N); es_original_storage := ∅ |}.

Lemma toy_body_ok :
  let r := run_evm idle [] None toy_evm_ctx toy_vicinity toy_body (enter (E := Empty_set) 50 false toy_stack).2 in
  r.1 = Ok tt ∧ ss_logs (es_substate r.2) = [{| log_address := toy_h160 x07; log_topics := [toy_h256 x01]; log_data := [x2a] |}].
Proof. split; vm_compute; reflexivity. Qed.
Lemma frames_are_atomic_witness :
  let h1 := (enter (E := Empty_set) 50 false toy_stack).2 in
  let h2 := (run_evm idle [] None toy_evm_ctx toy_vicinity toy_body h1).2 in
  kv (st_store (es_state h1)) = kv (st_store toy_tx_state) ∧
  (∃ h3, exit_revert h2 = (Ok (inr tt), h3) ∧ kv (st_store (es_state h3)) = kv (st_store toy_tx_state) ∧ ss_logs (es_substate h3) = []) ∧
  ∃ h3, exit_commit h2 = (Ok (inr tt), h3) ∧ kv (st_store (es_state h3)) = kv (st_store (es_state h2)) ∧ ss_logs (es_substate h3) =
    [{| log_address := toy_h160 x07; log_topics := [toy_h256 x01]; log_data := [x2a] |}].
Proof.
  destruct (EvmClaims.frames_are_atomic idle [] None ltac:(done) toy_evm_ctx toy_vicinity 50 false toy_body toy_stack toy_tx_ready) as [Hkv Hrun].
  { split; [done|]. intros x1 h1 _. split; [done|]. by intros x2 h2 _. }
  pose proof toy_body_ok as [Hok Hlog]. cbv zeta. split; [exact Hkv|].
  destruct (run_evm idle [] None toy_evm_ctx toy_vicinity toy_body _) as [o h2]. cbn [fst snd] in Hok, Hlog |- *. subst o.
  destruct Hrun as (Hrev & _ & Hcom). split.
  - destruct Hrev as (h3 & He & Hst & m & Hsub); [by intros p _|]. exists h3. split; [exact He|]. rewrite Hst, Hsub. split; reflexivity.
  - destruct Hcom as (h3 & He & _ & Hk & _ & _ & _ & _ & _ & _ & _ & Hlogs & _); [by intros p _|]. exists h3. split; [exact He|].
    split; [exact Hk|]. rewrite Hlogs, Hlog. reflexivity.
Defined.

(** * Ethereum transactions, exponentiation and blocks *)

Lemma raw_decode_exact_witness :
  raw_decode [x01] (Some 23294%N) 8 NATIVE = inr (runtime_tx toy_message [x02; x08] 9 NATIVE).
Proof.
  apply (EvmClaims.raw_decode_exact [x01] 23294 8 NATIVE); [intros e [= <-]; by split|].
  eexists _, [x02; x08], 9%N. split; [reflexivity|]. split; [done|].
  split; [split; [done|split; [done|split; [done|by eexists]]]|]. split; [done|]. done.
Defined.

(** An address that is not a builtin one but runs the recovery of addresses. *)
Definition toy_shadowed : H160 := exist _ ([x00; x07] ++ replicate 17 x00 ++ [x01]) eq_refl.
Example shadowed_address : is_builtin toy_shadowed = false ∧ builtin idle [] toy_evm_ctx toy_shadowed = Some call_ecrecover.
Proof. done. Qed.

(** 3 ^ 5 mod 7, in two bytes, for 200 units of gas; with only 100 units left it fails. *)
Definition toy_modexp : PrecompileHandle := {|
  ph_code_address := h160_default; ph_input := be_bytes 32 1 ++ be_bytes 32 1 ++ be_bytes 32 2 ++ [x03; x05; x00; x07];
  ph_context_address := h160_default; ph_context_caller := h160_default; ph_is_static := false |}.
Definition toy_gas_stack (gas : N) : StackState :=
  {| es_state := toy_tx_state; es_substate := substate_new (gas, 0%N); es_original_storage := ∅ |}.
Lemma modexp_exact_witness :
  (call_bigmodexp toy_modexp (toy_gas_stack 1000)).1 = Ok [x00; x05] ∧
  (call_bigmodexp toy_modexp (toy_gas_stack 100)).1 = Err (PfError XOutOfGas).
Proof.
  pose proof (EvmClaims.modexp_exact toy_modexp (toy_gas_stack 1000)) as H1.
  pose proof (EvmClaims.modexp_exact toy_modexp (toy_gas_stack 100)) as H2. cbv zeta in H1, H2.
  rewrite decide_True in H1, H2 by (vm_compute; repeat split; discriminate).
  split; [rewrite H1|rewrite H2]; vm_compute; reflexivity.
Defined.

Definition at_round (n : N) : Ctx :=
  {| ctx_local_config := ∅; ctx_key_manager := None; ctx_round := n; ctx_epoch := 4;
     ctx_good_compute_entities := []; ctx_bad_compute_entities := []; ctx_messages := []; ctx_max_messages := 2; ctx_now := 7000 |}.
Lemma toy_no_hashes : hashes ∅ toy_tx_state.
Proof.
  apply table_empty. intros b. unfold at_key, toy_tx_state. simpl.
  apply (lookup_singleton_ne (M := gmap bytes)). discriminate.
Qed.
(** Blocks of the rounds 0, 1, 2 and 257: those of the rounds 0 and 2 are known. *)
Lemma block_hash_window_witness :
  ∃ s', for_each (at_round <$> [0; 1; 2; 257])%N evm_end_block toy_tx_state = (Ok tt, s') ∧
    let h := {| es_state := s'; es_substate := substate_new (0%N, 0%N); es_original_storage := ∅ |} in
    (block_hash (E := Empty_set) 0 h).1 = Ok (toy_h256 x0a) ∧ (block_hash (E := Empty_set) 1 h).1 = Ok h256_default ∧
    (block_hash (E := Empty_set) 2 h).1 = Ok (toy_h256 x0b).
Proof.
  destruct (EvmClaims.block_hash_window (at_round <$> [0; 1; 2; 257])%N toy_tx_state) as (s' & Hrun & _ & Hget).
  - exists (new_overlay toy_root). split; [done|]. split; [apply toy_root_wf|by eexists].
  - apply toy_no_hashes.
  - repeat constructor.
  - repeat constructor; vm_compute; discriminate.
  - exists s'. split; [exact Hrun|]. intros h.
    assert (∀ n, (n ≤ 3)%N → fits64 n) as Hf by (intros n Hn; unfold fits64, u64_max; lia).
    destruct (Hget h 0%N eq_refl (Hf 0%N ltac:(done))) as (o0 & -> & H0). destruct (Hget h 1%N eq_refl (Hf 1%N ltac:(done))) as (o1 & -> & H1).
    destruct (Hget h 2%N eq_refl (Hf 2%N ltac:(done))) as (o2 & -> & H2). cbn [fst].
    assert (o0 = Some (toy_h256 x0a)) as ->.
    { apply H0. exists (at_round 0). repeat split; [by left|by left]. }
    assert (o2 = Some (toy_h256 x0b)) as ->.
    { apply H2. exists (at_round 2). split; [by do 2 right; left|]. repeat split. right. intros c' Hc'.
      repeat (apply elem_of_cons in Hc' as [->|Hc']; [discriminate|]). by apply not_elem_of_nil in Hc'. }
    destruct o1 as [x|]; [|done]. destruct (proj1 (H1 x) eq_refl) as (c & _ & _ & _ & [?|Hno]); [done|].
    exfalso. apply (Hno (at_round 257)); [by do 3 right; left|reflexivity].
Defined.

(** * A signed query *)

Definition toy_leash : Leash := {| leash_nonce := 0; leash_block_number := 0; leash_block_hash := toy_h256 x0a; leash_block_range := 1 |}.
Definition toy_signature : bytes_n 65 := exist _ (replicate 65 x1c) eq_refl.
Definition toy_pack : SignedCallDataPack :=
  {| pack_data := {| call_format := Plain; call_method := ""; call_body := [x01]; call_read_only := false |};
     pack_leash := toy_leash; pack_signature := toy_signature |}.
(** The same with its call in an envelope. *)
Definition toy_sealed_pack : SignedCallDataPack :=
  {| pack_data := Confidential.toy_call; pack_leash := toy_leash; pack_signature := toy_signature |}.
Definition toy_query : SimulateCallQuery :=
  {| scq_gas_price := 5; scq_gas_limit := 100; scq_caller := toy_h160 x05; scq_address := Some (toy_h160 x07); scq_value := 0; scq_data := [x0f] |}.
#[local] Instance toy_evm_values : EvmValues := {|
  pack_from_slice b :=
    if bool_decide (b = [x0f]) then Some toy_pack else if bool_decide (b = [x0e]) then Some toy_sealed_pack else None;
  evv_config := {| to_value _ := []; from_value _ := None |};
  evv_bytes := {| to_value b := b; from_value v := Some v |};
  evv_u128 := {| to_value n := be_bytes 16 n; from_value v := Some (from_be v) |};
  evv_storage := {| to_value _ := []; from_value _ := None |};
  evv_code := {| to_value _ := []; from_value _ := None |};
  evv_balance := {| to_value _ := []; from_value _ := None |};
  evv_simulate := {| to_value _ := []; from_value _ := None |};
  encode_packed := @concat _;
|}.
(** The state behind the block of round 0. *)
Definition toy_evm_state : State := (evm_end_block (at_round 0) toy_tx_state).2.
Lemma toy_evm_ready : ready toy_evm_state.
Proof.
  assert (framed (evm_end_block (at_round 0))) as Hf by (unfold evm_end_block; solve_framed). apply (Hf _ toy_tx_ready).
Qed.
Lemma toy_simulation_ok : (query_simulate_call idle [] None toy_evm_ctx [] toy_query toy_evm_state).1 = Ok [x2a; x2b].
Proof. vm_compute. reflexivity. Qed.
Definition toy_sealed_query : SimulateCallQuery :=
  {| scq_gas_price := 5; scq_gas_limit := 100; scq_caller := toy_h160 x05; scq_address := Some (toy_h160 x07); scq_value := 0; scq_data := [x0e] |}.
Definition toy_sealed_ctx : Ctx :=
  {| ctx_local_config := ∅; ctx_key_manager := Some (λ _ _, inr [x07]); ctx_round := 1; ctx_epoch := 4;
     ctx_good_compute_entities := []; ctx_bad_compute_entities := []; ctx_messages := []; ctx_max_messages := 2; ctx_now := 7000 |}.
Lemma toy_sealed_ok : (query_simulate_call idle [] None toy_sealed_ctx [x01] toy_sealed_query toy_evm_state).1 = Ok [].
Proof. vm_compute. reflexivity. Qed.
End EvmWitnesses.
